(* ===== verification/_CoqProject ===== *)
-Q . S2P
Prelude.v
External.v
Identity.v
Limits.v
KeySet.v
Admission.v
Ledger.v
Operation.v
Matching.v
Permit.v
Write.v
Framing.v
Machine.v
Journal.v
Core.v
Recovery.v
Ownership.v
MachineSpec.v
CoreSpec.v
CoreAdmission.v
CoreProgress.v
System.v
RecoverySpec.v
Conservation.v
Lifecycle.v
Reference.v
ReferenceFacts.v
Refinement.v
CoreView.v
Sample.v
RunTheorems.v
CallTheorems.v
ComponentTheorems.v
Host.v
Config.v
Transport.v
SlotData.v
Slot.v
Drive.v
SlotSpec.v
SlotCalls.v
DriveSpec.v
QuantumSpec.v
SlotSystem.v
SlotFrame.v
SlotStanding.v
SlotTheorems.v
HostSample.v
SlotWitnesses.v
SetHost.v
SetData.v
SetOwner.v
SetSpec.v
SetLife.v
SetTurns.v
SetStanding.v
SetIsolation.v
SetSystem.v
SetRuns.v
SetForward.v
SetWork.v
SetTheorems.v
Standalone.v
StandaloneTheorems.v
Tcp.v
Tls.v
TlsTransport.v
TlsSession.v
TlsTheorems.v
SetSample.v
SetWitnesses.v
SimTrace.v
SimHost.v
SimWire.v
SimTransport.v
SimReplay.v
SimSlotReplay.v
SimSlotRuns.v
SimTheorems.v
SimWitnesses.v
