(* ===== verification/Prelude.v ===== *)
(** * Bornera: verified connection cores, slots, sets, transports and simulation

    Bornera keeps the obligations of one multiplexed connection: which
    operations were accepted, what of their frames left, what answer or failure
    each is owed, and when memory and identities are given back. It has no
    sockets and no clock of its own. This library models the crate
    [bornera-core] (under [src/crates/bornera-core/src/]) and, of the crate
    [bornera] (under [src/crates/bornera/src/]), the slot that drives one core
    over a transport, the set that owns many slots over one selector, and the
    standalone connection, a set of one, with the native TCP transport; the
    crate [bornera-rustls] (under [src/crates/bornera-rustls/src/]), a TLS
    transport and sessions without a socket; and the crate [bornera-sim] (under
    [src/crates/bornera-sim/src/]), which replays traces of actions on the core
    and on the slot. Definitions keep the names of the Rust
    items: a type [X] is [X.t] in [Module X], a method [X::f] is [X.f].

    ** The program

    - An adapter asks [ConnectionCore::reserve] for a permit: the machine
      ([ConnectionMachine]) checks phase, gate and deadline, the ledger
      ([ReservationLedger], shared with the permits) takes counts, bytes and a
      match key, and the generator hands out identities. A permit that is
      dropped gives everything back; [commit] consumes it with a frame, queues
      the frame in [WriteQueue] and the operation in [OrderedVerified].
    - Bytes leave through [front_write] and [advance_write]; the first byte
      weakens the delivery claim of its operation for good. Replies, deadlines,
      cancellations, drains and closes go through [apply] and [apply_reply].
      Each returns a [ConnectionTransition], a list of effects for the host.
    - When policy, writer and ledger disagree the core poisons itself, and
      [CoreRecovery.recover] extracts every operation and frame it still owns,
      with the help of a journal ([RecoveryJournal]).
    - A [ConnectionSlot] hosts a core: it interprets effects into bounded
      publication batches, one timer per operation and lifecycle events, drives
      the transport by bounded quanta, and latches its first fatal failure.
    - A [ConnectionSet] keeps slots and their transports in a table with
      generations, names them by [ConnectionToken]s, and turns: commands of its
      mailbox, readiness of its selector, then one quantum for each connection
      of a bounded share of its ready queue. A failed selector fences every
      slot. [StandaloneConnection] wraps a set of capacity one.
    - A [TcpTransport] connects a nonblocking stream, applies its socket policy
      and reads and writes it as readiness allows; a [RustlsTransport] puts a
      bounded rustls connection between the stream and the slot, one TLS
      operation per call. A [RustlsClientSession] or [RustlsServerSession] is
      such a connection without the stream: its owner moves the ciphertext.
    - [Simulator] replays a bounded [Trace] on a core, [SlotSimulator] a
      [SlotTrace] on a slot over an in-memory transport, with a wire protocol of
      its own, in virtual time.

    ** Files, in order

    Shared: [Prelude] (results, the state and error monad, machine-width
    integers, list lemmas, hints), [External] and [Host] (third-party parts, as
    classes with their laws).

    [bornera-core], one file per part of the crate: [Identity] (identity.rs,
    delivery.rs), [Limits] (limits.rs, write/limits.rs), [KeySet]
    (admission/key_set.rs), [Admission] (admission/gate.rs, options.rs,
    error.rs), [Ledger] (admission/ledger.rs), [Operation] (operation/,
    connection/effect.rs), [Matching] (matching/), [Permit]
    (admission/permit.rs), [Write] (write/), [Framing] (framing/), [Machine]
    (connection/, the policy side), [Journal] (connection/journal.rs), [Core]
    (connection/core.rs, progress.rs, integrity.rs), [Recovery]
    (connection/recovery.rs, recovery_item.rs).

    Its proofs: [Ownership] states the invariant, one list of owned operations
    that policy, ledger, writer and journal all agree on, and the rules
    ([change]) by which a transition may alter it. [MachineSpec], [CoreSpec],
    [CoreAdmission], [CoreProgress] show that every method keeps it. [System]
    runs whole epochs. [RecoverySpec] and [Conservation] are about recovery,
    from an agreeing core and from any core; [Lifecycle] about any core moving
    forward only. [Reference] is an abstract specification of the policy (a
    list of observable operations and one function per input), [Refinement]
    the simulation, [ReferenceFacts] what its effects tell a host ([told]), and
    [CoreView] the interface the slot's proofs use ([held]): what a host sees
    of the core it owns, one lemma per call.

    [bornera]: [Config] (config/identity.rs, config/slot_limits.rs, socket.rs,
    frame.rs), [Transport] (transport/budget.rs, progress.rs, pressure.rs,
    error.rs, port.rs, the diagnostics of snapshot.rs), [SlotData] (event.rs,
    outcome.rs, error.rs, classifier.rs, the data of recovery.rs and
    snapshot.rs), [Slot] (slot.rs, state.rs, lifecycle.rs, transition.rs,
    admission.rs, control.rs, failure.rs, slot_close.rs, recovery.rs), [Drive]
    (drive/).

    Its proofs: [SlotSpec] ties a slot to the view of its core ([hosted]) and
    proves that interpreting a [told] transition cannot fail; [SlotCalls] is
    the invariant [sound] and one lemma per method; [DriveSpec] and
    [QuantumSpec] run a quantum against any transport, and count what a quantum
    that a deadline woke spends of it; [SlotSystem] runs whole lives of a slot,
    its module [SlotRuns] carries the invariant along them. [SlotFrame] shows
    what a call of a slot leaves alone, [SlotStanding] what its owner relies on
    among other slots (its module [SlotForced] is the close as drained without
    a drain).

    The set: [SetHost] (mio, the resource table and the mailbox, as classes with
    laws), [SetData] (token.rs, command.rs, config/set_limits.rs,
    connection_error.rs, the set's part of snapshot.rs, transport/port.rs),
    [SetOwner] (set.rs, set_access.rs, set_failure.rs, set_settle.rs,
    set_recovery.rs, set_connect.rs, port.rs, set_drive.rs, set_drive/),
    [Standalone] (standalone.rs, standalone/, waiter.rs).

    Its proofs: [SetSpec] reads the table as a finite map ([live]) and shows
    what a method touches; [SetLife] is about connections that come and go,
    [SetTurns] about turns; [SetStanding] and [SetIsolation] confine the work of
    one entry to it; [SetSystem] runs whole lives of a set and [SetRuns] carries
    the invariant ([sane]) along them; [SetForward] is what no call undoes,
    [SetWork] the work of a turn, its module [SetSpin] failed connections that
    are overdue. [StandaloneSystem], in [StandaloneTheorems], embeds the runs of
    a standalone connection in those of a set.

    Transports: [Tcp] (transport/tcp.rs, transport/tcp_port.rs, the connectors
    of set_connect.rs and standalone/connect.rs, and the contract of the
    transport), and of [bornera-rustls] [Tls] (config.rs, client_config.rs,
    server_config.rs, diagnostic.rs, limited.rs), [TlsTransport] (transport.rs,
    establish.rs, tls_io.rs, application.rs, port.rs, connector.rs),
    [TlsSession] (client_session.rs, client_io.rs, client_status.rs and the
    server's three files of the same shape).

    [bornera-sim]: [SimTrace] (frame.rs, trace.rs, slot_trace.rs,
    slot_trace_error.rs), [SimHost] (byte buffers, virtual time), [SimWire]
    (wire.rs, with what its decoder makes of any chunks), [SimTransport]
    (slot_transport.rs, slot_transport_state.rs, with its contract), [SimReplay]
    (config.rs, report.rs, replay.rs, with the invariant of a replay),
    [SimSlotReplay] (slot_config.rs, slot_report.rs, slot_apply.rs,
    slot_replay.rs). [SimSlotRuns] reads a replay of a slot trace as a run of
    [SlotSystem], and shows that its timeline runs dry.

    ** What the theorems show

    - [RunTheorems]: on every run of an epoch the core never poisons itself,
      every accepted operation gets exactly one outcome and one deadline
      cancellation, a claim that nothing was sent is never wrong, frames leave
      in commit order, the limits hold, keys and identities are distinct, a
      drain waits for its operations, a closed epoch owns nothing; recovery
      returns what is owed, from any state whatsoever without loss, and after a
      transport that over-reports its writes.
    - [CallTheorems]: each method of the core, branch by branch, and its
      refinement of [Reference]; a poisoned core refuses every call unchanged.
    - [ComponentTheorems]: the open-addressing key table refines a set, the
      ledger never wraps, the ownership audit is exact, the journal round-trips,
      the decoder driver is bounded, an epoch's lifecycle is one-way.
    - [SlotTheorems]: over a transport that keeps its contract a slot never
      fails; over one that only counts its writes nothing but a quantum fails
      it, and blames the transport; outcomes, deadlines and lifecycle events are
      exact; a forced close settles; recovery of a slot accounts for every
      operation; over a transport that keeps its contract no deadline makes a
      slot spin: the quanta that a deadline woke are paid for by deadlines that
      are gone. The runs these are about ([SlotSystem.admissible]) never close
      an epoch for the reason [Drained] by hand: that call fails the slot,
      which [finalize_drained_latches] shows.
      [QuantumTheorems], in the same file: a quantum stays within its work
      budget and its loops end by themselves, on any state; a failed slot
      refuses everything.
    - [SetTheorems]: over any selector each connection of a set gives every
      accepted operation one outcome and recovers what is owed; a call for one
      connection leaves the others as they were; the ready queue is exact and
      served in turn; a turn is bounded and leaves no work behind that it does
      not announce, elapsed deadlines included; a construction that fails spends
      one token and leaves nothing else behind; a selector failure fences every connection;
      a token that is gone names nothing again. Failed connections with elapsed
      timers keep a set awake ([set_failed_spin], the finding of ready.rs).
    - [StandaloneTheorems]: the standalone connection refines a set of one, in
      its states and in its answers.
    - [SimTheorems]: the simulated wire protocol round-trips however it is cut,
      the simulated transport keeps the contract of a trusted one, traces stay
      within their limits, a replay of either kind accounts for every
      operation, and the replay of a slot trace ends (for traces that do not
      close the slot as [Drained] by hand).
    - [TlsTheorems]: the native and the TLS transport keep the contract that the
      theorems about slots and sets ask for, the TLS one accounting for the
      configured pressure and with a clean end of input only if the peer's
      [close_notify] was authenticated; what TLS transports and sessions count
      is within their limits whatever is called, what their connections hold is
      until a failure is reported or pending; sessions fail once.

    [Sample], [HostSample], [SetSample] and [SimWitnesses] instantiate all of it
    ([u64] counts, frames of bytes, host parts made of lists, transports,
    selector, sockets and TLS connections in memory); [SlotWitnesses],
    [SetWitnesses] and [SimWitnesses] apply the theorems to runs evaluated by
    computation.

    ** Modelling choices

    - [usize] and [u64] are 64 bits wide; [usize] and counts are [Z] with the
      checks, saturation and wrap-around of the code written out.
    - A method on [&mut self] returns the new value. [Rc<RefCell<Ledger>>] is an
      address in an explicit heap ([Permit.Heap]); dropping a permit is the
      call [OperationPermit.drop] that Rust inserts. Debug assertions are a
      parameter ([BuildConfig]): every theorem holds in both profiles.
    - A [Vec] or [VecDeque] is a list; the key table and the journal are lists
      of optional slots, as in the code.
    - A loop takes fuel: the table's probes the number of its slots, the
      machine's close loop the number of records, [Drive]'s loops the work
      budget. The table is proved to find every key within it, the quantum
      loops to do the same with any larger fuel ([quantum_loops_end]), and the
      recovery loops run over the slots themselves. The replay of a slot trace
      is proved to end with fuel for twice its actions and three deadlines more
      ([sim_slot_replay_ends]); establishing a TCP stream takes at most three
      operations between two reports of the selector ([establishing_ends]).
    - The files of the TLS server session repeat those of the client over
      another connection type of rustls. The methods are written once
      ([RustlsSession]), over either type.

    ** What is assumed

    [CalandriaLaws] and [ByteBudgetLaws]: retained counts are [u64] with checked
    arithmetic, a budget refuses what does not fit. [HostLaws]: a batch is a
    bounded queue, a timer queue holds the entries it armed and pops elapsed
    ones; [DeadlineLaws], where deadlines are counted, orders them. [SetHostLaws]: the resource table never issues a token twice, a
    mailbox gives its items in order, a selector that refuses a registration
    did not make it. [AllocatorLaws] and [SimHostLaws]: a reservation has the
    room asked for; moments are totally ordered, a timer queue names its next
    deadline, a timeline with room holds what is scheduled and delivers the
    earliest event. [TransportContract]: a write accepts no more than it was
    given; the rest of the documented contract only where a theorem says
    [trusted]. [RegisteredContract]: registering a transport does not disturb
    that contract; what a connector returns keeps it. [SocketLaws]: a stream
    reads and writes no more than its buffer, a readiness loses the flags that
    are removed and gains none by it. [RustlsLaws]: a rustls connection passes
    TLS only through the reader and writer it is given and counts what it
    passed; what makes a close
    authenticated is left to [Authenticity.learned], any property of connections
    that rustls's report of a closed peer establishes and its methods keep; and
    the bytes a connection holds to [Authenticity.measured], any property that
    rustls's report of what is buffered decides and that moving ciphertext or
    taking plaintext keeps. Clocks, decoders and classifiers are arbitrary. [System] assumes that a frame keeps showing the
    bytes measured at commit, and that the transport reports no more bytes than
    remain; the slot discharges both for [OutboundFrame]. [valid_limits] asks
    for room for the four lifecycle events of an epoch, which the code leaves to
    the configuration. The runs of a set ([SetSystem]) construct each
    connection at a ledger address of its own, as an allocator would.

    ** Not modelled

    The operating system's sockets, the mio poll and rustls itself (third-party
    code, parameters with laws); the [Source] impls of the two transports, which
    hand registration to the stream ([TlsTransportSpec.delegates] states it);
    [Display] and [Debug] texts. A [StandaloneConnection] whose construction failed drops its set at once: the model returns the heap and
    the error. Arms the compiler requires for non-exhaustive enums of the same
    workspace ([UnsupportedCoreEffect]) have no counterpart. *)
From Stdlib Require Import ZArith Lia.
From stdpp Require Import prelude.

Set Default Proof Using "Type".

Declare Scope bornera_scope.
Delimit Scope bornera_scope with bornera.
#[global] Open Scope bornera_scope.
#[global] Open Scope Z_scope.

Create HintDb bornera discriminated.

(** ** Results *)

(** Rust's [Result<A, E>]. *)
Inductive result (A E : Type) : Type :=
  | Ok (value : A)
  | Err (error : E).
Arguments Ok {A E} value.
Arguments Err {A E} error.

Definition is_ok {A E : Type} (r : result A E) : bool :=
  match r with Ok _ => true | Err _ => false end.

(** The [?] operator on a plain [Result]. *)
Notation "'let?' x := c 'in' k" :=
  (match c with Ok x => k | Err e => Err e end)
  (at level 10, x pattern, c at level 200, k at level 200) : bornera_scope.

(** ** A state and error monad

    A method that takes [&mut self] and returns [Result<A, E>] is a function
    from the state to the state it leaves and its result: Rust keeps the
    mutations a method made before it returned an error, so the state comes
    back on both branches. *)
Definition STE (S E A : Type) : Type := S → S * result A E.

Section ste.
Context {S E : Type}.

Definition ste_ret {A : Type} (a : A) : STE S E A := λ s, (s, Ok a).

Definition ste_err {A : Type} (e : E) : STE S E A := λ s, (s, Err e).

Definition ste_bind {A B : Type} (c : STE S E A) (k : A → STE S E B) : STE S E B :=
  λ s, match c s with
       | (s', Ok a) => k a s'
       | (s', Err e) => (s', Err e)
       end.

Definition ste_get : STE S E S := λ s, (s, Ok s).

Definition ste_modify (f : S → S) : STE S E unit := λ s, (f s, Ok tt).

(** The three laws of the monad. *)
Lemma ste_bind_ret_l {A B : Type} (a : A) (k : A → STE S E B) (s : S) :
  ste_bind (ste_ret a) k s = k a s.
Proof. reflexivity. Qed.

Lemma ste_bind_ret_r {A : Type} (c : STE S E A) (s : S) :
  ste_bind c ste_ret s = c s.
Proof. unfold ste_bind, ste_ret. by destruct (c s) as [s' []]. Qed.

Lemma ste_bind_assoc {A B D : Type} (c : STE S E A) (k : A → STE S E B)
    (k' : B → STE S E D) (s : S) :
  ste_bind (ste_bind c k) k' s = ste_bind c (λ a, ste_bind (k a) k') s.
Proof. unfold ste_bind. by destruct (c s) as [s' []]. Qed.

(** How a sequence that reached its end must have run. *)
Lemma ste_bind_ok_inv {A B : Type} (c : STE S E A) (k : A → STE S E B) s s' b :
  ste_bind c k s = (s', Ok b) →
  ∃ s1 a, c s = (s1, Ok a) ∧ k a s1 = (s', Ok b).
Proof. unfold ste_bind. destruct (c s) as [s1 []]; naive_solver. Qed.

Lemma ste_bind_ext {A B : Type} (c : STE S E A) (k k' : A → STE S E B) s :
  (∀ a s1, k a s1 = k' a s1) → ste_bind c k s = ste_bind c k' s.
Proof. intros Hk. unfold ste_bind. by destruct (c s) as [s1 []]. Qed.

Lemma ste_bind_ok {A B : Type} (c : STE S E A) (k : A → STE S E B) s s1 a :
  c s = (s1, Ok a) → ste_bind c k s = k a s1.
Proof. unfold ste_bind. by intros ->. Qed.

Lemma ste_bind_err {A B : Type} (c : STE S E A) (k : A → STE S E B) s s1 e :
  c s = (s1, Err e) → ste_bind c k s = (s1, Err e).
Proof. unfold ste_bind. by intros ->. Qed.
End ste.

Notation "'let!' x := c 'in' k" := (ste_bind c (λ x, k))
  (at level 10, x pattern, c at level 200, k at level 200) : bornera_scope.
Notation "c ';;!' k" := (ste_bind c (λ _, k))
  (at level 100, k at level 200, right associativity) : bornera_scope.

(** ** Fixed-width integers

    [u32], [u64] and [usize] values are integers of [Z]; [usize] has the 64
    bits of the production targets. *)
Definition U32_MAX : Z := 2 ^ 32 - 1.
Definition U64_MAX : Z := 2 ^ 64 - 1.
Definition USIZE_MAX : Z := 2 ^ 64 - 1.

Definition in_u32 (v : Z) : Prop := 0 ≤ v ≤ U32_MAX.
Definition in_u64 (v : Z) : Prop := 0 ≤ v ≤ U64_MAX.
Definition in_usize (v : Z) : Prop := 0 ≤ v ≤ USIZE_MAX.

(** Wrap-around of the arithmetic operators at each width. *)
Definition u32_wrap (v : Z) : Z := v mod 2 ^ 32.
Definition u64_wrap (v : Z) : Z := v mod 2 ^ 64.
Definition usize_wrap (v : Z) : Z := v mod 2 ^ 64.

Definition u64_checked_add (a b : Z) : option Z :=
  if a + b <=? U64_MAX then Some (a + b) else None.
Definition usize_checked_add (a b : Z) : option Z :=
  if a + b <=? USIZE_MAX then Some (a + b) else None.
Definition usize_checked_sub (a b : Z) : option Z :=
  if b <=? a then Some (a - b) else None.
Definition u64_checked_mul (a b : Z) : option Z :=
  if a * b <=? U64_MAX then Some (a * b) else None.
Definition u64_saturating_sub (a b : Z) : Z := Z.max 0 (a - b).
Definition u64_saturating_add (a b : Z) : Z := Z.min (a + b) U64_MAX.
Definition usize_saturating_add (a b : Z) : Z := Z.min (a + b) USIZE_MAX.
Definition usize_checked_mul (a b : Z) : option Z :=
  if a * b <=? USIZE_MAX then Some (a * b) else None.

(** [usize::checked_next_power_of_two]. *)
Definition usize_checked_next_power_of_two (a : Z) : option Z :=
  let p := 2 ^ Z.log2_up a in
  if p <=? USIZE_MAX then Some p else None.

(** [NonZeroUsize], built only by its checked constructor. *)
Record NonZeroUsize : Type := mk_nonzero { nonzero_get : Z }.
#[global] Instance NonZeroUsize_eq_dec : EqDecision NonZeroUsize.
Proof. solve_decision. Defined.

Definition nonzero_new (v : Z) : option NonZeroUsize :=
  if v =? 0 then None else Some (mk_nonzero v).

Lemma u32_wrap_small (v : Z) : in_u32 v → u32_wrap v = v.
Proof. unfold in_u32, U32_MAX, u32_wrap. intros. apply Z.mod_small. lia. Qed.

Lemma usize_wrap_small (v : Z) : in_usize v → usize_wrap v = v.
Proof. unfold in_usize, USIZE_MAX, usize_wrap. intros. apply Z.mod_small. lia. Qed.

Lemma usize_checked_sub_Some (a b c : Z) :
  usize_checked_sub a b = Some c ↔ b ≤ a ∧ c = a - b.
Proof. unfold usize_checked_sub. destruct (Z.leb_spec b a); naive_solver lia. Qed.

Lemma usize_checked_sub_le (a b : Z) : b ≤ a → usize_checked_sub a b = Some (a - b).
Proof. intros. by apply usize_checked_sub_Some. Qed.

Lemma usize_checked_add_le (a b : Z) :
  a + b ≤ USIZE_MAX → usize_checked_add a b = Some (a + b).
Proof. intros. unfold usize_checked_add. case_match; [done|lia]. Qed.

(** ** Sequences indexed by position: [VecDeque], [Vec] and slices *)

(** [iter().position(f)]. *)
Fixpoint position {A : Type} (f : A → bool) (l : list A) : option nat :=
  match l with
  | [] => None
  | x :: l => if f x then Some 0%nat else S <$> position f l
  end.

(** [VecDeque::remove(index)]. *)
Definition remove_at {A : Type} (i : nat) (l : list A) : option (A * list A) :=
  x ← l !! i; Some (x, take i l ++ drop (S i) l).

(** [Vec::swap_remove(index)]: the last element takes the place of the removed one. *)
Definition swap_remove {A : Type} (i : nat) (l : list A) : option (A * list A) :=
  x ← l !! i; y ← last l; Some (x, take (length l - 1) (<[i := y]> l)).

(** [slice.get(a..b)]: [None] outside the slice. *)
Definition slice_get {A : Type} (a b : Z) (l : list A) : option (list A) :=
  if (0 <=? a) && (a <=? b) && (b <=? Z.of_nat (length l))
  then Some (take (Z.to_nat (b - a)) (drop (Z.to_nat a) l))
  else None.

Lemma position_Some {A : Type} (f : A → bool) (l : list A) (i : nat) :
  position f l = Some i →
  ∃ x, l !! i = Some x ∧ f x = true ∧ l = take i l ++ x :: drop (S i) l
       ∧ Forall (λ y, f y = false) (take i l).
Proof.
  revert i. induction l as [|y l IH]; intros i; simpl; [done|].
  destruct (f y) eqn:E.
  - intros [= <-]. exists y. repeat split; simpl; auto.
  - destruct (position f l) as [j|]; simpl; [|done]. intros [= <-].
    destruct (IH j eq_refl) as (x & Hx & Hf & Hl & Ha). exists x.
    split; [done|]. split; [done|]. split; [by rewrite Hl at 1|]. by constructor.
Qed.

Lemma position_None {A : Type} (f : A → bool) (l : list A) :
  position f l = None ↔ Forall (λ y, f y = false) l.
Proof.
  induction l as [|y l IH]; simpl; [by split|].
  rewrite Forall_cons. destruct (f y) eqn:E; [split; [done|]; naive_solver|].
  destruct (position f l); simpl; naive_solver.
Qed.

Lemma remove_at_lookup {A : Type} (i : nat) (l : list A) (x : A) :
  l !! i = Some x → remove_at i l = Some (x, take i l ++ drop (S i) l).
Proof. unfold remove_at. by intros ->. Qed.

(** [Vec::swap_remove] takes out the element of an index in range. *)
Lemma swap_remove_perm {A : Type} (i : nat) (l : list A) (x : A) :
  l !! i = Some x → ∃ l', swap_remove i l = Some (x, l') ∧ l ≡ₚ x :: l'.
Proof.
  intros Hi. unfold swap_remove. rewrite Hi. simpl.
  destruct l as [|y l _] using rev_ind; [by rewrite lookup_nil in Hi|].
  rewrite last_snoc. simpl. eexists. split; [done|]. rewrite length_app. simpl.
  replace (length l + 1 - 1)%nat with (length l) by lia.
  destruct (decide (i < length l)%nat) as [Hlt|Hge].
  - rewrite lookup_app_l in Hi by done. rewrite insert_app_l by done.
    rewrite take_app_length' by by rewrite length_insert.
    rewrite <- (take_drop_middle _ _ _ Hi) at 1.
    rewrite (insert_take_drop l i y) by done. solve_Permutation.
  - assert (i = length l) as -> by (apply lookup_lt_Some in Hi; rewrite length_app in Hi;
      simpl in Hi; lia).
    rewrite list_lookup_middle in Hi by done. injection Hi as ->.
    rewrite insert_app_r_alt, Nat.sub_diag by lia. simpl.
    rewrite take_app_length' by done. solve_Permutation.
Qed.

(** The first element that satisfies [f] splits the list. *)
Lemma position_app {A : Type} (f : A → bool) (l1 l2 : list A) (x : A) :
  Forall (λ y, f y = false) l1 → f x = true →
  position f (l1 ++ x :: l2) = Some (length l1).
Proof.
  induction 1 as [|y l1 Hy _ IH]; simpl; intros Hx; [by rewrite Hx|].
  by rewrite Hy, IH.
Qed.

(** What holds of a list holds of its sublists. *)
Lemma Forall_sublist {A : Type} (P : A → Prop) (l k : list A) :
  sublist l k → Forall P k → Forall P l.
Proof. induction 1; intros Hk; [done|..]; apply Forall_cons in Hk as [? ?]; auto. Qed.

(** ** Sums over lists *)

Section zsum.
Context {A : Type} (f : A → Z).

Fixpoint zsum (l : list A) : Z :=
  match l with [] => 0 | x :: l => f x + zsum l end.

Lemma zsum_app (l1 l2 : list A) : zsum (l1 ++ l2) = zsum l1 + zsum l2.
Proof. induction l1; simpl; lia. Qed.

Lemma zsum_nonneg (l : list A) : (∀ x, 0 ≤ f x) → 0 ≤ zsum l.
Proof. intros Hf. induction l as [|x l IH]; simpl; [done|]. specialize (Hf x). lia. Qed.

#[global] Instance zsum_perm : Proper ((≡ₚ) ==> (=)) zsum.
Proof. induction 1; simpl; lia. Qed.
End zsum.

Lemma zsum_ext {A : Type} (f g : A → Z) (l : list A) :
  (∀ x, x ∈ l → f x = g x) → zsum f l = zsum g l.
Proof.
  induction l as [|x l IH]; simpl; [done|]. intros H.
  rewrite (H x) by constructor. rewrite IH; [done|]. intros y Hy. apply H. by constructor.
Qed.

Lemma zsum_fmap {A B : Type} (f : B → Z) (g : A → B) (l : list A) :
  zsum f (g <$> l) = zsum (λ x, f (g x)) l.
Proof. induction l as [|x l IH]; csimpl; lia. Qed.

Lemma zsum_length {A : Type} (l : list A) : zsum (λ _, 1) l = Z.of_nat (length l).
Proof. induction l as [|x l IH]; simpl; lia. Qed.
