(* ===== verification/External.v ===== *)
(** * Code outside the repository

    The value types of the [calandria] crate (retained-memory counts, moments
    and deadlines) and the aggregate budget of the [bytebudget] crate are used
    by the sources and defined elsewhere. They are parameters of the model:
    each is a class of operations with, beside it, a class of the documented
    behaviour the code relies on. [calandria_u64] and [bytebudget_u64] are
    concrete implementations over [u64] values, used to evaluate the model. *)
From Stdlib Require Import ZArith Lia.
From stdpp Require Import prelude.
From S2P Require Import Prelude.

(** ** The build profile *)

(** [cfg!(debug_assertions)]: whether the crate was built with debug
    assertions. Every theorem holds for both profiles. *)
Class BuildConfig : Type := { debug_assertions : bool }.

(** ** [calandria] *)

Class Calandria : Type := {
  RetainedBytes : Type;
  rb_new : Z → RetainedBytes;
  rb_get : RetainedBytes → Z;
  rb_ZERO : RetainedBytes;
  rb_checked_add : RetainedBytes → RetainedBytes → option RetainedBytes;
  rb_checked_sub : RetainedBytes → RetainedBytes → option RetainedBytes;
  rb_try_from_usize : Z → option RetainedBytes;
  rb_eqb : RetainedBytes → RetainedBytes → bool;
  rb_gtb : RetainedBytes → RetainedBytes → bool;
  Moment : Type;
  Deadline : Type;
  is_elapsed_at : Deadline → Moment → bool;
}.

(** A retained-byte count is a [u64] with checked arithmetic and the order of
    its value. Nothing is assumed of moments and deadlines. *)
Class CalandriaLaws (Cal : Calandria) : Prop := {
  rb_get_range : ∀ a : RetainedBytes, in_u64 (rb_get a);
  rb_get_inj : ∀ a b : RetainedBytes, rb_get a = rb_get b → a = b;
  rb_get_new : ∀ v, in_u64 v → rb_get (rb_new v) = v;
  rb_get_ZERO : rb_get rb_ZERO = 0;
  rb_checked_add_spec : ∀ a b,
    rb_checked_add a b =
      if rb_get a + rb_get b <=? U64_MAX then Some (rb_new (rb_get a + rb_get b)) else None;
  rb_checked_sub_spec : ∀ a b,
    rb_checked_sub a b =
      if rb_get b <=? rb_get a then Some (rb_new (rb_get a - rb_get b)) else None;
  rb_try_from_usize_spec : ∀ v, in_usize v →
    rb_try_from_usize v = if v <=? U64_MAX then Some (rb_new v) else None;
  rb_eqb_spec : ∀ a b, rb_eqb a b = (rb_get a =? rb_get b);
  rb_gtb_spec : ∀ a b, rb_gtb a b = (rb_get b <? rb_get a);
}.

Section retained_bytes.
Context {Cal : Calandria} {Laws : CalandriaLaws Cal}.

Lemma rb_get_nonneg (a : RetainedBytes) : 0 ≤ rb_get a.
Proof. destruct (rb_get_range a). lia. Qed.

Lemma rb_checked_add_Some (a b c : RetainedBytes) :
  rb_checked_add a b = Some c ↔ rb_get c = rb_get a + rb_get b.
Proof.
  pose proof (rb_get_range a) as Ha; pose proof (rb_get_range b) as Hb.
  pose proof (rb_get_range c) as Hc. unfold in_u64 in *. rewrite rb_checked_add_spec.
  destruct (Z.leb_spec (rb_get a + rb_get b) U64_MAX) as [Hle|Hgt].
  - split; [intros [= <-]; rewrite rb_get_new; unfold in_u64; lia|].
    intros Hs. f_equal. apply rb_get_inj. rewrite rb_get_new; unfold in_u64; lia.
  - split; [done|lia].
Qed.

Lemma rb_checked_add_le (a b : RetainedBytes) :
  rb_get a + rb_get b ≤ U64_MAX →
  ∃ c, rb_checked_add a b = Some c ∧ rb_get c = rb_get a + rb_get b.
Proof.
  intros Hle. exists (rb_new (rb_get a + rb_get b)).
  pose proof (rb_get_nonneg a); pose proof (rb_get_nonneg b).
  assert (rb_get (rb_new (rb_get a + rb_get b)) = rb_get a + rb_get b) as Hg
    by (apply rb_get_new; unfold in_u64; lia).
  split; [by apply rb_checked_add_Some|done].
Qed.

Lemma rb_checked_sub_Some (a b c : RetainedBytes) :
  rb_checked_sub a b = Some c ↔ rb_get c = rb_get a - rb_get b.
Proof.
  pose proof (rb_get_range a) as Ha; pose proof (rb_get_range b) as Hb.
  pose proof (rb_get_range c) as Hc. unfold in_u64 in *. rewrite rb_checked_sub_spec.
  destruct (Z.leb_spec (rb_get b) (rb_get a)) as [Hle|Hgt].
  - split; [intros [= <-]; rewrite rb_get_new; unfold in_u64; lia|].
    intros Hs. f_equal. apply rb_get_inj. rewrite rb_get_new; unfold in_u64; lia.
  - split; [done|lia].
Qed.

Lemma rb_checked_sub_le (a b : RetainedBytes) :
  rb_get b ≤ rb_get a →
  ∃ c, rb_checked_sub a b = Some c ∧ rb_get c = rb_get a - rb_get b.
Proof.
  intros Hle. exists (rb_new (rb_get a - rb_get b)).
  pose proof (rb_get_range a) as Ha; pose proof (rb_get_nonneg b). unfold in_u64 in Ha.
  assert (rb_get (rb_new (rb_get a - rb_get b)) = rb_get a - rb_get b) as Hg
    by (apply rb_get_new; unfold in_u64; lia).
  split; [by apply rb_checked_sub_Some|done].
Qed.

End retained_bytes.

#[export] Hint Resolve rb_get_nonneg : bornera.

(** ** [bytebudget] *)

Class ByteBudgetLib : Type := {
  ByteCount : Type;
  ByteBudget : Type;
  byte_count_new : Z → ByteCount;
  byte_count_get : ByteCount → Z;
  budget_new : ByteCount → ByteBudget;
  budget_used : ByteBudget → ByteCount;
  budget_limit : ByteBudget → ByteCount;
  budget_can_reserve : ByteBudget → ByteCount → bool;
  (** The budget left behind, and whether the call returned [Ok]. *)
  budget_try_reserve : ByteBudget → ByteCount → ByteBudget * bool;
  budget_release : ByteBudget → ByteCount → ByteBudget * bool;
}.

(** A budget counts used bytes up to a fixed limit; a rejected reservation or
    release leaves it unchanged. *)
Class ByteBudgetLaws (BB : ByteBudgetLib) : Prop := {
  byte_count_get_new : ∀ v, in_u64 v → byte_count_get (byte_count_new v) = v;
  byte_count_range : ∀ c, in_u64 (byte_count_get c);
  budget_used_new : ∀ l, byte_count_get (budget_used (budget_new l)) = 0;
  budget_limit_new : ∀ l, budget_limit (budget_new l) = l;
  budget_can_reserve_spec : ∀ b a,
    budget_can_reserve b a =
      (byte_count_get (budget_used b) + byte_count_get a <=? byte_count_get (budget_limit b));
  budget_try_reserve_ok : ∀ b a, (budget_try_reserve b a).2 = budget_can_reserve b a;
  budget_try_reserve_limit : ∀ b a, budget_limit (budget_try_reserve b a).1 = budget_limit b;
  budget_try_reserve_used : ∀ b a,
    byte_count_get (budget_used (budget_try_reserve b a).1) =
      if budget_can_reserve b a
      then byte_count_get (budget_used b) + byte_count_get a
      else byte_count_get (budget_used b);
  budget_release_ok : ∀ b a,
    (budget_release b a).2 = (byte_count_get a <=? byte_count_get (budget_used b));
  budget_release_limit : ∀ b a, budget_limit (budget_release b a).1 = budget_limit b;
  budget_release_used : ∀ b a,
    byte_count_get (budget_used (budget_release b a).1) =
      if byte_count_get a <=? byte_count_get (budget_used b)
      then byte_count_get (budget_used b) - byte_count_get a
      else byte_count_get (budget_used b);
}.

(** ** Concrete implementations *)

(** A [u64] carried with the proof of its range, checked by computation. *)
Record U64 : Type := mk_u64 { u64_val : Z; u64_ok : (0 <=? u64_val) && (u64_val <=? U64_MAX) = true }.

Lemma U64_eq (a b : U64) : u64_val a = u64_val b → a = b.
Proof.
  destruct a as [a Ha], b as [b Hb]; simpl. intros ->. f_equal.
  apply proof_irrel.
Qed.

Lemma U64_range (a : U64) : in_u64 (u64_val a).
Proof. destruct a as [a Ha]; simpl. unfold in_u64. lia. Qed.

Lemma u64_norm_ok (v : Z) : (0 <=? u64_wrap v) && (u64_wrap v <=? U64_MAX) = true.
Proof.
  unfold u64_wrap, U64_MAX. pose proof (Z.mod_pos_bound v (2 ^ 64) eq_refl). lia.
Qed.

Definition u64_of (v : Z) : U64 := mk_u64 (u64_wrap v) (u64_norm_ok v).

Lemma u64_of_val (v : Z) : in_u64 v → u64_val (u64_of v) = v.
Proof. unfold in_u64, U64_MAX; simpl; unfold u64_wrap. intros. apply Z.mod_small. lia. Qed.

(** Moments and deadlines are nanosecond counts; a deadline has elapsed from
    its moment on. *)
Definition calandria_u64 : Calandria := {|
  RetainedBytes := U64;
  rb_new := u64_of;
  rb_get := u64_val;
  rb_ZERO := u64_of 0;
  rb_checked_add a b :=
    if u64_val a + u64_val b <=? U64_MAX then Some (u64_of (u64_val a + u64_val b)) else None;
  rb_checked_sub a b :=
    if u64_val b <=? u64_val a then Some (u64_of (u64_val a - u64_val b)) else None;
  rb_try_from_usize v := if v <=? U64_MAX then Some (u64_of v) else None;
  rb_eqb a b := u64_val a =? u64_val b;
  rb_gtb a b := u64_val b <? u64_val a;
  Moment := Z;
  Deadline := Z;
  is_elapsed_at d m := d <=? m;
|}.

Lemma calandria_u64_laws : CalandriaLaws calandria_u64.
Proof.
  split; intros; try reflexivity; simpl in *; 
    first [by apply U64_range|by apply U64_eq|by apply u64_of_val].
Qed.

(** A budget is its limit and its used count. *)
Definition bytebudget_u64 : ByteBudgetLib := {|
  ByteCount := U64;
  ByteBudget := U64 * U64;
  byte_count_new := u64_of;
  byte_count_get := u64_val;
  budget_new l := (l, u64_of 0);
  budget_used b := b.2;
  budget_limit b := b.1;
  budget_can_reserve b a := u64_val b.2 + u64_val a <=? u64_val b.1;
  budget_try_reserve b a :=
    if u64_val b.2 + u64_val a <=? u64_val b.1
    then ((b.1, u64_of (u64_val b.2 + u64_val a)), true) else (b, false);
  budget_release b a :=
    if u64_val a <=? u64_val b.2
    then ((b.1, u64_of (u64_val b.2 - u64_val a)), true) else (b, false);
|}.

Lemma bytebudget_u64_laws : ByteBudgetLaws bytebudget_u64.
Proof.
  split; try reflexivity; simpl;
    [by intros; apply u64_of_val|by intros; apply U64_range|..]; intros b a;
    pose proof (U64_range a); pose proof (U64_range b.1); pose proof (U64_range b.2);
    unfold in_u64 in *; case_match; simpl; try done;
    unfold u64_wrap; rewrite Z.mod_small; unfold U64_MAX in *; lia.
Qed.
