(* ===== verification/Identity.v ===== *)
(** * Identities and delivery certainty

    [delivery.rs] and [identity.rs] of [bornera-core]: the newtypes that name
    endpoints, epochs, operations, effects and match keys, the generator of
    operation and effect identities, and the two-point delivery certainty. *)
From Stdlib Require Import ZArith Lia.
From stdpp Require Import prelude.
From S2P Require Import Prelude.

Module Delivery.

(** What the local connection can prove after transferring bytes. *)
Inductive t : Type :=
  | NotSent
  | PossiblySent.

#[global] Instance eq_dec : EqDecision t.
Proof. solve_decision. Defined.

(** Weakens certainty once transport write ownership begins. *)
Definition possibly_sent (self : t) : t := PossiblySent.

End Delivery.

Module EndpointId.

(** A logical remote endpoint. *)
Record t : Type := mk { get : Z }.

#[global] Instance eq_dec : EqDecision t.
Proof. solve_decision. Defined.

Definition new (value : Z) : t := mk value.

End EndpointId.

Module LaneId.

(** An opaque traffic lane within an endpoint. *)
Record t : Type := mk { get : Z }.

#[global] Instance eq_dec : EqDecision t.
Proof. solve_decision. Defined.

Definition new (value : Z) : t := mk value.

End LaneId.

Module ConnectionId.

(** A physical connection slot. *)
Record t : Type := mk { get : Z }.

#[global] Instance eq_dec : EqDecision t.
Proof. solve_decision. Defined.

Definition new (value : Z) : t := mk value.

End ConnectionId.

Module ConnectionEpoch.

(** One exact lifetime of a physical connection. *)
Record t : Type := mk { get : Z }.

#[global] Instance eq_dec : EqDecision t.
Proof. solve_decision. Defined.

Definition new (value : Z) : t := mk value.

End ConnectionEpoch.

Module OperationId.

(** An accepted operation owned by one epoch. *)
Record t : Type := mk { get : Z }.

#[global] Instance eq_dec : EqDecision t.
Proof. solve_decision. Defined.

Definition new (value : Z) : t := mk value.

End OperationId.

Module EffectId.

(** A transport effect whose completion may return later. *)
Record t : Type := mk { get : Z }.

#[global] Instance eq_dec : EqDecision t.
Proof. solve_decision. Defined.

Definition new (value : Z) : t := mk value.

End EffectId.

Module MatchKey.

(** A protocol-visible response matching identity. *)
Record t : Type := mk { get : Z }.

#[global] Instance eq_dec : EqDecision t.
Proof. solve_decision. Defined.

Definition new (value : Z) : t := mk value.

End MatchKey.

Module IdentitySeeds.

(** Initial deterministic values for generated identities. *)
Record t : Type := mk { operation : Z; effect : Z }.

Definition new (operation effect : Z) : t := mk operation effect.

Definition ZERO : t := new 0 0.

End IdentitySeeds.

Module IdentityGenerator.

(** The next identity of each domain; [None] once the domain is exhausted. *)
Record t : Type := mk { operation : option Z; effect : option Z }.

Definition new (seeds : IdentitySeeds.t) : t :=
  mk (Some (IdentitySeeds.operation seeds)) (Some (IdentitySeeds.effect seeds)).

Definition available (self : t) : bool :=
  bool_decide (is_Some (operation self)) && bool_decide (is_Some (effect self)).

Definition take (self : t) : t * option (OperationId.t * EffectId.t) :=
  match operation self with
  | None => (self, None)
  | Some op =>
      match effect self with
      | None => (self, None)
      | Some eff =>
          (mk (u64_checked_add op 1) (u64_checked_add eff 1),
           Some (OperationId.new op, EffectId.new eff))
      end
  end.

(** An identity is still to be generated: it is not below the next one. *)
Definition unused (next : option Z) (v : Z) : Prop :=
  match next with Some n => n ≤ v | None => False end.

(** A used [u64] identity of a domain. *)
Definition used (next : option Z) (v : Z) : Prop := in_u64 v ∧ ¬ unused next v.

Lemma take_available (self : t) :
  available self = true →
  ∃ op eff, operation self = Some op ∧ effect self = Some eff ∧
    take self = (mk (u64_checked_add op 1) (u64_checked_add eff 1),
                 Some (OperationId.new op, EffectId.new eff)).
Proof.
  destruct self as [[op|] [eff|]]; unfold available; simpl;
    repeat case_bool_decide; try done; eauto; by destruct_and?.
Qed.

(** One step of a domain: the identity handed out was not used before, it is
    used afterwards, and every used identity stays used. *)
Lemma used_step (n : Z) :
  in_u64 n →
  ¬ used (Some n) n ∧ used (u64_checked_add n 1) n ∧
  (∀ v, used (Some n) v → used (u64_checked_add n 1) v) ∧
  (∀ m, u64_checked_add n 1 = Some m → in_u64 m).
Proof.
  unfold used, unused, u64_checked_add, in_u64. intros Hn.
  destruct (Z.leb_spec (n + 1) U64_MAX); naive_solver lia.
Qed.

(** The operation domain after an identity was handed out: it was not used
    before, and everything used stays used. *)
Lemma take_used (self self' : t) (o : OperationId.t) (e : EffectId.t) :
  take self = (self', Some (o, e)) → (∀ n, operation self = Some n → in_u64 n) →
  ¬ used (operation self) (OperationId.get o) ∧ used (operation self') (OperationId.get o) ∧
  (∀ v, used (operation self) v → used (operation self') v).
Proof.
  unfold take. destruct (operation self) as [n|] eqn:Ho; [|done].
  destruct (effect self); [|done]. intros [= <- <- <-] Hr.
  destruct (used_step n (Hr n eq_refl)) as (? & ? & ? & _). done.
Qed.

End IdentityGenerator.
