(* ===== verification/Limits.v ===== *)
(** * Limits

    [limits.rs] of [bornera-core] (and [write/limits.rs], which it converts
    to): the match-key space and the count and byte bounds of one epoch. *)
From Stdlib Require Import ZArith Lia.
From stdpp Require Import prelude.
From S2P Require Import Prelude External Identity.

Module LimitsError.

(** Invalid connection-limit configuration. *)
Inductive t : Type :=
  | ZeroOperationCapacity
  | ZeroWriteCapacity
  | EmptyMatchKeySpace.

End LimitsError.

Module MatchKeySpace.

(** An inclusive range of protocol-visible match keys. *)
Record t : Type := mk { first : MatchKey.t; last : MatchKey.t }.

Definition new (first last : Z) : result t LimitsError.t :=
  if last <? first then Err LimitsError.EmptyMatchKeySpace
  else Ok (mk (MatchKey.new first) (MatchKey.new last)).

Definition capacity (self : t) : Z :=
  u64_wrap (MatchKey.get (last self) - MatchKey.get (first self) + 1).

Definition next (self : t) (current : MatchKey.t) : MatchKey.t :=
  if MatchKey.get current =? MatchKey.get (last self) then first self
  else MatchKey.new (u32_wrap (MatchKey.get current + 1)).

(** The space [new] builds from [u32] bounds. *)
Definition valid (self : t) : Prop :=
  in_u32 (MatchKey.get (first self)) ∧ in_u32 (MatchKey.get (last self)) ∧
  MatchKey.get (first self) ≤ MatchKey.get (last self).

Definition contains (self : t) (k : MatchKey.t) : Prop :=
  MatchKey.get (first self) ≤ MatchKey.get k ≤ MatchKey.get (last self).

Lemma key_space_new_valid (a b : Z) (s : t) :
  in_u32 a → in_u32 b → new a b = Ok s → valid s.
Proof.
  unfold new, valid. destruct (Z.ltb_spec b a); [done|]. intros ?? [= <-]; simpl. auto.
Qed.

Lemma first_contained (self : t) : valid self → contains self (first self).
Proof. unfold valid, contains. lia. Qed.

Lemma next_contained (self : t) (k : MatchKey.t) :
  valid self → contains self k → contains self (next self k).
Proof.
  unfold valid, contains, next, in_u32, U32_MAX. intros Hv Hk.
  destruct (Z.eqb_spec (MatchKey.get k) (MatchKey.get (last self))); simpl; [lia|].
  rewrite u32_wrap_small by (unfold in_u32, U32_MAX; lia). lia.
Qed.

(** The number of keys of a valid space, with no wrap-around. *)
Lemma capacity_spec (self : t) :
  valid self →
  capacity self = MatchKey.get (last self) - MatchKey.get (first self) + 1 ∧
  1 ≤ capacity self.
Proof.
  unfold valid, capacity, u64_wrap, in_u32, U32_MAX. intros Hv.
  rewrite Z.mod_small by lia. lia.
Qed.

Lemma iter_contained (self : t) (k : MatchKey.t) (n : nat) :
  valid self → contains self k → contains self (Nat.iter n (next self) k).
Proof. intros Hv Hk. induction n; simpl; [done|]. by apply next_contained. Qed.

(** [next] repeated [n] times from [k], in closed form. *)
Lemma next_iter (self : t) (k : MatchKey.t) (n : nat) :
  valid self → contains self k →
  MatchKey.get (Nat.iter n (next self) k) =
    MatchKey.get (first self) +
      (MatchKey.get k - MatchKey.get (first self) + Z.of_nat n) `mod` capacity self.
Proof.
  intros Hv Hk. destruct (capacity_spec self Hv) as [Hc Hc1].
  induction n as [|n IH].
  - simpl. rewrite Z.mod_small; unfold contains in Hk; lia.
  - pose proof (iter_contained self k n Hv Hk) as Hin.
    simpl. set (c := Nat.iter n (next self) k) in *.
    set (x := MatchKey.get k - MatchKey.get (first self) + Z.of_nat n) in *.
    replace (MatchKey.get k - MatchKey.get (first self) + Z.of_nat (S n)) with (x + 1) by lia.
    pose proof (Z.mod_pos_bound x (capacity self)).
    rewrite <- Z.add_mod_idemp_l by lia. unfold next.
    destruct (Z.eqb_spec (MatchKey.get c) (MatchKey.get (last self))) as [E|E].
    + replace (x `mod` capacity self + 1) with (capacity self) by lia.
      rewrite Z.mod_same by lia. lia.
    + simpl. unfold valid, in_u32, U32_MAX in Hv. unfold contains in Hin.
      rewrite u32_wrap_small by (unfold in_u32, U32_MAX; lia).
      rewrite (Z.mod_small (x `mod` capacity self + 1)); lia.
Qed.

(** Fewer steps than the space has keys visit distinct keys. *)
Lemma next_iter_inj (self : t) (k : MatchKey.t) (i j : nat) :
  valid self → contains self k → Z.of_nat i < capacity self → Z.of_nat j < capacity self →
  Nat.iter i (next self) k = Nat.iter j (next self) k → i = j.
Proof.
  intros Hv Hk Hi Hj Heq. destruct (capacity_spec self Hv) as [_ Hc].
  apply (f_equal MatchKey.get) in Heq. rewrite !next_iter in Heq by done.
  set (a := MatchKey.get k - MatchKey.get (first self)) in *.
  assert ((a + Z.of_nat i) `mod` capacity self = (a + Z.of_nat j) `mod` capacity self) as Hm
    by lia.
  rewrite (Z.mod_eq (a + Z.of_nat i)), (Z.mod_eq (a + Z.of_nat j)) in Hm by lia.
  set (q1 := (a + Z.of_nat i) `div` capacity self) in *.
  set (q2 := (a + Z.of_nat j) `div` capacity self) in *.
  assert (capacity self * (q1 - q2) = Z.of_nat i - Z.of_nat j) as Hq by lia.
  destruct (Z.lt_trichotomy q1 q2) as [?|[->|?]]; [nia|lia|nia].
Qed.

(** Distinct keys of the space are no more than its capacity. *)
Lemma contained_length (self : t) (l : list MatchKey.t) :
  valid self → NoDup l → Forall (contains self) l → Z.of_nat (length l) ≤ capacity self.
Proof.
  intros Hv Hnd Hl. destruct (capacity_spec self Hv) as [Hcap Hcap1].
  assert (length (MatchKey.get <$> l) ≤
    length (seqZ (MatchKey.get (first self)) (capacity self)))%nat as Hle.
  { apply submseteq_length, NoDup_submseteq.
    - apply NoDup_fmap_2; [|done]. intros [] [] ?; simpl in *; congruence.
    - intros x (k & -> & Hk)%list_elem_of_fmap. apply elem_of_seqZ.
      rewrite Forall_forall in Hl. specialize (Hl k Hk). unfold contains in Hl. lia. }
  rewrite length_fmap, length_seqZ in Hle. lia.
Qed.

End MatchKeySpace.

Module WriteQueueLimits.
Section write_queue_limits.
Context {Cal : Calandria}.

(** Resource bounds for complete frames retained in one connection epoch. *)
Record t : Type := new {
  max_frames_nonzero : NonZeroUsize;
  max_retained_bytes : RetainedBytes;
}.

Definition max_frames (self : t) : Z := nonzero_get (max_frames_nonzero self).

End write_queue_limits.
End WriteQueueLimits.

Module ConnectionLimits.
Section connection_limits.
Context {Cal : Calandria}.

(** Bounded resources owned by one connection epoch. *)
Record t : Type := mk {
  max_operations_nonzero : NonZeroUsize;
  max_retained_bytes : RetainedBytes;
  max_write_frames_nonzero : NonZeroUsize;
  max_write_retained_bytes : RetainedBytes;
  match_keys : MatchKeySpace.t;
}.

Definition new (max_operations : Z) (max_retained_bytes : RetainedBytes)
    (max_write_frames : Z) (max_write_retained_bytes : RetainedBytes)
    (match_keys : MatchKeySpace.t) : result t LimitsError.t :=
  match nonzero_new max_operations with
  | None => Err LimitsError.ZeroOperationCapacity
  | Some max_operations =>
      match nonzero_new max_write_frames with
      | None => Err LimitsError.ZeroWriteCapacity
      | Some max_write_frames =>
          Ok (mk max_operations max_retained_bytes max_write_frames
                max_write_retained_bytes match_keys)
      end
  end.

Definition max_operations (self : t) : Z := nonzero_get (max_operations_nonzero self).

Definition max_write_frames (self : t) : Z := nonzero_get (max_write_frames_nonzero self).

Definition write_queue_limits (self : t) : WriteQueueLimits.t :=
  WriteQueueLimits.new (max_write_frames_nonzero self) (max_write_retained_bytes self).

(** Limits of a connection that can be built: nonzero [usize] counts over a
    valid key space, and no more operations than a table of twice as many
    8-byte slots can be allocated for. *)
Definition valid (self : t) : Prop :=
  1 ≤ max_operations self ≤ 2 ^ 62 ∧ 1 ≤ max_write_frames self ≤ USIZE_MAX ∧
  MatchKeySpace.valid (match_keys self).

Lemma limits_new_valid (ops : Z) (rb : RetainedBytes) (frames : Z) (wrb : RetainedBytes)
    (keys : MatchKeySpace.t) (l : t) :
  0 ≤ ops ≤ 2 ^ 62 → in_usize frames → MatchKeySpace.valid keys →
  new ops rb frames wrb keys = Ok l → valid l.
Proof.
  unfold new, nonzero_new, valid, in_usize. intros Ho Hf Hk.
  destruct (Z.eqb_spec ops 0); [done|]. destruct (Z.eqb_spec frames 0); [done|].
  intros [= <-]. unfold max_operations, max_write_frames; simpl. repeat split; try lia; apply Hk.
Qed.

End connection_limits.
End ConnectionLimits.
