(* ===== verification/KeySet.v ===== *)
(** * The active match-key set

    [admission/key_set.rs] of [bornera-core]: a preallocated open-addressing
    table with linear probing. [remove] leaves no tombstone: it empties the
    slot and inserts the rest of the cluster again.

    The abstract view of a table is the list [elems] of its keys; [wf] is the
    probing invariant (every slot on the way from a key's home to the key is
    occupied). The specification lemmas say that [contains], [insert] and
    [remove] are membership, addition and removal of a set, and that their
    loops stop within one round of the table. *)
From Stdlib Require Import ZArith Lia.
From stdpp Require Import prelude.
From S2P Require Import Prelude Identity.

Module ActiveKeySet.

Record t : Type := mk { slots : list (option MatchKey.t); len : Z }.

Definition new (max_keys : Z) : t :=
  let capacity :=
    Z.max (default max_keys
             (usize_checked_mul max_keys 2 ≫= usize_checked_next_power_of_two)) 1 in
  mk (replicate (Z.to_nat capacity) None) 0.

(** [self.slots[index]]; every index the code uses is in range
    ([home_lt], [next_lt]). *)
Definition slot (self : t) (index : nat) : option MatchKey.t := mjoin (slots self !! index).

Definition home (self : t) (key : MatchKey.t) : nat :=
  let mixed := u32_wrap (MatchKey.get key * 0x9e3779b1) in
  Z.to_nat (mixed `mod` Z.of_nat (length (slots self))).

Definition next (self : t) (index : nat) : nat :=
  if (index + 1 =? length (slots self))%nat then 0%nat else (index + 1)%nat.

(** The [for _ in 0..self.slots.len()] loop of [find]. *)
Fixpoint find_loop (self : t) (key : MatchKey.t) (attempts index : nat) : option nat :=
  match attempts with
  | O => None
  | S attempts =>
      match slot self index with
      | Some existing =>
          if bool_decide (existing = key) then Some index
          else find_loop self key attempts (next self index)
      | None => None
      end
  end.

Definition find (self : t) (key : MatchKey.t) : option nat :=
  find_loop self key (length (slots self)) (home self key).

Definition contains (self : t) (key : MatchKey.t) : bool :=
  bool_decide (is_Some (find self key)).

(** [self.slots[index] = Some(key); self.len += 1]. *)
Definition fill (self : t) (index : nat) (key : MatchKey.t) : t :=
  mk (<[index := Some key]> (slots self)) (usize_wrap (len self + 1)).

(** [self.slots[index] = None; self.len -= 1] (or [take()] in the loop). *)
Definition clear (self : t) (index : nat) : t :=
  mk (<[index := None]> (slots self)) (usize_wrap (len self - 1)).

(** The [for _ in 0..self.slots.len()] loop of [insert]. *)
Fixpoint insert_loop (self : t) (key : MatchKey.t) (attempts index : nat) : t * bool :=
  match attempts with
  | O => (self, false)
  | S attempts =>
      match slot self index with
      | Some existing =>
          if bool_decide (existing = key) then (self, false)
          else insert_loop self key attempts (next self index)
      | None => (fill self index key, true)
      end
  end.

Definition insert (self : t) (key : MatchKey.t) : t * bool :=
  insert_loop self key (length (slots self)) (home self key).

(** The [while let Some(displaced) = self.slots[cursor].take()] loop of
    [remove]. The fuel is the number of slots; the loop stops earlier, at the
    first empty slot ([reinsert_spec]). *)
Fixpoint reinsert (fuel : nat) (self : t) (cursor : nat) : t * bool :=
  match fuel with
  | O => (self, false)
  | S fuel =>
      match slot self cursor with
      | None => (self, true)
      | Some displaced =>
          match insert (clear self cursor) displaced with
          | (self, false) => (self, false)
          | (self, true) => reinsert fuel self (next self cursor)
          end
      end
  end.

Definition remove (self : t) (key : MatchKey.t) : t * bool :=
  match find self key with
  | None => (self, false)
  | Some index => reinsert (length (slots self)) (clear self index) (next self index)
  end.

(** ** The abstract set *)

Definition elems (self : t) : list MatchKey.t := omap id (slots self).

(** ** Positions of a ring of [n] slots *)

Section ring.
Context (n : nat).

Definition fwd (h j : nat) : nat := if (h + j <? n)%nat then (h + j)%nat else (h + j - n)%nat.

Definition dist (h i : nat) : nat := if (h <=? i)%nat then (i - h)%nat else (i + n - h)%nat.

(** The coordinate of [x] when the ring is cut just after [e]. *)
Definition coord (e x : nat) : nat :=
  if (x <=? e)%nat then (x + n - e - 1)%nat else (x - e - 1)%nat.
End ring.

Ltac ring_lia :=
  unfold fwd, dist, coord, next in *;
  repeat match goal with
    | |- context [(?a <? ?b)%nat] => destruct (Nat.ltb_spec a b)
    | |- context [(?a <=? ?b)%nat] => destruct (Nat.leb_spec a b)
    | |- context [(?a =? ?b)%nat] => destruct (Nat.eqb_spec a b)
    | H : context [(?a <? ?b)%nat] |- _ => destruct (Nat.ltb_spec a b)
    | H : context [(?a <=? ?b)%nat] |- _ => destruct (Nat.leb_spec a b)
    | H : context [(?a =? ?b)%nat] |- _ => destruct (Nat.eqb_spec a b)
    end; try lia.

(** Every slot from [h] up to but not including [i] is occupied. *)
Definition path (self : t) (h i : nat) : Prop :=
  ∀ j, (j < dist (length (slots self)) h i)%nat →
    slot self (fwd (length (slots self)) h j) ≠ None.

(** The same, along the ring cut after the empty slot [e]. *)
Definition lin (self : t) (e h i : nat) : Prop :=
  (coord (length (slots self)) e h ≤ coord (length (slots self)) e i)%nat ∧
  ∀ x, (x < length (slots self))%nat →
    (coord (length (slots self)) e h ≤ coord (length (slots self)) e x
       < coord (length (slots self)) e i)%nat →
    slot self x ≠ None.

(** The counter is the number of keys, and no key is stored twice. *)
Definition counted (self : t) : Prop :=
  Z.of_nat (length (slots self)) ≤ USIZE_MAX ∧
  len self = Z.of_nat (length (elems self)) ∧ NoDup (elems self).

Definition wf (self : t) : Prop :=
  (0 < length (slots self))%nat ∧ counted self ∧
  (∀ i k, slot self i = Some k → path self (home self k) i).

(** ** Slots and updates *)

Lemma slot_lt (self : t) (i : nat) (k : MatchKey.t) :
  slot self i = Some k → (i < length (slots self))%nat.
Proof.
  unfold slot. destruct (slots self !! i) eqn:E; [|done].
  intros _. by eapply lookup_lt_Some.
Qed.

Lemma slot_lookup (self : t) (i : nat) (k : MatchKey.t) :
  slot self i = Some k ↔ slots self !! i = Some (Some k).
Proof. unfold slot. destruct (slots self !! i) as [[]|]; naive_solver. Qed.

Lemma slot_lookup_None (self : t) (i : nat) :
  (i < length (slots self))%nat → slot self i = None → slots self !! i = Some None.
Proof.
  unfold slot. intros [o Ho]%lookup_lt_is_Some_2. rewrite Ho. by destruct o.
Qed.

Lemma fill_length (self : t) (i : nat) (k : MatchKey.t) :
  length (slots (fill self i k)) = length (slots self).
Proof. apply length_insert. Qed.

Lemma clear_length (self : t) (i : nat) :
  length (slots (clear self i)) = length (slots self).
Proof. apply length_insert. Qed.

Lemma slot_fill (self : t) (i x : nat) (k : MatchKey.t) :
  (i < length (slots self))%nat →
  slot (fill self i k) x = if decide (x = i) then Some k else slot self x.
Proof.
  intros Hi. unfold slot; simpl. destruct (decide (x = i)) as [->|].
  - by rewrite list_lookup_insert_eq.
  - by rewrite list_lookup_insert_ne.
Qed.

Lemma slot_clear (self : t) (i x : nat) :
  (i < length (slots self))%nat →
  slot (clear self i) x = if decide (x = i) then None else slot self x.
Proof.
  intros Hi. unfold slot; simpl. destruct (decide (x = i)) as [->|].
  - by rewrite list_lookup_insert_eq.
  - by rewrite list_lookup_insert_ne.
Qed.

Lemma home_length (self self' : t) (k : MatchKey.t) :
  length (slots self') = length (slots self) → home self' k = home self k.
Proof. unfold home. by intros ->. Qed.

Lemma home_lt (self : t) (k : MatchKey.t) :
  (0 < length (slots self))%nat → (home self k < length (slots self))%nat.
Proof.
  intros Hn. unfold home.
  pose proof (Z.mod_pos_bound (u32_wrap (MatchKey.get k * 0x9e3779b1))
    (Z.of_nat (length (slots self)))). lia.
Qed.

Lemma next_lt (self : t) (i : nat) :
  (i < length (slots self))%nat → (next self i < length (slots self))%nat.
Proof. intros. ring_lia. Qed.

Lemma next_coord (self : t) (e x : nat) :
  (e < length (slots self))%nat → (x < length (slots self))%nat → x ≠ e →
  coord (length (slots self)) e (next self x) = S (coord (length (slots self)) e x).
Proof. intros. ring_lia. Qed.

Lemma coord_inj (n e x y : nat) :
  (e < n)%nat → (x < n)%nat → (y < n)%nat → coord n e x = coord n e y → x = y.
Proof. intros. ring_lia. Qed.

Lemma elems_length_le (self : t) : (length (elems self) ≤ length (slots self))%nat.
Proof. unfold elems. induction (slots self) as [|[k|] l IH]; csimpl in *; lia. Qed.

Lemma elems_fill (self : t) (i : nat) (k : MatchKey.t) :
  (i < length (slots self))%nat → slot self i = None →
  elems (fill self i k) ≡ₚ k :: elems self.
Proof.
  intros Hi Hs%slot_lookup_None; [|done]. unfold elems; simpl.
  rewrite insert_take_drop by done.
  rewrite <- (take_drop_middle (slots self) i None Hs) at 3.
  rewrite !omap_app. simpl. symmetry. apply Permutation_middle.
Qed.

Lemma elems_clear (self : t) (i : nat) (k : MatchKey.t) :
  slot self i = Some k → elems self ≡ₚ k :: elems (clear self i).
Proof.
  intros Hs. pose proof (slot_lt _ _ _ Hs) as Hi. apply slot_lookup in Hs.
  unfold elems; simpl. rewrite insert_take_drop by done.
  rewrite <- (take_drop_middle (slots self) i (Some k) Hs) at 1.
  rewrite !omap_app. simpl. symmetry. apply Permutation_middle.
Qed.

Lemma elem_of_elems (self : t) (k : MatchKey.t) :
  k ∈ elems self ↔ ∃ i, slot self i = Some k.
Proof.
  unfold elems. rewrite list_elem_of_omap. setoid_rewrite slot_lookup.
  setoid_rewrite list_elem_of_lookup. unfold id. naive_solver.
Qed.

(** A key sits in at most one slot. *)
Lemma slot_inj (self : t) (i j : nat) (k : MatchKey.t) :
  NoDup (elems self) → slot self i = Some k → slot self j = Some k → i = j.
Proof.
  intros Hnd Hi Hj. destruct (decide (i = j)) as [|Hne]; [done|exfalso].
  rewrite (elems_clear _ _ _ Hi), NoDup_cons in Hnd.
  apply (proj1 Hnd), elem_of_elems. exists j.
  rewrite slot_clear by (by eapply slot_lt). by case_decide.
Qed.

Lemma counted_fill (self : t) (i : nat) (k : MatchKey.t) :
  (i < length (slots self))%nat → slot self i = None → k ∉ elems self →
  counted self → counted (fill self i k).
Proof.
  intros Hi Hs Hk (Hmax & Hlen & Hnd). pose proof (elems_fill _ _ k Hi Hs) as Hel.
  pose proof (elems_length_le (fill self i k)) as Hle.
  unfold counted. rewrite fill_length in *. split; [done|].
  rewrite Hel in Hle |- *. simpl in Hle |- *. split; [|by constructor].
  rewrite usize_wrap_small; [lia|]. unfold in_usize. lia.
Qed.

Lemma counted_clear (self : t) (i : nat) (k : MatchKey.t) :
  slot self i = Some k → counted self → counted (clear self i) ∧ k ∉ elems (clear self i).
Proof.
  intros Hs (Hmax & Hlen & Hnd). pose proof (elems_clear _ _ _ Hs) as Hel.
  pose proof (elems_length_le self) as Hle.
  rewrite Hel in Hlen, Hnd, Hle. apply NoDup_cons in Hnd as [Hk Hnd]. simpl in Hle, Hlen.
  split; [|done]. unfold counted. rewrite clear_length. split; [done|]. split; [|done].
  simpl. rewrite usize_wrap_small; [lia|]. unfold in_usize. lia.
Qed.

Lemma exists_empty (self : t) :
  (length (elems self) < length (slots self))%nat →
  ∃ e, (e < length (slots self))%nat ∧ slot self e = None.
Proof.
  unfold elems. intros Hlt.
  assert (∃ e, slots self !! e = Some None) as (e & He).
  { induction (slots self) as [|[k|] l IH]; csimpl in *; [lia| |by exists 0%nat].
    destruct IH as [e He]; [lia|]. by exists (S e). }
  exists e. split; [by eapply lookup_lt_Some|]. unfold slot. by rewrite He.
Qed.

Lemma path_lin (self : t) (e h i : nat) :
  (e < length (slots self))%nat → (h < length (slots self))%nat →
  (i < length (slots self))%nat → slot self e = None → i ≠ e →
  path self h i ↔ lin self e h i.
Proof.
  intros He Hh Hi Hslot Hne. set (n := length (slots self)) in *.
  unfold path, lin. fold n. split.
  - intros Hp.
    assert (coord n e h ≤ coord n e i)%nat as Hle.
    { destruct (Nat.le_gt_cases (coord n e h) (coord n e i)) as [|Hgt]; [done|exfalso].
      apply (Hp (dist n h e)); [clear Hp; ring_lia|].
      replace (fwd n h (dist n h e)) with e; [done|clear Hp; ring_lia]. }
    split; [done|]. intros x Hx Hr.
    replace x with (fwd n h (coord n e x - coord n e h)%nat) by (clear Hp; ring_lia).
    apply Hp. clear Hp. ring_lia.
  - intros [Hle Hl] j Hj. apply Hl; clear Hl; ring_lia.
Qed.

(** ** Lookup *)

Lemma find_loop_sound (self : t) (k : MatchKey.t) (a x i : nat) :
  find_loop self k a x = Some i → slot self i = Some k.
Proof.
  revert x. induction a as [|a IH]; intros x; simpl; [done|].
  destruct (slot self x) eqn:E; [|done]. case_bool_decide; naive_solver.
Qed.

Lemma find_loop_complete (self : t) (k : MatchKey.t) (e i a x : nat) :
  (e < length (slots self))%nat → slot self e = None →
  (x < length (slots self))%nat → slot self i = Some k → lin self e x i →
  (coord (length (slots self)) e i - coord (length (slots self)) e x < a)%nat →
  is_Some (find_loop self k a x).
Proof.
  intros He Hslot. revert x. induction a as [|a IH]; intros x Hx Hi [Hle Hl] Ha; [lia|].
  simpl. destruct (slot self x) as [k'|] eqn:Ex.
  - case_bool_decide as Hk; [done|].
    assert (x ≠ e) as Hxe by congruence. assert (x ≠ i) as Hxi by congruence.
    pose proof (slot_lt _ _ _ Hi) as Hil.
    assert (coord (length (slots self)) e x ≠ coord (length (slots self)) e i) as Hne
      by (intros ?%coord_inj; done).
    pose proof (next_coord self e x He Hx Hxe) as Hc.
    apply IH; [by apply next_lt|done| |lia].
    split; [lia|]. intros y Hy Hr. apply Hl; [done|lia].
  - destruct (decide (x = i)) as [->|Hxi]; [congruence|]. exfalso.
    pose proof (slot_lt _ _ _ Hi) as Hil.
    assert (coord (length (slots self)) e x ≠ coord (length (slots self)) e i) as Hne
      by (intros ?%coord_inj; done).
    apply (Hl x); [done|lia|done].
Qed.

(** [find] returns the slot of a present key and [None] for an absent one. *)
Lemma find_spec (self : t) (k : MatchKey.t) :
  wf self → (length (elems self) < length (slots self))%nat →
  match find self k with
  | Some i => slot self i = Some k
  | None => k ∉ elems self
  end.
Proof.
  intros (Hn & _ & Hp) (e & He & Hslot)%exists_empty.
  destruct (find self k) as [i|] eqn:E; [by eapply find_loop_sound|].
  intros (i & Hi)%elem_of_elems. pose proof (slot_lt _ _ _ Hi) as Hil.
  assert (is_Some (find self k)) as [? ?]; [|congruence].
  apply (find_loop_complete self k e i); auto using home_lt.
  - apply path_lin; auto using home_lt. congruence.
  - clear Hp. ring_lia.
Qed.

(** ** Insertion *)

Lemma insert_loop_spec (self : t) (k : MatchKey.t) (e a x : nat) :
  (e < length (slots self))%nat → slot self e = None →
  (x < length (slots self))%nat → k ∉ elems self →
  (length (slots self) - coord (length (slots self)) e x ≤ a)%nat →
  ∃ p, (p < length (slots self))%nat ∧ slot self p = None ∧ lin self e x p ∧
    insert_loop self k a x = (fill self p k, true).
Proof.
  intros He Hslot. revert x. induction a as [|a IH]; intros x Hx Hk Ha.
  { exfalso. clear Hslot Hk. ring_lia. }
  simpl. destruct (slot self x) as [k'|] eqn:Ex.
  - rewrite bool_decide_eq_false_2; [|intros ->; apply Hk, elem_of_elems; eauto].
    assert (x ≠ e) as Hxe by congruence.
    pose proof (next_coord self e x He Hx Hxe) as Hc.
    destruct (IH (next self x)) as (p & Hp & Hps & [Hle Hl] & Heq);
      [by apply next_lt|done|lia|].
    exists p. split; [done|]. split; [done|]. split; [|done]. split; [lia|].
    intros y Hy Hr. destruct (decide (y = x)) as [->|Hyx]; [congruence|].
    apply Hl; [done|].
    assert (coord (length (slots self)) e y ≠ coord (length (slots self)) e x)
      by (intros ?%coord_inj; done). lia.
  - exists x. split; [done|]. split; [done|]. split; [|done].
    split; [done|]. intros y Hy Hr. lia.
Qed.

(** Occupied ways stay occupied when a slot is filled. *)
Lemma path_fill (self : t) (p h i : nat) (k : MatchKey.t) :
  (p < length (slots self))%nat → path self h i → path (fill self p k) h i.
Proof.
  intros Hp Hpath j Hj. rewrite fill_length in *.
  rewrite slot_fill by done. case_decide; [done|]. by apply Hpath.
Qed.

(** Inserting an absent key into a table with an empty slot adds it. *)
Lemma insert_spec (self : t) (k : MatchKey.t) :
  wf self → (length (elems self) < length (slots self))%nat → k ∉ elems self →
  ∃ self', insert self k = (self', true) ∧ wf self' ∧
    length (slots self') = length (slots self) ∧ elems self' ≡ₚ k :: elems self.
Proof.
  intros (Hn & Hcount & Hpath) Hroom Hk.
  destruct (exists_empty _ Hroom) as (e & He & Hslot).
  destruct (insert_loop_spec self k e (length (slots self)) (home self k))
    as (p & Hp & Hps & Hlin & Heq); [done|done|by apply home_lt|done|lia|].
  exists (fill self p k). split; [exact Heq|].
  split; [|by rewrite fill_length, elems_fill].
  split; [by rewrite fill_length|]. split; [by apply counted_fill|].
  intros i k'. rewrite slot_fill, (home_length self) by (done || apply fill_length).
  case_decide as Hi; intros Hs; apply path_fill; [done| |done|by apply Hpath].
  simplify_eq. intros j Hj. destruct Hlin as [Hle Hl].
  pose proof (home_lt self k' Hn) as Hh. apply Hl; clear Hl Hpath; ring_lia.
Qed.

(** A present key is rejected. *)
Lemma insert_present (self : t) (k : MatchKey.t) :
  wf self → (length (elems self) < length (slots self))%nat → k ∈ elems self →
  insert self k = (self, false).
Proof.
  intros Hwf Hroom Hk. pose proof (find_spec self k Hwf Hroom) as Hf.
  unfold insert. unfold find in Hf. clear Hroom. revert Hf. generalize (home self k).
  induction (length (slots self)) as [|a IH]; intros x; simpl; [done|].
  destruct (slot self x); [|done]. case_bool_decide; [done|]. apply IH.
Qed.

(** ** Removal *)

(** The table between two rounds of [remove]'s loop, seen from the empty slot
    [e]: keys before the cursor [c] have an occupied way from home, and keys
    from the cursor on have one as far as it lies behind the cursor. *)
Definition sweeping (self : t) (e c : nat) : Prop :=
  let n := length (slots self) in
  (e < n)%nat ∧ (c < n)%nat ∧ slot self e = None ∧ counted self ∧
  ∀ i k, slot self i = Some k →
    (coord n e (home self k) ≤ coord n e i)%nat ∧
    ∀ y, (y < n)%nat → (coord n e (home self k) ≤ coord n e y < coord n e i)%nat →
      (coord n e i < coord n e c ∨ coord n e c ≤ coord n e y)%nat → slot self y ≠ None.

(** Once the cursor meets an empty slot, every key is reachable from home. *)
Lemma sweeping_done (self : t) (e c : nat) :
  sweeping self e c → slot self c = None → wf self.
Proof.
  intros (He & Hc & Hslot & Hcount & Hinv) Hcs.
  split; [lia|]. split; [done|].
  intros i k Hi. pose proof (slot_lt _ _ _ Hi) as Hil.
  destruct (Hinv i k Hi) as [Hle Hocc].
  apply (path_lin self e); [done|by apply home_lt; lia|done|done|congruence|].
  split; [done|]. intros y Hy Hr. apply Hocc; [done|done|].
  destruct (decide (i = c)) as [->|Hic]; [congruence|].
  set (n := length (slots self)) in *.
  assert (coord n e i ≠ coord n e c) as Hne by (intros ?%coord_inj; done).
  destruct (Nat.lt_ge_cases (coord n e i) (coord n e c)) as [|Hge]; [by left|right].
  destruct (Nat.le_gt_cases (coord n e c) (coord n e y)) as [|Hyc]; [done|exfalso].
  apply (Hocc c); [done|lia|by right|done].
Qed.

(** The displaced key lands between its home and the cursor. *)
Lemma sweeping_insert (self : t) (e c : nat) (d : MatchKey.t) :
  sweeping self e c → slot self c = Some d →
  ∃ p, (p < length (slots self))%nat ∧ slot (clear self c) p = None ∧ p ≠ e ∧
    (coord (length (slots self)) e p ≤ coord (length (slots self)) e c)%nat ∧
    lin (clear self c) e (home self d) p ∧
    insert (clear self c) d = (fill (clear self c) p d, true).
Proof.
  intros (He & Hc & Hslot & Hcount & Hinv) Hcs.
  destruct (Hinv c d Hcs) as [Hhd _]. clear Hinv.
  destruct (counted_clear _ _ _ Hcs Hcount) as [_ Hd].
  pose proof (home_lt self d ltac:(lia)) as Hhlt.
  assert (c ≠ e) as Hce by congruence.
  set (n := length (slots self)) in *.
  destruct (insert_loop_spec (clear self c) d e n (home self d)) as (p & Hp & Hps & Hlin & Heq);
    rewrite ?clear_length; fold n; [done| |done|done|lia|].
  { rewrite slot_clear by done. by case_decide. }
  rewrite clear_length in Hp. fold n in Hp. destruct Hlin as [Hle Hl].
  rewrite clear_length in Hle, Hl. fold n in Hle, Hl.
  assert (coord n e p ≤ coord n e c)%nat as Hpc.
  { destruct (Nat.le_gt_cases (coord n e p) (coord n e c)) as [|Hgt]; [done|exfalso].
    apply (Hl c); [done|lia|]. rewrite slot_clear by done. by case_decide. }
  exists p. split; [done|]. split; [done|]. split; [|split; [done|]].
  - intros ->. assert (coord n e c ≠ coord n e e) by (intros ?%coord_inj; done).
    clear -Hpc Hc He Hce. ring_lia.
  - split; [unfold lin; by rewrite clear_length|]. unfold insert.
    rewrite clear_length, (home_length self) by apply clear_length. done.
Qed.

(** One round: take the displaced key and insert it again. *)
Lemma sweeping_step (self : t) (e c : nat) (d : MatchKey.t) :
  sweeping self e c → slot self c = Some d →
  ∃ self', insert (clear self c) d = (self', true) ∧
    length (slots self') = length (slots self) ∧ elems self' ≡ₚ elems self ∧
    sweeping self' e (next self' c).
Proof.
  intros Hsw Hcs. destruct (sweeping_insert _ _ _ _ Hsw Hcs)
    as (p & Hp & Hps & Hpe & Hpc & [Hle Hl] & Heq).
  destruct Hsw as (He & Hc & Hslot & Hcount & Hinv). rewrite clear_length in Hle, Hl.
  destruct (counted_clear _ _ _ Hcs Hcount) as [Hcount1 Hd].
  set (n := length (slots self)) in *. assert (c ≠ e) as Hce by congruence.
  assert (∀ x, slot (fill (clear self c) p d) x =
    if decide (x = p) then Some d else if decide (x = c) then None else slot self x) as Hs2.
  { intros x. rewrite slot_fill, slot_clear; rewrite ?clear_length; done. }
  assert (length (slots (fill (clear self c) p d)) = n) as Hn2
    by by rewrite fill_length, clear_length.
  assert (coord n e (next (fill (clear self c) p d) c) = S (coord n e c)) as Hnext.
  { rewrite <- Hn2. apply next_coord; rewrite ?Hn2; done. }
  eexists; split; [exact Heq|]. split; [done|]. split.
  { rewrite (elems_clear self c d), elems_fill; rewrite ?clear_length; done. }
  unfold sweeping. rewrite Hn2, Hnext. split; [done|].
  split; [rewrite <- Hn2; apply next_lt; by rewrite Hn2|].
  split; [rewrite Hs2; case_decide; [congruence|by case_decide]|].
  split; [apply counted_fill; rewrite ?clear_length; done|].
  intros i k. rewrite Hs2, (home_length self) by done. case_decide as Hip.
  - intros [= <-]. subst i. split; [done|]. intros y Hy Hr _.
    specialize (Hl y Hy Hr). rewrite slot_clear in Hl by done. rewrite Hs2.
    destruct (decide (y = p)); [done|exact Hl].
  - case_decide as Hic; [done|]. intros Hi. pose proof (slot_lt _ _ _ Hi) as Hil.
    destruct (Hinv i k Hi) as [Hle' Hocc]. split; [done|]. intros y Hy Hr Hor.
    assert (coord n e i ≠ coord n e c) as Hne by (intros ?%coord_inj; done).
    rewrite Hs2. case_decide; [done|]. case_decide; [subst; lia|].
    apply Hocc; [done|done|lia].
Qed.

(** The loop of [remove] stops within one round and leaves a well-formed
    table with the same keys. *)
Lemma reinsert_spec (fuel : nat) (self : t) (e c : nat) :
  sweeping self e c →
  (length (slots self) - coord (length (slots self)) e c ≤ fuel)%nat →
  ∃ self', reinsert fuel self c = (self', true) ∧ wf self' ∧
    length (slots self') = length (slots self) ∧ elems self' ≡ₚ elems self.
Proof.
  revert self c. induction fuel as [|fuel IH]; intros self c Hsw Hfuel.
  { exfalso. destruct Hsw as (He & Hc & _). clear -He Hc Hfuel. ring_lia. }
  simpl. destruct (slot self c) as [d|] eqn:Ec.
  - destruct (sweeping_step _ _ _ _ Hsw Ec) as (self' & Heq & Hn & Hel & Hsw').
    rewrite Heq. destruct Hsw as (He & Hc & Hslot & _).
    destruct (IH self' (next self' c) Hsw') as (self'' & Hr & Hwf & Hn' & Hel').
    { rewrite next_coord; rewrite ?Hn; [lia|done|done|congruence]. }
    exists self''. rewrite Hr, Hn', Hel', Hn. auto.
  - exists self. split; [done|]. split; [by eapply sweeping_done|done].
Qed.

(** Emptying the slot of a key starts the sweep behind it. *)
Lemma sweeping_start (self : t) (e c : nat) (k : MatchKey.t) :
  wf self → (e < length (slots self))%nat → slot self e = None → slot self c = Some k →
  sweeping (clear self c) e (next self c).
Proof.
  intros (Hn & Hcount & Hpath) He Hslot Hk. pose proof (slot_lt _ _ _ Hk) as Hc.
  assert (c ≠ e) as Hce by congruence. pose proof (next_coord self e c He Hc Hce) as Hnext.
  unfold sweeping. rewrite clear_length, Hnext. split; [done|].
  split; [by apply next_lt|]. split; [rewrite slot_clear by done; by case_decide|].
  split; [by eapply counted_clear|].
  intros i k'. rewrite slot_clear, (home_length self) by (done || apply clear_length).
  case_decide as Hic; [done|]. intros Hi. pose proof (slot_lt _ _ _ Hi) as Hil.
  destruct (proj1 (path_lin self e (home self k') i He (home_lt _ _ Hn) Hil Hslot
    ltac:(congruence)) (Hpath i k' Hi)) as [Hle Hl].
  split; [done|]. intros y Hy Hr Hor.
  rewrite slot_clear by done. case_decide as Hyc; [subst y; exfalso|by apply Hl].
  assert (coord (length (slots self)) e i ≠ coord (length (slots self)) e c)
    by (intros ?%coord_inj; done). lia.
Qed.

(** Removing a present key removes it, and only it. *)
Lemma remove_spec (self : t) (k : MatchKey.t) :
  wf self → (length (elems self) < length (slots self))%nat → k ∈ elems self →
  ∃ self', remove self k = (self', true) ∧ wf self' ∧
    length (slots self') = length (slots self) ∧ elems self ≡ₚ k :: elems self'.
Proof.
  intros Hwf Hroom Hk. pose proof (find_spec self k Hwf Hroom) as Hfind.
  unfold remove. destruct (find self k) as [c|]; [|done].
  destruct (exists_empty _ Hroom) as (e & He & Hslot).
  pose proof (slot_lt _ _ _ Hfind) as Hc. assert (c ≠ e) as Hce by congruence.
  destruct (reinsert_spec (length (slots self)) (clear self c) e (next self c))
    as (self' & Heq & Hwf' & Hn' & Hel').
  - by eapply sweeping_start.
  - rewrite clear_length. lia.
  - rewrite clear_length in Hn'. exists self'. split; [exact Heq|]. split; [done|].
    split; [done|]. by rewrite Hel', (elems_clear self c k).
Qed.

(** An absent key is reported and nothing changes. *)
Lemma remove_absent (self : t) (k : MatchKey.t) :
  k ∉ elems self → remove self k = (self, false).
Proof.
  intros Hk. unfold remove. destruct (find self k) as [i|] eqn:E; [|done].
  exfalso. apply Hk, elem_of_elems. exists i. by eapply find_loop_sound.
Qed.

(** [contains] decides membership. *)
Lemma contains_spec (self : t) (k : MatchKey.t) :
  wf self → (length (elems self) < length (slots self))%nat →
  contains self k = bool_decide (k ∈ elems self).
Proof.
  intros Hwf Hroom. pose proof (find_spec self k Hwf Hroom) as Hf. unfold contains.
  apply bool_decide_ext. destruct (find self k) as [i|].
  - rewrite elem_of_elems. naive_solver.
  - split; [by intros [? ?]|done].
Qed.

(** A new table is empty and has room for twice its maximum. *)
Lemma key_set_new_spec (max_keys : Z) :
  1 ≤ max_keys ≤ 2 ^ 62 →
  wf (new max_keys) ∧ elems (new max_keys) = [] ∧ len (new max_keys) = 0 ∧
  2 * max_keys ≤ Z.of_nat (length (slots (new max_keys))).
Proof.
  intros Hmax. unfold new, usize_checked_mul, usize_checked_next_power_of_two, USIZE_MAX.
  destruct (Z.leb_spec (max_keys * 2) (2 ^ 64 - 1)); [|lia]. simpl mbind.
  assert (max_keys * 2 ≤ 2 ^ Z.log2_up (max_keys * 2) ≤ 2 ^ 63) as [Hlo Hhi].
  { destruct (decide (max_keys * 2 = 1)); [lia|].
    split; [apply Z.log2_up_spec; lia|]. apply Z.pow_le_mono_r; [lia|].
    apply Z.log2_up_le_pow2; lia. }
  destruct (Z.leb_spec (2 ^ Z.log2_up (max_keys * 2)) (2 ^ 64 - 1)); [|lia].
  simpl default. rewrite Z.max_l by lia. set (c := 2 ^ Z.log2_up (max_keys * 2)) in *.
  assert (elems (mk (replicate (Z.to_nat c) None) 0) = []) as Hel.
  { unfold elems; simpl. by induction (Z.to_nat c). }
  assert (∀ i k, slot (mk (replicate (Z.to_nat c) None) 0) i ≠ Some k) as Hs.
  { intros i k Hs. assert (k ∈ elems (mk (replicate (Z.to_nat c) None) 0)) as Hin
      by (apply elem_of_elems; eauto). rewrite Hel in Hin. by apply not_elem_of_nil in Hin. }
  unfold wf, counted. rewrite Hel. cbn [slots len]. rewrite length_replicate.
  split; [|split; [done|split; [done|lia]]]. unfold USIZE_MAX.
  split; [lia|]. split; [split; [lia|split; [done|constructor]]|].
  intros i k Hi. by destruct (Hs i k).
Qed.

End ActiveKeySet.
