(* ===== verification/Admission.v ===== *)
(** * Admission data

    [admission/gate.rs], [admission/options.rs] and the data of
    [admission/error.rs] of [bornera-core]: which classes of work a gate
    admits, the options of one reservation, and why one is rejected. *)
From Stdlib Require Import ZArith Lia.
From stdpp Require Import prelude.
From S2P Require Import Prelude External.

Module AdmissionClass.

(** The class of work requesting admission. *)
Inductive t : Type :=
  | Session
  | Regular.

#[global] Instance eq_dec : EqDecision t.
Proof. solve_decision. Defined.

End AdmissionClass.

Module AdmissionGate.

(** Which classes of work one connection epoch currently accepts. *)
Inductive t : Type :=
  | SessionOnly
  | Open
  | Draining
  | Closed.

#[global] Instance eq_dec : EqDecision t.
Proof. solve_decision. Defined.

Definition admits (self : t) (class : AdmissionClass.t) : bool :=
  match self, class with
  | SessionOnly, AdmissionClass.Session
  | Open, (AdmissionClass.Session | AdmissionClass.Regular) => true
  | _, _ => false
  end.

End AdmissionGate.

Module CompletionMode.

(** Mechanical condition that releases an accepted operation. *)
Inductive t : Type :=
  | ReplyExpected
  | WriteComplete.

#[global] Instance eq_dec : EqDecision t.
Proof. solve_decision. Defined.

End CompletionMode.

Module OperationOptions.
Section operation_options.
Context {Cal : Calandria}.

(** Mechanical resources and timing attached to one operation reservation. *)
Record t : Type := mk {
  deadline : Deadline;
  class : AdmissionClass.t;
  retained : RetainedBytes;
  write_retained : RetainedBytes;
  completion : CompletionMode.t;
}.

Definition until (deadline : Deadline) : t :=
  mk deadline AdmissionClass.Regular rb_ZERO rb_ZERO CompletionMode.ReplyExpected.

Definition session (self : t) : t :=
  mk (deadline self) AdmissionClass.Session (retained self) (write_retained self)
    (completion self).

Definition retained_bytes (self : t) (retained_bytes : RetainedBytes) : t :=
  mk (deadline self) (class self) retained_bytes (write_retained self) (completion self).

Definition write_retained_bytes (self : t) (retained_bytes : RetainedBytes) : t :=
  mk (deadline self) (class self) (retained self) retained_bytes (completion self).

Definition completion_mode (self : t) (completion_mode : CompletionMode.t) : t :=
  mk (deadline self) (class self) (retained self) (write_retained self) completion_mode.

End operation_options.
End OperationOptions.

Module ReserveError.

(** Why an operation reservation was rejected. *)
Inductive t : Type :=
  | AdmissionClosed
  | DeadlineElapsed
  | OperationCapacity
  | RetainedByteCapacity
  | WriteCapacity
  | MatchKeyExhausted
  | IdentityExhausted
  | OwnerPoisoned.

#[global] Instance eq_dec : EqDecision t.
Proof. solve_decision. Defined.

End ReserveError.

Module CommitErrorKind.

(** Why a reserved operation could not be committed. *)
Inductive t : Type :=
  | ForeignPermit
  | AdmissionClosed
  | FrameTooLarge
  | OwnerPoisoned.

#[global] Instance eq_dec : EqDecision t.
Proof. solve_decision. Defined.

End CommitErrorKind.
