(* ===== verification/Ledger.v ===== *)
(** * The reservation ledger

    [admission/ledger.rs] of [bornera-core]: the counters, byte totals and
    active match keys behind operation permits and accepted operations.

    The abstract specification is [accounts self H]: the ledger accounts
    exactly for the list [H] of holdings (one per outstanding permit or
    accepted operation), within its limits and unpoisoned. Each operation is
    then an addition, a removal or a change of one holding. *)
From Stdlib Require Import ZArith Lia.
From stdpp Require Import prelude.
From S2P Require Import Prelude External Identity Limits Admission KeySet.

Module Reservation.
Section reservation.
Context {Cal : Calandria}.

(** Capacity held by one permit or accepted operation. *)
Record t : Type := mk {
  retained_bytes : RetainedBytes;
  write_retained_bytes : RetainedBytes;
  match_key : MatchKey.t;
}.

End reservation.
End Reservation.

Module ReservationLedger.
Section reservation_ledger.
Context {Cal : Calandria}.

(** Bounded resource accounting shared with affine permits. *)
Record t : Type := mk {
  limits : ConnectionLimits.t;
  operations : Z;
  permits : Z;
  retained_bytes : RetainedBytes;
  write_frames : Z;
  write_retained_bytes : RetainedBytes;
  active_keys : ActiveKeySet.t;
  next_key : MatchKey.t;
  poisoned : bool;
}.

Definition new (limits : ConnectionLimits.t) : t :=
  mk limits 0 0 rb_ZERO 0 rb_ZERO
    (ActiveKeySet.new (ConnectionLimits.max_operations limits))
    (MatchKeySpace.first (ConnectionLimits.match_keys limits)) false.

(** [self.poisoned = true]. *)
Definition poison (self : t) : t :=
  mk (limits self) (operations self) (permits self) (retained_bytes self)
    (write_frames self) (write_retained_bytes self) (active_keys self) (next_key self) true.

Definition set_next_key (self : t) (k : MatchKey.t) : t :=
  mk (limits self) (operations self) (permits self) (retained_bytes self)
    (write_frames self) (write_retained_bytes self) (active_keys self) k (poisoned self).

Definition set_active_keys (self : t) (ks : ActiveKeySet.t) : t :=
  mk (limits self) (operations self) (permits self) (retained_bytes self)
    (write_frames self) (write_retained_bytes self) ks (next_key self) (poisoned self).

(** The five counters written together at the end of an operation. *)
Definition set_counts (self : t) (operations permits : Z) (retained_bytes : RetainedBytes)
    (write_frames : Z) (write_retained_bytes : RetainedBytes) : t :=
  mk (limits self) operations permits retained_bytes write_frames write_retained_bytes
    (active_keys self) (next_key self) (poisoned self).

(** The [for _ in 0..attempts] loop of [allocate_key]. *)
Fixpoint allocate_loop (self : t) (attempts : nat) (candidate : MatchKey.t)
    : t * result MatchKey.t ReserveError.t :=
  match attempts with
  | O => (self, Err ReserveError.MatchKeyExhausted)
  | S attempts =>
      let following := MatchKeySpace.next (ConnectionLimits.match_keys (limits self)) candidate in
      if negb (ActiveKeySet.contains (active_keys self) candidate)
      then (set_next_key self following, Ok candidate)
      else allocate_loop self attempts following
  end.

Definition allocate_key (self : t) : t * result MatchKey.t ReserveError.t :=
  match usize_checked_add (ActiveKeySet.len (active_keys self)) 1 with
  | None => (poison self, Err ReserveError.OwnerPoisoned)
  | Some attempts => allocate_loop self (Z.to_nat attempts) (next_key self)
  end.

Definition reserve (self : t) (retained write_retained : RetainedBytes)
    : t * result Reservation.t ReserveError.t :=
  if poisoned self then (self, Err ReserveError.OwnerPoisoned)
  else if operations self =? ConnectionLimits.max_operations (limits self)
  then (self, Err ReserveError.OperationCapacity)
  else match rb_checked_add (retained_bytes self) retained with
  | None => (self, Err ReserveError.RetainedByteCapacity)
  | Some next_retained =>
  if rb_gtb next_retained (ConnectionLimits.max_retained_bytes (limits self))
  then (self, Err ReserveError.RetainedByteCapacity)
  else if write_frames self =? ConnectionLimits.max_write_frames (limits self)
  then (self, Err ReserveError.WriteCapacity)
  else match rb_checked_add (write_retained_bytes self) write_retained with
  | None => (self, Err ReserveError.WriteCapacity)
  | Some next_write =>
  if rb_gtb next_write (ConnectionLimits.max_write_retained_bytes (limits self))
  then (self, Err ReserveError.WriteCapacity)
  else match allocate_key self with
  | (self, Err e) => (self, Err e)
  | (self, Ok key) =>
  match ActiveKeySet.insert (active_keys self) key with
  | (keys, false) => (poison (set_active_keys self keys), Err ReserveError.OwnerPoisoned)
  | (keys, true) =>
      (set_counts (set_active_keys self keys)
         (usize_wrap (operations self + 1)) (usize_wrap (permits self + 1)) next_retained
         (usize_wrap (write_frames self + 1)) next_write,
       Ok (Reservation.mk retained write_retained key))
  end end end end.

Definition commit (self : t) (reservation : Reservation.t) (actual : RetainedBytes) : t :=
  match usize_checked_sub (permits self) 1 with
  | None => poison self
  | Some permits =>
  match rb_checked_sub (Reservation.write_retained_bytes reservation) actual with
  | None => poison self
  | Some unused =>
  match rb_checked_sub (write_retained_bytes self) unused with
  | None => poison self
  | Some write_retained_bytes =>
      set_counts self (operations self) permits (retained_bytes self) (write_frames self)
        write_retained_bytes
  end end end.

Definition release_all (self : t) (reservation : Reservation.t)
    (write_held release_permit : bool) : t :=
  match usize_checked_sub (operations self) 1 with
  | None => poison self
  | Some operations =>
  match rb_checked_sub (retained_bytes self) (Reservation.retained_bytes reservation) with
  | None => poison self
  | Some retained_bytes =>
  match (if release_permit then usize_checked_sub (permits self) 1
         else Some (permits self)) with
  | None => poison self
  | Some permits =>
  match (if write_held then usize_checked_sub (write_frames self) 1
         else Some (write_frames self)) with
  | None => poison self
  | Some write_frames =>
  match (if write_held
         then rb_checked_sub (write_retained_bytes self)
                (Reservation.write_retained_bytes reservation)
         else Some (write_retained_bytes self)) with
  | None => poison self
  | Some write_retained_bytes =>
  match ActiveKeySet.remove (active_keys self) (Reservation.match_key reservation) with
  | (keys, false) => poison (set_active_keys self keys)
  | (keys, true) =>
      set_counts (set_active_keys self keys) operations permits retained_bytes write_frames
        write_retained_bytes
  end end end end end end.

Definition rollback_permit (self : t) (reservation : Reservation.t) : t :=
  release_all self reservation true true.

Definition release_operation (self : t) (reservation : Reservation.t) (write_held : bool) : t :=
  release_all self reservation write_held false.

Definition release_write (self : t) (released : RetainedBytes) : t :=
  match usize_checked_sub (write_frames self) 1 with
  | None => poison self
  | Some write_frames =>
  match rb_checked_sub (write_retained_bytes self) released with
  | None => poison self
  | Some retained =>
      set_counts self (operations self) (permits self) (retained_bytes self) write_frames retained
  end end.

(** ** The accounting specification *)

(** What one outstanding permit or accepted operation holds. *)
Record holding : Type := hold {
  held : Reservation.t;
  write_held : bool;
  is_permit : bool;
}.

Definition key_of (h : holding) : MatchKey.t := Reservation.match_key (held h).
Definition retained_of (h : holding) : Z := rb_get (Reservation.retained_bytes (held h)).
Definition write_of (h : holding) : Z :=
  if write_held h then rb_get (Reservation.write_retained_bytes (held h)) else 0.
Definition frame_of (h : holding) : Z := if write_held h then 1 else 0.
Definition permit_of (h : holding) : Z := if is_permit h then 1 else 0.

(** The ledger accounts for the holdings [H]. *)
Record accounts (self : t) (H : list holding) : Prop := mk_accounts {
  acc_valid : ConnectionLimits.valid (limits self);
  acc_poisoned : poisoned self = false;
  acc_operations : operations self = Z.of_nat (length H);
  acc_permits : permits self = zsum permit_of H;
  acc_retained : rb_get (retained_bytes self) = zsum retained_of H;
  acc_frames : write_frames self = zsum frame_of H;
  acc_write : rb_get (write_retained_bytes self) = zsum write_of H;
  acc_table : ActiveKeySet.wf (active_keys self);
  acc_room : 2 * ConnectionLimits.max_operations (limits self) ≤
    Z.of_nat (length (ActiveKeySet.slots (active_keys self)));
  acc_keys : ActiveKeySet.elems (active_keys self) ≡ₚ key_of <$> H;
  acc_space : Forall (MatchKeySpace.contains (ConnectionLimits.match_keys (limits self)))
    (key_of <$> H);
  acc_next : MatchKeySpace.contains (ConnectionLimits.match_keys (limits self)) (next_key self);
  acc_max_operations : operations self ≤ ConnectionLimits.max_operations (limits self);
  acc_max_retained :
    rb_get (retained_bytes self) ≤ rb_get (ConnectionLimits.max_retained_bytes (limits self));
  acc_max_frames : write_frames self ≤ ConnectionLimits.max_write_frames (limits self);
  acc_max_write : rb_get (write_retained_bytes self) ≤
    rb_get (ConnectionLimits.max_write_retained_bytes (limits self));
}.

(** Only the multiset of holdings matters. *)
#[global] Instance accounts_perm (self : t) : Proper ((≡ₚ) ==> iff) (accounts self).
Proof.
  assert (∀ H H', H ≡ₚ H' → accounts self H → accounts self H') as Himp.
  { intros H H' Heq []. split; rewrite <- ?Heq; done. }
  intros H H' Heq. split; apply Himp; [done|by symmetry].
Qed.

Section laws.
Context {Laws : CalandriaLaws Cal}.

Lemma permit_of_nonneg h : 0 ≤ permit_of h.
Proof. unfold permit_of. by destruct (is_permit h). Qed.
Lemma frame_of_nonneg h : 0 ≤ frame_of h.
Proof. unfold frame_of. by destruct (write_held h). Qed.
Lemma retained_of_nonneg h : 0 ≤ retained_of h.
Proof. apply rb_get_nonneg. Qed.
Lemma write_of_nonneg h : 0 ≤ write_of h.
Proof. unfold write_of. destruct (write_held h); [apply rb_get_nonneg|done]. Qed.

#[local] Hint Resolve permit_of_nonneg frame_of_nonneg retained_of_nonneg write_of_nonneg : bornera.

(** What one more holding adds to each total. *)
Lemma permit_of_hold r w p H :
  zsum permit_of (hold r w p :: H) = (if p then 1 else 0) + zsum permit_of H.
Proof. reflexivity. Qed.
Lemma frame_of_hold r w p H :
  zsum frame_of (hold r w p :: H) = (if w then 1 else 0) + zsum frame_of H.
Proof. reflexivity. Qed.
Lemma retained_of_hold r w p H :
  zsum retained_of (hold r w p :: H) = rb_get (Reservation.retained_bytes r) + zsum retained_of H.
Proof. reflexivity. Qed.
Lemma write_of_hold r w p H :
  zsum write_of (hold r w p :: H) =
    (if w then rb_get (Reservation.write_retained_bytes r) else 0) + zsum write_of H.
Proof. reflexivity. Qed.
Lemma key_of_hold r w p H :
  key_of <$> (hold r w p :: H) = Reservation.match_key r :: (key_of <$> H).
Proof. reflexivity. Qed.

(** Bounds every accounting proof needs. *)
Lemma accounts_nonneg (self : t) (H : list holding) :
  accounts self H →
  0 ≤ zsum permit_of H ∧ 0 ≤ zsum retained_of H ∧ 0 ≤ zsum frame_of H ∧ 0 ≤ zsum write_of H.
Proof. intros _. split_and!; apply zsum_nonneg; auto with bornera. Qed.

Lemma permit_of_le_length (H : list holding) : zsum permit_of H ≤ Z.of_nat (length H).
Proof.
  induction H as [|h H IH]; simpl; [done|]. unfold permit_of at 1.
  destruct (is_permit h); lia.
Qed.

Lemma frame_of_le_length (H : list holding) : zsum frame_of H ≤ Z.of_nat (length H).
Proof.
  induction H as [|h H IH]; simpl; [done|]. unfold frame_of at 1.
  destruct (write_held h); lia.
Qed.

Lemma accounts_elems_length (self : t) (H : list holding) :
  accounts self H →
  length (ActiveKeySet.elems (active_keys self)) = length H ∧
  (length (ActiveKeySet.elems (active_keys self)) <
     length (ActiveKeySet.slots (active_keys self)))%nat.
Proof.
  intros []. pose proof (Permutation_length acc_keys0) as Hlen. rewrite length_fmap in Hlen.
  destruct acc_valid0 as [? _]. split; [done|]. lia.
Qed.

Lemma accounts_nodup (self : t) (H : list holding) :
  accounts self H → NoDup (key_of <$> H).
Proof. intros []. destruct acc_table0 as (_ & (_ & _ & Hnd) & _). by rewrite <- acc_keys0. Qed.

(** Ledgers that account for the same holdings differ at most in their limits
    and in the key they try next. *)
Lemma accounts_same (l l' : t) (H : list holding) :
  accounts l H → accounts l' H →
  operations l' = operations l ∧ permits l' = permits l ∧
  retained_bytes l' = retained_bytes l ∧ write_frames l' = write_frames l ∧
  write_retained_bytes l' = write_retained_bytes l ∧
  ActiveKeySet.elems (active_keys l') ≡ₚ ActiveKeySet.elems (active_keys l) ∧
  poisoned l' = false.
Proof.
  intros [] [].
  assert (rb_get (retained_bytes l') = rb_get (retained_bytes l)) by congruence.
  assert (rb_get (write_retained_bytes l') = rb_get (write_retained_bytes l)) by congruence.
  split_and!; try congruence; [by apply rb_get_inj..|].
  by etrans; [|symmetry].
Qed.

(** A new ledger accounts for nothing. *)
Lemma new_accounts (l : ConnectionLimits.t) : ConnectionLimits.valid l → accounts (new l) [].
Proof.
  intros Hv. pose proof Hv as (Ho & Hf & Hk).
  destruct (ActiveKeySet.key_set_new_spec _ Ho) as (Hwf & Hel & _ & Hroom).
  unfold new. split; simpl; auto using rb_get_ZERO, MatchKeySpace.first_contained.
  all: try lia. all: try (rewrite rb_get_ZERO; apply rb_get_nonneg). by rewrite Hel.
Qed.

(** ** Key allocation *)

(** The loop stops at the first free key it meets. *)
Lemma allocate_loop_spec (self : t) (n : nat) (c : MatchKey.t) :
  let space := ConnectionLimits.match_keys (limits self) in
  (∃ i, (i < n)%nat ∧
    ActiveKeySet.contains (active_keys self) (Nat.iter i (MatchKeySpace.next space) c) = false ∧
    allocate_loop self n c =
      (set_next_key self (Nat.iter (S i) (MatchKeySpace.next space) c),
       Ok (Nat.iter i (MatchKeySpace.next space) c))) ∨
  (allocate_loop self n c = (self, Err ReserveError.MatchKeyExhausted) ∧
   ∀ i, (i < n)%nat →
    ActiveKeySet.contains (active_keys self) (Nat.iter i (MatchKeySpace.next space) c) = true).
Proof.
  intros space. revert c. induction n as [|n IH]; intros c; simpl.
  { right. split; [done|]. lia. }
  destruct (ActiveKeySet.contains (active_keys self) c) eqn:Ec; simpl.
  - destruct (IH (MatchKeySpace.next space c)) as [(i & Hi & Hc & Heq)|[Heq Hall]].
    + left. exists (S i). rewrite !Nat.iter_succ_r. split; [lia|].
      split; [exact Hc|]. rewrite <- Nat.iter_succ_r in Heq. rewrite Nat.iter_succ_r in Heq.
      exact Heq.
    + right. split; [done|]. intros [|i] Hi; [exact Ec|].
      rewrite Nat.iter_succ_r. apply Hall. lia.
  - left. exists 0%nat. split; [lia|]. by split.
Qed.

(** A key is allocated exactly when the space has a key not in use, and the
    key is fresh and of the space. *)
Lemma allocate_key_spec (self : t) (H : list holding) :
  accounts self H →
  let space := ConnectionLimits.match_keys (limits self) in
  if Z.of_nat (length H) <? MatchKeySpace.capacity space
  then ∃ k, k ∉ (key_of <$> H) ∧ MatchKeySpace.contains space k ∧
    allocate_key self = (set_next_key self (MatchKeySpace.next space k), Ok k)
  else allocate_key self = (self, Err ReserveError.MatchKeyExhausted).
Proof.
  intros Hacc space. destruct (accounts_elems_length _ _ Hacc) as [Hlen Hroom].
  pose proof (accounts_nodup _ _ Hacc) as Hnd. destruct Hacc.
  pose proof acc_table0 as Htable. destruct acc_table0 as (_ & (Hmax & Hcount & _) & _).
  destruct acc_valid0 as (_ & _ & Hspace). fold space in Hspace, acc_space0, acc_next0.
  assert (∀ k, ActiveKeySet.contains (active_keys self) k = bool_decide (k ∈ key_of <$> H))
    as Hmem.
  { intros k. rewrite ActiveKeySet.contains_spec by done.
    apply bool_decide_ext. by rewrite acc_keys0. }
  unfold allocate_key. rewrite usize_checked_add_le by lia. rewrite Hcount, Hlen.
  destruct (allocate_loop_spec self (Z.to_nat (Z.of_nat (length H) + 1)) (next_key self))
    as [(i & Hi & Hc & ->)|[-> Hall]]; fold space in Hc || fold space in Hall |- *.
  - rewrite Hmem in Hc. apply bool_decide_eq_false in Hc.
    pose proof (MatchKeySpace.iter_contained _ _ i Hspace acc_next0) as Hin.
    destruct (Z.ltb_spec (Z.of_nat (length H)) (MatchKeySpace.capacity space)) as [|Hge].
    + eexists. split; [exact Hc|]. by split.
    + exfalso. set (k := Nat.iter i _ _) in *.
      pose proof (MatchKeySpace.contained_length space (k :: (key_of <$> H)) Hspace) as Hle.
      simpl in Hle. rewrite length_fmap in Hle.
      assert (Z.of_nat (S (length H)) ≤ MatchKeySpace.capacity space); [|lia].
      apply Hle; by constructor.
  - destruct (Z.ltb_spec (Z.of_nat (length H)) (MatchKeySpace.capacity space)); [|done].
    exfalso. set (f := λ i, Nat.iter i (MatchKeySpace.next space) (next_key self)).
    assert (length (f <$> seq 0 (S (length H))) ≤ length (key_of <$> H))%nat as Hle.
    { apply submseteq_length, NoDup_submseteq.
      - apply NoDup_fmap_2_strong; [|apply NoDup_seq].
        intros x y Hx%elem_of_seq Hy%elem_of_seq Hxy.
        apply (MatchKeySpace.next_iter_inj space (next_key self)); auto; lia.
      - intros k (i & -> & Hi%elem_of_seq)%list_elem_of_fmap.
        specialize (Hall i ltac:(lia)). rewrite Hmem in Hall.
        by apply bool_decide_eq_true in Hall. }
    rewrite !length_fmap, length_seq in Hle. lia.
Qed.

(** ** Operations against the specification *)

(** Why a reservation is refused, in terms of the holdings alone. *)
Definition reserve_error (l : ConnectionLimits.t) (H : list holding)
    (retained write_retained : RetainedBytes) : option ReserveError.t :=
  if Z.of_nat (length H) =? ConnectionLimits.max_operations l
  then Some ReserveError.OperationCapacity
  else if rb_get (ConnectionLimits.max_retained_bytes l) <? zsum retained_of H + rb_get retained
  then Some ReserveError.RetainedByteCapacity
  else if zsum frame_of H =? ConnectionLimits.max_write_frames l
  then Some ReserveError.WriteCapacity
  else if rb_get (ConnectionLimits.max_write_retained_bytes l)
            <? zsum write_of H + rb_get write_retained
  then Some ReserveError.WriteCapacity
  else if MatchKeySpace.capacity (ConnectionLimits.match_keys l) <=? Z.of_nat (length H)
  then Some ReserveError.MatchKeyExhausted
  else None.

(** A checked addition against a limit, as the sources write it. *)
Lemma within_limit (used amount limit : RetainedBytes) :
  match rb_checked_add used amount with
  | None => true
  | Some n => rb_gtb n limit
  end = (rb_get limit <? rb_get used + rb_get amount).
Proof.
  pose proof (rb_get_range limit) as [_ Hl]. destruct (rb_checked_add used amount) as [n|] eqn:E.
  - apply rb_checked_add_Some in E. by rewrite rb_gtb_spec, E.
  - symmetry. apply Z.ltb_lt. rewrite rb_checked_add_spec in E.
    destruct (Z.leb_spec (rb_get used + rb_get amount) U64_MAX); [done|]. lia.
Qed.

(** The table accepts the key that was allocated. *)
Lemma insert_allocated (self : t) (H : list holding) (k : MatchKey.t) :
  accounts self H → k ∉ (key_of <$> H) →
  ∃ keys, ActiveKeySet.insert (active_keys self) k = (keys, true) ∧ ActiveKeySet.wf keys ∧
    length (ActiveKeySet.slots keys) = length (ActiveKeySet.slots (active_keys self)) ∧
    ActiveKeySet.elems keys ≡ₚ k :: (key_of <$> H).
Proof.
  intros Hacc Hk. destruct (accounts_elems_length _ _ Hacc) as [_ Hroom].
  destruct Hacc. destruct (ActiveKeySet.insert_spec (active_keys self) k)
    as (keys & Heq & Hwf & Hlen & Hel); [done|done|by rewrite acc_keys0|].
  exists keys. by rewrite Hel, acc_keys0.
Qed.

(** A refused reservation changes nothing; a granted one adds one holding with
    a fresh key. *)
Lemma ledger_reserve_spec (self : t) (H : list holding) (retained write_retained : RetainedBytes) :
  accounts self H →
  match reserve_error (limits self) H retained write_retained with
  | Some e => reserve self retained write_retained = (self, Err e)
  | None => ∃ self' k,
      let r := Reservation.mk retained write_retained k in
      reserve self retained write_retained = (self', Ok r) ∧ limits self' = limits self ∧
      k ∉ (key_of <$> H) ∧ accounts self' (hold r true true :: H)
  end.
Proof.
  intros Hacc. pose proof (allocate_key_spec _ _ Hacc) as Halloc. cbv zeta in Halloc.
  pose proof (λ k, insert_allocated _ _ k Hacc) as Hins.
  pose proof (accounts_nonneg _ _ Hacc) as Hnn.
  pose proof (permit_of_le_length H) as Hpl. pose proof (frame_of_le_length H) as Hfl.
  pose proof (within_limit (retained_bytes self) retained
    (ConnectionLimits.max_retained_bytes (limits self))) as Hr.
  pose proof (within_limit (write_retained_bytes self) write_retained
    (ConnectionLimits.max_write_retained_bytes (limits self))) as Hw.
  destruct Hacc. unfold reserve, reserve_error.
  rewrite acc_poisoned0, acc_operations0, acc_frames0.
  rewrite acc_retained0 in Hr. rewrite acc_write0 in Hw.
  destruct (Z.eqb_spec (Z.of_nat (length H)) (ConnectionLimits.max_operations (limits self)));
    [done|].
  rewrite <- Hr. destruct (rb_checked_add (retained_bytes self) retained) as [nr|] eqn:Enr; [|done].
  destruct (rb_gtb nr _) eqn:Egr; [done|].
  destruct (Z.eqb_spec (zsum frame_of H) (ConnectionLimits.max_write_frames (limits self)));
    [done|].
  rewrite <- Hw. destruct (rb_checked_add (write_retained_bytes self) write_retained)
    as [nw|] eqn:Enw; [|done].
  destruct (rb_gtb nw _) eqn:Egw; [done|]. rewrite Z.leb_antisym.
  destruct (Z.ltb_spec (Z.of_nat (length H))
    (MatchKeySpace.capacity (ConnectionLimits.match_keys (limits self)))); simpl;
    [|by rewrite Halloc].
  destruct Halloc as (k & Hk & Hsp & ->). destruct (Hins k Hk) as (keys & Heq & Hwf & Hlen & Hel).
  simpl. rewrite Heq. eexists _, k. split; [reflexivity|]. split; [done|]. split; [done|].
  apply rb_checked_add_Some in Enr, Enw. symmetry in Hr, Hw.
  apply Z.ltb_ge in Hr, Hw. pose proof acc_valid0 as (Ho & Hf & Hsv).
  split; rewrite ?permit_of_hold, ?frame_of_hold, ?retained_of_hold, ?write_of_hold,
    ?key_of_hold; simpl; try done.
  all: try (rewrite usize_wrap_small by (unfold in_usize, USIZE_MAX in *; lia)).
  all: try lia.
  - by constructor.
  - by apply MatchKeySpace.next_contained.
Qed.

(** The reservation with its write memory reduced to the frame's. *)
Definition shrink (r : Reservation.t) (actual : RetainedBytes) : Reservation.t :=
  Reservation.mk (Reservation.retained_bytes r) actual (Reservation.match_key r).

(** A commit turns a permit's holding into an operation's, for the frame's
    actual memory. *)
Lemma ledger_commit_spec (self : t) (H : list holding) (r : Reservation.t) (actual : RetainedBytes) :
  accounts self (hold r true true :: H) →
  rb_get actual ≤ rb_get (Reservation.write_retained_bytes r) →
  accounts (commit self r actual) (hold (shrink r actual) true false :: H) ∧
  limits (commit self r actual) = limits self.
Proof.
  intros Hacc Hle. pose proof (accounts_nonneg self H) as Hnn.
  assert (0 ≤ zsum permit_of H ∧ 0 ≤ zsum write_of H) as [Hp Hw]
    by (split; apply zsum_nonneg; auto with bornera).
  pose proof (rb_get_nonneg actual) as Ha.
  destruct Hacc. rewrite ?permit_of_hold, ?frame_of_hold, ?retained_of_hold, ?write_of_hold,
    ?key_of_hold in *.
  unfold commit. rewrite usize_checked_sub_le by lia.
  destruct (rb_checked_sub_le (Reservation.write_retained_bytes r) actual Hle)
    as (unused & -> & Hu).
  destruct (rb_checked_sub_le (write_retained_bytes self) unused) as (w & -> & Hw'); [lia|].
  split; [|done].
  split; rewrite ?permit_of_hold, ?frame_of_hold, ?retained_of_hold, ?write_of_hold,
    ?key_of_hold; simpl; try done; lia.
Qed.

(** A release removes one holding. *)
Lemma release_all_spec (self : t) (H : list holding) (r : Reservation.t) (w p : bool) :
  accounts self (hold r w p :: H) →
  accounts (release_all self r w p) H ∧ limits (release_all self r w p) = limits self.
Proof.
  intros Hacc. destruct (accounts_elems_length _ _ Hacc) as [_ Hroom].
  assert (0 ≤ zsum permit_of H ∧ 0 ≤ zsum frame_of H ∧ 0 ≤ zsum retained_of H ∧
    0 ≤ zsum write_of H) as (Hp & Hf & Hr & Hw)
    by (split_and!; apply zsum_nonneg; auto with bornera).
  pose proof (rb_get_nonneg (Reservation.retained_bytes r)).
  pose proof (rb_get_nonneg (Reservation.write_retained_bytes r)).
  destruct Hacc. rewrite ?permit_of_hold, ?frame_of_hold, ?retained_of_hold, ?write_of_hold,
    ?key_of_hold in *. simpl in acc_operations0.
  destruct (ActiveKeySet.remove_spec (active_keys self) (Reservation.match_key r))
    as (keys & Hrem & Hwf & Hlen & Hel); [done|done|rewrite acc_keys0; constructor|].
  assert (ActiveKeySet.elems keys ≡ₚ key_of <$> H) as Hkeys.
  { rewrite Hel in acc_keys0. by apply Permutation_cons_inv in acc_keys0. }
  apply Forall_cons in acc_space0 as [_ Hspace].
  unfold release_all. rewrite usize_checked_sub_le by lia.
  destruct (rb_checked_sub_le (retained_bytes self) (Reservation.retained_bytes r))
    as (nr & -> & Hnr); [lia|].
  assert ((if p then usize_checked_sub (permits self) 1 else Some (permits self)) =
    Some (zsum permit_of H)) as ->.
  { destruct p; [rewrite usize_checked_sub_le by lia|]; f_equal; lia. }
  assert ((if w then usize_checked_sub (write_frames self) 1 else Some (write_frames self)) =
    Some (zsum frame_of H)) as ->.
  { destruct w; [rewrite usize_checked_sub_le by lia|]; f_equal; lia. }
  assert (∃ nw, (if w then rb_checked_sub (write_retained_bytes self)
      (Reservation.write_retained_bytes r) else Some (write_retained_bytes self)) = Some nw ∧
      rb_get nw = zsum write_of H) as (nw & -> & Hnw).
  { destruct w; [|exists (write_retained_bytes self); split; [done|lia]].
    destruct (rb_checked_sub_le (write_retained_bytes self) (Reservation.write_retained_bytes r))
      as (nw & -> & Hnw); [lia|]. exists nw. split; [done|lia]. }
  rewrite Hrem. split; [|done].
  split; simpl; try done; try lia; destruct p, w; lia.
Qed.

(** Completing a write keeps the operation's holding without its frame. *)
Lemma release_write_spec (self : t) (H : list holding) (r : Reservation.t) :
  accounts self (hold r true false :: H) →
  accounts (release_write self (Reservation.write_retained_bytes r)) (hold r false false :: H) ∧
  limits (release_write self (Reservation.write_retained_bytes r)) = limits self.
Proof.
  intros Hacc.
  assert (0 ≤ zsum frame_of H ∧ 0 ≤ zsum write_of H) as (Hf & Hw)
    by (split_and!; apply zsum_nonneg; auto with bornera).
  pose proof (rb_get_nonneg (Reservation.write_retained_bytes r)).
  destruct Hacc. rewrite ?permit_of_hold, ?frame_of_hold, ?retained_of_hold, ?write_of_hold,
    ?key_of_hold in *.
  unfold release_write. rewrite usize_checked_sub_le by lia.
  destruct (rb_checked_sub_le (write_retained_bytes self) (Reservation.write_retained_bytes r))
    as (nw & -> & Hnw); [lia|].
  split; [|done].
  split; rewrite ?permit_of_hold, ?frame_of_hold, ?retained_of_hold, ?write_of_hold,
    ?key_of_hold; simpl; try done; lia.
Qed.

End laws.
End reservation_ledger.
End ReservationLedger.
