(* ===== verification/Operation.v ===== *)
(** * Operations

    [operation/outcome.rs] and [operation/record.rs] of [bornera-core], and
    the close reasons and effects of [connection/effect.rs]: the phases of an
    accepted operation, its terminal outcomes, and what a transition asks the
    owner to do. *)
From Stdlib Require Import ZArith Lia.
From stdpp Require Import prelude.
From S2P Require Import Prelude External Identity Admission Ledger.

Module OperationPhase.

(** The transport-owned phase of an accepted operation. *)
Inductive t : Type :=
  | Queued
  | Writing
  | AwaitingReply
  | Terminal.

#[global] Instance eq_dec : EqDecision t.
Proof. solve_decision. Defined.

End OperationPhase.

Module CloseReason.

(** Why an epoch must close. *)
Inductive t : Type :=
  | Drained
  | Requested
  | DeadlineAfterPossibleSend
  | TransportLost
  | ConnectFailed
  | ConnectTimedOut
  | UnexpectedReply
  | MalformedReply
  | InboundRetainedCapacity
  | MatchKeyMismatch (expected received : MatchKey.t).

#[global] Instance eq_dec : EqDecision t.
Proof. solve_decision. Defined.

End CloseReason.

Module OperationFailure.

(** A mechanical failure observed by the connection owner. *)
Inductive t : Type :=
  | DeadlineElapsed
  | ConnectionClosed (reason : CloseReason.t)
  | MatchKeyMismatch (expected received : MatchKey.t).

#[global] Instance eq_dec : EqDecision t.
Proof. solve_decision. Defined.

End OperationFailure.

Module OperationOutcome.

(** Exactly one terminal outcome for an accepted operation. *)
Inductive t (F : Type) : Type :=
  | Reply (frame : F)
  | WriteComplete (delivery : Delivery.t)
  | Failed (failure : OperationFailure.t) (delivery : Delivery.t)
  | Cancelled (delivery : Delivery.t).

#[global] Arguments Reply {F} frame.
#[global] Arguments WriteComplete {F} delivery.
#[global] Arguments Failed {F} failure delivery.
#[global] Arguments Cancelled {F} delivery.

(** [impl Retained for OperationOutcome]: only a reply retains memory. The
    payload's own footprint is the adapter's function [retained]. *)
Definition retained_bytes {Cal : Calandria} {F : Type} (retained : F → RetainedBytes)
    (self : t F) : RetainedBytes :=
  match self with
  | Reply frame => retained frame
  | WriteComplete _ | Failed _ _ | Cancelled _ => rb_ZERO
  end.

End OperationOutcome.

Module OperationRecord.
Section operation_record.
Context {Cal : Calandria}.

(** Internal bounded operation state for one epoch. *)
Record t : Type := mk {
  id : OperationId.t;
  effect : EffectId.t;
  deadline : Deadline;
  reservation : Reservation.t;
  phase : OperationPhase.t;
  completion : CompletionMode.t;
  delivery : Delivery.t;
  write_held : bool;
}.

(** Field assignments through [&mut OperationRecord]. *)
Definition set_phase (self : t) (p : OperationPhase.t) : t :=
  mk (id self) (effect self) (deadline self) (reservation self) p (completion self)
    (delivery self) (write_held self).

Definition set_delivery (self : t) (d : Delivery.t) : t :=
  mk (id self) (effect self) (deadline self) (reservation self) (phase self) (completion self)
    d (write_held self).

Definition set_write_held (self : t) (w : bool) : t :=
  mk (id self) (effect self) (deadline self) (reservation self) (phase self) (completion self)
    (delivery self) w.

Definition is_terminal (self : t) : bool := bool_decide (phase self = OperationPhase.Terminal).

End operation_record.
End OperationRecord.

Module ConnectionEffect.
Section connection_effect.
Context {Cal : Calandria}.

(** A capability action or terminal publication requested by core policy. *)
Inductive t (F : Type) : Type :=
  | ScheduleDeadline (epoch : ConnectionEpoch.t) (operation : OperationId.t)
      (deadline : Deadline)
  | DiscardWrite (effect : EffectId.t) (epoch : ConnectionEpoch.t)
      (operation : OperationId.t)
  | CancelDeadline (epoch : ConnectionEpoch.t) (operation : OperationId.t)
  | CloseEpoch (epoch : ConnectionEpoch.t) (reason : CloseReason.t)
  | PublishOutcome (epoch : ConnectionEpoch.t) (operation : OperationId.t)
      (outcome : OperationOutcome.t F).

#[global] Arguments ScheduleDeadline {F} epoch operation deadline.
#[global] Arguments DiscardWrite {F} effect epoch operation.
#[global] Arguments CancelDeadline {F} epoch operation.
#[global] Arguments CloseEpoch {F} epoch reason.
#[global] Arguments PublishOutcome {F} epoch operation outcome.

Definition failed {F : Type} (epoch : ConnectionEpoch.t) (operation : OperationId.t)
    (failure : OperationFailure.t) (delivery : Delivery.t) : t F :=
  PublishOutcome epoch operation (OperationOutcome.Failed failure delivery).

End connection_effect.
End ConnectionEffect.
