(* ===== verification/Matching.v ===== *)
(** * FIFO matching

    [matching/ordered_verified.rs] of [bornera-core]: the wire-order queue of
    accepted operations. A [VecDeque] is the list of its entries, front
    first. *)
From Stdlib Require Import ZArith Lia.
From stdpp Require Import prelude.
From S2P Require Import Prelude External Identity Limits Admission Ledger Operation.

Module OrderedVerified.
Section ordered_verified.
Context {Cal : Calandria}.

(** FIFO matching state for replies whose key must equal the front's. *)
Record t : Type := mk {
  key_space : MatchKeySpace.t;
  capacity : Z;
  pending : list OperationRecord.t;
}.

Definition new (key_space : MatchKeySpace.t) (capacity : Z) : t := mk key_space capacity [].

Definition set_pending (self : t) (l : list OperationRecord.t) : t :=
  mk (key_space self) (capacity self) l.

Definition pending_operations (self : t) : nat := length (pending self).

Definition front_match_key (self : t) : option MatchKey.t :=
  (λ record, Reservation.match_key (OperationRecord.reservation record)) <$> head (pending self).

Definition push (self : t) (record : OperationRecord.t) : t :=
  set_pending self (pending self ++ [record]).

Definition index_of (self : t) (id : OperationId.t) : option nat :=
  position (λ record, bool_decide (OperationRecord.id record = id)) (pending self).

Definition get_indexed (self : t) (id : OperationId.t) : option (nat * OperationRecord.t) :=
  index ← index_of self id; record ← pending self !! index; Some (index, record).

Definition get (self : t) (id : OperationId.t) : option OperationRecord.t :=
  snd <$> get_indexed self id.

(** [get_mut] with the assignments [f] made through the reference; [None]
    when there is no such operation. *)
Definition get_mut (self : t) (id : OperationId.t)
    (f : OperationRecord.t → OperationRecord.t) : option t :=
  index ← index_of self id; record ← pending self !! index;
  Some (set_pending self (<[index := f record]> (pending self))).

Definition front (self : t) : option OperationRecord.t := head (pending self).

Definition records (self : t) : list OperationRecord.t := pending self.

Definition pop_front (self : t) : option (OperationRecord.t * t) :=
  match pending self with
  | [] => None
  | record :: rest => Some (record, set_pending self rest)
  end.

Definition remove (self : t) (id : OperationId.t) : option (OperationRecord.t * t) :=
  index ← index_of self id;
  '(record, rest) ← remove_at index (pending self);
  Some (record, set_pending self rest).

Definition is_empty (self : t) : bool :=
  match pending self with [] => true | _ => false end.

Definition terminal_len (self : t) : nat :=
  length (filter (λ record, OperationRecord.phase record = OperationPhase.Terminal) (pending self)).

Definition active_len (self : t) : nat :=
  length (filter (λ record, OperationRecord.phase record ≠ OperationPhase.Terminal) (pending self)).

(** ** Lookup by identity *)

Definition ids (l : list OperationRecord.t) : list OperationId.t := OperationRecord.id <$> l.

(** The record of an identity splits the queue around it; identities before it
    differ. *)
Lemma index_of_split (self : t) (id : OperationId.t) (i : nat) :
  index_of self id = Some i →
  ∃ l1 r l2, pending self = l1 ++ r :: l2 ∧ length l1 = i ∧
    OperationRecord.id r = id ∧ id ∉ ids l1.
Proof.
  intros (r & Hr & Hid & Heq & Hbefore)%position_Some.
  exists (take i (pending self)), r, (drop (S i) (pending self)).
  apply bool_decide_eq_true in Hid. split; [done|].
  split; [apply length_take_le; apply lookup_lt_Some in Hr; lia|]. split; [done|].
  intros (r' & -> & Hin)%list_elem_of_fmap. rewrite Forall_forall in Hbefore.
  specialize (Hbefore r' Hin). simpl in Hbefore. by apply bool_decide_eq_false in Hbefore.
Qed.

Lemma index_of_None (self : t) (id : OperationId.t) :
  index_of self id = None ↔ id ∉ ids (pending self).
Proof.
  unfold index_of. rewrite position_None, Forall_forall. unfold ids.
  rewrite list_elem_of_fmap. setoid_rewrite bool_decide_eq_false. naive_solver.
Qed.

(** [get], [get_indexed], [get_mut] and [remove] on a known identity. *)
Lemma lookup_split (self : t) (l1 l2 : list OperationRecord.t) (r : OperationRecord.t) :
  pending self = l1 ++ r :: l2 → OperationRecord.id r ∉ ids l1 →
  get_indexed self (OperationRecord.id r) = Some (length l1, r) ∧
  get self (OperationRecord.id r) = Some r ∧
  (∀ f, get_mut self (OperationRecord.id r) f = Some (set_pending self (l1 ++ f r :: l2))) ∧
  remove self (OperationRecord.id r) = Some (r, set_pending self (l1 ++ l2)).
Proof.
  intros Hp Hid.
  assert (index_of self (OperationRecord.id r) = Some (length l1)) as Hi.
  { unfold index_of. rewrite Hp. apply position_app; [|by apply bool_decide_eq_true].
    apply Forall_forall. intros r' Hr'. apply bool_decide_eq_false. intros Heq.
    apply Hid. rewrite <- Heq. unfold ids. by apply list_elem_of_fmap_2. }
  assert (pending self !! length l1 = Some r) as Hl
    by (rewrite Hp; by apply list_lookup_middle).
  assert (get_indexed self (OperationRecord.id r) = Some (length l1, r)) as Hg
    by (unfold get_indexed; rewrite Hi; simpl; by rewrite Hl).
  split; [done|]. split; [unfold get; by rewrite Hg|]. split.
  - intros f. unfold get_mut. rewrite Hi. simpl. rewrite Hl. simpl.
    rewrite Hp, insert_app_r_alt by done. by rewrite Nat.sub_diag.
  - unfold remove. rewrite Hi. simpl. rewrite (remove_at_lookup _ _ _ Hl). simpl.
    rewrite Hp, take_app_length, drop_app_ge by lia.
    by replace (S (length l1) - length l1)%nat with 1%nat by lia.
Qed.

Lemma get_Some (self : t) (id : OperationId.t) (r : OperationRecord.t) :
  get self id = Some r →
  ∃ l1 l2, pending self = l1 ++ r :: l2 ∧ OperationRecord.id r = id ∧ id ∉ ids l1.
Proof.
  unfold get, get_indexed. destruct (index_of self id) as [i|] eqn:Hi; [|done]. simpl.
  destruct (index_of_split _ _ _ Hi) as (l1 & r' & l2 & Hp & Hl & Hid & Hn).
  rewrite Hp, list_lookup_middle by done. simpl. intros [= <-]. eauto.
Qed.

Lemma get_None (self : t) (id : OperationId.t) :
  get self id = None ↔ id ∉ ids (pending self).
Proof.
  rewrite <- index_of_None. unfold get, get_indexed.
  destruct (index_of self id) as [i|] eqn:Hi; [|done].
  destruct (index_of_split _ _ _ Hi) as (l1 & r' & l2 & Hp & Hl & _).
  simpl. by rewrite Hp, list_lookup_middle by done.
Qed.

Lemma get_mut_None (self : t) (id : OperationId.t) f :
  get self id = None → get_mut self id f = None.
Proof. intros Hn%get_None%index_of_None. unfold get_mut. by rewrite Hn. Qed.

Lemma remove_None (self : t) (id : OperationId.t) : get self id = None → remove self id = None.
Proof. intros Hn%get_None%index_of_None. unfold remove. by rewrite Hn. Qed.

(** Every entry is either active or a terminal tombstone. *)
Lemma active_terminal_len (self : t) :
  (active_len self + terminal_len self = pending_operations self)%nat.
Proof.
  unfold active_len, terminal_len, pending_operations.
  induction (pending self) as [|r l IH]; [done|]. rewrite !filter_cons.
  destruct (decide (OperationRecord.phase r = OperationPhase.Terminal)) as [E|E];
    destruct (decide (OperationRecord.phase r ≠ OperationPhase.Terminal)) as [E'|E'];
    simpl; try done; lia.
Qed.

End ordered_verified.
End OrderedVerified.
