(* ===== verification/Permit.v ===== *)
(** * Permits and the shared ledger

    [admission/permit.rs] of [bornera-core]. A permit and the machine that
    issued it share one ledger through [Rc<RefCell<ReservationLedger>>]. The
    shared store is [Heap.t]: it gives the ledger at every address, and
    [Rc::ptr_eq] compares addresses. An [Rc] is never dangling, so the store
    is total; a ledger nobody refers to is never read. *)
From Stdlib Require Import ZArith Lia.
From stdpp Require Import prelude.
From S2P Require Import Prelude External Identity Admission Ledger.

(** The address of a reference-counted ledger. *)
Definition LedgerRef : Type := positive.

Module Heap.
Section heap.
Context {Cal : Calandria}.

Definition t : Type := LedgerRef → ReservationLedger.t.

(** [ledger.borrow()]. *)
Definition borrow (self : t) (ledger : LedgerRef) : ReservationLedger.t := self ledger.

(** [*ledger.borrow_mut() = contents], also for [Rc::new] at a new address. *)
Definition store (self : t) (ledger : LedgerRef) (contents : ReservationLedger.t) : t :=
  λ l, if decide (l = ledger) then contents else self l.

(** [ledger.borrow_mut().f()] for a method that returns nothing. *)
Definition borrow_mut (self : t) (ledger : LedgerRef)
    (f : ReservationLedger.t → ReservationLedger.t) : t :=
  store self ledger (f (borrow self ledger)).

Lemma borrow_store_eq (self : t) l c : borrow (store self l c) l = c.
Proof. unfold borrow, store. by rewrite decide_True. Qed.

Lemma borrow_store_ne (self : t) l l' c : l' ≠ l → borrow (store self l c) l' = borrow self l'.
Proof. intros Hne. unfold borrow, store. by rewrite decide_False. Qed.

Lemma borrow_mut_eq (self : t) l f : borrow (borrow_mut self l f) l = f (borrow self l).
Proof. apply borrow_store_eq. Qed.

Lemma borrow_mut_ne (self : t) l l' f : l' ≠ l → borrow (borrow_mut self l f) l' = borrow self l'.
Proof. apply borrow_store_ne. Qed.

End heap.
End Heap.

Module OperationPermit.
Section operation_permit.
Context {Cal : Calandria}.

(** An atomic reservation that rolls back all capacity when dropped. *)
Record t : Type := mk {
  ledger : LedgerRef;
  epoch : ConnectionEpoch.t;
  operation : OperationId.t;
  effect : EffectId.t;
  deadline : Deadline;
  class : AdmissionClass.t;
  completion : CompletionMode.t;
  reservation : Reservation.t;
  active : bool;
}.

Definition match_key (self : t) : MatchKey.t := Reservation.match_key (reservation self).

Definition set_reservation (self : t) (r : Reservation.t) (active : bool) : t :=
  mk (ledger self) (epoch self) (operation self) (effect self) (deadline self) (class self)
    (completion self) r active.

(** Settles the ledger for the frame's actual memory and disarms the permit. *)
Definition commit (self : t) (actual : RetainedBytes) (heap : Heap.t) : t * Heap.t :=
  let heap :=
    Heap.borrow_mut heap (ledger self) (λ l, ReservationLedger.commit l (reservation self) actual) in
  (set_reservation self
     (Reservation.mk (Reservation.retained_bytes (reservation self)) actual
        (Reservation.match_key (reservation self))) false,
   heap).

(** [impl Drop]. *)
Definition drop (self : t) (heap : Heap.t) : t * Heap.t :=
  if active self
  then (set_reservation self (reservation self) false,
        Heap.borrow_mut heap (ledger self)
          (λ l, ReservationLedger.rollback_permit l (reservation self)))
  else (self, heap).

End operation_permit.
End OperationPermit.
