(* ===== verification/Write.v ===== *)
(** * The bounded writer

    [write/] of [bornera-core]: complete outbound frames in wire order, their
    commit-time measures, exact progress of the front, and the aggregate
    retained-byte budget.

    A frame's byte view is read through the [WriteFrame] instance given to the
    call. Calls at different times may be given different instances, which
    models frames whose view changes while they are owned (interior
    mutability). *)
From Stdlib Require Import ZArith Lia.
From stdpp Require Import prelude.
From S2P Require Import Prelude External Identity Limits.

(** ** Frames and measures *)

(** A complete outbound frame with explicit retained-memory accounting. *)
Class WriteFrame {Cal : Calandria} (F : Type) : Type := {
  frame_bytes : F → list Byte.byte;
  frame_retained_bytes : F → RetainedBytes;
}.

Module FrameMeasure.
Section frame_measure.
Context {Cal : Calandria}.

(** Wire length and retained memory sampled once at commit. *)
Record t : Type := mk { wire_bytes : Z; retained_bytes : RetainedBytes }.

Definition capture {F : Type} {W : WriteFrame F} (frame : F) : t :=
  mk (Z.of_nat (length (frame_bytes frame))) (frame_retained_bytes frame).

End frame_measure.
End FrameMeasure.

Module FrameContractViolation.

(** A frame changed the byte-view shape promised at commit. *)
Inductive t : Type :=
  | WireLengthChanged (measured observed : Z)
  | WriteRangeUnavailable (measured written observed : Z).

#[global] Instance eq_dec : EqDecision t.
Proof. solve_decision. Defined.

End FrameContractViolation.

(** ** Errors *)

Module WriteIdentityKind.

(** Pending identity category that a new frame attempted to reuse. *)
Inductive t : Type :=
  | Operation
  | Effect.

End WriteIdentityKind.

Module WriteAdmissionFailure.
Section write_admission_failure.
Context {Cal : Calandria}.

(** Why a complete frame could not enter the bounded writer. *)
Inductive t : Type :=
  | StaleEpoch (expected received : ConnectionEpoch.t)
  | IdentityInUse (kind : WriteIdentityKind.t)
  | FrameCapacityReached (limit : Z)
  | RetainedByteCapacity (retained incoming limit : RetainedBytes).

End write_admission_failure.
End WriteAdmissionFailure.

Module WriteAdmissionError.
Section write_admission_error.
Context {Cal : Calandria}.

(** Rejected admission that preserves the exact unsent frame. *)
Record t (F : Type) : Type := new { failure : WriteAdmissionFailure.t; into_frame : F }.

End write_admission_error.
#[global] Arguments new {Cal F}.
#[global] Arguments failure {Cal F}.
#[global] Arguments into_frame {Cal F}.
End WriteAdmissionError.

Module WriteProgressError.
Section write_progress_error.
Context {Cal : Calandria}.

(** Why reported transport progress could not mutate the FIFO front. *)
Inductive t : Type :=
  | StaleEpoch (expected received : ConnectionEpoch.t)
  | NoPendingWrite
  | OutOfOrderEffect (expected received : EffectId.t)
  | ExceedsRemaining (written remaining : Z)
  | ProgressAccountingOverflow (measured written : Z)
  | RetainedAccountingUnderflow (retained released : RetainedBytes).

End write_progress_error.
End WriteProgressError.

(** ** The aggregate budget *)

Module RetainedBudget.
Section retained_budget.
Context {Cal : Calandria} {BB : ByteBudgetLib}.

(** Bridge from retained bytes to the private aggregate budget. *)
Record t : Type := mk { inner : ByteBudget }.

Definition new (limit : RetainedBytes) : t := mk (budget_new (byte_count_new (rb_get limit))).

Definition used (self : t) : RetainedBytes :=
  rb_new (byte_count_get (budget_used (inner self))).

Definition can_reserve (self : t) (amount : RetainedBytes) : bool :=
  budget_can_reserve (inner self) (byte_count_new (rb_get amount)).

Definition try_reserve (self : t) (amount : RetainedBytes) : t * bool :=
  let '(inner, ok) := budget_try_reserve (inner self) (byte_count_new (rb_get amount)) in
  (mk inner, ok).

Definition release (self : t) (amount : RetainedBytes) : t * bool :=
  let '(inner, ok) := budget_release (inner self) (byte_count_new (rb_get amount)) in
  (mk inner, ok).

Definition clear (self : t) : t * RetainedBytes :=
  let used := used self in
  (mk (budget_new (budget_limit (inner self))), used).

(** The limit as a count, for the specifications. *)
Definition limit_get (self : t) : Z := byte_count_get (budget_limit (inner self)).

Context {Laws : CalandriaLaws Cal} {BLaws : ByteBudgetLaws BB}.

Lemma byte_count_of (a : RetainedBytes) : byte_count_get (byte_count_new (rb_get a)) = rb_get a.
Proof. apply byte_count_get_new, rb_get_range. Qed.

Lemma used_get (self : t) : rb_get (used self) = byte_count_get (budget_used (inner self)).
Proof. apply rb_get_new, byte_count_range. Qed.

Lemma budget_new_spec (l : RetainedBytes) : rb_get (used (new l)) = 0 ∧ limit_get (new l) = rb_get l.
Proof.
  rewrite used_get. unfold new, limit_get; simpl. rewrite budget_limit_new, byte_count_of.
  by rewrite budget_used_new.
Qed.

Lemma can_reserve_spec (self : t) (a : RetainedBytes) :
  can_reserve self a = (rb_get (used self) + rb_get a <=? limit_get self).
Proof. unfold can_reserve. by rewrite budget_can_reserve_spec, byte_count_of, used_get. Qed.

Lemma try_reserve_spec (self : t) (a : RetainedBytes) :
  rb_get (used self) + rb_get a ≤ limit_get self →
  ∃ self', try_reserve self a = (self', true) ∧
    rb_get (used self') = rb_get (used self) + rb_get a ∧ limit_get self' = limit_get self.
Proof.
  intros Hle. pose proof (can_reserve_spec self a) as Hc. rewrite (proj2 (Z.leb_le _ _) Hle) in Hc.
  unfold can_reserve in Hc. unfold try_reserve.
  pose proof (budget_try_reserve_ok (inner self) (byte_count_new (rb_get a))) as Hok.
  pose proof (budget_try_reserve_limit (inner self) (byte_count_new (rb_get a))) as Hl.
  pose proof (budget_try_reserve_used (inner self) (byte_count_new (rb_get a))) as Hu.
  rewrite Hc in *. destruct (budget_try_reserve _ _) as [b ok]; simpl in *. subst ok.
  exists (mk b). rewrite !used_get. unfold limit_get; simpl. by rewrite Hl, Hu, byte_count_of.
Qed.

Lemma release_spec (self : t) (a : RetainedBytes) :
  rb_get a ≤ rb_get (used self) →
  ∃ self', release self a = (self', true) ∧
    rb_get (used self') = rb_get (used self) - rb_get a ∧ limit_get self' = limit_get self.
Proof.
  intros Hle. unfold release. rewrite used_get in *.
  pose proof (budget_release_ok (inner self) (byte_count_new (rb_get a))) as Hok.
  pose proof (budget_release_limit (inner self) (byte_count_new (rb_get a))) as Hl.
  pose proof (budget_release_used (inner self) (byte_count_new (rb_get a))) as Hu.
  rewrite byte_count_of in Hok, Hu. rewrite (proj2 (Z.leb_le _ _) Hle) in Hok, Hu.
  destruct (budget_release _ _) as [b ok]; simpl in *. subst ok.
  exists (mk b). rewrite used_get. unfold limit_get; simpl. by rewrite Hl, Hu.
Qed.

Lemma clear_spec (self : t) :
  (clear self).2 = used self ∧ rb_get (used (clear self).1) = 0 ∧
  limit_get (clear self).1 = limit_get self.
Proof.
  unfold clear; simpl. rewrite used_get. unfold limit_get; simpl.
  by rewrite budget_limit_new, budget_used_new.
Qed.

End retained_budget.
End RetainedBudget.

(** ** Observations *)

Module QueuedWrite.
Section queued_write.
Context {Cal : Calandria}.

(** One measured complete frame retained in exact wire order. *)
Record t (F : Type) : Type := mk {
  operation : OperationId.t;
  effect : EffectId.t;
  frame : F;
  measure : FrameMeasure.t;
  written : Z;
  started : bool;
}.
#[global] Arguments mk {F}.
#[global] Arguments operation {F}.
#[global] Arguments effect {F}.
#[global] Arguments frame {F}.
#[global] Arguments measure {F}.
#[global] Arguments written {F}.
#[global] Arguments started {F}.

(** [self.written = written; self.started = started]. *)
Definition set_progress {F : Type} (self : t F) (written : Z) (started : bool) : t F :=
  mk (operation self) (effect self) (frame self) (measure self) written started.

Definition delivery {F : Type} (self : t F) : Delivery.t :=
  if started self then Delivery.PossiblySent else Delivery.NotSent.

End queued_write.
End QueuedWrite.

Module DiscardedWrite.
Section discarded_write.
Context {Cal : Calandria}.

(** One frame removed before normal write completion. *)
Record t (F : Type) : Type := mk {
  operation : OperationId.t;
  effect : EffectId.t;
  frame : F;
  measure : FrameMeasure.t;
  written : Z;
  delivery : Delivery.t;
}.
#[global] Arguments mk {F}.
#[global] Arguments operation {F}.
#[global] Arguments effect {F}.
#[global] Arguments frame {F}.
#[global] Arguments measure {F}.
#[global] Arguments written {F}.
#[global] Arguments delivery {F}.

(** [QueuedWrite::into_discarded]. *)
Definition into_discarded {F : Type} (self : QueuedWrite.t F) : t F :=
  mk (QueuedWrite.operation self) (QueuedWrite.effect self) (QueuedWrite.frame self)
    (QueuedWrite.measure self) (QueuedWrite.written self)
    (if QueuedWrite.started self then Delivery.PossiblySent else Delivery.NotSent).

End discarded_write.
End DiscardedWrite.

Module DiscardedWrites.
Section discarded_writes.
Context {Cal : Calandria}.

(** Bounded frames removed together when an epoch closes. *)
Record t (F : Type) : Type := mk {
  writes : list (DiscardedWrite.t F);
  retained_bytes : RetainedBytes;
}.
#[global] Arguments mk {F}.
#[global] Arguments writes {F}.
#[global] Arguments retained_bytes {F}.

End discarded_writes.
End DiscardedWrites.

Module WriteBoundary.

(** Whether one progress report crossed the conservative delivery boundary. *)
Inductive t : Type :=
  | Unchanged
  | Crossed.

#[global] Instance eq_dec : EqDecision t.
Proof. solve_decision. Defined.

End WriteBoundary.

Module WriteSlice.

(** Borrowed bytes from only the FIFO queue front. *)
Record t : Type := mk {
  epoch : ConnectionEpoch.t;
  operation : OperationId.t;
  effect : EffectId.t;
  bytes : list Byte.byte;
}.

End WriteSlice.

Module WriteProgress.
Section write_progress.
Context {Cal : Calandria}.

(** Result of applying exact progress to the FIFO front. *)
Inductive t (F : Type) : Type :=
  | Pending (operation : OperationId.t) (boundary : WriteBoundary.t)
  | Complete (operation : OperationId.t) (effect : EffectId.t) (frame : F)
      (measure : FrameMeasure.t) (boundary : WriteBoundary.t) (delivery : Delivery.t).
#[global] Arguments Pending {F}.
#[global] Arguments Complete {F}.

End write_progress.
End WriteProgress.

(** ** The queue *)

Module WriteQueue.
Section write_queue.
Context {Cal : Calandria} {BB : ByteBudgetLib} {F : Type}.

(** Single-epoch owner of complete outbound frames in wire order. *)
Record t : Type := mk {
  epoch : ConnectionEpoch.t;
  limits : WriteQueueLimits.t;
  frames : list (QueuedWrite.t F);
  retained_budget : RetainedBudget.t;
}.

Definition new (epoch : ConnectionEpoch.t) (limits : WriteQueueLimits.t) : t :=
  mk epoch limits [] (RetainedBudget.new (WriteQueueLimits.max_retained_bytes limits)).

Definition set_frames (self : t) (frames : list (QueuedWrite.t F)) : t :=
  mk (epoch self) (limits self) frames (retained_budget self).

Definition set_budget (self : t) (b : RetainedBudget.t) : t :=
  mk (epoch self) (limits self) (frames self) b.

Definition queued_frames (self : t) : nat := length (frames self).

Definition retained_bytes (self : t) : RetainedBytes := RetainedBudget.used (retained_budget self).

Definition index_of_operation (self : t) (operation : OperationId.t) : option nat :=
  position (λ frame, bool_decide (QueuedWrite.operation frame = operation)) (frames self).

Definition index_of_effect (self : t) (effect : EffectId.t) : option nat :=
  position (λ frame, bool_decide (QueuedWrite.effect frame = effect)) (frames self).

Definition effect_for (self : t) (operation : OperationId.t) : option EffectId.t :=
  index ← index_of_operation self operation; QueuedWrite.effect <$> (frames self !! index).

Definition front_is_empty (self : t) : bool :=
  match head (frames self) with
  | Some frame => FrameMeasure.wire_bytes (QueuedWrite.measure frame) =? 0
  | None => false
  end.

Definition identities (self : t) : list (OperationId.t * EffectId.t) :=
  (λ frame, (QueuedWrite.operation frame, QueuedWrite.effect frame)) <$> frames self.

(** The [try_fold] over the frames' measures. *)
Fixpoint fold_retained (retained : RetainedBytes) (l : list (QueuedWrite.t F))
    : option RetainedBytes :=
  match l with
  | [] => Some retained
  | frame :: l =>
      next ← rb_checked_add retained (FrameMeasure.retained_bytes (QueuedWrite.measure frame));
      fold_retained next l
  end.

Definition accounting_is_valid (self : t) : bool :=
  match fold_retained rb_ZERO (frames self) with
  | Some retained => rb_eqb retained (retained_bytes self)
  | None => false
  end.

Definition admission_failure (self : t) (e : ConnectionEpoch.t) (operation : OperationId.t)
    (effect : EffectId.t) (incoming : RetainedBytes) : option WriteAdmissionFailure.t :=
  if negb (bool_decide (e = epoch self)) then
    Some (WriteAdmissionFailure.StaleEpoch (epoch self) e)
  else if bool_decide (is_Some (index_of_operation self operation)) then
    Some (WriteAdmissionFailure.IdentityInUse WriteIdentityKind.Operation)
  else if bool_decide (is_Some (index_of_effect self effect)) then
    Some (WriteAdmissionFailure.IdentityInUse WriteIdentityKind.Effect)
  else if Z.of_nat (length (frames self)) =? WriteQueueLimits.max_frames (limits self) then
    Some (WriteAdmissionFailure.FrameCapacityReached (WriteQueueLimits.max_frames (limits self)))
  else if negb (RetainedBudget.can_reserve (retained_budget self) incoming) then
    Some (WriteAdmissionFailure.RetainedByteCapacity (retained_bytes self) incoming
            (WriteQueueLimits.max_retained_bytes (limits self)))
  else None.

(** [WriteQueue::admit]. *)
Definition admit_frame (self : t) (e : ConnectionEpoch.t) (operation : OperationId.t)
    (effect : EffectId.t) (measure : FrameMeasure.t) (frame : F)
    : t * result unit (WriteAdmissionError.t F) :=
  let incoming := FrameMeasure.retained_bytes measure in
  match admission_failure self e operation effect incoming with
  | Some failure => (self, Err (WriteAdmissionError.new failure frame))
  | None =>
      match RetainedBudget.try_reserve (retained_budget self) incoming with
      | (budget, false) =>
          let self := set_budget self budget in
          (self, Err (WriteAdmissionError.new
             (WriteAdmissionFailure.RetainedByteCapacity (retained_bytes self) incoming
                (WriteQueueLimits.max_retained_bytes (limits self))) frame))
      | (budget, true) =>
          (mk (epoch self) (limits self)
             (frames self ++ [QueuedWrite.mk operation effect frame measure 0 false]) budget,
           Ok tt)
      end
  end.

Definition front {W : WriteFrame F} (self : t) (max_bytes : NonZeroUsize)
    : result (option WriteSlice.t) FrameContractViolation.t :=
  match head (frames self) with
  | None => Ok None
  | Some front =>
      let bytes := frame_bytes (QueuedWrite.frame front) in
      let observed := Z.of_nat (length bytes) in
      let measured := FrameMeasure.wire_bytes (QueuedWrite.measure front) in
      let written := QueuedWrite.written front in
      if negb (observed =? measured) then
        Err (FrameContractViolation.WireLengthChanged measured observed)
      else match slice_get written measured bytes with
      | None => Err (FrameContractViolation.WriteRangeUnavailable measured written observed)
      | Some remaining =>
          let length := Z.min (Z.of_nat (length remaining)) (nonzero_get max_bytes) in
          match slice_get 0 length remaining with
          | None => Err (FrameContractViolation.WriteRangeUnavailable measured written observed)
          | Some bytes =>
              Ok (Some (WriteSlice.mk (epoch self) (QueuedWrite.operation front)
                          (QueuedWrite.effect front) bytes))
          end
      end
  end.

Definition validate_progress_epoch (self : t) (e : ConnectionEpoch.t)
    : result unit WriteProgressError.t :=
  if bool_decide (e = epoch self) then Ok tt
  else Err (WriteProgressError.StaleEpoch (epoch self) e).

Definition release_retained (self : t) (released : RetainedBytes)
    : t * result unit WriteProgressError.t :=
  let retained := retained_bytes self in
  match RetainedBudget.release (retained_budget self) released with
  | (budget, true) => (set_budget self budget, Ok tt)
  | (budget, false) =>
      (set_budget self budget,
       Err (WriteProgressError.RetainedAccountingUnderflow retained released))
  end.

(** The end of [advance] for a frame whose last byte progressed: release its
    memory, then pop it. *)
Definition complete_front (self : t) (effect : EffectId.t) (released : RetainedBytes)
    (boundary : WriteBoundary.t) (delivery : Delivery.t)
    : t * result (WriteProgress.t F) WriteProgressError.t :=
  match release_retained self released with
  | (self, Err e) => (self, Err e)
  | (self, Ok _) =>
      match frames self with
      | [] => (self, Err WriteProgressError.NoPendingWrite)
      | completed :: rest =>
          (set_frames self rest,
           Ok (WriteProgress.Complete (QueuedWrite.operation completed) effect
                 (QueuedWrite.frame completed) (QueuedWrite.measure completed)
                 boundary delivery))
      end
  end.

Definition advance (self : t) (e : ConnectionEpoch.t) (effect : EffectId.t) (written : Z)
    : t * result (WriteProgress.t F) WriteProgressError.t :=
  match validate_progress_epoch self e with
  | Err err => (self, Err err)
  | Ok _ =>
  let retained_before := retained_bytes self in
  match frames self with
  | [] => (self, Err WriteProgressError.NoPendingWrite)
  | front :: rest =>
  let wire := FrameMeasure.wire_bytes (QueuedWrite.measure front) in
  let measured := FrameMeasure.retained_bytes (QueuedWrite.measure front) in
  if negb (bool_decide (QueuedWrite.effect front = effect)) then
    (self, Err (WriteProgressError.OutOfOrderEffect (QueuedWrite.effect front) effect))
  else match usize_checked_sub wire (QueuedWrite.written front) with
  | None =>
      (self, Err (WriteProgressError.ProgressAccountingOverflow wire (QueuedWrite.written front)))
  | Some remaining =>
  if remaining <? written then
    (set_frames self
       (QueuedWrite.set_progress front (QueuedWrite.written front)
          (QueuedWrite.started front || (0 <? written)) :: rest),
     Err (WriteProgressError.ExceedsRemaining written remaining))
  else if (written =? remaining) && rb_gtb measured (RetainedBudget.used (retained_budget self))
  then (self, Err (WriteProgressError.RetainedAccountingUnderflow retained_before measured))
  else
  let completed_release := if written =? remaining then Some measured else None in
  let crossed := (0 <? written) && negb (QueuedWrite.started front) in
  let boundary := if crossed then WriteBoundary.Crossed else WriteBoundary.Unchanged in
  let started := QueuedWrite.started front || crossed in
  match usize_checked_add (QueuedWrite.written front) written with
  | None =>
      (set_frames self (QueuedWrite.set_progress front (QueuedWrite.written front) started :: rest),
       Err (WriteProgressError.ExceedsRemaining written remaining))
  | Some progressed =>
  let front := QueuedWrite.set_progress front progressed started in
  let self := set_frames self (front :: rest) in
  let delivery := if started then Delivery.PossiblySent else Delivery.NotSent in
  if progressed <? wire then
    (self, Ok (WriteProgress.Pending (QueuedWrite.operation front) boundary))
  else match completed_release with
  | None => (self, Err (WriteProgressError.RetainedAccountingUnderflow retained_before measured))
  | Some released => complete_front self effect released boundary delivery
  end end end end end.

Definition discard (self : t) (e : ConnectionEpoch.t) (effect : EffectId.t)
    : t * result (option (DiscardedWrite.t F)) WriteProgressError.t :=
  match validate_progress_epoch self e with
  | Err err => (self, Err err)
  | Ok _ =>
  match index_of_effect self effect with
  | None => (self, Ok None)
  | Some index =>
  match frames self !! index with
  | None => (self, Ok None)
  | Some frame =>
  let released := FrameMeasure.retained_bytes (QueuedWrite.measure frame) in
  if rb_gtb released (RetainedBudget.used (retained_budget self)) then
    (self, Err (WriteProgressError.RetainedAccountingUnderflow (retained_bytes self) released))
  else match release_retained self released with
  | (self, Err err) => (self, Err err)
  | (self, Ok _) =>
      match remove_at index (frames self) with
      | None => (self, Ok None)
      | Some (discarded, rest) =>
          (set_frames self rest, Ok (Some (DiscardedWrite.into_discarded discarded)))
      end
  end end end end.

Definition discard_all (self : t) : t * DiscardedWrites.t F :=
  let writes := DiscardedWrite.into_discarded <$> frames self in
  let '(budget, retained_bytes) := RetainedBudget.clear (retained_budget self) in
  (mk (epoch self) (limits self) [] budget, DiscardedWrites.mk writes retained_bytes).

(** ** The queue invariant *)

Definition ops (l : list (QueuedWrite.t F)) : list OperationId.t := QueuedWrite.operation <$> l.
Definition effs (l : list (QueuedWrite.t F)) : list EffectId.t := QueuedWrite.effect <$> l.
Definition mem_of (f : QueuedWrite.t F) : Z :=
  rb_get (FrameMeasure.retained_bytes (QueuedWrite.measure f)).

Lemma ops_app l1 l2 : ops (l1 ++ l2) = ops l1 ++ ops l2.
Proof. apply fmap_app. Qed.
Lemma effs_app l1 l2 : effs (l1 ++ l2) = effs l1 ++ effs l2.
Proof. apply fmap_app. Qed.

(** Progress of one frame: a nonempty frame still has bytes to write, and
    write ownership has begun exactly when a byte progressed. *)
Definition progress_ok (f : QueuedWrite.t F) : Prop :=
  let wire := FrameMeasure.wire_bytes (QueuedWrite.measure f) in
  0 ≤ QueuedWrite.written f ≤ wire ∧ wire ≤ USIZE_MAX ∧
  (0 < wire → QueuedWrite.written f < wire) ∧
  QueuedWrite.started f = (0 <? QueuedWrite.written f).

(** The frame has not begun. *)
Definition unstarted (f : QueuedWrite.t F) : Prop := QueuedWrite.started f = false.

Record wf (self : t) : Prop := mk_wf {
  wf_limit : RetainedBudget.limit_get (retained_budget self) =
    rb_get (WriteQueueLimits.max_retained_bytes (limits self));
  wf_used : rb_get (retained_bytes self) = zsum mem_of (frames self);
  wf_bound : zsum mem_of (frames self) ≤
    rb_get (WriteQueueLimits.max_retained_bytes (limits self));
  wf_count : Z.of_nat (length (frames self)) ≤ WriteQueueLimits.max_frames (limits self);
  wf_ops : NoDup (ops (frames self));
  wf_effs : NoDup (effs (frames self));
  wf_progress : Forall progress_ok (frames self);
  wf_fifo : Forall unstarted (tail (frames self));
}.

Section laws.
Context {Laws : CalandriaLaws Cal} {BLaws : ByteBudgetLaws BB}.

Lemma mem_of_nonneg f : 0 ≤ mem_of f.
Proof. apply rb_get_nonneg. Qed.

Lemma mem_of_sum_nonneg l : 0 ≤ zsum mem_of l.
Proof. apply zsum_nonneg, mem_of_nonneg. Qed.

Lemma new_wf (e : ConnectionEpoch.t) (l : WriteQueueLimits.t) :
  0 ≤ WriteQueueLimits.max_frames l → wf (new e l).
Proof.
  intros Hl. destruct (RetainedBudget.budget_new_spec (WriteQueueLimits.max_retained_bytes l)) as [Hu Hm].
  split; simpl; try done; try apply rb_get_nonneg; constructor.
Qed.

(** ** Identities and positions *)

Lemma index_of_effect_app (self : t) (l1 l2 : list (QueuedWrite.t F)) (f : QueuedWrite.t F) :
  frames self = l1 ++ f :: l2 → QueuedWrite.effect f ∉ effs l1 →
  index_of_effect self (QueuedWrite.effect f) = Some (length l1).
Proof.
  intros Hf Hn. unfold index_of_effect. rewrite Hf.
  apply position_app; [|by apply bool_decide_eq_true].
  apply Forall_forall. intros g Hg. apply bool_decide_eq_false. intros Heq.
  apply Hn. rewrite <- Heq. by apply list_elem_of_fmap_2.
Qed.

Lemma index_of_effect_None (self : t) (e : EffectId.t) :
  index_of_effect self e = None ↔ e ∉ effs (frames self).
Proof.
  unfold index_of_effect. rewrite position_None, Forall_forall. unfold effs.
  rewrite list_elem_of_fmap. setoid_rewrite bool_decide_eq_false. naive_solver.
Qed.

Lemma index_of_operation_None (self : t) (o : OperationId.t) :
  index_of_operation self o = None ↔ o ∉ ops (frames self).
Proof.
  unfold index_of_operation. rewrite position_None, Forall_forall. unfold ops.
  rewrite list_elem_of_fmap. setoid_rewrite bool_decide_eq_false. naive_solver.
Qed.

(** ** The accounting audit *)

Lemma fold_retained_spec (l : list (QueuedWrite.t F)) (r : RetainedBytes) :
  fold_retained r l =
    if rb_get r + zsum mem_of l <=? U64_MAX then Some (rb_new (rb_get r + zsum mem_of l)) else None.
Proof.
  revert r. induction l as [|f l IH]; intros r; simpl.
  - rewrite Z.add_0_r. pose proof (rb_get_range r) as [? Hr]. rewrite (proj2 (Z.leb_le _ _) Hr).
    f_equal. apply rb_get_inj. rewrite rb_get_new; [done|by split].
  - pose proof (mem_of_nonneg f) as Hf. pose proof (mem_of_sum_nonneg l) as Hl.
    pose proof (rb_get_nonneg r) as Hr.
    destruct (rb_checked_add r _) as [n|] eqn:E; simpl.
    + apply rb_checked_add_Some in E. by rewrite IH, E, Z.add_assoc.
    + rewrite rb_checked_add_spec in E. fold (mem_of f) in E.
      destruct (Z.leb_spec (rb_get r + mem_of f) U64_MAX); [done|].
      destruct (Z.leb_spec (rb_get r + (mem_of f + zsum mem_of l)) U64_MAX); [lia|done].
Qed.

(** The audit accepts exactly the queues whose budget is the frames' total. *)
Lemma accounting_is_valid_spec (self : t) :
  accounting_is_valid self = (zsum mem_of (frames self) =? rb_get (retained_bytes self)).
Proof.
  unfold accounting_is_valid. rewrite fold_retained_spec, rb_get_ZERO, Z.add_0_l.
  pose proof (mem_of_sum_nonneg (frames self)). pose proof (rb_get_range (retained_bytes self)) as Hr.
  unfold in_u64 in Hr. destruct (Z.leb_spec (zsum mem_of (frames self)) U64_MAX).
  - rewrite rb_eqb_spec, rb_get_new; [done|by split].
  - symmetry. apply Z.eqb_neq. lia.
Qed.

(** ** Admission *)

(** Why a frame is refused, in terms of the queue's contents. *)
Lemma admission_failure_None (self : t) e op eff incoming :
  wf self →
  admission_failure self e op eff incoming = None ↔
  e = epoch self ∧ op ∉ ops (frames self) ∧ eff ∉ effs (frames self) ∧
  Z.of_nat (length (frames self)) < WriteQueueLimits.max_frames (limits self) ∧
  zsum mem_of (frames self) + rb_get incoming ≤
    rb_get (WriteQueueLimits.max_retained_bytes (limits self)).
Proof.
  intros []. rewrite <- index_of_operation_None, <- index_of_effect_None.
  unfold admission_failure.
  destruct (bool_decide_reflect (e = epoch self)); simpl; [|naive_solver].
  destruct (index_of_operation self op); simpl; [naive_solver|].
  destruct (index_of_effect self eff); simpl; [naive_solver|].
  destruct (Z.eqb_spec (Z.of_nat (length (frames self)))
    (WriteQueueLimits.max_frames (limits self))); [split; [done|intros (_ & _ & _ & ? & _); lia]|].
  rewrite RetainedBudget.can_reserve_spec. fold (retained_bytes self).
  rewrite wf_used0, wf_limit0.
  destruct (Z.leb_spec (zsum mem_of (frames self) + rb_get incoming)
    (rb_get (WriteQueueLimits.max_retained_bytes (limits self)))); simpl.
  - split; [|done]. intros _. split_and!; auto; lia.
  - split; [done|]. intros (_ & _ & _ & _ & ?). lia.
Qed.

(** [admit_frame] either appends the frame, unstarted, at the end of the wire order,
    or returns the exact frame and leaves the queue as it was. *)
Lemma admit_spec (self : t) e op eff measure frame :
  wf self →
  match admission_failure self e op eff (FrameMeasure.retained_bytes measure) with
  | Some failure =>
      admit_frame self e op eff measure frame = (self, Err (WriteAdmissionError.new failure frame))
  | None => ∃ self', admit_frame self e op eff measure frame = (self', Ok tt) ∧
      frames self' = frames self ++ [QueuedWrite.mk op eff frame measure 0 false] ∧
      epoch self' = epoch self ∧ limits self' = limits self ∧
      (0 ≤ FrameMeasure.wire_bytes measure ≤ USIZE_MAX → wf self')
  end.
Proof.
  intros Hwf. pose proof (admission_failure_None self e op eff (FrameMeasure.retained_bytes measure) Hwf)
    as Hn. unfold admit_frame. destruct (admission_failure _ _ _ _ _); [done|].
  destruct (proj1 Hn eq_refl) as (He & Hop & Heff & Hlen & Hmem). clear Hn. destruct Hwf.
  destruct (RetainedBudget.try_reserve_spec (retained_budget self)
    (FrameMeasure.retained_bytes measure)) as (b & -> & Hu & Hl).
  { fold (retained_bytes self). rewrite wf_used0, wf_limit0. lia. }
  eexists. split; [reflexivity|]. split; [done|]. split; [done|]. split; [done|].
  intros Hwire. fold (retained_bytes self) in Hu.
  split; unfold retained_bytes, ops, effs; simpl; rewrite ?fmap_app; try done.
  - by rewrite Hl.
  - rewrite Hu, zsum_app. simpl. change (mem_of _) with (rb_get (FrameMeasure.retained_bytes measure)). lia.
  - rewrite zsum_app. simpl. change (mem_of _) with (rb_get (FrameMeasure.retained_bytes measure)). lia.
  - rewrite length_app. simpl. lia.
  - apply NoDup_app. split; [done|]. split; [set_solver|]. apply NoDup_singleton.
  - apply NoDup_app. split; [done|]. split; [set_solver|]. apply NoDup_singleton.
  - apply Forall_app. split; [done|]. apply Forall_singleton.
    split; simpl; [lia|]. split; [lia|]. by split.
  - destruct (frames self); simpl in *; [done|]. apply Forall_app. split; [done|].
    by apply Forall_singleton.
Qed.

(** ** Progress of the front *)

Lemma front_ok (self : t) f rest :
  wf self → frames self = f :: rest →
  progress_ok f ∧ Forall progress_ok rest ∧ Forall unstarted rest ∧
  QueuedWrite.operation f ∉ ops rest ∧ QueuedWrite.effect f ∉ effs rest ∧
  rb_get (retained_bytes self) = mem_of f + zsum mem_of rest.
Proof.
  intros [] Hf. rewrite Hf in *. simpl in *.
  apply Forall_cons in wf_progress0. apply NoDup_cons in wf_ops0, wf_effs0. naive_solver.
Qed.

(** Replacing the front by its progressed self keeps the invariant. *)
Lemma set_front_wf (self : t) f f' rest :
  wf self → frames self = f :: rest → progress_ok f' →
  QueuedWrite.operation f' = QueuedWrite.operation f →
  QueuedWrite.effect f' = QueuedWrite.effect f →
  QueuedWrite.measure f' = QueuedWrite.measure f →
  wf (set_frames self (f' :: rest)).
Proof.
  intros Hwf Hf Hp Ho He Hm. destruct (front_ok _ _ _ Hwf Hf) as (_ & Hps & _ & Hno & Hne & Hu).
  assert (mem_of f' = mem_of f) as Hmem by (unfold mem_of; by rewrite Hm).
  destruct Hwf. rewrite Hf in *. simpl in *.
  split; simpl; rewrite ?Hmem; try done.
  - by rewrite Ho.
  - by rewrite He.
  - by constructor.
Qed.

(** Popping the front [f], progressed to [f'], and releasing its memory keeps
    the invariant. *)
Lemma complete_front_spec (self : t) f written started rest eff boundary delivery :
  wf self → frames self = f :: rest →
  ∃ self', complete_front
      (set_frames self (QueuedWrite.set_progress f written started :: rest)) eff
      (FrameMeasure.retained_bytes (QueuedWrite.measure f)) boundary delivery =
    (self', Ok (WriteProgress.Complete (QueuedWrite.operation f) eff (QueuedWrite.frame f)
       (QueuedWrite.measure f) boundary delivery)) ∧
    frames self' = rest ∧ epoch self' = epoch self ∧ limits self' = limits self ∧ wf self'.
Proof.
  intros Hwf Hf. destruct (front_ok _ _ _ Hwf Hf) as (_ & Hps & Hun & _ & _ & Hu).
  pose proof (mem_of_sum_nonneg rest) as Hr. pose proof (mem_of_nonneg f) as Hm.
  destruct (RetainedBudget.release_spec (retained_budget self)
    (FrameMeasure.retained_bytes (QueuedWrite.measure f))) as (b & Hb & Hbu & Hbl).
  { fold (retained_bytes self). rewrite Hu. fold (mem_of f). lia. }
  unfold complete_front, release_retained. simpl. rewrite Hb. simpl.
  eexists. split; [reflexivity|]. split; [done|]. split; [done|]. split; [done|].
  fold (retained_bytes self) (mem_of f) in Hbu. destruct Hwf. rewrite Hf in *. simpl in *.
  apply NoDup_cons in wf_ops0 as [_ Ho]. apply NoDup_cons in wf_effs0 as [_ He].
  split; unfold retained_bytes; simpl; try done; try lia.
  destruct rest; simpl; [done|]. by apply Forall_cons in Hun as [_ ?].
Qed.

Definition crossing (f : QueuedWrite.t F) (written : Z) : WriteBoundary.t :=
  if (0 <? written) && (QueuedWrite.written f =? 0) then WriteBoundary.Crossed
  else WriteBoundary.Unchanged.

(** Reports that name another epoch or another effect, or arrive with nothing
    queued, change nothing. *)
Lemma advance_reject (self : t) e eff written :
  (e ≠ epoch self →
   advance self e eff written = (self, Err (WriteProgressError.StaleEpoch (epoch self) e))) ∧
  (e = epoch self → frames self = [] →
   advance self e eff written = (self, Err WriteProgressError.NoPendingWrite)) ∧
  (∀ f rest, e = epoch self → frames self = f :: rest → eff ≠ QueuedWrite.effect f →
   advance self e eff written =
     (self, Err (WriteProgressError.OutOfOrderEffect (QueuedWrite.effect f) eff))).
Proof.
  unfold advance, validate_progress_epoch. split_and!.
  - intros He. by rewrite bool_decide_eq_false_2.
  - intros -> ->. by rewrite bool_decide_eq_true_2.
  - intros f rest -> -> Hne. rewrite bool_decide_eq_true_2 by done.
    by rewrite bool_decide_eq_false_2 by congruence.
Qed.

(** Reports beyond the frame's last byte are rejected; write ownership is
    recorded as begun. *)
Lemma advance_exceeds (self : t) f rest written :
  wf self → frames self = f :: rest →
  FrameMeasure.wire_bytes (QueuedWrite.measure f) - QueuedWrite.written f < written →
  advance self (epoch self) (QueuedWrite.effect f) written =
    (set_frames self (QueuedWrite.set_progress f (QueuedWrite.written f)
       (QueuedWrite.started f || (0 <? written)) :: rest),
     Err (WriteProgressError.ExceedsRemaining written
       (FrameMeasure.wire_bytes (QueuedWrite.measure f) - QueuedWrite.written f))).
Proof.
  intros Hwf Hf Hex. destruct (front_ok _ _ _ Hwf Hf) as ((Hw & Hmax & _) & _).
  unfold advance, validate_progress_epoch. rewrite !bool_decide_eq_true_2 by done.
  rewrite Hf, bool_decide_eq_true_2 by done. simpl.
  rewrite usize_checked_sub_le by lia. by rewrite (proj2 (Z.ltb_lt _ _)) by lia.
Qed.

Lemma started_after (f : QueuedWrite.t F) (written : Z) :
  progress_ok f → 0 ≤ written →
  QueuedWrite.started f || ((0 <? written) && negb (QueuedWrite.started f)) =
    (0 <? QueuedWrite.written f + written).
Proof. intros (Hw & _ & _ & ->) Hn. lia. Qed.

Lemma crossing_spec (f : QueuedWrite.t F) (written : Z) :
  progress_ok f →
  (if (0 <? written) && negb (QueuedWrite.started f) then WriteBoundary.Crossed
   else WriteBoundary.Unchanged) = crossing f written.
Proof.
  intros (Hw & _ & _ & ->). unfold crossing.
  by replace (negb (0 <? QueuedWrite.written f)) with (QueuedWrite.written f =? 0) by lia.
Qed.

(** A report that leaves bytes to write advances the front by exactly the
    reported count. *)
Lemma advance_pending (self : t) f rest written :
  wf self → frames self = f :: rest → 0 ≤ written →
  written < FrameMeasure.wire_bytes (QueuedWrite.measure f) - QueuedWrite.written f →
  let f' := QueuedWrite.set_progress f (QueuedWrite.written f + written)
              (0 <? QueuedWrite.written f + written) in
  advance self (epoch self) (QueuedWrite.effect f) written =
    (set_frames self (f' :: rest),
     Ok (WriteProgress.Pending (QueuedWrite.operation f) (crossing f written))) ∧
  wf (set_frames self (f' :: rest)).
Proof.
  intros Hwf Hf Hn Hlt f'. destruct (front_ok _ _ _ Hwf Hf) as (Hp & _).
  pose proof Hp as (Hw & Hmax & Hpend & Hst). split.
  - unfold advance, validate_progress_epoch. rewrite !bool_decide_eq_true_2 by done.
    rewrite Hf, bool_decide_eq_true_2 by done. simpl. rewrite usize_checked_sub_le by lia.
    rewrite (proj2 (Z.ltb_ge _ _)) by lia. rewrite (proj2 (Z.eqb_neq _ _)) by lia. simpl.
    rewrite usize_checked_add_le by lia. simpl. rewrite started_after by done.
    rewrite (proj2 (Z.ltb_lt (QueuedWrite.written f + written) _)) by lia.
    by rewrite crossing_spec.
  - apply (set_front_wf _ f); try done. split; simpl; [lia|]. split; [lia|]. split; [lia|done].
Qed.

(** A report of exactly the remaining bytes completes the front. *)
Lemma advance_complete (self : t) f rest :
  wf self → frames self = f :: rest →
  let wire := FrameMeasure.wire_bytes (QueuedWrite.measure f) in
  let written := wire - QueuedWrite.written f in
  ∃ self',
    advance self (epoch self) (QueuedWrite.effect f) written =
      (self', Ok (WriteProgress.Complete (QueuedWrite.operation f) (QueuedWrite.effect f)
         (QueuedWrite.frame f) (QueuedWrite.measure f) (crossing f written)
         (if 0 <? wire then Delivery.PossiblySent else Delivery.NotSent))) ∧
    frames self' = rest ∧ epoch self' = epoch self ∧ limits self' = limits self ∧ wf self'.
Proof.
  intros Hwf Hf wire written. destruct (front_ok _ _ _ Hwf Hf) as (Hp & _ & _ & _ & _ & Hu).
  pose proof Hp as (Hw & Hmax & Hpend & Hst). fold wire in Hw, Hmax, Hpend.
  pose proof (mem_of_sum_nonneg rest) as Hr.
  unfold advance, validate_progress_epoch. rewrite !bool_decide_eq_true_2 by done.
  rewrite Hf, bool_decide_eq_true_2 by done. simpl. fold wire. rewrite usize_checked_sub_le by lia.
  unfold written. rewrite (proj2 (Z.ltb_ge _ _)) by lia. rewrite Z.eqb_refl. simpl.
  assert (rb_gtb (FrameMeasure.retained_bytes (QueuedWrite.measure f))
    (RetainedBudget.used (retained_budget self)) = false) as ->.
  { rewrite rb_gtb_spec. fold (retained_bytes self) (mem_of f). lia. }
  rewrite usize_checked_add_le by lia. simpl. rewrite started_after by (done || lia).
  replace (QueuedWrite.written f + (wire - QueuedWrite.written f)) with wire by lia.
  rewrite Z.ltb_irrefl, crossing_spec by done.
  by apply complete_front_spec.
Qed.

(** ** Discarding *)

(** Discarding a queued effect removes exactly that frame and releases its
    memory. *)
Lemma discard_spec (self : t) l1 f l2 :
  wf self → frames self = l1 ++ f :: l2 →
  ∃ self', discard self (epoch self) (QueuedWrite.effect f) =
      (self', Ok (Some (DiscardedWrite.into_discarded f))) ∧
    frames self' = l1 ++ l2 ∧ epoch self' = epoch self ∧ limits self' = limits self ∧ wf self'.
Proof.
  intros Hwf Hf. pose proof (mem_of_sum_nonneg l1) as Hr1.
  pose proof (mem_of_sum_nonneg l2) as Hr2. pose proof (mem_of_nonneg f) as Hm.
  destruct Hwf. rewrite Hf in *. rewrite zsum_app in wf_used0, wf_bound0. simpl in *.
  rewrite ops_app in wf_ops0. rewrite effs_app in wf_effs0. simpl in *.
  assert (frames self !! length l1 = Some f) as Hl by (rewrite Hf; by apply list_lookup_middle).
  unfold discard, validate_progress_epoch. rewrite bool_decide_eq_true_2 by done.
  rewrite (index_of_effect_app self l1 l2 f Hf).
  2: { intros Hin. apply NoDup_app in wf_effs0 as (_ & Hd & _).
       apply (Hd _ Hin). constructor. }
  rewrite Hl. rewrite rb_gtb_spec. fold (retained_bytes self) (mem_of f).
  rewrite (proj2 (Z.ltb_ge _ _)) by lia.
  destruct (RetainedBudget.release_spec (retained_budget self)
    (FrameMeasure.retained_bytes (QueuedWrite.measure f))) as (b & Hb & Hbu & Hbl).
  { fold (retained_bytes self) (mem_of f). lia. }
  unfold release_retained. rewrite Hb. simpl. rewrite (remove_at_lookup _ _ _ Hl).
  rewrite Hf, take_app_length, drop_app_ge by lia.
  replace (S (length l1) - length l1)%nat with 1%nat by lia. simpl. rewrite drop_0.
  eexists. split; [reflexivity|]. split; [done|]. split; [done|]. split; [done|].
  fold (retained_bytes self) (mem_of f) in Hbu. rewrite length_app in wf_count0.
  rewrite Forall_app, Forall_cons in wf_progress0.
  split; unfold retained_bytes; simpl;
    rewrite ?ops_app, ?effs_app, ?zsum_app, ?length_app; simpl in *; try done; try lia.
  - eapply sublist_NoDup; [exact wf_ops0|]. apply sublist_app; [done|by constructor].
  - eapply sublist_NoDup; [exact wf_effs0|]. apply sublist_app; [done|by constructor].
  - apply Forall_app. naive_solver.
  - destruct l1 as [|g l1]; simpl in *; [by apply Forall_tail|].
    rewrite Forall_app, Forall_cons in wf_fifo0. rewrite Forall_app. naive_solver.
Qed.

(** Discarding an effect that is not queued, or for another epoch, changes
    nothing. *)
Lemma discard_absent (self : t) e eff :
  (e = epoch self → eff ∉ effs (frames self) → discard self e eff = (self, Ok None)) ∧
  (e ≠ epoch self →
   discard self e eff = (self, Err (WriteProgressError.StaleEpoch (epoch self) e))).
Proof.
  unfold discard, validate_progress_epoch. split.
  - intros -> Hn%index_of_effect_None. rewrite bool_decide_eq_true_2 by done. by rewrite Hn.
  - intros He. by rewrite bool_decide_eq_false_2.
Qed.

(** Discarding everything empties the queue in wire order and releases all of
    its memory. *)
Lemma discard_all_spec (self : t) :
  wf self →
  ∃ self', discard_all self =
      (self', DiscardedWrites.mk (DiscardedWrite.into_discarded <$> frames self)
                (retained_bytes self)) ∧
    frames self' = [] ∧ wf self' ∧ rb_get (retained_bytes self) = zsum mem_of (frames self).
Proof.
  intros []. destruct (RetainedBudget.clear_spec (retained_budget self)) as (Hc & Hu & Hl).
  unfold discard_all. destruct (RetainedBudget.clear (retained_budget self)) as [b r].
  simpl in *. subst r. eexists. split; [reflexivity|]. split; [done|]. split; [|done].
  pose proof (mem_of_sum_nonneg (frames self)).
  split; unfold retained_bytes; simpl; try done; try lia; constructor.
Qed.

(** ** The bytes on the wire *)

(** What the front offers to the transport: the next bytes of the front frame,
    and at least one of them when there are any. *)
Lemma front_spec {W : WriteFrame F} (self : t) f rest (max : NonZeroUsize) :
  wf self → frames self = f :: rest → 1 ≤ nonzero_get max →
  Z.of_nat (length (frame_bytes (QueuedWrite.frame f))) =
    FrameMeasure.wire_bytes (QueuedWrite.measure f) →
  let remaining :=
    list.drop (Z.to_nat (QueuedWrite.written f)) (frame_bytes (QueuedWrite.frame f)) in
  front self max = Ok (Some (WriteSlice.mk (epoch self) (QueuedWrite.operation f)
    (QueuedWrite.effect f) (take (Z.to_nat (nonzero_get max)) remaining))).
Proof.
  intros Hwf Hf Hmax Hlen remaining. destruct (front_ok _ _ _ Hwf Hf) as ((Hw & _) & _).
  unfold front. rewrite Hf. simpl. rewrite Hlen, Z.eqb_refl. simpl. unfold slice_get at 1.
  rewrite Hlen, !(proj2 (Z.leb_le _ _)) by lia. simpl.
  rewrite take_ge by (rewrite length_drop; lia). fold remaining. unfold slice_get.
  rewrite !(proj2 (Z.leb_le _ _)) by lia. simpl. rewrite Z.sub_0_r. do 3 f_equal.
  change (Z.to_nat 0) with 0%nat. rewrite drop_0.
  destruct (Z.le_ge_cases (Z.of_nat (length remaining)) (nonzero_get max)).
  - rewrite Z.min_l, !take_ge by lia. done.
  - by rewrite Z.min_r by lia.
Qed.

(** A frame whose view no longer has the committed length is refused. *)
Lemma front_violation {W : WriteFrame F} (self : t) f rest (max : NonZeroUsize) :
  frames self = f :: rest →
  Z.of_nat (length (frame_bytes (QueuedWrite.frame f))) ≠
    FrameMeasure.wire_bytes (QueuedWrite.measure f) →
  front self max = Err (FrameContractViolation.WireLengthChanged
    (FrameMeasure.wire_bytes (QueuedWrite.measure f))
    (Z.of_nat (length (frame_bytes (QueuedWrite.frame f))))).
Proof. intros Hf Hne. unfold front. rewrite Hf. simpl. by rewrite (proj2 (Z.eqb_neq _ _)). Qed.

(** The bytes the queue still owes the transport, in wire order. *)
Definition unsent {W : WriteFrame F} (l : list (QueuedWrite.t F)) : list Byte.byte :=
  concat ((λ f, list.drop (Z.to_nat (QueuedWrite.written f)) (frame_bytes (QueuedWrite.frame f)))
            <$> l).

(** Every frame still shows the byte view measured at commit. *)
Definition stable {W : WriteFrame F} (l : list (QueuedWrite.t F)) : Prop :=
  Forall (λ f, Z.of_nat (length (frame_bytes (QueuedWrite.frame f))) =
    FrameMeasure.wire_bytes (QueuedWrite.measure f)) l.

(** One round of a transport: borrow a slice of the front, write at most
    [capacity] of its bytes, report exactly what was written. *)
Definition round {W : WriteFrame F} (self : t) (max : NonZeroUsize) (capacity : Z)
    : t * list Byte.byte :=
  match front self max with
  | Ok (Some slice) =>
      let written := Z.min capacity (Z.of_nat (length (WriteSlice.bytes slice))) in
      ((advance self (epoch self) (WriteSlice.effect slice) written).1,
       take (Z.to_nat written) (WriteSlice.bytes slice))
  | _ => (self, [])
  end.

Lemma round_spec {W : WriteFrame F} (self : t) f rest (max : NonZeroUsize) (capacity : Z) :
  wf self → stable (frames self) → frames self = f :: rest →
  1 ≤ nonzero_get max → 0 ≤ capacity →
  let '(self', sent) := round self max capacity in
  wf self' ∧ stable (frames self') ∧ unsent (frames self) = sent ++ unsent (frames self') ∧
  (1 ≤ capacity →
     (length (frames self') < length (frames self))%nat ∨
     (0 < length sent)%nat ∧ length (frames self') = length (frames self)).
Proof.
  intros Hwf Hst Hf Hmax Hcap. destruct (front_ok _ _ _ Hwf Hf) as ((Hw & Hu & Hpend & Hs) & _).
  pose proof Hst as Hst'. rewrite Hf in Hst'. apply Forall_cons in Hst' as [Hlen Hst'].
  unfold round. rewrite (front_spec self f rest max) by done. simpl.
  set (bytes := frame_bytes (QueuedWrite.frame f)) in *.
  set (wire := FrameMeasure.wire_bytes (QueuedWrite.measure f)) in *.
  set (d := list.drop (Z.to_nat (QueuedWrite.written f)) bytes).
  assert (Z.of_nat (length d) = wire - QueuedWrite.written f) as Hd
    by (unfold d; rewrite length_drop; lia).
  set (n := Z.min capacity (Z.of_nat (length (take (Z.to_nat (nonzero_get max)) d)))).
  assert (0 ≤ n ≤ Z.of_nat (length d) ∧ (Z.to_nat n ≤ Z.to_nat (nonzero_get max))%nat) as [Hn Hnm]
    by (unfold n; rewrite length_take; lia).
  assert (1 ≤ capacity → 0 < wire - QueuedWrite.written f → 0 < n) as Hpos
    by (unfold n; rewrite length_take; lia).
  assert (take (Z.to_nat n) (take (Z.to_nat (nonzero_get max)) d) = take (Z.to_nat n) d) as ->.
  { rewrite take_take. f_equal. lia. }
  assert (unsent (frames self) = take (Z.to_nat n) d ++ list.drop (Z.to_nat n) d ++ unsent rest)
    as Hun by (rewrite Hf, app_assoc, take_drop; done).
  destruct (decide (n = wire - QueuedWrite.written f)) as [Heq|Hne].
  - destruct (advance_complete self f rest Hwf Hf) as (self' & Hadv & Hfr & _ & _ & Hwf').
    fold wire in Hadv. rewrite Heq, Hadv. simpl. rewrite Hfr, Hun, Hf, Heq. split; [done|].
    split; [done|]. rewrite (drop_ge d) by lia. split; [done|]. intros _. left. simpl. lia.
  - destruct (advance_pending self f rest n Hwf Hf) as [Hadv Hwf']; [lia|fold wire; lia|].
    rewrite Hadv. simpl. split; [done|]. split; [by constructor|]. split.
    + rewrite Hun. f_equal. unfold unsent at 2. simpl. f_equal. unfold d, bytes.
      rewrite drop_drop. f_equal. lia.
    + intros Hc. right. rewrite Hf, length_take. simpl. specialize (Hpos Hc). lia.
Qed.

(** A transport's rounds, with the slice bound and the write capacity of each. *)
Fixpoint drive {W : WriteFrame F} (schedule : list (NonZeroUsize * Z)) (self : t)
    : t * list Byte.byte :=
  match schedule with
  | [] => (self, [])
  | (max, capacity) :: schedule =>
      let '(self, sent) := round self max capacity in
      let '(self, more) := drive schedule self in
      (self, sent ++ more)
  end.

Lemma drive_spec {W : WriteFrame F} (schedule : list (NonZeroUsize * Z)) (self : t) :
  wf self → stable (frames self) →
  Forall (λ r, 1 ≤ nonzero_get r.1 ∧ 0 ≤ r.2) schedule →
  let '(self', sent) := drive schedule self in
  wf self' ∧ stable (frames self') ∧ unsent (frames self) = sent ++ unsent (frames self') ∧
  (Forall (λ r, 1 ≤ r.2) schedule →
   (length (unsent (frames self)) + length (frames self) ≤ length schedule)%nat →
   frames self' = []).
Proof.
  revert self. induction schedule as [|[max capacity] schedule IH]; intros self Hwf Hst Hs; simpl.
  { split; [done|]. split; [done|]. split; [done|]. intros _ Hlen.
    destruct (frames self); simpl in Hlen; [done|lia]. }
  apply Forall_cons in Hs as [[Hmax Hcap] Hs]. destruct (frames self) as [|f rest] eqn:Hf.
  - assert (round self max capacity = (self, [])) as -> by (unfold round, front; by rewrite Hf).
    specialize (IH self Hwf). rewrite Hf in IH. specialize (IH Hst Hs).
    destruct (drive schedule self) as [self' more]. destruct IH as (? & ? & ? & Hdone).
    split; [done|]. split; [done|]. split; [done|].
    intros [_ Hc]%Forall_cons _. apply Hdone; [done|simpl; lia].
  - pose proof (round_spec self f rest max capacity Hwf) as Hr. rewrite Hf in Hr.
    specialize (Hr Hst eq_refl Hmax Hcap). destruct (round self max capacity) as [self1 sent].
    destruct Hr as (Hwf1 & Hst1 & Hun & Hdec). specialize (IH self1 Hwf1 Hst1 Hs).
    destruct (drive schedule self1) as [self' more]. destruct IH as (? & ? & Hun' & Hdone).
    split; [done|]. split; [done|]. split; [by rewrite Hun, Hun', app_assoc|].
    intros [Hc Hcs]%Forall_cons Hlen. apply Hdone; [done|].
    apply (f_equal length) in Hun. rewrite length_app in Hun. specialize (Hdec Hc).
    simpl in *. lia.
Qed.

End laws.
End write_queue.
#[global] Arguments t {Cal BB} F.
End WriteQueue.
