(* ===== verification/Framing.v ===== *)
(** * Bounded frame decoding

    [framing/] of [bornera-core]: the driver that keeps one protocol-owned
    incremental decoder within its retained-byte bound. The decoder is the
    adapter's: it enters through the class [FrameDecoder], the trait of
    [framing/port.rs], and nothing is assumed of it. *)
From Stdlib Require Import ZArith Lia.
From stdpp Require Import prelude.
From S2P Require Import Prelude External.

(** Protocol-owned incremental decoding of complete inbound frames. A method
    on [&mut self] gives the decoder it leaves with its result. *)
Class FrameDecoder {Cal : Calandria} (D : Type) : Type := {
  Frame : Type;
  Error : Type;
  decoder_feed : D → list Byte.byte → D * result unit Error;
  decoder_next_frame : D → D * result (option Frame) Error;
  decoder_retained_bytes : D → RetainedBytes;
}.

Module FrameDecodeError.
Section frame_decode_error.
Context {Cal : Calandria}.

(** Why a bounded decoder driver could not admit or decode bytes. *)
Inductive t (E : Type) : Type :=
  | DecoderFailed
  | RetainedByteCapacity (retained : RetainedBytes) (incoming : Z) (limit : RetainedBytes)
  | InputSizeOverflow
  | Decoder (error : E)
  | RetainedContractViolation (retained limit : RetainedBytes).
#[global] Arguments DecoderFailed {E}.
#[global] Arguments RetainedByteCapacity {E}.
#[global] Arguments InputSizeOverflow {E}.
#[global] Arguments Decoder {E}.
#[global] Arguments RetainedContractViolation {E}.

End frame_decode_error.
End FrameDecodeError.

Module FrameDriver.
Section frame_driver.
Context {Cal : Calandria} {D : Type} {Dec : FrameDecoder D}.

(** Bounded, terminal-on-malformation driver for one incremental decoder. *)
Record t : Type := mk {
  decoder : D;
  max_retained_bytes : RetainedBytes;
  failed : bool;
}.

Definition new (decoder : D) (max_retained_bytes : RetainedBytes)
    : result t (FrameDecodeError.t Error) :=
  let retained := decoder_retained_bytes decoder in
  if rb_gtb retained max_retained_bytes
  then Err (FrameDecodeError.RetainedContractViolation retained max_retained_bytes)
  else Ok (mk decoder max_retained_bytes false).

Definition set_decoder (self : t) (d : D) : t := mk d (max_retained_bytes self) (failed self).

(** [self.failed = true]. *)
Definition fail (self : t) : t := mk (decoder self) (max_retained_bytes self) true.

Definition validate_retained (self : t) : t * result unit (FrameDecodeError.t Error) :=
  let retained := decoder_retained_bytes (decoder self) in
  if rb_gtb retained (max_retained_bytes self)
  then (fail self,
        Err (FrameDecodeError.RetainedContractViolation retained (max_retained_bytes self)))
  else (self, Ok tt).

Definition feed (self : t) (bytes : list Byte.byte)
    : t * result unit (FrameDecodeError.t Error) :=
  if failed self then (self, Err FrameDecodeError.DecoderFailed)
  else match rb_try_from_usize (Z.of_nat (length bytes)) with
  | None => (self, Err FrameDecodeError.InputSizeOverflow)
  | Some incoming =>
  let retained := decoder_retained_bytes (decoder self) in
  match rb_checked_add retained incoming with
  | None => (self, Err (FrameDecodeError.RetainedByteCapacity retained
                          (Z.of_nat (length bytes)) (max_retained_bytes self)))
  | Some accepted =>
  if rb_gtb accepted (max_retained_bytes self)
  then (self, Err (FrameDecodeError.RetainedByteCapacity retained
                     (Z.of_nat (length bytes)) (max_retained_bytes self)))
  else match decoder_feed (decoder self) bytes with
  | (d, Err error) => (fail (set_decoder self d), Err (FrameDecodeError.Decoder error))
  | (d, Ok _) => validate_retained (set_decoder self d)
  end end end.

Definition next_frame (self : t) : t * result (option Frame) (FrameDecodeError.t Error) :=
  if failed self then (self, Err FrameDecodeError.DecoderFailed)
  else match decoder_next_frame (decoder self) with
  | (d, Err error) => (fail (set_decoder self d), Err (FrameDecodeError.Decoder error))
  | (d, Ok frame) =>
      match validate_retained (set_decoder self d) with
      | (self, Err e) => (self, Err e)
      | (self, Ok _) => (self, Ok frame)
      end
  end.

Definition retained_bytes (self : t) : RetainedBytes := decoder_retained_bytes (decoder self).

Definition is_failed (self : t) : bool := failed self.

Definition into_decoder (self : t) : D := decoder self.

(** ** The bound *)

(** A driver that has not failed holds its decoder within the bound. *)
Definition bounded (self : t) : Prop :=
  failed self = false → rb_get (retained_bytes self) ≤ rb_get (max_retained_bytes self).

(** One call on the driver: bytes to feed, or a request for a frame. *)
Inductive call : Type :=
  | Feed (bytes : list Byte.byte)
  | Next.

Definition run (self : t) (c : call) : t :=
  match c with Feed bytes => (feed self bytes).1 | Next => (next_frame self).1 end.

Section laws.
Context {Laws : CalandriaLaws Cal}.

Lemma validate_retained_spec (self : t) :
  (validate_retained self).1 =
    (if rb_get (max_retained_bytes self) <? rb_get (retained_bytes self) then fail self else self) ∧
  bounded (validate_retained self).1 ∧
  is_ok (validate_retained self).2 =
    (rb_get (retained_bytes self) <=? rb_get (max_retained_bytes self)).
Proof.
  unfold validate_retained, bounded. rewrite rb_gtb_spec. fold (retained_bytes self).
  destruct (Z.ltb_spec (rb_get (max_retained_bytes self)) (rb_get (retained_bytes self))); simpl.
  - split; [done|]. split; [done|]. symmetry. by apply Z.leb_gt.
  - split; [done|]. split; [done|]. symmetry. by apply Z.leb_le.
Qed.

Lemma run_bounded (self : t) (c : call) : bounded self → bounded (run self c).
Proof.
  intros Hb. destruct c as [bytes|]; simpl; unfold feed, next_frame.
  - destruct (failed self) eqn:Hf; [done|].
    destruct (rb_try_from_usize _); [|done]. destruct (rb_checked_add _ _); [|done].
    destruct (rb_gtb _ _); [done|].
    destruct (decoder_feed (decoder self) bytes) as [d [[]|e]]; [|done].
    apply (validate_retained_spec (set_decoder self d)).
  - destruct (failed self) eqn:Hf; [done|].
    destruct (decoder_next_frame (decoder self)) as [d [o|e]]; [|done].
    destruct (validate_retained_spec (set_decoder self d)) as (_ & Hv & _).
    by destruct (validate_retained (set_decoder self d)) as [s [[]|e]].
Qed.

End laws.
End frame_driver.
#[global] Arguments t {Cal} D.
End FrameDriver.
