(* ===== verification/Machine.v ===== *)
(** * The connection-epoch machine

    [connection/] of [bornera-core], the policy side: [machine.rs],
    [transition.rs], [input.rs], [reserve.rs], [commit.rs], [drive.rs],
    [cancellation.rs], [deadline.rs], [response.rs], [close.rs],
    [lifecycle.rs] and [snapshot.rs]. A method takes the machine and the heap
    that holds its ledger and gives both back with its transition. *)
From Stdlib Require Import ZArith Lia.
From stdpp Require Import prelude.
From S2P Require Import Prelude External Identity Limits Admission KeySet Ledger Permit Operation Matching.

Module InputDisposition.

(** Whether an input changed the current epoch. *)
Inductive t : Type :=
  | Applied
  | IgnoredStaleEpoch
  | IgnoredUnknownOperation
  | IgnoredStaleEffect
  | AlreadyTerminal
  | IgnoredInvalidPhase
  | Fault.

#[global] Instance eq_dec : EqDecision t.
Proof. solve_decision. Defined.

End InputDisposition.

Module CancelOutcome.

(** Result of explicit cancellation. *)
Inductive t : Type :=
  | CancelledNotSent
  | ObservationCancelled (delivery : Delivery.t)
  | AlreadyTerminal.

#[global] Instance eq_dec : EqDecision t.
Proof. solve_decision. Defined.

End CancelOutcome.

Module ConnectionTransition.
Section connection_transition.
Context {Cal : Calandria}.

(** Data-only effects and classification produced by one state transition. *)
Record t (F : Type) : Type := mk {
  disposition : InputDisposition.t;
  cancel_outcome : option CancelOutcome.t;
  effects : list (ConnectionEffect.t F);
}.
#[global] Arguments mk {F}.
#[global] Arguments disposition {F}.
#[global] Arguments cancel_outcome {F}.
#[global] Arguments effects {F}.

Definition new {F : Type} (disposition : InputDisposition.t) : t F := mk disposition None [].

Definition cancelled {F : Type} (self : t F) (outcome : CancelOutcome.t) : t F :=
  mk (disposition self) (Some outcome) (effects self).

Definition push {F : Type} (self : t F) (effect : ConnectionEffect.t F) : t F :=
  mk (disposition self) (cancel_outcome self) (effects self ++ [effect]).

End connection_transition.
End ConnectionTransition.

Module ConnectionPhase.

(** Physical lifecycle of one fixed connection epoch. *)
Inductive t : Type :=
  | Live
  | Closing
  | Closed.

#[global] Instance eq_dec : EqDecision t.
Proof. solve_decision. Defined.

End ConnectionPhase.

Module ConnectionInput.
Section connection_input.
Context {Cal : Calandria}.

(** An observation or command applied to the deterministic epoch machine. *)
Inductive t : Type :=
  | OpenAdmission (epoch : ConnectionEpoch.t)
  | Cancel (epoch : ConnectionEpoch.t) (operation : OperationId.t)
  | DeadlineElapsed (epoch : ConnectionEpoch.t) (operation : OperationId.t) (now : Moment)
  | ReplyMalformed (epoch : ConnectionEpoch.t)
  | BeginDrain (epoch : ConnectionEpoch.t)
  | CloseRequested (epoch : ConnectionEpoch.t) (reason : CloseReason.t)
  | EpochClosed (epoch : ConnectionEpoch.t).

End connection_input.
End ConnectionInput.

Module InboundReply.

(** A complete opaque frame classified by an adapter as a reply. *)
Record t (F : Type) : Type := new {
  epoch : ConnectionEpoch.t;
  key : MatchKey.t;
  frame : F;
}.
#[global] Arguments new {F}.
#[global] Arguments epoch {F}.
#[global] Arguments key {F}.
#[global] Arguments frame {F}.

End InboundReply.

Module ConnectionSnapshot.
Section connection_snapshot.
Context {Cal : Calandria}.

(** Immutable, data-only state for observation outside the owner path. *)
Record t : Type := mk {
  endpoint : EndpointId.t;
  lane : LaneId.t;
  connection : ConnectionId.t;
  epoch : ConnectionEpoch.t;
  phase : ConnectionPhase.t;
  gate : AdmissionGate.t;
  close_reason : option CloseReason.t;
  reserved_permits : Z;
  owned_operations : Z;
  active_operations : nat;
  terminal_slots : nat;
  active_match_keys : Z;
  retained_bytes : RetainedBytes;
  buffered_write_frames : Z;
  buffered_write_retained_bytes : RetainedBytes;
}.

End connection_snapshot.
End ConnectionSnapshot.

Module ConnectionMachine.
Section connection_machine.
Context {Cal : Calandria}.

Import ConnectionTransition (new, cancelled, push).

(** Deterministic single-owner policy for one exact connection epoch. *)
Record t : Type := mk {
  endpoint : EndpointId.t;
  lane : LaneId.t;
  connection : ConnectionId.t;
  epoch : ConnectionEpoch.t;
  phase : ConnectionPhase.t;
  gate : AdmissionGate.t;
  close_reason : option CloseReason.t;
  identities : IdentityGenerator.t;
  ledger : LedgerRef;
  matching : OrderedVerified.t;
}.

(** [Rc::new] stores the new ledger at the address [ledger]. *)
Definition with_identity_seeds (endpoint : EndpointId.t) (lane : LaneId.t)
    (connection : ConnectionId.t) (epoch : ConnectionEpoch.t) (limits : ConnectionLimits.t)
    (seeds : IdentitySeeds.t) (ledger : LedgerRef) (heap : Heap.t) : t * Heap.t :=
  (mk endpoint lane connection epoch ConnectionPhase.Live AdmissionGate.SessionOnly None
     (IdentityGenerator.new seeds) ledger
     (OrderedVerified.new (ConnectionLimits.match_keys limits)
        (ConnectionLimits.max_operations limits)),
   Heap.store heap ledger (ReservationLedger.new limits)).

Definition new_machine (endpoint : EndpointId.t) (lane : LaneId.t)
    (connection : ConnectionId.t) (epoch : ConnectionEpoch.t) (limits : ConnectionLimits.t)
    (ledger : LedgerRef) (heap : Heap.t) : t * Heap.t :=
  with_identity_seeds endpoint lane connection epoch limits IdentitySeeds.ZERO ledger heap.

(** Field assignments. *)
Definition set_state (self : t) (p : ConnectionPhase.t) (g : AdmissionGate.t)
    (r : option CloseReason.t) : t :=
  mk (endpoint self) (lane self) (connection self) (epoch self) p g r (identities self)
    (ledger self) (matching self).

Definition set_gate (self : t) (g : AdmissionGate.t) : t :=
  set_state self (phase self) g (close_reason self).

Definition set_identities (self : t) (g : IdentityGenerator.t) : t :=
  mk (endpoint self) (lane self) (connection self) (epoch self) (phase self) (gate self)
    (close_reason self) g (ledger self) (matching self).

Definition set_matching (self : t) (m : OrderedVerified.t) : t :=
  mk (endpoint self) (lane self) (connection self) (epoch self) (phase self) (gate self)
    (close_reason self) (identities self) (ledger self) m.

(** ** Closing ([close.rs]) *)

(** The [while let Some(record) = self.matching.pop_front()] loop: the effects
    each record adds, and its release. *)
Definition close_record {F : Type} (self : t) (reason : CloseReason.t)
    (operation_failure : option (OperationId.t * OperationFailure.t))
    (record : OperationRecord.t) (transition : ConnectionTransition.t F)
    : ConnectionTransition.t F :=
  let transition :=
    push transition (ConnectionEffect.CancelDeadline (epoch self) (OperationRecord.id record)) in
  let transition :=
    if OperationRecord.write_held record
    then push transition (ConnectionEffect.DiscardWrite (OperationRecord.effect record)
                            (epoch self) (OperationRecord.id record))
    else transition in
  if bool_decide (OperationRecord.phase record = OperationPhase.Terminal) then transition
  else
    let failure :=
      match operation_failure with
      | Some (operation, failure) =>
          if bool_decide (operation = OperationRecord.id record) then failure
          else OperationFailure.ConnectionClosed reason
      | None => OperationFailure.ConnectionClosed reason
      end in
    push transition (ConnectionEffect.failed (epoch self) (OperationRecord.id record) failure
                       (OperationRecord.delivery record)).

Fixpoint close_loop {F : Type} (self : t) (reason : CloseReason.t)
    (operation_failure : option (OperationId.t * OperationFailure.t))
    (pending : list OperationRecord.t) (transition : ConnectionTransition.t F) (heap : Heap.t)
    : ConnectionTransition.t F * Heap.t :=
  match pending with
  | [] => (transition, heap)
  | record :: pending =>
      let transition := close_record self reason operation_failure record transition in
      let heap :=
        Heap.borrow_mut heap (ledger self)
          (λ l, ReservationLedger.release_operation l (OperationRecord.reservation record)
                  (OperationRecord.write_held record)) in
      close_loop self reason operation_failure pending transition heap
  end.

Definition close_with_failure_into {F : Type} (self : t) (reason : CloseReason.t)
    (operation_failure : option (OperationId.t * OperationFailure.t))
    (transition : ConnectionTransition.t F) (heap : Heap.t)
    : t * ConnectionTransition.t F * Heap.t :=
  if negb (bool_decide (phase self = ConnectionPhase.Live)) then (self, transition, heap)
  else
    let self := set_state self ConnectionPhase.Closing AdmissionGate.Closed (Some reason) in
    let transition := push transition (ConnectionEffect.CloseEpoch (epoch self) reason) in
    let '(transition, heap) :=
      close_loop self reason operation_failure (OrderedVerified.pending (matching self))
        transition heap in
    (set_matching self (OrderedVerified.set_pending (matching self) []), transition, heap).

Definition close_into {F : Type} (self : t) (reason : CloseReason.t)
    (transition : ConnectionTransition.t F) (heap : Heap.t)
    : t * ConnectionTransition.t F * Heap.t :=
  close_with_failure_into self reason None transition heap.

Definition finish_drain {F : Type} (self : t) (transition : ConnectionTransition.t F)
    (heap : Heap.t) : t * ConnectionTransition.t F * Heap.t :=
  if bool_decide (gate self = AdmissionGate.Draining)
     && OrderedVerified.is_empty (matching self)
  then close_into self CloseReason.Drained transition heap
  else (self, transition, heap).

(** ** Lifecycle ([drive.rs], [lifecycle.rs]) *)

Definition open_admission (self : t) (e : ConnectionEpoch.t) (heap : Heap.t)
    : t * ConnectionTransition.t unit * Heap.t :=
  if negb (bool_decide (e = epoch self)) then (self, new InputDisposition.IgnoredStaleEpoch, heap)
  else if bool_decide (phase self = ConnectionPhase.Live)
          && bool_decide (gate self = AdmissionGate.SessionOnly)
  then (set_gate self AdmissionGate.Open, new InputDisposition.Applied, heap)
  else (self, new InputDisposition.IgnoredInvalidPhase, heap).

Definition begin_drain (self : t) (e : ConnectionEpoch.t) (heap : Heap.t)
    : t * ConnectionTransition.t unit * Heap.t :=
  if negb (bool_decide (e = epoch self)) then (self, new InputDisposition.IgnoredStaleEpoch, heap)
  else if negb (bool_decide (phase self = ConnectionPhase.Live))
          || match gate self with
             | AdmissionGate.Closed | AdmissionGate.Draining => true
             | _ => false
             end
  then (self, new InputDisposition.IgnoredInvalidPhase, heap)
  else
    let self := set_gate self AdmissionGate.Draining in
    finish_drain self (new InputDisposition.Applied) heap.

Definition close_requested (self : t) (e : ConnectionEpoch.t) (reason : CloseReason.t)
    (heap : Heap.t) : t * ConnectionTransition.t unit * Heap.t :=
  if negb (bool_decide (e = epoch self)) then (self, new InputDisposition.IgnoredStaleEpoch, heap)
  else if negb (bool_decide (phase self = ConnectionPhase.Live))
  then (self, new InputDisposition.IgnoredInvalidPhase, heap)
  else close_into self reason (new InputDisposition.Applied) heap.

Definition epoch_closed (self : t) (e : ConnectionEpoch.t) (heap : Heap.t)
    : t * ConnectionTransition.t unit * Heap.t :=
  if negb (bool_decide (e = epoch self)) then (self, new InputDisposition.IgnoredStaleEpoch, heap)
  else if negb (bool_decide (phase self = ConnectionPhase.Closing))
  then (self, new InputDisposition.IgnoredInvalidPhase, heap)
  else (set_state self ConnectionPhase.Closed AdmissionGate.Closed (close_reason self),
        new InputDisposition.Applied, heap).

(** ** Write progress ([drive.rs]) *)

Definition write_started (self : t) (e : ConnectionEpoch.t) (operation : OperationId.t)
    (effect : EffectId.t) (heap : Heap.t) : t * ConnectionTransition.t unit * Heap.t :=
  if negb (bool_decide (e = epoch self)) then (self, new InputDisposition.IgnoredStaleEpoch, heap)
  else match OrderedVerified.get (matching self) operation with
  | None => (self, new InputDisposition.IgnoredUnknownOperation, heap)
  | Some record =>
  if bool_decide (OperationRecord.phase record = OperationPhase.Terminal)
  then (self, new InputDisposition.AlreadyTerminal, heap)
  else if negb (bool_decide (OperationRecord.effect record = effect))
  then (self, new InputDisposition.IgnoredStaleEffect, heap)
  else if negb (bool_decide (OperationRecord.phase record = OperationPhase.Queued))
  then (self, new InputDisposition.IgnoredInvalidPhase, heap)
  else match OrderedVerified.get_mut (matching self) operation (λ record,
    OperationRecord.set_phase
      (OperationRecord.set_delivery record
         (Delivery.possibly_sent (OperationRecord.delivery record)))
      OperationPhase.Writing) with
  | None => (self, new InputDisposition.IgnoredUnknownOperation, heap)
  | Some matching => (set_matching self matching, new InputDisposition.Applied, heap)
  end end.

(** The end of [write_completed] for an operation that expects a reply. *)
Definition await_reply (self : t) (operation : OperationId.t) (heap : Heap.t)
    : t * ConnectionTransition.t unit * Heap.t :=
  match OrderedVerified.get_mut (matching self) operation (λ record,
    OperationRecord.set_write_held
      (if bool_decide (OperationRecord.phase record = OperationPhase.Terminal) then record
       else OperationRecord.set_phase record OperationPhase.AwaitingReply) false) with
  | None => (self, new InputDisposition.IgnoredUnknownOperation, heap)
  | Some matching => (set_matching self matching, new InputDisposition.Applied, heap)
  end.

(** The end of [write_completed] for an operation complete on write. *)
Definition finish_write (self : t) (operation : OperationId.t) (heap : Heap.t)
    : t * ConnectionTransition.t unit * Heap.t :=
  match OrderedVerified.remove (matching self) operation with
  | None => (self, new InputDisposition.IgnoredUnknownOperation, heap)
  | Some (completed, matching) =>
      let self := set_matching self matching in
      let transition :=
        push (new InputDisposition.Applied)
          (ConnectionEffect.CancelDeadline (epoch self) operation) in
      let transition :=
        if bool_decide (OperationRecord.phase completed = OperationPhase.Terminal)
        then transition
        else push transition
               (ConnectionEffect.PublishOutcome (epoch self) operation
                  (OperationOutcome.WriteComplete (OperationRecord.delivery completed))) in
      let heap :=
        Heap.borrow_mut heap (ledger self)
          (λ l, ReservationLedger.release_operation l (OperationRecord.reservation completed)
                  false) in
      finish_drain self transition heap
  end.

Definition write_completed (self : t) (e : ConnectionEpoch.t) (operation : OperationId.t)
    (effect : EffectId.t) (heap : Heap.t) : t * ConnectionTransition.t unit * Heap.t :=
  if negb (bool_decide (e = epoch self)) then (self, new InputDisposition.IgnoredStaleEpoch, heap)
  else match OrderedVerified.get (matching self) operation with
  | None => (self, new InputDisposition.IgnoredUnknownOperation, heap)
  | Some record =>
  if negb (bool_decide (OperationRecord.effect record = effect))
  then (self, new InputDisposition.IgnoredStaleEffect, heap)
  else
  let completes_empty_frame := bool_decide (OperationRecord.phase record = OperationPhase.Queued) in
  if (negb match OperationRecord.phase record with
           | OperationPhase.Writing | OperationPhase.Terminal => true
           | _ => false
           end && negb completes_empty_frame)
     || negb (OperationRecord.write_held record)
  then (self, new InputDisposition.IgnoredInvalidPhase, heap)
  else
  let heap :=
    Heap.borrow_mut heap (ledger self)
      (λ l, ReservationLedger.release_write l
              (Reservation.write_retained_bytes (OperationRecord.reservation record))) in
  if bool_decide (OperationRecord.completion record = CompletionMode.ReplyExpected)
  then await_reply self operation heap
  else finish_write self operation heap
  end.

(** ** Cancellation ([cancellation.rs]) *)

Definition cancel (self : t) (e : ConnectionEpoch.t) (operation : OperationId.t) (heap : Heap.t)
    : t * ConnectionTransition.t unit * Heap.t :=
  if negb (bool_decide (e = epoch self)) then
    (self, cancelled (new InputDisposition.IgnoredStaleEpoch) CancelOutcome.AlreadyTerminal, heap)
  else match OrderedVerified.get (matching self) operation with
  | None =>
      (self, cancelled (new InputDisposition.IgnoredUnknownOperation)
               CancelOutcome.AlreadyTerminal, heap)
  | Some record =>
  if bool_decide (OperationRecord.phase record = OperationPhase.Terminal) then
    (self, cancelled (new InputDisposition.AlreadyTerminal) CancelOutcome.AlreadyTerminal, heap)
  else
  let transition := new InputDisposition.Applied in
  if bool_decide (OperationRecord.delivery record = Delivery.NotSent) then
    match OrderedVerified.remove (matching self) operation with
    | None =>
        (self, cancelled (new InputDisposition.IgnoredUnknownOperation)
                 CancelOutcome.AlreadyTerminal, heap)
    | Some (record, matching) =>
        let self := set_matching self matching in
        let transition :=
          if OperationRecord.write_held record
          then push transition
                 (ConnectionEffect.DiscardWrite (OperationRecord.effect record) (epoch self)
                    operation)
          else transition in
        let transition := push transition (ConnectionEffect.CancelDeadline (epoch self) operation) in
        let transition :=
          push transition
            (ConnectionEffect.PublishOutcome (epoch self) operation
               (OperationOutcome.Cancelled Delivery.NotSent)) in
        let heap :=
          Heap.borrow_mut heap (ledger self)
            (λ l, ReservationLedger.release_operation l (OperationRecord.reservation record)
                    (OperationRecord.write_held record)) in
        let transition := cancelled transition CancelOutcome.CancelledNotSent in
        finish_drain self transition heap
    end
  else
    let transition :=
      push transition
        (ConnectionEffect.PublishOutcome (epoch self) operation
           (OperationOutcome.Cancelled Delivery.PossiblySent)) in
    let self :=
      match OrderedVerified.get_mut (matching self) operation
              (λ record, OperationRecord.set_phase record OperationPhase.Terminal) with
      | Some matching => set_matching self matching
      | None => self
      end in
    (self, cancelled transition (CancelOutcome.ObservationCancelled Delivery.PossiblySent), heap)
  end.

(** ** Deadlines ([deadline.rs]) *)

Definition deadline_elapsed (self : t) (e : ConnectionEpoch.t) (operation : OperationId.t)
    (now : Moment) (heap : Heap.t) : t * ConnectionTransition.t unit * Heap.t :=
  if negb (bool_decide (e = epoch self)) then (self, new InputDisposition.IgnoredStaleEpoch, heap)
  else match OrderedVerified.get (matching self) operation with
  | None => (self, new InputDisposition.IgnoredUnknownOperation, heap)
  | Some record =>
  if negb (is_elapsed_at (OperationRecord.deadline record) now) then
    (self, push (new InputDisposition.Applied)
             (ConnectionEffect.ScheduleDeadline (epoch self) operation
                (OperationRecord.deadline record)), heap)
  else if bool_decide (OperationRecord.delivery record = Delivery.PossiblySent) then
    close_into self CloseReason.DeadlineAfterPossibleSend (new InputDisposition.Applied) heap
  else match OrderedVerified.remove (matching self) operation with
  | None => (self, new InputDisposition.IgnoredUnknownOperation, heap)
  | Some (record, matching) =>
      let self := set_matching self matching in
      let transition := new InputDisposition.Applied in
      let transition :=
        if OperationRecord.write_held record
        then push transition
               (ConnectionEffect.DiscardWrite (OperationRecord.effect record) (epoch self)
                  operation)
        else transition in
      let transition := push transition (ConnectionEffect.CancelDeadline (epoch self) operation) in
      let transition :=
        push transition
          (ConnectionEffect.failed (epoch self) operation OperationFailure.DeadlineElapsed
             Delivery.NotSent) in
      let heap :=
        Heap.borrow_mut heap (ledger self)
          (λ l, ReservationLedger.release_operation l (OperationRecord.reservation record)
                  (OperationRecord.write_held record)) in
      finish_drain self transition heap
  end end.

(** ** Replies ([response.rs]) *)

(** The guard of [apply_reply]: the front may own a reply. *)
Definition front_awaits_reply (front : OperationRecord.t) : bool :=
  match OperationRecord.phase front with
  | OperationPhase.AwaitingReply | OperationPhase.Terminal => true
  | _ => false
  end && negb (OperationRecord.write_held front).

Definition apply_reply {F : Type} (self : t) (reply : InboundReply.t F) (heap : Heap.t)
    : t * ConnectionTransition.t F * Heap.t :=
  let received := InboundReply.key reply in
  if negb (bool_decide (InboundReply.epoch reply = epoch self))
  then (self, new InputDisposition.IgnoredStaleEpoch, heap)
  else if negb (bool_decide (phase self = ConnectionPhase.Live))
  then (self, new InputDisposition.IgnoredInvalidPhase, heap)
  else match OrderedVerified.front (matching self) with
  | None => close_into self CloseReason.UnexpectedReply (new InputDisposition.Fault) heap
  | Some front =>
  if negb (front_awaits_reply front)
  then close_into self CloseReason.UnexpectedReply (new InputDisposition.Fault) heap
  else
  let expected := Reservation.match_key (OperationRecord.reservation front) in
  if negb (bool_decide (received = expected)) then
    close_with_failure_into self (CloseReason.MatchKeyMismatch expected received)
      (Some (OperationRecord.id front, OperationFailure.MatchKeyMismatch expected received))
      (new InputDisposition.Fault) heap
  else match OrderedVerified.pop_front (matching self) with
  | None => (self, new InputDisposition.IgnoredUnknownOperation, heap)
  | Some (completed, matching) =>
      let self := set_matching self matching in
      let transition :=
        push (new InputDisposition.Applied)
          (ConnectionEffect.CancelDeadline (epoch self) (OperationRecord.id completed)) in
      let transition :=
        if bool_decide (OperationRecord.phase completed = OperationPhase.Terminal)
        then transition
        else push transition
               (ConnectionEffect.PublishOutcome (epoch self) (OperationRecord.id completed)
                  (OperationOutcome.Reply (InboundReply.frame reply))) in
      let heap :=
        Heap.borrow_mut heap (ledger self)
          (λ l, ReservationLedger.release_operation l (OperationRecord.reservation completed)
                  false) in
      finish_drain self transition heap
  end end.

Definition reply_malformed (self : t) (e : ConnectionEpoch.t) (heap : Heap.t)
    : t * ConnectionTransition.t unit * Heap.t :=
  if negb (bool_decide (e = epoch self)) then (self, new InputDisposition.IgnoredStaleEpoch, heap)
  else if negb (bool_decide (phase self = ConnectionPhase.Live))
  then (self, new InputDisposition.IgnoredInvalidPhase, heap)
  else close_into self CloseReason.MalformedReply (new InputDisposition.Fault) heap.

(** ** Dispatch ([drive.rs]) *)

Definition apply (self : t) (input : ConnectionInput.t) (heap : Heap.t)
    : t * ConnectionTransition.t unit * Heap.t :=
  match input with
  | ConnectionInput.OpenAdmission e => open_admission self e heap
  | ConnectionInput.Cancel e operation => cancel self e operation heap
  | ConnectionInput.DeadlineElapsed e operation now => deadline_elapsed self e operation now heap
  | ConnectionInput.ReplyMalformed e => reply_malformed self e heap
  | ConnectionInput.BeginDrain e => begin_drain self e heap
  | ConnectionInput.CloseRequested e reason => close_requested self e reason heap
  | ConnectionInput.EpochClosed e => epoch_closed self e heap
  end.

(** ** Admission ([reserve.rs], [commit.rs]) *)

Definition reserve (self : t) (now : Moment) (options : OperationOptions.t) (heap : Heap.t)
    : t * Heap.t * result OperationPermit.t ReserveError.t :=
  if negb (AdmissionGate.admits (gate self) (OperationOptions.class options))
  then (self, heap, Err ReserveError.AdmissionClosed)
  else if is_elapsed_at (OperationOptions.deadline options) now
  then (self, heap, Err ReserveError.DeadlineElapsed)
  else if negb (IdentityGenerator.available (identities self))
  then (self, heap, Err ReserveError.IdentityExhausted)
  else
  let '(contents, reserved) :=
    ReservationLedger.reserve (Heap.borrow heap (ledger self))
      (OperationOptions.retained options) (OperationOptions.write_retained options) in
  let heap := Heap.store heap (ledger self) contents in
  match reserved with
  | Err e => (self, heap, Err e)
  | Ok reservation =>
  match IdentityGenerator.take (identities self) with
  | (identities, None) =>
      (set_identities self identities,
       Heap.borrow_mut heap (ledger self)
         (λ l, ReservationLedger.rollback_permit l reservation),
       Err ReserveError.IdentityExhausted)
  | (identities, Some (operation, effect)) =>
      (set_identities self identities, heap,
       Ok (OperationPermit.mk (ledger self) (epoch self) operation effect
             (OperationOptions.deadline options) (OperationOptions.class options)
             (OperationOptions.completion options) reservation true))
  end end.

(** [Rc::ptr_eq] compares the addresses of the two ledgers. *)
Definition commit_failure (self : t) (permit : OperationPermit.t) (frame_retained : RetainedBytes)
    : option CommitErrorKind.t :=
  if negb (bool_decide (ledger self = OperationPermit.ledger permit))
     || negb (bool_decide (OperationPermit.epoch permit = epoch self))
  then Some CommitErrorKind.ForeignPermit
  else if negb (AdmissionGate.admits (gate self) (OperationPermit.class permit))
  then Some CommitErrorKind.AdmissionClosed
  else if rb_gtb frame_retained
            (Reservation.write_retained_bytes (OperationPermit.reservation permit))
  then Some CommitErrorKind.FrameTooLarge
  else None.

(** The permit is consumed: it is dropped, disarmed, on return. *)
Definition commit_permit (self : t) (permit : OperationPermit.t) (frame_retained : RetainedBytes)
    (heap : Heap.t) : t * Heap.t * (OperationId.t * ConnectionTransition.t unit) :=
  let '(permit, heap) := OperationPermit.commit permit frame_retained heap in
  let operation := OperationPermit.operation permit in
  let record :=
    OperationRecord.mk operation (OperationPermit.effect permit) (OperationPermit.deadline permit)
      (OperationPermit.reservation permit) OperationPhase.Queued
      (OperationPermit.completion permit) Delivery.NotSent true in
  let self := set_matching self (OrderedVerified.push (matching self) record) in
  let transition :=
    push (new InputDisposition.Applied)
      (ConnectionEffect.ScheduleDeadline (epoch self) operation
         (OperationRecord.deadline record)) in
  let heap := (OperationPermit.drop permit heap).2 in
  (self, heap, (operation, transition)).

(** ** Observation ([snapshot.rs]) *)

Definition snapshot (self : t) (heap : Heap.t) : ConnectionSnapshot.t :=
  let ledger := Heap.borrow heap (ledger self) in
  {| ConnectionSnapshot.endpoint := endpoint self;
     ConnectionSnapshot.lane := lane self;
     ConnectionSnapshot.connection := connection self;
     ConnectionSnapshot.epoch := epoch self;
     ConnectionSnapshot.phase := phase self;
     ConnectionSnapshot.gate := gate self;
     ConnectionSnapshot.close_reason := close_reason self;
     ConnectionSnapshot.reserved_permits := ReservationLedger.permits ledger;
     ConnectionSnapshot.owned_operations := ReservationLedger.operations ledger;
     ConnectionSnapshot.active_operations := OrderedVerified.active_len (matching self);
     ConnectionSnapshot.terminal_slots := OrderedVerified.terminal_len (matching self);
     ConnectionSnapshot.active_match_keys :=
       ActiveKeySet.len (ReservationLedger.active_keys ledger);
     ConnectionSnapshot.retained_bytes := ReservationLedger.retained_bytes ledger;
     ConnectionSnapshot.buffered_write_frames := ReservationLedger.write_frames ledger;
     ConnectionSnapshot.buffered_write_retained_bytes :=
       ReservationLedger.write_retained_bytes ledger |}.

End connection_machine.
End ConnectionMachine.
