(* ===== verification/Journal.v ===== *)
(** * The recovery journal

    [connection/journal.rs] of [bornera-core]: the preallocated record of
    what one input is about to move, kept until the input has been applied. A
    [Vec] of fixed slots is a list of options; the two lengths never pass the
    number of slots and are natural numbers. *)
From Stdlib Require Import ZArith Lia.
From stdpp Require Import prelude.
From S2P Require Import Prelude External Identity Admission Ledger Operation Write.

Module JournalOperation.

(** What the journal keeps of one policy record. *)
Record t : Type := mk {
  wire_index : nat;
  operation : OperationId.t;
  effect : EffectId.t;
  delivery : Delivery.t;
  phase : OperationPhase.t;
  write_held : bool;
}.

#[global] Instance eq_dec : EqDecision t.
Proof. solve_decision. Defined.

(** The entry [retain_operation] makes. *)
Definition of_record {Cal : Calandria} (record : OperationRecord.t) (wire_index : nat) : t :=
  mk wire_index (OperationRecord.id record) (OperationRecord.effect record)
    (OperationRecord.delivery record) (OperationRecord.phase record)
    (OperationRecord.write_held record).

End JournalOperation.

Module RecoveryJournal.
Section recovery_journal.
Context {Cal : Calandria} {F : Type}.

Record t : Type := mk {
  operations : list (option JournalOperation.t);
  operation_len : nat;
  writes : list (option (DiscardedWrite.t F));
  write_len : nat;
  overflow_write : option (DiscardedWrite.t F);
  armed : bool;
}.

Definition new (max_operations max_writes : Z) : t :=
  mk (replicate (Z.to_nat max_operations) None) 0 (replicate (Z.to_nat max_writes) None) 0
    None false.

Definition set_armed (self : t) (a : bool) : t :=
  mk (operations self) (operation_len self) (writes self) (write_len self)
    (overflow_write self) a.

(** [slots[..len].iter_mut().for_each(|slot| *slot = None)]. *)
Definition erase {A : Type} (len : nat) (slots : list (option A)) : list (option A) :=
  replicate len None ++ drop len slots.

(** [slots[..len].iter_mut().filter_map(Option::take).collect()]. *)
Definition taken {A : Type} (len : nat) (slots : list (option A)) : list A :=
  omap id (take len slots).

Definition clear (self : t) : t :=
  mk (erase (operation_len self) (operations self)) 0
    (erase (write_len self) (writes self)) 0 None false.

Definition retain_operation (self : t) (record : OperationRecord.t) (wire_index : nat)
    : t * bool :=
  match operations self !! operation_len self with
  | None => (self, false)
  | Some _ =>
      (mk (<[operation_len self := Some (JournalOperation.of_record record wire_index)]>
             (operations self))
         (operation_len self + 1) (writes self) (write_len self) (overflow_write self)
         (armed self), true)
  end.

Definition retain_write (self : t) (write : DiscardedWrite.t F) : t * bool :=
  match writes self !! write_len self with
  | Some _ =>
      (mk (operations self) (operation_len self)
         (<[write_len self := Some write]> (writes self)) (write_len self + 1)
         (overflow_write self) (armed self), true)
  | None =>
      (mk (operations self) (operation_len self) (writes self) (write_len self)
         (match overflow_write self with None => Some write | Some w => Some w end)
         (armed self), false)
  end.

(** The [for (wire_index, record) in records.enumerate()] loop of [begin]. *)
Fixpoint retain_all (self : t) (records : list OperationRecord.t) (wire_index : nat)
    : t * bool :=
  match records with
  | [] => (self, true)
  | record :: records =>
      match retain_operation self record wire_index with
      | (self, true) => retain_all self records (S wire_index)
      | (self, false) => (self, false)
      end
  end.

Definition begin (self : t) (records : list OperationRecord.t) : t * bool :=
  match retain_all (clear self) records 0 with
  | (self, true) => (set_armed self true, true)
  | (self, false) => (clear self, false)
  end.

Definition begin_write_progress (self : t) : t := set_armed (clear self) true.

Definition begin_operation (self : t) (record : OperationRecord.t) (wire_index : nat)
    : t * bool :=
  retain_operation (set_armed (clear self) true) record wire_index.

Definition take_operations (self : t) : t * list JournalOperation.t :=
  (mk (erase (operation_len self) (operations self)) 0 (writes self) (write_len self)
     (overflow_write self) (armed self),
   taken (operation_len self) (operations self)).

Definition take_writes (self : t) : t * list (DiscardedWrite.t F) :=
  (mk (operations self) (operation_len self) (erase (write_len self) (writes self)) 0 None false,
   taken (write_len self) (writes self) ++ option_list (overflow_write self)).

(** ** What the journal holds *)

(** The journal has [no] operation slots and [nw] frame slots and holds
    exactly the operations [os] and the frames [ws]. *)
Record holds (self : t) (no nw : nat) (a : bool) (os : list JournalOperation.t)
    (ws : list (DiscardedWrite.t F)) : Prop := mk_holds {
  h_operations : operations self = (Some <$> os) ++ replicate (no - length os) None;
  h_operation_len : operation_len self = length os;
  h_operation_room : (length os ≤ no)%nat;
  h_writes : writes self = (Some <$> ws) ++ replicate (nw - length ws) None;
  h_write_len : write_len self = length ws;
  h_write_room : (length ws ≤ nw)%nat;
  h_overflow : overflow_write self = None;
  h_armed : armed self = a;
}.

(** A used prefix of a slot vector, erased or taken. *)
Lemma erase_used {A : Type} (l : list A) (n : nat) :
  (length l ≤ n)%nat →
  erase (length l) ((Some <$> l) ++ replicate (n - length l) None) = replicate n None.
Proof.
  intros Hle. unfold erase. rewrite drop_app_length' by by rewrite length_fmap.
  rewrite <- replicate_add. f_equal. lia.
Qed.

Lemma taken_used {A : Type} (l : list A) (n : nat) :
  taken (length l) ((Some <$> l) ++ replicate (n - length l) None) = l.
Proof.
  unfold taken. rewrite take_app_length' by by rewrite length_fmap.
  induction l as [|x l IH]; csimpl; [done|]. by rewrite IH.
Qed.

Lemma store_next {A : Type} (l : list A) (n : nat) (x : A) :
  (length l < n)%nat →
  ((Some <$> l) ++ replicate (n - length l) None) !! length l = Some None ∧
  <[length l := Some x]> ((Some <$> l) ++ replicate (n - length l) None) =
    (Some <$> (l ++ [x])) ++ replicate (n - length (l ++ [x])) None.
Proof.
  intros Hlt. replace (n - length l)%nat with (S (n - length (l ++ [x])))
    by (rewrite length_app; simpl; lia).
  rewrite replicate_S. split; [by rewrite list_lookup_middle by by rewrite length_fmap|].
  rewrite insert_app_r_alt by by rewrite length_fmap.
  rewrite length_fmap, Nat.sub_diag, fmap_app. simpl. by rewrite <- app_assoc.
Qed.

Lemma store_full {A : Type} (l : list A) (n : nat) :
  (n ≤ length l)%nat →
  ((Some <$> l) ++ replicate (n - length l) None : list (option A)) !! length l = None.
Proof.
  intros Hle. apply lookup_ge_None_2. rewrite length_app, length_fmap, length_replicate. lia.
Qed.

Lemma new_holds (o w : Z) : holds (new o w) (Z.to_nat o) (Z.to_nat w) false [] [].
Proof. split; simpl; try done; try lia; by rewrite Nat.sub_0_r. Qed.

Lemma clear_holds (self : t) no nw a os ws :
  holds self no nw a os ws → holds (clear self) no nw false [] [].
Proof.
  intros []. unfold clear. rewrite h_operations0, h_operation_len0, h_writes0, h_write_len0.
  rewrite !erase_used by done. split; simpl; try done; try lia; by rewrite Nat.sub_0_r.
Qed.

Lemma set_armed_holds (self : t) no nw a b os ws :
  holds self no nw a os ws → holds (set_armed self b) no nw b os ws.
Proof. by intros []. Qed.

Lemma retain_operation_holds (self : t) no nw a os ws record i :
  holds self no nw a os ws →
  if (length os <? no)%nat
  then ∃ self', retain_operation self record i = (self', true) ∧
    holds self' no nw a (os ++ [JournalOperation.of_record record i]) ws
  else retain_operation self record i = (self, false).
Proof.
  intros []. unfold retain_operation. rewrite h_operations0, h_operation_len0.
  destruct (Nat.ltb_spec (length os) no) as [Hlt|Hge].
  - destruct (store_next os no (JournalOperation.of_record record i) Hlt) as [-> ->].
    eexists. split; [reflexivity|]. split; simpl; try done.
    + rewrite length_app. simpl. lia.
    + rewrite length_app. simpl. lia.
  - by rewrite store_full.
Qed.

Lemma retain_write_holds (self : t) no nw a os ws w :
  holds self no nw a os ws → (length ws < nw)%nat →
  ∃ self', retain_write self w = (self', true) ∧ holds self' no nw a os (ws ++ [w]).
Proof.
  intros [] Hlt. unfold retain_write. rewrite h_writes0, h_write_len0.
  destruct (store_next ws nw w Hlt) as [-> ->].
  eexists. split; [reflexivity|]. split; simpl; try done; rewrite length_app; simpl; lia.
Qed.

(** The entries of a run of records from a wire index on. *)
Definition entries (records : list OperationRecord.t) (wire_index : nat)
    : list JournalOperation.t :=
  imap (λ i record, JournalOperation.of_record record (wire_index + i)) records.

Lemma entries_cons record records i :
  entries (record :: records) i =
    JournalOperation.of_record record i :: entries records (S i).
Proof.
  unfold entries. simpl. rewrite Nat.add_0_r. f_equal.
  apply imap_ext. intros j x _. simpl. f_equal. lia.
Qed.

Lemma length_entries records i : length (entries records i) = length records.
Proof. apply length_imap. Qed.

Lemma retain_all_holds (self : t) no nw a os ws records i :
  holds self no nw a os ws → (length os + length records ≤ no)%nat →
  ∃ self', retain_all self records i = (self', true) ∧
    holds self' no nw a (os ++ entries records i) ws.
Proof.
  revert self os i. induction records as [|r rs IH]; intros self os i Hh Hlen; simpl.
  { exists self. by rewrite app_nil_r. }
  pose proof (retain_operation_holds _ _ _ _ _ _ r i Hh) as Hr. simpl in Hlen.
  rewrite (proj2 (Nat.ltb_lt _ _)) in Hr by lia. destruct Hr as (self1 & -> & Hh1).
  destruct (IH self1 _ (S i) Hh1) as (self2 & -> & Hh2).
  { rewrite length_app. simpl. lia. }
  exists self2. split; [done|]. rewrite entries_cons. by rewrite <- app_assoc in Hh2.
Qed.

(** [begin] records every operation when the journal has room for them. *)
Lemma begin_holds (self : t) no nw a os ws records :
  holds self no nw a os ws → (length records ≤ no)%nat →
  ∃ self', begin self records = (self', true) ∧ holds self' no nw true (entries records 0) [].
Proof.
  intros Hh Hlen. apply clear_holds in Hh. unfold begin.
  destruct (retain_all_holds _ _ _ _ _ _ records 0 Hh) as (self' & -> & Hh'); [simpl; lia|].
  eexists. split; [reflexivity|]. by eapply set_armed_holds.
Qed.

(** It fails, leaving nothing behind, when it has not. *)
Lemma retain_all_full (self : t) no nw a os ws records i :
  holds self no nw a os ws → (no < length os + length records)%nat →
  ∃ self' os', retain_all self records i = (self', false) ∧ holds self' no nw a os' ws.
Proof.
  revert self os i. induction records as [|r rs IH]; intros self os i Hh Hlen; simpl in *.
  { destruct Hh. lia. }
  pose proof (retain_operation_holds _ _ _ _ _ _ r i Hh) as Hr.
  destruct (Nat.ltb_spec (length os) no).
  - destruct Hr as (self1 & -> & Hh1). apply (IH _ _ _ Hh1). rewrite length_app. simpl. lia.
  - rewrite Hr. eauto.
Qed.

Lemma begin_full (self : t) no nw a os ws records :
  holds self no nw a os ws → (no < length records)%nat →
  ∃ self', begin self records = (self', false) ∧ holds self' no nw false [] [].
Proof.
  intros Hh Hlen. apply clear_holds in Hh. unfold begin.
  destruct (retain_all_full _ _ _ _ _ _ records 0 Hh) as (self' & os' & -> & Hh'); [simpl; lia|].
  eexists. split; [reflexivity|]. by eapply clear_holds.
Qed.

Lemma begin_operation_holds (self : t) no nw a os ws record i :
  holds self no nw a os ws → (0 < no)%nat →
  ∃ self', begin_operation self record i = (self', true) ∧
    holds self' no nw true [JournalOperation.of_record record i] [].
Proof.
  intros Hh Hlen. apply clear_holds, (set_armed_holds _ _ _ _ true) in Hh.
  pose proof (retain_operation_holds _ _ _ _ _ _ record i Hh) as Hr. simpl in Hr.
  rewrite (proj2 (Nat.ltb_lt _ _)) in Hr by lia. done.
Qed.

Lemma begin_write_progress_holds (self : t) no nw a os ws :
  holds self no nw a os ws → holds (begin_write_progress self) no nw true [] [].
Proof. intros Hh. by eapply set_armed_holds, clear_holds. Qed.

Lemma take_operations_holds (self : t) no nw a os ws :
  holds self no nw a os ws →
  (take_operations self).2 = os ∧ holds (take_operations self).1 no nw a [] ws.
Proof.
  intros []. unfold take_operations. rewrite h_operations0, h_operation_len0. simpl.
  rewrite taken_used, erase_used by done. split; [done|].
  split; simpl; try done; try lia; by rewrite Nat.sub_0_r.
Qed.

Lemma take_writes_holds (self : t) no nw a os ws :
  holds self no nw a os ws →
  (take_writes self).2 = ws ∧ holds (take_writes self).1 no nw false os [].
Proof.
  intros []. unfold take_writes. rewrite h_writes0, h_write_len0, h_overflow0. simpl.
  rewrite taken_used, erase_used, app_nil_r by done. split; [done|].
  split; simpl; try done; try lia; by rewrite Nat.sub_0_r.
Qed.

(** A frame that finds no slot is kept in the overflow place, once. *)
Lemma retain_write_full (self : t) no nw a os ws w :
  holds self no nw a os ws → length ws = nw →
  let '(self', ok) := retain_write self w in
  ok = false ∧ (take_writes self').2 = ws ++ [w].
Proof.
  intros [] Heq. unfold retain_write. rewrite h_writes0, h_write_len0.
  rewrite store_full by lia. split; [done|]. unfold take_writes. simpl.
  by rewrite h_overflow0, taken_used.
Qed.

End recovery_journal.
#[global] Arguments t {Cal} F.
End RecoveryJournal.
