(* ===== verification/Core.v ===== *)
(** * The connection core

    [connection/core.rs], [connection/integrity.rs], [connection/progress.rs]
    and [connection/core_error.rs] of [bornera-core], and the commit errors of
    [admission/error.rs]: the aggregate that owns policy, frames and recovery
    journal together. Its methods run in the state and error monad of
    [Prelude] over the core and the heap that holds its ledger. *)
From Stdlib Require Import ZArith Lia.
From stdpp Require Import prelude.
From S2P Require Import Prelude External Identity Limits Admission KeySet Ledger Permit Operation.
From S2P Require Import Matching Write Machine Journal.

Module FrameCommitFailure.
Section frame_commit_failure.
Context {Cal : Calandria}.

(** Why an atomic frame commit could not transfer ownership to the writer. *)
Inductive t : Type :=
  | Policy (kind : CommitErrorKind.t)
  | Writer (failure : WriteAdmissionFailure.t).

End frame_commit_failure.
End FrameCommitFailure.

Module FrameCommitError.
Section frame_commit_error.
Context {Cal : Calandria}.

(** Failed atomic commit preserving both the permit and exact unsent frame. *)
Record t (F : Type) : Type := new {
  failure : FrameCommitFailure.t;
  permit : OperationPermit.t;
  frame : F;
}.
#[global] Arguments new {F}.
#[global] Arguments failure {F}.
#[global] Arguments permit {F}.
#[global] Arguments frame {F}.

Definition delivery {F : Type} (self : t F) : Delivery.t := Delivery.NotSent.

Definition into_parts {F : Type} (self : t F) : OperationPermit.t * F :=
  (permit self, frame self).

End frame_commit_error.
End FrameCommitError.

Module ConnectionCoreInvariant.

(** Fatal disagreement between the aggregate policy and frame owners. *)
Inductive t : Type :=
  | FrameContractViolation (violation : FrameContractViolation.t)
  | MissingWrite (operation : OperationId.t) (effect : EffectId.t)
  | DiscardedWriteMismatch (expected actual : OperationId.t)
  | WriteIdentityMismatch (operation : OperationId.t) (expected actual : EffectId.t)
  | UnexpectedWrite (operation : OperationId.t) (effect : EffectId.t)
  | WritePolicyMismatch (operation : OperationId.t) (effect : EffectId.t)
      (disposition : InputDisposition.t)
  | ReservationAccounting
  | WriteAccounting
  | WriteProgressContract (written remaining : Z)
  | RecoveryJournalCapacity
  | Recovered.

End ConnectionCoreInvariant.

Module ConnectionCoreError.
Section connection_core_error.
Context {Cal : Calandria}.

(** Fatal deterministic aggregate failure requiring explicit owner recovery. *)
Inductive t : Type :=
  | Write (source : WriteProgressError.t)
  | Invariant (source : ConnectionCoreInvariant.t)
  | Poisoned (source : ConnectionCoreInvariant.t).

End connection_core_error.
End ConnectionCoreError.

Module ConnectionCore.
Section connection_core.
Context {Cal : Calandria} {BB : ByteBudgetLib} {Build : BuildConfig} {F : Type}.

(** Sole deterministic mutation owner for one exact connection epoch. *)
Record t : Type := mk {
  machine : ConnectionMachine.t;
  writes : WriteQueue.t F;
  journal : RecoveryJournal.t F;
  poisoned : option ConnectionCoreInvariant.t;
}.

(** Field assignments. *)
Definition set_machine (self : t) (m : ConnectionMachine.t) : t :=
  mk m (writes self) (journal self) (poisoned self).
Definition set_writes (self : t) (w : WriteQueue.t F) : t :=
  mk (machine self) w (journal self) (poisoned self).
Definition set_journal (self : t) (j : RecoveryJournal.t F) : t :=
  mk (machine self) (writes self) j (poisoned self).
Definition set_poisoned (self : t) (p : option ConnectionCoreInvariant.t) : t :=
  mk (machine self) (writes self) (journal self) p.

(** The core with the heap that holds its ledger: the state of its methods. *)
Definition state : Type := t * Heap.t.

(** A method returning [Result<A, ConnectionCoreError>]. *)
Definition M (A : Type) : Type := STE state ConnectionCoreError.t A.

(** ** Construction and observation ([core.rs]) *)

Definition with_identity_seeds (endpoint : EndpointId.t) (lane : LaneId.t)
    (connection : ConnectionId.t) (epoch : ConnectionEpoch.t) (limits : ConnectionLimits.t)
    (seeds : IdentitySeeds.t) (ledger : LedgerRef) (heap : Heap.t) : state :=
  let '(machine, heap) :=
    ConnectionMachine.with_identity_seeds endpoint lane connection epoch limits seeds ledger
      heap in
  (mk machine (WriteQueue.new epoch (ConnectionLimits.write_queue_limits limits))
     (RecoveryJournal.new (ConnectionLimits.max_operations limits)
        (ConnectionLimits.max_write_frames limits)) None,
   heap).

Definition new (endpoint : EndpointId.t) (lane : LaneId.t)
    (connection : ConnectionId.t) (epoch : ConnectionEpoch.t) (limits : ConnectionLimits.t)
    (ledger : LedgerRef) (heap : Heap.t) : state :=
  let '(machine, heap) :=
    ConnectionMachine.new_machine endpoint lane connection epoch limits ledger heap in
  (mk machine (WriteQueue.new epoch (ConnectionLimits.write_queue_limits limits))
     (RecoveryJournal.new (ConnectionLimits.max_operations limits)
        (ConnectionLimits.max_write_frames limits)) None,
   heap).

Definition epoch (self : t) : ConnectionEpoch.t := ConnectionMachine.epoch (machine self).

Definition snapshot (self : t) (heap : Heap.t) : ConnectionSnapshot.t :=
  ConnectionMachine.snapshot (machine self) heap.

Definition matching (self : t) : OrderedVerified.t := ConnectionMachine.matching (machine self).

Definition queued_write_frames (self : t) : nat := WriteQueue.queued_frames (writes self).

Definition front_write_is_empty (self : t) : bool := WriteQueue.front_is_empty (writes self).

Definition write_effect (self : t) (operation : OperationId.t) : option EffectId.t :=
  WriteQueue.effect_for (writes self) operation.

Definition buffered_write_retained_bytes (self : t) : RetainedBytes :=
  WriteQueue.retained_bytes (writes self).

(** The contents of the core's ledger. *)
Definition ledger_of (self : t) (heap : Heap.t) : ReservationLedger.t :=
  Heap.borrow heap (ConnectionMachine.ledger (machine self)).

(** ** Poison and health ([integrity.rs]) *)

Definition poison {A : Type} (source : ConnectionCoreInvariant.t) : M A := λ '(self, heap),
  (match poisoned self with
   | None => set_poisoned self (Some source)
   | Some _ => self
   end, heap, Err (ConnectionCoreError.Invariant source)).

Definition ensure_healthy : M unit := λ '(self, heap),
  if ReservationLedger.poisoned (ledger_of self heap)
  then poison ConnectionCoreInvariant.ReservationAccounting (self, heap)
  else match poisoned self with
       | Some source => (self, heap, Err (ConnectionCoreError.Poisoned source))
       | None => (self, heap, Ok tt)
       end.

(** The loop of [ownership_merge_violation]: policy records against the
    writer's identities, both in wire order. *)
Fixpoint merge_violation (records : list OperationRecord.t)
    (writes : list (OperationId.t * EffectId.t)) : option ConnectionCoreInvariant.t :=
  match records with
  | [] =>
      match writes with
      | [] => None
      | (operation, effect) :: _ =>
          Some (ConnectionCoreInvariant.UnexpectedWrite operation effect)
      end
  | record :: records =>
      if negb (OperationRecord.write_held record) then merge_violation records writes
      else match writes with
      | [] =>
          Some (ConnectionCoreInvariant.MissingWrite (OperationRecord.id record)
                  (OperationRecord.effect record))
      | (operation, actual) :: writes =>
          if negb (bool_decide (operation = OperationRecord.id record))
          then Some (ConnectionCoreInvariant.UnexpectedWrite operation actual)
          else if negb (bool_decide (actual = OperationRecord.effect record))
          then Some (ConnectionCoreInvariant.WriteIdentityMismatch (OperationRecord.id record)
                       (OperationRecord.effect record) actual)
          else merge_violation records writes
      end
  end.

Definition ownership_merge_violation (self : t) : option ConnectionCoreInvariant.t :=
  merge_violation (OrderedVerified.records (matching self)) (WriteQueue.identities (writes self)).

Definition verify_ownership : M unit := λ '(self, heap),
  let violation :=
    if WriteQueue.accounting_is_valid (writes self)
    then ownership_merge_violation self
    else Some ConnectionCoreInvariant.WriteAccounting in
  match violation with
  | Some source => poison source (self, heap)
  | None => (self, heap, Ok tt)
  end.

Definition verify_ownership_on_hot_path : M unit := λ '(self, heap),
  if debug_assertions then verify_ownership (self, heap) else (self, heap, Ok tt).

Definition begin_recovery_journal : M unit := λ '(self, heap),
  match RecoveryJournal.begin (journal self) (OrderedVerified.records (matching self)) with
  | (journal, true) => (set_journal self journal, heap, Ok tt)
  | (journal, false) =>
      poison ConnectionCoreInvariant.RecoveryJournalCapacity (set_journal self journal, heap)
  end.

Definition begin_operation_recovery_journal (operation : OperationId.t) : M unit :=
  λ '(self, heap),
  match OrderedVerified.get_indexed (matching self) operation with
  | None => (self, heap, Ok tt)
  | Some (wire_index, record) =>
      match RecoveryJournal.begin_operation (journal self) record wire_index with
      | (journal, true) => (set_journal self journal, heap, Ok tt)
      | (journal, false) =>
          poison ConnectionCoreInvariant.RecoveryJournalCapacity (set_journal self journal, heap)
      end
  end.

Definition begin_write_recovery_journal : M unit := λ '(self, heap),
  (set_journal self (RecoveryJournal.begin_write_progress (journal self)), heap, Ok tt).

Definition clear_journal : M unit := λ '(self, heap),
  (set_journal self (RecoveryJournal.clear (journal self)), heap, Ok tt).

(** [self.journal.retain_write(discarded)] and its answer. *)
Definition journal_retain_write (write : DiscardedWrite.t F) : M bool := λ '(self, heap),
  let '(journal, ok) := RecoveryJournal.retain_write (journal self) write in
  (set_journal self journal, heap, Ok ok).

Definition journal_retain_operation (record : OperationRecord.t) (wire_index : nat) : M bool :=
  λ '(self, heap),
  let '(journal, ok) := RecoveryJournal.retain_operation (journal self) record wire_index in
  (set_journal self journal, heap, Ok ok).

(** One [ConnectionEffect::DiscardWrite] of [reconcile]. *)
Definition reconcile_discard (effect : EffectId.t) (epoch : ConnectionEpoch.t)
    (operation : OperationId.t) : M unit := λ '(self, heap),
  let '(writes, discarded) := WriteQueue.discard (writes self) epoch effect in
  let self := set_writes self writes in
  match discarded with
  | Err (WriteProgressError.RetainedAccountingUnderflow _ _) =>
      poison ConnectionCoreInvariant.WriteAccounting (self, heap)
  | Err source => (self, heap, Err (ConnectionCoreError.Write source))
  | Ok None => poison (ConnectionCoreInvariant.MissingWrite operation effect) (self, heap)
  | Ok (Some discarded) =>
      let actual := DiscardedWrite.operation discarded in
      let '(journal, ok) := RecoveryJournal.retain_write (journal self) discarded in
      let self := set_journal self journal in
      if negb (bool_decide (actual = operation)) then
        poison (ConnectionCoreInvariant.DiscardedWriteMismatch operation actual) (self, heap)
      else if negb ok then poison ConnectionCoreInvariant.RecoveryJournalCapacity (self, heap)
      else (self, heap, Ok tt)
  end.

(** The [for effect in transition.into_effects()] loop of [reconcile]. *)
Fixpoint reconcile_loop {R : Type} (effects : list (ConnectionEffect.t R))
    (output : ConnectionTransition.t R) : M (ConnectionTransition.t R) :=
  match effects with
  | [] => ste_ret output
  | ConnectionEffect.DiscardWrite effect epoch operation :: effects =>
      reconcile_discard effect epoch operation ;;! reconcile_loop effects output
  | effect :: effects => reconcile_loop effects (ConnectionTransition.push output effect)
  end.

Definition reconcile {R : Type} (transition : ConnectionTransition.t R)
    : M (ConnectionTransition.t R) :=
  let output := ConnectionTransition.new (ConnectionTransition.disposition transition) in
  let output :=
    match ConnectionTransition.cancel_outcome transition with
    | Some cancelled => ConnectionTransition.cancelled output cancelled
    | None => output
    end in
  reconcile_loop (ConnectionTransition.effects transition) output.

(** [combined] comes back with the absorbed effects. *)
Definition absorb_write_transition (combined transition : ConnectionTransition.t unit)
    (operation : OperationId.t) (effect : EffectId.t) : M (ConnectionTransition.t unit) :=
  if negb (bool_decide (ConnectionTransition.disposition transition = InputDisposition.Applied))
  then poison (ConnectionCoreInvariant.WritePolicyMismatch operation effect
                 (ConnectionTransition.disposition transition))
  else
    let! transition := reconcile transition in
    ste_ret (foldl ConnectionTransition.push combined (ConnectionTransition.effects transition)).

(** ** Admission ([core.rs]) *)

(** [self.ensure_healthy().and_then(|()| self.verify_ownership_on_hot_path())]. *)
Definition check_owner : M unit := ensure_healthy ;;! verify_ownership_on_hot_path.

Definition reserve (now : Moment) (options : OperationOptions.t)
    : STE state ReserveError.t OperationPermit.t := λ s,
  match check_owner s with
  | (s, Err _) => (s, Err ReserveError.OwnerPoisoned)
  | (self, heap, Ok _) =>
      let '(machine, heap, reserved) :=
        ConnectionMachine.reserve (machine self) now options heap in
      (set_machine self machine, heap, reserved)
  end.

(** Consumes the permit: an error gives it back, success drops it disarmed. *)
Definition commit {W : WriteFrame F} (permit : OperationPermit.t) (frame : F)
    : STE state (FrameCommitError.t F) (OperationId.t * ConnectionTransition.t unit) := λ s,
  match check_owner s with
  | (s, Err _) =>
      (s, Err (FrameCommitError.new (FrameCommitFailure.Policy CommitErrorKind.OwnerPoisoned)
                 permit frame))
  | (self, heap, Ok _) =>
      let measure := FrameMeasure.capture frame in
      match ConnectionMachine.commit_failure (machine self) permit
              (FrameMeasure.retained_bytes measure) with
      | Some kind =>
          (self, heap, Err (FrameCommitError.new (FrameCommitFailure.Policy kind) permit frame))
      | None =>
          let '(writes, admitted) :=
            WriteQueue.admit_frame (writes self) (OperationPermit.epoch permit)
              (OperationPermit.operation permit) (OperationPermit.effect permit) measure frame in
          let self := set_writes self writes in
          match admitted with
          | Err error =>
              (self, heap,
               Err (FrameCommitError.new
                      (FrameCommitFailure.Writer (WriteAdmissionError.failure error))
                      permit (WriteAdmissionError.into_frame error)))
          | Ok _ =>
              let '(machine, heap, committed) :=
                ConnectionMachine.commit_permit (machine self) permit
                  (FrameMeasure.retained_bytes measure) heap in
              (set_machine self machine, heap, Ok committed)
          end
      end
  end.

Definition front_write {W : WriteFrame F} (maximum : NonZeroUsize) : M (option WriteSlice.t) :=
  λ '(self, heap),
  match poisoned self with
  | Some invariant => (self, heap, Err (ConnectionCoreError.Poisoned invariant))
  | None =>
      if ReservationLedger.poisoned (ledger_of self heap) then
        let invariant := ConnectionCoreInvariant.ReservationAccounting in
        (set_poisoned self (Some invariant), heap, Err (ConnectionCoreError.Invariant invariant))
      else match WriteQueue.front (writes self) maximum with
      | Ok slice => (self, heap, Ok slice)
      | Err violation =>
          poison (ConnectionCoreInvariant.FrameContractViolation violation) (self, heap)
      end
  end.

(** ** Inputs, replies and progress ([progress.rs]) *)

Definition prepare_input_journal (input : ConnectionInput.t) : M unit := λ '(self, heap),
  let machine := machine self in
  let ignored := (self, heap, Ok tt) in
  match input with
  | ConnectionInput.CloseRequested e _ | ConnectionInput.ReplyMalformed e =>
      if bool_decide (e = ConnectionMachine.epoch machine)
         && bool_decide (ConnectionMachine.phase machine = ConnectionPhase.Live)
      then begin_recovery_journal (self, heap)
      else ignored
  | ConnectionInput.Cancel e operation =>
      if bool_decide (e = ConnectionMachine.epoch machine)
         && match OrderedVerified.get (ConnectionMachine.matching machine) operation with
            | Some record =>
                negb (bool_decide (OperationRecord.phase record = OperationPhase.Terminal))
            | None => false
            end
      then begin_operation_recovery_journal operation (self, heap)
      else ignored
  | ConnectionInput.DeadlineElapsed e operation now =>
      if bool_decide (e = ConnectionMachine.epoch machine) then
        match OrderedVerified.get (ConnectionMachine.matching machine) operation with
        | None => ignored
        | Some record =>
            if negb (is_elapsed_at (OperationRecord.deadline record) now) then ignored
            else if bool_decide (OperationRecord.delivery record = Delivery.PossiblySent)
            then begin_recovery_journal (self, heap)
            else begin_operation_recovery_journal operation (self, heap)
        end
      else ignored
  | _ => ignored
  end.

Definition prepare_reply_journal {R : Type} (reply : InboundReply.t R) : M unit :=
  λ '(self, heap),
  let machine := machine self in
  if negb (bool_decide (InboundReply.epoch reply = ConnectionMachine.epoch machine))
     || negb (bool_decide (ConnectionMachine.phase machine = ConnectionPhase.Live))
  then (self, heap, Ok tt)
  else match OrderedVerified.front (ConnectionMachine.matching machine) with
  | None => begin_recovery_journal (self, heap)
  | Some front =>
      let valid_phase := ConnectionMachine.front_awaits_reply front in
      let expected := Reservation.match_key (OperationRecord.reservation front) in
      if negb valid_phase || negb (bool_decide (InboundReply.key reply = expected))
      then begin_recovery_journal (self, heap)
      else begin_operation_recovery_journal (OperationRecord.id front) (self, heap)
  end.

(** [self.machine.f(..)] for a machine method that returns a transition. *)
Definition machine_step {R : Type}
    (f : ConnectionMachine.t → Heap.t →
         ConnectionMachine.t * ConnectionTransition.t R * Heap.t)
    : M (ConnectionTransition.t R) := λ '(self, heap),
  let '(machine, transition, heap) := f (machine self) heap in
  (set_machine self machine, heap, Ok transition).

Definition apply (input : ConnectionInput.t) : M (ConnectionTransition.t unit) :=
  ensure_healthy ;;!
  verify_ownership_on_hot_path ;;!
  prepare_input_journal input ;;!
  let! transition :=
    machine_step (λ machine heap, ConnectionMachine.apply machine input heap) in
  let! transition := reconcile transition in
  ensure_healthy ;;!
  clear_journal ;;!
  ste_ret transition.

Definition apply_reply {R : Type} (reply : InboundReply.t R) : M (ConnectionTransition.t R) :=
  ensure_healthy ;;!
  verify_ownership_on_hot_path ;;!
  prepare_reply_journal reply ;;!
  let! transition :=
    machine_step (λ machine heap, ConnectionMachine.apply_reply machine reply heap) in
  let! transition := reconcile transition in
  ensure_healthy ;;!
  clear_journal ;;!
  ste_ret transition.

(** [self.writes.advance(..)] and how [advance_write] classifies its errors. *)
Definition advance_queue (epoch : ConnectionEpoch.t) (effect : EffectId.t) (written : Z)
    : M (WriteProgress.t F) := λ '(self, heap),
  let '(writes, progress) := WriteQueue.advance (writes self) epoch effect written in
  let self := set_writes self writes in
  match progress with
  | Ok progress => (self, heap, Ok progress)
  | Err (WriteProgressError.RetainedAccountingUnderflow _ _)
  | Err (WriteProgressError.ProgressAccountingOverflow _ _) =>
      poison ConnectionCoreInvariant.WriteAccounting (self, heap)
  | Err (WriteProgressError.ExceedsRemaining written remaining) =>
      poison (ConnectionCoreInvariant.WriteProgressContract written remaining) (self, heap)
  | Err source =>
      (set_journal self (RecoveryJournal.clear (journal self)), heap,
       Err (ConnectionCoreError.Write source))
  end.

(** What [advance_write] keeps of a completed frame and of its record. *)
Definition retain_completed (operation : OperationId.t) (effect : EffectId.t) (frame : F)
    (measure : FrameMeasure.t) (delivery : Delivery.t) : M unit :=
  let written := FrameMeasure.wire_bytes measure in
  let! retained :=
    journal_retain_write (DiscardedWrite.mk operation effect frame measure written delivery) in
  if negb retained then poison ConnectionCoreInvariant.RecoveryJournalCapacity
  else λ '(self, heap),
    match OrderedVerified.get_indexed (matching self) operation with
    | None => poison (ConnectionCoreInvariant.UnexpectedWrite operation effect) (self, heap)
    | Some (wire_index, record) =>
        (let! retained := journal_retain_operation record wire_index in
         if negb retained then poison ConnectionCoreInvariant.RecoveryJournalCapacity
         else ste_ret tt) (self, heap)
    end.

Definition advance_write (epoch : ConnectionEpoch.t) (effect : EffectId.t) (written : Z)
    : M (ConnectionTransition.t unit) :=
  ensure_healthy ;;!
  begin_write_recovery_journal ;;!
  let! progress := advance_queue epoch effect written in
  let! (operation, boundary, complete) :=
    match progress with
    | WriteProgress.Pending operation boundary => ste_ret (operation, boundary, false)
    | WriteProgress.Complete operation effect frame measure boundary delivery =>
        retain_completed operation effect frame measure delivery ;;!
        ste_ret (operation, boundary, true)
    end in
  let combined := ConnectionTransition.new InputDisposition.Applied in
  let! combined :=
    if bool_decide (boundary = WriteBoundary.Crossed) then
      let! transition :=
        machine_step (λ machine heap,
          ConnectionMachine.write_started machine epoch operation effect heap) in
      absorb_write_transition combined transition operation effect
    else ste_ret combined in
  let! combined :=
    if complete : bool then
      let! transition :=
        machine_step (λ machine heap,
          ConnectionMachine.write_completed machine epoch operation effect heap) in
      absorb_write_transition combined transition operation effect
    else ste_ret combined in
  ensure_healthy ;;!
  clear_journal ;;!
  ste_ret combined.

End connection_core.
#[global] Arguments t {Cal BB} F.
#[global] Arguments state {Cal BB} F.
End ConnectionCore.
