(* ===== verification/Recovery.v ===== *)
(** * Recovery

    [connection/recovery.rs] and [connection/recovery_item.rs] of
    [bornera-core]: the extraction of every nonterminal operation, with the
    frame it still owns, from a core that can no longer be driven. The vectors
    the Rust functions share by reference are the fields of [Recovering.t]. *)
From Stdlib Require Import ZArith Lia.
From stdpp Require Import prelude.
From S2P Require Import Prelude External Identity Limits Admission KeySet Ledger Permit Operation.
From S2P Require Import Matching Write Machine Journal Core.

Module RecoveredOperation.

(** One nonterminal accepted operation recovered from a failed owner. *)
Record t (F : Type) : Type := mk {
  operation : OperationId.t;
  delivery : Delivery.t;
  frame : option F;
}.
#[global] Arguments mk {F}.
#[global] Arguments operation {F}.
#[global] Arguments delivery {F}.
#[global] Arguments frame {F}.

End RecoveredOperation.

Module ConnectionRecovery.
Section connection_recovery.
Context {Cal : Calandria}.

(** Bounded recovery contents for one fixed connection epoch. *)
Record t (F : Type) : Type := mk {
  epoch : ConnectionEpoch.t;
  operations : list (RecoveredOperation.t F);
  unmatched_writes : list (DiscardedWrite.t F);
  ownership_diverged : bool;
}.
#[global] Arguments mk {F}.
#[global] Arguments epoch {F}.
#[global] Arguments operations {F}.
#[global] Arguments unmatched_writes {F}.
#[global] Arguments ownership_diverged {F}.

End connection_recovery.
End ConnectionRecovery.

Module Recovering.
Section recovering.
Context {Cal : Calandria} {F : Type}.

(** The vectors and the flag the recovery functions mutate, and the heap. *)
Record t : Type := mk {
  journal : list (option JournalOperation.t);
  current_records : list (option OperationRecord.t);
  writes : list (DiscardedWrite.t F);
  operations : list (RecoveredOperation.t F);
  ownership_diverged : bool;
  heap : Heap.t;
}.

Definition set_journal (self : t) (j : list (option JournalOperation.t)) : t :=
  mk j (current_records self) (writes self) (operations self) (ownership_diverged self)
    (heap self).
Definition set_current (self : t) (c : list (option OperationRecord.t)) : t :=
  mk (journal self) c (writes self) (operations self) (ownership_diverged self) (heap self).
Definition set_writes (self : t) (w : list (DiscardedWrite.t F)) : t :=
  mk (journal self) (current_records self) w (operations self) (ownership_diverged self)
    (heap self).
Definition push_operation (self : t) (o : RecoveredOperation.t F) : t :=
  mk (journal self) (current_records self) (writes self) (operations self ++ [o])
    (ownership_diverged self) (heap self).
(** [if condition { *ownership_diverged = true; }]. *)
Definition diverge_if (self : t) (condition : bool) : t :=
  mk (journal self) (current_records self) (writes self) (operations self)
    (ownership_diverged self || condition) (heap self).
Definition set_heap (self : t) (h : Heap.t) : t :=
  mk (journal self) (current_records self) (writes self) (operations self)
    (ownership_diverged self) h.

(** ** One item ([recovery_item.rs]) *)

Definition weaken (policy writer : Delivery.t) : Delivery.t :=
  match policy, writer with
  | Delivery.PossiblySent, _ | _, Delivery.PossiblySent => Delivery.PossiblySent
  | _, _ => Delivery.NotSent
  end.

Definition take_write (writes : list (DiscardedWrite.t F)) (operation : OperationId.t)
    (effect : EffectId.t) : list (DiscardedWrite.t F) * option (DiscardedWrite.t F) :=
  match position (λ write, bool_decide (DiscardedWrite.operation write = operation)
                           && bool_decide (DiscardedWrite.effect write = effect)) writes with
  | None => (writes, None)
  | Some index =>
      match remove_at index writes with
      | None => (writes, None)
      | Some (write, writes) => (writes, Some write)
      end
  end.

(** [write.map_or((delivery, None), |write| ..)]. *)
Definition recovered (operation : OperationId.t) (delivery : Delivery.t)
    (write : option (DiscardedWrite.t F)) : RecoveredOperation.t F :=
  match write with
  | None => RecoveredOperation.mk operation delivery None
  | Some write =>
      RecoveredOperation.mk operation (weaken delivery (DiscardedWrite.delivery write))
        (Some (DiscardedWrite.frame write))
  end.

Definition recover_journal_operation (record : JournalOperation.t) (self : t) : t :=
  if bool_decide (JournalOperation.phase record = OperationPhase.Terminal) then self
  else
    let '(writes, write) :=
      take_write (writes self) (JournalOperation.operation record)
        (JournalOperation.effect record) in
    let self := set_writes self writes in
    let self :=
      diverge_if self
        (negb (eqb (JournalOperation.write_held record) (bool_decide (is_Some write)))) in
    push_operation self
      (recovered (JournalOperation.operation record) (JournalOperation.delivery record) write).

Definition recover_current_operation (ledger : LedgerRef) (record : OperationRecord.t)
    (self : t) : t :=
  let '(writes, write) :=
    take_write (writes self) (OperationRecord.id record) (OperationRecord.effect record) in
  let self := set_writes self writes in
  let self :=
    diverge_if self
      (negb (eqb (OperationRecord.write_held record) (bool_decide (is_Some write)))) in
  let self :=
    if negb (bool_decide (OperationRecord.phase record = OperationPhase.Terminal))
    then push_operation self
           (recovered (OperationRecord.id record) (OperationRecord.delivery record) write)
    else self in
  set_heap self
    (Heap.borrow_mut (heap self) ledger
       (λ l, ReservationLedger.release_operation l (OperationRecord.reservation record)
               (OperationRecord.write_held record))).

(** ** Wire order ([recovery.rs]) *)

(** [slots.iter_mut().find(|slot| slot.as_ref().is_some_and(f)).and_then(Option::take)]. *)
Definition find_take {A : Type} (f : A → bool) (slots : list (option A))
    : list (option A) * option A :=
  match position (λ slot, match slot with Some x => f x | None => false end) slots with
  | None => (slots, None)
  | Some index => (<[index := None]> slots, mjoin (slots !! index))
  end.

(** The body of the inner [while let], for a journal record that was taken. *)
Definition recover_journaled (ledger : LedgerRef) (journal_record : JournalOperation.t)
    (self : t) : t :=
  let '(current_records, current) :=
    find_take (λ record, bool_decide
                 (OperationRecord.id record = JournalOperation.operation journal_record))
      (current_records self) in
  let self := set_current self current_records in
  match current with
  | Some current =>
      let self :=
        diverge_if self
          (negb (bool_decide (OperationRecord.effect current =
                              JournalOperation.effect journal_record))) in
      recover_current_operation ledger current self
  | None => recover_journal_operation journal_record self
  end.

(** The inner [while let]: the journal records of one wire index. Each round
    takes one record, so the number of slots is enough fuel. *)
Fixpoint journal_loop (fuel : nat) (ledger : LedgerRef) (wire_index : nat)
    (recovered_journal : bool) (self : t) : bool * t :=
  match fuel with
  | O => (recovered_journal, self)
  | S fuel =>
      let '(journal, journal_record) :=
        find_take (λ record, (JournalOperation.wire_index record =? wire_index)%nat)
          (journal self) in
      match journal_record with
      | None => (recovered_journal, self)
      | Some journal_record =>
          let self := diverge_if self recovered_journal in
          let self := recover_journaled ledger journal_record (set_journal self journal) in
          journal_loop fuel ledger wire_index true self
      end
  end.

(** One iteration of [for wire_index in 0..original_len]. *)
Definition recover_index (ledger : LedgerRef) (journal_ids : list OperationId.t)
    (wire_index : nat) (self : t) : t :=
  let '(recovered_journal, self) :=
    journal_loop (length (journal self)) ledger wire_index false self in
  if recovered_journal : bool then self
  else
    let '(current_records, current) :=
      find_take (λ record, negb (bool_decide (OperationRecord.id record ∈ journal_ids)))
        (current_records self) in
    let self := set_current self current_records in
    match current with
    | None => diverge_if self true
    | Some current => recover_current_operation ledger current self
    end.

Fixpoint index_loop (ledger : LedgerRef) (journal_ids : list OperationId.t)
    (indices : list nat) (self : t) : t :=
  match indices with
  | [] => self
  | wire_index :: indices =>
      index_loop ledger journal_ids indices (recover_index ledger journal_ids wire_index self)
  end.

(** The two loops after it, over what is left. *)
Fixpoint leftover_current (ledger : LedgerRef) (records : list OperationRecord.t) (self : t)
    : t :=
  match records with
  | [] => self
  | current :: records =>
      leftover_current ledger records
        (recover_current_operation ledger current (diverge_if self true))
  end.

Fixpoint leftover_journal (records : list JournalOperation.t) (self : t) : t :=
  match records with
  | [] => self
  | journal_record :: records =>
      leftover_journal records (recover_journal_operation journal_record (diverge_if self true))
  end.

Definition recover_in_wire_order (ledger : LedgerRef)
    (journal_operations : list JournalOperation.t) (self : t) : t :=
  let journal_ids := JournalOperation.operation <$> journal_operations in
  let owned (journal : JournalOperation.t) :=
    existsb (λ current, match current with
                        | Some current =>
                            bool_decide (OperationRecord.id current =
                                         JournalOperation.operation journal)
                        | None => false
                        end) (current_records self) in
  let missing := length (List.filter (λ journal, negb (owned journal)) journal_operations) in
  let original_len := (length (current_records self) + missing)%nat in
  let self :=
    diverge_if self
      (existsb (λ record, (original_len <=? JournalOperation.wire_index record)%nat)
         journal_operations) in
  let self := set_journal self (Some <$> journal_operations) in
  let self := index_loop ledger journal_ids (seq 0 original_len) self in
  let self :=
    leftover_current ledger (omap id (current_records self))
      (set_current self ((λ _, None) <$> current_records self)) in
  leftover_journal (omap id (journal self)) (set_journal self []).

End recovering.
#[global] Arguments t {Cal} F.
End Recovering.

Module CoreRecovery.
Section core_recovery.
Context {Cal : Calandria} {BB : ByteBudgetLib} {F : Type}.

(** [ConnectionCore::recover]. *)
Definition recover (s : ConnectionCore.state F)
    : ConnectionCore.state F * ConnectionRecovery.t F :=
  let '(self, heap) := s in
  let machine := ConnectionCore.machine self in
  let epoch := ConnectionMachine.epoch machine in
  let journal_armed := RecoveryJournal.armed (ConnectionCore.journal self) in
  let '(queue, discarded) := WriteQueue.discard_all (ConnectionCore.writes self) in
  let '(journal, journal_writes) := RecoveryJournal.take_writes (ConnectionCore.journal self) in
  let writes := DiscardedWrites.writes discarded ++ journal_writes in
  let '(journal, journal_operations) := RecoveryJournal.take_operations journal in
  let matching := ConnectionMachine.matching machine in
  let current_records := Some <$> OrderedVerified.pending matching in
  let machine :=
    ConnectionMachine.set_matching machine (OrderedVerified.set_pending matching []) in
  let ownership_diverged :=
    journal_armed || negb match journal_operations with [] => true | _ => false end in
  let recovering :=
    Recovering.recover_in_wire_order (ConnectionMachine.ledger machine) journal_operations
      (Recovering.mk [] current_records writes [] ownership_diverged heap) in
  let recovering :=
    Recovering.diverge_if recovering
      (negb match Recovering.writes recovering with [] => true | _ => false end) in
  let heap := Recovering.heap recovering in
  let recovering :=
    Recovering.diverge_if recovering
      (ReservationLedger.poisoned (Heap.borrow heap (ConnectionMachine.ledger machine))) in
  let poisoned :=
    match ConnectionCore.poisoned self with
    | None => Some ConnectionCoreInvariant.Recovered
    | Some invariant => Some invariant
    end in
  (ConnectionCore.mk machine queue journal poisoned, heap,
   ConnectionRecovery.mk epoch (Recovering.operations recovering) (Recovering.writes recovering)
     (Recovering.ownership_diverged recovering)).

End core_recovery.
End CoreRecovery.
