(* ===== verification/Ownership.v ===== *)
(** * Ownership of accepted operations

    The abstract view of a connection core. [Owned.t] is one accepted
    operation with the frame it still owns; [Policy.policy] says that a
    machine and its ledger stand for a list of owned operations and a list of
    outstanding permits; [change] is the small set of rules by which a
    transition may turn one list of owned operations into another while it
    asks for effects. The rules, and not the code, are what the theorems of
    [System] on whole runs are derived from. *)
From Stdlib Require Import ZArith Lia.
From stdpp Require Import prelude.
From S2P Require Import Prelude External Identity Limits Admission KeySet Ledger Permit Operation.
From S2P Require Import Matching Write Machine.

Module Owned.
Section owned.
Context {Cal : Calandria} {F : Type}.

(** An accepted operation and the frame that waits for the transport. *)
Record t : Type := mk {
  record : OperationRecord.t;
  frame : option (QueuedWrite.t F);
}.

Definition id (self : t) : OperationId.t := OperationRecord.id (record self).
Definition effect (self : t) : EffectId.t := OperationRecord.effect (record self).
Definition delivery (self : t) : Delivery.t := OperationRecord.delivery (record self).
Definition phase (self : t) : OperationPhase.t := OperationRecord.phase (record self).
Definition completion (self : t) : CompletionMode.t := OperationRecord.completion (record self).
Definition terminal (self : t) : bool := OperationRecord.is_terminal (record self).

(** The share of the ledger it holds. *)
Definition holding (self : t) : ReservationLedger.holding :=
  ReservationLedger.hold (OperationRecord.reservation (record self))
    (OperationRecord.write_held (record self)) false.

(** The record agrees with the frame: it holds a write exactly while the frame
    is queued, delivery is certain exactly until a byte of it progressed, and
    its ledger share is the frame's committed memory. *)
Definition agrees (self : t) : Prop :=
  match frame self with
  | Some f =>
      OperationRecord.write_held (record self) = true ∧
      QueuedWrite.operation f = id self ∧ QueuedWrite.effect f = effect self ∧
      FrameMeasure.retained_bytes (QueuedWrite.measure f) =
        Reservation.write_retained_bytes (OperationRecord.reservation (record self)) ∧
      (phase self = OperationPhase.Queued ∧ delivery self = Delivery.NotSent ∧
         QueuedWrite.started f = false ∨
       (phase self = OperationPhase.Writing ∨ phase self = OperationPhase.Terminal) ∧
         delivery self = Delivery.PossiblySent ∧ QueuedWrite.started f = true)
  | None =>
      OperationRecord.write_held (record self) = false ∧
      completion self = CompletionMode.ReplyExpected ∧
      (phase self = OperationPhase.AwaitingReply ∨
       phase self = OperationPhase.Terminal ∧ delivery self = Delivery.PossiblySent)
  end.

(** Operations whose frame was written come before those still writing. *)
Definition wire_order (entries : list t) : Prop :=
  ∃ written queued, entries = written ++ queued ∧
    Forall (λ o, frame o = None) written ∧ Forall (λ o, is_Some (frame o)) queued.

(** Operations that still owe an outcome. *)
Definition live (entries : list t) : list OperationId.t :=
  id <$> filter (λ o, terminal o = false) entries.

End owned.
#[global] Arguments t {Cal} F.
End Owned.

Module Policy.
Section policy.
Context {Cal : Calandria} {F : Type}.
Implicit Types (entries : list (Owned.t F)) (x : Owned.t F).
Implicit Types (permits : list OperationPermit.t) (m : ConnectionMachine.t) (heap : Heap.t).

Definition permit_holding (p : OperationPermit.t) : ReservationLedger.holding :=
  ReservationLedger.hold (OperationPermit.reservation p) true true.

Definition holdings entries permits : list ReservationLedger.holding :=
  (Owned.holding <$> entries) ++ (permit_holding <$> permits).

Definition op_ids entries permits : list OperationId.t :=
  (Owned.id <$> entries) ++ (OperationPermit.operation <$> permits).
Definition eff_ids entries permits : list EffectId.t :=
  (Owned.effect <$> entries) ++ (OperationPermit.effect <$> permits).

(** The identities in use are distinct and were handed out by the generator. *)
Record identities_ok (g : IdentityGenerator.t) (ops : list OperationId.t)
    (effs : list EffectId.t) : Prop := mk_identities {
  ids_ops : NoDup ops;
  ids_effs : NoDup effs;
  ids_ops_used :
    Forall (λ o, IdentityGenerator.used (IdentityGenerator.operation g) (OperationId.get o)) ops;
  ids_effs_used :
    Forall (λ e, IdentityGenerator.used (IdentityGenerator.effect g) (EffectId.get e)) effs;
  ids_op_range : ∀ n, IdentityGenerator.operation g = Some n → in_u64 n;
  ids_eff_range : ∀ n, IdentityGenerator.effect g = Some n → in_u64 n;
}.

(** A permit this machine issued and nobody consumed yet. *)
Definition issued m (p : OperationPermit.t) : Prop :=
  OperationPermit.ledger p = ConnectionMachine.ledger m ∧
  OperationPermit.epoch p = ConnectionMachine.epoch m ∧ OperationPermit.active p = true.

(** A live epoch has an open-ended gate and no close reason; a closed one has
    released every operation. *)
Definition lifecycle m entries : Prop :=
  (ConnectionMachine.phase m = ConnectionPhase.Live ∧
   ConnectionMachine.gate m ≠ AdmissionGate.Closed ∧ ConnectionMachine.close_reason m = None) ∨
  (ConnectionMachine.phase m ≠ ConnectionPhase.Live ∧
   ConnectionMachine.gate m = AdmissionGate.Closed ∧
   is_Some (ConnectionMachine.close_reason m) ∧ entries = []).

(** A drain that is not finished has something to wait for. *)
Definition busy m entries : Prop :=
  ConnectionMachine.phase m = ConnectionPhase.Live →
  ConnectionMachine.gate m = AdmissionGate.Draining → entries ≠ [].

(** The machine and its ledger stand for these operations and permits. *)
Record policy (limits : ConnectionLimits.t) entries permits m heap : Prop := mk_policy {
  pol_records : OrderedVerified.pending (ConnectionMachine.matching m) =
    Owned.record <$> entries;
  pol_accounts : ReservationLedger.accounts (Heap.borrow heap (ConnectionMachine.ledger m))
    (holdings entries permits);
  pol_limits :
    ReservationLedger.limits (Heap.borrow heap (ConnectionMachine.ledger m)) = limits;
  pol_permits : Forall (issued m) permits;
  pol_ids : identities_ok (ConnectionMachine.identities m) (op_ids entries permits)
    (eff_ids entries permits);
  pol_life : lifecycle m entries;
}.

(** ** Splitting a list of operations *)

Lemma holdings_split l1 x l2 permits :
  holdings (l1 ++ x :: l2) permits ≡ₚ Owned.holding x :: holdings (l1 ++ l2) permits.
Proof. unfold holdings. rewrite !fmap_app, fmap_cons. solve_Permutation. Qed.

Lemma op_ids_split l1 x l2 permits :
  op_ids (l1 ++ x :: l2) permits ≡ₚ Owned.id x :: op_ids (l1 ++ l2) permits.
Proof. unfold op_ids. rewrite !fmap_app, fmap_cons. solve_Permutation. Qed.

Lemma eff_ids_split l1 x l2 permits :
  eff_ids (l1 ++ x :: l2) permits ≡ₚ Owned.effect x :: eff_ids (l1 ++ l2) permits.
Proof. unfold eff_ids. rewrite !fmap_app, fmap_cons. solve_Permutation. Qed.

#[global] Instance identities_ok_perm g : Proper ((≡ₚ) ==> (≡ₚ) ==> iff) (identities_ok g).
Proof.
  assert (∀ o o' e e', o ≡ₚ o' → e ≡ₚ e' → identities_ok g o e → identities_ok g o' e') as Himp.
  { intros o o' e e' Ho He []. split; rewrite <- ?Ho, <- ?He; done. }
  intros o o' Ho e e' He. split; apply Himp; done || by symmetry.
Qed.

Lemma identities_ok_cons g o e ops effs :
  identities_ok g (o :: ops) (e :: effs) → identities_ok g ops effs.
Proof.
  intros []. apply NoDup_cons in ids_ops0 as [_ ?], ids_effs0 as [_ ?].
  apply Forall_cons in ids_ops_used0 as [_ ?], ids_effs_used0 as [_ ?]. by split.
Qed.

(** The identities of a fresh pair are new and join the ones in use. *)
Lemma identities_ok_take g ops effs :
  identities_ok g ops effs → IdentityGenerator.available g = true →
  ∃ g' o e, IdentityGenerator.take g = (g', Some (o, e)) ∧ o ∉ ops ∧ e ∉ effs ∧
    identities_ok g' (o :: ops) (e :: effs).
Proof.
  intros [] (op & eff & Ho & He & Htake)%IdentityGenerator.take_available.
  destruct (IdentityGenerator.used_step op (ids_op_range0 _ Ho)) as (Hn & Hu & Hmono & Hr).
  destruct (IdentityGenerator.used_step eff (ids_eff_range0 _ He)) as (Hn' & Hu' & Hmono' & Hr').
  rewrite Ho in ids_ops_used0. rewrite He in ids_effs_used0.
  assert (OperationId.new op ∉ ops) as Hop.
  { intros Hin. rewrite Forall_forall in ids_ops_used0. by apply (Hn (ids_ops_used0 _ Hin)). }
  assert (EffectId.new eff ∉ effs) as Heff.
  { intros Hin. rewrite Forall_forall in ids_effs_used0. by apply (Hn' (ids_effs_used0 _ Hin)). }
  eexists _, _, _. split; [exact Htake|]. split; [done|]. split; [done|].
  split; simpl; try done; try (by constructor); constructor; try done;
    eapply Forall_impl; eauto; simpl; eauto.
Qed.

(** ** Finding an operation *)

Lemma lookup_entry limits entries permits m heap op r :
  policy limits entries permits m heap →
  OrderedVerified.get (ConnectionMachine.matching m) op = Some r →
  ∃ l1 x l2, entries = l1 ++ x :: l2 ∧ r = Owned.record x ∧ op = Owned.id x ∧
    OrderedVerified.get_indexed (ConnectionMachine.matching m) op = Some (length l1, r) ∧
    (∀ f, OrderedVerified.get_mut (ConnectionMachine.matching m) op f =
       Some (OrderedVerified.set_pending (ConnectionMachine.matching m)
         ((Owned.record <$> l1) ++ f r :: (Owned.record <$> l2)))) ∧
    OrderedVerified.remove (ConnectionMachine.matching m) op =
      Some (r, OrderedVerified.set_pending (ConnectionMachine.matching m)
                 (Owned.record <$> (l1 ++ l2))).
Proof.
  intros [] (r1 & r2 & Hp & Hid & Hn)%OrderedVerified.get_Some.
  rewrite pol_records0 in Hp.
  apply fmap_app_inv in Hp as (l1 & l2' & -> & Hr2 & ->). symmetry in Hr2.
  apply fmap_cons_inv in Hr2 as (x & l2 & -> & -> & ->).
  rewrite fmap_app, fmap_cons in pol_records0. subst op.
  destruct (OrderedVerified.lookup_split _ _ _ _ pol_records0 Hn) as (Hi & _ & Hm & Hrm).
  exists l1, x, l2. rewrite length_fmap in Hi. rewrite fmap_app. by split_and!.
Qed.

Lemma lookup_none limits entries permits m heap op :
  policy limits entries permits m heap →
  OrderedVerified.get (ConnectionMachine.matching m) op = None ↔ op ∉ Owned.id <$> entries.
Proof.
  intros []. rewrite OrderedVerified.get_None. unfold OrderedVerified.ids.
  rewrite pol_records0, <- list_fmap_compose. done.
Qed.

(** An operation that is owned is found. *)
Lemma lookup_known limits l1 x l2 permits m heap :
  policy limits (l1 ++ x :: l2) permits m heap →
  OrderedVerified.get_indexed (ConnectionMachine.matching m) (Owned.id x) =
    Some (length l1, Owned.record x) ∧
  OrderedVerified.get (ConnectionMachine.matching m) (Owned.id x) = Some (Owned.record x) ∧
  (∀ f, OrderedVerified.get_mut (ConnectionMachine.matching m) (Owned.id x) f =
     Some (OrderedVerified.set_pending (ConnectionMachine.matching m)
       ((Owned.record <$> l1) ++ f (Owned.record x) :: (Owned.record <$> l2)))) ∧
  OrderedVerified.remove (ConnectionMachine.matching m) (Owned.id x) =
    Some (Owned.record x, OrderedVerified.set_pending (ConnectionMachine.matching m)
                            (Owned.record <$> (l1 ++ l2))).
Proof.
  intros []. rewrite fmap_app, fmap_cons in pol_records0.
  assert (Owned.id x ∉ OrderedVerified.ids (Owned.record <$> l1)) as Hn.
  { unfold OrderedVerified.ids. rewrite <- list_fmap_compose.
    destruct pol_ids0 as [Hnd _ _ _ _ _]. unfold op_ids in Hnd.
    apply NoDup_app in Hnd as (Hnd & _ & _). rewrite fmap_app in Hnd.
    apply NoDup_app in Hnd as (_ & Hd & _). intros Hin. apply (Hd _ Hin). constructor. }
  destruct (OrderedVerified.lookup_split _ _ _ _ pol_records0 Hn) as (Hi & Hg & Hm & Hrm).
  rewrite length_fmap in Hi. rewrite fmap_app. by split_and!.
Qed.

(** ** Replacing and releasing an operation *)

Lemma policy_replace limits l1 x x' l2 permits m heap heap' :
  policy limits (l1 ++ x :: l2) permits m heap →
  Owned.id x' = Owned.id x → Owned.effect x' = Owned.effect x →
  ReservationLedger.accounts (Heap.borrow heap' (ConnectionMachine.ledger m))
    (holdings (l1 ++ x' :: l2) permits) →
  ReservationLedger.limits (Heap.borrow heap' (ConnectionMachine.ledger m)) = limits →
  policy limits (l1 ++ x' :: l2) permits
    (ConnectionMachine.set_matching m
       (OrderedVerified.set_pending (ConnectionMachine.matching m)
          ((Owned.record <$> l1) ++ Owned.record x' :: (Owned.record <$> l2)))) heap'.
Proof.
  intros [] Hid Heff Hacc Hlim. split; simpl; try done.
  - by rewrite fmap_app, fmap_cons.
  - rewrite op_ids_split, eff_ids_split in *. by rewrite Hid, Heff.
  - destruct pol_life0 as [?|(_ & _ & _ & Hnil)]; [by left|by destruct l1].
Qed.

Section laws.
Context {Laws : CalandriaLaws Cal}.

(** Releasing an operation gives its share of the ledger back. The ledger may
    have released the operation's write before. *)
Lemma policy_release limits l1 x l2 permits m heap heap' (w : bool) :
  policy limits (l1 ++ x :: l2) permits m heap →
  ReservationLedger.accounts (Heap.borrow heap' (ConnectionMachine.ledger m))
    (ReservationLedger.hold (OperationRecord.reservation (Owned.record x)) w false
       :: holdings (l1 ++ l2) permits) →
  ReservationLedger.limits (Heap.borrow heap' (ConnectionMachine.ledger m)) = limits →
  policy limits (l1 ++ l2) permits
    (ConnectionMachine.set_matching m
       (OrderedVerified.set_pending (ConnectionMachine.matching m) (Owned.record <$> (l1 ++ l2))))
    (Heap.borrow_mut heap' (ConnectionMachine.ledger m)
       (λ l, ReservationLedger.release_operation l
               (OperationRecord.reservation (Owned.record x)) w)).
Proof.
  intros [] Hacc0 Hlim0.
  destruct (ReservationLedger.release_all_spec _ _ _ _ _ Hacc0) as [Hacc Hlim].
  rewrite op_ids_split, eff_ids_split in pol_ids0.
  split; simpl; rewrite ?Heap.borrow_mut_eq; try done.
  - by rewrite <- Hlim0.
  - by eapply identities_ok_cons.
  - destruct pol_life0 as [?|(_ & _ & _ & Hnil)]; [by left|by destruct l1].
Qed.

(** The ledger's share of one operation. *)
Lemma policy_held limits l1 x l2 permits m heap :
  policy limits (l1 ++ x :: l2) permits m heap →
  ReservationLedger.accounts (Heap.borrow heap (ConnectionMachine.ledger m))
    (ReservationLedger.hold (OperationRecord.reservation (Owned.record x))
       (OperationRecord.write_held (Owned.record x)) false :: holdings (l1 ++ l2) permits).
Proof. intros []. by rewrite holdings_split in pol_accounts0. Qed.

End laws.


End policy.
End Policy.

Module Change.
Section change.
Context {Cal : Calandria} {F R : Type}.
Implicit Types (entries : list (Owned.t F)) (x : Owned.t F).
Implicit Types (effects : list (ConnectionEffect.t R)).

(** ** What a transition shows its caller *)

Definition is_discard (e : ConnectionEffect.t R) : bool :=
  match e with ConnectionEffect.DiscardWrite _ _ _ => true | _ => false end.

(** The effects left when the core has discarded the named frames itself. *)
Definition visible effects : list (ConnectionEffect.t R) :=
  filter (λ e, is_discard e = false) effects.

Definition frames entries : list (QueuedWrite.t F) := omap Owned.frame entries.

(** The delivery an outcome claims; a reply claims none. *)
Definition claims {A : Type} (o : OperationOutcome.t A) : option Delivery.t :=
  match o with
  | OperationOutcome.Reply _ => None
  | OperationOutcome.WriteComplete d | OperationOutcome.Failed _ d
  | OperationOutcome.Cancelled d => Some d
  end.

(** The outcomes an operation may be given: a reply only once its frame is
    written and a reply is expected, completion on write only when that is
    what it asked for, and always with its own delivery certainty. *)
Definition outcome_ok x (o : OperationOutcome.t R) : Prop :=
  match o with
  | OperationOutcome.Reply _ =>
      Owned.frame x = None ∧ Owned.completion x = CompletionMode.ReplyExpected
  | OperationOutcome.WriteComplete d =>
      Owned.completion x = CompletionMode.WriteComplete ∧ d = Owned.delivery x
  | OperationOutcome.Failed _ d | OperationOutcome.Cancelled d => d = Owned.delivery x
  end.

(** A release cancels the operation's deadline and publishes its outcome,
    unless the operation already has one. *)
Definition released (epoch : ConnectionEpoch.t) x (o : OperationOutcome.t R)
    : list (ConnectionEffect.t R) :=
  ConnectionEffect.CancelDeadline epoch (Owned.id x) ::
  if Owned.terminal x then [] else [ConnectionEffect.PublishOutcome epoch (Owned.id x) o].

(** What closing does to each operation. *)
Definition closing (epoch : ConnectionEpoch.t) (failure : OperationId.t → OperationFailure.t) x
    : list (ConnectionEffect.t R) :=
  released epoch x
    (OperationOutcome.Failed (failure (Owned.id x)) (Owned.delivery x)).

(** The operation moved on without an outcome: nothing that identifies it
    changed, and delivery only became less certain. *)
Definition advances x x' : Prop :=
  Owned.id x' = Owned.id x ∧ Owned.effect x' = Owned.effect x ∧
  Owned.completion x' = Owned.completion x ∧ Owned.terminal x' = Owned.terminal x ∧
  (Owned.delivery x = Delivery.PossiblySent → Owned.delivery x' = Delivery.PossiblySent).

Inductive change (epoch : ConnectionEpoch.t)
    : list (Owned.t F) → list (ConnectionEffect.t R) → list (Owned.t F) → Prop :=
  | change_none entries : change epoch entries [] entries
  | change_schedule l1 x l2 :
      change epoch (l1 ++ x :: l2)
        [ConnectionEffect.ScheduleDeadline epoch (Owned.id x)
           (OperationRecord.deadline (Owned.record x))]
        (l1 ++ x :: l2)
  | change_advance l1 x x' l2 :
      advances x x' → change epoch (l1 ++ x :: l2) [] (l1 ++ x' :: l2)
  | change_abandon l1 x x' l2 :
      Owned.terminal x = false → Owned.delivery x = Delivery.PossiblySent →
      Owned.terminal x' = true → Owned.id x' = Owned.id x →
      Owned.delivery x' = Owned.delivery x →
      change epoch (l1 ++ x :: l2)
        [ConnectionEffect.PublishOutcome epoch (Owned.id x)
           (OperationOutcome.Cancelled Delivery.PossiblySent)]
        (l1 ++ x' :: l2)
  | change_release l1 x l2 o :
      (Owned.terminal x = false → outcome_ok x o) →
      change epoch (l1 ++ x :: l2) (released epoch x o) (l1 ++ l2)
  | change_close entries reason failure :
      change epoch entries
        (ConnectionEffect.CloseEpoch epoch reason :: concat (closing epoch failure <$> entries)) []
  | change_seq l1 e1 l2 e2 l3 :
      change epoch l1 e1 l2 → change epoch l2 e2 l3 → change epoch l1 (e1 ++ e2) l3.

(** The [DiscardWrite] effects of a transition name, in order, the frames that
    leave the writer. *)
Inductive discarding (epoch : ConnectionEpoch.t)
    : list (ConnectionEffect.t R) → list (QueuedWrite.t F) → list (QueuedWrite.t F) →
      list (QueuedWrite.t F) → Prop :=
  | discarding_nil l : discarding epoch [] l l []
  | discarding_keep e effects l l' ds :
      is_discard e = false → discarding epoch effects l l' ds →
      discarding epoch (e :: effects) l l' ds
  | discarding_drop l1 f l2 effects l' ds :
      discarding epoch effects (l1 ++ l2) l' ds →
      discarding epoch
        (ConnectionEffect.DiscardWrite (QueuedWrite.effect f) epoch (QueuedWrite.operation f)
           :: effects)
        (l1 ++ f :: l2) l' (f :: ds).

Lemma visible_app e1 e2 : visible (e1 ++ e2) = visible e1 ++ visible e2.
Proof. apply filter_app. Qed.

Lemma visible_cons_keep e effects : is_discard e = false → visible (e :: effects) = e :: visible effects.
Proof. intros He. unfold visible. by rewrite filter_cons_True. Qed.

Lemma frames_app l1 l2 : frames (l1 ++ l2) = frames l1 ++ frames l2.
Proof. apply omap_app. Qed.

Lemma discarding_app epoch e1 e2 l l' l'' d1 d2 :
  discarding epoch e1 l l' d1 → discarding epoch e2 l' l'' d2 →
  discarding epoch (e1 ++ e2) l l'' (d1 ++ d2).
Proof. induction 1; simpl; intros; eauto using discarding. Qed.

(** Effects without a discard leave the writer alone. *)
Lemma discarding_visible epoch effects l :
  Forall (λ e, is_discard e = false) effects → discarding epoch effects l l [].
Proof. induction 1; by constructor. Qed.

Lemma visible_id effects :
  Forall (λ e, is_discard e = false) effects → visible effects = effects.
Proof.
  induction 1 as [|e es He _ IH]; [done|]. unfold visible. rewrite filter_cons_True by done.
  unfold visible in IH. by rewrite IH.
Qed.

(** The frames discarded were all queued. *)
Lemma discarding_length epoch effects l l' ds :
  discarding epoch effects l l' ds → (length ds + length l' = length l)%nat.
Proof.
  induction 1 as [| |l1 f l2 es l' ds _ IH]; simpl; try done.
  rewrite length_app in *. simpl. lia.
Qed.

Lemma discarding_perm epoch effects l l' ds :
  discarding epoch effects l l' ds → l ≡ₚ ds ++ l'.
Proof.
  induction 1 as [| |l1 f l2 es l' ds _ IH]; simpl; try done.
  rewrite <- IH. by rewrite Permutation_middle.
Qed.

End change.
End Change.

Module History.
Section history.
Context {Cal : Calandria} {F R : Type}.
Implicit Types (entries : list (Owned.t F)) (x : Owned.t F).
Implicit Types (effects : list (ConnectionEffect.t R)).

Import Change.

(** The outcomes a transition publishes, each with the delivery it claims. *)
Definition published_of effects : list (OperationId.t * option Delivery.t) :=
  omap (λ e, match e with
             | ConnectionEffect.PublishOutcome _ op o => Some (op, claims o)
             | _ => None
             end) effects.

(** The deadlines it cancels. *)
Definition timers_of effects : list OperationId.t :=
  omap (λ e, match e with
             | ConnectionEffect.CancelDeadline _ op => Some op
             | _ => None
             end) effects.

Lemma published_app e1 e2 : published_of (e1 ++ e2) = published_of e1 ++ published_of e2.
Proof. apply omap_app. Qed.

Lemma timers_app e1 e2 : timers_of (e1 ++ e2) = timers_of e1 ++ timers_of e2.
Proof. apply omap_app. Qed.

Lemma live_app l1 l2 : Owned.live (F := F) (l1 ++ l2) = Owned.live l1 ++ Owned.live l2.
Proof. unfold Owned.live. by rewrite filter_app, fmap_app. Qed.

Lemma live_cons x l :
  Owned.live (x :: l) = (if Owned.terminal x then [] else [Owned.id x]) ++ Owned.live l.
Proof.
  unfold Owned.live. rewrite filter_cons. destruct (Owned.terminal x) eqn:Ht.
  - rewrite decide_False; [done|]. congruence.
  - by rewrite decide_True.
Qed.

(** What a release shows. *)
Lemma released_history epoch x (o : OperationOutcome.t R) :
  (published_of (released epoch x o)).*1 = (if Owned.terminal x then [] else [Owned.id x]) ∧
  timers_of (released epoch x o) = [Owned.id x].
Proof. unfold released. by destruct (Owned.terminal x). Qed.

Lemma closing_history epoch failure entries :
  (published_of (concat (closing (R := R) epoch failure <$> entries))).*1 = Owned.live entries ∧
  timers_of (concat (closing (R := R) epoch failure <$> entries)) = Owned.id <$> entries.
Proof.
  induction entries as [|x l [IH1 IH2]]; [done|].
  rewrite !fmap_cons. change (concat (?a :: ?l)) with (a ++ concat l).
  rewrite published_app, timers_app, fmap_app, IH1, IH2.
  destruct (released_history epoch x
    (OperationOutcome.Failed (failure (Owned.id x)) (Owned.delivery x))) as [H1 H2].
  unfold closing. by rewrite H1, H2, live_cons.
Qed.

(** Every operation that stops owing an outcome was given exactly one, and
    every operation that leaves had its deadline cancelled. *)
Lemma change_history epoch entries effects entries' :
  change epoch entries effects entries' →
  Owned.live entries ≡ₚ (published_of effects).*1 ++ Owned.live entries' ∧
  Owned.id <$> entries ≡ₚ timers_of effects ++ (Owned.id <$> entries').
Proof.
  induction 1 as [l|l1 x l2|l1 x x' l2 (Hi & _ & _ & Ht & _)|l1 x x' l2 Ht Hd Ht' Hi _
    |l1 x l2 o Ho|l reason failure|l1 e1 l2 e2 l3 _ [IH1 IH2] _ [IH3 IH4]].
  - done.
  - done.
  - simpl. by rewrite !live_app, !live_cons, !fmap_app, !fmap_cons, Hi, Ht.
  - rewrite !live_app, !live_cons, !fmap_app, !fmap_cons, Ht, Ht', Hi. simpl.
    split; [|done]. by rewrite Permutation_middle.
  - destruct (released_history epoch x o) as [-> ->].
    rewrite !live_app, !live_cons, !fmap_app, fmap_cons. split; [|simpl]; solve_Permutation.
  - simpl. destruct (closing_history epoch failure l) as [H1 H2].
    unfold published_of, timers_of in *. simpl. by rewrite H1, H2, !app_nil_r.
  - rewrite published_app, timers_app, fmap_app.
    rewrite IH1, IH3, IH2, IH4. by rewrite <- !app_assoc.
Qed.

(** Operations that had bytes on the wire are known to be possibly sent. *)
Definition sound (sent : list OperationId.t) entries : Prop :=
  Forall (λ x, Owned.id x ∈ sent → Owned.delivery x = Delivery.PossiblySent) entries.

Lemma released_sound (sent : list OperationId.t) epoch x (o : OperationOutcome.t R) :
  (Owned.id x ∈ sent → Owned.delivery x = Delivery.PossiblySent) →
  (Owned.terminal x = false → outcome_ok x o) →
  ∀ op, (op, Some Delivery.NotSent) ∈ published_of (released epoch x o) →
  op ∉ sent ∧ op ∈ timers_of (released epoch x o).
Proof.
  intros Hs Ho op Hin. destruct (released_history epoch x o) as [_ ->].
  unfold released, published_of in Hin. destruct (Owned.terminal x); simpl in Hin; [set_solver|].
  apply list_elem_of_singleton in Hin. injection Hin as -> Hc. split; [|set_solver].
  intros Hsent. specialize (Hs Hsent). specialize (Ho eq_refl).
  destruct o; simpl in *; try done; destruct_and?; congruence.
Qed.

Lemma closing_sound (sent : list OperationId.t) epoch failure entries :
  sound sent entries →
  ∀ op, (op, Some Delivery.NotSent) ∈
    published_of (concat (closing (R := R) epoch failure <$> entries)) →
  op ∉ sent ∧ op ∈ timers_of (concat (closing (R := R) epoch failure <$> entries)).
Proof.
  induction 1 as [|x l Hx _ IH]; [set_solver|]. rewrite fmap_cons.
  change (concat (?a :: ?l)) with (a ++ concat l). rewrite published_app, timers_app.
  intros op [Hin|Hin]%elem_of_app.
  - destruct (released_sound sent epoch x _ Hx (λ _, eq_refl : outcome_ok x (OperationOutcome.Failed
      (failure (Owned.id x)) (Owned.delivery x))) op Hin). set_solver.
  - destruct (IH op Hin). set_solver.
Qed.

(** A claim that nothing was sent is only made for an operation of which no
    byte was sent, and it is the last thing said of that operation. *)
Lemma change_sound (sent : list OperationId.t) epoch entries effects entries' :
  change epoch entries effects entries' → sound sent entries →
  sound sent entries' ∧
  ∀ op, (op, Some Delivery.NotSent) ∈ published_of effects → op ∉ sent ∧ op ∈ timers_of effects.
Proof.
  unfold sound. induction 1 as [l|l1 x l2|l1 x x' l2 (Hi & _ & _ & Ht & Hd)
    |l1 x x' l2 Ht Hd Ht' Hi Hd'|l1 x l2 o Ho|l reason failure
    |l1 e1 l2 e2 l3 _ IH1 _ IH2]; intros Hs.
  - split; [done|]. intros op. set_solver.
  - split; [done|]. intros op. set_solver.
  - rewrite Forall_app, Forall_cons in Hs |- *. destruct Hs as (? & Hx & ?). rewrite Hi.
    split; [by split_and!; auto|]. set_solver.
  - rewrite Forall_app, Forall_cons in Hs |- *. destruct Hs as (? & Hx & ?). rewrite Hi, Hd'.
    split; [by split_and!|]. intros op. unfold published_of. simpl. set_solver.
  - rewrite Forall_app, Forall_cons in Hs. destruct Hs as (? & Hx & ?).
    split; [by apply Forall_app|]. by apply released_sound.
  - split; [done|]. exact (closing_sound sent epoch failure l Hs).
  - destruct (IH1 Hs) as [Hs2 H1]. destruct (IH2 Hs2) as [Hs3 H2]. split; [done|].
    rewrite published_app, timers_app. intros op [Hin|Hin]%elem_of_app.
    + destruct (H1 op Hin). set_solver.
    + destruct (H2 op Hin). set_solver.
Qed.

End history.
End History.
