(* ===== verification/MachineSpec.v ===== *)
(** * The machine against the ownership view

    What each handler of [ConnectionMachine] does to the operations it owns:
    the resulting [policy], the [change] its visible effects describe, and the
    frames its [DiscardWrite] effects name. *)
From Stdlib Require Import ZArith Lia.
From stdpp Require Import prelude.
From S2P Require Import Prelude External Identity Limits Admission KeySet Ledger Permit Operation.
From S2P Require Import Matching Write Machine Ownership.

Import Policy Change.

Module Step.
Section step.
Context {Cal : Calandria} {F R : Type}.
Implicit Types (entries : list (Owned.t F)) (x : Owned.t F).
Implicit Types (m : ConnectionMachine.t) (heap : Heap.t) (tr : ConnectionTransition.t R).

(** What no handler changes. *)
Definition same_machine m m' : Prop :=
  ConnectionMachine.ledger m' = ConnectionMachine.ledger m ∧
  ConnectionMachine.epoch m' = ConnectionMachine.epoch m ∧
  ConnectionMachine.identities m' = ConnectionMachine.identities m.

(** A handler only writes the ledger of its machine. *)
Definition same_heap m heap heap' : Prop :=
  ∀ l, l ≠ ConnectionMachine.ledger m → Heap.borrow heap' l = Heap.borrow heap l.

(** The transition [tr'] continues [tr] with the effects [es]. *)
Definition extends tr tr' (es : list (ConnectionEffect.t R)) : Prop :=
  ConnectionTransition.disposition tr' = ConnectionTransition.disposition tr ∧
  ConnectionTransition.cancel_outcome tr' = ConnectionTransition.cancel_outcome tr ∧
  ConnectionTransition.effects tr' = ConnectionTransition.effects tr ++ es.

(** From [entries] the machine moved to [entries'], emitting the effects [es]
    and discarding the frames [ds]. *)
Record moved limits permits m entries heap (es : list (ConnectionEffect.t R)) m' entries' heap'
    (ds : list (QueuedWrite.t F)) : Prop := mk_moved {
  mv_policy : policy limits entries' permits m' heap';
  mv_same : same_machine m m';
  mv_heap : same_heap m heap heap';
  mv_change : change (ConnectionMachine.epoch m) entries (visible es) entries';
  mv_discard :
    discarding (ConnectionMachine.epoch m) es (frames entries) (frames entries') ds;
}.

(** A whole handler: [moved], the shape of the entries kept, and a finished
    drain closed. *)
Definition handled limits permits m entries heap
    (res : ConnectionMachine.t * ConnectionTransition.t R * Heap.t) : Prop :=
  let '(m', tr, heap') := res in
  ∃ entries' ds,
    moved limits permits m entries heap (ConnectionTransition.effects tr) m' entries' heap' ds ∧
    Forall Owned.agrees entries' ∧ Owned.wire_order entries' ∧ busy m' entries'.

(** The same for given entries left. *)
Definition handled_to limits permits m entries heap
    (res : ConnectionMachine.t * ConnectionTransition.t R * Heap.t) entries' : Prop :=
  let '(m', tr, heap') := res in
  ∃ ds,
    moved limits permits m entries heap (ConnectionTransition.effects tr) m' entries' heap' ds ∧
    Forall Owned.agrees entries' ∧ Owned.wire_order entries' ∧ busy m' entries'.

Lemma handled_to_handled limits permits m entries heap res entries' :
  handled_to limits permits m entries heap res entries' →
  handled limits permits m entries heap res.
Proof. destruct res as [[m' tr] heap']. intros (ds & H). by exists entries', ds. Qed.

Lemma extends_refl tr : extends tr tr [].
Proof. unfold extends. by rewrite app_nil_r. Qed.

Lemma extends_push tr e : extends tr (ConnectionTransition.push tr e) [e].
Proof. done. Qed.

Lemma extends_trans tr1 tr2 tr3 e1 e2 :
  extends tr1 tr2 e1 → extends tr2 tr3 e2 → extends tr1 tr3 (e1 ++ e2).
Proof. unfold extends. intros (-> & -> & H1) (-> & -> & ->). by rewrite H1, app_assoc. Qed.

Lemma same_machine_refl m : same_machine m m.
Proof. done. Qed.

Lemma same_heap_refl m heap : same_heap m heap heap.
Proof. done. Qed.

Lemma same_heap_borrow_mut m heap f :
  same_heap m heap (Heap.borrow_mut heap (ConnectionMachine.ledger m) f).
Proof. intros l Hl. by apply Heap.borrow_mut_ne. Qed.

Lemma same_heap_trans m m' h1 h2 h3 :
  same_machine m m' → same_heap m h1 h2 → same_heap m' h2 h3 → same_heap m h1 h3.
Proof.
  intros (Hl & _ & _) H1 H2 l Hne. rewrite H2; [by apply H1|]. by rewrite Hl.
Qed.

Lemma moved_none limits permits m entries heap :
  policy limits entries permits m heap →
  moved limits permits m entries heap [] m entries heap [].
Proof. intros Hp. split; [done|apply same_machine_refl|done|constructor|constructor]. Qed.

Lemma moved_trans limits permits m1 l1 h1 e1 m2 l2 h2 d1 e2 m3 l3 h3 d2 :
  moved limits permits m1 l1 h1 e1 m2 l2 h2 d1 →
  moved limits permits m2 l2 h2 e2 m3 l3 h3 d2 →
  moved limits permits m1 l1 h1 (e1 ++ e2) m3 l3 h3 (d1 ++ d2).
Proof.
  intros [P1 S1 H1 C1 D1] [P2 S2 H2 C2 D2]. pose proof S1 as (S1l & S1e & S1i).
  pose proof S2 as (S2l & S2e & S2i). rewrite S1e in C2, D2. split; [done|..].
  - split; [congruence|]. split; congruence.
  - by eapply same_heap_trans.
  - rewrite visible_app. by eapply change_seq.
  - by eapply discarding_app.
Qed.

(** ** Wire order *)

Lemma wire_order_remove l1 (x : Owned.t F) l2 :
  Owned.wire_order (l1 ++ x :: l2) → Owned.wire_order (l1 ++ l2).
Proof.
  intros (written & queued & Heq & Hw & Hq).
  assert (sublist (l1 ++ l2) (written ++ queued)) as Hsub.
  { rewrite <- Heq. apply sublist_app; [done|by constructor]. }
  apply sublist_app_r in Hsub as (w & q & -> & Hsw & Hsq).
  exists w, q. split; [done|]. split; eapply Forall_sublist; eauto.
Qed.

Lemma wire_order_replace l1 (x x' : Owned.t F) l2 :
  Owned.wire_order (l1 ++ x :: l2) → Owned.frame x' = Owned.frame x →
  Owned.wire_order (l1 ++ x' :: l2).
Proof.
  intros (written & queued & Heq & Hw & Hq) Hf.
  apply app_eq_inv in Heq as [(k & -> & ->)|(k & -> & Heq)].
  - exists written, (k ++ x' :: l2). rewrite <- app_assoc. split; [done|]. split; [done|].
    apply Forall_app in Hq as [? Hq]. apply Forall_cons in Hq as [? ?].
    apply Forall_app. split; [done|]. constructor; [by rewrite Hf|done].
  - destruct k as [|y k]; simpl in Heq.
    + subst queued. exists l1, (x' :: l2). rewrite app_nil_r in Hw. split; [done|].
      split; [done|]. apply Forall_cons in Hq as [? ?]. constructor; [by rewrite Hf|done].
    + injection Heq as -> ->. exists (l1 ++ x' :: k), queued. rewrite <- app_assoc.
      split; [done|]. apply Forall_app in Hw as [? Hw]. apply Forall_cons in Hw as [? ?].
      split; [|done]. apply Forall_app. split; [done|]. constructor; [by rewrite Hf|done].
Qed.

End step.
End Step.

Module Closing.
Section closing.
Context {Cal : Calandria} {Laws : CalandriaLaws Cal} {F R : Type}.
Implicit Types (entries : list (Owned.t F)) (x : Owned.t F).
Implicit Types (m : ConnectionMachine.t) (heap : Heap.t) (tr : ConnectionTransition.t R).

Import Step.

(** The failure [close_record] gives each operation. *)
Definition failure_of (reason : CloseReason.t)
    (operation_failure : option (OperationId.t * OperationFailure.t)) (op : OperationId.t)
    : OperationFailure.t :=
  match operation_failure with
  | Some (operation, failure) =>
      if bool_decide (operation = op) then failure else OperationFailure.ConnectionClosed reason
  | None => OperationFailure.ConnectionClosed reason
  end.

(** The effects [close_record] pushes for one operation. *)
Definition record_effects (epoch : ConnectionEpoch.t) (failure : OperationId.t → OperationFailure.t)
    x : list (ConnectionEffect.t R) :=
  ConnectionEffect.CancelDeadline epoch (Owned.id x) ::
  (if OperationRecord.write_held (Owned.record x)
   then [ConnectionEffect.DiscardWrite (Owned.effect x) epoch (Owned.id x)] else []) ++
  (if Owned.terminal x then []
   else [ConnectionEffect.failed epoch (Owned.id x) (failure (Owned.id x)) (Owned.delivery x)]).

Lemma close_record_extends m reason opf x tr :
  extends tr (ConnectionMachine.close_record m reason opf (Owned.record x) tr)
    (record_effects (ConnectionMachine.epoch m) (failure_of reason opf) x).
Proof.
  unfold ConnectionMachine.close_record, record_effects, Owned.terminal,
    OperationRecord.is_terminal.
  destruct (OperationRecord.write_held _);
    destruct (bool_decide (OperationRecord.phase _ = _)); unfold extends; simpl;
    rewrite <- ?app_assoc; split_and!; try done.
Qed.

Lemma record_effects_visible epoch failure x :
  visible (record_effects epoch failure x) = closing epoch failure x.
Proof.
  unfold record_effects, Change.closing, released, visible.
  destruct (OperationRecord.write_held _), (Owned.terminal x); reflexivity.
Qed.

Lemma record_effects_discard epoch failure x entries :
  Owned.agrees x →
  discarding epoch (record_effects epoch failure x) (frames (x :: entries)) (frames entries)
    (option_list (Owned.frame x)).
Proof.
  unfold Owned.agrees, record_effects, frames. destruct (Owned.frame x) as [f|] eqn:Hf.
  - intros (-> & Ho & He & _). simpl. rewrite Hf. simpl. rewrite <- Ho, <- He.
    apply discarding_keep; [done|]. apply (discarding_drop _ []). simpl.
    apply discarding_visible. destruct (Owned.terminal x); by repeat constructor.
  - intros (-> & _). simpl. rewrite Hf. apply discarding_keep; [done|].
    apply discarding_visible. destruct (Owned.terminal x); by repeat constructor.
Qed.

(** All the operations of an epoch. *)
Lemma all_effects_visible epoch failure entries :
  visible (concat (record_effects epoch failure <$> entries)) =
    concat (closing epoch failure <$> entries).
Proof.
  induction entries as [|x l IH]; [done|].
  rewrite !fmap_cons. change (concat (?a :: ?l)) with (a ++ concat l).
  by rewrite visible_app, record_effects_visible, IH.
Qed.

Lemma all_effects_discard epoch failure entries :
  Forall Owned.agrees entries →
  discarding epoch (concat (record_effects epoch failure <$> entries)) (frames entries) []
    (frames entries).
Proof.
  induction 1 as [|x l Hx _ IH]; [constructor|].
  rewrite !fmap_cons. change (concat (?a :: ?l)) with (a ++ concat l).
  assert (frames (x :: l) = option_list (Owned.frame x) ++ frames l) as Hfr.
  { unfold frames. simpl. by destruct (Owned.frame x). }
  pose proof (record_effects_discard epoch failure x l Hx) as H1.
  rewrite Hfr at 2. by eapply discarding_app.
Qed.

Lemma close_loop_spec m reason opf entries permits tr heap :
  ReservationLedger.accounts (Heap.borrow heap (ConnectionMachine.ledger m))
    (holdings entries permits) →
  let '(tr', heap') :=
    ConnectionMachine.close_loop m reason opf (Owned.record <$> entries) tr heap in
  extends tr tr'
    (concat (record_effects (ConnectionMachine.epoch m) (failure_of reason opf) <$> entries)) ∧
  ReservationLedger.accounts (Heap.borrow heap' (ConnectionMachine.ledger m))
    (holdings (F := F) [] permits) ∧
  ReservationLedger.limits (Heap.borrow heap' (ConnectionMachine.ledger m)) =
    ReservationLedger.limits (Heap.borrow heap (ConnectionMachine.ledger m)) ∧
  same_heap m heap heap'.
Proof.
  revert tr heap. induction entries as [|x l IH]; intros tr heap Hacc.
  { split; [apply extends_refl|]. done. }
  rewrite !fmap_cons. change (concat (?a :: ?l)) with (a ++ concat l). simpl.
  destruct (ReservationLedger.release_all_spec _ _ _ _ _ Hacc) as [Hacc' Hlim].
  specialize (IH (ConnectionMachine.close_record m reason opf (Owned.record x) tr)
    (Heap.borrow_mut heap (ConnectionMachine.ledger m) (λ l,
       ReservationLedger.release_operation l (OperationRecord.reservation (Owned.record x))
         (OperationRecord.write_held (Owned.record x))))).
  rewrite Heap.borrow_mut_eq in IH. specialize (IH Hacc').
  destruct (ConnectionMachine.close_loop _ _ _ _ _ _) as [tr' heap'].
  destruct IH as (Hext & Hacc'' & Hlim'' & Hh).
  split; [eapply (extends_trans _ _ _ _ _ (close_record_extends _ _ _ _ _) Hext)|].
  split; [done|]. split; [by rewrite Hlim''|].
  eapply same_heap_trans; [apply same_machine_refl|apply same_heap_borrow_mut|exact Hh].
Qed.

(** Closing a live epoch releases every operation: each deadline cancelled,
    each queued frame discarded, each operation without an outcome failed with
    its own delivery certainty. *)
Lemma close_spec limits entries permits m heap reason opf tr :
  policy limits entries permits m heap → Forall Owned.agrees entries →
  ConnectionMachine.phase m = ConnectionPhase.Live →
  let '(m', tr', heap') :=
    ConnectionMachine.close_with_failure_into m reason opf tr heap in
  let es := ConnectionEffect.CloseEpoch (ConnectionMachine.epoch m) reason ::
    concat (record_effects (ConnectionMachine.epoch m) (failure_of reason opf) <$> entries) in
  extends tr tr' es ∧
  moved limits permits m entries heap es m' [] heap' (frames entries) ∧
  ConnectionMachine.phase m' = ConnectionPhase.Closing ∧
  ConnectionMachine.close_reason m' = Some reason.
Proof.
  intros [] Hag Hlive. unfold ConnectionMachine.close_with_failure_into.
  rewrite Hlive. rewrite bool_decide_eq_true_2 by done. simpl negb. cbv iota.
  set (m1 := ConnectionMachine.set_state _ _ _ _).
  pose proof (close_loop_spec m1 reason opf entries permits
    (ConnectionTransition.push tr (ConnectionEffect.CloseEpoch (ConnectionMachine.epoch m) reason))
    heap pol_accounts0) as Hloop.
  change (OrderedVerified.pending (ConnectionMachine.matching m1)) with
    (OrderedVerified.pending (ConnectionMachine.matching m)). rewrite pol_records0.
  destruct (ConnectionMachine.close_loop _ _ _ _ _ _) as [tr' heap'].
  destruct Hloop as (Hext & Hacc & Hlim & Hh). split.
  { exact (extends_trans _ _ _ _ _ (extends_push _ _) Hext). }
  split; [|done]. split; try done.
  - split; simpl; try done; [by rewrite <- pol_limits0| |].
    + destruct pol_ids0. unfold op_ids, eff_ids in *. simpl in *.
      apply NoDup_app in ids_ops0 as (_ & _ & ?), ids_effs0 as (_ & _ & ?).
      apply Forall_app in ids_ops_used0 as [_ ?], ids_effs_used0 as [_ ?]. by split.
    + right. simpl. by eauto.
  - change (visible (?e :: ?l)) with (visible ([e] ++ l)). rewrite visible_app, all_effects_visible.
    apply change_close.
  - apply discarding_keep; [done|]. by apply all_effects_discard.
Qed.

(** Finishing a drain: nothing happens unless the drain has emptied. *)
Lemma finish_drain_spec limits entries permits m heap tr :
  policy limits entries permits m heap → Forall Owned.agrees entries →
  let '(m', tr', heap') := ConnectionMachine.finish_drain m tr heap in
  ∃ es ds, extends tr tr' es ∧
    moved limits permits m entries heap es m' entries heap' ds ∧ busy m' entries.
Proof.
  intros Hp Hag. unfold ConnectionMachine.finish_drain.
  destruct (bool_decide_reflect (ConnectionMachine.gate m = AdmissionGate.Draining)) as [Hg|Hg];
    [|exists [], []; split_and!; auto using extends_refl, moved_none; by intros _ ?].
  unfold OrderedVerified.is_empty. pose proof (pol_records _ _ _ _ _ Hp) as Hrec. rewrite Hrec.
  destruct entries as [|x l]; simpl;
    [|exists [], []; split_and!; auto using extends_refl, moved_none; by intros _ _].
  destruct (pol_life _ _ _ _ _ Hp) as [(Hlive & _)|(_ & Hc & _)]; [|congruence].
  pose proof (close_spec _ _ _ _ _ CloseReason.Drained None tr Hp Hag Hlive) as Hc.
  unfold ConnectionMachine.close_into.
  destruct (ConnectionMachine.close_with_failure_into _ _ _ _ _) as [[m' tr'] heap'].
  destruct Hc as (Hext & Hmv & Hph & _). eexists _, _. split; [exact Hext|].
  split; [exact Hmv|]. intros Hl. by rewrite Hph in Hl.
Qed.

End closing.
End Closing.

Module Handlers.
Section handlers.
Context {Cal : Calandria} {Laws : CalandriaLaws Cal} {F R : Type}.
Implicit Types (entries : list (Owned.t F)) (x : Owned.t F).
Implicit Types (m : ConnectionMachine.t) (heap : Heap.t) (tr : ConnectionTransition.t R).

Import Step Closing.

(** The machine after the operations it owns became [l]. *)
Definition with_records m (l : list OperationRecord.t) : ConnectionMachine.t :=
  ConnectionMachine.set_matching m
    (OrderedVerified.set_pending (ConnectionMachine.matching m) l).

(** A drain finished at the end of a handler completes what it did. *)
Lemma moved_drain limits permits m entries heap es m1 entries1 heap1 ds tr :
  moved limits permits m entries heap es m1 entries1 heap1 ds →
  Forall Owned.agrees entries1 → Owned.wire_order entries1 →
  ConnectionTransition.effects tr = es →
  handled_to limits permits m entries heap (ConnectionMachine.finish_drain m1 tr heap1) entries1.
Proof.
  intros Hmv Hag Hwo Heq.
  pose proof (finish_drain_spec _ _ _ _ _ tr (mv_policy _ _ _ _ _ _ _ _ _ _ Hmv) Hag) as Hd.
  destruct (ConnectionMachine.finish_drain m1 tr heap1) as [[m2 tr2] heap2].
  destruct Hd as (es2 & ds2 & (_ & _ & Heff) & Hmv2 & Hbusy).
  exists (ds ++ ds2). rewrite Heff, Heq. split; [by eapply moved_trans|by split].
Qed.

(** Releasing one operation moves the machine as [change_release] says. *)
Lemma moved_release limits l1 x l2 permits m heap heap' w o es ds :
  policy limits (l1 ++ x :: l2) permits m heap →
  ReservationLedger.accounts (Heap.borrow heap' (ConnectionMachine.ledger m))
    (ReservationLedger.hold (OperationRecord.reservation (Owned.record x)) w false
       :: holdings (l1 ++ l2) permits) →
  ReservationLedger.limits (Heap.borrow heap' (ConnectionMachine.ledger m)) = limits →
  same_heap m heap heap' →
  (Owned.terminal x = false → outcome_ok x o) →
  visible es = released (ConnectionMachine.epoch m) x o →
  discarding (ConnectionMachine.epoch m) es (frames (l1 ++ x :: l2)) (frames (l1 ++ l2)) ds →
  moved limits permits m (l1 ++ x :: l2) heap (es : list (ConnectionEffect.t R))
    (with_records m (Owned.record <$> (l1 ++ l2))) (l1 ++ l2)
    (Heap.borrow_mut heap' (ConnectionMachine.ledger m)
       (λ l, ReservationLedger.release_operation l
               (OperationRecord.reservation (Owned.record x)) w)) ds.
Proof.
  intros Hp Hacc Hlim Hsame Ho Hvis Hds. split; try done.
  - by eapply policy_release.
  - eapply same_heap_trans; [apply same_machine_refl|done|apply same_heap_borrow_mut].
  - rewrite Hvis. by apply change_release.
Qed.

(** A handler that refuses its input changes nothing. *)
Lemma handled_ignored limits permits m entries heap (tr : ConnectionTransition.t R) :
  policy limits entries permits m heap → Forall Owned.agrees entries →
  Owned.wire_order entries → busy m entries → ConnectionTransition.effects tr = [] →
  handled limits permits m entries heap (m, tr, heap).
Proof.
  intros Hp Hag Hwo Hb Heq. exists entries, []. rewrite Heq. by split; [apply moved_none|].
Qed.

Lemma agrees_remove l1 x l2 :
  Forall Owned.agrees (l1 ++ x :: l2) → Owned.agrees x ∧ Forall Owned.agrees (l1 ++ l2).
Proof. rewrite !Forall_app, Forall_cons. naive_solver. Qed.

(** The frame of one operation, discarded. *)
Lemma frames_remove l1 x l2 :
  frames (l1 ++ x :: l2) = frames l1 ++ option_list (Owned.frame x) ++ frames l2.
Proof. rewrite frames_app. f_equal. unfold frames. simpl. by destruct (Owned.frame x). Qed.

Lemma discard_own epoch l1 x l2 :
  Owned.agrees x →
  discarding (R := R) epoch
    (if OperationRecord.write_held (Owned.record x)
     then [ConnectionEffect.DiscardWrite (Owned.effect x) epoch (Owned.id x)] else [])
    (frames (l1 ++ x :: l2)) (frames (l1 ++ l2))
    (option_list (Owned.frame x) : list (QueuedWrite.t F))
  ∧ visible (R := R)
    (if OperationRecord.write_held (Owned.record x)
     then [ConnectionEffect.DiscardWrite (Owned.effect x) epoch (Owned.id x)] else []) = [].
Proof.
  unfold Owned.agrees. rewrite frames_remove, frames_app.
  destruct (Owned.frame x) as [f|]; simpl.
  - intros (-> & <- & <- & _). split; [|done]. apply discarding_drop. constructor.
  - intros (-> & _). split; [|done]. constructor.
Qed.

(** Releasing an operation whose frame never began: [cancel] before any byte,
    and an elapsed deadline before any byte. *)
Lemma handled_unsent limits l1 x l2 permits m heap o tr :
  policy limits (l1 ++ x :: l2) permits m heap → Forall Owned.agrees (l1 ++ x :: l2) →
  Owned.wire_order (l1 ++ x :: l2) → Owned.terminal x = false → outcome_ok x o →
  ConnectionTransition.effects tr =
    (if OperationRecord.write_held (Owned.record x)
     then [ConnectionEffect.DiscardWrite (Owned.effect x) (ConnectionMachine.epoch m)
             (Owned.id x)] else []) ++ released (R := R) (ConnectionMachine.epoch m) x o →
  handled limits permits m (l1 ++ x :: l2) heap
    (ConnectionMachine.finish_drain
       (with_records m (Owned.record <$> (l1 ++ l2))) tr
       (Heap.borrow_mut heap (ConnectionMachine.ledger m)
          (λ l, ReservationLedger.release_operation l
                  (OperationRecord.reservation (Owned.record x))
                  (OperationRecord.write_held (Owned.record x))))).
Proof.
  intros Hp Hag Hwo Ht Ho Heq. destruct (agrees_remove _ _ _ Hag) as [Hx Hag'].
  destruct (discard_own (ConnectionMachine.epoch m) l1 x l2 Hx) as [Hd Hv].
  eapply handled_to_handled, moved_drain; [|done|by eapply wire_order_remove|exact Heq].
  eapply moved_release; [exact Hp|exact (policy_held _ _ _ _ _ _ _ Hp)|by destruct Hp|done|done| |].
  - rewrite visible_app, Hv. apply visible_id. unfold released. rewrite Ht. by repeat constructor.
  - eapply (discarding_app _ _ _ _ _ _ _ []); [exact Hd|]. apply discarding_visible.
    unfold released. rewrite Ht. by repeat constructor.
Qed.

(** Closing a live epoch, as a whole handler. *)
Lemma handled_close limits entries permits m heap reason opf tr :
  policy limits entries permits m heap → Forall Owned.agrees entries →
  ConnectionMachine.phase m = ConnectionPhase.Live →
  ConnectionTransition.effects tr = [] →
  handled limits permits m entries heap
    (ConnectionMachine.close_with_failure_into m reason opf (tr : ConnectionTransition.t R) heap).
Proof.
  intros Hp Hag Hlive Heq. pose proof (close_spec _ _ _ _ _ reason opf tr Hp Hag Hlive) as Hc.
  destruct (ConnectionMachine.close_with_failure_into _ _ _ _ _) as [[m' tr'] heap'].
  destruct Hc as ((_ & _ & Heff) & Hmv & Hph & _). rewrite Heq in Heff. simpl in Heff.
  exists [], (frames entries). rewrite Heff. split; [exact Hmv|]. split; [constructor|].
  split; [by exists [], []|]. intros Hl. by rewrite Hph in Hl.
Qed.

End handlers.
End Handlers.

Module Inputs.
Section inputs.
Context {Cal : Calandria} {Laws : CalandriaLaws Cal} {F : Type}.
Implicit Types (entries : list (Owned.t F)) (x : Owned.t F).
Implicit Types (m : ConnectionMachine.t) (heap : Heap.t).

Import Step Closing Handlers.

(** What holds of a machine between two inputs. *)
Record ready limits entries permits m heap : Prop := mk_ready {
  rd_policy : policy limits entries permits m heap;
  rd_agrees : Forall Owned.agrees entries;
  rd_order : Owned.wire_order entries;
  rd_busy : busy m entries;
}.

Lemma ready_ignored {R : Type} limits entries permits m heap (tr : ConnectionTransition.t R) :
  ready limits entries permits m heap → ConnectionTransition.effects tr = [] →
  handled limits permits m entries heap (m, tr, heap).
Proof. intros []. by apply handled_ignored. Qed.

(** Moving the gate of a live epoch. *)
Lemma policy_set_gate limits entries permits m heap g :
  policy limits entries permits m heap → ConnectionMachine.phase m = ConnectionPhase.Live →
  g ≠ AdmissionGate.Closed →
  policy limits entries permits (ConnectionMachine.set_gate m g) heap.
Proof.
  intros [] Hlive Hg. split; try done.
  destruct pol_life0 as [(_ & _ & ?)|(? & _)]; [by left|done].
Qed.

Lemma open_admission_handled limits entries permits m e heap :
  ready limits entries permits m heap →
  handled limits permits m entries heap (ConnectionMachine.open_admission m e heap).
Proof.
  intros Hr. unfold ConnectionMachine.open_admission.
  case_bool_decide; [|by apply ready_ignored]. simpl.
  case_bool_decide as Hl; [|by apply ready_ignored]. simpl.
  case_bool_decide; [|by apply ready_ignored].
  destruct Hr. exists entries, []. split; [|by split_and!].
  split; [by apply policy_set_gate|done|done|constructor|constructor].
Qed.

Lemma begin_drain_handled limits entries permits m e heap :
  ready limits entries permits m heap →
  handled limits permits m entries heap (ConnectionMachine.begin_drain m e heap).
Proof.
  intros Hr. unfold ConnectionMachine.begin_drain.
  case_bool_decide; [|by apply ready_ignored]. simpl.
  case_bool_decide as Hl; [|by apply ready_ignored]. simpl.
  assert (handled limits permits m entries heap
    (ConnectionMachine.finish_drain (ConnectionMachine.set_gate m AdmissionGate.Draining)
       (ConnectionTransition.new (F := unit) InputDisposition.Applied) heap)).
  { destruct Hr. eapply handled_to_handled, moved_drain; [|done|done|done].
    split; [by apply policy_set_gate|done|done|constructor|constructor]. }
  destruct (ConnectionMachine.gate m); try done; by apply ready_ignored.
Qed.

Lemma close_requested_handled limits entries permits m e reason heap :
  ready limits entries permits m heap →
  handled limits permits m entries heap (ConnectionMachine.close_requested m e reason heap).
Proof.
  intros Hr. unfold ConnectionMachine.close_requested.
  case_bool_decide; [|by apply ready_ignored]. simpl.
  case_bool_decide; [|by apply ready_ignored]. simpl.
  destruct Hr. by apply handled_close.
Qed.

Lemma reply_malformed_handled limits entries permits m e heap :
  ready limits entries permits m heap →
  handled limits permits m entries heap (ConnectionMachine.reply_malformed m e heap).
Proof.
  intros Hr. unfold ConnectionMachine.reply_malformed.
  case_bool_decide; [|by apply ready_ignored]. simpl.
  case_bool_decide; [|by apply ready_ignored]. simpl.
  destruct Hr. by apply handled_close.
Qed.

Lemma epoch_closed_handled limits entries permits m e heap :
  ready limits entries permits m heap →
  handled limits permits m entries heap (ConnectionMachine.epoch_closed m e heap).
Proof.
  intros Hr. unfold ConnectionMachine.epoch_closed.
  case_bool_decide; [|by apply ready_ignored]. simpl.
  case_bool_decide as Hc; [|by apply ready_ignored]. simpl.
  destruct Hr as [[] Hag Hwo Hb]. exists entries, []. split; [|by split_and!].
  split; [|done|done|constructor|constructor]. split; try done.
  destruct pol_life0 as [(Hl & _)|(_ & _ & ? & ?)]; [congruence|]. right. by simpl.
Qed.

(** The phase of an owned record, as a test on the record. *)
Lemma terminal_phase x :
  Owned.terminal x =
    bool_decide (OperationRecord.phase (Owned.record x) = OperationPhase.Terminal).
Proof. reflexivity. Qed.

(** An operation with possible bytes on the wire becomes a tombstone. *)
Lemma abandon_handled limits l1 x l2 permits m heap (tr : ConnectionTransition.t unit) :
  ready limits (l1 ++ x :: l2) permits m heap →
  Owned.terminal x = false → Owned.delivery x = Delivery.PossiblySent →
  ConnectionTransition.effects tr =
    [ConnectionEffect.PublishOutcome (ConnectionMachine.epoch m) (Owned.id x)
       (OperationOutcome.Cancelled Delivery.PossiblySent)] →
  handled limits permits m (l1 ++ x :: l2) heap
    (with_records m ((Owned.record <$> l1) ++
       OperationRecord.set_phase (Owned.record x) OperationPhase.Terminal :: (Owned.record <$> l2)),
     tr, heap).
Proof.
  intros [Hp Hag Hwo Hb] Ht Hd Heq.
  set (x' := Owned.mk (OperationRecord.set_phase (Owned.record x) OperationPhase.Terminal)
    (Owned.frame x)).
  exists (l1 ++ x' :: l2), []. rewrite Heq. split.
  - split; try done.
    + apply (policy_replace _ _ x x' _ _ _ heap heap Hp); try done; [|by destruct Hp].
      pose proof (pol_accounts _ _ _ _ _ Hp) as Hacc. rewrite holdings_split in *. exact Hacc.
    + by apply change_abandon.
    + apply discarding_keep; [done|]. rewrite !frames_remove. constructor.
  - split; [|split].
    + apply Forall_app in Hag as [? Hag]. apply Forall_cons in Hag as [Hx ?].
      apply Forall_app. split; [done|]. constructor; [|done].
      unfold Owned.agrees in *. change (Owned.frame x') with (Owned.frame x).
      destruct (Owned.frame x) as [f|].
      * destruct Hx as (? & ? & ? & ? & Hx). split_and!; try done. right.
        split; [by right|]. split; [done|]. destruct Hx as [(_ & Hns & _)|(_ & _ & ?)]; congruence.
      * destruct Hx as (? & ? & _). split_and!; try done. by right.
    + by eapply wire_order_replace.
    + intros _ _. by destruct l1.
Qed.

Lemma cancel_handled limits entries permits m e op heap :
  ready limits entries permits m heap →
  handled limits permits m entries heap (ConnectionMachine.cancel m e op heap).
Proof.
  intros Hr. pose proof Hr as [Hp Hag Hwo Hb]. unfold ConnectionMachine.cancel.
  case_bool_decide; [|by apply ready_ignored]. simpl.
  destruct (OrderedVerified.get _ op) as [r|] eqn:Hget; [|by apply ready_ignored].
  destruct (lookup_entry _ _ _ _ _ _ _ Hp Hget)
    as (l1 & x & l2 & -> & -> & -> & _ & Hmut & Hrem).
  rewrite <- terminal_phase. destruct (Owned.terminal x) eqn:Ht; [by apply ready_ignored|].
  rewrite Hrem, Hmut. case_bool_decide as Hd.
  - apply (handled_unsent (F := F) _ _ _ _ _ _ _
      (OperationOutcome.Cancelled Delivery.NotSent) _ Hp Hag Hwo Ht); [exact (eq_sym Hd)|].
    unfold released. rewrite Ht. by destruct (OperationRecord.write_held _).
  - apply abandon_handled; try done. unfold Owned.delivery.
    by destruct (OperationRecord.delivery _).
Qed.

Lemma deadline_elapsed_handled limits entries permits m e op now heap :
  ready limits entries permits m heap →
  (∀ r, OrderedVerified.get (ConnectionMachine.matching m) op = Some r →
        ConnectionMachine.phase m = ConnectionPhase.Live) →
  handled limits permits m entries heap (ConnectionMachine.deadline_elapsed m e op now heap).
Proof.
  intros Hr Hlive. pose proof Hr as [Hp Hag Hwo Hb]. unfold ConnectionMachine.deadline_elapsed.
  case_bool_decide; [|by apply ready_ignored]. simpl.
  destruct (OrderedVerified.get _ op) as [r|] eqn:Hget; [|by apply ready_ignored].
  specialize (Hlive r eq_refl).
  destruct (lookup_entry _ _ _ _ _ _ _ Hp Hget)
    as (l1 & x & l2 & -> & -> & -> & _ & Hmut & Hrem).
  destruct (is_elapsed_at _ _); simpl.
  2: { exists (l1 ++ x :: l2), []. split; [|done]. split; try done.
       - apply change_schedule.
       - apply discarding_keep; [done|]. constructor. }
  case_bool_decide as Hd; [by apply handled_close|]. rewrite Hrem.
  assert (OperationRecord.delivery (Owned.record x) = Delivery.NotSent) as Hd'
    by (by destruct (OperationRecord.delivery (Owned.record x))).
  assert (Owned.terminal x = false) as Ht.
  { apply agrees_remove in Hag as [Hx _]. unfold Owned.terminal, OperationRecord.is_terminal.
    apply bool_decide_eq_false. intros Hph. unfold Owned.agrees, Owned.phase, Owned.delivery in Hx.
    destruct (Owned.frame x).
    - destruct Hx as (_ & _ & _ & _ & [(Hq & _)|(_ & Hps & _)]); congruence.
    - destruct Hx as (_ & _ & [Hq|(_ & Hps)]); congruence. }
  apply (handled_unsent (F := F) _ _ _ _ _ _ _
    (OperationOutcome.Failed OperationFailure.DeadlineElapsed Delivery.NotSent) _ Hp Hag Hwo Ht);
    [exact (eq_sym Hd')|].
  unfold released. rewrite Ht. by destruct (OperationRecord.write_held _).
Qed.

(** Every input is handled. *)
Lemma apply_handled limits entries permits m input heap :
  ready limits entries permits m heap →
  handled limits permits m entries heap (ConnectionMachine.apply m input heap).
Proof.
  intros Hr. destruct input; simpl.
  - by apply open_admission_handled.
  - by apply cancel_handled.
  - apply deadline_elapsed_handled; [done|]. intros r Hget.
    destruct Hr as [Hp _ _ _].
    destruct (lookup_entry _ _ _ _ _ _ _ Hp Hget) as (l1 & x & l2 & -> & _).
    destruct (pol_life _ _ _ _ _ Hp) as [(? & _)|(_ & _ & _ & ?)]; [done|by destruct l1].
  - by apply reply_malformed_handled.
  - by apply begin_drain_handled.
  - by apply close_requested_handled.
  - by apply epoch_closed_handled.
Qed.

(** A reply completes the oldest operation, or closes the epoch. *)
Lemma apply_reply_handled {R : Type} limits entries permits m (reply : InboundReply.t R) heap :
  ready limits entries permits m heap →
  handled limits permits m entries heap (ConnectionMachine.apply_reply m reply heap).
Proof.
  intros Hr. pose proof Hr as [Hp Hag Hwo Hb]. unfold ConnectionMachine.apply_reply.
  case_bool_decide; [|by apply ready_ignored]. simpl.
  case_bool_decide; [|by apply ready_ignored]. simpl.
  unfold OrderedVerified.front, OrderedVerified.pop_front.
  rewrite (pol_records _ _ _ _ _ Hp).
  destruct entries as [|x l]; simpl; [by apply handled_close|].
  destruct (ConnectionMachine.front_awaits_reply (Owned.record x)) eqn:Hf; simpl;
    [|by apply handled_close].
  case_bool_decide; simpl; [|by apply handled_close].
  unfold ConnectionMachine.front_awaits_reply in Hf. apply andb_true_iff in Hf as [_ Hw].
  apply negb_true_iff in Hw. rewrite <- terminal_phase.
  destruct (agrees_remove [] x l Hag) as [Hx Hag'].
  assert (Owned.frame x = None ∧ Owned.completion x = CompletionMode.ReplyExpected) as [Hfr Hc].
  { unfold Owned.agrees in Hx. destruct (Owned.frame x); [|naive_solver].
    destruct Hx as [Hx _]. congruence. }
  eapply handled_to_handled, moved_drain; [|exact Hag'|exact (wire_order_remove [] x l Hwo)|reflexivity].
  eapply (moved_release limits [] x l permits m heap heap false
    (OperationOutcome.Reply (InboundReply.frame reply))); [exact Hp| |by destruct Hp|done|done| |].
  - pose proof (policy_held _ [] _ _ _ _ _ Hp) as Hacc. by rewrite Hw in Hacc.
  - simpl. unfold released. by destruct (Owned.terminal x).
  - simpl. unfold frames. simpl. rewrite Hfr. apply discarding_visible.
    destruct (Owned.terminal x); by repeat constructor.
Qed.

End inputs.
End Inputs.

Module Permits.
Section permits.
Context {Cal : Calandria} {Laws : CalandriaLaws Cal} {F : Type}.
Implicit Types (entries : list (Owned.t F)) (x : Owned.t F).
Implicit Types (m : ConnectionMachine.t) (heap : Heap.t) (p : OperationPermit.t).

Import Step Inputs.

Lemma holdings_permit entries p permits :
  holdings entries (p :: permits) ≡ₚ permit_holding p :: holdings entries permits.
Proof. unfold holdings. rewrite fmap_cons. solve_Permutation. Qed.

Lemma op_ids_permit entries p permits :
  op_ids entries (p :: permits) ≡ₚ OperationPermit.operation p :: op_ids entries permits.
Proof. unfold op_ids. rewrite fmap_cons. solve_Permutation. Qed.

Lemma eff_ids_permit entries p permits :
  eff_ids entries (p :: permits) ≡ₚ OperationPermit.effect p :: eff_ids entries permits.
Proof. unfold eff_ids. rewrite fmap_cons. solve_Permutation. Qed.

Lemma holdings_push entries x permits :
  holdings (entries ++ [x]) permits ≡ₚ Owned.holding x :: holdings entries permits.
Proof. rewrite (holdings_split entries x []). by rewrite app_nil_r. Qed.

(** The order of outstanding permits does not matter. *)
#[global] Instance policy_permits_perm limits entries :
  Proper ((≡ₚ) ==> (=) ==> (=) ==> iff) (policy limits entries).
Proof.
  assert (∀ ps ps' m heap, ps ≡ₚ ps' → policy limits entries ps m heap →
    policy limits entries ps' m heap) as Himp.
  { intros ps ps' m heap Heq []. unfold holdings, op_ids, eff_ids in *.
    split; unfold holdings, op_ids, eff_ids; rewrite <- ?Heq; done. }
  intros ps ps' Heq m ? <- heap ? <-. split; apply Himp; [done|by symmetry].
Qed.

(** A dropped permit gives its share back and leaves no trace. *)
Lemma drop_spec limits entries p permits m heap :
  policy limits entries (p :: permits) m heap →
  policy limits entries permits m (OperationPermit.drop p heap).2 ∧
  same_heap m heap (OperationPermit.drop p heap).2.
Proof.
  intros []. apply Forall_cons in pol_permits0 as [(Hl & He & Ha) Hps].
  rewrite holdings_permit in pol_accounts0.
  destruct (ReservationLedger.release_all_spec _ _ _ _ _ pol_accounts0) as [Hacc Hlim].
  rewrite op_ids_permit, eff_ids_permit in pol_ids0.
  unfold OperationPermit.drop. rewrite Ha, Hl. simpl. split; [|apply same_heap_borrow_mut].
  split; rewrite ?Heap.borrow_mut_eq; try done.
  - by rewrite <- pol_limits0.
  - by eapply identities_ok_cons.
Qed.

(** Why a reservation is refused. *)
Definition reserve_decision limits m entries permits (now : Moment) (options : OperationOptions.t)
    : option ReserveError.t :=
  if negb (AdmissionGate.admits (ConnectionMachine.gate m) (OperationOptions.class options))
  then Some ReserveError.AdmissionClosed
  else if is_elapsed_at (OperationOptions.deadline options) now
  then Some ReserveError.DeadlineElapsed
  else if negb (IdentityGenerator.available (ConnectionMachine.identities m))
  then Some ReserveError.IdentityExhausted
  else ReservationLedger.reserve_error limits (holdings entries permits)
         (OperationOptions.retained options) (OperationOptions.write_retained options).

(** The permit of a granted reservation. *)
Definition grants m (options : OperationOptions.t) p : Prop :=
  issued m p ∧
  OperationPermit.deadline p = OperationOptions.deadline options ∧
  OperationPermit.class p = OperationOptions.class options ∧
  OperationPermit.completion p = OperationOptions.completion options ∧
  Reservation.retained_bytes (OperationPermit.reservation p) = OperationOptions.retained options ∧
  Reservation.write_retained_bytes (OperationPermit.reservation p) =
    OperationOptions.write_retained options.

Lemma store_same heap l : ∀ l', Heap.borrow (Heap.store heap l (Heap.borrow heap l)) l' =
  Heap.borrow heap l'.
Proof.
  intros l'. destruct (decide (l' = l)) as [->|]; [apply Heap.borrow_store_eq|].
  by apply Heap.borrow_store_ne.
Qed.

(** A policy only reads its own ledger. *)
Lemma policy_heap limits entries permits m heap heap' :
  policy limits entries permits m heap →
  Heap.borrow heap' (ConnectionMachine.ledger m) = Heap.borrow heap (ConnectionMachine.ledger m) →
  policy limits entries permits m heap'.
Proof. intros [] Heq. split; rewrite ?Heq; done. Qed.

Lemma machine_reserve_spec limits entries permits m heap now options :
  ready limits entries permits m heap →
  let '(m', heap', r) := ConnectionMachine.reserve m now options heap in
  match reserve_decision limits m entries permits now options with
  | Some e => r = Err e ∧ m' = m ∧ (∀ l, Heap.borrow heap' l = Heap.borrow heap l)
  | None => ∃ p g, r = Ok p ∧ grants m options p ∧ m' = ConnectionMachine.set_identities m g ∧
      IdentityGenerator.take (ConnectionMachine.identities m) =
        (g, Some (OperationPermit.operation p, OperationPermit.effect p)) ∧
      same_heap m heap heap' ∧ ready limits entries (p :: permits) m' heap'
  end.
Proof.
  intros [Hp Hag Hwo Hb]. pose proof Hp as []. unfold ConnectionMachine.reserve, reserve_decision.
  destruct (AdmissionGate.admits _ _); simpl; [|done].
  destruct (is_elapsed_at _ _); [done|].
  destruct (IdentityGenerator.available _) eqn:Hav; simpl; [|done].
  pose proof (ReservationLedger.ledger_reserve_spec _ _ (OperationOptions.retained options)
    (OperationOptions.write_retained options) pol_accounts0) as Hres.
  rewrite pol_limits0 in Hres.
  destruct (ReservationLedger.reserve_error _ _ _ _) as [e|].
  { rewrite Hres. split; [done|]. split; [done|]. apply store_same. }
  destruct Hres as (contents & k & -> & Hlim & Hk & Hacc).
  destruct (identities_ok_take _ _ _ pol_ids0 Hav) as (g & o & eff & -> & Ho & He & Hids).
  eexists _, g. split; [reflexivity|]. split; [done|]. split; [done|]. split; [done|].
  split. { intros l Hne. by apply Heap.borrow_store_ne. }
  split; try done. split; simpl; rewrite ?Heap.borrow_store_eq; try done.
  - by rewrite holdings_permit.
  - by constructor.
  - by rewrite op_ids_permit, eff_ids_permit.
Qed.

(** The record of an accepted operation. *)
Definition accepted (p : OperationPermit.t) (actual : RetainedBytes) : OperationRecord.t :=
  OperationRecord.mk (OperationPermit.operation p) (OperationPermit.effect p)
    (OperationPermit.deadline p) (ReservationLedger.shrink (OperationPermit.reservation p) actual)
    OperationPhase.Queued (OperationPermit.completion p) Delivery.NotSent true.

(** A commit turns the permit into the newest operation. *)
Lemma commit_permit_spec limits entries p permits m heap actual (f : option (QueuedWrite.t F)) :
  policy limits entries (p :: permits) m heap →
  rb_get actual ≤ rb_get (Reservation.write_retained_bytes (OperationPermit.reservation p)) →
  ConnectionMachine.phase m = ConnectionPhase.Live →
  let '(m', heap', out) := ConnectionMachine.commit_permit m p actual heap in
  m' = ConnectionMachine.set_matching m
         (OrderedVerified.push (ConnectionMachine.matching m) (accepted p actual)) ∧
  out = (OperationPermit.operation p,
         ConnectionTransition.mk InputDisposition.Applied None
           [ConnectionEffect.ScheduleDeadline (ConnectionMachine.epoch m)
              (OperationPermit.operation p) (OperationPermit.deadline p)]) ∧
  policy limits (entries ++ [Owned.mk (accepted p actual) f]) permits m' heap' ∧
  same_heap m heap heap'.
Proof.
  intros [] Hle Hlive. apply Forall_cons in pol_permits0 as [(Hl & He & Ha) Hps].
  rewrite holdings_permit in pol_accounts0.
  destruct (ReservationLedger.ledger_commit_spec _ _ _ _ pol_accounts0 Hle) as [Hacc Hlim].
  unfold ConnectionMachine.commit_permit, OperationPermit.commit, OperationPermit.drop. simpl.
  split; [done|]. split; [done|]. rewrite Hl. split; [|apply same_heap_borrow_mut].
  split; simpl; rewrite ?Heap.borrow_mut_eq; try done.
  - by rewrite pol_records0, fmap_app.
  - by rewrite holdings_push.
  - by rewrite <- pol_limits0.
  - unfold op_ids, eff_ids in *. rewrite !fmap_app. simpl. rewrite <- !app_assoc. done.
  - left. destruct pol_life0 as [(_ & ?)|(? & _)]; done.
Qed.

End permits.
End Permits.
