(* ===== verification/CoreSpec.v ===== *)
(** * The core against the ownership view

    [CoreSpec.owns] is the invariant that ties policy, ledger, writer and
    journal of one core to the list of operations it owns and the list of
    outstanding permits. Each method of [ConnectionCore] is shown to keep it,
    to succeed where the invariant says it must, and to turn the owned
    operations by a [change] that explains the effects it returns. *)
From Stdlib Require Import ZArith Lia.
From stdpp Require Import prelude.
From S2P Require Import Prelude External Identity Limits Admission KeySet Ledger Permit Operation.
From S2P Require Import Matching Write Machine Journal Core Ownership MachineSpec.

Import Policy Change Step Handlers Inputs.

Module CoreSpec.
Section core_spec.
Context {Cal : Calandria} {BB : ByteBudgetLib} {Build : BuildConfig} {F : Type}.
Context {Laws : CalandriaLaws Cal} {BLaws : ByteBudgetLaws BB}.
Implicit Types (entries : list (Owned.t F)) (x : Owned.t F).
Implicit Types (self : ConnectionCore.t F) (heap : Heap.t).

(** Slots of the journal under the limits. *)
Definition op_slots (limits : ConnectionLimits.t) : nat :=
  Z.to_nat (ConnectionLimits.max_operations limits).
Definition write_slots (limits : ConnectionLimits.t) : nat :=
  Z.to_nat (ConnectionLimits.max_write_frames limits).

(** The writer of a core owns exactly these frames, in this order. *)
Record writer limits (epoch : ConnectionEpoch.t) (q : WriteQueue.t F)
    (l : list (QueuedWrite.t F)) : Prop := mk_writer {
  wr_frames : WriteQueue.frames q = l;
  wr_wf : WriteQueue.wf q;
  wr_epoch : WriteQueue.epoch q = epoch;
  wr_limits : WriteQueue.limits q = ConnectionLimits.write_queue_limits limits;
}.

(** The invariant of a core between two calls. *)
Record owns limits entries permits (s : ConnectionCore.state F) : Prop := mk_owns {
  ow_ready : ready limits entries permits (ConnectionCore.machine s.1) s.2;
  ow_writer : writer limits (ConnectionCore.epoch s.1) (ConnectionCore.writes s.1)
    (frames entries);
  ow_journal : RecoveryJournal.holds (ConnectionCore.journal s.1) (op_slots limits)
    (write_slots limits) false [] [];
  ow_poisoned : ConnectionCore.poisoned s.1 = None;
}.

(** What a journal holds determines it. *)
Lemma journal_unique (j j' : RecoveryJournal.t F) no nw a os ws :
  RecoveryJournal.holds j no nw a os ws → RecoveryJournal.holds j' no nw a os ws → j = j'.
Proof. destruct j, j'. intros [] []. simpl in *. congruence. Qed.

(** ** Health and the ownership audit *)

Lemma owns_healthy limits entries permits s :
  owns limits entries permits s → ConnectionCore.ensure_healthy s = (s, Ok tt).
Proof.
  destruct s as [self heap]. intros [[[] _ _ _] _ _ Hp]. unfold ConnectionCore.ensure_healthy.
  simpl in *. unfold ConnectionCore.ledger_of.
  by rewrite (ReservationLedger.acc_poisoned _ _ pol_accounts0), Hp.
Qed.

(** The merge of the audit succeeds on records and frames that agree. *)
Lemma merge_violation_None entries :
  Forall Owned.agrees entries →
  ConnectionCore.merge_violation (Owned.record <$> entries)
    ((λ f, (QueuedWrite.operation f, QueuedWrite.effect f)) <$> frames entries) = None.
Proof.
  induction 1 as [|x l Hx _ IH]; [done|]. unfold Owned.agrees in Hx. unfold frames in *. simpl.
  destruct (Owned.frame x) as [f|]; simpl.
  - destruct Hx as (-> & Ho & He & _). simpl. rewrite Ho, He, !bool_decide_eq_true_2 by done. done.
  - destruct Hx as (-> & _). done.
Qed.

Lemma owns_verified limits entries permits s :
  owns limits entries permits s → ConnectionCore.verify_ownership s = (s, Ok tt).
Proof.
  destruct s as [self heap]. intros [[[] Hag _ _] [Hf Hwf _ _] _ _].
  unfold ConnectionCore.verify_ownership. simpl in *.
  rewrite WriteQueue.accounting_is_valid_spec, (WriteQueue.wf_used _ Hwf), Z.eqb_refl.
  unfold ConnectionCore.ownership_merge_violation, ConnectionCore.matching,
    OrderedVerified.records, WriteQueue.identities.
  by rewrite pol_records0, Hf, merge_violation_None.
Qed.

Lemma owns_verified_hot limits entries permits s :
  owns limits entries permits s → ConnectionCore.verify_ownership_on_hot_path s = (s, Ok tt).
Proof.
  intros Ho. unfold ConnectionCore.verify_ownership_on_hot_path.
  pose proof (owns_verified _ _ _ _ Ho) as Hv. destruct s as [self heap].
  by destruct debug_assertions.
Qed.

Lemma owns_checked limits entries permits s :
  owns limits entries permits s → ConnectionCore.check_owner s = (s, Ok tt).
Proof.
  intros Ho. unfold ConnectionCore.check_owner.
  rewrite (ste_bind_ok _ _ _ _ _ (owns_healthy _ _ _ _ Ho)). by eapply owns_verified_hot.
Qed.

(** ** Bounds *)

Lemma owns_operations limits entries permits s :
  owns limits entries permits s → (length entries + length permits ≤ op_slots limits)%nat.
Proof.
  intros [[[] _ _ _] _ _ _]. destruct pol_accounts0. rewrite pol_limits0 in *.
  unfold holdings in acc_operations. rewrite length_app, !length_fmap in acc_operations.
  unfold op_slots. lia.
Qed.

Lemma owns_frames limits entries permits s :
  owns limits entries permits s → (length (frames entries) ≤ write_slots limits)%nat.
Proof.
  intros [_ [Hf Hwf _ Hl] _ _]. pose proof (WriteQueue.wf_count _ Hwf) as Hc.
  rewrite Hl, Hf in Hc. unfold write_slots.
  change (WriteQueueLimits.max_frames (ConnectionLimits.write_queue_limits limits))
    with (ConnectionLimits.max_write_frames limits) in Hc. lia.
Qed.

(** ** Reconciliation *)

(** The writer after one frame was discarded. *)
Lemma writer_discard limits epoch q l1 f l2 :
  writer limits epoch q (l1 ++ f :: l2) →
  ∃ q', WriteQueue.discard q epoch (QueuedWrite.effect f) =
      (q', Ok (Some (DiscardedWrite.into_discarded f))) ∧
    writer limits epoch q' (l1 ++ l2).
Proof.
  intros [Hf Hwf He Hl]. destruct (WriteQueue.discard_spec q l1 f l2 Hwf Hf)
    as (q' & Hd & Hf' & He' & Hl' & Hwf').
  rewrite He in Hd. exists q'. split; [done|]. split; try done; congruence.
Qed.

(** Reconciling a transition discards exactly the frames it names, keeps them
    in the journal, and returns its other effects in order. *)
Lemma reconcile_loop_spec {R : Type} limits epoch (effects : list (ConnectionEffect.t R)) l l' ds :
  discarding epoch effects l l' ds →
  ∀ self heap os ws a (output : ConnectionTransition.t R),
  writer limits epoch (ConnectionCore.writes self) l →
  RecoveryJournal.holds (ConnectionCore.journal self) (op_slots limits) (write_slots limits)
    a os ws →
  (length ws + length ds ≤ write_slots limits)%nat →
  ∃ q' j', ConnectionCore.reconcile_loop effects output (self, heap) =
      (ConnectionCore.set_journal (ConnectionCore.set_writes self q') j', heap,
       Ok (ConnectionTransition.mk (ConnectionTransition.disposition output)
             (ConnectionTransition.cancel_outcome output)
             (ConnectionTransition.effects output ++ visible effects))) ∧
    writer limits epoch q' l' ∧
    RecoveryJournal.holds j' (op_slots limits) (write_slots limits) a os
      (ws ++ (DiscardedWrite.into_discarded <$> ds)).
Proof.
  induction 1 as [l|e effects l l' ds Hk _ IH|l1 f l2 effects l' ds _ IH];
    intros self heap os ws a output Hq Hj Hlen.
  - exists (ConnectionCore.writes self), (ConnectionCore.journal self). simpl.
    rewrite !app_nil_r. split; [by destruct self, output|done].
  - destruct (IH self heap os ws a (ConnectionTransition.push output e) Hq Hj Hlen)
      as (q' & j' & Hrun & Hq' & Hj').
    exists q', j'. split; [|done]. rewrite (visible_cons_keep e effects Hk).
    destruct e; try done; simpl in *; rewrite Hrun; by rewrite <- app_assoc.
  - simpl in Hlen. destruct (writer_discard _ _ _ _ _ _ Hq) as (q1 & Hd & Hq1).
    destruct (RecoveryJournal.retain_write_holds _ _ _ _ _ _
      (DiscardedWrite.into_discarded f) Hj) as (j1 & Hret & Hj1); [lia|].
    set (self1 := ConnectionCore.set_journal (ConnectionCore.set_writes self q1) j1).
    destruct (IH self1 heap os _ a output Hq1 Hj1) as (q' & j' & Hrun & Hq' & Hj').
    { rewrite length_app. simpl. lia. }
    exists q', j'. split; [|split; [done|]].
    + simpl. rewrite (ste_bind_ok _ _ _ (self1, heap) tt); [exact Hrun|].
      unfold ConnectionCore.reconcile_discard. rewrite Hd. simpl. rewrite Hret.
      by rewrite bool_decide_eq_true_2.
    + by rewrite <- app_assoc in Hj'.
Qed.

(** What the caller of the core sees of a machine transition. *)
Definition shown {R : Type} (tr : ConnectionTransition.t R) : ConnectionTransition.t R :=
  ConnectionTransition.mk (ConnectionTransition.disposition tr)
    (ConnectionTransition.cancel_outcome tr) (visible (ConnectionTransition.effects tr)).

Lemma reconcile_spec {R : Type} limits epoch (tr : ConnectionTransition.t R) self heap l l' ds os ws a :
  discarding epoch (ConnectionTransition.effects tr) l l' ds →
  writer limits epoch (ConnectionCore.writes self) l →
  RecoveryJournal.holds (ConnectionCore.journal self) (op_slots limits) (write_slots limits)
    a os ws →
  (length ws + length ds ≤ write_slots limits)%nat →
  ∃ q' j', ConnectionCore.reconcile tr (self, heap) =
      (ConnectionCore.set_journal (ConnectionCore.set_writes self q') j', heap, Ok (shown tr)) ∧
    writer limits epoch q' l' ∧
    RecoveryJournal.holds j' (op_slots limits) (write_slots limits) a os
      (ws ++ (DiscardedWrite.into_discarded <$> ds)).
Proof.
  intros Hd Hq Hj Hlen. unfold ConnectionCore.reconcile.
  set (output := match ConnectionTransition.cancel_outcome tr with Some _ => _ | None => _ end).
  destruct (reconcile_loop_spec _ _ _ _ _ _ Hd self heap os ws a output Hq Hj Hlen)
    as (q' & j' & Hrun & Hq' & Hj').
  exists q', j'. split; [|done]. rewrite Hrun. unfold shown, output.
  by destruct (ConnectionTransition.cancel_outcome tr).
Qed.

(** ** The journal of an input *)

Lemma begin_recovery_spec limits entries permits self heap :
  owns limits entries permits (self, heap) →
  ∃ j a os, ConnectionCore.begin_recovery_journal (self, heap) =
      (ConnectionCore.set_journal self j, heap, Ok tt) ∧
    RecoveryJournal.holds j (op_slots limits) (write_slots limits) a os [].
Proof.
  intros Ho. pose proof (owns_operations _ _ _ _ Ho) as Hlen.
  destruct Ho as [[[] _ _ _] _ Hj _]. simpl in *.
  unfold ConnectionCore.begin_recovery_journal, ConnectionCore.matching, OrderedVerified.records.
  rewrite pol_records0.
  destruct (RecoveryJournal.begin_holds _ _ _ _ _ _ (Owned.record <$> entries) Hj)
    as (j & -> & Hj'); [rewrite length_fmap; lia|].
  by eexists _, _, _.
Qed.

Lemma begin_operation_spec limits entries permits self heap op :
  owns limits entries permits (self, heap) →
  ∃ j a os, ConnectionCore.begin_operation_recovery_journal op (self, heap) =
      (ConnectionCore.set_journal self j, heap, Ok tt) ∧
    RecoveryJournal.holds j (op_slots limits) (write_slots limits) a os [].
Proof.
  intros [[[] _ _ _] _ Hj _]. simpl in *.
  unfold ConnectionCore.begin_operation_recovery_journal.
  destruct (OrderedVerified.get_indexed _ op) as [[i r]|].
  - assert (0 < op_slots limits)%nat as Hpos.
    { destruct pol_accounts0 as [(? & _) _ _ _ _ _ _ _ _ _ _ _ _ _ _ _].
      rewrite pol_limits0 in *. unfold op_slots. lia. }
    destruct (RecoveryJournal.begin_operation_holds _ _ _ _ _ _ r i Hj Hpos) as (j & -> & Hj').
    by eexists _, _, _.
  - exists (ConnectionCore.journal self). eexists _, _. split; [by destruct self|exact Hj].
Qed.

Lemma keep_journal limits entries permits self heap :
  owns limits entries permits (self, heap) →
  ∃ j a os, (self, heap, Ok tt) =
      (ConnectionCore.set_journal self j, heap, Ok tt : result unit ConnectionCoreError.t) ∧
    RecoveryJournal.holds j (op_slots limits) (write_slots limits) a os [].
Proof.
  intros [_ _ Hj _]. exists (ConnectionCore.journal self). eexists _, _.
  split; [by destruct self|exact Hj].
Qed.

(** Preparing the journal of an input never fails. *)
Lemma prepare_input_spec limits entries permits self heap input :
  owns limits entries permits (self, heap) →
  ∃ j a os, ConnectionCore.prepare_input_journal input (self, heap) =
      (ConnectionCore.set_journal self j, heap, Ok tt) ∧
    RecoveryJournal.holds j (op_slots limits) (write_slots limits) a os [].
Proof.
  intros Ho. unfold ConnectionCore.prepare_input_journal.
  destruct input; repeat case_match;
    solve [by eapply keep_journal|by eapply begin_recovery_spec|by eapply begin_operation_spec].
Qed.

Lemma prepare_reply_spec {R : Type} limits entries permits self heap (reply : InboundReply.t R) :
  owns limits entries permits (self, heap) →
  ∃ j a os, ConnectionCore.prepare_reply_journal reply (self, heap) =
      (ConnectionCore.set_journal self j, heap, Ok tt) ∧
    RecoveryJournal.holds j (op_slots limits) (write_slots limits) a os [].
Proof.
  intros Ho. unfold ConnectionCore.prepare_reply_journal.
  repeat case_match;
    solve [by eapply keep_journal|by eapply begin_recovery_spec|by eapply begin_operation_spec].
Qed.

(** ** Inputs and replies *)

(** The end of a method once the machine has moved: healthy, journal cleared. *)
Lemma settle_spec {A : Type} limits entries permits self heap j a os ws (v : A) :
  owns limits entries permits
    (ConnectionCore.set_journal self (RecoveryJournal.clear j), heap) →
  RecoveryJournal.holds j (op_slots limits) (write_slots limits) a os ws →
  (ConnectionCore.ensure_healthy ;;! ConnectionCore.clear_journal ;;! ste_ret v)
    (ConnectionCore.set_journal self j, heap) =
  (ConnectionCore.set_journal self (RecoveryJournal.clear j), heap, Ok v).
Proof.
  intros Ho Hj. rewrite (ste_bind_ok _ _ _ (ConnectionCore.set_journal self j, heap) tt);
    [done|].
  pose proof (owns_healthy _ _ _ _ Ho) as Hh. revert Hh.
  unfold ConnectionCore.ensure_healthy, ConnectionCore.ledger_of, ConnectionCore.poison. simpl.
  by repeat case_match.
Qed.

(** A handler of the machine, run by the core. *)
Lemma step_spec {R : Type} limits entries permits self heap j a os
    (f : ConnectionMachine.t → Heap.t →
         ConnectionMachine.t * ConnectionTransition.t R * Heap.t) :
  owns limits entries permits (self, heap) →
  RecoveryJournal.holds j (op_slots limits) (write_slots limits) a os [] →
  handled limits permits (ConnectionCore.machine self) entries heap
    (f (ConnectionCore.machine self) heap) →
  let '(m', tr, heap') := f (ConnectionCore.machine self) heap in
  ∃ self' entries' ds,
    (let! transition := ConnectionCore.machine_step f in
     let! transition := ConnectionCore.reconcile transition in
     ConnectionCore.ensure_healthy ;;! ConnectionCore.clear_journal ;;! ste_ret transition)
      (ConnectionCore.set_journal self j, heap) = (self', heap', Ok (shown tr)) ∧
    ConnectionCore.machine self' = m' ∧ owns limits entries' permits (self', heap') ∧
    moved limits permits (ConnectionCore.machine self) entries heap
      (ConnectionTransition.effects tr) m' entries' heap' ds.
Proof.
  intros Ho Hj Hh. pose proof (owns_frames _ _ _ _ Ho) as Hlen.
  destruct Ho as [_ Hw _ Hpois]. simpl in *.
  destruct (f (ConnectionCore.machine self) heap) as [[m' tr] heap'] eqn:Hf.
  destruct Hh as (entries' & ds & Hmv & Hag & Hwo & Hb).
  set (self1 := ConnectionCore.set_machine (ConnectionCore.set_journal self j) m').
  pose proof (discarding_length _ _ _ _ _ (mv_discard _ _ _ _ _ _ _ _ _ _ Hmv)) as Hdl.
  destruct (reconcile_spec limits _ tr self1 heap' _ _ _ _ _ _
    (mv_discard _ _ _ _ _ _ _ _ _ _ Hmv) Hw Hj) as (q' & j' & Hrec & Hq' & Hj');
    [simpl; lia|].
  assert (owns limits entries' permits
    (ConnectionCore.set_journal (ConnectionCore.set_writes self1 q') (RecoveryJournal.clear j'),
     heap')) as Ho'.
  { destruct Hmv as [Hp (_ & He & _) _ _ _]. split; simpl; try done.
    - unfold ConnectionCore.epoch. simpl. by rewrite He.
    - by eapply RecoveryJournal.clear_holds. }
  eexists _, entries', ds. split; [|split; [|split; [exact Ho'|exact Hmv]]].
  - rewrite (ste_bind_ok _ _ _ (self1, heap') tr);
      [|unfold ConnectionCore.machine_step; simpl; by rewrite Hf].
    rewrite (ste_bind_ok _ _ _ _ _ Hrec).
    by apply (settle_spec _ _ _ (ConnectionCore.set_writes self1 q') _ _ _ _ _ _ Ho' Hj').
  - done.
Qed.

(** A handler that does nothing leaves the core as it was, journal included. *)
Lemma idle_spec {R : Type} limits entries permits self heap j a os
    (f : ConnectionMachine.t → Heap.t →
         ConnectionMachine.t * ConnectionTransition.t R * Heap.t) tr :
  owns limits entries permits (self, heap) →
  RecoveryJournal.holds j (op_slots limits) (write_slots limits) a os [] →
  f (ConnectionCore.machine self) heap = (ConnectionCore.machine self, tr, heap) →
  ConnectionTransition.effects tr = [] →
  (let! transition := ConnectionCore.machine_step f in
   let! transition := ConnectionCore.reconcile transition in
   ConnectionCore.ensure_healthy ;;! ConnectionCore.clear_journal ;;! ste_ret transition)
    (ConnectionCore.set_journal self j, heap) = (self, heap, Ok tr).
Proof.
  intros Ho Hj Hf He.
  assert (ConnectionCore.set_journal self (RecoveryJournal.clear j) = self) as Hself.
  { rewrite (journal_unique _ _ _ _ _ _ _ (RecoveryJournal.clear_holds _ _ _ _ _ _ Hj)
      (ow_journal _ _ _ _ Ho)). by destruct self. }
  rewrite (ste_bind_ok _ _ _ (ConnectionCore.set_journal self j, heap) tr).
  2: { unfold ConnectionCore.machine_step. simpl. rewrite Hf. by destruct self. }
  rewrite (ste_bind_ok _ _ _ (ConnectionCore.set_journal self j, heap) tr).
  2: { unfold ConnectionCore.reconcile. rewrite He. simpl. destruct tr as [d [c|] es];
       simpl in *; by subst. }
  rewrite (settle_spec limits entries permits self heap j a os []); [|by rewrite Hself|done].
  by rewrite Hself.
Qed.

(** [apply]: the machine's handler with its discards carried out. *)
Lemma apply_spec limits entries permits self heap input :
  owns limits entries permits (self, heap) →
  let '(m', tr, heap') := ConnectionMachine.apply (ConnectionCore.machine self) input heap in
  ∃ self' entries' ds,
    ConnectionCore.apply input (self, heap) = (self', heap', Ok (shown tr)) ∧
    ConnectionCore.machine self' = m' ∧ owns limits entries' permits (self', heap') ∧
    moved limits permits (ConnectionCore.machine self) entries heap
      (ConnectionTransition.effects tr) m' entries' heap' ds.
Proof.
  intros Ho. destruct (prepare_input_spec _ _ _ _ _ input Ho) as (j & a & os & Hprep & Hj).
  pose proof (step_spec _ _ _ _ _ _ _ _
    (λ machine heap, ConnectionMachine.apply machine input heap) Ho Hj) as Hs.
  unfold ConnectionCore.apply. rewrite (ste_bind_ok _ _ _ _ _ (owns_healthy _ _ _ _ Ho)).
  rewrite (ste_bind_ok _ _ _ _ _ (owns_verified_hot _ _ _ _ Ho)).
  rewrite (ste_bind_ok _ _ _ _ _ Hprep). apply Hs, apply_handled. by destruct Ho.
Qed.

Lemma apply_reply_spec {R : Type} limits entries permits self heap (reply : InboundReply.t R) :
  owns limits entries permits (self, heap) →
  let '(m', tr, heap') :=
    ConnectionMachine.apply_reply (ConnectionCore.machine self) reply heap in
  ∃ self' entries' ds,
    ConnectionCore.apply_reply reply (self, heap) = (self', heap', Ok (shown tr)) ∧
    ConnectionCore.machine self' = m' ∧ owns limits entries' permits (self', heap') ∧
    moved limits permits (ConnectionCore.machine self) entries heap
      (ConnectionTransition.effects tr) m' entries' heap' ds.
Proof.
  intros Ho. destruct (prepare_reply_spec _ _ _ _ _ reply Ho) as (j & a & os & Hprep & Hj).
  pose proof (step_spec _ _ _ _ _ _ _ _
    (λ machine heap, ConnectionMachine.apply_reply machine reply heap) Ho Hj) as Hs.
  unfold ConnectionCore.apply_reply. rewrite (ste_bind_ok _ _ _ _ _ (owns_healthy _ _ _ _ Ho)).
  rewrite (ste_bind_ok _ _ _ _ _ (owns_verified_hot _ _ _ _ Ho)).
  rewrite (ste_bind_ok _ _ _ _ _ Hprep). apply Hs, apply_reply_handled. by destruct Ho.
Qed.

End core_spec.
End CoreSpec.
