(* ===== verification/CoreAdmission.v ===== *)
(** * Admission and commit against the ownership view

    [ConnectionCore::reserve] and [ConnectionCore::commit], and dropping a
    permit: every branch, and why a frame whose permit is honoured always
    finds room in the writer. *)
From Stdlib Require Import ZArith Lia.
From stdpp Require Import prelude.
From S2P Require Import Prelude External Identity Limits Admission KeySet Ledger Permit Operation.
From S2P Require Import Matching Write Machine Journal Core Ownership MachineSpec CoreSpec.

Import Policy Change Step Handlers Inputs Permits CoreSpec.

Module CoreAdmission.
Section core_admission.
Context {Cal : Calandria} {BB : ByteBudgetLib} {Build : BuildConfig} {F : Type}.
Context {Laws : CalandriaLaws Cal} {BLaws : ByteBudgetLaws BB}.
Implicit Types (entries : list (Owned.t F)) (x : Owned.t F) (permits : list OperationPermit.t).
Implicit Types (self : ConnectionCore.t F) (heap : Heap.t) (p : OperationPermit.t).

(** The order of outstanding permits does not matter. *)
#[global] Instance owns_permits_perm limits entries :
  Proper ((≡ₚ) ==> (=) ==> iff) (owns (BB := BB) (F := F) limits entries).
Proof.
  assert (∀ ps ps' s, ps ≡ₚ ps' → owns (BB := BB) limits entries ps s →
    owns limits entries ps' s) as Himp.
  { intros ps ps' s Heq [[] ? ? ?]. split; [split|..]; try done. by rewrite <- Heq. }
  intros ps ps' Heq s ? <-. split; apply Himp; [done|by symmetry].
Qed.

(** The invariant only reads the core's own ledger. *)
Lemma owns_heap limits entries permits self heap heap' :
  owns limits entries permits (self, heap) →
  Heap.borrow heap' (ConnectionMachine.ledger (ConnectionCore.machine self)) =
    Heap.borrow heap (ConnectionMachine.ledger (ConnectionCore.machine self)) →
  owns limits entries permits (self, heap').
Proof.
  intros [[Hp ? ? ?] ? ? ?] Heq. split; [split|..]; simpl in *; try done.
  by eapply policy_heap.
Qed.

(** Dropping an unused permit gives its reservation back. *)
Lemma owns_drop limits entries p permits self heap :
  owns limits entries (p :: permits) (self, heap) →
  owns limits entries permits (self, (OperationPermit.drop p heap).2).
Proof.
  intros [[Hp ? ? ?] ? ? ?]. split; [split|..]; simpl in *; try done.
  by apply drop_spec.
Qed.

(** [reserve] grants a permit exactly when nothing stands against it. *)
Lemma core_reserve_spec limits entries permits self heap now options :
  owns limits entries permits (self, heap) →
  let '(self', heap', r) := ConnectionCore.reserve now options (self, heap) in
  match reserve_decision limits (ConnectionCore.machine self) entries permits now options with
  | Some e => r = Err e ∧ self' = self ∧ (∀ l, Heap.borrow heap' l = Heap.borrow heap l) ∧
      owns limits entries permits (self', heap')
  | None => ∃ p g, r = Ok p ∧ grants (ConnectionCore.machine self) options p ∧
      self' = ConnectionCore.set_machine self
                (ConnectionMachine.set_identities (ConnectionCore.machine self) g) ∧
      IdentityGenerator.take (ConnectionMachine.identities (ConnectionCore.machine self)) =
        (g, Some (OperationPermit.operation p, OperationPermit.effect p)) ∧
      same_heap (ConnectionCore.machine self) heap heap' ∧
      owns limits entries (p :: permits) (self', heap')
  end.
Proof.
  intros Ho. unfold ConnectionCore.reserve. rewrite (owns_checked _ _ _ _ Ho).
  pose proof (machine_reserve_spec _ _ _ _ _ now options (ow_ready _ _ _ _ Ho)) as Hr. simpl in Hr.
  destruct (ConnectionMachine.reserve _ _ _ _) as [[m' heap'] r].
  destruct (reserve_decision _ _ _ _ _ _).
  - destruct Hr as (-> & -> & Hheap).
    assert (ConnectionCore.set_machine self (ConnectionCore.machine self) = self) as ->
      by (by destruct self).
    split; [done|]. split; [done|]. split; [done|]. by eapply owns_heap.
  - destruct Hr as (p & g & -> & Hg & -> & Htake & Hh & Hrd). exists p, g.
    split; [done|]. split; [done|]. split; [done|]. split; [done|]. split; [done|].
    destruct Ho as [_ [] ? ?]. by split.
Qed.

(** ** Why a committed frame fits *)

(** What the ledger counts of the frames the writer owns. *)
Lemma frames_counted entries :
  Forall Owned.agrees entries →
  zsum ReservationLedger.frame_of (Owned.holding <$> entries) = Z.of_nat (length (frames entries)) ∧
  zsum ReservationLedger.write_of (Owned.holding <$> entries) =
    zsum WriteQueue.mem_of (frames entries) ∧
  (∀ f, f ∈ frames entries → ∃ x, x ∈ entries ∧ QueuedWrite.operation f = Owned.id x ∧
     QueuedWrite.effect f = Owned.effect x).
Proof.
  induction 1 as [|x l Hx _ (IH1 & IH2 & IH3)]; [by split_and!; [..|intros ? ?%elem_of_nil]|].
  unfold frames in *. unfold Owned.agrees in Hx. csimpl.
  unfold ReservationLedger.frame_of at 1, ReservationLedger.write_of at 1.
  destruct (Owned.frame x) as [f|]; simpl.
  - destruct Hx as (-> & Ho & He & Hm & _). rewrite IH1, IH2. split; [lia|].
    unfold WriteQueue.mem_of at 2. rewrite Hm. split; [done|].
    intros g [->|Hg]%elem_of_cons; [exists x; split; [constructor|done]|].
    destruct (IH3 g Hg) as (y & ? & ?). exists y. split; [by constructor|done].
  - destruct Hx as (-> & _). rewrite IH1, IH2. split; [lia|]. split; [done|].
    intros g Hg. destruct (IH3 g Hg) as (y & ? & ?). exists y. split; [by constructor|done].
Qed.

(** The reservation behind a permit guarantees a place in the writer. *)
Lemma permit_fits limits entries p permits self heap actual :
  owns limits entries (p :: permits) (self, heap) →
  rb_get actual ≤ rb_get (Reservation.write_retained_bytes (OperationPermit.reservation p)) →
  WriteQueue.admission_failure (ConnectionCore.writes self) (OperationPermit.epoch p)
    (OperationPermit.operation p) (OperationPermit.effect p) actual = None.
Proof.
  intros [[[] Hag _ _] [Hf Hwf He Hl] _ _] Hle. simpl in *.
  destruct (frames_counted _ Hag) as (Hc & Hm & Hids).
  apply WriteQueue.admission_failure_None; [done|].
  apply Forall_cons in pol_permits0 as [(_ & Hep & _) _].
  destruct pol_ids0 as [Hops Heffs _ _ _ _].
  rewrite op_ids_permit in Hops. rewrite eff_ids_permit in Heffs.
  apply NoDup_cons in Hops as [Hop _], Heffs as [Heff _].
  destruct pol_accounts0. rewrite pol_limits0, holdings_permit in *. unfold holdings in *.
  simpl in *. rewrite !zsum_app, Hc in acc_frames. rewrite !zsum_app, Hm in acc_write.
  assert (0 ≤ zsum ReservationLedger.frame_of (permit_holding <$> permits)) as H1
    by (apply zsum_nonneg; apply ReservationLedger.frame_of_nonneg).
  assert (0 ≤ zsum ReservationLedger.write_of (permit_holding <$> permits)) as H2
    by (apply zsum_nonneg; apply ReservationLedger.write_of_nonneg).
  unfold ReservationLedger.frame_of at 1 in acc_frames.
  unfold ReservationLedger.write_of at 1 in acc_write. simpl in *.
  rewrite Hf, He, Hl. split; [done|].
  split. { intros (f & Hof & Hin)%list_elem_of_fmap. destruct (Hids f Hin) as (x & Hx & Hox & _).
           apply Hop. rewrite Hof, Hox. unfold op_ids. apply elem_of_app. left.
           by apply list_elem_of_fmap_2. }
  split. { intros (f & Hef & Hin)%list_elem_of_fmap. destruct (Hids f Hin) as (x & Hx & _ & Hex).
           apply Heff. rewrite Hef, Hex. unfold eff_ids. apply elem_of_app. left.
           by apply list_elem_of_fmap_2. }
  change (WriteQueueLimits.max_frames (ConnectionLimits.write_queue_limits limits))
    with (ConnectionLimits.max_write_frames limits).
  change (WriteQueueLimits.max_retained_bytes (ConnectionLimits.write_queue_limits limits))
    with (ConnectionLimits.max_write_retained_bytes limits).
  lia.
Qed.

(** ** Commit *)

(** Why a commit with a permit of this core is refused. *)
Definition commit_decision {W : WriteFrame F} (m : ConnectionMachine.t) p (frame : F)
    : option CommitErrorKind.t :=
  if negb (AdmissionGate.admits (ConnectionMachine.gate m) (OperationPermit.class p))
  then Some CommitErrorKind.AdmissionClosed
  else if rb_get (Reservation.write_retained_bytes (OperationPermit.reservation p))
            <? rb_get (frame_retained_bytes frame)
  then Some CommitErrorKind.FrameTooLarge
  else None.

(** The operation a commit accepts, with its frame at the end of the wire
    order. *)
Definition committed {W : WriteFrame F} p (frame : F) : Owned.t F :=
  Owned.mk (accepted p (frame_retained_bytes frame))
    (Some (QueuedWrite.mk (OperationPermit.operation p) (OperationPermit.effect p) frame
             (FrameMeasure.capture frame) 0 false)).

Lemma committed_agrees {W : WriteFrame F} p frame : Owned.agrees (committed p frame).
Proof. unfold Owned.agrees. simpl. split_and!; try done. by left. Qed.

Lemma wire_order_push entries x :
  Owned.wire_order entries → is_Some (Owned.frame x) → Owned.wire_order (entries ++ [x]).
Proof.
  intros (w & q & -> & Hw & Hq) Hx. exists w, (q ++ [x]). rewrite app_assoc.
  split; [done|]. split; [done|]. apply Forall_app. split; [done|]. by constructor.
Qed.

(** A permit is refused, with the frame, unless the gate still admits its
    class and the frame is within its reservation; otherwise the operation is
    accepted. The writer never refuses. *)
Lemma core_commit_spec {W : WriteFrame F} limits entries p permits self heap frame :
  owns limits entries (p :: permits) (self, heap) →
  Z.of_nat (length (frame_bytes frame)) ≤ USIZE_MAX →
  let '(self', heap', r) := ConnectionCore.commit p frame (self, heap) in
  match commit_decision (ConnectionCore.machine self) p frame with
  | Some kind => self' = self ∧ heap' = heap ∧
      r = Err (FrameCommitError.new (FrameCommitFailure.Policy kind) p frame)
  | None =>
      r = Ok (OperationPermit.operation p,
              ConnectionTransition.mk InputDisposition.Applied None
                [ConnectionEffect.ScheduleDeadline (ConnectionCore.epoch self)
                   (OperationPermit.operation p) (OperationPermit.deadline p)]) ∧
      same_machine (ConnectionCore.machine self) (ConnectionCore.machine self') ∧
      same_heap (ConnectionCore.machine self) heap heap' ∧
      owns limits (entries ++ [committed p frame]) permits (self', heap') ∧
      ConnectionCore.machine self' =
        ConnectionMachine.set_matching (ConnectionCore.machine self)
          (OrderedVerified.push (ConnectionMachine.matching (ConnectionCore.machine self))
             (accepted p (frame_retained_bytes frame)))
  end.
Proof.
  intros Ho Hlen. pose proof (λ a, permit_fits _ _ _ _ _ _ a Ho) as Hfits.
  unfold ConnectionCore.commit. rewrite (owns_checked _ _ _ _ Ho).
  pose proof Ho as [[Hp Hag Hwo Hb] [Hf Hwf He Hl] Hj Hpois]. cbn [fst snd] in *.
  pose proof (pol_permits _ _ _ _ _ Hp) as Hps.
  apply Forall_cons in Hps as [(Hled & Hep & _) _].
  unfold ConnectionMachine.commit_failure, commit_decision.
  rewrite Hled, Hep, !bool_decide_eq_true_2 by done. cbn [negb orb].
  destruct (AdmissionGate.admits _ _) eqn:Hadm; cbn [negb]; [|done].
  change (FrameMeasure.retained_bytes (FrameMeasure.capture frame))
    with (frame_retained_bytes frame).
  rewrite rb_gtb_spec.
  destruct (Z.ltb_spec (rb_get (Reservation.write_retained_bytes (OperationPermit.reservation p)))
    (rb_get (frame_retained_bytes frame))) as [|Hle]; [done|].
  assert (ConnectionMachine.phase (ConnectionCore.machine self) = ConnectionPhase.Live) as Hlive.
  { destruct (pol_life _ _ _ _ _ Hp) as [(? & _)|(_ & Hc & _)]; [done|]. by rewrite Hc in Hadm. }
  pose proof (WriteQueue.admit_spec (ConnectionCore.writes self) (OperationPermit.epoch p)
    (OperationPermit.operation p) (OperationPermit.effect p) (FrameMeasure.capture frame) frame Hwf)
    as Hadmit.
  simpl in Hadmit. rewrite (Hfits _ Hle) in Hadmit. rewrite Hep in Hadmit.
  destruct Hadmit as (q' & -> & Hf' & He' & Hl' & Hwf').
  pose proof (commit_permit_spec _ _ _ _ _ _ (frame_retained_bytes frame)
    (Owned.frame (committed p frame)) Hp Hle Hlive) as Hc.
  change (ConnectionMachine.commit_permit _ _ _ _) with
    (ConnectionMachine.commit_permit (ConnectionCore.machine self) p (frame_retained_bytes frame)
       heap) in Hc |- *.
  destruct (ConnectionMachine.commit_permit _ _ _ _) as [[m' heap'] out].
  destruct Hc as (-> & -> & Hp' & Hh). split; [done|]. split; [done|]. split; [exact Hh|].
  split; [|done]. split; [split|..]; simpl; try done.
  - apply Forall_app. split; [done|]. constructor; [apply committed_agrees|constructor].
  - by apply wire_order_push.
  - intros _ _. by destruct entries.
  - split; try congruence.
    + rewrite Hf', Hf, frames_app. done.
    + apply Hwf'. simpl. lia.
    + by rewrite He', He.
Qed.

(** A permit of another machine or epoch is refused, and given back with the
    frame, by an unchanged core. *)
Lemma commit_foreign {W : WriteFrame F} limits entries permits self heap p frame :
  owns limits entries permits (self, heap) →
  OperationPermit.ledger p ≠ ConnectionMachine.ledger (ConnectionCore.machine self) ∨
  OperationPermit.epoch p ≠ ConnectionCore.epoch self →
  ConnectionCore.commit p frame (self, heap) =
    (self, heap, Err (FrameCommitError.new
       (FrameCommitFailure.Policy CommitErrorKind.ForeignPermit) p frame)).
Proof.
  intros Ho Hne. unfold ConnectionCore.commit. rewrite (owns_checked _ _ _ _ Ho).
  unfold ConnectionMachine.commit_failure. simpl.
  assert (negb (bool_decide (ConnectionMachine.ledger (ConnectionCore.machine self) =
      OperationPermit.ledger p)) ||
    negb (bool_decide (OperationPermit.epoch p =
      ConnectionMachine.epoch (ConnectionCore.machine self))) = true) as ->; [|done].
  apply orb_true_iff. rewrite !negb_true_iff, !bool_decide_eq_false.
  destruct Hne as [Hne|Hne]; [left|by right]. congruence.
Qed.

(** A rejected commit gives its permit back. *)
Lemma commit_gives_back p (frame : F) `{!WriteFrame F} (s s' : ConnectionCore.state F) error :
  ConnectionCore.commit p frame s = (s', Err error) → FrameCommitError.permit error = p.
Proof.
  unfold ConnectionCore.commit. destruct (ConnectionCore.check_owner s) as [[self heap] [[]|]];
    [|by intros [= _ <-]].
  destruct (ConnectionMachine.commit_failure _ _ _); [by intros [= _ <-]|].
  destruct (WriteQueue.admit_frame _ _ _ _ _ _) as [q [[]|]]; [|by intros [= _ <-]].
  by destruct (ConnectionMachine.commit_permit _ _ _ _) as [[m h] x].
Qed.

End core_admission.
End CoreAdmission.
