(* ===== verification/CoreProgress.v ===== *)
(** * Write progress against the ownership view

    [ConnectionCore::advance_write]: exact progress of the front frame through
    the writer and the policy at once. *)
From Stdlib Require Import ZArith Lia.
From stdpp Require Import prelude.
From S2P Require Import Prelude External Identity Limits Admission KeySet Ledger Permit Operation.
From S2P Require Import Matching Write Machine Journal Core Ownership MachineSpec CoreSpec.

Import Policy Change Step Handlers Inputs CoreSpec.

Module MachineProgress.
Section machine_progress.
Context {Cal : Calandria} {Laws : CalandriaLaws Cal} {F : Type}.
Implicit Types (entries : list (Owned.t F)) (x : Owned.t F).
Implicit Types (m : ConnectionMachine.t) (heap : Heap.t) (r : OperationRecord.t).

(** A record whose first byte may have been written. *)
Definition started r : OperationRecord.t :=
  OperationRecord.set_phase (OperationRecord.set_delivery r Delivery.PossiblySent)
    OperationPhase.Writing.

(** A record whose frame is written and whose reply is awaited. *)
Definition awaiting r : OperationRecord.t :=
  OperationRecord.set_write_held
    (if bool_decide (OperationRecord.phase r = OperationPhase.Terminal) then r
     else OperationRecord.set_phase r OperationPhase.AwaitingReply) false.

Lemma write_started_spec limits l1 x l2 permits m heap frame :
  policy limits (l1 ++ x :: l2) permits m heap → Owned.phase x = OperationPhase.Queued →
  let x' := Owned.mk (started (Owned.record x)) frame in
  ConnectionMachine.write_started m (ConnectionMachine.epoch m) (Owned.id x) (Owned.effect x) heap =
    (with_records m (Owned.record <$> (l1 ++ x' :: l2)),
     ConnectionTransition.new InputDisposition.Applied, heap) ∧
  policy limits (l1 ++ x' :: l2) permits (with_records m (Owned.record <$> (l1 ++ x' :: l2))) heap.
Proof.
  intros Hp Hq x'. destruct (lookup_known _ _ _ _ _ _ _ Hp) as (_ & Hg & Hm & _).
  assert (with_records m (Owned.record <$> (l1 ++ x' :: l2)) =
    with_records m ((Owned.record <$> l1) ++ Owned.record x' :: (Owned.record <$> l2))) as ->
    by (by rewrite fmap_app).
  split.
  - unfold ConnectionMachine.write_started. rewrite bool_decide_eq_true_2 by done. simpl.
    rewrite Hg. fold (Owned.phase x). rewrite Hq. simpl.
    fold (Owned.effect x). rewrite bool_decide_eq_true_2 by done. simpl. by rewrite Hm.
  - pose proof (policy_held _ _ _ _ _ _ _ Hp) as Hacc.
    apply (policy_replace _ _ x x' _ _ _ heap heap Hp); try done; [|by destruct Hp].
    by rewrite holdings_split.
Qed.

(** The phases in which an operation still holds its write. *)
Definition writing x : Prop :=
  Owned.phase x = OperationPhase.Queued ∨ Owned.phase x = OperationPhase.Writing ∨
  Owned.phase x = OperationPhase.Terminal.

(** The guards of [write_completed] pass for an operation that holds its
    write. *)
Lemma write_completed_enters limits l1 x l2 permits m heap :
  policy limits (l1 ++ x :: l2) permits m heap → writing x →
  OperationRecord.write_held (Owned.record x) = true →
  ConnectionMachine.write_completed m (ConnectionMachine.epoch m) (Owned.id x) (Owned.effect x)
    heap =
  let heap :=
    Heap.borrow_mut heap (ConnectionMachine.ledger m) (λ l, ReservationLedger.release_write l
      (Reservation.write_retained_bytes (OperationRecord.reservation (Owned.record x)))) in
  if bool_decide (Owned.completion x = CompletionMode.ReplyExpected)
  then ConnectionMachine.await_reply m (Owned.id x) heap
  else ConnectionMachine.finish_write m (Owned.id x) heap.
Proof.
  intros Hp Hw Hheld. destruct (lookup_known _ _ _ _ _ _ _ Hp) as (_ & Hg & _).
  unfold ConnectionMachine.write_completed. rewrite bool_decide_eq_true_2 by done. simpl.
  rewrite Hg. fold (Owned.effect x). rewrite bool_decide_eq_true_2 by done. simpl.
  rewrite Hheld. fold (Owned.phase x). by destruct Hw as [-> | [-> | ->]].
Qed.

(** The ledger after the frame's memory was released. *)
Lemma release_write_accounts limits l1 x l2 permits m heap :
  policy limits (l1 ++ x :: l2) permits m heap →
  OperationRecord.write_held (Owned.record x) = true →
  let heap' :=
    Heap.borrow_mut heap (ConnectionMachine.ledger m) (λ l, ReservationLedger.release_write l
      (Reservation.write_retained_bytes (OperationRecord.reservation (Owned.record x)))) in
  ReservationLedger.accounts (Heap.borrow heap' (ConnectionMachine.ledger m))
    (ReservationLedger.hold (OperationRecord.reservation (Owned.record x)) false false
       :: holdings (l1 ++ l2) permits) ∧
  ReservationLedger.limits (Heap.borrow heap' (ConnectionMachine.ledger m)) = limits.
Proof.
  intros Hp Hheld heap'. pose proof (policy_held _ _ _ _ _ _ _ Hp) as Hacc. rewrite Hheld in Hacc.
  destruct (ReservationLedger.release_write_spec _ _ _ Hacc) as [Hacc' Hlim].
  unfold heap'. rewrite Heap.borrow_mut_eq. split; [done|].
  rewrite Hlim. by destruct Hp.
Qed.

(** Completion of a write that expects a reply. *)
Lemma write_completed_await limits l1 x l2 permits m heap :
  policy limits (l1 ++ x :: l2) permits m heap → writing x →
  OperationRecord.write_held (Owned.record x) = true →
  Owned.completion x = CompletionMode.ReplyExpected →
  let x' := Owned.mk (awaiting (Owned.record x)) None in
  ∃ heap', ConnectionMachine.write_completed m (ConnectionMachine.epoch m) (Owned.id x)
      (Owned.effect x) heap =
    (with_records m (Owned.record <$> (l1 ++ x' :: l2)),
     ConnectionTransition.new InputDisposition.Applied, heap') ∧
  policy limits (l1 ++ x' :: l2) permits (with_records m (Owned.record <$> (l1 ++ x' :: l2)))
    heap' ∧ same_heap m heap heap'.
Proof.
  intros Hp Hw Hheld Hc x'. rewrite (write_completed_enters _ _ _ _ _ _ _ Hp Hw Hheld).
  destruct (release_write_accounts _ _ _ _ _ _ _ Hp Hheld) as [Hacc Hlim].
  cbv zeta in Hacc, Hlim |- *. rewrite Hc, bool_decide_eq_true_2 by done.
  set (heap' := Heap.borrow_mut _ _ _) in *. exists heap'.
  destruct (lookup_known _ _ _ _ _ _ _ Hp) as (_ & _ & Hm & _).
  assert (with_records m (Owned.record <$> (l1 ++ x' :: l2)) =
    with_records m ((Owned.record <$> l1) ++ Owned.record x' :: (Owned.record <$> l2))) as ->
    by (by rewrite fmap_app).
  split; [unfold ConnectionMachine.await_reply; by rewrite Hm|].
  split; [|apply same_heap_borrow_mut].
  apply (policy_replace _ _ x x' _ _ _ heap heap' Hp); try done.
  - unfold Owned.id, x', awaiting. simpl. by case_bool_decide.
  - unfold Owned.effect, x', awaiting. simpl. by case_bool_decide.
  - rewrite holdings_split. unfold Owned.holding, x', awaiting. simpl. by case_bool_decide.
Qed.

(** Completion of a write that completes its operation. *)
Lemma write_completed_finish limits l1 x l2 permits m heap :
  policy limits (l1 ++ x :: l2) permits m heap → writing x →
  OperationRecord.write_held (Owned.record x) = true →
  Owned.completion x = CompletionMode.WriteComplete →
  Forall Owned.agrees (l1 ++ l2) → Owned.wire_order (l1 ++ l2) → Owned.frame x = None →
  let out := ConnectionMachine.write_completed m (ConnectionMachine.epoch m) (Owned.id x)
    (Owned.effect x) heap in
  handled_to limits permits m (l1 ++ x :: l2) heap out (l1 ++ l2) ∧
  ConnectionTransition.disposition out.1.2 = InputDisposition.Applied ∧
  ConnectionTransition.cancel_outcome out.1.2 = None.
Proof.
  intros Hp Hw Hheld Hc Hag Hwo Hfr out. unfold out.
  rewrite (write_completed_enters _ _ _ _ _ _ _ Hp Hw Hheld).
  destruct (release_write_accounts _ _ _ _ _ _ _ Hp Hheld) as [Hacc Hlim].
  cbv zeta in Hacc, Hlim |- *. rewrite Hc, bool_decide_eq_false_2 by done.
  set (heap' := Heap.borrow_mut _ _ _) in *.
  destruct (lookup_known _ _ _ _ _ _ _ Hp) as (_ & _ & _ & Hrem).
  unfold ConnectionMachine.finish_write. rewrite Hrem.
  set (tr := if bool_decide _ then _ else _).
  assert (ConnectionTransition.effects tr = released (ConnectionMachine.epoch m) x
    (OperationOutcome.WriteComplete (Owned.delivery x)) ∧
    ConnectionTransition.disposition tr = InputDisposition.Applied ∧
    ConnectionTransition.cancel_outcome tr = None) as (Heff & Hd & Hcan).
  { unfold tr, released, Owned.terminal, OperationRecord.is_terminal. by case_bool_decide. }
  assert (moved limits permits m (l1 ++ x :: l2) heap (ConnectionTransition.effects tr)
    (with_records m (Owned.record <$> (l1 ++ l2))) (l1 ++ l2)
    (Heap.borrow_mut heap' (ConnectionMachine.ledger m)
       (λ l, ReservationLedger.release_operation l
               (OperationRecord.reservation (Owned.record x)) false)) []) as Hmv.
  { eapply (moved_release limits l1 x l2 permits m heap heap' false
      (OperationOutcome.WriteComplete (Owned.delivery x))); [done|done|done| |by split| |].
    - apply same_heap_borrow_mut.
    - rewrite Heff. unfold released. by destruct (Owned.terminal x).
    - rewrite Heff, frames_remove, Hfr, frames_app. apply discarding_visible. unfold released.
      destruct (Owned.terminal x); by repeat constructor. }
  split; [by eapply moved_drain|].
  pose proof (Closing.finish_drain_spec _ _ _ _ _ tr (mv_policy _ _ _ _ _ _ _ _ _ _ Hmv) Hag) as Hf.
  unfold with_records in Hf.
  destruct (ConnectionMachine.finish_drain _ _ _) as [[m2 tr2] heap2].
  destruct Hf as (es & ? & (Hd2 & Hc2 & _) & _). simpl. by rewrite Hd2, Hc2.
Qed.

End machine_progress.
End MachineProgress.

Module CoreProgress.
Section core_progress.
Context {Cal : Calandria} {BB : ByteBudgetLib} {Build : BuildConfig} {F : Type}.
Context {Laws : CalandriaLaws Cal} {BLaws : ByteBudgetLaws BB}.
Implicit Types (entries : list (Owned.t F)) (x : Owned.t F) (permits : list OperationPermit.t).
Implicit Types (self : ConnectionCore.t F) (heap : Heap.t) (f : QueuedWrite.t F).

Import MachineProgress.

(** The front of the writer is the frame of the first operation that has
    one. *)
Lemma frames_front entries f fs :
  frames entries = f :: fs →
  ∃ l1 x l2, entries = l1 ++ x :: l2 ∧ Owned.frame x = Some f ∧ frames l1 = [] ∧ frames l2 = fs.
Proof.
  induction entries as [|x l IH]; [done|]. unfold frames in *. simpl.
  destruct (Owned.frame x) as [g|] eqn:Hx.
  - intros [= -> <-]. by exists [], x, l.
  - intros Heq. destruct (IH Heq) as (l1 & y & l2 & -> & Hy & Hl1 & Hl2).
    exists (x :: l1), y, l2. simpl. by rewrite Hx.
Qed.

Lemma frames_nil entries : frames entries = [] → Forall (λ o, Owned.frame o = None) entries.
Proof.
  induction entries as [|x l IH]; [constructor|]. unfold frames in *. simpl.
  destruct (Owned.frame x) eqn:Hx; [done|]. constructor; auto.
Qed.

Lemma wire_order_tail l1 x l2 :
  Owned.wire_order (l1 ++ x :: l2) → is_Some (Owned.frame x) →
  Forall (λ o, is_Some (Owned.frame o)) l2.
Proof.
  intros (w & q & Heq & Hw & Hq) [f Hf].
  apply app_eq_inv in Heq as [(k & -> & ->)|(k & -> & Heq)].
  - apply Forall_app in Hq as [_ Hq]. by apply Forall_cons in Hq as [_ ?].
  - destruct k as [|y k]; simpl in Heq.
    + subst q. by apply Forall_cons in Hq as [_ ?].
    + injection Heq as -> ->. apply Forall_app in Hw as [_ Hw].
      apply Forall_cons in Hw as [? _]. congruence.
Qed.

(** Progress of the front keeps the order. *)
Lemma wire_order_replace_some l1 x x' l2 :
  Owned.wire_order (l1 ++ x :: l2) → is_Some (Owned.frame x) → frames l1 = [] →
  is_Some (Owned.frame x') → Owned.wire_order (l1 ++ x' :: l2).
Proof.
  intros Hwo Hs Hl1 Hx'. exists l1, (x' :: l2). split; [done|].
  split; [by apply frames_nil|]. constructor; [done|]. by eapply wire_order_tail.
Qed.

(** Once the front frame is written its operation joins the ones before it. *)
Lemma wire_order_written l1 x x' l2 :
  Owned.wire_order (l1 ++ x :: l2) → is_Some (Owned.frame x) → frames l1 = [] →
  Owned.frame x' = None → Owned.wire_order (l1 ++ x' :: l2).
Proof.
  intros Hwo Hs Hl1 Hx'. exists (l1 ++ [x']), l2. rewrite <- app_assoc. split; [done|].
  split; [|by eapply wire_order_tail]. apply Forall_app. split; [by apply frames_nil|].
  by constructor.
Qed.

(** The policy only depends on the records. *)
Lemma policy_records limits entries entries' permits m heap :
  policy limits entries permits m heap →
  Owned.record <$> entries' = Owned.record <$> entries →
  policy limits entries' permits m heap.
Proof.
  intros [] Heq.
  assert (∀ (A : Type) (g : OperationRecord.t → A),
    (λ o : Owned.t F, g (Owned.record o)) <$> entries' =
    (λ o : Owned.t F, g (Owned.record o)) <$> entries) as Hg.
  { intros A g. change (λ o : Owned.t F, g (Owned.record o)) with (g ∘ @Owned.record Cal F).
    by rewrite !list_fmap_compose, Heq. }
  assert (holdings entries' permits = holdings entries permits) as Hh.
  { unfold holdings, Owned.holding. f_equal.
    apply (Hg _ (λ r, ReservationLedger.hold (OperationRecord.reservation r)
      (OperationRecord.write_held r) false)). }
  assert (op_ids entries' permits = op_ids entries permits ∧
    eff_ids entries' permits = eff_ids entries permits) as [Ho He].
  { split; unfold op_ids, eff_ids; f_equal; apply (Hg _ _). }
  split; rewrite ?Hh, ?Ho, ?He; try done; [by rewrite pol_records0|].
  destruct pol_life0 as [?|(? & ? & ? & ->)]; [by left|]. right. by destruct entries'.
Qed.

(** ** The stages of [advance_write] *)

Lemma foldl_push {R : Type} (es : list (ConnectionEffect.t R)) (tr : ConnectionTransition.t R) :
  foldl ConnectionTransition.push tr es =
    ConnectionTransition.mk (ConnectionTransition.disposition tr)
      (ConnectionTransition.cancel_outcome tr) (ConnectionTransition.effects tr ++ es).
Proof.
  revert tr. induction es as [|e es IH]; intros tr; simpl.
  - rewrite app_nil_r. by destruct tr.
  - rewrite IH. simpl. by rewrite <- app_assoc.
Qed.

Lemma absorb_spec limits epoch combined tr op eff self heap l l' ds os ws a :
  ConnectionTransition.disposition tr = InputDisposition.Applied →
  discarding epoch (ConnectionTransition.effects tr) l l' ds →
  writer limits epoch (ConnectionCore.writes self) l →
  RecoveryJournal.holds (ConnectionCore.journal self) (op_slots limits) (write_slots limits)
    a os ws →
  (length ws + length ds ≤ write_slots limits)%nat →
  ∃ q' j', ConnectionCore.absorb_write_transition combined tr op eff (self, heap) =
      (ConnectionCore.set_journal (ConnectionCore.set_writes self q') j', heap,
       Ok (ConnectionTransition.mk (ConnectionTransition.disposition combined)
             (ConnectionTransition.cancel_outcome combined)
             (ConnectionTransition.effects combined ++
              visible (ConnectionTransition.effects tr)))) ∧
    writer limits epoch q' l' ∧
    RecoveryJournal.holds j' (op_slots limits) (write_slots limits) a os
      (ws ++ (DiscardedWrite.into_discarded <$> ds)).
Proof.
  intros Hd Hds Hq Hj Hlen.
  destruct (reconcile_spec _ _ _ self heap _ _ _ _ _ _ Hds Hq Hj Hlen)
    as (q' & j' & Hrec & Hq' & Hj').
  exists q', j'. split; [|done]. unfold ConnectionCore.absorb_write_transition.
  rewrite bool_decide_eq_true_2 by done. cbn [negb].
  rewrite (ste_bind_ok _ _ _ _ _ Hrec). by rewrite foldl_push.
Qed.

(** The first stage: the policy learns that bytes crossed the boundary. *)
Definition start_stage (epoch : ConnectionEpoch.t) (operation : OperationId.t)
    (effect : EffectId.t) (boundary : WriteBoundary.t)
    (combined : ConnectionTransition.t unit)
    : ConnectionCore.M (F := F) (ConnectionTransition.t unit) :=
  if bool_decide (boundary = WriteBoundary.Crossed) then
    let! transition :=
      ConnectionCore.machine_step (λ machine heap,
        ConnectionMachine.write_started machine epoch operation effect heap) in
    ConnectionCore.absorb_write_transition combined transition operation effect
  else ste_ret combined.

(** The record after the first stage. *)
Definition crossed (boundary : WriteBoundary.t) (r : OperationRecord.t) : OperationRecord.t :=
  if bool_decide (boundary = WriteBoundary.Crossed) then started r else r.

Lemma start_stage_spec limits l1 x l2 permits self heap boundary frame combined :
  policy limits (l1 ++ x :: l2) permits (ConnectionCore.machine self) heap →
  (boundary = WriteBoundary.Crossed → Owned.phase x = OperationPhase.Queued) →
  let x1 := Owned.mk (crossed boundary (Owned.record x)) frame in
  ∃ m1, start_stage (ConnectionCore.epoch self) (Owned.id x) (Owned.effect x) boundary combined
      (self, heap) = (ConnectionCore.set_machine self m1, heap, Ok combined) ∧
    policy limits (l1 ++ x1 :: l2) permits m1 heap ∧
    m1 = with_records (ConnectionCore.machine self) (Owned.record <$> (l1 ++ x1 :: l2)).
Proof.
  intros Hp Hq x1. unfold start_stage, x1, crossed. case_bool_decide as Hb.
  - destruct (write_started_spec _ _ _ _ _ _ _ frame Hp (Hq Hb)) as [Hrun Hp1].
    eexists. split; [|split; [exact Hp1|done]].
    set (tr := ConnectionTransition.new (F := unit) InputDisposition.Applied) in *.
    rewrite (ste_bind_ok _ _ _ (ConnectionCore.set_machine self
      (with_records (ConnectionCore.machine self) (Owned.record <$>
         (l1 ++ Owned.mk (started (Owned.record x)) frame :: l2))), heap) tr).
    + unfold ConnectionCore.absorb_write_transition, ConnectionCore.reconcile. simpl.
      by destruct combined.
    + unfold ConnectionCore.machine_step, ConnectionCore.epoch. by rewrite Hrun.
  - exists (ConnectionCore.machine self). split; [by destruct self|]. split.
    + eapply policy_records; [exact Hp|]. by rewrite !fmap_app, !fmap_cons.
    + pose proof (pol_records _ _ _ _ _ Hp) as Hrec. rewrite fmap_app, fmap_cons in *.
      unfold with_records, ConnectionMachine.set_matching, OrderedVerified.set_pending.
      simpl. rewrite <- Hrec. by destruct (ConnectionCore.machine self) as [????????? []].
Qed.

(** The completed frame and its record are kept in the journal. *)
Lemma retain_completed_spec limits self heap op eff frame measure delivery i r :
  RecoveryJournal.holds (ConnectionCore.journal self) (op_slots limits) (write_slots limits)
    true [] [] →
  (0 < op_slots limits)%nat → (0 < write_slots limits)%nat →
  OrderedVerified.get_indexed (ConnectionCore.matching self) op = Some (i, r) →
  ∃ j, ConnectionCore.retain_completed op eff frame measure delivery (self, heap) =
      (ConnectionCore.set_journal self j, heap, Ok tt) ∧
    RecoveryJournal.holds j (op_slots limits) (write_slots limits) true
      [JournalOperation.of_record r i]
      [DiscardedWrite.mk op eff frame measure (FrameMeasure.wire_bytes measure) delivery].
Proof.
  intros Hj Ho Hw Hget. unfold ConnectionCore.retain_completed.
  destruct (RecoveryJournal.retain_write_holds _ _ _ _ _ _
    (DiscardedWrite.mk op eff frame measure (FrameMeasure.wire_bytes measure) delivery) Hj Hw)
    as (j1 & Hret & Hj1).
  pose proof (RecoveryJournal.retain_operation_holds _ _ _ _ _ _ r i Hj1) as Hop.
  rewrite (proj2 (Nat.ltb_lt _ _)) in Hop by done. destruct Hop as (j2 & Hret2 & Hj2).
  exists j2. split; [|done].
  rewrite (ste_bind_ok _ _ _ (ConnectionCore.set_journal self j1, heap) true).
  - cbn [negb]. change (ConnectionCore.matching (ConnectionCore.set_journal self j1))
      with (ConnectionCore.matching self). rewrite Hget.
    rewrite (ste_bind_ok _ _ _
      (ConnectionCore.set_journal (ConnectionCore.set_journal self j1) j2, heap) true); [done|].
    unfold ConnectionCore.journal_retain_operation. simpl. by rewrite Hret2.
  - unfold ConnectionCore.journal_retain_write. by rewrite Hret.
Qed.

(** The second stage: the policy learns that the frame is written. *)
Definition finish_stage (epoch : ConnectionEpoch.t) (operation : OperationId.t)
    (effect : EffectId.t) (complete : bool) (combined : ConnectionTransition.t unit)
    : ConnectionCore.M (F := F) (ConnectionTransition.t unit) :=
  if complete then
    let! transition :=
      ConnectionCore.machine_step (λ machine heap,
        ConnectionMachine.write_completed machine epoch operation effect heap) in
    ConnectionCore.absorb_write_transition combined transition operation effect
  else ste_ret combined.

(** How [advance_write] classifies the progress of the queue. *)
Definition classify (progress : WriteProgress.t F)
    : ConnectionCore.M (F := F) (OperationId.t * WriteBoundary.t * bool) :=
  match progress with
  | WriteProgress.Pending operation boundary => ste_ret (operation, boundary, false)
  | WriteProgress.Complete operation effect frame measure boundary delivery =>
      ConnectionCore.retain_completed operation effect frame measure delivery ;;!
      ste_ret (operation, boundary, true)
  end.

(** [advance_write] is its stages. *)
Lemma advance_write_stages epoch effect written :
  ConnectionCore.advance_write (F := F) epoch effect written =
  (ConnectionCore.ensure_healthy ;;!
   ConnectionCore.begin_write_recovery_journal ;;!
   let! progress := ConnectionCore.advance_queue epoch effect written in
   let! (operation, boundary, complete) := classify progress in
   let! combined := start_stage epoch operation effect boundary
     (ConnectionTransition.new InputDisposition.Applied) in
   let! combined := finish_stage epoch operation effect complete combined in
   ConnectionCore.ensure_healthy ;;! ConnectionCore.clear_journal ;;! ste_ret combined).
Proof. reflexivity. Qed.

(** ** The record behind the front frame *)

Record front_facts x (r1 : OperationRecord.t) f (written : Z) : Prop := mk_front_facts {
  ff_start : WriteQueue.crossing f written = WriteBoundary.Crossed →
    Owned.phase x = OperationPhase.Queued;
  ff_held : OperationRecord.write_held r1 = true;
  ff_writing : ∀ o : option (QueuedWrite.t F), writing (Owned.mk r1 o);
  ff_advances : ∀ o, advances x (Owned.mk r1 o);
  ff_sent : 0 < written → OperationRecord.delivery r1 = Delivery.PossiblySent;
  ff_agrees : Owned.agrees (Owned.mk r1 (Some
    (QueuedWrite.set_progress f (QueuedWrite.written f + written)
       (0 <? QueuedWrite.written f + written))));
  ff_terminal : OperationRecord.phase r1 = OperationPhase.Terminal →
    OperationRecord.delivery r1 = Delivery.PossiblySent;
}.

Lemma front_facts_of x f written :
  Owned.agrees x → Owned.frame x = Some f → WriteQueue.progress_ok f → 0 ≤ written →
  front_facts x (crossed (WriteQueue.crossing f written) (Owned.record x)) f written.
Proof.
  intros Hx Hf (Hw & _ & _ & Hst) Hn. unfold Owned.agrees in Hx. rewrite Hf in Hx.
  destruct Hx as (Hheld & Ho & He & Hm & Hph).
  assert (WriteQueue.crossing f written =
    if (0 <? written) && (QueuedWrite.written f =? 0) then WriteBoundary.Crossed
    else WriteBoundary.Unchanged) as Hcr by done.
  unfold crossed. destruct (Z.ltb_spec 0 written), (Z.eqb_spec (QueuedWrite.written f) 0);
    simpl in Hcr; rewrite Hcr; simpl.
  - (* the boundary is crossed *)
    assert (QueuedWrite.started f = false) as Hs by (rewrite Hst; lia).
    destruct Hph as [(Hq & Hd & _)|(_ & _ & ?)]; [|congruence].
    assert (0 <? QueuedWrite.written f + written = true) as Hpos by lia.
    split; try done.
    + intros o. by right; left.
    + intros o. unfold advances, Owned.terminal, OperationRecord.is_terminal. simpl.
      fold (Owned.phase x). rewrite Hq. by split_and!.
    + rewrite Hpos. unfold Owned.agrees. simpl. split_and!; try done. right. auto.
  - assert (QueuedWrite.started f = true) as Hs by (rewrite Hst; lia).
    destruct Hph as [(_ & _ & ?)|(Hp & Hd & _)]; [congruence|].
    assert (0 <? QueuedWrite.written f + written = true) as Hpos by lia.
    split; rewrite ?Hcr; try done.
    + intros o. by right.
    + rewrite Hpos. unfold Owned.agrees. simpl. split_and!; try done. by right.
  - assert (written = 0) as -> by lia.
    split; rewrite ?Hcr; try done.
    + intros o. unfold writing. by destruct Hph as [(? & _)|(? & _)]; [left|right].
    + rewrite Z.add_0_r, <- Hst. unfold Owned.agrees. simpl.
      exact (conj Hheld (conj Ho (conj He (conj Hm Hph)))).
    + destruct Hph as [(Hq & _)|(_ & Hd & _)]; [|done]. unfold Owned.phase in Hq. congruence.
  - assert (written = 0) as -> by lia.
    split; rewrite ?Hcr; try done.
    + intros o. unfold writing. by destruct Hph as [(? & _)|(? & _)]; [left|right].
    + rewrite Z.add_0_r, <- Hst. unfold Owned.agrees. simpl.
      exact (conj Hheld (conj Ho (conj He (conj Hm Hph)))).
    + destruct Hph as [(Hq & _)|(_ & Hd & _)]; [|done]. unfold Owned.phase in Hq. congruence.
Qed.

(** ** [advance_write], by case *)

(** The journal a progress report starts with. *)
Lemma begin_write_spec limits entries permits self heap :
  owns limits entries permits (self, heap) →
  ∃ j, ConnectionCore.begin_write_recovery_journal (self, heap) =
      (ConnectionCore.set_journal self j, heap, Ok tt) ∧
    RecoveryJournal.holds j (op_slots limits) (write_slots limits) true [] [].
Proof.
  intros [_ _ Hj _]. eexists. split; [reflexivity|].
  by eapply RecoveryJournal.begin_write_progress_holds.
Qed.

(** The facts about the front that every case uses. *)
Lemma front_facts_owned limits l1 x l2 permits self heap f written :
  owns limits (l1 ++ x :: l2) permits (self, heap) → Owned.frame x = Some f → frames l1 = [] →
  0 ≤ written →
  WriteQueue.frames (ConnectionCore.writes self) = f :: frames l2 ∧
  QueuedWrite.operation f = Owned.id x ∧ QueuedWrite.effect f = Owned.effect x ∧
  WriteQueue.progress_ok f ∧
  front_facts x (crossed (WriteQueue.crossing f written) (Owned.record x)) f written.
Proof.
  intros [[Hp Hag _ _] [Hf Hwf _ _] _ _] Hx Hl1 Hn. simpl in *.
  rewrite frames_remove, Hl1, Hx in Hf. simpl in Hf.
  destruct (WriteQueue.front_ok _ _ _ Hwf Hf) as (Hpr & _).
  destruct (agrees_remove _ _ _ Hag) as [Hax _].
  pose proof (front_facts_of x f written Hax Hx Hpr Hn). unfold Owned.agrees in Hax.
  rewrite Hx in Hax. destruct Hax as (_ & Ho & He & _). by split_and!.
Qed.

(** Reports that name another epoch, find nothing queued or name another
    frame change nothing. *)
Lemma advance_rejected limits entries permits self heap e eff written :
  owns limits entries permits (self, heap) →
  (∀ f fs, e = ConnectionCore.epoch self → frames entries = f :: fs → QueuedWrite.effect f ≠ eff) →
  ∃ err, ConnectionCore.advance_write e eff written (self, heap) =
    (self, heap, Err (ConnectionCoreError.Write err)) ∧
    err = if bool_decide (e = ConnectionCore.epoch self) then
            match frames entries with
            | [] => WriteProgressError.NoPendingWrite
            | f :: _ => WriteProgressError.OutOfOrderEffect (QueuedWrite.effect f) eff
            end
          else WriteProgressError.StaleEpoch (ConnectionCore.epoch self) e.
Proof.
  intros Ho Hne. pose proof Ho as [_ [Hf _ He _] Hj _]. cbn [fst snd] in *.
  destruct (begin_write_spec _ _ _ _ _ Ho) as (j & Hbegin & Hj').
  destruct (WriteQueue.advance_reject (ConnectionCore.writes self) e eff written) as (R1 & R2 & R3).
  assert (∀ err, WriteQueue.advance (ConnectionCore.writes self) e eff written =
      (ConnectionCore.writes self, Err err) →
    match err with WriteProgressError.StaleEpoch _ _ | WriteProgressError.NoPendingWrite
      | WriteProgressError.OutOfOrderEffect _ _ => True | _ => False end →
    ConnectionCore.advance_write e eff written (self, heap) =
      (self, heap, Err (ConnectionCoreError.Write err))) as Hrun.
  { intros err Hadv Herr. rewrite advance_write_stages.
    rewrite (ste_bind_ok _ _ _ _ _ (owns_healthy _ _ _ _ Ho)).
    rewrite (ste_bind_ok _ _ _ _ _ Hbegin). apply ste_bind_err.
    unfold ConnectionCore.advance_queue.
    change (ConnectionCore.writes (ConnectionCore.set_journal self j))
      with (ConnectionCore.writes self). rewrite Hadv.
    assert (ConnectionCore.set_journal self (RecoveryJournal.clear j) = self) as Hself.
    { rewrite (journal_unique _ _ _ _ _ _ _ (RecoveryJournal.clear_holds _ _ _ _ _ _ Hj') Hj).
      by destruct self. }
    destruct self as [m q j0 p]. injection Hself as Hself.
    destruct err; try done; simpl; by rewrite Hself. }
  case_bool_decide as Hep.
  - rewrite <- Hf. destruct (WriteQueue.frames (ConnectionCore.writes self)) as [|f fs] eqn:Hfr.
    + eexists. split; [|reflexivity]. apply Hrun; [|done]. apply R2; [congruence|done].
    + eexists. split; [|reflexivity]. apply Hrun; [|done]. eapply R3; [congruence|done|].
      intros Heq. by apply (Hne f fs).
  - eexists. split; [|reflexivity]. apply Hrun; [|done]. rewrite <- He. apply R1. congruence.
Qed.

(** A report that leaves bytes to write. *)
Lemma advance_partial limits l1 x l2 permits self heap f written :
  owns limits (l1 ++ x :: l2) permits (self, heap) → Owned.frame x = Some f → frames l1 = [] →
  0 ≤ written →
  written < FrameMeasure.wire_bytes (QueuedWrite.measure f) - QueuedWrite.written f →
  let x' := Owned.mk (crossed (WriteQueue.crossing f written) (Owned.record x))
    (Some (QueuedWrite.set_progress f (QueuedWrite.written f + written)
       (0 <? QueuedWrite.written f + written))) in
  ∃ self',
    ConnectionCore.advance_write (ConnectionCore.epoch self) (QueuedWrite.effect f) written
      (self, heap) =
      (self', heap, Ok (ConnectionTransition.mk InputDisposition.Applied None [])) ∧
    owns limits (l1 ++ x' :: l2) permits (self', heap) ∧
    ConnectionCore.machine self' =
      with_records (ConnectionCore.machine self) (Owned.record <$> (l1 ++ x' :: l2)).
Proof.
  intros Ho Hx Hl1 Hn Hlt x'.
  destruct (front_facts_owned _ _ _ _ _ _ _ _ _ Ho Hx Hl1 Hn) as (Hfr & Hop & Heff & Hpr & Hff).
  destruct (begin_write_spec _ _ _ _ _ Ho) as (j & Hbegin & Hj').
  pose proof Ho as [[Hp Hag Hwo Hb] [Hf Hwf He Hl] Hj Hpois]. cbn [fst snd] in *.
  destruct (WriteQueue.advance_pending _ f _ written Hwf Hfr Hn Hlt) as [Hadv Hwf'].
  rewrite He in Hadv. set (f' := QueuedWrite.set_progress f _ _) in *.
  set (self1 := ConnectionCore.set_writes (ConnectionCore.set_journal self j)
    (WriteQueue.set_frames (ConnectionCore.writes self) (f' :: frames l2))).
  destruct (start_stage_spec limits l1 x l2 permits self1 heap _ (Some f')
    (ConnectionTransition.new InputDisposition.Applied) Hp (ff_start _ _ _ _ Hff))
    as (m1 & Hst & Hp1 & Heq1).
  assert (same_machine (ConnectionCore.machine self) m1) as Hm1 by (by rewrite Heq1).
  set (self2 := ConnectionCore.set_machine self1 m1) in *.
  assert (owns limits (l1 ++ x' :: l2) permits
    (ConnectionCore.set_journal self2 (RecoveryJournal.clear j), heap)) as Ho'.
  { destruct Hm1 as (_ & Hme & _). split; [split|..]; simpl; try done.
    - rewrite Forall_app, Forall_cons in Hag |- *. destruct Hag as (? & _ & ?).
      split_and!; try done. by apply Hff.
    - by eapply (wire_order_replace_some _ x).
    - intros _ _. by destruct l1.
    - split; simpl; try done.
      + rewrite frames_remove, Hl1. done.
      + rewrite He. unfold ConnectionCore.epoch. simpl. by rewrite Hme.
    - by eapply RecoveryJournal.clear_holds. }
  eexists. split; [|split; [exact Ho'|exact Heq1]].
  rewrite advance_write_stages, (ste_bind_ok _ _ _ _ _ (owns_healthy _ _ _ _ Ho)),
    (ste_bind_ok _ _ _ _ _ Hbegin).
  rewrite (ste_bind_ok _ _ _ (self1, heap) (WriteProgress.Pending (QueuedWrite.operation f)
    (WriteQueue.crossing f written))).
  2: { unfold ConnectionCore.advance_queue.
       change (ConnectionCore.writes (ConnectionCore.set_journal self j))
         with (ConnectionCore.writes self). by rewrite Hadv. }
  rewrite (ste_bind_ok _ _ _ (self1, heap) (QueuedWrite.operation f,
    WriteQueue.crossing f written, false)) by done. cbv beta iota.
  rewrite Hop, Heff. rewrite (ste_bind_ok _ _ _ _ _ Hst).
  rewrite (ste_bind_ok _ _ _ (self2, heap) (ConnectionTransition.new InputDisposition.Applied))
    by done.
  by apply (settle_spec _ _ _ self2 _ _ _ _ _ _ Ho' Hj').
Qed.

(** A report of the remaining bytes, up to its last stage: the frame has left
    the writer for the journal and the policy knows that bytes were sent. *)
Lemma advance_completing limits l1 x l2 permits self heap f :
  owns limits (l1 ++ x :: l2) permits (self, heap) → Owned.frame x = Some f → frames l1 = [] →
  let written := FrameMeasure.wire_bytes (QueuedWrite.measure f) - QueuedWrite.written f in
  let x1 := Owned.mk (crossed (WriteQueue.crossing f written) (Owned.record x)) None in
  ∃ q' j m1 os w,
    let self2 :=
      ConnectionCore.set_machine (ConnectionCore.set_writes (ConnectionCore.set_journal self j) q')
        m1 in
    ConnectionCore.advance_write (ConnectionCore.epoch self) (QueuedWrite.effect f) written
      (self, heap) =
      (let! combined := finish_stage (ConnectionCore.epoch self) (Owned.id x) (Owned.effect x) true
         (ConnectionTransition.new InputDisposition.Applied) in
       ConnectionCore.ensure_healthy ;;! ConnectionCore.clear_journal ;;! ste_ret combined)
        (self2, heap) ∧
    writer limits (ConnectionCore.epoch self) q' (frames l2) ∧
    RecoveryJournal.holds j (op_slots limits) (write_slots limits) true os [w] ∧
    policy limits (l1 ++ x1 :: l2) permits m1 heap ∧
    m1 = with_records (ConnectionCore.machine self) (Owned.record <$> (l1 ++ x1 :: l2)) ∧
    front_facts x (Owned.record x1) f written ∧ 0 ≤ written.
Proof.
  intros Ho Hx Hl1 written x1.
  pose proof Ho as [[Hp Hag Hwo Hb] [Hf Hwf He Hl] Hj Hpois]. cbn [fst snd] in *.
  assert (0 ≤ written) as Hn.
  { rewrite frames_remove, Hl1, Hx in Hf. simpl in Hf.
    destruct (WriteQueue.front_ok _ _ _ Hwf Hf) as ((? & _) & _). unfold written. lia. }
  destruct (front_facts_owned _ _ _ _ _ _ _ _ written Ho Hx Hl1 Hn)
    as (Hfr & Hop & Heff & Hpr & Hff).
  destruct (begin_write_spec _ _ _ _ _ Ho) as (j0 & Hbegin & Hj0).
  destruct (WriteQueue.advance_complete _ f _ Hwf Hfr) as (q' & Hadv & Hf' & He' & Hl' & Hwf').
  rewrite He in Hadv. fold written in Hadv.
  set (self1 := ConnectionCore.set_writes (ConnectionCore.set_journal self j0) q').
  destruct (lookup_known _ _ _ _ _ _ _ Hp) as (Hget & _).
  pose proof (owns_operations _ _ _ _ Ho) as Hops. pose proof (owns_frames _ _ _ _ Ho) as Hws.
  rewrite length_app in Hops. rewrite frames_remove, Hl1, Hx in Hws. simpl in Hops, Hws.
  destruct (retain_completed_spec limits self1 heap (Owned.id x) (Owned.effect x)
    (QueuedWrite.frame f) (QueuedWrite.measure f)
    (if 0 <? FrameMeasure.wire_bytes (QueuedWrite.measure f) then Delivery.PossiblySent
     else Delivery.NotSent) (length l1) (Owned.record x) Hj0) as (j & Hret & Hj');
    [lia|lia|exact Hget|].
  set (self1' := ConnectionCore.set_journal self1 j) in *.
  destruct (start_stage_spec limits l1 x l2 permits self1' heap _ None
    (ConnectionTransition.new InputDisposition.Applied) Hp (ff_start _ _ _ _ Hff))
    as (m1 & Hst & Hp1 & Hm1).
  exists q', j, m1. eexists _, _. split; [|split; [|split; [exact Hj'|by split_and!]]].
  - rewrite advance_write_stages, (ste_bind_ok _ _ _ _ _ (owns_healthy _ _ _ _ Ho)),
      (ste_bind_ok _ _ _ _ _ Hbegin).
    rewrite (ste_bind_ok _ _ _ (self1, heap) (WriteProgress.Complete (QueuedWrite.operation f)
      (QueuedWrite.effect f) (QueuedWrite.frame f) (QueuedWrite.measure f)
      (WriteQueue.crossing f written)
      (if 0 <? FrameMeasure.wire_bytes (QueuedWrite.measure f) then Delivery.PossiblySent
       else Delivery.NotSent))).
    2: { unfold ConnectionCore.advance_queue.
         change (ConnectionCore.writes (ConnectionCore.set_journal self j0))
           with (ConnectionCore.writes self). by rewrite Hadv. }
    rewrite (ste_bind_ok _ _ _ (self1', heap)
      (Owned.id x, WriteQueue.crossing f written, true)).
    2: { unfold classify. rewrite Hop, Heff. by rewrite (ste_bind_ok _ _ _ _ _ Hret). }
    cbv beta iota. rewrite Heff. by rewrite (ste_bind_ok _ _ _ _ _ Hst).
  - split; congruence.
Qed.

(** The last byte of a frame whose reply is expected: the operation keeps its
    place, without its frame. *)
Lemma advance_await limits l1 x l2 permits self heap f :
  owns limits (l1 ++ x :: l2) permits (self, heap) → Owned.frame x = Some f → frames l1 = [] →
  Owned.completion x = CompletionMode.ReplyExpected →
  let written := FrameMeasure.wire_bytes (QueuedWrite.measure f) - QueuedWrite.written f in
  let x' := Owned.mk (awaiting (crossed (WriteQueue.crossing f written) (Owned.record x))) None in
  ∃ self' heap',
    ConnectionCore.advance_write (ConnectionCore.epoch self) (QueuedWrite.effect f) written
      (self, heap) =
      (self', heap', Ok (ConnectionTransition.mk InputDisposition.Applied None [])) ∧
    owns limits (l1 ++ x' :: l2) permits (self', heap') ∧
    ConnectionCore.machine self' =
      with_records (ConnectionCore.machine self) (Owned.record <$> (l1 ++ x' :: l2)) ∧
    same_heap (ConnectionCore.machine self) heap heap'.
Proof.
  intros Ho Hx Hl1 Hc written x'.
  destruct (advance_completing _ _ _ _ _ _ _ _ Ho Hx Hl1)
    as (q' & j & m1 & os & w & Hrun & Hq' & Hj' & Hp1 & Heq1 & Hff & Hn).
  assert (same_machine (ConnectionCore.machine self) m1) as Hm1 by (by rewrite Heq1).
  fold written in Hrun, Hp1, Hff, Hn.
  set (r1 := crossed _ _) in *. set (x1 := Owned.mk r1 None) in *.
  assert (Owned.completion x1 = CompletionMode.ReplyExpected) as Hc1
    by (destruct (ff_advances _ _ _ _ Hff None) as (_ & _ & Hc' & _);
        exact (eq_trans Hc' Hc)).
  assert (Owned.id x1 = Owned.id x ∧ Owned.effect x1 = Owned.effect x) as [Hid1 Heff1]
    by (destruct (ff_advances _ _ _ _ Hff None) as (? & ? & _); done).
  destruct (write_completed_await _ _ _ _ _ _ _ Hp1 (ff_writing _ _ _ _ Hff None)
    (ff_held _ _ _ _ Hff) Hc1) as (heap' & Hwc & Hp2 & Hh2).
  change (Owned.mk (awaiting (Owned.record x1)) None) with x' in Hwc, Hp2.
  set (m2 := with_records m1 _) in *.
  assert (ConnectionMachine.epoch m1 = ConnectionCore.epoch self) as Hme by (by destruct Hm1 as (_ & ? & _)).
  set (self2 := ConnectionCore.set_machine
    (ConnectionCore.set_writes (ConnectionCore.set_journal self j) q') m2).
  assert (same_machine (ConnectionCore.machine self) m2) as Hm2 by done.
  assert (owns limits (l1 ++ x' :: l2) permits
    (ConnectionCore.set_journal self2 (RecoveryJournal.clear j), heap')) as Ho'.
  { pose proof Ho as [[Hp Hag Hwo Hb] _ _ Hpois]. cbn [fst snd] in *.
    split; [split|..]; simpl; try done.
    - rewrite Forall_app, Forall_cons in Hag |- *. destruct Hag as (? & _ & ?).
      split_and!; try done. pose proof (ff_agrees _ _ _ _ Hff) as Hax.
      pose proof (ff_terminal _ _ _ _ Hff) as Hterm.
      unfold Owned.agrees, Owned.completion, x', awaiting in *. simpl in *.
      case_bool_decide as Ht; simpl; split_and!; try done; [by right; auto|by left].
    - eapply (wire_order_written _ x); try done.
    - intros _ _. by destruct l1.
    - rewrite frames_remove, Hl1. unfold ConnectionCore.epoch. simpl. by rewrite Hme.
    - by eapply RecoveryJournal.clear_holds. }
  exists (ConnectionCore.set_journal self2 (RecoveryJournal.clear j)), heap'.
  split; [|split; [exact Ho'|split; [unfold self2, m2; by rewrite Heq1|]]].
  - rewrite Hrun. unfold finish_stage.
    rewrite (ste_bind_ok _ _ _ (self2, heap') (ConnectionTransition.new InputDisposition.Applied)).
    { by apply (settle_spec _ _ _ self2 _ _ _ _ _ _ Ho' Hj'). }
    rewrite (ste_bind_ok _ _ _ (self2, heap') (ConnectionTransition.new InputDisposition.Applied)).
    { done. }
    unfold ConnectionCore.machine_step. simpl. rewrite <- Hid1, <- Heff1, <- Hme. by rewrite Hwc.
  - by eapply same_heap_trans; [exact Hm1|done|exact Hh2].
Qed.

(** The last byte of a frame that completes its operation: the operation is
    released with its outcome, and a drain it was the last of is closed. *)
Lemma advance_finish limits l1 x l2 permits self heap f :
  owns limits (l1 ++ x :: l2) permits (self, heap) → Owned.frame x = Some f → frames l1 = [] →
  Owned.completion x = CompletionMode.WriteComplete →
  let written := FrameMeasure.wire_bytes (QueuedWrite.measure f) - QueuedWrite.written f in
  let x1 := Owned.mk (crossed (WriteQueue.crossing f written) (Owned.record x)) None in
  let m1 := with_records (ConnectionCore.machine self) (Owned.record <$> (l1 ++ x1 :: l2)) in
  ∃ self' heap' tr,
    let entries' := l1 ++ l2 in
    let es := visible (ConnectionTransition.effects tr) in
    ConnectionMachine.write_completed m1 (ConnectionMachine.epoch m1) (Owned.id x)
      (Owned.effect x) heap = (ConnectionCore.machine self', tr, heap') ∧
    policy limits (l1 ++ x1 :: l2) permits m1 heap ∧
    ConnectionCore.advance_write (ConnectionCore.epoch self) (QueuedWrite.effect f) written
      (self, heap) =
      (self', heap', Ok (ConnectionTransition.mk InputDisposition.Applied None es)) ∧
    owns limits entries' permits (self', heap') ∧
    same_machine (ConnectionCore.machine self) (ConnectionCore.machine self') ∧
    same_heap (ConnectionCore.machine self) heap heap' ∧
    change (ConnectionCore.epoch self) (l1 ++ x1 :: l2) es entries'.
Proof.
  intros Ho Hx Hl1 Hc written x1 m1.
  destruct (advance_completing _ _ _ _ _ _ _ _ Ho Hx Hl1)
    as (q' & j & m1' & os & w & Hrun & Hq' & Hj' & Hp1 & Heq1 & Hff & Hn).
  fold written in Hrun, Hp1, Hff, Hn, Heq1. fold x1 in Hp1, Hff, Heq1. fold m1 in Heq1. subst m1'.
  assert (same_machine (ConnectionCore.machine self) m1) as Hm1 by done. clearbody m1.
  pose proof Ho as [[Hp Hag Hwo Hb] _ _ Hpois]. cbn [fst snd] in *.
  destruct (agrees_remove _ _ _ Hag) as [_ Hag'].
  destruct (ff_advances _ _ _ _ Hff None) as (Hid1 & Heff1 & Hc1 & _).
  destruct (write_completed_finish _ _ _ _ _ _ _ Hp1 (ff_writing _ _ _ _ Hff None)
    (ff_held _ _ _ _ Hff) (eq_trans Hc1 Hc) Hag' (wire_order_remove _ _ _ Hwo) eq_refl)
    as (Hh & Hd & Hcan).
  pose proof Hm1 as (Hml & Hme & Hmi).
  destruct (ConnectionMachine.write_completed _ _ _ _ _) as [[m2 tr] heap'] eqn:Hwc.
  destruct Hh as (ds & Hmv & Hag2 & Hwo2 & Hb2). cbn [fst snd] in Hd, Hcan.
  set (entries' := l1 ++ l2) in *.
  pose proof (mv_discard _ _ _ _ _ _ _ _ _ _ Hmv) as Hds.
  pose proof (mv_change _ _ _ _ _ _ _ _ _ _ Hmv) as Hch.
  pose proof (mv_policy _ _ _ _ _ _ _ _ _ _ Hmv) as Hp2.
  pose proof (mv_heap _ _ _ _ _ _ _ _ _ _ Hmv) as Hh2.
  destruct (mv_same _ _ _ _ _ _ _ _ _ _ Hmv) as (Hml2 & Hme2 & Hmi2).
  rewrite frames_remove, Hl1 in Hds. simpl in Hds. rewrite Hme in Hds, Hch.
  pose proof (owns_frames _ _ _ _ Ho) as Hws. rewrite frames_remove, Hl1, Hx in Hws. simpl in Hws.
  pose proof (discarding_length _ _ _ _ _ Hds) as Hdl.
  set (self2 := ConnectionCore.set_machine
    (ConnectionCore.set_writes (ConnectionCore.set_journal self j) q') m2).
  destruct (absorb_spec limits _ (ConnectionTransition.new InputDisposition.Applied) tr
    (Owned.id x) (Owned.effect x) self2 heap' _ _ _ _ _ _ Hd Hds Hq' Hj')
    as (q2 & j2 & Habs & Hq2 & Hj2); [simpl; lia|].
  assert (same_machine (ConnectionCore.machine self) m2) as Hm2
    by (split_and!; congruence).
  assert (owns limits entries' permits
    (ConnectionCore.set_journal (ConnectionCore.set_writes self2 q2) (RecoveryJournal.clear j2),
     heap')) as Ho'.
  { split; [by split|..]; simpl; try done.
    - unfold ConnectionCore.epoch. simpl. rewrite Hme2, Hme. done.
    - by eapply RecoveryJournal.clear_holds. }
  exists (ConnectionCore.set_journal (ConnectionCore.set_writes self2 q2)
    (RecoveryJournal.clear j2)), heap', tr. cbv zeta.
  split; [rewrite <- Hid1, <- Heff1; exact Hwc|]. split; [exact Hp1|].
  split; [|split; [exact Ho'|split; [exact Hm2|split; [|exact Hch]]]].
  - rewrite Hrun. erewrite ste_bind_ok.
    2: { unfold finish_stage. rewrite (ste_bind_ok _ _ _ (self2, heap') tr); [exact Habs|].
         unfold ConnectionCore.machine_step. simpl. rewrite <- Hid1, <- Heff1.
         unfold ConnectionCore.epoch at 1. rewrite <- Hme. change (Owned.mk (Owned.record x1) None) with x1. by rewrite Hwc. }
    by apply (settle_spec _ _ _ (ConnectionCore.set_writes self2 q2) _ _ _ _ _ _ Ho' Hj2).
  - by eapply same_heap_trans; [exact Hm1|done|exact Hh2].
Qed.

(** Borrowing the front: nothing is queued, or the next bytes of the first
    frame; the core does not change. *)
Lemma front_write_spec {W : WriteFrame F} limits entries permits self heap maximum :
  owns limits entries permits (self, heap) → 1 ≤ nonzero_get maximum →
  WriteQueue.stable (frames entries) →
  ConnectionCore.front_write maximum (self, heap) =
    (self, heap, Ok match frames entries with
                    | [] => None
                    | f :: _ => Some (WriteSlice.mk (ConnectionCore.epoch self)
                        (QueuedWrite.operation f) (QueuedWrite.effect f)
                        (take (Z.to_nat (nonzero_get maximum))
                           (drop (Z.to_nat (QueuedWrite.written f))
                              (frame_bytes (QueuedWrite.frame f)))))
                    end).
Proof.
  intros [[Hp _ _ _] [Hf Hwf He _] _ Hpois] Hmax Hst. cbn [fst snd] in *.
  unfold ConnectionCore.front_write. rewrite Hpois. unfold ConnectionCore.ledger_of.
  rewrite (ReservationLedger.acc_poisoned _ _ (pol_accounts _ _ _ _ _ Hp)).
  destruct (frames entries) as [|f fs].
  - unfold WriteQueue.front. by rewrite Hf.
  - apply Forall_cons in Hst as [Hlen _].
    rewrite (WriteQueue.front_spec _ _ _ maximum Hwf Hf Hmax Hlen). by rewrite He.
Qed.

(** A frame that changed its byte view poisons the core. *)
Lemma front_write_violation {W : WriteFrame F} limits entries permits self heap maximum f fs :
  owns limits entries permits (self, heap) → frames entries = f :: fs →
  Z.of_nat (length (frame_bytes (QueuedWrite.frame f))) ≠
    FrameMeasure.wire_bytes (QueuedWrite.measure f) →
  let violation := FrameContractViolation.WireLengthChanged
    (FrameMeasure.wire_bytes (QueuedWrite.measure f))
    (Z.of_nat (length (frame_bytes (QueuedWrite.frame f)))) in
  let invariant := ConnectionCoreInvariant.FrameContractViolation violation in
  ConnectionCore.front_write maximum (self, heap) =
    (ConnectionCore.set_poisoned self (Some invariant), heap,
     Err (ConnectionCoreError.Invariant invariant)).
Proof.
  intros [[Hp _ _ _] [Hf Hwf He _] _ Hpois] Hfr Hne violation invariant. cbn [fst snd] in *.
  unfold ConnectionCore.front_write. rewrite Hpois. unfold ConnectionCore.ledger_of.
  rewrite (ReservationLedger.acc_poisoned _ _ (pol_accounts _ _ _ _ _ Hp)).
  rewrite (WriteQueue.front_violation _ f fs) by congruence.
  unfold ConnectionCore.poison. by rewrite Hpois.
Qed.

(** A report of more bytes than remain poisons the core; write ownership is
    recorded as begun, and the journal stays armed. *)
Lemma advance_overreported_holds limits l1 x l2 permits self heap f written :
  owns limits (l1 ++ x :: l2) permits (self, heap) → Owned.frame x = Some f → frames l1 = [] →
  let remaining :=
    FrameMeasure.wire_bytes (QueuedWrite.measure f) - QueuedWrite.written f in
  remaining < written →
  let invariant := ConnectionCoreInvariant.WriteProgressContract written remaining in
  ∃ self', ConnectionCore.advance_write (ConnectionCore.epoch self) (QueuedWrite.effect f) written
      (self, heap) = (self', heap, Err (ConnectionCoreError.Invariant invariant)) ∧
    ConnectionCore.poisoned self' = Some invariant ∧
    RecoveryJournal.holds (ConnectionCore.journal self') (op_slots limits) (write_slots limits)
      true [] [] ∧
    ConnectionCore.machine self' = ConnectionCore.machine self ∧
    WriteQueue.frames (ConnectionCore.writes self') =
      QueuedWrite.set_progress f (QueuedWrite.written f)
        (QueuedWrite.started f || (0 <? written)) :: frames l2.
Proof.
  intros Ho Hx Hl1 remaining Hlt invariant.
  destruct (front_facts_owned _ _ _ _ _ _ _ _ 0 Ho Hx Hl1) as (Hfr & Hop & Heff & Hpr & _);
    [done|].
  destruct (begin_write_spec _ _ _ _ _ Ho) as (j & Hbegin & Hj').
  pose proof Ho as [_ [Hf Hwf He Hl] Hj Hpois]. cbn [fst snd] in *.
  pose proof (WriteQueue.advance_exceeds _ f _ written Hwf Hfr Hlt) as Hadv. rewrite He in Hadv.
  fold remaining in Hadv.
  set (q' := WriteQueue.set_frames _ _) in Hadv.
  exists (ConnectionCore.set_poisoned
    (ConnectionCore.set_writes (ConnectionCore.set_journal self j) q') (Some invariant)).
  split; [|split; [done|split; [exact Hj'|by split]]].
  rewrite advance_write_stages, (ste_bind_ok _ _ _ _ _ (owns_healthy _ _ _ _ Ho)),
    (ste_bind_ok _ _ _ _ _ Hbegin).
  apply ste_bind_err. unfold ConnectionCore.advance_queue.
  change (ConnectionCore.writes (ConnectionCore.set_journal self j))
    with (ConnectionCore.writes self). rewrite Hadv.
  unfold ConnectionCore.poison. simpl. by rewrite Hpois.
Qed.

End core_progress.
End CoreProgress.
