(* ===== verification/System.v ===== *)
(** * Whole runs of one connection epoch

    A [world] is a core, the heap, the permits handed out and not yet
    consumed, and the history an observer could have kept: accepted
    operations, published outcomes, cancelled deadlines, and operations of
    which a positive number of bytes was reported written. [exec] runs one
    call; [reachable] are the worlds that any sequence of admissible calls
    leads to. Admissible means that frames keep the byte view measured at
    commit and that the transport reports no more bytes than remain. *)
From Stdlib Require Import ZArith Lia.
From stdpp Require Import prelude.
From S2P Require Import Prelude External Identity Limits Admission KeySet Ledger Permit Operation.
From S2P Require Import Matching Write Machine Journal Core Ownership MachineSpec CoreSpec.
From S2P Require Import CoreAdmission CoreProgress.

Import Policy Change Step Handlers Inputs Permits CoreSpec History.

Module System.
Section system.
Context {Cal : Calandria} {BB : ByteBudgetLib} {Build : BuildConfig} {F R : Type}.

Record world : Type := mk_world {
  core : ConnectionCore.t F;
  heap : Heap.t;
  permits : list OperationPermit.t;
  accepted : list OperationId.t;
  published : list (OperationId.t * option Delivery.t);
  timers : list OperationId.t;
  sent : list OperationId.t;
}.

Definition start (endpoint : EndpointId.t) (lane : LaneId.t) (connection : ConnectionId.t)
    (epoch : ConnectionEpoch.t) (limits : ConnectionLimits.t) (seeds : IdentitySeeds.t)
    (ledger : LedgerRef) (heap : Heap.t) : world :=
  let '(core, heap) :=
    ConnectionCore.with_identity_seeds endpoint lane connection epoch limits seeds ledger heap in
  mk_world core heap [] [] [] [] [].

(** One call by the owner of the core. A permit is named by its position among
    the outstanding ones; a frame comes with the byte view it shows. *)
Inductive command : Type :=
  | Reserve (now : Moment) (options : OperationOptions.t)
  | Commit (permit : nat) (W : WriteFrame F) (frame : F)
  | CommitForeign (permit : OperationPermit.t) (W : WriteFrame F) (frame : F)
  | DropPermit (permit : nat)
  | Apply (input : ConnectionInput.t)
  | ApplyReply (reply : InboundReply.t R)
  | FrontWrite (W : WriteFrame F) (maximum : NonZeroUsize)
  | AdvanceWrite (epoch : ConnectionEpoch.t) (effect : EffectId.t) (written : Z).

(** The world after a call that leaves the history alone. *)
Definition moved_to (w : world) (s : ConnectionCore.state F) (ps : list OperationPermit.t)
    : world :=
  mk_world s.1 s.2 ps (accepted w) (published w) (timers w) (sent w).

(** The world after a call that returned a transition, or failed. *)
Definition observed {A E : Type} (w : world) (s : ConnectionCore.state F)
    (r : result (ConnectionTransition.t A) E) : world :=
  match r with
  | Err _ => moved_to w s (permits w)
  | Ok tr =>
      mk_world s.1 s.2 (permits w) (accepted w)
        (published w ++ published_of (ConnectionTransition.effects tr))
        (timers w ++ timers_of (ConnectionTransition.effects tr)) (sent w)
  end.

(** [written] bytes of the front frame were reported. *)
Definition reported (w : world) (written : Z) : world :=
  mk_world (core w) (heap w) (permits w) (accepted w) (published w) (timers w)
    (sent w ++ match WriteQueue.frames (ConnectionCore.writes (core w)) with
               | f :: _ => if 0 <? written then [QueuedWrite.operation f] else []
               | [] => []
               end).

Definition exec (w : world) (c : command) : world :=
  let s := (core w, heap w) in
  match c with
  | Reserve now options =>
      match ConnectionCore.reserve now options s with
      | (s, Ok p) => moved_to w s (p :: permits w)
      | (s, Err _) => moved_to w s (permits w)
      end
  | Commit i W frame =>
      match permits w !! i with
      | None => w
      | Some p =>
          match ConnectionCore.commit p frame s with
          | (s, Ok (op, tr)) =>
              let w := observed w s (Ok (E := unit) tr) in
              mk_world (core w) (heap w) (delete i (permits w)) (accepted w ++ [op])
                (published w) (timers w) (sent w)
          | (s, Err _) => moved_to w s (permits w)
          end
      end
  | CommitForeign p W frame => moved_to w (ConnectionCore.commit p frame s).1 (permits w)
  | DropPermit i =>
      match permits w !! i with
      | None => w
      | Some p => moved_to w (core w, (OperationPermit.drop p (heap w)).2) (delete i (permits w))
      end
  | Apply input => let '(s, r) := ConnectionCore.apply input s in observed w s r
  | ApplyReply reply => let '(s, r) := ConnectionCore.apply_reply reply s in observed w s r
  | FrontWrite W maximum => moved_to w (ConnectionCore.front_write maximum s).1 (permits w)
  | AdvanceWrite epoch effect written =>
      let '(s, r) := ConnectionCore.advance_write epoch effect written s in
      match r with
      | Ok _ => observed (reported w written) s r
      | Err _ => observed w s r
      end
  end.

(** What the model asks of frames, transport and callers. *)
Definition admissible (w : world) (c : command) : Prop :=
  match c with
  | Commit _ W frame => Z.of_nat (length (frame_bytes frame)) ≤ USIZE_MAX
  | CommitForeign p W frame =>
      OperationPermit.ledger p ≠ ConnectionMachine.ledger (ConnectionCore.machine (core w))
  | FrontWrite W maximum =>
      1 ≤ nonzero_get maximum ∧
      WriteQueue.stable (WriteQueue.frames (ConnectionCore.writes (core w)))
  | AdvanceWrite epoch effect written =>
      0 ≤ written ∧
      ∀ f rest, WriteQueue.frames (ConnectionCore.writes (core w)) = f :: rest →
        epoch = ConnectionCore.epoch (core w) → effect = QueuedWrite.effect f →
        written ≤ FrameMeasure.wire_bytes (QueuedWrite.measure f) - QueuedWrite.written f
  | _ => True
  end.

Inductive reachable (init : world) : world → Prop :=
  | reachable_init : reachable init init
  | reachable_step w c : reachable init w → admissible w c → reachable init (exec w c).

(** ** The invariant of a run *)

(** The history accounts for every accepted operation. *)
Record accounted (w : world) (entries : list (Owned.t F)) : Prop := mk_accounted {
  ac_nodup : NoDup (accepted w ++ (OperationPermit.operation <$> permits w));
  ac_used : Forall (λ o, IdentityGenerator.used
    (IdentityGenerator.operation (ConnectionMachine.identities (ConnectionCore.machine (core w))))
    (OperationId.get o)) (accepted w);
  ac_outcomes : accepted w ≡ₚ (published w).*1 ++ Owned.live entries;
  ac_timers : accepted w ≡ₚ timers w ++ (Owned.id <$> entries);
  ac_sound : sound (sent w) entries;
  ac_sent : ∀ op, op ∈ sent w → op ∈ accepted w;
  ac_unsent : ∀ op, (op, Some Delivery.NotSent) ∈ published w → op ∉ sent w ∧ op ∈ timers w;
}.

Definition consistent (limits : ConnectionLimits.t) (w : world) : Prop :=
  ∃ entries, owns limits entries (permits w) (core w, heap w) ∧ accounted w entries.

Context {Laws : CalandriaLaws Cal} {BLaws : ByteBudgetLaws BB}.

(** A new core owns nothing. *)
Lemma start_owns endpoint lane connection epoch limits seeds ledger h :
  ConnectionLimits.valid limits → in_u64 (IdentitySeeds.operation seeds) →
  in_u64 (IdentitySeeds.effect seeds) →
  owns limits [] []
    (ConnectionCore.with_identity_seeds endpoint lane connection epoch limits seeds ledger h
       : ConnectionCore.state F).
Proof.
  intros Hv Hso Hse. split.
  - split; simpl; [|constructor|by exists [], []|by intros _ ?].
    split; simpl; rewrite ?Heap.borrow_store_eq; try done.
    * by apply ReservationLedger.new_accounts.
    * split; try apply NoDup_nil_2; try apply Forall_nil_2; simpl; naive_solver.
    * by left.
  - split; simpl; try done. apply WriteQueue.new_wf.
    destruct Hv as (_ & ? & _). simpl. unfold WriteQueueLimits.max_frames. simpl.
    change (0 ≤ ConnectionLimits.max_write_frames limits). lia.
  - apply RecoveryJournal.new_holds.
  - done.
Qed.

Lemma start_consistent endpoint lane connection epoch limits seeds ledger h :
  ConnectionLimits.valid limits → in_u64 (IdentitySeeds.operation seeds) →
  in_u64 (IdentitySeeds.effect seeds) →
  consistent limits (start endpoint lane connection epoch limits seeds ledger h).
Proof.
  intros Hv Hso Hse. exists []. split; [by apply start_owns|].
  split; simpl; try done; try constructor; set_solver.
Qed.

(** ** Steps *)

(** A handler's effects extend the history as its change says. *)
Lemma accounted_change {A E : Type} w entries entries' self' heap' (tr : ConnectionTransition.t A) :
  accounted w entries →
  ConnectionMachine.identities (ConnectionCore.machine self') =
    ConnectionMachine.identities (ConnectionCore.machine (core w)) →
  change (ConnectionCore.epoch (core w)) entries (ConnectionTransition.effects tr) entries' →
  accounted (observed w (self', heap') (Ok (E := E) tr)) entries'.
Proof.
  intros [] Hid Hc. destruct (change_history _ _ _ _ Hc) as [H1 H2].
  destruct (change_sound (sent w) _ _ _ _ Hc ac_sound0) as [H3 H4].
  split; simpl; rewrite ?Hid; try done.
  - rewrite ac_outcomes0, H1, fmap_app. by rewrite app_assoc.
  - rewrite ac_timers0, H2. by rewrite app_assoc.
  - intros op [Hin|Hin]%elem_of_app.
    + destruct (ac_unsent0 op Hin). set_solver.
    + destruct (H4 op Hin). set_solver.
Qed.

(** A call that only moves the state keeps the history. *)
Lemma accounted_moved w entries s ps :
  accounted w entries →
  ConnectionMachine.identities (ConnectionCore.machine s.1) =
    ConnectionMachine.identities (ConnectionCore.machine (core w)) →
  NoDup (accepted w ++ (OperationPermit.operation <$> ps)) →
  accounted (moved_to w s ps) entries.
Proof. intros [] Hid Hn. split; simpl; rewrite ?Hid; done. Qed.

Lemma exec_reserve limits w now options :
  consistent limits w → consistent limits (exec w (Reserve now options)).
Proof.
  intros (entries & Ho & Ha). simpl.
  pose proof (CoreAdmission.core_reserve_spec _ _ _ _ _ now options Ho) as Hr.
  destruct (ConnectionCore.reserve now options (core w, heap w)) as [[self' heap'] r].
  destruct (reserve_decision _ _ _ _ _ _).
  - destruct Hr as (-> & -> & _ & Ho'). exists entries. split; [exact Ho'|].
    apply accounted_moved; [done|done|apply Ha].
  - destruct Hr as (p & g & -> & Hg & -> & Htake & _ & Ho'). exists entries.
    split; [exact Ho'|].
    destruct Ho as [[[_ _ _ _ [] _] _ _ _] _ _ _]. cbn [fst snd] in *.
    destruct (IdentityGenerator.take_used _ _ _ _ Htake ids_op_range0) as (Hn & Hu & Hmono).
    destruct Ho' as [[[_ _ _ _ [Hnd _ _ _ _ _] _] _ _ _] _ _ _].
    destruct Ha. split; csimpl; try done.
    + rewrite <- Permutation_middle. apply NoDup_cons. split; [|done].
      rewrite elem_of_app. intros [Hin|Hin].
      * rewrite Forall_forall in ac_used0. by apply (Hn (ac_used0 _ Hin)).
      * unfold op_ids in Hnd. rewrite fmap_cons in Hnd.
        apply NoDup_app in Hnd as (_ & _ & Hnd). by apply NoDup_cons in Hnd as [? _].
    + eapply Forall_impl; [exact ac_used0|]. simpl. eauto.
Qed.

(** Removing a permit by its position. *)
Lemma delete_permit (l : list OperationPermit.t) i p :
  l !! i = Some p → l ≡ₚ p :: delete i l.
Proof. apply delete_Permutation. Qed.

Lemma exec_commit limits w i (W : WriteFrame F) frame :
  consistent limits w → Z.of_nat (length (frame_bytes frame)) ≤ USIZE_MAX →
  consistent limits (exec w (Commit i W frame)).
Proof.
  intros (entries & Ho & Ha) Hlen. simpl.
  destruct (permits w !! i) as [p|] eqn:Hi; [|by exists entries].
  pose proof (delete_permit _ _ _ Hi) as Hperm. pose proof Ho as Ho1. rewrite Hperm in Ho1.
  pose proof (CoreAdmission.core_commit_spec _ _ _ _ _ _ frame Ho1 Hlen) as Hc.
  destruct (ConnectionCore.commit p frame (core w, heap w)) as [[self' heap'] r].
  destruct (CoreAdmission.commit_decision _ _ _).
  - destruct Hc as (-> & -> & ->). exists entries. split; [exact Ho|].
    apply accounted_moved; [done|done|apply Ha].
  - destruct Hc as (-> & (_ & _ & Hid) & _ & Ho' & _).
    exists (entries ++ [CoreAdmission.committed p frame]). split; [exact Ho'|].
    destruct Ho as [[[_ _ _ _ Hids _] _ _ _] _ _ _]. cbn [fst snd] in *.
    destruct Ha. rewrite Hperm in ac_nodup0. rewrite fmap_cons in ac_nodup0.
    split; simpl; rewrite ?app_nil_r, ?Hid; try done.
    + by rewrite <- app_assoc.
    + apply Forall_app. split; [done|]. constructor; [|done].
      destruct Hids as [_ _ Hu _ _ _]. unfold op_ids in Hu. rewrite Hperm in Hu.
      rewrite fmap_cons, Forall_app, Forall_cons in Hu. naive_solver.
    + rewrite live_app. rewrite ac_outcomes0. by rewrite <- app_assoc.
    + rewrite fmap_app. rewrite ac_timers0. by rewrite <- app_assoc.
    + apply Forall_app. split; [done|]. constructor; [|done].
      intros Hin%ac_sent0. apply NoDup_app in ac_nodup0 as (_ & Hd & _).
      exfalso. apply (Hd _ Hin). constructor.
    + set_solver.
Qed.

Lemma exec_drop limits w i : consistent limits w → consistent limits (exec w (DropPermit i)).
Proof.
  intros (entries & Ho & Ha). simpl.
  destruct (permits w !! i) as [p|] eqn:Hi; [|by exists entries].
  pose proof (delete_permit _ _ _ Hi) as Hperm. rewrite Hperm in Ho. exists entries.
  split; [by apply CoreAdmission.owns_drop|].
  apply accounted_moved; [done|done|]. destruct Ha. rewrite Hperm in ac_nodup0.
  rewrite fmap_cons, <- Permutation_middle in ac_nodup0. by apply NoDup_cons in ac_nodup0 as [_ ?].
Qed.

Lemma exec_commit_foreign limits w p (W : WriteFrame F) frame :
  consistent limits w → admissible w (CommitForeign p W frame) →
  consistent limits (exec w (CommitForeign p W frame)).
Proof.
  intros (entries & Ho & Ha) Hne. simpl in *.
  rewrite (CoreAdmission.commit_foreign _ _ _ _ _ p frame Ho (or_introl Hne)).
  exists entries. split; [exact Ho|]. apply accounted_moved; [done|done|apply Ha].
Qed.

Lemma exec_apply limits w input : consistent limits w → consistent limits (exec w (Apply input)).
Proof.
  intros (entries & Ho & Ha). simpl. pose proof (apply_spec _ _ _ _ _ input Ho) as Hs.
  destruct (ConnectionMachine.apply _ _ _) as [[m' tr] heap'].
  destruct Hs as (self' & entries' & ds & -> & Hm & Ho' & [_ (_ & _ & Hid) _ Hc _]).
  exists entries'. split; [exact Ho'|]. apply (accounted_change w entries); [done| |exact Hc].
  by rewrite Hm.
Qed.

Lemma exec_reply limits w reply :
  consistent limits w → consistent limits (exec w (ApplyReply reply)).
Proof.
  intros (entries & Ho & Ha). simpl. pose proof (apply_reply_spec _ _ _ _ _ reply Ho) as Hs.
  destruct (ConnectionMachine.apply_reply _ _ _) as [[m' tr] heap'].
  destruct Hs as (self' & entries' & ds & -> & Hm & Ho' & [_ (_ & _ & Hid) _ Hc _]).
  exists entries'. split; [exact Ho'|]. apply (accounted_change w entries); [done| |exact Hc].
  by rewrite Hm.
Qed.

Lemma exec_front limits w (W : WriteFrame F) maximum :
  consistent limits w → admissible w (FrontWrite W maximum) →
  consistent limits (exec w (FrontWrite W maximum)).
Proof.
  intros (entries & Ho & Ha) [Hmax Hst]. cbn [exec].
  pose proof (wr_frames _ _ _ _ (ow_writer _ _ _ _ Ho)) as Hf. simpl in Hf. rewrite Hf in Hst.
  rewrite (CoreProgress.front_write_spec _ _ _ _ _ maximum Ho Hmax Hst).
  exists entries. split; [exact Ho|]. apply accounted_moved; [done|done|apply Ha].
Qed.

(** The history after the front operation [x] moved on to [x1], of which bytes
    were reported. *)
Lemma accounted_reported w limits l1 x l2 x1 f written :
  owns limits (l1 ++ x :: l2) (permits w) (core w, heap w) → accounted w (l1 ++ x :: l2) →
  Owned.frame x = Some f → frames l1 = [] → advances x x1 →
  (0 < written → Owned.delivery x1 = Delivery.PossiblySent) →
  accounted (reported w written) (l1 ++ x1 :: l2).
Proof.
  intros Ho [] Hx Hl1 Hadv Hsent.
  destruct (CoreProgress.front_facts_owned _ _ _ _ _ _ _ _ 0 Ho Hx Hl1) as (Hfr & Hop & _);
    [done|]. simpl in Hfr.
  pose proof (change_advance (R := unit) (ConnectionCore.epoch (core w)) l1 x x1 l2 Hadv) as Hc.
  destruct (change_history _ _ _ _ Hc) as [H1 H2].
  destruct (change_sound (sent w) _ _ _ _ Hc ac_sound0) as [H3 _].
  destruct Hadv as (Hid & _). destruct (ow_ready _ _ _ _ Ho) as [[_ _ _ _ [Hnd _ _ _ _ _] _] _ _ _].
  cbn [fst snd] in *. rewrite op_ids_split in Hnd. apply NoDup_cons in Hnd as [Hnx _].
  unfold op_ids in Hnx. rewrite fmap_app in Hnx.
  simpl in H1, H2. unfold reported. rewrite Hfr, Hop.
  assert (Owned.id x ∈ accepted w) as Hacc.
  { rewrite ac_timers0. apply elem_of_app. right. rewrite fmap_app, fmap_cons. set_solver. }
  split; simpl; try done.
  - by rewrite <- H1.
  - by rewrite <- H2.
  - destruct (Z.ltb_spec 0 written); [|by rewrite app_nil_r].
    unfold sound in *. rewrite Forall_app, Forall_cons in H3 |- *. destruct H3 as (Ha1 & Hax & Ha2).
    assert (∀ l, (∀ y, y ∈ l → Owned.id y ≠ Owned.id x) →
      Forall (λ y, Owned.id y ∈ sent w → Owned.delivery y = Delivery.PossiblySent) l →
      Forall (λ y, Owned.id y ∈ sent w ++ [Owned.id x] → Owned.delivery y = Delivery.PossiblySent)
        (l : list (Owned.t F))) as Hext.
    { intros l Hne Hl. rewrite Forall_forall in Hl |- *. intros y Hy [Hin|Hin]%elem_of_app;
        [by apply Hl|]. apply list_elem_of_singleton in Hin. by apply Hne in Hin. }
    split_and!; [apply Hext; [|done]|auto|apply Hext; [|done]];
      intros y Hy Heq; apply Hnx; rewrite <- Heq; rewrite !elem_of_app; left;
      [left|right]; by apply list_elem_of_fmap_2.
  - intros op. destruct (0 <? written); set_solver.
  - intros op Hop'. destruct (ac_unsent0 op Hop') as [Hns Ht]. split; [|done].
    destruct (0 <? written); [|by rewrite app_nil_r]. intros [?|Hin]%elem_of_app; [done|].
    apply list_elem_of_singleton in Hin. subst op.
    assert (NoDup (accepted w)) as Hnda by (by apply NoDup_app in ac_nodup0 as (? & _)).
    rewrite ac_timers0 in Hnda. apply NoDup_app in Hnda as (_ & Hd & _). apply (Hd _ Ht).
    rewrite fmap_app, fmap_cons. set_solver.
Qed.

Lemma exec_advance limits w epoch effect written :
  consistent limits w → admissible w (AdvanceWrite epoch effect written) →
  consistent limits (exec w (AdvanceWrite epoch effect written)).
Proof.
  intros (entries & Ho & Ha) [Hn Hhonest]. cbn [exec].
  pose proof (wr_frames _ _ _ _ (ow_writer _ _ _ _ Ho)) as Hf. simpl in Hf. rewrite Hf in Hhonest.
  destruct (frames entries) as [|f fs] eqn:Hfs;
    [|destruct (decide (epoch = ConnectionCore.epoch (core w) ∧ effect = QueuedWrite.effect f))
        as [[-> ->]|Hne]].
  1, 3: destruct (CoreProgress.advance_rejected _ _ _ _ _ epoch effect written Ho)
    as (err & -> & _); [intros g gs; rewrite Hfs; naive_solver|];
    exists entries; split; [exact Ho|apply accounted_moved; [done|done|apply Ha]].
  destruct (CoreProgress.frames_front _ _ _ Hfs) as (l1 & x & l2 & -> & Hx & Hl1 & Hl2).
  specialize (Hhonest f fs eq_refl eq_refl eq_refl).
  destruct (CoreProgress.front_facts_owned _ _ _ _ _ _ _ _ written Ho Hx Hl1 Hn)
    as (_ & _ & _ & _ & Hff).
  pose proof (λ o, accounted_reported w _ _ _ _ _ _ written Ho Ha Hx Hl1
    (CoreProgress.ff_advances _ _ _ _ Hff o) (CoreProgress.ff_sent _ _ _ _ Hff)) as Hrep.
  set (remaining := FrameMeasure.wire_bytes (QueuedWrite.measure f) - QueuedWrite.written f) in *.
  destruct (decide (written = remaining)) as [->|Hlt].
  - destruct (Owned.completion x) eqn:Hc.
    + destruct (CoreProgress.advance_await _ _ _ _ _ _ _ _ Ho Hx Hl1 Hc)
        as (self' & heap' & Hrun & Ho' & Hm' & _). fold remaining in Hrun, Ho'.
      assert (ConnectionMachine.identities (ConnectionCore.machine self') =
        ConnectionMachine.identities (ConnectionCore.machine (core w))) as Hid by (by rewrite Hm').
      rewrite Hrun. eexists. split; [exact Ho'|].
      eapply (accounted_change (reported w remaining)); [apply (Hrep None)|exact Hid|].
      apply (change_advance (R := unit)).
      unfold advances, MachineProgress.awaiting, Owned.id, Owned.effect, Owned.completion,
        Owned.terminal, Owned.delivery, OperationRecord.is_terminal. simpl.
      case_bool_decide as Ht; simpl; [by rewrite bool_decide_eq_true_2|by split_and!].
    + destruct (CoreProgress.advance_finish _ _ _ _ _ _ _ _ Ho Hx Hl1 Hc)
        as (self' & heap' & tr & _ & _ & Hrun & Ho' & (_ & _ & Hid) & _ & Hch).
      fold remaining in Hrun, Hch. rewrite Hrun. eexists. split; [exact Ho'|].
      eapply (accounted_change (reported w remaining)); [apply (Hrep None)|exact Hid|exact Hch].
  - destruct (CoreProgress.advance_partial _ _ _ _ _ _ _ _ written Ho Hx Hl1 Hn)
      as (self' & Hrun & Ho' & Hm'); [fold remaining; lia|].
    assert (ConnectionMachine.identities (ConnectionCore.machine self') =
      ConnectionMachine.identities (ConnectionCore.machine (core w))) as Hid by (by rewrite Hm').
    rewrite Hrun. eexists. split; [exact Ho'|].
    eapply (accounted_change (reported w written)); [apply Hrep|exact Hid|].
    apply (change_none (R := unit)).
Qed.

(** Every admissible call keeps the invariant. *)
Lemma exec_consistent limits w c :
  consistent limits w → admissible w c → consistent limits (exec w c).
Proof.
  intros Hw Hc. destruct c.
  - by apply exec_reserve.
  - by apply exec_commit.
  - by apply exec_commit_foreign.
  - by apply exec_drop.
  - by apply exec_apply.
  - by apply exec_reply.
  - by apply exec_front.
  - by apply exec_advance.
Qed.

Lemma reachable_consistent limits init w :
  consistent limits init → reachable init w → consistent limits w.
Proof. induction 2; [done|]. by apply exec_consistent. Qed.

End system.
End System.
