(* ===== verification/RecoverySpec.v ===== *)
(** * Recovery against the ownership view

    Recovery of a core whose policy and writer agree gives back exactly the
    operations that owe an outcome, in wire order, each with its frame; and
    recovery of any core, however far policy, writer and journal have drifted
    apart, loses neither an operation nor a frame. *)
From Stdlib Require Import ZArith Lia.
From stdpp Require Import prelude.
From S2P Require Import Prelude External Identity Limits Admission KeySet Ledger Permit Operation.
From S2P Require Import Matching Write Machine Journal Core Recovery Ownership MachineSpec CoreSpec.

Import Policy Change Step Handlers Inputs CoreSpec.

Module RecoverySpec.
Section recovery_spec.
Context {Cal : Calandria} {BB : ByteBudgetLib} {F : Type}.
Context {Laws : CalandriaLaws Cal} {BLaws : ByteBudgetLaws BB}.
Implicit Types (entries : list (Owned.t F)) (x : Owned.t F).
Implicit Types (heap : Heap.t) (s : Recovering.t F).

(** ** Slots and frames *)

(** Taking the first live slot. *)
Lemma find_take_first {A : Type} (g : A → bool) (k : nat) (a : A) (l : list A) :
  g a = true →
  Recovering.find_take g (replicate k None ++ (Some <$> a :: l)) =
    (replicate (S k) None ++ (Some <$> l), Some a).
Proof.
  intros Hg. unfold Recovering.find_take. rewrite fmap_cons, (position_app _ _ _ (Some a)).
  - rewrite length_replicate.
    rewrite list_lookup_middle by by rewrite length_replicate. simpl mjoin.
    rewrite insert_app_r_alt by by rewrite length_replicate.
    rewrite length_replicate, Nat.sub_diag. simpl.
    f_equal. clear. induction k as [|k IH]; simpl; [done|]. by rewrite IH.
  - apply Forall_forall. by intros ? [-> _]%elem_of_replicate.
  - done.
Qed.

(** Taking the frame of an identity. *)
Lemma take_write_absent (ws : list (DiscardedWrite.t F)) op eff :
  op ∉ DiscardedWrite.operation <$> ws → Recovering.take_write ws op eff = (ws, None).
Proof.
  intros Hn. unfold Recovering.take_write.
  assert (position (λ write, bool_decide (DiscardedWrite.operation write = op)
    && bool_decide (DiscardedWrite.effect write = eff)) ws = None) as ->; [|done].
  apply position_None, Forall_forall. intros w Hw. apply andb_false_iff. left.
  apply bool_decide_eq_false. intros Heq. apply Hn. rewrite <- Heq. by apply list_elem_of_fmap_2.
Qed.

Lemma take_write_head (w : DiscardedWrite.t F) ws :
  Recovering.take_write (w :: ws) (DiscardedWrite.operation w) (DiscardedWrite.effect w) =
    (ws, Some w).
Proof. unfold Recovering.take_write. simpl. by rewrite !bool_decide_eq_true_2 by done. Qed.

(** Whatever is taken was there, and belongs to the identity. *)
Lemma take_write_perm (ws ws' : list (DiscardedWrite.t F)) op eff w :
  Recovering.take_write ws op eff = (ws', w) →
  ws ≡ₚ option_list w ++ ws' ∧
  (∀ d, w = Some d → DiscardedWrite.operation d = op ∧ DiscardedWrite.effect d = eff).
Proof.
  unfold Recovering.take_write. destruct (position _ ws) as [i|] eqn:Hp; [|by intros [= <- <-]].
  apply position_Some in Hp as (d & Hd & Hf & Heq & _).
  rewrite (remove_at_lookup _ _ _ Hd). intros [= <- <-].
  apply andb_true_iff in Hf as [Ho%bool_decide_eq_true He%bool_decide_eq_true].
  split; [|naive_solver]. rewrite Heq at 1. simpl. by rewrite Permutation_middle.
Qed.

(** ** Agreeing owners *)

(** The record and the frame name the same write. *)
Definition paired x : Prop :=
  match Owned.frame x with
  | Some f => OperationRecord.write_held (Owned.record x) = true ∧
      QueuedWrite.operation f = Owned.id x ∧ QueuedWrite.effect f = Owned.effect x
  | None => OperationRecord.write_held (Owned.record x) = false
  end.

(** What recovery gives back of an operation: the weaker of the two delivery
    certainties and the frame. *)
Definition given_back x : RecoveredOperation.t F :=
  RecoveredOperation.mk (Owned.id x)
    (match Owned.frame x with
     | Some f => Recovering.weaken (Owned.delivery x) (QueuedWrite.delivery f)
     | None => Owned.delivery x
     end) (QueuedWrite.frame <$> Owned.frame x).

Definition unfinished entries : list (Owned.t F) := filter (λ o, Owned.terminal o = false) entries.

(** One operation, at its turn. *)
Lemma recover_one ledger x l ops dv cur heap :
  paired x → Owned.id x ∉ Owned.id <$> l → Forall paired l →
  Recovering.recover_current_operation ledger (Owned.record x)
    (Recovering.mk [] cur (DiscardedWrite.into_discarded <$> frames (x :: l)) ops dv heap) =
  Recovering.mk [] cur (DiscardedWrite.into_discarded <$> frames l)
    (ops ++ if Owned.terminal x then [] else [given_back x]) dv
    (Heap.borrow_mut heap ledger (λ led, ReservationLedger.release_operation led
       (OperationRecord.reservation (Owned.record x))
       (OperationRecord.write_held (Owned.record x)))).
Proof.
  intros Hx Hn Hl. unfold Recovering.recover_current_operation, given_back. simpl.
  unfold paired in Hx. unfold frames at 1. simpl.
  fold (Owned.id x) (Owned.effect x) (Owned.delivery x).
  change (bool_decide (OperationRecord.phase (Owned.record x) = OperationPhase.Terminal))
    with (Owned.terminal x).
  destruct (Owned.frame x) as [f|].
  - destruct Hx as (-> & <- & <-). csimpl.
    change (QueuedWrite.operation f) with
      (DiscardedWrite.operation (DiscardedWrite.into_discarded f)).
    change (QueuedWrite.effect f) with (DiscardedWrite.effect (DiscardedWrite.into_discarded f)).
    rewrite take_write_head, bool_decide_eq_true_2 by done. simpl.
    unfold Recovering.diverge_if. simpl. rewrite orb_false_r.
    destruct (Owned.terminal x); simpl; [by rewrite app_nil_r|done].
  - rewrite Hx, take_write_absent.
    + rewrite bool_decide_eq_false_2 by apply is_Some_None. simpl.
      unfold Recovering.diverge_if. simpl. rewrite orb_false_r.
      destruct (Owned.terminal x); simpl; [by rewrite app_nil_r|done].
    + rewrite <- list_fmap_compose. intros (f & Heq & Hf)%list_elem_of_fmap.
      apply Hn. rewrite Heq. clear Heq Hn. induction Hl as [|y l Hy _ IH]; simpl in Hf.
      { by apply elem_of_nil in Hf. }
      unfold paired in Hy. unfold frames in *. simpl in Hf. destruct (Owned.frame y) as [g|].
      * apply elem_of_cons in Hf as [->|Hf]; csimpl;
          [destruct Hy as (_ & Ho & _); rewrite elem_of_cons; by left|].
        rewrite elem_of_cons. right. by apply IH.
      * csimpl. rewrite elem_of_cons. right. by apply IH.
Qed.

(** The whole loop over wire indices, from the [k]-th operation on. *)
Lemma index_loop_spec limits ledger (entries : list (Owned.t F)) permits k ops dv heap :
  Forall paired entries → NoDup (Owned.id <$> entries) →
  ReservationLedger.accounts (Heap.borrow heap ledger) (holdings entries permits) →
  ReservationLedger.limits (Heap.borrow heap ledger) = limits →
  ∃ heap',
    Recovering.index_loop ledger [] (seq k (length entries))
      (Recovering.mk [] (replicate k None ++ (Some <$> (Owned.record <$> entries)))
         (DiscardedWrite.into_discarded <$> frames entries) ops dv heap) =
    Recovering.mk [] (replicate (k + length entries) None) []
      (ops ++ (given_back <$> unfinished entries)) dv heap' ∧
    ReservationLedger.accounts (Heap.borrow heap' ledger) (holdings (F := F) [] permits) ∧
    ReservationLedger.limits (Heap.borrow heap' ledger) = limits ∧
    (∀ l, l ≠ ledger → Heap.borrow heap' l = Heap.borrow heap l).
Proof.
  intros Hp. revert k ops heap. induction Hp as [|x l Hx Hl IH]; intros k ops heap Hnd Hacc Hlim.
  { exists heap. simpl. rewrite !app_nil_r, Nat.add_0_r. done. }
  rewrite fmap_cons in Hnd. apply NoDup_cons in Hnd as [Hn Hnd].
  destruct (ReservationLedger.release_all_spec _ _ _ _ _ Hacc) as [Hacc' Hlim'].
  set (heap1 := Heap.borrow_mut heap ledger (λ led, ReservationLedger.release_operation led
    (OperationRecord.reservation (Owned.record x))
    (OperationRecord.write_held (Owned.record x)))).
  destruct (IH (S k) (ops ++ if Owned.terminal x then [] else [given_back x]) heap1)
    as (heap' & Hrun & Ha & Hlm & Hh).
  { done. }
  { unfold heap1. rewrite Heap.borrow_mut_eq. exact Hacc'. }
  { unfold heap1. rewrite Heap.borrow_mut_eq. by rewrite <- Hlim. }
  exists heap'. split; [|split; [exact Ha|split; [exact Hlm|]]].
  - change (length (x :: l)) with (S (length l)). rewrite <- cons_seq. simpl.
    unfold Recovering.recover_index. simpl Recovering.journal. simpl length. cbn [Recovering.journal_loop].
    match goal with |- context [Recovering.find_take ?g ?slots] =>
      replace (Recovering.find_take g slots) with
        (replicate (S k) None ++ (Some <$> (Owned.record <$> l)), Some (Owned.record x))
        by (symmetry; apply find_take_first;
            apply negb_true_iff, bool_decide_eq_false, not_elem_of_nil) end.
    unfold Recovering.set_current. simpl.
    etransitivity; [|etransitivity; [exact Hrun|]].
    { f_equal. exact (recover_one ledger x l ops dv _ heap Hx Hn Hl). }
    f_equal; [f_equal; lia|]. rewrite <- app_assoc. f_equal. unfold unfinished.
    rewrite filter_cons. destruct (Owned.terminal x) eqn:Ht.
    + rewrite decide_False; [done|congruence].
    + by rewrite decide_True.
  - intros a Hne. rewrite Hh by done. unfold heap1. by rewrite Heap.borrow_mut_ne.
Qed.

(** Nothing is left over once every slot is empty. *)
Lemma omap_id_empty {A : Type} (n : nat) : omap id (replicate n (@None A)) = [].
Proof. induction n as [|n IH]; [done|]. exact IH. Qed.

Lemma wire_order_agreeing limits ledger entries permits dv heap :
  Forall paired entries → NoDup (Owned.id <$> entries) →
  ReservationLedger.accounts (Heap.borrow heap ledger) (holdings entries permits) →
  ReservationLedger.limits (Heap.borrow heap ledger) = limits →
  ∃ heap' cur,
    Recovering.recover_in_wire_order ledger []
      (Recovering.mk [] (Some <$> (Owned.record <$> entries))
         (DiscardedWrite.into_discarded <$> frames entries) [] dv heap) =
    Recovering.mk [] cur [] (given_back <$> unfinished entries) dv heap' ∧
    ReservationLedger.accounts (Heap.borrow heap' ledger) (holdings (F := F) [] permits) ∧
    ReservationLedger.limits (Heap.borrow heap' ledger) = limits ∧
    (∀ l, l ≠ ledger → Heap.borrow heap' l = Heap.borrow heap l).
Proof.
  intros Hp Hnd Hacc Hlim.
  destruct (index_loop_spec limits ledger entries permits 0 [] dv heap Hp Hnd Hacc Hlim)
    as (heap' & Hrun & Hrest).
  exists heap', ((λ _, None) <$> replicate (length entries) (@None OperationRecord.t)).
  split; [|exact Hrest].
  unfold Recovering.recover_in_wire_order. simpl. unfold Recovering.diverge_if. simpl.
  rewrite orb_false_r, !length_fmap, Nat.add_0_r. unfold Recovering.set_journal. simpl.
  simpl in Hrun. rewrite !Hrun. cbn [Recovering.current_records Recovering.set_current].
  by rewrite omap_id_empty.
Qed.

(** Recovery when policy and writer agree: the operations that owe an outcome,
    in wire order, each with its frame; the ledger keeps the permits only. *)
Lemma recover_agreeing limits entries permits (self : ConnectionCore.t F) heap a :
  policy limits entries permits (ConnectionCore.machine self) heap →
  Forall paired entries →
  WriteQueue.frames (ConnectionCore.writes self) = frames entries →
  RecoveryJournal.holds (ConnectionCore.journal self) (op_slots limits) (write_slots limits)
    a [] [] →
  let '(self', heap', recovery) := CoreRecovery.recover (self, heap) in
  recovery = ConnectionRecovery.mk (ConnectionCore.epoch self)
               (given_back <$> unfinished entries) [] a ∧
  policy (F := F) limits [] permits (ConnectionCore.machine self') heap' ∧
  WriteQueue.frames (ConnectionCore.writes self') = [] ∧
  RecoveryJournal.holds (ConnectionCore.journal self') (op_slots limits) (write_slots limits)
    false [] [] ∧
  ConnectionCore.poisoned self' =
    Some (default ConnectionCoreInvariant.Recovered (ConnectionCore.poisoned self)).
Proof.
  intros Hp Hpair Hf Hj. pose proof Hp as [].
  assert (NoDup (Owned.id <$> entries)) as Hnd.
  { destruct pol_ids0 as [Hnd _ _ _ _ _]. by apply NoDup_app in Hnd as (? & _). }
  destruct (wire_order_agreeing limits _ _ _ a heap Hpair Hnd pol_accounts0 pol_limits0)
    as (heap' & cur & Hrun & Hacc & Hlim & Hh).
  destruct (RecoveryJournal.take_writes_holds _ _ _ _ _ _ Hj) as [Htw Hj1].
  destruct (RecoveryJournal.take_operations_holds _ _ _ _ _ _ Hj1) as [Hto Hj2].
  unfold CoreRecovery.recover, WriteQueue.discard_all.
  destruct (RetainedBudget.clear _) as [b r].
  destruct (RecoveryJournal.take_writes (ConnectionCore.journal self)) as [j1 ws].
  cbn [fst snd] in *. subst ws.
  destruct (RecoveryJournal.take_operations j1) as [j2 os]. cbn [fst snd] in *. subst os.
  simpl. rewrite (RecoveryJournal.h_armed _ _ _ _ _ _ Hj), Hf, pol_records0, orb_false_r, app_nil_r.
  rewrite Hrun. simpl. unfold Recovering.diverge_if. simpl. rewrite orb_false_r.
  rewrite (ReservationLedger.acc_poisoned _ _ Hacc), orb_false_r.
  split; [done|]. split; [|split; [done|split; [done|by destruct (ConnectionCore.poisoned self)]]].
  split; simpl; try done.
  - destruct pol_ids0. unfold op_ids, eff_ids in *.
    apply NoDup_app in ids_ops0 as (_ & _ & ?), ids_effs0 as (_ & _ & ?).
    apply Forall_app in ids_ops_used0 as [_ ?], ids_effs_used0 as [_ ?]. by split.
  - destruct pol_life0 as [?|(? & ? & ? & _)]; [by left|by right].
Qed.

(** In a core between two calls the writer's certainty is the policy's. *)
Lemma agrees_given_back x :
  Owned.agrees x →
  paired x ∧ given_back x =
    RecoveredOperation.mk (Owned.id x) (Owned.delivery x) (QueuedWrite.frame <$> Owned.frame x).
Proof.
  unfold Owned.agrees, paired, given_back, QueuedWrite.delivery.
  destruct (Owned.frame x) as [f|]; [|naive_solver].
  intros (? & ? & ? & _ & [(_ & -> & ->)|(_ & -> & ->)]); by split_and!.
Qed.

Lemma owns_recover limits entries permits (self : ConnectionCore.t F) heap :
  owns limits entries permits (self, heap) →
  let '(self', heap', recovery) := CoreRecovery.recover (self, heap) in
  recovery = ConnectionRecovery.mk (ConnectionCore.epoch self)
    ((λ x, RecoveredOperation.mk (Owned.id x) (Owned.delivery x)
        (QueuedWrite.frame <$> Owned.frame x)) <$> unfinished entries) [] false ∧
  policy (F := F) limits [] permits (ConnectionCore.machine self') heap' ∧
  WriteQueue.frames (ConnectionCore.writes self') = [] ∧
  ConnectionCore.poisoned self' = Some ConnectionCoreInvariant.Recovered.
Proof.
  intros [[Hp Hag _ _] [Hf _ _ _] Hj Hpois]. cbn [fst snd] in *.
  assert (Forall paired entries) as Hpair
    by (eapply Forall_impl; [exact Hag|]; intros x Hx; by apply agrees_given_back).
  pose proof (recover_agreeing _ _ _ _ _ _ Hp Hpair Hf Hj) as Hr.
  destruct (CoreRecovery.recover (self, heap)) as [[self' heap'] recovery].
  destruct Hr as (-> & Hp' & Hf' & _ & Hpo). rewrite Hpois in Hpo.
  split; [|by split_and!]. f_equal. unfold unfinished. clear - Hag.
  induction Hag as [|x l Hx _ IH]; [done|]. rewrite !filter_cons.
  destruct (decide (Owned.terminal x = false)); [|done]. rewrite !fmap_cons.
  f_equal; [by apply agrees_given_back|exact IH].
Qed.

End recovery_spec.
End RecoverySpec.
