(* ===== verification/Conservation.v ===== *)
(** * Recovery loses nothing

    Recovery of an arbitrary core, whatever its policy, writer and journal
    say of each other: [conserved] is the invariant of the loops of
    [recovery.rs] that every policy record, every journal record and every
    frame is accounted for. *)
From Stdlib Require Import ZArith Lia.
From stdpp Require Import prelude.
From S2P Require Import Prelude External Identity Limits Admission KeySet Ledger Permit Operation.
From S2P Require Import Matching Write Machine Journal Core Recovery RecoverySpec.

Module Conservation.
Section conservation.
Context {Cal : Calandria} {F : Type}.
Implicit Types (s : Recovering.t F) (r : OperationRecord.t) (j : JournalOperation.t).

(** The identities a policy record, or a journal record, must give back. *)
Definition live_records (l : list OperationRecord.t) : list OperationId.t :=
  OperationRecord.id <$> filter (λ r, OperationRecord.is_terminal r = false) l.
Definition live_journal (l : list JournalOperation.t) : list OperationId.t :=
  JournalOperation.operation <$>
    filter (λ j, JournalOperation.phase j ≠ OperationPhase.Terminal) l.

Definition recovered_ids (l : list (RecoveredOperation.t F)) : list OperationId.t :=
  RecoveredOperation.operation <$> l.
Definition recovered_frames (l : list (RecoveredOperation.t F)) : list F :=
  omap RecoveredOperation.frame l.

(** A frame a tombstone in [C0] takes with it. *)
Definition tombstoned (C0 : list OperationRecord.t) (d : DiscardedWrite.t F) : Prop :=
  ∃ r, r ∈ C0 ∧ OperationRecord.is_terminal r = true ∧
    OperationRecord.id r = DiscardedWrite.operation d ∧
    OperationRecord.effect r = DiscardedWrite.effect d.

(** Of the policy records [C0], the ones in [PR] and in the slots of [s] are
    still to be recovered and the rest are; of the journal records [J0], the
    ones in [JR] are still to be looked at; of the frames [W0], each is with
    a recovered operation, unmatched so far, or gone with a tombstone. *)
Definition conserved (C0 : list OperationRecord.t) (W0 : list (DiscardedWrite.t F))
    (J0 : list JournalOperation.t) (PR : list OperationRecord.t) (JR : list JournalOperation.t)
    s : Prop :=
  ∃ done extra dropped,
    C0 ≡ₚ PR ++ omap id (Recovering.current_records s) ++ done ∧
    recovered_ids (Recovering.operations s) ≡ₚ live_records done ++ live_journal extra ∧
    (∀ j, j ∈ J0 → j ∈ JR ∨ JournalOperation.operation j ∈ OperationRecord.id <$> done ∨
       j ∈ extra) ∧
    Forall (λ j, j ∈ J0) (extra ++ JR) ∧
    DiscardedWrite.frame <$> W0 ≡ₚ recovered_frames (Recovering.operations s) ++
      (DiscardedWrite.frame <$> (Recovering.writes s ++ dropped)) ∧
    Forall (tombstoned C0) dropped.

Lemma live_records_cons r l :
  live_records (r :: l) =
    (if OperationRecord.is_terminal r then [] else [OperationRecord.id r]) ++ live_records l.
Proof.
  unfold live_records. rewrite filter_cons. destruct (OperationRecord.is_terminal r) eqn:Ht.
  - rewrite decide_False; [done|congruence].
  - by rewrite decide_True.
Qed.

Lemma live_journal_cons j l :
  live_journal (j :: l) =
    (if bool_decide (JournalOperation.phase j = OperationPhase.Terminal) then []
     else [JournalOperation.operation j]) ++ live_journal l.
Proof.
  unfold live_journal. rewrite filter_cons. case_bool_decide as Ht.
  - rewrite decide_False; [done|]. intros Hn. by apply Hn.
  - by rewrite decide_True.
Qed.

(** The frame that goes with a recovered operation. *)
Lemma recovered_shape op delivery (w : option (DiscardedWrite.t F)) :
  RecoveredOperation.operation (Recovering.recovered op delivery w) = op ∧
  RecoveredOperation.frame (Recovering.recovered op delivery w) = DiscardedWrite.frame <$> w.
Proof. by destruct w. Qed.

(** Taking a slot takes the value out of it. *)
Lemma find_take_perm {A : Type} (g : A → bool) slots slots' (a : option A) :
  Recovering.find_take g slots = (slots', a) →
  omap id slots ≡ₚ option_list a ++ omap id slots' ∧
  match a with
  | Some a => g a = true
  | None => slots' = slots ∧ Forall (λ a, g a = false) (omap id slots)
  end.
Proof.
  unfold Recovering.find_take. destruct (position _ slots) as [i|] eqn:Hp.
  - apply position_Some in Hp as ([x|] & Hx & Hg & Heq & _); [|done].
    rewrite Hx. simpl. intros [= <- <-]. split; [|done].
    rewrite Heq at 1. rewrite (insert_take_drop slots i None) by (by eapply lookup_lt_Some).
    rewrite !omap_app. simpl. by rewrite Permutation_middle.
  - apply position_None in Hp. intros [= <- <-]. split; [done|]. split; [done|].
    induction Hp as [|y l Hy _ IH]; [constructor|]. destruct y; simpl; [by constructor|done].
Qed.

(** ** The invariant, step by step *)

(** The frame taken for an identity: with the operation, or with a tombstone. *)
Lemma frames_step C0 (ws ws' : list (DiscardedWrite.t F)) w (fs : list F) dropped op eff
    (tomb : bool) W0 :
  Recovering.take_write ws op eff = (ws', w) →
  (tomb = true → ∃ r, r ∈ C0 ∧ OperationRecord.is_terminal r = true ∧
     OperationRecord.id r = op ∧ OperationRecord.effect r = eff) →
  W0 ≡ₚ fs ++ (DiscardedWrite.frame <$> (ws ++ dropped)) → Forall (tombstoned C0) dropped →
  ∃ dropped',
    W0 ≡ₚ (fs ++ if tomb then [] else option_list (DiscardedWrite.frame <$> w)) ++
      (DiscardedWrite.frame <$> (ws' ++ dropped')) ∧ Forall (tombstoned C0) dropped'.
Proof.
  intros (Hperm & Hown)%RecoverySpec.take_write_perm Htomb HW Hd.
  destruct tomb.
  - exists (option_list w ++ dropped). split.
    + rewrite HW, app_nil_r. rewrite !fmap_app, Hperm, fmap_app. solve_Permutation.
    + apply Forall_app. split; [|done]. destruct w as [d|]; [|constructor].
      destruct (Hown d eq_refl) as [Ho He]. destruct (Htomb eq_refl) as (r & ? & ? & <- & <-).
      constructor; [|constructor]. by exists r.
  - exists dropped. split; [|done]. rewrite HW, !fmap_app, Hperm, fmap_app.
    destruct w; simpl; solve_Permutation.
Qed.

Lemma conserved_current C0 W0 J0 PR JR JR' ledger r s :
  conserved C0 W0 J0 (r :: PR) JR s →
  (∀ j, j ∈ JR → j ∈ JR' ∨ JournalOperation.operation j = OperationRecord.id r) →
  (∀ j, j ∈ JR' → j ∈ JR) →
  conserved C0 W0 J0 PR JR' (Recovering.recover_current_operation ledger r s).
Proof.
  intros (done & extra & dropped & HC & Hids & HJ & HJ0 & HW & Hd) Hdrop Hsub.
  unfold Recovering.recover_current_operation.
  destruct (Recovering.take_write _ _ _) as [ws' w] eqn:Htake.
  assert (OperationRecord.is_terminal r = true → ∃ r', r' ∈ C0 ∧
    OperationRecord.is_terminal r' = true ∧ OperationRecord.id r' = OperationRecord.id r ∧
    OperationRecord.effect r' = OperationRecord.effect r) as Htomb.
  { intros Ht. exists r. split; [|done]. rewrite HC. set_solver. }
  destruct (frames_step _ _ _ _ _ _ _ _ _ _ Htake Htomb HW Hd) as (dropped' & HW' & Hd').
  exists (r :: done), extra, dropped'. simpl. split.
  { rewrite HC. destruct (negb _); simpl; solve_Permutation. }
  change (bool_decide (OperationRecord.phase r = OperationPhase.Terminal))
    with (OperationRecord.is_terminal r).
  destruct (recovered_shape (OperationRecord.id r) (OperationRecord.delivery r) w) as [Ho Hf].
  split; [|split; [|split; [|split; [|done]]]].
  - rewrite live_records_cons. destruct (OperationRecord.is_terminal r); simpl; [done|].
    unfold recovered_ids in *. rewrite fmap_app, Hids. simpl. rewrite Ho. solve_Permutation.
  - intros j Hj. csimpl. destruct (HJ j Hj) as [Hin|[Hin|Hin]].
    + destruct (Hdrop j Hin) as [?|Heq]; [by left|]. right; left. rewrite Heq. set_solver.
    + right; left. set_solver.
    + by right; right.
  - rewrite Forall_app, !Forall_forall in HJ0 |- *. naive_solver.
  - rewrite HW'. unfold recovered_frames. destruct (OperationRecord.is_terminal r); simpl.
    + by rewrite app_nil_r.
    + rewrite omap_app. simpl. rewrite Hf. by destruct w.
Qed.

Lemma conserved_journal C0 W0 J0 PR JR j s :
  conserved C0 W0 J0 PR (j :: JR) s →
  conserved C0 W0 J0 PR JR (Recovering.recover_journal_operation j s).
Proof.
  intros (done & extra & dropped & HC & Hids & HJ & HJ0 & HW & Hd).
  assert (Forall (λ j, j ∈ J0) ((j :: extra) ++ JR)) as HJ0'
    by (rewrite !Forall_app, !Forall_cons in *; naive_solver).
  assert (∀ j', j' ∈ J0 → j' ∈ JR ∨ JournalOperation.operation j' ∈ OperationRecord.id <$> done ∨
    j' ∈ j :: extra) as HJ' by (intros j' Hj'; destruct (HJ j' Hj'); set_solver).
  unfold Recovering.recover_journal_operation. case_bool_decide as Ht.
  { exists done, (j :: extra), dropped. rewrite live_journal_cons, bool_decide_eq_true_2 by done.
    exact (conj HC (conj Hids (conj HJ' (conj HJ0' (conj HW Hd))))). }
  destruct (Recovering.take_write _ _ _) as [ws' w] eqn:Htake.
  destruct (frames_step C0 _ _ _ _ _ _ _ false _ Htake ltac:(done) HW Hd)
    as (dropped' & HW' & Hd').
  destruct (recovered_shape (JournalOperation.operation j) (JournalOperation.delivery j) w)
    as [Ho Hf].
  exists done, (j :: extra), dropped'. rewrite live_journal_cons.
  rewrite (bool_decide_eq_false_2 (JournalOperation.phase j = _)) by done.
  simpl. split; [done|]. split; [|split; [done|split; [done|split; [|done]]]].
  - unfold recovered_ids in *. rewrite fmap_app, Hids. simpl. rewrite Ho. solve_Permutation.
  - rewrite HW'. unfold recovered_frames. rewrite omap_app. simpl. rewrite Hf. by destruct w.
Qed.

Lemma conserved_diverge C0 W0 J0 PR JR s b :
  conserved C0 W0 J0 PR JR s → conserved C0 W0 J0 PR JR (Recovering.diverge_if s b).
Proof. done. Qed.

Lemma conserved_take C0 W0 J0 PR JR s g current (r : option OperationRecord.t) :
  conserved C0 W0 J0 PR JR s →
  Recovering.find_take g (Recovering.current_records s) = (current, r) →
  conserved C0 W0 J0 (option_list r ++ PR) JR (Recovering.set_current s current).
Proof.
  intros (done & extra & dropped & HC & Hrest) [Hp _]%find_take_perm.
  exists done, extra, dropped. split; [|done]. simpl. rewrite HC, Hp. solve_Permutation.
Qed.

(** ** The loops *)

(** The journal records still in their slots. *)
Definition waiting s : list JournalOperation.t := omap id (Recovering.journal s).

(** One journal record, taken from its slot. *)
Lemma conserved_journaled C0 W0 J0 ledger j s :
  conserved C0 W0 J0 [] (j :: waiting s) s →
  conserved C0 W0 J0 [] (waiting s) (Recovering.recover_journaled ledger j s) ∧
  Recovering.journal (Recovering.recover_journaled ledger j s) = Recovering.journal s.
Proof.
  intros Hc. unfold Recovering.recover_journaled.
  destruct (Recovering.find_take _ _) as [slots current] eqn:Ht.
  pose proof (conserved_take _ _ _ _ _ _ _ _ _ Hc Ht) as Hc'.
  pose proof (find_take_perm _ _ _ _ Ht) as [_ Hg].
  destruct current as [r|]; simpl in Hc', Hg.
  - apply bool_decide_eq_true in Hg. split.
    + apply (conserved_current _ _ _ _ (j :: waiting s)); [by apply conserved_diverge| |].
      * intros j' [->|?]%elem_of_cons; [by right|by left].
      * intros j' ?. by apply elem_of_cons; right.
    + unfold Recovering.recover_current_operation. destruct (Recovering.take_write _ _ _). simpl.
      by destruct (negb _).
  - split; [by apply conserved_journal|].
    unfold Recovering.recover_journal_operation. case_bool_decide; [done|].
    by destruct (Recovering.take_write _ _ _).
Qed.

(** The inner loop keeps the invariant, and takes every journal record of its
    wire index: the number of slots is enough fuel. *)
Lemma journal_loop_spec C0 W0 J0 ledger i fuel b s :
  conserved C0 W0 J0 [] (waiting s) s → (length (waiting s) ≤ fuel)%nat →
  let '(_, s') := Recovering.journal_loop fuel ledger i b s in
  conserved C0 W0 J0 [] (waiting s') s' ∧
  Forall (λ j, JournalOperation.wire_index j ≠ i) (waiting s').
Proof.
  revert b s. induction fuel as [|fuel IH]; intros b s Hc Hlen; simpl.
  { split; [done|]. destruct (waiting s); [constructor|simpl in Hlen; lia]. }
  destruct (Recovering.find_take _ _) as [slots j] eqn:Ht.
  pose proof (find_take_perm _ _ _ _ Ht) as [Hp Hg]. fold (waiting s) in Hp.
  destruct j as [j|]; simpl in Hp.
  - set (s1 := Recovering.set_journal (Recovering.diverge_if s b) slots).
    assert (conserved C0 W0 J0 [] (j :: waiting s1) s1) as Hc1.
    { change (waiting s1) with (omap id slots).
      destruct Hc as (done & extra & dropped & HC & Hids & HJ & HJ0 & HW & Hd).
      exists done, extra, dropped. split; [exact HC|]. split; [exact Hids|].
      split; [intros j' Hj'; rewrite <- Hp; by apply HJ|]. split; [|by split].
      by rewrite <- Hp. }
    destruct (conserved_journaled _ _ _ ledger j s1 Hc1) as [Hc2 Hj2].
    assert (waiting (Recovering.recover_journaled ledger j s1) = omap id slots) as Hw
      by (unfold waiting; by rewrite Hj2).
    specialize (IH true (Recovering.recover_journaled ledger j s1)). rewrite Hw in IH.
    apply IH; [exact Hc2|]. apply Permutation_length in Hp. simpl in Hp. lia.
  - split; [done|]. destruct Hg as [_ Hg]. eapply Forall_impl; [exact Hg|].
    simpl. intros j Hj%Nat.eqb_neq. done.
Qed.

Lemma conserved_index C0 W0 J0 ledger ids i s :
  conserved C0 W0 J0 [] (waiting s) s →
  let s' := Recovering.recover_index ledger ids i s in
  conserved C0 W0 J0 [] (waiting s') s'.
Proof.
  intros Hc. unfold Recovering.recover_index.
  pose proof (journal_loop_spec C0 W0 J0 ledger i (length (Recovering.journal s)) false s Hc) as Hl.
  assert (length (waiting s) ≤ length (Recovering.journal s))%nat as Hlen.
  { unfold waiting. clear. induction (Recovering.journal s) as [|j l IH]; [done|].
    change (omap id (j :: l)) with (match j with Some y => y :: omap id l | None => omap id l end).
    destruct j; simpl; lia. }
  specialize (Hl Hlen). destruct (Recovering.journal_loop _ _ _ _ _) as [b s1].
  destruct Hl as [Hc1 _]. destruct b; [done|].
  destruct (Recovering.find_take _ _) as [slots r] eqn:Ht.
  pose proof (conserved_take _ _ _ _ _ _ _ _ _ Hc1 Ht) as Hc2. destruct r as [r|]; [|done].
  assert (waiting (Recovering.recover_current_operation ledger r (Recovering.set_current s1 slots))
    = waiting s1) as ->.
  { unfold waiting, Recovering.recover_current_operation.
    destruct (Recovering.take_write _ _ _). simpl. by destruct (negb _). }
  apply (conserved_current _ _ _ _ (waiting s1)); [exact Hc2|by left|done].
Qed.

Lemma conserved_indices C0 W0 J0 ledger ids indices s :
  conserved C0 W0 J0 [] (waiting s) s →
  let s' := Recovering.index_loop ledger ids indices s in
  conserved C0 W0 J0 [] (waiting s') s'.
Proof.
  revert s. induction indices as [|i indices IH]; intros s Hc; [done|]. simpl.
  by apply IH, conserved_index.
Qed.

Lemma conserved_leftover_current C0 W0 J0 ledger PR JR s :
  conserved C0 W0 J0 PR JR s →
  conserved C0 W0 J0 [] JR (Recovering.leftover_current ledger PR s).
Proof.
  revert s. induction PR as [|r PR IH]; intros s Hc; [done|]. simpl. apply IH.
  apply (conserved_current _ _ _ _ JR); [by apply conserved_diverge|by left|done].
Qed.

Lemma conserved_leftover_journal C0 W0 J0 PR JR s :
  conserved C0 W0 J0 PR JR s →
  conserved C0 W0 J0 PR [] (Recovering.leftover_journal JR s).
Proof.
  revert s. induction JR as [|j JR IH]; intros s Hc; [done|]. simpl. apply IH.
  by apply conserved_journal, conserved_diverge.
Qed.

(** The leftover loops leave the slots as they find them. *)
Lemma leftover_slots ledger PR JR s :
  Recovering.journal (Recovering.leftover_current ledger PR s) = Recovering.journal s ∧
  Recovering.current_records (Recovering.leftover_current ledger PR s) =
    Recovering.current_records s ∧
  Recovering.current_records (Recovering.leftover_journal JR s) = Recovering.current_records s.
Proof.
  assert (∀ r s, Recovering.journal (Recovering.recover_current_operation ledger r s) =
      Recovering.journal s ∧
    Recovering.current_records (Recovering.recover_current_operation ledger r s) =
      Recovering.current_records s) as H1.
  { intros r s1. unfold Recovering.recover_current_operation.
    destruct (Recovering.take_write _ _ _). simpl. by destruct (negb _). }
  assert (∀ j s, Recovering.current_records (Recovering.recover_journal_operation j s) =
    Recovering.current_records s) as H2.
  { intros j s1. unfold Recovering.recover_journal_operation. case_bool_decide; [done|].
    by destruct (Recovering.take_write _ _ _). }
  split_and!.
  - revert s. induction PR as [|r PR IH]; intros s; [done|]. simpl. rewrite IH.
    by destruct (H1 r (Recovering.diverge_if s true)).
  - revert s. induction PR as [|r PR IH]; intros s; [done|]. simpl. rewrite IH.
    by destruct (H1 r (Recovering.diverge_if s true)).
  - revert s. induction JR as [|j JR IH]; intros s; [done|]. simpl. by rewrite IH, H2.
Qed.

(** What a full recovery accounts for. *)
Definition complete (C0 : list OperationRecord.t) (W0 : list (DiscardedWrite.t F))
    (J0 : list JournalOperation.t) (operations : list (RecoveredOperation.t F))
    (unmatched : list (DiscardedWrite.t F)) : Prop :=
  ∃ extra dropped,
    recovered_ids operations ≡ₚ live_records C0 ++ live_journal extra ∧
    Forall (λ j, j ∈ J0) extra ∧
    (∀ j, j ∈ J0 → JournalOperation.operation j ∈ OperationRecord.id <$> C0 ∨ j ∈ extra) ∧
    DiscardedWrite.frame <$> W0 ≡ₚ
      recovered_frames operations ++ (DiscardedWrite.frame <$> (unmatched ++ dropped)) ∧
    Forall (tombstoned C0) dropped.

Lemma conserved_wire_order C0 W0 J0 ledger dv heap :
  let s := Recovering.recover_in_wire_order ledger J0
    (Recovering.mk [] (Some <$> C0) W0 [] dv heap) in
  complete C0 W0 J0 (Recovering.operations s) (Recovering.writes s).
Proof.
  unfold Recovering.recover_in_wire_order. simpl Recovering.current_records.
  set (s0 := Recovering.set_journal _ (Some <$> J0)).
  assert (∀ A (l : list A), omap id (Some <$> l) = l) as Hid.
  { intros A l. induction l as [|a l IH]; [done|]. csimpl. by rewrite IH. }
  assert (conserved C0 W0 J0 [] (waiting s0) s0) as Hc0.
  { exists [], [], []. unfold waiting. simpl. rewrite !Hid, !app_nil_r. split_and!; try done.
    - auto.
    - by apply Forall_forall. }
  pose proof (conserved_indices C0 W0 J0 ledger (JournalOperation.operation <$> J0)
    (seq 0 (length (Some <$> C0) + length (List.filter (λ journal, negb (existsb (λ current,
       match current with
       | Some current =>
           bool_decide (OperationRecord.id current = JournalOperation.operation journal)
       | None => false
       end) (Some <$> C0))) J0))) s0 Hc0) as Hc1. cbv zeta in Hc1.
  set (s1 := Recovering.index_loop _ _ _ s0) in *.
  set (s2 := Recovering.set_current s1 _).
  assert (conserved C0 W0 J0 (omap id (Recovering.current_records s1)) (waiting s1) s2) as Hc2.
  { destruct Hc1 as (done & extra & dropped & HC & Hrest). exists done, extra, dropped.
    split; [|exact Hrest]. rewrite HC. simpl.
    assert (∀ l : list (option OperationRecord.t), omap id ((λ _, @None OperationRecord.t) <$> l)
      = []) as -> by (intros l; induction l as [|a l IH]; [done|]; exact IH). done. }
  apply conserved_leftover_current with (ledger := ledger) in Hc2.
  destruct (leftover_slots ledger (omap id (Recovering.current_records s1)) [] s2) as (Hj & Hcur & _).
  set (s3 := Recovering.leftover_current _ _ s2) in *.
  assert (waiting s1 = omap id (Recovering.journal s3)) as Hw by (by rewrite Hj).
  rewrite Hw in Hc2.
  assert (conserved C0 W0 J0 [] (omap id (Recovering.journal s3)) (Recovering.set_journal s3 []))
    as Hc3 by exact Hc2.
  apply conserved_leftover_journal in Hc3.
  destruct (leftover_slots ledger [] (omap id (Recovering.journal s3)) (Recovering.set_journal s3 []))
    as (_ & _ & Hcur3).
  destruct Hc3 as (done & extra & dropped & HC & Hids & HJ & HJ0 & HW & Hd).
  rewrite Hcur3 in HC. simpl in HC. rewrite Hcur in HC. simpl in HC.
  assert (∀ l : list (option OperationRecord.t), omap id ((λ _, @None OperationRecord.t) <$> l)
    = []) as Hnone by (intros l; induction l as [|a l IH]; [done|]; exact IH).
  rewrite Hnone in HC. simpl in HC.
  exists extra, dropped. split_and!; try done.
  - rewrite Hids. f_equiv. unfold live_records. by rewrite HC.
  - by rewrite app_nil_r in HJ0.
  - intros j Hjin. rewrite HC. destruct (HJ j Hjin) as [?%elem_of_nil|?]; done.
Qed.

End conservation.
End Conservation.
