(* ===== verification/Lifecycle.v ===== *)
(** * The lifecycle of an epoch only moves forward

    A preorder on machines, [later], and the proof that every method of the
    core follows it from any state whatsoever, whether the call succeeds or
    fails: the fixed identity of the machine never changes, phase and gate
    only advance, a recorded close reason stays, a poison latch keeps its
    first source, and of the heap only the core's own ledger is written. The
    proof is compositional: a rule for sequencing, and a fact per step. *)
From Stdlib Require Import ZArith Lia.
From stdpp Require Import prelude.
From S2P Require Import Prelude External Identity Limits Admission KeySet Ledger Permit Operation.
From S2P Require Import Matching Write Machine Journal Core Recovery.

Module Lifecycle.
Section lifecycle.
Context {Cal : Calandria} {BB : ByteBudgetLib} {Build : BuildConfig} {F : Type}.
Implicit Types (m : ConnectionMachine.t) (heap : Heap.t) (s : ConnectionCore.state F).

Definition phase_rank (p : ConnectionPhase.t) : nat :=
  match p with
  | ConnectionPhase.Live => 0
  | ConnectionPhase.Closing => 1
  | ConnectionPhase.Closed => 2
  end.

Definition gate_rank (g : AdmissionGate.t) : nat :=
  match g with
  | AdmissionGate.SessionOnly => 0
  | AdmissionGate.Open => 1
  | AdmissionGate.Draining => 2
  | AdmissionGate.Closed => 3
  end.

(** What identifies a machine. *)
Definition identity m :=
  (ConnectionMachine.endpoint m, ConnectionMachine.lane m, ConnectionMachine.connection m,
   ConnectionMachine.epoch m, ConnectionMachine.ledger m).

Record later m m' : Prop := mk_later {
  lt_identity : identity m' = identity m;
  lt_phase : (phase_rank (ConnectionMachine.phase m) ≤ phase_rank (ConnectionMachine.phase m'))%nat;
  lt_gate : (gate_rank (ConnectionMachine.gate m) ≤ gate_rank (ConnectionMachine.gate m'))%nat;
  lt_reason : ConnectionMachine.phase m ≠ ConnectionPhase.Live →
    ConnectionMachine.close_reason m' = ConnectionMachine.close_reason m;
}.

#[export] Instance later_preorder : PreOrder later.
Proof.
  split; [by split|]. intros m1 m2 m3 [] []. split; [congruence|lia|lia|].
  intros Hl. rewrite lt_reason1; [by apply lt_reason0|].
  intros Hl2. rewrite Hl2 in lt_phase0. by destruct (ConnectionMachine.phase m1); simpl in *; try lia.
Qed.

(** ** Handlers of the machine *)

Lemma later_matching m x : later m (ConnectionMachine.set_matching m x).
Proof. by split. Qed.

Lemma later_identities m g : later m (ConnectionMachine.set_identities m g).
Proof. by split. Qed.

Lemma later_close {R : Type} m why opf (tr : ConnectionTransition.t R) heap :
  later m (ConnectionMachine.close_with_failure_into m why opf tr heap).1.1.
Proof.
  unfold ConnectionMachine.close_with_failure_into.
  destruct (bool_decide_reflect (ConnectionMachine.phase m = ConnectionPhase.Live)) as [Hl|];
    simpl; [|done].
  destruct (ConnectionMachine.close_loop _ _ _ _ _ _) as [tr' heap']. simpl.
  split; simpl; [done|rewrite Hl; simpl; lia| |done]. destruct (ConnectionMachine.gate m); simpl; lia.
Qed.

Lemma later_drain {R : Type} m (tr : ConnectionTransition.t R) heap :
  later m (ConnectionMachine.finish_drain m tr heap).1.1.
Proof. unfold ConnectionMachine.finish_drain. case_match; [apply later_close|done]. Qed.

Lemma later_release {R : Type} m x (tr : ConnectionTransition.t R) heap :
  later m (ConnectionMachine.finish_drain (ConnectionMachine.set_matching m x) tr heap).1.1.
Proof. etrans; [apply later_matching|apply later_drain]. Qed.

Lemma later_gate {R : Type} m g (tr : ConnectionTransition.t R) heap :
  (gate_rank (ConnectionMachine.gate m) ≤ gate_rank g)%nat →
  later m (ConnectionMachine.finish_drain (ConnectionMachine.set_gate m g) tr heap).1.1.
Proof. intros Hg. etrans; [|apply later_drain]. by split. Qed.

Lemma later_write_started m e op eff heap :
  later m (ConnectionMachine.write_started m e op eff heap).1.1.
Proof.
  unfold ConnectionMachine.write_started. repeat case_match; solve [done|apply later_matching].
Qed.

Lemma later_write_completed m e op eff heap :
  later m (ConnectionMachine.write_completed m e op eff heap).1.1.
Proof.
  unfold ConnectionMachine.write_completed, ConnectionMachine.await_reply,
    ConnectionMachine.finish_write.
  repeat case_match; solve [done|apply later_matching|apply later_release].
Qed.

Lemma later_apply m input heap : later m (ConnectionMachine.apply m input heap).1.1.
Proof.
  destruct input as [e|e op|e op now|e|e|e why|e]; simpl.
  - unfold ConnectionMachine.open_admission.
    destruct (bool_decide (e = _)); [|done]. simpl.
    destruct (bool_decide (ConnectionMachine.phase m = _)); [|done]. simpl.
    case_bool_decide as Hg; [|done]. split; simpl; [done|lia| |done]. rewrite Hg. simpl. lia.
  - unfold ConnectionMachine.cancel.
    repeat case_match; solve [done|apply later_matching|apply later_release].
  - unfold ConnectionMachine.deadline_elapsed.
    repeat case_match; solve [done|apply later_close|apply later_release].
  - unfold ConnectionMachine.reply_malformed. repeat case_match; solve [done|apply later_close].
  - unfold ConnectionMachine.begin_drain. destruct (bool_decide (e = _)); [|done]. simpl.
    destruct (bool_decide (ConnectionMachine.phase m = _)); [|done]. simpl.
    destruct (ConnectionMachine.gate m) eqn:Hg; simpl; try done;
      apply later_gate; rewrite Hg; simpl; lia.
  - unfold ConnectionMachine.close_requested. repeat case_match; solve [done|apply later_close].
  - unfold ConnectionMachine.epoch_closed. destruct (bool_decide (e = _)); [|done]. simpl.
    case_bool_decide as Hp; [|done]. split; simpl; [done| |destruct (ConnectionMachine.gate m); simpl; lia|done].
    rewrite Hp. simpl. lia.
Qed.

Lemma later_apply_reply {R : Type} m (reply : InboundReply.t R) heap :
  later m (ConnectionMachine.apply_reply m reply heap).1.1.
Proof.
  unfold ConnectionMachine.apply_reply.
  repeat case_match; solve [done|apply later_close|apply later_release].
Qed.

Lemma later_reserve m now options heap :
  later m (ConnectionMachine.reserve m now options heap).1.1.
Proof.
  unfold ConnectionMachine.reserve. repeat case_match; solve [done|apply later_identities].
Qed.

Lemma later_commit_permit m p retained heap :
  later m (ConnectionMachine.commit_permit m p retained heap).1.1.
Proof.
  unfold ConnectionMachine.commit_permit. destruct (OperationPermit.commit p retained heap).
  apply later_matching.
Qed.

(** ** The footprint on the heap *)

(** Only the ledger at [ledger] was written. *)
Definition confined (ledger : LedgerRef) heap heap' : Prop :=
  ∀ l, l ≠ ledger → Heap.borrow heap' l = Heap.borrow heap l.

#[export] Instance confined_preorder ledger : PreOrder (confined ledger).
Proof. split; [by intros heap l|]. intros h1 h2 h3 H1 H2 l Hl. by rewrite H2, H1. Qed.

Lemma confined_write ledger heap f : confined ledger heap (Heap.borrow_mut heap ledger f).
Proof. intros l Hl. by apply Heap.borrow_mut_ne. Qed.

Lemma confined_close_loop {R : Type} m why opf pending (tr : ConnectionTransition.t R) heap :
  confined (ConnectionMachine.ledger m) heap
    (ConnectionMachine.close_loop m why opf pending tr heap).2.
Proof.
  revert tr heap. induction pending as [|r pending IH]; intros tr heap; simpl; [done|].
  etrans; [|apply IH]. apply confined_write.
Qed.

Lemma confined_close {R : Type} m why opf (tr : ConnectionTransition.t R) heap :
  confined (ConnectionMachine.ledger m) heap
    (ConnectionMachine.close_with_failure_into m why opf tr heap).2.
Proof.
  unfold ConnectionMachine.close_with_failure_into. destruct (negb _); [done|].
  set (m1 := ConnectionMachine.set_state _ _ _ _).
  match goal with |- context [ConnectionMachine.close_loop m1 why opf ?l ?tr1 heap] =>
    pose proof (confined_close_loop m1 why opf l tr1 heap) as Hc;
    destruct (ConnectionMachine.close_loop m1 why opf l tr1 heap) end.
  exact Hc.
Qed.

Lemma confined_drain {R : Type} m (tr : ConnectionTransition.t R) heap heap0 :
  confined (ConnectionMachine.ledger m) heap0 heap →
  confined (ConnectionMachine.ledger m) heap0 (ConnectionMachine.finish_drain m tr heap).2.
Proof.
  intros H0. unfold ConnectionMachine.finish_drain. case_match; [|done].
  etrans; [exact H0|]. apply confined_close.
Qed.

Ltac confined_cases :=
  repeat case_match;
  first [done | apply confined_write | apply confined_close
        | apply (confined_drain (ConnectionMachine.set_matching _ _)); apply confined_write
        | apply (confined_drain (ConnectionMachine.set_gate _ _)); reflexivity].

Lemma confined_write_started m e op eff heap :
  confined (ConnectionMachine.ledger m) heap
    (ConnectionMachine.write_started m e op eff heap).2.
Proof. unfold ConnectionMachine.write_started. confined_cases. Qed.

Lemma confined_write_completed m e op eff heap :
  confined (ConnectionMachine.ledger m) heap
    (ConnectionMachine.write_completed m e op eff heap).2.
Proof.
  unfold ConnectionMachine.write_completed, ConnectionMachine.await_reply,
    ConnectionMachine.finish_write.
  repeat case_match; try done; try apply confined_write.
  all: apply (confined_drain (ConnectionMachine.set_matching _ _)); etrans; apply confined_write.
Qed.

Lemma confined_apply m input heap :
  confined (ConnectionMachine.ledger m) heap (ConnectionMachine.apply m input heap).2.
Proof.
  destruct input; simpl; unfold ConnectionMachine.open_admission, ConnectionMachine.cancel,
    ConnectionMachine.deadline_elapsed, ConnectionMachine.reply_malformed,
    ConnectionMachine.begin_drain, ConnectionMachine.close_requested,
    ConnectionMachine.epoch_closed, ConnectionMachine.close_into; confined_cases.
Qed.

Lemma confined_apply_reply {R : Type} m (reply : InboundReply.t R) heap :
  confined (ConnectionMachine.ledger m) heap (ConnectionMachine.apply_reply m reply heap).2.
Proof. unfold ConnectionMachine.apply_reply, ConnectionMachine.close_into. confined_cases. Qed.

Lemma confined_reserve m now options heap :
  confined (ConnectionMachine.ledger m) heap (ConnectionMachine.reserve m now options heap).1.2.
Proof.
  unfold ConnectionMachine.reserve. destruct (negb _); [done|]. destruct (is_elapsed_at _ _); [done|].
  destruct (negb _); [done|].
  destruct (ReservationLedger.reserve _ _ _) as [contents [reservation|e]].
  - destruct (IdentityGenerator.take _) as [g [[op eff]|]]; simpl.
    + intros l Hl. by apply Heap.borrow_store_ne.
    + etrans; [|apply confined_write]. intros l Hl. by apply Heap.borrow_store_ne.
  - intros l Hl. by apply Heap.borrow_store_ne.
Qed.

(** A permit of another core is refused before its ledger is written. *)
Lemma confined_commit_permit m p retained heap :
  ConnectionMachine.commit_failure m p retained = None →
  confined (ConnectionMachine.ledger m) heap (ConnectionMachine.commit_permit m p retained heap).1.2.
Proof.
  unfold ConnectionMachine.commit_failure, ConnectionMachine.commit_permit.
  case_bool_decide as Hl; simpl; [|done]. intros _. rewrite Hl. apply confined_write.
Qed.

(** Dropping a permit writes the ledger of its core only. *)
Lemma confined_drop_permit p heap :
  confined (OperationPermit.ledger p) heap (OperationPermit.drop p heap).2.
Proof. unfold OperationPermit.drop. case_match; [apply confined_write|done]. Qed.

(** ** Methods of the core *)

(** A latch that is set keeps its source. *)
Definition latched (p p' : option ConnectionCoreInvariant.t) : Prop :=
  ∀ source, p = Some source → p' = Some source.

#[export] Instance latched_preorder : PreOrder latched.
Proof. split; [by intros p source|]. intros p1 p2 p3 H1 H2 source H. auto. Qed.

Record onward s s' : Prop := mk_onward {
  on_machine : later (ConnectionCore.machine s.1) (ConnectionCore.machine s'.1);
  on_poison : latched (ConnectionCore.poisoned s.1) (ConnectionCore.poisoned s'.1);
  on_heap : confined (ConnectionMachine.ledger (ConnectionCore.machine s.1)) s.2 s'.2;
}.

Lemma onward_ledger s s' : onward s s' →
  ConnectionMachine.ledger (ConnectionCore.machine s'.1) =
  ConnectionMachine.ledger (ConnectionCore.machine s.1).
Proof. intros [[Hi _ _ _] _ _]. unfold identity in Hi. congruence. Qed.

#[export] Instance onward_preorder : PreOrder onward.
Proof.
  split; [by intros s; split|]. intros s1 s2 s3 H1 H2. pose proof (onward_ledger _ _ H1) as Hl.
  destruct H1, H2. rewrite Hl in *. by split; etrans.
Qed.

Definition steady {E A : Type} (c : STE (ConnectionCore.state F) E A) : Prop :=
  ∀ s, onward s (c s).1.

Lemma steady_bind {E A B : Type} (c : STE (ConnectionCore.state F) E A) (k : A → STE _ E B) :
  steady c → (∀ a, steady (k a)) → steady (ste_bind c k).
Proof.
  intros Hc Hk s. unfold ste_bind. pose proof (Hc s) as H. destruct (c s) as [s' [a|e]]; simpl in *;
    [|done]. etrans; [exact H|apply Hk].
Qed.

Lemma steady_ret {E A : Type} (a : A) : steady (E := E) (ste_ret a).
Proof. by intros s. Qed.

(** A step that leaves machine, latch and heap alone. *)
Lemma onward_same (self self' : ConnectionCore.t F) heap :
  ConnectionCore.machine self' = ConnectionCore.machine self →
  ConnectionCore.poisoned self' = ConnectionCore.poisoned self →
  onward (self, heap) (self', heap).
Proof. intros Hm Hp. split; simpl; rewrite ?Hm, ?Hp; [done|by intros ?|done]. Qed.

Lemma onward_poison {A : Type} source (self self0 : ConnectionCore.t F) heap0 heap :
  onward (self0, heap0) (self, heap) →
  onward (self0, heap0) (ConnectionCore.poison (A := A) source (self, heap)).1.
Proof.
  intros H. etrans; [exact H|]. unfold ConnectionCore.poison. split; simpl.
  - by destruct (ConnectionCore.poisoned self).
  - intros src Hs. by rewrite Hs.
  - done.
Qed.

Lemma steady_poison {A : Type} source : steady (ConnectionCore.poison (A := A) source).
Proof. intros [self heap]. by apply onward_poison. Qed.

Hint Resolve steady_bind steady_ret steady_poison : core.

(** Steps that only write the queue, the journal or the latch. *)
Ltac same_step :=
  repeat case_match; cbn [fst];
  solve [done | by apply onward_same | by apply onward_poison; apply onward_same].

Lemma steady_ensure_healthy : steady ConnectionCore.ensure_healthy.
Proof. intros [self heap]. unfold ConnectionCore.ensure_healthy. same_step. Qed.

Lemma steady_verify : steady ConnectionCore.verify_ownership_on_hot_path.
Proof.
  intros [self heap].
  unfold ConnectionCore.verify_ownership_on_hot_path, ConnectionCore.verify_ownership. same_step.
Qed.

Lemma steady_begin : steady ConnectionCore.begin_recovery_journal.
Proof. intros [self heap]. unfold ConnectionCore.begin_recovery_journal. same_step. Qed.

Lemma steady_begin_operation op : steady (ConnectionCore.begin_operation_recovery_journal op).
Proof. intros [self heap]. unfold ConnectionCore.begin_operation_recovery_journal. same_step. Qed.

Lemma steady_clear : steady ConnectionCore.clear_journal.
Proof. intros [self heap]. by apply onward_same. Qed.

Lemma steady_discard effect epoch op : steady (ConnectionCore.reconcile_discard effect epoch op).
Proof. intros [self heap]. unfold ConnectionCore.reconcile_discard. same_step. Qed.

Lemma steady_reconcile_loop {R : Type} (es : list (ConnectionEffect.t R)) output :
  steady (ConnectionCore.reconcile_loop es output).
Proof.
  revert output. induction es as [|e es IH]; intros output; [apply steady_ret|].
  destruct e; simpl; try apply IH. apply steady_bind; [apply steady_discard|]. intros _. apply IH.
Qed.

Lemma steady_reconcile {R : Type} (tr : ConnectionTransition.t R) :
  steady (ConnectionCore.reconcile tr).
Proof. apply steady_reconcile_loop. Qed.

Lemma steady_absorb combined tr op eff :
  steady (ConnectionCore.absorb_write_transition combined tr op eff).
Proof.
  unfold ConnectionCore.absorb_write_transition. case_match; [apply steady_poison|].
  apply steady_bind; [apply steady_reconcile|]. intros. apply steady_ret.
Qed.

Lemma steady_machine {R : Type} (f : ConnectionMachine.t → Heap.t →
    ConnectionMachine.t * ConnectionTransition.t R * Heap.t) :
  (∀ m heap, later m (f m heap).1.1 ∧ confined (ConnectionMachine.ledger m) heap (f m heap).2) →
  steady (ConnectionCore.machine_step f).
Proof.
  intros Hf [self heap]. unfold ConnectionCore.machine_step.
  pose proof (Hf (ConnectionCore.machine self) heap) as [H Hc].
  destruct (f _ _) as [[m' tr] heap']. by split.
Qed.

Lemma steady_queue epoch effect written :
  steady (ConnectionCore.advance_queue epoch effect written).
Proof. intros [self heap]. unfold ConnectionCore.advance_queue. same_step. Qed.

Lemma steady_retain_completed op eff frame measure delivery :
  steady (ConnectionCore.retain_completed op eff frame measure delivery).
Proof.
  unfold ConnectionCore.retain_completed. apply steady_bind.
  { intros [self heap]. unfold ConnectionCore.journal_retain_write. same_step. }
  intros kept. destruct kept; simpl; [|apply steady_poison].
  intros [self heap]. destruct (OrderedVerified.get_indexed _ _) as [[i r]|];
    [|apply (steady_poison (A := unit) (ConnectionCoreInvariant.UnexpectedWrite op eff) (self, heap))].
  refine (steady_bind _ _ _ _ (self, heap)).
  { intros [self' heap']. unfold ConnectionCore.journal_retain_operation. same_step. }
  intros ok. destruct ok; simpl; [apply steady_ret|apply steady_poison].
Qed.

(** The end of every method. *)
Lemma steady_settle {A : Type} (v : A) :
  steady (ConnectionCore.ensure_healthy ;;! ConnectionCore.clear_journal ;;! ste_ret v).
Proof.
  apply steady_bind; [apply steady_ensure_healthy|]. intros _.
  apply steady_bind; [apply steady_clear|]. intros _. apply steady_ret.
Qed.

Lemma steady_prepare_input input : steady (ConnectionCore.prepare_input_journal input).
Proof.
  intros [self heap]. unfold ConnectionCore.prepare_input_journal.
  repeat case_match; solve [done|apply steady_begin|apply steady_begin_operation].
Qed.

Lemma steady_prepare_reply {R : Type} (reply : InboundReply.t R) :
  steady (ConnectionCore.prepare_reply_journal reply).
Proof.
  intros [self heap]. unfold ConnectionCore.prepare_reply_journal.
  repeat case_match; solve [done|apply steady_begin|apply steady_begin_operation].
Qed.

Lemma steady_apply input : steady (ConnectionCore.apply input).
Proof.
  unfold ConnectionCore.apply. apply steady_bind; [apply steady_ensure_healthy|]. intros _.
  apply steady_bind; [apply steady_verify|]. intros _.
  apply steady_bind; [apply steady_prepare_input|]. intros _.
  apply steady_bind; [apply steady_machine; intros; split; [apply later_apply|apply confined_apply]|]. intros tr.
  apply steady_bind; [apply steady_reconcile|]. intros. apply steady_settle.
Qed.

Lemma steady_apply_reply {R : Type} (reply : InboundReply.t R) :
  steady (ConnectionCore.apply_reply reply).
Proof.
  unfold ConnectionCore.apply_reply. apply steady_bind; [apply steady_ensure_healthy|]. intros _.
  apply steady_bind; [apply steady_verify|]. intros _.
  apply steady_bind; [apply steady_prepare_reply|]. intros _.
  apply steady_bind; [apply steady_machine; intros; split; [apply later_apply_reply|apply confined_apply_reply]|]. intros tr.
  apply steady_bind; [apply steady_reconcile|]. intros. apply steady_settle.
Qed.

Lemma steady_advance_write epoch effect written :
  steady (ConnectionCore.advance_write epoch effect written).
Proof.
  unfold ConnectionCore.advance_write. apply steady_bind; [apply steady_ensure_healthy|]. intros _.
  apply steady_bind; [intros [self heap]; by apply onward_same|]. intros _.
  apply steady_bind; [apply steady_queue|]. intros progress.
  apply steady_bind.
  { destruct progress; [apply steady_ret|]. apply steady_bind; [apply steady_retain_completed|].
    intros _. apply steady_ret. }
  intros [[op boundary] complete]. apply steady_bind.
  { case_match; [|apply steady_ret].
    apply steady_bind; [apply steady_machine; intros; split; [apply later_write_started|apply confined_write_started]|].
    intros. apply steady_absorb. }
  intros combined. apply steady_bind; [|intros; apply steady_settle].
  destruct complete; [|apply steady_ret].
  apply steady_bind; [apply steady_machine; intros; split; [apply later_write_completed|apply confined_write_completed]|].
  intros. apply steady_absorb.
Qed.

Lemma steady_front_write {W : WriteFrame F} maximum :
  steady (ConnectionCore.front_write maximum).
Proof.
  intros [self heap]. unfold ConnectionCore.front_write.
  destruct (ConnectionCore.poisoned self) eqn:Hp; [done|]. case_match.
  { split; [done| |done]. intros source Hs. simpl in Hs. congruence. }
  case_match; [done|]. by apply onward_poison.
Qed.

Lemma steady_check_owner : steady ConnectionCore.check_owner.
Proof. apply steady_bind; [apply steady_ensure_healthy|]. intros _. apply steady_verify. Qed.

Lemma steady_reserve now options : steady (ConnectionCore.reserve now options).
Proof.
  intros s. unfold ConnectionCore.reserve. pose proof (steady_check_owner s) as Hc.
  destruct (ConnectionCore.check_owner s) as [[self heap] [|e]]; [|done].
  etrans; [exact Hc|]. pose proof (later_reserve (ConnectionCore.machine self) now options heap) as H.
  pose proof (confined_reserve (ConnectionCore.machine self) now options heap) as Hr.
  destruct (ConnectionMachine.reserve _ _ _ _) as [[m' heap'] r]. by split.
Qed.

Lemma steady_commit {W : WriteFrame F} permit frame : steady (ConnectionCore.commit permit frame).
Proof.
  intros s. unfold ConnectionCore.commit. pose proof (steady_check_owner s) as Hc.
  destruct (ConnectionCore.check_owner s) as [[self heap] [|e]]; [|done].
  etrans; [exact Hc|]. destruct (ConnectionMachine.commit_failure _ _ _) eqn:Hf; [done|].
  destruct (WriteQueue.admit_frame _ _ _ _ _ _) as [q [|e]]; [|by apply onward_same].
  pose proof (later_commit_permit (ConnectionCore.machine self) permit
    (FrameMeasure.retained_bytes (FrameMeasure.capture frame)) heap) as H.
  pose proof (confined_commit_permit (ConnectionCore.machine self) permit
    (FrameMeasure.retained_bytes (FrameMeasure.capture frame)) heap Hf) as Hp.
  cbn [ConnectionCore.machine ConnectionCore.set_writes].
  destruct (ConnectionMachine.commit_permit _ _ _ _) as [[m' heap'] r].
  by split; [exact H| |exact Hp].
Qed.

End lifecycle.
End Lifecycle.
