(* ===== verification/Reference.v ===== *)
(** * A reference model of the connection policy

    What an epoch promises its caller, without ledger, heap, writer, journal
    or indices: a list of operations in wire order, each with what its caller
    may still observe, and one function per input. [view] forgets everything
    else of a machine. The lemmas show that the handlers of
    [ConnectionMachine] compute this model, effect by effect. *)
From Stdlib Require Import ZArith Lia.
From stdpp Require Import prelude.
From S2P Require Import Prelude External Identity Limits Admission KeySet Ledger Permit Operation.
From S2P Require Import Matching Write Machine Ownership MachineSpec.

Import Change.

Module Reference.
Section reference.
Context {Cal : Calandria}.

(** An accepted operation. [settled]: its outcome is published and it only
    holds its place. [answerable]: its frame is written (or it is settled and
    holds no frame), so the next reply may be its own. *)
Record item : Type := mk_item {
  id : OperationId.t;
  key : MatchKey.t;
  deadline : Deadline;
  completion : CompletionMode.t;
  delivery : Delivery.t;
  settled : bool;
  answerable : bool;
}.

Record state : Type := mk_state {
  phase : ConnectionPhase.t;
  gate : AdmissionGate.t;
  reason : option CloseReason.t;
  items : list item;
}.

Definition with_items (s : state) (l : list item) : state :=
  mk_state (phase s) (gate s) (reason s) l.
Definition with_gate (s : state) (g : AdmissionGate.t) : state :=
  mk_state (phase s) g (reason s) (items s).
Definition settle (i : item) : item :=
  mk_item (id i) (key i) (deadline i) (completion i) (delivery i) true (answerable i).

(** The operation of an identity, the others, and an update of it. *)
Definition find (op : OperationId.t) (l : list item) : option item :=
  head (filter (λ i, id i = op) l).
Definition without (op : OperationId.t) (l : list item) : list item :=
  filter (λ i, id i ≠ op) l.
Definition update (op : OperationId.t) (f : item → item) (l : list item) : list item :=
  (λ i, if bool_decide (id i = op) then f i else i) <$> l.

Section effects.
Context {R : Type} (epoch : ConnectionEpoch.t).

(** Releasing an operation cancels its deadline and publishes its outcome,
    unless it already has one. *)
Definition release (i : item) (o : OperationOutcome.t R) : list (ConnectionEffect.t R) :=
  ConnectionEffect.CancelDeadline epoch (id i) ::
  if settled i then [] else [ConnectionEffect.PublishOutcome epoch (id i) o].

(** Closing releases every operation, in wire order, as failed. *)
Definition close (why : CloseReason.t) (failure : OperationId.t → OperationFailure.t) (s : state)
    : state * list (ConnectionEffect.t R) :=
  (mk_state ConnectionPhase.Closing AdmissionGate.Closed (Some why) [],
   ConnectionEffect.CloseEpoch epoch why ::
   concat ((λ i, release i (OperationOutcome.Failed (failure (id i)) (delivery i))) <$> items s)).

Definition close_all (why : CloseReason.t) (s : state) : state * list (ConnectionEffect.t R) :=
  close why (λ _, OperationFailure.ConnectionClosed why) s.

(** A drain that has nothing left to wait for closes. *)
Definition drained (s : state) : state * list (ConnectionEffect.t R) :=
  match items s with
  | [] => if bool_decide (gate s = AdmissionGate.Draining)
          then close_all CloseReason.Drained s else (s, [])
  | _ => (s, [])
  end.

(** Removal of an operation with its last outcome. *)
Definition finish (i : item) (o : OperationOutcome.t R) (s : state)
    : state * list (ConnectionEffect.t R) :=
  let '(s', es) := drained (with_items s (without (id i) (items s))) in
  (s', release i o ++ es).

Definition done (d : InputDisposition.t) (c : option CancelOutcome.t)
    (r : state * list (ConnectionEffect.t R)) : state * ConnectionTransition.t R :=
  (r.1, ConnectionTransition.mk d c r.2).

Definition ignored (d : InputDisposition.t) (s : state) : state * ConnectionTransition.t R :=
  done d None (s, []).

End effects.

Section inputs.
Context (epoch : ConnectionEpoch.t).

Definition cancel (op : OperationId.t) (s : state) : state * ConnectionTransition.t unit :=
  match find op (items s) with
  | None => done InputDisposition.IgnoredUnknownOperation (Some CancelOutcome.AlreadyTerminal)
              (s, [])
  | Some i =>
      if settled i then
        done InputDisposition.AlreadyTerminal (Some CancelOutcome.AlreadyTerminal) (s, [])
      else match delivery i with
      | Delivery.NotSent =>
          done InputDisposition.Applied (Some CancelOutcome.CancelledNotSent)
            (finish epoch i (OperationOutcome.Cancelled Delivery.NotSent) s)
      | Delivery.PossiblySent =>
          done InputDisposition.Applied
            (Some (CancelOutcome.ObservationCancelled Delivery.PossiblySent))
            (with_items s (update op settle (items s)),
             [ConnectionEffect.PublishOutcome epoch op
                (OperationOutcome.Cancelled Delivery.PossiblySent)])
      end
  end.

Definition deadline_elapsed (op : OperationId.t) (now : Moment) (s : state)
    : state * ConnectionTransition.t unit :=
  match find op (items s) with
  | None => ignored InputDisposition.IgnoredUnknownOperation s
  | Some i =>
      if negb (is_elapsed_at (deadline i) now) then
        done InputDisposition.Applied None
          (s, [ConnectionEffect.ScheduleDeadline epoch op (deadline i)])
      else match delivery i with
      | Delivery.PossiblySent =>
          done InputDisposition.Applied None
            (close_all epoch CloseReason.DeadlineAfterPossibleSend s)
      | Delivery.NotSent =>
          done InputDisposition.Applied None
            (finish epoch i
               (OperationOutcome.Failed OperationFailure.DeadlineElapsed Delivery.NotSent) s)
      end
  end.

Definition step (input : ConnectionInput.t) (s : state) : state * ConnectionTransition.t unit :=
  let mine (e : ConnectionEpoch.t) k :=
    if bool_decide (e = epoch) then k else ignored InputDisposition.IgnoredStaleEpoch s in
  match input with
  | ConnectionInput.OpenAdmission e => mine e
      (match phase s, gate s with
       | ConnectionPhase.Live, AdmissionGate.SessionOnly =>
           done InputDisposition.Applied None (with_gate s AdmissionGate.Open, [])
       | _, _ => ignored InputDisposition.IgnoredInvalidPhase s
       end)
  | ConnectionInput.Cancel e op =>
      if bool_decide (e = epoch) then cancel op s
      else done InputDisposition.IgnoredStaleEpoch (Some CancelOutcome.AlreadyTerminal) (s, [])
  | ConnectionInput.DeadlineElapsed e op now => mine e (deadline_elapsed op now s)
  | ConnectionInput.ReplyMalformed e => mine e
      (match phase s with
       | ConnectionPhase.Live =>
           done InputDisposition.Fault None (close_all epoch CloseReason.MalformedReply s)
       | _ => ignored InputDisposition.IgnoredInvalidPhase s
       end)
  | ConnectionInput.BeginDrain e => mine e
      (match phase s, gate s with
       | ConnectionPhase.Live, (AdmissionGate.SessionOnly | AdmissionGate.Open) =>
           done InputDisposition.Applied None (drained epoch (with_gate s AdmissionGate.Draining))
       | _, _ => ignored InputDisposition.IgnoredInvalidPhase s
       end)
  | ConnectionInput.CloseRequested e why => mine e
      (match phase s with
       | ConnectionPhase.Live => done InputDisposition.Applied None (close_all epoch why s)
       | _ => ignored InputDisposition.IgnoredInvalidPhase s
       end)
  | ConnectionInput.EpochClosed e => mine e
      (match phase s with
       | ConnectionPhase.Closing =>
           done InputDisposition.Applied None
             (mk_state ConnectionPhase.Closed AdmissionGate.Closed (reason s) (items s), [])
       | _ => ignored InputDisposition.IgnoredInvalidPhase s
       end)
  end.

(** A reply belongs to the oldest operation or ends the epoch. *)
Definition reply {R : Type} (r : InboundReply.t R) (s : state)
    : state * ConnectionTransition.t R :=
  if negb (bool_decide (InboundReply.epoch r = epoch)) then
    ignored InputDisposition.IgnoredStaleEpoch s
  else match phase s, items s with
  | ConnectionPhase.Live, i :: _ =>
      if negb (answerable i) then
        done InputDisposition.Fault None (close_all epoch CloseReason.UnexpectedReply s)
      else if bool_decide (InboundReply.key r = key i) then
        done InputDisposition.Applied None
          (finish epoch i (OperationOutcome.Reply (InboundReply.frame r)) s)
      else
        let expected := key i in
        let received := InboundReply.key r in
        let why := CloseReason.MatchKeyMismatch expected received in
        done InputDisposition.Fault None
          (close epoch why (λ op,
             if bool_decide (id i = op) then OperationFailure.MatchKeyMismatch expected received
             else OperationFailure.ConnectionClosed why) s)
  | ConnectionPhase.Live, [] =>
      done InputDisposition.Fault None (close_all epoch CloseReason.UnexpectedReply s)
  | _, _ => ignored InputDisposition.IgnoredInvalidPhase s
  end.

(** A report of written bytes for the operation [op] whose frame is at the
    front: [moved] when there were any, [completed] when none remain. *)
Definition touch (i : item) : item :=
  mk_item (id i) (key i) (deadline i) (completion i) Delivery.PossiblySent (settled i)
    (answerable i).
Definition written_out (i : item) : item :=
  mk_item (id i) (key i) (deadline i) (completion i) (delivery i) (settled i) true.

Definition progress (op : OperationId.t) (moved completed : bool) (s : state)
    : state * ConnectionTransition.t unit :=
  let s := if moved then with_items s (update op touch (items s)) else s in
  done InputDisposition.Applied None
    (if completed then
       match find op (items s) with
       | None => (s, [])
       | Some i =>
           match completion i with
           | CompletionMode.ReplyExpected => (with_items s (update op written_out (items s)), [])
           | CompletionMode.WriteComplete =>
               finish epoch i (OperationOutcome.WriteComplete (delivery i)) s
           end
       end
     else (s, [])).

End inputs.

(** ** The view of a machine *)

Definition item_of (r : OperationRecord.t) : item :=
  mk_item (OperationRecord.id r) (Reservation.match_key (OperationRecord.reservation r))
    (OperationRecord.deadline r) (OperationRecord.completion r) (OperationRecord.delivery r)
    (OperationRecord.is_terminal r) (ConnectionMachine.front_awaits_reply r).

Definition view (m : ConnectionMachine.t) : state :=
  mk_state (ConnectionMachine.phase m) (ConnectionMachine.gate m)
    (ConnectionMachine.close_reason m) (item_of <$> OrderedVerified.pending (ConnectionMachine.matching m)).

End reference.

(** ** Operations by identity *)

Section by_identity.
Context {Cal : Calandria}.

Lemma filter_none (P : item → Prop) `{!∀ i, Decision (P i)} (l : list item) :
  (∀ j, j ∈ l → ¬ P j) → filter P l = [].
Proof.
  induction l as [|j l IH]; intros Hl; [done|]. rewrite filter_cons_False by (apply Hl; constructor).
  apply IH. intros k Hk. apply Hl. by constructor.
Qed.

Lemma find_split l1 i l2 :
  NoDup (id <$> (l1 ++ i :: l2)) →
  find (id i) (l1 ++ i :: l2) = Some i ∧
  without (id i) (l1 ++ i :: l2) = l1 ++ l2 ∧
  ∀ f, update (id i) f (l1 ++ i :: l2) = l1 ++ f i :: l2.
Proof.
  rewrite fmap_app, fmap_cons. intros (_ & Hd & [Hn _]%NoDup_cons)%NoDup_app.
  assert (∀ l, (∀ j, j ∈ l → id j ≠ id i) →
    filter (λ j, id j = id i) l = [] ∧
    without (id i) l = l ∧
    ∀ f, update (id i) f l = l) as Hother.
  { intros l Hl. unfold without, update. split_and!.
    - by apply filter_none.
    - induction l as [|j l IH]; [done|]. rewrite filter_cons_True by (apply Hl; set_solver).
      rewrite IH; [done|]. set_solver.
    - intros f. induction l as [|j l IH]; [done|]. csimpl.
      rewrite bool_decide_eq_false_2 by (apply Hl; set_solver). rewrite IH; [done|]. set_solver. }
  destruct (Hother l1) as (F1 & W1 & U1).
  { intros j Hj Heq. apply (Hd (id j)); [by apply list_elem_of_fmap_2|].
    rewrite Heq. constructor. }
  destruct (Hother l2) as (F2 & W2 & U2).
  { intros j Hj Heq. apply Hn. rewrite <- Heq. by apply list_elem_of_fmap_2. }
  unfold find, without, update in *. split_and!.
  - rewrite filter_app, F1, filter_cons_True by done. done.
  - rewrite filter_app, W1, filter_cons_False by auto. by rewrite W2.
  - intros f. rewrite fmap_app, U1, fmap_cons, U2. by rewrite bool_decide_eq_true_2.
Qed.

Lemma find_None op l : op ∉ (id <$> l) → find op l = None.
Proof.
  intros Hn. unfold find. rewrite filter_none; [done|]. intros j Hj <-. apply Hn.
  by apply list_elem_of_fmap_2.
Qed.

End by_identity.
End Reference.
