(* ===== verification/ReferenceFacts.v ===== *)
(** * What the effects of a reference step tell its host

    A host only reads the effects of a transition. [told] says that they
    account for everything that changed in the observable state: the outcomes
    they publish, the deadlines they cancel and the closing of the epoch. *)
From Stdlib Require Import ZArith Lia.
From stdpp Require Import prelude.
From S2P Require Import Prelude External Identity Limits Admission Operation Machine Reference.

Module Told.
Section told.
Context {Cal : Calandria} {R : Type}.
Implicit Types (v : Reference.state) (i : Reference.item) (es : list (ConnectionEffect.t R)).

(** ** What a list of effects says *)

Definition published es : list (ConnectionEpoch.t * OperationId.t * OperationOutcome.t R) :=
  omap (λ e, match e with
             | ConnectionEffect.PublishOutcome epoch op o => Some (epoch, op, o)
             | _ => None
             end) es.

Definition cancelled es : list OperationId.t :=
  omap (λ e, match e with
             | ConnectionEffect.CancelDeadline _ op => Some op
             | _ => None
             end) es.

Definition closes es : list CloseReason.t :=
  omap (λ e, match e with
             | ConnectionEffect.CloseEpoch _ why => Some why
             | _ => None
             end) es.

Lemma ref_published_app e1 e2 : published (e1 ++ e2) = published e1 ++ published e2.
Proof. apply omap_app. Qed.

Lemma cancelled_app e1 e2 : cancelled (e1 ++ e2) = cancelled e1 ++ cancelled e2.
Proof. apply omap_app. Qed.

Lemma closes_app e1 e2 : closes (e1 ++ e2) = closes e1 ++ closes e2.
Proof. apply omap_app. Qed.

(** No deadline is asked for, and no frame is named. *)
Definition plain (e : ConnectionEffect.t R) : bool :=
  match e with
  | ConnectionEffect.ScheduleDeadline _ _ _ | ConnectionEffect.DiscardWrite _ _ _ => false
  | _ => true
  end.

(** ** What a host keeps track of *)

(** The operations that owe an outcome, and the deadlines to arm. *)
Definition live v : list OperationId.t :=
  Reference.id <$> filter (λ i, Reference.settled i = false) (Reference.items v).

Definition due i : OperationId.t * Deadline := (Reference.id i, Reference.deadline i).
Definition deadlines v : list (OperationId.t * Deadline) := due <$> Reference.items v.

(** [answers] are the replies an outcome may carry, [epoch] is the lifetime
    outcomes are labeled with. *)
Definition carries (answers : R → Prop) (o : OperationOutcome.t R) : Prop :=
  match o with OperationOutcome.Reply r => answers r | _ => True end.

Record told (answers : R → Prop) (epoch : ConnectionEpoch.t) v es v' : Prop := mk_told {
  td_plain : Forall (λ e, plain e = true) es;
  td_epoch : Forall (λ p, p.1.1 = epoch) (published es);
  td_carries : Forall (λ p, carries answers p.2) (published es);
  td_live : live v ≡ₚ (published es).*1.*2 ++ live v';
  td_deadlines : deadlines v' = filter (λ p, p.1 ∉ cancelled es) (deadlines v);
  td_life :
    (closes es = [] ∧ Reference.phase v' = Reference.phase v ∧
       Reference.gate v' = Reference.gate v ∧ Reference.reason v' = Reference.reason v) ∨
    (∃ why, closes es = [why] ∧ Reference.phase v = ConnectionPhase.Live ∧
       Reference.phase v' = ConnectionPhase.Closing ∧ Reference.gate v' = AdmissionGate.Closed ∧
       Reference.reason v' = Some why ∧
       (why = CloseReason.Drained → Reference.gate v = AdmissionGate.Draining));
}.

Context (answers : R → Prop) (epoch : ConnectionEpoch.t).

Lemma live_split v l1 i l2 :
  Reference.items v = l1 ++ i :: l2 →
  live v ≡ₚ (if Reference.settled i then [] else [Reference.id i]) ++
    live (Reference.with_items v (l1 ++ l2)).
Proof.
  intros Hi. unfold live. rewrite Hi. simpl. rewrite !filter_app, filter_cons.
  destruct (Reference.settled i) eqn:Hs.
  - rewrite decide_False by congruence. done.
  - rewrite decide_True by done. rewrite !fmap_app, fmap_cons. solve_Permutation.
Qed.

(** Filtering the operations other than one of them. *)
Lemma filter_other (l : list (OperationId.t * Deadline)) op :
  op ∉ l.*1 → filter (λ p, p.1 ∉ [op]) l = l.
Proof.
  induction l as [|p l IH]; [done|]. rewrite fmap_cons. intros [Hne Hn]%not_elem_of_cons.
  rewrite filter_cons_True by set_solver. by rewrite IH.
Qed.

Lemma deadlines_split v l1 i l2 :
  Reference.items v = l1 ++ i :: l2 → NoDup (Reference.id <$> Reference.items v) →
  due <$> (l1 ++ l2) = filter (λ p, p.1 ∉ [Reference.id i]) (deadlines v).
Proof.
  intros Hi. unfold deadlines. rewrite Hi, !fmap_app, !fmap_cons, filter_app, filter_cons_False
    by set_solver.
  intros (_ & Hd & [Hn _]%NoDup_cons)%NoDup_app.
  rewrite !filter_other; [done| |].
  - rewrite <- list_fmap_compose. exact Hn.
  - rewrite <- list_fmap_compose. intros Hin. apply (Hd _ Hin). constructor.
Qed.

Lemma filter_all (l : list (OperationId.t * Deadline)) : filter (λ p, p.1 ∉ []) l = l.
Proof. induction l as [|p l IH]; [done|]. rewrite filter_cons_True by set_solver. by rewrite IH. Qed.

(** ** Rules *)

Lemma told_none v : told answers epoch v [] v.
Proof.
  split; simpl; [constructor..|done| |by left].
  symmetry. apply filter_all.
Qed.

Lemma told_seq v1 e1 v2 e2 v3 :
  told answers epoch v1 e1 v2 → told answers epoch v2 e2 v3 → told answers epoch v1 (e1 ++ e2) v3.
Proof.
  intros [P1 Q1 C1 L1 D1 F1] [P2 Q2 C2 L2 D2 F2].
  split; rewrite ?ref_published_app, ?cancelled_app, ?closes_app.
  - by apply Forall_app.
  - by apply Forall_app.
  - by apply Forall_app.
  - rewrite L1, L2, !fmap_app. by rewrite app_assoc.
  - rewrite D2, D1, list_filter_filter. apply list_filter_iff. intros p. set_solver.
  - destruct F1 as [(-> & E1 & E2 & E3)|(why & -> & Hl & Hc1 & ? & ? & ?)].
    + rewrite app_nil_l, E1, E2, E3 in *. done.
    + destruct F2 as [(-> & E1 & E2 & E3)|(why' & _ & Hl' & _)]; [|congruence].
      right. exists why. rewrite app_nil_r, E1, E2, E3. by split_and!.
Qed.

(** An operation changed in place, its identity and deadline kept. *)
Lemma told_settle v l1 i l2 o :
  Reference.items v = l1 ++ i :: l2 → Reference.settled i = false → carries answers o →
  told answers epoch v [ConnectionEffect.PublishOutcome epoch (Reference.id i) o]
    (Reference.with_items v (l1 ++ Reference.settle i :: l2)).
Proof.
  intros Hi Hs Ho. split; [by repeat constructor..| | |by left].
  - rewrite (live_split _ _ _ _ Hi), Hs. unfold live. simpl.
    rewrite !filter_app, (filter_cons_False _ (Reference.settle i)) by done. done.
  - simpl. rewrite filter_all. unfold deadlines. simpl. by rewrite Hi, !fmap_app, !fmap_cons.
Qed.

Lemma told_update v l1 i i' l2 :
  Reference.items v = l1 ++ i :: l2 → due i' = due i →
  Reference.settled i' = Reference.settled i →
  told answers epoch v [] (Reference.with_items v (l1 ++ i' :: l2)).
Proof.
  intros Hi Hd Hs. split; [constructor..| | |by left].
  - rewrite (live_split _ _ _ _ Hi).
    rewrite (live_split (Reference.with_items v (l1 ++ i' :: l2)) l1 i' l2 eq_refl), Hs.
    by replace (Reference.id i') with (Reference.id i) by (unfold due in Hd; congruence).
  - simpl. rewrite filter_all. unfold deadlines. simpl. by rewrite Hi, !fmap_app, !fmap_cons, Hd.
Qed.

Lemma release_says i (o : OperationOutcome.t R) :
  carries answers o → let es := Reference.release epoch i o in
  Forall (λ e, plain e = true) es ∧ Forall (λ p, p.1.1 = epoch) (published es) ∧
  Forall (λ p, carries answers p.2) (published es) ∧
  (published es).*1.*2 = (if Reference.settled i then [] else [Reference.id i]) ∧
  cancelled es = [Reference.id i] ∧ closes es = [].
Proof.
  intros Ho. unfold Reference.release. destruct (Reference.settled i); split_and!; try done;
    by repeat constructor.
Qed.

Lemma told_release v l1 i l2 o :
  Reference.items v = l1 ++ i :: l2 → NoDup (Reference.id <$> Reference.items v) →
  carries answers o →
  told answers epoch v (Reference.release epoch i o) (Reference.with_items v (l1 ++ l2)).
Proof.
  intros Hi Hn Ho. destruct (release_says i o Ho) as (P & E & C & L & D & F).
  split; [exact P|exact E|exact C| | |].
  - rewrite L. by apply live_split.
  - rewrite D. by apply deadlines_split.
  - left. by rewrite F.
Qed.

(** All the operations released at once. *)
Lemma releases_say (failure : OperationId.t → OperationFailure.t) (l : list Reference.item) :
  let es := concat ((λ i, Reference.release (R := R) epoch i
    (OperationOutcome.Failed (failure (Reference.id i)) (Reference.delivery i))) <$> l) in
  Forall (λ e, plain e = true) es ∧ Forall (λ p, p.1.1 = epoch) (published es) ∧
  Forall (λ p, carries answers p.2) (published es) ∧
  (published es).*1.*2 = Reference.id <$> filter (λ i, Reference.settled i = false) l ∧
  cancelled es = Reference.id <$> l ∧ closes es = [].
Proof.
  induction l as [|i l (P & E & C & L & D & F)]; [by split_and!; constructor|].
  cbv zeta in *. rewrite !fmap_cons. change (concat (?a :: ?l)) with (a ++ concat l).
  set (es := concat _) in *. set (o := OperationOutcome.Failed _ _).
  rewrite ref_published_app, cancelled_app, closes_app, !fmap_app, L, D, F.
  destruct (release_says i o I) as (P1 & E1 & C1 & -> & -> & ->).
  split_and!; try done; [by apply Forall_app..|].
  rewrite filter_cons. destruct (Reference.settled i) eqn:Hs.
  - by rewrite decide_False by congruence.
  - by rewrite decide_True.
Qed.

Lemma told_close v why failure :
  Reference.phase v = ConnectionPhase.Live →
  (why = CloseReason.Drained → Reference.gate v = AdmissionGate.Draining) →
  let '(v', es) := Reference.close epoch why failure v in told answers epoch v es v'.
Proof.
  intros Hl Hd. unfold Reference.close.
  destruct (releases_say failure (Reference.items v)) as (P & E & C & L & D & F).
  cbv zeta in *. set (es := concat _) in *. split.
  - by constructor.
  - exact E.
  - exact C.
  - change (published (_ :: es)) with (published es). rewrite L.
    change (live v ≡ₚ live v ++ []). by rewrite app_nil_r.
  - change (cancelled (_ :: es)) with (cancelled es). rewrite D. unfold deadlines. simpl.
    symmetry. cut (∀ l, (∀ i, i ∈ l → i ∈ Reference.items v) →
      filter (λ p, p.1 ∉ Reference.id <$> Reference.items v) (due <$> l) = []); [by auto|].
    intros l. induction l as [|i l IH]; intros Hl'; [done|]. rewrite fmap_cons.
    rewrite filter_cons_False.
    + apply IH. intros j Hj. apply Hl'. by constructor.
    + intros Hn. apply Hn. simpl. apply (list_elem_of_fmap_2 Reference.id), Hl'. constructor.
  - right. exists why. change (closes (_ :: es)) with (why :: closes es). rewrite F.
    by split_and!.
Qed.

Lemma told_close_all v why :
  Reference.phase v = ConnectionPhase.Live →
  (why = CloseReason.Drained → Reference.gate v = AdmissionGate.Draining) →
  told answers epoch v (Reference.close_all (R := R) epoch why v).2
    (Reference.close_all (R := R) epoch why v).1.
Proof.
  intros Hl Hd. pose proof (told_close v why (λ _, OperationFailure.ConnectionClosed why) Hl Hd).
  unfold Reference.close_all. by destruct (Reference.close _ _ _ _).
Qed.

Lemma told_drained v :
  (Reference.gate v = AdmissionGate.Draining → Reference.phase v = ConnectionPhase.Live) →
  told answers epoch v (Reference.drained (R := R) epoch v).2 (Reference.drained (R := R) epoch v).1.
Proof.
  intros Hl. unfold Reference.drained. destruct (Reference.items v); [|apply told_none].
  case_bool_decide as Hg; [|apply told_none]. by apply told_close_all; [apply Hl|].
Qed.

Lemma told_finish v l1 i l2 o :
  Reference.items v = l1 ++ i :: l2 → NoDup (Reference.id <$> Reference.items v) →
  Reference.phase v = ConnectionPhase.Live → carries answers o →
  told answers epoch v (Reference.finish epoch i o v).2 (Reference.finish epoch i o v).1.
Proof.
  intros Hi Hn Hl Ho. unfold Reference.finish.
  assert (Reference.without (Reference.id i) (Reference.items v) = l1 ++ l2) as ->.
  { rewrite Hi in *. by destruct (Reference.find_split l1 i l2 Hn) as (_ & ? & _). }
  pose proof (told_release v l1 i l2 o Hi Hn Ho) as H1.
  pose proof (told_drained (Reference.with_items v (l1 ++ l2)) (λ _, Hl)) as H2.
  destruct (Reference.drained _ _) as [v' es]. exact (told_seq _ _ _ _ _ H1 H2).
Qed.

Lemma find_Some op l i :
  Reference.find op l = Some i → ∃ l1 l2, l = l1 ++ i :: l2 ∧ Reference.id i = op.
Proof.
  unfold Reference.find. intros Hh. assert (i ∈ filter (λ i, Reference.id i = op) l) as Hin.
  { destruct (filter _ l); [done|]. injection Hh as ->. constructor. }
  apply list_elem_of_filter in Hin as [Hid (l1 & l2 & ->)%list_elem_of_split]. eauto.
Qed.

(** An operation that is there is found. *)
Lemma find_elem v i :
  NoDup (Reference.id <$> Reference.items v) → i ∈ Reference.items v →
  Reference.find (Reference.id i) (Reference.items v) = Some i.
Proof.
  intros Hn (l1 & l2 & Hi)%list_elem_of_split. rewrite Hi in *. by destruct (Reference.find_split l1 i l2 Hn) as (? & _).
Qed.

End told.

(** ** Inputs *)

Section inputs.
Context {Cal : Calandria}.
Implicit Types (v : Reference.state).

(** A unit transition carries no reply. *)
Definition none : unit → Prop := λ _, False.

(** A live epoch is needed for anything that is still owned. *)
Definition coherent v : Prop :=
  NoDup (Reference.id <$> Reference.items v) ∧
  (Reference.phase v ≠ ConnectionPhase.Live →
     Reference.items v = [] ∧ Reference.gate v = AdmissionGate.Closed).

Lemma coherent_live v l1 i l2 :
  coherent v → Reference.items v = l1 ++ i :: l2 → Reference.phase v = ConnectionPhase.Live.
Proof.
  intros [_ Hc] Hi. destruct (Reference.phase v); [done|..];
    destruct Hc as [Hn _]; try done; rewrite Hn in Hi; by destruct l1.
Qed.

Lemma told_cancel epoch v op :
  coherent v → let ref := Reference.cancel epoch op v in
  told none epoch v (ConnectionTransition.effects ref.2) ref.1.
Proof.
  intros Hc. unfold Reference.cancel.
  destruct (Reference.find op (Reference.items v)) as [i|] eqn:Hf; [|apply told_none].
  apply find_Some in Hf as (l1 & l2 & Hi & <-).
  destruct (Reference.settled i) eqn:Hs; [apply told_none|].
  destruct (Reference.delivery i).
  - simpl. eapply told_finish; [exact Hi|apply Hc|by eapply coherent_live|done].
  - simpl. destruct Hc as [Hn _]. rewrite Hi in Hn |- *.
    destruct (Reference.find_split _ _ _ Hn) as (_ & _ & ->). by apply told_settle.
Qed.

(** The timer of an operation went off no earlier than its deadline. *)
Lemma told_deadline epoch v op d now :
  coherent v → (op, d) ∈ deadlines v → is_elapsed_at d now = true →
  let ref := Reference.deadline_elapsed epoch op now v in
  told none epoch v (ConnectionTransition.effects ref.2) ref.1 ∧
  op ∈ cancelled (ConnectionTransition.effects ref.2).
Proof.
  intros Hc (i & Heq & Hin)%list_elem_of_fmap He. unfold due in Heq. injection Heq as -> ->.
  unfold Reference.deadline_elapsed. rewrite (find_elem v i) by (try apply Hc; done). rewrite He.
  apply list_elem_of_split in Hin as (l1 & l2 & Hi). simpl negb. cbv iota.
  pose proof (coherent_live _ _ _ _ Hc Hi) as Hl.
  destruct (Reference.delivery i); simpl.
  - split; [eapply told_finish; [exact Hi|apply Hc|done|done]|].
    unfold Reference.finish. destruct (Reference.drained _ _) as [v' es]. simpl.
    unfold Reference.release, cancelled. rewrite omap_app. simpl. by apply elem_of_cons; left.
  - split; [by apply told_close_all|].
    destruct (releases_say (λ _ : unit, False) epoch
      (λ _, OperationFailure.ConnectionClosed CloseReason.DeadlineAfterPossibleSend)
      (Reference.items v)) as (_ & _ & _ & _ & D & _). cbv zeta in D.
    match type of D with cancelled ?es = _ => change (Reference.id i ∈ cancelled es) end.
    rewrite D. apply list_elem_of_fmap_2. rewrite Hi. set_solver.
Qed.

Lemma told_reply {R : Type} epoch v (r : InboundReply.t R) :
  coherent v → let ref := Reference.reply epoch r v in
  told (λ f, f = InboundReply.frame r) epoch v (ConnectionTransition.effects ref.2) ref.1.
Proof.
  intros Hc. unfold Reference.reply. destruct (negb _); [apply told_none|].
  destruct (Reference.phase v) eqn:Hl; [|apply told_none..].
  destruct (Reference.items v) as [|i l] eqn:Hi; [by apply told_close_all|].
  destruct (negb _); [by apply told_close_all|].
  case_bool_decide.
  - simpl. eapply (told_finish _ _ _ []); [exact Hi|apply Hc|done|done].
  - pose proof (told_close (λ f, f = InboundReply.frame r) epoch v
      (CloseReason.MatchKeyMismatch (Reference.key i) (InboundReply.key r))
      (λ op, if bool_decide (Reference.id i = op)
             then OperationFailure.MatchKeyMismatch (Reference.key i) (InboundReply.key r)
             else OperationFailure.ConnectionClosed
               (CloseReason.MatchKeyMismatch (Reference.key i) (InboundReply.key r))) Hl) as Ht.
    unfold Reference.done. destruct (Reference.close _ _ _ _). by apply Ht.
Qed.

Lemma told_progress epoch v op (moved completed : bool) :
  coherent v → let ref := Reference.progress epoch op moved completed v in
  told none epoch v (ConnectionTransition.effects ref.2) ref.1.
Proof.
  intros Hc. unfold Reference.progress.
  set (v1 := if moved then _ else v).
  assert (told none epoch v [] v1 ∧ coherent v1) as [H1 Hc1].
  { unfold v1. destruct moved; [|split; [apply told_none|done]].
    destruct (Reference.find op (Reference.items v)) as [i|] eqn:Hf.
    - apply find_Some in Hf as (l1 & l2 & Hi & <-). pose proof Hc as [Hn Hlife].
      rewrite Hi in Hn. destruct (Reference.find_split _ _ _ Hn) as (_ & _ & Hu). rewrite Hi, Hu.
      split; [by eapply told_update|]. split; simpl.
      + rewrite fmap_app, fmap_cons in *. exact Hn.
      + intros Hp. destruct (Hlife Hp) as [Hnil _]. rewrite Hnil in Hi. by destruct l1.
    - assert (Reference.update op Reference.touch (Reference.items v) = Reference.items v) as ->.
      { unfold Reference.find, Reference.update in *.
        assert (∀ l, head (filter (λ i, Reference.id i = op) l) = None →
          (λ i, if bool_decide (Reference.id i = op) then Reference.touch i else i) <$> l = l) as Hx.
        { induction l as [|j l IH]; [done|]. rewrite filter_cons. csimpl.
          case_decide; [done|]. intros Hh. rewrite bool_decide_eq_false_2 by done. by rewrite IH. }
        by apply Hx. }
      assert (Reference.with_items v (Reference.items v) = v) as -> by (by destruct v).
      split; [apply told_none|done]. }
  destruct completed; [|exact H1].
  destruct (Reference.find op (Reference.items v1)) as [i|] eqn:Hf; [|exact H1].
  apply find_Some in Hf as (l1 & l2 & Hi & <-). destruct (Reference.completion i).
  - simpl. pose proof Hc1 as [Hn _]. rewrite Hi in Hn.
    destruct (Reference.find_split _ _ _ Hn) as (_ & _ & Hu). rewrite Hi, Hu.
    change (@nil (ConnectionEffect.t unit)) with (@nil (ConnectionEffect.t unit) ++ []).
    eapply told_seq; [exact H1|]. by eapply told_update.
  - simpl. change (Reference.finish epoch i ?o v1).2 with ([] ++ (Reference.finish epoch i o v1).2).
    eapply told_seq; [exact H1|].
    eapply told_finish; [exact Hi|apply Hc1|by eapply coherent_live|done].
Qed.

End inputs.
End Told.
