(* ===== verification/Refinement.v ===== *)
(** * The machine computes the reference model

    For every input, the handlers of [ConnectionMachine] take the view of the
    machine to the state the reference model reaches, and their effects, less
    the discards the core carries out itself, are the reference effects. *)
From Stdlib Require Import ZArith Lia.
From stdpp Require Import prelude.
From S2P Require Import Prelude External Identity Limits Admission KeySet Ledger Permit Operation.
From S2P Require Import Matching Write Machine Ownership MachineSpec Core CoreSpec CoreProgress.
From S2P Require Import Reference.

Import Policy Change Step Handlers Inputs CoreSpec MachineProgress CoreProgress.
Import ConnectionTransition (new, cancelled, push).

Module Refinement.
Section refinement.
Context {Cal : Calandria} {Laws : CalandriaLaws Cal} {F : Type}.
Implicit Types (m : ConnectionMachine.t) (heap : Heap.t) (x : Owned.t F).

(** ** Operations by identity *)

Lemma view_ids (rs : list OperationRecord.t) :
  Reference.id <$> (Reference.item_of <$> rs) = OrderedVerified.ids rs.
Proof. unfold OrderedVerified.ids. by rewrite <- list_fmap_compose. Qed.

(** The operations of a policy, located, after the record of one became
    another's of the same identity. *)
Lemma find_replaced limits l1 x l2 permits m heap x1 :
  policy limits (l1 ++ x :: l2) permits m heap → Owned.id x1 = Owned.id x →
  let items := Reference.items
    (Reference.view (with_records m (Owned.record <$> (l1 ++ x1 :: l2)))) in
  Reference.find (Owned.id x) items = Some (Reference.item_of (Owned.record x1)) ∧
  Reference.without (Owned.id x) items =
    Reference.item_of <$> (Owned.record <$> (l1 ++ l2)) ∧
  ∀ f, Reference.update (Owned.id x) f items =
    (Reference.item_of <$> (Owned.record <$> l1)) ++ f (Reference.item_of (Owned.record x1)) ::
    (Reference.item_of <$> (Owned.record <$> l2)).
Proof.
  intros Hp Hid. simpl. rewrite !fmap_app, !fmap_cons, <- Hid.
  change (Owned.id x1) with (Reference.id (Reference.item_of (Owned.record x1))).
  apply Reference.find_split. rewrite <- fmap_cons, <- fmap_app, view_ids, <- fmap_cons, <- fmap_app.
  destruct (pol_ids _ _ _ _ _ Hp) as [Hn _ _ _ _ _].
  unfold op_ids in Hn. apply NoDup_app in Hn as (Hn & _). unfold OrderedVerified.ids.
  rewrite <- list_fmap_compose, fmap_app, fmap_cons in *.
  change ((OperationRecord.id ∘ Owned.record) x1) with (Owned.id x1). by rewrite Hid.
Qed.

Lemma find_owned limits l1 x l2 permits m heap :
  policy limits (l1 ++ x :: l2) permits m heap →
  let items := Reference.items (Reference.view m) in
  Reference.find (Owned.id x) items = Some (Reference.item_of (Owned.record x)) ∧
  Reference.without (Owned.id x) items =
    Reference.item_of <$> (Owned.record <$> (l1 ++ l2)) ∧
  ∀ f, Reference.update (Owned.id x) f items =
    (Reference.item_of <$> (Owned.record <$> l1)) ++ f (Reference.item_of (Owned.record x)) ::
    (Reference.item_of <$> (Owned.record <$> l2)).
Proof.
  intros Hp. pose proof (find_replaced _ _ _ _ _ _ _ x Hp eq_refl) as Hf. simpl in *.
  by rewrite (pol_records _ _ _ _ _ Hp).
Qed.

(** ** Closing *)

Section closing.
Context {R : Type}.
Implicit Types (tr : ConnectionTransition.t R).

(** [tr'] is [tr] with these effects shown besides. *)
Definition shows tr tr' (es : list (ConnectionEffect.t R)) : Prop :=
  shown tr' = ConnectionTransition.mk (ConnectionTransition.disposition tr)
    (ConnectionTransition.cancel_outcome tr) (visible (ConnectionTransition.effects tr) ++ es).

Lemma extends_shows tr tr' es : Step.extends tr tr' es → shows tr tr' (visible es).
Proof. intros (Hd & Hc & He). unfold shows, shown. by rewrite Hd, Hc, He, visible_app. Qed.

Lemma close_record_shows m why opf r tr :
  shows tr (ConnectionMachine.close_record m why opf r tr)
    (Reference.release (ConnectionMachine.epoch m) (Reference.item_of r)
       (OperationOutcome.Failed (Closing.failure_of why opf (OperationRecord.id r))
          (OperationRecord.delivery r))).
Proof.
  pose proof (extends_shows _ _ _ (Closing.close_record_extends m why opf
    (Owned.mk (F := F) r None) tr)) as Hs.
  rewrite Closing.record_effects_visible in Hs. exact Hs.
Qed.

Lemma close_loop_shows m why opf rs tr heap :
  shows tr (ConnectionMachine.close_loop m why opf rs tr heap).1
    (concat ((λ i, Reference.release (ConnectionMachine.epoch m) i
       (OperationOutcome.Failed (Closing.failure_of why opf (Reference.id i))
          (Reference.delivery i))) <$> (Reference.item_of <$> rs))).
Proof.
  revert tr heap. induction rs as [|r rs IH]; intros tr heap.
  { unfold shows, shown. simpl. by rewrite app_nil_r. }
  simpl ConnectionMachine.close_loop. rewrite !fmap_cons.
  change (concat (?a :: ?l)) with (a ++ concat l).
  pose proof (close_record_shows m why opf r tr) as Hr.
  specialize (IH (ConnectionMachine.close_record m why opf r tr)
    (Heap.borrow_mut heap (ConnectionMachine.ledger m) (λ a,
      ReservationLedger.release_operation a (OperationRecord.reservation r)
        (OperationRecord.write_held r)))).
  unfold shows in *. rewrite IH. unfold shown in Hr. injection Hr as -> -> ->.
  by rewrite <- app_assoc.
Qed.

Lemma close_view m why opf tr heap :
  ConnectionMachine.phase m = ConnectionPhase.Live →
  let '(m', tr', _) := ConnectionMachine.close_with_failure_into m why opf tr heap in
  let '(s', es) := Reference.close (ConnectionMachine.epoch m) why (Closing.failure_of why opf)
    (Reference.view m) in
  Reference.view m' = s' ∧ shows tr tr' es.
Proof.
  intros Hl. unfold ConnectionMachine.close_with_failure_into.
  rewrite bool_decide_eq_true_2 by done. simpl negb. cbv iota.
  set (m1 := ConnectionMachine.set_state _ _ _ _).
  pose proof (close_loop_shows m1 why opf (OrderedVerified.pending (ConnectionMachine.matching m1))
    (push tr (ConnectionEffect.CloseEpoch (ConnectionMachine.epoch m1) why)) heap) as Hs.
  destruct (ConnectionMachine.close_loop _ _ _ _ _ _) as [tr' heap']. split; [done|].
  unfold shows in *. simpl in Hs. rewrite Hs. simpl. by rewrite visible_app, <- app_assoc.
Qed.

Lemma drain_view m tr heap :
  (ConnectionMachine.gate m = AdmissionGate.Draining →
   ConnectionMachine.phase m = ConnectionPhase.Live) →
  let '(m', tr', _) := ConnectionMachine.finish_drain m tr heap in
  let '(s', es) := Reference.drained (ConnectionMachine.epoch m) (Reference.view m) in
  Reference.view m' = s' ∧ shows tr tr' es.
Proof.
  intros Hl. unfold ConnectionMachine.finish_drain, Reference.drained, OrderedVerified.is_empty.
  assert (shows tr tr []) as Hrefl by (unfold shows, shown; by rewrite app_nil_r).
  simpl Reference.items. simpl Reference.gate.
  destruct (OrderedVerified.pending (ConnectionMachine.matching m)) as [|r rs] eqn:Hp; simpl.
  - rewrite andb_true_r. case_bool_decide as Hg; [|done].
    exact (close_view m CloseReason.Drained None tr heap (Hl Hg)).
  - by rewrite andb_false_r.
Qed.

(** What a handler leaves is what the reference model says. *)
Definition computes (out : ConnectionMachine.t * ConnectionTransition.t R * Heap.t)
    (ref : Reference.state * ConnectionTransition.t R) : Prop :=
  Reference.view out.1.1 = ref.1 ∧ shown out.1.2 = ref.2.

Lemma ignored_computes m d heap :
  computes (m, new d, heap) (Reference.ignored d (Reference.view m)).
Proof. done. Qed.

Lemma close_computes m why opf failure d c (tr : ConnectionTransition.t R) heap :
  ConnectionMachine.phase m = ConnectionPhase.Live →
  tr = ConnectionTransition.mk d c [] → (∀ op, Closing.failure_of why opf op = failure op) →
  computes (ConnectionMachine.close_with_failure_into m why opf tr heap)
    (Reference.done d c
       (Reference.close (ConnectionMachine.epoch m) why failure (Reference.view m))).
Proof.
  intros Hl -> Hf. pose proof (close_view m why opf (ConnectionTransition.mk d c []) heap Hl) as Hc.
  destruct (ConnectionMachine.close_with_failure_into _ _ _ _ _) as [[m' tr'] heap'].
  destruct Hc as [Hv Hs]. split; [exact Hv|]. unfold shows in Hs. simpl in *. rewrite Hs.
  unfold Reference.done. simpl. do 3 f_equal. apply list_fmap_ext. intros _ i _. by rewrite Hf.
Qed.

(** A handler that removed [x] with its last outcome. *)
Lemma finish_computes limits entries permits m heap l1 (x : Owned.t F) l2 o d c tr
    heap1 :
  policy limits entries permits m heap → entries = l1 ++ x :: l2 →
  ConnectionTransition.disposition tr = d → ConnectionTransition.cancel_outcome tr = c →
  visible (ConnectionTransition.effects tr) =
    Reference.release (ConnectionMachine.epoch m) (Reference.item_of (Owned.record x)) o →
  computes
    (ConnectionMachine.finish_drain (with_records m (Owned.record <$> (l1 ++ l2))) tr heap1)
    (Reference.done d c
       (Reference.finish (ConnectionMachine.epoch m) (Reference.item_of (Owned.record x)) o
          (Reference.view m))).
Proof.
  intros Hp -> <- <- Heq. set (m1 := with_records m _).
  assert (ConnectionMachine.phase m = ConnectionPhase.Live) as Hl.
  { destruct (pol_life _ _ _ _ _ Hp) as [(? & _)|(_ & _ & _ & ?)]; [done|by destruct l1]. }
  pose proof (drain_view m1 tr heap1 (λ _, Hl)) as Hd.
  destruct (ConnectionMachine.finish_drain _ _ _) as [[m' tr'] heap'].
  assert (Reference.with_items (Reference.view m)
    (Reference.without (Reference.id (Reference.item_of (Owned.record x)))
       (Reference.items (Reference.view m))) = Reference.view m1) as Hv.
  { unfold Reference.view, Reference.with_items, m1. simpl. f_equal.
    by apply (find_owned _ _ _ _ _ _ _ Hp). }
  unfold Reference.finish, computes, Reference.done. rewrite Hv.
  change (ConnectionMachine.epoch m1) with (ConnectionMachine.epoch m) in Hd.
  destruct (Reference.drained _ _) as [s' es]. destruct Hd as [Hs Hsh]. simpl. split; [done|].
  unfold shows in Hsh. by rewrite Hsh, Heq.
Qed.

End closing.

(** ** Inputs *)

Lemma lookup_view limits (entries : list (Owned.t F)) permits m heap op :
  policy limits entries permits m heap →
  Reference.find op (Reference.items (Reference.view m)) =
    Reference.item_of <$> OrderedVerified.get (ConnectionMachine.matching m) op.
Proof.
  intros Hp. simpl.
  destruct (OrderedVerified.get _ op) as [r|] eqn:Hg.
  - destruct (lookup_entry _ _ _ _ _ _ _ Hp Hg) as (l1 & x & l2 & -> & -> & -> & _).
    by apply (find_owned _ _ _ _ _ _ _ Hp).
  - apply OrderedVerified.get_None in Hg. apply Reference.find_None. by rewrite view_ids.
Qed.

(** Cancelling leaves an operation whose bytes may be on the wire in its
    place; whether the next reply may be its own does not change. *)
Lemma settle_view x :
  Owned.agrees x → Owned.terminal x = false → Owned.delivery x = Delivery.PossiblySent →
  Reference.item_of (OperationRecord.set_phase (Owned.record x) OperationPhase.Terminal) =
    Reference.settle (Reference.item_of (Owned.record x)).
Proof.
  intros Hag Ht Hd. unfold Reference.item_of, Reference.settle. simpl. f_equal.
  unfold ConnectionMachine.front_awaits_reply. simpl. unfold Owned.agrees, Owned.phase in Hag.
  destruct (Owned.frame x); [by destruct Hag as (-> & _); rewrite !andb_false_r|].
  by destruct Hag as (-> & _ & [-> | [-> _]]).
Qed.

Lemma cancel_computes limits (entries : list (Owned.t F)) permits m op heap :
  ready limits entries permits m heap →
  computes (ConnectionMachine.cancel m (ConnectionMachine.epoch m) op heap)
    (Reference.cancel (ConnectionMachine.epoch m) op (Reference.view m)).
Proof.
  intros Hr. pose proof Hr as [Hp Hag _ _].
  unfold ConnectionMachine.cancel, Reference.cancel.
  rewrite bool_decide_eq_true_2 by done. simpl negb. cbv iota.
  rewrite (lookup_view _ _ _ _ _ _ Hp).
  destruct (OrderedVerified.get _ op) as [r|] eqn:Hget; [|done].
  destruct (lookup_entry _ _ _ _ _ _ _ Hp Hget)
    as (l1 & x & l2 & -> & -> & -> & _ & Hmut & Hrem).
  simpl fmap. cbv iota. unfold fmap, option_fmap, option_map. cbv iota.
  change (Reference.settled _) with (Owned.terminal x). rewrite <- terminal_phase.
  destruct (Owned.terminal x) eqn:Ht; [done|].
  change (Reference.delivery _) with (OperationRecord.delivery (Owned.record x)).
  destruct (OperationRecord.delivery (Owned.record x)) eqn:Hd; simpl bool_decide; cbv iota.
  - rewrite Hrem.
    eapply (finish_computes _ _ _ _ _ l1 x l2); [exact Hp|done|..];
      [by destruct (OperationRecord.write_held _)..|].
    unfold Reference.release. change (Reference.settled _) with (Owned.terminal x). rewrite Ht.
    by destruct (OperationRecord.write_held _).
  - rewrite Hmut. split; [|done]. simpl.
    destruct (find_owned _ _ _ _ _ _ _ Hp) as (_ & _ & Hu). simpl in Hu.
    unfold Reference.view, Reference.with_items. simpl. rewrite Hu.
    rewrite fmap_app, fmap_cons, settle_view; [done|..|done|done].
    apply agrees_remove in Hag. by destruct Hag.
Qed.

(** An operation none of whose bytes may be on the wire owes an outcome. *)
Lemma unsent_live x :
  Owned.agrees x → OperationRecord.delivery (Owned.record x) = Delivery.NotSent →
  Owned.terminal x = false.
Proof.
  intros Hx Hd. unfold Owned.terminal, OperationRecord.is_terminal.
  apply bool_decide_eq_false. intros Hph. unfold Owned.agrees, Owned.phase, Owned.delivery in Hx.
  destruct (Owned.frame x).
  - destruct Hx as (_ & _ & _ & _ & [(Hq & _)|(_ & Hps & _)]); congruence.
  - destruct Hx as (_ & _ & [Hq|(_ & Hps)]); congruence.
Qed.

(** A policy with an operation is live. *)
Lemma owned_live limits l1 x l2 permits m heap :
  policy limits (l1 ++ x :: l2) permits m heap →
  ConnectionMachine.phase m = ConnectionPhase.Live.
Proof.
  intros Hp. destruct (pol_life _ _ _ _ _ Hp) as [(? & _)|(_ & _ & _ & ?)]; [done|by destruct l1].
Qed.

Lemma deadline_computes limits (entries : list (Owned.t F)) permits m op now heap :
  ready limits entries permits m heap →
  computes (ConnectionMachine.deadline_elapsed m (ConnectionMachine.epoch m) op now heap)
    (Reference.deadline_elapsed (ConnectionMachine.epoch m) op now (Reference.view m)).
Proof.
  intros Hr. pose proof Hr as [Hp Hag _ _].
  unfold ConnectionMachine.deadline_elapsed, Reference.deadline_elapsed.
  rewrite bool_decide_eq_true_2 by done. simpl negb. cbv iota.
  rewrite (lookup_view _ _ _ _ _ _ Hp).
  destruct (OrderedVerified.get _ op) as [r|] eqn:Hget; [|done].
  destruct (lookup_entry _ _ _ _ _ _ _ Hp Hget)
    as (l1 & x & l2 & -> & -> & -> & _ & _ & Hrem).
  unfold fmap, option_fmap, option_map. cbv iota.
  change (Reference.deadline _) with (OperationRecord.deadline (Owned.record x)).
  destruct (is_elapsed_at _ _); [|done]. simpl negb. cbv iota.
  change (Reference.delivery _) with (OperationRecord.delivery (Owned.record x)).
  destruct (OperationRecord.delivery (Owned.record x)) eqn:Hd; simpl bool_decide; cbv iota.
  - rewrite Hrem.
    assert (Owned.terminal x = false) as Ht
      by (apply unsent_live; [apply agrees_remove in Hag; by destruct Hag|done]).
    eapply (finish_computes _ _ _ _ _ l1 x l2); [exact Hp|done|..];
      [by destruct (OperationRecord.write_held _)..|].
    unfold Reference.release. change (Reference.settled _) with (Owned.terminal x). rewrite Ht.
    by destruct (OperationRecord.write_held _).
  - apply close_computes; [by eapply owned_live|done|done].
Qed.

(** Every input. *)
Lemma apply_computes limits (entries : list (Owned.t F)) permits m input heap :
  ready limits entries permits m heap →
  computes (ConnectionMachine.apply m input heap)
    (Reference.step (ConnectionMachine.epoch m) input (Reference.view m)).
Proof.
  intros Hr. destruct input as [e|e op|e op now|e|e|e why|e]; simpl.
  - unfold ConnectionMachine.open_admission. case_bool_decide; [|done].
    by destruct (ConnectionMachine.phase m), (ConnectionMachine.gate m).
  - case_bool_decide as He; [rewrite He; by eapply cancel_computes|].
    unfold ConnectionMachine.cancel. by rewrite bool_decide_eq_false_2.
  - case_bool_decide as He; [rewrite He; by eapply deadline_computes|].
    unfold ConnectionMachine.deadline_elapsed. by rewrite bool_decide_eq_false_2.
  - unfold ConnectionMachine.reply_malformed. case_bool_decide; [|done]. simpl negb. cbv iota.
    destruct (ConnectionMachine.phase m) eqn:Hph; try done. by apply close_computes.
  - unfold ConnectionMachine.begin_drain. case_bool_decide; [|done]. simpl negb. cbv iota.
    destruct (ConnectionMachine.phase m) eqn:Hph; [|done..].
    destruct (ConnectionMachine.gate m) eqn:Hg; try done; simpl;
      (pose proof (drain_view (ConnectionMachine.set_gate m AdmissionGate.Draining)
         (new (F := unit) InputDisposition.Applied) heap (λ _, Hph)) as Hd;
       destruct (ConnectionMachine.finish_drain _ _ _) as [[m' tr'] heap'];
       unfold computes, Reference.done, shows in *; simpl in *;
       change (Reference.with_gate (Reference.view m) AdmissionGate.Draining) with
         (Reference.view (ConnectionMachine.set_gate m AdmissionGate.Draining));
       by destruct (Reference.drained _ _), Hd).
  - unfold ConnectionMachine.close_requested. case_bool_decide; [|done]. simpl negb. cbv iota.
    destruct (ConnectionMachine.phase m) eqn:Hph; try done. by apply close_computes.
  - unfold ConnectionMachine.epoch_closed. case_bool_decide; [|done]. simpl negb. cbv iota.
    by destruct (ConnectionMachine.phase m) eqn:Hph.
Qed.

(** Every reply. *)
Lemma reply_computes {R : Type} limits (entries : list (Owned.t F)) permits m
    (reply : InboundReply.t R) heap :
  ready limits entries permits m heap →
  computes (ConnectionMachine.apply_reply m reply heap)
    (Reference.reply (ConnectionMachine.epoch m) reply (Reference.view m)).
Proof.
  intros Hr. pose proof Hr as [Hp Hag _ _]. unfold ConnectionMachine.apply_reply, Reference.reply.
  case_bool_decide; [|done]. simpl negb. cbv iota. simpl Reference.phase. simpl Reference.items.
  unfold OrderedVerified.front, OrderedVerified.pop_front. rewrite (pol_records _ _ _ _ _ Hp).
  destruct (ConnectionMachine.phase m) eqn:Hph; simpl bool_decide; [|by destruct entries..].
  simpl negb. cbv iota. destruct entries as [|x l].
  - by apply close_computes.
  - rewrite !fmap_cons. unfold head. cbv iota.
    change (Reference.answerable _) with
      (ConnectionMachine.front_awaits_reply (Owned.record x)).
    destruct (ConnectionMachine.front_awaits_reply (Owned.record x)) eqn:Hfa; simpl negb; cbv iota;
      [|by apply close_computes].
    change (Reference.key _) with
      (Reservation.match_key (OperationRecord.reservation (Owned.record x))).
    case_bool_decide; simpl negb; cbv iota; [|by apply close_computes].
    eapply (finish_computes _ _ _ _ _ [] x l); [exact Hp|done|..].
    + by case_bool_decide.
    + by case_bool_decide.
    + unfold Reference.release. simpl. unfold OperationRecord.is_terminal. by case_bool_decide.
Qed.

(** ** Write progress *)

Lemma crossed_view x f written :
  Owned.agrees x → Owned.frame x = Some f → WriteQueue.progress_ok f → 0 ≤ written →
  Reference.item_of (crossed (WriteQueue.crossing f written) (Owned.record x)) =
    if 0 <? written then Reference.touch (Reference.item_of (Owned.record x))
    else Reference.item_of (Owned.record x).
Proof.
  intros Hx Hf Hpr Hn. pose proof (front_facts_of _ _ _ Hx Hf Hpr Hn) as [Hst _ _ _ Hs _ _].
  unfold Owned.agrees in Hx. rewrite Hf in Hx. destruct Hx as (Hheld & _).
  unfold crossed in *. case_bool_decide as Hc.
  - specialize (Hst Hc). unfold Owned.phase in Hst.
    assert (0 <? written = true) as ->.
    { unfold WriteQueue.crossing in Hc. by destruct (0 <? written). }
    unfold Reference.item_of, Reference.touch, started, OperationRecord.is_terminal,
      ConnectionMachine.front_awaits_reply. simpl. rewrite Hst, Hheld. simpl. f_equal.
  - destruct (Z.ltb_spec 0 written) as [Hlt|]; [|done].
    unfold Reference.item_of, Reference.touch. simpl. by rewrite Hs.
Qed.

Lemma awaiting_view (r : OperationRecord.t) :
  Reference.item_of (awaiting r) = Reference.written_out (Reference.item_of r).
Proof.
  unfold Reference.item_of, Reference.written_out, awaiting, OperationRecord.is_terminal,
    ConnectionMachine.front_awaits_reply. simpl.
  case_bool_decide as Ht; simpl; [rewrite Ht|]; done.
Qed.

(** The view after the record of the front operation became [r]. *)
Lemma with_records_view limits l1 x l2 permits m heap x' f :
  policy limits (l1 ++ x :: l2) permits m heap →
  Reference.item_of (Owned.record x') = f (Reference.item_of (Owned.record x)) →
  Reference.view (with_records m (Owned.record <$> (l1 ++ x' :: l2))) =
    Reference.with_items (Reference.view m)
      (Reference.update (Owned.id x) f (Reference.items (Reference.view m))).
Proof.
  intros Hp Hf. destruct (find_owned _ _ _ _ _ _ _ Hp) as (_ & _ & Hu).
  rewrite Hu. unfold Reference.view, Reference.with_items. simpl.
  by rewrite !fmap_app, !fmap_cons, Hf.
Qed.

(** The same after the record had already become that of [x1]. *)
Lemma replaced_view limits l1 x l2 permits m heap x1 x' f :
  policy limits (l1 ++ x :: l2) permits m heap → Owned.id x1 = Owned.id x →
  Reference.item_of (Owned.record x') = f (Reference.item_of (Owned.record x1)) →
  let s := Reference.view (with_records m (Owned.record <$> (l1 ++ x1 :: l2))) in
  Reference.view (with_records m (Owned.record <$> (l1 ++ x' :: l2))) =
    Reference.with_items s (Reference.update (Owned.id x) f (Reference.items s)).
Proof.
  intros Hp Hid Hf s. destruct (find_replaced _ _ _ _ _ _ _ x1 Hp Hid) as (_ & _ & Hu).
  unfold s. rewrite Hu. unfold Reference.view, Reference.with_items. simpl.
  by rewrite !fmap_app, !fmap_cons, Hf.
Qed.

(** The view once bytes were reported. *)
Lemma crossed_progress limits l1 x l2 permits m heap f o written :
  policy limits (l1 ++ x :: l2) permits m heap → Owned.agrees x → Owned.frame x = Some f →
  WriteQueue.progress_ok f → 0 ≤ written →
  let x1 := Owned.mk (crossed (WriteQueue.crossing f written) (Owned.record x)) o in
  Reference.view (with_records m (Owned.record <$> (l1 ++ x1 :: l2))) =
    if 0 <? written
    then Reference.with_items (Reference.view m)
           (Reference.update (Owned.id x) Reference.touch (Reference.items (Reference.view m)))
    else Reference.view m.
Proof.
  intros Hp Hx Hf Hpr Hn x1. pose proof (crossed_view _ _ _ Hx Hf Hpr Hn) as Hv.
  destruct (0 <? written).
  - by eapply with_records_view.
  - unfold Reference.view. simpl. f_equal. rewrite (pol_records _ _ _ _ _ Hp).
    by rewrite !fmap_app, !fmap_cons, <- Hv.
Qed.

(** Completion of a write that completes its operation. *)
Lemma finish_write_computes limits l1 x l2 permits m heap :
  policy limits (l1 ++ x :: l2) permits m heap → writing x →
  OperationRecord.write_held (Owned.record x) = true →
  Owned.completion x = CompletionMode.WriteComplete →
  computes (ConnectionMachine.write_completed m (ConnectionMachine.epoch m) (Owned.id x)
      (Owned.effect x) heap)
    (Reference.done InputDisposition.Applied None
       (Reference.finish (ConnectionMachine.epoch m) (Reference.item_of (Owned.record x))
          (OperationOutcome.WriteComplete (Owned.delivery x)) (Reference.view m))).
Proof.
  intros Hp Hw Hheld Hc. rewrite (write_completed_enters _ _ _ _ _ _ _ Hp Hw Hheld). cbv zeta.
  rewrite Hc, bool_decide_eq_false_2 by done.
  destruct (lookup_known _ _ _ _ _ _ _ Hp) as (_ & _ & _ & Hrem).
  unfold ConnectionMachine.finish_write. rewrite Hrem.
  eapply (finish_computes _ _ _ _ _ l1 x l2); [exact Hp|done|by case_bool_decide..|].
  unfold Reference.release. simpl. unfold OperationRecord.is_terminal. by case_bool_decide.
Qed.

(** ** Ignored inputs *)

(** The input was carried out, or ended the epoch. *)
Definition takes (d : InputDisposition.t) : Prop :=
  d = InputDisposition.Applied ∨ d = InputDisposition.Fault.

(** A handler either did something or left everything as it was. *)
Definition all_or_nothing {R : Type} m heap
    (out : ConnectionMachine.t * ConnectionTransition.t R * Heap.t) : Prop :=
  takes (ConnectionTransition.disposition out.1.2) ∨
  out = (m, out.1.2, heap) ∧ ConnectionTransition.effects out.1.2 = [].

Lemma close_disposition {R : Type} m why opf (tr : ConnectionTransition.t R) heap :
  ConnectionTransition.disposition
    (ConnectionMachine.close_with_failure_into m why opf tr heap).1.2 =
  ConnectionTransition.disposition tr.
Proof.
  unfold ConnectionMachine.close_with_failure_into. case_match; [done|].
  set (m1 := ConnectionMachine.set_state _ _ _ _).
  pose proof (close_loop_shows m1 why opf (OrderedVerified.pending (ConnectionMachine.matching m1))
    (push tr (ConnectionEffect.CloseEpoch (ConnectionMachine.epoch m1) why)) heap) as Hs.
  destruct (ConnectionMachine.close_loop _ _ _ _ _ _) as [tr' heap'].
  unfold shows, shown in Hs. simpl in *. by injection Hs.
Qed.

Lemma drain_disposition {R : Type} m (tr : ConnectionTransition.t R) heap :
  ConnectionTransition.disposition (ConnectionMachine.finish_drain m tr heap).1.2 =
  ConnectionTransition.disposition tr.
Proof. unfold ConnectionMachine.finish_drain. case_match; [apply close_disposition|done]. Qed.

Lemma takes_close {R : Type} m why opf (tr : ConnectionTransition.t R) heap m' heap' :
  takes (ConnectionTransition.disposition tr) →
  all_or_nothing m' heap' (ConnectionMachine.close_with_failure_into m why opf tr heap).
Proof. intros Ht. left. by rewrite close_disposition. Qed.

Lemma takes_drain {R : Type} m (tr : ConnectionTransition.t R) heap m' heap' :
  takes (ConnectionTransition.disposition tr) →
  all_or_nothing m' heap' (ConnectionMachine.finish_drain m tr heap).
Proof. intros Ht. left. by rewrite drain_disposition. Qed.

Lemma apply_all_or_nothing m input heap :
  all_or_nothing m heap (ConnectionMachine.apply m input heap).
Proof.
  destruct input as [e|e op|e op now|e|e|e why|e]; simpl;
    unfold ConnectionMachine.open_admission, ConnectionMachine.cancel,
      ConnectionMachine.deadline_elapsed, ConnectionMachine.reply_malformed,
      ConnectionMachine.begin_drain, ConnectionMachine.close_requested,
      ConnectionMachine.epoch_closed, ConnectionMachine.close_into;
    repeat case_match;
    solve [by right|left; by left|apply takes_close; first [by left|by right]
          |apply takes_drain; first [by left|by right]].
Qed.

Lemma reply_all_or_nothing {R : Type} m (reply : InboundReply.t R) heap :
  all_or_nothing m heap (ConnectionMachine.apply_reply m reply heap).
Proof.
  unfold ConnectionMachine.apply_reply, ConnectionMachine.close_into.
  repeat case_match;
    solve [by right|left; by left|apply takes_close; first [by left|by right]
          |apply takes_drain; first [by left|by right]].
Qed.

End refinement.
End Refinement.
