(* ===== verification/CoreView.v ===== *)
(** * What a host sees of a core it owns

    [held] is what the owner of a core may rely on between two calls: the
    invariant of [CoreSpec] for some list of operations, with frames that
    still show the bytes measured at commit. Each call of the core is stated
    on the reference view: it succeeds, returns the effects of the reference
    model, and leaves a core that is still held. *)
From Stdlib Require Import ZArith Lia.
From stdpp Require Import prelude.
From S2P Require Import Prelude External Identity Limits Admission KeySet Ledger Permit Operation.
From S2P Require Import Matching Write Machine Journal Core Recovery Ownership MachineSpec CoreSpec.
From S2P Require Import CoreAdmission CoreProgress System RecoverySpec Reference ReferenceFacts.
From S2P Require Import Refinement.

Import Policy Change Step Handlers Inputs Permits CoreSpec MachineProgress CoreProgress Refinement.

Module CoreView.
Section core_view.
Context {Cal : Calandria} {BB : ByteBudgetLib} {Build : BuildConfig} {F : Type} {W : WriteFrame F}.
Context {Laws : CalandriaLaws Cal} {BLaws : ByteBudgetLaws BB}.
Implicit Types (limits : ConnectionLimits.t) (permits : list OperationPermit.t).
Implicit Types (past : list OperationId.t).
Implicit Types (s : ConnectionCore.state F) (v : Reference.state).

Definition view_of s : Reference.state := Reference.view (ConnectionCore.machine s.1).
Definition epoch_of s : ConnectionEpoch.t := ConnectionCore.epoch s.1.
Definition ids v : list OperationId.t := Reference.id <$> Reference.items v.

(** The operations accepted so far and those of the outstanding permits are all
    different, and the identities of the accepted ones are spent. *)
Record spent (past : list OperationId.t) permits s : Prop := mk_spent {
  sp_nodup : NoDup (past ++ (OperationPermit.operation <$> permits));
  sp_used : Forall (λ o, IdentityGenerator.used
    (IdentityGenerator.operation (ConnectionMachine.identities (ConnectionCore.machine s.1)))
    (OperationId.get o)) past;
}.

Definition held limits past permits s : Prop :=
  ∃ entries, owns limits entries permits s ∧ WriteQueue.stable (frames entries) ∧
    spent past permits s.

(** What no call changes. *)
Definition kept s s' : Prop :=
  same_machine (ConnectionCore.machine s.1) (ConnectionCore.machine s'.1).

Lemma kept_epoch_of s s' : kept s s' → epoch_of s' = epoch_of s.
Proof. by intros (_ & ? & _). Qed.

Lemma spent_kept past permits s s' : spent past permits s → kept s s' → spent past permits s'.
Proof. intros [] (_ & _ & Hid). split; by rewrite ?Hid. Qed.

(** ** What [held] implies of the view *)

Lemma view_items entries limits permits s :
  owns limits entries permits s →
  Reference.items (view_of s) = Reference.item_of ∘ Owned.record <$> entries.
Proof.
  intros [[[] _ _ _] _ _ _]. unfold view_of. simpl. rewrite pol_records0.
  by rewrite <- list_fmap_compose.
Qed.

Lemma held_ids limits past permits s :
  held limits past permits s → NoDup (ids (view_of s) ++ (OperationPermit.operation <$> permits)).
Proof.
  intros (entries & Ho & _). unfold ids. rewrite (view_items _ _ _ _ Ho), <- list_fmap_compose.
  by destruct Ho as [[[_ _ _ _ [] _] _ _ _] _ _ _].
Qed.

Lemma held_count limits past permits s :
  held limits past permits s →
  Z.of_nat (length (Reference.items (view_of s)) + length permits) ≤
    ConnectionLimits.max_operations limits ∧
  ConnectionSnapshot.owned_operations (ConnectionCore.snapshot s.1 s.2) =
    Z.of_nat (length (Reference.items (view_of s)) + length permits).
Proof.
  intros (entries & Ho & _). rewrite (view_items _ _ _ _ Ho), length_fmap.
  destruct Ho as [[[] _ _ _] _ _ _]. destruct pol_accounts0.
  rewrite pol_limits0 in *. unfold holdings in acc_operations.
  rewrite length_app, !length_fmap in acc_operations. simpl in acc_operations.
  split; [lia|]. destruct s. exact acc_operations.
Qed.

(** A live epoch has an open-ended gate; any other owns nothing. *)
Lemma held_life limits past permits s :
  held limits past permits s →
  let v := view_of s in
  (Reference.phase v = ConnectionPhase.Live ∧ Reference.gate v ≠ AdmissionGate.Closed ∧
     Reference.reason v = None) ∨
  (Reference.phase v ≠ ConnectionPhase.Live ∧ Reference.gate v = AdmissionGate.Closed ∧
     is_Some (Reference.reason v) ∧ Reference.items v = []).
Proof.
  intros (entries & Ho & _). cbv zeta. rewrite (view_items _ _ _ _ Ho).
  destruct Ho as [[[_ _ _ _ _ [?|(? & ? & ? & ->)]] _ _ _] _ _ _]; [by left|by right].
Qed.

(** ** Frames *)

Lemma stable_perm (l l' ds : list (QueuedWrite.t F)) :
  WriteQueue.stable l → l ≡ₚ ds ++ l' → WriteQueue.stable l'.
Proof.
  unfold WriteQueue.stable. intros Hs Hp. rewrite Hp in Hs. by apply Forall_app in Hs as [_ ?].
Qed.

(** ** The calls *)

(** A new core is live, owns nothing and admits session work only. *)
Lemma core_new endpoint lane connection epoch limits ledger heap :
  ConnectionLimits.valid limits →
  let s := ConnectionCore.new endpoint lane connection epoch limits ledger heap in
  held limits [] [] s ∧ epoch_of s = epoch ∧
  view_of s = Reference.mk_state ConnectionPhase.Live AdmissionGate.SessionOnly None [].
Proof.
  intros Hv s. split; [|by split]. exists [].
  split; [|split; [apply Forall_nil_2|split; [apply NoDup_nil_2|apply Forall_nil_2]]].
  exact (System.start_owns endpoint lane connection epoch limits IdentitySeeds.ZERO ledger heap
    Hv ltac:(done) ltac:(done)).
Qed.

Lemma owned_apply limits entries permits s input :
  owns limits entries permits s →
  let ref := Reference.step (epoch_of s) input (view_of s) in
  ∃ s' entries' ds, ConnectionCore.apply input s = (s', Ok ref.2) ∧
    owns limits entries' permits s' ∧ view_of s' = ref.1 ∧ kept s s' ∧
    frames entries ≡ₚ ds ++ frames entries'.
Proof.
  destruct s as [self heap]. intros Ho.
  pose proof (apply_computes limits entries _ _ input heap (ow_ready _ _ _ _ Ho)) as Hc.
  pose proof (apply_spec _ _ _ _ _ input Ho) as Hs. cbn [fst] in Hc.
  destruct (ConnectionMachine.apply _ _ _) as [[m' tr] heap'].
  destruct Hs as (self' & entries' & ds & Hrun & Hm & Ho' & Hmv). destruct Hc as [Hv Hsh].
  cbn [fst snd] in *. exists (self', heap'), entries', ds. split; [by rewrite Hrun, Hsh|].
  split; [exact Ho'|]. split; [by unfold view_of; simpl; rewrite Hm|]. split.
  - unfold kept. simpl. rewrite Hm. apply (mv_same _ _ _ _ _ _ _ _ _ _ Hmv).
  - eapply discarding_perm, (mv_discard _ _ _ _ _ _ _ _ _ _ Hmv).
Qed.

Lemma core_apply limits past permits s input :
  held limits past permits s →
  let ref := Reference.step (epoch_of s) input (view_of s) in
  ∃ s', ConnectionCore.apply input s = (s', Ok ref.2) ∧
    held limits past permits s' ∧ view_of s' = ref.1 ∧ kept s s'.
Proof.
  intros (entries & Ho & Hst & Hsp).
  destruct (owned_apply _ _ _ _ input Ho) as (s' & entries' & ds & Hrun & Ho' & Hv & Hk & Hds).
  exists s'. split; [exact Hrun|]. split; [|by split]. exists entries'.
  split; [exact Ho'|]. split; [by eapply stable_perm|by eapply spent_kept].
Qed.

Lemma owned_reply {R : Type} limits entries permits s (reply : InboundReply.t R) :
  owns limits entries permits s →
  let ref := Reference.reply (epoch_of s) reply (view_of s) in
  ∃ s' entries' ds, ConnectionCore.apply_reply reply s = (s', Ok ref.2) ∧
    owns limits entries' permits s' ∧ view_of s' = ref.1 ∧ kept s s' ∧
    frames entries ≡ₚ ds ++ frames entries'.
Proof.
  destruct s as [self heap]. intros Ho.
  pose proof (reply_computes limits entries _ _ reply heap (ow_ready _ _ _ _ Ho)) as Hc.
  pose proof (apply_reply_spec _ _ _ _ _ reply Ho) as Hs. cbn [fst] in Hc.
  destruct (ConnectionMachine.apply_reply _ _ _) as [[m' tr] heap'].
  destruct Hs as (self' & entries' & ds & Hrun & Hm & Ho' & Hmv). destruct Hc as [Hv Hsh].
  cbn [fst snd] in *. exists (self', heap'), entries', ds. split; [by rewrite Hrun, Hsh|].
  split; [exact Ho'|]. split; [by unfold view_of; simpl; rewrite Hm|]. split.
  - unfold kept. simpl. rewrite Hm. apply (mv_same _ _ _ _ _ _ _ _ _ _ Hmv).
  - eapply discarding_perm, (mv_discard _ _ _ _ _ _ _ _ _ _ Hmv).
Qed.

Lemma core_reply {R : Type} limits past permits s (reply : InboundReply.t R) :
  held limits past permits s →
  let ref := Reference.reply (epoch_of s) reply (view_of s) in
  ∃ s', ConnectionCore.apply_reply reply s = (s', Ok ref.2) ∧
    held limits past permits s' ∧ view_of s' = ref.1 ∧ kept s s'.
Proof.
  intros (entries & Ho & Hst & Hsp).
  destruct (owned_reply _ _ _ _ reply Ho) as (s' & entries' & ds & Hrun & Ho' & Hv & Hk & Hds).
  exists s'. split; [exact Hrun|]. split; [|by split]. exists entries'.
  split; [exact Ho'|]. split; [by eapply stable_perm|by eapply spent_kept].
Qed.

Lemma core_reserve limits past permits s now options :
  held limits past permits s →
  ∃ s' r, ConnectionCore.reserve now options s = (s', r) ∧ view_of s' = view_of s ∧
    epoch_of s' = epoch_of s ∧ r ≠ Err ReserveError.OwnerPoisoned ∧
    match r with
    | Ok p => held limits past (p :: permits) s'
    | Err _ => held limits past permits s'
    end.
Proof.
  destruct s as [self heap]. intros (entries & Ho & Hst & Hsp).
  pose proof (CoreAdmission.core_reserve_spec _ _ _ _ _ now options Ho) as Hr.
  destruct (ConnectionCore.reserve _ _ _) as [[self' heap'] r].
  exists (self', heap'), r. split; [done|].
  destruct (reserve_decision _ _ _ _ _ _) as [e|] eqn:Hd.
  - destruct Hr as (-> & -> & _ & Ho'). split; [done|]. split; [done|].
    split; [|by exists entries; destruct Hsp].
    intros [= ->]. revert Hd. unfold reserve_decision, ReservationLedger.reserve_error.
    repeat case_match; congruence.
  - destruct Hr as (p & g & -> & _ & -> & Htake & _ & Ho'). split; [done|]. split; [done|].
    split; [done|]. exists entries. split; [exact Ho'|]. split; [done|].
    destruct Ho as [[[_ _ _ _ [] _] _ _ _] _ _ _]. cbn [fst snd] in *.
    destruct (IdentityGenerator.take_used _ _ _ _ Htake ids_op_range0) as (Hn & Hu & Hmono).
    destruct Ho' as [[[_ _ _ _ [Hnd _ _ _ _ _] _] _ _ _] _ _ _].
    destruct Hsp as [Hnp Hus]. cbn [fst] in Hus. split.
    + csimpl. rewrite <- Permutation_middle. apply NoDup_cons. split; [|done].
      rewrite elem_of_app. intros [Hin|Hin].
      * rewrite Forall_forall in Hus. by apply (Hn (Hus _ Hin)).
      * unfold op_ids in Hnd. rewrite fmap_cons in Hnd.
        apply NoDup_app in Hnd as (_ & _ & Hnd). by apply NoDup_cons in Hnd as [? _].
    + eapply Forall_impl; [exact Hus|]. simpl. eauto.
Qed.

Lemma core_drop limits past p permits s :
  held limits past (p :: permits) s →
  held limits past permits (s.1, (OperationPermit.drop p s.2).2).
Proof.
  destruct s as [self heap]. intros (entries & Ho & Hst & Hsp). exists entries.
  split; [by apply CoreAdmission.owns_drop|]. split; [done|]. destruct Hsp as [Hn Hu].
  split; [|exact Hu]. csimpl in Hn. rewrite <- Permutation_middle in Hn.
  by apply NoDup_cons in Hn as [_ ?].
Qed.

Lemma held_permits_perm limits past ps ps' s :
  ps ≡ₚ ps' → held limits past ps s → held limits past ps' s.
Proof.
  intros Hp (entries & Ho & Hst & [Hn Hu]). exists entries. split; [by rewrite <- Hp|].
  split; [done|]. split; [by rewrite <- Hp|done].
Qed.

(** The observable operation a commit accepts. *)
Definition committed_item p (frame : F) : Reference.item :=
  Reference.item_of (accepted p (frame_retained_bytes frame)).

Lemma core_commit limits past p permits s frame :
  held limits past (p :: permits) s → Z.of_nat (length (frame_bytes frame)) ≤ USIZE_MAX →
  ∃ s' r, ConnectionCore.commit p frame s = (s', r) ∧ epoch_of s' = epoch_of s ∧
    match r with
    | Ok (op, tr) =>
        op = OperationPermit.operation p ∧
        ConnectionTransition.effects tr =
          [ConnectionEffect.ScheduleDeadline (epoch_of s) op (OperationPermit.deadline p)] ∧
        held limits (past ++ [op]) permits s' ∧
        Reference.phase (view_of s) = ConnectionPhase.Live ∧
        view_of s' = Reference.with_items (view_of s)
          (Reference.items (view_of s) ++ [committed_item p frame])
    | Err error => s' = s ∧
        FrameCommitError.failure error ≠ FrameCommitFailure.Policy CommitErrorKind.OwnerPoisoned
    end.
Proof.
  destruct s as [self heap]. intros (entries & Ho & Hst & Hsp) Hlen.
  pose proof (CoreAdmission.core_commit_spec _ _ _ _ _ _ frame Ho Hlen) as Hc.
  destruct (ConnectionCore.commit _ _ _) as [[self' heap'] r].
  exists (self', heap'), r. split; [done|].
  destruct (CoreAdmission.commit_decision _ _ _) as [kind|] eqn:Hd.
  - destruct Hc as (-> & -> & ->). split; [done|]. split; [done|]. simpl. intros [= ->].
    revert Hd. unfold CoreAdmission.commit_decision. by repeat case_match.
  - destruct Hc as (-> & (_ & He & Hid) & _ & Ho' & Hm). split; [exact He|].
    split; [done|]. split; [done|]. split; [|split].
    + eexists. split; [exact Ho'|]. split.
      * rewrite frames_app. apply Forall_app. split; [done|]. by constructor.
      * destruct Ho as [[[_ _ _ _ [_ _ Hids _ _ _] _] _ _ _] _ _ _]. cbn [fst snd] in *.
        unfold op_ids in Hids. rewrite fmap_cons in Hids.
        apply Forall_app in Hids as [_ Hids]. apply Forall_cons in Hids as [Hused _].
        destruct Hsp as [Hn Hu]. split; [by rewrite <- app_assoc|]. cbn [fst]. rewrite Hid.
        apply Forall_app. by split; [|constructor].
    + destruct Ho' as [[[_ _ _ _ _ [(Hl & _)|(_ & _ & _ & Hn)]] _ _ _] _ _ _];
        [|by destruct entries]. simpl in Hl. rewrite Hm in Hl. exact Hl.
    + unfold view_of. simpl. rewrite Hm. unfold Reference.view, Reference.with_items. simpl.
      by rewrite fmap_app.
Qed.

Lemma core_front limits past permits s (maximum : NonZeroUsize) :
  held limits past permits s → 1 ≤ nonzero_get maximum →
  ∃ front, ConnectionCore.front_write maximum s = (s, Ok front) ∧
  match front with
  | None => True
  | Some slice => ∃ f rest, WriteQueue.frames (ConnectionCore.writes s.1) = f :: rest ∧
      WriteSlice.epoch slice = epoch_of s ∧ WriteSlice.effect slice = QueuedWrite.effect f ∧
      let left := FrameMeasure.wire_bytes (QueuedWrite.measure f) - QueuedWrite.written f in
      Z.of_nat (length (WriteSlice.bytes slice)) ≤ left ∧ 0 ≤ left ∧
      (WriteSlice.bytes slice = [] → left = 0)
  end.
Proof.
  destruct s as [self heap]. intros (entries & Ho & Hst & Hsp) Hmax.
  rewrite (front_write_spec _ _ _ _ _ _ Ho Hmax Hst). eexists. split; [reflexivity|].
  destruct Ho as [_ [Hf Hwf _ _] _ _]. simpl in *.
  destruct (frames entries) as [|f rest]; [done|]. exists f, rest. split; [done|].
  split; [done|]. split; [done|]. apply Forall_cons in Hst as [Hlen _].
  destruct (WriteQueue.front_ok _ _ _ Hwf Hf) as ((Hw & _) & _).
  simpl. rewrite length_take, length_drop. split; [lia|]. split; [lia|].
  intros Hnil. apply (f_equal length) in Hnil. rewrite length_take, length_drop in Hnil.
  simpl in Hnil. lia.
Qed.

(** The last byte of a frame. *)
Lemma owned_last limits l1 x l2 permits s f :
  owns limits (l1 ++ x :: l2) permits s → Owned.frame x = Some f → frames l1 = [] →
  let left := FrameMeasure.wire_bytes (QueuedWrite.measure f) - QueuedWrite.written f in
  let ref := Reference.progress (epoch_of s) (QueuedWrite.operation f) (0 <? left) true
    (view_of s) in
  0 ≤ left →
  ∃ s' entries',
    ConnectionCore.advance_write (epoch_of s) (QueuedWrite.effect f) left s = (s', Ok ref.2) ∧
    owns limits entries' permits s' ∧ view_of s' = ref.1 ∧ kept s s' ∧
    frames entries' = frames l2.
Proof.
  destruct s as [self heap]. intros Ho Hx Hl1 left ref Hn. unfold ref, epoch_of, view_of.
  cbn [fst]. destruct (front_facts_owned _ _ _ _ _ _ _ _ left Ho Hx Hl1 Hn)
    as (_ & Hop & _ & Hpr & Hff).
  pose proof Ho as [[Hp Hag _ _] _ _ _]. cbn [fst snd] in Hp.
  destruct (agrees_remove _ _ _ Hag) as [Hax _].
  pose proof (crossed_progress _ _ _ _ _ _ _ _ None _ Hp Hax Hx Hpr Hn) as Hv1. cbv zeta in Hv1.
  set (x1 := Owned.mk _ _) in Hv1. unfold Reference.progress. rewrite Hop, <- Hv1.
  destruct (ff_advances _ _ _ _ Hff None) as (Hid1 & Heff1 & Hc1 & _).
  fold x1 in Hid1, Heff1, Hc1.
  destruct (find_replaced _ _ _ _ _ _ _ x1 Hp Hid1) as (Hfind & _). rewrite Hfind.
  change (Reference.completion _) with (Owned.completion x1). rewrite Hc1.
  destruct (Owned.completion x) eqn:Hc.
  - destruct (advance_await _ _ _ _ _ _ _ _ Ho Hx Hl1 Hc) as (self' & heap' & Hrun & Ho' & Hm & _).
    fold left in Hrun, Hm, Ho'. exists (self', heap'). eexists _.
    split; [exact Hrun|]. split; [exact Ho'|]. split; [|split].
    + cbn [fst]. rewrite Hm. eapply replaced_view; [exact Hp|exact Hid1|]. apply awaiting_view.
    + unfold kept. cbn [fst]. by rewrite Hm.
    + by rewrite frames_remove, Hl1.
  - destruct (advance_finish _ _ _ _ _ _ _ _ Ho Hx Hl1 Hc)
      as (self' & heap' & tr & Hwc & Hp1 & Hrun & Ho' & Hsame & _ & _).
    fold left in Hrun, Hwc, Hp1. fold x1 in Hwc, Hp1.
    destruct (finish_write_computes _ _ _ _ _ _ _ Hp1 (ff_writing _ _ _ _ Hff None)
      (ff_held _ _ _ _ Hff) Hc1) as [Hv Hsh].
    rewrite Hid1, Heff1, Hwc in Hv, Hsh. cbn [fst snd] in *. exists (self', heap'), (l1 ++ l2).
    split; [|split; [exact Ho'|split; [exact Hv|split; [exact Hsame|by rewrite frames_app, Hl1]]]].
    rewrite Hrun. unfold shown in Hsh. injection Hsh as _ _ Hes. by rewrite Hes.
Qed.

(** A report of at most the bytes left of the front frame. *)
Lemma owned_advance limits entries permits s f rest written :
  owns limits entries permits s → frames entries = f :: rest →
  let left := FrameMeasure.wire_bytes (QueuedWrite.measure f) - QueuedWrite.written f in
  0 ≤ written ≤ left →
  let ref := Reference.progress (epoch_of s) (QueuedWrite.operation f) (0 <? written)
    (written =? left) (view_of s) in
  let f' := QueuedWrite.set_progress f (QueuedWrite.written f + written)
    (0 <? QueuedWrite.written f + written) in
  ∃ s' entries' ds,
    ConnectionCore.advance_write (epoch_of s) (QueuedWrite.effect f) written s = (s', Ok ref.2) ∧
    owns limits entries' permits s' ∧ view_of s' = ref.1 ∧ kept s s' ∧
    f' :: rest ≡ₚ ds ++ frames entries' ∧
    WriteQueue.frames (ConnectionCore.writes s'.1) = (if written <? left then f' :: rest else rest).
Proof.
  intros Ho Hfr left [Hn Hle] ref f'.
  destruct (frames_front _ _ _ Hfr) as (l1 & x & l2 & -> & Hx & Hl1 & Hl2).
  destruct (Z.eqb_spec written left) as [->|Hne].
  { destruct (owned_last _ _ _ _ _ _ _ Ho Hx Hl1 Hn)
      as (s' & entries' & Hrun & Ho' & Hv & Hk & Hds).
    exists s', entries', [f']. split; [exact Hrun|]. split; [exact Ho'|].
    split; [exact Hv|]. split; [exact Hk|]. rewrite Z.ltb_irrefl, <- Hl2, <- Hds.
    split; [done|]. by rewrite (wr_frames _ _ _ _ (ow_writer _ _ _ _ Ho')). }
  destruct s as [self heap]. unfold ref, epoch_of, view_of. cbn [fst].
  destruct (front_facts_owned _ _ _ _ _ _ _ _ written Ho Hx Hl1 Hn) as (_ & Hop & _ & Hpr & _).
  pose proof Ho as [[Hp Hag _ _] _ _ _]. cbn [fst snd] in Hp.
  destruct (agrees_remove _ _ _ Hag) as [Hax _].
  destruct (advance_partial _ _ _ _ _ _ _ _ written Ho Hx Hl1 Hn) as (self' & Hrun & Ho' & Hm);
    [fold left; lia|].
  exists (self', heap). eexists _, []. unfold Reference.progress. rewrite Hop.
  split; [exact Hrun|]. split; [exact Ho'|]. split; [|split; [|split]].
  - cbn [fst]. rewrite Hm, (crossed_progress _ _ _ _ _ _ _ _ _ _ Hp Hax Hx Hpr Hn).
    by destruct (0 <? written).
  - unfold kept. cbn [fst]. by rewrite Hm.
  - rewrite frames_remove, Hl1. simpl. by rewrite Hl2.
  - rewrite (proj2 (Z.ltb_lt _ _)) by lia.
    pose proof (wr_frames _ _ _ _ (ow_writer _ _ _ _ Ho')) as Hw. cbn [fst] in *.
    rewrite Hw, frames_remove, Hl1. simpl. by rewrite Hl2.
Qed.

Lemma core_advance limits past permits s f rest written :
  held limits past permits s → WriteQueue.frames (ConnectionCore.writes s.1) = f :: rest →
  let left := FrameMeasure.wire_bytes (QueuedWrite.measure f) - QueuedWrite.written f in
  0 ≤ written ≤ left →
  let ref := Reference.progress (epoch_of s) (QueuedWrite.operation f) (0 <? written)
    (written =? left) (view_of s) in
  ∃ s', ConnectionCore.advance_write (epoch_of s) (QueuedWrite.effect f) written s =
      (s', Ok ref.2) ∧ held limits past permits s' ∧ view_of s' = ref.1 ∧ kept s s'.
Proof.
  intros (entries & Ho & Hst & Hsp) Hfr left Hn ref.
  pose proof (wr_frames _ _ _ _ (ow_writer _ _ _ _ Ho)) as Hq. rewrite Hq in Hfr.
  destruct (owned_advance _ _ _ _ _ _ _ Ho Hfr Hn)
    as (s' & entries' & ds & Hrun & Ho' & Hv & Hk & Hds & _).
  exists s'. split; [exact Hrun|]. split; [|by split]. exists entries'. split; [exact Ho'|].
  split; [|by eapply spent_kept]. eapply stable_perm; [|exact Hds]. rewrite Hfr in Hst.
  apply Forall_cons in Hst as [Hlen Hst]. by constructor.
Qed.

(** A report of more bytes than are left of the front frame fails the core
    closed; recovery then gives back every operation that owes an outcome, the
    reported one as possibly sent, and is flagged as diverged. *)
Lemma owned_overreport limits entries permits s f rest written :
  owns limits entries permits s → frames entries = f :: rest →
  let remaining := FrameMeasure.wire_bytes (QueuedWrite.measure f) - QueuedWrite.written f in
  let invariant := ConnectionCoreInvariant.WriteProgressContract written remaining in
  remaining < written →
  ∃ s', ConnectionCore.advance_write (epoch_of s) (QueuedWrite.effect f) written s =
      (s', Err (ConnectionCoreError.Invariant invariant)) ∧
    ConnectionCore.poisoned s'.1 = Some invariant ∧
    ReservationLedger.poisoned (ConnectionCore.ledger_of s'.1 s'.2) = false ∧
    let '(_, recovery) := CoreRecovery.recover s' in
    RecoveredOperation.operation <$> ConnectionRecovery.operations recovery = Owned.live entries ∧
    (∀ o, o ∈ ConnectionRecovery.operations recovery →
       RecoveredOperation.operation o = QueuedWrite.operation f →
       RecoveredOperation.delivery o = Delivery.PossiblySent) ∧
    ConnectionRecovery.unmatched_writes recovery = [] ∧
    ConnectionRecovery.ownership_diverged recovery = true.
Proof.
  destruct s as [self heap]. intros Ho Hfr remaining invariant Hlt.
  destruct (frames_front _ _ _ Hfr) as (l1 & x & l2 & -> & Hx & Hl1 & <-).
  destruct (advance_overreported_holds _ _ _ _ _ _ _ _ written Ho Hx Hl1 Hlt)
    as (self' & Hrun & Hpo & Hj & Hm & Hf').
  exists (self', heap). unfold epoch_of. cbn [fst snd]. rewrite Hrun. split; [done|].
  split; [exact Hpo|].
  set (f' := QueuedWrite.set_progress f (QueuedWrite.written f)
    (QueuedWrite.started f || (0 <? written))) in *.
  set (x' := Owned.mk (Owned.record x) (Some f')).
  pose proof Ho as [[Hp Hag _ _] _ _ _]. cbn [fst snd] in *.
  destruct (front_facts_owned _ _ _ _ _ _ _ _ 0 Ho Hx Hl1)
    as (_ & Hop & Heff & (Hw & _) & _); [done|].
  assert (0 <? written = true) as Hpos by (unfold remaining in Hlt; lia).
  assert (Forall RecoverySpec.paired (l1 ++ x' :: l2)) as Hpair.
  { rewrite Forall_app, Forall_cons in Hag |- *. destruct Hag as (H1 & Hax & H2). split_and!.
    - eapply Forall_impl; [exact H1|]. intros y Hy. by apply RecoverySpec.agrees_given_back.
    - unfold Owned.agrees in Hax. rewrite Hx in Hax. destruct Hax as (? & _).
      unfold RecoverySpec.paired. simpl. by split_and!.
    - eapply Forall_impl; [exact H2|]. intros y Hy. by apply RecoverySpec.agrees_given_back. }
  assert (policy limits (l1 ++ x' :: l2) permits (ConnectionCore.machine self') heap) as Hp'.
  { rewrite Hm. eapply policy_records; [exact Hp|]. by rewrite !fmap_app, !fmap_cons. }
  split.
  { unfold ConnectionCore.ledger_of.
    apply (ReservationLedger.acc_poisoned _ _ (pol_accounts _ _ _ _ _ Hp')). }
  assert (WriteQueue.frames (ConnectionCore.writes self') = frames (l1 ++ x' :: l2)) as Hfs
    by (rewrite Hf', frames_remove, Hl1; done).
  pose proof (RecoverySpec.recover_agreeing _ _ _ _ _ _ Hp' Hpair Hfs Hj) as Hr.
  destruct (CoreRecovery.recover _) as [[self'' heap''] recovery].
  destruct Hr as (-> & _). simpl. split; [|split; [|done]].
  - unfold RecoverySpec.unfinished, Owned.live. rewrite <- list_fmap_compose, !filter_app, !fmap_app.
    rewrite !filter_cons. by destruct (decide (Owned.terminal x = false));
      destruct (decide (Owned.terminal x' = false)).
  - intros o (y & -> & Hy)%list_elem_of_fmap Heq. simpl in *.
    apply list_elem_of_filter in Hy as [_ Hy]. rewrite Hop in Heq.
    assert (y = x') as ->.
    { destruct (pol_ids _ _ _ _ _ Hp') as [Hnd _ _ _ _ _]. unfold op_ids in Hnd.
      apply NoDup_app in Hnd as (Hnd & _ & _).
      apply list_elem_of_lookup in Hy as [i Hi].
      assert (i = length l1) as ->.
      { eapply NoDup_lookup; [exact Hnd|..]; rewrite list_lookup_fmap; [by rewrite Hi|].
        rewrite list_lookup_middle by done. simpl. by rewrite Heq. }
      rewrite list_lookup_middle in Hi by done. by injection Hi. }
    unfold RecoverySpec.given_back, QueuedWrite.delivery, f'. simpl. rewrite Hpos, orb_true_r.
    by destruct (Owned.delivery x').
Qed.

(** The operations that owe an outcome, of the list owned and of the view. *)
Lemma view_live entries limits permits s :
  owns limits entries permits s → Told.live (view_of s) = Owned.live entries.
Proof.
  intros Ho. unfold Told.live, Owned.live. rewrite (view_items _ _ _ _ Ho). clear.
  induction entries as [|x l IH]; [done|]. csimpl. rewrite !filter_cons.
  change (Reference.settled (Reference.item_of (Owned.record x))) with (Owned.terminal x).
  destruct (decide (Owned.terminal x = false)); csimpl; [|done]. by f_equal.
Qed.

Lemma core_overreport limits past permits s f rest written :
  held limits past permits s → WriteQueue.frames (ConnectionCore.writes s.1) = f :: rest →
  let remaining := FrameMeasure.wire_bytes (QueuedWrite.measure f) - QueuedWrite.written f in
  let invariant := ConnectionCoreInvariant.WriteProgressContract written remaining in
  remaining < written →
  ∃ s', ConnectionCore.advance_write (epoch_of s) (QueuedWrite.effect f) written s =
      (s', Err (ConnectionCoreError.Invariant invariant)) ∧
    ConnectionCore.poisoned s'.1 = Some invariant ∧
    ReservationLedger.poisoned (ConnectionCore.ledger_of s'.1 s'.2) = false ∧
    RecoveredOperation.operation <$>
      ConnectionRecovery.operations (CoreRecovery.recover s').2 = Told.live (view_of s).
Proof.
  intros (entries & Ho & _) Hfr remaining invariant Hlt.
  pose proof (wr_frames _ _ _ _ (ow_writer _ _ _ _ Ho)) as Hq. rewrite Hq in Hfr.
  destruct (owned_overreport _ _ _ _ _ _ _ Ho Hfr Hlt) as (s' & Hrun & Hpo & Hl & Hrec).
  exists s'. split; [exact Hrun|]. split; [exact Hpo|]. split; [exact Hl|].
  rewrite (view_live _ _ _ _ Ho). destruct (CoreRecovery.recover s') as [? recovery].
  by destruct Hrec.
Qed.

(** Recovery gives back the operations that owe an outcome. *)
Lemma core_recover limits past permits s :
  held limits past permits s →
  let '(s', recovery) := CoreRecovery.recover s in
  RecoveredOperation.operation <$> ConnectionRecovery.operations recovery = Told.live (view_of s) ∧
  ConnectionRecovery.epoch recovery = epoch_of s ∧
  ConnectionRecovery.unmatched_writes recovery = [] ∧
  ConnectionRecovery.ownership_diverged recovery = false.
Proof.
  destruct s as [self heap]. intros (entries & Ho & _).
  pose proof (RecoverySpec.owns_recover _ _ _ _ _ Ho) as Hr.
  destruct (CoreRecovery.recover (self, heap)) as [[self' heap'] recovery].
  destruct Hr as (-> & _). split; [|done]. simpl. rewrite (view_live _ _ _ _ Ho).
  by rewrite <- list_fmap_compose.
Qed.

End core_view.
End CoreView.
