(* ===== verification/Sample.v ===== *)
(** * A concrete connection

    The values at which the theorems are instantiated: a debug build over
    [u64] counts, frames that are byte strings, and a small connection with
    room for two operations. *)
From Stdlib Require Import ZArith Lia.
From stdpp Require Import prelude.
From S2P Require Import Prelude External Identity Limits Admission Ledger Permit Operation.
From S2P Require Import Matching Write Machine Journal Core Ownership System.

Module Sample.

#[export] Existing Instance calandria_u64.
#[export] Existing Instance bytebudget_u64.
#[export] Existing Instance calandria_u64_laws.
#[export] Existing Instance bytebudget_u64_laws.

#[export] Instance build : BuildConfig := {| debug_assertions := true |}.

Definition frame : Type := list Byte.byte.

(** A frame shows its bytes and retains as many. *)
#[export] Instance frame_view : WriteFrame frame :=
  {| frame_bytes := λ f, f; frame_retained_bytes := λ f, u64_of (Z.of_nat (length f)) |}.

(** Decides a closed goal by evaluation, looking at no hypothesis. *)
Ltac evaluate :=
  vm_compute; repeat split; first [reflexivity | discriminate | intros ?; discriminate].

Definition key_space : MatchKeySpace.t := MatchKeySpace.mk (MatchKey.new 5) (MatchKey.new 7).

Definition limits : ConnectionLimits.t :=
  ConnectionLimits.mk (mk_nonzero 2) (u64_of 100) (mk_nonzero 2) (u64_of 100) key_space.

Lemma limits_are_valid : ConnectionLimits.valid limits.
Proof. by vm_compute. Qed.

Definition epoch : ConnectionEpoch.t := ConnectionEpoch.new 1.
Definition ledger : LedgerRef := 1%positive.
Definition heap : Heap.t := λ _, ReservationLedger.new limits.
Definition seeds : IdentitySeeds.t := IdentitySeeds.ZERO.

Definition hello : frame := [Byte.x68; Byte.x69].

(** Regular work that expects a reply, due at 10. *)
Definition regular : OperationOptions.t :=
  OperationOptions.write_retained_bytes (OperationOptions.until (10 : Deadline)) (u64_of 8).
(** Work that is complete once written. *)
Definition notify : OperationOptions.t :=
  OperationOptions.completion_mode regular CompletionMode.WriteComplete.

Definition command : Type := System.command (F := frame) (R := frame).
Definition world : Type := System.world (F := frame).

Definition init : world :=
  System.start (EndpointId.new 0) (LaneId.new 0) (ConnectionId.new 0) epoch limits seeds ledger
    heap.

Lemma init_consistent : System.consistent limits init.
Proof. apply System.start_consistent; [apply limits_are_valid|by vm_compute..]. Qed.

Fixpoint run (w : world) (cs : list command) : world :=
  match cs with [] => w | c :: cs => run (System.exec w c) cs end.

(** The largest slice the transport takes. *)
Definition window : NonZeroUsize := mk_nonzero 1.

(** Opens admission, reserves twice and commits two frames; one byte of the
    first is written. *)
Definition script : list command :=
  [ System.Apply (ConnectionInput.OpenAdmission epoch);
    System.Reserve (1 : Moment) regular;
    System.Commit 0 frame_view hello;
    System.Reserve (1 : Moment) notify;
    System.Commit 0 frame_view hello;
    System.FrontWrite frame_view window;
    System.AdvanceWrite epoch (EffectId.new 0) 1 ].

Definition busy : world := run init script.

(** A command is admissible, decided. *)
Definition admissible_b (w : world) (c : command) : bool :=
  match c with
  | System.Commit _ W frame => Z.of_nat (length (frame_bytes frame)) <=? USIZE_MAX
  | System.CommitForeign p W frame =>
      negb (bool_decide (OperationPermit.ledger p =
        ConnectionMachine.ledger (ConnectionCore.machine (System.core w))))
  | System.FrontWrite W maximum =>
      (1 <=? nonzero_get maximum) &&
      forallb (λ f, Z.of_nat (length (frame_bytes (QueuedWrite.frame f))) =?
        FrameMeasure.wire_bytes (QueuedWrite.measure f))
        (WriteQueue.frames (ConnectionCore.writes (System.core w)))
  | System.AdvanceWrite epoch effect written =>
      (0 <=? written) &&
      match WriteQueue.frames (ConnectionCore.writes (System.core w)) with
      | [] => true
      | f :: _ => written <=? FrameMeasure.wire_bytes (QueuedWrite.measure f) - QueuedWrite.written f
      end
  | _ => true
  end.

Lemma admissible_b_sound w c : admissible_b w c = true → System.admissible w c.
Proof.
  destruct c; simpl; try done.
  - apply Z.leb_le.
  - rewrite negb_true_iff. apply bool_decide_eq_false.
  - intros [H1%Z.leb_le H2]%andb_true_iff. split; [done|].
    unfold WriteQueue.stable. rewrite forallb_forall in H2. apply Forall_forall.
    intros f Hf. apply Z.eqb_eq, H2. by apply list_elem_of_In.
  - intros [H1%Z.leb_le H2]%andb_true_iff. split; [done|].
    intros f rest Hf _ _. rewrite Hf in H2. by apply Z.leb_le.
Qed.

Fixpoint admissible_all (w : world) (cs : list command) : bool :=
  match cs with
  | [] => true
  | c :: cs => admissible_b w c && admissible_all (System.exec w c) cs
  end.

(** A checked script leads to a reachable world. *)
Lemma run_reachable w cs w0 :
  System.reachable (R := frame) w0 w → admissible_all w cs = true → System.reachable (R := frame) w0 (run w cs).
Proof.
  revert w. induction cs as [|c cs IH]; intros w Hr Hc; simpl in *; [done|].
  apply andb_true_iff in Hc as [Ha Hc]. apply IH; [|done].
  apply System.reachable_step; [done|]. by apply admissible_b_sound.
Qed.

Lemma busy_reachable : System.reachable (R := frame) init busy.
Proof. apply run_reachable; [constructor|]. by vm_compute. Qed.

End Sample.
