(* ===== verification/RunTheorems.v ===== *)
(** * What every run of a connection epoch satisfies

    Theorems about every world reachable from a new core by admissible calls
    ([System]), and about recovery. *)
From Stdlib Require Import ZArith Lia.
From stdpp Require Import prelude.
From S2P Require Import Prelude External Identity Limits Admission KeySet Ledger Permit Operation.
From S2P Require Import Matching Write Machine Journal Core Recovery Ownership MachineSpec CoreSpec.
From S2P Require Import CoreAdmission CoreProgress System RecoverySpec Conservation CoreView Sample.

Import Policy Change Step Handlers Inputs CoreSpec History.

Module Runs.
Section runs.
Context {Cal : Calandria} {BB : ByteBudgetLib} {Build : BuildConfig} {F R : Type}.
Context {Laws : CalandriaLaws Cal} {BLaws : ByteBudgetLaws BB}.
Context (endpoint : EndpointId.t) (lane : LaneId.t) (connection : ConnectionId.t).
Context (epoch : ConnectionEpoch.t) (limits : ConnectionLimits.t) (seeds : IdentitySeeds.t).
Context (ledger : LedgerRef) (heap : Heap.t).
Context (Hlimits : ConnectionLimits.valid limits).
Context (Hoperation : in_u64 (IdentitySeeds.operation seeds)).
Context (Heffect : in_u64 (IdentitySeeds.effect seeds)).

Definition init : System.world (F := F) :=
  System.start endpoint lane connection epoch limits seeds ledger heap.

Implicit Types (w : System.world (F := F)).

(** The policy records of a world, in wire order, and its frames. *)
Definition pending w : list OperationRecord.t :=
  OrderedVerified.pending (ConnectionCore.matching (System.core w)).
Definition queued w : list (QueuedWrite.t F) :=
  WriteQueue.frames (ConnectionCore.writes (System.core w)).
Definition ledger_of w : ReservationLedger.t :=
  ConnectionCore.ledger_of (System.core w) (System.heap w).

(** The operations that still owe an outcome. *)
Definition unfinished w : list OperationId.t :=
  OperationRecord.id <$> filter (λ r, OperationRecord.is_terminal r = false) (pending w).

Lemma reachable_owned w :
  System.reachable (R := R) init w →
  ∃ entries, owns limits entries (System.permits w) (System.core w, System.heap w) ∧
    System.accounted w entries ∧ pending w = Owned.record <$> entries ∧
    queued w = frames entries ∧ unfinished w = Owned.live entries.
Proof.
  intros Hr. assert (System.consistent limits w) as (entries & Ho & Ha).
  { eapply System.reachable_consistent; [|exact Hr]. by apply System.start_consistent. }
  exists entries. pose proof (pol_records _ _ _ _ _ (rd_policy _ _ _ _ _ (ow_ready _ _ _ _ Ho))) as Hp.
  split; [done|]. split; [done|]. split; [exact Hp|].
  split; [exact (wr_frames _ _ _ _ (ow_writer _ _ _ _ Ho))|].
  cbn [fst snd] in Hp. unfold unfinished, pending, ConnectionCore.matching, Owned.live.
  rewrite Hp. clear.
  induction entries as [|x l IH]; [done|]. csimpl. rewrite !filter_cons.
  change (OperationRecord.is_terminal (Owned.record x)) with (Owned.terminal x).
  destruct (decide (Owned.terminal x = false)); csimpl; [|done]. by f_equal.
Qed.

(** C1: an owner whose frames keep their byte view and whose transport reports
    no more bytes than remain never poisons itself: along every run its
    invariant latch stays empty, its ledger consistent, and the ownership
    audit passes and changes nothing, in debug and release builds alike. *)
Theorem run_never_poisoned w :
  System.reachable (R := R) init w →
  ConnectionCore.poisoned (System.core w) = None ∧
  ReservationLedger.poisoned (ledger_of w) = false ∧
  ConnectionCore.verify_ownership (System.core w, System.heap w) =
    (System.core w, System.heap w, Ok tt).
Proof.
  intros (entries & Ho & _)%reachable_owned. split; [by destruct Ho|].
  split; [|by eapply owns_verified].
  apply (ReservationLedger.acc_poisoned _ _
    (pol_accounts _ _ _ _ _ (rd_policy _ _ _ _ _ (ow_ready _ _ _ _ Ho)))).
Qed.

(** C2: exactly one outcome per accepted operation: at any point of a run the
    accepted operations are, each once, those with a published outcome and
    those that the core still owes one. *)
Theorem run_exactly_once w :
  System.reachable (R := R) init w →
  NoDup (System.accepted w) ∧
  System.accepted w ≡ₚ (System.published w).*1 ++ unfinished w.
Proof.
  intros (entries & Ho & [] & _ & _ & ->)%reachable_owned. split; [|done].
  by apply NoDup_app in ac_nodup as (? & _).
Qed.

(** C12: delivery claims are sound: an outcome that claims nothing was sent is
    only ever published for an operation of whose frame no byte was reported
    written, before or after. *)
Theorem run_not_sent_sound w op :
  System.reachable (R := R) init w →
  (op, Some Delivery.NotSent) ∈ System.published w → op ∉ System.sent w.
Proof. intros (entries & _ & [] & _)%reachable_owned Hin. by apply ac_unsent. Qed.

(** The deadline of every accepted operation is cancelled exactly once,
    when the core releases the operation. *)
Theorem run_deadlines_cancelled w :
  System.reachable (R := R) init w →
  System.accepted w ≡ₚ System.timers w ++ (OperationRecord.id <$> pending w).
Proof.
  intros (entries & _ & [] & -> & _)%reachable_owned. by rewrite <- list_fmap_compose.
Qed.

(** An epoch that is no longer live owns nothing: its gate is closed for
    a recorded reason, no operation and no frame is left, and every operation
    it ever accepted was given its outcome and had its deadline cancelled. *)
Theorem run_closed_settled w :
  System.reachable (R := R) init w →
  ConnectionMachine.phase (ConnectionCore.machine (System.core w)) ≠ ConnectionPhase.Live →
  ConnectionMachine.gate (ConnectionCore.machine (System.core w)) = AdmissionGate.Closed ∧
  is_Some (ConnectionMachine.close_reason (ConnectionCore.machine (System.core w))) ∧
  pending w = [] ∧ queued w = [] ∧
  System.accepted w ≡ₚ (System.published w).*1 ∧ System.accepted w ≡ₚ System.timers w.
Proof.
  intros (entries & Ho & [] & -> & -> & _)%reachable_owned Hph.
  destruct (pol_life _ _ _ _ _ (rd_policy _ _ _ _ _ (ow_ready _ _ _ _ Ho)))
    as [(? & _)|(_ & ? & ? & ->)]; [done|].
  rewrite app_nil_r in ac_outcomes, ac_timers. by split_and!.
Qed.

(** A live epoch that drains still has something to wait for: the step
    that releases its last operation closes it. *)
Theorem run_drain_waits w :
  System.reachable (R := R) init w →
  ConnectionMachine.phase (ConnectionCore.machine (System.core w)) = ConnectionPhase.Live →
  ConnectionMachine.gate (ConnectionCore.machine (System.core w)) = AdmissionGate.Draining →
  pending w ≠ [].
Proof.
  intros (entries & Ho & _ & -> & _)%reachable_owned Hph Hg.
  pose proof (rd_busy _ _ _ _ _ (ow_ready _ _ _ _ Ho) Hph Hg) as Hne.
  intros ?%fmap_nil_inv. done.
Qed.

(** What the ledger counts, of a world whose core owns [entries]. *)
Lemma ledger_counts w (entries : list (Owned.t F)) :
  owns limits entries (System.permits w) (System.core w, System.heap w) →
  ReservationLedger.operations (ledger_of w) =
    Z.of_nat (length entries + length (System.permits w)) ∧
  ReservationLedger.permits (ledger_of w) = Z.of_nat (length (System.permits w)) ∧
  ReservationLedger.write_frames (ledger_of w) =
    Z.of_nat (length (frames entries) + length (System.permits w)) ∧
  zsum WriteQueue.mem_of (frames entries) ≤
    rb_get (ReservationLedger.write_retained_bytes (ledger_of w)).
Proof.
  intros Ho. destruct Ho as [[[] Hag _ _] _ _ _]. cbn [fst snd] in *.
  destruct (CoreAdmission.frames_counted _ Hag) as (Hc & Hm & _).
  change (Heap.borrow (System.heap w) _) with (ledger_of w) in *.
  destruct pol_accounts0. unfold holdings in *.
  rewrite length_app, !length_fmap in acc_operations.
  rewrite zsum_app in acc_permits, acc_frames, acc_write. rewrite Hc in acc_frames.
  rewrite Hm in acc_write.
  assert (∀ ps, zsum ReservationLedger.permit_of (permit_holding <$> ps) = Z.of_nat (length ps) ∧
    zsum ReservationLedger.frame_of (permit_holding <$> ps) = Z.of_nat (length ps)) as Hps.
  { induction ps as [|p ps [IH1 IH2]]; csimpl; [done|]. rewrite IH1, IH2.
    unfold ReservationLedger.permit_of at 1, ReservationLedger.frame_of at 1. simpl. lia. }
  assert (zsum ReservationLedger.permit_of (Owned.holding <$> entries) = 0) as He.
  { clear. induction entries as [|x l IH]; csimpl; [done|]. rewrite IH. done. }
  assert (0 ≤ zsum ReservationLedger.write_of (permit_holding <$> System.permits w)) as Hw
    by (apply zsum_nonneg; apply ReservationLedger.write_of_nonneg).
  destruct (Hps (System.permits w)) as [H1 H2]. rewrite H1 in acc_permits. rewrite H2 in acc_frames.
  split_and!; lia.
Qed.

(** C19: capacity: the ledger counts exactly the operations, permits and frames
    that exist, and none of the configured bounds is ever exceeded. *)
Theorem run_within_limits w :
  System.reachable (R := R) init w →
  ReservationLedger.operations (ledger_of w) =
    Z.of_nat (length (pending w) + length (System.permits w)) ∧
  ReservationLedger.permits (ledger_of w) = Z.of_nat (length (System.permits w)) ∧
  ReservationLedger.write_frames (ledger_of w) =
    Z.of_nat (length (queued w) + length (System.permits w)) ∧
  ReservationLedger.operations (ledger_of w) ≤ ConnectionLimits.max_operations limits ∧
  ReservationLedger.write_frames (ledger_of w) ≤ ConnectionLimits.max_write_frames limits ∧
  rb_get (ReservationLedger.retained_bytes (ledger_of w)) ≤
    rb_get (ConnectionLimits.max_retained_bytes limits) ∧
  zsum WriteQueue.mem_of (queued w) ≤
    rb_get (ReservationLedger.write_retained_bytes (ledger_of w)) ≤
    rb_get (ConnectionLimits.max_write_retained_bytes limits).
Proof.
  intros (entries & Ho & _ & Hp & Hq & _)%reachable_owned. rewrite Hp, Hq, length_fmap.
  destruct (ledger_counts _ _ Ho) as (H1 & H2 & H3 & H4).
  destruct Ho as [[[] _ _ _] _ _ _]. cbn [fst snd] in *.
  change (Heap.borrow (System.heap w) _) with (ledger_of w) in *.
  destruct pol_accounts0. rewrite pol_limits0 in *. split_and!; lia.
Qed.

(** The match keys of the accepted operations and of the outstanding
    permits are all different, and of the configured space. *)
Theorem run_keys_distinct w :
  System.reachable (R := R) init w →
  let keys :=
    ((λ r, Reservation.match_key (OperationRecord.reservation r)) <$> pending w) ++
    (OperationPermit.match_key <$> System.permits w) in
  NoDup keys ∧ Forall (MatchKeySpace.contains (ConnectionLimits.match_keys limits)) keys ∧
  ActiveKeySet.elems (ReservationLedger.active_keys (ledger_of w)) ≡ₚ keys.
Proof.
  intros (entries & Ho & _ & Hp & _)%reachable_owned keys.
  destruct Ho as [[[] _ _ _] _ _ _]. cbn [fst snd] in *.
  change (Heap.borrow (System.heap w) _) with (ledger_of w) in *.
  assert (keys = ReservationLedger.key_of <$> holdings entries (System.permits w)) as ->.
  { unfold keys, holdings. rewrite Hp, fmap_app, <- !list_fmap_compose. done. }
  split; [by eapply ReservationLedger.accounts_nodup|].
  destruct pol_accounts0. rewrite pol_limits0 in *. done.
Qed.

(** Identities are never reused: the operation identities of everything
    ever accepted and of the outstanding permits are all different. *)
Theorem run_identities_distinct w :
  System.reachable (R := R) init w →
  NoDup (System.accepted w ++ (OperationPermit.operation <$> System.permits w)) ∧
  NoDup ((OperationRecord.effect <$> pending w) ++ (OperationPermit.effect <$> System.permits w)).
Proof.
  intros (entries & Ho & [] & -> & _)%reachable_owned. split; [done|].
  destruct Ho as [[[_ _ _ _ [_ Hn _ _ _ _] _] _ _ _] _ _ _]. unfold eff_ids in Hn.
  by rewrite <- list_fmap_compose.
Qed.

(** C18: policy and writer agree on wire order: the queued frames are, in
    order, those of the records that hold a write, and these come after every
    record whose frame is already written. *)
Theorem run_wire_order w :
  System.reachable (R := R) init w →
  ∃ written writing, pending w = written ++ writing ∧
    Forall (λ r, OperationRecord.write_held r = false) written ∧
    Forall (λ r, OperationRecord.write_held r = true) writing ∧
    (λ f, (QueuedWrite.operation f, QueuedWrite.effect f)) <$> queued w =
      (λ r, (OperationRecord.id r, OperationRecord.effect r)) <$> writing.
Proof.
  intros (entries & Ho & _ & Hp & Hq & _)%reachable_owned. rewrite Hp, Hq.
  destruct Ho as [[_ Hag (ws & qs & -> & Hws & Hqs) _] _ _ _]. clear Hp Hq.
  apply Forall_app in Hag as [Hagw Hagq]. exists (Owned.record <$> ws), (Owned.record <$> qs).
  split; [by rewrite fmap_app|]. rewrite frames_app. split; [|split].
  - clear - Hws Hagw. induction Hws as [|x l Hx _ IH]; [constructor|].
    apply Forall_cons in Hagw as [Ha Hagw]. csimpl. constructor; [|by apply IH].
    unfold Owned.agrees in Ha. rewrite Hx in Ha. by destruct Ha.
  - clear - Hqs Hagq. induction Hqs as [|x l [f Hf] _ IH]; [constructor|].
    apply Forall_cons in Hagq as [Ha Hagq]. csimpl. constructor; [|by apply IH].
    unfold Owned.agrees in Ha. rewrite Hf in Ha. by destruct Ha.
  - assert (frames ws = []) as ->.
    { clear - Hws. induction Hws as [|x l Hx _ IH]; [done|]. unfold frames in *. simpl.
      by rewrite Hx. }
    simpl. clear - Hqs Hagq. induction Hqs as [|x l [f Hf] _ IH]; [done|].
    apply Forall_cons in Hagq as [Ha Hagq]. unfold frames in *. csimpl. rewrite Hf. csimpl.
    rewrite IH by done. unfold Owned.agrees in Ha. rewrite Hf in Ha.
    destruct Ha as (_ & -> & -> & _). done.
Qed.

(** A queued frame belongs to the operation that owns it. *)
Lemma frame_owner (entries : list (Owned.t F)) f :
  Forall Owned.agrees entries → f ∈ frames entries →
  ∃ x, x ∈ entries ∧ Owned.frame x = Some f ∧ QueuedWrite.operation f = Owned.id x.
Proof.
  intros Hag Hf. unfold frames in Hf. apply list_elem_of_omap in Hf as (x & Hx & Hfx).
  exists x. split; [done|]. split; [done|]. rewrite Forall_forall in Hag.
  specialize (Hag x Hx). unfold Owned.agrees in Hag. rewrite Hfx in Hag. by destruct Hag as (_ & ? & _).
Qed.

(** Recovery of a core at any point of a run gives back exactly the
    operations that owe an outcome, in wire order, so that with the published
    outcomes every accepted operation is settled once; each comes with its
    frame if and only if the writer still had it, and is claimed unsent only
    if no byte of it was reported written; nothing is unmatched, nothing
    diverged, and the core is left poisoned and empty. *)
Theorem run_recover w :
  System.reachable (R := R) init w →
  let '(self', heap', recovery) := CoreRecovery.recover (System.core w, System.heap w) in
  let operations := ConnectionRecovery.operations recovery in
  ConnectionRecovery.epoch recovery = ConnectionCore.epoch (System.core w) ∧
  RecoveredOperation.operation <$> operations = unfinished w ∧
  System.accepted w ≡ₚ
    (System.published w).*1 ++ (RecoveredOperation.operation <$> operations) ∧
  (∀ o, o ∈ operations →
     (RecoveredOperation.delivery o = Delivery.NotSent →
      RecoveredOperation.operation o ∉ System.sent w) ∧
     match RecoveredOperation.frame o with
     | Some g => ∃ f, f ∈ queued w ∧ QueuedWrite.operation f = RecoveredOperation.operation o ∧
         QueuedWrite.frame f = g
     | None => ∀ f, f ∈ queued w → QueuedWrite.operation f ≠ RecoveredOperation.operation o
     end) ∧
  ConnectionRecovery.unmatched_writes recovery = [] ∧
  ConnectionRecovery.ownership_diverged recovery = false ∧
  ConnectionCore.poisoned self' = Some ConnectionCoreInvariant.Recovered ∧
  OrderedVerified.pending (ConnectionCore.matching self') = [] ∧
  WriteQueue.frames (ConnectionCore.writes self') = [].
Proof.
  intros (entries & Ho & [] & _ & -> & ->)%reachable_owned.
  pose proof (RecoverySpec.owns_recover _ _ _ _ _ Ho) as Hr.
  destruct (CoreRecovery.recover _) as [[self' heap'] recovery].
  destruct Hr as (-> & Hp' & Hf' & Hpo). cbv zeta. simpl ConnectionRecovery.operations.
  assert (RecoveredOperation.operation <$> ((λ x, RecoveredOperation.mk (Owned.id x)
    (Owned.delivery x) (QueuedWrite.frame <$> Owned.frame x)) <$> RecoverySpec.unfinished entries) =
    Owned.live entries) as Hids by (by rewrite <- list_fmap_compose).
  split; [done|]. split; [done|]. split; [by rewrite Hids|].
  split; [|split; [done|split; [done|split; [done|split; [apply Hp'|done]]]]].
  destruct Ho as [[Hp Hag _ _] _ _ _]. cbn [fst snd] in *.
  intros o (x & -> & Hx)%list_elem_of_fmap. simpl.
  apply list_elem_of_filter in Hx as [_ Hx]. split.
  - intros Hns Hin. unfold sound in ac_sound. rewrite Forall_forall in ac_sound.
    rewrite (ac_sound x Hx Hin) in Hns. done.
  - destruct (Owned.frame x) as [f|] eqn:Hfx; simpl.
    + exists f. split; [unfold frames; apply list_elem_of_omap; by exists x|]. split; [|done].
      rewrite Forall_forall in Hag. specialize (Hag x Hx). unfold Owned.agrees in Hag.
      rewrite Hfx in Hag. by destruct Hag as (_ & ? & _).
    + intros f (y & Hy & Hfy & Hid)%frame_owner Heq; [|done].
      assert (x = y) as ->; [|congruence].
      destruct (pol_ids _ _ _ _ _ Hp) as [Hnd _ _ _ _ _]. unfold op_ids in Hnd.
      apply NoDup_app in Hnd as (Hnd & _ & _).
      apply list_elem_of_lookup in Hx as [i Hi], Hy as [j Hj].
      assert (i = j) as <-; [|congruence].
      eapply NoDup_lookup; [exact Hnd|..]; rewrite list_lookup_fmap.
      * by rewrite Hi.
      * rewrite Hj. simpl. congruence.
Qed.

(** C37: a transport that reports more bytes than remain of the front frame
    fails the core closed: the call is rejected, the core is poisoned with
    both counts, and recovery still gives back every operation that owes an
    outcome, the reported one as possibly sent, flagged as diverged. *)
Theorem run_overreport_recovers w f rest written :
  System.reachable (R := R) init w → queued w = f :: rest →
  let remaining := FrameMeasure.wire_bytes (QueuedWrite.measure f) - QueuedWrite.written f in
  let invariant := ConnectionCoreInvariant.WriteProgressContract written remaining in
  remaining < written →
  let '(self', heap', r) :=
    ConnectionCore.advance_write (ConnectionCore.epoch (System.core w)) (QueuedWrite.effect f)
      written (System.core w, System.heap w) in
  r = Err (ConnectionCoreError.Invariant invariant) ∧
  ConnectionCore.poisoned self' = Some invariant ∧
  let '(_, _, recovery) := CoreRecovery.recover (self', heap') in
  RecoveredOperation.operation <$> ConnectionRecovery.operations recovery = unfinished w ∧
  (∀ o, o ∈ ConnectionRecovery.operations recovery →
     RecoveredOperation.operation o = QueuedWrite.operation f →
     RecoveredOperation.delivery o = Delivery.PossiblySent) ∧
  ConnectionRecovery.unmatched_writes recovery = [] ∧
  ConnectionRecovery.ownership_diverged recovery = true.
Proof.
  intros (entries & Ho & _ & _ & -> & ->)%reachable_owned Hfr remaining invariant Hlt.
  destruct (CoreView.owned_overreport _ _ _ (_, _) _ _ written Ho Hfr Hlt)
    as ([self' heap'] & Hrun & Hpo & _ & Hrec).
  change (ConnectionCore.epoch (System.core w)) with
    (CoreView.epoch_of (System.core w, System.heap w)). rewrite Hrun.
  split; [done|]. split; [exact Hpo|]. destruct (CoreRecovery.recover _) as [[] recovery].
  exact Hrec.
Qed.

End runs.
End Runs.

Module AnyCore.
Section any_core.
Context {Cal : Calandria} {BB : ByteBudgetLib} {F : Type}.

(** C36: recovery loses nothing, whatever state the core is in: with policy
    records [C0], journal records [J0], and in [W0] the frames of writer and
    journal, every record that owes an outcome is given back once; the
    journal records given back besides are journal records, and every journal
    record is either one of these or names a policy record; every frame is
    given back with an operation, reported unmatched, or belonged to a record
    whose outcome was already published. *)
Theorem recover_loses_nothing (self : ConnectionCore.t F) (heap : Heap.t) :
  let C0 := OrderedVerified.pending (ConnectionCore.matching self) in
  let '(journal, journal_writes) := RecoveryJournal.take_writes (ConnectionCore.journal self) in
  let W0 :=
    (DiscardedWrite.into_discarded <$> WriteQueue.frames (ConnectionCore.writes self)) ++
    journal_writes in
  let J0 := (RecoveryJournal.take_operations journal).2 in
  let '(_, _, recovery) := CoreRecovery.recover (self, heap) in
  Conservation.complete C0 W0 J0 (ConnectionRecovery.operations recovery)
    (ConnectionRecovery.unmatched_writes recovery).
Proof.
  unfold CoreRecovery.recover, WriteQueue.discard_all.
  destruct (RetainedBudget.clear _) as [b r].
  destruct (RecoveryJournal.take_writes _) as [j1 ws].
  destruct (RecoveryJournal.take_operations j1) as [j2 J0]. apply Conservation.conserved_wire_order.
Qed.

(** Recovery always leaves the core empty and unusable, and keeps the
    first reason why it was poisoned. *)
Theorem recover_consumes (self : ConnectionCore.t F) (heap : Heap.t) :
  let '(self', _, recovery) := CoreRecovery.recover (self, heap) in
  ConnectionRecovery.epoch recovery = ConnectionCore.epoch self ∧
  ConnectionCore.poisoned self' =
    Some (default ConnectionCoreInvariant.Recovered (ConnectionCore.poisoned self)) ∧
  OrderedVerified.pending (ConnectionCore.matching self') = [] ∧
  WriteQueue.frames (ConnectionCore.writes self') = [] ∧
  RecoveryJournal.armed (ConnectionCore.journal self') = false ∧
  RecoveryJournal.operation_len (ConnectionCore.journal self') = 0%nat ∧
  RecoveryJournal.write_len (ConnectionCore.journal self') = 0%nat.
Proof.
  unfold CoreRecovery.recover, WriteQueue.discard_all.
  destruct (RetainedBudget.clear _) as [b r]. simpl.
  by destruct (ConnectionCore.poisoned self).
Qed.

End any_core.
End AnyCore.

(** ** Instances *)

Module RunWitnesses.
Import Sample.

(** The instance of the run theorems at the sample connection. *)
Lemma run_never_poisoned_witness :
  ConnectionCore.poisoned (System.core busy) = None ∧
  ReservationLedger.poisoned (Runs.ledger_of busy) = false ∧
  ConnectionCore.verify_ownership (System.core busy, System.heap busy) =
    (System.core busy, System.heap busy, Ok tt).
Proof.
  exact (Runs.run_never_poisoned (EndpointId.new 0) (LaneId.new 0) (ConnectionId.new 0) epoch limits
    seeds ledger heap limits_are_valid ltac:(by vm_compute) ltac:(by vm_compute) busy
    busy_reachable).
Defined.

Lemma run_exactly_once_witness :
  NoDup (System.accepted busy) ∧
  System.accepted busy ≡ₚ (System.published busy).*1 ++ Runs.unfinished busy.
Proof.
  exact (Runs.run_exactly_once (EndpointId.new 0) (LaneId.new 0) (ConnectionId.new 0) epoch limits
    seeds ledger heap limits_are_valid ltac:(by vm_compute) ltac:(by vm_compute) busy
    busy_reachable).
Defined.

(** The unwritten operation is cancelled: its outcome claims nothing was sent. *)
Definition cancelled : world :=
  run busy [System.Apply (ConnectionInput.Cancel epoch (OperationId.new 1))].

Lemma cancelled_reachable : System.reachable (R := frame) init cancelled.
Proof. apply run_reachable; [apply busy_reachable|]. by vm_compute. Qed.

Lemma run_not_sent_sound_witness : OperationId.new 1 ∉ System.sent cancelled.
Proof.
  apply (Runs.run_not_sent_sound (EndpointId.new 0) (LaneId.new 0) (ConnectionId.new 0) epoch
    limits seeds ledger heap limits_are_valid ltac:(by vm_compute) ltac:(by vm_compute) cancelled
    (OperationId.new 1) cancelled_reachable).
  by vm_compute; left.
Defined.

Lemma run_deadlines_cancelled_witness :
  System.accepted cancelled ≡ₚ
    System.timers cancelled ++ (OperationRecord.id <$> Runs.pending cancelled).
Proof.
  exact (Runs.run_deadlines_cancelled (EndpointId.new 0) (LaneId.new 0) (ConnectionId.new 0) epoch
    limits seeds ledger heap limits_are_valid ltac:(by vm_compute) ltac:(by vm_compute) cancelled
    cancelled_reachable).
Defined.

(** The same connection closed with work on the wire. *)
Definition closed : world :=
  run busy [System.Apply (ConnectionInput.CloseRequested epoch CloseReason.TransportLost)].

Lemma closed_reachable : System.reachable (R := frame) init closed.
Proof. apply run_reachable; [apply busy_reachable|]. by vm_compute. Qed.

Lemma run_closed_settled_witness :
  Runs.pending closed = [] ∧ Runs.queued closed = [] ∧
  System.accepted closed ≡ₚ (System.published closed).*1.
Proof.
  destruct (Runs.run_closed_settled (EndpointId.new 0) (LaneId.new 0) (ConnectionId.new 0) epoch
    limits seeds ledger heap limits_are_valid ltac:(by vm_compute) ltac:(by vm_compute) closed
    closed_reachable ltac:(by vm_compute)) as (_ & _ & Hp & Hq & Ha & _).
  exact (conj Hp (conj Hq Ha)).
Defined.

(** The same connection draining. *)
Definition draining : world := run busy [System.Apply (ConnectionInput.BeginDrain epoch)].

Lemma draining_reachable : System.reachable (R := frame) init draining.
Proof. apply run_reachable; [apply busy_reachable|]. by vm_compute. Qed.

Lemma run_drain_waits_witness : Runs.pending draining ≠ [].
Proof.
  exact (Runs.run_drain_waits (EndpointId.new 0) (LaneId.new 0) (ConnectionId.new 0) epoch
    limits seeds ledger heap limits_are_valid ltac:(by vm_compute) ltac:(by vm_compute) draining
    draining_reachable ltac:(by vm_compute) ltac:(by vm_compute)).
Defined.

Lemma run_within_limits_witness :
  ReservationLedger.operations (Runs.ledger_of busy) = 2 ∧
  ReservationLedger.operations (Runs.ledger_of busy) ≤ ConnectionLimits.max_operations limits.
Proof.
  destruct (Runs.run_within_limits (EndpointId.new 0) (LaneId.new 0) (ConnectionId.new 0) epoch
    limits seeds ledger heap limits_are_valid ltac:(by vm_compute) ltac:(by vm_compute) busy
    busy_reachable) as (Ho & _ & _ & Hm & _).
  split; [rewrite Ho; by vm_compute|exact Hm].
Defined.

Lemma run_keys_distinct_witness :
  NoDup [MatchKey.new 5; MatchKey.new 6] ∧
  ActiveKeySet.elems (ReservationLedger.active_keys (Runs.ledger_of busy)) ≡ₚ
    [MatchKey.new 5; MatchKey.new 6].
Proof.
  destruct (Runs.run_keys_distinct (EndpointId.new 0) (LaneId.new 0) (ConnectionId.new 0) epoch
    limits seeds ledger heap limits_are_valid ltac:(by vm_compute) ltac:(by vm_compute) busy
    busy_reachable) as (Hn & _ & He).
  split; [exact Hn|exact He].
Defined.

Lemma run_identities_distinct_witness :
  NoDup [OperationId.new 0; OperationId.new 1] ∧ NoDup [EffectId.new 0; EffectId.new 1].
Proof.
  exact (Runs.run_identities_distinct (EndpointId.new 0) (LaneId.new 0) (ConnectionId.new 0) epoch
    limits seeds ledger heap limits_are_valid ltac:(by vm_compute) ltac:(by vm_compute) busy
    busy_reachable).
Defined.

Lemma run_wire_order_witness :
  ∃ written writing, Runs.pending busy = written ++ writing ∧
    (λ f, (QueuedWrite.operation f, QueuedWrite.effect f)) <$> Runs.queued busy =
      (λ r, (OperationRecord.id r, OperationRecord.effect r)) <$> writing.
Proof.
  destruct (Runs.run_wire_order (EndpointId.new 0) (LaneId.new 0) (ConnectionId.new 0) epoch
    limits seeds ledger heap limits_are_valid ltac:(by vm_compute) ltac:(by vm_compute) busy
    busy_reachable) as (a & b & H1 & _ & _ & H2).
  exists a, b. exact (conj H1 H2).
Defined.

Lemma run_recover_witness :
  let '(_, _, recovery) := CoreRecovery.recover (System.core busy, System.heap busy) in
  RecoveredOperation.operation <$> ConnectionRecovery.operations recovery =
    [OperationId.new 0; OperationId.new 1].
Proof.
  pose proof (Runs.run_recover (EndpointId.new 0) (LaneId.new 0) (ConnectionId.new 0) epoch
    limits seeds ledger heap limits_are_valid ltac:(by vm_compute) ltac:(by vm_compute) busy
    busy_reachable) as Hr.
  destruct (CoreRecovery.recover _) as [[s h] r]. exact (proj1 (proj2 Hr)).
Defined.

Lemma run_overreport_recovers_witness :
  let '(self', _, _) :=
    ConnectionCore.advance_write epoch (EffectId.new 0) 2 (System.core busy, System.heap busy) in
  ConnectionCore.poisoned self' = Some (ConnectionCoreInvariant.WriteProgressContract 2 1).
Proof.
  pose proof (Runs.run_overreport_recovers (EndpointId.new 0) (LaneId.new 0) (ConnectionId.new 0)
    epoch limits seeds ledger heap limits_are_valid ltac:(by vm_compute) ltac:(by vm_compute) busy
    (hd (QueuedWrite.mk (OperationId.new 0) (EffectId.new 0) [] (FrameMeasure.capture hello) 0 false)
       (Runs.queued busy)) (tl (Runs.queued busy)) 2
    busy_reachable ltac:(reflexivity) ltac:(by vm_compute)) as Hr.
  change (QueuedWrite.effect _) with (EffectId.new 0) in Hr.
  change (ConnectionCore.epoch _) with epoch in Hr.
  destruct (ConnectionCore.advance_write _ _ _ _) as [[s h] r]. exact (proj1 (proj2 Hr)).
Defined.

End RunWitnesses.
