(* ===== verification/CallTheorems.v ===== *)
(** * What one call on a core does

    The functional behaviour of each method of [ConnectionCore] at any point
    of a run, branch by branch, and the fail-closed behaviour of a poisoned
    core. *)
From Stdlib Require Import ZArith Lia.
From stdpp Require Import prelude.
From S2P Require Import Prelude External Identity Limits Admission KeySet Ledger Permit Operation.
From S2P Require Import Matching Write Machine Journal Core Recovery Ownership MachineSpec CoreSpec.
From S2P Require Import CoreAdmission CoreProgress Reference Refinement CoreView System Sample.
From S2P Require Import RunTheorems.

Import Policy Change Step Handlers Inputs Permits CoreSpec MachineProgress CoreProgress Refinement
  Runs.

Module Calls.
Section calls.
Context {Cal : Calandria} {BB : ByteBudgetLib} {Build : BuildConfig} {F R : Type}.
Context {Laws : CalandriaLaws Cal} {BLaws : ByteBudgetLaws BB}.
Context (endpoint : EndpointId.t) (lane : LaneId.t) (connection : ConnectionId.t).
Context (epoch : ConnectionEpoch.t) (limits : ConnectionLimits.t) (seeds : IdentitySeeds.t).
Context (ledger : LedgerRef) (heap : Heap.t).
Context (Hlimits : ConnectionLimits.valid limits).
Context (Hoperation : in_u64 (IdentitySeeds.operation seeds)).
Context (Heffect : in_u64 (IdentitySeeds.effect seeds)).
Implicit Types (w : System.world (F := F)).

Definition at_run w : Prop :=
  System.reachable (R := R) (init endpoint lane connection epoch limits seeds ledger heap) w.

Lemma at_run_owned w :
  at_run w →
  ∃ entries, owns limits entries (System.permits w) (System.core w, System.heap w) ∧
    pending w = Owned.record <$> entries ∧ queued w = frames entries.
Proof.
  intros Hr. destruct (reachable_owned _ _ _ _ _ _ _ _ Hlimits Hoperation Heffect w Hr)
    as (entries & Ho & _ & Hp & Hq & _). eauto.
Qed.

Definition machine w : ConnectionMachine.t := ConnectionCore.machine (System.core w).
Definition state_of w : ConnectionCore.state F := (System.core w, System.heap w).

(** ** Admission *)

(** Why a reservation is refused, from the counters of the ledger, in the
    order of the checks. *)
Definition refusal w (now : Moment) (options : OperationOptions.t) : option ReserveError.t :=
  let l := ledger_of w in
  if negb (AdmissionGate.admits (ConnectionMachine.gate (machine w)) (OperationOptions.class options))
  then Some ReserveError.AdmissionClosed
  else if is_elapsed_at (OperationOptions.deadline options) now
  then Some ReserveError.DeadlineElapsed
  else if negb (IdentityGenerator.available (ConnectionMachine.identities (machine w)))
  then Some ReserveError.IdentityExhausted
  else if ReservationLedger.operations l =? ConnectionLimits.max_operations limits
  then Some ReserveError.OperationCapacity
  else if rb_get (ConnectionLimits.max_retained_bytes limits) <?
            rb_get (ReservationLedger.retained_bytes l) + rb_get (OperationOptions.retained options)
  then Some ReserveError.RetainedByteCapacity
  else if ReservationLedger.write_frames l =? ConnectionLimits.max_write_frames limits
  then Some ReserveError.WriteCapacity
  else if rb_get (ConnectionLimits.max_write_retained_bytes limits) <?
            rb_get (ReservationLedger.write_retained_bytes l)
              + rb_get (OperationOptions.write_retained options)
  then Some ReserveError.WriteCapacity
  else if MatchKeySpace.capacity (ConnectionLimits.match_keys limits) <=?
            ReservationLedger.operations l
  then Some ReserveError.MatchKeyExhausted
  else None.

Lemma refusal_decision w entries now options :
  owns limits entries (System.permits w) (System.core w, System.heap w) →
  refusal w now options =
    reserve_decision limits (machine w) entries (System.permits w) now options.
Proof.
  intros [[[] _ _ _] _ _ _]. cbn [fst snd] in *.
  unfold refusal, reserve_decision, ReservationLedger.reserve_error.
  change (Heap.borrow (System.heap w) _) with (ledger_of w) in *. destruct pol_accounts0.
  by rewrite acc_operations, acc_retained, acc_frames, acc_write.
Qed.

(** [reserve] is refused exactly for the first of its reasons that holds,
    and then changes neither the core nor any ledger; otherwise it grants an
    active permit of this ledger and epoch for what was asked, whose
    operation, effect and match key nothing else in use has. *)
Theorem reserve_decides w now options :
  at_run w →
  let '(self', heap', r) := ConnectionCore.reserve now options (state_of w) in
  match refusal w now options with
  | Some e => r = Err e ∧ self' = System.core w ∧
      (∀ l, Heap.borrow heap' l = Heap.borrow (System.heap w) l)
  | None => ∃ p, r = Ok p ∧ grants (machine w) options p ∧
      OperationPermit.operation p ∉
        (OperationRecord.id <$> pending w) ++ (OperationPermit.operation <$> System.permits w) ∧
      OperationPermit.effect p ∉
        (OperationRecord.effect <$> pending w) ++ (OperationPermit.effect <$> System.permits w) ∧
      ¬ ActiveKeySet.contains (ReservationLedger.active_keys (ledger_of w))
          (OperationPermit.match_key p) ∧
      ReservationLedger.operations (ConnectionCore.ledger_of self' heap') =
        ReservationLedger.operations (ledger_of w) + 1
  end.
Proof.
  intros (entries & Ho & Hp & _)%at_run_owned. rewrite (refusal_decision _ entries) by done.
  pose proof (CoreAdmission.core_reserve_spec _ _ _ _ _ now options Ho) as Hr.
  unfold state_of. destruct (ConnectionCore.reserve _ _ _) as [[self' heap'] r].
  fold (machine w) in Hr. destruct (reserve_decision _ _ _ _ _ _); [naive_solver|].
  destruct Hr as (p & g & -> & Hg & -> & _ & _ & Ho'). exists p. split; [done|]. split; [done|].
  destruct Ho as [[[] _ _ _] _ _ _], Ho' as [[Hp' _ _ _] _ _ _]. cbn [fst snd] in *.
  change (Heap.borrow (System.heap w) _) with (ledger_of w) in *.
  destruct (pol_ids _ _ _ _ _ Hp') as [Hn1 Hn2 _ _ _ _]. rewrite op_ids_permit in Hn1.
  rewrite eff_ids_permit in Hn2. apply NoDup_cons in Hn1 as [Hn1 _], Hn2 as [Hn2 _].
  rewrite Hp, <- !list_fmap_compose. split; [exact Hn1|]. split; [exact Hn2|].
  pose proof (pol_accounts _ _ _ _ _ Hp') as Hacc'. rewrite holdings_permit in Hacc'. split.
  - destruct (ReservationLedger.accounts_elems_length _ _ pol_accounts0) as [_ Hroom].
    destruct pol_accounts0. rewrite ActiveKeySet.contains_spec by done.
    intros Hin%bool_decide_unpack. rewrite acc_keys in Hin.
    apply ReservationLedger.accounts_nodup in Hacc'. rewrite fmap_cons in Hacc'.
    by apply NoDup_cons in Hacc' as [? _].
  - destruct pol_accounts0, Hacc'. unfold ConnectionCore.ledger_of. simpl in *. lia.
Qed.

(** A permit dropped unused leaves no trace: after a granted reservation
    and the drop of its permit, every counter of the ledger and the set of
    active keys are what they were. *)
Theorem dropped_permit_restores w now options :
  at_run w →
  match ConnectionCore.reserve now options (state_of w) with
  | (_, Err _) => True
  | (self', heap', Ok p) =>
      let before := ledger_of w in
      let after := ConnectionCore.ledger_of self' (OperationPermit.drop p heap').2 in
      ReservationLedger.operations after = ReservationLedger.operations before ∧
      ReservationLedger.permits after = ReservationLedger.permits before ∧
      ReservationLedger.retained_bytes after = ReservationLedger.retained_bytes before ∧
      ReservationLedger.write_frames after = ReservationLedger.write_frames before ∧
      ReservationLedger.write_retained_bytes after =
        ReservationLedger.write_retained_bytes before ∧
      ActiveKeySet.elems (ReservationLedger.active_keys after) ≡ₚ
        ActiveKeySet.elems (ReservationLedger.active_keys before) ∧
      ReservationLedger.poisoned after = false
  end.
Proof.
  intros (entries & Ho & _ & _)%at_run_owned.
  pose proof (CoreAdmission.core_reserve_spec _ _ _ _ _ now options Ho) as Hr. unfold state_of.
  destruct (ConnectionCore.reserve _ _ _) as [[self' heap'] [p|e]]; [|done].
  destruct (reserve_decision _ _ _ _ _ _); [by destruct Hr|].
  destruct Hr as (p' & g & [= <-] & _ & -> & _ & _ & Ho').
  apply CoreAdmission.owns_drop in Ho'.
  destruct Ho as [[[] _ _ _] _ _ _], Ho' as [[Hp' _ _ _] _ _ _]. cbn [fst snd] in *.
  exact (ReservationLedger.accounts_same _ _ _ pol_accounts0 (pol_accounts _ _ _ _ _ Hp')).
Qed.

(** [commit] with an outstanding permit is refused only because the gate
    no longer admits its class or because the frame retains more than was
    reserved; the core is then unchanged and permit and frame come back. It
    is never refused by the writer: otherwise the operation is accepted as
    the last of the wire order, with its frame, its deadline scheduled. *)
Theorem commit_decides (W : WriteFrame F) w i p frame :
  at_run w → System.permits w !! i = Some p →
  Z.of_nat (length (frame_bytes frame)) ≤ USIZE_MAX →
  let '(self', heap', r) := ConnectionCore.commit p frame (state_of w) in
  match CoreAdmission.commit_decision (machine w) p frame with
  | Some kind => self' = System.core w ∧ heap' = System.heap w ∧
      r = Err (FrameCommitError.new (FrameCommitFailure.Policy kind) p frame)
  | None =>
      r = Ok (OperationPermit.operation p,
              ConnectionTransition.mk InputDisposition.Applied None
                [ConnectionEffect.ScheduleDeadline (ConnectionCore.epoch (System.core w))
                   (OperationPermit.operation p) (OperationPermit.deadline p)]) ∧
      OrderedVerified.pending (ConnectionCore.matching self') =
        pending w ++ [accepted p (frame_retained_bytes frame)] ∧
      WriteQueue.frames (ConnectionCore.writes self') =
        queued w ++ [QueuedWrite.mk (OperationPermit.operation p) (OperationPermit.effect p) frame
                       (FrameMeasure.capture frame) 0 false]
  end.
Proof.
  intros (entries & Ho & -> & ->)%at_run_owned Hi Hlen.
  rewrite (System.delete_permit _ _ _ Hi) in Ho.
  pose proof (CoreAdmission.core_commit_spec _ _ _ _ _ _ frame Ho Hlen) as Hc. unfold state_of.
  destruct (ConnectionCore.commit _ _ _) as [[self' heap'] r]. fold (machine w) in Hc.
  destruct (CoreAdmission.commit_decision _ _ _); [done|].
  destruct Hc as (-> & _ & _ & [[Hp _ _ _] [Hf _ _ _] _ _] & _). cbn [fst snd] in *.
  split; [done|]. split.
  - pose proof (pol_records _ _ _ _ _ Hp) as Hr. by rewrite fmap_app in Hr.
  - by rewrite frames_app in Hf.
Qed.

(** A permit of another machine or of another epoch is refused as foreign
    and given back with the exact frame; the core and every ledger are
    unchanged. *)
Theorem commit_foreign_refused (W : WriteFrame F) w p frame :
  at_run w →
  OperationPermit.ledger p ≠ ConnectionMachine.ledger (machine w) ∨
  OperationPermit.epoch p ≠ ConnectionCore.epoch (System.core w) →
  ConnectionCore.commit p frame (state_of w) =
    (state_of w, Err (FrameCommitError.new
       (FrameCommitFailure.Policy CommitErrorKind.ForeignPermit) p frame)).
Proof.
  intros (entries & Ho & _ & _)%at_run_owned Hne. by eapply CoreAdmission.commit_foreign.
Qed.

(** ** Inputs, replies and write progress *)

(** The core after a call whose machine computed a reference step. *)
Definition refines {A : Type} w (out : ConnectionCore.t F * Heap.t * result (ConnectionTransition.t A) ConnectionCoreError.t)
    (ref : Reference.state * ConnectionTransition.t A) : Prop :=
  out.2 = Ok ref.2 ∧ Reference.view (ConnectionCore.machine out.1.1) = ref.1.

(** C15: [apply] refines the reference model: for every input, at every point
    of a run, it succeeds, takes the observable state (phase, gate, reason,
    operations in wire order) where the model says, and returns the model's
    disposition, cancellation outcome and effects. *)
Theorem apply_refines w input :
  at_run w →
  refines w (ConnectionCore.apply input (state_of w))
    (Reference.step (ConnectionCore.epoch (System.core w)) input (Reference.view (machine w))).
Proof.
  intros (entries & Ho & _)%at_run_owned.
  destruct (CoreView.owned_apply _ _ _ _ input Ho) as (s' & entries' & ds & Hrun & _ & Hv & _).
  unfold refines, state_of. rewrite Hrun. by split.
Qed.

(** C16: [apply_reply] refines the reference model: a reply completes the
    oldest operation if that one awaits a reply under this key, and otherwise
    ends the epoch with the mismatch or the unexpected reply as reason. *)
Theorem apply_reply_refines w (reply : InboundReply.t R) :
  at_run w →
  refines w (ConnectionCore.apply_reply reply (state_of w))
    (Reference.reply (ConnectionCore.epoch (System.core w)) reply (Reference.view (machine w))).
Proof.
  intros (entries & Ho & _)%at_run_owned.
  destruct (CoreView.owned_reply _ _ _ _ reply Ho) as (s' & entries' & ds & Hrun & _ & Hv & _).
  unfold refines, state_of. rewrite Hrun. by split.
Qed.

(** C17: [advance_write] refines the reference model: a report for the front
    frame that stays within the bytes left of it succeeds, marks the
    operation as possibly sent once any byte was written, and keeps the frame
    at the front until its last byte; then the frame leaves the queue and the
    operation awaits its reply, or is completed and released. *)
Theorem advance_write_refines w f rest written :
  at_run w → queued w = f :: rest →
  let remaining := FrameMeasure.wire_bytes (QueuedWrite.measure f) - QueuedWrite.written f in
  0 ≤ written ≤ remaining →
  let out := ConnectionCore.advance_write (ConnectionCore.epoch (System.core w))
    (QueuedWrite.effect f) written (state_of w) in
  refines w out
    (Reference.progress (ConnectionCore.epoch (System.core w)) (QueuedWrite.operation f)
       (0 <? written) (written =? remaining) (Reference.view (machine w))) ∧
  WriteQueue.frames (ConnectionCore.writes out.1.1) =
    (if written <? remaining
     then QueuedWrite.set_progress f (QueuedWrite.written f + written)
            (0 <? QueuedWrite.written f + written) :: rest
     else rest).
Proof.
  intros (entries & Ho & _ & Hq)%at_run_owned Hfr remaining Hn. rewrite Hq in Hfr.
  destruct (CoreView.owned_advance _ _ _ _ _ _ _ Ho Hfr Hn)
    as (s' & entries' & ds & Hrun & _ & Hv & _ & _ & Hpart).
  unfold refines, state_of. unfold CoreView.epoch_of in Hrun. cbn [fst] in Hrun. rewrite Hrun.
  by split.
Qed.

(** An input or reply that is not carried out changes nothing: unless the
    disposition is [Applied] or [Fault], the call leaves core and ledgers
    exactly as they were and returns no effects. A stale epoch, an unknown or
    finished operation and a wrong phase are all of this kind. *)
Theorem ignored_changes_nothing w (call : ConnectionInput.t + InboundReply.t R) :
  at_run w →
  match call with
  | inl input =>
      ∃ out tr, ConnectionCore.apply input (state_of w) = (out, Ok tr) ∧
        (takes (ConnectionTransition.disposition tr) ∨
         out = state_of w ∧ ConnectionTransition.effects tr = [])
  | inr reply =>
      ∃ out tr, ConnectionCore.apply_reply reply (state_of w) = (out, Ok tr) ∧
        (takes (ConnectionTransition.disposition tr) ∨
         out = state_of w ∧ ConnectionTransition.effects tr = [])
  end.
Proof.
  intros (entries & Ho & _)%at_run_owned. unfold state_of. destruct call as [input|reply].
  - destruct (apply_all_or_nothing (F := F) (machine w) input (System.heap w)) as [Ht|[Heq He]].
    + pose proof (apply_spec _ _ _ _ _ input Ho) as Hs. fold (machine w) in Hs.
      destruct (ConnectionMachine.apply _ _ _) as [[m' tr] heap'].
      destruct Hs as (self' & _ & _ & -> & _). eexists _, _. split; [done|]. by left.
    + destruct (prepare_input_spec _ _ _ _ _ input Ho) as (j & a & os & Hprep & Hj).
      eexists _, _. split; [|right; split; [reflexivity|exact He]].
      unfold ConnectionCore.apply. rewrite (ste_bind_ok _ _ _ _ _ (owns_healthy _ _ _ _ Ho)).
      rewrite (ste_bind_ok _ _ _ _ _ (owns_verified_hot _ _ _ _ Ho)).
      rewrite (ste_bind_ok _ _ _ _ _ Hprep). by apply (idle_spec _ _ _ _ _ _ _ _ _ _ Ho Hj).
  - destruct (reply_all_or_nothing (F := F) (machine w) reply (System.heap w)) as [Ht|[Heq He]].
    + pose proof (apply_reply_spec _ _ _ _ _ reply Ho) as Hs. fold (machine w) in Hs.
      destruct (ConnectionMachine.apply_reply _ _ _) as [[m' tr] heap'].
      destruct Hs as (self' & _ & _ & -> & _). eexists _, _. split; [done|]. by left.
    + destruct (prepare_reply_spec _ _ _ _ _ reply Ho) as (j & a & os & Hprep & Hj).
      eexists _, _. split; [|right; split; [reflexivity|exact He]].
      unfold ConnectionCore.apply_reply.
      rewrite (ste_bind_ok _ _ _ _ _ (owns_healthy _ _ _ _ Ho)).
      rewrite (ste_bind_ok _ _ _ _ _ (owns_verified_hot _ _ _ _ Ho)).
      rewrite (ste_bind_ok _ _ _ _ _ Hprep). by apply (idle_spec _ _ _ _ _ _ _ _ _ _ Ho Hj).
Qed.

(** ** The writer *)

(** A report that names another epoch, arrives with nothing queued or
    names another frame than the front is rejected with what was expected,
    and changes neither the core nor any ledger. *)
Theorem advance_write_rejects w e effect written :
  at_run w →
  (e = ConnectionCore.epoch (System.core w) →
   ∀ f rest, queued w = f :: rest → QueuedWrite.effect f ≠ effect) →
  ConnectionCore.advance_write e effect written (state_of w) =
    (state_of w, Err (ConnectionCoreError.Write
       (if bool_decide (e = ConnectionCore.epoch (System.core w)) then
          match queued w with
          | [] => WriteProgressError.NoPendingWrite
          | f :: _ => WriteProgressError.OutOfOrderEffect (QueuedWrite.effect f) effect
          end
        else WriteProgressError.StaleEpoch (ConnectionCore.epoch (System.core w)) e))).
Proof.
  intros (entries & Ho & _ & ->)%at_run_owned Hne. unfold state_of.
  destruct (advance_rejected _ _ _ _ _ e effect written Ho) as (err & -> & ->); [|done].
  intros f fs He Hf. by eapply Hne.
Qed.

(** [front_write] offers exactly the next unwritten bytes of the first
    queued frame, at most [maximum] of them, under its epoch, operation and
    effect, and changes nothing; with nothing queued it offers nothing. *)
Theorem front_write_offers (W : WriteFrame F) w maximum :
  at_run w → 1 ≤ nonzero_get maximum → WriteQueue.stable (queued w) →
  ConnectionCore.front_write maximum (state_of w) =
    (state_of w, Ok match queued w with
                    | [] => None
                    | f :: _ => Some (WriteSlice.mk (ConnectionCore.epoch (System.core w))
                        (QueuedWrite.operation f) (QueuedWrite.effect f)
                        (take (Z.to_nat (nonzero_get maximum))
                           (drop (Z.to_nat (QueuedWrite.written f))
                              (frame_bytes (QueuedWrite.frame f)))))
                    end).
Proof. intros (entries & Ho & _ & ->)%at_run_owned. by apply (front_write_spec limits entries _ _ _ maximum Ho). Qed.

(** A frame whose byte view changed its length after it was accepted is
    never offered: the core fails closed with both lengths, and every later
    call reports that. *)
Theorem front_write_fails_closed (W : WriteFrame F) w maximum f rest :
  at_run w → queued w = f :: rest →
  Z.of_nat (length (frame_bytes (QueuedWrite.frame f))) ≠
    FrameMeasure.wire_bytes (QueuedWrite.measure f) →
  let invariant := ConnectionCoreInvariant.FrameContractViolation
    (FrameContractViolation.WireLengthChanged (FrameMeasure.wire_bytes (QueuedWrite.measure f))
       (Z.of_nat (length (frame_bytes (QueuedWrite.frame f))))) in
  let '(s', r) := ConnectionCore.front_write maximum (state_of w) in
  r = Err (ConnectionCoreError.Invariant invariant) ∧
  ConnectionCore.front_write maximum s' = (s', Err (ConnectionCoreError.Poisoned invariant)) ∧
  s'.1 = ConnectionCore.set_poisoned (System.core w) (Some invariant) ∧ s'.2 = System.heap w.
Proof.
  intros (entries & Ho & _ & Hq)%at_run_owned Hfr Hne. rewrite Hq in Hfr.
  unfold state_of. by rewrite (front_write_violation _ _ _ _ _ maximum _ _ Ho Hfr Hne).
Qed.

(** The bytes on the wire are those of the accepted frames, in the order of
    acceptance: whatever the slice bound and the capacity of each of the
    transport's rounds, what it sent followed by what the queue still owes is
    what the queue owed before, no byte twice, skipped or out of order; and
    as many productive rounds as there are bytes and frames empty the queue. *)
Theorem writer_sends_in_order (W : WriteFrame F) w (schedule : list (NonZeroUsize * Z)) :
  at_run w → WriteQueue.stable (queued w) →
  Forall (λ r, 1 ≤ nonzero_get r.1 ∧ 0 ≤ r.2) schedule →
  let '(queue, sent) := WriteQueue.drive schedule (ConnectionCore.writes (System.core w)) in
  WriteQueue.unsent (queued w) = sent ++ WriteQueue.unsent (WriteQueue.frames queue) ∧
  (Forall (λ r, 1 ≤ r.2) schedule →
   (length (WriteQueue.unsent (queued w)) + length (queued w) ≤ length schedule)%nat →
   WriteQueue.frames queue = [] ∧ sent = WriteQueue.unsent (queued w)).
Proof.
  intros (entries & Ho & _)%at_run_owned Hst Hs.
  pose proof (WriteQueue.drive_spec schedule (ConnectionCore.writes (System.core w))
    (wr_wf _ _ _ _ (ow_writer _ _ _ _ Ho)) Hst Hs) as Hd. fold (queued w) in Hd.
  destruct (WriteQueue.drive _ _) as [queue sent]. destruct Hd as (_ & _ & Hun & Hdone).
  split; [done|]. intros Hc Hlen. specialize (Hdone Hc Hlen). split; [done|].
  rewrite Hun, Hdone. unfold WriteQueue.unsent. simpl. by rewrite app_nil_r.
Qed.

(** A snapshot tells the truth: it counts every accepted operation once,
    as active or as a terminal slot, and its owned operations, permits, keys
    and write frames are those that exist. *)
Theorem snapshot_counts w :
  at_run w →
  let s := ConnectionCore.snapshot (System.core w) (System.heap w) in
  (ConnectionSnapshot.active_operations s + ConnectionSnapshot.terminal_slots s =
     length (pending w))%nat ∧
  ConnectionSnapshot.active_operations s = length (unfinished w) ∧
  ConnectionSnapshot.reserved_permits s = Z.of_nat (length (System.permits w)) ∧
  ConnectionSnapshot.owned_operations s =
    Z.of_nat (length (pending w)) + ConnectionSnapshot.reserved_permits s ∧
  ConnectionSnapshot.active_match_keys s = ConnectionSnapshot.owned_operations s ∧
  ConnectionSnapshot.buffered_write_frames s =
    Z.of_nat (length (queued w)) + ConnectionSnapshot.reserved_permits s.
Proof.
  intros Hr. destruct (at_run_owned _ Hr) as (entries & Ho & Hp & Hq).
  destruct (ledger_counts _ _ _ Ho) as (H1 & H2 & H3 & _).
  rewrite Hq. split; [apply OrderedVerified.active_terminal_len|].
  split.
  { unfold unfinished, pending. rewrite length_fmap. simpl. unfold OrderedVerified.active_len.
    f_equal. apply list_filter_iff. intros r. unfold OperationRecord.is_terminal.
    by rewrite bool_decide_eq_false. }
  destruct Ho as [[[] _ _ _] _ _ _]. cbn [fst snd] in *.
  destruct (ReservationLedger.accounts_elems_length _ _ pol_accounts0) as [Hlen _].
  destruct pol_accounts0 as [_ _ Hops _ _ _ _ (_ & (_ & Hcount & _) & _) _ _ _ _ _ _ _ _].
  simpl. change (Heap.borrow (System.heap w) _) with (ledger_of w) in *.
  rewrite Hp, length_fmap. split_and!; lia.
Qed.

End calls.

(** ** Poisoned cores *)

Section poisoned.
Context {Cal : Calandria} {BB : ByteBudgetLib} {Build : BuildConfig} {F R : Type}.

(** A poisoned core refuses everything: whatever state it is in, each
    method fails with the latched invariant and changes nothing, and a permit
    and its frame are given back. *)
Theorem poisoned_refuses (W : WriteFrame F) (self : ConnectionCore.t F) (heap : Heap.t)
    (source : ConnectionCoreInvariant.t) :
  ConnectionCore.poisoned self = Some source →
  ReservationLedger.poisoned (ConnectionCore.ledger_of self heap) = false →
  let s := (self, heap) in
  let refused := ConnectionCoreError.Poisoned source in
  (∀ input, ConnectionCore.apply input s = (s, Err refused)) ∧
  (∀ reply : InboundReply.t R, ConnectionCore.apply_reply reply s = (s, Err refused)) ∧
  (∀ e effect n, ConnectionCore.advance_write e effect n s = (s, Err refused)) ∧
  (∀ maximum, ConnectionCore.front_write maximum s = (s, Err refused)) ∧
  (∀ now options, ConnectionCore.reserve now options s = (s, Err ReserveError.OwnerPoisoned)) ∧
  (∀ p (frame : F), ConnectionCore.commit p frame s =
     (s, Err (FrameCommitError.new (FrameCommitFailure.Policy CommitErrorKind.OwnerPoisoned)
        p frame))).
Proof.
  intros Hp Hl s refused.
  assert (ConnectionCore.ensure_healthy s = (s, Err refused)) as Hh
    by (unfold ConnectionCore.ensure_healthy, s; by rewrite Hl, Hp).
  split_and!.
  - intros input. by apply ste_bind_err.
  - intros reply. by apply ste_bind_err.
  - intros e effect n. by apply ste_bind_err.
  - intros maximum. unfold s, ConnectionCore.front_write. by rewrite Hp.
  - intros now options. unfold ConnectionCore.reserve, ConnectionCore.check_owner.
    by rewrite (ste_bind_err _ _ _ _ _ Hh).
  - intros p frame. unfold ConnectionCore.commit, ConnectionCore.check_owner.
    by rewrite (ste_bind_err _ _ _ _ _ Hh).
Qed.

End poisoned.
End Calls.

(** ** Instances *)

Module CallWitnesses.
Import Sample.

(** Every frame shows what was measured, decided. *)
Lemma stable_b_sound {W : WriteFrame frame} (l : list (QueuedWrite.t frame)) :
  forallb (λ f, Z.of_nat (length (frame_bytes (QueuedWrite.frame f))) =?
    FrameMeasure.wire_bytes (QueuedWrite.measure f)) l = true → WriteQueue.stable l.
Proof.
  rewrite forallb_forall. intros H. apply Forall_forall. intros f Hf%list_elem_of_In.
  by apply Z.eqb_eq, H.
Qed.

(** The sample run, up to the permit that is not committed yet. *)
Definition granted : world :=
  run init [ System.Apply (ConnectionInput.OpenAdmission epoch);
             System.Reserve (1 : Moment) regular ].

Lemma granted_reachable : System.reachable (R := frame) init granted.
Proof. apply run_reachable; [constructor|]. by vm_compute. Qed.

(** The first frame is written and its reply awaited. *)
Definition awaiting_reply : world :=
  run busy [ System.AdvanceWrite epoch (EffectId.new 0) 1 ].

Lemma awaiting_reply_reachable : System.reachable (R := frame) init awaiting_reply.
Proof. apply run_reachable; [apply busy_reachable|]. by vm_compute. Qed.

Lemma reserve_decides_witness :
  (ConnectionCore.reserve (1 : Moment) regular (System.core busy, System.heap busy)).2 =
    Err ReserveError.OperationCapacity.
Proof.
  pose proof (Calls.reserve_decides (EndpointId.new 0) (LaneId.new 0) (ConnectionId.new 0) epoch
    limits seeds ledger heap limits_are_valid ltac:(evaluate) ltac:(evaluate) busy
    (1 : Moment) regular busy_reachable) as Hr.
  assert (Calls.refusal limits busy (1 : Moment) regular = Some ReserveError.OperationCapacity)
    as Hc by (by vm_compute).
  rewrite Hc in Hr. unfold Calls.state_of in Hr. destruct (ConnectionCore.reserve _ _ _) as [[s h] r].
  exact (proj1 Hr).
Defined.

Lemma dropped_permit_restores_witness :
  match ConnectionCore.reserve (1 : Moment) regular (System.core granted, System.heap granted) with
  | (_, Err _) => False
  | (s, h, Ok p) =>
      ReservationLedger.operations (ConnectionCore.ledger_of s (OperationPermit.drop p h).2) = 1
  end.
Proof.
  pose proof (Calls.dropped_permit_restores (EndpointId.new 0) (LaneId.new 0) (ConnectionId.new 0)
    epoch limits seeds ledger heap limits_are_valid ltac:(evaluate) ltac:(evaluate) granted
    (1 : Moment) regular granted_reachable) as Hr.
  assert (is_ok (ConnectionCore.reserve (1 : Moment) regular
    (System.core granted, System.heap granted)).2 = true) as Hok by (by vm_compute).
  assert (ReservationLedger.operations (Runs.ledger_of granted) = 1) as Hone by (by vm_compute).
  unfold Calls.state_of in Hr.
  destruct (ConnectionCore.reserve _ _ _) as [[s h] [p|e]]; [|done].
  rewrite (proj1 Hr). exact Hone.
Defined.

Lemma commit_decides_witness :
  match System.permits granted with
  | p :: _ => CoreAdmission.commit_decision (Calls.machine granted) p hello = None ∧
      length (WriteQueue.frames (ConnectionCore.writes
        (ConnectionCore.commit p hello (System.core granted, System.heap granted)).1.1)) = 1%nat
  | [] => False
  end.
Proof.
  pose proof (λ p (Hi : System.permits granted !! 0%nat = Some p), Calls.commit_decides (EndpointId.new 0) (LaneId.new 0) (ConnectionId.new 0)
    epoch limits seeds ledger heap limits_are_valid ltac:(evaluate) ltac:(evaluate)
    frame_view granted 0 p hello granted_reachable Hi ltac:(evaluate)) as Hc.
  unfold Calls.state_of in Hc.
  assert (length (System.permits granted) = 1%nat) as Hlen by (by vm_compute).
  assert (length (Runs.queued granted) = 0%nat) as Hq by (by vm_compute).
  assert (forallb (λ p, match CoreAdmission.commit_decision (Calls.machine granted) p hello with
    | None => true | Some _ => false end) (System.permits granted) = true) as Hd by (by vm_compute).
  destruct (System.permits granted) as [|p ps] eqn:Hp; [done|].
  specialize (Hc p eq_refl).
  assert (CoreAdmission.commit_decision (Calls.machine granted) p hello = None) as Hn.
  { clear Hc. cbn [forallb] in Hd. apply andb_true_iff in Hd as [Hd _].
    destruct (CoreAdmission.commit_decision (Calls.machine granted) p hello);
      [discriminate Hd|reflexivity]. }
  rewrite Hn in Hc. split; [exact Hn|].
  destruct (ConnectionCore.commit _ _ _) as [[s h] r]. destruct Hc as (_ & _ & Hf).
  cbn [fst]. by rewrite Hf, length_app, Hq.
Defined.

(** A permit of another machine. *)
Definition foreign : OperationPermit.t :=
  OperationPermit.mk 2%positive epoch (OperationId.new 0) (EffectId.new 0) (10 : Deadline)
    AdmissionClass.Regular CompletionMode.ReplyExpected
    (Reservation.mk (u64_of 0) (u64_of 8) (MatchKey.new 5)) true.

Lemma commit_foreign_refused_witness :
  ConnectionCore.commit foreign hello (System.core busy, System.heap busy) =
    (System.core busy, System.heap busy, Err (FrameCommitError.new
       (FrameCommitFailure.Policy CommitErrorKind.ForeignPermit) foreign hello)).
Proof.
  assert (OperationPermit.ledger foreign ≠ ConnectionMachine.ledger (Calls.machine busy)) as Hl
    by (by vm_compute).
  pose proof (Calls.commit_foreign_refused (EndpointId.new 0) (LaneId.new 0) (ConnectionId.new 0)
    epoch limits seeds ledger heap limits_are_valid ltac:(evaluate) ltac:(evaluate)
    frame_view busy foreign hello busy_reachable (or_introl Hl)) as Hc.
  unfold Calls.state_of in Hc. exact Hc.
Defined.

(** The operation with a byte on the wire is cancelled: it keeps its place. *)
Lemma apply_refines_witness :
  ∃ tr, (ConnectionCore.apply (ConnectionInput.Cancel epoch (OperationId.new 0))
      (System.core busy, System.heap busy)).2 = Ok tr ∧
    ConnectionTransition.cancel_outcome tr =
      Some (CancelOutcome.ObservationCancelled Delivery.PossiblySent) ∧
    History.published_of (ConnectionTransition.effects tr) =
      [(OperationId.new 0, Some Delivery.PossiblySent)].
Proof.
  destruct (Calls.apply_refines (EndpointId.new 0) (LaneId.new 0) (ConnectionId.new 0) epoch
    limits seeds ledger heap limits_are_valid ltac:(evaluate) ltac:(evaluate) busy
    (ConnectionInput.Cancel epoch (OperationId.new 0)) busy_reachable) as [Hr _].
  eexists. split; [exact Hr|]. vm_compute. split; reflexivity.
Defined.

Lemma apply_reply_refines_witness :
  ∃ tr, (ConnectionCore.apply_reply (InboundReply.new epoch (MatchKey.new 5) hello)
      (System.core awaiting_reply, System.heap awaiting_reply)).2 = Ok tr ∧
    ConnectionTransition.disposition tr = InputDisposition.Applied ∧
    History.timers_of (ConnectionTransition.effects tr) = [OperationId.new 0] ∧
    History.published_of (ConnectionTransition.effects tr) = [(OperationId.new 0, None)].
Proof.
  destruct (Calls.apply_reply_refines (EndpointId.new 0) (LaneId.new 0) (ConnectionId.new 0)
    epoch limits seeds ledger heap limits_are_valid ltac:(evaluate) ltac:(evaluate)
    awaiting_reply (InboundReply.new epoch (MatchKey.new 5) hello) awaiting_reply_reachable)
    as [Hr _].
  eexists. split; [exact Hr|]. vm_compute. split_and!; reflexivity.
Defined.

Definition front : QueuedWrite.t frame :=
  hd (QueuedWrite.mk (OperationId.new 0) (EffectId.new 0) [] (FrameMeasure.capture hello) 0 false)
    (Runs.queued busy).

(** The front frame of [busy] with a report of [n] more bytes. *)
Local Notation report n :=
  (ConnectionCore.advance_write (ConnectionCore.epoch (System.core busy)) (QueuedWrite.effect front)
    n (System.core busy, System.heap busy)) (only parsing).

(** One byte is left of it. A report of none keeps it, a report of one takes it
    off. *)
Lemma advance_write_refines_witness :
  (∃ tr, (report 1).2 = Ok tr ∧ ConnectionTransition.disposition tr = InputDisposition.Applied) ∧
  (∃ f, WriteQueue.frames (ConnectionCore.writes (report 0).1.1) = f :: tl (Runs.queued busy)) ∧
  WriteQueue.frames (ConnectionCore.writes (report 1).1.1) = tl (Runs.queued busy).
Proof.
  pose proof (λ n, Calls.advance_write_refines (EndpointId.new 0) (LaneId.new 0)
    (ConnectionId.new 0) epoch limits seeds ledger heap limits_are_valid ltac:(evaluate)
    ltac:(evaluate) busy front (tl (Runs.queued busy)) n busy_reachable ltac:(reflexivity)) as Hr.
  destruct (Hr 0 ltac:(evaluate)) as [_ Hnone]. destruct (Hr 1 ltac:(evaluate)) as [[Hrun _] Hone].
  assert (∀ n, (n <? FrameMeasure.wire_bytes (QueuedWrite.measure front) -
    QueuedWrite.written front) = (n <? 1)) as Hleft by (intros n; reflexivity).
  rewrite Hleft in Hnone, Hone. cbn [Z.ltb Z.compare] in Hnone, Hone.
  split; [eexists; split; [exact Hrun|vm_compute; reflexivity]|].
  split; [eexists; exact Hnone|exact Hone].
Defined.

Lemma ignored_changes_nothing_witness :
  ∃ out tr, ConnectionCore.apply (ConnectionInput.BeginDrain (ConnectionEpoch.new 7))
      (System.core busy, System.heap busy) = (out, Ok tr) ∧
    (Refinement.takes (ConnectionTransition.disposition tr) ∨
     out = (System.core busy, System.heap busy) ∧ ConnectionTransition.effects tr = []).
Proof.
  exact (Calls.ignored_changes_nothing (EndpointId.new 0) (LaneId.new 0) (ConnectionId.new 0)
    epoch limits seeds ledger heap limits_are_valid ltac:(evaluate) ltac:(evaluate) busy
    (inl (ConnectionInput.BeginDrain (ConnectionEpoch.new 7))) busy_reachable).
Defined.

Lemma advance_write_rejects_witness :
  ∃ source, ConnectionCore.advance_write epoch (EffectId.new 1) 1
      (System.core busy, System.heap busy) =
    (System.core busy, System.heap busy, Err (ConnectionCoreError.Write source)).
Proof.
  assert (∀ f rest, Runs.queued busy = f :: rest → QueuedWrite.effect f = EffectId.new 0) as Hq.
  { assert (QueuedWrite.effect front = EffectId.new 0) as Hf by (vm_compute; reflexivity).
    intros f rest Heq. unfold front in Hf. by rewrite Heq in Hf. }
  eexists. apply (Calls.advance_write_rejects (EndpointId.new 0) (LaneId.new 0)
    (ConnectionId.new 0) epoch limits seeds ledger heap limits_are_valid ltac:(evaluate)
    ltac:(evaluate) busy epoch (EffectId.new 1) 1 busy_reachable).
  intros _ f rest Heq. rewrite (Hq f rest Heq). discriminate.
Defined.

Lemma front_write_offers_witness :
  ∃ slice, ConnectionCore.front_write window (System.core busy, System.heap busy) =
      (System.core busy, System.heap busy, Ok slice) ∧
    WriteSlice.bytes <$> slice = Some [Byte.x69].
Proof.
  assert (∀ w : world, System.reachable (R := frame) init w → WriteQueue.stable (Runs.queued w) →
    ∃ slice, ConnectionCore.front_write window (System.core w, System.heap w) =
        (System.core w, System.heap w, Ok slice) ∧
      WriteSlice.bytes <$> slice = match Runs.queued w with
        | [] => None
        | f :: _ => Some (take 1 (drop (Z.to_nat (QueuedWrite.written f)) (QueuedWrite.frame f)))
        end) as Hw.
  { intros w Hr Hs. eexists. split.
    - exact (Calls.front_write_offers (EndpointId.new 0) (LaneId.new 0) (ConnectionId.new 0)
        epoch limits seeds ledger heap limits_are_valid ltac:(clear Hr Hs; evaluate)
        ltac:(clear Hr Hs; evaluate) frame_view w window Hr ltac:(clear Hr Hs; evaluate) Hs).
    - by destruct (Runs.queued w). }
  destruct (Hw busy busy_reachable) as (slice & Hf & Hb);
    [apply stable_b_sound; vm_compute; reflexivity|].
  exists slice. split; [exact Hf|]. rewrite Hb. clear. vm_compute. reflexivity.
Defined.

(** The same frames, shown by a view that lost their last byte. *)
Definition shrunk_view : WriteFrame frame :=
  {| frame_bytes := λ f, tail f; frame_retained_bytes := λ f, u64_of (Z.of_nat (length f)) |}.

Lemma front_write_fails_closed_witness :
  (ConnectionCore.front_write (W := shrunk_view) window (System.core busy, System.heap busy)).2 =
    Err (ConnectionCoreError.Invariant (ConnectionCoreInvariant.FrameContractViolation
      (FrameContractViolation.WireLengthChanged 2 1))).
Proof.
  pose proof (Calls.front_write_fails_closed (EndpointId.new 0) (LaneId.new 0) (ConnectionId.new 0)
    epoch limits seeds ledger heap limits_are_valid ltac:(evaluate) ltac:(evaluate)
    shrunk_view busy window front (tl (Runs.queued busy)) busy_reachable ltac:(reflexivity)
    ltac:(evaluate)) as Hf.
  unfold Calls.state_of in Hf.
  destruct (ConnectionCore.front_write _ _) as [s r]. exact (proj1 Hf).
Defined.

(** Two rounds of one byte, then one of two. *)
Definition rounds : list (NonZeroUsize * Z) :=
  [(window, 1); (window, 1); (mk_nonzero 2, 1); (window, 1); (window, 1)].

Lemma writer_sends_in_order_witness :
  (WriteQueue.drive rounds (ConnectionCore.writes (System.core busy))).2 =
    [Byte.x69; Byte.x68; Byte.x69].
Proof.
  pose proof (Calls.writer_sends_in_order (EndpointId.new 0) (LaneId.new 0) (ConnectionId.new 0)
    epoch limits seeds ledger heap limits_are_valid ltac:(evaluate) ltac:(evaluate)
    frame_view busy rounds busy_reachable ltac:(apply stable_b_sound; vm_compute; reflexivity)
    ltac:(repeat constructor; by vm_compute)) as Hw.
  assert (WriteQueue.unsent (Runs.queued busy) = [Byte.x69; Byte.x68; Byte.x69] ∧
    length (Runs.queued busy) = 2%nat) as [Hu Hl] by (vm_compute; split; reflexivity).
  rewrite Hu, Hl in Hw. destruct (WriteQueue.drive _ _) as [q sent].
  exact (proj2 (proj2 Hw ltac:(repeat constructor; by vm_compute) ltac:(simpl; lia))).
Defined.

Lemma snapshot_counts_witness :
  ConnectionSnapshot.owned_operations
    (ConnectionCore.snapshot (System.core busy) (System.heap busy)) = 2.
Proof.
  destruct (Calls.snapshot_counts (EndpointId.new 0) (LaneId.new 0) (ConnectionId.new 0)
    epoch limits seeds ledger heap limits_are_valid ltac:(evaluate) ltac:(evaluate) busy
    busy_reachable) as (_ & _ & Hp & Ho & _).
  rewrite Ho, Hp. vm_compute. reflexivity.
Defined.

(** The core after its frames changed under it. *)
Definition poisoned_core : ConnectionCore.t frame :=
  ConnectionCore.set_poisoned (System.core busy) (Some ConnectionCoreInvariant.WriteAccounting).

Lemma poisoned_refuses_witness :
  ConnectionCore.apply (ConnectionInput.BeginDrain epoch) (poisoned_core, System.heap busy) =
    (poisoned_core, System.heap busy,
     Err (ConnectionCoreError.Poisoned ConnectionCoreInvariant.WriteAccounting)).
Proof.
  exact (proj1 (Calls.poisoned_refuses (R := frame) frame_view poisoned_core (System.heap busy)
    ConnectionCoreInvariant.WriteAccounting ltac:(reflexivity) ltac:(evaluate))
    (ConnectionInput.BeginDrain epoch)).
Defined.

End CallWitnesses.
