(* ===== verification/ComponentTheorems.v ===== *)
(** * What each component promises on its own

    Theorems about the parts of the core that their clients rely on: the
    match-key table, the match-key cycle, identity generation, the ledger's
    releases, the writer, the recovery journal, the ownership audit and the
    bounded decoder driver. *)
From Stdlib Require Import ZArith Lia.
From stdpp Require Import prelude.
From S2P Require Import Prelude External Identity Limits Admission KeySet Ledger Permit Operation.
From S2P Require Import Matching Write Framing Machine Journal Core Lifecycle System Sample RunTheorems.

Module KeyTable.

(** A call on the table of active match keys, and its answer. *)
Inductive call : Type :=
  | Insert (key : MatchKey.t)
  | Remove (key : MatchKey.t)
  | Contains (key : MatchKey.t).

Definition table_call (s : ActiveKeySet.t) (c : call) : ActiveKeySet.t * bool :=
  match c with
  | Insert k => ActiveKeySet.insert s k
  | Remove k => ActiveKeySet.remove s k
  | Contains k => (s, ActiveKeySet.contains s k)
  end.

(** The same call on a plain list of distinct keys. *)
Definition list_call (s : list MatchKey.t) (c : call) : list MatchKey.t * bool :=
  match c with
  | Insert k => if bool_decide (k ∈ s) then (s, false) else (k :: s, true)
  | Remove k => if bool_decide (k ∈ s) then (filter (λ x, x ≠ k) s, true) else (s, false)
  | Contains k => (s, bool_decide (k ∈ s))
  end.

Fixpoint answers {S : Type} (f : S → call → S * bool) (s : S) (cs : list call) : list bool :=
  match cs with [] => [] | c :: cs => (f s c).2 :: answers f (f s c).1 cs end.

(** No call inserts beyond the maximum the table was made for. *)
Fixpoint fits (max_keys : Z) (s : list MatchKey.t) (cs : list call) : bool :=
  match cs with
  | [] => true
  | c :: cs =>
      (Z.of_nat (length (list_call s c).1) <=? max_keys) && fits max_keys (list_call s c).1 cs
  end.

Lemma list_remove_perm (s e : list MatchKey.t) (k : MatchKey.t) :
  NoDup (k :: e) → s ≡ₚ k :: e → filter (λ x, x ≠ k) s ≡ₚ e.
Proof.
  intros [Hk _]%NoDup_cons ->. rewrite filter_cons_False by naive_solver.
  clear s. induction e as [|x e IH]; [done|]. apply not_elem_of_cons in Hk as [Hx Hk].
  rewrite filter_cons_True by done. by rewrite IH.
Qed.

(** Each call keeps the table a set of the same keys. *)
Lemma call_refines (max_keys : Z) (t : ActiveKeySet.t) (s : list MatchKey.t) (c : call) :
  ActiveKeySet.wf t → ActiveKeySet.elems t ≡ₚ s → 1 ≤ max_keys →
  2 * max_keys ≤ Z.of_nat (length (ActiveKeySet.slots t)) → Z.of_nat (length s) ≤ max_keys →
  (table_call t c).2 = (list_call s c).2 ∧ ActiveKeySet.wf (table_call t c).1 ∧
  length (ActiveKeySet.slots (table_call t c).1) = length (ActiveKeySet.slots t) ∧
  ActiveKeySet.elems (table_call t c).1 ≡ₚ (list_call s c).1.
Proof.
  intros Hwf Hs Hpos Hroom Hlen.
  assert (length (ActiveKeySet.elems t) < length (ActiveKeySet.slots t))%nat as Hlt
    by (rewrite Hs; lia).
  assert (∀ k, bool_decide (k ∈ s) = bool_decide (k ∈ ActiveKeySet.elems t)) as Hmem
    by (intros k; apply bool_decide_ext; by rewrite Hs).
  destruct c as [k|k|k]; simpl; rewrite Hmem.
  - case_bool_decide as Hk.
    + by rewrite ActiveKeySet.insert_present.
    + destruct (ActiveKeySet.insert_spec t k Hwf Hlt Hk) as (t' & -> & ? & ? & He). simpl.
      split_and!; try done. by rewrite He, Hs.
  - case_bool_decide as Hk.
    + destruct (ActiveKeySet.remove_spec t k Hwf Hlt Hk) as (t' & -> & ? & ? & He). simpl.
      split_and!; try done. symmetry. apply list_remove_perm; [|by rewrite <- Hs].
      rewrite <- He. by destruct Hwf as (_ & (_ & _ & ?) & _).
    + by rewrite ActiveKeySet.remove_absent.
  - split_and!; try done. by apply ActiveKeySet.contains_spec.
Qed.

(** C38: the open-addressing table of active match keys is a set: for every
    sequence of insertions, removals and lookups that stays within the
    maximum it was made for, it answers as a plain list of distinct keys
    does; probing, wrap-around and the re-insertion after a removal never
    lose, duplicate or invent a key. *)
Theorem key_table_refines_set (max_keys : Z) (cs : list call) :
  1 ≤ max_keys ≤ 2 ^ 62 → fits max_keys [] cs = true →
  answers table_call (ActiveKeySet.new max_keys) cs = answers list_call [] cs.
Proof.
  intros Hmax. destruct (ActiveKeySet.key_set_new_spec max_keys Hmax) as (Hwf & He & _ & Hroom).
  assert (ActiveKeySet.elems (ActiveKeySet.new max_keys) ≡ₚ []) as Hs by (by rewrite He).
  assert (Z.of_nat (length (@nil MatchKey.t)) ≤ max_keys) as Hlen by (simpl; lia).
  revert Hwf Hroom Hs Hlen. generalize (ActiveKeySet.new max_keys) (@nil MatchKey.t).
  clear He. induction cs as [|c cs IH]; intros t s Hwf Hroom Hs Hlen Hfits; [done|].
  cbn [fits] in Hfits. apply andb_true_iff in Hfits as [Hle%Z.leb_le Hfits].
  destruct (call_refines max_keys t s c) as (Ha & Hwf' & Hsl & Hs'); try done; [lia|].
  cbn [answers]. f_equal; [done|]. apply IH; try done. by rewrite Hsl.
Qed.

Definition key (n : Z) : MatchKey.t := MatchKey.new n.

Lemma key_table_refines_set_witness :
  answers table_call (ActiveKeySet.new 2)
    [Insert (key 1); Insert (key 5); Insert (key 1); Remove (key 1); Contains (key 5);
     Contains (key 1); Insert (key 9); Remove (key 5); Contains (key 9)] =
  [true; true; false; true; true; false; true; true; true].
Proof.
  exact (key_table_refines_set 2
    [Insert (key 1); Insert (key 5); Insert (key 1); Remove (key 1); Contains (key 5);
     Contains (key 1); Insert (key 9); Remove (key 5); Contains (key 9)]
    ltac:(lia) ltac:(by vm_compute)).
Defined.

(** The match-key cycle visits every key of its space before it repeats
    one: from any key of a valid space each key of it is reached in fewer
    steps than the space has keys, and that many steps lead back. *)
Theorem key_cycle_complete (space : MatchKeySpace.t) (k k' : MatchKey.t) :
  MatchKeySpace.valid space → MatchKeySpace.contains space k → MatchKeySpace.contains space k' →
  (∃ n : nat, Z.of_nat n < MatchKeySpace.capacity space ∧
     Nat.iter n (MatchKeySpace.next space) k = k') ∧
  Nat.iter (Z.to_nat (MatchKeySpace.capacity space)) (MatchKeySpace.next space) k = k.
Proof.
  intros Hv Hk Hk'. destruct (MatchKeySpace.capacity_spec space Hv) as [Hc Hc1].
  assert (∀ n j, MatchKeySpace.contains space j →
    (MatchKey.get k - MatchKey.get (MatchKeySpace.first space) + Z.of_nat n)
      `mod` MatchKeySpace.capacity space =
    MatchKey.get j - MatchKey.get (MatchKeySpace.first space) →
    Nat.iter n (MatchKeySpace.next space) k = j) as Hiter.
  { intros n j Hj Heq. pose proof (MatchKeySpace.next_iter space k n Hv Hk) as Hi.
    destruct (Nat.iter n _ _) as [a], j as [b]. simpl in *. f_equal. lia. }
  unfold MatchKeySpace.contains in *. set (a := MatchKey.get k - _) in *.
  set (b := MatchKey.get k' - MatchKey.get (MatchKeySpace.first space)).
  pose proof (Z.mod_pos_bound (b - a) (MatchKeySpace.capacity space) ltac:(lia)) as Hb.
  split.
  - exists (Z.to_nat ((b - a) `mod` MatchKeySpace.capacity space)). split; [lia|].
    apply Hiter; [done|]. rewrite Z2Nat.id by lia. rewrite Z.add_mod_idemp_r by lia.
    rewrite Z.mod_small; unfold a, b in *; lia.
  - apply Hiter; [done|]. rewrite Z2Nat.id by lia. rewrite <- Z.add_mod_idemp_r by lia.
    rewrite Z.mod_same by lia. rewrite Z.mod_small; unfold a in *; lia.
Qed.

Lemma key_cycle_complete_witness :
  ∃ n : nat, Z.of_nat n < 3 ∧
    Nat.iter n (MatchKeySpace.next (MatchKeySpace.mk (key 5) (key 7))) (key 7) = key 6.
Proof.
  exact (proj1 (key_cycle_complete (MatchKeySpace.mk (key 5) (key 7)) (key 7) (key 6)
    ltac:(by vm_compute) ltac:(by vm_compute) ltac:(by vm_compute))).
Defined.

End KeyTable.

Module Identities.

(** The identities handed out by [n] calls, as far as there are any. *)
Fixpoint taken (n : nat) (g : IdentityGenerator.t) : list (OperationId.t * EffectId.t) :=
  match n with
  | O => []
  | S n =>
      match IdentityGenerator.take g with
      | (g, Some ids) => ids :: taken n g
      | (g, None) => taken n g
      end
  end.

(** The identities from [o] and [e] on, [n] of them. *)
Definition from (o e : Z) (n : nat) : list (OperationId.t * EffectId.t) :=
  (λ i, (OperationId.new (o + Z.of_nat i), EffectId.new (e + Z.of_nat i))) <$> seq 0 n.

Lemma from_S o e n : from o e (S n) = (OperationId.new o, EffectId.new e) :: from (o + 1) (e + 1) n.
Proof.
  unfold from. cbn [seq]. rewrite fmap_cons, !Z.add_0_r. f_equal.
  rewrite <- fmap_S_seq, <- list_fmap_compose. apply list_fmap_ext. intros i x _. simpl.
  f_equal; f_equal; lia.
Qed.

Lemma taken_none n g : IdentityGenerator.available g = false → taken n g = [].
Proof.
  intros Ha. induction n as [|n IH]; [done|]. simpl. unfold IdentityGenerator.take.
  destruct g as [[o|] [e|]]; simpl in *; try done.
Qed.

Lemma taken_from n o e :
  in_u64 o → in_u64 e →
  taken n (IdentityGenerator.mk (Some o) (Some e)) =
    from o e (Nat.min n (Z.to_nat (2 ^ 64 - Z.max o e))).
Proof.
  revert o e. induction n as [|n IH]; intros o e Ho He; [done|]. unfold in_u64, U64_MAX in *.
  destruct (Z.to_nat (2 ^ 64 - Z.max o e)) as [|room] eqn:Hr; [lia|].
  rewrite <- Nat.succ_min_distr, from_S. cbn [taken IdentityGenerator.take].
  cbn [IdentityGenerator.operation IdentityGenerator.effect]. f_equal.
  unfold u64_checked_add, U64_MAX.
  destruct (Z.leb_spec (o + 1) (2 ^ 64 - 1)), (Z.leb_spec (e + 1) (2 ^ 64 - 1)).
  - rewrite IH by (unfold U64_MAX; lia). f_equal. lia.
  - rewrite taken_none by done. replace room with 0%nat by lia. by rewrite Nat.min_0_r.
  - rewrite taken_none by done. replace room with 0%nat by lia. by rewrite Nat.min_0_r.
  - rewrite taken_none by done. replace room with 0%nat by lia. by rewrite Nat.min_0_r.
Qed.

(** Identities count up from their seeds, are never handed out twice, and
    run out exactly when either domain has used its last [u64]; nothing wraps
    around. *)
Theorem identities_never_repeat (seeds : IdentitySeeds.t) (n : nat) :
  in_u64 (IdentitySeeds.operation seeds) → in_u64 (IdentitySeeds.effect seeds) →
  let ids := taken n (IdentityGenerator.new seeds) in
  let room := 2 ^ 64 - Z.max (IdentitySeeds.operation seeds) (IdentitySeeds.effect seeds) in
  length ids = Nat.min n (Z.to_nat room) ∧ NoDup ids.*1 ∧ NoDup ids.*2 ∧
  ∀ i o e, ids !! i = Some (o, e) →
    OperationId.get o = IdentitySeeds.operation seeds + Z.of_nat i ∧
    EffectId.get e = IdentitySeeds.effect seeds + Z.of_nat i ∧
    in_u64 (OperationId.get o) ∧ in_u64 (EffectId.get e).
Proof.
  intros Ho He ids room. unfold ids, IdentityGenerator.new. rewrite taken_from by done.
  fold room. unfold from. rewrite length_fmap, length_seq. split; [done|].
  split; [|split].
  - rewrite <- list_fmap_compose. apply NoDup_fmap_2; [|apply NoDup_seq].
    intros x y [= Hxy]. lia.
  - rewrite <- list_fmap_compose. apply NoDup_fmap_2; [|apply NoDup_seq].
    intros x y [= Hxy]. lia.
  - intros i o e. rewrite list_lookup_fmap_Some. intros (j & [= -> ->] & [-> Hj]%lookup_seq).
    simpl. unfold in_u64, U64_MAX, room in *. lia.
Qed.

Lemma identities_never_repeat_witness :
  NoDup (taken 3 (IdentityGenerator.new (IdentitySeeds.new (2 ^ 64 - 2) 0))).*1 ∧
  length (taken 3 (IdentityGenerator.new (IdentitySeeds.new (2 ^ 64 - 2) 0))) = 2%nat.
Proof.
  destruct (identities_never_repeat (IdentitySeeds.new (2 ^ 64 - 2) 0) 3
    ltac:(by vm_compute) ltac:(by vm_compute)) as (Hl & Hn & _).
  split; [exact Hn|exact Hl].
Defined.

End Identities.

Module Releases.
Section releases.
Context {Cal : Calandria} {Laws : CalandriaLaws Cal}.
Implicit Types (l : ReservationLedger.t).

(** The capacity counters of a ledger. *)
Definition counts l : list Z :=
  [ReservationLedger.operations l; ReservationLedger.permits l;
   rb_get (ReservationLedger.retained_bytes l); ReservationLedger.write_frames l;
   rb_get (ReservationLedger.write_retained_bytes l)].

(** What a release takes from each counter. *)
Definition share (r : Reservation.t) (write_held is_permit : bool) : list Z :=
  [1; if is_permit then 1 else 0; rb_get (Reservation.retained_bytes r);
   if write_held then 1 else 0;
   if write_held then rb_get (Reservation.write_retained_bytes r) else 0].

(** The counters less the shares, when none of them is short. *)
Definition less (l l' : list Z) (amounts : list Z) : Prop :=
  Forall2 (λ a n, n ≤ a) l amounts ∧ l' = zip_with Z.sub l amounts.

Lemma checked_sub_if (b : bool) (a n : Z) c :
  (if b then usize_checked_sub a n else Some a) = Some c →
  (if b then n else 0) ≤ Z.max a 0 ∧ c = a - (if b then n else 0).
Proof. destruct b; [rewrite usize_checked_sub_Some|intros [= <-]]; lia. Qed.

(** Releasing never wraps a counter: every release either takes exactly
    the reservation's share from each counter, none of which was short of it,
    and gives the match key back, or leaves every counter as it was and
    poisons the ledger. *)
Theorem release_never_wraps l (r : Reservation.t) (write_held is_permit : bool) :
  0 ≤ ReservationLedger.permits l → 0 ≤ ReservationLedger.write_frames l →
  let l' := ReservationLedger.release_all l r write_held is_permit in
  (ReservationLedger.poisoned l' = ReservationLedger.poisoned l ∧
   less (counts l) (counts l') (share r write_held is_permit) ∧
   ActiveKeySet.remove (ReservationLedger.active_keys l) (Reservation.match_key r) =
     (ReservationLedger.active_keys l', true)) ∨
  (ReservationLedger.poisoned l' = true ∧ counts l' = counts l).
Proof.
  intros Hp Hf l'. unfold l', ReservationLedger.release_all.
  destruct (usize_checked_sub (ReservationLedger.operations l) 1) as [o|] eqn:Eo; [|by right].
  destruct (rb_checked_sub (ReservationLedger.retained_bytes l) _) as [b|] eqn:Eb; [|by right].
  destruct (if is_permit then _ else _) as [p|] eqn:Ep; [|by right].
  destruct (if write_held then usize_checked_sub _ _ else _) as [f|] eqn:Ef; [|by right].
  destruct (if write_held then rb_checked_sub _ _ else _) as [wr|] eqn:Ew; [|by right].
  destruct (ActiveKeySet.remove _ _) as [keys [|]] eqn:Ek; [left|by right].
  apply usize_checked_sub_Some in Eo as [Ho ->]. apply rb_checked_sub_Some in Eb as Hb'.
  pose proof (rb_get_nonneg b) as Hb.
  apply checked_sub_if in Ep as [Hp1 ->], Ef as [Hf1 ->].
  split; [done|]. split; [|done]. unfold less, counts, share. simpl. rewrite Hb'.
  assert ((if write_held then rb_get (Reservation.write_retained_bytes r) else 0) ≤
      rb_get (ReservationLedger.write_retained_bytes l) ∧
    rb_get wr = rb_get (ReservationLedger.write_retained_bytes l) -
      (if write_held then rb_get (Reservation.write_retained_bytes r) else 0)) as [Hw ->].
  { destruct write_held.
    - apply rb_checked_sub_Some in Ew. pose proof (rb_get_nonneg wr). lia.
    - injection Ew as <-. pose proof (rb_get_nonneg (ReservationLedger.write_retained_bytes l)). lia. }
  split; [|done]. repeat constructor; lia.
Qed.

End releases.
End Releases.

Module Audit.
Section audit.
Context {Cal : Calandria} {BB : ByteBudgetLib} {F : Type}.
Context {Laws : CalandriaLaws Cal} {BLaws : ByteBudgetLaws BB}.

(** The identities of the frames that the policy believes are queued. *)
Definition expected (self : ConnectionCore.t F) : list (OperationId.t * EffectId.t) :=
  (λ r, (OperationRecord.id r, OperationRecord.effect r)) <$>
    filter (λ r, OperationRecord.write_held r = true)
      (OrderedVerified.pending (ConnectionCore.matching self)).

Lemma merge_violation_iff records writes :
  ConnectionCore.merge_violation records writes = None ↔
  (λ r, (OperationRecord.id r, OperationRecord.effect r)) <$>
    filter (λ r, OperationRecord.write_held r = true) records = writes.
Proof.
  revert writes. induction records as [|r rs IH]; intros writes; simpl.
  { destruct writes as [|[]]; naive_solver. }
  rewrite filter_cons. destruct (OperationRecord.write_held r) eqn:Hw; simpl.
  2: { apply IH. }
  destruct writes as [|[op eff] ws]; [done|].
  case_bool_decide as Ho; simpl; [|naive_solver].
  case_bool_decide as He; simpl; [|naive_solver]. rewrite IH. naive_solver.
Qed.

(** C39: the ownership audit is exact, on any core at all: it passes if and
    only if the writer's budget is the memory of its queued frames and the
    frames are, in order, those the policy believes are queued; when it
    passes it changes nothing, and otherwise it poisons the core. *)
Theorem audit_exact (self : ConnectionCore.t F) (heap : Heap.t) :
  let sound :=
    zsum WriteQueue.mem_of (WriteQueue.frames (ConnectionCore.writes self)) =
      rb_get (WriteQueue.retained_bytes (ConnectionCore.writes self)) ∧
    expected self = WriteQueue.identities (ConnectionCore.writes self) in
  (sound → ConnectionCore.verify_ownership (self, heap) = (self, heap, Ok tt)) ∧
  (¬ sound → ∃ source,
     ConnectionCore.verify_ownership (self, heap) = ConnectionCore.poison source (self, heap)).
Proof.
  intros sound. unfold ConnectionCore.verify_ownership, sound, expected.
  rewrite <- merge_violation_iff, WriteQueue.accounting_is_valid_spec, <- Z.eqb_eq.
  unfold ConnectionCore.ownership_merge_violation, OrderedVerified.records.
  destruct (_ =? _); simpl.
  - destruct (ConnectionCore.merge_violation _ _); [|naive_solver]. split; [naive_solver|].
    intros _. by eexists.
  - split; [naive_solver|]. intros _. by eexists.
Qed.

End audit.
End Audit.

Module Journals.
Section journals.
Context {Cal : Calandria} {F : Type}.
Implicit Types (j : RecoveryJournal.t F).

(** A call on the journal of a core. *)
Inductive call : Type :=
  | Begin (records : list OperationRecord.t)
  | BeginOperation (record : OperationRecord.t) (wire_index : nat)
  | BeginWrite
  | RetainOperation (record : OperationRecord.t) (wire_index : nat)
  | TakeOperations
  | TakeWrites
  | Clear.

Definition run j (c : call) : RecoveryJournal.t F :=
  match c with
  | Begin records => (RecoveryJournal.begin j records).1
  | BeginOperation record i => (RecoveryJournal.begin_operation j record i).1
  | BeginWrite => RecoveryJournal.begin_write_progress j
  | RetainOperation record i => (RecoveryJournal.retain_operation j record i).1
  | TakeOperations => (RecoveryJournal.take_operations j).1
  | TakeWrites => (RecoveryJournal.take_writes j).1
  | Clear => RecoveryJournal.clear j
  end.

Lemma run_holds j c no nw a os ws :
  RecoveryJournal.holds j no nw a os ws →
  ∃ a' os' ws', RecoveryJournal.holds (run j c) no nw a' os' ws'.
Proof.
  intros Hh. destruct c; simpl.
  - destruct (decide (length records ≤ no)%nat).
    + destruct (RecoveryJournal.begin_holds _ _ _ _ _ _ records Hh) as (j' & -> & ?); [done|].
      by eexists _, _, _.
    + destruct (RecoveryJournal.begin_full _ _ _ _ _ _ records Hh) as (j' & -> & ?); [lia|].
      by eexists _, _, _.
  - unfold RecoveryJournal.begin_operation.
    apply RecoveryJournal.clear_holds, (RecoveryJournal.set_armed_holds _ _ _ _ true) in Hh.
    pose proof (RecoveryJournal.retain_operation_holds _ _ _ _ _ _ record wire_index Hh) as Hr.
    case_match; [destruct Hr as (j' & -> & ?)|rewrite Hr]; by eexists _, _, _.
  - eexists _, _, _. by eapply RecoveryJournal.begin_write_progress_holds.
  - pose proof (RecoveryJournal.retain_operation_holds _ _ _ _ _ _ record wire_index Hh) as Hr.
    case_match; [destruct Hr as (j' & -> & ?)|rewrite Hr]; by eexists _, _, _.
  - eexists _, _, _. by apply RecoveryJournal.take_operations_holds in Hh as [_ ?].
  - eexists _, _, _. by apply RecoveryJournal.take_writes_holds in Hh as [_ ?].
  - eexists _, _, _. by eapply RecoveryJournal.clear_holds.
Qed.

Lemma runs_hold cs j no nw a os ws :
  RecoveryJournal.holds j no nw a os ws →
  ∃ a' os' ws', RecoveryJournal.holds (foldl run j cs) no nw a' os' ws'.
Proof.
  revert j a os ws. induction cs as [|c cs IH]; intros j a os ws Hh; [by eexists _, _, _|].
  destruct (run_holds _ c _ _ _ _ _ Hh) as (a' & os' & ws' & Hh'). simpl. by eapply IH.
Qed.

(** The recovery journal round-trips: whatever it was used for before, a
    transaction begun on it gives back exactly the records it was begun with,
    each with its place in the wire order, and nothing of an earlier one; it
    is refused exactly when the records exceed the slots, and then keeps
    nothing. *)
Theorem journal_roundtrip (max_operations max_writes : Z) (cs : list call)
    (records : list OperationRecord.t) :
  let j := foldl run (RecoveryJournal.new max_operations max_writes) cs in
  let '(j', begun) := RecoveryJournal.begin j records in
  begun = bool_decide (length records ≤ Z.to_nat max_operations)%nat ∧
  RecoveryJournal.armed j' = begun ∧
  (RecoveryJournal.take_operations j').2 =
    (if begun then imap (λ i r, JournalOperation.of_record r i) records else []) ∧
  (RecoveryJournal.take_writes j').2 = [].
Proof.
  intros j. destruct (runs_hold cs _ _ _ _ _ _ (RecoveryJournal.new_holds max_operations max_writes))
    as (a & os & ws & Hh). fold j in Hh.
  case_bool_decide as Hle.
  - destruct (RecoveryJournal.begin_holds _ _ _ _ _ _ records Hh Hle) as (j' & -> & Hh').
    destruct (RecoveryJournal.take_operations_holds _ _ _ _ _ _ Hh') as [-> _].
    destruct (RecoveryJournal.take_writes_holds _ _ _ _ _ _ Hh') as [-> _]. by destruct Hh'.
  - destruct (RecoveryJournal.begin_full _ _ _ _ _ _ records Hh) as (j' & -> & Hh'); [lia|].
    destruct (RecoveryJournal.take_operations_holds _ _ _ _ _ _ Hh') as [-> _].
    destruct (RecoveryJournal.take_writes_holds _ _ _ _ _ _ Hh') as [-> _]. by destruct Hh'.
Qed.

End journals.
End Journals.

Module Drivers.
Section drivers.
Context {Cal : Calandria} {Laws : CalandriaLaws Cal} {D : Type} {Dec : FrameDecoder D}.
Implicit Types (self : FrameDriver.t D).

Lemma run_limit self c :
  FrameDriver.max_retained_bytes (FrameDriver.run self c) = FrameDriver.max_retained_bytes self.
Proof.
  destruct c; simpl; unfold FrameDriver.feed, FrameDriver.next_frame,
    FrameDriver.validate_retained; by repeat case_match; simplify_eq/=.
Qed.

Lemma runs_bounded cs self :
  FrameDriver.bounded self →
  FrameDriver.bounded (foldl FrameDriver.run self cs) ∧
  FrameDriver.max_retained_bytes (foldl FrameDriver.run self cs) =
    FrameDriver.max_retained_bytes self.
Proof.
  revert self. induction cs as [|c cs IH]; intros self Hb; [done|]. simpl.
  destruct (IH (FrameDriver.run self c)) as [H1 H2]; [by apply FrameDriver.run_bounded|].
  split; [done|]. by rewrite H2, run_limit.
Qed.

(** Whether an error ends the driver. *)
Definition terminal {E : Type} (e : FrameDecodeError.t E) : bool :=
  match e with
  | FrameDecodeError.DecoderFailed | FrameDecodeError.Decoder _
  | FrameDecodeError.RetainedContractViolation _ _ => true
  | _ => false
  end.

(** Bounded decoding, whatever the protocol's decoder does: along every
    sequence of calls a driver that has not failed holds its decoder within
    the bound it was made with; bytes that might exceed it are refused before
    the decoder sees them; and the first malformation or broken bound is
    final: from then on nothing reaches the decoder. *)
Theorem driver_bounded (d : D) (limit : RetainedBytes) self (cs : list FrameDriver.call)
    (bytes : list Byte.byte) :
  FrameDriver.new d limit = Ok self →
  let s := foldl FrameDriver.run self cs in
  (FrameDriver.failed s = false → rb_get (FrameDriver.retained_bytes s) ≤ rb_get limit) ∧
  (∀ e, (FrameDriver.feed s bytes).2 = Err e →
     if terminal e then FrameDriver.failed (FrameDriver.feed s bytes).1 = true
     else (FrameDriver.feed s bytes).1 = s ∧ FrameDriver.failed s = false) ∧
  (∀ e, (FrameDriver.next_frame s).2 = Err e →
     FrameDriver.failed (FrameDriver.next_frame s).1 = true) ∧
  (FrameDriver.failed s = true →
     FrameDriver.feed s bytes = (s, Err FrameDecodeError.DecoderFailed) ∧
     FrameDriver.next_frame s = (s, Err FrameDecodeError.DecoderFailed)).
Proof.
  intros Hnew s.
  assert (FrameDriver.bounded self ∧ FrameDriver.max_retained_bytes self = limit) as [Hb <-].
  { revert Hnew. unfold FrameDriver.new. rewrite rb_gtb_spec.
    destruct (Z.ltb_spec (rb_get limit) (rb_get (decoder_retained_bytes d))) as [|Hle]; [done|].
    intros [= <-]. split; [|done]. intros _. exact Hle. }
  destruct (runs_bounded cs self Hb) as [Hbs Hlim]. fold s in Hbs, Hlim.
  split; [rewrite <- Hlim; exact Hbs|]. clearbody s. clear Hnew Hb Hbs Hlim. split; [|split].
  - intros e. unfold FrameDriver.feed, FrameDriver.validate_retained.
    repeat case_match; simplify_eq/=; try done; intros [= <-]; by repeat split.
  - intros e. unfold FrameDriver.next_frame, FrameDriver.validate_retained.
    repeat case_match; simplify_eq/=; done.
  - intros Hf. unfold FrameDriver.feed, FrameDriver.next_frame. by rewrite Hf.
Qed.

End drivers.
End Drivers.

Module OneWay.
Import Lifecycle.

Section one_way.
Context {Cal : Calandria} {BB : ByteBudgetLib} {Build : BuildConfig} {F R : Type}.
Implicit Types (s : ConnectionCore.state F).

(** A call on a core, by name. *)
Inductive call : Type :=
  | Reserve (now : Moment) (options : OperationOptions.t)
  | Commit (W : WriteFrame F) (permit : OperationPermit.t) (frame : F)
  | Apply (input : ConnectionInput.t)
  | ApplyReply (reply : InboundReply.t R)
  | FrontWrite (W : WriteFrame F) (maximum : NonZeroUsize)
  | AdvanceWrite (epoch : ConnectionEpoch.t) (effect : EffectId.t) (written : Z).

Definition run s (c : call) : ConnectionCore.state F :=
  match c with
  | Reserve now options => (ConnectionCore.reserve now options s).1
  | Commit W permit frame => (ConnectionCore.commit permit frame s).1
  | Apply input => (ConnectionCore.apply input s).1
  | ApplyReply reply => (ConnectionCore.apply_reply reply s).1
  | FrontWrite W maximum => (ConnectionCore.front_write maximum s).1
  | AdvanceWrite epoch effect written => (ConnectionCore.advance_write epoch effect written s).1
  end.

(** The lifecycle is one-way, from any state of a core and along any
    sequence of calls, admissible or not, that succeed or fail: endpoint,
    lane, connection, epoch and ledger never change, the phase only moves
    live, closing, closed, the gate only towards closed, a close reason is
    never replaced, and a poisoned core keeps its first source. *)
Theorem lifecycle_one_way s (cs : list call) :
  let s' := foldl run s cs in
  let m := ConnectionCore.machine s.1 in
  let m' := ConnectionCore.machine s'.1 in
  Lifecycle.identity m' = Lifecycle.identity m ∧
  (Lifecycle.phase_rank (ConnectionMachine.phase m) ≤
     Lifecycle.phase_rank (ConnectionMachine.phase m'))%nat ∧
  (Lifecycle.gate_rank (ConnectionMachine.gate m) ≤
     Lifecycle.gate_rank (ConnectionMachine.gate m'))%nat ∧
  (ConnectionMachine.phase m ≠ ConnectionPhase.Live →
   ConnectionMachine.close_reason m' = ConnectionMachine.close_reason m) ∧
  (∀ source, ConnectionCore.poisoned s.1 = Some source →
   ConnectionCore.poisoned s'.1 = Some source).
Proof.
  intros s' m m'. assert (Lifecycle.onward s s') as [[H1 H2 H3 H4] H5 _];
    [|exact (conj H1 (conj H2 (conj H3 (conj H4 H5))))].
  unfold s'. clear. revert s. induction cs as [|c cs IH]; intros s; [done|]. simpl.
  etrans; [|apply IH]. destruct c.
  - apply Lifecycle.steady_reserve.
  - apply Lifecycle.steady_commit.
  - apply Lifecycle.steady_apply.
  - apply Lifecycle.steady_apply_reply.
  - apply Lifecycle.steady_front_write.
  - apply Lifecycle.steady_advance_write.
Qed.

End one_way.
End OneWay.

(** ** Instances *)

Module ComponentWitnesses.
Import Sample.

Definition loan : Reservation.t := Reservation.mk (u64_of 1) (u64_of 1) (MatchKey.new 5).

(** Releasing what a ledger never lent poisons it. *)
Lemma release_never_wraps_witness :
  let l := ReservationLedger.new limits in
  let l' := ReservationLedger.release_all l loan true false in
  Releases.counts l' = Releases.counts l ∨ ReservationLedger.poisoned l' = false.
Proof.
  intros l l'.
  destruct (Releases.release_never_wraps l loan true false
    ltac:(evaluate) ltac:(evaluate)) as [(Hp & _ & _)|(_ & Hc)].
  - right. exact (eq_trans Hp ltac:(vm_compute; reflexivity)).
  - left. exact Hc.
Defined.

Lemma audit_exact_witness :
  ConnectionCore.verify_ownership (System.core busy, System.heap busy) =
    (System.core busy, System.heap busy, Ok tt).
Proof.
  destruct (Audit.audit_exact (System.core busy) (System.heap busy)) as [Ha _].
  apply Ha. clear Ha. split; [vm_compute; reflexivity|].
  cbv beta. vm_compute. reflexivity.
Defined.

(** A decoder that keeps every byte it is given. *)
#[local] Instance hoard : FrameDecoder (list Byte.byte) :=
  {| Frame := unit; Error := unit;
     decoder_feed := λ d bytes, (d ++ bytes, Ok tt);
     decoder_next_frame := λ d, (d, Ok None);
     decoder_retained_bytes := λ d, u64_of (Z.of_nat (length d)) |}.

Definition three : @RetainedBytes calandria_u64 := u64_of 3.

Definition small_driver : FrameDriver.t (list Byte.byte) := FrameDriver.mk [] three false.

Lemma driver_bounded_witness :
  let s := foldl FrameDriver.run small_driver
    [FrameDriver.Feed hello; FrameDriver.Feed hello] in
  rb_get (FrameDriver.retained_bytes s) ≤ 3.
Proof.
  assert (FrameDriver.new (D := list Byte.byte) [] three = Ok small_driver) as Hn.
  { unfold FrameDriver.new, small_driver.
    destruct (rb_gtb (decoder_retained_bytes (D := list Byte.byte) []) three) eqn:E;
      [vm_compute in E; discriminate E|reflexivity]. }
  destruct (Drivers.driver_bounded (Cal := calandria_u64) (D := list Byte.byte) [] three small_driver
    [FrameDriver.Feed hello; FrameDriver.Feed hello] [] Hn) as (Hb & _).
  apply Hb. clear. vm_compute. reflexivity.
Defined.

End ComponentWitnesses.
