(* ===== verification/Host.v ===== *)
(** * What hosts a connection slot

    The parts of [calandria], [calandria-mio], [bytes] and the standard
    library that the [bornera] crate builds on: bounded publication batches,
    the timer queue, the order of deadlines, selector interest, byte
    containers, I/O errors. The third-party parts are parameters, each with
    the behaviour the code relies on; [host_lists] of
    [HostSample] is a concrete implementation by lists, used to evaluate the
    model. *)
From Stdlib Require Import ZArith Lia.
From stdpp Require Import prelude.
From S2P Require Import Prelude External.

(** ** [std::io] *)

Module ErrorKind.

(** [std::io::ErrorKind]: the kinds the sources name; the others by number. *)
Inductive t : Type :=
  | WouldBlock
  | TimedOut
  | NotConnected
  | InvalidData
  | InvalidInput
  | OutOfMemory
  | UnexpectedEof
  | WriteZero
  | Other
  | Unnamed (kind : nat).

#[global] Instance eq_dec : EqDecision t.
Proof. solve_decision. Defined.

End ErrorKind.

Module IoError.

(** What the sources read of a [std::io::Error]. *)
Record t : Type := new { kind : ErrorKind.t; raw_os_error : option Z }.

End IoError.

(** [calandria::Retained]: the variable memory a value retains. *)
Class Retained {Cal : Calandria} (A : Type) : Type := retained_bytes : A → RetainedBytes.

(** ** The third-party parts *)

Class Host {Cal : Calandria} : Type := {
  (** [Deadline]'s order. *)
  deadline_leb : Deadline → Deadline → bool;
  (** [calandria::EventBatch]: a publication queue bounded in count and bytes. *)
  EventBatchLimits : Type;
  batch_limits_new : NonZeroUsize → RetainedBytes → EventBatchLimits;
  EventBatchFailure : Type;
  EventBatch : Type → Type;
  batch_new : ∀ {A : Type}, EventBatchLimits → EventBatch A;
  (** A rejected value comes back with the failure. *)
  batch_try_push : ∀ {A : Type} `{!Retained A}, EventBatch A → A →
    EventBatch A * result unit (A * EventBatchFailure);
  batch_drain : ∀ {A : Type}, EventBatch A → EventBatch A * list A;
  batch_len : ∀ {A : Type}, EventBatch A → Z;
  (** [calandria::TimerQueue]: a bounded queue of values under deadlines. *)
  TimerOwnerId : Type;
  TimerToken : Type;
  timer_token_eqb : TimerToken → TimerToken → bool;
  TimerLimits : Type;
  timer_limits_new : NonZeroUsize → RetainedBytes → TimerLimits;
  TimerScheduleFailure : Type;
  TimerQueue : Type → Type;
  timers_new : ∀ {A : Type}, TimerOwnerId → TimerLimits → TimerQueue A;
  timers_schedule : ∀ {A : Type} `{!Retained A}, TimerQueue A → Deadline → A →
    TimerQueue A * result TimerToken TimerScheduleFailure;
  timers_cancel : ∀ {A : Type}, TimerQueue A → TimerToken → TimerQueue A;
  timers_next_deadline : ∀ {A : Type}, TimerQueue A → option Deadline;
  timers_pop_due : ∀ {A : Type}, TimerQueue A → Moment →
    TimerQueue A * option (TimerToken * A);
  timers_len : ∀ {A : Type}, TimerQueue A → Z;
  (** [calandria::Interest]: what a transport asks of its selector. *)
  Interest : Type;
  (** [calandria::Span]: a duration. *)
  Span : Type;
  span_as_nanos : Span → Z;
  (** [std::net::SocketAddr] and [calandria::ResourceOwnerId], never inspected. *)
  SocketAddr : Type;
  ResourceOwnerId : Type;
  (** [calandria_mio::MioError], never inspected. *)
  MioError : Type;
  (** [bytes::Bytes]. *)
  Bytes : Type;
  bytes_deref : Bytes → list Byte.byte;
  bytes_copy_from_slice : list Byte.byte → Bytes;
}.

Arguments batch_try_push {_ _ A _}.
Arguments timers_schedule {_ _ A _}.

Notation "a '<=d' b" := (deadline_leb a b = true) (at level 70) : bornera_scope.

(** The documented behaviour the code relies on. A batch is the list of its
    values, a timer queue the list of its armed entries. *)
Class HostLaws {Cal : Calandria} (H : Host) : Type := {
  batch_items : ∀ {A : Type}, EventBatch A → list A;
  batch_bound : ∀ {A : Type}, EventBatch A → Z * Z;
  batch_new_items : ∀ {A : Type} (n : NonZeroUsize) (b : RetainedBytes),
    batch_items (batch_new (A := A) (batch_limits_new n b)) = [];
  batch_new_bound : ∀ {A : Type} (n : NonZeroUsize) (b : RetainedBytes),
    batch_bound (batch_new (A := A) (batch_limits_new n b)) = (nonzero_get n, rb_get b);
  batch_len_items : ∀ {A : Type} (q : EventBatch A), batch_len q = Z.of_nat (length (batch_items q));
  batch_drain_items : ∀ {A : Type} (q : EventBatch A),
    (batch_drain q).2 = batch_items q ∧ batch_items (batch_drain q).1 = [] ∧
    batch_bound (batch_drain q).1 = batch_bound q;
  (** A value is taken if the batch has room for it, and given back otherwise. *)
  batch_push_room : ∀ {A : Type} `{!Retained A} (q : EventBatch A) (a : A),
    Z.of_nat (length (batch_items q)) < (batch_bound q).1 →
    zsum (λ x, rb_get (retained_bytes x)) (batch_items q ++ [a]) ≤ (batch_bound q).2 →
    ∃ q', batch_try_push q a = (q', Ok tt) ∧ batch_items q' = batch_items q ++ [a] ∧
      batch_bound q' = batch_bound q;
  batch_push_cases : ∀ {A : Type} `{!Retained A} (q : EventBatch A) (a : A),
    (∃ q', batch_try_push q a = (q', Ok tt) ∧ batch_items q' = batch_items q ++ [a] ∧
       batch_bound q' = batch_bound q) ∨
    (∃ f, batch_try_push q a = (q, Err (a, f)));
  timer_entries : ∀ {A : Type}, TimerQueue A → list (TimerToken * Deadline * A);
  timer_bound : ∀ {A : Type}, TimerQueue A → Z;
  timer_token_eqb_spec : ∀ a b : TimerToken, timer_token_eqb a b = true ↔ a = b;
  timers_new_entries : ∀ {A : Type} (o : TimerOwnerId) (n : NonZeroUsize) (b : RetainedBytes),
    timer_entries (timers_new (A := A) o (timer_limits_new n b)) = [];
  timers_new_bound : ∀ {A : Type} (o : TimerOwnerId) (n : NonZeroUsize) (b : RetainedBytes),
    timer_bound (timers_new (A := A) o (timer_limits_new n b)) = nonzero_get n;
  timers_len_entries : ∀ {A : Type} (q : TimerQueue A),
    timers_len q = Z.of_nat (length (timer_entries q));
  (** A value that retains nothing is armed, under a token no armed entry has,
      if the queue has room. *)
  timers_schedule_room : ∀ {A : Type} `{!Retained A} (q : TimerQueue A) (d : Deadline) (a : A),
    Z.of_nat (length (timer_entries q)) < timer_bound q → rb_get (retained_bytes a) = 0 →
    ∃ q' token, timers_schedule q d a = (q', Ok token) ∧
      timer_entries q' ≡ₚ (token, d, a) :: timer_entries q ∧
      token ∉ (timer_entries q).*1.*1 ∧ timer_bound q' = timer_bound q;
  timers_cancel_entries : ∀ {A : Type} (q : TimerQueue A) (token : TimerToken),
    timer_entries (timers_cancel q token) =
      List.filter (λ e, negb (timer_token_eqb e.1.1 token)) (timer_entries q) ∧
    timer_bound (timers_cancel q token) = timer_bound q;
  (** The entry that is popped is one whose deadline elapsed. *)
  timers_pop_some : ∀ {A : Type} (q q' : TimerQueue A) (now : Moment) token (a : A),
    timers_pop_due q now = (q', Some (token, a)) →
    ∃ d, timer_entries q ≡ₚ (token, d, a) :: timer_entries q' ∧ is_elapsed_at d now = true ∧
      timer_bound q' = timer_bound q;
  timers_pop_none : ∀ {A : Type} (q q' : TimerQueue A) (now : Moment),
    timers_pop_due q now = (q', None) →
    timer_entries q' = timer_entries q ∧ timer_bound q' = timer_bound q ∧
    Forall (λ e, is_elapsed_at e.1.2 now = false) (timer_entries q);
  bytes_deref_copy : ∀ l, bytes_deref (bytes_copy_from_slice l) = l;
}.

(** The order of deadlines: a deadline before one that elapsed has elapsed, and
    a timer queue names the least of its deadlines. *)
Class DeadlineLaws {Cal : Calandria} (H : Host) {HL : HostLaws H} : Prop := {
  deadline_leb_total : ∀ a b, a <=d b ∨ b <=d a;
  deadline_leb_trans : ∀ a b c, a <=d b → b <=d c → a <=d c;
  deadline_leb_elapsed : ∀ a b m, a <=d b → is_elapsed_at b m = true → is_elapsed_at a m = true;
  timers_next_none : ∀ {A : Type} (q : TimerQueue A),
    timers_next_deadline q = None → timer_entries q = [];
  timers_next_some : ∀ {A : Type} (q : TimerQueue A) d,
    timers_next_deadline q = Some d →
    d ∈ (timer_entries q).*1.*2 ∧ Forall (λ e, d <=d e.1.2) (timer_entries q);
}.
