(* ===== verification/Config.v ===== *)
(** * Configuration of the owner crate

    [config/identity.rs], [config/slot_limits.rs], [socket.rs] and [frame.rs]
    of [bornera]: who a connection is, the bounds of one slot, the TCP policy
    applied to an established stream, and complete outbound frames. *)
From Stdlib Require Import ZArith Lia.
From stdpp Require Import prelude.
From S2P Require Import Prelude External Host Identity Limits Write.

(** ** Socket policy ([socket.rs]) *)

Module TcpNoDelay.

(** Whether established TCP streams disable Nagle's algorithm. *)
Inductive t : Type :=
  | Enabled
  | Disabled.

#[global] Instance eq_dec : EqDecision t.
Proof. solve_decision. Defined.

End TcpNoDelay.

Module SocketPolicyError.

(** Invalid portable TCP socket policy. *)
Inductive t : Type := ZeroKeepaliveIdle.

End SocketPolicyError.

Module TcpKeepalivePolicy.
Section tcp_keepalive.
Context {Cal : Calandria} {H : Host}.

(** Portable keepalive subset applied to an established TCP stream. *)
Record t : Type := mk { idle : Span }.

Definition new (idle : Span) : result t SocketPolicyError.t :=
  if span_as_nanos idle =? 0 then Err SocketPolicyError.ZeroKeepaliveIdle else Ok (mk idle).

End tcp_keepalive.
End TcpKeepalivePolicy.

Module TcpSocketPolicy.
Section tcp_socket_policy.
Context {Cal : Calandria} {H : Host}.

(** TCP behavior applied only after a nonblocking connect succeeds. *)
Record t : Type := mk {
  no_delay : TcpNoDelay.t;
  keepalive_policy : option TcpKeepalivePolicy.t;
}.

Definition DEFAULT : t := mk TcpNoDelay.Enabled None.

Definition new (no_delay : TcpNoDelay.t) : t := mk no_delay None.

Definition keepalive (self : t) (keepalive : TcpKeepalivePolicy.t) : t :=
  mk (no_delay self) (Some keepalive).

Definition default : t := DEFAULT.

End tcp_socket_policy.
End TcpSocketPolicy.

(** ** Identities and attempts ([config/identity.rs]) *)

Module ConnectionIdentity.

(** Stable logical identities attached to one exact socket lifetime. *)
Record t : Type := new {
  endpoint : EndpointId.t;
  lane : LaneId.t;
  connection : ConnectionId.t;
  epoch : ConnectionEpoch.t;
}.

#[global] Instance eq_dec : EqDecision t.
Proof. solve_decision. Defined.

End ConnectionIdentity.

Module ConnectionSlotConfig.
Section connection_slot_config.
Context {Cal : Calandria} {H : Host}.

(** Selector-independent identity, timing, and socket policy. *)
Record t : Type := mk {
  identity : ConnectionIdentity.t;
  connect_deadline : Deadline;
  timer_owner : TimerOwnerId;
  tcp_policy : TcpSocketPolicy.t;
}.

Definition new (identity : ConnectionIdentity.t) (connect_deadline : Deadline)
    (timer_owner : TimerOwnerId) : t :=
  mk identity connect_deadline timer_owner TcpSocketPolicy.DEFAULT.

Definition socket_policy (self : t) (policy : TcpSocketPolicy.t) : t :=
  mk (identity self) (connect_deadline self) (timer_owner self) policy.

End connection_slot_config.
End ConnectionSlotConfig.

Module ConnectionConfig.
Section connection_config.
Context {Cal : Calandria} {H : Host}.

(** One already-resolved TCP address paired with slot policy. *)
Record t : Type := mk { slot : ConnectionSlotConfig.t; address : SocketAddr }.

Definition new (identity : ConnectionIdentity.t) (address : SocketAddr)
    (connect_deadline : Deadline) (timer_owner : TimerOwnerId) : t :=
  mk (ConnectionSlotConfig.new identity connect_deadline timer_owner) address.

Definition socket_policy (self : t) (policy : TcpSocketPolicy.t) : t :=
  mk (ConnectionSlotConfig.socket_policy (slot self) policy) (address self).

Definition identity (self : t) : ConnectionIdentity.t :=
  ConnectionSlotConfig.identity (slot self).

End connection_config.
End ConnectionConfig.

Module ConnectionSetConfig.
Section connection_set_config.
Context {Cal : Calandria} {H : Host}.

(** Identity configuration for one shared selector owner. *)
Record t : Type := new { resource_owner : ResourceOwnerId }.

End connection_set_config.
End ConnectionSetConfig.

Module StandaloneConnectionConfig.
Section standalone_config.
Context {Cal : Calandria} {H : Host}.

(** Combined configuration for the capacity-one convenience owner. *)
Record t : Type := new { set : ConnectionSetConfig.t; connection : ConnectionConfig.t }.

End standalone_config.
End StandaloneConnectionConfig.

(** ** Slot bounds ([config/slot_limits.rs]) *)

Module ConnectionSlotLimitsError.

(** Invalid combination of selector-free connection-slot limits. *)
Inductive t : Type :=
  | ZeroOperationCapacity
  | OutcomeRetainedOverflow.

End ConnectionSlotLimitsError.

Module DecoderLimits.
Section decoder_limits.
Context {Cal : Calandria}.

(** Protocol-decoder and reply-publication retained-byte bounds. *)
Record t : Type := new { buffered_bytes : RetainedBytes; reply_bytes : RetainedBytes }.

End decoder_limits.
End DecoderLimits.

Module IoLimits.

(** Per-slot nonblocking I/O work and chunk bounds. *)
Record t : Type := new { operations : NonZeroUsize; chunk_bytes : NonZeroUsize }.

End IoLimits.

Module TransportLimits.
Section transport_limits.
Context {Cal : Calandria}.

(** Per-connection transport-adapter retained-memory bound. *)
Record t : Type := new { retained_bytes : RetainedBytes }.

End transport_limits.
End TransportLimits.

Module PublicationLimits.

(** Separately bounded lifecycle-publication capacity. *)
Record t : Type := new { lifecycle_events : NonZeroUsize }.

End PublicationLimits.

Module ConnectionSlotLimits.
Section connection_slot_limits.
Context {Cal : Calandria} {H : Host}.

(** Hard bounds for one selector-free connection slot. *)
Record t : Type := mk {
  connection : ConnectionLimits.t;
  decoder : DecoderLimits.t;
  io : IoLimits.t;
  transport_limits : TransportLimits.t;
  publication : PublicationLimits.t;
  outcome_bytes : RetainedBytes;
  operation_capacity : NonZeroUsize;
}.

(** [u64::try_from] of a [usize] never fails at 64 bits. *)
Definition new (connection : ConnectionLimits.t) (decoder : DecoderLimits.t) (io : IoLimits.t)
    (transport : TransportLimits.t) (publication : PublicationLimits.t)
    : result t ConnectionSlotLimitsError.t :=
  let operations := ConnectionLimits.max_operations connection in
  match nonzero_new operations with
  | None => Err ConnectionSlotLimitsError.ZeroOperationCapacity
  | Some operation_capacity =>
  match u64_checked_mul (rb_get (DecoderLimits.reply_bytes decoder)) operations with
  | None => Err ConnectionSlotLimitsError.OutcomeRetainedOverflow
  | Some outcome_bytes =>
      Ok (mk connection decoder io transport publication (rb_new outcome_bytes)
            operation_capacity)
  end end.

Definition decoder_bytes (self : t) : RetainedBytes := DecoderLimits.buffered_bytes (decoder self).
Definition decoder_retained_bytes (self : t) : RetainedBytes :=
  DecoderLimits.buffered_bytes (decoder self).
Definition reply_bytes (self : t) : RetainedBytes := DecoderLimits.reply_bytes (decoder self).
Definition reply_retained_bytes (self : t) : RetainedBytes :=
  DecoderLimits.reply_bytes (decoder self).
Definition io_operations (self : t) : NonZeroUsize := IoLimits.operations (io self).
Definition io_chunk_bytes (self : t) : NonZeroUsize := IoLimits.chunk_bytes (io self).
Definition transport_retained_bytes (self : t) : RetainedBytes :=
  TransportLimits.retained_bytes (transport_limits self).

Definition timers (self : t) : TimerLimits :=
  timer_limits_new (operation_capacity self) rb_ZERO.

Definition outcomes (self : t) : EventBatchLimits :=
  batch_limits_new (operation_capacity self) (outcome_bytes self).

Definition lifecycle (self : t) : EventBatchLimits :=
  batch_limits_new (PublicationLimits.lifecycle_events (publication self)) rb_ZERO.

(** [NonZeroUsize::MIN.saturating_add(3)]. *)
Definition FIXED_EPOCH_EDGES : NonZeroUsize := mk_nonzero 4.

Definition recovery_lifecycle (self : t) : EventBatchLimits :=
  batch_limits_new
    (mk_nonzero (Z.max (nonzero_get (PublicationLimits.lifecycle_events (publication self)))
                   (nonzero_get FIXED_EPOCH_EDGES)))
    rb_ZERO.

End connection_slot_limits.
End ConnectionSlotLimits.

(** ** Outbound frames ([frame.rs]) *)

Module OutboundFrameError.
Section outbound_frame_error.
Context {Cal : Calandria}.

(** Invalid retained-memory declaration for a complete outbound frame. *)
Inductive t : Type :=
  | LengthOverflow
  | Underreported (visible retained : RetainedBytes).

End outbound_frame_error.
End OutboundFrameError.

Module OutboundFrame.
Section outbound_frame.
Context {Cal : Calandria} {H : Host}.

(** One complete contiguous frame prepared by a protocol adapter. *)
Record t : Type := mk { bytes : Bytes; retained : RetainedBytes }.

Definition len (bytes : list Byte.byte) : Z := Z.of_nat (length bytes).

Definition new (bytes : Bytes) (retained : RetainedBytes) : result t OutboundFrameError.t :=
  match rb_try_from_usize (len (bytes_deref bytes)) with
  | None => Err OutboundFrameError.LengthOverflow
  | Some visible =>
      if rb_gtb visible retained then Err (OutboundFrameError.Underreported visible retained)
      else Ok (mk bytes retained)
  end.

Definition copy_from_slice (bytes : list Byte.byte) : result t OutboundFrameError.t :=
  match rb_try_from_usize (len bytes) with
  | None => Err OutboundFrameError.LengthOverflow
  | Some retained => Ok (mk (bytes_copy_from_slice bytes) retained)
  end.

Definition as_bytes (self : t) : list Byte.byte := bytes_deref (bytes self).

Definition into_bytes (self : t) : Bytes := bytes self.

(** [impl WriteFrame for OutboundFrame]. *)
#[global] Instance write_frame : WriteFrame t := {
  frame_bytes self := bytes_deref (bytes self);
  frame_retained_bytes self := retained self;
}.

End outbound_frame.
End OutboundFrame.
