(* ===== verification/Transport.v ===== *)
(** * The transport contract

    [transport/budget.rs], [transport/progress.rs], [transport/pressure.rs],
    [transport/error.rs], [transport/port.rs] and the diagnostics of
    [snapshot.rs] of [bornera]: what a slot asks of the nonblocking transport
    it drives. A transport is any instance of the class [SlotTransport];
    [TransportContract] is the documented contract of the trait. *)
From Stdlib Require Import ZArith Lia.
From stdpp Require Import prelude.
From S2P Require Import Prelude External Host Config.

(** ** Diagnostics ([snapshot.rs]) *)

Module TransportState.

(** Current physical state of one registered transport capability. *)
Inductive t : Type :=
  | Connecting
  | Open
  | Closing
  | Closed.

#[global] Instance eq_dec : EqDecision t.
Proof. solve_decision. Defined.

End TransportState.

Module TransportFailurePhase.

(** Transport operation that produced the last mechanical I/O diagnostic. *)
Inductive t : Type :=
  | Connect
  | SocketPolicy
  | Establishment
  | TransportRead
  | TransportWrite
  | Read
  | Write
  | Shutdown
  | Pressure
  | Readiness.

#[global] Instance eq_dec : EqDecision t.
Proof. solve_decision. Defined.

End TransportFailurePhase.

Module TransportFailureKind.

(** Provider-neutral category for one retained transport failure. *)
Inductive t : Type :=
  | Io
  | Protocol
  | Certificate
  | ServerName
  | Truncated
  | Capacity
  | TimedOut
  | Contract.

#[global] Instance eq_dec : EqDecision t.
Proof. solve_decision. Defined.

End TransportFailureKind.

Module TransportDiagnostic.

(** Bounded operating-system diagnostic without retaining an allocation. *)
Record t : Type := mk {
  phase : TransportFailurePhase.t;
  failure : TransportFailureKind.t;
  kind : ErrorKind.t;
  raw_os_error : option Z;
  code : option Z;
}.

Definition new (phase : TransportFailurePhase.t) (failure : TransportFailureKind.t)
    (kind : ErrorKind.t) (code : option Z) : t :=
  mk phase failure kind None code.

Definition from_io (phase : TransportFailurePhase.t) (error : IoError.t) : t :=
  mk phase TransportFailureKind.Io (IoError.kind error) (IoError.raw_os_error error) None.

Definition in_phase (self : t) (phase : TransportFailurePhase.t) : t :=
  mk phase (failure self) (kind self) (raw_os_error self) (code self).

End TransportDiagnostic.

Module TransportError.

(** Transport-local progression failure with a bounded retained diagnostic. *)
Record t : Type := mk { diagnostic : TransportDiagnostic.t; source : option IoError.t }.

Definition new (diagnostic : TransportDiagnostic.t) : t := mk diagnostic None.

Definition from_io (phase : TransportFailurePhase.t) (source : IoError.t) : t :=
  mk (TransportDiagnostic.from_io phase source) (Some source).

End TransportError.

(** ** Work bounds and reports *)

Module TransportBudget.

(** Hard bounds supplied to one transport progression call. *)
Record t : Type := new {
  operations : NonZeroUsize;
  read_bytes : NonZeroUsize;
  write_bytes : NonZeroUsize;
}.

(** The bounds are [NonZeroUsize] values. *)
Definition valid (self : t) : Prop :=
  1 ≤ nonzero_get (operations self) ∧ 1 ≤ nonzero_get (read_bytes self) ∧
  1 ≤ nonzero_get (write_bytes self).

End TransportBudget.

Module TransportProgress.

(** Exact bounded work performed inside one transport progression call. *)
Record t : Type := mk { operations : Z; read_bytes : Z; written_bytes : Z }.

Definition IDLE : t := mk 0 0 0.

Definition new (operations : NonZeroUsize) (read_bytes written_bytes : Z) : t :=
  mk (nonzero_get operations) read_bytes written_bytes.

(** [NonZeroUsize::MIN] is one. *)
Definition operation : t := new (mk_nonzero 1) 0 0.

Definition fits (self : t) (budget : TransportBudget.t) : bool :=
  (operations self <=? nonzero_get (TransportBudget.operations budget))
  && (read_bytes self <=? nonzero_get (TransportBudget.read_bytes budget))
  && (written_bytes self <=? nonzero_get (TransportBudget.write_bytes budget)).

Definition is_idle (self : t) : bool :=
  (operations self =? 0) && (read_bytes self =? 0) && (written_bytes self =? 0).

(** The fields are private: a report comes from one of the constructors, with
    [usize] counts. *)
Definition made (self : t) : Prop :=
  self = IDLE ∨ (1 ≤ operations self ∧ 0 ≤ read_bytes self ∧ 0 ≤ written_bytes self).

Lemma made_busy (self : t) : made self → is_idle self = false → 1 ≤ operations self.
Proof. intros [->|[? _]]; [done|auto]. Qed.

End TransportProgress.

Module TransportPressureError.

(** Transport pressure exceeded the fixed-width accounting domain. *)
Inductive t : Type := Overflow.

End TransportPressureError.

Module TransportPressure.
Section transport_pressure.
Context {Cal : Calandria}.

(** Accounted per-connection variable-memory charge for one transport. *)
Record t : Type := mk {
  inbound : RetainedBytes;
  outbound : RetainedBytes;
  plaintext : RetainedBytes;
  protocol : RetainedBytes;
  total : RetainedBytes;
}.

Definition ZERO : t := mk rb_ZERO rb_ZERO rb_ZERO rb_ZERO rb_ZERO.

Definition MAX : t := mk rb_ZERO rb_ZERO rb_ZERO (rb_new U64_MAX) (rb_new U64_MAX).

Definition new (inbound outbound plaintext protocol : RetainedBytes)
    : result t TransportPressureError.t :=
  match rb_checked_add inbound outbound with
  | None => Err TransportPressureError.Overflow
  | Some total =>
  match rb_checked_add total plaintext with
  | None => Err TransportPressureError.Overflow
  | Some total =>
  match rb_checked_add total protocol with
  | None => Err TransportPressureError.Overflow
  | Some total => Ok (mk inbound outbound plaintext protocol total)
  end end end.

(** The total is the exact sum of the four charges, and an overflow is
    reported instead of wrapping. *)
Lemma pressure_new_spec `{Laws : !CalandriaLaws Cal} (i o p q : RetainedBytes) :
  let sum := rb_get i + rb_get o + rb_get p + rb_get q in
  match new i o p q with
  | Ok pressure => rb_get (total pressure) = sum ∧ sum ≤ U64_MAX
  | Err _ => U64_MAX < sum
  end.
Proof.
  intros sum. unfold new. pose proof (rb_get_nonneg p). pose proof (rb_get_nonneg q).
  rewrite rb_checked_add_spec. destruct (Z.leb_spec (rb_get i + rb_get o) U64_MAX); [|lia].
  rewrite rb_checked_add_spec, rb_get_new
    by (pose proof (rb_get_nonneg i); pose proof (rb_get_nonneg o); unfold in_u64; lia).
  destruct (Z.leb_spec (rb_get i + rb_get o + rb_get p) U64_MAX); [|lia].
  rewrite rb_checked_add_spec, rb_get_new
    by (pose proof (rb_get_nonneg i); pose proof (rb_get_nonneg o); unfold in_u64; lia).
  destruct (Z.leb_spec (rb_get i + rb_get o + rb_get p + rb_get q) U64_MAX); [|lia].
  simpl. rewrite rb_get_new
    by (pose proof (rb_get_nonneg i); pose proof (rb_get_nonneg o); unfold in_u64; lia).
  done.
Qed.

End transport_pressure.
End TransportPressure.

(** ** The trait ([transport/port.rs]) *)

(** A method on [&mut self] gives the transport it leaves with its result.
    [read] is handed the current contents of the caller's buffer and gives the
    buffer it leaves. *)
Class SlotTransport {Cal : Calandria} {H : Host} (T : Type) : Type := {
  tr_read : T → list Byte.byte → T * list Byte.byte * result Z IoError.t;
  tr_write : T → list Byte.byte → T * result Z IoError.t;
  tr_drive_establishment : T → TcpSocketPolicy.t → TransportBudget.t →
    T * result TransportProgress.t TransportError.t;
  tr_drive_transport : T → TransportBudget.t →
    T * result TransportProgress.t TransportError.t;
  tr_begin_shutdown : T → TransportBudget.t →
    T * result TransportProgress.t TransportError.t;
  tr_can_establish : T → bool;
  tr_has_transport_work : T → bool;
  tr_is_shutdown_complete : T → bool;
  tr_is_open : T → bool;
  tr_can_read : T → bool;
  tr_can_write : T → bool;
  tr_desired_interest : T → bool → Interest;
  tr_pressure : T → TransportPressure.t;
  tr_pressure_limit : T → TransportLimits.t;
  tr_clear_read : T → T;
  tr_clear_write : T → T;
}.

(** What the visibility rules of Rust guarantee of every implementation: a
    progress report comes from its constructors. *)
Class TransportTyping {Cal : Calandria} {H : Host} {T : Type} (TP : SlotTransport T) : Prop := {
  establishment_made : ∀ t p b r, (tr_drive_establishment t p b).2 = Ok r →
    TransportProgress.made r;
  transport_made : ∀ t b r, (tr_drive_transport t b).2 = Ok r → TransportProgress.made r;
  shutdown_made : ∀ t b r, (tr_begin_shutdown t b).2 = Ok r → TransportProgress.made r;
}.

(** The documented contract of the trait, for the states [holds] of one
    transport that any sequence of calls leads to. That an application write
    accepts no more bytes than it was given is [std::io::Write]'s contract,
    which the owner relies on. The other clauses it checks itself; they are
    asked for only of a [trusted] transport, whose retained memory is bound to
    [bound]. *)
Record TransportContract {Cal : Calandria} {H : Host} {T : Type} (TP : SlotTransport T)
    (trusted : bool) (bound : RetainedBytes) (holds : T → Prop) : Prop := {
  ct_read : ∀ t b, holds t → holds (tr_read t b).1.1;
  ct_write : ∀ t b, holds t → holds (tr_write t b).1;
  ct_establish : ∀ t p b, holds t → holds (tr_drive_establishment t p b).1;
  ct_drive : ∀ t b, holds t → holds (tr_drive_transport t b).1;
  ct_shutdown : ∀ t b, holds t → holds (tr_begin_shutdown t b).1;
  ct_clear_read : ∀ t, holds t → holds (tr_clear_read t);
  ct_clear_write : ∀ t, holds t → holds (tr_clear_write t);
  ct_write_count : ∀ t b n, holds t → (tr_write t b).2 = Ok n →
    0 ≤ n ≤ Z.of_nat (length b);
  ct_read_count : trusted = true → ∀ t b n, holds t → (tr_read t b).2 = Ok n →
    n ≤ Z.of_nat (length b);
  ct_establish_progress : trusted = true → ∀ t p b r, holds t → TransportBudget.valid b →
    tr_can_establish t = true →
    (tr_drive_establishment t p b).2 = Ok r →
    TransportProgress.fits r b = true ∧ TransportProgress.is_idle r = false;
  ct_drive_progress : trusted = true → ∀ t b r, holds t → TransportBudget.valid b →
    tr_has_transport_work t = true →
    (tr_drive_transport t b).2 = Ok r →
    TransportProgress.fits r b = true ∧ TransportProgress.is_idle r = false;
  ct_shutdown_progress : trusted = true → ∀ t b r, holds t → TransportBudget.valid b →
    (tr_begin_shutdown t b).2 = Ok r →
    TransportProgress.fits r b = true ∧ TransportProgress.is_idle r = false;
  ct_limit : trusted = true → ∀ t, holds t →
    TransportLimits.retained_bytes (tr_pressure_limit t) = bound;
  ct_pressure : trusted = true → ∀ t, holds t →
    rb_get (TransportPressure.total (tr_pressure t)) ≤ rb_get bound;
}.
