(* ===== verification/SlotData.v ===== *)
(** * What a slot publishes and fails with

    [event.rs], [outcome.rs], [recovery.rs] (the failure category and the
    report), [error.rs], [classifier.rs] and the snapshot of [snapshot.rs] of
    [bornera]. *)
From Stdlib Require Import ZArith Lia.
From stdpp Require Import prelude.
From S2P Require Import Prelude External Host Identity Operation Permit Write Machine Core Recovery.
From S2P Require Import Config Transport.

(** Protocol-specific classification of a complete frame as a reply
    ([classifier.rs]); nothing is assumed of it. *)
Class InboundClassifier (F C : Type) : Type := {
  ClassifierError : Type;
  reply_key : C → F → C * result MatchKey.t ClassifierError;
}.

Module ConnectionEvent.

(** One mechanical lifecycle edge for a fixed connection epoch. *)
Inductive t : Type :=
  | TransportOpened (sequence : Z) (epoch : ConnectionEpoch.t)
  | AdmissionOpened (sequence : Z) (epoch : ConnectionEpoch.t)
  | Closing (sequence : Z) (epoch : ConnectionEpoch.t) (reason : CloseReason.t)
  | Closed (sequence : Z) (epoch : ConnectionEpoch.t) (reason : CloseReason.t).

Definition sequence (self : t) : Z :=
  match self with
  | TransportOpened sequence _ | AdmissionOpened sequence _
  | Closing sequence _ _ | Closed sequence _ _ => sequence
  end.

Definition epoch (self : t) : ConnectionEpoch.t :=
  match self with
  | TransportOpened _ epoch | AdmissionOpened _ epoch
  | Closing _ epoch _ | Closed _ epoch _ => epoch
  end.

#[global] Instance retained {Cal : Calandria} : Retained t := λ _, rb_ZERO.

End ConnectionEvent.

Module EngineOutcome.

(** One terminal outcome labeled with its connection lifetime and operation. *)
Record t (F : Type) : Type := new {
  epoch : ConnectionEpoch.t;
  operation : OperationId.t;
  outcome : OperationOutcome.t F;
}.
#[global] Arguments new {F}.
#[global] Arguments epoch {F}.
#[global] Arguments operation {F}.
#[global] Arguments outcome {F}.

Definition into_outcome {F : Type} (self : t F) : OperationOutcome.t F := outcome self.

#[global] Instance retained {Cal : Calandria} {F : Type} {R : Retained F} : Retained (t F) :=
  λ self, OperationOutcome.retained_bytes retained_bytes (outcome self).

End EngineOutcome.

Module OwnerFailure.

(** Mechanical category explaining why normal finalization was abandoned. *)
Inductive t : Type :=
  | Core
  | Readiness
  | OwnerInvariant.

#[global] Instance eq_dec : EqDecision t.
Proof. solve_decision. Defined.

End OwnerFailure.

Module EngineInvariant.
Section engine_invariant.
Context {Cal : Calandria} {H : Host}.

(** Fatal divergence inside an otherwise bounded production owner. *)
Inductive t : Type :=
  | ResourceToken
  | UnexpectedDiscardEffect
  | UnexpectedUnitReply
  | DeadlineIndexCapacity
  | DeadlineSchedule (failure : TimerScheduleFailure)
  | OutcomePublication (failure : EventBatchFailure)
  | RecoveryOutcomePublication (failure : EventBatchFailure)
  | LifecyclePublication (failure : EventBatchFailure)
  | RecoveryLifecyclePublication (failure : EventBatchFailure)
  | EventSequenceExhausted
  | MissingCloseReason
  | MissingShutdownDeadline
  | UnsupportedCoreEffect
  | TransportReadContract (capacity reported : Z)
  | TransportProgressContract (budget : TransportBudget.t) (reported : TransportProgress.t)
  | TransportOpenedBeforeEstablishment
  | TransportRetainedCapacity (limit : RetainedBytes) (reported : TransportPressure.t)
  | TransportLimitContract (limit reported : RetainedBytes)
  | TransportNoProgress.

End engine_invariant.
End EngineInvariant.

Module EngineError.
Section engine_error.
Context {Cal : Calandria} {H : Host}.

(** Fatal slot or readiness-adapter failure returned by a bounded operation. *)
Inductive t : Type :=
  | Mio (source : MioError)
  | Core (source : ConnectionCoreError.t)
  | Invariant (source : EngineInvariant.t)
  | OwnerFailed (reason : OwnerFailure.t).

(** [impl From<&EngineError> for OwnerFailure]. *)
Definition owner_failure (error : t) : OwnerFailure.t :=
  match error with
  | Core _ => OwnerFailure.Core
  | Mio _ => OwnerFailure.Readiness
  | Invariant _ => OwnerFailure.OwnerInvariant
  | OwnerFailed reason => reason
  end.

End engine_error.
End EngineError.

Module EngineCommitError.
Section engine_commit_error.
Context {Cal : Calandria} {H : Host}.

(** Commit either rejects before publication or reports fatal divergence. *)
Inductive t (F : Type) : Type :=
  | Rejected (error : FrameCommitError.t F)
  | AcceptedOwnerFailure (operation : OperationId.t) (source : EngineError.t)
  | OwnerFailed (reason : OwnerFailure.t) (permit : OperationPermit.t) (frame : F).
#[global] Arguments Rejected {F}.
#[global] Arguments AcceptedOwnerFailure {F}.
#[global] Arguments OwnerFailed {F}.

End engine_commit_error.
End EngineCommitError.

Module RecoveryReport.
Section recovery_report.
Context {Cal : Calandria} {H : Host}.

(** Bounded owner contents transferred to the parent after fatal failure. *)
Record t (F R : Type) : Type := mk {
  epoch : ConnectionEpoch.t;
  reason : OwnerFailure.t;
  operations : list (RecoveredOperation.t F);
  unmatched_writes : list (DiscardedWrite.t F);
  outcomes : list (EngineOutcome.t R);
  events : list ConnectionEvent.t;
  transport_diagnostic : option TransportDiagnostic.t;
  transport_pressure : option TransportPressure.t;
  transport_retained_limit : option RetainedBytes;
  transport_retained_ceiling : option RetainedBytes;
  ownership_diverged : bool;
}.
#[global] Arguments mk {F R}.
#[global] Arguments epoch {F R}.
#[global] Arguments reason {F R}.
#[global] Arguments operations {F R}.
#[global] Arguments unmatched_writes {F R}.
#[global] Arguments outcomes {F R}.
#[global] Arguments events {F R}.
#[global] Arguments transport_diagnostic {F R}.
#[global] Arguments transport_pressure {F R}.
#[global] Arguments transport_retained_limit {F R}.
#[global] Arguments transport_retained_ceiling {F R}.
#[global] Arguments ownership_diverged {F R}.

(** [empty_diverged]: the report when the slot itself cannot be found. *)
Definition empty_diverged {F R : Type} (epoch : ConnectionEpoch.t) (reason : OwnerFailure.t)
    : t F R :=
  mk epoch reason [] [] [] [] None None None None true.

End recovery_report.
End RecoveryReport.

Module ConnectionSlotSnapshot.
Section connection_slot_snapshot.
Context {Cal : Calandria}.

(** Immutable, data-only state for one selector-free connection slot
    ([snapshot.rs]). *)
Record t : Type := mk {
  connection : ConnectionSnapshot.t;
  owner_failure : option OwnerFailure.t;
  transport : TransportState.t;
  transport_release_ready : bool;
  shutdown_deadline : option Deadline;
  transport_diagnostic : option TransportDiagnostic.t;
  transport_pressure : option TransportPressure.t;
  transport_retained_limit : option RetainedBytes;
  transport_retained_ceiling : RetainedBytes;
  queued_write_frames : Z;
  buffered_write_retained_bytes : RetainedBytes;
  buffered_read_bytes : RetainedBytes;
  pending_outcomes : Z;
  pending_events : Z;
  event_sequence : Z;
  pending_deadlines : Z;
}.

End connection_slot_snapshot.
End ConnectionSlotSnapshot.
