(* ===== verification/Slot.v ===== *)
(** * The connection slot

    [slot.rs], [state.rs], [lifecycle.rs], [transition.rs], [admission.rs],
    [control.rs], [failure.rs], [slot_close.rs] and the slot half of
    [recovery.rs] of [bornera]: the owner that hosts one [ConnectionCore],
    interprets its effects through bounded publication batches and a timer
    queue, and latches its first fatal error. A method on [&mut self] is a
    function of the slot and of the heap that holds the core's ledger. *)
From Stdlib Require Import ZArith Lia.
From stdpp Require Import prelude.
From S2P Require Import Prelude External Host Identity Limits Admission Ledger Operation Permit.
From S2P Require Import Write Framing Machine Core Recovery Config Transport SlotData.

Module DeadlineEvent.

(** The value of an armed timer. *)
Record t : Type := mk { epoch : ConnectionEpoch.t; operation : OperationId.t }.

#[global] Instance retained {Cal : Calandria} : Retained t := λ _, rb_ZERO.

End DeadlineEvent.

Module DeadlineEntry.
Section deadline_entry.
Context {Cal : Calandria} {H : Host}.

(** The timer token of one operation. *)
Record t : Type := mk { operation : OperationId.t; token : TimerToken }.

End deadline_entry.
End DeadlineEntry.

Module IoPreference.

(** Which direction the next step of a quantum tries first. *)
Inductive t : Type :=
  | Transport
  | Decode
  | Read
  | Write.

Definition next (self : t) : t :=
  match self with
  | Transport => Decode
  | Decode => Read
  | Read => Write
  | Write => Transport
  end.

End IoPreference.

Module ShutdownState.
Section shutdown_state.
Context {Cal : Calandria}.

(** How far transport-local graceful shutdown has come. *)
Inductive t : Type :=
  | Immediate
  | Pending (deadline : Deadline)
  | Started (deadline : Deadline)
  | Complete.

End shutdown_state.
End ShutdownState.

Module CloseDirective.
Section close_directive.
Context {Cal : Calandria}.

(** What the host is asked to do with the physical capability. *)
Inductive t : Type :=
  | Core (reason : CloseReason.t) (shutdown : ShutdownState.t)
  | Abort.

Definition settlement_ready (self : t) : bool :=
  match self with
  | Core _ (ShutdownState.Immediate | ShutdownState.Complete) | Abort => true
  | Core _ _ => false
  end.

Definition shutdown_deadline (self : t) : option Deadline :=
  match self with
  | Core _ (ShutdownState.Pending deadline | ShutdownState.Started deadline) => Some deadline
  | Core _ _ | Abort => None
  end.

End close_directive.
End CloseDirective.

Module EngineState.

(** Fail-closed owner state after the first fatal error. *)
Inductive t : Type :=
  | Running
  | Failed (reason : OwnerFailure.t).

Definition failure (self : t) : option OwnerFailure.t :=
  match self with
  | Running => None
  | Failed reason => Some reason
  end.

End EngineState.

Module ConnectionSlot.
Section connection_slot.
Context {Cal : Calandria} {BB : ByteBudgetLib} {Build : BuildConfig} {H : Host}.
Context {D C : Type} {Dec : FrameDecoder D} {Ret : Retained Frame}.
Context {Cls : InboundClassifier Frame C}.

(** One selector-free mutable owner for one exact connection epoch. *)
Record t : Type := mk {
  core : ConnectionCore.t OutboundFrame.t;
  decoder : FrameDriver.t D;
  classifier : C;
  limits : ConnectionSlotLimits.t;
  connect_deadline : Deadline;
  socket_policy : TcpSocketPolicy.t;
  timers : TimerQueue DeadlineEvent.t;
  deadlines : list DeadlineEntry.t;
  outcomes : EventBatch (EngineOutcome.t Frame);
  lifecycle : EventBatch ConnectionEvent.t;
  recovery_outcomes : EventBatch (EngineOutcome.t Frame);
  recovery_events : EventBatch ConnectionEvent.t;
  event_sequence : Z;
  read_buffer : list Byte.byte;
  decoder_pending : bool;
  io_preference : IoPreference.t;
  transport_state : TransportState.t;
  transport_diagnostic : option TransportDiagnostic.t;
  transport_pressure : option TransportPressure.t;
  transport_retained_limit : option RetainedBytes;
  transport_contract_diverged : bool;
  drain_deadline : option Deadline;
  close_request : option CloseDirective.t;
  state : EngineState.t;
}.

(** Field assignments through [&mut self]. *)
Definition set_core (self : t) (v : ConnectionCore.t OutboundFrame.t) : t :=
  mk v (decoder self) (classifier self) (limits self) (connect_deadline self)
    (socket_policy self) (timers self) (deadlines self) (outcomes self) (lifecycle self)
    (recovery_outcomes self) (recovery_events self) (event_sequence self) (read_buffer self)
    (decoder_pending self) (io_preference self) (transport_state self)
    (transport_diagnostic self) (transport_pressure self) (transport_retained_limit self)
    (transport_contract_diverged self) (drain_deadline self) (close_request self) (state self).

Definition set_decoder (self : t) (v : FrameDriver.t D) : t :=
  mk (core self) v (classifier self) (limits self) (connect_deadline self) (socket_policy self)
    (timers self) (deadlines self) (outcomes self) (lifecycle self) (recovery_outcomes self)
    (recovery_events self) (event_sequence self) (read_buffer self) (decoder_pending self)
    (io_preference self) (transport_state self) (transport_diagnostic self)
    (transport_pressure self) (transport_retained_limit self) (transport_contract_diverged self)
    (drain_deadline self) (close_request self) (state self).

Definition set_classifier (self : t) (v : C) : t :=
  mk (core self) (decoder self) v (limits self) (connect_deadline self) (socket_policy self)
    (timers self) (deadlines self) (outcomes self) (lifecycle self) (recovery_outcomes self)
    (recovery_events self) (event_sequence self) (read_buffer self) (decoder_pending self)
    (io_preference self) (transport_state self) (transport_diagnostic self)
    (transport_pressure self) (transport_retained_limit self) (transport_contract_diverged self)
    (drain_deadline self) (close_request self) (state self).

Definition set_timers (self : t) (v : TimerQueue DeadlineEvent.t) : t :=
  mk (core self) (decoder self) (classifier self) (limits self) (connect_deadline self)
    (socket_policy self) v (deadlines self) (outcomes self) (lifecycle self)
    (recovery_outcomes self) (recovery_events self) (event_sequence self) (read_buffer self)
    (decoder_pending self) (io_preference self) (transport_state self)
    (transport_diagnostic self) (transport_pressure self) (transport_retained_limit self)
    (transport_contract_diverged self) (drain_deadline self) (close_request self) (state self).

Definition set_deadlines (self : t) (v : list DeadlineEntry.t) : t :=
  mk (core self) (decoder self) (classifier self) (limits self) (connect_deadline self)
    (socket_policy self) (timers self) v (outcomes self) (lifecycle self)
    (recovery_outcomes self) (recovery_events self) (event_sequence self) (read_buffer self)
    (decoder_pending self) (io_preference self) (transport_state self)
    (transport_diagnostic self) (transport_pressure self) (transport_retained_limit self)
    (transport_contract_diverged self) (drain_deadline self) (close_request self) (state self).

Definition set_outcomes (self : t) (v : EventBatch (EngineOutcome.t Frame)) : t :=
  mk (core self) (decoder self) (classifier self) (limits self) (connect_deadline self)
    (socket_policy self) (timers self) (deadlines self) v (lifecycle self)
    (recovery_outcomes self) (recovery_events self) (event_sequence self) (read_buffer self)
    (decoder_pending self) (io_preference self) (transport_state self)
    (transport_diagnostic self) (transport_pressure self) (transport_retained_limit self)
    (transport_contract_diverged self) (drain_deadline self) (close_request self) (state self).

Definition set_lifecycle (self : t) (v : EventBatch ConnectionEvent.t) : t :=
  mk (core self) (decoder self) (classifier self) (limits self) (connect_deadline self)
    (socket_policy self) (timers self) (deadlines self) (outcomes self) v
    (recovery_outcomes self) (recovery_events self) (event_sequence self) (read_buffer self)
    (decoder_pending self) (io_preference self) (transport_state self)
    (transport_diagnostic self) (transport_pressure self) (transport_retained_limit self)
    (transport_contract_diverged self) (drain_deadline self) (close_request self) (state self).

Definition set_recovery_outcomes (self : t) (v : EventBatch (EngineOutcome.t Frame)) : t :=
  mk (core self) (decoder self) (classifier self) (limits self) (connect_deadline self)
    (socket_policy self) (timers self) (deadlines self) (outcomes self) (lifecycle self) v
    (recovery_events self) (event_sequence self) (read_buffer self) (decoder_pending self)
    (io_preference self) (transport_state self) (transport_diagnostic self)
    (transport_pressure self) (transport_retained_limit self) (transport_contract_diverged self)
    (drain_deadline self) (close_request self) (state self).

Definition set_recovery_events (self : t) (v : EventBatch ConnectionEvent.t) : t :=
  mk (core self) (decoder self) (classifier self) (limits self) (connect_deadline self)
    (socket_policy self) (timers self) (deadlines self) (outcomes self) (lifecycle self)
    (recovery_outcomes self) v (event_sequence self) (read_buffer self) (decoder_pending self)
    (io_preference self) (transport_state self) (transport_diagnostic self)
    (transport_pressure self) (transport_retained_limit self) (transport_contract_diverged self)
    (drain_deadline self) (close_request self) (state self).

Definition set_event_sequence (self : t) (v : Z) : t :=
  mk (core self) (decoder self) (classifier self) (limits self) (connect_deadline self)
    (socket_policy self) (timers self) (deadlines self) (outcomes self) (lifecycle self)
    (recovery_outcomes self) (recovery_events self) v (read_buffer self) (decoder_pending self)
    (io_preference self) (transport_state self) (transport_diagnostic self)
    (transport_pressure self) (transport_retained_limit self) (transport_contract_diverged self)
    (drain_deadline self) (close_request self) (state self).

Definition set_read_buffer (self : t) (v : list Byte.byte) : t :=
  mk (core self) (decoder self) (classifier self) (limits self) (connect_deadline self)
    (socket_policy self) (timers self) (deadlines self) (outcomes self) (lifecycle self)
    (recovery_outcomes self) (recovery_events self) (event_sequence self) v
    (decoder_pending self) (io_preference self) (transport_state self)
    (transport_diagnostic self) (transport_pressure self) (transport_retained_limit self)
    (transport_contract_diverged self) (drain_deadline self) (close_request self) (state self).

Definition set_decoder_pending (self : t) (v : bool) : t :=
  mk (core self) (decoder self) (classifier self) (limits self) (connect_deadline self)
    (socket_policy self) (timers self) (deadlines self) (outcomes self) (lifecycle self)
    (recovery_outcomes self) (recovery_events self) (event_sequence self) (read_buffer self) v
    (io_preference self) (transport_state self) (transport_diagnostic self)
    (transport_pressure self) (transport_retained_limit self) (transport_contract_diverged self)
    (drain_deadline self) (close_request self) (state self).

Definition set_io_preference (self : t) (v : IoPreference.t) : t :=
  mk (core self) (decoder self) (classifier self) (limits self) (connect_deadline self)
    (socket_policy self) (timers self) (deadlines self) (outcomes self) (lifecycle self)
    (recovery_outcomes self) (recovery_events self) (event_sequence self) (read_buffer self)
    (decoder_pending self) v (transport_state self) (transport_diagnostic self)
    (transport_pressure self) (transport_retained_limit self) (transport_contract_diverged self)
    (drain_deadline self) (close_request self) (state self).

Definition set_transport_state (self : t) (v : TransportState.t) : t :=
  mk (core self) (decoder self) (classifier self) (limits self) (connect_deadline self)
    (socket_policy self) (timers self) (deadlines self) (outcomes self) (lifecycle self)
    (recovery_outcomes self) (recovery_events self) (event_sequence self) (read_buffer self)
    (decoder_pending self) (io_preference self) v (transport_diagnostic self)
    (transport_pressure self) (transport_retained_limit self) (transport_contract_diverged self)
    (drain_deadline self) (close_request self) (state self).

Definition set_transport_diagnostic (self : t) (v : option TransportDiagnostic.t) : t :=
  mk (core self) (decoder self) (classifier self) (limits self) (connect_deadline self)
    (socket_policy self) (timers self) (deadlines self) (outcomes self) (lifecycle self)
    (recovery_outcomes self) (recovery_events self) (event_sequence self) (read_buffer self)
    (decoder_pending self) (io_preference self) (transport_state self) v
    (transport_pressure self) (transport_retained_limit self) (transport_contract_diverged self)
    (drain_deadline self) (close_request self) (state self).

Definition set_transport_pressure (self : t) (v : option TransportPressure.t) : t :=
  mk (core self) (decoder self) (classifier self) (limits self) (connect_deadline self)
    (socket_policy self) (timers self) (deadlines self) (outcomes self) (lifecycle self)
    (recovery_outcomes self) (recovery_events self) (event_sequence self) (read_buffer self)
    (decoder_pending self) (io_preference self) (transport_state self)
    (transport_diagnostic self) v (transport_retained_limit self)
    (transport_contract_diverged self) (drain_deadline self) (close_request self) (state self).

Definition set_transport_retained_limit (self : t) (v : option RetainedBytes) : t :=
  mk (core self) (decoder self) (classifier self) (limits self) (connect_deadline self)
    (socket_policy self) (timers self) (deadlines self) (outcomes self) (lifecycle self)
    (recovery_outcomes self) (recovery_events self) (event_sequence self) (read_buffer self)
    (decoder_pending self) (io_preference self) (transport_state self)
    (transport_diagnostic self) (transport_pressure self) v (transport_contract_diverged self)
    (drain_deadline self) (close_request self) (state self).

Definition set_transport_contract_diverged (self : t) (v : bool) : t :=
  mk (core self) (decoder self) (classifier self) (limits self) (connect_deadline self)
    (socket_policy self) (timers self) (deadlines self) (outcomes self) (lifecycle self)
    (recovery_outcomes self) (recovery_events self) (event_sequence self) (read_buffer self)
    (decoder_pending self) (io_preference self) (transport_state self)
    (transport_diagnostic self) (transport_pressure self) (transport_retained_limit self) v
    (drain_deadline self) (close_request self) (state self).

Definition set_drain_deadline (self : t) (v : option Deadline) : t :=
  mk (core self) (decoder self) (classifier self) (limits self) (connect_deadline self)
    (socket_policy self) (timers self) (deadlines self) (outcomes self) (lifecycle self)
    (recovery_outcomes self) (recovery_events self) (event_sequence self) (read_buffer self)
    (decoder_pending self) (io_preference self) (transport_state self)
    (transport_diagnostic self) (transport_pressure self) (transport_retained_limit self)
    (transport_contract_diverged self) v (close_request self) (state self).

Definition set_close_request (self : t) (v : option CloseDirective.t) : t :=
  mk (core self) (decoder self) (classifier self) (limits self) (connect_deadline self)
    (socket_policy self) (timers self) (deadlines self) (outcomes self) (lifecycle self)
    (recovery_outcomes self) (recovery_events self) (event_sequence self) (read_buffer self)
    (decoder_pending self) (io_preference self) (transport_state self)
    (transport_diagnostic self) (transport_pressure self) (transport_retained_limit self)
    (transport_contract_diverged self) (drain_deadline self) v (state self).

Definition set_state (self : t) (v : EngineState.t) : t :=
  mk (core self) (decoder self) (classifier self) (limits self) (connect_deadline self)
    (socket_policy self) (timers self) (deadlines self) (outcomes self) (lifecycle self)
    (recovery_outcomes self) (recovery_events self) (event_sequence self) (read_buffer self)
    (decoder_pending self) (io_preference self) (transport_state self)
    (transport_diagnostic self) (transport_pressure self) (transport_retained_limit self)
    (transport_contract_diverged self) (drain_deadline self) (close_request self) v.

(** The slot with the heap of its core's ledger: the state of its methods. *)
Definition owner : Type := t * Heap.t.

(** A method returning [Result<A, EngineError>]. *)
Definition M (A : Type) : Type := STE owner EngineError.t A.

(** A method that does not touch the heap. *)
Definition local {A E : Type} (f : t → t * result A E) : STE owner E A := λ '(self, heap),
  let '(self, r) := f self in (self, heap, r).

(** [self.core.f(..)], its error wrapped by [wrap]. *)
Definition on_core {A E E' : Type} (wrap : E → E')
    (f : STE (ConnectionCore.state OutboundFrame.t) E A) : STE owner E' A := λ '(self, heap),
  let '(core, heap, r) := f (core self, heap) in
  (set_core self core, heap,
   match r with Ok a => Ok a | Err e => Err (wrap e) end).

(** [self.core.f(..).map_err(EngineError::Core)]. *)
Definition core_try {A : Type} (f : ConnectionCore.M (F := OutboundFrame.t) A) : M A :=
  on_core EngineError.Core f.

(** ** Construction ([slot.rs]) *)

Definition new (config : ConnectionSlotConfig.t) (limits : ConnectionSlotLimits.t) (decoder : D)
    (classifier : C) (ledger : LedgerRef) (heap : Heap.t)
    : Heap.t * result t (FrameDecodeError.t Error) :=
  match FrameDriver.new decoder (ConnectionSlotLimits.decoder_bytes limits) with
  | Err e => (heap, Err e)
  | Ok decoder =>
      let identity := ConnectionSlotConfig.identity config in
      let read_buffer :=
        replicate (Z.to_nat (nonzero_get (ConnectionSlotLimits.io_chunk_bytes limits)))
          Byte.x00 in
      let '(core, heap) :=
        ConnectionCore.new (ConnectionIdentity.endpoint identity)
          (ConnectionIdentity.lane identity) (ConnectionIdentity.connection identity)
          (ConnectionIdentity.epoch identity) (ConnectionSlotLimits.connection limits)
          ledger heap in
      (heap,
       Ok (mk core decoder classifier limits (ConnectionSlotConfig.connect_deadline config)
             (ConnectionSlotConfig.tcp_policy config)
             (timers_new (ConnectionSlotConfig.timer_owner config)
                (ConnectionSlotLimits.timers limits))
             []
             (batch_new (ConnectionSlotLimits.outcomes limits))
             (batch_new (ConnectionSlotLimits.lifecycle limits))
             (batch_new (ConnectionSlotLimits.outcomes limits))
             (batch_new (ConnectionSlotLimits.recovery_lifecycle limits))
             0 read_buffer false IoPreference.Transport TransportState.Connecting
             None None None false None None EngineState.Running))
  end.

(** ** The failure latch ([state.rs]) *)

Definition ensure_running (self : t) : result unit EngineError.t :=
  match EngineState.failure (state self) with
  | Some reason => Err (EngineError.OwnerFailed reason)
  | None => Ok tt
  end.

Definition latch_owner_failure (self : t) (reason : OwnerFailure.t) : t :=
  match EngineState.failure (state self) with
  | Some _ => self
  | None =>
      let self := set_state self (EngineState.Failed reason) in
      let self := set_drain_deadline self None in
      set_close_request self (Some CloseDirective.Abort)
  end.

Definition latch_failure (self : t) (error : EngineError.t) : t :=
  match EngineState.failure (state self), error with
  | Some _, _ | _, EngineError.OwnerFailed _ => self
  | None, _ => latch_owner_failure self (EngineError.owner_failure error)
  end.

(** [self.ensure_running()?; let result = self.f(..); self.latch(result)]. *)
Definition latched {A : Type} (f : M A) : M A := λ '(self, heap),
  match ensure_running self with
  | Err e => (self, heap, Err e)
  | Ok _ =>
      match f (self, heap) with
      | (self, heap, Err error) => (latch_failure self error, heap, Err error)
      | ok => ok
      end
  end.

(** ** Lifecycle publication ([lifecycle.rs]) *)

Definition next_event_sequence (self : t) : result Z EngineError.t :=
  match u64_checked_add (event_sequence self) 1 with
  | Some sequence => Ok sequence
  | None => Err (EngineError.Invariant EngineInvariant.EventSequenceExhausted)
  end.

Definition publish_event (self : t) (event : ConnectionEvent.t)
    : t * result unit EngineError.t :=
  match batch_try_push (lifecycle self) event with
  | (lifecycle, Err (event, failure)) =>
      let self := set_lifecycle self lifecycle in
      let self := set_event_sequence self (ConnectionEvent.sequence event) in
      match batch_try_push (recovery_events self) event with
      | (events, Err (_, failure)) =>
          (set_recovery_events self events,
           Err (EngineError.Invariant (EngineInvariant.RecoveryLifecyclePublication failure)))
      | (events, Ok _) =>
          (set_recovery_events self events,
           Err (EngineError.Invariant (EngineInvariant.LifecyclePublication failure)))
      end
  | (lifecycle, Ok _) =>
      (set_event_sequence (set_lifecycle self lifecycle) (ConnectionEvent.sequence event), Ok tt)
  end.

(** The four publishers take the next sequence number first. *)
Definition publish_edge (self : t) (event : Z → ConnectionEpoch.t → ConnectionEvent.t)
    : t * result unit EngineError.t :=
  match next_event_sequence self with
  | Err e => (self, Err e)
  | Ok sequence => publish_event self (event sequence (ConnectionCore.epoch (core self)))
  end.

Definition publish_transport_opened (self : t) : t * result unit EngineError.t :=
  publish_edge self ConnectionEvent.TransportOpened.

Definition publish_admission_opened (self : t) : t * result unit EngineError.t :=
  publish_edge self ConnectionEvent.AdmissionOpened.

Definition publish_closing (self : t) (reason : CloseReason.t) : t * result unit EngineError.t :=
  publish_edge self (λ sequence epoch, ConnectionEvent.Closing sequence epoch reason).

Definition publish_closed (self : t) (reason : CloseReason.t) : t * result unit EngineError.t :=
  publish_edge self (λ sequence epoch, ConnectionEvent.Closed sequence epoch reason).

(** ** Interpretation of effects ([transition.rs]) *)

Definition invariant (source : EngineInvariant.t) : EngineError.t := EngineError.Invariant source.

(** [failure.get_or_insert(error)] of an [Err]. *)
Definition retain_first (failure : option EngineError.t) (r : result unit EngineError.t)
    : option EngineError.t :=
  match r, failure with
  | Err error, None => Some error
  | _, _ => failure
  end.

Definition cancel_deadline (self : t) (operation : OperationId.t) : t :=
  match position (λ entry, bool_decide (DeadlineEntry.operation entry = operation))
          (deadlines self) with
  | None => self
  | Some index =>
      match swap_remove index (deadlines self) with
      | None => self
      | Some (entry, deadlines) =>
          let self := set_deadlines self deadlines in
          set_timers self (timers_cancel (timers self) (DeadlineEntry.token entry))
      end
  end.

Definition schedule_deadline (self : t) (event : DeadlineEvent.t) (deadline : Deadline)
    : t * result unit EngineError.t :=
  let self := cancel_deadline self (DeadlineEvent.operation event) in
  if nonzero_get (ConnectionSlotLimits.operation_capacity (limits self))
     <=? Z.of_nat (length (deadlines self))
  then (self, Err (invariant EngineInvariant.DeadlineIndexCapacity))
  else match timers_schedule (timers self) deadline event with
  | (timers, Err failure) =>
      (set_timers self timers, Err (invariant (EngineInvariant.DeadlineSchedule failure)))
  | (timers, Ok token) =>
      let self := set_timers self timers in
      (set_deadlines self
         (deadlines self ++ [DeadlineEntry.mk (DeadlineEvent.operation event) token]), Ok tt)
  end.

Definition publish (self : t) (outcome : EngineOutcome.t Frame) : t * result unit EngineError.t :=
  match batch_try_push (outcomes self) outcome with
  | (outcomes, Err (outcome, failure)) =>
      let self := set_outcomes self outcomes in
      match batch_try_push (recovery_outcomes self) outcome with
      | (recovery, Err (_, failure)) =>
          (set_recovery_outcomes self recovery,
           Err (invariant (EngineInvariant.RecoveryOutcomePublication failure)))
      | (recovery, Ok _) =>
          (set_recovery_outcomes self recovery,
           Err (invariant (EngineInvariant.OutcomePublication failure)))
      end
  | (outcomes, Ok _) => (set_outcomes self outcomes, Ok tt)
  end.

Definition finish_close (self : t) (reason : option CloseReason.t)
    (failure : option EngineError.t) : t * option EngineError.t :=
  match reason, close_request self with
  | None, _ | _, Some _ => (self, failure)
  | Some reason, None =>
      let '(self, published) := publish_closing self reason in
      let failure := retain_first failure published in
      let '(self, shutdown, failure) :=
        if bool_decide (transport_state self = TransportState.Open)
           && bool_decide (reason = CloseReason.Drained)
        then match drain_deadline self with
             | None =>
                 (self, ShutdownState.Immediate,
                  retain_first failure
                    (Err (invariant EngineInvariant.MissingShutdownDeadline)))
             | Some deadline =>
                 (set_drain_deadline self None, ShutdownState.Pending deadline, failure)
             end
        else (set_drain_deadline self None, ShutdownState.Immediate, failure) in
      let self := set_transport_state self TransportState.Closing in
      (set_close_request self (Some (CloseDirective.Core reason shutdown)), failure)
  end.

(** One effect of [interpret_unit] or [interpret_reply]: what is left of the
    slot, the reason of a [CloseEpoch] and the first failure. [convert] gives
    the outcome to publish; only [interpret_unit] may have none. *)
Definition interpret_effect {R : Type}
    (convert : OperationOutcome.t R → option (OperationOutcome.t Frame))
    (effect : ConnectionEffect.t R)
    (acc : t * option CloseReason.t * option EngineError.t)
    : t * option CloseReason.t * option EngineError.t :=
  let '(self, close_reason, failure) := acc in
  match effect with
  | ConnectionEffect.ScheduleDeadline epoch operation deadline =>
      let '(self, r) := schedule_deadline self (DeadlineEvent.mk epoch operation) deadline in
      (self, close_reason, retain_first failure r)
  | ConnectionEffect.DiscardWrite _ _ _ =>
      (self, close_reason,
       retain_first failure (Err (invariant EngineInvariant.UnexpectedDiscardEffect)))
  | ConnectionEffect.CancelDeadline _ operation =>
      (cancel_deadline self operation, close_reason, failure)
  | ConnectionEffect.CloseEpoch _ reason => (self, Some reason, failure)
  | ConnectionEffect.PublishOutcome epoch operation outcome =>
      match convert outcome with
      | None =>
          (self, close_reason,
           retain_first failure (Err (invariant EngineInvariant.UnexpectedUnitReply)))
      | Some outcome =>
          let '(self, r) := publish self (EngineOutcome.new epoch operation outcome) in
          (self, close_reason, retain_first failure r)
      end
  end.

(** The loop over the effects, [finish_close], and the first failure. *)
Definition interpret {R : Type}
    (convert : OperationOutcome.t R → option (OperationOutcome.t Frame))
    (transition : ConnectionTransition.t R) (self : t) : t * result unit EngineError.t :=
  let '(self, close_reason, failure) :=
    foldl (λ acc effect, interpret_effect convert effect acc) (self, None, None)
      (ConnectionTransition.effects transition) in
  let '(self, failure) := finish_close self close_reason failure in
  (self, match failure with Some error => Err error | None => Ok tt end).

Definition unit_outcome (outcome : OperationOutcome.t unit) : option (OperationOutcome.t Frame) :=
  match outcome with
  | OperationOutcome.Reply tt => None
  | OperationOutcome.WriteComplete delivery => Some (OperationOutcome.WriteComplete delivery)
  | OperationOutcome.Failed failure delivery => Some (OperationOutcome.Failed failure delivery)
  | OperationOutcome.Cancelled delivery => Some (OperationOutcome.Cancelled delivery)
  end.

Definition interpret_unit (transition : ConnectionTransition.t unit) : M unit :=
  local (interpret unit_outcome transition).

Definition interpret_reply (transition : ConnectionTransition.t Frame) : M unit :=
  local (interpret Some transition).

(** [self.core.apply(input).map_err(EngineError::Core)?], then
    [self.interpret_unit(transition)?]. *)
Definition apply_input (input : ConnectionInput.t) : M unit :=
  let! transition := core_try (ConnectionCore.apply input) in
  interpret_unit transition.

(** ** Connection-local closure ([failure.rs]) *)

Definition epoch (self : t) : ConnectionEpoch.t := ConnectionCore.epoch (core self).

Definition close_malformed : M unit := λ s,
  apply_input (ConnectionInput.ReplyMalformed (epoch s.1)) s.

Definition close_for (reason : CloseReason.t) : M unit := λ s,
  apply_input (ConnectionInput.CloseRequested (epoch s.1) reason) s.

Definition close_decode_error (error : FrameDecodeError.t Error) : M unit :=
  match error with
  | FrameDecodeError.RetainedByteCapacity _ _ _
  | FrameDecodeError.InputSizeOverflow
  | FrameDecodeError.RetainedContractViolation _ _ =>
      close_for CloseReason.InboundRetainedCapacity
  | FrameDecodeError.DecoderFailed | FrameDecodeError.Decoder _ => close_malformed
  end.

(** ** Admission and commit ([admission.rs]) *)

Definition reserve (now : Moment) (options : OperationOptions.t)
    : STE owner ReserveError.t OperationPermit.t := λ '(self, heap),
  match EngineState.failure (state self) with
  | Some _ => (self, heap, Err ReserveError.OwnerPoisoned)
  | None =>
  match on_core id (ConnectionCore.reserve now options) (self, heap) with
  | (self, heap, Err error) =>
      let self :=
        if bool_decide (error = ReserveError.OwnerPoisoned)
        then latch_owner_failure self OwnerFailure.Core else self in
      (self, heap, Err error)
  | (self, heap, Ok permit) =>
      let owned := ConnectionSnapshot.owned_operations (ConnectionCore.snapshot (core self) heap) in
      if nonzero_get (ConnectionSlotLimits.operation_capacity (limits self))
         <? usize_saturating_add (batch_len (outcomes self)) owned
      then (self, (OperationPermit.drop permit heap).2, Err ReserveError.OperationCapacity)
      else (self, heap, Ok permit)
  end end.

(** Success drops the consumed permit disarmed; an error gives it back. *)
Definition commit (permit : OperationPermit.t) (frame : OutboundFrame.t)
    : STE owner (EngineCommitError.t OutboundFrame.t) OperationId.t := λ '(self, heap),
  match EngineState.failure (state self) with
  | Some reason => (self, heap, Err (EngineCommitError.OwnerFailed reason permit frame))
  | None =>
  match on_core id (ConnectionCore.commit permit frame) (self, heap) with
  | (self, heap, Err error) =>
      match FrameCommitError.failure error with
      | FrameCommitFailure.Policy CommitErrorKind.OwnerPoisoned =>
          let '(permit, frame) := FrameCommitError.into_parts error in
          (latch_owner_failure self OwnerFailure.Core, heap,
           Err (EngineCommitError.OwnerFailed OwnerFailure.Core permit frame))
      | _ => (self, heap, Err (EngineCommitError.Rejected error))
      end
  | (self, heap, Ok (operation, transition)) =>
      match interpret_unit transition (self, heap) with
      | (self, heap, Err source) =>
          (latch_failure self source, heap,
           Err (EngineCommitError.AcceptedOwnerFailure operation source))
      | (self, heap, Ok _) => (self, heap, Ok operation)
      end
  end end.

(** ** Control ([control.rs]) *)

Definition is_transport_open (self : t) : bool :=
  bool_decide (transport_state self = TransportState.Open).

Definition is_connecting (self : t) : bool :=
  bool_decide (transport_state self = TransportState.Connecting).

(** The shared shape of [begin_drain_inner], [finalize_inner] and
    [open_admission_inner]: apply an input, interpret its effects and answer
    its disposition; [before] runs between the two. *)
Definition disposed (input : ConnectionInput.t) (before : InputDisposition.t → t → t)
    : M InputDisposition.t :=
  let! transition := core_try (ConnectionCore.apply input) in
  let disposition := ConnectionTransition.disposition transition in
  local (λ self, (before disposition self, Ok tt)) ;;!
  interpret_unit transition ;;!
  ste_ret disposition.

Definition cancel_inner (operation : OperationId.t) : M CancelOutcome.t := λ s,
  (let! transition :=
     core_try (ConnectionCore.apply (ConnectionInput.Cancel (epoch s.1) operation)) in
   let outcome :=
     default CancelOutcome.AlreadyTerminal (ConnectionTransition.cancel_outcome transition) in
   interpret_unit transition ;;!
   ste_ret outcome) s.

Definition begin_drain_inner (deadline : Deadline) : M InputDisposition.t := λ s,
  disposed (ConnectionInput.BeginDrain (epoch s.1))
    (λ disposition self,
       if bool_decide (disposition = InputDisposition.Applied)
       then set_drain_deadline self (Some deadline) else self) s.

(** [force_shutdown] of [drive/shutdown.rs]: whether a pending graceful
    shutdown was cut short. *)
Definition force_shutdown_settlement (self : t) (reason : CloseReason.t) : t :=
  set_close_request self (Some (CloseDirective.Core reason ShutdownState.Immediate)).

Definition force_shutdown (self : t) : t * bool :=
  match close_request self with
  | Some (CloseDirective.Core reason (ShutdownState.Pending _ | ShutdownState.Started _)) =>
      (force_shutdown_settlement self reason, true)
  | _ => (self, false)
  end.

Definition finalize_inner (reason : CloseReason.t) : M InputDisposition.t := λ '(self, heap),
  match force_shutdown self with
  | (self, true) => (self, heap, Ok InputDisposition.Applied)
  | (self, false) =>
      disposed (ConnectionInput.CloseRequested (epoch self) reason) (λ _ self, self) (self, heap)
  end.

Definition open_admission_inner : M InputDisposition.t := λ '(self, heap),
  if negb (is_transport_open self)
  then (self, heap, Ok InputDisposition.IgnoredInvalidPhase)
  else
    (let! disposition :=
       disposed (ConnectionInput.OpenAdmission (epoch self)) (λ _ self, self) in
     (if bool_decide (disposition = InputDisposition.Applied)
      then local publish_admission_opened else ste_ret tt) ;;!
     ste_ret disposition) (self, heap).

Definition open_admission : M InputDisposition.t := latched open_admission_inner.

Definition cancel (operation : OperationId.t) : M CancelOutcome.t :=
  latched (cancel_inner operation).

Definition begin_drain (deadline : Deadline) : M InputDisposition.t :=
  latched (begin_drain_inner deadline).

Definition finalize (reason : CloseReason.t) : M InputDisposition.t :=
  latched (finalize_inner reason).

Definition drain_outcomes (self : t) : t * list (EngineOutcome.t Frame) :=
  let '(outcomes, drained) := batch_drain (outcomes self) in
  (set_outcomes self outcomes, drained).

Definition drain_events (self : t) : t * list ConnectionEvent.t :=
  let '(lifecycle, drained) := batch_drain (lifecycle self) in
  (set_lifecycle self lifecycle, drained).

Definition transport_release_ready (self : t) : bool :=
  match close_request self with
  | Some directive => CloseDirective.settlement_ready directive
  | None => false
  end.

(** [Iterator::min]: the first of the least elements. *)
Definition deadline_min (l : list Deadline) : option Deadline :=
  match l with
  | [] => None
  | d :: l => Some (foldl (λ a b, if deadline_leb a b then a else b) d l)
  end.

Definition next_deadline (self : t) : option Deadline :=
  deadline_min (omap id
    [timers_next_deadline (timers self);
     (if is_connecting self then Some (connect_deadline self) else None);
     drain_deadline self;
     directive ← close_request self; CloseDirective.shutdown_deadline directive]).

Definition record_transport_failure (self : t) (diagnostic : TransportDiagnostic.t) : t :=
  set_transport_diagnostic self (Some diagnostic).

Definition snapshot (self : t) (heap : Heap.t) : ConnectionSlotSnapshot.t :=
  ConnectionSlotSnapshot.mk
    (ConnectionCore.snapshot (core self) heap)
    (EngineState.failure (state self))
    (transport_state self)
    (transport_release_ready self)
    (match directive ← close_request self; CloseDirective.shutdown_deadline directive with
     | Some deadline => Some deadline
     | None => drain_deadline self
     end)
    (transport_diagnostic self)
    (transport_pressure self)
    (transport_retained_limit self)
    (ConnectionSlotLimits.transport_retained_bytes (limits self))
    (Z.of_nat (ConnectionCore.queued_write_frames (core self)))
    (ConnectionCore.buffered_write_retained_bytes (core self))
    (FrameDriver.retained_bytes (decoder self))
    (usize_wrap (batch_len (outcomes self) + batch_len (recovery_outcomes self)))
    (usize_wrap (batch_len (lifecycle self) + batch_len (recovery_events self)))
    (event_sequence self)
    (timers_len (timers self)).

(** ** Physical closure ([slot_close.rs]) *)

Definition take_close_request (self : t) : t * option CloseDirective.t :=
  match close_request self with
  | Some directive =>
      if CloseDirective.settlement_ready directive
      then (set_close_request self None, Some directive) else (self, None)
  | None => (self, None)
  end.

Definition restore_close_request (self : t) (directive : CloseDirective.t) : t :=
  set_close_request self (Some directive).

Definition abort_transport (self : t) : t :=
  let self := set_transport_state self TransportState.Closed in
  let self := set_drain_deadline self None in
  set_close_request self None.

Definition confirm_transport_closed (reason : CloseReason.t) : M unit := λ '(self, heap),
  let self := set_transport_state self TransportState.Closed in
  (apply_input (ConnectionInput.EpochClosed (epoch self)) ;;!
   local (λ self, publish_closed self reason)) (self, heap).

Definition settle_transport_closed : owner → owner * bool := λ '(self, heap),
  match take_close_request self with
  | (self, None) => (self, heap, false)
  | (self, Some CloseDirective.Abort) => (abort_transport self, heap, true)
  | (self, Some (CloseDirective.Core reason
                   (ShutdownState.Immediate | ShutdownState.Complete))) =>
      match confirm_transport_closed reason (self, heap) with
      | (self, heap, Err error) => (abort_transport (latch_failure self error), heap, true)
      | (self, heap, Ok _) => (self, heap, true)
      end
  | (self, Some (CloseDirective.Core _ _)) => (self, heap, false)
  end.

(** ** Recovery ([recovery.rs]) *)

Definition recover_owned (reason : OwnerFailure.t) (cleanup_failed : bool) (s : owner)
    : owner * RecoveryReport.t OutboundFrame.t Frame :=
  let '(self, heap) := s in
  let '(core, heap, recovery) := CoreRecovery.recover (core self, heap) in
  let self := set_core self core in
  let '(batch, published) := batch_drain (outcomes self) in
  let self := set_outcomes self batch in
  let '(batch, rejected) := batch_drain (recovery_outcomes self) in
  let self := set_recovery_outcomes self batch in
  let '(batch, edges) := batch_drain (lifecycle self) in
  let self := set_lifecycle self batch in
  let '(batch, rejected_edges) := batch_drain (recovery_events self) in
  let self := set_recovery_events self batch in
  (self, heap,
   RecoveryReport.mk (ConnectionRecovery.epoch recovery) reason
     (ConnectionRecovery.operations recovery) (ConnectionRecovery.unmatched_writes recovery)
     (published ++ rejected) (edges ++ rejected_edges)
     (transport_diagnostic self) (transport_pressure self) (transport_retained_limit self)
     (Some (ConnectionSlotLimits.transport_retained_bytes (limits self)))
     (ConnectionRecovery.ownership_diverged recovery || cleanup_failed
      || transport_contract_diverged self)).

Definition recover (reason : OwnerFailure.t) (s : owner)
    : owner * RecoveryReport.t OutboundFrame.t Frame :=
  recover_owned reason false s.

End connection_slot.
#[global] Arguments t {Cal BB H} D C {Dec}.
#[global] Arguments owner {Cal BB H} D C {Dec}.
End ConnectionSlot.
