(* ===== verification/Drive.v ===== *)
(** * Driving a slot

    [drive/] of [bornera]: one bounded quantum of deadline, transport, decode,
    read, write and shutdown work of one slot over its transport. The
    transport a method takes as [&mut T] is part of the state it returns; a
    loop that the code bounds by [while work < budget] takes the budget as
    fuel ([QuantumTheorems] shows that the fuel is never what ends it). *)
From Stdlib Require Import ZArith Lia.
From stdpp Require Import prelude.
From S2P Require Import Prelude External Host Identity Limits Admission Ledger Operation Permit.
From S2P Require Import Write Framing Machine Core Recovery Config Transport SlotData Slot.

Module SlotProgress.

(** Bounded work and remaining-runnable state from one slot quantum. *)
Record t : Type := mk { work : Z; saturated : bool }.

End SlotProgress.

Module Drive.
Section drive.
Context {Cal : Calandria} {BB : ByteBudgetLib} {Build : BuildConfig} {H : Host}.
Context {D C : Type} {Dec : FrameDecoder D} {Ret : Retained Frame}.
Context {Cls : InboundClassifier Frame C}.
Context {T : Type} {TP : SlotTransport T}.

Import ConnectionSlot.

(** The slot, the heap and the transport: the state of a driving method. *)
Definition driven : Type := owner D C * T.

Definition DM (A : Type) : Type := STE driven EngineError.t A.

(** A method that does not use the transport. *)
Definition on_slot {A : Type} (f : M (D := D) (C := C) A) : DM A := λ '(s, transport),
  let '(s, r) := f s in (s, transport, r).

Definition update (f : ConnectionSlot.t D C → ConnectionSlot.t D C) : DM unit :=
  λ '(self, heap, transport), (f self, heap, transport, Ok tt).

(** ** Observed pressure ([pressure.rs]) *)

Definition observe_transport_pressure (self : ConnectionSlot.t D C) (transport : T)
    : ConnectionSlot.t D C * TransportPressure.t :=
  let pressure := tr_pressure transport in
  (set_transport_pressure self (Some pressure), pressure).

Definition pressure_failure (self : ConnectionSlot.t D C) (kind : TransportFailureKind.t)
    : ConnectionSlot.t D C :=
  record_transport_failure (set_transport_contract_diverged self true)
    (TransportDiagnostic.new TransportFailurePhase.Pressure kind ErrorKind.Other None).

Definition capture_transport_pressure (self : ConnectionSlot.t D C) (transport : T)
    : ConnectionSlot.t D C * result unit EngineError.t :=
  let slot_limit := ConnectionSlotLimits.transport_retained_bytes (limits self) in
  let reported_limit := TransportLimits.retained_bytes (tr_pressure_limit transport) in
  let expected_limit := default slot_limit (transport_retained_limit self) in
  if rb_gtb reported_limit slot_limit
     || match transport_retained_limit self with
        | Some bound => negb (rb_eqb bound reported_limit)
        | None => false
        end
  then
    let '(self, _) := observe_transport_pressure self transport in
    (pressure_failure self TransportFailureKind.Contract,
     Err (invariant (EngineInvariant.TransportLimitContract expected_limit reported_limit)))
  else
    let self := set_transport_retained_limit self (Some reported_limit) in
    let '(self, pressure) := observe_transport_pressure self transport in
    if negb (rb_gtb (TransportPressure.total pressure) reported_limit) then (self, Ok tt)
    else
      (pressure_failure self TransportFailureKind.Capacity,
       Err (invariant (EngineInvariant.TransportRetainedCapacity reported_limit pressure))).

(** [self.capture_transport_pressure(transport)] on the driven state. *)
Definition capture : DM unit := λ '(self, heap, transport),
  let '(self, r) := capture_transport_pressure self transport in (self, heap, transport, r).

(** ** Deadlines ([deadline.rs]) *)

(** [deadline.is_none_or(|other| d <= other)]. *)
Definition first_of (d : Deadline) (other : option Deadline) : bool :=
  match other with Some other => deadline_leb d other | None => true end.

Definition drain_first (self : ConnectionSlot.t D C) (now : Moment) : bool :=
  match drain_deadline self with
  | None => false
  | Some deadline =>
      is_elapsed_at deadline now && first_of deadline (timers_next_deadline (timers self))
      && (negb (is_connecting self) || deadline_leb deadline (connect_deadline self))
  end.

Definition connect_first (self : ConnectionSlot.t D C) (now : Moment) : bool :=
  is_connecting self && is_elapsed_at (connect_deadline self) now
  && first_of (connect_deadline self) (timers_next_deadline (timers self)).

(** The timer that is due, and its entry of the index, leave the slot. *)
Definition pop_timer (self : ConnectionSlot.t D C) (now : Moment)
    : ConnectionSlot.t D C * option DeadlineEvent.t :=
  match timers_pop_due (timers self) now with
  | (timers, None) => (set_timers self timers, None)
  | (timers, Some (token, event)) =>
      let self := set_timers self timers in
      let self :=
        match position (λ entry, timer_token_eqb (DeadlineEntry.token entry) token)
                (deadlines self) with
        | Some index =>
            match swap_remove index (deadlines self) with
            | Some (_, deadlines) => set_deadlines self deadlines
            | None => self
            end
        | None => self
        end in
      (self, Some event)
  end.

(** The [while work < budget] loop, each round of which does one unit of work. *)
Fixpoint deadlines_loop (fuel : nat) (now : Moment) (budget work : Z)
    : M (D := D) (C := C) Z := λ '(self, heap),
  match fuel with
  | O => (self, heap, Ok work)
  | S fuel =>
  if budget <=? work then (self, heap, Ok work)
  else if drain_first self now then
    let self :=
      record_transport_failure self
        (TransportDiagnostic.new TransportFailurePhase.Shutdown TransportFailureKind.TimedOut
           ErrorKind.TimedOut None) in
    let self := set_drain_deadline self None in
    (close_for CloseReason.Requested ;;! ste_ret (work + 1)) (self, heap)
  else if connect_first self now then
    (close_for CloseReason.ConnectTimedOut ;;! ste_ret (work + 1)) (self, heap)
  else match pop_timer self now with
  | (self, None) => (self, heap, Ok work)
  | (self, Some event) =>
      (apply_input (ConnectionInput.DeadlineElapsed (DeadlineEvent.epoch event)
                      (DeadlineEvent.operation event) now) ;;!
       λ '(self, heap),
         match close_request self with
         | Some _ => (self, heap, Ok (work + 1))
         | None => deadlines_loop fuel now budget (work + 1) (self, heap)
         end) (self, heap)
  end end.

Definition drive_deadlines (now : Moment) (budget : Z) : M Z :=
  deadlines_loop (Z.to_nat budget) now budget 0.

Definition elapsed (now : Moment) (deadline : option Deadline) : bool :=
  match deadline with Some deadline => is_elapsed_at deadline now | None => false end.

Definition has_due_deadline (self : ConnectionSlot.t D C) (now : Moment) : bool :=
  (is_connecting self && is_elapsed_at (connect_deadline self) now)
  || elapsed now (drain_deadline self)
  || elapsed now (timers_next_deadline (timers self)).

(** ** Application bytes ([application.rs]) *)

Definition drive_decoder_once : M (D := D) (C := C) unit := λ '(self, heap),
  match FrameDriver.next_frame (decoder self) with
  | (decoder, Ok None) =>
      let self := set_decoder_pending (set_decoder self decoder) false in
      if negb (rb_gtb (ConnectionSlotLimits.decoder_bytes (limits self))
                 (FrameDriver.retained_bytes decoder))
      then close_for CloseReason.InboundRetainedCapacity (self, heap)
      else (self, heap, Ok tt)
  | (decoder, Err error) =>
      let self := set_decoder_pending (set_decoder self decoder) false in
      close_decode_error error (self, heap)
  | (decoder, Ok (Some frame)) =>
      let self := set_decoder self decoder in
      if rb_gtb (retained_bytes frame) (ConnectionSlotLimits.reply_bytes (limits self))
      then close_for CloseReason.InboundRetainedCapacity (self, heap)
      else match reply_key (classifier self) frame with
      | (classifier, Err _) => close_malformed (set_classifier self classifier, heap)
      | (classifier, Ok key) =>
          let self := set_classifier self classifier in
          (let! transition :=
             core_try (ConnectionCore.apply_reply (InboundReply.new (epoch self) key frame)) in
           interpret_reply transition) (self, heap)
      end
  end.

(** The bytes the decoder still has room for, at most the read buffer. *)
Definition read_length (self : ConnectionSlot.t D C) : Z :=
  Z.min
    (u64_saturating_sub (rb_get (ConnectionSlotLimits.decoder_bytes (limits self)))
       (rb_get (FrameDriver.retained_bytes (decoder self))))
    (Z.of_nat (length (read_buffer self))).

Definition record_io (self : ConnectionSlot.t D C) (phase : TransportFailurePhase.t)
    (source : IoError.t) : ConnectionSlot.t D C :=
  record_transport_failure self (TransportDiagnostic.from_io phase source).

(** [self.decoder.feed(bytes)] and what follows. *)
Definition feed_decoder (bytes : list Byte.byte) : M (D := D) (C := C) unit := λ '(self, heap),
  match FrameDriver.feed (decoder self) bytes with
  | (decoder, Err error) => close_decode_error error (set_decoder self decoder, heap)
  | (decoder, Ok _) => (set_decoder_pending (set_decoder self decoder) true, heap, Ok tt)
  end.

Definition drive_read_once : DM (option unit) := λ '(self, heap, transport),
  if negb (tr_can_read transport) then (self, heap, transport, Ok None)
  else
    let length := read_length self in
    if length =? 0 then
      on_slot (close_for CloseReason.InboundRetainedCapacity ;;! ste_ret (Some tt))
        (self, heap, transport)
    else
      let '(transport, filled, r) :=
        tr_read transport (take (Z.to_nat length) (read_buffer self)) in
      let self := set_read_buffer self (filled ++ drop (Z.to_nat length) (read_buffer self)) in
      match r with
      | Ok read =>
          if read =? 0 then
            on_slot (close_for CloseReason.TransportLost ;;! ste_ret (Some tt))
              (self, heap, transport)
          else if length <? read then
            (self, heap, transport,
             Err (invariant (EngineInvariant.TransportReadContract length read)))
          else
            on_slot (feed_decoder (take (Z.to_nat read) (read_buffer self)) ;;! ste_ret (Some tt))
              (self, heap, transport)
      | Err source =>
          if bool_decide (IoError.kind source = ErrorKind.WouldBlock)
          then (self, heap, tr_clear_read transport, Ok (Some tt))
          else
            on_slot (close_for CloseReason.TransportLost ;;! ste_ret (Some tt))
              (record_io self TransportFailurePhase.Read source, heap, transport)
      end.

(** [self.core.advance_write(epoch, effect, written)], then its effects. *)
Definition report_written (slice : WriteSlice.t) (written : Z) : M (D := D) (C := C) unit :=
  let! transition :=
    core_try (ConnectionCore.advance_write (WriteSlice.epoch slice) (WriteSlice.effect slice)
                written) in
  interpret_unit transition.

Definition drive_write_once : DM (option unit) := λ '(self, heap, transport),
  if negb (tr_is_open transport) then (self, heap, transport, Ok None)
  else match core_try (ConnectionCore.front_write
                         (ConnectionSlotLimits.io_chunk_bytes (limits self))) (self, heap) with
  | (s, Err e) => (s, transport, Err e)
  | (s, Ok None) => (s, transport, Ok None)
  | (self, heap, Ok (Some front)) =>
      match WriteSlice.bytes front with
      | [] => on_slot (report_written front 0 ;;! ste_ret (Some tt)) (self, heap, transport)
      | _ :: _ =>
          if negb (tr_can_write transport) then (self, heap, transport, Ok None)
          else match tr_write transport (WriteSlice.bytes front) with
          | (transport, Ok written) =>
              if written =? 0 then
                on_slot (close_for CloseReason.TransportLost ;;! ste_ret (Some tt))
                  (self, heap, transport)
              else
                on_slot (report_written front written ;;! ste_ret (Some tt))
                  (self, heap, transport)
          | (transport, Err source) =>
              if bool_decide (IoError.kind source = ErrorKind.WouldBlock)
              then (self, heap, tr_clear_write transport, Ok (Some tt))
              else
                on_slot (close_for CloseReason.TransportLost ;;! ste_ret (Some tt))
                  (record_io self TransportFailurePhase.Write source, heap, transport)
          end
      end
  end.

Definition desired_interest (self : ConnectionSlot.t D C) (transport : T) : Interest :=
  tr_desired_interest transport
    (0 <? Z.of_nat (ConnectionCore.queued_write_frames (core self))).

Definition has_runnable_io (self : ConnectionSlot.t D C) (transport : T) : bool :=
  decoder_pending self
  || (is_connecting self
      && (tr_is_open transport || tr_can_establish transport))
  || (is_transport_open self && tr_has_transport_work transport)
  || (is_transport_open self && tr_can_read transport)
  || (is_transport_open self && tr_is_open transport
      && (0 <? Z.of_nat (ConnectionCore.queued_write_frames (core self)))
      && (ConnectionCore.front_write_is_empty (core self) || tr_can_write transport)).

(** ** Transport-local work ([transport.rs]) *)

Definition validate_transport_progress (budget : TransportBudget.t)
    (progress : TransportProgress.t) : result unit EngineError.t :=
  if negb (TransportProgress.fits progress budget)
  then Err (invariant (EngineInvariant.TransportProgressContract budget progress))
  else if TransportProgress.is_idle progress
  then Err (invariant EngineInvariant.TransportNoProgress)
  else Ok tt.

(** One operation, and a chunk in each direction. *)
Definition transport_budget (self : ConnectionSlot.t D C) : TransportBudget.t :=
  TransportBudget.new (mk_nonzero 1) (ConnectionSlotLimits.io_chunk_bytes (limits self))
    (ConnectionSlotLimits.io_chunk_bytes (limits self)).

(** A failed transport call is recorded and closes the epoch. *)
Definition transport_failed (source : TransportError.t) (reason : CloseReason.t)
    : DM (option Z) :=
  update (λ self, record_transport_failure self (TransportError.diagnostic source)) ;;!
  on_slot (close_for reason) ;;!
  ste_ret (Some 1).

Definition drive_establishment_once : DM (option Z) := λ '(self, heap, transport),
  if negb (tr_can_establish transport) then (self, heap, transport, Ok None)
  else
    let budget := transport_budget self in
    match tr_drive_establishment transport (socket_policy self) budget with
    | (transport, Err source) =>
        transport_failed source CloseReason.ConnectFailed (self, heap, transport)
    | (transport, Ok progress) =>
        match validate_transport_progress budget progress with
        | Err e => (self, heap, transport, Err e)
        | Ok _ =>
            ((if tr_is_open transport
              then on_slot (local (λ self,
                     publish_transport_opened (set_transport_state self TransportState.Open)))
              else ste_ret tt) ;;!
             ste_ret (Some (TransportProgress.operations progress))) (self, heap, transport)
        end
    end.

Definition drive_transport_once (remaining : Z) : DM (option Z) := λ '(self, heap, transport),
  if is_connecting self && tr_is_open transport
  then (self, heap, transport,
        Err (invariant EngineInvariant.TransportOpenedBeforeEstablishment))
  else if remaining =? 0 then (self, heap, transport, Ok None)
  else if is_connecting self then drive_establishment_once (self, heap, transport)
  else if negb (tr_has_transport_work transport)
  then (self, heap, transport, Ok None)
  else
    let budget := transport_budget self in
    match tr_drive_transport transport budget with
    | (transport, Err source) =>
        transport_failed source CloseReason.TransportLost (self, heap, transport)
    | (transport, Ok progress) =>
        match validate_transport_progress budget progress with
        | Err e => (self, heap, transport, Err e)
        | Ok _ => (self, heap, transport, Ok (Some (TransportProgress.operations progress)))
        end
    end.

(** ** Graceful shutdown ([shutdown.rs]) *)

Definition complete_shutdown (self : ConnectionSlot.t D C) (reason : CloseReason.t)
    : ConnectionSlot.t D C :=
  set_close_request self (Some (CloseDirective.Core reason ShutdownState.Complete)).

Definition shutdown_timed_out (self : ConnectionSlot.t D C) (reason : CloseReason.t)
    : ConnectionSlot.t D C :=
  force_shutdown_settlement
    (record_transport_failure self
       (TransportDiagnostic.new TransportFailurePhase.Shutdown TransportFailureKind.TimedOut
          ErrorKind.TimedOut None)) reason.

(** What [drive_shutdown_once] and [progress_shutdown] do with the answer of
    [begin_shutdown] or [drive_transport]. *)
Definition shutdown_step (reason : CloseReason.t) (deadline : Deadline)
    (call : T → TransportBudget.t → T * result TransportProgress.t TransportError.t)
    : DM (option Z) := λ '(self, heap, transport),
  let budget := transport_budget self in
  let '(transport, r) := call transport budget in
  let '(self, pressure) := capture_transport_pressure self transport in
  match r with
  | Err source =>
      let self :=
        record_transport_failure self
          (TransportDiagnostic.in_phase (TransportError.diagnostic source)
             TransportFailurePhase.Shutdown) in
      let self := force_shutdown_settlement self reason in
      (self, heap, transport,
       match pressure with Err e => Err e | Ok _ => Ok (Some 1) end)
  | Ok progress =>
      match pressure with
      | Err e => (force_shutdown_settlement self reason, heap, transport, Err e)
      | Ok _ =>
      match validate_transport_progress budget progress with
      | Err e => (force_shutdown_settlement self reason, heap, transport, Err e)
      | Ok _ =>
          let shutdown :=
            if tr_is_shutdown_complete transport
            then ShutdownState.Complete else ShutdownState.Started deadline in
          (set_close_request self (Some (CloseDirective.Core reason shutdown)), heap, transport,
           Ok (Some (TransportProgress.operations progress)))
      end end
  end.

Definition drive_shutdown_once (now : Moment) (remaining : Z) : DM (option Z) :=
  λ '(self, heap, transport),
  match close_request self with
  | Some (CloseDirective.Core reason
            ((ShutdownState.Pending deadline | ShutdownState.Started deadline) as shutdown)) =>
      if is_elapsed_at deadline now
      then (shutdown_timed_out self reason, heap, transport, Ok (Some 1))
      else if remaining =? 0 then (self, heap, transport, Ok None)
      else match shutdown with
      | ShutdownState.Pending _ =>
          shutdown_step reason deadline tr_begin_shutdown (self, heap, transport)
      | _ =>
          if tr_is_shutdown_complete transport
          then (complete_shutdown self reason, heap, transport, Ok None)
          else if negb (tr_has_transport_work transport)
          then (self, heap, transport, Ok None)
          else shutdown_step reason deadline tr_drive_transport (self, heap, transport)
      end
  | _ => (self, heap, transport, Ok None)
  end.

Definition observe_shutdown_complete (self : ConnectionSlot.t D C) (transport : T)
    : ConnectionSlot.t D C :=
  match close_request self with
  | Some (CloseDirective.Core reason (ShutdownState.Started _)) =>
      if tr_is_shutdown_complete transport then complete_shutdown self reason else self
  | _ => self
  end.

Definition has_runnable_shutdown (self : ConnectionSlot.t D C) (now : Moment) (transport : T)
    : bool :=
  match close_request self with
  | Some (CloseDirective.Core _ (ShutdownState.Pending _)) => true
  | Some (CloseDirective.Core _ (ShutdownState.Started deadline)) =>
      is_elapsed_at deadline now || tr_is_shutdown_complete transport
      || tr_has_transport_work transport
  | _ => false
  end.

(** ** The quantum ([slot.rs]) *)

(** One direction of [drive_ready_once]. *)
Definition drive_preferred (current : IoPreference.t) (remaining : Z) : DM (option Z) :=
  λ '(self, heap, transport),
  let one := λ progressed : option unit, (λ _, 1) <$> progressed in
  match current with
  | IoPreference.Transport => drive_transport_once remaining (self, heap, transport)
  | IoPreference.Decode =>
      if decoder_pending self
      then on_slot (drive_decoder_once ;;! ste_ret (Some 1)) (self, heap, transport)
      else (self, heap, transport, Ok None)
  | IoPreference.Read =>
      if is_transport_open self
      then (let! progressed := drive_read_once in ste_ret (one progressed))
             (self, heap, transport)
      else (self, heap, transport, Ok None)
  | IoPreference.Write =>
      if is_transport_open self
      then (let! progressed := drive_write_once in ste_ret (one progressed))
             (self, heap, transport)
      else (self, heap, transport, Ok None)
  end.

(** [let pressure = self.capture_transport_pressure(transport); let progressed =
    result?; pressure?;]: the pressure is observed whether the step failed or not. *)
Definition observed {A : Type} (f : DM A) : DM A := λ s,
  let '(s, r) := f s in
  let '(s, pressure) := capture s in
  (s, match r, pressure with
      | Err e, _ => Err e
      | Ok _, Err e => Err e
      | Ok a, Ok _ => Ok a
      end).

(** The [for _ in 0..4] loop. *)
Fixpoint ready_loop (rounds : nat) (preference : IoPreference.t) (remaining : Z)
    : DM (option Z) :=
  match rounds with
  | O => ste_ret None
  | S rounds =>
      let! progressed := observed (drive_preferred preference remaining) in
      let preference := IoPreference.next preference in
      match progressed with
      | Some _ =>
          update (λ self, set_io_preference self preference) ;;! ste_ret progressed
      | None => ready_loop rounds preference remaining
      end
  end.

Definition drive_ready_once (remaining : Z) : DM (option Z) := λ '(self, heap, transport),
  ready_loop 4 (io_preference self) remaining (self, heap, transport).

(** The slot, the heap and [Option<&mut T>]. *)
Definition hosted : Type := owner D C * option T.

Definition HM (A : Type) : Type := STE hosted EngineError.t A.

(** A method on the transport that is there. *)
Definition on_transport {A : Type} (s : owner D C) (transport : T) (f : DM A)
    : hosted * result A EngineError.t :=
  let '(s, transport, r) := f (s, transport) in (s, Some transport, r).

Definition runnable_io (self : ConnectionSlot.t D C) (transport : option T) : bool :=
  match transport with Some transport => has_runnable_io self transport | None => false end.

(** One round of the [drive_io] loop. *)
Definition io_step (remaining : Z) : HM (option Z) := λ '(self, heap, transport),
  match transport with
  | Some transport => on_transport (self, heap) transport (drive_ready_once remaining)
  | None =>
      if decoder_pending self then
        match drive_decoder_once (self, heap) with
        | (s, Err e) => (s, None, Err e)
        | (self, heap, Ok _) =>
            (set_io_preference self IoPreference.Read, heap, None, Ok (Some 1))
        end
      else (self, heap, None, Ok None)
  end.

Fixpoint io_loop (fuel : nat) (budget work : Z) : HM Z := λ '(self, heap, transport),
  match fuel with
  | O => (self, heap, transport, Ok work)
  | S fuel =>
      if (work <? budget) && negb (bool_decide (is_Some (close_request self))) then
        (let! progressed := io_step (budget - work) in
         match progressed with
         | None => ste_ret work
         | Some progressed => io_loop fuel budget (work + progressed)
         end) (self, heap, transport)
      else (self, heap, transport, Ok work)
  end.

Definition drive_io (budget : Z) : HM SlotProgress.t :=
  let! work := io_loop (Z.to_nat budget) budget 0 in
  λ '(self, heap, transport),
    (self, heap, transport,
     Ok (SlotProgress.mk work
           ((work =? budget) && negb (bool_decide (is_Some (close_request self)))
            && (decoder_pending self || runnable_io self transport)))).

Fixpoint close_loop (fuel : nat) (now : Moment) (budget work : Z) : HM Z :=
  λ '(self, heap, transport),
  match fuel, transport with
  | S fuel, Some transport =>
      if work <? budget then
        match on_transport (self, heap) transport
                (drive_shutdown_once now (budget - work)) with
        | (s, Err e) => (s, Err e)
        | (s, Ok None) => (s, Ok work)
        | (s, Ok (Some progressed)) =>
            close_loop fuel now budget (usize_saturating_add work progressed) s
        end
      else (self, heap, Some transport, Ok work)
  | _, _ => (self, heap, transport, Ok work)
  end.

Definition drive_close_quantum (now : Moment) (budget work : Z) : HM SlotProgress.t :=
  let! work := close_loop (Z.to_nat (budget - work)) now budget work in
  λ '(self, heap, transport),
    (self, heap, transport,
     Ok (SlotProgress.mk work
           ((work =? budget)
            && match transport with
               | Some transport => has_runnable_shutdown self now transport
               | None => false
               end))).

Definition on_owner {A : Type} (f : M (D := D) (C := C) A) : HM A := λ '(s, transport),
  let '(s, r) := f s in (s, transport, r).

Definition capture_present : HM unit := λ '(self, heap, transport),
  match transport with
  | None => (self, heap, None, Ok tt)
  | Some transport =>
      let '(self, r) := capture_transport_pressure self transport in
      (self, heap, Some transport, r)
  end.

Definition io_budget (self : ConnectionSlot.t D C) : Z :=
  nonzero_get (ConnectionSlotLimits.io_operations (limits self)).

(** The end of [drive_quantum_inner], after the deadlines. *)
Definition after_deadlines (now : Moment) (budget work : Z) : HM SlotProgress.t :=
  λ '(self, heap, transport),
  if bool_decide (is_Some (close_request self))
  then drive_close_quantum now budget work (self, heap, transport)
  else if work =? budget then
    (self, heap, transport,
     Ok (SlotProgress.mk work
           (has_due_deadline self now
            || (decoder_pending self || runnable_io self transport))))
  else
    (let! io := drive_io (budget - work) in
     let work := usize_saturating_add work (SlotProgress.work io) in
     λ '(self, heap, transport),
       if bool_decide (is_Some (close_request self))
       then drive_close_quantum now budget work (self, heap, transport)
       else (self, heap, transport, Ok (SlotProgress.mk work (SlotProgress.saturated io))))
      (self, heap, transport).

Definition drive_quantum_inner (now : Moment) : HM SlotProgress.t := λ '(self, heap, transport),
  let budget := io_budget self in
  (capture_present ;;!
   (let! work := λ '(self, heap, transport),
      match close_request self with
      | None => on_owner (drive_deadlines now budget) (self, heap, transport)
      | Some _ => (self, heap, transport, Ok 0)
      end in
    after_deadlines now budget work)) (self, heap, transport).

(** [drive_quantum]: fenced by [ensure_running], latched on failure. *)
Definition drive_quantum (now : Moment) : HM SlotProgress.t := λ '(self, heap, transport),
  match ensure_running self with
  | Err e => (self, heap, transport, Err e)
  | Ok _ =>
      match drive_quantum_inner now (self, heap, transport) with
      | (self, heap, transport, Err error) =>
          (latch_failure self error, heap, transport, Err error)
      | ok => ok
      end
  end.

End drive.
End Drive.
