(* ===== verification/SlotSpec.v ===== *)
(** * The invariant of a slot, and what interpreting a transition does to it

    [hosted] ties the fields of a slot to the observable state of its core:
    outcomes pending publication, armed deadlines, published lifecycle edges,
    and the phase of physical closure. [interpret_spec] is the heart of the
    owner: the effects of a transition that is [told] take a slot hosting one
    state to a slot hosting the next, and never fail. *)
From Stdlib Require Import ZArith Lia.
From stdpp Require Import prelude.
From S2P Require Import Prelude External Host Identity Limits Admission Ledger Operation Permit.
From S2P Require Import Write Framing Machine Core Recovery Reference ReferenceFacts CoreView.
From S2P Require Import Config Transport SlotData Slot.

(** ** Armed deadlines *)

Module Armed.
Section armed.
Context {Cal : Calandria} {H : Host} {HL : HostLaws H}.

(** An entry of the timer queue, the index entry that names it, and the
    deadline it stands for. *)
Definition timer : Type := TimerToken * Deadline * DeadlineEvent.t.
Definition operation_of (e : timer) : OperationId.t := DeadlineEvent.operation e.2.
Definition indexed (e : timer) : DeadlineEntry.t := DeadlineEntry.mk (operation_of e) e.1.1.
Definition due (e : timer) : OperationId.t * Deadline := (operation_of e, e.1.2).

(** The index names exactly the armed entries, one per operation. *)
Record mirror (index : list DeadlineEntry.t) (entries : list timer) : Prop := mk_mirror {
  mi_index : index ≡ₚ indexed <$> entries;
  mi_tokens : NoDup (entries.*1.*1);
  mi_operations : NoDup (operation_of <$> entries);
}.

#[global] Instance mirror_perm : Proper ((≡ₚ) ==> (≡ₚ) ==> iff) mirror.
Proof.
  assert (∀ i i' es es', i ≡ₚ i' → es ≡ₚ es' → mirror i es → mirror i' es') as Himp.
  { intros i i' es es' Hi He []. split; rewrite <- ?Hi, <- ?He; done. }
  intros i i' Hi es es' He. split; apply Himp; done || by symmetry.
Qed.

Lemma mirror_cons index i e es :
  mirror (i :: index) (e :: es) → i = indexed e → mirror index es.
Proof.
  intros [Hi Ht Ho] ->. rewrite fmap_cons in *. apply NoDup_cons in Ht as [_ ?], Ho as [_ ?].
  split; [by apply Permutation_cons_inv in Hi|done|done].
Qed.

(** The entry of an operation is the only one. *)
Lemma mirror_find index es d op :
  mirror index es → d ∈ index → DeadlineEntry.operation d = op →
  ∃ e es', es ≡ₚ e :: es' ∧ indexed e = d ∧ operation_of e = op ∧
    (op ∉ operation_of <$> es') ∧ (e.1.1 ∉ es'.*1.*1).
Proof.
  intros [Hi Ht Ho] Hd <-. rewrite Hi in Hd. apply list_elem_of_fmap in Hd as (e & -> & He).
  apply elem_of_Permutation in He as (es' & Hes). exists e, es'.
  rewrite Hes in Ht, Ho. rewrite fmap_cons in *.
  apply NoDup_cons in Ht as [? _], Ho as [? _]. by split_and!.
Qed.

(** Cancelling by token and cancelling by operation are the same. *)
Lemma filter_token (token : TimerToken) (es : list timer) :
  token ∉ es.*1.*1 → List.filter (λ e, negb (timer_token_eqb e.1.1 token)) es = es.
Proof.
  induction es as [|e es IH]; [done|]. rewrite !fmap_cons.
  intros [Hne Hn]%not_elem_of_cons. simpl.
  destruct (timer_token_eqb e.1.1 token) eqn:Heq.
  - apply timer_token_eqb_spec in Heq. congruence.
  - simpl. by rewrite IH.
Qed.

Lemma filter_operation op (es : list timer) :
  op ∉ operation_of <$> es → filter (λ e, operation_of e ≠ op) es = es.
Proof.
  induction es as [|e es IH]; [done|]. rewrite fmap_cons.
  intros [Hne Hn]%not_elem_of_cons. rewrite filter_cons_True by congruence. by rewrite IH.
Qed.

Lemma filter_nothing (es : list timer) :
  filter (λ e, operation_of e ∉ ([] : list OperationId.t)) es = es.
Proof.
  induction es as [|e es IH]; [done|]. rewrite filter_cons_True by set_solver. by rewrite IH.
Qed.

#[global] Instance list_filter_perm {A : Type} (f : A → bool) :
  Proper ((≡ₚ) ==> (≡ₚ)) (List.filter f).
Proof.
  induction 1 as [|x l l' _ IH|x y l|l1 l2 l3 _ IH1 _ IH2]; simpl; repeat case_match;
    solve [done | by rewrite IH | by constructor | by etrans].
Qed.

Lemma mirror_cancel index index' es d op :
  mirror index es → index ≡ₚ d :: index' → DeadlineEntry.operation d = op →
  let es' := List.filter (λ e, negb (timer_token_eqb e.1.1 (DeadlineEntry.token d))) es in
  es' ≡ₚ filter (λ e, operation_of e ≠ op) es ∧ mirror index' es'.
Proof.
  intros Hm Hi Hd. cbv zeta.
  destruct (mirror_find _ _ d op Hm) as (e & es1 & Hes & He & Hop & Hno & Hnt);
    [rewrite Hi; constructor|done|].
  assert (DeadlineEntry.token d = e.1.1) as Htok by (by rewrite <- He).
  assert (List.filter (λ e, negb (timer_token_eqb e.1.1 (DeadlineEntry.token d))) es ≡ₚ es1)
    as Hf.
  { rewrite Hes, Htok. simpl. rewrite (proj2 (timer_token_eqb_spec _ _) eq_refl). simpl.
    by rewrite filter_token. }
  rewrite Hf. split.
  - rewrite Hes, filter_cons_False by auto. by rewrite filter_operation.
  - rewrite Hi, Hes in Hm. by eapply mirror_cons.
Qed.

(** An operation the index does not name has no entry. *)
Lemma mirror_absent index es op :
  mirror index es → Forall (λ d, bool_decide (DeadlineEntry.operation d = op) = false) index →
  op ∉ operation_of <$> es.
Proof.
  intros [Hi _ _] Hall. rewrite Hi in Hall. intros (e & -> & He)%list_elem_of_fmap.
  rewrite Forall_forall in Hall. specialize (Hall (indexed e)).
  rewrite bool_decide_eq_false in Hall. apply Hall; [|done]. by apply list_elem_of_fmap_2.
Qed.

Lemma filter_due (cancelled : list OperationId.t) (es : list timer) :
  due <$> filter (λ e, operation_of e ∉ cancelled) es =
    filter (λ p, p.1 ∉ cancelled) (due <$> es).
Proof.
  induction es as [|e es IH]; [done|]. rewrite fmap_cons, !filter_cons, <- IH.
  by repeat case_decide.
Qed.

End armed.
End Armed.

(** ** The invariant *)

Module Hosted.
Section hosted.
Context {Cal : Calandria} {BB : ByteBudgetLib} {Build : BuildConfig} {H : Host}.
Context {Laws : CalandriaLaws Cal} {BLaws : ByteBudgetLaws BB} {HL : HostLaws H}.
Context {D C : Type} {Dec : FrameDecoder D} {Ret : Retained Frame}.
Context {Cls : InboundClassifier Frame C}.

Import Told ConnectionSlot.

Notation slot := (ConnectionSlot.t D C).
Implicit Types (self : slot) (v : Reference.state).

(** What a caller of the slot could have noted down: the permits it holds,
    the operations it was told are accepted, the outcomes and lifecycle events
    it drained, and how many of the deadlines it was told of have fired. *)
Record notes : Type := mk_notes {
  permits : list OperationPermit.t;
  accepted : list OperationId.t;
  delivered : list (EngineOutcome.t Frame);
  observed : list ConnectionEvent.t;
  fired : nat;
}.

(** The bounds of a slot are consistent, and its lifecycle queue holds the
    four edges of an epoch. *)
Record valid_limits (l : ConnectionSlotLimits.t) : Prop := mk_valid {
  vl_connection : ConnectionLimits.valid (ConnectionSlotLimits.connection l);
  vl_capacity : nonzero_get (ConnectionSlotLimits.operation_capacity l) =
    ConnectionLimits.max_operations (ConnectionSlotLimits.connection l);
  vl_bytes : rb_get (ConnectionSlotLimits.outcome_bytes l) =
    rb_get (ConnectionSlotLimits.reply_bytes l) *
      nonzero_get (ConnectionSlotLimits.operation_capacity l);
  vl_io : 1 ≤ nonzero_get (ConnectionSlotLimits.io_operations l);
  vl_chunk : 1 ≤ nonzero_get (ConnectionSlotLimits.io_chunk_bytes l);
  vl_events : 4 ≤ nonzero_get
    (PublicationLimits.lifecycle_events (ConnectionSlotLimits.publication l));
}.

(** Limits that are accepted are consistent. *)
Lemma slot_limits_new_valid connection decoder io transport publication l :
  ConnectionLimits.valid connection →
  1 ≤ nonzero_get (IoLimits.operations io) → 1 ≤ nonzero_get (IoLimits.chunk_bytes io) →
  4 ≤ nonzero_get (PublicationLimits.lifecycle_events publication) →
  ConnectionSlotLimits.new connection decoder io transport publication = Ok l → valid_limits l.
Proof.
  intros Hc Hops Hchunk Hev. unfold ConnectionSlotLimits.new, nonzero_new.
  pose proof Hc as [[Hmin _] _].
  destruct (Z.eqb_spec (ConnectionLimits.max_operations connection) 0) as [|Hne]; [lia|].
  unfold u64_checked_mul. destruct (Z.leb_spec
    (rb_get (DecoderLimits.reply_bytes decoder) * ConnectionLimits.max_operations connection)
    U64_MAX) as [Hmax|]; [|done].
  intros [= <-]. split; simpl; [done|done| |done..]. rewrite rb_get_new; [done|].
  pose proof (rb_get_nonneg (DecoderLimits.reply_bytes decoder)). unfold in_u64. nia.
Qed.

Context (lim : ConnectionSlotLimits.t) (Hlim : valid_limits lim) (ep : ConnectionEpoch.t).

Definition capacity : Z := nonzero_get (ConnectionSlotLimits.operation_capacity lim).

(** An outcome the slot reserved room for. *)
Definition small (o : EngineOutcome.t Frame) : Prop :=
  EngineOutcome.epoch o = ep ∧
  rb_get (retained_bytes o) ≤ rb_get (ConnectionSlotLimits.reply_bytes lim).

(** Every accepted operation has exactly one outcome, drained, pending or
    still owed, and every one still owed has room. *)
Record outcomes_ok (n : notes) v self : Prop := mk_outcomes {
  oc_once : accepted n ≡ₚ
    (EngineOutcome.operation <$> delivered n ++ batch_items (outcomes self)) ++ live v;
  oc_room : Z.of_nat (length (batch_items (outcomes self)) + length (live v)
    + length (permits n)) ≤ capacity;
  oc_small : Forall small (batch_items (outcomes self));
  oc_bound : batch_bound (outcomes self) =
    (capacity, rb_get (ConnectionSlotLimits.outcome_bytes lim));
  oc_recovery : batch_items (recovery_outcomes self) = [];
}.

(** Exactly these deadlines are armed. *)
Record timers_ok (armed : list (OperationId.t * Deadline)) self : Prop := mk_timers {
  tm_mirror : Armed.mirror (deadlines self) (timer_entries (timers self));
  tm_armed : Armed.due <$> timer_entries (timers self) ≡ₚ armed;
  tm_epoch : Forall (λ e, DeadlineEvent.epoch e.2 = ep) (timer_entries (timers self));
  tm_bound : timer_bound (timers self) = capacity;
}.

(** The lifecycle edges of an epoch, in order. *)
Definition edge : Type := Z → ConnectionEpoch.t → ConnectionEvent.t.

Definition closing_edges v : list edge :=
  match Reference.phase v, Reference.reason v with
  | ConnectionPhase.Live, _ | _, None => []
  | ConnectionPhase.Closing, Some why =>
      [λ sequence epoch, ConnectionEvent.Closing sequence epoch why]
  | ConnectionPhase.Closed, Some why =>
      [(λ sequence epoch, ConnectionEvent.Closing sequence epoch why);
       (λ sequence epoch, ConnectionEvent.Closed sequence epoch why)]
  end.

Definition edges (opened admitted : bool) v : list edge :=
  (if opened then [ConnectionEvent.TransportOpened] else []) ++
  (if admitted then [ConnectionEvent.AdmissionOpened] else []) ++ closing_edges v.

Definition numbered (l : list edge) : list ConnectionEvent.t :=
  imap (λ i f, f (Z.of_nat (S i)) ep) l.

(** The published edges are these, numbered from one. *)
Record events_ok (n : notes) (log : list edge) self : Prop := mk_events {
  ev_log : observed n ++ batch_items (lifecycle self) = numbered log;
  ev_sequence : event_sequence self = Z.of_nat (length log);
  ev_bound : batch_bound (lifecycle self) =
    (nonzero_get (PublicationLimits.lifecycle_events (ConnectionSlotLimits.publication lim)), 0);
}.

(** Which edges are behind us: admission opens at most once and only over an
    open transport. *)
Record staged (opened admitted : bool) v self : Prop := mk_staged {
  sg_admitted : admitted = true → opened = true;
  sg_gate : Reference.gate v = AdmissionGate.SessionOnly → admitted = false;
  sg_connecting : transport_state self = TransportState.Connecting → opened = false;
  sg_open : transport_state self = TransportState.Open → opened = true;
}.

(** How far physical closure is, in a running slot. *)
Record links v self : Prop := mk_links {
  lk_state : state self = EngineState.Running;
  lk_drain : Reference.phase v = ConnectionPhase.Live →
    Reference.gate v = AdmissionGate.Draining → is_Some (drain_deadline self);
  lk_close :
    match Reference.phase v with
    | ConnectionPhase.Live => close_request self = None ∧
        (transport_state self = TransportState.Connecting ∨
         transport_state self = TransportState.Open)
    | ConnectionPhase.Closing => transport_state self = TransportState.Closing ∧
        ∃ why shutdown, close_request self = Some (CloseDirective.Core why shutdown) ∧
          Reference.reason v = Some why
    | ConnectionPhase.Closed => transport_state self = TransportState.Closed ∧
        close_request self = None
    end;
  lk_undrained : Reference.phase v = ConnectionPhase.Closing → drain_deadline self = None;
}.

(** How many deadlines can still fire: those of operations, of the connection
    attempt, of a drain, which may still begin while the gate is not draining
    and then ends in a shutdown, and of a shutdown. *)
Definition awaits v self : nat :=
  length (timer_entries (timers self)) + (if is_connecting self then 1 else 0) +
  (match Reference.gate v with AdmissionGate.SessionOnly | AdmissionGate.Open => 2 | _ => 0 end +
   match drain_deadline self with Some _ => 2 | None => 0 end +
   match directive ← close_request self; CloseDirective.shutdown_deadline directive with
   | Some _ => 1
   | None => 0
   end).

(** A running slot whose core shows [v], with these deadlines armed. Beyond
    those of operations only three deadlines ever fire. *)
Record hosting (n : notes) v (armed : list (OperationId.t * Deadline)) self : Prop := mk_hosting {
  ho_limits : limits self = lim;
  ho_epoch : epoch self = ep;
  ho_outcomes : outcomes_ok n v self;
  ho_timers : timers_ok armed self;
  ho_events : ∃ opened admitted,
    events_ok n (edges opened admitted v) self ∧ staged opened admitted v self;
  ho_links : links v self;
  ho_fired : (awaits v self + fired n ≤ 3 + length (accepted n))%nat;
}.

(** Between two calls, every operation the core owns, and no other, has its
    own deadline armed. *)
Definition hosted (n : notes) v self : Prop := hosting n v (Told.deadlines v) self.

(** ** Publication *)

Lemma small_sum (l : list (EngineOutcome.t Frame)) :
  Forall small l →
  zsum (λ o, rb_get (retained_bytes o)) l ≤
    Z.of_nat (length l) * rb_get (ConnectionSlotLimits.reply_bytes lim).
Proof. induction 1 as [|o l [_ Ho] _ IH]; simpl zsum; simpl length; lia. Qed.

(** An outcome with room is published. *)
Lemma publish_spec self (o : EngineOutcome.t Frame) :
  batch_bound (outcomes self) = (capacity, rb_get (ConnectionSlotLimits.outcome_bytes lim)) →
  Forall small (batch_items (outcomes self)) → small o →
  Z.of_nat (length (batch_items (outcomes self))) < capacity →
  ∃ q, publish self o = (set_outcomes self q, Ok tt) ∧
    batch_items q = batch_items (outcomes self) ++ [o] ∧
    batch_bound q = batch_bound (outcomes self).
Proof.
  intros Hb Hs Ho Hroom. pose proof (small_sum (batch_items (outcomes self) ++ [o])) as Hsum.
  rewrite length_app in Hsum. simpl in Hsum.
  destruct (batch_push_room (outcomes self) o) as (q & Hq & Hi & Hb').
  - by rewrite Hb.
  - rewrite Hb. simpl. etrans; [apply Hsum, Forall_app; split; [done|by constructor]|].
    rewrite (vl_bytes _ Hlim). fold capacity.
    pose proof (rb_get_nonneg (ConnectionSlotLimits.reply_bytes lim)). nia.
  - exists q. unfold publish. by rewrite Hq.
Qed.

(** An edge with room is published under the next number. *)
Lemma publish_edge_spec n log self (f : edge) :
  events_ok n log self → epoch self = ep → (length log < 4)%nat →
  (∀ sequence epoch, ConnectionEvent.sequence (f sequence epoch) = sequence) →
  ∃ q, let self' := set_event_sequence (set_lifecycle self q) (Z.of_nat (S (length log))) in
    publish_edge self f = (self', Ok tt) ∧ events_ok n (log ++ [f]) self'.
Proof.
  intros [Hlog Hseq Hb] Hep Hlen Hf. unfold publish_edge, next_event_sequence, u64_checked_add.
  rewrite Hseq. rewrite (proj2 (Z.leb_le _ _)) by (unfold U64_MAX; lia).
  replace (Z.of_nat (length log) + 1) with (Z.of_nat (S (length log))) by lia.
  change (ConnectionCore.epoch (core self)) with (epoch self). rewrite Hep.
  set (e := f _ ep).
  assert (length (observed n) + length (batch_items (lifecycle self)) = length log)%nat as Hl.
  { rewrite <- length_app, Hlog. unfold numbered. by rewrite length_imap. }
  assert (∀ l : list ConnectionEvent.t, zsum (λ x, rb_get (retained_bytes x)) l = 0) as Hz.
  { induction l as [|x l IH]; [done|]. cbn [zsum]. rewrite IH. unfold retained_bytes.
    unfold ConnectionEvent.retained. rewrite rb_get_ZERO. lia. }
  destruct (batch_push_room (lifecycle self) e) as (q & Hq & Hi & Hb').
  { rewrite Hb. simpl. pose proof (vl_events _ Hlim). lia. }
  { rewrite Hb, Hz. done. }
  exists q. cbv zeta. unfold publish_event. rewrite Hq. unfold e. rewrite Hf. split; [done|].
  split; simpl.
  - rewrite Hi, app_assoc, Hlog. unfold numbered. rewrite imap_app. simpl.
    unfold compose. by rewrite Nat.add_0_r.
  - rewrite length_app. simpl. lia.
  - congruence.
Qed.

(** ** Effects *)

(** The slot after effects: outcomes, timers and their index. *)
Definition published_to self (index : list DeadlineEntry.t)
    (tm : TimerQueue DeadlineEvent.t) (q : EventBatch (EngineOutcome.t Frame)) : slot :=
  set_outcomes (set_timers (set_deadlines self index) tm) q.

Lemma cancel_deadline_spec self op :
  Armed.mirror (deadlines self) (timer_entries (timers self)) →
  ∃ index tm, cancel_deadline self op = published_to self index tm (outcomes self) ∧
    timer_entries tm ≡ₚ filter (λ e, Armed.operation_of e ≠ op) (timer_entries (timers self)) ∧
    Armed.mirror index (timer_entries tm) ∧ timer_bound tm = timer_bound (timers self).
Proof.
  intros Hm. unfold cancel_deadline. destruct (position _ (deadlines self)) as [i|] eqn:Hp.
  - apply position_Some in Hp as (d & Hi & Hd%bool_decide_eq_true & _).
    destruct (swap_remove_perm _ _ _ Hi) as (index & -> & Hperm).
    destruct (timers_cancel_entries (timers self) (DeadlineEntry.token d)) as [Hc Hb].
    destruct (Armed.mirror_cancel _ _ _ _ _ Hm Hperm Hd) as [Hf Hm'].
    exists index, (timers_cancel (timers self) (DeadlineEntry.token d)).
    split; [by destruct self|].
    rewrite Hc. by split_and!.
  - apply position_None in Hp. exists (deadlines self), (timers self).
    split; [by destruct self|].
    split; [|done]. apply reflexive_eq. symmetry.
    exact (Armed.filter_operation op _ (Armed.mirror_absent _ _ _ Hm Hp)).
Qed.

(** What an outcome of a transition is published as. *)
Definition convertible {R : Type} (convert : OperationOutcome.t R → option (OperationOutcome.t Frame))
    (answers : R → Prop) : Prop :=
  ∀ o, carries answers o → ∃ o', convert o = Some o' ∧
    rb_get (OperationOutcome.retained_bytes retained_bytes o') ≤
      rb_get (ConnectionSlotLimits.reply_bytes lim).

(** One after the other, effects that ask for no deadline publish their
    outcomes and disarm their deadlines. *)
Lemma effects_spec {R : Type} convert answers (es : list (ConnectionEffect.t R)) :
  convertible convert answers →
  Forall (λ e, plain e = true) es → Forall (λ p, carries answers p.2) (published es) →
  Forall (λ p, p.1.1 = ep) (published es) →
  ∀ self reason,
  batch_bound (outcomes self) = (capacity, rb_get (ConnectionSlotLimits.outcome_bytes lim)) →
  Forall small (batch_items (outcomes self)) →
  Z.of_nat (length (batch_items (outcomes self)) + length (published es)) ≤ capacity →
  Armed.mirror (deadlines self) (timer_entries (timers self)) →
  ∃ index tm q outs,
    foldl (λ acc e, interpret_effect convert e acc) (self, reason, None) es =
      (published_to self index tm q,
       match last (closes es) with Some why => Some why | None => reason end, None) ∧
    timer_entries tm ≡ₚ
      filter (λ e, Armed.operation_of e ∉ cancelled es) (timer_entries (timers self)) ∧
    Armed.mirror index (timer_entries tm) ∧ timer_bound tm = timer_bound (timers self) ∧
    batch_items q = batch_items (outcomes self) ++ outs ∧ Forall small outs ∧
    EngineOutcome.operation <$> outs = (published es).*1.*2 ∧
    batch_bound q = batch_bound (outcomes self).
Proof.
  intros Hconv. induction es as [|e es IH]; intros Hplain Hcar Hep self reason Hb Hs Hroom Hm.
  { exists (deadlines self), (timers self), (outcomes self), []. simpl.
    split; [by destruct self|]. rewrite app_nil_r. split_and!; try done.
    apply reflexive_eq. symmetry. apply Armed.filter_nothing. }
  apply Forall_cons in Hplain as [He Hplain].
  destruct e as [| |epoch op|epoch why|epoch op o]; try done.
  - destruct (cancel_deadline_spec self op Hm) as (index & tm & Hc & Hf & Hm' & Hbt).
    destruct (IH Hplain Hcar Hep (published_to self index tm (outcomes self)) reason Hb Hs Hroom Hm')
      as (index' & tm' & q & outs & Hrun & Hf' & Hrest).
    exists index', tm', q, outs. split; [|split].
    + cbn [foldl interpret_effect]. rewrite Hc. exact Hrun.
    + rewrite Hf'. simpl. rewrite Hf, list_filter_filter. apply reflexive_eq, list_filter_iff.
      intros e. change (cancelled (_ :: es)) with (op :: cancelled es).
      rewrite not_elem_of_cons. tauto.
    + destruct Hrest as (? & Hbt' & ?). split; [done|]. by rewrite Hbt'.
  - destruct (IH Hplain Hcar Hep self (Some why) Hb Hs Hroom Hm)
      as (index' & tm' & q & outs & Hrun & Hrest).
    exists index', tm', q, outs. split; [|exact Hrest].
    cbn [foldl interpret_effect]. rewrite Hrun. change (closes (_ :: es)) with (why :: closes es).
    rewrite last_cons. by destruct (last (closes es)).
  - change (published (_ :: es)) with ((epoch, op, o) :: published es) in *.
    apply Forall_cons in Hcar as [Ho Hcar], Hep as [Heq Hep]. simpl in Ho, Heq. subst epoch.
    destruct (Hconv o Ho) as (o' & Hco & Hsmall).
    assert (small (EngineOutcome.new ep op o')) as Hso by done.
    simpl length in Hroom.
    destruct (publish_spec self _ Hb Hs Hso) as (q1 & Hq1 & Hi1 & Hb1); [lia|].
    destruct (IH Hplain Hcar Hep (set_outcomes self q1) reason) as
      (index' & tm' & q & outs & Hrun & Hf & Hm' & Hbt & Hi & Hso' & Hops & Hbq).
    + simpl. by rewrite Hb1.
    + simpl. rewrite Hi1. apply Forall_app. split; [done|by constructor].
    + simpl. rewrite Hi1, length_app. simpl. lia.
    + exact Hm.
    + exists index', tm', q, (EngineOutcome.new ep op o' :: outs). split; [|split_and!].
      * cbn [foldl interpret_effect]. rewrite Hco, Hq1. exact Hrun.
      * exact Hf.
      * exact Hm'.
      * exact Hbt.
      * rewrite Hi. simpl. rewrite Hi1, <- app_assoc. done.
      * by constructor.
      * rewrite !fmap_cons, Hops. done.
      * rewrite Hbq. exact Hb1.
Qed.

(** ** Closing *)

(** What the interpretation of a transition leaves alone. *)
Record follows self self' : Prop := mk_follows {
  fo_limit : transport_retained_limit self' = transport_retained_limit self;
  fo_transport : transport_state self' = transport_state self ∨
    transport_state self' = TransportState.Closing;
}.

#[global] Instance follows_preorder : PreOrder follows.
Proof.
  split; [by intros self; split; auto|]. intros a b c [] []. split; [congruence|].
  destruct fo_transport1 as [->| ->]; auto.
Qed.

(** An epoch that closed publishes its edge and asks for the physical
    capability to be released: gracefully after a drain over an open
    transport, at once otherwise. *)
Lemma finish_close_spec n v v' why opened admitted self :
  epoch self = ep → Reference.phase v = ConnectionPhase.Live →
  events_ok n (edges opened admitted v) self → staged opened admitted v self → links v self →
  Reference.phase v' = ConnectionPhase.Closing → Reference.gate v' = AdmissionGate.Closed →
  Reference.reason v' = Some why →
  (why = CloseReason.Drained → Reference.gate v = AdmissionGate.Draining) →
  ∃ self', finish_close self (Some why) None = (self', None) ∧
    events_ok n (edges opened admitted v') self' ∧ staged opened admitted v' self' ∧
    links v' self' ∧ follows self self' ∧ core self' = core self ∧ limits self' = limits self ∧
    timers self' = timers self ∧ deadlines self' = deadlines self ∧
    outcomes self' = outcomes self ∧ recovery_outcomes self' = recovery_outcomes self ∧
    (awaits v' self' ≤ awaits v self)%nat.
Proof.
  intros Hep Hl Hev Hsg [Hst Hdr Hcl] Hp' Hg' Hr' Hwhy. rewrite Hl in Hcl.
  destruct Hcl as [Hnone _].
  assert (closing_edges v = []) as Hnil by (unfold closing_edges; by rewrite Hl).
  destruct (publish_edge_spec n _ self
    (λ sequence epoch, ConnectionEvent.Closing sequence epoch why) Hev Hep)
    as (q & Hpub & Hev'); [|done|].
  { unfold edges. rewrite Hnil. by destruct opened, admitted; simpl; lia. }
  cbv zeta in Hpub, Hev'. set (self1 := set_event_sequence _ _) in *.
  assert (edges opened admitted v ++
      [λ sequence epoch, ConnectionEvent.Closing sequence epoch why] = edges opened admitted v')
    as Hedges.
  { unfold edges, closing_edges. by rewrite Hl, Hp', Hr', app_nil_r, <- !app_assoc. }
  assert (events_ok n (edges opened admitted v') self1) as Hev2 by (rewrite <- Hedges; exact Hev').
  clear Hev'. unfold finish_close. rewrite Hnone. unfold publish_closing. rewrite Hpub.
  set (done_with := λ shutdown, set_close_request (set_transport_state
    (set_drain_deadline self1 None) TransportState.Closing)
    (Some (CloseDirective.Core why shutdown))).
  assert (∀ shutdown, let self2 := done_with shutdown in
    events_ok n (edges opened admitted v') self2 ∧ staged opened admitted v' self2 ∧
    links v' self2 ∧ follows self self2) as Hdone.
  { intros shutdown self2. split; [by destruct Hev2|]. split; [|split].
    - destruct Hsg. split; rewrite ?Hg'; done.
    - split; [done|by rewrite Hp'| |done]. rewrite Hp', Hr'. split; [done|]. by eexists _, _.
    - split; try done. by right. }
  change (transport_state self1) with (transport_state self).
  change (drain_deadline self1) with (drain_deadline self).
  destruct (bool_decide (transport_state self = TransportState.Open) &&
    bool_decide (why = CloseReason.Drained)) eqn:Hb.
  - apply andb_true_iff in Hb as [_ ->%bool_decide_eq_true].
    destruct (Hdr Hl (Hwhy eq_refl)) as [deadline Hd]. rewrite Hd.
    exists (done_with (ShutdownState.Pending deadline)).
    destruct (Hdone (ShutdownState.Pending deadline)) as (? & ? & ? & ?). split_and!; try done.
    unfold awaits. rewrite Hg', Hd. simpl. lia.
  - exists (done_with ShutdownState.Immediate).
    destruct (Hdone ShutdownState.Immediate) as (? & ? & ? & ?). split_and!; try done.
    unfold awaits. rewrite Hg'. simpl. lia.
Qed.

(** The interpretation of a transition that is [told] succeeds, and takes the
    slot from hosting [v] to hosting [v']. *)
Lemma interpret_spec {R : Type} convert answers (tr : ConnectionTransition.t R) n v v' armed self :
  convertible convert answers → told answers ep v (ConnectionTransition.effects tr) v' →
  hosting n v armed self →
  filter (λ p, p.1 ∉ cancelled (ConnectionTransition.effects tr)) armed ≡ₚ Told.deadlines v' →
  ∃ self', interpret convert tr self = (self', Ok tt) ∧ hosted n v' self' ∧
    follows self self' ∧ core self' = core self.
Proof.
  intros Hconv [Hpl Hep Hcar Hlive _ Hlife] [Hli Hepoch [Ho1 Ho2 Ho3 Ho4 Ho5] [T1 T2 T3 T4]
    (opened & admitted & Hev & Hsg) Hlk Hfired] Harm.
  set (es := ConnectionTransition.effects tr) in *.
  assert (length (published es) + length (live v') = length (live v))%nat as Hlen.
  { rewrite Hlive, length_app, !length_fmap. done. }
  destruct (effects_spec convert answers es Hconv Hpl Hcar Hep self None Ho4 Ho3)
    as (index & tm & q & outs & Hrun & Hf & Hm & Hbt & Hi & Hso & Hops & Hbq); [lia|done|].
  set (self1 := published_to self index tm q) in *.
  assert (outcomes_ok n v' self1) as Hoc.
  { split; simpl; rewrite ?Hbq; try done.
    - rewrite Ho1, Hlive, Hi, app_assoc, !fmap_app, Hops. by rewrite <- !app_assoc.
    - rewrite Hi, length_app. rewrite <- (length_fmap EngineOutcome.operation outs), Hops,
        !length_fmap. lia.
    - rewrite Hi. by apply Forall_app. }
  assert (timers_ok (Told.deadlines v') self1) as Htm.
  { split; simpl; try done; [| |by rewrite Hbt].
    - etrans; [exact (fmap_Permutation Armed.due _ _ Hf)|].
      etrans; [exact (reflexive_eq _ _ (Armed.filter_due _ _))|]. rewrite T2. exact Harm.
    - eapply Forall_forall. intros e He. rewrite Hf in He.
      apply list_elem_of_filter in He as [_ He]. by eapply (proj1 (Forall_forall _ _) T3). }
  assert (follows self self1) as Hfo by (split; auto).
  assert (awaits v self1 ≤ awaits v self)%nat as Hle.
  { assert (length (timer_entries tm) ≤ length (timer_entries (timers self)))%nat
      by (rewrite Hf; apply length_filter). unfold awaits, is_connecting. simpl. lia. }
  unfold interpret. fold es. rewrite Hrun.
  destruct Hlife as [(-> & Hp & Hg & Hr)|(why & -> & Hl & Hp' & Hg' & Hr' & Hwhy)]; simpl last;
    cbv iota.
  - exists self1. split; [done|]. split; [|done]. split; try done.
    + exists opened, admitted. unfold edges, closing_edges in *. rewrite Hp, Hr. split; [by destruct Hev|].
      destruct Hsg. split; rewrite ?Hg; done.
    + destruct Hlk. split; rewrite ?Hp, ?Hg, ?Hr; done.
    + unfold awaits in *. rewrite Hg. lia.
  - destruct (finish_close_spec n v v' why opened admitted self1 Hepoch Hl)
      as (self' & Hfin & Hev' & Hsg' & Hlk' & Hfo' & Hco' & Hli' & Ht' & Hd' & Hou' & Hre' & Haw'); try done.
    { by destruct Hev. } { by destruct Hsg. } { by destruct Hlk. }
    exists self'. rewrite Hfin. split; [done|]. split; [|split; [by etrans|done]]. split.
    + by rewrite Hli'.
    + unfold epoch. by rewrite Hco'.
    + destruct Hoc. by split; rewrite ?Hou', ?Hre'.
    + destruct Htm. by split; rewrite ?Ht', ?Hd'.
    + by exists opened, admitted.
    + done.
    + lia.
Qed.

(** ** Fields the invariant does not read *)

Record same_host self self' : Prop := mk_same {
  sh_core : core self' = core self;
  sh_limits : limits self' = limits self;
  sh_timers : timers self' = timers self;
  sh_deadlines : deadlines self' = deadlines self;
  sh_outcomes : outcomes self' = outcomes self;
  sh_recovery : recovery_outcomes self' = recovery_outcomes self;
  sh_lifecycle : lifecycle self' = lifecycle self;
  sh_sequence : event_sequence self' = event_sequence self;
  sh_transport : transport_state self' = transport_state self;
  sh_drain : drain_deadline self' = drain_deadline self;
  sh_close : close_request self' = close_request self;
  sh_state : state self' = state self;
}.

Lemma hosting_same n v armed self self' :
  hosting n v armed self → same_host self self' → hosting n v armed self'.
Proof.
  intros [Hli He [] [] (o & a & [] & []) [] Hfired] []. split.
  - congruence.
  - unfold epoch in *. congruence.
  - split; rewrite ?sh_outcomes0, ?sh_recovery0; done.
  - split; rewrite ?sh_timers0, ?sh_deadlines0; done.
  - exists o, a. split; split; rewrite ?sh_lifecycle0, ?sh_sequence0, ?sh_transport0; done.
  - split; rewrite ?sh_state0, ?sh_drain0, ?sh_close0, ?sh_transport0; done.
  - unfold awaits, is_connecting in *. by rewrite sh_timers0, sh_drain0, sh_close0, sh_transport0.
Qed.

(** The core moved on; what the slot tracks is what it tracked. *)
Lemma hosting_core n v armed self c :
  hosting n v armed self → ConnectionCore.epoch c = ep → hosting n v armed (set_core self c).
Proof.
  intros [Hli He [] [] (o & a & [] & []) []] Hc. split; try done.
  exists o, a. by split; split.
Qed.

(** ** Arming a deadline *)

Lemma schedule_deadline_spec self op d :
  limits self = lim → Armed.mirror (deadlines self) (timer_entries (timers self)) →
  timer_bound (timers self) = capacity →
  op ∉ Armed.operation_of <$> timer_entries (timers self) →
  Z.of_nat (length (timer_entries (timers self))) < capacity →
  ∃ index tm, schedule_deadline self (DeadlineEvent.mk ep op) d =
      (published_to self index tm (outcomes self), Ok tt) ∧
    Armed.mirror index (timer_entries tm) ∧ timer_bound tm = timer_bound (timers self) ∧
    ∃ token, timer_entries tm ≡ₚ
      (token, d, DeadlineEvent.mk ep op) :: timer_entries (timers self).
Proof.
  intros Hli Hm Hb Hno Hlt. pose proof Hm as [Hi Ht Hop].
  assert (cancel_deadline self op = self) as Hcancel.
  { unfold cancel_deadline. destruct (position _ (deadlines self)) as [i|] eqn:Hp; [|done].
    apply position_Some in Hp as (e & He & Hd%bool_decide_eq_true & _). destruct Hno.
    apply list_elem_of_lookup_2 in He. rewrite Hi in He.
    apply list_elem_of_fmap in He as (t & -> & Hin). rewrite <- Hd.
    by apply (list_elem_of_fmap_2 Armed.operation_of). }
  unfold schedule_deadline. simpl. rewrite Hcancel, Hli. fold capacity.
  rewrite (proj2 (Z.leb_gt _ _)) by (rewrite Hi, length_fmap; done).
  destruct (timers_schedule_room (timers self) d (DeadlineEvent.mk ep op))
    as (tm & token & Hs & Hent & Hnt & Hbt); [by rewrite Hb|apply rb_get_ZERO|].
  rewrite Hs. exists (deadlines self ++ [DeadlineEntry.mk op token]), tm.
  split; [by destruct self|]. split; [|split; [done|by exists token]].
  rewrite Hent, Permutation_app_comm. split; csimpl.
  - by rewrite <- Hi.
  - by constructor.
  - by constructor.
Qed.

End hosted.
End Hosted.
