(* ===== verification/SlotCalls.v ===== *)
(** * The methods of a slot keep its invariant

    [sound] is the invariant of a running slot: its core is held and the slot
    hosts what the core shows. Each method that works on the slot alone
    succeeds from a sound slot and leaves it sound. *)
From Stdlib Require Import ZArith Lia.
From stdpp Require Import prelude.
From S2P Require Import Prelude External Host Identity Limits Admission Ledger Operation Permit.
From S2P Require Import Write Framing Machine Core CoreAdmission Recovery Reference ReferenceFacts.
From S2P Require Import CoreView.
From S2P Require Import Config Transport SlotData Slot Drive SlotSpec.

Import Told Hosted ConnectionSlot.

Module SlotCalls.
Section slot_calls.
Context {Cal : Calandria} {BB : ByteBudgetLib} {Build : BuildConfig} {H : Host}.
Context {Laws : CalandriaLaws Cal} {BLaws : ByteBudgetLaws BB} {HL : HostLaws H}.
Context {D C : Type} {Dec : FrameDecoder D} {Ret : Retained Frame}.
Context {Cls : InboundClassifier Frame C}.
Context (lim : ConnectionSlotLimits.t) (Hlim : valid_limits lim) (ep : ConnectionEpoch.t).
Implicit Types (self : ConnectionSlot.t D C) (s : owner D C) (n : notes (Dec := Dec)).

(** What the core of a slot shows. *)
Definition core_of s : ConnectionCore.state OutboundFrame.t := (core s.1, s.2).
Definition view s : Reference.state := CoreView.view_of (core_of s).
Definition core_limits : ConnectionLimits.t := ConnectionSlotLimits.connection lim.

Record sound n s : Prop := mk_sound {
  so_held : CoreView.held core_limits (accepted n) (permits n) (core_of s);
  so_hosted : hosted lim ep n (view s) s.1;
}.

Lemma held_coherent past ps s :
  CoreView.held core_limits past ps (core_of s) → coherent (view s).
Proof.
  intros Hh. split.
  - pose proof (CoreView.held_ids _ _ _ _ Hh) as Hn. by apply NoDup_app in Hn as (? & _).
  - intros Hp. destruct (CoreView.held_life _ _ _ _ Hh) as [(? & _)|(_ & ? & _ & ?)]; done.
Qed.

Lemma sound_coherent n s : sound n s → coherent (view s).
Proof. intros []. by eapply held_coherent. Qed.

Lemma sound_same n s self :
  sound n s → same_host s.1 self → sound n (self, s.2).
Proof.
  intros [Hh Ho] Hs. unfold view in *.
  assert (core_of (self, s.2) = core_of s) as Heq
    by (unfold core_of; simpl; by rewrite (sh_core _ _ Hs)).
  split; [by rewrite Heq|]. unfold view. rewrite Heq. by eapply hosting_same.
Qed.

Lemma same_follows self self' :
  same_host self self' → transport_retained_limit self' = transport_retained_limit self →
  follows self self'.
Proof. intros [] ?. split; [done|by left]. Qed.

(** A unit transition never publishes a reply; a reply has its size checked. *)
Lemma unit_convertible : convertible lim unit_outcome none.
Proof.
  intros [r|d|f d|d] Ho; [done|..]; eexists; (split; [reflexivity|]); simpl;
    rewrite rb_get_ZERO; apply rb_get_nonneg.
Qed.

Lemma reply_convertible (frame : Frame) :
  rb_get (retained_bytes frame) ≤ rb_get (ConnectionSlotLimits.reply_bytes lim) →
  convertible lim Some (λ f, f = frame).
Proof.
  intros Hle [r|d|f d|d] Ho; eexists; (split; [reflexivity|]); simpl.
  - simpl in Ho. by subst r.
  - rewrite rb_get_ZERO; apply rb_get_nonneg.
  - rewrite rb_get_ZERO; apply rb_get_nonneg.
  - rewrite rb_get_ZERO; apply rb_get_nonneg.
Qed.

(** ** A call on the core, interpreted *)

(** The slot after a call on its core whose transition is [told]. *)
Lemma transition_spec {R E : Type} convert answers n v armed s c (tr : ConnectionTransition.t R) v' :
  convertible lim convert answers → told answers ep v (ConnectionTransition.effects tr) v' →
  hosting lim ep n v armed s.1 →
  filter (λ p, p.1 ∉ cancelled (ConnectionTransition.effects tr)) armed ≡ₚ Told.deadlines v' →
  CoreView.held core_limits (accepted n) (permits n) c → CoreView.epoch_of c = ep → CoreView.view_of c = v' →
  ∃ s', local (E := EngineError.t) (interpret convert tr) (set_core s.1 c.1, c.2) = (s', Ok tt) ∧
    sound n s' ∧ follows s.1 s'.1 ∧ view s' = v'.
Proof.
  intros Hconv Ht Ho Harm Hh He Hv.
  destruct (interpret_spec lim Hlim ep convert answers tr n v v' armed _ Hconv Ht
    (hosting_core lim ep _ _ _ _ c.1 Ho He) Harm) as (self' & Hrun & Ho' & Hfo & Hco).
  exists (self', c.2). simpl in *. rewrite Hrun. split; [done|].
  assert (core_of (self', c.2) = c) as Hc by (unfold core_of; simpl; rewrite Hco; by destruct c).
  assert (view (self', c.2) = v') as Hv' by (unfold view; by rewrite Hc).
  split; [|split; [|exact Hv']].
  - split; [by rewrite Hc|]. by rewrite Hv'.
  - destruct Hfo. by split.
Qed.

(** [self.core.apply(input)] of a slot whose core is held. *)
Lemma core_input n s input :
  CoreView.held core_limits (accepted n) (permits n) (core_of s) → epoch s.1 = ep →
  let ref := Reference.step ep input (view s) in
  ∃ c, core_try (ConnectionCore.apply input) s = (set_core s.1 c.1, c.2, Ok ref.2) ∧
    CoreView.held core_limits (accepted n) (permits n) c ∧ CoreView.epoch_of c = ep ∧
    CoreView.view_of c = ref.1.
Proof.
  destruct s as [self heap]. intros Hh He ref.
  destruct (CoreView.core_apply _ _ _ _ input Hh) as (c & Hrun & Hc & Hv & Hk).
  change (CoreView.epoch_of (core_of (self, heap))) with (epoch self) in *.
  cbn [fst] in He. rewrite He in Hrun, Hv. exists c.
  split; [|split; [exact Hc|split; [by rewrite (CoreView.kept_epoch_of _ _ Hk)|exact Hv]]].
  unfold core_try, on_core, core_of in *. cbn [fst snd] in Hrun. rewrite Hrun. by destruct c.
Qed.

(** An input, with [armed] what the timers say at that moment; [v] is what the
    slot hosts, and may differ from the view where the effects do not. *)
Lemma input_spec n s input v armed :
  CoreView.held core_limits (accepted n) (permits n) (core_of s) → hosting lim ep n v armed s.1 →
  let ref := Reference.step ep input (view s) in
  told none ep v (ConnectionTransition.effects ref.2) ref.1 →
  filter (λ p, p.1 ∉ cancelled (ConnectionTransition.effects ref.2)) armed ≡ₚ
    Told.deadlines ref.1 →
  ∃ s', apply_input input s = (s', Ok tt) ∧ sound n s' ∧ follows s.1 s'.1 ∧ view s' = ref.1.
Proof.
  intros Hh Ho ref Ht Harm.
  destruct (core_input n s input Hh (ho_epoch _ _ _ _ _ _ Ho)) as (c & Hrun & Hc & He & Hv).
  destruct (transition_spec (E := EngineError.t) unit_outcome none n _ armed s c _ _
    unit_convertible Ht Ho Harm Hc He Hv) as (s' & Hi & Hs & Hf & Hv').
  exists s'. split; [|done]. unfold apply_input. rewrite (ste_bind_ok _ _ _ _ _ Hrun). exact Hi.
Qed.

Lemma sound_input n s input :
  sound n s → let ref := Reference.step ep input (view s) in
  told none ep (view s) (ConnectionTransition.effects ref.2) ref.1 →
  ∃ s', apply_input input s = (s', Ok tt) ∧ sound n s' ∧ follows s.1 s'.1 ∧ view s' = ref.1.
Proof.
  intros [Hh Ho] ref Ht. eapply input_spec; [exact Hh|exact Ho|exact Ht|].
  fold ref. by rewrite (td_deadlines _ _ _ _ _ Ht).
Qed.

(** ** Closing *)

Lemma told_close_requested v why :
  why ≠ CloseReason.Drained →
  let ref := Reference.step ep (ConnectionInput.CloseRequested ep why) v in
  told none ep v (ConnectionTransition.effects ref.2) ref.1.
Proof.
  intros Hw. simpl. rewrite bool_decide_eq_true_2 by done.
  destruct (Reference.phase v) eqn:Hl; try apply told_none. by apply told_close_all.
Qed.

Lemma closed_phase v why :
  Reference.phase v = ConnectionPhase.Live →
  Reference.phase (Reference.step ep (ConnectionInput.CloseRequested ep why) v).1 =
    ConnectionPhase.Closing.
Proof. intros Hl. simpl. by rewrite bool_decide_eq_true_2, Hl. Qed.

Lemma told_malformed v :
  let ref := Reference.step ep (ConnectionInput.ReplyMalformed ep) v in
  told none ep v (ConnectionTransition.effects ref.2) ref.1.
Proof.
  simpl. rewrite bool_decide_eq_true_2 by done.
  destruct (Reference.phase v) eqn:Hl; try apply told_none. by apply told_close_all.
Qed.

(** A sound method: it succeeds and leaves a sound slot. *)
Definition safe {A : Type} n (f : M (D := D) (C := C) A) : Prop :=
  ∀ s, sound n s → ∃ s' a, f s = (s', Ok a) ∧ sound n s' ∧ follows s.1 s'.1.

Lemma safe_ret {A : Type} n (a : A) : safe n (ste_ret a).
Proof. intros s Hs. by exists s, a. Qed.

Lemma safe_bind {A B : Type} n (f : M (D := D) (C := C) A) (k : A → M (D := D) (C := C) B) :
  safe n f → (∀ a, safe n (k a)) → safe n (ste_bind f k).
Proof.
  intros Hf Hk s Hs. destruct (Hf s Hs) as (s1 & a & Hr & Hs1 & Hf1).
  destruct (Hk a s1 Hs1) as (s2 & b & Hr2 & Hs2 & Hf2). exists s2, b.
  rewrite (ste_bind_ok _ _ _ _ _ Hr). split; [done|]. split; [done|]. by etrans.
Qed.

(** Changing fields the invariant does not read, first. *)
Lemma safe_after {A : Type} n (f : M (D := D) (C := C) A) s self :
  safe n f → sound n s → same_host s.1 self →
  transport_retained_limit self = transport_retained_limit s.1 →
  ∃ s' a, f (self, s.2) = (s', Ok a) ∧ sound n s' ∧ follows s.1 s'.1.
Proof.
  intros Hf Hs Hsh Hl. destruct (Hf (self, s.2) (sound_same _ _ _ Hs Hsh)) as (s' & a & Hr & Hs' & Hf').
  exists s', a. split; [done|]. split; [done|]. etrans; [|exact Hf']. by apply same_follows.
Qed.

Lemma epoch_eq n s : sound n s → epoch s.1 = ep.
Proof. intros [_ Ho]. apply (ho_epoch _ _ _ _ _ _ Ho). Qed.

Lemma close_for_safe n why : why ≠ CloseReason.Drained → safe n (close_for why).
Proof.
  intros Hw s Hs. unfold close_for. rewrite (epoch_eq _ _ Hs).
  destruct (sound_input n s _ Hs (told_close_requested (view s) why Hw)) as (s' & Hr & Hs' & Hf & _).
  by exists s', tt.
Qed.

(** In a live epoch it also closes the transport. *)
Lemma close_for_closes n why s :
  why ≠ CloseReason.Drained → sound n s → Reference.phase (view s) = ConnectionPhase.Live →
  ∃ s', close_for why s = (s', Ok tt) ∧ sound n s' ∧ follows s.1 s'.1 ∧
    transport_state s'.1 = TransportState.Closing.
Proof.
  intros Hw Hs Hl. unfold close_for. rewrite (epoch_eq _ _ Hs).
  destruct (sound_input n s _ Hs (told_close_requested (view s) why Hw)) as (s' & Hr & Hs' & Hf & Hv).
  exists s'. split; [done|]. split; [done|]. split; [done|].
  destruct Hs' as [_ [_ _ _ _ _ [_ _ Hc]]]. rewrite Hv, closed_phase in Hc by done.
  by destruct Hc.
Qed.

Lemma close_malformed_safe n : safe n close_malformed.
Proof.
  intros s Hs. unfold close_malformed. rewrite (epoch_eq _ _ Hs).
  destruct (sound_input n s _ Hs (told_malformed (view s))) as (s' & Hr & Hs' & Hf & _).
  by exists s', tt.
Qed.

Lemma close_decode_error_safe n error : safe n (close_decode_error error).
Proof. destruct error; simpl; try apply close_malformed_safe; by apply close_for_safe. Qed.

(** ** Admission *)

Definition with_permits n (ps : list OperationPermit.t) : notes (Dec := Dec) :=
  mk_notes ps (accepted n) (delivered n) (observed n) (fired n).

Lemma live_items v : (length (live v) ≤ length (Reference.items v))%nat.
Proof. unfold live. rewrite length_fmap. apply length_filter. Qed.

(** Only the room of the outcomes depends on the permits. *)
Lemma hosted_permits n ps v self :
  hosted lim ep n v self →
  Z.of_nat (length (batch_items (outcomes self)) + length (live v) + length ps) ≤ capacity lim →
  hosted lim ep (with_permits n ps) v self.
Proof.
  intros [Hli He [] Ht (o & a & [] & Hsg) Hlk Hfired] Hroom. split; try done.
  exists o, a. by split.
Qed.

(** Dropping one of the permits that are out. *)
Lemma drop_sound n s i p :
  sound n s → permits n !! i = Some p →
  sound (with_permits n (delete i (permits n))) (s.1, (OperationPermit.drop p s.2).2).
Proof.
  intros [Hh Ho] Hi. pose proof (delete_Permutation _ _ _ Hi) as Hp. split.
  - apply (CoreView.held_permits_perm _ _ _ _ _ Hp) in Hh. apply CoreView.core_drop in Hh. exact Hh.
  - apply (hosted_permits n _ (view s)); [exact Ho|].
    destruct Ho as [_ _ [_ Hroom _ _ _] _ _ _]. rewrite Hp in Hroom. cbn [fst length] in *. lia.
Qed.

(** A reservation that is granted leaves room for the outcome of its
    operation; a refusal changes nothing the slot tracks. *)
Lemma reserve_sound n s now options :
  sound n s →
  ∃ s' r, reserve now options s = (s', r) ∧ transport_state s'.1 = transport_state s.1 ∧
    transport_retained_limit s'.1 = transport_retained_limit s.1 ∧
    sound (match r with Ok p => with_permits n (p :: permits n) | Err _ => n end) s'.
Proof.
  destruct s as [self heap]. intros [Hh Ho]. pose proof Ho as [Hli He [] _ _ [Hst _ _]].
  cbn [fst snd] in *. unfold reserve. rewrite Hst. simpl.
  destruct (CoreView.core_reserve _ _ _ _ now options Hh) as (c & r & Hrun & Hv & Hep & Hne & Hheld).
  unfold on_core, core_of in *. simpl in Hrun. rewrite Hrun. destruct c as [c heap'].
  assert (hosted lim ep n (CoreView.view_of (c, heap')) (set_core self c)) as Ho'.
  { rewrite Hv. apply hosting_core; [exact Ho|]. unfold CoreView.epoch_of in Hep.
    simpl in Hep. rewrite Hep. exact He. }
  set (v := CoreView.view_of (c, heap')) in *. destruct r as [p|e]; cbn [fst snd].
  - destruct (CoreView.held_count _ _ _ _ Hheld) as [Hcount Howned]. cbn [fst snd] in Howned.
    fold v in Hcount, Howned. pose proof (live_items v) as Hll.
    pose proof (vl_connection _ Hlim) as [[_ Hmax] _]. pose proof (vl_capacity _ Hlim) as Hcap.
    unfold core_limits in Hcount. rewrite <- Hcap in Hcount, Hmax. fold (capacity lim) in *.
    cbn [core outcomes limits set_core]. change (ReservationLedger.operations _)
      with (ConnectionSnapshot.owned_operations (ConnectionCore.snapshot c heap')).
    rewrite Howned, batch_len_items, Hli.
    fold (capacity lim). unfold usize_saturating_add, USIZE_MAX. cbn [length] in *.
    match goal with |- context [?a <? ?b] => destruct (Z.ltb_spec a b) as [Hlt|Hle] end.
    + eexists _, _. split; [reflexivity|]. split; [done|]. split; [done|].
      apply CoreView.core_drop in Hheld. split; [exact Hheld|]. exact Ho'.
    + eexists _, _. split; [reflexivity|]. split; [done|]. split; [done|].
      split; [exact Hheld|]. apply (hosted_permits n _ v); [exact Ho'|].
      cbn [length outcomes set_core fst]. lia.
  - eexists _, _. split; [reflexivity|]. rewrite bool_decide_eq_false_2 by congruence.
    split; [done|]. split; [done|]. by split.
Qed.

(** ** Commit *)

(** The operation a frame was accepted for, noted. *)
Definition with_accepted n i (op : OperationId.t) : notes (Dec := Dec) :=
  mk_notes (delete i (permits n)) (accepted n ++ [op]) (delivered n) (observed n) (fired n).

(** The slot hosts one more operation, its deadline armed. *)
Lemma hosted_push n i p frame v self index tm token :
  permits n !! i = Some p → hosted lim ep n v self →
  Reference.phase v = ConnectionPhase.Live →
  Armed.mirror index (timer_entries tm) → timer_bound tm = timer_bound (timers self) →
  timer_entries tm ≡ₚ
    (token, OperationPermit.deadline p, DeadlineEvent.mk ep (OperationPermit.operation p))
      :: timer_entries (timers self) →
  hosted lim ep (with_accepted n i (OperationPermit.operation p))
    (Reference.with_items v (Reference.items v ++ [CoreView.committed_item p frame]))
    (published_to self index tm (outcomes self)).
Proof.
  intros Hi Ho Hlive Hm Hbt Hent. pose proof (delete_Permutation _ _ _ Hi) as Hp.
  destruct Ho as [Hli He [O1 O2 O3 O4 O5] [T1 T2 T3 T4] (o & a & [] & []) [] Hfired].
  set (v' := Reference.with_items _ _).
  assert (live v' = live v ++ [OperationPermit.operation p]) as Hl.
  { unfold live, v'. simpl. by rewrite filter_app, fmap_app. }
  split; try done.
  - split; simpl; rewrite ?Hl; try done.
    + by rewrite O1, app_assoc.
    + rewrite Hp in O2. rewrite length_app. simpl in *. lia.
  - split; simpl; try done; [|rewrite Hent; by constructor|congruence].
    rewrite Hent. csimpl. rewrite T2. unfold Told.deadlines. simpl. rewrite fmap_app.
    by rewrite Permutation_app_comm.
  - exists o, a. split; [|by split]. unfold edges, closing_edges in *. simpl. by rewrite Hlive in *.
  - unfold awaits, is_connecting in *. apply Permutation_length in Hent. simpl in *.
    rewrite length_app. simpl. lia.
Qed.

Lemma commit_sound n s i p frame :
  sound n s → permits n !! i = Some p →
  Z.of_nat (length (frame_bytes frame)) ≤ USIZE_MAX →
  ∃ s' r, commit p frame s = (s', r) ∧
    match r with
    | Ok op => op = OperationPermit.operation p ∧ sound (with_accepted n i op) s' ∧
        follows s.1 s'.1
    | Err (EngineCommitError.Rejected error) => s' = s ∧ FrameCommitError.permit error = p
    | Err _ => False
    end.
Proof.
  destruct s as [self heap]. intros [Hh Ho] Hi Hlen.
  pose proof (delete_Permutation _ _ _ Hi) as Hp.
  pose proof (lk_state _ _ (ho_links _ _ _ _ _ _ Ho)) as Hst. cbn [fst] in Hst.
  unfold commit. rewrite Hst. cbn [EngineState.failure].
  pose proof (CoreView.held_permits_perm _ _ _ _ _ Hp Hh) as Hh1.
  destruct (CoreView.core_commit _ _ _ _ _ frame Hh1 Hlen) as (c & r & Hrun & Hep & Hr).
  unfold on_core, core_of in *. simpl in Hrun. rewrite Hrun. destruct c as [c heap'].
  destruct r as [[op tr]|error].
  - destruct Hr as (-> & Heff & Hheld & Hlive & Hv).
    assert (ConnectionCore.epoch (core self) = ep) as He by apply (ho_epoch _ _ _ _ _ _ Ho).
    unfold CoreView.epoch_of in Hep, Heff. simpl in Hep, Heff. rewrite He in *.
    set (self1 := set_core self c).
    pose proof (hosting_core lim ep _ _ _ _ c Ho Hep) as Ho1. cbn [fst] in Ho1.
    fold self1 in Ho1.
    pose proof (ho_timers _ _ _ _ _ _ Ho1) as [Tm Ta Te Tb].
    destruct (CoreView.held_count _ _ _ _ Hh1) as [Hcount _]. unfold core_limits in Hcount.
    rewrite <- (vl_capacity _ Hlim) in Hcount. fold (capacity lim) in Hcount.
    assert (Z.of_nat (length (Reference.items (view (self, heap)))) < capacity lim) as Hcount'
      by (unfold view, core_of in *; cbn [fst snd length] in *; lia).
    pose proof (CoreView.held_ids _ _ _ _ Hh1) as Hids.
    assert (Armed.operation_of <$> timer_entries (timers self1) ≡ₚ CoreView.ids (view (self, heap)))
      as Hops.
    { change Armed.operation_of with (fst ∘ Armed.due). rewrite list_fmap_compose, Ta.
      unfold Told.deadlines, CoreView.ids. by rewrite <- list_fmap_compose. }
    destruct (schedule_deadline_spec lim ep self1 (OperationPermit.operation p)
      (OperationPermit.deadline p)) as (index & tm & Hs & Hm & Hbt & token & Hent);
      [apply Ho1|exact Tm|exact Tb| | |].
    { rewrite Hops. intros Hin. apply NoDup_app in Hids as (_ & Hd & _).
      apply (Hd _ Hin). simpl. constructor. }
    { pose proof (Permutation_length Hops) as Hl. unfold CoreView.ids in Hl.
      rewrite !length_fmap in Hl. unfold Armed.timer in Hl. rewrite Hl. exact Hcount'. }
    set (self2 := published_to self1 index tm (outcomes self1)) in *.
    exists (self2, heap'), (Ok (OperationPermit.operation p)). split.
    + unfold interpret_unit, local, interpret. rewrite Heff. cbn [foldl interpret_effect].
      rewrite Hs. done.
    + split; [done|]. split; [|by split; auto]. split.
      * exact Hheld.
      * unfold view, core_of. simpl. rewrite Hv. by eapply hosted_push.
  - destruct Hr as [[= -> ->] Hne].
    assert (set_core self (core self) = self) as -> by (by destruct self).
    exists (self, heap), (Err (EngineCommitError.Rejected error)).
    split; [unfold id; by destruct (FrameCommitError.failure error) as [[]|]|].
    split; [done|]. by eapply CoreAdmission.commit_gives_back.
Qed.

(** ** Control *)

Lemma running n s : sound n s → ensure_running s.1 = Ok tt.
Proof.
  intros [_ Ho]. unfold ensure_running.
  by rewrite (lk_state _ _ (ho_links _ _ _ _ _ _ Ho)).
Qed.

Lemma latched_safe {A : Type} n (f : M (D := D) (C := C) A) : safe n f → safe n (latched f).
Proof.
  intros Hf s Hs. destruct (Hf s Hs) as (s' & a & Hr & Hs' & Hfo). exists s', a.
  destruct s as [self heap]. unfold latched. rewrite (running _ _ Hs : ensure_running self = _).
  rewrite Hr. by destruct s'.
Qed.

Lemma cancel_safe n op : safe n (cancel op).
Proof.
  apply latched_safe. intros s Hs. unfold cancel_inner. rewrite (epoch_eq _ _ Hs).
  pose proof Hs as [Hh Ho].
  destruct (core_input n s (ConnectionInput.Cancel ep op) Hh (epoch_eq _ _ Hs))
    as (c & Hrun & Hc & He & Hv).
  rewrite (ste_bind_ok _ _ _ _ _ Hrun).
  assert (told none ep (view s)
    (ConnectionTransition.effects
       (Reference.step ep (ConnectionInput.Cancel ep op) (view s)).2)
    (Reference.step ep (ConnectionInput.Cancel ep op) (view s)).1) as Ht.
  { simpl. rewrite bool_decide_eq_true_2 by done. by eapply told_cancel, sound_coherent. }
  destruct (transition_spec (E := EngineError.t) unit_outcome none n _ (Told.deadlines (view s)) s c
    _ _ unit_convertible Ht Ho) as (s' & Hi & Hs' & Hf & _); try done.
  { by rewrite (td_deadlines _ _ _ _ _ Ht). }
  eexists s', _. rewrite (ste_bind_ok _ _ _ _ _ Hi). split; [reflexivity|done].
Qed.

(** A request the slot did not have before is for an immediate release, or
    for a graceful one after a drain. *)
Definition asked (before after : option CloseDirective.t) : Prop :=
  after = before ∨ before = None ∧ ∃ w,
    after = Some (CloseDirective.Core w ShutdownState.Immediate) ∨
    w = CloseReason.Drained ∧ ∃ d, after = Some (CloseDirective.Core w (ShutdownState.Pending d)).

Lemma effect_request {R : Type} convert (effect : ConnectionEffect.t R) self why failure :
  close_request (interpret_effect convert effect (self, why, failure)).1.1 = close_request self.
Proof.
  assert (∀ self op, close_request (cancel_deadline self op) = close_request self) as Hcancel.
  { intros. unfold cancel_deadline. by repeat case_match. }
  destruct effect; simpl; [|done|done|done|].
  - unfold schedule_deadline. repeat case_match; simplify_eq/=; apply Hcancel.
  - unfold publish. by repeat (case_match; simplify_eq/=).
Qed.

Lemma interpret_request {R : Type} convert (tr : ConnectionTransition.t R) self :
  asked (close_request self) (close_request (interpret convert tr self).1).
Proof.
  unfold interpret. set (f := λ acc effect, interpret_effect convert effect acc).
  assert (∀ es acc, close_request (foldl f acc es).1.1 = close_request acc.1.1) as Hfold.
  { induction es as [|e es IH]; intros [[self0 why] failure]; [done|]. simpl. rewrite IH.
    apply effect_request. }
  specialize (Hfold (ConnectionTransition.effects tr) (self, None, None)). cbn [fst] in Hfold.
  destruct (foldl f _ _) as [[self1 why] failure]. rewrite <- Hfold. cbn [fst].
  unfold finish_close. destruct why as [why|]; [|by left].
  destruct (close_request self1) eqn:Hc; [by left; rewrite <- Hc|].
  destruct (publish_closing self1 why) as [self2 published].
  destruct (bool_decide (transport_state self2 = _) && bool_decide (why = _)) eqn:Hd.
  - apply andb_true_iff in Hd as [_ Hd%bool_decide_eq_true]. right. split; [done|]. exists why.
    destruct (drain_deadline self2) as [d|]; [right|by left]. split; [done|by exists d].
  - right. split; [done|]. exists why. by left.
Qed.

Lemma interpret_nothing {R : Type} convert (tr : ConnectionTransition.t R) self :
  ConnectionTransition.effects tr = [] → interpret convert tr self = (self, Ok tt).
Proof. intros He. unfold interpret. by rewrite He. Qed.

(** [disposed], with what runs between the input and its effects. *)
Lemma disposed_spec n s input before v0 self0 :
  sound n s →
  let ref := Reference.step ep input (view s) in
  let disposition := ConnectionTransition.disposition ref.2 in
  (∀ c, before disposition (set_core s.1 c) = set_core self0 c) →
  hosting lim ep n v0 (Told.deadlines v0) self0 →
  told none ep v0 (ConnectionTransition.effects ref.2) ref.1 →
  ∃ s', disposed input before s = (s', Ok disposition) ∧ sound n s' ∧ follows self0 s'.1 ∧
    view s' = ref.1 ∧ asked (close_request self0) (close_request s'.1).
Proof.
  intros Hs ref disposition Hb Ho Ht. pose proof Hs as [Hh _].
  destruct (core_input n s input Hh (epoch_eq _ _ Hs)) as (c & Hrun & Hc & He & Hv).
  destruct (transition_spec (E := EngineError.t) unit_outcome none n _ (Told.deadlines v0)
    (self0, s.2) c _ _ unit_convertible Ht Ho) as (s' & Hi & Hs' & Hf & Hv'); try done.
  { by rewrite (td_deadlines _ _ _ _ _ Ht). }
  exists s'. split; [|split; [exact Hs'|split; [exact Hf|split; [exact Hv'|]]]].
  2: { pose proof (interpret_request unit_outcome ref.2 (set_core self0 c.1)) as Ha. revert Hi.
       cbn [fst snd]. unfold local. destruct (interpret _ _ _) as [self' r]. by intros [= <- _]. }
  unfold disposed. rewrite (ste_bind_ok _ _ _ _ _ Hrun). cbv zeta.
  fold ref disposition.
  rewrite (ste_bind_ok _ _ _ (set_core self0 c.1, c.2) tt)
    by (unfold local; by rewrite Hb).
  rewrite (ste_bind_ok _ _ _ s' tt); [done|exact Hi].
Qed.

(** A drain begins: the gate drains and the deadline is kept. *)
Lemma hosted_drain n v self deadline :
  hosted lim ep n v self → Reference.phase v = ConnectionPhase.Live →
  Reference.gate v = AdmissionGate.SessionOnly ∨ Reference.gate v = AdmissionGate.Open →
  hosted lim ep n (Reference.with_gate v AdmissionGate.Draining)
    (set_drain_deadline self (Some deadline)).
Proof.
  intros [Hli He [] [] (o & a & [] & []) [] Hfired] Hl Hg. split; try done.
  - by exists o, a; split; split.
  - split; simpl; try done. congruence.
  - unfold awaits, is_connecting in *. simpl in *. destruct (Reference.gate v); naive_solver lia.
Qed.

Lemma begin_drain_safe n deadline : safe n (begin_drain deadline).
Proof.
  apply latched_safe. intros s Hs. unfold begin_drain_inner. rewrite (epoch_eq _ _ Hs).
  set (v := view s).
  assert (Reference.phase v = ConnectionPhase.Live ∧
    (Reference.gate v = AdmissionGate.SessionOnly ∨ Reference.gate v = AdmissionGate.Open) ∧
    Reference.step ep (ConnectionInput.BeginDrain ep) v =
      Reference.done InputDisposition.Applied None
        (Reference.drained ep (Reference.with_gate v AdmissionGate.Draining)) ∨
    Reference.step ep (ConnectionInput.BeginDrain ep) v =
      Reference.ignored InputDisposition.IgnoredInvalidPhase v) as [(Hl & Hg & Heq)|Heq].
  { unfold Reference.step. rewrite bool_decide_eq_true_2 by done.
    destruct (Reference.phase v) eqn:Hl; [|by right..].
    destruct (Reference.gate v); [left|left|by right|by right]; auto. }
  - destruct (disposed_spec n s (ConnectionInput.BeginDrain ep)
      (λ disposition self, if bool_decide (disposition = InputDisposition.Applied)
         then set_drain_deadline self (Some deadline) else self)
      (Reference.with_gate v AdmissionGate.Draining) (set_drain_deadline s.1 (Some deadline)) Hs)
      as (s' & Hr & Hs' & Hf & _).
    + intros c. fold v. rewrite Heq. simpl. done.
    + apply hosted_drain; [apply Hs|done|done].
    + fold v. rewrite Heq. by apply told_drained.
    + eexists s', _. split; [exact Hr|]. split; [done|]. destruct Hf. by split.
  - destruct (disposed_spec n s (ConnectionInput.BeginDrain ep)
      (λ disposition self, if bool_decide (disposition = InputDisposition.Applied)
         then set_drain_deadline self (Some deadline) else self) v s.1 Hs)
      as (s' & Hr & Hs' & Hf & _).
    + intros c. fold v. by rewrite Heq.
    + apply Hs.
    + fold v. rewrite Heq. apply told_none.
    + by eexists s', _.
Qed.

(** The shutdown of a close request moved on, and waits for no deadline it did
    not wait for. *)
Definition nearer (shutdown shutdown' : ShutdownState.t) : Prop :=
  ∀ why, is_Some (CloseDirective.shutdown_deadline (CloseDirective.Core why shutdown')) →
    is_Some (CloseDirective.shutdown_deadline (CloseDirective.Core why shutdown)).

Lemma nearer_done shutdown shutdown' :
  shutdown' = ShutdownState.Immediate ∨ shutdown' = ShutdownState.Complete → nearer shutdown shutdown'.
Proof. by intros [-> | ->] why []. Qed.

Lemma hosted_shutdown n v armed self why shutdown shutdown' :
  hosting lim ep n v armed self → close_request self = Some (CloseDirective.Core why shutdown) →
  nearer shutdown shutdown' →
  hosting lim ep n v armed
    (set_close_request self (Some (CloseDirective.Core why shutdown'))).
Proof.
  intros [Hli He [] [] (o & a & [] & []) [L1 L2 L3] Hfired] Hc Hn. split; try done.
  - by exists o, a; split; split.
  - split; [done|done| |done]. destruct (Reference.phase v).
    + destruct L3 as [L3 _]. congruence.
    + destruct L3 as (Ht & w & sh & Hcl & Hr). split; [done|]. exists w, shutdown'.
      split; [|done]. simpl. congruence.
    + destruct L3 as [_ L3]. congruence.
  - specialize (Hn why). unfold awaits, is_connecting in *. rewrite Hc in Hfired.
    cbn [mbind option_bind timers transport_state drain_deadline close_request set_close_request] in *.
    destruct (CloseDirective.shutdown_deadline (CloseDirective.Core why shutdown')); [|lia].
    destruct Hn as [d' Hd]; [done|]. rewrite Hd in Hfired. lia.
Qed.

(** A forced close succeeds, and leaves an epoch that is not closed yet ready
    for release. *)
Lemma finalize_spec n s why :
  why ≠ CloseReason.Drained → sound n s →
  ∃ s' d, finalize why s = (s', Ok d) ∧ sound n s' ∧ follows s.1 s'.1 ∧
    (Reference.phase (view s) ≠ ConnectionPhase.Closed → transport_release_ready s'.1 = true).
Proof.
  destruct s as [self heap]. intros Hw Hs. unfold finalize, latched.
  rewrite (running n _ Hs : ensure_running self = _). unfold finalize_inner.
  pose proof (epoch_eq _ _ Hs) as He. cbn [fst] in He.
  destruct (disposed_spec n (self, heap) (ConnectionInput.CloseRequested ep why)
    (λ _ self, self) (view (self, heap)) self Hs (λ _, eq_refl) (so_hosted _ _ Hs)
    (told_close_requested _ why Hw)) as (s' & Hr & Hs' & Hf & Hv & Ha).
  pose proof Hs as [Hh Ho]. pose proof (lk_close _ _ (ho_links _ _ _ _ _ _ Ho)) as K.
  pose proof (lk_close _ _ (ho_links _ _ _ _ _ _ (so_hosted _ _ Hs'))) as K'. cbn [fst] in K.
  rewrite Hv in K'. unfold transport_release_ready, force_shutdown.
  destruct (Reference.phase (view (self, heap))) eqn:Hp.
  - destruct K as [K _]. rewrite K, He, Hr in *. destruct s' as [self' heap'].
    eexists _, _. split; [reflexivity|]. split; [done|]. split; [done|]. intros _.
    rewrite (closed_phase _ why Hp) in K'. destruct K' as (_ & w & sh & Hc & Hre).
    assert (Reference.reason (Reference.step ep (ConnectionInput.CloseRequested ep why)
      (view (self, heap))).1 = Some why) as Hwhy.
    { unfold Reference.step. rewrite bool_decide_eq_true_2 by done. by rewrite Hp. }
    cbn [fst] in *. rewrite Hc in *.
    destruct Ha as [Ha|(_ & w' & [Ha|(-> & d & Ha)])]; [done|by simplify_eq|congruence].
  - destruct K as (_ & w & sh & Hc & _). rewrite Hc in *.
    assert (sound n (force_shutdown_settlement self w, heap)) as Hforced
      by (split; [exact Hh|eapply hosted_shutdown; [exact Ho|exact Hc|apply nearer_done; by left]]).
    destruct Ha as [Ha|[Ha _]]; [|done]. destruct s' as [self' heap']. cbn [fst] in *.
    destruct sh; rewrite ?He, ?Hr; eexists _, _;
      (split; [reflexivity|split; [first [exact Hs'|exact Hforced]|]]);
      (split; [first [exact Hf|by split; auto]|]); intros _; cbn [fst]; [by rewrite Ha|done|done|by rewrite Ha].
  - destruct K as [_ K]. rewrite K, He, Hr in *. destruct s' as [self' heap'].
    eexists _, _. split; [reflexivity|]. split; [done|]. split; [done|]. by intros [].
Qed.

Lemma finalize_safe n why : why ≠ CloseReason.Drained → safe n (finalize why).
Proof.
  intros Hw s Hs. destruct (finalize_spec n s why Hw Hs) as (s' & d & ? & ? & ? & _). by exists s', d.
Qed.

Lemma open_admission_safe n : safe n open_admission.
Proof.
  apply latched_safe. intros [self heap] Hs. unfold open_admission_inner.
  unfold is_transport_open. case_bool_decide as Hopen; simpl negb; cbv iota; [|by eexists _, _].
  pose proof (epoch_eq _ _ Hs) as He. cbn [fst] in He. rewrite He.
  pose proof Hs as [Hh Ho]. set (v := view (self, heap)) in *.
  destruct (core_input n (self, heap) (ConnectionInput.OpenAdmission ep) Hh He)
    as (c & Hrun & Hc & Hce & Hv). fold v in Hrun, Hv. clearbody v.
  assert (ConnectionTransition.effects
    (Reference.step ep (ConnectionInput.OpenAdmission ep) v).2 = []) as Hnil.
  { unfold Reference.step. rewrite bool_decide_eq_true_2 by done.
    by destruct (Reference.phase v), (Reference.gate v). }
  set (ref := Reference.step ep (ConnectionInput.OpenAdmission ep) v) in *.
  assert (disposed (ConnectionInput.OpenAdmission ep) (λ _ self, self) (self, heap) =
    (set_core self c.1, c.2, Ok (ConnectionTransition.disposition ref.2))) as Hdis.
  { unfold disposed. rewrite (ste_bind_ok _ _ _ _ _ Hrun). cbv zeta.
    rewrite (ste_bind_ok _ _ _ (set_core self c.1, c.2) tt) by done.
    rewrite (ste_bind_ok _ _ _ (set_core self c.1, c.2) tt); [done|].
    unfold interpret_unit, local. by rewrite interpret_nothing. }
  rewrite (ste_bind_ok _ _ _ _ _ Hdis).
  assert (hosting lim ep n v (Told.deadlines v) (set_core self c.1)) as Ho1
    by (by apply hosting_core).
  assert (core_of (set_core self c.1, c.2) = c) as Hcc by (by destruct c).
  case_bool_decide as Hap.
  - assert (Reference.phase v = ConnectionPhase.Live ∧
      Reference.gate v = AdmissionGate.SessionOnly ∧
      ref.1 = Reference.with_gate v AdmissionGate.Open) as (Hl & Hg & Hr).
    { unfold ref, Reference.step in *. rewrite bool_decide_eq_true_2 in * by done.
      by destruct (Reference.phase v), (Reference.gate v). }
    destruct Ho1 as [Hli Hep Hoc Htm (o & a & Hev & [S1 S2 S3 S4]) [K1 K2 K3] Hfired].
    rewrite (S2 Hg) in Hev. rewrite (S4 Hopen) in Hev.
    assert (closing_edges v = []) as Hce' by (unfold closing_edges; by rewrite Hl).
    destruct (publish_edge_spec lim Hlim ep n _ (set_core self c.1)
      ConnectionEvent.AdmissionOpened Hev Hep) as (q & Hpub & Hev'); [|done|].
    { unfold edges. rewrite Hce'. simpl. lia. }
    cbv zeta in Hpub, Hev'. set (self' := set_event_sequence _ _) in *.
    eexists (self', c.2), _. split; [|split; [|by split; auto]].
    + rewrite (ste_bind_ok _ _ _ (self', c.2) tt); [reflexivity|].
      unfold local, publish_admission_opened. by rewrite Hpub.
    + split; [by unfold core_of; simpl; destruct c|].
      assert (view (self', c.2) = Reference.with_gate v AdmissionGate.Open) as ->.
      { rewrite <- Hr, <- Hv. done. }
      split; try done.
      * destruct Hoc. by split.
      * destruct Htm. by split.
      * exists true, true.
        assert (edges true true (Reference.with_gate v AdmissionGate.Open) =
          edges true false v ++ [ConnectionEvent.AdmissionOpened]) as ->.
        { unfold edges, closing_edges. simpl. by rewrite Hl. }
        split; [by destruct Hev'|]. split; try done. simpl. congruence.
      * unfold awaits, is_connecting in *. rewrite Hg in Hfired. exact Hfired.
  - eexists _, _. split; [reflexivity|]. split; [|by split; auto]. split; [by rewrite Hcc|].
    assert (view (set_core self c.1, c.2) = v) as ->; [|exact Ho1].
    unfold view. rewrite Hcc, Hv. unfold ref, Reference.step in *.
    rewrite bool_decide_eq_true_2 in * by done.
    destruct (Reference.phase v), (Reference.gate v); try reflexivity. by destruct Hap.
Qed.

(** ** Draining and settlement *)

Definition with_delivered n (l : list (EngineOutcome.t Frame)) : notes (Dec := Dec) :=
  mk_notes (permits n) (accepted n) (delivered n ++ l) (observed n) (fired n).

Definition with_observed n (l : list ConnectionEvent.t) : notes (Dec := Dec) :=
  mk_notes (permits n) (accepted n) (delivered n) (observed n ++ l) (fired n).

(** What is drained is what was pending, in order. *)
Lemma drain_outcomes_spec n v self :
  outcomes_ok lim ep n v self →
  ∃ q, drain_outcomes self = (set_outcomes self q, batch_items (outcomes self)) ∧
    outcomes_ok lim ep (with_delivered n (batch_items (outcomes self))) v (set_outcomes self q).
Proof.
  intros [O1 O2 O3 O4 O5]. unfold drain_outcomes.
  destruct (batch_drain_items (outcomes self)) as (Hl & Hi & Hb).
  destruct (batch_drain (outcomes self)) as [q l]. simpl in Hl, Hi, Hb. subst l. exists q.
  split; [done|]. split; simpl; rewrite ?Hi, ?Hb; try done.
  - by rewrite O1, app_nil_r.
  - simpl. lia.
Qed.

Lemma drain_events_spec n es self :
  events_ok lim ep n es self →
  ∃ q, drain_events self = (set_lifecycle self q, batch_items (lifecycle self)) ∧
    events_ok lim ep (with_observed n (batch_items (lifecycle self))) es (set_lifecycle self q).
Proof.
  intros [E1 E2 E3]. unfold drain_events.
  destruct (batch_drain_items (lifecycle self)) as (Hl & Hi & Hb).
  destruct (batch_drain (lifecycle self)) as [q l]. simpl in Hl, Hi, Hb. subst l. exists q.
  split; [done|]. split; simpl; rewrite ?Hi, ?Hb; try done. by rewrite app_nil_r.
Qed.

Lemma drain_outcomes_sound n s :
  sound n s → let '(self, l) := drain_outcomes s.1 in
  sound (with_delivered n l) (self, s.2) ∧ follows s.1 self.
Proof.
  destruct s as [self heap]. intros [Hh [Hli He Hoc [] (o & a & [] & []) []]].
  destruct (drain_outcomes_spec _ _ _ Hoc) as (q & -> & Ho'). cbn [fst].
  split; [|by split; auto]. split; [exact Hh|]. split; try done. by exists o, a; split; split.
Qed.

Lemma drain_events_sound n s :
  sound n s → let '(self, l) := drain_events s.1 in
  sound (with_observed n l) (self, s.2) ∧ follows s.1 self.
Proof.
  destruct s as [self heap]. intros [Hh [Hli He [] [] (o & a & Hev & []) []]].
  destruct (drain_events_spec _ _ _ Hev) as (q & -> & Hev'). cbn [fst].
  split; [|by split; auto]. split; [exact Hh|]. split; try done. by exists o, a; split; [|split].
Qed.

(** The physical capability is released: the epoch is closed, and its last
    edge is published. *)
Lemma confirm_sound n v self heap why shutdown :
  CoreView.held core_limits (accepted n) (permits n) (core self, heap) → v = view (self, heap) →
  hosted lim ep n v self → close_request self = Some (CloseDirective.Core why shutdown) →
  ∃ s', confirm_transport_closed why (set_close_request self None, heap) = (s', Ok tt) ∧
    sound n s' ∧ transport_state s'.1 = TransportState.Closed ∧
    transport_retained_limit s'.1 = transport_retained_limit self.
Proof.
  intros Hh Heq Ho Hc.
  pose proof Ho as [Hli He Hoc Htm (o & a & Hev & [S1 S2 S3 S4]) [K1 K2 K3] Hfired].
  assert (Reference.phase v = ConnectionPhase.Closing ∧ Reference.reason v = Some why) as [Hp Hr].
  { destruct (Reference.phase v); [by destruct K3; congruence| |by destruct K3; congruence].
    destruct K3 as (_ & w & sh & Hcl & Hr). split; [done|congruence]. }
  set (self1 := set_transport_state (set_close_request self None) TransportState.Closed).
  assert (epoch self1 = ep) as He1 by exact He.
  destruct (core_input n (self1, heap) (ConnectionInput.EpochClosed ep) Hh He1)
    as (c & Hrun & Hcc & Hce & Hv).
  change (view (self1, heap)) with (view (self, heap)) in Hrun, Hv. rewrite <- Heq in Hrun, Hv.
  set (v' := Reference.mk_state ConnectionPhase.Closed AdmissionGate.Closed (Reference.reason v)
    (Reference.items v)).
  assert (Reference.step ep (ConnectionInput.EpochClosed ep) v =
    Reference.done InputDisposition.Applied None (v', [])) as Hstep.
  { unfold Reference.step. rewrite bool_decide_eq_true_2 by done. by rewrite Hp. }
  rewrite Hstep in Hrun, Hv. set (self2 := set_core self1 c.1).
  assert (length (edges o a v) < 4)%nat as Hlen.
  { unfold edges, closing_edges. rewrite Hp, Hr. by destruct o, a; simpl; lia. }
  assert (events_ok lim ep n (edges o a v) self2) as Hev2 by (by destruct Hev).
  destruct (publish_edge_spec lim Hlim ep n _ self2
    (λ sequence epoch, ConnectionEvent.Closed sequence epoch why) Hev2 Hce Hlen)
    as (q & Hpub & Hev'); [done|].
  cbv zeta in Hpub, Hev'. set (self3 := set_event_sequence _ _) in *.
  exists (self3, c.2). split; [|split; [|by split]].
  - unfold confirm_transport_closed. cbv zeta. fold self1. rewrite He1.
    rewrite (ste_bind_ok _ _ _ (self2, c.2) tt).
    + unfold local, publish_closed. by rewrite Hpub.
    + unfold apply_input. rewrite (ste_bind_ok _ _ _ _ _ Hrun).
      unfold interpret_unit, local. by rewrite interpret_nothing.
  - assert (core_of (self3, c.2) = c) as Hcore by (by destruct c).
    split; [by rewrite Hcore|]. unfold view. rewrite Hcore, Hv. simpl. clear Hstep Hrun Hv.
    split; try done.
    + by destruct Hoc.
    + by destruct Htm.
    + exists o, a.
      assert (edges o a v' = edges o a v ++
        [λ sequence epoch, ConnectionEvent.Closed sequence epoch why]) as ->.
      { unfold edges, closing_edges. simpl. rewrite Hp, Hr. by rewrite <- !app_assoc. }
      split; [by destruct Hev'|]. by split.
    + unfold awaits in *. simpl in *. unfold is_connecting in *. simpl. lia.
Qed.

Lemma settle_sound n s :
  sound n s → ∃ s' b, settle_transport_closed s = (s', b) ∧ sound n s' ∧
    (if b then transport_state s'.1 = TransportState.Closed else s' = s) ∧
    transport_retained_limit s'.1 = transport_retained_limit s.1 ∧
    (b = true ↔ transport_release_ready s.1 = true).
Proof.
  destruct s as [self heap]. intros Hs. pose proof Hs as [Hh Ho].
  unfold settle_transport_closed, take_close_request, transport_release_ready. cbn [fst].
  destruct (close_request self) as [directive|] eqn:Hc;
    [|by eexists (self, heap), _; split; [reflexivity|]; auto].
  assert (∃ why shutdown, directive = CloseDirective.Core why shutdown) as (why & shutdown & ->).
  { destruct Ho as [_ _ _ _ _ [_ _ K]]. cbn [fst] in K.
    destruct (Reference.phase _); [by destruct K; congruence| |by destruct K; congruence].
    destruct K as (_ & w & sh & Hcl & _). exists w, sh. congruence. }
  destruct (confirm_sound n _ self heap why shutdown Hh eq_refl Ho Hc) 
    as ([self' heap'] & Hr & Hs' & Ht & Hl).
  destruct shutdown; simpl CloseDirective.settlement_ready; cbv iota;
    try (by eexists (self, heap), _; split; [reflexivity|]; auto);
    rewrite Hr; eexists (self', heap'), _; (split; [reflexivity|]); auto.
Qed.

(** ** Deadlines *)

(** One more deadline fired. *)
Definition woken n : notes (Dec := Dec) :=
  mk_notes (permits n) (accepted n) (delivered n) (observed n) (S (fired n)).

Lemma woken_hosting n v armed self :
  hosting lim ep (woken n) v armed self → hosting lim ep n v armed self.
Proof.
  intros [Hli He [] [] (o & a & [] & []) [] Hfired]. split; try done; [|simpl in Hfired; lia].
  by exists o, a; split; split.
Qed.

(** A shutdown that gave up its deadline. *)
Lemma shutdown_woken n v armed self why shutdown d :
  hosting lim ep n v armed self → close_request self = Some (CloseDirective.Core why shutdown) →
  CloseDirective.shutdown_deadline (CloseDirective.Core why shutdown) = Some d →
  hosting lim ep (woken n) v armed
    (set_close_request self (Some (CloseDirective.Core why ShutdownState.Immediate))).
Proof.
  intros Ho Hc Hd.
  pose proof (hosted_shutdown n v armed self why shutdown ShutdownState.Immediate Ho Hc
    (nearer_done _ _ (or_introl eq_refl))) as [Hli He [] [] (o & a & [] & []) [] _].
  split; try done; [by exists o, a; split; split|]. pose proof (ho_fired _ _ _ _ _ _ Ho) as Hfired.
  unfold awaits, is_connecting in *. rewrite Hc in Hfired. simpl in *. rewrite Hd in Hfired. lia.
Qed.

Lemma woken_sound n s : sound (woken n) s → sound n s.
Proof. intros [Hh Ho]. split; [exact Hh|]. by apply woken_hosting. Qed.

(** Taking the due timer out leaves the other deadlines armed. *)
Lemma pop_timer_spec n v self now :
  hosted lim ep n v self →
  let '(self', popped) := Drive.pop_timer self now in
  core self' = core self ∧ follows self self' ∧ close_request self' = close_request self ∧
  match popped with
  | None => hosted lim ep n v self'
  | Some event => ∃ d armed, DeadlineEvent.epoch event = ep ∧ is_elapsed_at d now = true ∧
      Told.deadlines v ≡ₚ (DeadlineEvent.operation event, d) :: armed ∧
      hosting lim ep (woken n) v armed self'
  end.
Proof.
  intros [Hli He [] [T1 T2 T3 T4] (o & a & [] & []) [] Hfired]. unfold Drive.pop_timer.
  destruct (timers_pop_due (timers self) now) as [tm [[token event]|]] eqn:Hp.
  - destruct (timers_pop_some _ _ _ _ _ Hp) as (d & Hent & Hel & Hb).
    cbn [deadlines set_timers].
    set (e := ((token, d), event) : Armed.timer).
    assert (indexed_in : Armed.indexed e ∈ deadlines self).
    { destruct T1 as [-> _ _]. apply list_elem_of_fmap_2. rewrite Hent. constructor. }
    destruct (position _ (deadlines self)) as [i|] eqn:Hpos.
    2: { apply position_None in Hpos. rewrite Forall_forall in Hpos. exfalso.
         specialize (Hpos _ indexed_in). simpl in Hpos.
         rewrite (proj2 (timer_token_eqb_spec _ _) eq_refl) in Hpos. done. }
    apply position_Some in Hpos as (x & Hi & Hx & _). apply timer_token_eqb_spec in Hx.
    destruct (swap_remove_perm _ _ _ Hi) as (index & -> & Hperm).
    assert (x = Armed.indexed e) as ->.
    { destruct T1 as [H1 H2 _]. apply list_elem_of_lookup_2 in Hi. rewrite H1 in Hi.
      apply list_elem_of_fmap in Hi as (e' & -> & Hin). rewrite Hent in Hin, H2.
      rewrite !fmap_cons in H2. apply NoDup_cons in H2 as [H2 _].
      apply elem_of_cons in Hin as [->|Hin]; [done|]. exfalso. apply H2. simpl in Hx.
      simpl. rewrite <- Hx. rewrite <- list_fmap_compose.
      by apply (list_elem_of_fmap_2 (λ t : Armed.timer, t.1.1)). }
    assert (Armed.mirror index (timer_entries tm)) as Hm.
    { rewrite Hperm, Hent in T1. by eapply Armed.mirror_cons. }
    rewrite Hent in T3. apply Forall_cons in T3 as [T3e T3].
    split; [done|]. split; [by split; auto|]. split; [done|].
    exists d, (Armed.due <$> timer_entries tm). split; [exact T3e|]. split; [done|].
    split; [rewrite <- T2, Hent; done|]. split; try done.
    + split; simpl; try done. by rewrite Hb.
    + by exists o, a; split; split.
    + unfold awaits, is_connecting in *. rewrite Hent in Hfired. simpl in *. lia.
  - destruct (timers_pop_none _ _ _ Hp) as (Hent & Hb & _).
    split; [done|]. split; [by split; auto|]. split; [done|]. split; try done.
    + split; simpl; rewrite ?Hent; try done. by rewrite Hb.
    + by exists o, a; split; split.
    + unfold awaits, is_connecting in *. rewrite <- Hent in Hfired. exact Hfired.
Qed.

(** Without its deadline a live slot hosts no drain. *)
Definition undrained v : Reference.state :=
  match Reference.phase v with
  | ConnectionPhase.Live => Reference.with_gate v AdmissionGate.Closed
  | _ => v
  end.

Lemma hosted_undrained n v self :
  hosted lim ep n v self → is_Some (drain_deadline self) →
  hosting lim ep (woken n) (undrained v) (Told.deadlines v) (set_drain_deadline self None).
Proof.
  intros [Hli Hep [] [] (o & a & [] & []) [K1 K2 K3] Hfired] [d Hd].
  assert (awaits (undrained v) (set_drain_deadline self None) + S (fired n) ≤
    3 + length (accepted n))%nat as Hfired'.
  { unfold awaits, is_connecting, undrained in *. rewrite Hd in Hfired. simpl.
    destruct (Reference.phase v); simpl; lia. }
  unfold undrained in *. destruct (Reference.phase v) eqn:Hl.
  - split; [done..| | |exact Hfired'].
    + exists o, a. unfold edges, closing_edges in *. simpl. rewrite Hl in *. by split; split.
    + split; simpl; rewrite ?Hl; done.
  - split; [done..| | |exact Hfired']; [by exists o, a; split; split|]. split; rewrite ?Hl; done.
  - split; [done..| | |exact Hfired']; [by exists o, a; split; split|]. split; rewrite ?Hl; done.
Qed.

(** A drain deadline that elapsed is given up with the drain itself. *)
Lemma drain_elapsed n s self :
  sound n s → is_Some (drain_deadline s.1) → self = set_drain_deadline s.1 None →
  ∃ s', close_for CloseReason.Requested (self, s.2) = (s', Ok tt) ∧ sound (woken n) s' ∧
    follows s.1 s'.1.
Proof.
  intros Hs Hsome ->. pose proof Hs as [Hh Ho]. pose proof (epoch_eq _ _ Hs) as He.
  apply hosted_undrained in Ho as Ho0; [|done].
  set (v := view s) in *. set (v0 := undrained v) in *.
  pose proof (told_close_requested v0 CloseReason.Requested ltac:(done)) as Ht.
  assert (Reference.step ep (ConnectionInput.CloseRequested ep CloseReason.Requested) v0 =
    Reference.step ep (ConnectionInput.CloseRequested ep CloseReason.Requested) v) as Heq.
  { unfold v0, undrained, Reference.step. rewrite bool_decide_eq_true_2 by done. clearbody v.
    destruct (Reference.phase v) eqn:Hl; simpl; rewrite ?Hl; done. }
  cbv zeta in Ht. rewrite Heq in Ht.
  destruct (input_spec (woken n) (set_drain_deadline s.1 None, s.2)
    (ConnectionInput.CloseRequested ep CloseReason.Requested) v0 (Told.deadlines v) Hh Ho0 Ht)
    as (s' & Hr & Hs' & Hf & _).
  { change (view (set_drain_deadline s.1 None, s.2)) with v.
    pose proof (td_deadlines _ _ _ _ _ Ht) as Hd.
    assert (Told.deadlines v0 = Told.deadlines v) as Hv0
      by (unfold v0, undrained; by destruct (Reference.phase v)).
    rewrite Hv0 in Hd. by rewrite Hd. }
  exists s'. unfold close_for. change (epoch (set_drain_deadline s.1 None, s.2).1) with (epoch s.1).
  rewrite He. split; [exact Hr|]. split; [done|]. destruct Hf. by split.
Qed.

(** A closed epoch that asks for no graceful shutdown waits for nothing. *)
Lemma interpret_undrains {R : Type} convert (tr : ConnectionTransition.t R) self :
  close_request self = None → close_request (interpret convert tr self).1 ≠ None →
  drain_deadline (interpret convert tr self).1 = None.
Proof.
  unfold interpret. set (f := λ acc effect, interpret_effect convert effect acc). intros Hnone.
  assert (∀ es acc, close_request (foldl f acc es).1.1 = close_request acc.1.1) as Hfold.
  { induction es as [|e es IH]; intros [[self0 why] failure]; [done|]. simpl. rewrite IH.
    apply effect_request. }
  specialize (Hfold (ConnectionTransition.effects tr) (self, None, None)). cbn [fst] in Hfold.
  destruct (foldl f _ _) as [[self1 why] failure]. unfold finish_close.
  cbn [fst] in Hfold. destruct why as [why|]; [|cbn; congruence]. rewrite Hfold, Hnone.
  destruct (publish_closing self1 why) as [self2 published].
  destruct (_ && _); [|done]. by destruct (drain_deadline self2) eqn:Hd.
Qed.

(** The attempt to connect timed out: the epoch closes, and no deadline is left. *)
Lemma connect_elapsed n s :
  sound n s → is_connecting s.1 = true →
  ∃ s', close_for CloseReason.ConnectTimedOut s = (s', Ok tt) ∧ sound (woken n) s' ∧
    follows s.1 s'.1.
Proof.
  intros Hs Hcon. pose proof Hs as [Hh Ho]. pose proof (epoch_eq _ _ Hs) as He.
  set (why := CloseReason.ConnectTimedOut).
  set (input := ConnectionInput.CloseRequested ep why).
  destruct (core_input n s input Hh He) as (c & Hrun & Hc & Hce & Hv).
  destruct (transition_spec (E := EngineError.t) unit_outcome none n (view s)
    (Told.deadlines (view s)) s c (Reference.step ep input (view s)).2 _ unit_convertible
    (told_close_requested _ why ltac:(done)) Ho) as (s' & Hi & Hs' & Hf & Hv'); try done.
  { by rewrite (td_deadlines _ _ _ _ _ (told_close_requested (view s) why ltac:(done))). }
  pose proof (lk_close _ _ (ho_links _ _ _ _ _ _ Ho)) as K.
  pose proof (bool_decide_eq_true_1 _ Hcon) as Htc.
  assert (Reference.phase (view s) = ConnectionPhase.Live) as Hl
    by (destruct (Reference.phase (view s)); [done|destruct K; congruence..]).
  rewrite Hl in K. destruct K as [Hnone _].
  pose proof (closed_phase (view s) why Hl) as Hp. fold input in Hp.
  assert (Reference.reason (Reference.step ep input (view s)).1 = Some why) as Hwhy.
  { unfold input, Reference.step. rewrite bool_decide_eq_true_2 by done. by rewrite Hl. }
  assert (∃ self', s'.1 = (interpret unit_outcome (Reference.step ep input (view s)).2
    (set_core s.1 c.1)).1 ∧ self' = s'.1) as (self' & Hself & _).
  { unfold local in Hi. destruct (interpret _ _ _) as [self1 r]. simplify_eq/=. by eexists. }
  pose proof (interpret_request unit_outcome (Reference.step ep input (view s)).2
    (set_core s.1 c.1)) as Hask.
  pose proof (interpret_undrains unit_outcome (Reference.step ep input (view s)).2
    (set_core s.1 c.1) Hnone) as Hdr.
  rewrite <- Hself in Hask, Hdr. change (close_request (set_core s.1 c.1)) with (close_request s.1) in Hask.
  pose proof Hs' as [Hh' [X1 X2 X3 [_ Ha _ _] X5 [_ _ K']]]. rewrite Hv' in K'.
  fold input in K'. rewrite Hp in K'. destruct K' as (Ht' & w & sh & Hcl & Hre).
  assert (w = why) as -> by congruence. unfold why in Hcl.
  assert (sh = ShutdownState.Immediate) as ->.
  { destruct Hask as [Hask|(_ & w' & [Hask|(-> & d & Hask)])]; congruence. }
  exists s'. split; [|split; [|exact Hf]].
  { unfold close_for. rewrite He. unfold apply_input. rewrite (ste_bind_ok _ _ _ _ _ Hrun). exact Hi. }
  pose proof (ho_fired _ _ _ _ _ _ Ho) as Hfired.
  destruct (CoreView.held_life _ _ _ _ Hh') as [(Hl' & _)|(_ & Hg & _ & Hnil)];
    [change (CoreView.view_of (core_of s')) with (view s') in Hl'; rewrite Hv' in Hl';
     fold input in Hl'; congruence|].
  change (CoreView.view_of (core_of s')) with (view s') in Hg, Hnil.
  assert (timer_entries (timers s'.1) = []) as Htimers.
  { unfold Told.deadlines in Ha. rewrite Hnil in Ha. symmetry in Ha.
    apply Permutation_nil in Ha. by apply fmap_nil_inv in Ha. }
  assert (awaits (view s') s'.1 = 0%nat) as Hzero.
  { unfold awaits, is_connecting. rewrite Htimers, Ht', Hg, Hcl, Hdr by congruence. done. }
  assert (1 ≤ awaits (view s) s.1)%nat as Hone by (unfold awaits; rewrite Hcon; lia).
  split; [exact Hh'|]. destruct Hs' as [_ [Y1 Y2 [] [] (o & a & [] & []) []]].
  split; try done; [by exists o, a; split; split|]. rewrite Hzero. simpl. lia.
Qed.

(** Whether the loop has something to do. *)
Definition due self now : bool :=
  Drive.drain_first self now || Drive.connect_first self now ||
  match Drive.pop_timer self now with (_, Some _) => true | (_, None) => false end.

(** One round: nothing is due, or a deadline fires. *)
Lemma deadlines_round n fuel now budget work s :
  sound n s → work < budget →
  let loop := Drive.deadlines_loop (S fuel) now budget work s in
  if due s.1 now then
    ∃ s1, sound (woken n) s1 ∧ follows s.1 s1.1 ∧
      (loop = (s1, Ok (work + 1)) ∨ loop = Drive.deadlines_loop fuel now budget (work + 1) s1)
  else ∃ s1, sound n s1 ∧ follows s.1 s1.1 ∧ loop = (s1, Ok work).
Proof.
  destruct s as [self heap]. intros Hs Hw. unfold due. simpl.
  rewrite (proj2 (Z.leb_gt _ _)) by lia.
  destruct (Drive.drain_first self now) eqn:Hfirst; simpl.
  { set (self1 := record_transport_failure self _).
    assert (sound n (self1, heap)) as Hs1 by (by apply (sound_same n (self, heap))).
    assert (is_Some (drain_deadline self1)) as Hsome.
    { unfold Drive.drain_first in Hfirst. change (drain_deadline self1) with (drain_deadline self).
      by destruct (drain_deadline self). }
    destruct (drain_elapsed n (self1, heap) _ Hs1 Hsome eq_refl) as (s' & Hr & Hs' & Hf).
    exists s'. cbn [fst snd] in Hr. rewrite (ste_bind_ok _ _ _ _ _ Hr). split; [done|].
    split; [destruct Hf; by split|by left]. }
  destruct (Drive.connect_first self now) eqn:Hc; simpl.
  { unfold Drive.connect_first in Hc. apply andb_true_iff in Hc as [[Hc _]%andb_true_iff _].
    destruct (connect_elapsed n (self, heap) Hs Hc) as (s' & Hr & Hs' & Hf). exists s'.
    rewrite (ste_bind_ok _ _ _ _ _ Hr). split; [done|]. split; [done|by left]. }
  pose proof Hs as [Hh Ho]. pose proof (pop_timer_spec n _ self now Ho) as Hp.
  destruct (Drive.pop_timer self now) as [self' [event|]]; destruct Hp as (Hco & Hf & Hcl & Hp);
    assert (core_of (self', heap) = core_of (self, heap)) as Hcore
      by (unfold core_of; simpl; by rewrite Hco);
    assert (view (self', heap) = view (self, heap)) as Hv by (unfold view; by rewrite Hcore).
  - destruct Hp as (d & armed & Hep & Hel & Hperm & Ho').
    assert ((DeadlineEvent.operation event, d) ∈ Told.deadlines (view (self, heap))) as Hin
      by (rewrite Hperm; constructor).
    destruct (told_deadline ep _ _ d now (sound_coherent _ _ Hs) Hin Hel) as [Ht Hc'].
    destruct (input_spec (woken n) (self', heap) (ConnectionInput.DeadlineElapsed ep
      (DeadlineEvent.operation event) now) (view (self, heap)) armed)
      as (s' & Hr & Hs' & Hf' & _).
    + by rewrite Hcore.
    + exact Ho'.
    + rewrite Hv. unfold Reference.step. by rewrite bool_decide_eq_true_2.
    + rewrite Hv. unfold Reference.step. rewrite bool_decide_eq_true_2 by done.
      rewrite (td_deadlines _ _ _ _ _ Ht), Hperm, filter_cons_False; [done|]. simpl. auto.
    + exists s'. rewrite Hep, (ste_bind_ok _ _ _ _ _ Hr). split; [done|].
      split; [by etrans|]. destruct s' as [self2 heap2]. destruct (close_request self2); auto.
  - exists (self', heap). split; [|by split]. split; [by rewrite Hcore|by rewrite Hv].
Qed.

Lemma deadlines_loop_safe n fuel now budget work :
  safe n (Drive.deadlines_loop fuel now budget work).
Proof.
  revert n work. induction fuel as [|fuel IH]; intros n work [self heap] Hs; [by eexists _, _|].
  destruct (Z.le_gt_cases budget work) as [Hle|Hlt].
  { simpl. rewrite (proj2 (Z.leb_le _ _) Hle). by eexists _, _. }
  pose proof (deadlines_round n fuel now budget work _ Hs Hlt) as Hr. cbv zeta in Hr.
  destruct (due _ _).
  - destruct Hr as (s1 & Hs1 & Hf1 & [-> | ->]); apply woken_sound in Hs1; [by eexists _, _|].
    destruct (IH n (work + 1) s1 Hs1) as (s2 & w & -> & Hs2 & Hf2). exists s2, w.
    split; [done|]. split; [done|]. by etrans.
  - destruct Hr as (s1 & Hs1 & Hf1 & ->). by eexists _, _.
Qed.

(** If something is due, at least one deadline fires. *)
Lemma deadlines_loop_wakes n fuel now budget work s :
  sound n s → work < budget → due s.1 now = true →
  ∃ s' w, Drive.deadlines_loop (S fuel) now budget work s = (s', Ok w) ∧ sound (woken n) s' ∧
    follows s.1 s'.1.
Proof.
  intros Hs Hlt Hdue. pose proof (deadlines_round n fuel now budget work _ Hs Hlt) as Hr.
  cbv zeta in Hr. rewrite Hdue in Hr. destruct Hr as (s1 & Hs1 & Hf1 & [-> | ->]); [by eexists _, _|].
  destruct (deadlines_loop_safe (woken n) fuel now budget (work + 1) s1 Hs1) as (s2 & w & -> & Hs2 & Hf2).
  exists s2, w. split; [done|]. split; [done|]. by etrans.
Qed.

(** ** Frames *)

Lemma slot_core_reply n s (reply : InboundReply.t Frame) :
  CoreView.held core_limits (accepted n) (permits n) (core_of s) → epoch s.1 = ep →
  let ref := Reference.reply ep reply (view s) in
  ∃ c, core_try (ConnectionCore.apply_reply reply) s = (set_core s.1 c.1, c.2, Ok ref.2) ∧
    CoreView.held core_limits (accepted n) (permits n) c ∧ CoreView.epoch_of c = ep ∧
    CoreView.view_of c = ref.1.
Proof.
  destruct s as [self heap]. intros Hh He ref.
  destruct (CoreView.core_reply _ _ _ _ reply Hh) as (c & Hrun & Hc & Hv & Hk).
  change (CoreView.epoch_of (core_of (self, heap))) with (epoch self) in *.
  cbn [fst] in He. rewrite He in Hrun, Hv. exists c.
  split; [|split; [exact Hc|split; [by rewrite (CoreView.kept_epoch_of _ _ Hk)|exact Hv]]].
  unfold core_try, on_core, core_of in *. cbn [fst snd] in Hrun. rewrite Hrun. by destruct c.
Qed.

(** A frame that is not too large. *)
Lemma reply_safe n key (frame : Frame) s :
  rb_get (retained_bytes frame) ≤ rb_get (ConnectionSlotLimits.reply_bytes lim) → sound n s →
  ∃ s', (let! transition :=
           core_try (ConnectionCore.apply_reply (InboundReply.new (epoch s.1) key frame)) in
         interpret_reply transition) s = (s', Ok tt) ∧ sound n s' ∧ follows s.1 s'.1.
Proof.
  intros Hle Hs. pose proof Hs as [Hh Ho]. rewrite (epoch_eq _ _ Hs).
  destruct (slot_core_reply n s (InboundReply.new ep key frame) Hh (epoch_eq _ _ Hs))
    as (c & Hrun & Hc & He & Hv).
  pose proof (told_reply ep (view s) (InboundReply.new ep key frame) (sound_coherent _ _ Hs)) as Ht.
  destruct (transition_spec (E := EngineError.t) Some _ n _ (Told.deadlines (view s)) s c _ _
    (reply_convertible frame Hle) Ht Ho) as (s' & Hi & Hs' & Hf & _); try done.
  { by rewrite (td_deadlines _ _ _ _ _ Ht). }
  exists s'. rewrite (ste_bind_ok _ _ _ _ _ Hrun). by split_and!.
Qed.

Lemma decoder_safe n : safe n Drive.drive_decoder_once.
Proof.
  intros [self heap] Hs. unfold Drive.drive_decoder_once.
  assert (limits self = lim) as Hli by (destruct Hs as [_ Ho]; apply (ho_limits _ _ _ _ _ _ Ho)).
  destruct (FrameDriver.next_frame (decoder self)) as [decoder [[frame|]|error]].
  - cbn [limits set_decoder]. rewrite Hli, rb_gtb_spec.
    destruct (Z.ltb_spec (rb_get (ConnectionSlotLimits.reply_bytes lim))
      (rb_get (retained_bytes frame))) as [|Hle].
    { apply (safe_after n (close_for CloseReason.InboundRetainedCapacity) (self, heap)); try done.
      by apply close_for_safe. }
    cbn [classifier set_decoder]. destruct (reply_key _ frame) as [classifier [key|e]].
    + set (self1 := set_classifier _ classifier).
      assert (sound n (self1, heap)) as Hs1 by (by apply (sound_same n (self, heap))).
      destruct (reply_safe n key frame (self1, heap) Hle Hs1) as (s' & Hr & Hs' & Hf).
      exists s', tt. split; [exact Hr|]. split; [done|]. destruct Hf. by split.
    + apply (safe_after n close_malformed (self, heap)); try done. apply close_malformed_safe.
  - destruct (negb _).
    + apply (safe_after n (close_for CloseReason.InboundRetainedCapacity) (self, heap)); try done.
      by apply close_for_safe.
    + apply (safe_after n (ste_ret tt) (self, heap)); try done. apply safe_ret.
  - apply (safe_after n (close_decode_error error) (self, heap)); try done.
    apply close_decode_error_safe.
Qed.

Lemma feed_safe n bytes : safe n (Drive.feed_decoder bytes).
Proof.
  intros [self heap] Hs. unfold Drive.feed_decoder.
  destruct (FrameDriver.feed (decoder self) bytes) as [decoder [r|error]].
  - apply (safe_after n (ste_ret tt) (self, heap)); try done. apply safe_ret.
  - apply (safe_after n (close_decode_error error) (self, heap)); try done.
    apply close_decode_error_safe.
Qed.

(** ** Writes *)

Lemma report_sound n s slice written f rest :
  sound n s → WriteQueue.frames (ConnectionCore.writes (core s.1)) = f :: rest →
  WriteSlice.epoch slice = ep → WriteSlice.effect slice = QueuedWrite.effect f →
  0 ≤ written ≤ FrameMeasure.wire_bytes (QueuedWrite.measure f) - QueuedWrite.written f →
  ∃ s', Drive.report_written slice written s = (s', Ok tt) ∧ sound n s' ∧ follows s.1 s'.1.
Proof.
  intros Hs Hfr Hep Heff Hn. pose proof Hs as [Hh Ho]. pose proof (epoch_eq _ _ Hs) as He.
  destruct (CoreView.core_advance _ _ _ _ f rest written Hh Hfr Hn) as (c & Hrun & Hc & Hv & Hk).
  change (CoreView.epoch_of (core_of s)) with (epoch s.1) in *. rewrite He in Hrun, Hv.
  change (CoreView.view_of (core_of s)) with (view s) in *.
  pose proof (told_progress ep (view s) (QueuedWrite.operation f) (0 <? written)
    (written =? FrameMeasure.wire_bytes (QueuedWrite.measure f) - QueuedWrite.written f)
    (sound_coherent _ _ Hs)) as Ht.
  destruct (transition_spec (E := EngineError.t) unit_outcome none n _ (Told.deadlines (view s)) s c
    _ _ unit_convertible Ht Ho) as (s' & Hi & Hs' & Hf & _); try done.
  { by rewrite (td_deadlines _ _ _ _ _ Ht). }
  { rewrite (CoreView.kept_epoch_of _ _ Hk). exact He. }
  exists s'. split; [|by split]. unfold Drive.report_written.
  destruct s as [self heap].
  rewrite (ste_bind_ok _ _ _ (set_core self c.1, c.2)
    (Reference.progress ep (QueuedWrite.operation f) (0 <? written)
      (written =? FrameMeasure.wire_bytes (QueuedWrite.measure f) - QueuedWrite.written f)
      (view (self, heap))).2); [exact Hi|].
  unfold core_try, on_core, core_of in *. cbn [fst snd] in Hrun. rewrite Hep, Heff, Hrun.
  by destruct c.
Qed.

End slot_calls.
End SlotCalls.
