(* ===== verification/DriveSpec.v ===== *)
(** * A quantum keeps the invariant of the slot, whatever the transport does

    Each step of a quantum is run against an arbitrary transport that respects
    [TransportContract]. With a trusted transport every step succeeds; with
    any other, a step fails only by blaming the transport, and the slot it
    leaves is still sound. *)
From Stdlib Require Import ZArith Lia.
From stdpp Require Import prelude.
From S2P Require Import Prelude External Host Identity Limits Admission Ledger Operation Permit.
From S2P Require Import Write Framing Machine Core Recovery Reference ReferenceFacts CoreView.
From S2P Require Import Config Transport SlotData Slot Drive SlotSpec SlotCalls.

Import Told Hosted SlotCalls ConnectionSlot Drive.

Module DriveSpec.
Section drive_spec.
Context {Cal : Calandria} {BB : ByteBudgetLib} {Build : BuildConfig} {H : Host}.
Context {Laws : CalandriaLaws Cal} {BLaws : ByteBudgetLaws BB} {HL : HostLaws H}.
Context {D C : Type} {Dec : FrameDecoder D} {Ret : Retained Frame}.
Context {Cls : InboundClassifier Frame C}.
Context {T : Type} {TP : SlotTransport T}.
Context (lim : ConnectionSlotLimits.t) (Hlim : valid_limits lim) (ep : ConnectionEpoch.t).
Context (trusted : bool) (bound : RetainedBytes) (holds : T → Prop).
Context (contract : TransportContract TP trusted bound holds).
Context (Hbound : trusted = true →
  rb_get bound ≤ rb_get (ConnectionSlotLimits.transport_retained_bytes lim)).
Implicit Types (self : ConnectionSlot.t D C) (n : notes (Dec := Dec)) (t : T).

(** The errors by which a slot blames its transport. *)
Definition blames (e : EngineError.t) : Prop :=
  match e with
  | EngineError.Invariant (EngineInvariant.TransportReadContract _ _)
  | EngineError.Invariant (EngineInvariant.TransportProgressContract _ _)
  | EngineError.Invariant EngineInvariant.TransportOpenedBeforeEstablishment
  | EngineError.Invariant (EngineInvariant.TransportRetainedCapacity _ _)
  | EngineError.Invariant (EngineInvariant.TransportLimitContract _ _)
  | EngineError.Invariant EngineInvariant.TransportNoProgress => True
  | _ => False
  end.

(** A failure of a call: never with a trusted transport. *)
Definition blamed {A : Type} (r : result A EngineError.t) : Prop :=
  ∀ e, r = Err e → trusted = false ∧ blames e.

(** What a trusted transport and its slot agree on. *)
Definition agreed self : Prop :=
  trusted = true →
  match transport_retained_limit self with Some b => b = bound | None => True end.

Definition unopened self t : Prop :=
  trusted = true → is_connecting self = true → tr_is_open t = false.

Record dinv n (s : driven (D := D) (C := C) (T := T)) : Prop := mk_dinv {
  di_sound : sound lim ep n s.1;
  di_holds : holds s.2;
  di_agreed : agreed s.1.1;
  di_unopened : unopened s.1.1 s.2;
}.

Definition dsafe {A : Type} n (f : DM A) : Prop :=
  ∀ s, dinv n s → ∃ s' r, f s = (s', r) ∧ dinv n s' ∧ blamed r.

Lemma blamed_ok {A : Type} (a : A) : blamed (Ok a).
Proof. by intros e. Qed.

Lemma blamed_err {A B : Type} (e : EngineError.t) :
  blamed (Err e : result A EngineError.t) → blamed (Err e : result B EngineError.t).
Proof. intros Hb e' [= <-]. by apply Hb. Qed.

Lemma dsafe_ret {A : Type} n (a : A) : dsafe n (ste_ret a).
Proof. intros s Hs. exists s, (Ok a). split; [done|]. split; [done|apply blamed_ok]. Qed.

Lemma dsafe_bind {A B : Type} n (f : DM A) (k : A → DM B) :
  dsafe n f → (∀ a, dsafe n (k a)) → dsafe n (ste_bind f k).
Proof.
  intros Hf Hk s Hs. destruct (Hf s Hs) as (s1 & [a|e] & Hr & Hs1 & Hb).
  - destruct (Hk a s1 Hs1) as (s2 & r & Hr2 & Hs2 & Hb2). exists s2, r.
    by rewrite (ste_bind_ok _ _ _ _ _ Hr).
  - exists s1, (Err e). rewrite (ste_bind_err _ _ _ _ _ Hr). split; [done|]. split; [done|].
    by eapply blamed_err.
Qed.

(** The slot moved on without the transport. *)
Lemma dinv_follows n n' s t s' :
  dinv n (s, t) → sound lim ep n' s' → follows s.1 s'.1 → dinv n' (s', t).
Proof.
  intros [Hs Ht Ha Hu] Hs' [Hl Htr]. split; simpl in *; try done.
  - unfold agreed in *. by rewrite Hl.
  - unfold unopened, is_connecting in *. intros Htt. destruct Htr as [-> | ->]; [by apply Hu|done].
Qed.

(** A method that does not use the transport. *)
Lemma slot_step {A : Type} n (f : M (D := D) (C := C) A) s t :
  safe lim ep n f → dinv n (s, t) →
  ∃ s' a, on_slot f (s, t) = (s', t, Ok a) ∧ dinv n (s', t).
Proof.
  intros Hf Hd. destruct (Hf s (di_sound _ _ Hd)) as (s' & a & Hr & Hs' & Hfo).
  exists s', a. unfold on_slot. rewrite Hr. split; [done|]. by eapply dinv_follows.
Qed.

Lemma dsafe_slot {A : Type} n (f : M (D := D) (C := C) A) :
  safe lim ep n f → dsafe n (on_slot f).
Proof.
  intros Hf [s t] Hd. destruct (slot_step n f s t Hf Hd) as (s' & a & Hr & Hd').
  exists (s', t), (Ok a). split; [done|]. split; [done|apply blamed_ok].
Qed.

(** Fields the invariant does not read. *)
Lemma dinv_same n self heap t self' :
  dinv n (self, heap, t) → same_host self self' →
  transport_retained_limit self' = transport_retained_limit self → dinv n (self', heap, t).
Proof.
  intros Hd Hs Hl. eapply dinv_follows; [exact Hd| |].
  - apply (sound_same lim ep n (self, heap)); [apply Hd|done].
  - by apply same_follows.
Qed.

Lemma dsafe_update n f :
  (∀ self, same_host self (f self) ∧
     transport_retained_limit (f self) = transport_retained_limit self) →
  dsafe n (update f).
Proof.
  intros Hf [[self heap] t] Hd. destruct (Hf self) as [Hs Hl].
  exists (f self, heap, t), (Ok tt). split; [done|]. split; [by eapply dinv_same|apply blamed_ok].
Qed.

(** The transport moved on, and the slot is not waiting for it to open. *)
Lemma dinv_transport n s t t' :
  dinv n (s, t) → holds t' → is_connecting s.1 = false → dinv n (s, t').
Proof. intros [Hs Ht Ha Hu] Ht' Hc. split; simpl in *; try done. intros _. by rewrite Hc. Qed.

(** ** Pressure *)

Lemma pressure_failure_same self kind : same_host self (pressure_failure self kind).
Proof. by split. Qed.

Lemma capture_dsafe n : dsafe n capture.
Proof.
  intros [[self heap] t] Hd. unfold capture, capture_transport_pressure.
  assert (limits self = lim) as Hli
    by (destruct Hd as [[_ Ho] _ _ _]; apply (ho_limits _ _ _ _ _ _ Ho)).
  rewrite !rb_gtb_spec, Hli.
  set (reported := TransportLimits.retained_bytes (tr_pressure_limit t)).
  assert (trusted = true → reported = bound) as Hrep
    by (intros Htr; apply (ct_limit _ _ _ _ contract Htr), (di_holds _ _ Hd)).
  match goal with |- context [if ?b then _ else _] => destruct b eqn:Hbad end.
  - eexists _, _. split; [reflexivity|]. split; [by eapply dinv_same|].
    intros e [= <-]. split; [|done]. destruct trusted eqn:Htr; [|done]. exfalso.
    rewrite (Hrep eq_refl) in Hbad. apply orb_true_iff in Hbad as [Hlt|Hne].
    + apply Z.ltb_lt in Hlt. specialize (Hbound eq_refl). lia.
    + pose proof (di_agreed _ _ Hd) as Ha. unfold agreed in Ha. rewrite Htr in Ha.
      specialize (Ha eq_refl). simpl in Ha. destruct (transport_retained_limit self); [|done].
      subst. rewrite rb_eqb_spec, Z.eqb_refl in Hne. done.
  - simpl. set (self1 := set_transport_pressure _ _).
    assert (dinv n (self1, heap, t)) as Hd1.
    { destruct Hd as [Hs Hh Ha Hu]. split; [|done|unfold agreed; simpl; auto|done].
      by apply (sound_same lim ep n (self, heap)). }
    rewrite rb_gtb_spec. destruct (Z.ltb_spec (rb_get reported)
      (rb_get (TransportPressure.total (tr_pressure t)))) as [Hlt|Hle]; simpl negb; cbv iota.
    + eexists _, _. split; [reflexivity|]. split; [by eapply dinv_same|].
      intros e [= <-]. split; [|done]. destruct trusted eqn:Htr; [|done]. exfalso.
      rewrite (Hrep eq_refl) in Hlt.
      pose proof (ct_pressure _ _ _ _ contract eq_refl t (di_holds _ _ Hd)). lia.
    + eexists _, _. split; [reflexivity|]. split; [done|apply blamed_ok].
Qed.

(** A step, and what the transport retains after it. *)
Lemma observed_dsafe {A : Type} n (f : DM A) : dsafe n f → dsafe n (Drive.observed f).
Proof.
  intros Hf s Hd. unfold Drive.observed. destruct (Hf s Hd) as (s1 & r & -> & Hd1 & Hb).
  destruct (capture_dsafe n s1 Hd1) as (s2 & p & -> & Hd2 & Hb2). exists s2. eexists.
  split; [reflexivity|]. split; [done|].
  destruct r as [a|e], p as [u|e']; [apply blamed_ok|by eapply blamed_err|done..].
Qed.

(** ** Transport-local work *)

Lemma budget_valid n (s : owner D C) :
  sound lim ep n s → TransportBudget.valid (transport_budget s.1).
Proof.
  intros [_ Ho]. pose proof (vl_chunk _ Hlim) as Hch. rewrite <- (ho_limits _ _ _ _ _ _ Ho) in Hch.
  by split.
Qed.

Lemma validate_blamed budget progress :
  (trusted = true → TransportProgress.fits progress budget = true ∧
     TransportProgress.is_idle progress = false) →
  blamed (validate_transport_progress budget progress).
Proof.
  clear Hbound contract.
  intros Hok e. unfold validate_transport_progress.
  destruct trusted eqn:Htr.
  - destruct (Hok eq_refl) as [-> ->]. done.
  - destruct (negb _); [by intros [= <-]|]. destruct (TransportProgress.is_idle _); [|done].
    by intros [= <-].
Qed.

Lemma transport_failed_spec n (s : owner D C) t source why :
  why ≠ CloseReason.Drained → sound lim ep n s → agreed s.1 → holds t →
  (is_connecting s.1 = true → Reference.phase (view s) = ConnectionPhase.Live) →
  unopened s.1 t ∨ Reference.phase (view s) = ConnectionPhase.Live →
  ∃ s', transport_failed source why (s, t) = (s', t, Ok (Some 1)) ∧ dinv n (s', t).
Proof.
  destruct s as [self heap]. intros Hw Hs Ha Ht Hc Hor. unfold transport_failed.
  set (self1 := record_transport_failure self (TransportError.diagnostic source)).
  assert (sound lim ep n (self1, heap)) as Hs1 by (by apply (sound_same lim ep n (self, heap))).
  rewrite (ste_bind_ok _ _ _ (self1, heap, t) tt) by done.
  assert (∃ s', close_for why (self1, heap) = (s', Ok tt) ∧ sound lim ep n s' ∧
    follows self s'.1 ∧ (unopened self t ∨ is_connecting s'.1 = false)) as (s' & Hr & Hs' & Hf & Hu).
  { destruct Hor as [Hu|Hl].
    - destruct (close_for_safe lim Hlim ep n why Hw (self1, heap) Hs1) as (s' & [] & Hr & Hs' & Hf).
      exists s'. split; [done|]. split; [done|]. split; [by destruct Hf; split|by left].
    - destruct (close_for_closes lim Hlim ep n why (self1, heap) Hw Hs1 Hl)
        as (s' & Hr & Hs' & Hf & Htr).
      exists s'. split; [done|]. split; [done|]. split; [by destruct Hf; split|right].
      unfold is_connecting. by rewrite Htr. }
  exists s'. rewrite (ste_bind_ok _ _ _ (s', t) tt) by (unfold on_slot; by rewrite Hr).
  split; [done|]. split; simpl; try done.
  - unfold agreed in *. destruct Hf as [Hl _]. simpl in Ha. by rewrite Hl.
  - intros Htr Hcon. destruct Hu as [Hu|Hu]; [|congruence]. apply Hu; [done|].
    unfold is_connecting in *. destruct Hf as [_ [Hf|Hf]]; rewrite Hf in Hcon; [exact Hcon|done].
Qed.

(** While the transport connects, the epoch is live. *)
Lemma connecting_live n (s : owner D C) :
  sound lim ep n s → is_connecting s.1 = true → Reference.phase (view s) = ConnectionPhase.Live.
Proof.
  intros [_ Ho] Hc%bool_decide_eq_true. destruct Ho as [_ _ _ _ _ [_ _ K]].
  destruct (Reference.phase (view s)); [done|destruct K; congruence..].
Qed.

(** The transport opened: the edge is published. *)
Lemma opened_spec n (s : owner D C) :
  sound lim ep n s → is_connecting s.1 = true →
  ∃ self', publish_transport_opened (set_transport_state s.1 TransportState.Open) =
      (self', Ok tt) ∧
    sound lim ep n (self', s.2) ∧ is_connecting self' = false ∧
    transport_retained_limit self' = transport_retained_limit s.1.
Proof.
  destruct s as [self heap]. intros Hs Hc. pose proof (connecting_live _ _ Hs Hc) as Hl.
  apply bool_decide_eq_true in Hc. cbn [fst] in Hc. destruct Hs as [Hh Ho].
  set (v := view (self, heap)) in *. cbn [fst snd].
  pose proof Ho as [Hli He Hoc Htm (o & a & Hev & [S1 S2 S3 S4]) [K1 K2 K3] Hfired]. cbn [fst] in *.
  specialize (S3 Hc) as ->. assert (a = false) as -> by (destruct a; [by specialize (S1 eq_refl)|done]).
  set (self1 := set_transport_state self TransportState.Open).
  assert (events_ok lim ep n [] self1) as Hev1.
  { unfold edges, closing_edges in Hev. rewrite Hl in Hev. by destruct Hev. }
  destruct (publish_edge_spec lim Hlim ep n [] self1 ConnectionEvent.TransportOpened Hev1 He)
    as (q & Hpub & Hev'); [simpl; lia|done|].
  cbv zeta in Hpub, Hev'. eexists. split; [exact Hpub|].
  set (self2 := set_event_sequence _ _) in *. split; [|done].
  split; [exact Hh|]. change (view (self2, heap)) with v. clearbody v. split; try done.
  - by destruct Hoc.
  - by destruct Htm.
  - exists true, false. unfold edges, closing_edges. rewrite Hl. split; [by destruct Hev'|]. by split.
  - split; [done|done| |by rewrite Hl]. rewrite Hl in *. split; [by destruct K3|by right].
  - unfold awaits in *. simpl in *. unfold is_connecting in *. simpl. lia.
Qed.

Lemma establishment_dsafe n (s : driven (D := D) (C := C) (T := T)) :
  dinv n s → is_connecting s.1.1 = true →
  ∃ s' r, drive_establishment_once s = (s', r) ∧ dinv n s' ∧ blamed r.
Proof.
  destruct s as [[self heap] t]. intros Hd Hc. cbn [fst] in Hc. unfold drive_establishment_once.
  destruct (tr_can_establish t) eqn:Hce; simpl negb; cbv iota;
    [|by eexists _, _; split; [reflexivity|]; split; [|apply blamed_ok]].
  pose proof (connecting_live _ _ (di_sound _ _ Hd) Hc) as Hl.
  pose proof (ct_establish _ _ _ _ contract t (socket_policy self) (transport_budget self)
    (di_holds _ _ Hd)) as Ht.
  pose proof (λ H r, ct_establish_progress _ _ _ _ contract H t (socket_policy self)
    (transport_budget self) r (di_holds _ _ Hd) (budget_valid n _ (di_sound _ _ Hd)) Hce) as Hp.
  destruct (tr_drive_establishment _ _ _) as [t' [progress|source]]; simpl in Ht.
  - pose proof (validate_blamed (transport_budget self) progress (λ H, Hp H progress eq_refl)) as Hv.
    destruct (validate_transport_progress _ _) as [u|e].
    + destruct (tr_is_open t') eqn:Hopen.
      * destruct (opened_spec n (self, heap) (di_sound _ _ Hd) Hc) as (self' & Hpub & Hs' & Hnc & Hlm).
        eexists (self', heap, t'), _. split.
        { rewrite (ste_bind_ok _ _ _ (self', heap, t') tt); [reflexivity|].
          unfold on_slot, local. cbn [fst] in Hpub. by rewrite Hpub. }
        split; [|apply blamed_ok]. split; simpl; try done.
        -- unfold agreed. rewrite Hlm. apply Hd.
        -- intros _. congruence.
      * eexists (self, heap, t'), _. split; [reflexivity|]. split; [|apply blamed_ok].
        destruct Hd as [Hs _ Ha _]. apply mk_dinv; [done|done|done|]. by intros _ _.
    + eexists _, _. split; [reflexivity|]. split; [|by eapply blamed_err].
      destruct Hd as [Hs _ Ha Hu]. split; try done. intros Htr. by destruct (Hv e eq_refl); congruence.
  - destruct (transport_failed_spec n (self, heap) t' source CloseReason.ConnectFailed)
      as (s' & Hr & Hd'); [done|apply Hd|apply Hd|done|done|by right|].
    eexists _, _. split; [exact Hr|]. split; [done|apply blamed_ok].
Qed.

Lemma open_not_connecting self : is_transport_open self = true → is_connecting self = false.
Proof.
  intros Ho%bool_decide_eq_true. apply bool_decide_eq_false. congruence.
Qed.

Lemma not_connecting n s t :
  dinv n (s, t) → is_connecting s.1 = false → ∀ t', holds t' → dinv n (s, t').
Proof. intros Hd Hc t' Ht. by eapply dinv_transport. Qed.

Lemma transport_dsafe n remaining : dsafe n (drive_transport_once remaining).
Proof.
  intros [[self heap] t] Hd. unfold drive_transport_once.
  destruct (is_connecting self) eqn:Hc; simpl andb; cbv iota.
  - destruct (tr_is_open t) eqn:Ho; cbv iota.
    { eexists _, _. split; [reflexivity|]. split; [done|]. intros e [= <-]. split; [|done].
      destruct (bool_dec trusted true) as [Htr|Htr]; [|by apply not_true_is_false in Htr].
      exfalso. pose proof (di_unopened _ _ Hd) as Hu.
      specialize (Hu Htr Hc). cbn in Hu. congruence. }
    destruct (remaining =? 0);
      [by eexists _, _; split; [reflexivity|]; split; [|apply blamed_ok]|].
    by apply establishment_dsafe.
  - destruct (remaining =? 0);
      [by eexists _, _; split; [reflexivity|]; split; [|apply blamed_ok]|].
    destruct (tr_has_transport_work t) eqn:Hw; simpl negb; cbv iota;
      [|by eexists _, _; split; [reflexivity|]; split; [|apply blamed_ok]].
    pose proof (ct_drive _ _ _ _ contract t (transport_budget self) (di_holds _ _ Hd)) as Ht.
    pose proof (λ H r, ct_drive_progress _ _ _ _ contract H t (transport_budget self) r
      (di_holds _ _ Hd) (budget_valid n _ (di_sound _ _ Hd)) Hw) as Hp.
    destruct (tr_drive_transport _ _) as [t' [progress|source]]; simpl in Ht.
    + pose proof (validate_blamed (transport_budget self) progress (λ H, Hp H progress eq_refl)) as Hv.
      pose proof (not_connecting _ _ _ Hd Hc t' Ht) as Hd'.
      destruct (validate_transport_progress _ _) as [u|e];
        (eexists _, _; split; [reflexivity|]; split; [exact Hd'|]);
        [apply blamed_ok|by eapply blamed_err].
    + destruct (transport_failed_spec n (self, heap) t' source CloseReason.TransportLost)
        as (s' & Hr & Hd'); [done|apply Hd|apply Hd|done| | |].
      { cbn [fst]. congruence. } { left. intros _. cbn [fst]. congruence. }
      eexists _, _. split; [exact Hr|]. split; [done|apply blamed_ok].
Qed.

(** ** Application bytes *)

(** A close and a unit of work. *)
Lemma closing_dsafe {A : Type} n why (a : A) :
  why ≠ CloseReason.Drained → safe lim ep n (close_for (D := D) (C := C) why ;;! ste_ret a).
Proof. intros Hw. apply safe_bind; [by apply close_for_safe|]. intros. apply safe_ret. Qed.

Lemma slot_result {A : Type} n (f : M (D := D) (C := C) A) s t :
  safe lim ep n f → dinv n (s, t) →
  ∃ s' r, on_slot f (s, t) = (s', r) ∧ dinv n s' ∧ blamed r.
Proof. intros Hf Hd. exact (dsafe_slot n f Hf (s, t) Hd). Qed.

Lemma read_dsafe n (s : driven (D := D) (C := C) (T := T)) :
  dinv n s → is_connecting s.1.1 = false →
  ∃ s' r, drive_read_once s = (s', r) ∧ dinv n s' ∧ blamed r.
Proof.
  destruct s as [[self heap] t]. intros Hd Hc. cbn [fst] in Hc. unfold drive_read_once.
  destruct (tr_can_read t); simpl negb; cbv iota;
    [|by eexists _, _; split; [reflexivity|]; split; [|apply blamed_ok]].
  destruct (read_length self =? 0); [by apply slot_result; [apply closing_dsafe|]|].
  set (b := take (Z.to_nat (read_length self)) (read_buffer self)).
  assert (Z.of_nat (length b) ≤ read_length self ∨ length b = 0%nat) as Hlen.
  { unfold b. rewrite length_take. lia. }
  pose proof (ct_read _ _ _ _ contract t b (di_holds _ _ Hd)) as Ht.
  pose proof (λ H k, ct_read_count _ _ _ _ contract H t b k (di_holds _ _ Hd)) as Hcount.
  destruct (tr_read t b) as [[t' filled] r]. simpl in Ht, Hcount.
  set (self1 := set_read_buffer self _).
  assert (dinv n (self1, heap, t')) as Hd1.
  { eapply dinv_same; [|by apply (mk_same self)|done]. by eapply not_connecting. }
  destruct r as [read|source].
  - destruct (Z.eqb_spec read 0) as [->|Hnz]; [by apply slot_result; [apply closing_dsafe|]|].
    destruct (Z.ltb_spec (read_length self) read) as [Hlt|Hle].
    + eexists _, _. split; [reflexivity|]. split; [done|]. intros e [= <-]. split; [|done].
      destruct trusted eqn:Htr; [|done]. specialize (Hcount eq_refl read eq_refl). exfalso.
      assert (0 ≤ read_length self) as Hnn by (unfold read_length, u64_saturating_sub; lia). lia.
    + apply slot_result; [|done]. apply safe_bind; [by apply feed_safe|]. intros. apply safe_ret.
  - case_bool_decide.
    + eexists _, _. split; [reflexivity|]. split; [|apply blamed_ok].
      eapply not_connecting; [exact Hd1|exact Hc|]. by apply (ct_clear_read _ _ _ _ contract).
    + apply slot_result; [by apply closing_dsafe|].
      eapply dinv_same; [exact Hd1|by apply (mk_same self1)|done].
Qed.

Lemma write_dsafe n (s : driven (D := D) (C := C) (T := T)) :
  dinv n s → is_connecting s.1.1 = false →
  ∃ s' r, drive_write_once s = (s', r) ∧ dinv n s' ∧ blamed r.
Proof.
  destruct s as [[self heap] t]. intros Hd Hc. cbn [fst] in Hc. unfold drive_write_once.
  destruct (tr_is_open t); simpl negb; cbv iota;
    [|by eexists _, _; split; [reflexivity|]; split; [|apply blamed_ok]].
  pose proof Hd as [[Hh Ho] Hholds _ _]. cbn [fst snd] in *.
  assert (limits self = lim) as Hli by apply (ho_limits _ _ _ _ _ _ Ho).
  destruct (CoreView.core_front _ _ _ _ (ConnectionSlotLimits.io_chunk_bytes lim) Hh
    (vl_chunk _ Hlim)) as (front & Hrun & Hfront).
  unfold core_try, on_core, core_of in *. cbn [fst snd] in Hrun, Hfront.
  rewrite Hli, Hrun.
  assert (set_core self (core self) = self) as -> by (by destruct self).
  destruct front as [slice|];
    [|by eexists _, _; split; [reflexivity|]; split; [|apply blamed_ok]].
  destruct Hfront as (f & rest & Hfr & Hep & Heff & Hle & Hnn & Hnil).
  assert (CoreView.epoch_of (core self, heap) = ep) as He by apply (ho_epoch _ _ _ _ _ _ Ho).
  rewrite He in Hep.
  assert (∀ written, 0 ≤ written ≤ FrameMeasure.wire_bytes (QueuedWrite.measure f)
      - QueuedWrite.written f → ∀ t', holds t' →
    ∃ s' r, on_slot (report_written slice written ;;! ste_ret (Some tt)) (self, heap, t') = (s', r) ∧
      dinv n s' ∧ blamed r) as Hreport.
  { intros written Hw t' Ht'. pose proof (not_connecting _ _ _ Hd Hc t' Ht') as Hd'.
    destruct (report_sound lim Hlim ep n (self, heap) slice written f rest (di_sound _ _ Hd)
      Hfr Hep Heff Hw) as (s' & Hr & Hs' & Hf).
    eexists (s', t'), (Ok (Some tt)). unfold on_slot. rewrite (ste_bind_ok _ _ _ _ _ Hr).
    split; [done|]. split; [by eapply dinv_follows|apply blamed_ok]. }
  destruct (WriteSlice.bytes slice) as [|b bs] eqn:Hbytes.
  { apply Hreport; [|done]. rewrite (Hnil eq_refl). lia. }
  destruct (tr_can_write t); simpl negb; cbv iota;
    [|by eexists _, _; split; [reflexivity|]; split; [|apply blamed_ok]].
  pose proof (ct_write _ _ _ _ contract t (b :: bs) Hholds) as Ht.
  pose proof (ct_write_count _ _ _ _ contract t (b :: bs)) as Hcount.
  destruct (tr_write t (b :: bs)) as [t' [written|source]]; cbn [fst snd] in Ht, Hcount.
  - specialize (Hcount written Hholds eq_refl).
    destruct (Z.eqb_spec written 0) as [->|Hnz].
    + apply slot_result; [by apply closing_dsafe|]. by eapply not_connecting.
    + apply Hreport; [lia|done].
  - pose proof (not_connecting _ _ _ Hd Hc t' Ht) as Hd'. case_bool_decide.
    + eexists _, _. split; [reflexivity|]. split; [|apply blamed_ok].
      eapply not_connecting; [exact Hd|exact Hc|]. by apply (ct_clear_write _ _ _ _ contract).
    + apply slot_result; [by apply closing_dsafe|].
      eapply dinv_same; [exact Hd'|by apply (mk_same self)|done].
Qed.

End drive_spec.
End DriveSpec.
