(* ===== verification/QuantumSpec.v ===== *)
(** * A whole quantum keeps the invariant of the slot

    The steps of [DriveSpec] are put together the way [drive/slot.rs] and
    [drive/shutdown.rs] do: a round of ready work, the loop over rounds, the
    shutdown of a closing transport, and the quantum itself, fenced and
    latched. *)
From Stdlib Require Import ZArith Lia.
From stdpp Require Import prelude.
From S2P Require Import Prelude External Host Identity Limits Admission Ledger Operation Permit.
From S2P Require Import Write Framing Machine Core Recovery Reference ReferenceFacts CoreView.
From S2P Require Import Config Transport SlotData Slot Drive SlotSpec SlotCalls DriveSpec.

Import Told Hosted SlotCalls ConnectionSlot Drive DriveSpec.

Module QuantumSpec.
Section quantum_spec.
Context {Cal : Calandria} {BB : ByteBudgetLib} {Build : BuildConfig} {H : Host}.
Context {Laws : CalandriaLaws Cal} {BLaws : ByteBudgetLaws BB} {HL : HostLaws H}.
Context {D C : Type} {Dec : FrameDecoder D} {Ret : Retained Frame}.
Context {Cls : InboundClassifier Frame C}.
Context {T : Type} {TP : SlotTransport T}.
Context (lim : ConnectionSlotLimits.t) (Hlim : valid_limits lim) (ep : ConnectionEpoch.t).
Context (trusted : bool) (bound : RetainedBytes) (holds : T → Prop).
Context (contract : TransportContract TP trusted bound holds).
Context (Hbound : trusted = true →
  rb_get bound ≤ rb_get (ConnectionSlotLimits.transport_retained_bytes lim)).
Implicit Types (self : ConnectionSlot.t D C) (n : notes (Dec := Dec)) (t : T).

Notation dinv := (dinv lim ep trusted bound holds).
Notation dsafe := (dsafe (D := D) (C := C) lim ep trusted bound holds).
Notation blamed := (blamed trusted).
Notation agreed := (agreed trusted bound).

(** ** One round of ready work *)

Lemma preferred_dsafe n preference remaining : dsafe n (drive_preferred preference remaining).
Proof.
  assert (∀ (f : DM (D := D) (C := C) (T := T) (option unit)) s,
    (∃ s' r, f s = (s', r) ∧ dinv n s' ∧ blamed r) →
    ∃ s' r, (let! progressed := f in ste_ret ((λ _, 1) <$> progressed)) s = (s', r) ∧
      dinv n s' ∧ blamed r) as Hone.
  { intros f s (s' & [a|e] & Hr & Hd & Hb).
    - eexists _, _. rewrite (ste_bind_ok _ _ _ _ _ Hr). split; [reflexivity|].
      split; [done|apply blamed_ok].
    - eexists _, _. rewrite (ste_bind_err _ _ _ _ _ Hr). split; [reflexivity|].
      split; [done|by eapply blamed_err]. }
  intros [[self heap] t] Hd. unfold drive_preferred.
  assert (∀ r : option Z, ∃ s' r', (self, heap, t, Ok r) = (s', r') ∧ dinv n s' ∧ blamed r')
    as Hidle by (intros r; eexists _, _; split; [reflexivity|]; split; [done|apply blamed_ok]).
  destruct preference.
  - by apply transport_dsafe.
  - destruct (decoder_pending self); [|apply Hidle].
    apply (slot_result lim ep trusted bound holds); [|done].
    apply safe_bind; [by apply decoder_safe|]. intros. apply safe_ret.
  - destruct (is_transport_open self) eqn:Ho; [|apply Hidle]. apply Hone.
    eapply read_dsafe; try done. by apply open_not_connecting.
  - destruct (is_transport_open self) eqn:Ho; [|apply Hidle]. apply Hone.
    eapply write_dsafe; try done. by apply open_not_connecting.
Qed.

Lemma ready_loop_dsafe n rounds preference remaining :
  dsafe n (ready_loop rounds preference remaining).
Proof.
  revert preference. induction rounds as [|rounds IH]; intros preference; [apply dsafe_ret|].
  apply dsafe_bind; [by apply observed_dsafe, preferred_dsafe|]. intros [k|]; [|apply IH].
  apply dsafe_bind; [|intros; apply dsafe_ret]. by apply dsafe_update.
Qed.

Lemma ready_dsafe n remaining : dsafe n (drive_ready_once remaining).
Proof. intros [[self heap] t] Hd. by apply ready_loop_dsafe. Qed.

(** ** Graceful shutdown *)

Lemma dinv_shutdown n self heap t why shutdown shutdown' :
  dinv n (self, heap, t) → close_request self = Some (CloseDirective.Core why shutdown) →
  nearer shutdown shutdown' →
  dinv n (set_close_request self (Some (CloseDirective.Core why shutdown')), heap, t).
Proof.
  intros Hd Hc Hn. eapply dinv_follows; [exact Hd| |by split; auto].
  destruct Hd as [[Hh Ho] _ _ _]. split; [exact Hh|]. by eapply hosted_shutdown.
Qed.

(** A slot that is closing does not wait for its transport to open. *)
Lemma closing_not_connecting n self heap t directive :
  dinv n (self, heap, t) → close_request self = Some directive → is_connecting self = false.
Proof.
  intros [[_ [_ _ _ _ _ [_ _ K]]] _ _ _] Hc. cbn [fst] in K. apply bool_decide_eq_false.
  destruct (Reference.phase _); destruct K as [K ?]; congruence.
Qed.

Lemma shutdown_step_dsafe n self heap t why deadline shutdown call :
  dinv n (self, heap, t) → close_request self = Some (CloseDirective.Core why shutdown) →
  (∀ shutdown', nearer shutdown shutdown') →
  holds (call t (transport_budget self)).1 →
  (trusted = true → ∀ progress, (call t (transport_budget self)).2 = Ok progress →
    TransportProgress.fits progress (transport_budget self) = true ∧
    TransportProgress.is_idle progress = false) →
  ∃ s' r, shutdown_step why deadline call (self, heap, t) = (s', r) ∧ dinv n s' ∧ blamed r.
Proof.
  intros Hd Hc Hn Ht Hp. unfold shutdown_step.
  assert (∀ t', holds t' → dinv n (self, heap, t')) as Hd'.
  { eapply not_connecting; [exact Hd|]. by eapply closing_not_connecting. }
  destruct (call t _) as [t' r] eqn:Hcall. cbn [fst snd] in *.
  destruct (capture_dsafe lim ep trusted bound holds contract Hbound n (self, heap, t') (Hd' t' Ht))
    as (s1 & pressure & Hcap & Hd1 & Hb). unfold capture in Hcap.
  assert (close_request (capture_transport_pressure self t').1 = close_request self) as Hcl.
  { unfold capture_transport_pressure. cbn. by repeat (case_match; simplify_eq/=). }
  destruct (capture_transport_pressure self t') as [self1 p]. simplify_eq/=.
  rewrite Hc in Hcl. pose proof (dinv_shutdown _ _ _ _ _ _ ShutdownState.Immediate Hd1 Hcl (Hn _))
    as Hforce.
  destruct r as [progress|source].
  - destruct pressure as [u|e];
      [|by eexists _, _; split; [reflexivity|]; split; [exact Hforce|eapply blamed_err]].
    pose proof (validate_blamed _ (transport_budget self) progress
      (λ H, Hp H progress eq_refl)) as Hv.
    destruct (validate_transport_progress _ _) as [u'|e];
      [|by eexists _, _; split; [reflexivity|]; split; [exact Hforce|eapply blamed_err]].
    eexists _, _. split; [reflexivity|].
    split; [eapply dinv_shutdown; [exact Hd1|exact Hcl|apply Hn]|apply blamed_ok].
  - eexists _, _. split; [reflexivity|]. split.
    + eapply dinv_shutdown; [|exact Hcl|apply Hn]. eapply dinv_same; [exact Hd1|by split|done].
    + destruct pressure as [u|e]; [apply blamed_ok|by eapply blamed_err].
Qed.

Lemma shutdown_dsafe n now remaining : dsafe n (drive_shutdown_once now remaining).
Proof.
  intros [[self heap] t] Hd. unfold drive_shutdown_once.
  assert (∀ r : option Z, ∃ s' r', (self, heap, t, Ok r) = (s', r') ∧ dinv n s' ∧ blamed r')
    as Hidle by (intros r; eexists _, _; split; [reflexivity|]; split; [done|apply blamed_ok]).
  destruct (close_request self) as [[why shutdown|]|] eqn:Hc; [|apply Hidle..].
  assert (∀ deadline, is_elapsed_at deadline now = true →
    ∃ s' r, (shutdown_timed_out self why, heap, t, Ok (Some 1)) = (s', r) ∧ dinv n s' ∧
      blamed r) as Hout.
  { intros. eexists _, _. split; [reflexivity|]. split; [|apply blamed_ok].
    eapply dinv_shutdown; [|exact Hc|apply nearer_done; by left].
    eapply dinv_same; [exact Hd|by split|done]. }
  pose proof (di_holds _ _ _ _ _ _ _ Hd) as Ht. cbn [snd] in Ht.
  pose proof (budget_valid lim Hlim ep n _ (di_sound _ _ _ _ _ _ _ Hd)) as Hv. cbn [fst] in Hv.
  destruct shutdown as [|deadline|deadline|]; try apply Hidle;
    (destruct (is_elapsed_at deadline now) eqn:He; [by eapply Hout|]);
    (destruct (remaining =? 0); [apply Hidle|]).
  - eapply shutdown_step_dsafe; [done|done|by intros sh w _|by apply (ct_shutdown _ _ _ _ contract)|].
    intros Htr progress Hr. by eapply (ct_shutdown_progress _ _ _ _ contract).
  - destruct (tr_is_shutdown_complete t).
    { eexists _, _. split; [reflexivity|].
      split; [eapply dinv_shutdown; [exact Hd|exact Hc|apply nearer_done; by right]|apply blamed_ok]. }
    destruct (tr_has_transport_work t) eqn:Hw; simpl negb; cbv iota; [|apply Hidle].
    eapply shutdown_step_dsafe; [done|done|by intros sh w _|by apply (ct_drive _ _ _ _ contract)|].
    intros Htr progress Hr. by eapply (ct_drive_progress _ _ _ _ contract).
Qed.

(** ** The loops *)

(** The invariant of a slot with the transport that is there. *)
Definition hinv n (s : Drive.hosted (D := D) (C := C) (T := T)) : Prop :=
  match s.2 with
  | Some t => dinv n (s.1, t)
  | None => sound lim ep n s.1 ∧ agreed s.1.1
  end.

Lemma hinv_sound n s : hinv n s → sound lim ep n s.1.
Proof. destruct s as [s [t|]]; [by intros []|by intros []]. Qed.

Definition hsafe {A : Type} n (f : HM (D := D) (C := C) (T := T) A) : Prop :=
  ∀ s, hinv n s → ∃ s' r, f s = (s', r) ∧ hinv n s' ∧ blamed r.

Lemma hsafe_ret {A : Type} n (a : A) : hsafe n (ste_ret a).
Proof. intros s Hs. exists s, (Ok a). split; [done|]. split; [done|apply blamed_ok]. Qed.

Lemma hsafe_bind {A B : Type} n (f : HM A) (k : A → HM B) :
  hsafe n f → (∀ a, hsafe n (k a)) → hsafe n (ste_bind f k).
Proof.
  intros Hf Hk s Hs. destruct (Hf s Hs) as (s1 & [a|e] & Hr & Hs1 & Hb).
  - destruct (Hk a s1 Hs1) as (s2 & r & Hr2 & Hs2 & Hb2). exists s2, r.
    by rewrite (ste_bind_ok _ _ _ _ _ Hr).
  - exists s1, (Err e). rewrite (ste_bind_err _ _ _ _ _ Hr). split; [done|]. split; [done|].
    by eapply blamed_err.
Qed.

(** An answer that leaves the state alone. *)
Lemma hsafe_idle {A : Type} n s (a : A) :
  hinv n s → ∃ s' r, (s, Ok a : result A EngineError.t) = (s', r) ∧ hinv n s' ∧ blamed r.
Proof. intros Hs. exists s, (Ok a). split; [done|]. split; [done|apply blamed_ok]. Qed.

Lemma hosted_driven {A : Type} n (f : DM A) s t :
  dsafe n f → hinv n (s, Some t) →
  ∃ s' r, on_transport s t f = (s', r) ∧ hinv n s' ∧ blamed r.
Proof.
  intros Hf Hs. destruct (Hf (s, t) Hs) as ([s' t'] & r & Hr & Hd & Hb). unfold on_transport.
  rewrite Hr. by exists (s', Some t'), r.
Qed.

(** A method of the slot alone. *)
Lemma hsafe_owner {A : Type} n (f : M A) : safe lim ep n f → hsafe n (on_owner f).
Proof.
  intros Hf [s [t|]] Hs.
  - destruct (slot_step lim ep trusted bound holds n f s t Hf Hs) as (s' & a & Hr & Hd).
    unfold on_slot, on_owner in *. destruct (f s) as [s1 r]. simplify_eq.
    exists (s', Some t), (Ok a). split; [done|]. split; [done|apply blamed_ok].
  - destruct Hs as [Hs Ha]. destruct (Hf s Hs) as (s' & a & Hr & Hs' & [Hl _]).
    unfold on_owner. rewrite Hr. exists (s', None), (Ok a). split; [done|].
    split; [|apply blamed_ok]. split; [done|]. cbn [fst snd] in *.
    unfold DriveSpec.agreed in *. by rewrite Hl.
Qed.

Lemma hinv_same n self heap transport self' :
  hinv n (self, heap, transport) → same_host self self' →
  transport_retained_limit self' = transport_retained_limit self →
  hinv n (self', heap, transport).
Proof.
  destruct transport as [t|]; [by apply dinv_same|]. intros [Hs Ha] Hsh Hl. cbn [fst snd] in *.
  split; [by apply (sound_same lim ep n (self, heap))|]. unfold DriveSpec.agreed in *. cbn [fst].
  by rewrite Hl.
Qed.

Lemma io_step_hsafe n remaining : hsafe n (io_step remaining).
Proof.
  intros [[self heap] [t|]] Hs; unfold io_step.
  - by apply hosted_driven; [apply ready_dsafe|].
  - destruct (decoder_pending self); [|by apply hsafe_idle].
    destruct (hsafe_owner n drive_decoder_once (decoder_safe lim Hlim ep n) (self, heap, None) Hs)
      as ([[self' heap'] tr] & r & Hr & Hs' & Hb). unfold on_owner in Hr.
    destruct (drive_decoder_once (self, heap)) as [[self1 heap1] [u|e]]; simplify_eq.
    + eexists _, _. split; [reflexivity|]. split; [|apply blamed_ok].
      eapply hinv_same; [exact Hs'|by split|done].
    + eexists _, _. split; [reflexivity|]. split; [done|by eapply blamed_err].
Qed.

Lemma io_loop_hsafe n fuel budget work : hsafe n (io_loop fuel budget work).
Proof.
  revert work. induction fuel as [|fuel IH]; intros work [[self heap] transport] Hs; simpl;
    [by apply hsafe_idle|].
  destruct (_ && _); [|by apply hsafe_idle]. revert Hs. apply hsafe_bind; [apply io_step_hsafe|].
  intros [k|]; [apply IH|apply hsafe_ret].
Qed.

Lemma close_loop_hsafe n fuel now budget work : hsafe n (close_loop fuel now budget work).
Proof.
  revert work. induction fuel as [|fuel IH]; intros work [[self heap] [t|]] Hs; simpl;
    try by apply hsafe_idle.
  destruct (work <? budget); [|by apply hsafe_idle].
  destruct (hosted_driven n (drive_shutdown_once now (budget - work)) (self, heap) t
    (shutdown_dsafe n now _) Hs) as (s' & [[k|]|e] & Hr & Hs' & Hb); rewrite Hr.
  - by apply IH.
  - by apply hsafe_idle.
  - exists s', (Err e). split; [done|]. split; [done|by eapply blamed_err].
Qed.

Lemma hsafe_answer {A : Type} n (f : Drive.hosted (D := D) (C := C) (T := T) → A) :
  hsafe n (λ s, (s, Ok (f s))).
Proof. intros s Hs. by apply hsafe_idle. Qed.

Lemma close_quantum_hsafe n now budget work : hsafe n (drive_close_quantum now budget work).
Proof.
  apply hsafe_bind; [apply close_loop_hsafe|]. intros w [[self heap] transport] Hs.
  by apply hsafe_idle.
Qed.

Lemma drive_io_hsafe n budget : hsafe n (drive_io budget).
Proof.
  apply hsafe_bind; [apply io_loop_hsafe|]. intros w [[self heap] transport] Hs.
  by apply hsafe_idle.
Qed.

Lemma capture_present_hsafe n : hsafe n capture_present.
Proof.
  intros [[self heap] [t|]] Hs; [|by apply hsafe_idle].
  destruct (capture_dsafe lim ep trusted bound holds contract Hbound n (self, heap, t) Hs)
    as (s' & r & Hr & Hd & Hb).
  unfold capture, capture_present in *. destruct (capture_transport_pressure self t) as [self' r'].
  simplify_eq. by eexists _, _.
Qed.

Lemma after_deadlines_hsafe n now budget work : hsafe n (after_deadlines now budget work).
Proof.
  intros [[self heap] transport] Hs. unfold after_deadlines.
  destruct (bool_decide _); [by apply close_quantum_hsafe|].
  destruct (work =? budget); [by apply hsafe_idle|]. revert Hs.
  apply hsafe_bind; [apply drive_io_hsafe|]. intros io [[self' heap'] transport'] Hs.
  destruct (bool_decide _); [by apply close_quantum_hsafe|by apply hsafe_idle].
Qed.

Lemma quantum_inner_hsafe n now : hsafe n (drive_quantum_inner now).
Proof.
  intros [[self heap] transport] Hs. unfold drive_quantum_inner. revert Hs.
  apply hsafe_bind; [apply capture_present_hsafe|]. intros u.
  apply hsafe_bind; [|intros; apply after_deadlines_hsafe].
  intros [[self' heap'] transport'] Hs. destruct (close_request self'); [by apply hsafe_idle|].
  apply hsafe_owner; [by apply deadlines_loop_safe|done].
Qed.

(** ** The fenced quantum *)

(** What is left of a slot that latched a failure. *)
Record halted n (s : owner D C) : Prop := mk_halted {
  st_halted : is_Some (EngineState.failure (state s.1));
  st_limits : limits s.1 = lim;
  st_epoch : epoch s.1 = ep;
  st_held : CoreView.held (core_limits lim) (accepted n) (permits n) (core_of s);
  st_outcomes : outcomes_ok lim ep n (view s) s.1;
  st_events : ∃ opened admitted, events_ok lim ep n (edges opened admitted (view s)) s.1;
  st_abort : close_request s.1 = Some CloseDirective.Abort ∨
    close_request s.1 = None ∧ transport_state s.1 = TransportState.Closed;
}.

(** The failure a slot latches by itself. *)
Record stopped n (s : owner D C) : Prop := mk_stopped {
  st_failed : EngineState.failure (state s.1) = Some OwnerFailure.OwnerInvariant;
  st_left : halted n s;
}.

(** A latched failure stops a running slot. *)
Lemma latch_halted n (s : owner D C) why :
  sound lim ep n s → halted n (latch_owner_failure s.1 why, s.2) ∧
    EngineState.failure (state (latch_owner_failure s.1 why)) = Some why.
Proof.
  intros [Hh [Hli He [] Htm (o & a & [] & Hsg) [Hst Hdr Hcl]]].
  unfold latch_owner_failure. rewrite Hst. cbn [EngineState.failure].
  split; [|done]. split; [by eexists|done|done|done|by split|by exists o, a; split|by left].
Qed.

(** A quantum keeps the invariant, or latches a failure it blames on the
    transport. *)
Lemma quantum_spec n now s :
  hinv n s → ∃ s' r, drive_quantum now s = (s', r) ∧
    match r with
    | Ok _ => hinv n s'
    | Err e => trusted = false ∧ blames e ∧ stopped n s'.1 ∧
        EngineState.failure (state s'.1.1) = Some (EngineError.owner_failure e)
    end.
Proof.
  destruct s as [[self heap] transport]. intros Hs. unfold drive_quantum.
  pose proof (hinv_sound _ _ Hs) as Hrun. cbn [fst] in Hrun.
  rewrite (running lim ep n _ Hrun : ensure_running self = _).
  destruct (quantum_inner_hsafe n now (self, heap, transport) Hs)
    as ([[self' heap'] transport'] & [p|e] & Hr & Hs' & Hb); rewrite Hr.
  - by eexists _, _.
  - destruct (Hb e eq_refl) as [Htr Hbl]. eexists _, _. split; [reflexivity|].
    split; [done|]. split; [done|]. apply hinv_sound in Hs'. cbn [fst] in Hs'.
    assert (latch_failure self' e = latch_owner_failure self' OwnerFailure.OwnerInvariant ∧
      EngineError.owner_failure e = OwnerFailure.OwnerInvariant) as [-> ->].
    { unfold latch_failure.
      pose proof (lk_state _ _ (ho_links _ _ _ _ _ _ (so_hosted _ _ _ _ Hs'))) as Hst.
      cbn [fst] in Hst. rewrite Hst. by destruct e. }
    destruct (latch_halted n _ OwnerFailure.OwnerInvariant Hs') as [Hha Hf]. by split.
Qed.

(** ** A deadline that elapsed *)

Section wakes.
Context {DL : DeadlineLaws H}.

(** The least of a list of deadlines is one of them, and before all of them. *)
Lemma deadline_min_spec l d :
  deadline_min l = Some d → d ∈ l ∧ Forall (λ x, d <=d x) l.
Proof.
  destruct l as [|x l]; [done|]. intros [= <-]. revert x.
  induction l as [|y l IH]; intros x; simpl.
  { split; [left|]. constructor; [|done]. by destruct (deadline_leb_total x x). }
  destruct (deadline_leb x y) eqn:Hxy.
  - destruct (IH x) as [Hin Hall]. apply Forall_cons in Hall as [Hx Hall]. split.
    + apply elem_of_cons in Hin as [->|Hin]; [by left|by do 2 right].
    + repeat constructor; [done| |done]. by eapply deadline_leb_trans.
  - assert (y <=d x) as Hyx by (destruct (deadline_leb_total x y); congruence).
    destruct (IH y) as [Hin Hall]. apply Forall_cons in Hall as [Hy Hall]. split; [by right|].
    repeat constructor; [|done|done]. by eapply deadline_leb_trans.
Qed.

(** While no close is asked for, the next deadline is one of three. *)
Lemma next_deadline_due self now d :
  close_request self = None → next_deadline self = Some d → is_elapsed_at d now = true →
  due self now = true.
Proof.
  intros Hc Hn Hel. unfold next_deadline in Hn. rewrite Hc in Hn. simpl in Hn.
  apply deadline_min_spec in Hn as [Hin Hall].
  unfold due, drain_first, connect_first, first_of.
  assert (∀ x, timers_next_deadline (timers self) = Some x → d <=d x) as Ht.
  { intros x Hx. rewrite Hx in Hall. simpl in Hall. by apply Forall_cons in Hall as [? _]. }
  assert (is_connecting self = true → d <=d connect_deadline self) as Hconn.
  { intros Hx. rewrite Hx in Hall. simpl in Hall.
    destruct (timers_next_deadline (timers self)); simpl in Hall;
      repeat (apply Forall_cons in Hall as [? Hall]); done. }
  assert (drain_deadline self = Some d ∨ is_connecting self = true ∧ connect_deadline self = d ∨
    timers_next_deadline (timers self) = Some d) as Hcases.
  { destruct (timers_next_deadline (timers self)) as [t|], (is_connecting self),
      (drain_deadline self) as [x|]; simpl in Hin;
      repeat (apply elem_of_cons in Hin as [->|Hin]; [by auto|]); by apply elem_of_nil in Hin. }
  assert (match timers_next_deadline (timers self) with Some other => deadline_leb d other | None => true end
    = true) as Hfirst by (destruct (timers_next_deadline (timers self)); auto).
  destruct Hcases as [Hd|[[Hx Hd]|Hd]].
  - rewrite Hd, Hel, Hfirst. destruct (is_connecting self); [|done]. simpl. by rewrite Hconn.
  - rewrite Hx, Hd, Hel, Hfirst. simpl. by rewrite orb_true_r.
  - apply orb_true_iff. right. unfold pop_timer.
    destruct (timers_pop_due (timers self) now) as [tm [[token event]|]] eqn:Hp; [done|].
    destruct (timers_pop_none _ _ _ Hp) as (_ & _ & Hnone).
    destruct (timers_next_some _ _ Hd) as [(y & -> & (e & -> & He)%list_elem_of_fmap)%list_elem_of_fmap _].
    rewrite Forall_forall in Hnone. by rewrite (Hnone e He) in Hel.
Qed.

(** A slot that is closing waits for its shutdown alone. *)
Lemma closing_deadline n (s : owner D C) directive d :
  sound lim ep n s → close_request s.1 = Some directive → next_deadline s.1 = Some d →
  CloseDirective.shutdown_deadline directive = Some d.
Proof.
  intros [Hh [_ _ _ [_ Ha _ _] _ [_ _ K Hu] _]] Hc Hn.
  destruct (Reference.phase (view s)) eqn:Hp; [by destruct K; congruence| |by destruct K; congruence].
  destruct K as (Ht & _). specialize (Hu eq_refl).
  assert (Reference.items (view s) = []) as Hnil.
  { destruct (CoreView.held_life _ _ _ _ Hh) as [(Hl & _)|(_ & _ & _ & ?)]; [|done].
    unfold view in Hp. congruence. }
  unfold Told.deadlines in Ha. rewrite Hnil in Ha. symmetry in Ha.
  apply Permutation_nil in Ha. apply fmap_nil_inv in Ha.
  unfold next_deadline, is_connecting in Hn. rewrite Hc, Ht, Hu in Hn.
  destruct (timers_next_deadline (timers s.1)) as [t|] eqn:Hnext.
  { destruct (timers_next_some _ _ Hnext) as [Hin _]. rewrite Ha in Hin. by apply elem_of_nil in Hin. }
  simpl in Hn. by destruct (CloseDirective.shutdown_deadline directive).
Qed.

(** Observing the pressure moves no deadline. *)
Lemma capture_deadlines self t :
  let self' := (capture_transport_pressure self t).1 in
  close_request self' = close_request self ∧ next_deadline self' = next_deadline self ∧
  limits self' = limits self.
Proof. unfold capture_transport_pressure. cbn. by repeat (case_match; simplify_eq/=). Qed.

Lemma blamed_trusted {A : Type} (r : result A EngineError.t) :
  trusted = true → blamed r → ∃ a, r = Ok a.
Proof. intros Htr Hb. destruct r as [a|e]; [by exists a|]. destruct (Hb e eq_refl). congruence. Qed.

(** A graceful shutdown that timed out is forced. *)
Lemma timed_out_woken n self heap t why shutdown d :
  dinv n (self, heap, t) → close_request self = Some (CloseDirective.Core why shutdown) →
  CloseDirective.shutdown_deadline (CloseDirective.Core why shutdown) = Some d →
  dinv (woken n) (shutdown_timed_out self why, heap, t).
Proof.
  intros Hd Hc Hs. unfold shutdown_timed_out, force_shutdown_settlement.
  set (self1 := record_transport_failure self _).
  assert (dinv n (self1, heap, t)) as Hd1 by (eapply dinv_same; [exact Hd|by split|done]).
  pose proof Hd1 as [[Hh Ho] _ _ _]. eapply dinv_follows; [exact Hd1| |by split; auto].
  split; [exact Hh|]. by eapply (shutdown_woken lim ep n _ _ self1).
Qed.

Lemma close_quantum_wakes n now budget self heap t why shutdown d :
  1 ≤ budget → dinv n (self, heap, t) →
  close_request self = Some (CloseDirective.Core why shutdown) →
  CloseDirective.shutdown_deadline (CloseDirective.Core why shutdown) = Some d →
  is_elapsed_at d now = true →
  ∃ s' r, drive_close_quantum now budget 0 (self, heap, Some t) = (s', r) ∧ hinv (woken n) s' ∧
    blamed r.
Proof.
  intros Hb Hd Hc Hs Hel. pose proof (timed_out_woken _ _ _ _ _ _ _ Hd Hc Hs) as Hd'.
  assert (∀ remaining, drive_shutdown_once now remaining (self, heap, t) =
    (shutdown_timed_out self why, heap, t, Ok (Some 1))) as Hout.
  { intros remaining. unfold drive_shutdown_once. rewrite Hc. destruct shutdown; simplify_eq/=; by rewrite Hel. }
  unfold drive_close_quantum. rewrite Z.sub_0_r.
  destruct (Z.to_nat budget) as [|fuel] eqn:Hfuel; [lia|].
  assert (close_loop (S fuel) now budget 0 (self, heap, Some t) =
    close_loop fuel now budget 1 (shutdown_timed_out self why, heap, Some t)) as Hloop.
  { simpl. rewrite (proj2 (Z.ltb_lt _ _)) by lia. unfold on_transport. by rewrite Hout. }
  destruct (close_loop_hsafe (woken n) fuel now budget 1
    (shutdown_timed_out self why, heap, Some t) Hd') as (s1 & [w|e] & Hr & Hs1 & Hbl);
    rewrite <- Hloop in Hr.
  - rewrite (ste_bind_ok _ _ _ _ _ Hr). destruct s1 as [[self1 heap1] t1]. by apply hsafe_idle.
  - rewrite (ste_bind_err _ _ _ _ _ Hr). exists s1, (Err e). split; [done|]. split; [done|].
    by eapply blamed_err.
Qed.

(** A quantum of a slot one of whose deadlines elapsed spends one of them. *)
Lemma quantum_wakes n now (s : owner D C) t d :
  trusted = true → hinv n (s, Some t) → next_deadline s.1 = Some d → is_elapsed_at d now = true →
  ∃ s' p, drive_quantum now (s, Some t) = (s', Ok p) ∧ hinv (woken n) s'.
Proof.
  destruct s as [self heap]. intros Htr Hs Hn Hel. unfold drive_quantum.
  pose proof (hinv_sound _ _ Hs) as Hrun. cbn [fst] in Hrun, Hn.
  rewrite (running lim ep n _ Hrun : ensure_running self = _).
  assert (∃ s' r, drive_quantum_inner now (self, heap, Some t) = (s', r) ∧ hinv (woken n) s' ∧
    blamed r) as (s' & r & Hr & Hs' & Hb).
  2: { destruct (blamed_trusted r Htr Hb) as [p ->]. rewrite Hr. destruct s' as [[? ?] ?].
       by eexists _, _. }
  unfold drive_quantum_inner.
  destruct (capture_present_hsafe n (self, heap, Some t) Hs) as (s1 & r1 & Hcap & Hs1 & Hb1).
  destruct (blamed_trusted r1 Htr Hb1) as [[] ->]. rewrite (ste_bind_ok _ _ _ _ _ Hcap).
  unfold capture_present in Hcap. destruct (capture_deadlines self t) as (Hclose & Hnext & Hlims).
  destruct (capture_transport_pressure self t) as [self1 pressure]. simplify_eq/=.
  rewrite <- Hnext in Hn. pose proof (hinv_sound _ _ Hs1) as Hsd. cbn [fst] in Hsd.
  assert (1 ≤ io_budget self) as Hbudget.
  { unfold io_budget. rewrite <- Hlims.
    rewrite (ho_limits _ _ _ _ _ _ (so_hosted _ _ _ _ Hsd) : limits self1 = lim). apply Hlim. }
  destruct (close_request self1) as [directive|] eqn:Hc.
  - pose proof (closing_deadline n (self1, heap) directive d Hsd Hc Hn) as Hd.
    destruct directive as [why shutdown|]; [|done].
    rewrite (ste_bind_ok _ _ _ (self1, heap, Some t) 0) by by rewrite Hc.
    unfold after_deadlines. rewrite Hc, bool_decide_true by done.
    by eapply close_quantum_wakes.
  - pose proof (next_deadline_due self1 now d Hc Hn Hel) as Hdue.
    destruct (Z.to_nat (io_budget self)) as [|fuel] eqn:Hfuel; [lia|].
    destruct (deadlines_loop_wakes lim Hlim ep n fuel now (io_budget self) 0 (self1, heap) Hsd
      ltac:(lia) Hdue) as (s2 & w & Hloop & Hs2 & Hf2).
    rewrite (ste_bind_ok _ _ _ (s2, Some t) w).
    + destruct s2 as [self2 heap2]. apply after_deadlines_hsafe.
      by eapply (dinv_follows lim ep trusted bound holds n _ (self1, heap)).
    + rewrite Hc. unfold on_owner, drive_deadlines. rewrite Hfuel. by rewrite Hloop.
Qed.

End wakes.

End quantum_spec.
End QuantumSpec.
