(* ===== verification/SlotSystem.v ===== *)
(** * Whole runs of one slot

    A [world] is a slot with the heap of its ledger, the transport that is
    attached, and what its caller has noted: the permits handed out, the
    operations accepted, the outcomes and events drained. [exec] runs one call
    of the public interface of the slot, or lets the transport change between
    two calls; [reachable] are the worlds any sequence of such calls leads
    to, [waking] those with the quanta that a deadline woke counted. [SlotRuns]
    carries the invariant along both. *)
From Stdlib Require Import ZArith Lia.
From stdpp Require Import prelude.
From S2P Require Import Prelude External Identity Limits Admission Ledger Operation Permit.
From S2P Require Import Write Framing Machine Core Recovery Reference ReferenceFacts CoreView.
From S2P Require Import Host Config Transport SlotData Slot Drive SlotSpec SlotCalls DriveSpec.
From S2P Require Import QuantumSpec.

Import Told Hosted SlotCalls ConnectionSlot DriveSpec QuantumSpec.

Module SlotSystem.
Section slot_system.
Context {Cal : Calandria} {BB : ByteBudgetLib} {Build : BuildConfig} {H : Host}.
Context {D C : Type} {Dec : FrameDecoder D} {Ret : Retained Frame}.
Context {Cls : InboundClassifier Frame C}.
Context {T : Type} {TP : SlotTransport T}.

Record world : Type := mk_world {
  slot : owner D C;
  port : option T;
  log : notes (Dec := Dec);
}.

(** One call. A permit is named by its position among the outstanding ones;
    [Readiness] is the transport as the caller finds it before its next call. *)
Inductive command : Type :=
  | Reserve (now : Moment) (options : OperationOptions.t)
  | DropPermit (permit : nat)
  | Commit (permit : nat) (frame : OutboundFrame.t)
  | OpenAdmission
  | Cancel (operation : OperationId.t)
  | BeginDrain (deadline : Deadline)
  | Finalize (reason : CloseReason.t)
  | DriveQuantum (now : Moment)
  | SettleClosed
  | DrainOutcomes
  | DrainEvents
  | Readiness (transport : option T).

Definition moved (w : world) (s : owner D C) : world := mk_world s (port w) (log w).

Definition exec (w : world) (c : command) : world :=
  match c with
  | Reserve now options =>
      match reserve now options (slot w) with
      | (s, Ok p) => mk_world s (port w) (with_permits (log w) (p :: permits (log w)))
      | (s, Err _) => moved w s
      end
  | DropPermit i =>
      match permits (log w) !! i with
      | None => w
      | Some p =>
          mk_world ((slot w).1, (OperationPermit.drop p (slot w).2).2) (port w)
            (with_permits (log w) (delete i (permits (log w))))
      end
  | Commit i frame =>
      match permits (log w) !! i with
      | None => w
      | Some p =>
          match commit p frame (slot w) with
          | (s, Ok operation) => mk_world s (port w) (with_accepted (log w) i operation)
          | (s, Err _) => moved w s
          end
      end
  | OpenAdmission => moved w (open_admission (slot w)).1
  | Cancel operation => moved w (cancel operation (slot w)).1
  | BeginDrain deadline => moved w (begin_drain deadline (slot w)).1
  | Finalize reason => moved w (finalize reason (slot w)).1
  | DriveQuantum now =>
      let '((s, t), _) := Drive.drive_quantum now (slot w, port w) in mk_world s t (log w)
  | SettleClosed => moved w (settle_transport_closed (slot w)).1
  | DrainOutcomes =>
      let '(self, l) := drain_outcomes (slot w).1 in
      mk_world (self, (slot w).2) (port w) (with_delivered (log w) l)
  | DrainEvents =>
      let '(self, l) := drain_events (slot w).1 in
      mk_world (self, (slot w).2) (port w) (with_observed (log w) l)
  | Readiness transport => mk_world (slot w) transport (log w)
  end.

(** A new slot with the transport it was given. *)
Definition start (config : ConnectionSlotConfig.t) (limits : ConnectionSlotLimits.t) (decoder : D)
    (classifier : C) (ledger : LedgerRef) (heap : Heap.t) (transport : option T)
    : option world :=
  match ConnectionSlot.new config limits decoder classifier ledger heap with
  | (heap, Ok self) => Some (mk_world (self, heap) transport (mk_notes [] [] [] [] 0))
  | (_, Err _) => None
  end.

(** What is asked of the caller and of the transport between two calls: a
    frame is a byte slice of [usize] length, [Drained] is not a reason to
    [finalize], the transport respects its contract, and a trusted one only
    opens while it is driven. *)
Definition admissible (trusted : bool) (holds : T → Prop) (w : world) (c : command) : Prop :=
  match c with
  | Commit _ frame => Z.of_nat (length (frame_bytes frame)) ≤ USIZE_MAX
  | Finalize reason => reason ≠ CloseReason.Drained
  | Readiness (Some t) => holds t ∧ unopened trusted (slot w).1 t
  | _ => True
  end.

Inductive reachable (trusted : bool) (holds : T → Prop) (init : world) : world → Prop :=
  | reachable_init : reachable trusted holds init init
  | reachable_step w c :
      reachable trusted holds init w → admissible trusted holds w c →
      reachable trusted holds init (exec w c).

(** Whether a command is a quantum at a moment when the next deadline of the
    slot has elapsed. *)
Definition overdue (w : world) (c : command) : nat :=
  match c, port w, next_deadline (slot w).1 with
  | DriveQuantum now, Some _, Some d => if is_elapsed_at d now then 1 else 0
  | _, _, _ => 0
  end.

(** A run, and how many of its commands were overdue quanta. *)
Inductive waking (trusted : bool) (holds : T → Prop) (init : world) : nat → world → Prop :=
  | waking_init : waking trusted holds init 0 init
  | waking_step k w c :
      waking trusted holds init k w → admissible trusted holds w c →
      waking trusted holds init (overdue w c + k) (exec w c).

Lemma waking_reachable trusted holds init k w :
  waking trusted holds init k w → reachable trusted holds init w.
Proof. induction 1; [constructor|by apply reachable_step]. Qed.

(** A command that is no overdue quantum. *)
Lemma waking_call trusted holds init k w c :
  waking trusted holds init k w → admissible trusted holds w c → overdue w c = 0%nat →
  waking trusted holds init k (exec w c).
Proof. intros Hw Ha Ho. pose proof (waking_step _ _ _ _ _ c Hw Ha) as Hs. by rewrite Ho in Hs. Qed.

End slot_system.
Arguments world {Cal BB H} D C {Dec} T.
Arguments command {Cal H} T.
End SlotSystem.

(** ** The invariant of a run of a slot

    [good] holds of a new slot and is kept by every admissible call: the slot
    is sound, or it has latched a failure it blames on its transport. *)

Import Told Hosted SlotCalls ConnectionSlot DriveSpec QuantumSpec SlotSystem.

Module SlotRuns.
Section slot_runs.
Context {Cal : Calandria} {BB : ByteBudgetLib} {Build : BuildConfig} {H : Host}.
Context {Laws : CalandriaLaws Cal} {BLaws : ByteBudgetLaws BB} {HL : HostLaws H}.
Context {D C : Type} {Dec : FrameDecoder D} {Ret : Retained Frame}.
Context {Cls : InboundClassifier Frame C}.
Context {T : Type} {TP : SlotTransport T}.
Context (lim : ConnectionSlotLimits.t) (Hlim : valid_limits lim) (ep : ConnectionEpoch.t).
Context (trusted : bool) (bound : RetainedBytes) (holds : T → Prop).
Context (contract : TransportContract TP trusted bound holds).
Context (Hbound : trusted = true →
  rb_get bound ≤ rb_get (ConnectionSlotLimits.transport_retained_bytes lim)).
Implicit Types (self : ConnectionSlot.t D C) (n : notes (Dec := Dec)) (t : T).
Implicit Types (w : SlotSystem.world D C T).

Notation hinv := (hinv lim ep trusted bound holds).
Notation sound := (sound lim ep).
Notation halted := (halted lim ep).
Notation stopped := (stopped lim ep).

Definition good w : Prop :=
  hinv (log w) (slot w, port w) ∨ trusted = false ∧ stopped (log w) (slot w).

(** ** A running slot *)

(** A call of the slot alone, which does not go back to connecting. *)
Lemma hinv_moved n n' (s s' : owner D C) transport :
  hinv n (s, transport) → sound n' s' →
  transport_retained_limit s'.1 = transport_retained_limit s.1 →
  transport_state s'.1 = transport_state s.1 ∨ is_connecting s'.1 = false →
  hinv n' (s', transport).
Proof.
  assert (agreed trusted bound s.1 → transport_retained_limit s'.1 = transport_retained_limit s.1 →
    agreed trusted bound s'.1) as Hag by (unfold agreed; by intros Ha ->).
  destruct transport as [t|]; unfold QuantumSpec.hinv; cbn [fst snd].
  - intros [_ Ht Ha Hu] Hs' Hl Hor. split; try done; [by apply Hag|]. unfold unopened in *.
    cbn [fst snd] in *. destruct Hor as [He|Hc]; [|congruence]. unfold is_connecting in *. by rewrite He.
  - intros [_ Ha] Hs' Hl _. split; [done|by apply Hag].
Qed.

Lemma hinv_follows n n' (s s' : owner D C) transport :
  hinv n (s, transport) → sound n' s' → follows s.1 s'.1 → hinv n' (s', transport).
Proof.
  intros Hi Hs [Hl Ht]. eapply hinv_moved; [exact Hi|exact Hs|done|].
  destruct Ht as [Ht|Ht]; [by left|right]. unfold is_connecting. by rewrite Ht.
Qed.

Lemma hinv_safe {A : Type} w (f : M A) :
  safe lim ep (log w) f → hinv (log w) (slot w, port w) →
  hinv (log w) ((f (slot w)).1, port w).
Proof.
  intros Hf Hi. pose proof (hinv_sound _ _ _ _ _ _ _ Hi) as Hs.
  cbn [fst] in Hs. destruct (Hf _ Hs) as (s' & a & -> & Hs' & Hfo). by eapply hinv_follows.
Qed.

(** Every call but a quantum leaves a running slot running. *)
Lemma hinv_call w c :
  hinv (log w) (slot w, port w) → admissible trusted holds w c →
  match c with DriveQuantum _ => False | _ => True end →
  hinv (log (exec w c)) (slot (exec w c), port (exec w c)).
Proof.
  intros Hi. pose proof (hinv_sound _ _ _ _ _ _ _ Hi) as Hs. cbn [fst] in Hs.
  destruct c as [now options|i|i frame| |op|deadline|why|now| | | |transport];
    cbn [exec admissible]; intros Ha Hcall.
  - destruct (reserve_sound lim Hlim ep _ _ now options Hs) as (s' & r & -> & Ht & Hl & Hs').
    destruct r as [p|e]; (eapply hinv_moved; [exact Hi|exact Hs'|done|by left]).
  - destruct (permits (log w) !! i) as [p|] eqn:Hp; [|done].
    eapply hinv_moved; [exact Hi|by apply drop_sound|done|by left].
  - destruct (permits (log w) !! i) as [p|] eqn:Hp; [|done].
    destruct (commit_sound lim Hlim ep _ _ _ _ frame Hs Hp Ha) as (s' & r & -> & Hr).
    destruct r as [op|[e|op e|why p' f']]; try done.
    + destruct Hr as (-> & Hs' & Hf). by eapply hinv_follows.
    + destruct Hr as [-> _]. done.
  - apply (hinv_safe w); [by apply open_admission_safe|done].
  - apply (hinv_safe w); [by apply cancel_safe|done].
  - apply (hinv_safe w); [by apply begin_drain_safe|done].
  - apply (hinv_safe w); [by apply finalize_safe|done].
  - destruct Hcall.
  - destruct (settle_sound lim Hlim ep _ _ Hs) as (s' & b & -> & Hs' & Ht & Hl & _).
    cbn [fst].
    eapply hinv_moved; [exact Hi|exact Hs'|done|].
    destruct b; [right; cbn [moved slot]; unfold is_connecting; by rewrite Ht|left; by subst].
  - pose proof (drain_outcomes_sound lim ep _ _ Hs) as Hd.
    destruct (drain_outcomes _) as [self l]. destruct Hd as [Hs' Hf]. by eapply hinv_follows.
  - pose proof (drain_events_sound lim ep _ _ Hs) as Hd.
    destruct (drain_events _) as [self l]. destruct Hd as [Hs' Hf]. by eapply hinv_follows.
  - assert (agreed trusted bound (slot w).1) as Hag
      by (revert Hi; unfold QuantumSpec.hinv; cbn [fst snd]; destruct (port w); by intros []).
    destruct transport as [t|]; unfold QuantumSpec.hinv; cbn [fst snd]; [|by split].
    destruct Ha as [Ht Hu]. by split.
Qed.

Lemma good_running w c :
  hinv (log w) (slot w, port w) → admissible trusted holds w c → good (exec w c).
Proof.
  intros Hi Ha. destruct c as [| | | | | | |now| | | |]; try (left; by apply hinv_call).
  cbn [exec]. destruct (quantum_spec lim Hlim ep trusted bound holds contract Hbound _ now _ Hi)
    as ([s' t'] & r & -> & Hr).
  destruct r as [p|e]; [by left|]. destruct Hr as (? & _ & Hst & _). by right.
Qed.

(** ** A slot that stopped *)

Lemma halted_failed n (s : owner D C) :
  halted n s → ∃ why, EngineState.failure (state s.1) = Some why ∧
    ensure_running s.1 = Err (EngineError.OwnerFailed why).
Proof. intros [[why Hf] _ _ _ _ _ _]. exists why. split; [done|]. unfold ensure_running. by rewrite Hf. Qed.

Lemma halted_latched {A : Type} n (f : M A) (s : owner D C) :
  halted n s → (latched f s).1 = s.
Proof.
  intros Hs. destruct (halted_failed _ _ Hs) as (why & _ & He). destruct s as [self heap].
  unfold latched. cbn [fst] in He. by rewrite He.
Qed.

Lemma halted_settle n (s : owner D C) :
  halted n s → halted n (settle_transport_closed s).1 ∧
    state (settle_transport_closed s).1.1 = state s.1.
Proof.
  destruct s as [self heap]. intros [Hf Hl He Hh [] (o & a & []) Hab]. cbn [fst] in *.
  unfold settle_transport_closed, take_close_request.
  destruct Hab as [Hc|[Hc Ht]]; rewrite Hc; simpl CloseDirective.settlement_ready; cbv iota.
  - split; [|done]. split; try done; [by exists o, a|by right].
  - split; [|done]. split; try done; [by exists o, a|by right].
Qed.

(** No call changes what a slot that halted is, but for what is drained and
    for the permits that are dropped. *)
Lemma halted_exec w c :
  halted (log w) (slot w) → halted (log (exec w c)) (slot (exec w c)) ∧
    state (slot (exec w c)).1 = state (slot w).1.
Proof.
  intros Hs. destruct (halted_failed _ _ Hs) as (why & Hf & He).
  destruct w as [[self heap] transport n]. cbn [slot log port fst] in *.
  destruct c as [now options|i|i frame| |op|deadline|reason|now| | | |transport'];
    cbn [exec slot port log moved fst]; unfold open_admission, cancel, begin_drain, finalize;
    try by rewrite (halted_latched n _ (self, heap) Hs).
  - unfold reserve. by rewrite Hf.
  - destruct (permits n !! i) as [p|] eqn:Hp; [|done]. destruct Hs as [? ? ? Hh [] Hev ?].
    pose proof (delete_Permutation _ _ _ Hp) as Hd. split; [|done]. split; try done.
    + apply (CoreView.held_permits_perm _ _ _ _ _ Hd) in Hh. by apply CoreView.core_drop in Hh.
    + split; try done. rewrite Hd in oc_room0. cbn [fst snd length permits with_permits] in *.
      unfold view, core_of in *. cbn [fst snd slot log] in *.
      change (CoreView.view_of (core self, _.2)) with (CoreView.view_of (core self, heap)).
      simpl. lia.
    + destruct Hev as (o & a & []). by exists o, a.
  - destruct (permits n !! i) as [p|] eqn:Hp; [|done]. unfold commit. by rewrite Hf.
  - unfold Drive.drive_quantum. by rewrite He.
  - by apply halted_settle.
  - destruct Hs as [? ? ? Hh Hoc (o & a & []) ?]. cbn [fst] in *.
    destruct (drain_outcomes_spec lim ep _ _ _ Hoc) as (q & -> & Ho'). split; [|done].
    split; try done. by exists o, a.
  - destruct Hs as [? ? ? Hh [] (o & a & Hev) ?]. cbn [fst] in *.
    destruct (drain_events_spec lim ep _ _ _ Hev) as (q & -> & Hev'). split; [|done].
    split; try done. by exists o, a.
  - by split.
Qed.

Lemma good_stopped w c :
  trusted = false → stopped (log w) (slot w) → good (exec w c).
Proof.
  intros Htr [Hf Hs]. right. split; [done|]. destruct (halted_exec w c Hs) as [Hs' Hst].
  split; [by rewrite Hst|done].
Qed.

(** ** Every run *)

Lemma good_exec w c : good w → admissible trusted holds w c → good (exec w c).
Proof. intros [Hi|[Htr Hs]] Ha; [by apply good_running|by apply good_stopped]. Qed.

Lemma good_reachable w0 w : good w0 → reachable trusted holds w0 w → good w.
Proof. intros H0. induction 1; [done|by apply good_exec]. Qed.

(** A new slot is sound. *)
Lemma start_good config decoder classifier ledger heap transport w :
  ConnectionIdentity.epoch (ConnectionSlotConfig.identity config) = ep →
  match transport with Some t => holds t ∧ (trusted = true → tr_is_open t = false) | None => True end →
  start config lim decoder classifier ledger heap transport = Some w → good w.
Proof.
  intros Hep Ht. unfold start, ConnectionSlot.new.
  destruct (FrameDriver.new _ _) as [driver|]; [|done].
  set (c := ConnectionCore.new _ _ _ _ _ _ _).
  destruct (CoreView.core_new (F := OutboundFrame.t)
    (ConnectionIdentity.endpoint (ConnectionSlotConfig.identity config))
    (ConnectionIdentity.lane (ConnectionSlotConfig.identity config))
    (ConnectionIdentity.connection (ConnectionSlotConfig.identity config))
    (ConnectionIdentity.epoch (ConnectionSlotConfig.identity config))
    (ConnectionSlotLimits.connection lim) ledger heap (vl_connection _ Hlim)) as (Hh & Hce & Hv).
  fold c in Hh, Hce, Hv. clearbody c. destruct c as [core heap']. intros [= <-].
  set (self := mk _ _ _ _ _ _ _ _ _ _ _ _ _ _ _ _ _ _ _ _ _ _ _ _).
  assert (sound (mk_notes [] [] [] [] 0) (self, heap')) as Hs.
  { split; [exact Hh|]. change (view (self, heap')) with (CoreView.view_of (core, heap')).
    rewrite Hv. split; simpl.
    - done.
    - unfold epoch. simpl. by rewrite <- Hep.
    - pose proof (vl_connection _ Hlim) as [[Hmin _] _]. rewrite <- (vl_capacity _ Hlim) in Hmin.
      subst self. unfold ConnectionSlotLimits.outcomes.
      split; simpl; rewrite ?batch_new_items, ?batch_new_bound; [done| |constructor|done|done].
      simpl. unfold capacity. lia.
    - subst self. unfold ConnectionSlotLimits.timers.
      split; simpl; rewrite ?timers_new_entries, ?timers_new_bound; try done.
      + split; simpl; try done; apply NoDup_nil_2.
    - exists false, false. subst self. unfold ConnectionSlotLimits.lifecycle. split; [|by split].
      split; simpl; rewrite ?batch_new_items, ?batch_new_bound; try done.
      by rewrite rb_get_ZERO.
    - split; simpl; try done. auto.
    - subst self. unfold awaits, is_connecting, ConnectionSlotLimits.timers. simpl.
      rewrite timers_new_entries. simpl. lia. }
  left. destruct transport as [t|]; unfold QuantumSpec.hinv; cbn [fst snd slot port log].
  - destruct Ht as [Ht Ho]. split; try done. intros ? _. by apply Ho.
  - by split.
Qed.

(** ** Overdue quanta *)

(** The same notes with another count of the deadlines that fired. *)
Definition refired (k : nat) w : SlotSystem.world D C T :=
  mk_world (slot w) (port w) (mk_notes (permits (log w)) (accepted (log w)) (delivered (log w))
    (observed (log w)) k).

Lemma exec_refired k w c : exec (refired k w) c = refired k (exec w c).
Proof.
  destruct w as [s t n], c as [now options|i|i frame| |op|deadline|why|now| | | |transport];
    cbn [exec refired moved slot port log permits]; try done.
  - by destruct (reserve _ _ _) as [? []].
  - by destruct (permits n !! i).
  - destruct (permits n !! i); [|done]. by destruct (commit _ _ _) as [? []].
  - by destruct (Drive.drive_quantum _ _) as [[] ?].
  - by destruct (drain_outcomes _).
  - by destruct (drain_events _).
Qed.

(** Every overdue quantum spends a deadline of the slot. *)
Lemma waking_good `{!DeadlineLaws H} w0 k w :
  trusted = true → hinv (log (refired 0 w0)) (slot w0, port w0) → waking trusted holds w0 k w →
  hinv (log (refired k w)) (slot w, port w).
Proof.
  intros Htr H0. induction 1 as [|k w c Hw IH Ha]; [done|].
  assert (good (refired k (exec w c))) as Hg.
  { rewrite <- exec_refired. by apply good_running. }
  destruct Hg as [Hg|[? _]]; [|congruence]. unfold overdue.
  destruct c; try exact Hg. destruct (port w) as [t|] eqn:Hp; [|exact Hg].
  destruct (next_deadline (slot w).1) as [d|] eqn:Hn; [|exact Hg].
  destruct (is_elapsed_at d now) eqn:Hel; [|exact Hg].
  destruct (quantum_wakes lim Hlim ep trusted bound holds contract Hbound _ now (slot w) t d
    Htr IH Hn Hel) as ([s' t'] & p & Hr & Hs').
  cbn [exec]. rewrite Hp, Hr. exact Hs'.
Qed.

End slot_runs.
End SlotRuns.
