(* ===== verification/SlotFrame.v ===== *)
(** * What a call of a slot may touch

    A frame for every method of a slot and of its drive, from any state
    whatsoever: the bounds of the slot stay, its core only moves forward
    ([Lifecycle]), of the heap the ledger of that core alone is written, and a
    failure that was latched is never replaced. This is what lets a connection
    set run one slot without looking at the others. *)
From Stdlib Require Import ZArith Lia.
From stdpp Require Import prelude.
From S2P Require Import Prelude External Host Identity Limits Admission Ledger Operation Permit.
From S2P Require Import Write Framing Machine Journal Core Recovery Lifecycle.
From S2P Require Import Config Transport SlotData Slot Drive.

Import Lifecycle ConnectionSlot.

Module SlotFrame.
Section slot_frame.
Context {Cal : Calandria} {BB : ByteBudgetLib} {Build : BuildConfig} {H : Host}.
Context {D C : Type} {Dec : FrameDecoder D} {Ret : Retained Frame}.
Context {Cls : InboundClassifier Frame C}.
Implicit Types (self : ConnectionSlot.t D C) (s : owner D C).

Definition core_state s : ConnectionCore.state OutboundFrame.t := (core s.1, s.2).

(** The address of the ledger a slot owns. *)
Definition home self : LedgerRef := ConnectionMachine.ledger (ConnectionCore.machine (core self)).

Definition failure_of self : option OwnerFailure.t := EngineState.failure (state self).

Record kept s s' : Prop := mk_kept {
  ke_limits : limits s'.1 = limits s.1;
  ke_core : onward (core_state s) (core_state s');
  ke_failure : ∀ reason, failure_of s.1 = Some reason → failure_of s'.1 = Some reason;
}.

#[export] Instance kept_preorder : PreOrder kept.
Proof.
  split; [by intros s; split|]. intros s1 s2 s3 [] []. split; [congruence|by etrans|by auto].
Qed.

Lemma kept_home s s' : kept s s' → home s'.1 = home s.1.
Proof. intros [_ Ho _]. exact (onward_ledger _ _ Ho). Qed.

Lemma kept_epoch s s' : kept s s' → epoch s'.1 = epoch s.1.
Proof.
  intros [_ [[Hi _ _ _] _ _] _]. unfold identity, core_state in Hi. simpl in Hi.
  unfold epoch, ConnectionCore.epoch. congruence.
Qed.

Lemma kept_confined s s' : kept s s' → confined (home s.1) s.2 s'.2.
Proof. intros [_ [_ _ Hc] _]. exact Hc. Qed.

(** A step of the slot that leaves core, bounds and heap alone. *)
Record held self self' : Prop := mk_held {
  he_limits : limits self' = limits self;
  he_core : core self' = core self;
  he_failure : ∀ reason, failure_of self = Some reason → failure_of self' = Some reason;
}.

#[export] Instance held_preorder : PreOrder held.
Proof. split; [by intros self; split|]. intros s1 s2 s3 [] []. split; [congruence..|by auto]. Qed.

Lemma kept_held self self' heap : held self self' → kept (self, heap) (self', heap).
Proof. intros []. split; [done| |done]. by apply onward_same; simpl; rewrite he_core0. Qed.

(** Field writes. *)
Ltac field_write := repeat case_match; simplify_eq/=; solve [done | by split].

Lemma held_cancel self op : held self (cancel_deadline self op).
Proof. unfold cancel_deadline. field_write. Qed.

Lemma held_schedule self event d : held self (schedule_deadline self event d).1.
Proof.
  unfold schedule_deadline. etrans; [apply held_cancel|]. field_write.
Qed.

Lemma held_publish self o : held self (publish self o).1.
Proof. unfold publish. field_write. Qed.

Lemma held_edge self event : held self (publish_edge self event).1.
Proof. unfold publish_edge, publish_event. field_write. Qed.

Lemma held_latch_owner self reason : held self (latch_owner_failure self reason).
Proof.
  unfold latch_owner_failure. destruct (EngineState.failure (state self)) eqn:Hf; [done|].
  split; [done|done|]. unfold failure_of. by rewrite Hf.
Qed.

Lemma held_latch self error : held self (latch_failure self error).
Proof. unfold latch_failure. repeat case_match; try done; apply held_latch_owner. Qed.

Lemma held_finish self why failure : held self (finish_close self why failure).1.
Proof.
  unfold finish_close. destruct why as [why|]; [|done]. destruct (close_request self); [done|].
  unfold publish_closing. pose proof (held_edge self
    (λ sequence epoch, ConnectionEvent.Closing sequence epoch why)) as He.
  destruct (publish_edge _ _) as [self1 published]. etrans; [exact He|]. field_write.
Qed.

Lemma held_effect {R : Type} convert (effect : ConnectionEffect.t R) acc :
  held acc.1.1 (interpret_effect convert effect acc).1.1.
Proof.
  destruct acc as [[self why] failure]. destruct effect as [ep op d|? ? ?|? op|? ?|ep op o]; simpl; try done.
  - pose proof (held_schedule self (DeadlineEvent.mk ep op) d) as Hs.
    by destruct (schedule_deadline _ _ _).
  - apply held_cancel.
  - destruct (convert o) as [o'|]; [|done].
    pose proof (held_publish self (EngineOutcome.new ep op o')) as Hp.
    by destruct (publish _ _).
Qed.

Lemma held_interpret {R : Type} convert (tr : ConnectionTransition.t R) self :
  held self (interpret convert tr self).1.
Proof.
  unfold interpret. set (f := λ acc effect, interpret_effect convert effect acc).
  assert (∀ es acc, held acc.1.1 (foldl f acc es).1.1) as Hfold.
  { induction es as [|e es IH]; intros acc; [done|]. simpl. etrans; [|apply IH]. apply held_effect. }
  specialize (Hfold (ConnectionTransition.effects tr) (self, None, None)).
  destruct (foldl f _ _) as [[self1 why] failure]. etrans; [exact Hfold|].
  pose proof (held_finish self1 why failure) as Hf. by destruct (finish_close _ _ _).
Qed.

(** ** Methods of the slot *)

Definition framed {E A : Type} (f : STE (owner D C) E A) : Prop := ∀ s, kept s (f s).1.

Lemma framed_ret {E A : Type} (a : A) : framed (E := E) (ste_ret a).
Proof. by intros s. Qed.

Lemma framed_bind {E A B : Type} (f : STE (owner D C) E A) (k : A → STE _ E B) :
  framed f → (∀ a, framed (k a)) → framed (ste_bind f k).
Proof.
  intros Hf Hk s. unfold ste_bind. pose proof (Hf s) as Hs. destruct (f s) as [s' [a|e]]; [|done].
  etrans; [exact Hs|apply Hk].
Qed.

(** A method that reads the state it is called in. *)
Lemma framed_at {E A : Type} (f : owner D C → STE (owner D C) E A) :
  (∀ s, framed (f s)) → framed (λ s, f s s).
Proof. intros Hf s. apply Hf. Qed.

(** A field write, then a framed method. *)
Lemma framed_after {E A : Type} (f : STE (owner D C) E A) self self' heap :
  framed f → held self self' → kept (self, heap) (f (self', heap)).1.
Proof. intros Hf Hh. etrans; [by apply kept_held|apply Hf]. Qed.

Lemma framed_local {E A : Type} (f : ConnectionSlot.t D C → ConnectionSlot.t D C * result A E) :
  (∀ self, held self (f self).1) → framed (local f).
Proof.
  intros Hf [self heap]. unfold local. pose proof (Hf self) as Hs. destruct (f self).
  by apply kept_held.
Qed.

Lemma framed_on_core {E E' A : Type} (wrap : E → E') (f : STE _ E A) :
  steady f → framed (on_core wrap f).
Proof.
  intros Hf [self heap]. unfold on_core. pose proof (Hf (core self, heap)) as Hs.
  destruct (f _) as [[c heap'] r]. by split.
Qed.

Hint Resolve framed_ret : core.

Lemma framed_interpret_unit tr : framed (interpret_unit (D := D) (C := C) tr).
Proof. apply framed_local. intros. apply held_interpret. Qed.

Lemma framed_interpret_reply tr : framed (interpret_reply (D := D) (C := C) tr).
Proof. apply framed_local. intros. apply held_interpret. Qed.

Lemma framed_input input : framed (apply_input (D := D) (C := C) input).
Proof.
  apply framed_bind; [apply framed_on_core, steady_apply|]. intros. apply framed_interpret_unit.
Qed.

Lemma framed_malformed : framed (close_malformed (D := D) (C := C)).
Proof. intros s. apply framed_input. Qed.

Lemma framed_close why : framed (close_for (D := D) (C := C) why).
Proof. intros s. apply framed_input. Qed.

Lemma framed_decode_error error : framed (close_decode_error (D := D) (C := C) error).
Proof. destruct error; solve [apply framed_close | apply framed_malformed]. Qed.

Lemma framed_latched {A : Type} (f : M (D := D) (C := C) A) : framed f → framed (latched f).
Proof.
  intros Hf [self heap]. unfold latched. destruct (ensure_running self); [|done].
  pose proof (Hf (self, heap)) as Hs. destruct (f _) as [[self' heap'] [a|e]]; [done|].
  etrans; [exact Hs|]. apply kept_held, held_latch.
Qed.

Lemma framed_disposed input before :
  (∀ disposition self, held self (before disposition self)) →
  framed (disposed (D := D) (C := C) input before).
Proof.
  intros Hb. apply framed_bind; [apply framed_on_core, steady_apply|]. intros tr. cbv zeta.
  apply framed_bind; [apply framed_local; intros; apply Hb|]. intros _.
  apply framed_bind; [apply framed_interpret_unit|]. auto.
Qed.

(** The permit a core gives out is bound to its ledger. *)
Lemma reserved_home now options (s s' : ConnectionCore.state OutboundFrame.t) permit :
  ConnectionCore.reserve now options s = (s', Ok permit) →
  OperationPermit.ledger permit = ConnectionMachine.ledger (ConnectionCore.machine s.1).
Proof.
  unfold ConnectionCore.reserve. pose proof (steady_check_owner s) as Hc.
  destruct (ConnectionCore.check_owner s) as [[self heap] [u|e]]; [|done].
  pose proof (onward_ledger _ _ Hc) as <-. simpl.
  unfold ConnectionMachine.reserve. repeat case_match; intros; by simplify_eq/=.
Qed.

Lemma framed_reserve now options : framed (reserve (D := D) (C := C) now options).
Proof.
  intros [self heap]. unfold reserve. destruct (EngineState.failure _); [done|].
  pose proof (framed_on_core id _ (steady_reserve now options) (self, heap)) as Hs.
  unfold on_core in *. destruct (ConnectionCore.reserve _ _ _) as [[c heap'] [permit|e]] eqn:Hr.
  - apply reserved_home in Hr. case_match; [|exact Hs]. etrans; [exact Hs|].
    split; [done| |done]. split; [done|by intros ?|]. simpl.
    replace (ConnectionMachine.ledger (ConnectionCore.machine c)) with (OperationPermit.ledger permit);
      [apply confined_drop_permit|]. etrans; [exact Hr|]. symmetry. exact (kept_home _ _ Hs).
  - etrans; [exact Hs|]. apply kept_held. case_match; [apply held_latch_owner|done].
Qed.

Lemma framed_commit permit frame : framed (commit (D := D) (C := C) permit frame).
Proof.
  intros [self heap]. unfold commit. destruct (EngineState.failure _); [done|].
  pose proof (framed_on_core id _ (steady_commit permit frame) (self, heap)) as Hs.
  destruct (on_core _ _ _) as [[self1 heap1] [[op tr]|e]].
  - pose proof (framed_interpret_unit tr (self1, heap1)) as Hi.
    destruct (interpret_unit _ _) as [[self2 heap2] [u|e]]; [by etrans|].
    etrans; [exact Hs|]. etrans; [exact Hi|]. apply kept_held, held_latch.
  - repeat case_match; simplify_eq/=; try exact Hs.
    etrans; [exact Hs|]. apply kept_held, held_latch_owner.
Qed.

Lemma framed_cancel op : framed (cancel (D := D) (C := C) op).
Proof.
  apply framed_latched. intros s. refine (framed_bind _ _ _ _ s).
  - apply framed_on_core, steady_apply.
  - intros tr. apply framed_bind; [apply framed_interpret_unit|auto].
Qed.

Lemma framed_begin_drain d : framed (begin_drain (D := D) (C := C) d).
Proof.
  apply framed_latched. intros s. apply framed_disposed. intros. by case_bool_decide.
Qed.

Lemma held_force_shutdown self : held self (force_shutdown self).1.
Proof. unfold force_shutdown, force_shutdown_settlement. field_write. Qed.

Lemma framed_finalize why : framed (finalize (D := D) (C := C) why).
Proof.
  apply framed_latched. intros [self heap]. unfold finalize_inner.
  pose proof (held_force_shutdown self) as Hf. destruct (force_shutdown self) as [self1 [|]].
  - by apply kept_held.
  - apply framed_after; [|done]. by apply framed_disposed.
Qed.

Lemma framed_open_admission : framed (open_admission (D := D) (C := C)).
Proof.
  apply framed_latched. intros [self heap]. unfold open_admission_inner. case_match; [done|].
  apply framed_bind; [by apply framed_disposed|]. intros disposition.
  apply framed_bind; [|auto]. case_bool_decide; [|auto].
  apply framed_local. intros. apply held_edge.
Qed.

Lemma held_drain_outcomes self : held self (drain_outcomes self).1.
Proof. unfold drain_outcomes. by destruct (batch_drain _). Qed.

Lemma held_drain_events self : held self (drain_events self).1.
Proof. unfold drain_events. by destruct (batch_drain _). Qed.

Lemma held_take_close self : held self (take_close_request self).1.
Proof. unfold take_close_request. field_write. Qed.

Lemma held_abort self : held self (abort_transport self).
Proof. by split. Qed.

Lemma framed_confirm why : framed (confirm_transport_closed (D := D) (C := C) why).
Proof.
  intros [self heap]. unfold confirm_transport_closed. apply framed_after; [|by split].
  apply framed_bind; [apply framed_input|]. intros _. apply framed_local. intros. apply held_edge.
Qed.

Lemma settle_kept s : kept s (settle_transport_closed s).1.
Proof.
  destruct s as [self heap]. unfold settle_transport_closed.
  pose proof (held_take_close self) as Ht. destruct (take_close_request self) as [self1 [[why st|]|]].
  - assert (kept (self, heap) (self1, heap)) as Hk by by apply kept_held.
    destruct st; cbn [fst]; try exact Hk; pose proof (framed_confirm why (self1, heap)) as Hc;
      destruct (confirm_transport_closed _ _) as [[self2 heap2] [u|e]]; cbn [fst] in *;
      try (by etrans); (etrans; [exact Hk|]; etrans; [exact Hc|]; apply kept_held);
      (etrans; [apply held_latch|apply held_abort]).
  - apply kept_held. etrans; [exact Ht|apply held_abort].
  - by apply kept_held.
Qed.

End slot_frame.
End SlotFrame.

(** ** Recovery *)

Module RecoverFrame.
Section recover_frame.
Context {Cal : Calandria} {BB : ByteBudgetLib} {F : Type}.
Implicit Types (self : Recovering.t F).

Import Recovering.

Definition within ledger self self' : Prop := confined ledger (heap self) (heap self').

#[export] Instance within_preorder ledger : PreOrder (within ledger).
Proof. split; [by intros self l|]. intros x y z H1 H2. unfold within in *. by etrans. Qed.

Lemma journal_operation_heap record self : heap (recover_journal_operation record self) = heap self.
Proof. unfold recover_journal_operation. case_match; [done|]. by destruct (take_write _ _ _). Qed.

Lemma current_within ledger record self :
  within ledger self (recover_current_operation ledger record self).
Proof.
  unfold recover_current_operation, within. destruct (take_write _ _ _). simpl.
  destruct (negb _); apply confined_write.
Qed.

Lemma journaled_within ledger record self :
  within ledger self (recover_journaled ledger record self).
Proof.
  unfold recover_journaled. destruct (find_take _ _) as [slots [current|]].
  - etrans; [|apply current_within]. done.
  - unfold within. by rewrite journal_operation_heap.
Qed.

Lemma journal_loop_within fuel ledger wire_index recovered self :
  within ledger self (journal_loop fuel ledger wire_index recovered self).2.
Proof.
  revert recovered self. induction fuel as [|fuel IH]; intros recovered self; [done|]. simpl.
  destruct (find_take _ _) as [slots [record|]]; [|done]. etrans; [|apply IH].
  etrans; [|apply journaled_within]. done.
Qed.

Lemma index_within ledger ids wire_index self :
  within ledger self (recover_index ledger ids wire_index self).
Proof.
  unfold recover_index. pose proof (journal_loop_within (length (journal self)) ledger wire_index
    false self) as Hj.
  destruct (journal_loop _ _ _ _ _) as [[|] self1]; [done|]. etrans; [exact Hj|].
  destruct (find_take _ _) as [slots [current|]]; [|done]. etrans; [|apply current_within]. done.
Qed.

Lemma recover_within ledger operations self :
  within ledger self (recover_in_wire_order ledger operations self).
Proof.
  assert (∀ ids l self, within ledger self (index_loop ledger ids l self)) as Hindex.
  { intros ids. induction l as [|i l IH]; intros self0; [done|]. simpl. etrans; [|apply IH].
    apply index_within. }
  assert (∀ l self, within ledger self (leftover_current ledger l self)) as Hcurrent.
  { induction l as [|r l IH]; intros self0; [done|]. simpl. etrans; [|apply IH].
    etrans; [|apply current_within]. done. }
  assert (∀ l self, heap (leftover_journal l self) = heap self) as Hjournal.
  { induction l as [|r l IH]; intros self0; [done|]. simpl. by rewrite IH, journal_operation_heap. }
  unfold recover_in_wire_order, within. rewrite Hjournal. cbn [heap set_journal].
  etrans; [|apply Hcurrent]. cbn [heap set_current]. etrans; [|apply Hindex]. done.
Qed.

(** What recovery does to a core follows the same preorder. *)
Lemma recover_onward (s : ConnectionCore.state F) : onward s (CoreRecovery.recover s).1.
Proof.
  destruct s as [self hp]. unfold CoreRecovery.recover.
  destruct (WriteQueue.discard_all _) as [queue discarded].
  destruct (RecoveryJournal.take_writes _) as [journal1 writes1].
  destruct (RecoveryJournal.take_operations _) as [journal2 operations2]. cbn [fst].
  split; cbn [fst snd ConnectionCore.machine ConnectionCore.poisoned].
  - apply later_matching.
  - intros source Hp. by rewrite Hp.
  - apply recover_within.
Qed.

End recover_frame.
End RecoverFrame.

(** ** Driving *)

Module DriveFrame.
Section drive_frame.
Context {Cal : Calandria} {BB : ByteBudgetLib} {Build : BuildConfig} {H : Host}.
Context {D C : Type} {Dec : FrameDecoder D} {Ret : Retained Frame}.
Context {Cls : InboundClassifier Frame C}.
Context {T : Type} {TP : SlotTransport T}.
Implicit Types (self : ConnectionSlot.t D C) (t : T).

Import Drive SlotFrame.

(** A method over the slot and something else: its transport, or none. *)
Definition drives {X E A : Type} (f : STE (owner D C * X) E A) : Prop := ∀ s, kept s.1 (f s).1.1.

Lemma drives_ret {X E A : Type} (a : A) : drives (X := X) (E := E) (ste_ret a).
Proof. by intros s. Qed.

Lemma drives_bind {X E A B : Type} (f : STE (owner D C * X) E A) (k : A → STE _ E B) :
  drives f → (∀ a, drives (k a)) → drives (ste_bind f k).
Proof.
  intros Hf Hk s. unfold ste_bind. pose proof (Hf s) as Hs. destruct (f s) as [s' [a|e]]; [|done].
  etrans; [exact Hs|apply Hk].
Qed.

Lemma drives_slot {A : Type} (f : M (D := D) (C := C) A) : framed f → drives (X := T) (Drive.on_slot f).
Proof.
  intros Hf [s t]. unfold Drive.on_slot. pose proof (Hf s) as Hs. by destruct (f s) as [s' r].
Qed.

Lemma drives_owner {A : Type} (f : M (D := D) (C := C) A) : framed f → drives (X := option T) (on_owner f).
Proof. intros Hf [s t]. unfold on_owner. pose proof (Hf s) as Hs. by destruct (f s) as [s' r]. Qed.

(** A method of the slot after a field write. *)
Lemma drives_after {A : Type} (f : M (D := D) (C := C) A) self self' heap t :
  framed f → held self self' → kept (self, heap) (Drive.on_slot f (self', heap, t)).1.1.
Proof. intros Hf Hh. etrans; [by apply kept_held|]. apply (drives_slot f Hf (self', heap, t)). Qed.

Lemma drives_update f :
  (∀ self, held self (f self)) → drives (X := T) (update f).
Proof. intros Hf [[self heap] t]. by apply kept_held. Qed.

Lemma held_capture self t : held self (capture_transport_pressure self t).1.
Proof. unfold capture_transport_pressure. cbn. repeat case_match; simplify_eq/=; by split. Qed.

Lemma drives_capture : drives (X := T) capture.
Proof.
  intros [[self heap] t]. unfold capture. pose proof (held_capture self t) as Hc.
  destruct (capture_transport_pressure self t). by apply kept_held.
Qed.

Hint Resolve drives_ret framed_ret framed_close framed_malformed framed_decode_error : core.

Lemma framed_then {E A B : Type} (f : STE (owner D C) E A) (b : B) :
  framed f → framed (f ;;! ste_ret b).
Proof. intros Hf. apply framed_bind; auto. Qed.

Hint Resolve framed_then : core.

Lemma framed_decoder : framed (drive_decoder_once (D := D) (C := C)).
Proof.
  intros [self heap]. unfold drive_decoder_once.
  destruct (FrameDriver.next_frame _) as [d [[frame|]|e]].
  - case_match; [apply framed_after; [auto|by split]|].
    destruct (reply_key _ _) as [cl [key|e]]; [|apply framed_after; [auto|by split]].
    apply framed_after; [|by split].
    apply framed_bind; [apply framed_on_core, steady_apply_reply|]. intros.
    apply framed_interpret_reply.
  - case_match; [apply framed_after; [auto|by split]|]. by apply kept_held.
  - apply framed_after; [auto|by split].
Qed.

Lemma framed_feed bytes : framed (feed_decoder (D := D) (C := C) bytes).
Proof.
  intros [self heap]. unfold feed_decoder. destruct (FrameDriver.feed _ _) as [d [u|e]].
  - by apply kept_held.
  - apply framed_after; [auto|by split].
Qed.

Hint Resolve framed_decoder framed_feed : core.

Lemma drives_read : drives drive_read_once.
Proof.
  intros [[self heap] t]. unfold drive_read_once. destruct (negb _); [done|].
  destruct (read_length self =? 0); [apply drives_slot; auto|].
  destruct (tr_read _ _) as [[t' filled] [n|source]].
  - case_match; [apply drives_after; [auto|by split]|].
    case_match; [by apply kept_held|]. apply drives_after; [auto|by split].
  - case_match; [by apply kept_held|]. apply drives_after; [auto|by split].
Qed.

Lemma framed_report slice written : framed (report_written (D := D) (C := C) slice written).
Proof.
  apply framed_bind; [apply framed_on_core, steady_advance_write|]. intros.
  apply framed_interpret_unit.
Qed.

Hint Resolve framed_report : core.

Lemma drives_write : drives drive_write_once.
Proof.
  intros [[self heap] t]. unfold drive_write_once. destruct (negb _); [done|].
  pose proof (framed_on_core EngineError.Core _
    (steady_front_write (ConnectionSlotLimits.io_chunk_bytes (limits self))) (self, heap)) as Hs.
  unfold core_try in *. destruct (on_core _ _ _) as [[self1 heap1] [[front|]|e]]; try done.
  assert (∀ (f : M (D := D) (C := C) (option unit)) t', framed f →
    kept (self, heap) (Drive.on_slot f (self1, heap1, t')).1.1) as Hon.
  { intros f t' Hf. etrans; [exact Hs|]. apply (drives_slot f Hf (self1, heap1, t')). }
  destruct (WriteSlice.bytes front); [apply Hon; auto|].
  destruct (negb _); [done|]. destruct (tr_write _ _) as [t' [n|source]].
  - case_match; apply Hon; auto.
  - case_match; [done|]. etrans; [exact Hs|]. apply drives_after; [auto|by split].
Qed.

Lemma drives_failed source why : drives (X := T) (transport_failed source why).
Proof.
  apply drives_bind; [by apply drives_update|]. intros _.
  apply drives_bind; [by apply drives_slot|]. auto.
Qed.

Lemma drives_establishment : drives drive_establishment_once.
Proof.
  intros [[self heap] t]. unfold drive_establishment_once. destruct (negb _); [done|].
  destruct (tr_drive_establishment _ _ _) as [t' [progress|source]].
  2:{ exact (drives_failed source CloseReason.ConnectFailed (self, heap, t')). }
  destruct (validate_transport_progress _ _); [|done].
  refine (drives_bind _ _ _ _ (self, heap, t')); [|auto].
  case_match; [|auto]. apply drives_slot, framed_local. intros self0.
  etrans; [|apply held_edge]. by split.
Qed.

Lemma drives_transport remaining : drives (drive_transport_once remaining).
Proof.
  intros [[self heap] t]. unfold drive_transport_once. case_match; [done|]. case_match; [done|].
  case_match; [apply (drives_establishment (self, heap, t))|]. case_match; [done|].
  destruct (tr_drive_transport _ _) as [t' [progress|source]].
  - by destruct (validate_transport_progress _ _).
  - exact (drives_failed source CloseReason.TransportLost (self, heap, t')).
Qed.

Lemma drives_shutdown_step why deadline call : drives (shutdown_step (T := T) why deadline call).
Proof.
  intros [[self heap] t]. unfold shutdown_step. destruct (call _ _) as [t' r].
  pose proof (held_capture self t') as Hc. destruct (capture_transport_pressure self t') as [self1 p].
  assert (∀ self', held self1 self' → kept (self, heap) (self', heap)) as Hk
    by (intros; apply kept_held; by etrans).
  destruct r as [progress|source]; [|by apply Hk].
  destruct p; [|by apply Hk]. destruct (validate_transport_progress _ _); by apply Hk.
Qed.

Lemma drives_shutdown now remaining : drives (X := T) (drive_shutdown_once now remaining).
Proof.
  intros [[self heap] t]. unfold drive_shutdown_once.
  destruct (close_request self) as [[why shutdown|]|]; [|done..].
  destruct shutdown; try done; (case_match; [by apply kept_held|]; case_match; [done|]);
    [apply drives_shutdown_step|].
  case_match; [by apply kept_held|]. case_match; [done|]. apply drives_shutdown_step.
Qed.

Lemma drives_preferred preference remaining : drives (X := T) (drive_preferred preference remaining).
Proof.
  intros [[self heap] t]. unfold drive_preferred. destruct preference.
  - apply (drives_transport remaining (self, heap, t)).
  - case_match; [|done]. apply drives_slot; auto.
  - case_match; [|done]. refine (drives_bind _ _ drives_read _ (self, heap, t)). auto.
  - case_match; [|done]. refine (drives_bind _ _ drives_write _ (self, heap, t)). auto.
Qed.

Lemma drives_observed {A : Type} (f : DM (T := T) A) : drives f → drives (observed f).
Proof.
  intros Hf s. unfold observed. pose proof (Hf s) as Hs. destruct (f s) as [s1 r].
  pose proof (drives_capture s1) as Hc. destruct (capture s1) as [s2 p]. by etrans.
Qed.

Lemma drives_ready_loop rounds preference remaining :
  drives (X := T) (ready_loop rounds preference remaining).
Proof.
  revert preference. induction rounds as [|rounds IH]; intros preference; simpl; [auto|].
  apply drives_bind; [apply drives_observed, drives_preferred|]. intros [k|]; [|apply IH].
  apply drives_bind; [by apply drives_update|auto].
Qed.

Lemma drives_ready remaining : drives (X := T) (drive_ready_once remaining).
Proof. intros [[self heap] t]. apply drives_ready_loop. Qed.

Lemma drives_on_transport {A : Type} (f : DM (T := T) A) (s : owner D C) t :
  drives f → kept s (on_transport s t f).1.1.
Proof.
  intros Hf. unfold on_transport. pose proof (Hf (s, t)) as Hs. by destruct (f (s, t)) as [[s' t'] r].
Qed.

Lemma drives_io_step remaining : drives (X := option T) (io_step remaining).
Proof.
  intros [[self heap] [t|]]; unfold io_step; [apply drives_on_transport, drives_ready|].
  case_match; [|done]. pose proof (framed_decoder (self, heap)) as Hs.
  destruct (drive_decoder_once _) as [[self' heap'] [u|e]]; [|done].
  etrans; [exact Hs|]. by apply kept_held.
Qed.

Lemma drives_io_loop fuel budget work : drives (X := option T) (io_loop fuel budget work).
Proof.
  revert work. induction fuel as [|fuel IH]; intros work [[self heap] t]; [done|]. simpl.
  case_match; [|done]. refine (drives_bind _ _ (drives_io_step _) _ (self, heap, t)).
  intros [k|]; [apply IH|auto].
Qed.

(** An answer computed from the state. *)
Lemma drives_answer {X E A : Type} (f : owner D C * X → result A E) : drives (λ s, (s, f s)).
Proof. by intros s. Qed.

Lemma drives_io budget : drives (X := option T) (drive_io budget).
Proof. apply drives_bind; [apply drives_io_loop|]. by intros w [[self heap] t]. Qed.

Lemma drives_close_loop fuel now budget work : drives (X := option T) (close_loop fuel now budget work).
Proof.
  revert work. induction fuel as [|fuel IH]; intros work [[self heap] [t|]]; try done. simpl.
  case_match; [|done].
  pose proof (drives_on_transport (drive_shutdown_once now (budget - work)) (self, heap) t
    (drives_shutdown _ _)) as Hs.
  destruct (on_transport _ _ _) as [s' [[k|]|e]]; try done. etrans; [exact Hs|apply IH].
Qed.

Lemma drives_close_quantum now budget work : drives (X := option T) (drive_close_quantum now budget work).
Proof. apply drives_bind; [apply drives_close_loop|]. by intros w [[self heap] t]. Qed.

Lemma drives_capture_present : drives (X := option T) capture_present.
Proof.
  intros [[self heap] [t|]]; [|done]. unfold capture_present. pose proof (held_capture self t) as Hc.
  destruct (capture_transport_pressure self t). by apply kept_held.
Qed.

Lemma held_pop_timer self now : held self (pop_timer self now).1.
Proof. unfold pop_timer. repeat case_match; simplify_eq/=; by split. Qed.

Lemma framed_deadlines fuel now budget work :
  framed (deadlines_loop (D := D) (C := C) fuel now budget work).
Proof.
  revert work. induction fuel as [|fuel IH]; intros work [self heap]; [done|]. simpl.
  case_match; [done|]. case_match; [apply framed_after; [auto|by split]|].
  case_match; [apply framed_then; auto|].
  pose proof (held_pop_timer self now) as Hp. destruct (pop_timer self now) as [self1 [event|]].
  - apply framed_after; [|exact Hp]. apply framed_bind; [apply framed_input|].
    intros _ [self2 heap2]. destruct (close_request self2); [done|apply IH].
  - by apply kept_held.
Qed.

Lemma drives_after_deadlines now budget work : drives (X := option T) (after_deadlines now budget work).
Proof.
  intros [[self heap] t]. unfold after_deadlines.
  case_match; [apply (drives_close_quantum now budget work (self, heap, t))|].
  case_match; [done|]. refine (drives_bind _ _ (drives_io _) _ (self, heap, t)).
  intros io [[self' heap'] t']. case_match; [apply drives_close_quantum|done].
Qed.

Lemma drives_quantum now : drives (X := option T) (drive_quantum now).
Proof.
  intros [[self heap] t]. unfold drive_quantum. destruct (ensure_running self); [|done].
  assert (drives (X := option T) (drive_quantum_inner now)) as Hi.
  { intros [[self0 heap0] t0]. unfold drive_quantum_inner.
    refine (drives_bind _ _ drives_capture_present _ (self0, heap0, t0)). intros _.
    apply drives_bind; [|intros; apply drives_after_deadlines].
    intros [[self1 heap1] t1]. destruct (close_request self1); [done|].
    apply drives_owner. apply framed_deadlines. }
  specialize (Hi (self, heap, t)). destruct (drive_quantum_inner _ _) as [[[self' heap'] t'] [p|e]];
    [exact Hi|]. etrans; [exact Hi|]. apply kept_held, held_latch.
Qed.

(** ** The transport stays *)

(** A drive neither takes nor drops the transport it was lent. *)
Definition keeps_port {A : Type} (f : HM (D := D) (C := C) (T := T) A) : Prop :=
  ∀ s, is_Some (f s).1.2 ↔ is_Some s.2.

Lemma keeps_bind {A B : Type} (f : HM A) (k : A → HM B) :
  keeps_port f → (∀ a, keeps_port (k a)) → keeps_port (ste_bind f k).
Proof.
  intros Hf Hk s. unfold ste_bind. pose proof (Hf s) as Hs. destruct (f s) as [s' [a|e]]; [|done].
  etrans; [apply Hk|exact Hs].
Qed.

Lemma on_transport_keeps {A : Type} (f : DM (T := T) A) (s : owner D C) t :
  is_Some (on_transport s t f).1.2 ↔ is_Some (Some t).
Proof. unfold on_transport. destruct (f (s, t)) as [[s' t'] r]. done. Qed.

Lemma io_step_keeps remaining : keeps_port (io_step remaining).
Proof.
  intros [[self heap] [t|]]; unfold io_step; [apply on_transport_keeps|].
  case_match; [|done]. by destruct (drive_decoder_once _) as [[self' heap'] [u|e]].
Qed.

Lemma io_keeps budget : keeps_port (drive_io budget).
Proof.
  apply keeps_bind; [|by intros w [[self heap] t]].
  assert (∀ fuel work, keeps_port (io_loop fuel budget work)) as Hloop; [|apply Hloop].
  induction fuel as [|fuel IH]; intros work [[self heap] t]; [done|]. simpl. case_match; [|done].
  refine (keeps_bind _ _ (io_step_keeps _) _ (self, heap, t)). by intros [k|].
Qed.

Lemma close_quantum_keeps now budget work : keeps_port (drive_close_quantum now budget work).
Proof.
  apply keeps_bind; [|by intros w [[self heap] t]].
  generalize (Z.to_nat (budget - work)) as fuel. intros fuel. revert work.
  induction fuel as [|fuel IH]; intros work [[self heap] [t|]]; try done. simpl. case_match; [|done].
  pose proof (on_transport_keeps (drive_shutdown_once now (budget - work)) (self, heap) t) as Hs.
  destruct (on_transport _ _ _) as [s' [[k|]|e]]; try done. etrans; [apply IH|exact Hs].
Qed.

Lemma quantum_keeps now : keeps_port (drive_quantum now).
Proof.
  intros [[self heap] t]. unfold drive_quantum. destruct (ensure_running self); [|done].
  assert (keeps_port (drive_quantum_inner now)) as Hi.
  { intros [[self0 heap0] t0]. unfold drive_quantum_inner.
    refine (keeps_bind _ _ _ _ (self0, heap0, t0)).
    { intros [[self1 heap1] [t1|]]; [|done]. unfold capture_present.
      by destruct (capture_transport_pressure self1 t1). }
    intros _. apply keeps_bind.
    { intros [[self1 heap1] t1]. destruct (close_request self1); [done|]. unfold on_owner.
      by destruct (drive_deadlines _ _ _). }
    intros work [[self1 heap1] t1]. unfold after_deadlines.
    case_match; [apply (close_quantum_keeps now _ work (self1, heap1, t1))|]. case_match; [done|].
    refine (keeps_bind _ _ (io_keeps _) _ (self1, heap1, t1)). intros io [[self2 heap2] t2].
    case_match; [apply close_quantum_keeps|done]. }
  specialize (Hi (self, heap, t)).
  by destruct (drive_quantum_inner _ _) as [[[self' heap'] t'] [p|e]].
Qed.

Lemma recover_owned_kept reason cleanup (s : owner D C) :
  kept s (recover_owned reason cleanup s).1.
Proof.
  destruct s as [self heap]. unfold recover_owned.
  pose proof (RecoverFrame.recover_onward (core self, heap)) as Ho.
  destruct (CoreRecovery.recover _) as [[c heap'] r]. cbn [fst] in Ho.
  destruct (batch_drain _) as [b1 l1]. destruct (batch_drain _) as [b2 l2].
  destruct (batch_drain _) as [b3 l3]. destruct (batch_drain _) as [b4 l4]. by split.
Qed.

End drive_frame.
End DriveFrame.
