(* ===== verification/SlotStanding.v ===== *)
(** * A slot among others

    What an owner of several slots relies on for each of them: a slot [stands]
    when it is sound, over a transport that keeps its contract, or has latched
    a failure and waits for recovery. Every call of the public interface keeps
    it, and so does anything that happens elsewhere on the heap. *)
From Stdlib Require Import ZArith Lia.
From stdpp Require Import prelude.
From S2P Require Import Prelude External Identity Limits Admission Ledger Operation Permit.
From S2P Require Import Write Framing Machine Core Recovery Ownership CoreSpec CoreAdmission.
From S2P Require Import Reference ReferenceFacts CoreView Host Config Transport SlotData Slot.
From S2P Require Import Drive SlotSpec SlotCalls DriveSpec QuantumSpec SlotSystem.
From S2P Require Import SlotFrame.

Import Told Hosted SlotCalls ConnectionSlot DriveSpec QuantumSpec SlotSystem SlotRuns.

Module SlotStanding.
Section slot_standing.
Context {Cal : Calandria} {BB : ByteBudgetLib} {Build : BuildConfig} {H : Host}.
Context {Laws : CalandriaLaws Cal} {BLaws : ByteBudgetLaws BB} {HL : HostLaws H}.
Context {D C : Type} {Dec : FrameDecoder D} {Ret : Retained Frame}.
Context {Cls : InboundClassifier Frame C}.
Context {T : Type} {TP : SlotTransport T}.
Context (holds : T → Prop) (contract : TransportContract TP false rb_ZERO holds).
Implicit Types (lim : ConnectionSlotLimits.t) (ep : ConnectionEpoch.t).
Implicit Types (self : ConnectionSlot.t D C) (n : notes (Dec := Dec)) (t : option T).

(** ** Between two calls *)

Definition attached t : Prop := ∀ x, t = Some x → holds x.

Definition stands lim ep n (s : owner D C) t : Prop :=
  sound lim ep n s ∧ attached t ∨ halted lim ep n s.

(** What holds of a slot that stands, whether it runs or not. *)
Record whole lim ep n (s : owner D C) : Prop := mk_whole {
  wh_held : CoreView.held (core_limits lim) (accepted n) (permits n) (core_of s);
  wh_outcomes : outcomes_ok lim ep n (view s) s.1;
  wh_events : ∃ opened admitted, events_ok lim ep n (edges opened admitted (view s)) s.1;
  wh_epoch : epoch s.1 = ep;
  wh_limits : limits s.1 = lim;
}.

Lemma sound_whole lim ep n (s : owner D C) : sound lim ep n s → whole lim ep n s.
Proof. intros [Hh [Hl He Ho _ (o & a & Hev & _) _]]. split; try done. by exists o, a. Qed.

Lemma halted_whole lim ep n (s : owner D C) : halted lim ep n s → whole lim ep n s.
Proof. by intros []. Qed.

Lemma stands_whole lim ep n (s : owner D C) t : stands lim ep n s t → whole lim ep n s.
Proof. intros [[Hs _]|Hs]; [by apply sound_whole|by apply halted_whole]. Qed.

(** Recovery of any such slot returns what is still owed. *)
Lemma whole_recover lim ep n (s : owner D C) reason cleanup :
  whole lim ep n s →
  let '(_, report) := recover_owned reason cleanup s in
  accepted n ≡ₚ
    (EngineOutcome.operation <$> delivered n ++ RecoveryReport.outcomes report) ++
    (RecoveredOperation.operation <$> RecoveryReport.operations report) ∧
  NoDup (accepted n) ∧
  RecoveryReport.epoch report = ep ∧
  RecoveryReport.unmatched_writes report = [] ∧
  RecoveryReport.ownership_diverged report = cleanup || transport_contract_diverged s.1.
Proof.
  intros [Hh [Honce _ _ _ Hrecov] _ He _]. unfold recover_owned. destruct s as [self h].
  pose proof (CoreView.core_recover _ _ _ _ Hh) as Hrec. unfold core_of in Hrec. cbn [fst snd] in *.
  destruct (CoreRecovery.recover (core self, h)) as [[core' heap'] recovery].
  destruct Hrec as (Hops & Hep & Hun & Hdiv). cbn [outcomes recovery_outcomes set_core].
  destruct (batch_drain_items (outcomes self)) as (Hl & _).
  destruct (batch_drain (outcomes self)) as [q published].
  cbn [recovery_outcomes set_outcomes set_core].
  destruct (batch_drain_items (recovery_outcomes self)) as (Hl' & _).
  destruct (batch_drain (recovery_outcomes self)) as [q' rejected]. cbn [snd] in Hl, Hl'.
  repeat (destruct (batch_drain _) as [? ?]).
  cbn [RecoveryReport.outcomes RecoveryReport.operations RecoveryReport.epoch
    RecoveryReport.unmatched_writes RecoveryReport.ownership_diverged].
  split; [|split; [|split; [|split]]].
  - rewrite Hops, Hl', Hrecov, app_nil_r, Hl. exact Honce.
  - destruct Hh as (? & _ & _ & [Hn _]). by apply NoDup_app in Hn as (? & _).
  - rewrite Hep. exact He.
  - done.
  - by rewrite Hdiv.
Qed.

(** ** Calls *)

Lemma running_hinv lim ep n (s : owner D C) t :
  hinv lim ep false rb_ZERO holds n (s, t) ↔ sound lim ep n s ∧ attached t.
Proof.
  unfold hinv, attached. cbn [fst snd]. destruct t as [x|]; split.
  - intros [Hs Hx _ _]. split; [done|]. by intros y [= <-].
  - intros [Hs Hx]. split; [done|by apply Hx|by intros ?|by intros ?].
  - by intros [Hs _].
  - intros [Hs _]. split; [done|by intros ?].
Qed.

Lemma stands_exec lim ep (Hlim : valid_limits lim) (w : SlotSystem.world D C T) c :
  stands lim ep (log w) (slot w) (port w) → admissible false holds w c →
  stands lim ep (log (exec w c)) (slot (exec w c)) (port (exec w c)).
Proof.
  intros [Hi|Hs] Ha.
  - apply running_hinv in Hi.
    destruct (good_running lim Hlim ep false rb_ZERO holds contract ltac:(done) w c Hi Ha)
      as [Hg|[_ [_ Hg]]]; [left; by apply running_hinv|by right].
  - right. by apply (halted_exec lim ep).
Qed.

(** ** Field writes *)

Lemma halted_same lim ep n self heap self' :
  halted lim ep n (self, heap) → same_host self self' → halted lim ep n (self', heap).
Proof.
  intros [Hf Hl He Hh [] (o & a & []) Hab] []. unfold view, core_of, epoch in *. cbn [fst snd] in *.
  split; unfold view, core_of, epoch; cbn [fst snd];
    rewrite ?sh_core0, ?sh_state0, ?sh_limits0, ?sh_close0, ?sh_transport0; try done.
  - split; rewrite ?sh_outcomes0, ?sh_recovery0; done.
  - exists o, a. split; rewrite ?sh_lifecycle0, ?sh_sequence0; done.
Qed.

Lemma stands_same lim ep n self heap self' t :
  stands lim ep n (self, heap) t → same_host self self' → stands lim ep n (self', heap) t.
Proof.
  intros [[Hs Ht]|Hs] Hsame; [left|right; by eapply halted_same].
  split; [|done]. by apply (sound_same lim ep n (self, heap)).
Qed.

Lemma stands_port lim ep n (s : owner D C) t t' :
  stands lim ep n s t → (attached t → attached t') → stands lim ep n s t'.
Proof. intros [[Hs Ht]|Hs] Hi; [left; auto|by right]. Qed.

Lemma stands_latch_owner lim ep n self heap t why :
  stands lim ep n (self, heap) t → stands lim ep n (latch_owner_failure self why, heap) t.
Proof.
  intros [[Hs _]|Hs]; right; [exact (proj1 (latch_halted _ _ _ _ why Hs))|].
  destruct (halted_failed _ _ _ _ Hs) as (why' & Hf & _). cbn [fst] in Hf.
  unfold latch_owner_failure. by rewrite Hf.
Qed.

Lemma stands_latch lim ep n self heap t e :
  stands lim ep n (self, heap) t → stands lim ep n (latch_failure self e, heap) t.
Proof.
  intros Hs. unfold latch_failure. destruct (EngineState.failure _); [done|].
  destruct e; solve [done | by apply stands_latch_owner].
Qed.

(** ** The rest of the heap *)

Lemma held_agree (bounds : ConnectionLimits.t) past ps (c : ConnectionCore.t OutboundFrame.t) heap heap' :
  let ledger := ConnectionMachine.ledger (ConnectionCore.machine c) in
  Heap.borrow heap' ledger = Heap.borrow heap ledger →
  CoreView.held bounds past ps (c, heap) → CoreView.held bounds past ps (c, heap').
Proof.
  cbv zeta. intros Hl (entries & [[Hpol Hag Hb Hm] Hw Hj Hp] & Hst & Hsp). exists entries.
  split; [|split; [exact Hst|by destruct Hsp]]. split; try done. cbn [fst snd] in *. split; try done.
  destruct Hpol. split; by rewrite ?Hl.
Qed.

Lemma whole_home lim ep n self heap p :
  whole lim ep n (self, heap) → p ∈ permits n → OperationPermit.ledger p = SlotFrame.home self.
Proof.
  intros [(entries & [[[] _ _ _] _ _ _] & _) _ _ _ _] Hp.
  rewrite Forall_forall in pol_permits. by apply pol_permits in Hp as (? & _).
Qed.

Lemma stands_heap lim ep n self heap heap' t :
  Heap.borrow heap' (SlotFrame.home self) = Heap.borrow heap (SlotFrame.home self) →
  stands lim ep n (self, heap) t → stands lim ep n (self, heap') t.
Proof.
  intros Hl [[[Hh Ho] Ht]|[]].
  - left. split; [|done]. split; [|exact Ho]. by eapply held_agree.
  - right. split; try done. by eapply held_agree.
Qed.

(** ** The permit of another connection *)

Lemma foreign_refused lim ep n self heap t p frame :
  stands lim ep n (self, heap) t → OperationPermit.ledger p ≠ SlotFrame.home self →
  commit p frame (self, heap) =
    (self, heap,
     Err match EngineState.failure (state self) with
         | Some why => EngineCommitError.OwnerFailed why p frame
         | None => EngineCommitError.Rejected
             (FrameCommitError.new (FrameCommitFailure.Policy CommitErrorKind.ForeignPermit) p frame)
         end).
Proof.
  intros Hs Hne. unfold commit. destruct (EngineState.failure (state self)) eqn:Hf; [done|].
  destruct (wh_held _ _ _ _ (stands_whole _ _ _ _ _ Hs)) as (entries & Ho & _).
  unfold on_core. rewrite (CoreAdmission.commit_foreign _ _ _ _ _ p frame Ho) by (by left).
  simpl. by destruct self.
Qed.

End slot_standing.
End SlotStanding.

(** ** Closing as drained without a drain

    [finish_close] takes the deadline of a graceful shutdown from the drain.
    A close for the reason [Drained] that no drain preceded finds none: the
    effects are carried out, but the slot reports a broken invariant. *)

Import Told Hosted SlotCalls ConnectionSlot.

Module SlotForced.
Section slot_forced.
Context {Cal : Calandria} {BB : ByteBudgetLib} {Build : BuildConfig} {H : Host}.
Context {Laws : CalandriaLaws Cal} {BLaws : ByteBudgetLaws BB} {HL : HostLaws H}.
Context {D C : Type} {Dec : FrameDecoder D} {Ret : Retained Frame}.
Context {Cls : InboundClassifier Frame C}.
Context (lim : ConnectionSlotLimits.t) (Hlim : valid_limits lim) (ep : ConnectionEpoch.t).
Implicit Types (self : ConnectionSlot.t D C) (s : owner D C) (n : notes (Dec := Dec)).

Definition missing : EngineError.t :=
  EngineError.Invariant EngineInvariant.MissingShutdownDeadline.

(** The effects of closing everything, whatever the gate. *)
Lemma told_forced v why :
  Reference.phase v = ConnectionPhase.Live →
  told none ep (Reference.with_gate v AdmissionGate.Draining)
    (Reference.close_all (R := unit) ep why v).2 (Reference.close_all (R := unit) ep why v).1.
Proof.
  intros Hl. change (Reference.close_all ep why v) with
    (Reference.close_all (R := unit) ep why (Reference.with_gate v AdmissionGate.Draining)).
  by apply told_close_all.
Qed.

Lemma interpret_undrained n v self tr :
  hosted lim ep n v self → Reference.phase v = ConnectionPhase.Live →
  transport_state self = TransportState.Open → drain_deadline self = None →
  ConnectionTransition.effects tr = (Reference.close_all (R := unit) ep CloseReason.Drained v).2 →
  ∃ self', interpret unit_outcome tr self = (self', Err missing) ∧
    state self' = EngineState.Running.
Proof.
  intros [_ Hep [_ Ho2 Ho3 Ho4 _] [T1 _ _ _] (opened & admitted & Hev & _) [Hst _ Hcl]] Hl Hopen Hd
    Heff. rewrite Hl in Hcl. destruct Hcl as [Hnone _].
  destruct (told_forced v CloseReason.Drained Hl) as [Hpl Hepo Hcar Hlive _ Hlife].
  rewrite <- Heff in *. set (es := ConnectionTransition.effects tr) in *.
  assert (last (closes es) = Some CloseReason.Drained) as Hlast.
  { destruct Hlife as [(_ & Hp & _)|(why & -> & _ & _ & _ & Hr & _)]; [simpl in Hp; congruence|].
    simpl in Hr. by rewrite Hr. }
  assert (length (published es) ≤ length (live v))%nat as Hlen.
  { change (live (Reference.with_gate v AdmissionGate.Draining)) with (live v) in Hlive.
    rewrite Hlive, length_app, !length_fmap. lia. }
  destruct (effects_spec lim Hlim ep unit_outcome none es (unit_convertible lim) Hpl Hcar Hepo self None
    Ho4 Ho3) as (index & tm & q & outs & Hrun & _); [lia|done|].
  unfold interpret. fold es. rewrite Hrun, Hlast. set (self1 := published_to self index tm q).
  unfold finish_close. change (close_request self1) with (close_request self). rewrite Hnone.
  assert (events_ok lim ep n (edges opened admitted v) self1) as Hev1 by (by destruct Hev).
  destruct (publish_edge_spec lim Hlim ep n _ self1
    (λ sequence epoch, ConnectionEvent.Closing sequence epoch CloseReason.Drained) Hev1 Hep)
    as (q' & Hpub & _); [|done|].
  { unfold edges, closing_edges. rewrite Hl. by destruct opened, admitted; simpl; lia. }
  unfold publish_closing. cbv zeta in Hpub. rewrite Hpub. cbn [retain_first].
  change (transport_state (set_event_sequence _ _)) with (transport_state self).
  change (drain_deadline (set_event_sequence _ _)) with (drain_deadline self).
  rewrite Hopen, Hd, !bool_decide_eq_true_2 by done. cbn [andb]. eexists.
  split; [reflexivity|exact Hst].
Qed.

Lemma finalize_undrained n s :
  sound lim ep n s → Reference.phase (view s) = ConnectionPhase.Live →
  transport_state s.1 = TransportState.Open → drain_deadline s.1 = None →
  ∃ s', finalize CloseReason.Drained s = (s', Err missing) ∧
    EngineState.failure (state s'.1) = Some OwnerFailure.OwnerInvariant ∧
    close_request s'.1 = Some CloseDirective.Abort.
Proof.
  destruct s as [self heap]. intros Hs Hl Hopen Hd. unfold finalize, latched.
  rewrite (running lim ep n _ Hs : ensure_running self = _). unfold finalize_inner, force_shutdown.
  pose proof (epoch_eq lim ep _ _ Hs) as He. cbn [fst] in *. pose proof Hs as [Hh Ho].
  pose proof (lk_close _ _ (ho_links _ _ _ _ _ _ Ho)) as K. rewrite Hl in K. cbn [fst] in K.
  destruct K as [-> _]. rewrite He.
  destruct (core_input lim ep n (self, heap) (ConnectionInput.CloseRequested ep CloseReason.Drained)
    Hh He) as (c & Hrun & _ & Hce & _).
  unfold disposed. rewrite (ste_bind_ok _ _ _ _ _ Hrun). cbv zeta.
  rewrite (ste_bind_ok _ _ _ (set_core self c.1, c.2) tt) by done.
  assert (ConnectionTransition.effects (Reference.step ep
      (ConnectionInput.CloseRequested ep CloseReason.Drained) (view (self, heap))).2 =
    (Reference.close_all (R := unit) ep CloseReason.Drained (view (self, heap))).2) as Heff.
  { unfold Reference.step. rewrite bool_decide_eq_true_2 by done. by rewrite Hl. }
  destruct (interpret_undrained n (view (self, heap)) (set_core self c.1) _
    (hosting_core lim ep _ _ _ _ c.1 Ho Hce) Hl Hopen Hd Heff) as (self' & Hi & Hst).
  rewrite (ste_bind_err _ _ _ (self', c.2) missing)
    by (unfold interpret_unit, local; by rewrite Hi).
  eexists (latch_failure self' missing, c.2). split; [done|].
  unfold latch_failure, latch_owner_failure. cbn [fst]. by rewrite Hst.
Qed.

End slot_forced.
End SlotForced.
