(* ===== verification/SlotTheorems.v ===== *)
(** * What a slot guarantees

    Theorems about every run of a slot from its construction, over any
    transport that respects [TransportContract]: it never fails by its own
    fault, it loses and repeats no outcome, deadline or lifecycle edge, a
    forced close is always settled, recovery returns what is still owed, and no
    deadline makes it spin. [QuantumTheorems] bounds a quantum on any state. *)
From Stdlib Require Import ZArith Lia.
From stdpp Require Import prelude.
From S2P Require Import Prelude External Identity Limits Admission Ledger Operation Permit.
From S2P Require Import Write Framing Machine Core Recovery Reference ReferenceFacts CoreView.
From S2P Require Import Host Config Transport SlotData Slot Drive SlotSpec SlotCalls DriveSpec.
From S2P Require Import QuantumSpec SlotSystem SlotStanding.

Import Told Hosted SlotCalls ConnectionSlot DriveSpec QuantumSpec SlotSystem SlotRuns.
Import SlotStanding.

Module SlotTheorems.
Section slot_theorems.
Context {Cal : Calandria} {BB : ByteBudgetLib} {Build : BuildConfig} {H : Host}.
Context {Laws : CalandriaLaws Cal} {BLaws : ByteBudgetLaws BB} {HL : HostLaws H}.
Context {D C : Type} {Dec : FrameDecoder D} {Ret : Retained Frame}.
Context {Cls : InboundClassifier Frame C}.
Context {T : Type} {TP : SlotTransport T}.
Context (lim : ConnectionSlotLimits.t) (Hlim : valid_limits lim).
Context (config : ConnectionSlotConfig.t) (decoder : D) (classifier : C).
Context (ledger : LedgerRef) (heap : Heap.t).
Context (trusted : bool) (bound : RetainedBytes) (holds : T → Prop) (transport : T).
Context (contract : TransportContract TP trusted bound holds).
Context (Hbound : trusted = true →
  rb_get bound ≤ rb_get (ConnectionSlotLimits.transport_retained_bytes lim)).
Context (Hholds : holds transport) (Hshut : trusted = true → tr_is_open transport = false).
Context (w0 : SlotSystem.world D C T).
Context (Hstart : start config lim decoder classifier ledger heap (Some transport) = Some w0).
Implicit Types (w : SlotSystem.world D C T).

Local Notation ep := (ConnectionIdentity.epoch (ConnectionSlotConfig.identity config)).

(** The operations the core still owes an outcome. *)
Definition owed w : list OperationId.t := live (view (slot w)).

Lemma run_good w : reachable trusted holds w0 w → good lim ep trusted bound holds w.
Proof.
  intros Hr. eapply good_reachable; [done..| |exact Hr].
  eapply start_good; [done|reflexivity| |exact Hstart]. by split.
Qed.

(** A running slot has latched nothing. *)
Lemma hinv_running n (s : owner D C * option T) :
  hinv lim ep trusted bound holds n s → EngineState.failure (state s.1.1) = None.
Proof.
  intros Hi. pose proof (hinv_sound _ _ _ _ _ _ _ Hi) as Hs.
  by rewrite (lk_state _ _ (ho_links _ _ _ _ _ _ (so_hosted _ _ _ _ Hs))).
Qed.

(** What holds whether the slot runs or stopped. *)
Lemma run_whole w : reachable trusted holds w0 w → whole lim ep (log w) (slot w).
Proof.
  intros [Hi|[_ [_ Hs]]]%run_good; [|by apply halted_whole].
  apply sound_whole. exact (hinv_sound _ _ _ _ _ _ _ Hi).
Qed.

(** C3: a slot over a transport that keeps its whole contract never fails, as
    long as it is not closed by force for the reason [Drained]: on every such
    run its failure latch stays empty, every quantum, at any time, succeeds,
    and so does every control call: opening admission, cancelling, beginning a
    drain, and a forced close for any other reason. *)
Theorem slot_never_fails w :
  trusted = true → reachable trusted holds w0 w →
  EngineState.failure (state (slot w).1) = None ∧
  (∀ now, ∃ s p, Drive.drive_quantum now (slot w, port w) = (s, Ok p)) ∧
  (∃ s d, open_admission (slot w) = (s, Ok d)) ∧
  (∀ operation, ∃ s o, cancel operation (slot w) = (s, Ok o)) ∧
  (∀ deadline, ∃ s d, begin_drain deadline (slot w) = (s, Ok d)) ∧
  (∀ why, why ≠ CloseReason.Drained → ∃ s d, finalize why (slot w) = (s, Ok d)).
Proof.
  intros Htr [Hi|[? _]]%run_good; [|congruence].
  pose proof (hinv_sound _ _ _ _ _ _ _ Hi) as Hs. cbn [fst] in Hs.
  assert (∀ (A : Type) (f : M A), safe lim ep (log w) f → ∃ s a, f (slot w) = (s, Ok a)) as Hsafe.
  { intros A f Hf. destruct (Hf _ Hs) as (s & a & Hr & _). by exists s, a. }
  split; [by rewrite (lk_state _ _ (ho_links _ _ _ _ _ _ (so_hosted _ _ _ _ Hs)))|].
  split; [|split; [|split; [|split]]].
  - intros now. destruct (quantum_spec lim Hlim ep trusted bound holds contract Hbound _ now _ Hi)
      as (s & [p|e] & Hr & He); [by exists s, p|]. destruct He as [? _]. congruence.
  - by apply Hsafe, open_admission_safe.
  - intros. by apply Hsafe, cancel_safe.
  - intros. by apply Hsafe, begin_drain_safe.
  - intros. by apply Hsafe, finalize_safe.
Qed.

(** C13: of its transport a slot relies on one clause alone, that a write
    accepts no more bytes than it was given. Whatever else the transport does,
    on every run without a forced close for the reason [Drained] the slot fails
    only inside a quantum, and only for breaking the transport contract: such a
    quantum names the clause that was broken and latches [OwnerInvariant]; a
    quantum that succeeds, and every other call, latches nothing; control calls
    of a running slot succeed; and once latched the failure stays. *)
Theorem slot_blames_transport w c :
  reachable trusted holds w0 w → admissible trusted holds w c →
  let failure' := EngineState.failure (state (slot (exec w c)).1) in
  match EngineState.failure (state (slot w).1) with
  | Some why => why = OwnerFailure.OwnerInvariant ∧ failure' = Some why
  | None =>
      match c with
      | DriveQuantum now =>
          match (Drive.drive_quantum now (slot w, port w)).2 with
          | Ok _ => failure' = None
          | Err e => blames e ∧ failure' = Some OwnerFailure.OwnerInvariant
          end
      | OpenAdmission => failure' = None ∧ is_ok (open_admission (slot w)).2 = true
      | Cancel operation => failure' = None ∧ is_ok (cancel operation (slot w)).2 = true
      | BeginDrain deadline => failure' = None ∧ is_ok (begin_drain deadline (slot w)).2 = true
      | Finalize reason => failure' = None ∧ is_ok (finalize reason (slot w)).2 = true
      | _ => failure' = None
      end
  end.
Proof.
  intros Hr Hadm. cbv zeta. pose proof (run_good _ Hr) as [Hi|[_ [Hf Hst]]].
  2: { rewrite Hf. split; [done|]. destruct (halted_exec lim ep w c Hst) as [_ ->]. exact Hf. }
  pose proof (hinv_running _ _ Hi) as Hn. cbn [fst] in Hn. rewrite Hn.
  assert (∀ (A : Type) (f : M A), safe lim ep (log w) f → is_ok (f (slot w)).2 = true) as Hsafe.
  { intros A f Hf. pose proof (hinv_sound _ _ _ _ _ _ _ Hi) as Hs. cbn [fst] in Hs.
    by destruct (Hf _ Hs) as (s & a & -> & _). }
  assert (match c with DriveQuantum _ => False | _ => True end →
    EngineState.failure (state (slot (exec w c)).1) = None) as Hcall.
  { intros Hq. exact (hinv_running _ _ (hinv_call lim Hlim ep trusted bound holds w c Hi Hadm Hq)). }
  destruct c as [| | | |op|deadline|why|now| | | |]; try exact (Hcall I).
  - split; [exact (Hcall I)|by apply Hsafe, open_admission_safe].
  - split; [exact (Hcall I)|by apply Hsafe, cancel_safe].
  - split; [exact (Hcall I)|by apply Hsafe, begin_drain_safe].
  - split; [exact (Hcall I)|by apply Hsafe, finalize_safe].
  - destruct (quantum_spec lim Hlim ep trusted bound holds contract Hbound _ now _ Hi)
      as ([s t] & r & Hrun & He). cbn [exec]. rewrite Hrun. cbn [snd slot].
    destruct r as [p|e]; [exact (hinv_running _ (s, t) He)|]. destruct He as (_ & Hb & [Hl _] & _). by split.
Qed.

(** C5: every accepted operation gets exactly one outcome: the accepted
    operations, all different, are those with an outcome drained, those with
    an outcome pending, and those the core still owes one; and there is room
    to publish every one of those. *)
Theorem slot_exactly_once w :
  reachable trusted holds w0 w →
  NoDup (accepted (log w)) ∧
  accepted (log w) ≡ₚ
    (EngineOutcome.operation <$> delivered (log w) ++ batch_items (outcomes (slot w).1)) ++ owed w ∧
  Z.of_nat (length (batch_items (outcomes (slot w).1)) + length (owed w)) ≤
    ConnectionLimits.max_operations (ConnectionSlotLimits.connection lim).
Proof.
  intros [(entries & _ & _ & [Hn _]) [Honce Hroom _ _ _] _ _ _]%run_whole.
  apply NoDup_app in Hn as (Hn & _). split; [done|]. split; [exact Honce|]. rewrite <- (vl_capacity _ Hlim). unfold capacity, owed in *. lia.
Qed.

(** The lifecycle events drained so far and those pending are the edges of
    the epoch in order, numbered from one without a gap. *)
Theorem slot_events_in_order w :
  reachable trusted holds w0 w →
  ∃ opened admitted,
    observed (log w) ++ batch_items (lifecycle (slot w).1) =
      numbered ep (edges opened admitted (view (slot w))) ∧
    event_sequence (slot w).1 = Z.of_nat (length (edges opened admitted (view (slot w)))).
Proof.
  intros [_ _ (o & a & [Hlog Hseq _]) _ _]%run_whole. by exists o, a.
Qed.

(** C14: in a running slot exactly the deadlines of the operations the core owns
    are armed, one each, and the index names them. *)
Theorem slot_deadlines_armed w :
  reachable trusted holds w0 w → EngineState.failure (state (slot w).1) = None →
  let armed := timer_entries (timers (slot w).1) in
  ((λ e, (DeadlineEvent.operation e.2, e.1.2)) <$> armed) ≡ₚ
    ((λ i, (Reference.id i, Reference.deadline i)) <$> Reference.items (view (slot w))) ∧
  deadlines (slot w).1 ≡ₚ
    ((λ e, DeadlineEntry.mk (DeadlineEvent.operation e.2) e.1.1) <$> armed) ∧
  NoDup ((λ e, DeadlineEvent.operation e.2) <$> armed).
Proof.
  intros [Hi|[_ []]]%run_good Hf; [|congruence].
  destruct (hinv_sound _ _ _ _ _ _ _ Hi) as [_ [_ _ _ [[Hix _ Hops] Ha _ _] _ _]].
  split; [exact Ha|]. split; [exact Hix|exact Hops].
Qed.

(** C4: no deadline makes a slot spin over a transport that keeps its whole
    contract: on every run that does not close the slot by force for the reason
    [Drained], the quanta that were given the transport and began when the next
    deadline of the slot had elapsed, and the deadlines that it still awaits,
    are together at most three more than the operations it accepted. *)
Theorem slot_deadlines_spent `{!DeadlineLaws H} k w :
  trusted = true → waking trusted holds w0 k w →
  (k + awaits (view (slot w)) (slot w).1 ≤ 3 + length (accepted (log w)))%nat.
Proof.
  intros Htr Hw.
  assert (good lim ep trusted bound holds w0) as [H0|[? _]] by apply run_good, reachable_init;
    [|congruence].
  assert (log w0 = log (refired 0 w0)) as Hlog.
  { revert Hstart. unfold start. destruct (ConnectionSlot.new _ _ _ _ _ _) as [? []]; [|done].
    by intros [= <-]. }
  rewrite Hlog in H0.
  pose proof (waking_good lim Hlim ep trusted bound holds contract Hbound _ _ _ Htr H0 Hw) as Hi.
  pose proof (ho_fired _ _ _ _ _ _ (so_hosted _ _ _ _ (hinv_sound _ _ _ _ _ _ _ Hi))) as Hf.
  cbn [fired accepted log refired fst] in Hf. lia.
Qed.

(** C20: a forced close of a running slot whose epoch is not closed yet, for any
    reason but [Drained], is settled: the transport can be released at once, and
    settling leaves the epoch closed, owing nothing, with every accepted
    operation given its outcome. It holds after every run whose forced closes
    are of this kind. *)
Theorem slot_finalize_settles w why :
  reachable trusted holds w0 w → EngineState.failure (state (slot w).1) = None →
  why ≠ CloseReason.Drained →
  Reference.phase (view (slot w)) ≠ ConnectionPhase.Closed →
  ∃ s d s', finalize why (slot w) = (s, Ok d) ∧ settle_transport_closed s = (s', true) ∧
    transport_state s'.1 = TransportState.Closed ∧
    Reference.phase (view s') = ConnectionPhase.Closed ∧
    accepted (log w) ≡ₚ
      EngineOutcome.operation <$> delivered (log w) ++ batch_items (outcomes s'.1) ∧
    timer_entries (timers s'.1) = [].
Proof.
  intros [Hi|[_ []]]%run_good Hf Hw Hp; [|congruence].
  pose proof (hinv_sound _ _ _ _ _ _ _ Hi) as Hs. cbn [fst] in Hs.
  destruct (finalize_spec lim Hlim ep _ _ why Hw Hs) as (s & d & Hr & Hs1 & _ & Hready).
  specialize (Hready Hp). destruct (settle_sound lim Hlim ep _ _ Hs1) as (s' & b & Hst & Hs' & Ht & _ & Hb).
  apply Hb in Hready as ->. exists s, d, s'. split; [done|]. split; [done|]. split; [done|].
  destruct Hs' as [Hh [_ _ [Honce _ _ _ _] [_ Ha _ _] _ [_ _ K]]].
  assert (Reference.phase (view s') = ConnectionPhase.Closed) as Hcl.
  { destruct (Reference.phase (view s')); [|by destruct K; congruence|done].
    destruct K as (_ & [?|?]); congruence. }
  split; [done|].
  assert (Reference.items (view s') = []) as Hnil.
  { destruct (CoreView.held_life _ _ _ _ Hh) as [(Hl & _)|(_ & _ & _ & ?)]; [|done].
    unfold view in Hcl. congruence. }
  unfold live, Told.deadlines in *. rewrite Hnil in *. split; [by rewrite app_nil_r in Honce|].
  symmetry in Ha. apply Permutation_nil in Ha. by apply fmap_nil_inv in Ha.
Qed.

(** Recovery of a slot, failed or not, returns the outcomes that are
    pending and the operations that owe one: with the outcomes drained before,
    every accepted operation is accounted for exactly once; nothing is
    unmatched, and only the transport contract can be reported as diverged. *)
Theorem slot_recovers_all w reason :
  reachable trusted holds w0 w →
  let '(_, report) := recover reason (slot w) in
  accepted (log w) ≡ₚ
    (EngineOutcome.operation <$> delivered (log w) ++ RecoveryReport.outcomes report) ++
    (RecoveredOperation.operation <$> RecoveryReport.operations report) ∧
  NoDup (accepted (log w)) ∧
  RecoveryReport.epoch report = ep ∧
  RecoveryReport.unmatched_writes report = [] ∧
  RecoveryReport.ownership_diverged report = transport_contract_diverged (slot w).1.
Proof.
  intros Hw%run_whole. exact (whole_recover lim ep (log w) (slot w) reason false Hw).
Qed.

(** C40: closing an open slot by force for the reason [Drained], when no drain
    gave it a deadline, fails: the slot latches an invariant violation and asks
    for its transport to be aborted. *)
Theorem finalize_drained_latches w :
  reachable trusted holds w0 w → EngineState.failure (state (slot w).1) = None →
  Reference.phase (view (slot w)) = ConnectionPhase.Live →
  transport_state (slot w).1 = TransportState.Open → drain_deadline (slot w).1 = None →
  ∃ s, finalize CloseReason.Drained (slot w) =
      (s, Err (EngineError.Invariant EngineInvariant.MissingShutdownDeadline)) ∧
    EngineState.failure (state s.1) = Some OwnerFailure.OwnerInvariant ∧
    close_request s.1 = Some CloseDirective.Abort.
Proof.
  intros [Hi|[_ Hst]]%run_good Hf Hl Ho Hd; [|by rewrite (st_failed _ _ _ _ Hst) in Hf].
  by eapply SlotForced.finalize_undrained; [|eapply (hinv_sound _ _ _ _ _ _ _ Hi)|..].
Qed.

End slot_theorems.
End SlotTheorems.

(** ** The work of a quantum, and a slot that failed

    Statements about every state of a slot, sound or not: a quantum does at
    most the work it is budgeted, its loops end by themselves, and a slot that
    latched a failure refuses every call and keeps the first one. *)

Import ConnectionSlot Drive.

Module QuantumTheorems.
Section quantum_theorems.
Context {Cal : Calandria} {BB : ByteBudgetLib} {Build : BuildConfig} {H : Host}.
Context {D C : Type} {Dec : FrameDecoder D} {Ret : Retained Frame}.
Context {Cls : InboundClassifier Frame C}.
Context {T : Type} {TP : SlotTransport T} {Typing : TransportTyping TP}.
Implicit Types (self : ConnectionSlot.t D C) (t : T).

(** ** One step *)

Lemma answered {S E A : Type} (a b : A) (s s' : S) :
  (ste_ret a : STE S E A) s = (s', Ok b) → a = b.
Proof. by intros [= _ ->]. Qed.

(** A report that is accepted is one operation. *)
Lemma validated_one self progress u :
  TransportProgress.made progress →
  validate_transport_progress (transport_budget self) progress = Ok u →
  TransportProgress.operations progress = 1.
Proof.
  intros Hm. unfold validate_transport_progress.
  destruct (TransportProgress.fits _ _) eqn:Hf; simpl; [|done].
  destruct (TransportProgress.is_idle _) eqn:Hi; [done|]. intros _.
  pose proof (TransportProgress.made_busy _ Hm Hi). unfold TransportProgress.fits in Hf.
  apply andb_true_iff in Hf as [[Hf _]%andb_true_iff _]. apply Z.leb_le in Hf. simpl in Hf. lia.
Qed.

(** Steps that do at most one unit of work. *)
Definition single (f : DM (D := D) (C := C) (T := T) (option Z)) : Prop :=
  ∀ s s' k, f s = (s', Ok (Some k)) → k = 1.

Lemma single_failed source why : single (transport_failed source why).
Proof.
  intros s s' k Hr. unfold transport_failed in Hr.
  apply ste_bind_ok_inv in Hr as (? & ? & _ & Hr).
  apply ste_bind_ok_inv in Hr as (? & ? & _ & Hr). apply answered in Hr. by simplify_eq.
Qed.

Lemma single_transport remaining : single (drive_transport_once remaining).
Proof.
  intros [[self heap] t] s' k. unfold drive_transport_once.
  destruct (is_connecting self) eqn:Hc; simpl andb; cbv iota.
  - destruct (tr_is_open t); [done|]. destruct (remaining =? 0); [done|].
    unfold drive_establishment_once. destruct (tr_can_establish t); simpl; [|done].
    destruct (tr_drive_establishment _ _ _) as [t' [progress|source]] eqn:Hd;
      [|apply single_failed].
    pose proof (establishment_made t (socket_policy self) (transport_budget self) progress) as Hm.
    rewrite Hd in Hm. specialize (Hm eq_refl).
    destruct (validate_transport_progress _ _) as [u|] eqn:Hv; [|done].
    apply (validated_one _ _ _ Hm) in Hv. intros (? & ? & _ & Hr)%ste_bind_ok_inv. apply answered in Hr. by simplify_eq.
  - destruct (remaining =? 0); [done|]. destruct (tr_has_transport_work t); simpl; [|done].
    destruct (tr_drive_transport _ _) as [t' [progress|source]] eqn:Hd; [|apply single_failed].
    pose proof (transport_made t (transport_budget self) progress) as Hm.
    rewrite Hd in Hm. specialize (Hm eq_refl).
    destruct (validate_transport_progress _ _) as [u|] eqn:Hv; [|done].
    apply (validated_one _ _ _ Hm) in Hv. intros. by simplify_eq.
Qed.

Lemma single_preferred preference remaining : single (drive_preferred preference remaining).
Proof.
  intros [[self heap] t] s' k. unfold drive_preferred. destruct preference.
  - apply single_transport.
  - destruct (decoder_pending self); [|done]. unfold on_slot.
    destruct (ste_bind _ _ _) as [s1 r] eqn:Hr. intros [= _ ->].
    apply ste_bind_ok_inv in Hr as (? & ? & _ & Hr). apply answered in Hr. by simplify_eq.
  - destruct (is_transport_open self); [|done]. intros (? & [u|] & _ & Hr)%ste_bind_ok_inv;
      apply answered in Hr; by simplify_eq/=.
  - destruct (is_transport_open self); [|done]. intros (? & [u|] & _ & Hr)%ste_bind_ok_inv;
      apply answered in Hr; by simplify_eq/=.
Qed.

Lemma single_loop rounds preference remaining : single (ready_loop rounds preference remaining).
Proof.
  revert preference. induction rounds as [|rounds IH]; intros preference s s' k; [done|].
  intros (s1 & [k1|] & Ho & Hr)%ste_bind_ok_inv; [|by eapply IH].
  apply ste_bind_ok_inv in Hr as (? & ? & _ & Hr). apply answered in Hr. simplify_eq.
  unfold observed in Ho. destruct (drive_preferred preference remaining s) as [s2 r] eqn:Hp.
  destruct (capture s2) as [s3 [u|e]], r as [a|e']; simplify_eq. by eapply single_preferred.
Qed.

Lemma single_ready remaining : single (drive_ready_once remaining).
Proof. intros [[self heap] t]. apply single_loop. Qed.

Lemma single_step why deadline call :
  (∀ t b r, (call t b).2 = Ok r → TransportProgress.made r) →
  single (shutdown_step why deadline call).
Proof.
  intros Hcall [[self heap] t] s' k. unfold shutdown_step.
  pose proof (Hcall t (transport_budget self)) as Hm. cbv zeta.
  destruct (call t _) as [t' r]. destruct (capture_transport_pressure self t') as [self1 pressure].
  destruct r as [progress|source], pressure as [u|e]; try done; [|by intros; simplify_eq].
  specialize (Hm progress eq_refl).
  destruct (validate_transport_progress _ _) as [u'|] eqn:Hv; [|done].
  apply (validated_one _ _ _ Hm) in Hv. intros. by simplify_eq.
Qed.

Lemma single_shutdown now remaining : single (drive_shutdown_once now remaining).
Proof.
  intros [[self heap] t] s' k. unfold drive_shutdown_once.
  destruct (close_request self) as [[why shutdown|]|]; try done.
  destruct shutdown as [|deadline|deadline|]; try done;
    (destruct (is_elapsed_at deadline now); [by intros; simplify_eq|]);
    (destruct (remaining =? 0); [done|]).
  - exact (single_step _ _ _ shutdown_made _ _ _).
  - destruct (tr_is_shutdown_complete t); [done|].
    destruct (tr_has_transport_work t); cbn [negb]; [|done].
    exact (single_step _ _ _ transport_made _ _ _).
Qed.

Lemma single_io remaining (s s' : hosted (D := D) (C := C) (T := T)) k :
  io_step remaining s = (s', Ok (Some k)) → k = 1.
Proof.
  destruct s as [[self heap] [t|]]; unfold io_step.
  - unfold on_transport. destruct (drive_ready_once _ _) as [[s1 t1] r] eqn:Hr. intros [= _ ->].
    by eapply single_ready.
  - destruct (decoder_pending self); [|done].
    destruct (drive_decoder_once _) as [[self1 heap1] [u|]]; [|done]. by intros; simplify_eq.
Qed.

(** ** Loops *)

Lemma deadlines_work fuel now budget work (s s' : owner D C) w :
  work ≤ budget → deadlines_loop fuel now budget work s = (s', Ok w) → work ≤ w ≤ budget.
Proof.
  revert work s. induction fuel as [|fuel IH]; intros work [self heap] Hle; simpl;
    [intros; simplify_eq; lia|].
  destruct (Z.leb_spec budget work); [intros; simplify_eq; lia|].
  assert (∀ (f : M (D := D) (C := C) unit) s1,
    (f ;;! ste_ret (work + 1)) s1 = (s', Ok w) → work ≤ w ≤ budget) as Hone.
  { intros f s1 (? & ? & _ & Hr)%ste_bind_ok_inv. apply answered in Hr. lia. }
  destruct (drain_first self now); [apply Hone|]. destruct (connect_first self now); [apply Hone|].
  destruct (pop_timer self now) as [self1 [event|]]; [|intros; simplify_eq; lia].
  intros ([self2 heap2] & ? & _ & Hr)%ste_bind_ok_inv.
  destruct (close_request self2); [simplify_eq; lia|]. apply IH in Hr; lia.
Qed.

Lemma io_work fuel budget work (s s' : hosted (D := D) (C := C) (T := T)) w :
  work ≤ budget → io_loop fuel budget work s = (s', Ok w) → work ≤ w ≤ budget.
Proof.
  revert work s. induction fuel as [|fuel IH]; intros work [[self heap] t] Hle; simpl;
    [intros; simplify_eq; lia|].
  destruct (Z.ltb_spec work budget); simpl; [|intros; simplify_eq; lia].
  destruct (negb _); [|intros; simplify_eq; lia].
  intros (s1 & [k|] & Hs & Hr)%ste_bind_ok_inv; [|apply answered in Hr; lia].
  apply single_io in Hs as ->. apply IH in Hr; lia.
Qed.

(** [work] never saturates: it stays within the budget. *)
Lemma saturating_one work budget : work < budget → budget ≤ USIZE_MAX → 0 ≤ work →
  usize_saturating_add work 1 = work + 1.
Proof. unfold usize_saturating_add. lia. Qed.

Lemma close_work fuel now budget work (s s' : hosted (D := D) (C := C) (T := T)) w :
  0 ≤ work ≤ budget → budget ≤ USIZE_MAX →
  close_loop fuel now budget work s = (s', Ok w) → work ≤ w ≤ budget.
Proof.
  intros Hle Hmax. revert work s Hle. induction fuel as [|fuel IH]; intros work [[self heap] [t|]] Hle;
    simpl; try (intros; simplify_eq; lia).
  destruct (Z.ltb_spec work budget); [|intros; simplify_eq; lia].
  unfold on_transport. destruct (drive_shutdown_once _ _ _) as [[s1 t1] [[k|]|e]] eqn:Hs;
    [|intros; simplify_eq; lia|done].
  apply single_shutdown in Hs as ->. rewrite (saturating_one _ budget) by lia.
  intros Hr%IH; lia.
Qed.

Lemma deadlines_fuel fuel fuel' now budget work (s : owner D C) :
  budget - work ≤ Z.of_nat fuel → budget - work ≤ Z.of_nat fuel' →
  deadlines_loop fuel now budget work s = deadlines_loop fuel' now budget work s.
Proof.
  revert fuel' work s. induction fuel as [|fuel IH]; intros [|fuel'] work [self heap] H1 H2;
    simpl; try done; destruct (Z.leb_spec budget work); try done; try lia.
  destruct (drain_first self now); [done|]. destruct (connect_first self now); [done|].
  destruct (pop_timer self now) as [self1 [event|]]; [|done].
  apply ste_bind_ext. intros u [self2 heap2]. destruct (close_request self2); [done|].
  apply IH; lia.
Qed.

Lemma io_fuel fuel fuel' budget work (s : hosted (D := D) (C := C) (T := T)) :
  budget - work ≤ Z.of_nat fuel → budget - work ≤ Z.of_nat fuel' →
  io_loop fuel budget work s = io_loop fuel' budget work s.
Proof.
  revert fuel' work s. induction fuel as [|fuel IH]; intros [|fuel'] work [[self heap] t] H1 H2;
    simpl; try done; destruct (Z.ltb_spec work budget); simpl; try done; try lia.
  destruct (negb _); [|done]. unfold ste_bind.
  destruct (io_step _ _) as [s1 [[k|]|e]] eqn:Hs; [|done|done].
  apply single_io in Hs as ->. apply IH; lia.
Qed.

Lemma close_fuel fuel fuel' now budget work (s : hosted (D := D) (C := C) (T := T)) :
  0 ≤ work → budget ≤ USIZE_MAX →
  budget - work ≤ Z.of_nat fuel → budget - work ≤ Z.of_nat fuel' →
  close_loop fuel now budget work s = close_loop fuel' now budget work s.
Proof.
  intros Hw Hmax. revert fuel' work s Hw.
  induction fuel as [|fuel IH]; intros [|fuel'] work [[self heap] [t|]] Hw H1 H2;
    simpl; try done; destruct (Z.ltb_spec work budget); try done; try lia.
  unfold on_transport. destruct (drive_shutdown_once _ _ _) as [[s1 t1] [[k|]|e]] eqn:Hs; try done.
  apply single_shutdown in Hs as ->. rewrite (saturating_one _ budget) by lia. apply IH; lia.
Qed.

(** The loops of a quantum end by themselves: however much more fuel the
    deadline, I/O and shutdown loops are given, they do the same. *)
Theorem quantum_loops_end now budget work extra :
  0 ≤ work → budget ≤ USIZE_MAX →
  (∀ s : owner D C, deadlines_loop (Z.to_nat budget + extra) now budget 0 s =
     drive_deadlines now budget s) ∧
  (∀ s : hosted (D := D) (C := C) (T := T), io_loop (Z.to_nat budget + extra) budget 0 s =
     io_loop (Z.to_nat budget) budget 0 s) ∧
  (∀ s : hosted (D := D) (C := C) (T := T),
     close_loop (Z.to_nat (budget - work) + extra) now budget work s =
     close_loop (Z.to_nat (budget - work)) now budget work s).
Proof.
  intros Hw Hmax. split; [|split]; intros s.
  - apply deadlines_fuel; lia.
  - apply io_fuel; lia.
  - apply close_fuel; lia.
Qed.

(** ** The quantum *)

Definition bounded (budget : Z) (p : SlotProgress.t) : Prop :=
  0 ≤ SlotProgress.work p ≤ budget ∧
  (SlotProgress.saturated p = true → SlotProgress.work p = budget).

Lemma close_quantum_bounded now budget work (s s' : hosted (D := D) (C := C) (T := T)) p :
  0 ≤ work ≤ budget → budget ≤ USIZE_MAX →
  drive_close_quantum now budget work s = (s', Ok p) → bounded budget p.
Proof.
  intros Hle Hmax ([[self heap] t] & w & Hl & Hr)%ste_bind_ok_inv. simplify_eq.
  apply close_work in Hl; [|lia..]. split; simpl; [lia|].
  by intros [?%Z.eqb_eq _]%andb_true_iff.
Qed.

Lemma drive_io_bounded budget (s s' : hosted (D := D) (C := C) (T := T)) p :
  0 ≤ budget → drive_io budget s = (s', Ok p) → bounded budget p.
Proof.
  intros Hle ([[self heap] t] & w & Hl & Hr)%ste_bind_ok_inv. simplify_eq.
  apply io_work in Hl; [|lia]. split; simpl; [lia|].
  rewrite !andb_true_iff. by intros [[?%Z.eqb_eq _] _].
Qed.

Lemma after_deadlines_bounded now budget work (s s' : hosted (D := D) (C := C) (T := T)) p :
  0 ≤ work ≤ budget → budget ≤ USIZE_MAX →
  after_deadlines now budget work s = (s', Ok p) → bounded budget p.
Proof.
  intros Hle Hmax. destruct s as [[self heap] t]. unfold after_deadlines.
  destruct (bool_decide _); [by apply close_quantum_bounded|].
  destruct (Z.eqb_spec work budget) as [->|Hne]; [by intros; simplify_eq|].
  intros ([[self1 heap1] t1] & io & Hio & Hr)%ste_bind_ok_inv.
  apply drive_io_bounded in Hio as [Hw Hs]; [|lia].
  assert (usize_saturating_add work (SlotProgress.work io) = work + SlotProgress.work io) as Heq
    by (unfold usize_saturating_add; lia).
  rewrite Heq in Hr. destruct (bool_decide _).
  - apply close_quantum_bounded in Hr; [done|lia..].
  - simplify_eq. split; simpl; [lia|]. intros ->%Hs. lia.
Qed.

(** A quantum does at most the work its slot is budgeted, on any state and
    any transport, and reports itself saturated only when the whole budget is
    spent. *)
Theorem quantum_bounded now (s s' : hosted (D := D) (C := C) (T := T)) p :
  1 ≤ io_budget s.1.1 ≤ USIZE_MAX → drive_quantum now s = (s', Ok p) →
  0 ≤ SlotProgress.work p ≤ io_budget s.1.1 ∧
  (SlotProgress.saturated p = true → SlotProgress.work p = io_budget s.1.1).
Proof.
  destruct s as [[self heap] t]. cbn [fst]. intros Hb. unfold drive_quantum.
  destruct (ensure_running self); [|done].
  destruct (drive_quantum_inner _ _) as [[[self' heap'] t'] [p'|e]] eqn:Hin; [|done].
  intros [= _ <-]. revert Hin. unfold drive_quantum_inner. cbv zeta.
  intros (s1 & ? & _ & Hr)%ste_bind_ok_inv. apply ste_bind_ok_inv in Hr as (s2 & w & Hw & Hr).
  apply (after_deadlines_bounded now (io_budget self) w s2 _ p') in Hr; [exact Hr| |lia].
  destruct s1 as [[self1 heap1] t1]. destruct (close_request self1); [simplify_eq; lia|].
  unfold on_owner in Hw. destruct (drive_deadlines _ _ _) as [s3 r] eqn:Hd. simplify_eq.
  apply deadlines_work in Hd; lia.
Qed.

(** ** A failed slot *)

(** A slot that latched a failure refuses every call with that failure and
    is left as it was, heap and transport included; a later error never
    replaces the first one. *)
Theorem failed_slot_refuses (s : owner D C) why :
  EngineState.failure (state s.1) = Some why →
  (∀ now options, reserve now options s = (s, Err ReserveError.OwnerPoisoned)) ∧
  (∀ p frame, commit p frame s = (s, Err (EngineCommitError.OwnerFailed why p frame))) ∧
  open_admission s = (s, Err (EngineError.OwnerFailed why)) ∧
  (∀ operation, cancel operation s = (s, Err (EngineError.OwnerFailed why))) ∧
  (∀ deadline, begin_drain deadline s = (s, Err (EngineError.OwnerFailed why))) ∧
  (∀ reason, finalize reason s = (s, Err (EngineError.OwnerFailed why))) ∧
  (∀ now (t : option T), drive_quantum now (s, t) = (s, t, Err (EngineError.OwnerFailed why))) ∧
  (∀ error, latch_failure s.1 error = s.1) ∧
  (∀ other, latch_owner_failure s.1 other = s.1).
Proof.
  destruct s as [self heap]. cbn [fst]. intros Hf.
  assert (ensure_running self = Err (EngineError.OwnerFailed why)) as He
    by (unfold ensure_running; by rewrite Hf).
  unfold reserve, commit, open_admission, cancel, begin_drain, finalize, latched, drive_quantum.
  unfold latch_failure, latch_owner_failure. rewrite Hf, He. by split_and!.
Qed.

End quantum_theorems.
End QuantumTheorems.
