(* ===== verification/HostSample.v ===== *)
(** * A concrete host

    [host_lists] implements the third-party parts of [Host] by lists, and
    satisfies [HostLaws]; a byte-per-frame protocol and a transport that is an
    in-memory pipe complete it. The theorems about the slot are instantiated
    and evaluated here. *)
From Stdlib Require Import ZArith Lia.
From Stdlib Require Strings.Byte.
From stdpp Require Import prelude.
From S2P Require Import Prelude External Host Identity Limits Admission Ledger Operation Permit.
From S2P Require Import Write Framing Machine Core Recovery Reference CoreView Sample.
From S2P Require Import Config Transport SlotData Slot Drive SlotSpec SlotCalls DriveSpec.
From S2P Require Import QuantumSpec SlotSystem.

Module HostLists.

#[export] Existing Instance calandria_u64.
#[export] Existing Instance calandria_u64_laws.

(** A batch is its bounds and its values. *)
Definition batch (A : Type) : Type := (Z * Z) * list A.

Definition fits {A : Type} `{!Retained A} (q : batch A) (a : A) : bool :=
  (Z.of_nat (length q.2) <? q.1.1) &&
  (zsum (λ x, u64_val (retained_bytes x)) (q.2 ++ [a]) <=? q.1.2).

Definition push {A : Type} `{!Retained A} (q : batch A) (a : A)
    : batch A * result unit (A * unit) :=
  if fits q a then ((q.1, q.2 ++ [a]), Ok tt) else (q, Err (a, tt)).

(** A queue is its bounds and its armed entries. *)
Definition queue (A : Type) : Type := (Z * Z) * list (Z * Z * A).

(** A token no armed entry has. *)
Definition fresh {A : Type} (q : queue A) : Z := foldr (λ e m, Z.max (e.1.1 + 1) m) 0 q.2.

Definition schedule {A : Type} `{!Retained A} (q : queue A) (d : Z) (a : A)
    : queue A * result Z unit :=
  if (Z.of_nat (length q.2) <? q.1.1) && (u64_val (retained_bytes a) <=? Z.max 0 q.1.2)
  then ((q.1, q.2 ++ [(fresh q, d, a)]), Ok (fresh q))
  else (q, Err tt).

Definition earliest {A : Type} (q : queue A) : option Z :=
  match q.2 with
  | [] => None
  | e :: l => Some (foldr (λ e m, Z.min e.1.2 m) e.1.2 l)
  end.

(** The first entry that elapsed, and the queue without it. *)
Fixpoint pop {A : Type} (now : Z) (l : list (Z * Z * A)) : option ((Z * Z * A) * list (Z * Z * A)) :=
  match l with
  | [] => None
  | e :: l =>
      if e.1.2 <=? now then Some (e, l)
      else match pop now l with Some (e', l) => Some (e', e :: l) | None => None end
  end.

Definition pop_due {A : Type} (q : queue A) (now : Z) : queue A * option (Z * A) :=
  match pop now q.2 with
  | Some (e, l) => ((q.1, l), Some (e.1.1, e.2))
  | None => (q, None)
  end.

#[export] Instance host_lists : Host := {
  deadline_leb a b := a <=? b;
  EventBatchLimits := Z * Z;
  batch_limits_new n b := (nonzero_get n, u64_val b);
  EventBatchFailure := unit;
  EventBatch := batch;
  batch_new A limits := (limits, []);
  batch_try_push A _ q a := push q a;
  batch_drain A q := ((q.1, []), q.2);
  batch_len A q := Z.of_nat (length q.2);
  TimerOwnerId := unit;
  TimerToken := Z;
  timer_token_eqb := Z.eqb;
  TimerLimits := Z * Z;
  timer_limits_new n b := (nonzero_get n, u64_val b);
  TimerScheduleFailure := unit;
  TimerQueue := queue;
  timers_new A _ limits := (limits, []);
  timers_schedule A _ q d a := schedule q d a;
  timers_cancel A q token := (q.1, List.filter (λ e, negb (e.1.1 =? token)) q.2);
  timers_next_deadline A q := earliest q;
  timers_pop_due A q now := pop_due q now;
  timers_len A q := Z.of_nat (length q.2);
  Interest := bool;
  Span := Z;
  span_as_nanos s := s;
  SocketAddr := unit;
  ResourceOwnerId := unit;
  MioError := unit;
  Bytes := list Byte.byte;
  bytes_deref b := b;
  bytes_copy_from_slice l := l;
}.

Lemma fresh_above {A : Type} (l : list (Z * Z * A)) e m :
  e ∈ l → e.1.1 < foldr (λ e m, Z.max (e.1.1 + 1) m) m l.
Proof. induction 1; simpl; lia. Qed.

Lemma pop_some {A : Type} now (l : list (Z * Z * A)) e l' :
  pop now l = Some (e, l') → l ≡ₚ e :: l' ∧ e.1.2 ≤ now.
Proof.
  revert l'. induction l as [|x l IH]; intros l'; simpl; [done|].
  destruct (Z.leb_spec x.1.2 now); [by intros [= <- <-]|].
  destruct (pop now l) as [[y l1]|]; [|done]. intros [= <- <-].
  destruct (IH l1 eq_refl) as [-> ?]. split; [constructor|done].
Qed.

Lemma pop_none {A : Type} now (l : list (Z * Z * A)) :
  pop now l = None → Forall (λ e, (e.1.2 <=? now) = false) l.
Proof.
  induction l as [|x l IH]; simpl; [constructor|].
  destruct (x.1.2 <=? now) eqn:Hx; [done|]. destruct (pop now l) as [[]|]; [done|].
  constructor; auto.
Qed.

#[export] Instance host_lists_laws : HostLaws host_lists.
Proof.
  unshelve refine {|
    batch_items A q := snd (q : batch A); batch_bound A q := fst (q : batch A);
    timer_entries A q := snd (q : queue A); timer_bound A q := (fst (q : queue A)).1 |};
    try done; simpl.
  - intros A R [[n b] l] a Hn Hb. exists ((n, b), l ++ [a]). unfold push, fits. simpl in *.
    rewrite (proj2 (Z.ltb_lt _ _) Hn), (proj2 (Z.leb_le _ _) Hb). done.
  - intros A R q a. unfold push. destruct (fits q a); [left|right; by exists tt].
    by exists (q.1, q.2 ++ [a]).
  - apply Z.eqb_eq.
  - intros A R [[n b] l] d a Hn Ha. unfold schedule. simpl in *. rewrite Ha.
    rewrite (proj2 (Z.ltb_lt _ _) Hn), (proj2 (Z.leb_le 0 _)) by lia. eexists _, _.
    split; [reflexivity|]. simpl. split; [by rewrite Permutation_app_comm|]. split; [|done].
    intros Hin. rewrite <- list_fmap_compose in Hin.
    apply list_elem_of_fmap in Hin as (e & He & Hin). apply (fresh_above l e 0) in Hin.
    unfold fresh in He. simpl in *. lia.
  - intros A q q' now token a. unfold pop_due.
    destruct (pop now q.2) as [[[[k d] x] l]|] eqn:Hp; [|done]. intros [= <- <- <-].
    apply pop_some in Hp as [Hl Hd]. exists d. split; [exact Hl|]. split; [|done].
    by apply Z.leb_le.
  - intros A q q' now. unfold pop_due. destruct (pop now q.2) as [[]|] eqn:Hp; [done|].
    intros [= <-]. apply pop_none in Hp. done.
Defined.

Lemma least_of_all l d (m : Z) :
  d ∈ l ∨ d = m → foldr Z.min m l ≤ d ∧ (foldr Z.min m l ∈ l ∨ foldr Z.min m l = m).
Proof.
  revert d. induction l as [|x l IH]; intros d Hd; simpl.
  { destruct Hd as [Hd| ->]; [by apply elem_of_nil in Hd|]. split; [lia|by right]. }
  split.
  - destruct Hd as [[-> |Hd]%elem_of_cons| ->]; [lia| |];
      [destruct (IH d (or_introl Hd))|destruct (IH m (or_intror eq_refl))]; lia.
  - destruct (Z.min_dec x (foldr Z.min m l)) as [->| ->]; [left; left|].
    destruct (IH m (or_intror eq_refl)) as [_ [Hin| ->]]; [left; by right|by right].
Qed.

#[export] Instance host_lists_deadlines : DeadlineLaws host_lists.
Proof.
  split; simpl.
  - intros a b. rewrite !Z.leb_le. lia.
  - intros a b c. rewrite !Z.leb_le. lia.
  - intros a b m. rewrite !Z.leb_le. lia.
  - intros A [b [|e l]]; done.
  - intros A [b [|e l]] d; [done|]. intros [= <-]. simpl.
    set (f := λ (x : Z * Z * A) m, Z.min x.1.2 m).
    assert (foldr f e.1.2 l = foldr Z.min e.1.2 (l.*1.*2)) as ->
      by (induction l as [|x l IH]; [done|]; simpl; by rewrite IH).
    destruct (least_of_all (l.*1.*2) e.1.2 e.1.2 (or_intror eq_refl)) as [Hle Hin]. split.
    + destruct Hin as [Hin| ->]; [by right|by left].
    + constructor; [by apply Z.leb_le|]. apply Forall_forall. intros x Hx. apply Z.leb_le.
      apply least_of_all. left. by do 2 apply list_elem_of_fmap_2.
Qed.

End HostLists.

Module SlotSample.

Import HostLists.

#[export] Existing Instance bytebudget_u64.
#[export] Existing Instance bytebudget_u64_laws.
#[export] Existing Instance Sample.build.

(** Every byte is a frame, and a frame's byte is the key of its reply. *)
#[export] Instance byte_decoder : FrameDecoder (list Byte.byte) := {
  Frame := Byte.byte;
  Error := unit;
  decoder_feed d bytes := (d ++ bytes, Ok tt);
  decoder_next_frame d := match d with [] => ([], Ok None) | b :: d => (d, Ok (Some b)) end;
  decoder_retained_bytes d := u64_of (Z.of_nat (length d));
}.

#[export] Instance byte_retained : Retained Byte.byte := λ _, u64_of 1.

#[export] Instance byte_classifier : InboundClassifier Byte.byte unit := {
  ClassifierError := unit;
  reply_key c b := (c, Ok (MatchKey.new (Z.of_N (Strings.Byte.to_N b))));
}.

(** An in-memory pipe. A faulty one claims to have read more than it was asked
    for. *)
Record pipe : Type := mk_pipe {
  opened : bool;
  faulty : bool;
  incoming : list Byte.byte;
  outgoing : list Byte.byte;
}.

Definition pipe_read (p : pipe) (b : list Byte.byte) : pipe * list Byte.byte * result Z IoError.t :=
  match incoming p with
  | [] => (p, b, Err (IoError.new ErrorKind.WouldBlock None))
  | _ =>
      let n := Nat.min (length b) (length (incoming p)) in
      (mk_pipe (opened p) (faulty p) (drop n (incoming p)) (outgoing p),
       take n (incoming p) ++ drop n b,
       Ok (if faulty p then Z.of_nat (length b) + 1 else Z.of_nat n))
  end.

#[export] Instance pipe_transport : SlotTransport pipe := {
  tr_read := pipe_read;
  tr_write p b := (mk_pipe (opened p) (faulty p) (incoming p) (outgoing p ++ b),
    Ok (Z.of_nat (length b)));
  tr_drive_establishment p _ _ :=
    (mk_pipe true (faulty p) (incoming p) (outgoing p), Ok TransportProgress.operation);
  tr_drive_transport p _ := (p, Ok TransportProgress.operation);
  tr_begin_shutdown p _ :=
    (mk_pipe false (faulty p) (incoming p) (outgoing p), Ok TransportProgress.operation);
  tr_can_establish p := negb (opened p);
  tr_has_transport_work _ := false;
  tr_is_shutdown_complete p := negb (opened p);
  tr_is_open := opened;
  tr_can_read p := match incoming p with [] => false | _ => opened p end;
  tr_can_write := opened;
  tr_desired_interest _ pending := pending;
  tr_pressure _ := TransportPressure.ZERO;
  tr_pressure_limit _ := TransportLimits.new (u64_of 16);
  tr_clear_read p := p;
  tr_clear_write p := p;
}.

#[export] Instance pipe_typing : TransportTyping pipe_transport.
Proof. split; intros; simpl in *; simplify_eq; by right. Qed.

(** Any pipe is a transport; one that is not faulty can be trusted. *)
Definition trustworthy (trusted : bool) (p : pipe) : Prop := trusted = true → faulty p = false.

Lemma pipe_contract trusted :
  TransportContract pipe_transport trusted (u64_of 16) (trustworthy trusted).
Proof.
  split; simpl; try done; unfold trustworthy.
  - intros p b Hp. unfold pipe_read. by destruct (incoming p).
  - intros p b n _ [= <-]. lia.
  - intros Htr p b n Hp. unfold pipe_read. destruct (incoming p); [done|]. cbn [snd].
    rewrite (Hp Htr). intros [= <-]. simpl. lia.
  - intros _ t p [[o] [r] [w]] x _ (H1 & H2 & H3) _ [= <-]. simpl in *. split; [|done].
    unfold TransportProgress.fits. simpl. by rewrite !(proj2 (Z.leb_le _ _)) by lia.
  - intros _ t [[o] [r] [w]] x _ (H1 & H2 & H3) [= <-]. simpl in *. split; [|done].
    unfold TransportProgress.fits. simpl. by rewrite !(proj2 (Z.leb_le _ _)) by lia.
Qed.

(** Two operations, replies and decoder state of eight bytes, three units of
    work of four bytes per quantum, and four lifecycle events. *)
Definition bounds : result ConnectionSlotLimits.t ConnectionSlotLimitsError.t :=
  ConnectionSlotLimits.new Sample.limits (DecoderLimits.new (u64_of 8) (u64_of 8))
    (IoLimits.new (mk_nonzero 3) (mk_nonzero 4)) (TransportLimits.new (u64_of 32))
    (PublicationLimits.new (mk_nonzero 4)).

Definition limits : ConnectionSlotLimits.t :=
  ConnectionSlotLimits.mk Sample.limits (DecoderLimits.new (u64_of 8) (u64_of 8))
    (IoLimits.new (mk_nonzero 3) (mk_nonzero 4)) (TransportLimits.new (u64_of 32))
    (PublicationLimits.new (mk_nonzero 4)) (u64_of 16) (mk_nonzero 2).

Lemma bounds_limits : bounds = Ok limits.
Proof. unfold bounds, limits, ConnectionSlotLimits.new. simpl. do 3 f_equal. Qed.

Lemma limits_valid : Hosted.valid_limits limits.
Proof.
  eapply Hosted.slot_limits_new_valid; [apply Sample.limits_are_valid| | | |exact bounds_limits];
    simpl; lia.
Qed.

Lemma limits_room : rb_get (u64_of 16) ≤ rb_get (ConnectionSlotLimits.transport_retained_bytes limits).
Proof. vm_compute. discriminate. Qed.

Definition config : ConnectionSlotConfig.t :=
  ConnectionSlotConfig.new
    (ConnectionIdentity.new (EndpointId.new 0) (LaneId.new 0) (ConnectionId.new 0) Sample.epoch)
    (20 : Deadline) tt.

Definition world : Type := SlotSystem.world (list Byte.byte) unit pipe.

Definition fresh_pipe (faulty : bool) : pipe := mk_pipe false faulty [] [].

(** A new slot over a fresh pipe. *)
Definition init (faulty : bool) : option world :=
  SlotSystem.start config limits [] tt Sample.ledger Sample.heap (Some (fresh_pipe faulty)).

Definition hello : OutboundFrame.t := OutboundFrame.mk [Byte.x68; Byte.x69] (u64_of 2).

(** The transport opens, admission opens, one operation is reserved and
    committed, its frame is written, its reply arrives and is decoded. *)
Definition script (faulty : bool) : list (SlotSystem.command pipe) :=
  [ SlotSystem.DriveQuantum (1 : Moment);
    SlotSystem.OpenAdmission;
    SlotSystem.Reserve (1 : Moment) Sample.regular;
    SlotSystem.Commit 0 hello;
    SlotSystem.Reserve (1 : Moment) Sample.notify;
    SlotSystem.Commit 0 hello;
    SlotSystem.DriveQuantum (2 : Moment);
    SlotSystem.Readiness (Some (mk_pipe true faulty [Byte.x05] []));
    SlotSystem.DriveQuantum (3 : Moment);
    SlotSystem.DrainOutcomes ].

Fixpoint run (w : world) (cs : list (SlotSystem.command pipe)) : world :=
  match cs with [] => w | c :: cs => run (SlotSystem.exec w c) cs end.

(** A new slot exists. *)
Definition created (faulty : bool) : { w : world | init faulty = Some w }.
Proof. eexists. reflexivity. Defined.

Definition initial (faulty : bool) : world := proj1_sig (created faulty).

Lemma initial_start faulty : init faulty = Some (initial faulty).
Proof. exact (proj2_sig (created faulty)). Qed.

(** A command is admissible, decided. *)
Definition admissible_b (trusted : bool) (w : world) (c : SlotSystem.command pipe) : bool :=
  match c with
  | SlotSystem.Commit _ frame => Z.of_nat (length (frame_bytes frame)) <=? USIZE_MAX
  | SlotSystem.Finalize reason => negb (bool_decide (reason = CloseReason.Drained))
  | SlotSystem.Readiness (Some p) =>
      negb trusted
      || negb (faulty p)
         && (negb (ConnectionSlot.is_connecting (SlotSystem.slot w).1) || negb (opened p))
  | _ => true
  end.

Lemma slot_admissible_b_sound trusted w c :
  admissible_b trusted w c = true → SlotSystem.admissible trusted (trustworthy trusted) w c.
Proof.
  destruct c as [| |i frame| | | |reason| | | | |[p|]]; simpl; try done.
  - apply Z.leb_le.
  - rewrite negb_true_iff. apply bool_decide_eq_false.
  - unfold trustworthy, DriveSpec.unopened. destruct trusted; simpl; [|done].
    intros [Hf%negb_true_iff Ho]%andb_true_iff. split; [done|]. intros _ Hc. rewrite Hc in Ho.
    by apply negb_true_iff in Ho.
Qed.

Fixpoint admissible_all (trusted : bool) (w : world) (cs : list (SlotSystem.command pipe)) : bool :=
  match cs with
  | [] => true
  | c :: cs => admissible_b trusted w c && admissible_all trusted (SlotSystem.exec w c) cs
  end.

Lemma slot_run_reachable trusted w0 w cs :
  SlotSystem.reachable trusted (trustworthy trusted) w0 w → admissible_all trusted w cs = true →
  SlotSystem.reachable trusted (trustworthy trusted) w0 (run w cs).
Proof.
  revert w. induction cs as [|c cs IH]; intros w Hr Hc; simpl in *; [done|].
  apply andb_true_iff in Hc as [Ha Hc]. apply IH; [|done].
  apply SlotSystem.reachable_step; [done|]. by apply slot_admissible_b_sound.
Qed.

(** The same run, counting its overdue quanta. *)
Fixpoint wakes (k : nat) (w : world) (cs : list (SlotSystem.command pipe)) : nat :=
  match cs with
  | [] => k
  | c :: cs => wakes (SlotSystem.overdue w c + k) (SlotSystem.exec w c) cs
  end.

Lemma slot_run_waking trusted w0 k w cs :
  SlotSystem.waking trusted (trustworthy trusted) w0 k w → admissible_all trusted w cs = true →
  SlotSystem.waking trusted (trustworthy trusted) w0 (wakes k w cs) (run w cs).
Proof.
  revert k w. induction cs as [|c cs IH]; intros k w Hr Hc; simpl in *; [done|].
  apply andb_true_iff in Hc as [Ha Hc]. apply IH; [|done].
  apply SlotSystem.waking_step; [done|]. by apply slot_admissible_b_sound.
Qed.

(** The script run by a slot over an honest and over a faulty pipe. *)
Definition served : world := run (initial false) (script false).
Definition betrayed : world := run (initial true) (script true).

Lemma served_reachable : SlotSystem.reachable true (trustworthy true) (initial false) served.
Proof. apply slot_run_reachable; [constructor|]. vm_compute. reflexivity. Qed.

Lemma betrayed_reachable : SlotSystem.reachable false (trustworthy false) (initial true) betrayed.
Proof. apply slot_run_reachable; [constructor|]. vm_compute. reflexivity. Qed.

End SlotSample.
