(* ===== verification/SlotWitnesses.v ===== *)
(** * The slot theorems at work

    Each theorem about slots applied to a concrete run: the script of
    [HostSample] over an honest pipe, over a faulty one, and cut short while
    two operations are in flight. *)
From Stdlib Require Import ZArith Lia.
From stdpp Require Import prelude.
From S2P Require Import Prelude External Host Identity Limits Admission Ledger Operation Permit.
From S2P Require Import Write Framing Machine Core Recovery Reference CoreView Sample.
From S2P Require Import Config Transport SlotData Slot Drive SlotSpec SlotCalls DriveSpec.
From S2P Require Import QuantumSpec SlotSystem SlotTheorems HostSample.

Module SlotWitnesses.

Import Hosted SlotCalls ConnectionSlot SlotSystem SlotTheorems QuantumTheorems.
Import HostLists SlotSample.

(** Both operations committed, neither answered. *)
Definition in_flight : SlotSample.world := run (initial false) (take 6 (script false)).

Lemma in_flight_reachable : reachable true (trustworthy true) (initial false) in_flight.
Proof. apply slot_run_reachable; [constructor|]. vm_compute. reflexivity. Qed.

(** A theorem about the runs of the slot over an honest pipe, and a faulty one. *)
Local Notation honestly thm :=
  (thm limits limits_valid config ([] : list Byte.byte) tt Sample.ledger Sample.heap true
     (u64_of 16) (trustworthy true) (fresh_pipe false) (pipe_contract true) (λ _, limits_room)
     (λ _, eq_refl) (λ _, eq_refl) (initial false) (initial_start false)) (only parsing).

Local Notation faultily thm :=
  (thm limits limits_valid config ([] : list Byte.byte) tt Sample.ledger Sample.heap false
     (u64_of 16) (trustworthy false) (fresh_pipe true) (pipe_contract false) (λ _, limits_room)
     (λ e, match Bool.diff_false_true e with end) (λ _, eq_refl) (initial true)
     (initial_start true)) (only parsing).

Lemma slot_never_fails_witness :
  accepted (log served) = [OperationId.new 0; OperationId.new 1] ∧
  ∀ now, ∃ s p, Drive.drive_quantum now (slot served, port served) = (s, Ok p).
Proof.
  split; [vm_compute; reflexivity|].
  exact (proj1 (proj2 (honestly slot_never_fails served eq_refl served_reachable))).
Defined.

(** The run over the faulty pipe up to the quantum that fails. *)
Definition trusting : SlotSample.world := run (initial true) (take 8 (script true)).

Lemma trusting_reachable :
  SlotSystem.reachable false (trustworthy false) (initial true) trusting.
Proof. apply slot_run_reachable; [constructor|]. vm_compute. reflexivity. Qed.

Definition late : @Moment calandria_u64 := 3.

Lemma slot_blames_transport_witness :
  ∃ e, (Drive.drive_quantum late (slot trusting, port trusting)).2 = Err e ∧
    DriveSpec.blames e ∧
    EngineState.failure (state (slot (exec trusting (DriveQuantum late))).1) =
      Some OwnerFailure.OwnerInvariant.
Proof.
  assert (EngineState.failure (state (slot trusting).1) = None) as Hrun
    by (vm_compute; reflexivity).
  assert (match (Drive.drive_quantum late (slot trusting, port trusting)).2 with
          | Ok _ => false | Err _ => true end = true) as Herr by (vm_compute; reflexivity).
  pose proof (faultily slot_blames_transport trusting (DriveQuantum late)
    trusting_reachable I) as Hb. cbv zeta in Hb. rewrite Hrun in Hb.
  destruct ((Drive.drive_quantum late (slot trusting, port trusting)).2) as [p|e];
    [discriminate Herr|]. exists e. split; [reflexivity|exact Hb].
Defined.

Lemma slot_exactly_once_witness :
  EngineOutcome.operation <$> delivered (log served) = [OperationId.new 1; OperationId.new 0] ∧
  NoDup (accepted (log served)).
Proof.
  split; [vm_compute; reflexivity|].
  exact (proj1 (honestly slot_exactly_once served served_reachable)).
Defined.

Lemma slot_events_in_order_witness :
  event_sequence (slot served).1 = 2 ∧
  ∃ opened admitted, observed (log served) ++ batch_items (lifecycle (slot served).1) =
    numbered Sample.epoch (edges opened admitted (view (slot served))).
Proof.
  split; [vm_compute; reflexivity|].
  destruct (honestly slot_events_in_order served served_reachable) as (o & a & Hlog & _).
  exists o, a. exact Hlog.
Defined.

Lemma slot_deadlines_armed_witness :
  length (deadlines (slot in_flight).1) = 2%nat ∧
  NoDup ((λ e, DeadlineEvent.operation e.2) <$> timer_entries (timers (slot in_flight).1)).
Proof.
  split; [vm_compute; reflexivity|].
  exact (proj2 (proj2 (honestly slot_deadlines_armed in_flight in_flight_reachable
    ltac:(vm_compute; reflexivity)))).
Defined.

(** The deadlines of both operations elapse in one quantum, and that of the
    shutdown in another. *)
Definition overdue_script : list (SlotSystem.command pipe) :=
  take 6 (script false) ++
  [ SlotSystem.DriveQuantum (10 : Moment);
    SlotSystem.BeginDrain (20 : Deadline);
    SlotSystem.DriveQuantum (20 : Moment) ].

Lemma overdue_waking :
  waking true (trustworthy true) (initial false) (wakes 0 (initial false) overdue_script)
    (run (initial false) overdue_script).
Proof. apply slot_run_waking; [constructor|]. vm_compute. reflexivity. Qed.

Lemma slot_deadlines_spent_witness :
  wakes 0 (initial false) overdue_script = 2%nat ∧
  (wakes 0 (initial false) overdue_script +
    Hosted.awaits (view (slot (run (initial false) overdue_script)))
      (slot (run (initial false) overdue_script)).1 ≤
    3 + length (accepted (log (run (initial false) overdue_script))))%nat.
Proof.
  split; [vm_compute; reflexivity|].
  exact (honestly slot_deadlines_spent _ _ eq_refl overdue_waking).
Defined.

Lemma slot_finalize_settles_witness :
  length (deadlines (slot in_flight).1) = 2%nat ∧
  ∃ s d s', finalize CloseReason.Requested (slot in_flight) = (s, Ok d) ∧
    settle_transport_closed s = (s', true).
Proof.
  split; [vm_compute; reflexivity|].
  destruct (honestly slot_finalize_settles in_flight CloseReason.Requested in_flight_reachable
    ltac:(vm_compute; reflexivity) ltac:(discriminate) ltac:(vm_compute; discriminate))
    as (s & d & s' & H1 & H2 & _).
  exists s, d, s'. exact (conj H1 H2).
Defined.

Lemma slot_recovers_all_witness :
  length (RecoveryReport.operations (recover OwnerFailure.OwnerInvariant (slot betrayed)).2) = 1%nat
  ∧ RecoveryReport.unmatched_writes
      (recover OwnerFailure.OwnerInvariant (slot betrayed)).2 = [].
Proof.
  split; [vm_compute; reflexivity|].
  pose proof (faultily slot_recovers_all betrayed OwnerFailure.OwnerInvariant betrayed_reachable)
    as Hr.
  destruct (recover _ _) as [s report]. exact (proj1 (proj2 (proj2 (proj2 Hr)))).
Defined.

Lemma quantum_loops_end_witness :
  0 ≤ 1 ∧ ∀ s : owner (list Byte.byte) unit,
    Drive.deadlines_loop (Z.to_nat 3 + 5) (4 : Moment) 3 0 s =
    Drive.drive_deadlines (4 : Moment) 3 s.
Proof.
  split; [lia|].
  exact (proj1 (quantum_loops_end (TP := pipe_transport) (4 : Moment) 3 1 5 ltac:(lia)
    ltac:(unfold USIZE_MAX; lia))).
Defined.

(** The quantum in which both frames are written. *)
Lemma quantum_bounded_witness :
  match Drive.drive_quantum (2 : Moment) (slot in_flight, port in_flight) with
  | (_, Ok p) => SlotProgress.work p
  | (_, Err _) => 0
  end = 2 ∧
  match Drive.drive_quantum (2 : Moment) (slot in_flight, port in_flight) with
  | (_, Ok p) => 0 ≤ SlotProgress.work p ≤ 3
  | (_, Err _) => False
  end.
Proof.
  split; [vm_compute; reflexivity|].
  destruct (Drive.drive_quantum _ _) as [s' [p|e]] eqn:Hq.
  - exact (proj1 (quantum_bounded _ (slot in_flight, port in_flight) s' p
      ltac:(vm_compute; split; discriminate) Hq)).
  - assert (match Drive.drive_quantum (2 : Moment) (slot in_flight, port in_flight) with
      | (_, Ok p) => true | (_, Err _) => false end = true) as Hok by (vm_compute; reflexivity).
    rewrite Hq in Hok. discriminate.
Defined.

Lemma failed_slot_refuses_witness :
  EngineState.failure (state (slot betrayed).1) = Some OwnerFailure.OwnerInvariant ∧
  open_admission (slot betrayed) =
    (slot betrayed, Err (EngineError.OwnerFailed OwnerFailure.OwnerInvariant)).
Proof.
  split; [vm_compute; reflexivity|].
  exact (proj1 (proj2 (proj2 (failed_slot_refuses (TP := pipe_transport) (slot betrayed)
    OwnerFailure.OwnerInvariant ltac:(vm_compute; reflexivity))))).
Defined.

(** The transport is open and nothing was drained. *)
Lemma finalize_drained_latches_witness :
  transport_state (slot in_flight).1 = TransportState.Open ∧
  ∃ s, finalize CloseReason.Drained (slot in_flight) =
    (s, Err (EngineError.Invariant EngineInvariant.MissingShutdownDeadline)).
Proof.
  split; [vm_compute; reflexivity|].
  destruct (honestly finalize_drained_latches in_flight in_flight_reachable
    ltac:(vm_compute; reflexivity) ltac:(vm_compute; reflexivity) ltac:(vm_compute; reflexivity)
    ltac:(vm_compute; reflexivity)) as (s & Hr & _).
  exists s. exact Hr.
Defined.

End SlotWitnesses.
