(* ===== verification/SetHost.v ===== *)
(** * What hosts a connection set

    The parts of [calandria], [calandria-mio] and [mio] a connection set is
    built on: the generation-fenced resource table, the command mailbox, the
    selector and its batch of readiness events, the answer of a turn. They are
    parameters; [SetHostLaws] is the behaviour the code relies on, and
    [SetSample] implements them by lists. The traits of [transport/port.rs]
    that tie a transport to the selector are classes here too. *)
From Stdlib Require Import ZArith Lia.
From stdpp Require Import prelude gmap.
From S2P Require Import Prelude External Host Config Transport.

Class SetHost {Cal : Calandria} {H : Host} : Type := {
  (** [ResourceTable<K, V>]: a bounded table whose tokens carry a generation.
      [table_set] is a write through the reference that [get_mut] returns. *)
  ResourceToken : Type;
  resource_token_dec :: EqDecision ResourceToken;
  ResourceTable : Type → Type → Type;
  ResourceTableSnapshot : Type;
  table_new : ∀ {K V : Type}, ResourceOwnerId → NonZeroUsize → ResourceTable K V;
  table_admit : ∀ {K V : Type}, ResourceTable K V → K → V →
    ResourceTable K V * option ResourceToken;
  table_get : ∀ {K V : Type}, ResourceTable K V → ResourceToken → option (K * V);
  table_set : ∀ {K V : Type}, ResourceTable K V → ResourceToken → V → ResourceTable K V;
  table_remove : ∀ {K V : Type}, ResourceTable K V → ResourceToken →
    ResourceTable K V * option (K * V);
  table_iter : ∀ {K V : Type}, ResourceTable K V → list (ResourceToken * (K * V));
  table_snapshot : ∀ {K V : Type}, ResourceTable K V → ResourceTableSnapshot;
  (** [mailbox]: the queue shared by the receiver and the clones of its sender. *)
  WakeHandle : Type;
  LaneLimits : Type;
  lane_limits_new : NonZeroUsize → RetainedBytes → LaneLimits;
  MailboxLimits : Type;
  mailbox_limits_new : LaneLimits → LaneLimits → MailboxLimits;
  Mailbox : Type → Type;
  MailboxSnapshot : Type;
  TrySendError : Type → Type;
  mailbox_new : ∀ {M : Type}, MailboxLimits → WakeHandle → Mailbox M;
  mailbox_try_send : ∀ {M : Type} `{!Retained M}, Mailbox M → M →
    Mailbox M * result unit (TrySendError M);
  mailbox_try_send_control : ∀ {M : Type} `{!Retained M}, Mailbox M → M →
    Mailbox M * result unit (TrySendError M);
  (** What is drained is appended to the buffer; the report says how many, and
      whether its status is [DrainStatus::MorePending]. *)
  DrainReport : Type;
  drain_drained : DrainReport → Z;
  drain_more_pending : DrainReport → bool;
  mailbox_drain_into : ∀ {M : Type}, Mailbox M → list M → NonZeroUsize →
    Mailbox M * list M * DrainReport;
  mailbox_close : ∀ {M : Type}, Mailbox M → Mailbox M;
  mailbox_snapshot : ∀ {M : Type}, Mailbox M → MailboxSnapshot;
  (** [MioPoller] and its batch of events. A registration call also mutates
      the source, by the methods of its [mio::event::Source]. *)
  Source : Type → Type;
  Readiness : Type;
  interest_eqb : Interest → Interest → bool;
  interest_READ_WRITE : Interest;
  span_ZERO : Span;
  MioPoller : Type;
  MioPollerLimits : Type;
  MioPollerSnapshot : Type;
  PulseHandle : Type;
  poller_limits_new : NonZeroUsize → NonZeroUsize → MioPollerLimits;
  poller_new : MioPollerLimits → result MioPoller MioError;
  poller_wake_handle : MioPoller → WakeHandle;
  poller_pulse_handle : MioPoller → PulseHandle;
  poller_snapshot : MioPoller → MioPollerSnapshot;
  PollEvents : Type;
  PollEvent : Type;
  poller_event_batch : MioPoller → PollEvents;
  poll_events_drain : PollEvents → PollEvents * list PollEvent;
  (** The fields of [PollEvent::Resource]. *)
  poll_event_resource : PollEvent → option (ResourceToken * Readiness);
  PollReport : Type;
  report_observed : PollReport → Z;
  report_stale : PollReport → Z;
  report_saturated : PollReport → bool;
  poller_poll : MioPoller → Span → PollEvents →
    MioPoller * PollEvents * result PollReport MioError;
  poller_register : ∀ {T : Type}, Source T → MioPoller → T → ResourceToken → Interest →
    MioPoller * T * result unit MioError;
  poller_reregister : ∀ {T : Type}, Source T → MioPoller → T → ResourceToken → Interest →
    MioPoller * T * result unit MioError;
  poller_deregister : ∀ {T : Type}, Source T → MioPoller → T → ResourceToken →
    MioPoller * T * result unit MioError;
  (** The field of [MioError::Io]. *)
  mio_io : MioError → option IoError.t;
  (** [Turn], [Next] and [WaitOutcome]. *)
  Next : Type;
  next_now : Next;
  next_wake : Next;
  next_wake_or : Deadline → Next;
  next_stop : Next;
  Turn : Type;
  turn_new : Z → Next → Turn;
  turn_work : Turn → Z;
  turn_next : Turn → Next;
  WaitOutcome : Type;
  wait_idle : WaitOutcome;
  wait_notified : WaitOutcome;
}.

Arguments mailbox_try_send {_ _ _ M _}.
Arguments mailbox_try_send_control {_ _ _ M _}.

(** A transport that can be registered with a selector ([transport/port.rs]). *)
Class RegisteredTransport {Cal : Calandria} {H : Host} {SH : SetHost} (T : Type) : Type := {
  rt_source : Source T;
  rt_observe_readiness : T → Readiness → T;
}.

(** Construction of one transport ([transport/port.rs]). A connector is
    consumed by its only method. *)
Class TransportConnector {Cal : Calandria} {H : Host} (K T : Type) : Type := {
  connector_connect : K → SocketAddr → TransportLimits.t → result T IoError.t;
}.

(** The documented behaviour the code relies on. A table is a finite map from
    tokens, and the tokens it ever gave out; a mailbox is the list of its
    messages; a selector knows the tokens that are registered. *)
Class SetHostLaws {Cal : Calandria} {H : Host} (SH : SetHost) : Type := {
  resource_token_countable :: Countable ResourceToken;
  table_map : ∀ {K V : Type}, ResourceTable K V → gmap ResourceToken (K * V);
  table_capacity : ∀ {K V : Type}, ResourceTable K V → Z;
  table_issued : ∀ {K V : Type}, ResourceTable K V → list ResourceToken;
  table_new_map : ∀ {K V : Type} (o : ResourceOwnerId) (n : NonZeroUsize),
    table_map (table_new (K := K) (V := V) o n) = ∅ ∧
    table_capacity (table_new (K := K) (V := V) o n) = nonzero_get n;
  table_get_map : ∀ {K V : Type} (t : ResourceTable K V) token,
    table_get t token = table_map t !! token;
  table_iter_map : ∀ {K V : Type} (t : ResourceTable K V),
    table_iter t ≡ₚ map_to_list (table_map t);
  (** Writing a value keeps the key, the capacity and the generations. *)
  table_set_map : ∀ {K V : Type} (t : ResourceTable K V) token k (v v' : V),
    table_map t !! token = Some (k, v) →
    table_map (table_set t token v') = <[token := (k, v')]> (table_map t) ∧
    table_capacity (table_set t token v') = table_capacity t ∧
    table_issued (table_set t token v') = table_issued t;
  (** A value is taken if there is room, under a token never given out before. *)
  table_admit_room : ∀ {K V : Type} (t t' : ResourceTable K V) k (v : V) token,
    table_admit t k v = (t', Some token) →
    token ∉ table_issued t ∧ table_issued t' = token :: table_issued t ∧
    table_map t' = <[token := (k, v)]> (table_map t) ∧ table_capacity t' = table_capacity t ∧
    Z.of_nat (size (table_map t)) < table_capacity t;
  table_admit_full : ∀ {K V : Type} (t t' : ResourceTable K V) k (v : V),
    table_admit t k v = (t', None) → t' = t ∧ table_capacity t ≤ Z.of_nat (size (table_map t));
  table_remove_map : ∀ {K V : Type} (t : ResourceTable K V) token,
    (table_remove t token).2 = table_map t !! token ∧
    table_map (table_remove t token).1 = delete token (table_map t) ∧
    table_capacity (table_remove t token).1 = table_capacity t ∧
    table_issued (table_remove t token).1 = table_issued t;
  table_live_issued : ∀ {K V : Type} (t : ResourceTable K V) token kv,
    table_map t !! token = Some kv → token ∈ table_issued t;
  (** A drain takes at most what it is allowed, and says what is left. *)
  mailbox_items : ∀ {M : Type}, Mailbox M → list M;
  mailbox_drain_spec : ∀ {M : Type} (m : Mailbox M) (buffer : list M) (n : NonZeroUsize),
    let '(m', buffer', report) := mailbox_drain_into m buffer n in
    ∃ l, buffer' = buffer ++ l ∧ mailbox_items m ≡ₚ l ++ mailbox_items m' ∧
      drain_drained report = Z.of_nat (length l) ∧ Z.of_nat (length l) ≤ Z.max 0 (nonzero_get n) ∧
      (drain_more_pending report = false → mailbox_items m' = []);
  (** A batch of events is bounded; a drain empties it. *)
  poll_events_items : PollEvents → list PollEvent;
  poll_events_bound : PollEvents → Z;
  poll_events_room : ∀ e, Z.of_nat (length (poll_events_items e)) ≤ poll_events_bound e;
  poll_events_drain_spec : ∀ e, (poll_events_drain e).2 = poll_events_items e ∧
    poll_events_items (poll_events_drain e).1 = [] ∧
    poll_events_bound (poll_events_drain e).1 = poll_events_bound e;
  poller_poll_bound : ∀ p s e, poll_events_bound (poller_poll p s e).1.2 = poll_events_bound e;
  (** A registration that fails leaves nothing registered; any other failure
      leaves the registrations as they were. *)
  poller_tokens : MioPoller → gset ResourceToken;
  poller_new_tokens : ∀ l p, poller_new l = Ok p → poller_tokens p = ∅;
  poller_poll_tokens : ∀ p s e, poller_tokens (poller_poll p s e).1.1 = poller_tokens p;
  poller_register_tokens : ∀ {T : Type} (S : Source T) p (t : T) token i,
    let '(p', _, r) := poller_register S p t token i in
    poller_tokens p' = if is_ok r then {[token]} ∪ poller_tokens p else poller_tokens p;
  poller_reregister_tokens : ∀ {T : Type} (S : Source T) p (t : T) token i,
    poller_tokens (poller_reregister S p t token i).1.1 = poller_tokens p;
  poller_deregister_tokens : ∀ {T : Type} (S : Source T) p (t : T) token,
    let '(p', _, r) := poller_deregister S p t token in
    poller_tokens p' = if is_ok r then poller_tokens p ∖ {[token]} else poller_tokens p;
  interest_eqb_spec : ∀ a b : Interest, interest_eqb a b = true ↔ a = b;
  (** [Deadline] is totally ordered. *)
  deadline_leb_refl : ∀ d : Deadline, deadline_leb d d = true;
  deadline_leb_total : ∀ d d' : Deadline, deadline_leb d d' = true ∨ deadline_leb d' d = true;
  deadline_leb_trans : ∀ a b c : Deadline,
    deadline_leb a b = true → deadline_leb b c = true → deadline_leb a c = true;
  (** The answers of a turn are told apart. *)
  turn_work_new : ∀ w n, turn_work (turn_new w n) = w;
  turn_next_new : ∀ w n, turn_next (turn_new w n) = n;
  next_wake_now : next_wake ≠ next_now;
  next_wake_or_now : ∀ d, next_wake_or d ≠ next_now;
  next_wake_or_wake : ∀ d, next_wake_or d ≠ next_wake;
  next_wake_or_inj : ∀ d d', next_wake_or d = next_wake_or d' → d = d';
}.
