(* ===== verification/SetData.v ===== *)
(** * What a connection set is asked and answers

    [token.rs], [command.rs], [port.rs], [config/set_limits.rs],
    [connection_error.rs], the construction errors of [error.rs] and the set's
    half of [snapshot.rs] of [bornera]. *)
From Stdlib Require Import ZArith Lia.
From stdpp Require Import prelude.
From S2P Require Import Prelude External Host Identity Admission Operation Permit Framing Config.
From S2P Require Import Transport SlotData SetHost.

Module ConnectionToken.
Section connection_token.
Context {Cal : Calandria} {H : Host} {SH : SetHost}.

(** Exact live generation of one connection admitted to a set ([token.rs]). *)
Record t : Type := new { resource : ResourceToken; identity : ConnectionIdentity.t }.

Definition connection (self : t) : ConnectionId.t := ConnectionIdentity.connection (identity self).

Definition epoch (self : t) : ConnectionEpoch.t := ConnectionIdentity.epoch (identity self).

#[global] Instance eq_dec : EqDecision t.
Proof. solve_decision. Defined.

End connection_token.
End ConnectionToken.

Module ConnectionCommand.
Section connection_command.
Context {Cal : Calandria} {H : Host} {SH : SetHost}.

(** One mechanical command queued for an exact connection ([command.rs]). *)
Inductive t : Type :=
  | OpenAdmission (connection : ConnectionToken.t)
  | Cancel (connection : ConnectionToken.t) (operation : OperationId.t)
  | BeginDrain (connection : ConnectionToken.t) (deadline : Deadline)
  | Close (connection : ConnectionToken.t).

Definition connection (self : t) : ConnectionToken.t :=
  match self with
  | OpenAdmission connection | Cancel connection _ | BeginDrain connection _
  | Close connection => connection
  end.

#[global] Instance retained : Retained t := λ _, rb_ZERO.

End connection_command.
End ConnectionCommand.

Module ConnectionPort.
Section connection_port.
Context {Cal : Calandria} {H : Host} {SH : SetHost}.

(** Producer bound to one connection ([port.rs]). Its sender is a clone of the
    set's: the mailbox they share is the state of its methods. *)
Record t : Type := new { connection : ConnectionToken.t }.

Definition sent : Type :=
  Mailbox ConnectionCommand.t * result unit (TrySendError ConnectionCommand.t).

Definition open_admission (self : t) (sender : Mailbox ConnectionCommand.t) : sent :=
  mailbox_try_send_control sender (ConnectionCommand.OpenAdmission (connection self)).

Definition cancel (self : t) (operation : OperationId.t) (sender : Mailbox ConnectionCommand.t)
    : sent :=
  mailbox_try_send sender (ConnectionCommand.Cancel (connection self) operation).

Definition begin_drain (self : t) (deadline : Deadline) (sender : Mailbox ConnectionCommand.t)
    : sent :=
  mailbox_try_send_control sender (ConnectionCommand.BeginDrain (connection self) deadline).

Definition close (self : t) (sender : Mailbox ConnectionCommand.t) : sent :=
  mailbox_try_send_control sender (ConnectionCommand.Close (connection self)).

End connection_port.
End ConnectionPort.

Module ConnectionSetLimits.
Section connection_set_limits.
Context {Cal : Calandria} {H : Host} {SH : SetHost}.

(** Hard bounds for one selector and its fair turn ([config/set_limits.rs]). *)
Record t : Type := new {
  max_connections : NonZeroUsize;
  poll_events : NonZeroUsize;
  command_capacity : NonZeroUsize;
  commands_per_turn : NonZeroUsize;
  ready_connections_per_turn : NonZeroUsize;
}.

Definition poller (self : t) : MioPollerLimits :=
  poller_limits_new (poll_events self) (max_connections self).

Definition commands (self : t) : MailboxLimits :=
  let lane := lane_limits_new (command_capacity self) rb_ZERO in
  mailbox_limits_new lane lane.

(** [NonZeroUsize::MIN] is one. *)
Definition standalone (slot : ConnectionSlotLimits.t) : t :=
  new (mk_nonzero 1) (ConnectionSlotLimits.io_operations slot)
    (ConnectionSlotLimits.io_operations slot) (ConnectionSlotLimits.io_operations slot)
    (mk_nonzero 1).

End connection_set_limits.
End ConnectionSetLimits.

(** ** Failures *)

Module ConnectError.
Section connect_error.
Context {Cal : Calandria} {H : Host}.

(** Failure before one connection owner becomes observable ([error.rs]). *)
Inductive t (E : Type) : Type :=
  | Io (source : IoError.t)
  | Mio (source : MioError)
  | Decoder (source : FrameDecodeError.t E)
  | ResourceAdmission
  | OwnerFailed (reason : OwnerFailure.t)
  | TransportCapacity (limit : RetainedBytes) (reported : TransportPressure.t)
  | TransportLimit (limit reported : RetainedBytes).
#[global] Arguments Io {E}.
#[global] Arguments Mio {E}.
#[global] Arguments Decoder {E}.
#[global] Arguments ResourceAdmission {E}.
#[global] Arguments OwnerFailed {E}.
#[global] Arguments TransportCapacity {E}.
#[global] Arguments TransportLimit {E}.

End connect_error.
End ConnectError.

Module ConnectionAccessError.
Section connection_access_error.
Context {Cal : Calandria} {H : Host}.

(** Generation fencing or fatal-owner failure during direct set access. *)
Inductive t : Type :=
  | StaleConnection
  | Owner (source : EngineError.t).

End connection_access_error.
End ConnectionAccessError.

Module ConnectionReserveError.

(** Generation fencing or core-policy rejection during reservation. *)
Inductive t : Type :=
  | StaleConnection
  | Rejected (source : ReserveError.t).

End ConnectionReserveError.

Module ConnectionCommitError.
Section connection_commit_error.
Context {Cal : Calandria} {H : Host}.

(** Ownership-preserving set-level frame commit failure. *)
Inductive t (F : Type) : Type :=
  | StaleConnection (permit : OperationPermit.t) (frame : F)
  | Connection (source : EngineCommitError.t F).
#[global] Arguments StaleConnection {F}.
#[global] Arguments Connection {F}.

End connection_commit_error.
End ConnectionCommitError.

Module ConnectionRetireError.

(** Why a closed connection generation cannot yet be retired. *)
Inductive t : Type :=
  | StaleConnection
  | TransportLive
  | OwnerFailed (reason : OwnerFailure.t)
  | PublicationsPending.

End ConnectionRetireError.

Module ConnectionRecoveryError.

(** Why one generation could not transfer recovery ownership. *)
Inductive t : Type :=
  | StaleConnection
  | OwnerRunning.

End ConnectionRecoveryError.

Module ConnectionSetSnapshot.
Section connection_set_snapshot.
Context {Cal : Calandria} {H : Host} {SH : SetHost}.

(** Immutable state for one shared selector and set ([snapshot.rs]). *)
Record t : Type := mk {
  owner_failure : option OwnerFailure.t;
  connections : ResourceTableSnapshot;
  poller : MioPollerSnapshot;
  ready_connections : Z;
  commands : MailboxSnapshot;
  stale_backend_events : Z;
  stale_resource_events : Z;
  stale_commands : Z;
}.

End connection_set_snapshot.
End ConnectionSetSnapshot.
