(* ===== verification/SetOwner.v ===== *)
(** * The connection set

    [set.rs], [set_access.rs], [set_connect.rs], [set_drive.rs],
    [set_drive/ready.rs], [set_settle.rs], [set_failure.rs] and
    [set_recovery.rs] of [bornera]: the owner of many connection slots over one
    selector. A method on [&mut self] is a function of the set and of the heap
    that holds the ledgers of its cores; writing through the entry that
    [get_mut] returns is [update_entry]. *)
From Stdlib Require Import ZArith Lia.
From stdpp Require Import prelude.
From S2P Require Import Prelude External Host Identity Limits Admission Ledger Operation Permit.
From S2P Require Import Write Framing Machine Core Recovery Config Transport SlotData Slot Drive.
From S2P Require Import SetHost SetData.

Module ConnectionEntry.
Section connection_entry.
Context {Cal : Calandria} {BB : ByteBudgetLib} {H : Host} {SH : SetHost}.
Context {D C : Type} {Dec : FrameDecoder D} {T : Type}.

(** One slot plus the private capability registered for its generation. *)
Record t : Type := mk {
  slot : ConnectionSlot.t D C;
  transport : option T;
  interest : Interest;
  ready_queued : bool;
}.

(** Field assignments. *)
Definition set_slot (self : t) (v : ConnectionSlot.t D C) : t :=
  mk v (transport self) (interest self) (ready_queued self).

Definition set_transport (self : t) (v : option T) : t :=
  mk (slot self) v (interest self) (ready_queued self).

Definition set_interest (self : t) (v : Interest) : t :=
  mk (slot self) (transport self) v (ready_queued self).

Definition set_ready_queued (self : t) (v : bool) : t :=
  mk (slot self) (transport self) (interest self) v.

End connection_entry.
#[global] Arguments t {Cal BB H} D C {Dec} T.
End ConnectionEntry.

Module ConnectionSet.
Section connection_set.
Context {Cal : Calandria} {BB : ByteBudgetLib} {Build : BuildConfig} {H : Host} {SH : SetHost}.
Context {D C : Type} {Dec : FrameDecoder D} {Ret : Retained Frame}.
Context {Cls : InboundClassifier Frame C}.
Context {T : Type} {TP : SlotTransport T} {RT : RegisteredTransport T}.

Notation Entry := (ConnectionEntry.t D C T).

(** Bounded owner for many connection epochs sharing one selector. The
    [sender] is the other end of [commands]: one mailbox. *)
Record t : Type := mk {
  limits : ConnectionSetLimits.t;
  poller : MioPoller;
  poll_events : PollEvents;
  resources : ResourceTable ConnectionIdentity.t Entry;
  ready : list ResourceToken;
  scan : list ResourceToken;
  commands : Mailbox ConnectionCommand.t;
  command_buffer : list ConnectionCommand.t;
  command_more_pending : bool;
  poll_saturated : bool;
  stale_backend_events : Z;
  stale_resource_events : Z;
  stale_commands : Z;
  owner_failure : option OwnerFailure.t;
}.

(** Field assignments through [&mut self]. *)
Definition set_poller (self : t) (v : MioPoller) : t :=
  mk (limits self) v (poll_events self) (resources self) (ready self) (scan self)
    (commands self) (command_buffer self) (command_more_pending self) (poll_saturated self)
    (stale_backend_events self) (stale_resource_events self) (stale_commands self)
    (owner_failure self).

Definition set_poll_events (self : t) (v : PollEvents) : t :=
  mk (limits self) (poller self) v (resources self) (ready self) (scan self)
    (commands self) (command_buffer self) (command_more_pending self) (poll_saturated self)
    (stale_backend_events self) (stale_resource_events self) (stale_commands self)
    (owner_failure self).

Definition set_resources (self : t) (v : ResourceTable ConnectionIdentity.t Entry) : t :=
  mk (limits self) (poller self) (poll_events self) v (ready self) (scan self)
    (commands self) (command_buffer self) (command_more_pending self) (poll_saturated self)
    (stale_backend_events self) (stale_resource_events self) (stale_commands self)
    (owner_failure self).

Definition set_ready (self : t) (v : list ResourceToken) : t :=
  mk (limits self) (poller self) (poll_events self) (resources self) v (scan self)
    (commands self) (command_buffer self) (command_more_pending self) (poll_saturated self)
    (stale_backend_events self) (stale_resource_events self) (stale_commands self)
    (owner_failure self).

Definition set_scan (self : t) (v : list ResourceToken) : t :=
  mk (limits self) (poller self) (poll_events self) (resources self) (ready self) v
    (commands self) (command_buffer self) (command_more_pending self) (poll_saturated self)
    (stale_backend_events self) (stale_resource_events self) (stale_commands self)
    (owner_failure self).

Definition set_commands (self : t) (v : Mailbox ConnectionCommand.t) : t :=
  mk (limits self) (poller self) (poll_events self) (resources self) (ready self) (scan self)
    v (command_buffer self) (command_more_pending self) (poll_saturated self)
    (stale_backend_events self) (stale_resource_events self) (stale_commands self)
    (owner_failure self).

Definition set_command_buffer (self : t) (v : list ConnectionCommand.t) : t :=
  mk (limits self) (poller self) (poll_events self) (resources self) (ready self) (scan self)
    (commands self) v (command_more_pending self) (poll_saturated self)
    (stale_backend_events self) (stale_resource_events self) (stale_commands self)
    (owner_failure self).

Definition set_command_more_pending (self : t) (v : bool) : t :=
  mk (limits self) (poller self) (poll_events self) (resources self) (ready self) (scan self)
    (commands self) (command_buffer self) v (poll_saturated self)
    (stale_backend_events self) (stale_resource_events self) (stale_commands self)
    (owner_failure self).

Definition set_poll_saturated (self : t) (v : bool) : t :=
  mk (limits self) (poller self) (poll_events self) (resources self) (ready self) (scan self)
    (commands self) (command_buffer self) (command_more_pending self) v
    (stale_backend_events self) (stale_resource_events self) (stale_commands self)
    (owner_failure self).

Definition set_stale_backend_events (self : t) (v : Z) : t :=
  mk (limits self) (poller self) (poll_events self) (resources self) (ready self) (scan self)
    (commands self) (command_buffer self) (command_more_pending self) (poll_saturated self)
    v (stale_resource_events self) (stale_commands self) (owner_failure self).

Definition set_stale_resource_events (self : t) (v : Z) : t :=
  mk (limits self) (poller self) (poll_events self) (resources self) (ready self) (scan self)
    (commands self) (command_buffer self) (command_more_pending self) (poll_saturated self)
    (stale_backend_events self) v (stale_commands self) (owner_failure self).

Definition set_stale_commands (self : t) (v : Z) : t :=
  mk (limits self) (poller self) (poll_events self) (resources self) (ready self) (scan self)
    (commands self) (command_buffer self) (command_more_pending self) (poll_saturated self)
    (stale_backend_events self) (stale_resource_events self) v (owner_failure self).

Definition set_owner_failure (self : t) (v : option OwnerFailure.t) : t :=
  mk (limits self) (poller self) (poll_events self) (resources self) (ready self) (scan self)
    (commands self) (command_buffer self) (command_more_pending self) (poll_saturated self)
    (stale_backend_events self) (stale_resource_events self) (stale_commands self) v.

Definition update_entry (self : t) (resource : ResourceToken) (entry : Entry) : t :=
  set_resources self (table_set (resources self) resource entry).

(** The set with the heap of its cores' ledgers: the state of its methods. *)
Definition owner : Type := t * Heap.t.

(** [slot.rs]. *)
Definition to_u64 (v : Z) : Z := if v <=? U64_MAX then v else U64_MAX.

(** ** Construction and observation ([set.rs]) *)

Definition new (config : ConnectionSetConfig.t) (limits : ConnectionSetLimits.t)
    : result t MioError :=
  match poller_new (ConnectionSetLimits.poller limits) with
  | Err e => Err e
  | Ok poller =>
      Ok (mk limits poller (poller_event_batch poller)
            (table_new (ConnectionSetConfig.resource_owner config)
               (ConnectionSetLimits.max_connections limits))
            [] []
            (mailbox_new (ConnectionSetLimits.commands limits) (poller_wake_handle poller))
            [] false false 0 0 0 None)
  end.

(** The tokens of the table, in its order. *)
Definition tokens (self : t) : list ResourceToken := (table_iter (resources self)).*1.

Definition entry (self : t) (connection : ConnectionToken.t)
    : result Entry ConnectionAccessError.t :=
  match table_get (resources self) (ConnectionToken.resource connection) with
  | None => Err ConnectionAccessError.StaleConnection
  | Some (identity, entry) =>
      if negb (bool_decide (identity = ConnectionToken.identity connection))
      then Err ConnectionAccessError.StaleConnection
      else Ok entry
  end.

(** [entry_mut]: the same, and the entry is written back by [update_entry]. *)
Definition entry_mut (self : t) (connection : ConnectionToken.t)
    : result Entry ConnectionAccessError.t := entry self connection.

Definition enqueue (self : t) (resource : ResourceToken) : t :=
  match table_get (resources self) resource with
  | None => self
  | Some (_, entry) =>
      if ConnectionEntry.ready_queued entry then self
      else
        let self := update_entry self resource (ConnectionEntry.set_ready_queued entry true) in
        set_ready self (ready self ++ [resource])
  end.

Definition snapshot (self : t) : ConnectionSetSnapshot.t :=
  ConnectionSetSnapshot.mk (owner_failure self) (table_snapshot (resources self))
    (poller_snapshot (poller self)) (Z.of_nat (length (ready self)))
    (mailbox_snapshot (commands self)) (stale_backend_events self)
    (stale_resource_events self) (stale_commands self).

Definition wake_handle (self : t) : WakeHandle := poller_wake_handle (poller self).

Definition pulse_handle (self : t) : PulseHandle := poller_pulse_handle (poller self).

(** ** Failure of the selector ([set_failure.rs]) *)

Definition ensure_owner_running (self : t) : result unit EngineError.t :=
  match owner_failure self with
  | None => Ok tt
  | Some reason => Err (EngineError.OwnerFailed reason)
  end.

(** What [latch_selector_failure] does to one entry. *)
Definition fence_entry (source : MioError) (reason : OwnerFailure.t) (entry : Entry) : Entry :=
  let slot := ConnectionEntry.slot entry in
  let slot :=
    match mio_io source with
    | Some error =>
        ConnectionSlot.record_transport_failure slot
          (TransportDiagnostic.from_io TransportFailurePhase.Readiness error)
    | None => slot
    end in
  let slot := ConnectionSlot.latch_owner_failure slot reason in
  ConnectionEntry.set_ready_queued (ConnectionEntry.set_slot entry slot) false.

Definition fence_token (source : MioError) (reason : OwnerFailure.t) (self : t)
    (token : ResourceToken) : t :=
  match table_get (resources self) token with
  | None => self
  | Some (_, entry) => update_entry self token (fence_entry source reason entry)
  end.

Definition latch_selector_failure (self : t) (source : MioError) : t :=
  match owner_failure self with
  | Some _ => self
  | None =>
      let reason := OwnerFailure.Readiness in
      let self := set_owner_failure self (Some reason) in
      let self := set_commands self (mailbox_close (commands self)) in
      let self := set_ready self [] in
      let self := set_scan self (tokens self) in
      foldl (fence_token source reason) self (scan self)
  end.

Definition latch_readiness_error (self : t) (error : EngineError.t) : t :=
  match error with
  | EngineError.Mio source => latch_selector_failure self source
  | _ => self
  end.

Definition resolve_selector_poll (self : t) (r : result PollReport MioError)
    : t * result PollReport EngineError.t :=
  match r with
  | Ok report => (self, Ok report)
  | Err source => (latch_selector_failure self source, Err (EngineError.Mio source))
  end.

Definition poll_selector (self : t) (maximum : Span) : t * result PollReport EngineError.t :=
  match ensure_owner_running self with
  | Err e => (self, Err e)
  | Ok _ =>
      let '(poller, events, r) := poller_poll (poller self) maximum (poll_events self) in
      resolve_selector_poll (set_poll_events (set_poller self poller) events) r
  end.

Definition observe_poll (self : t) (report : PollReport) : t :=
  let self :=
    set_stale_backend_events self
      (u64_saturating_add (stale_backend_events self) (to_u64 (report_stale report))) in
  set_poll_saturated self (report_saturated report).

Definition poll_io (self : t) (maximum : Span) : t * result WaitOutcome EngineError.t :=
  match poll_selector self maximum with
  | (self, Err e) => (self, Err e)
  | (self, Ok report) =>
      (observe_poll self report,
       Ok (if report_observed report =? 0 then wait_idle else wait_notified))
  end.

Definition port (self : t) (connection : ConnectionToken.t)
    : result ConnectionPort.t ConnectionAccessError.t :=
  match ensure_owner_running self with
  | Err e => Err (ConnectionAccessError.Owner e)
  | Ok _ =>
      match entry self connection with
      | Err e => Err e
      | Ok _ => Ok (ConnectionPort.new connection)
      end
  end.

(** ** Settlement ([set_settle.rs]) *)

Definition record_mio_failure (slot : ConnectionSlot.t D C) (error : MioError)
    : ConnectionSlot.t D C :=
  match mio_io error with
  | Some source =>
      ConnectionSlot.record_transport_failure slot
        (TransportDiagnostic.from_io TransportFailurePhase.Readiness source)
  | None => slot
  end.

(** The end of [settle_entry], once the capability is gone. *)
Definition settle_slot (slot : ConnectionSlot.t D C) (directive : CloseDirective.t)
    (heap : Heap.t) : ConnectionSlot.t D C * Heap.t :=
  let slot := ConnectionSlot.restore_close_request slot directive in
  match ConnectionSlot.settle_transport_closed (slot, heap) with
  | (slot, heap, true) => (slot, heap)
  | (slot, heap, false) =>
      let slot :=
        ConnectionSlot.latch_failure slot
          (EngineError.Invariant EngineInvariant.MissingCloseReason) in
      (ConnectionSlot.abort_transport slot, heap)
  end.

Definition settle_entry (poller : MioPoller) (resource : ResourceToken) (entry : Entry)
    (heap : Heap.t) : MioPoller * Entry * Heap.t * result Z EngineError.t :=
  let slot := ConnectionEntry.slot entry in
  let slot :=
    match ConnectionEntry.transport entry with
    | Some transport => Drive.observe_shutdown_complete slot transport
    | None => slot
    end in
  match ConnectionSlot.take_close_request slot with
  | (slot, None) => (poller, ConnectionEntry.set_slot entry slot, heap, Ok 0)
  | (slot, Some directive) =>
      match ConnectionEntry.transport entry with
      | None =>
          let '(slot, heap) := settle_slot slot directive heap in
          (poller,
           ConnectionEntry.set_slot (ConnectionEntry.set_transport entry None) slot, heap, Ok 1)
      | Some transport =>
          let '(poller, transport, deregistration) :=
            poller_deregister rt_source poller transport resource in
          let '(slot, pressure) := Drive.capture_transport_pressure slot transport in
          match deregistration with
          | Err source =>
              let slot := record_mio_failure slot source in
              let slot := ConnectionSlot.restore_close_request slot directive in
              let error := EngineError.Mio source in
              let slot := ConnectionSlot.latch_failure slot error in
              (poller,
               ConnectionEntry.set_slot
                 (ConnectionEntry.set_transport entry (Some transport)) slot,
               heap, Err error)
          | Ok _ =>
              let entry := ConnectionEntry.set_transport entry None in
              match pressure with
              | Err error =>
                  let slot := ConnectionSlot.restore_close_request slot directive in
                  let slot := ConnectionSlot.latch_failure slot error in
                  (poller, ConnectionEntry.set_slot entry slot, heap, Err error)
              | Ok _ =>
                  let '(slot, heap) := settle_slot slot directive heap in
                  (poller, ConnectionEntry.set_slot entry slot, heap, Ok 1)
              end
          end
      end
  end.

Definition sync_interest (poller : MioPoller) (resource : ResourceToken) (entry : Entry)
    : MioPoller * Entry * result Z EngineError.t :=
  match ConnectionEntry.transport entry with
  | None => (poller, entry, Ok 0)
  | Some transport =>
      let slot := ConnectionEntry.slot entry in
      let desired := Drive.desired_interest slot transport in
      if interest_eqb desired (ConnectionEntry.interest entry) then (poller, entry, Ok 0)
      else
        let '(poller, transport, registration) :=
          poller_reregister rt_source poller transport resource desired in
        let entry := ConnectionEntry.set_transport entry (Some transport) in
        let '(slot, pressure) := Drive.capture_transport_pressure slot transport in
        match registration with
        | Err source =>
            let slot := record_mio_failure slot source in
            let error := EngineError.Mio source in
            let slot := ConnectionSlot.latch_failure slot error in
            (poller, ConnectionEntry.set_slot entry slot, Err error)
        | Ok _ =>
            let entry := ConnectionEntry.set_interest entry desired in
            let slot :=
              match pressure with
              | Err error => ConnectionSlot.latch_failure slot error
              | Ok _ => slot
              end in
            (poller, ConnectionEntry.set_slot entry slot, Ok 1)
        end
  end.

(** [self.ready.retain(|token| *token != resource)]. *)
Definition retain_ready (self : t) (resource : ResourceToken) : t :=
  set_ready self (filter (λ token, token ≠ resource) (ready self)).

(** The end of [settle_connection]: a settled connection leaves the queue, and
    a failed one is reported. *)
Definition settled_entry (self : t) (resource : ResourceToken) (settled : Z) : t :=
  if settled =? 0 then self
  else
    let self := retain_ready self resource in
    match table_get (resources self) resource with
    | Some (_, entry) =>
        update_entry self resource (ConnectionEntry.set_ready_queued entry false)
    | None => self
    end.

Definition slot_failure (self : t) (resource : ResourceToken) : option OwnerFailure.t :=
  match table_get (resources self) resource with
  | Some (_, entry) =>
      EngineState.failure (ConnectionSlot.state (ConnectionEntry.slot entry))
  | None => None
  end.

Definition settle_connection (resource : ResourceToken) : STE owner EngineError.t Z :=
  λ '(self, heap),
  match table_get (resources self) resource with
  | None => (self, heap, Err (EngineError.Invariant EngineInvariant.ResourceToken))
  | Some (_, entry) =>
      let '(poller, entry, heap, result) := settle_entry (poller self) resource entry heap in
      let self := update_entry (set_poller self poller) resource entry in
      match result with
      | Err error => (latch_readiness_error self error, heap, Err error)
      | Ok settled =>
          let self := settled_entry self resource settled in
          (self, heap,
           match slot_failure self resource with
           | Some reason => Err (EngineError.OwnerFailed reason)
           | None => Ok settled
           end)
      end
  end.

(** ** Direct access ([set_access.rs]) *)

(** A method of the slot of an entry, whose result comes with what it leaves. *)
Definition on_slot {A E : Type} (f : STE (ConnectionSlot.owner D C) E A)
    (entry : Entry) (heap : Heap.t) : Entry * Heap.t * result A E :=
  let '(slot, heap, r) := f (ConnectionEntry.slot entry, heap) in
  (ConnectionEntry.set_slot entry slot, heap, r).

Definition reserve (connection : ConnectionToken.t) (now : Moment) (options : OperationOptions.t)
    : STE owner ConnectionReserveError.t OperationPermit.t := λ '(self, heap),
  match entry_mut self connection with
  | Err _ => (self, heap, Err ConnectionReserveError.StaleConnection)
  | Ok entry =>
      let '(entry, heap, r) := on_slot (ConnectionSlot.reserve now options) entry heap in
      (update_entry self (ConnectionToken.resource connection) entry, heap,
       match r with
       | Ok permit => Ok permit
       | Err e => Err (ConnectionReserveError.Rejected e)
       end)
  end.

(** What [commit], [cancel], [finalize] and [apply_and_enqueue] do with the
    answer of the slot: the connection is queued and settled, and the first
    error is the one returned. *)
Definition enqueue_and_settle {A E : Type} (resource : ResourceToken) (result : result A E)
    (failed : A → EngineError.t → E) : STE owner E A := λ '(self, heap),
  let self := enqueue self resource in
  let '(self, heap, settled) := settle_connection resource (self, heap) in
  (self, heap,
   match result, settled with
   | Ok a, Ok _ => Ok a
   | Ok a, Err source => Err (failed a source)
   | Err error, _ => Err error
   end).

Definition commit (connection : ConnectionToken.t) (permit : OperationPermit.t)
    (frame : OutboundFrame.t)
    : STE owner (ConnectionCommitError.t OutboundFrame.t) OperationId.t := λ '(self, heap),
  let resource := ConnectionToken.resource connection in
  let '(self, heap, result) :=
    match entry_mut self connection with
    | Ok entry =>
        let '(entry, heap, r) := on_slot (ConnectionSlot.commit permit frame) entry heap in
        (update_entry self resource entry, heap,
         match r with
         | Ok operation => Ok operation
         | Err e => Err (ConnectionCommitError.Connection e)
         end)
    | Err _ => (self, heap, Err (ConnectionCommitError.StaleConnection permit frame))
    end in
  enqueue_and_settle resource result
    (λ operation source,
      ConnectionCommitError.Connection
        (EngineCommitError.AcceptedOwnerFailure operation source)) (self, heap).

(** A control call of one exact connection. *)
Definition controlled {A : Type} (connection : ConnectionToken.t)
    (f : STE (ConnectionSlot.owner D C) EngineError.t A)
    : STE owner ConnectionAccessError.t A := λ '(self, heap),
  let resource := ConnectionToken.resource connection in
  match entry_mut self connection with
  | Err e => (self, heap, Err e)
  | Ok entry =>
      let '(entry, heap, r) := on_slot f entry heap in
      enqueue_and_settle resource
        (match r with Ok a => Ok a | Err e => Err (ConnectionAccessError.Owner e) end)
        (λ _ source, ConnectionAccessError.Owner source)
        (update_entry self resource entry, heap)
  end.

(** [ConnectionPortAction] and [apply_and_enqueue]. *)
Inductive ConnectionPortAction : Type :=
  | ActionOpenAdmission
  | ActionBeginDrain (deadline : Deadline).

Definition apply_and_enqueue (connection : ConnectionToken.t) (action : ConnectionPortAction)
    : STE owner ConnectionAccessError.t InputDisposition.t :=
  controlled connection
    (match action with
     | ActionOpenAdmission => ConnectionSlot.open_admission
     | ActionBeginDrain deadline => ConnectionSlot.begin_drain deadline
     end).

Definition open_admission (connection : ConnectionToken.t)
    : STE owner ConnectionAccessError.t InputDisposition.t :=
  apply_and_enqueue connection ActionOpenAdmission.

Definition cancel (connection : ConnectionToken.t) (operation : OperationId.t)
    : STE owner ConnectionAccessError.t CancelOutcome.t :=
  controlled connection (ConnectionSlot.cancel operation).

Definition begin_drain (connection : ConnectionToken.t) (deadline : Deadline)
    : STE owner ConnectionAccessError.t InputDisposition.t :=
  apply_and_enqueue connection (ActionBeginDrain deadline).

Definition finalize (connection : ConnectionToken.t) (reason : CloseReason.t)
    : STE owner ConnectionAccessError.t InputDisposition.t :=
  controlled connection (ConnectionSlot.finalize reason).

Definition drain_outcomes (self : t) (connection : ConnectionToken.t)
    : t * result (list (EngineOutcome.t Frame)) ConnectionAccessError.t :=
  match entry_mut self connection with
  | Err e => (self, Err e)
  | Ok entry =>
      let '(slot, drained) := ConnectionSlot.drain_outcomes (ConnectionEntry.slot entry) in
      (update_entry self (ConnectionToken.resource connection)
         (ConnectionEntry.set_slot entry slot), Ok drained)
  end.

Definition drain_events (self : t) (connection : ConnectionToken.t)
    : t * result (list ConnectionEvent.t) ConnectionAccessError.t :=
  match entry_mut self connection with
  | Err e => (self, Err e)
  | Ok entry =>
      let '(slot, drained) := ConnectionSlot.drain_events (ConnectionEntry.slot entry) in
      (update_entry self (ConnectionToken.resource connection)
         (ConnectionEntry.set_slot entry slot), Ok drained)
  end.

Definition connection_snapshot (self : t) (heap : Heap.t) (connection : ConnectionToken.t)
    : result ConnectionSlotSnapshot.t ConnectionAccessError.t :=
  match entry self connection with
  | Err e => Err e
  | Ok entry => Ok (ConnectionSlot.snapshot (ConnectionEntry.slot entry) heap)
  end.

Definition is_transport_open (self : t) (connection : ConnectionToken.t)
    : result bool ConnectionAccessError.t :=
  match entry self connection with
  | Err e => Err e
  | Ok entry => Ok (ConnectionSlot.is_transport_open (ConnectionEntry.slot entry))
  end.

Definition retire (self : t) (heap : Heap.t) (connection : ConnectionToken.t)
    : t * result unit ConnectionRetireError.t :=
  match entry self connection with
  | Err _ => (self, Err ConnectionRetireError.StaleConnection)
  | Ok entry =>
      let slot := ConnectionEntry.slot entry in
      match EngineState.failure (ConnectionSlot.state slot) with
      | Some reason => (self, Err (ConnectionRetireError.OwnerFailed reason))
      | None =>
          let snapshot := ConnectionSlot.snapshot slot heap in
          if bool_decide (is_Some (ConnectionEntry.transport entry))
             || negb (bool_decide (ConnectionSlotSnapshot.transport snapshot
                                   = TransportState.Closed))
          then (self, Err ConnectionRetireError.TransportLive)
          else if negb (ConnectionSlotSnapshot.pending_outcomes snapshot =? 0)
                  || negb (ConnectionSlotSnapshot.pending_events snapshot =? 0)
          then (self, Err ConnectionRetireError.PublicationsPending)
          else
            let self := retain_ready self (ConnectionToken.resource connection) in
            match table_remove (resources self) (ConnectionToken.resource connection) with
            | (resources, None) =>
                (set_resources self resources, Err ConnectionRetireError.StaleConnection)
            | (resources, Some _) => (set_resources self resources, Ok tt)
            end
      end
  end.

(** ** Recovery ([set_recovery.rs]) *)

(** The block of [recover_connection] that releases the capability: whether
    the selector failed and whether the pressure did. *)
Definition release_transport (poller : MioPoller) (resource : ResourceToken) (entry : Entry)
    : MioPoller * Entry * option MioError * bool :=
  match ConnectionEntry.transport entry with
  | None => (poller, entry, None, false)
  | Some transport =>
      let '(poller, transport, cleanup) :=
        poller_deregister rt_source poller transport resource in
      let '(slot, pressure) :=
        Drive.capture_transport_pressure (ConnectionEntry.slot entry) transport in
      (poller,
       ConnectionEntry.set_slot (ConnectionEntry.set_transport entry (Some transport)) slot,
       match cleanup with Err error => Some error | Ok _ => None end,
       negb (is_ok pressure))
  end.

Definition recover_connection (connection : ConnectionToken.t) (reason : OwnerFailure.t)
    : STE owner ConnectionRecoveryError.t (RecoveryReport.t OutboundFrame.t Frame) :=
  λ '(self, heap),
  let resource := ConnectionToken.resource connection in
  match entry_mut self connection with
  | Err _ => (self, heap, Err ConnectionRecoveryError.StaleConnection)
  | Ok entry =>
      let '(poller, entry, cleanup_error, pressure_failed) :=
        release_transport (poller self) resource entry in
      let self := update_entry (set_poller self poller) resource entry in
      let self :=
        match cleanup_error with
        | Some error => latch_selector_failure self error
        | None => self
        end in
      let self := retain_ready self resource in
      match table_remove (resources self) resource with
      | (resources, None) =>
          (set_resources self resources, heap, Err ConnectionRecoveryError.StaleConnection)
      | (resources, Some (_, entry)) =>
          let '(_, heap, report) :=
            ConnectionSlot.recover_owned reason
              (bool_decide (is_Some cleanup_error) || pressure_failed)
              (ConnectionEntry.slot entry, heap) in
          (set_resources self resources, heap, Ok report)
      end
  end.

Definition try_recover (connection : ConnectionToken.t)
    : STE owner ConnectionRecoveryError.t (RecoveryReport.t OutboundFrame.t Frame) :=
  λ '(self, heap),
  match entry self connection with
  | Err _ => (self, heap, Err ConnectionRecoveryError.StaleConnection)
  | Ok entry =>
      match EngineState.failure (ConnectionSlot.state (ConnectionEntry.slot entry)) with
      | None => (self, heap, Err ConnectionRecoveryError.OwnerRunning)
      | Some reason => recover_connection connection reason (self, heap)
      end
  end.

Definition abandon (connection : ConnectionToken.t) (requested : OwnerFailure.t)
    : STE owner ConnectionRecoveryError.t (RecoveryReport.t OutboundFrame.t Frame) :=
  λ '(self, heap),
  match entry self connection with
  | Err _ => (self, heap, Err ConnectionRecoveryError.StaleConnection)
  | Ok entry =>
      let reason :=
        default requested
          (EngineState.failure (ConnectionSlot.state (ConnectionEntry.slot entry))) in
      recover_connection connection reason (self, heap)
  end.

(** ** Construction of a connection ([set_connect.rs]) *)

(** [let _removed = self.resources.remove(resource);]. *)
Definition remove_resource (self : t) (resource : ResourceToken) : t :=
  set_resources self (table_remove (resources self) resource).1.

(** The registration block: the transport is bound to its slot, registered,
    and its pressure and limit sampled again. *)
Definition register_transport (poller : MioPoller) (resource : ResourceToken) (entry : Entry)
    (transport : T) (pressure : TransportPressure.t) (transport_limit : RetainedBytes)
    : MioPoller * Entry * T * result unit MioError * TransportPressure.t * RetainedBytes :=
  let slot := ConnectionEntry.slot entry in
  let entry := ConnectionEntry.set_interest entry (Drive.desired_interest slot transport) in
  let slot := ConnectionSlot.set_transport_pressure slot (Some pressure) in
  let slot := ConnectionSlot.set_transport_retained_limit slot (Some transport_limit) in
  let '(poller, transport, registration) :=
    poller_register rt_source poller transport resource (ConnectionEntry.interest entry) in
  let '(slot, pressure) := Drive.observe_transport_pressure slot transport in
  let limit := TransportLimits.retained_bytes (tr_pressure_limit transport) in
  (poller,
   ConnectionEntry.set_slot (ConnectionEntry.set_transport entry (Some transport)) slot,
   transport, registration, pressure, limit).

(** What follows a registration that succeeded with an unfit transport. *)
Definition unregister_unfit (self : t) (resource : ResourceToken) (entry : Entry)
    (transport : T) (pressure : TransportPressure.t) (error : ConnectError.t Error)
    : t * ConnectError.t Error :=
  let slot :=
    ConnectionSlot.set_transport_pressure (ConnectionEntry.slot entry) (Some pressure) in
  let '(poller, transport, cleanup) :=
    poller_deregister rt_source (poller self) transport resource in
  let '(slot, _) := Drive.observe_transport_pressure slot transport in
  let entry :=
    ConnectionEntry.set_slot (ConnectionEntry.set_transport entry (Some transport)) slot in
  let self := update_entry (set_poller self poller) resource entry in
  match cleanup with
  | Err source =>
      (remove_resource (latch_selector_failure self source) resource, ConnectError.Mio source)
  | Ok _ => (remove_resource self resource, error)
  end.

(** From the registration of an admitted transport to the token. *)
Definition bind_transport (self : t) (resource : ResourceToken) (identity : ConnectionIdentity.t)
    (entry : Entry) (transport : T) (pressure : TransportPressure.t)
    (transport_limit : RetainedBytes)
    : t * result ConnectionToken.t (ConnectError.t Error) :=
  let '(poller, entry, transport, registration, post_pressure, post_limit) :=
    register_transport (poller self) resource entry transport pressure transport_limit in
  let self := update_entry (set_poller self poller) resource entry in
  match registration with
  | Err source => (remove_resource self resource, Err (ConnectError.Mio source))
  | Ok _ =>
      let limit_changed := negb (rb_eqb post_limit transport_limit) in
      if limit_changed || rb_gtb (TransportPressure.total post_pressure) transport_limit then
        let '(self, error) :=
          unregister_unfit self resource entry transport post_pressure
            (if limit_changed then ConnectError.TransportLimit transport_limit post_limit
             else ConnectError.TransportCapacity transport_limit post_pressure) in
        (self, Err error)
      else (enqueue self resource, Ok (ConnectionToken.new resource identity))
  end.

(** [ledger] is the address the core's ledger is allocated at. *)
Definition connect_with {K : Type} {Con : TransportConnector K T} (config : ConnectionConfig.t)
    (limits : ConnectionSlotLimits.t) (decoder : D) (classifier : C) (connector : K)
    (ledger : LedgerRef) : STE owner (ConnectError.t Error) ConnectionToken.t :=
  λ '(self, heap),
  match owner_failure self with
  | Some reason => (self, heap, Err (ConnectError.OwnerFailed reason))
  | None =>
  match ConnectionSlot.new (ConnectionConfig.slot config) limits decoder classifier ledger heap with
  | (heap, Err e) => (self, heap, Err (ConnectError.Decoder e))
  | (heap, Ok slot) =>
      let identity := ConnectionConfig.identity config in
      let entry := ConnectionEntry.mk slot None interest_READ_WRITE false in
      match table_admit (resources self) identity entry with
      | (resources, None) => (set_resources self resources, heap, Err ConnectError.ResourceAdmission)
      | (resources, Some resource) =>
          let self := set_resources self resources in
          match connector_connect connector (ConnectionConfig.address config)
                  (ConnectionSlotLimits.transport_limits limits) with
          | Err source => (remove_resource self resource, heap, Err (ConnectError.Io source))
          | Ok transport =>
              let pressure := tr_pressure transport in
              let limit := ConnectionSlotLimits.transport_retained_bytes limits in
              let transport_limit :=
                TransportLimits.retained_bytes (tr_pressure_limit transport) in
              if rb_gtb transport_limit limit then
                (remove_resource self resource, heap,
                 Err (ConnectError.TransportLimit limit transport_limit))
              else if rb_gtb (TransportPressure.total pressure) transport_limit then
                (remove_resource self resource, heap,
                 Err (ConnectError.TransportCapacity transport_limit pressure))
              else
                let '(self, r) :=
                  bind_transport self resource identity entry transport pressure
                    transport_limit in
                (self, heap, r)
          end
      end
  end end.

(** ** Turns ([set_drive.rs]) *)

Definition apply_command (command : ConnectionCommand.t) (s : owner) : owner :=
  let '(self, heap) := s in
  let connection := ConnectionCommand.connection command in
  let resource := ConnectionToken.resource connection in
  match entry_mut self connection with
  | Err _ => (set_stale_commands self (u64_saturating_add (stale_commands self) 1), heap)
  | Ok entry =>
      let '(entry, heap, result) :=
        match command with
        | ConnectionCommand.OpenAdmission _ =>
            on_slot (ConnectionSlot.open_admission ;;! ste_ret tt) entry heap
        | ConnectionCommand.Cancel _ operation =>
            on_slot (ConnectionSlot.cancel operation ;;! ste_ret tt) entry heap
        | ConnectionCommand.BeginDrain _ deadline =>
            on_slot (ConnectionSlot.begin_drain deadline ;;! ste_ret tt) entry heap
        | ConnectionCommand.Close _ =>
            on_slot (ConnectionSlot.finalize CloseReason.Requested ;;! ste_ret tt) entry heap
        end in
      let entry :=
        match result with
        | Err error =>
            ConnectionEntry.set_slot entry
              (ConnectionSlot.latch_failure (ConnectionEntry.slot entry) error)
        | Ok _ => entry
        end in
      (enqueue (update_entry self resource entry) resource, heap)
  end.

Definition drive_commands (s : owner) : owner * Z :=
  let '(self, heap) := s in
  let '(commands, buffer, report) :=
    mailbox_drain_into (commands self) (command_buffer self)
      (ConnectionSetLimits.commands_per_turn (limits self)) in
  let self := set_command_buffer (set_commands self commands) buffer in
  let self := set_command_more_pending self (drain_more_pending report) in
  let drained := drain_drained report in
  let '(self, heap) := foldl (λ s command, apply_command command s) (self, heap) buffer in
  (set_command_buffer self [], heap, drained).

Definition observe_transport_readiness (slot : ConnectionSlot.t D C) (transport : T)
    (readiness : Readiness) : ConnectionSlot.t D C * T :=
  let transport := rt_observe_readiness transport readiness in
  match Drive.capture_transport_pressure slot transport with
  | (slot, Err error) => (ConnectionSlot.latch_failure slot error, transport)
  | (slot, Ok _) => (slot, transport)
  end.

(** One event of [ingest_readiness]. *)
Definition ingest_event (self : t) (event : PollEvent) : t :=
  match poll_event_resource event with
  | None => self
  | Some (token, readiness) =>
      let stale :=
        set_stale_resource_events self (u64_saturating_add (stale_resource_events self) 1) in
      match table_get (resources self) token with
      | None => stale
      | Some (_, entry) =>
          match ConnectionEntry.transport entry with
          | None => stale
          | Some transport =>
              let '(slot, transport) :=
                observe_transport_readiness (ConnectionEntry.slot entry) transport readiness in
              let entry :=
                ConnectionEntry.set_slot
                  (ConnectionEntry.set_transport entry (Some transport)) slot in
              if ConnectionEntry.ready_queued entry then update_entry self token entry
              else
                set_ready (update_entry self token (ConnectionEntry.set_ready_queued entry true))
                  (ready self ++ [token])
          end
      end
  end.

Definition ingest_readiness (self : t) : t * Z :=
  let '(events, drained) := poll_events_drain (poll_events self) in
  (foldl ingest_event (set_poll_events self events) drained,
   Z.min (Z.of_nat (length drained)) USIZE_MAX).

Definition ingest_poll_batches (self : t) : t * result Z EngineError.t :=
  let '(self, work) := ingest_readiness self in
  if poll_saturated self then
    match poll_selector self span_ZERO with
    | (self, Err e) => (self, Err e)
    | (self, Ok report) =>
        let '(self, more) := ingest_readiness (observe_poll self report) in
        (self, Ok (usize_saturating_add work more))
    end
  else (self, Ok work).

(** ** Fair progression ([set_drive/ready.rs]) *)

Definition shutdown_or_io (slot : ConnectionSlot.t D C) (now : Moment) (transport : T) : bool :=
  if bool_decide (is_Some (ConnectionSlot.close_request slot))
  then Drive.has_runnable_shutdown slot now transport
  else Drive.has_runnable_io slot transport.

(** The condition of [enqueue_candidates]. *)
Definition should_enqueue (now : Moment) (entry : Entry) : bool :=
  let slot := ConnectionEntry.slot entry in
  match ConnectionSlot.next_deadline slot with
  | Some deadline => is_elapsed_at deadline now
  | None => false
  end
  || ConnectionSlot.transport_release_ready slot
  || match ConnectionEntry.transport entry with
     | Some transport => shutdown_or_io slot now transport
     | None => false
     end.

Definition enqueue_candidate (now : Moment) (self : t) (resource : ResourceToken) : t :=
  match table_get (resources self) resource with
  | Some (_, entry) => if should_enqueue now entry then enqueue self resource else self
  | None => self
  end.

Definition enqueue_candidates (self : t) (now : Moment) : t :=
  let self := set_scan self (tokens self) in
  foldl (enqueue_candidate now) self (scan self).

(** The condition under which a driven connection is queued again. *)
Definition still_runnable (now : Moment) (progress : SlotProgress.t) (entry : Entry) : bool :=
  let slot := ConnectionEntry.slot entry in
  bool_decide (EngineState.failure (ConnectionSlot.state slot) = None)
  && match ConnectionEntry.transport entry with
     | Some transport =>
         SlotProgress.saturated progress || ConnectionSlot.transport_release_ready slot
         || shutdown_or_io slot now transport
     | None => false
     end.

(** The block ['entry] of [drive_ready]: one quantum of a connection that left
    the queue, its settlement and its interest; the work done and whether the
    connection goes back. *)
Definition drive_entry (now : Moment) (poller : MioPoller) (resource : ResourceToken)
    (entry : Entry) (heap : Heap.t)
    : MioPoller * Entry * Heap.t * result (Z * bool) EngineError.t :=
  let entry := ConnectionEntry.set_ready_queued entry false in
  let '(slot, heap, transport, driven) :=
    Drive.drive_quantum now (ConnectionEntry.slot entry, heap, ConnectionEntry.transport entry) in
  let '(slot, progress) :=
    match driven with
    | Ok progress => (slot, progress)
    | Err error => (ConnectionSlot.latch_failure slot error, SlotProgress.mk 0 false)
    end in
  let entry := ConnectionEntry.set_slot (ConnectionEntry.set_transport entry transport) slot in
  match settle_entry poller resource entry heap with
  | (poller, entry, heap, Err error) => (poller, entry, heap, Err error)
  | (poller, entry, heap, Ok settled) =>
      match sync_interest poller resource entry with
      | (poller, entry, Err error) => (poller, entry, heap, Err error)
      | (poller, entry, Ok interest) =>
          (poller, entry, heap,
           Ok (usize_saturating_add (usize_saturating_add (SlotProgress.work progress) settled)
                 interest,
               still_runnable now progress entry))
      end
  end.

(** One round of the ['ready] loop, from the work done so far; none when the
    queue is empty. *)
Definition ready_round (now : Moment) (work : Z) (s : owner)
    : owner * option (result Z EngineError.t) :=
  let '(self, heap) := s in
  match ready self with
  | [] => (self, heap, None)
  | resource :: rest =>
      let self := set_ready self rest in
      match table_get (resources self) resource with
      | None =>
          (set_stale_resource_events self (u64_saturating_add (stale_resource_events self) 1), heap,
           Some (Ok work))
      | Some (_, entry) =>
          let '(poller, entry, heap, result) :=
            drive_entry now (poller self) resource entry heap in
          let self := update_entry (set_poller self poller) resource entry in
          match result with
          | Err error => (latch_readiness_error self error, heap, Some (Err error))
          | Ok (progress, requeue) =>
              (if requeue : bool then enqueue self resource else self, heap,
               Some (Ok (usize_saturating_add work progress)))
          end
      end
  end.

(** The ['ready] loop over at most [rounds] connections. *)
Fixpoint ready_rounds (rounds : nat) (now : Moment) (work : Z) : STE owner EngineError.t Z :=
  λ s,
  match rounds with
  | O => (s, Ok work)
  | S rounds =>
      match ready_round now work s with
      | (s, None) => (s, Ok work)
      | (s, Some (Err error)) => (s, Err error)
      | (s, Some (Ok work)) => ready_rounds rounds now work s
      end
  end.

Definition ready_budget (self : t) : nat :=
  Z.to_nat (nonzero_get (ConnectionSetLimits.ready_connections_per_turn (limits self))).

Definition drive_ready (now : Moment) : STE owner EngineError.t Z := λ '(self, heap),
  ready_rounds (ready_budget self) now 0 (self, heap).

(** The deadline of an entry whose slot did not fail. *)
Definition running_deadline (entry : Entry) : option Deadline :=
  match EngineState.failure (ConnectionSlot.state (ConnectionEntry.slot entry)) with
  | Some _ => None
  | None => ConnectionSlot.next_deadline (ConnectionEntry.slot entry)
  end.

Definition earliest_deadline (self : t) : option Deadline :=
  ConnectionSlot.deadline_min
    (omap (λ '(_, (_, entry)), running_deadline entry) (table_iter (resources self))).

(** How the owner should wait for its next turn. *)
Definition next_turn (self : t) : Next :=
  if command_more_pending self || poll_saturated self || negb (bool_decide (ready self = []))
  then next_now
  else match earliest_deadline self with
       | None => next_wake
       | Some deadline => next_wake_or deadline
       end.

Definition turn_component (now : Moment) : STE owner EngineError.t Turn := λ '(self, heap),
  match ensure_owner_running self with
  | Err e => (self, heap, Err e)
  | Ok _ =>
      let '(self, heap, work) := drive_commands (self, heap) in
      match ingest_poll_batches self with
      | (self, Err e) => (self, heap, Err e)
      | (self, Ok ingested) =>
          let work := usize_saturating_add work ingested in
          let self := enqueue_candidates self now in
          match drive_ready now (self, heap) with
          | (self, heap, Err e) => (self, heap, Err e)
          | (self, heap, Ok driven) =>
              let work := usize_saturating_add work driven in
              (self, heap, Ok (turn_new (to_u64 work) (next_turn self)))
          end
      end
  end.

(** [impl Duty]. *)
Definition turn (now : Moment) : STE owner EngineError.t Turn := turn_component now.

(** [impl Drop]: what is left of the selector when the set goes. *)
Definition deregister_token (self : t) (token : ResourceToken) : t :=
  match table_get (resources self) token with
  | None => self
  | Some (_, entry) =>
      match ConnectionEntry.transport entry with
      | None => self
      | Some transport =>
          let '(poller, transport, _) :=
            poller_deregister rt_source (poller self) transport token in
          update_entry (set_poller self poller) token
            (ConnectionEntry.set_transport entry (Some transport))
      end
  end.

Definition drop (self : t) : t :=
  let self := set_commands self (mailbox_close (commands self)) in
  let self := set_scan self (tokens self) in
  foldl deregister_token self (scan self).

(** [ConnectionWaiter] ([waiter.rs]). *)
Definition wait (self : t) (maximum : Span) : t * result WaitOutcome EngineError.t :=
  poll_io self maximum.

End connection_set.
#[global] Arguments t {Cal BB H SH} D C {Dec} T.
#[global] Arguments owner {Cal BB H SH} D C {Dec} T.
End ConnectionSet.
