(* ===== verification/SetSpec.v ===== *)
(** * What the methods of a connection set touch

    [live] is the table of a set as a finite map. Each method is shown to touch
    the entry it names and no other ([spares]), to keep the ready queue exact
    ([queue_ok]) and the registrations with the selector exact
    ([registered_ok]); a failure of the selector is the one thing that reaches
    every entry. *)
From Stdlib Require Import ZArith Lia.
From stdpp Require Import prelude gmap.
From S2P Require Import Prelude External Host Identity Limits Admission Ledger Operation Permit.
From S2P Require Import Write Framing Machine Core Recovery Config Transport SlotData Slot Drive.
From S2P Require Import SetHost SetData SetOwner.

Import ConnectionSet.

Module SetSpec.
Section set_spec.
Context {Cal : Calandria} {BB : ByteBudgetLib} {Build : BuildConfig} {H : Host} {SH : SetHost}.
Context {SHL : SetHostLaws SH}.
Context {D C : Type} {Dec : FrameDecoder D} {Ret : Retained Frame}.
Context {Cls : InboundClassifier Frame C}.
Context {T : Type} {TP : SlotTransport T} {RT : RegisteredTransport T}.
Implicit Types (self : ConnectionSet.t D C T) (e : ConnectionEntry.t D C T).
Implicit Types (token resource : ResourceToken).

Definition live self : gmap ResourceToken (ConnectionIdentity.t * ConnectionEntry.t D C T) :=
  table_map (resources self).

Lemma get_live self token : table_get (resources self) token = live self !! token.
Proof. apply table_get_map. Qed.

Lemma update_live self token id e e' :
  live self !! token = Some (id, e) →
  live (update_entry self token e') = <[token := (id, e')]> (live self).
Proof. intros Hl. apply (table_set_map _ _ _ _ e' Hl). Qed.

Lemma update_same self token id e e' :
  live self !! token = Some (id, e) → live (update_entry self token e') !! token = Some (id, e').
Proof. intros Hl. rewrite (update_live _ _ _ _ _ Hl). apply lookup_insert_eq. Qed.

Lemma update_other self token token' id e e' :
  live self !! token = Some (id, e) → token' ≠ token →
  live (update_entry self token e') !! token' = live self !! token'.
Proof. intros Hl Hne. rewrite (update_live _ _ _ _ _ Hl). by apply lookup_insert_ne. Qed.

Lemma update_issued self token id e e' :
  live self !! token = Some (id, e) →
  table_issued (resources (update_entry self token e')) = table_issued (resources self).
Proof. intros Hl. apply (table_set_map _ _ _ _ e' Hl). Qed.

Lemma update_capacity self token id e e' :
  live self !! token = Some (id, e) →
  table_capacity (resources (update_entry self token e')) = table_capacity (resources self).
Proof. intros Hl. apply (table_set_map _ _ _ _ e' Hl). Qed.

Lemma tokens_live self token : token ∈ tokens self ↔ is_Some (live self !! token).
Proof.
  unfold tokens. rewrite table_iter_map. split.
  - intros ([t' kv] & -> & Hin)%list_elem_of_fmap. exists kv. by apply elem_of_map_to_list.
  - intros [kv Hl]. apply list_elem_of_fmap. exists (token, kv). split; [done|].
    by apply elem_of_map_to_list.
Qed.

Lemma tokens_nodup self : NoDup (tokens self).
Proof. unfold tokens. rewrite table_iter_map. apply NoDup_fst_map_to_list. Qed.

Lemma entry_live self connection e :
  entry self connection = Ok e ↔
    live self !! ConnectionToken.resource connection =
      Some (ConnectionToken.identity connection, e).
Proof.
  unfold entry. rewrite get_live. destruct (live self !! _) as [[id e']|]; [|naive_solver].
  case_bool_decide; simpl; [subst|]; naive_solver.
Qed.

Lemma entry_stale self connection err :
  entry self connection = Err err → err = ConnectionAccessError.StaleConnection.
Proof. unfold entry. repeat case_match; naive_solver. Qed.

(** The entry of a token, with its identity. *)
Lemma live_entry self token id e :
  live self !! token = Some (id, e) → entry self (ConnectionToken.new token id) = Ok e.
Proof. intros. by apply entry_live. Qed.

(** ** The ready queue and the registrations *)

(** The queue holds, once each, the connections whose flag says so. *)
Record queue_ok self : Prop := mk_queue_ok {
  qu_nodup : NoDup (ready self);
  qu_flag : ∀ token, token ∈ ready self ↔
    ∃ id e, live self !! token = Some (id, e) ∧ ConnectionEntry.ready_queued e = true;
}.

(** A live transport is registered, and while the selector works nothing else
    is. *)
Record registered_ok self : Prop := mk_registered_ok {
  rg_live : ∀ token id e, live self !! token = Some (id, e) →
    is_Some (ConnectionEntry.transport e) → token ∈ poller_tokens (poller self);
  rg_only : owner_failure self = None → ∀ token, token ∈ poller_tokens (poller self) →
    ∃ id e, live self !! token = Some (id, e) ∧ is_Some (ConnectionEntry.transport e);
}.

(** [self'] differs from [self] in the entry of [resource] only, and in its
    place in the queue. *)
Record spares resource self self' : Prop := mk_spares {
  sp_limits : limits self' = limits self;
  sp_issued : table_issued (resources self') = table_issued (resources self);
  sp_capacity : table_capacity (resources self') = table_capacity (resources self);
  sp_failure : owner_failure self' = owner_failure self;
  sp_other : ∀ token, token ≠ resource → live self' !! token = live self !! token;
  sp_identity : fst <$> live self' !! resource = fst <$> live self !! resource;
  sp_order : filter (λ token, token ≠ resource) (ready self') =
    filter (λ token, token ≠ resource) (ready self);
  sp_queue : queue_ok self → queue_ok self';
  sp_registered : registered_ok self → registered_ok self';
}.

#[global] Instance spares_refl resource : Reflexive (spares resource).
Proof. by split. Qed.

#[global] Instance spares_trans resource : Transitive (spares resource).
Proof.
  intros x y z [] []. split; try congruence; auto.
  intros token Hne. by rewrite sp_other1, sp_other0.
Qed.

(** Two sets that agree on the table, the queue and the registrations. *)
Lemma spares_same resource self self' :
  limits self' = limits self → resources self' = resources self → ready self' = ready self →
  poller self' = poller self → owner_failure self' = owner_failure self → spares resource self self'.
Proof.
  intros Hl Hr Hq Hp Hf. split; try congruence; unfold live; try by rewrite ?Hr, ?Hq.
  - intros [Hn Hs]. split; unfold live in *; by rewrite ?Hq, ?Hr.
  - intros [Hn Hs]. split; unfold live in *; rewrite ?Hp, ?Hr, ?Hf; auto.
Qed.

(** The registrations move with the transport of the entry. *)
Lemma registered_update self resource p id e e' :
  live self !! resource = Some (id, e) →
  (∀ token, token ≠ resource → token ∈ poller_tokens p ↔ token ∈ poller_tokens (poller self)) →
  ((is_Some (ConnectionEntry.transport e) → resource ∈ poller_tokens (poller self)) →
   is_Some (ConnectionEntry.transport e') → resource ∈ poller_tokens p) →
  ((resource ∈ poller_tokens (poller self) → is_Some (ConnectionEntry.transport e)) →
   resource ∈ poller_tokens p → is_Some (ConnectionEntry.transport e')) →
  registered_ok self → registered_ok (update_entry (set_poller self p) resource e').
Proof.
  intros Hl Hother Hreg Hreg' [Hw Hs].
  assert (live (set_poller self p) !! resource = Some (id, e)) as Hl' by done. split.
  - intros token id' e1. rewrite (update_live _ _ _ _ _ Hl').
    destruct (decide (token = resource)) as [->|Hne]; simpl.
    + rewrite lookup_insert_eq. intros [= <- <-]. apply Hreg. by eapply Hw.
    + rewrite lookup_insert_ne by done. intros ? ?. apply Hother; [done|]. by eapply Hw.
  - intros Hf token. simpl in *. rewrite (update_live _ _ _ _ _ Hl').
    destruct (decide (token = resource)) as [->|Hne].
    + rewrite lookup_insert_eq. intros Hin. exists id, e'. split; [done|]. apply Hreg'; [|done].
      intros Hp. destruct (Hs Hf _ Hp) as (? & ? & Hl2 & ?). congruence.
    + rewrite lookup_insert_ne by done. intros ?%Hother; [|done]. by apply Hs.
Qed.

Lemma queue_update self resource id e e' :
  live self !! resource = Some (id, e) →
  ConnectionEntry.ready_queued e' = ConnectionEntry.ready_queued e →
  queue_ok self → queue_ok (update_entry self resource e').
Proof.
  intros Hl Hq [Hn Hs]. split; [done|]. intros token. simpl. rewrite Hs, (update_live _ _ _ _ _ Hl).
  destruct (decide (token = resource)) as [->|Hne].
  - rewrite lookup_insert_eq, Hl. naive_solver congruence.
  - by rewrite lookup_insert_ne.
Qed.

(** A write to one entry that keeps its flag. *)
Lemma spares_update self resource p id e e' :
  live self !! resource = Some (id, e) →
  ConnectionEntry.ready_queued e' = ConnectionEntry.ready_queued e →
  (∀ token, token ≠ resource → token ∈ poller_tokens p ↔ token ∈ poller_tokens (poller self)) →
  ((is_Some (ConnectionEntry.transport e) → resource ∈ poller_tokens (poller self)) →
   is_Some (ConnectionEntry.transport e') → resource ∈ poller_tokens p) →
  ((resource ∈ poller_tokens (poller self) → is_Some (ConnectionEntry.transport e)) →
   resource ∈ poller_tokens p → is_Some (ConnectionEntry.transport e')) →
  spares resource self (update_entry (set_poller self p) resource e').
Proof.
  intros Hl Hq Hother Hreg Hreg'.
  assert (live (set_poller self p) !! resource = Some (id, e)) as Hl' by done.
  split; try done.
  - by rewrite (update_issued _ _ _ _ _ Hl').
  - by rewrite (update_capacity _ _ _ _ _ Hl').
  - intros token Hne. by rewrite (update_other _ _ _ _ _ _ Hl' Hne).
  - by rewrite (update_same _ _ _ _ _ Hl'), Hl.
  - intros [Hn Hs]. eapply queue_update; [exact Hl'|exact Hq|by split].
  - by eapply registered_update.
Qed.

Lemma set_poller_id self : set_poller self (poller self) = self.
Proof. by destruct self. Qed.

(** The same, when the selector is not called. *)
Lemma spares_entry self resource id e e' :
  live self !! resource = Some (id, e) →
  ConnectionEntry.ready_queued e' = ConnectionEntry.ready_queued e →
  (is_Some (ConnectionEntry.transport e') ↔ is_Some (ConnectionEntry.transport e)) →
  spares resource self (update_entry self resource e').
Proof.
  intros Hl Hq Ht. rewrite <- (set_poller_id self) at 2.
  eapply spares_update; [exact Hl|done|done|..]; naive_solver.
Qed.

(** [enqueue] puts a live connection at the end of the queue, once. *)
Lemma enqueue_cases self resource :
  (enqueue self resource = self ∧
     ∀ id e, live self !! resource = Some (id, e) → ConnectionEntry.ready_queued e = true) ∨
  (∃ id e, live self !! resource = Some (id, e) ∧ ConnectionEntry.ready_queued e = false ∧
     enqueue self resource =
       set_ready (update_entry self resource (ConnectionEntry.set_ready_queued e true))
         (ready self ++ [resource])).
Proof.
  unfold enqueue. rewrite get_live. destruct (live self !! resource) as [[id e]|] eqn:Hl; [|left; naive_solver].
  destruct (ConnectionEntry.ready_queued e) eqn:Hq; [left; naive_solver|right]. by exists id, e.
Qed.

(** A connection that was not queued joins the end of the queue. *)
Lemma spares_join resource self id e e' :
  live self !! resource = Some (id, e) → ConnectionEntry.ready_queued e = false →
  ConnectionEntry.ready_queued e' = true →
  (is_Some (ConnectionEntry.transport e') ↔ is_Some (ConnectionEntry.transport e)) →
  spares resource self
    (set_ready (update_entry self resource e') (ready self ++ [resource])).
Proof.
  intros Hl Hq Hq' Ht. split; try done.
  - exact (update_issued self resource id e _ Hl).
  - exact (update_capacity self resource id e _ Hl).
  - intros token Hne. exact (update_other self resource token id e _ Hl Hne).
  - rewrite Hl. exact (f_equal (fmap fst) (update_same self resource id e _ Hl)).
  - simpl. rewrite filter_app, filter_cons_False, filter_nil, app_nil_r; [done|]. by intros [].
  - intros [Hn Hs]. split; simpl.
    + apply NoDup_app. split; [done|]. split; [|apply NoDup_singleton].
      intros token Hin ->%list_elem_of_singleton. apply Hs in Hin as (? & ? & ? & ?). congruence.
    + intros token. rewrite elem_of_app, list_elem_of_singleton, Hs.
      change (live (set_ready _ _)) with (live (update_entry self resource e')).
      rewrite (update_live _ _ _ _ _ Hl). destruct (decide (token = resource)) as [->|Hne].
      * rewrite lookup_insert_eq. naive_solver.
      * rewrite lookup_insert_ne by done. naive_solver.
  - intros Hr. destruct (registered_update self resource (poller self) id e e' Hl ltac:(done)
      ltac:(naive_solver) ltac:(naive_solver) Hr). by split.
Qed.

Lemma spares_enqueue resource self : spares resource self (enqueue self resource).
Proof.
  destruct (enqueue_cases self resource) as [[-> _]|(id & e & Hl & Hq & ->)]; [reflexivity|].
  by eapply spares_join.
Qed.

(** ** Settlement and interest *)

(** What a call on the selector for one entry keeps. *)
Record moves resource (p : MioPoller) e (p' : MioPoller) e' : Prop := mk_moves {
  mo_flag : ConnectionEntry.ready_queued e' = ConnectionEntry.ready_queued e;
  mo_other : ∀ token, token ≠ resource → token ∈ poller_tokens p' ↔ token ∈ poller_tokens p;
  mo_live : (is_Some (ConnectionEntry.transport e) → resource ∈ poller_tokens p) →
    is_Some (ConnectionEntry.transport e') → resource ∈ poller_tokens p';
  mo_only : (resource ∈ poller_tokens p → is_Some (ConnectionEntry.transport e)) →
    resource ∈ poller_tokens p' → is_Some (ConnectionEntry.transport e');
}.

Lemma moves_trans resource p e p1 e1 p2 e2 :
  moves resource p e p1 e1 → moves resource p1 e1 p2 e2 → moves resource p e p2 e2.
Proof.
  intros [] []. split; [congruence| |naive_solver|naive_solver].
  intros token Hne. by rewrite mo_other1, mo_other0.
Qed.

(** Nothing moves when neither the selector nor the presence of a transport
    changes. *)
Lemma moves_entry resource p e e' :
  ConnectionEntry.ready_queued e' = ConnectionEntry.ready_queued e →
  (is_Some (ConnectionEntry.transport e') ↔ is_Some (ConnectionEntry.transport e)) →
  moves resource p e p e'.
Proof. intros. split; naive_solver. Qed.

Lemma moves_deregister resource p t p' t' (r : result unit MioError) e e' :
  poller_deregister rt_source p t resource = (p', t', r) →
  ConnectionEntry.ready_queued e' = ConnectionEntry.ready_queued e →
  is_Some (ConnectionEntry.transport e) →
  ConnectionEntry.transport e' = (if is_ok r then None else Some t') →
  moves resource p e p' e'.
Proof.
  intros Hd Hq Ht Ht'. pose proof (poller_deregister_tokens rt_source p t resource) as Hl.
  rewrite Hd in Hl. split; rewrite ?Ht', ?Hl; destruct (is_ok r); try done; try set_solver.
Qed.

Lemma settle_entry_moves p resource e heap p' e' heap' r :
  settle_entry p resource e heap = (p', e', heap', r) → moves resource p e p' e'.
Proof.
  unfold settle_entry. destruct (ConnectionSlot.take_close_request _) as [slot [directive|]].
  2:{ intros. simplify_eq. by apply moves_entry. }
  destruct (ConnectionEntry.transport e) as [t|] eqn:Ht.
  2:{ destruct (settle_slot _ _ _). intros. simplify_eq. apply moves_entry; [done|].
      by rewrite Ht. }
  destruct (poller_deregister _ _ _ _) as [[p1 t1] [u|source]] eqn:Hd;
    destruct (Drive.capture_transport_pressure _ _) as [slot1 [u'|error]];
    try destruct (settle_slot _ _ _); intros; simplify_eq;
    (eapply moves_deregister; [exact Hd|done|by rewrite Ht|done]).
Qed.

Lemma sync_interest_moves p resource e p' e' r :
  sync_interest p resource e = (p', e', r) → moves resource p e p' e'.
Proof.
  unfold sync_interest. destruct (ConnectionEntry.transport e) as [t|] eqn:Ht;
    [|intros; simplify_eq; by apply moves_entry].
  destruct (interest_eqb _ _); [intros; simplify_eq; by apply moves_entry|].
  pose proof (poller_reregister_tokens rt_source p t resource
    (Drive.desired_interest (ConnectionEntry.slot e) t)) as Hl.
  destruct (poller_reregister _ _ _ _ _) as [[p1 t1] [u|source]];
    destruct (Drive.capture_transport_pressure _ _) as [slot1 [u'|error]]; intros; simplify_eq;
    (split; simpl in *; rewrite ?Ht, ?Hl; try done; naive_solver).
Qed.

Lemma spares_moves self resource id e p e' :
  live self !! resource = Some (id, e) → moves resource (poller self) e p e' →
  spares resource self (update_entry (set_poller self p) resource e').
Proof. intros Hl []. by eapply spares_update. Qed.

Lemma spares_retain self resource :
  spares resource self (settled_entry self resource 1).
Proof.
  unfold settled_entry. cbn [Z.eqb]. rewrite get_live.
  change (live (retain_ready self resource)) with (live self).
  destruct (live self !! resource) as [[id e]|] eqn:Hl.
  - assert (live (retain_ready self resource) !! resource = Some (id, e)) as Hl' by done.
    set (e' := ConnectionEntry.set_ready_queued e false).
    assert (queue_ok self → queue_ok (update_entry (retain_ready self resource) resource e')) as Hq.
    { intros [Hn Hs]. split; simpl; [by apply NoDup_filter|]. intros token.
      rewrite list_elem_of_filter, (update_live _ _ _ _ _ Hl'), Hs.
      destruct (decide (token = resource)) as [->|Hne].
      - rewrite lookup_insert_eq. subst e'. naive_solver.
      - rewrite lookup_insert_ne by done. naive_solver. }
    split; try done.
    + exact (update_issued _ _ _ _ _ Hl').
    + exact (update_capacity _ _ _ _ _ Hl').
    + intros token Hne. exact (update_other _ _ _ _ _ _ Hl' Hne).
    + by rewrite (update_same _ _ _ _ _ Hl'), Hl.
    + simpl. by rewrite list_filter_filter_l by done.
    + intros Hr. destruct (registered_update self resource (poller self) id e e' Hl
        ltac:(done) ltac:(auto) ltac:(auto) Hr). by split.
  - split; try done.
    + simpl. by rewrite list_filter_filter_l by done.
    + intros [Hn Hs]. split; simpl; [by apply NoDup_filter|]. intros token.
      rewrite list_elem_of_filter, Hs. split; [naive_solver|].
      intros (id & e & Hl2 & He). split; [|by exists id, e]. intros ->.
      change (live self !! resource = Some (id, e)) in Hl2. congruence.
    + intros [Hw Hs]. by split.
Qed.

Lemma spares_settled self resource settled : spares resource self (settled_entry self resource settled).
Proof.
  destruct (Z.eqb_spec settled 0) as [->|Hne]; [reflexivity|].
  replace (settled_entry self resource settled) with (settled_entry self resource 1);
    [apply spares_retain|]. unfold settled_entry. cbn [Z.eqb]. by rewrite (proj2 (Z.eqb_neq _ _) Hne).
Qed.

(** ** Failure of the selector *)

Definition fence (source : MioError) (kv : ConnectionIdentity.t * ConnectionEntry.t D C T)
    : ConnectionIdentity.t * ConnectionEntry.t D C T :=
  (kv.1, fence_entry source OwnerFailure.Readiness kv.2).

(** Every entry is fenced, the queue emptied and the mailbox closed. *)
Record fences source self self' : Prop := mk_fences {
  fe_failure : owner_failure self' = Some OwnerFailure.Readiness;
  fe_ready : ready self' = [];
  fe_commands : commands self' = mailbox_close (commands self);
  fe_live : live self' = fence source <$> live self;
  fe_poller : poller self' = poller self;
  fe_limits : limits self' = limits self;
  fe_issued : table_issued (resources self') = table_issued (resources self);
  fe_capacity : table_capacity (resources self') = table_capacity (resources self);
}.

(** What a write to the table leaves alone. *)
Definition outside self :=
  (limits self, poller self, ready self, commands self, owner_failure self,
   table_issued (resources self), table_capacity (resources self)).

Lemma update_outside self token id e e' :
  live self !! token = Some (id, e) → outside (update_entry self token e') = outside self.
Proof.
  intros Hl. unfold outside. simpl.
  destruct (table_set_map (resources self) token id e e' Hl) as (_ & -> & ->). done.
Qed.

Lemma fence_loop source l self :
  NoDup l →
  let self' := foldl (fence_token source OwnerFailure.Readiness) self l in
  outside self' = outside self ∧
  ∀ token, live self' !! token =
    if decide (token ∈ l) then fence source <$> live self !! token else live self !! token.
Proof.
  revert self. induction l as [|x l IH]; intros self Hn; simpl.
  { split; [done|]. intros token. destruct (decide (token ∈ [])) as [Hin|]; [|done].
    by apply not_elem_of_nil in Hin. }
  apply NoDup_cons in Hn as [Hx Hn].
  destruct (IH (fence_token source OwnerFailure.Readiness self x) Hn) as [Ho Hl].
  assert (outside (fence_token source OwnerFailure.Readiness self x) = outside self ∧
    ∀ token, live (fence_token source OwnerFailure.Readiness self x) !! token =
      if decide (token = x) then fence source <$> live self !! token else live self !! token)
    as [Ho1 Hl1].
  { unfold fence_token. rewrite get_live. destruct (live self !! x) as [[id e]|] eqn:He.
    - split; [by eapply update_outside|]. intros token. rewrite (update_live _ _ _ _ _ He).
      destruct (decide (token = x)) as [->|Hne]; [by rewrite lookup_insert_eq, He|].
      by rewrite lookup_insert_ne.
    - split; [done|]. intros token. destruct (decide (token = x)) as [->|]; [|done].
      by rewrite He. }
  split; [by rewrite Ho|]. intros token. rewrite Hl, Hl1.
  destruct (decide (token = x)) as [->|Hne].
  - rewrite (decide_False (P := x ∈ l)) by done. rewrite decide_True; [done|set_solver].
  - destruct (decide (token ∈ l)) as [Hin|Hin].
    + rewrite decide_True; [done|set_solver].
    + rewrite decide_False; [done|set_solver].
Qed.

Lemma latch_fences self source :
  owner_failure self = None → fences source self (latch_selector_failure self source).
Proof.
  intros Hf. unfold latch_selector_failure. rewrite Hf.
  set (self1 := set_scan _ _).
  destruct (fence_loop source (scan self1) self1 (tokens_nodup _)) as [Ho Hl].
  injection Ho as Ha Hb Hc Hd He Hg Hi.
  split; [exact He|exact Hc|exact Hd| |exact Hb|exact Ha|exact Hg|exact Hi].
  apply map_eq. intros token. rewrite Hl, lookup_fmap.
  change (live self1) with (live self). destruct (decide (token ∈ scan self1)) as [|Hn]; [done|].
  change (scan self1) with (tokens self) in Hn. rewrite tokens_live in Hn.
  destruct (live self !! token); [by destruct Hn|done].
Qed.

Lemma latch_again self source reason :
  owner_failure self = Some reason → latch_selector_failure self source = self.
Proof. intros Hf. unfold latch_selector_failure. by rewrite Hf. Qed.

Lemma latch_cases self source :
  latch_selector_failure self source = self ∧ owner_failure self ≠ None ∨
  owner_failure self = None ∧ fences source self (latch_selector_failure self source).
Proof.
  destruct (owner_failure self) as [reason|] eqn:Hf.
  - left. split; [by eapply latch_again|done].
  - right. split; [done|]. by apply latch_fences.
Qed.

Lemma fenced_queue source self self' : fences source self self' → queue_ok self'.
Proof.
  intros [_ Hr _ Hl _ _ _ _]. split; rewrite Hr; [constructor|]. intros token.
  rewrite Hl, lookup_fmap. split; [by intros ?%not_elem_of_nil|].
  intros (id & e & Hk & Hq). destruct (live self !! token) as [[id' e']|]; [|done].
  injection Hk as <- <-. discriminate Hq.
Qed.

Lemma fenced_registered source self self' :
  fences source self self' → registered_ok self → registered_ok self'.
Proof.
  intros [Hf _ _ Hl Hp _ _ _] [Hw _]. split; rewrite ?Hf, ?Hp; [|done].
  intros token id e. rewrite Hl, lookup_fmap.
  destruct (live self !! token) as [[id' e']|] eqn:He; [|done]. intros [= <- <-] Ht.
  exact (Hw _ _ _ He Ht).
Qed.

Lemma latch_queue self source : queue_ok self → queue_ok (latch_selector_failure self source).
Proof. destruct (latch_cases self source) as [[-> _]|[_ Hf]]; [done|]. intros _. by eapply fenced_queue. Qed.

Lemma latch_registered self source :
  registered_ok self → registered_ok (latch_selector_failure self source).
Proof. destruct (latch_cases self source) as [[-> _]|[_ Hf]]; [done|]. by apply (fenced_registered source). Qed.

(** ** A method of one connection *)

(** It touches one entry; its last step may be a failure of the selector. *)
Definition stepped resource self self' : Prop :=
  ∃ mid, spares resource self mid ∧
    (self' = mid ∨ ∃ source, self' = latch_selector_failure mid source).

Lemma stepped_spares resource self self' : spares resource self self' → stepped resource self self'.
Proof. intros Hs. exists self'. by split; [|left]. Qed.

Lemma stepped_refl resource self : stepped resource self self.
Proof. by apply stepped_spares. Qed.

Lemma spares_stepped resource self self1 self' :
  spares resource self self1 → stepped resource self1 self' → stepped resource self self'.
Proof. intros Hs (mid & Hm & Hf). exists mid. split; [by etrans|done]. Qed.

Lemma stepped_queue resource self self' : stepped resource self self' → queue_ok self → queue_ok self'.
Proof.
  intros (mid & Hs & [->|(source & ->)]) Hq; [by apply Hs|]. by apply latch_queue, Hs.
Qed.

Lemma stepped_registered resource self self' :
  stepped resource self self' → registered_ok self → registered_ok self'.
Proof.
  intros (mid & Hs & [->|(source & ->)]) Hq; [by apply Hs|]. by apply latch_registered, Hs.
Qed.

Lemma latch_readiness_stepped resource self error :
  stepped resource self (latch_readiness_error self error).
Proof.
  exists self. split; [done|]. destruct error; simpl; try by left. right. by eexists.
Qed.

Lemma settle_connection_stepped resource self heap self' heap' r :
  settle_connection resource (self, heap) = (self', heap', r) → stepped resource self self'.
Proof.
  unfold settle_connection. rewrite get_live.
  destruct (live self !! resource) as [[id e]|] eqn:Hl;
    [|intros; simplify_eq; apply stepped_refl].
  destruct (settle_entry _ _ _ _) as [[[p e'] heap1] r1] eqn:Hs.
  pose proof (spares_moves _ _ _ _ _ _ Hl (settle_entry_moves _ _ _ _ _ _ _ _ Hs)) as Hsp.
  destruct r1 as [settled|error]; intros; simplify_eq.
  - apply stepped_spares. etrans; [exact Hsp|apply spares_settled].
  - eapply spares_stepped; [exact Hsp|]. apply latch_readiness_stepped.
Qed.

Lemma enqueue_and_settle_stepped {A E : Type} resource (result : result A E) failed self heap self' heap' r :
  enqueue_and_settle resource result failed (self, heap) = (self', heap', r) →
  stepped resource self self'.
Proof.
  unfold enqueue_and_settle.
  destruct (settle_connection _ _) as [[self1 heap1] settled] eqn:Hs. intros. simplify_eq.
  eapply spares_stepped; [apply spares_enqueue|]. by eapply settle_connection_stepped.
Qed.

Lemma on_slot_entry {A E : Type} (f : STE (ConnectionSlot.owner D C) E A) e heap e' heap' r :
  on_slot f e heap = (e', heap', r) →
  ConnectionEntry.ready_queued e' = ConnectionEntry.ready_queued e ∧
  ConnectionEntry.transport e' = ConnectionEntry.transport e ∧
  ConnectionEntry.interest e' = ConnectionEntry.interest e ∧
  f (ConnectionEntry.slot e, heap) = (ConnectionEntry.slot e', heap', r).
Proof. unfold on_slot. destruct (f _) as [[slot heap1] r1]. intros. by simplify_eq. Qed.

Lemma spares_slot self resource id e e' :
  live self !! resource = Some (id, e) →
  ConnectionEntry.ready_queued e' = ConnectionEntry.ready_queued e →
  ConnectionEntry.transport e' = ConnectionEntry.transport e →
  spares resource self (update_entry self resource e').
Proof. intros Hl Hq Ht. eapply spares_entry; [exact Hl|exact Hq|]. by rewrite Ht. Qed.

Lemma controlled_stepped {A : Type} connection (f : STE (ConnectionSlot.owner D C) EngineError.t A)
    self heap self' heap' r :
  controlled connection f (self, heap) = (self', heap', r) →
  stepped (ConnectionToken.resource connection) self self'.
Proof.
  unfold controlled, entry_mut. destruct (entry self connection) as [e|err] eqn:He;
    [|intros; simplify_eq; apply stepped_refl].
  apply entry_live in He. destruct (on_slot f e heap) as [[e1 heap1] r1] eqn:Ho.
  apply on_slot_entry in Ho as (Hq & Ht & _ & _). intros Hr.
  eapply spares_stepped; [by eapply spares_slot|]. by eapply enqueue_and_settle_stepped.
Qed.

Lemma commit_stepped connection permit frame self heap self' heap' r :
  commit connection permit frame (self, heap) = (self', heap', r) →
  stepped (ConnectionToken.resource connection) self self'.
Proof.
  unfold commit, entry_mut. destruct (entry self connection) as [e|err] eqn:He;
    [|by apply enqueue_and_settle_stepped].
  apply entry_live in He. destruct (on_slot _ e heap) as [[e1 heap1] r1] eqn:Ho.
  apply on_slot_entry in Ho as (Hq & Ht & _ & _). intros Hr.
  eapply spares_stepped; [by eapply spares_slot|]. by eapply enqueue_and_settle_stepped.
Qed.

Lemma reserve_spares connection now options self heap self' heap' r :
  reserve connection now options (self, heap) = (self', heap', r) →
  spares (ConnectionToken.resource connection) self self'.
Proof.
  unfold reserve, entry_mut. destruct (entry self connection) as [e|err] eqn:He;
    [|intros; by simplify_eq].
  apply entry_live in He. destruct (on_slot _ e heap) as [[e1 heap1] r1] eqn:Ho.
  apply on_slot_entry in Ho as (Hq & Ht & _ & _). intros Hr. simplify_eq. by eapply spares_slot.
Qed.

Lemma drain_outcomes_spares self connection :
  spares (ConnectionToken.resource connection) self (drain_outcomes self connection).1.
Proof.
  unfold drain_outcomes, entry_mut. destruct (entry self connection) as [e|err] eqn:He; [|done].
  apply entry_live in He. destruct (ConnectionSlot.drain_outcomes _) as [slot l].
  by eapply spares_slot.
Qed.

Lemma drain_events_spares self connection :
  spares (ConnectionToken.resource connection) self (drain_events self connection).1.
Proof.
  unfold drain_events, entry_mut. destruct (entry self connection) as [e|err] eqn:He; [|done].
  apply entry_live in He. destruct (ConnectionSlot.drain_events _) as [slot l].
  by eapply spares_slot.
Qed.

End set_spec.
End SetSpec.
