(* ===== verification/SetLife.v ===== *)
(** * Connections that come and go

    Construction, retirement and recovery of one connection of a set: what is
    added to the table or taken from it, and that nothing else moves. *)
From Stdlib Require Import ZArith Lia.
From stdpp Require Import prelude gmap.
From S2P Require Import Prelude External Host Identity Limits Admission Ledger Operation Permit.
From S2P Require Import Write Framing Machine Core Recovery Config Transport SlotData Slot Drive.
From S2P Require Import SlotSpec SetHost SetData SetOwner SetSpec.

Import Hosted ConnectionSet SetSpec.

Module SetLife.
Section set_life.
Context {Cal : Calandria} {BB : ByteBudgetLib} {Build : BuildConfig} {H : Host} {SH : SetHost}.
Context {SHL : SetHostLaws SH}.
Context {D C : Type} {Dec : FrameDecoder D} {Ret : Retained Frame}.
Context {Cls : InboundClassifier Frame C}.
Context {T : Type} {TP : SlotTransport T} {RT : RegisteredTransport T}.
Implicit Types (self : ConnectionSet.t D C T) (e : ConnectionEntry.t D C T).
Implicit Types (token resource : ResourceToken).

(** ** Removal *)

(** The connection of [resource] is gone, and nothing else changed. *)
Record removed resource self self' : Prop := mk_removed {
  rm_limits : limits self' = limits self;
  rm_issued : table_issued (resources self') = table_issued (resources self);
  rm_capacity : table_capacity (resources self') = table_capacity (resources self);
  rm_live : live self' = delete resource (live self);
  rm_ready : ready self' = filter (λ token, token ≠ resource) (ready self);
}.

Lemma remove_table self resource :
  let self' := remove_resource self resource in
  live self' = delete resource (live self) ∧
  table_issued (resources self') = table_issued (resources self) ∧
  table_capacity (resources self') = table_capacity (resources self).
Proof.
  destruct (table_remove_map (resources self) resource) as (_ & ? & ? & ?). by split_and!.
Qed.

Lemma removed_queue resource self self' :
  removed resource self self' → queue_ok self → queue_ok self'.
Proof.
  intros [_ _ _ Hl Hr] [Hn Hs]. split; rewrite Hr; [by apply NoDup_filter|]. intros token.
  rewrite list_elem_of_filter, Hs, Hl. destruct (decide (token = resource)) as [->|Hne].
  - rewrite lookup_delete_eq. naive_solver.
  - rewrite lookup_delete_ne by done. naive_solver.
Qed.

Lemma removed_registered resource self self' :
  removed resource self self' →
  (∀ token, token ≠ resource →
     token ∈ poller_tokens (poller self') ↔ token ∈ poller_tokens (poller self)) →
  (owner_failure self' = None →
     owner_failure self = None ∧ resource ∉ poller_tokens (poller self')) →
  registered_ok self → registered_ok self'.
Proof.
  intros [_ _ _ Hl _] Hp Hf [Hw Hs]. split.
  - intros token id e. rewrite Hl. intros [Hne He]%lookup_delete_Some Ht.
    apply Hp; [done|]. exact (Hw _ _ _ He Ht).
  - intros Hnone token Hin. destruct (Hf Hnone) as [Hf0 Hno].
    destruct (decide (token = resource)) as [->|Hne]; [done|].
    destruct (Hs Hf0 token) as (id & e & He & Ht); [by apply Hp|].
    exists id, e. by rewrite Hl, lookup_delete_ne.
Qed.

(** Retirement removes a closed connection, or changes nothing. *)
Lemma retire_spec self heap connection self' r :
  retire self heap connection = (self', r) →
  match r with
  | Err _ => self' = self
  | Ok _ => ∃ e, entry self connection = Ok e ∧
      EngineState.failure (ConnectionSlot.state (ConnectionEntry.slot e)) = None ∧
      ConnectionEntry.transport e = None ∧
      ConnectionSlot.transport_state (ConnectionEntry.slot e) = TransportState.Closed ∧
      let s := ConnectionSlot.snapshot (ConnectionEntry.slot e) heap in
      ConnectionSlotSnapshot.pending_outcomes s = 0 ∧
      ConnectionSlotSnapshot.pending_events s = 0 ∧
      removed (ConnectionToken.resource connection) self self' ∧
      poller self' = poller self ∧ owner_failure self' = owner_failure self
  end.
Proof.
  unfold retire. destruct (entry self connection) as [e|] eqn:He; [|intros; by simplify_eq].
  pose proof He as Hl%entry_live.
  destruct (EngineState.failure _) eqn:Hrun; [intros; by simplify_eq|].
  destruct (bool_decide (is_Some _)) eqn:Ht; cbn [orb]; [intros; by simplify_eq|].
  destruct (negb (bool_decide (ConnectionSlotSnapshot.transport _ = _))) eqn:Hc;
    [intros; by simplify_eq|].
  destruct (_ || _) eqn:Hp; [intros; by simplify_eq|].
  set (self1 := retain_ready self _).
  destruct (table_remove_map (resources self1) (ConnectionToken.resource connection))
    as (H1 & H2 & H3 & H4).
  change (table_map (resources self1)) with (live self) in *. rewrite Hl in H1.
  destruct (table_remove _ _) as [table kv]. cbn [fst snd] in *. subst kv. intros. simplify_eq.
  exists e. split; [done|]. split; [done|].
  apply bool_decide_eq_false, eq_None_not_Some in Ht. split; [done|].
  apply negb_false_iff, bool_decide_eq_true in Hc. split; [done|].
  apply orb_false_iff in Hp as [Hp1%negb_false_iff Hp2%negb_false_iff].
  apply Z.eqb_eq in Hp1, Hp2. cbv zeta. split; [done|]. split; [done|]. by split.
Qed.

(** The set once the capability is released: a selector that failed to do so
    has told every peer. *)
Definition after_release self resource (p : MioPoller) e (cleanup : option MioError)
    : ConnectionSet.t D C T :=
  let mid := update_entry (set_poller self p) resource e in
  match cleanup with Some error => latch_selector_failure mid error | None => mid end.

(** What a released entry became. *)
Definition fenced_by (cleanup : option MioError) e e' : Prop :=
  e' = e ∨ ∃ error, cleanup = Some error ∧ e' = fence_entry error OwnerFailure.Readiness e.

Lemma after_release_live self resource p id e0 e cleanup :
  live self !! resource = Some (id, e0) →
  ∃ e2, live (after_release self resource p e cleanup) !! resource = Some (id, e2) ∧
    fenced_by cleanup e e2.
Proof.
  intros Hl. unfold after_release.
  assert (live (update_entry (set_poller self p) resource e) !! resource = Some (id, e)) as Hm
    by exact (update_same (set_poller self p) resource id e0 e Hl).
  destruct cleanup as [error|]; [|exists e; by split; [|left]].
  destruct (latch_cases (update_entry (set_poller self p) resource e) error) as [[-> _]|[_ Hf]].
  - exists e. by split; [|left].
  - exists (fence_entry error OwnerFailure.Readiness e). split; [|right; by exists error].
    by rewrite (fe_live _ _ _ Hf), lookup_fmap, Hm.
Qed.

(** Recovery takes the connection out and gives back what its slot owns. *)
Lemma recover_connection_spec connection reason self heap self' heap' r e :
  entry self connection = Ok e →
  recover_connection connection reason (self, heap) = (self', heap', r) →
  let resource := ConnectionToken.resource connection in
  let '(p, e1, cleanup, pressure_failed) := release_transport (poller self) resource e in
  let mid := after_release self resource p e1 cleanup in
  ∃ e2 slot2 report, fenced_by cleanup e1 e2 ∧
    live mid !! resource = Some (ConnectionToken.identity connection, e2) ∧
    ConnectionSlot.recover_owned reason (bool_decide (is_Some cleanup) || pressure_failed)
      (ConnectionEntry.slot e2, heap) = (slot2, heap', report) ∧
    r = Ok report ∧ removed resource mid self' ∧ owner_failure self' = owner_failure mid ∧
    poller self' = poller mid.
Proof.
  intros He. unfold recover_connection, entry_mut. rewrite He. apply entry_live in He.
  destruct (release_transport _ _ _) as [[[p e1] cleanup] failed].
  fold (after_release self (ConnectionToken.resource connection) p e1 cleanup).
  destruct (after_release_live self _ p _ _ e1 cleanup He) as (e2 & H2 & Hby).
  set (mid := after_release _ _ _ _ _) in *.
  destruct (table_remove_map (resources (retain_ready mid (ConnectionToken.resource connection)))
    (ConnectionToken.resource connection)) as (H3 & H4 & H5 & H6).
  change (table_map (resources (retain_ready mid _))) with (live mid) in *. rewrite H2 in H3.
  destruct (table_remove _ _) as [table kv]. cbn [fst snd] in *. subst kv.
  destruct (ConnectionSlot.recover_owned _ _ _) as [[slot2 heap2] report] eqn:Hro.
  intros. simplify_eq. exists e2, slot2, report.
  split; [done|]. split; [done|]. split; [done|]. split; [done|]. split; [by split|]. by split.
Qed.

Lemma release_transport_spec p0 resource e p e1 cleanup failed :
  release_transport p0 resource e = (p, e1, cleanup, failed) →
  ConnectionEntry.ready_queued e1 = ConnectionEntry.ready_queued e ∧
  (∀ token, token ≠ resource → token ∈ poller_tokens p ↔ token ∈ poller_tokens p0) ∧
  (cleanup = None → (resource ∈ poller_tokens p0 → is_Some (ConnectionEntry.transport e)) →
     resource ∉ poller_tokens p).
Proof.
  unfold release_transport. destruct (ConnectionEntry.transport e) as [t|].
  2:{ intros. simplify_eq. split; [done|]. split; [done|]. by intros _ Hi [? ?]%Hi. }
  pose proof (poller_deregister_tokens rt_source p0 t resource) as Hd.
  destruct (poller_deregister _ _ _ _) as [[p1 t1] r].
  destruct (Drive.capture_transport_pressure _ _) as [slot pressure]. intros. simplify_eq.
  split; [done|]. destruct r; simpl in *; rewrite Hd; split; try done; set_solver.
Qed.

(** ** Peers *)

(** The other connections are as they were, or the selector failed and they
    are fenced. *)
Definition isolated resource self self' : Prop :=
  (owner_failure self' = owner_failure self ∧
     ∀ token, token ≠ resource → live self' !! token = live self !! token) ∨
  (owner_failure self = None ∧ owner_failure self' = Some OwnerFailure.Readiness ∧
     ∃ source, ∀ token, token ≠ resource →
       live self' !! token = fence source <$> live self !! token).

Lemma isolated_refl resource self : isolated resource self self.
Proof. by left. Qed.

Lemma spares_isolated resource self self' : spares resource self self' → isolated resource self self'.
Proof. intros []. by left. Qed.

Lemma isolated_latch resource self mid source :
  owner_failure mid = owner_failure self →
  (∀ token, token ≠ resource → live mid !! token = live self !! token) →
  isolated resource self (latch_selector_failure mid source).
Proof.
  intros Hf Hl. destruct (latch_cases mid source) as [[-> _]|[Hn Hfe]]; [by left|right].
  split; [congruence|]. split; [apply (fe_failure _ _ _ Hfe)|]. exists source.
  intros token Hne. by rewrite (fe_live _ _ _ Hfe), lookup_fmap, Hl.
Qed.

Lemma stepped_isolated resource self self' : stepped resource self self' → isolated resource self self'.
Proof.
  intros (mid & [] & [->|(source & ->)]); [by left|]. by apply isolated_latch.
Qed.

Lemma isolated_removed resource self mid self' :
  isolated resource self mid → removed resource mid self' → owner_failure self' = owner_failure mid →
  isolated resource self self'.
Proof.
  intros Hi [_ _ _ Hl _] Hf.
  assert (∀ token, token ≠ resource → live self' !! token = live mid !! token) as Hk
    by (intros token Hne; by rewrite Hl, lookup_delete_ne).
  destruct Hi as [[Hf1 Hp]|(Hf1 & Hf2 & source & Hp)].
  - left. split; [congruence|]. intros token Hne. by rewrite Hk, Hp.
  - right. split; [done|]. split; [congruence|]. exists source.
    intros token Hne. by rewrite Hk, Hp.
Qed.

Lemma after_release_isolated self resource p id e0 e cleanup :
  live self !! resource = Some (id, e0) → isolated resource self (after_release self resource p e cleanup).
Proof.
  intros Hl. unfold after_release.
  assert (∀ token, token ≠ resource →
    live (update_entry (set_poller self p) resource e) !! token = live self !! token) as Hk.
  { intros token Hne. exact (update_other (set_poller self p) resource token id e0 e Hl Hne). }
  destruct cleanup as [error|]; [|by left]. by apply isolated_latch.
Qed.

Lemma recover_isolated connection reason self heap self' heap' r :
  recover_connection connection reason (self, heap) = (self', heap', r) →
  isolated (ConnectionToken.resource connection) self self'.
Proof.
  intros Hr. destruct (entry self connection) as [e|] eqn:He.
  - pose proof (recover_connection_spec _ _ _ _ _ _ _ _ He Hr) as Hs. cbv zeta in Hs.
    destruct (release_transport _ _ _) as [[[p e1] cleanup] failed].
    destruct Hs as (e2 & slot2 & report & _ & _ & _ & _ & Hrm & Hf & _).
    eapply isolated_removed; [|exact Hrm|exact Hf].
    apply entry_live in He. by eapply after_release_isolated.
  - unfold recover_connection, entry_mut in Hr. rewrite He in Hr. simplify_eq.
    apply isolated_refl.
Qed.

(** ** Recovery keeps the queue and the registrations *)

Lemma after_release_queue self resource p id e0 e cleanup :
  live self !! resource = Some (id, e0) →
  ConnectionEntry.ready_queued e = ConnectionEntry.ready_queued e0 →
  queue_ok self → queue_ok (after_release self resource p e cleanup).
Proof.
  intros Hl Hq Hk. unfold after_release.
  assert (queue_ok (update_entry (set_poller self p) resource e)) as Hm.
  { eapply queue_update; [exact Hl|exact Hq|]. by destruct Hk. }
  destruct cleanup; [by apply latch_queue|done].
Qed.

Lemma recover_queue connection reason self heap self' heap' r :
  recover_connection connection reason (self, heap) = (self', heap', r) →
  queue_ok self → queue_ok self'.
Proof.
  intros Hr Hq. destruct (entry self connection) as [e|] eqn:He.
  - pose proof (recover_connection_spec _ _ _ _ _ _ _ _ He Hr) as Hs. cbv zeta in Hs.
    destruct (release_transport _ _ _) as [[[p e1] cleanup] failed] eqn:Hrel.
    destruct Hs as (e2 & slot2 & report & _ & _ & _ & _ & Hrm & _).
    apply release_transport_spec in Hrel as (Hk & _).
    eapply removed_queue; [exact Hrm|]. eapply after_release_queue; [by apply entry_live|done|done].
  - unfold recover_connection, entry_mut in Hr. rewrite He in Hr. by simplify_eq.
Qed.

(** The registrations of the others, when one connection is left out. *)
Lemma isolated_registered resource self self' :
  isolated resource self self' →
  (∀ token, token ≠ resource →
     token ∈ poller_tokens (poller self') ↔ token ∈ poller_tokens (poller self)) →
  live self' !! resource = None →
  (owner_failure self' = None → resource ∉ poller_tokens (poller self')) →
  registered_ok self → registered_ok self'.
Proof.
  intros Hi Hp Hnone Hno [Hw Hs]. split.
  - intros token id e Hl Ht. destruct (decide (token = resource)) as [->|Hne]; [congruence|].
    apply Hp; [done|]. destruct Hi as [[_ Hk]|(_ & _ & source & Hk)]; rewrite Hk in Hl by done.
    + exact (Hw _ _ _ Hl Ht).
    + destruct (live self !! token) as [[id0 e0]|] eqn:H0; [|done]. injection Hl as <- <-.
      exact (Hw _ _ _ H0 Ht).
  - intros Hf token Hin. destruct (decide (token = resource)) as [->|Hne]; [by destruct (Hno Hf)|].
    destruct Hi as [[Hf1 Hk]|(_ & ? & _)]; [|congruence]. rewrite Hk by done.
    apply Hs; [congruence|]. by apply Hp.
Qed.

Lemma latch_poller self source : poller (latch_selector_failure self source) = poller self.
Proof. destruct (latch_cases self source) as [[-> _]|[_ []]]; done. Qed.

Lemma recover_registered connection reason self heap self' heap' r :
  recover_connection connection reason (self, heap) = (self', heap', r) →
  registered_ok self → registered_ok self'.
Proof.
  intros Hr Hg. pose proof (recover_isolated _ _ _ _ _ _ _ Hr) as Hi.
  destruct (entry self connection) as [e|] eqn:He.
  - pose proof (recover_connection_spec _ _ _ _ _ _ _ _ He Hr) as Hs. cbv zeta in Hs.
    destruct (release_transport _ _ _) as [[[p e1] cleanup] failed] eqn:Hrel.
    destruct Hs as (e2 & slot2 & report & _ & _ & _ & _ & Hrm & Hf & Hpo).
    apply release_transport_spec in Hrel as (_ & Hother & Hclean).
    assert (poller self' = p) as Hp.
    { rewrite Hpo. unfold after_release. destruct cleanup; [by rewrite latch_poller|done]. }
    eapply isolated_registered; [exact Hi| | | |exact Hg].
    + rewrite Hp. exact Hother.
    + rewrite (rm_live _ _ _ Hrm). apply lookup_delete_eq.
    + intros Hnone. rewrite Hp. apply Hclean.
      * destruct cleanup as [error|]; [|done]. rewrite Hf in Hnone.
        unfold after_release in Hnone.
        destruct (latch_cases (update_entry (set_poller self p)
          (ConnectionToken.resource connection) e1) error) as [[Heq Hn]|[_ []]];
          [rewrite Heq in Hnone|]; congruence.
      * intros Hin. apply entry_live in He. destruct Hi as [[Hf1 _]|(_ & ? & _)]; [|congruence].
        destruct (rg_only _ Hg ltac:(congruence) _ Hin) as (? & ? & Hl & ?). congruence.
  - unfold recover_connection, entry_mut in Hr. rewrite He in Hr. by simplify_eq.
Qed.

(** ** Construction *)

(** What a set keeps apart from its connections, its selector and its failure:
    limits, events, scratch space, mailbox and counters. *)
Definition aside self :=
  (limits self, poll_events self, scan self,
   (commands self, command_buffer self, command_more_pending self, poll_saturated self),
   (stale_backend_events self, stale_resource_events self, stale_commands self)).

(** A construction that failed left nothing behind but at most one spent
    generation. *)
Record restored self self' : Prop := mk_restored {
  re_aside : aside self' = aside self;
  re_capacity : table_capacity (resources self') = table_capacity (resources self);
  re_issued : table_issued (resources self') = table_issued (resources self) ∨
    ∃ token, token ∉ table_issued (resources self) ∧
      table_issued (resources self') = token :: table_issued (resources self);
  re_failure : owner_failure self' = owner_failure self;
  re_live : live self' = live self;
  re_ready : ready self' = ready self;
  re_tokens : poller_tokens (poller self') = poller_tokens (poller self);
}.

(** The connection [connection] was added, at the end of the queue. *)
Record added connection e self self' : Prop := mk_added {
  ad_aside : aside self' = aside self;
  ad_capacity : table_capacity (resources self') = table_capacity (resources self);
  ad_failure : owner_failure self' = owner_failure self;
  ad_fresh : ConnectionToken.resource connection ∉ table_issued (resources self);
  ad_issued : table_issued (resources self') =
    ConnectionToken.resource connection :: table_issued (resources self);
  ad_live : live self' = <[ConnectionToken.resource connection :=
    (ConnectionToken.identity connection, e)]> (live self);
  ad_ready : ready self' = ready self ++ [ConnectionToken.resource connection];
  ad_queued : ConnectionEntry.ready_queued e = true;
  ad_transport : is_Some (ConnectionEntry.transport e);
  ad_tokens : poller_tokens (poller self') =
    {[ConnectionToken.resource connection]} ∪ poller_tokens (poller self);
}.

Lemma aside_limits self self' : aside self' = aside self → limits self' = limits self.
Proof. by intros [=]. Qed.

Lemma restored_limits self self' : restored self self' → limits self' = limits self.
Proof. intros []. by apply aside_limits. Qed.

Lemma restored_issued self self' token :
  restored self self' → token ∈ table_issued (resources self) →
  token ∈ table_issued (resources self').
Proof. intros [_ _ [->|(? & _ & ->)] _ _ _ _]; [done|by right]. Qed.

Lemma added_limits connection e self self' :
  added connection e self self' → limits self' = limits self.
Proof. intros []. by apply aside_limits. Qed.

Lemma fresh_dead self token : token ∉ table_issued (resources self) → live self !! token = None.
Proof.
  intros Hf. apply eq_None_not_Some. intros [kv Hk]. by apply Hf, (table_live_issued _ _ _ Hk).
Qed.

(** A construction that failed so badly that the selector is fenced. *)
Definition lost_selector (error : ConnectError.t Error) self self' : Prop :=
  ∃ source, error = ConnectError.Mio source ∧ owner_failure self = None ∧
    owner_failure self' = Some OwnerFailure.Readiness ∧ ready self' = [] ∧
    live self' = fence source <$> live self ∧ limits self' = limits self ∧
    table_capacity (resources self') = table_capacity (resources self) ∧
    poller_tokens (poller self) ⊆ poller_tokens (poller self') ∧
    ∀ token, token ∈ table_issued (resources self) → token ∈ table_issued (resources self').

(** The transport is bound within its limit. *)
Definition within_limit (limit : RetainedBytes) e : Prop :=
  ConnectionSlot.transport_retained_limit (ConnectionEntry.slot e) = Some limit ∧
  ∃ pressure, ConnectionSlot.transport_pressure (ConnectionEntry.slot e) = Some pressure ∧
    rb_gtb (TransportPressure.total pressure) limit = false.

(** The new entry hosts the slot that was made for it, over the transport that
    was connected. *)
Record bound_to resource e t e' : Prop := mk_bound {
  bd_slot : same_host (ConnectionEntry.slot e) (ConnectionEntry.slot e');
  bd_transport : ∃ p i,
    ConnectionEntry.transport e' = Some (poller_register rt_source p t resource i).1.2;
}.

(** [m] is [self] with one more connection in the table, not queued yet. *)
Record pending self resource identity e m : Prop := mk_pending {
  pe_fresh : resource ∉ table_issued (resources self);
  pe_aside : aside m = aside self;
  pe_capacity : table_capacity (resources m) = table_capacity (resources self);
  pe_issued : table_issued (resources m) = resource :: table_issued (resources self);
  pe_failure : owner_failure m = owner_failure self;
  pe_ready : ready m = ready self;
  pe_live : live m = <[resource := (identity, e)]> (live self);
  pe_queued : ConnectionEntry.ready_queued e = false;
}.

Lemma pending_lookup self resource identity e m :
  pending self resource identity e m → live m !! resource = Some (identity, e).
Proof. intros []. by rewrite pe_live0, lookup_insert_eq. Qed.

Lemma pending_update self resource identity e m p e' :
  pending self resource identity e m → ConnectionEntry.ready_queued e' = false →
  pending self resource identity e' (update_entry (set_poller m p) resource e').
Proof.
  intros Hp Hq. assert (live (set_poller m p) !! resource = Some (identity, e)) as Hl
    by exact (pending_lookup _ _ _ _ _ Hp).
  destruct Hp. split; try done.
  - by rewrite (update_capacity _ _ _ _ e' Hl).
  - by rewrite (update_issued _ _ _ _ e' Hl).
  - rewrite (update_live _ _ _ _ e' Hl). change (live (set_poller m p)) with (live m).
    by rewrite pe_live0, insert_insert_eq.
Qed.

Lemma pending_removed self resource identity e m :
  pending self resource identity e m →
  poller_tokens (poller m) = poller_tokens (poller self) →
  restored self (remove_resource m resource).
Proof.
  intros [] Hp. destruct (remove_table m resource) as (H1 & H2 & H3).
  split; try done; [congruence| |].
  { right. exists resource. by rewrite H2. }
  rewrite H1, pe_live0, delete_insert_eq. apply delete_id. by apply fresh_dead.
Qed.

Lemma pending_lost self resource identity e m source :
  pending self resource identity e m → owner_failure self = None →
  poller_tokens (poller self) ⊆ poller_tokens (poller m) →
  lost_selector (ConnectError.Mio source) self
    (remove_resource (latch_selector_failure m source) resource).
Proof.
  intros [] Hn Hp. pose proof (latch_fences m source ltac:(congruence)) as Hf.
  destruct (remove_table (latch_selector_failure m source) resource) as (H1 & H2 & H3).
  exists source. split; [done|]. split; [done|]. split; [exact (fe_failure _ _ _ Hf)|].
  split; [exact (fe_ready _ _ _ Hf)|]. split; [|split; [|split; [|split]]].
  - rewrite H1, (fe_live _ _ _ Hf), pe_live0, fmap_insert, delete_insert_eq.
    apply delete_id. by rewrite lookup_fmap, (fresh_dead _ _ pe_fresh0).
  - transitivity (limits (latch_selector_failure m source)); [done|].
    rewrite (fe_limits _ _ _ Hf). by apply aside_limits.
  - by rewrite H3, (fe_capacity _ _ _ Hf).
  - transitivity (poller_tokens (poller m)); [exact Hp|]. by rewrite <- (fe_poller _ _ _ Hf).
  - intros token Hin. rewrite H2, (fe_issued _ _ _ Hf), pe_issued0. by constructor.
Qed.

(** Nothing is registered under a token that was never given out. *)
Lemma fresh_unregistered self resource :
  registered_ok self → owner_failure self = None → resource ∉ table_issued (resources self) →
  resource ∉ poller_tokens (poller self).
Proof.
  intros Hg Hn Hf Hin. destruct (rg_only _ Hg Hn _ Hin) as (id & e & Hl & _).
  by rewrite (fresh_dead _ _ Hf) in Hl.
Qed.

Lemma unregister_unfit_spec self resource identity e m t pressure error self' error' :
  pending self resource identity e m → registered_ok self → owner_failure self = None →
  poller_tokens (poller m) = {[resource]} ∪ poller_tokens (poller self) →
  unregister_unfit m resource e t pressure error = (self', error') →
  restored self self' ∧ error' = error ∨ lost_selector error' self self'.
Proof.
  intros Hpe Hg Hn Hp. unfold unregister_unfit.
  pose proof (fresh_unregistered _ _ Hg Hn (pe_fresh _ _ _ _ _ Hpe)) as Hnew.
  pose proof (poller_deregister_tokens rt_source (poller m) t resource) as Hd.
  destruct (poller_deregister _ _ _ _) as [[p1 t1] r].
  destruct (Drive.observe_transport_pressure _ _) as [slot pr].
  set (e1 := ConnectionEntry.set_slot _ _).
  pose proof (pending_update _ _ _ _ _ p1 e1 Hpe (pe_queued _ _ _ _ _ Hpe)) as Hpe1.
  destruct r as [u|source]; cbn [is_ok] in Hd; intros; simplify_eq.
  - left. split; [|done]. eapply pending_removed; [exact Hpe1|].
    cbn [poller update_entry set_resources set_poller]. set_solver.
  - right. eapply pending_lost; [exact Hpe1|done|].
    cbn [poller update_entry set_resources set_poller]. set_solver.
Qed.

(** The connection becomes observable within its limit, or not at all. *)
Lemma bind_transport_spec self resource identity e m t pressure limit self' r :
  pending self resource identity e m → registered_ok self → owner_failure self = None →
  poller m = poller self →
  bind_transport m resource identity e t pressure limit = (self', r) →
  match r with
  | Ok connection => connection = ConnectionToken.new resource identity ∧
      ∃ e', added connection e' self self' ∧ within_limit limit e' ∧ bound_to resource e t e'
  | Err error => restored self self' ∨ lost_selector error self self'
  end.
Proof.
  intros Hpe Hg Hn Hpo. unfold bind_transport, register_transport.
  set (interest := ConnectionEntry.interest _).
  pose proof (poller_register_tokens rt_source (poller m) t resource interest) as Hd.
  rewrite Hpo in *. destruct (poller_register _ _ _ _ _) as [[p1 t1] reg] eqn:Hreg.
  destruct (Drive.observe_transport_pressure _ t1) as [slot pr] eqn:Hobs.
  set (e1 := ConnectionEntry.set_slot _ _).
  pose proof (pending_update _ _ _ _ _ p1 e1 Hpe (pe_queued _ _ _ _ _ Hpe)) as Hpe1.
  destruct reg as [u|source]; cbn [is_ok] in Hd.
  2:{ intros. simplify_eq. left. by eapply pending_removed. }
  destruct (_ || _) eqn:Hfit.
  - destruct (unregister_unfit _ _ _ _ _ _) as [self1 error] eqn:Hu. intros. simplify_eq.
    apply (unregister_unfit_spec _ _ _ _ _ _ _ _ _ _ Hpe1 Hg Hn Hd) in Hu as [[? _]|?]; auto.
  - intros. simplify_eq. split; [done|].
    set (m1 := update_entry _ _ _) in *.
    destruct (enqueue_cases m1 resource) as [[_ Hq]|(id & e2 & Hl & Hq & ->)].
    { specialize (Hq _ _ (pending_lookup _ _ _ _ _ Hpe1)). by rewrite (pe_queued _ _ _ _ _ Hpe1) in Hq. }
    rewrite (pending_lookup _ _ _ _ _ Hpe1) in Hl. injection Hl as <- <-.
    exists (ConnectionEntry.set_ready_queued e1 true).
    pose proof (pending_lookup _ _ _ _ _ Hpe1) as Hl. destruct Hpe1. split.
    + split; try done.
      * etrans; [exact (update_capacity m1 resource _ _ _ Hl)|done].
      * etrans; [exact (update_issued m1 resource _ _ _ Hl)|done].
      * transitivity (live (update_entry m1 resource (ConnectionEntry.set_ready_queued e1 true)));
          [done|]. by rewrite (update_live _ _ _ _ _ Hl), pe_live0, insert_insert_eq.
      * exact (f_equal (λ l, l ++ [resource]) pe_ready0).
    + apply orb_false_iff in Hfit as [_ Hfit]. unfold Drive.observe_transport_pressure in Hobs.
      injection Hobs as <- <-. split; [|split; [by split|]].
      * split; [done|]. by exists (tr_pressure t1).
      * exists (poller self), interest. by rewrite Hreg.
Qed.

(** A new connection takes a token never given out; a construction that fails
    restores the set, unless it cost the selector. *)
Lemma connect_with_spec {K : Type} {Con : TransportConnector K T} config slot_limits decoder
    classifier (connector : K) ledger self heap self' heap' r :
  registered_ok self →
  connect_with config slot_limits decoder classifier connector ledger (self, heap) =
    (self', heap', r) →
  match r with
  | Ok connection => ∃ e' limit slot t, added connection e' self self' ∧ within_limit limit e' ∧
      ConnectionSlot.new (ConnectionConfig.slot config) slot_limits decoder classifier ledger heap =
        (heap', Ok slot) ∧
      bound_to (ConnectionToken.resource connection)
        (ConnectionEntry.mk slot None interest_READ_WRITE false) t e' ∧
      connector_connect connector (ConnectionConfig.address config)
        (ConnectionSlotLimits.transport_limits slot_limits) = Ok t ∧
      rb_gtb limit (ConnectionSlotLimits.transport_retained_bytes slot_limits) = false ∧
      ConnectionToken.identity connection = ConnectionConfig.identity config ∧
      owner_failure self = None ∧ Z.of_nat (size (live self)) < table_capacity (resources self)
  | Err error => (restored self self' ∨ lost_selector error self self') ∧
      (heap' = heap ∨
       heap' = (ConnectionSlot.new (ConnectionConfig.slot config) slot_limits decoder classifier
                  ledger heap).1)
  end.
Proof.
  intros Hg. assert (restored self self) as Hrefl by (split; try done; by left). unfold connect_with.
  destruct (owner_failure self) as [reason|] eqn:Hn;
    [intros; simplify_eq; split; by left|].
  destruct (ConnectionSlot.new _ _ _ _ _ _) as [heap1 [slot|err]] eqn:Hslot;
    [|intros; simplify_eq; split; [by left|by right]].
  set (e := ConnectionEntry.mk slot None interest_READ_WRITE false).
  destruct (table_admit _ _ _) as [table [resource|]] eqn:Ha.
  2:{ intros. simplify_eq. split; [|by right]. left. apply table_admit_full in Ha as [-> _].
      by destruct self. }
  apply table_admit_room in Ha as (Hf & Hi & Hm & Hc & Hroom).
  assert (pending self resource (ConnectionConfig.identity config) e (set_resources self table))
    as Hpe by by split.
  assert (restored self (remove_resource (set_resources self table) resource)) as Hgone
    by by eapply pending_removed.
  destruct (connector_connect _ _ _) as [t|source];
    [|intros; simplify_eq; split; [by left|by right]].
  destruct (rb_gtb (TransportLimits.retained_bytes _) _) eqn:Hlim;
    [intros; simplify_eq; split; [by left|by right]|].
  destruct (rb_gtb (TransportPressure.total _) _);
    [intros; simplify_eq; split; [by left|by right]|].
  destruct (bind_transport _ _ _ _ _ _ _) as [self1 r1] eqn:Hb. intros. simplify_eq.
  apply (bind_transport_spec self) in Hb; [|done..].
  destruct r as [connection|error]; [|split; [done|by right]]. destruct Hb as (-> & e' & Had & Hw & Hbd).
  by exists e', (TransportLimits.retained_bytes (tr_pressure_limit t)), slot, t.
Qed.

Lemma added_queue connection e self self' : added connection e self self' → queue_ok self → queue_ok self'.
Proof.
  intros [] [Hn Hs]. pose proof (fresh_dead _ _ ad_fresh0) as Hd. split; rewrite ad_ready0.
  - apply NoDup_app. split; [done|]. split; [|apply NoDup_singleton].
    intros token Hin ->%list_elem_of_singleton. apply Hs in Hin as (? & ? & ? & _). congruence.
  - intros token. rewrite elem_of_app, list_elem_of_singleton, Hs, ad_live0.
    destruct (decide (token = ConnectionToken.resource connection)) as [->|Hne].
    + rewrite lookup_insert_eq. naive_solver.
    + rewrite lookup_insert_ne by done. naive_solver.
Qed.

Lemma added_registered connection e self self' :
  added connection e self self' → registered_ok self → registered_ok self'.
Proof.
  intros [] [Hw Hs]. split; rewrite ad_tokens0.
  - intros token id e1. rewrite ad_live0.
    destruct (decide (token = ConnectionToken.resource connection)) as [->|Hne]; [set_solver|].
    rewrite lookup_insert_ne by done. intros Hl Ht. pose proof (Hw _ _ _ Hl Ht). set_solver.
  - rewrite ad_failure0. intros Hn token. rewrite ad_live0.
    destruct (decide (token = ConnectionToken.resource connection)) as [->|Hne].
    + rewrite lookup_insert_eq. intros _. by eexists _, _.
    + rewrite lookup_insert_ne by done. intros Hin. apply Hs; [done|]. set_solver.
Qed.

Lemma restored_queue self self' : restored self self' → queue_ok self → queue_ok self'.
Proof. intros [] [Hn Hs]. by split; rewrite ?re_live0, ?re_ready0. Qed.

Lemma restored_registered self self' : restored self self' → registered_ok self → registered_ok self'.
Proof. intros [] [Hw Hs]. by split; rewrite ?re_live0, ?re_tokens0, ?re_failure0. Qed.

Lemma lost_queue error self self' : lost_selector error self self' → queue_ok self'.
Proof.
  intros (source & _ & _ & _ & Hr & Hl & _). split; rewrite Hr; [constructor|]. intros token.
  rewrite Hl, lookup_fmap. split; [by intros ?%not_elem_of_nil|].
  intros (id & e & Hk & Hq). destruct (live self !! token) as [[id' e']|]; [|done].
  injection Hk as <- <-. discriminate Hq.
Qed.

Lemma lost_registered error self self' :
  lost_selector error self self' → registered_ok self → registered_ok self'.
Proof.
  intros (source & _ & _ & Hf & _ & Hl & _ & _ & Hp & _) [Hw _]. split; [|congruence].
  intros token id e. rewrite Hl, lookup_fmap.
  destruct (live self !! token) as [[id' e']|] eqn:He; [|done]. intros [= <- <-] Ht.
  apply Hp. exact (Hw _ _ _ He Ht).
Qed.

End set_life.
End SetLife.
