(* ===== verification/SetTurns.v ===== *)
(** * Turns of a connection set

    What a turn does to the table, the queue and the registrations, from any
    state: no step of it adds, removes or renames a connection ([calm]); up to
    the ready loop, connections only join the end of the queue ([grows]); each
    round of the loop serves the front of the queue ([ready_round_spec]), and
    what it serves goes back, at the end, exactly when it still has work
    ([quiet]). *)
From Stdlib Require Import ZArith Lia.
From stdpp Require Import prelude gmap.
From S2P Require Import Prelude External Host Identity Limits Admission Ledger Operation Permit.
From S2P Require Import Write Framing Machine Core Recovery Config Transport SlotData Slot Drive.
From S2P Require Import SlotFrame SetHost SetData SetOwner SetSpec.

Import ConnectionSet SetSpec.

Module SetTurns.
Section set_turns.
Context {Cal : Calandria} {BB : ByteBudgetLib} {Build : BuildConfig} {H : Host} {SH : SetHost}.
Context {SHL : SetHostLaws SH}.
Context {D C : Type} {Dec : FrameDecoder D} {Ret : Retained Frame}.
Context {Cls : InboundClassifier Frame C}.
Context {T : Type} {TP : SlotTransport T} {RT : RegisteredTransport T}.
Implicit Types (self : ConnectionSet.t D C T) (e : ConnectionEntry.t D C T).
Implicit Types (token resource : ResourceToken) (heap : Heap.t).

(** ** Steps *)

Record calm self self' : Prop := mk_calm {
  ca_limits : limits self' = limits self;
  ca_issued : table_issued (resources self') = table_issued (resources self);
  ca_capacity : table_capacity (resources self') = table_capacity (resources self);
  ca_identity : ∀ token, fst <$> live self' !! token = fst <$> live self !! token;
  ca_queue : queue_ok self → queue_ok self';
  ca_registered : registered_ok self → registered_ok self';
}.

#[export] Instance calm_preorder : PreOrder calm.
Proof.
  split; [by intros self; split|]. intros x y z [] []. split; try congruence; auto.
Qed.

Lemma spares_calm resource self self' : spares resource self self' → calm self self'.
Proof.
  intros []. split; try done. intros token.
  destruct (decide (token = resource)) as [->|Hne]; [done|]. by rewrite sp_other0.
Qed.

Lemma latch_calm self source : calm self (latch_selector_failure self source).
Proof.
  destruct (latch_cases self source) as [[-> _]|[_ Hf]]; [done|]. split.
  - apply (fe_limits _ _ _ Hf).
  - apply (fe_issued _ _ _ Hf).
  - apply (fe_capacity _ _ _ Hf).
  - intros token. rewrite (fe_live _ _ _ Hf), lookup_fmap. by destruct (live self !! token).
  - apply latch_queue.
  - apply latch_registered.
Qed.

Lemma latch_readiness_calm self error : calm self (latch_readiness_error self error).
Proof. destruct error; simpl; try done. apply latch_calm. Qed.

Lemma stepped_calm resource self self' : stepped resource self self' → calm self self'.
Proof.
  intros (mid & Hs & [->|(source & ->)]); [by eapply spares_calm|].
  etrans; [by eapply spares_calm|apply latch_calm].
Qed.

Lemma calm_size self self' : calm self self' → size (live self') = size (live self).
Proof.
  intros [_ _ _ Hid _ _]. rewrite <- !size_dom. f_equiv. apply set_eq. intros token.
  rewrite !elem_of_dom, <- !(fmap_is_Some fst). by rewrite Hid.
Qed.

(** A step after which the queue starts as it did. *)
Record grows self self' : Prop := mk_grows {
  gr_calm : calm self self';
  gr_failure : owner_failure self' = owner_failure self;
  gr_ready : ready self `prefix_of` ready self';
}.

#[export] Instance grows_preorder : PreOrder grows.
Proof.
  split; [by intros self; split|]. intros x y z [] []. split; [by etrans|congruence|by etrans].
Qed.

Lemma same_grows self self' :
  limits self' = limits self → resources self' = resources self → ready self' = ready self →
  poller_tokens (poller self') = poller_tokens (poller self) →
  owner_failure self' = owner_failure self → grows self self'.
Proof.
  intros Hl Hr Hq Hp Hf. split; [|done|by rewrite Hq].
  split; try congruence; unfold live in *; rewrite ?Hr; try done.
  - intros [Hn Hs]. split; unfold live in *; by rewrite ?Hq, ?Hr.
  - intros [Hw Hs]. split; unfold live in *; by rewrite ?Hp, ?Hr, ?Hf.
Qed.

Lemma enqueue_grows self resource : grows self (enqueue self resource).
Proof.
  pose proof (spares_enqueue resource self) as Hs. split; [by eapply spares_calm|by destruct Hs|].
  destruct (enqueue_cases self resource) as [[-> _]|(id & e & _ & _ & ->)]; [done|]. by eexists.
Qed.

Lemma entry_grows self resource id e e' :
  live self !! resource = Some (id, e) →
  ConnectionEntry.ready_queued e' = ConnectionEntry.ready_queued e →
  (is_Some (ConnectionEntry.transport e') ↔ is_Some (ConnectionEntry.transport e)) →
  grows self (update_entry self resource e').
Proof.
  intros Hl Hq Ht. pose proof (spares_entry _ _ _ _ _ Hl Hq Ht) as Hs.
  split; [by eapply spares_calm|by destruct Hs|done].
Qed.

Lemma join_grows self resource id e e' :
  live self !! resource = Some (id, e) → ConnectionEntry.ready_queued e = false →
  ConnectionEntry.ready_queued e' = true →
  (is_Some (ConnectionEntry.transport e') ↔ is_Some (ConnectionEntry.transport e)) →
  grows self (set_ready (update_entry self resource e') (ready self ++ [resource])).
Proof.
  intros Hl Hq Hq' Ht. pose proof (spares_join _ _ _ _ _ Hl Hq Hq' Ht) as Hs.
  split; [by eapply spares_calm|by destruct Hs|by eexists].
Qed.

(** ** Commands, events and candidates *)

Lemma apply_command_grows command (s : owner D C T) : grows s.1 (apply_command command s).1.
Proof.
  destruct s as [self heap]. unfold apply_command, entry_mut.
  destruct (entry self _) as [e|err] eqn:He; [|by apply same_grows]. apply entry_live in He.
  set (x := match command with ConnectionCommand.OpenAdmission _ => _ | _ => _ end).
  assert (ConnectionEntry.ready_queued x.1.1 = ConnectionEntry.ready_queued e ∧
    ConnectionEntry.transport x.1.1 = ConnectionEntry.transport e) as [Hq Ht].
  { subst x. destruct command; match goal with |- context [on_slot ?f e heap] =>
      destruct (on_slot f e heap) as [[e1 heap1] r] eqn:Ho end;
      by apply on_slot_entry in Ho as (? & ? & _). }
  destruct x as [[e1 heap1] r]. cbn [fst] in *. etrans; [|apply enqueue_grows].
  eapply entry_grows; [exact He| |]; destruct r; cbn; rewrite ?Hq, ?Ht; done.
Qed.

Lemma commands_grow l (s : owner D C T) :
  grows s.1 (foldl (λ s command, apply_command command s) s l).1.
Proof.
  revert s. induction l as [|command l IH]; intros s; [done|]. simpl. etrans; [|apply IH].
  apply apply_command_grows.
Qed.

Lemma drive_commands_grows (s : owner D C T) : grows s.1 (drive_commands s).1.1.
Proof.
  destruct s as [self heap]. unfold drive_commands.
  destruct (mailbox_drain_into _ _ _) as [[mailbox buffer] report].
  set (self1 := set_command_more_pending _ _). pose proof (commands_grow buffer (self1, heap)) as Hg.
  destruct (foldl _ _ _) as [self2 heap2]. transitivity self1; [by apply same_grows|].
  etrans; [exact Hg|]. by apply same_grows.
Qed.

Lemma ingest_event_grows self event : grows self (ingest_event self event).
Proof.
  unfold ingest_event. destruct (poll_event_resource event) as [[token readiness]|]; [|done].
  rewrite get_live. destruct (live self !! token) as [[id e]|] eqn:Hl; [|by apply same_grows].
  destruct (ConnectionEntry.transport e) as [t|] eqn:Ht; [|by apply same_grows].
  destruct (observe_transport_readiness _ _ _) as [slot t'].
  set (e1 := ConnectionEntry.set_slot _ _).
  case_match eqn:Hq.
  - eapply entry_grows; [exact Hl|done|]. cbn. by rewrite Ht.
  - eapply join_grows; [exact Hl|done|done|]. cbn. by rewrite Ht.
Qed.

Lemma ingest_grows self : grows self (ingest_readiness self).1.
Proof.
  unfold ingest_readiness. destruct (poll_events_drain _) as [events drained]. cbn [fst].
  transitivity (set_poll_events self events); [by apply same_grows|].
  generalize (set_poll_events self events) as self1.
  induction drained as [|event drained IH]; intros self1; [done|]. simpl. etrans; [|apply IH].
  apply ingest_event_grows.
Qed.

Lemma poll_selector_spec self maximum self' r :
  poll_selector self maximum = (self', r) →
  match r with
  | Ok _ => grows self self'
  | Err _ => calm self self'
  end.
Proof.
  unfold poll_selector. destruct (ensure_owner_running self); [|intros; by simplify_eq].
  pose proof (poller_poll_tokens (poller self) maximum (poll_events self)) as Hp.
  destruct (poller_poll _ _ _) as [[p events] x]. cbn [fst] in Hp.
  set (self1 := set_poll_events _ _). assert (grows self self1) as Hg by by apply same_grows.
  destruct x; cbn [resolve_selector_poll]; intros; simplify_eq; [done|].
  etrans; [apply Hg|apply latch_calm].
Qed.

Lemma batches_spec self self' r :
  ingest_poll_batches self = (self', r) →
  match r with
  | Ok _ => grows self self'
  | Err _ => calm self self'
  end.
Proof.
  unfold ingest_poll_batches. pose proof (ingest_grows self) as Hg.
  destruct (ingest_readiness self) as [self1 work]. cbn [fst] in Hg.
  destruct (poll_saturated self1); [|intros; by simplify_eq].
  destruct (poll_selector _ _) as [self2 [report|err]] eqn:Hp; apply poll_selector_spec in Hp.
  - pose proof (ingest_grows (observe_poll self2 report)) as Hg2.
    destruct (ingest_readiness _) as [self3 more]. intros. simplify_eq.
    etrans; [exact Hg|]. etrans; [exact Hp|]. etrans; [|exact Hg2]. by apply same_grows.
  - intros. simplify_eq. etrans; [apply Hg|exact Hp].
Qed.

(** ** Connections with work *)

(** A connection with nothing to do but for its deadlines: one that failed, one
    that has no transport, or one whose transport is neither to be driven nor
    released. *)
Definition idle now e : Prop :=
  EngineState.failure (ConnectionSlot.state (ConnectionEntry.slot e)) ≠ None ∨
  ConnectionEntry.transport e = None ∨
  ConnectionSlot.transport_release_ready (ConnectionEntry.slot e) = false ∧
  ∀ t, ConnectionEntry.transport e = Some t →
    shutdown_or_io (ConnectionEntry.slot e) now t = false.

(** The next deadline of a connection has passed. *)
Definition overdue now e : bool :=
  match ConnectionSlot.next_deadline (ConnectionEntry.slot e) with
  | Some deadline => is_elapsed_at deadline now
  | None => false
  end.

(** Every connection with work is queued, and so is every connection whose next
    deadline has passed, unless it is one of those [driven]. *)
Definition quiet now (driven : list ResourceToken) self : Prop :=
  ∀ token id e, live self !! token = Some (id, e) → ConnectionEntry.ready_queued e = false →
    idle now e ∧ (overdue now e = true → token ∈ driven).

Lemma quiet_more now driven driven' self :
  driven ⊆ driven' → quiet now driven self → quiet now driven' self.
Proof.
  intros Hsub Hq token id e Hl He. destruct (Hq token id e Hl He) as [Hi Ho].
  split; [done|]. intros Hd. by apply Hsub, Ho.
Qed.

Lemma candidate_idle now e :
  should_enqueue now e = false → idle now e ∧ overdue now e = false.
Proof.
  unfold should_enqueue. intros [[Hd Hr]%orb_false_iff Hio]%orb_false_iff. split; [|exact Hd].
  right. right. split; [done|]. intros t Ht. by rewrite Ht in Hio.
Qed.

Lemma runnable_idle now progress e : still_runnable now progress e = false → idle now e.
Proof.
  unfold still_runnable. intros [Hf|Hr]%andb_false_iff.
  - left. by apply bool_decide_eq_false in Hf.
  - right. destruct (ConnectionEntry.transport e) as [t|] eqn:Ht; [right|by left].
    apply orb_false_iff in Hr as [[_ Hr]%orb_false_iff Hio]. split; [done|]. congruence.
Qed.

(** Putting one connection in the queue changes no other entry. *)
Lemma enqueue_live self resource token id e :
  live (enqueue self resource) !! token = Some (id, e) →
  ConnectionEntry.ready_queued e = false → live self !! token = Some (id, e).
Proof.
  destruct (enqueue_cases self resource) as [[-> _]|(id0 & e0 & Hl & _ & ->)]; [done|].
  change (live (set_ready _ _)) with
    (live (update_entry self resource (ConnectionEntry.set_ready_queued e0 true))).
  rewrite (update_live _ _ _ _ _ Hl), lookup_insert_Some. intros [[_ [= <- <-]]|[_ ?]]; done.
Qed.

Lemma enqueue_quiet now driven self resource :
  quiet now driven self → quiet now driven (enqueue self resource).
Proof. intros Hq token id e Hl He. eapply Hq; [by eapply enqueue_live|done]. Qed.

(** A connection that is left out after the scan was seen without work. *)
Lemma scan_quiet now l self token id e :
  live (foldl (enqueue_candidate now) self l) !! token = Some (id, e) →
  ConnectionEntry.ready_queued e = false →
  live self !! token = Some (id, e) ∧ (token ∈ l → should_enqueue now e = false).
Proof.
  revert self. induction l as [|resource l IH]; intros self Hl He.
  { split; [done|]. by intros ?%not_elem_of_nil. }
  simpl in Hl. destruct (IH _ Hl He) as [Hl1 Hin]. unfold enqueue_candidate in Hl1.
  rewrite get_live in Hl1. destruct (live self !! resource) as [[id0 e0]|] eqn:Hr.
  - assert (live self !! token = Some (id, e)) as Hl0.
    { destruct (should_enqueue now e0); [by eapply enqueue_live|done]. }
    split; [done|]. intros [->|?]%elem_of_cons; [|by apply Hin].
    assert (e0 = e) as -> by congruence. destruct (should_enqueue now e) eqn:Hs; [|done].
    destruct (enqueue_cases self resource) as [[_ Hq]|(id1 & e1 & H1 & _ & Heq)].
    + specialize (Hq _ _ Hr). congruence.
    + rewrite Heq in Hl1. change (live (set_ready _ _)) with
        (live (update_entry self resource (ConnectionEntry.set_ready_queued e1 true))) in Hl1.
      rewrite (update_same _ _ _ _ _ H1) in Hl1. injection Hl1 as _ <-. discriminate He.
  - split; [done|]. intros [->|?]%elem_of_cons; [congruence|by apply Hin].
Qed.

Lemma candidates_quiet now self : quiet now [] (enqueue_candidates self now).
Proof.
  intros token id e Hl He. unfold enqueue_candidates in Hl.
  destruct (scan_quiet _ _ _ _ _ _ Hl He) as [Hl0 Hin].
  destruct (candidate_idle now e) as [Hi Ho]; [|split; [exact Hi|congruence]].
  apply Hin. change (scan _) with (tokens self). apply tokens_live. by eexists.
Qed.

Lemma candidates_grow now self : grows self (enqueue_candidates self now).
Proof.
  unfold enqueue_candidates. cbn [scan set_scan]. generalize (tokens self) at 2 as l. intros l.
  transitivity (set_scan self (tokens self)); [by apply same_grows|].
  generalize (set_scan self (tokens self)) as self1.
  induction l as [|resource l IH]; intros self1; [done|]. simpl. etrans; [|apply IH].
  unfold enqueue_candidate. repeat case_match; try done. apply enqueue_grows.
Qed.

(** ** Rounds *)

Lemma drive_entry_moves now p resource e heap p' e' heap' r :
  drive_entry now p resource e heap = (p', e', heap', r) →
  moves resource p (ConnectionEntry.set_ready_queued e false) p' e'.
Proof.
  unfold drive_entry. set (e0 := ConnectionEntry.set_ready_queued e false).
  pose proof (DriveFrame.quantum_keeps now
    (ConnectionEntry.slot e0, heap, ConnectionEntry.transport e0)) as Hkeep.
  destruct (Drive.drive_quantum _ _) as [[[slot heap1] t] driven]. cbn [fst snd] in Hkeep.
  set (y := match driven with Ok _ => _ | Err _ => _ end). destruct y as [slot1 progress].
  set (e1 := ConnectionEntry.set_slot _ slot1).
  assert (moves resource p e0 p e1) as H0 by (apply moves_entry; [done|exact Hkeep]).
  destruct (settle_entry _ _ _ _) as [[[p1 e2] heap2] r1] eqn:Hs.
  apply settle_entry_moves in Hs. pose proof (moves_trans _ _ _ _ _ _ _ H0 Hs) as H1.
  destruct r1 as [settled|error]; [|intros; by simplify_eq].
  destruct (sync_interest _ _ _) as [[p2 e3] r2] eqn:Hi. apply sync_interest_moves in Hi.
  pose proof (moves_trans _ _ _ _ _ _ _ H1 Hi) as H2. destruct r2; intros; by simplify_eq.
Qed.

Lemma drive_entry_idle now p resource e heap p' e' heap' work :
  drive_entry now p resource e heap = (p', e', heap', Ok (work, false)) → idle now e'.
Proof.
  unfold drive_entry. destruct (Drive.drive_quantum _ _) as [[[slot heap1] t] driven].
  destruct (match driven with Ok _ => _ | Err _ => _ end) as [slot1 progress].
  destruct (settle_entry _ _ _ _) as [[[p1 e2] heap2] [settled|error]]; [|intros; by simplify_eq].
  destruct (sync_interest _ _ _) as [[p2 e3] [interest|error]]; [|intros; by simplify_eq].
  intros [= _ <- _ _ Hrun]. by eapply runnable_idle.
Qed.

(** The front of the queue leaves it with a new entry. *)
Lemma spares_pop self resource rest id e p e' :
  ready self = resource :: rest → live self !! resource = Some (id, e) →
  moves resource (poller self) (ConnectionEntry.set_ready_queued e false) p e' →
  spares resource self (update_entry (set_poller (set_ready self rest) p) resource e').
Proof.
  intros Hr Hl [Hq Hother Hlive Honly].
  set (m := set_poller (set_ready self rest) p).
  assert (live m !! resource = Some (id, e)) as Hl' by done.
  split; try done.
  - by rewrite (update_issued _ _ _ _ _ Hl').
  - by rewrite (update_capacity _ _ _ _ _ Hl').
  - intros token Hne. by rewrite (update_other _ _ _ _ _ _ Hl' Hne).
  - by rewrite (update_same _ _ _ _ _ Hl'), Hl.
  - simpl. rewrite Hr, filter_cons_False; [done|]. by intros [].
  - intros [Hn Hs]. rewrite Hr in Hn, Hs. apply NoDup_cons in Hn as [Hnot Hn]. split; [done|].
    intros token. cbn [ready update_entry set_resources set_poller set_ready m].
    rewrite (update_live _ _ _ _ _ Hl'). destruct (decide (token = resource)) as [->|Hne].
    + rewrite lookup_insert_eq. split; [done|]. intros (? & ? & [= <- <-] & Hf). simpl in Hq. congruence.
    + rewrite lookup_insert_ne by done. change (live m) with (live self). rewrite <- Hs.
      rewrite elem_of_cons. naive_solver.
  - intros [Hw Ho]. refine (registered_update (set_ready self rest) resource p id e e' Hl Hother
      Hlive Honly _). by split.
Qed.

Lemma ready_round_spec now work self heap self' heap' x :
  ready_round now work (self, heap) = (self', heap', x) →
  match x with
  | None => ready self = [] ∧ self' = self ∧ heap' = heap
  | Some (Err _) => calm self self'
  | Some (Ok _) => ∃ resource rest back, ready self = resource :: rest ∧
      ready self' = rest ++ back ∧ (back = [] ∨ back = [resource]) ∧
      calm self self' ∧ owner_failure self' = owner_failure self ∧
      (∀ driven, quiet now driven self → quiet now (resource :: driven) self')
  end.
Proof.
  unfold ready_round. destruct (ready self) as [|resource rest] eqn:Hr; [intros; by simplify_eq|].
  rewrite get_live. change (live (set_ready self rest)) with (live self).
  destruct (live self !! resource) as [[id e]|] eqn:Hl.
  2:{ intros. simplify_eq. exists resource, rest, []. rewrite app_nil_r. split; [done|].
      split; [done|]. split; [by left|].
      split; [|split; [done|intros driven Hq; eapply quiet_more; [|exact Hq]; set_solver]]. split; try done.
      - intros [_ Hs]. exfalso. specialize (Hs resource). rewrite Hr in Hs.
        destruct (proj1 Hs) as (? & ? & ? & _); [by constructor|]. congruence.
      - intros [Hw Ho]. by split. }
  destruct (drive_entry _ _ _ _ _) as [[[p e1] heap1] r] eqn:Hd.
  pose proof (drive_entry_moves _ _ _ _ _ _ _ _ _ Hd) as Hm.
  pose proof (spares_pop _ _ _ _ _ _ _ Hr Hl Hm) as Hs.
  pose proof (mo_flag _ _ _ _ _ Hm) as Hflag. simpl in Hflag.
  set (m := update_entry _ _ _) in *.
  assert (live (set_poller (set_ready self rest) p) !! resource = Some (id, e)) as Hl' by done.
  assert (live m !! resource = Some (id, e1)) as Hm1 by exact (update_same _ _ _ _ _ Hl').
  assert (ready m = rest) as Hmr by done.
  clear Hl'. clearbody m. destruct r as [[progress requeue]|error]; intros [= <- <- <-].
  2:{ etrans; [by eapply spares_calm|]. apply latch_readiness_calm. }
  assert (∀ token id2 e2, live m !! token = Some (id2, e2) → token ≠ resource →
    live self !! token = Some (id2, e2)) as Hother.
  { intros token id2 e2 H2 Hne. by rewrite (sp_other _ _ _ Hs token Hne) in H2. }
  destruct requeue; exists resource, rest.
  - exists [resource]. split; [done|].
    destruct (enqueue_cases m resource) as [[_ Hbad]|(id3 & e3 & _ & _ & Heq)].
    { specialize (Hbad _ _ Hm1). congruence. }
    split; [rewrite Heq; simpl; by rewrite Hmr|]. split; [by right|].
    split; [etrans; [by eapply spares_calm|]; apply enqueue_grows|].
    split; [rewrite (gr_failure _ _ (enqueue_grows m resource)); by destruct Hs|].
    intros driven Hq token id2 e2 H2 He2. destruct (decide (token = resource)) as [->|Hne].
    + rewrite Heq in H2. change (live (set_ready _ _)) with
        (live (update_entry m resource (ConnectionEntry.set_ready_queued e3 true))) in H2.
      destruct (enqueue_cases m resource) as [[_ Hbad]|(id4 & e4 & H4 & _ & Heq4)].
      { specialize (Hbad _ _ Hm1). congruence. }
      assert (live (enqueue m resource) !! resource = Some (id2, e2)) as H5
        by (rewrite Heq; exact H2).
      rewrite Heq4 in H5. change (live (set_ready _ _)) with
        (live (update_entry m resource (ConnectionEntry.set_ready_queued e4 true))) in H5.
      rewrite (update_same _ _ _ _ _ H4) in H5. injection H5 as _ <-. discriminate He2.
    + apply enqueue_live in H2; [|done].
      destruct (Hq token id2 e2) as [Hi Ho]; [by eapply Hother|done|]. split; [done|]. by right; auto.
  - exists []. rewrite app_nil_r. split; [done|]. split; [done|]. split; [by left|].
    split; [by eapply spares_calm|]. split; [by destruct Hs|].
    intros driven Hq token id2 e2 H2 He2. destruct (decide (token = resource)) as [->|Hne].
    + rewrite Hm1 in H2. injection H2 as <- <-. split; [by eapply drive_entry_idle|by left].
    + destruct (Hq token id2 e2) as [Hi Ho]; [by eapply Hother|done|]. split; [done|]. by right; auto.
Qed.

(** ** The mailbox *)

(** What the steps after the commands leave of the mailbox. *)
Definition mail self := (commands self, command_more_pending self).

Lemma enqueue_mail self resource : mail (enqueue self resource) = mail self.
Proof. destruct (enqueue_cases self resource) as [[-> _]|(id & e & _ & _ & ->)]; done. Qed.

Lemma apply_command_mail command (s : owner D C T) : mail (apply_command command s).1 = mail s.1.
Proof.
  destruct s as [self heap]. unfold apply_command. destruct (entry_mut _ _); [|done].
  destruct (match command with ConnectionCommand.OpenAdmission _ => _ | _ => _ end) as [[e1 heap1] r].
  cbn [fst]. by rewrite enqueue_mail.
Qed.

Lemma ingest_event_mail self event : mail (ingest_event self event) = mail self.
Proof.
  unfold ingest_event. destruct (poll_event_resource event) as [[token readiness]|]; [|done].
  destruct (table_get _ _) as [[id e]|]; [|done]. destruct (ConnectionEntry.transport e); [|done].
  destruct (observe_transport_readiness _ _ _). by case_match.
Qed.

Lemma ingest_mail self : mail (ingest_readiness self).1 = mail self.
Proof.
  unfold ingest_readiness. destruct (poll_events_drain _) as [events drained]. cbn [fst].
  transitivity (mail (set_poll_events self events)); [|done].
  generalize (set_poll_events self events) as self1.
  induction drained as [|event drained IH]; intros self1; [done|]. simpl. rewrite IH.
  apply ingest_event_mail.
Qed.

Lemma batches_mail self self' work : ingest_poll_batches self = (self', Ok work) → mail self' = mail self.
Proof.
  unfold ingest_poll_batches. pose proof (ingest_mail self) as Hg.
  destruct (ingest_readiness self) as [self1 w]. cbn [fst] in Hg.
  destruct (poll_saturated self1); [|by intros [= <- _]]. unfold poll_selector.
  destruct (ensure_owner_running self1); [|done]. destruct (poller_poll _ _ _) as [[p events] [report|]];
    cbn [resolve_selector_poll]; [|done].
  pose proof (ingest_mail (observe_poll (set_poll_events (set_poller self1 p) events) report)) as Hg2.
  destruct (ingest_readiness _) as [self3 more]. intros [= <- _]. rewrite <- Hg. exact Hg2.
Qed.

Lemma candidates_mail now self : mail (enqueue_candidates self now) = mail self.
Proof.
  unfold enqueue_candidates. cbn [scan set_scan]. generalize (tokens self) at 2 as l. intros l.
  transitivity (mail (set_scan self (tokens self))); [|done].
  generalize (set_scan self (tokens self)) as self1.
  induction l as [|resource l IH]; intros self1; [done|]. simpl. rewrite IH.
  unfold enqueue_candidate. repeat case_match; try done. apply enqueue_mail.
Qed.

Lemma ready_round_mail now work (s s' : owner D C T) w :
  ready_round now work s = (s', Some (Ok w)) → mail s'.1 = mail s.1.
Proof.
  destruct s as [self heap]. unfold ready_round. destruct (ready self) as [|resource rest]; [done|].
  destruct (table_get _ _) as [[id e]|]; [|intros; by simplify_eq].
  destruct (drive_entry _ _ _ _ _) as [[[p e1] heap1] [[progress [|]]|error]]; intros; simplify_eq;
    [|done]. cbn [fst]. by rewrite enqueue_mail.
Qed.

(** After the commands, the mailbox is empty or known not to be. *)
Lemma drive_commands_mail (s : owner D C T) :
  let self := (drive_commands s).1.1 in
  command_more_pending self = false → mailbox_items (commands self) = [].
Proof.
  destruct s as [self heap]. unfold drive_commands.
  pose proof (mailbox_drain_spec (commands self) (command_buffer self)
    (ConnectionSetLimits.commands_per_turn (limits self))) as Hspec.
  destruct (mailbox_drain_into _ _ _) as [[mailbox buffer] report].
  destruct Hspec as (l & _ & _ & _ & _ & Hmore).
  set (self1 := set_command_more_pending _ _).
  assert (∀ l (s : owner D C T),
    mail (foldl (λ s command, apply_command command s) s l).1 = mail s.1) as Hmail.
  { induction l0 as [|c l0 IH]; intros s; [done|]. simpl. by rewrite IH, apply_command_mail. }
  specialize (Hmail buffer (self1, heap)). destruct (foldl _ _ _) as [self2 heap2].
  cbn. unfold mail in Hmail. simpl in Hmail. injection Hmail as -> ->. exact Hmore.
Qed.

(** ** The ready loop *)

(** These connections were served in this order. *)
Inductive served (now : Moment) : owner D C T → list ResourceToken → owner D C T → Prop :=
  | served_nil s : served now s [] s
  | served_cons s s1 s2 work work1 resource rest l :
      ready s.1 = resource :: rest → ready_round now work s = (s1, Some (Ok work1)) →
      served now s1 l s2 → served now s (resource :: l) s2.

Lemma ready_rounds_spec rounds now work (s s' : owner D C T) x :
  ready_rounds rounds now work s = (s', x) →
  calm s.1 s'.1 ∧
  match x with
  | Ok _ => ∃ l back, served now s l s' ∧ ready s.1 ++ back = l ++ ready s'.1 ∧
      (length l ≤ rounds)%nat ∧ (length l = rounds ∨ ready s'.1 = []) ∧
      (length back ≤ length l)%nat ∧
      owner_failure s'.1 = owner_failure s.1 ∧ mail s'.1 = mail s.1 ∧
      (∀ driven, quiet now driven s.1 → quiet now (driven ++ l) s'.1)
  | Err _ => True
  end.
Proof.
  revert work s. induction rounds as [|rounds IH]; intros work s; cbn [ready_rounds].
  { intros. simplify_eq. split; [done|]. exists [], []. rewrite app_nil_r. split; [constructor|].
    split_and!; auto. intros driven. by rewrite app_nil_r. }
  destruct (ready_round now work s) as [[self1 heap1] [[w|e]|]] eqn:Hr;
    destruct s as [self heap]; pose proof (ready_round_spec _ _ _ _ _ _ _ Hr) as Hs.
  - destruct Hs as (resource & rest & back & Hready & Hready1 & Hback & Hcalm & Hfail & Hquiet).
    intros Hrec. apply IH in Hrec as [Hcalm2 Hrec]. cbn [fst] in *. split; [by etrans|].
    destruct x as [w'|]; [|done]. destruct Hrec as (l & back2 & Hserved & Heq & Hlen & Hend & Hb & Hf & Hm & Hq).
    exists (resource :: l), (back ++ back2). rewrite Hready, Hready1 in *.
    split; [by econstructor|]. split.
    { simpl. f_equal. by rewrite app_assoc. }
    rewrite length_app. simpl. split; [lia|]. split; [destruct Hend; [left; lia|by right]|].
    split; [destruct Hback as [->| ->]; simpl; lia|]. split; [congruence|].
    split; [rewrite Hm; exact (ready_round_mail _ _ _ _ _ Hr)|].
    intros driven Hd. eapply quiet_more; [|apply Hq, Hquiet, Hd]. set_solver.
  - intros. by simplify_eq.
  - destruct Hs as (Hnil & -> & ->). intros. simplify_eq. split; [done|]. exists [], [].
    rewrite app_nil_r. split; [constructor|]. cbn [fst]. split_and!; auto; try (simpl; lia).
    intros driven. by rewrite app_nil_r.
Qed.

(** ** The turn *)

(** The set as the ready loop of a turn finds it: commands and readiness are
    taken in, and every candidate is queued. *)
Definition scanned now (s : owner D C T) : owner D C T :=
  let '(self, heap, _) := drive_commands s in
  (enqueue_candidates (ingest_poll_batches self).1 now, heap).

(** A turn is refused once the selector failed, and never adds, removes or
    renames a connection. When it succeeds, it served the front of the queue
    as it stood before the ready loop, and forgot no work. *)
Lemma turn_spec now self heap self' heap' r :
  turn now (self, heap) = (self', heap', r) →
  calm self self' ∧
  match r with
  | Ok t => ∃ mid heap1 l back, grows self mid ∧ served now (mid, heap1) l (self', heap') ∧
      ready mid ++ back = l ++ ready self' ∧
      (length l ≤ ready_budget self)%nat ∧
      (length l = ready_budget self ∨ ready self' = []) ∧ (length back ≤ length l)%nat ∧
      owner_failure self = None ∧ owner_failure self' = None ∧
      (quiet now l self' ∧ scanned now (self, heap) = (mid, heap1)) ∧
      turn_next t = next_turn self' ∧
      (command_more_pending self' = false → mailbox_items (commands self') = [])
  | Err _ => True
  end.
Proof.
  unfold turn, turn_component, ensure_owner_running.
  destruct (owner_failure self) eqn:Hf; [intros; by simplify_eq|].
  pose proof (drive_commands_grows (self, heap)) as H1.
  pose proof (drive_commands_mail (self, heap)) as M1. cbv zeta in M1.
  unfold scanned.
  destruct (drive_commands (self, heap)) as [[self1 heap1] work]. cbn [fst] in H1, M1.
  destruct (ingest_poll_batches self1) as [self2 [ingested|err]] eqn:Hb;
    pose proof (batches_spec _ _ _ Hb) as H2; cbn [fst].
  2:{ intros. simplify_eq. split; [|done]. etrans; [apply H1|exact H2]. }
  apply batches_mail in Hb. pose proof (candidates_grow now self2) as H3.
  pose proof (candidates_quiet now self2) as Hq. pose proof (candidates_mail now self2) as Hm.
  set (self3 := enqueue_candidates self2 now) in *.
  assert (grows self self3) as Hg by (etrans; [exact H1|]; etrans; [exact H2|exact H3]).
  unfold drive_ready. destruct (ready_rounds _ _ _ _) as [[self4 heap4] x] eqn:Hr.
  apply ready_rounds_spec in Hr as [Hcalm Hr]. cbn [fst] in *.
  destruct x as [driven|err]; intros [= <- <- <-]; (split; [etrans; [apply Hg|exact Hcalm]|]);
    [|done].
  destruct Hr as (l & back & Hserved & Heq & Hlen & Hend & Hback & Hfail & Hmail & Hquiet).
  assert (ready_budget self3 = ready_budget self) as Hbud.
  { unfold ready_budget. by rewrite (ca_limits _ _ (gr_calm _ _ Hg)). }
  rewrite Hbud in *. exists self3, heap1, l, back. split; [done|]. split; [done|].
  rewrite (gr_failure _ _ Hg) in Hfail. rewrite turn_next_new.
  split; [done|]. split; [done|]. split; [done|]. split; [done|]. split; [done|].
  split; [congruence|]. split; [split; [exact (Hquiet [] Hq)|done]|]. split; [done|].
  assert (mail self4 = mail self1) as Hsame by congruence. injection Hsame as Hc1 Hc2.
  by rewrite Hc1, Hc2.
Qed.

End set_turns.
End SetTurns.
