(* ===== verification/SetStanding.v ===== *)
(** * One entry of a connection set at work

    What a set does to one entry - settling it, aligning its interest, driving
    it, fencing it - keeps its slot standing ([SlotStanding]) for any account
    of what its callers were told, and writes the ledger of that slot only.
    The relation [works] says both, and composes. *)
From Stdlib Require Import ZArith Lia.
From stdpp Require Import prelude.
From S2P Require Import Prelude External Host Identity Limits Admission Ledger Operation Permit.
From S2P Require Import Write Framing Machine Core Recovery Lifecycle.
From S2P Require Import Config Transport SlotData Slot Drive SlotSpec SlotCalls QuantumSpec.
From S2P Require Import SlotSystem SlotFrame SlotStanding SetHost SetData SetOwner.

Import Hosted SlotCalls SlotSystem Lifecycle SlotFrame SlotStanding.

(** What a transport that respects its contract keeps doing when it is
    registered, and when it is told of readiness. *)
Record RegisteredContract {Cal : Calandria} {H : Host} {SH : SetHost} {T : Type}
    (RT : RegisteredTransport T) (holds : T → Prop) : Prop := {
  rc_readiness : ∀ t r, holds t → holds (rt_observe_readiness t r);
  rc_register : ∀ p t token i, holds t → holds (poller_register rt_source p t token i).1.2;
  rc_reregister : ∀ p t token i, holds t → holds (poller_reregister rt_source p t token i).1.2;
  rc_deregister : ∀ p t token, holds t → holds (poller_deregister rt_source p t token).1.2;
}.

Module SetStanding.
Section set_standing.
Context {Cal : Calandria} {BB : ByteBudgetLib} {Build : BuildConfig} {H : Host} {SH : SetHost}.
Context {Laws : CalandriaLaws Cal} {BLaws : ByteBudgetLaws BB} {HL : HostLaws H}.
Context {D C : Type} {Dec : FrameDecoder D} {Ret : Retained Frame}.
Context {Cls : InboundClassifier Frame C}.
Context {T : Type} {TP : SlotTransport T} {RT : RegisteredTransport T}.
Context (holds : T → Prop) (contract : TransportContract TP false rb_ZERO holds).
Context (registered : RegisteredContract RT holds).

Notation Entry := (ConnectionEntry.t D C T).
Implicit Types (e : Entry) (heap : Heap.t) (slot : ConnectionSlot.t D C).

(** What the callers of one connection were given and told. *)
Record account : Type := mk_account {
  holder : ConnectionIdentity.t;
  ledger : LedgerRef;
  bounds : ConnectionSlotLimits.t;
  noted : notes (Dec := Dec);
}.

Record in_order (a : account) e heap : Prop := mk_in_order {
  io_valid : valid_limits (bounds a);
  io_home : home (ConnectionEntry.slot e) = ledger a;
  io_stands : stands holds (bounds a) (ConnectionIdentity.epoch (holder a)) (noted a)
    (ConnectionEntry.slot e, heap) (ConnectionEntry.transport e);
}.

(** A step of one entry. *)
Record works (x x' : Entry * Heap.t) : Prop := works_intro {
  wk_kept : kept (ConnectionEntry.slot x.1, x.2) (ConnectionEntry.slot x'.1, x'.2);
  wk_stands : ∀ lim ep n, valid_limits lim →
    stands holds lim ep n (ConnectionEntry.slot x.1, x.2) (ConnectionEntry.transport x.1) →
    stands holds lim ep n (ConnectionEntry.slot x'.1, x'.2) (ConnectionEntry.transport x'.1);
}.

#[export] Instance works_preorder : PreOrder works.
Proof. split; [by intros x; split|]. intros x y z [] []. split; [by etrans|by auto]. Qed.

(** Such a step keeps any account in order, and writes its ledger only. *)
Lemma works_in_order a e heap e' heap' :
  works (e, heap) (e', heap') → in_order a e heap →
  in_order a e' heap' ∧ confined (ledger a) heap heap'.
Proof.
  intros [Hk Hs] [Hv Hh Hst]. cbn [fst snd] in *. pose proof (kept_home _ _ Hk) as Hhome.
  pose proof (kept_confined _ _ Hk) as Hc. cbn [fst snd] in *. rewrite Hh in *.
  split; [|done]. split; [done|done|by apply Hs].
Qed.

(** A step that leaves the heap alone. *)
Lemma works_held e e' heap :
  held (ConnectionEntry.slot e) (ConnectionEntry.slot e') →
  (∀ lim ep n, valid_limits lim →
     stands holds lim ep n (ConnectionEntry.slot e, heap) (ConnectionEntry.transport e) →
     stands holds lim ep n (ConnectionEntry.slot e', heap) (ConnectionEntry.transport e')) →
  works (e, heap) (e', heap).
Proof. intros Hk Hs. apply works_intro; [by apply kept_held|done]. Qed.

Lemma same_host_held slot slot' : same_host slot slot' → held slot slot'.
Proof.
  intros []. split; [done|done|]. unfold failure_of. by rewrite sh_state0.
Qed.

(** A step that writes only what the slot invariant does not read. *)
Lemma works_same e e' heap :
  same_host (ConnectionEntry.slot e) (ConnectionEntry.slot e') →
  (attached holds (ConnectionEntry.transport e) → attached holds (ConnectionEntry.transport e')) →
  works (e, heap) (e', heap).
Proof.
  intros Hs Ht. apply works_held; [by apply same_host_held|]. intros lim ep n _ Hst.
  eapply stands_port; [|exact Ht]. by eapply stands_same.
Qed.

(** Two entries that differ in flags only. *)
Lemma works_flags e e' heap :
  ConnectionEntry.slot e' = ConnectionEntry.slot e →
  ConnectionEntry.transport e' = ConnectionEntry.transport e → works (e, heap) (e', heap).
Proof. intros Hs Ht. apply works_same; rewrite ?Hs, ?Ht; done. Qed.

Lemma works_latch e slot heap error :
  works (ConnectionEntry.set_slot e slot, heap)
    (ConnectionEntry.set_slot e (ConnectionSlot.latch_failure slot error), heap).
Proof. apply works_held; [apply held_latch|]. intros lim ep n _. apply stands_latch. Qed.

Lemma works_latch_owner e slot heap why :
  works (ConnectionEntry.set_slot e slot, heap)
    (ConnectionEntry.set_slot e (ConnectionSlot.latch_owner_failure slot why), heap).
Proof. apply works_held; [apply held_latch_owner|]. intros lim ep n _. apply stands_latch_owner. Qed.

(** ** Writes that the slot invariant does not read *)

Lemma capture_same slot (t : T) : same_host slot (Drive.capture_transport_pressure slot t).1.
Proof.
  unfold Drive.capture_transport_pressure. cbn. repeat case_match; simplify_eq/=; by split.
Qed.

Lemma record_same slot error : same_host slot (ConnectionSet.record_mio_failure slot error).
Proof. unfold ConnectionSet.record_mio_failure. case_match; by split. Qed.

Lemma same_host_trans slot slot1 slot2 :
  same_host slot slot1 → same_host slot1 slot2 → same_host slot slot2.
Proof. intros [] []. split; congruence. Qed.

(** A request that is taken and restored. *)
Lemma restored_same slot slot1 directive :
  ConnectionSlot.close_request slot = Some directive →
  same_host (ConnectionSlot.set_close_request slot None) slot1 →
  same_host slot (ConnectionSlot.restore_close_request slot1 directive).
Proof. intros Hc []. split; simpl in *; congruence. Qed.

(** ** Calls of the slot *)

(** One call of the public interface. *)
Lemma works_exec e heap e' heap' c :
  (∀ n, let w := exec (mk_world (ConnectionEntry.slot e, heap) (ConnectionEntry.transport e) n) c in
     SlotSystem.slot w = (ConnectionEntry.slot e', heap') ∧
     port w = ConnectionEntry.transport e' ∧ log w = n ∧
     admissible false holds (mk_world (ConnectionEntry.slot e, heap) (ConnectionEntry.transport e) n) c) →
  kept (ConnectionEntry.slot e, heap) (ConnectionEntry.slot e', heap') →
  works (e, heap) (e', heap').
Proof.
  intros Hc Hk. apply works_intro; [done|]. intros lim ep n Hv Hs.
  destruct (Hc n) as (H1 & H2 & H3 & Ha).
  pose proof (stands_exec holds contract lim ep Hv
    (mk_world (ConnectionEntry.slot e, heap) (ConnectionEntry.transport e) n) c Hs Ha) as Hst.
  by rewrite H1, H2, H3 in Hst.
Qed.

(** ** Settlement ([set_settle.rs]) *)

(** A directive that is ready always settles. *)
Lemma settle_slot_settles slot directive heap :
  CloseDirective.settlement_ready directive = true →
  ConnectionSet.settle_slot slot directive heap =
    (ConnectionSlot.settle_transport_closed
       (ConnectionSlot.restore_close_request slot directive, heap)).1.
Proof.
  intros Hr. unfold ConnectionSet.settle_slot.
  assert ((ConnectionSlot.settle_transport_closed
    (ConnectionSlot.restore_close_request slot directive, heap)).2 = true) as Hs.
  { unfold ConnectionSlot.settle_transport_closed, ConnectionSlot.take_close_request. simpl.
    rewrite Hr. by destruct directive as [why [| | |]|];
      repeat (case_match; simplify_eq/=). }
  destruct (ConnectionSlot.settle_transport_closed _) as [[slot' heap'] b]. simpl in Hs. by subst b.
Qed.

Lemma works_settle_slot e slot heap directive t :
  CloseDirective.settlement_ready directive = true →
  let x := ConnectionSet.settle_slot slot directive heap in
  works
    (ConnectionEntry.set_slot (ConnectionEntry.set_transport e t)
       (ConnectionSlot.restore_close_request slot directive), heap)
    (ConnectionEntry.set_slot (ConnectionEntry.set_transport e t) x.1, x.2).
Proof.
  intros Hr. cbv zeta. rewrite settle_slot_settles by done.
  set (slot1 := ConnectionSlot.restore_close_request slot directive).
  pose proof (settle_kept (slot1, heap)) as Hk.
  apply (works_exec _ _ _ _ SettleClosed); [|destruct (ConnectionSlot.settle_transport_closed _) as [[? ?] ?]; exact Hk].
  intros n. cbn [exec moved SlotSystem.slot port log ConnectionEntry.slot ConnectionEntry.set_slot
    ConnectionEntry.transport ConnectionEntry.set_transport].
  by destruct (ConnectionSlot.settle_transport_closed _) as [[? ?] ?].
Qed.

Lemma observe_shutdown_works e heap t :
  works (e, heap)
    (ConnectionEntry.set_slot e (Drive.observe_shutdown_complete (ConnectionEntry.slot e) t), heap).
Proof.
  unfold Drive.observe_shutdown_complete.
  assert (works (e, heap) (ConnectionEntry.set_slot e (ConnectionEntry.slot e), heap)) as Hid
    by by apply works_flags.
  destruct (ConnectionSlot.close_request _) as [[why shutdown|]|] eqn:Hc; try exact Hid.
  destruct shutdown; try exact Hid. case_match; [|exact Hid].
  apply works_held; [by split|]. intros lim ep n _ [[[Hh Ho] Ht]|Hs].
  - left. split; [|done]. split; [exact Hh|]. eapply hosted_shutdown; [exact Ho|eassumption|apply nearer_done; by right].
  - destruct Hs as [_ _ _ _ _ _ Hab]. cbn [fst] in Hab. destruct Hab as [?|[? _]]; congruence.
Qed.

Lemma settle_entry_works p resource e heap p' e' heap' r :
  ConnectionSet.settle_entry p resource e heap = (p', e', heap', r) → works (e, heap) (e', heap').
Proof.
  unfold ConnectionSet.settle_entry.
  set (slot0 := match ConnectionEntry.transport e with Some _ => _ | None => _ end).
  assert (works (e, heap) (ConnectionEntry.set_slot e slot0, heap)) as H0.
  { subst slot0. destruct (ConnectionEntry.transport e); [apply observe_shutdown_works|].
    by apply works_flags. }
  clearbody slot0. unfold ConnectionSlot.take_close_request.
  destruct (ConnectionSlot.close_request slot0) as [directive|] eqn:Hc;
    [|intros; by simplify_eq].
  destruct (CloseDirective.settlement_ready directive) eqn:Hr; [|intros; by simplify_eq].
  assert (∀ slot1 t', same_host (ConnectionSlot.set_close_request slot0 None) slot1 →
    (attached holds (ConnectionEntry.transport e) → attached holds t') →
    works (e, heap) (ConnectionEntry.set_slot (ConnectionEntry.set_transport e t')
      (ConnectionSlot.restore_close_request slot1 directive), heap)) as Hrestore.
  { intros slot1 t' Hs Ht. etrans; [exact H0|]. apply works_same; [by apply restored_same|done]. }
  destruct (ConnectionEntry.transport e) as [t|] eqn:Ht.
  - pose proof (rc_deregister _ _ registered p t resource) as Hd.
    destruct (poller_deregister _ _ _ _) as [[p1 t1] reg]. cbn [fst snd] in Hd.
    assert (attached holds (Some t) → attached holds (Some t1)) as Ha.
    { intros Hat y [= <-]. by apply Hd, Hat. }
    pose proof (capture_same (ConnectionSlot.set_close_request slot0 None) t1) as Hcap.
    destruct (Drive.capture_transport_pressure _ _) as [slot1 pressure]. cbn [fst] in Hcap.
    destruct reg as [u|source].
    + destruct pressure as [u'|error].
      * pose proof (works_settle_slot e slot1 heap directive None Hr) as Hset. cbv zeta in Hset.
        destruct (ConnectionSet.settle_slot _ _ _) as [slot2 heap2]. intros. simplify_eq.
        etrans; [|exact Hset]. by apply Hrestore.
      * intros. simplify_eq. etrans; [|apply works_latch]. by apply Hrestore.
    + intros. simplify_eq. etrans; [|apply works_latch]. apply Hrestore; [|done].
      eapply same_host_trans; [exact Hcap|apply record_same].
  - pose proof (works_settle_slot e (ConnectionSlot.set_close_request slot0 None) heap directive None
      Hr) as Hset. cbv zeta in Hset.
    destruct (ConnectionSet.settle_slot _ _ _) as [slot2 heap2]. intros. simplify_eq.
    etrans; [|exact Hset]. by apply Hrestore.
Qed.

Lemma sync_interest_works p resource e heap p' e' r :
  ConnectionSet.sync_interest p resource e = (p', e', r) → works (e, heap) (e', heap).
Proof.
  unfold ConnectionSet.sync_interest. destruct (ConnectionEntry.transport e) as [t|] eqn:Ht;
    [|intros; by simplify_eq].
  destruct (interest_eqb _ _); [intros; by simplify_eq|].
  set (desired := Drive.desired_interest _ _).
  pose proof (rc_reregister _ _ registered p t resource desired) as Hd.
  destruct (poller_reregister _ _ _ _ _) as [[p1 t1] reg]. cbn [fst snd] in Hd.
  pose proof (capture_same (ConnectionEntry.slot e) t1) as Hcap.
  destruct (Drive.capture_transport_pressure _ _) as [slot1 pressure]. cbn [fst] in Hcap.
  assert (∀ slot2 e1, same_host (ConnectionEntry.slot e) slot2 →
    ConnectionEntry.transport e1 = Some t1 →
    works (e, heap) (ConnectionEntry.set_slot e1 slot2, heap)) as Hw.
  { intros slot2 e1 Hs He. apply works_same; [done|]. cbn [ConnectionEntry.transport ConnectionEntry.set_slot].
    rewrite Ht, He. intros Hat y [= <-]. by apply Hd, Hat. }
  destruct reg as [u|source]; intros; simplify_eq.
  - destruct pressure as [u'|error]; [by apply Hw|]. etrans; [|apply works_latch]. by apply Hw.
  - etrans; [|apply works_latch]. apply Hw; [|done].
    eapply same_host_trans; [exact Hcap|apply record_same].
Qed.

(** ** One quantum ([set_drive/ready.rs]) *)

Lemma quantum_works now e heap slot heap' t r :
  Drive.drive_quantum now (ConnectionEntry.slot e, heap, ConnectionEntry.transport e) =
    (slot, heap', t, r) →
  works (e, heap) (ConnectionEntry.set_slot (ConnectionEntry.set_transport e t) slot, heap').
Proof.
  intros Hr. apply (works_exec _ _ _ _ (DriveQuantum now)).
  - intros n. cbn [exec SlotSystem.slot port log]. destruct (Drive.drive_quantum _ _) as [x r']. by injection Hr as -> ->.
  - pose proof (DriveFrame.drives_quantum now (ConnectionEntry.slot e, heap, ConnectionEntry.transport e))
      as Hk. by rewrite Hr in Hk.
Qed.

Lemma drive_entry_works now p resource e heap p' e' heap' r :
  ConnectionSet.drive_entry now p resource e heap = (p', e', heap', r) →
  works (e, heap) (e', heap').
Proof.
  unfold ConnectionSet.drive_entry. set (e0 := ConnectionEntry.set_ready_queued e false).
  assert (works (e, heap) (e0, heap)) as H0 by by apply works_flags.
  destruct (Drive.drive_quantum _ _) as [[[slot heap1] t] driven] eqn:Hq.
  pose proof (quantum_works _ e0 _ _ _ _ _ Hq) as Hw.
  set (y := match driven with Ok _ => _ | Err _ => _ end).
  assert (works (e, heap) (ConnectionEntry.set_slot (ConnectionEntry.set_transport e0 t) y.1, heap1))
    as H1.
  { etrans; [exact H0|]. etrans; [exact Hw|]. subst y. destruct driven; [done|]. apply works_latch. }
  destruct y as [slot1 progress]. cbn [fst] in H1.
  destruct (ConnectionSet.settle_entry _ _ _ _) as [[[p1 e1] heap2] r1] eqn:Hs.
  pose proof (settle_entry_works _ _ _ _ _ _ _ _ Hs) as H2.
  destruct r1 as [settled|error]; [|intros; simplify_eq; by etrans].
  destruct (ConnectionSet.sync_interest _ _ _) as [[p2 e2] r2] eqn:Hi.
  pose proof (sync_interest_works _ _ _ heap2 _ _ _ Hi) as H3.
  destruct r2; intros; simplify_eq; by etrans; [|etrans].
Qed.

(** ** Fences and events *)

Lemma fence_works source why e heap :
  works (e, heap) (ConnectionSet.fence_entry source why e, heap).
Proof.
  unfold ConnectionSet.fence_entry. set (slot1 := match mio_io source with Some _ => _ | None => _ end).
  assert (same_host (ConnectionEntry.slot e) slot1) as Hs
    by (subst slot1; destruct (mio_io source); by split).
  transitivity (ConnectionEntry.set_slot e (ConnectionSlot.latch_owner_failure slot1 why), heap);
    [|by apply works_flags].
  etrans; [|apply works_latch_owner]. by apply works_same.
Qed.

Lemma readiness_works e heap t readiness :
  ConnectionEntry.transport e = Some t →
  let x := ConnectionSet.observe_transport_readiness (ConnectionEntry.slot e) t readiness in
  works (e, heap)
    (ConnectionEntry.set_slot (ConnectionEntry.set_transport e (Some x.2)) x.1, heap).
Proof.
  intros Ht. cbv zeta. unfold ConnectionSet.observe_transport_readiness.
  set (t1 := rt_observe_readiness t readiness).
  assert (attached holds (ConnectionEntry.transport e) → attached holds (Some t1)) as Ha.
  { rewrite Ht. intros Hat y [= <-]. by apply (rc_readiness _ _ registered), Hat. }
  pose proof (capture_same (ConnectionEntry.slot e) t1) as Hcap.
  destruct (Drive.capture_transport_pressure _ _) as [slot1 [u|error]]; cbn [fst snd] in *.
  - by apply works_same.
  - etrans; [|apply works_latch]. by apply works_same.
Qed.

Lemma release_works p resource e heap p' e' cleanup failed :
  ConnectionSet.release_transport p resource e = (p', e', cleanup, failed) →
  works (e, heap) (e', heap).
Proof.
  unfold ConnectionSet.release_transport. destruct (ConnectionEntry.transport e) as [t|] eqn:Ht;
    [|intros; by simplify_eq].
  pose proof (rc_deregister _ _ registered p t resource) as Hd.
  destruct (poller_deregister _ _ _ _) as [[p1 t1] reg]. cbn [fst snd] in Hd.
  pose proof (capture_same (ConnectionEntry.slot e) t1) as Hcap.
  destruct (Drive.capture_transport_pressure _ _) as [slot1 pressure]. intros. simplify_eq.
  apply works_same; [done|]. cbn. rewrite Ht. intros Hat y [= <-]. by apply Hd, Hat.
Qed.

End set_standing.
End SetStanding.
