(* ===== verification/SetIsolation.v ===== *)
(** * Calls of one connection stay with it

    On the table, [SetSpec] and [SetLife] show which entries a call touches.
    On the heap, a call that names one connection writes the ledger of that
    connection's core and no other, in any state whatsoever: [local]. *)
From Stdlib Require Import ZArith Lia.
From stdpp Require Import prelude gmap.
From S2P Require Import Prelude External Host Identity Limits Admission Ledger Operation Permit.
From S2P Require Import Write Framing Machine Core Recovery Lifecycle.
From S2P Require Import Config Transport SlotData Slot Drive SlotFrame.
From S2P Require Import SetHost SetData SetOwner SetSpec SetLife SetStanding.

Import Lifecycle SlotFrame ConnectionSet SetSpec SetLife SetStanding.

Module SetIsolation.
Section set_isolation.
Context {Cal : Calandria} {BB : ByteBudgetLib} {Build : BuildConfig} {H : Host} {SH : SetHost}.
Context {Laws : CalandriaLaws Cal} {BLaws : ByteBudgetLaws BB} {HL : HostLaws H}.
Context {SHL : SetHostLaws SH}.
Context {D C : Type} {Dec : FrameDecoder D} {Ret : Retained Frame}.
Context {Cls : InboundClassifier Frame C}.
Context {T : Type} {TP : SlotTransport T} {RT : RegisteredTransport T}.
Implicit Types (self : ConnectionSet.t D C T) (e : ConnectionEntry.t D C T) (heap : Heap.t).
Implicit Types (s : ConnectionSet.owner D C T).

Definition address_of e : LedgerRef := home (ConnectionEntry.slot e).

(** From [s] to [s'] only the ledger of the connection [r] was written, and the
    connection still owns that one. *)
Record local r s s' : Prop := mk_local {
  lo_heap : ∀ address, (∀ id e, live s.1 !! r = Some (id, e) → address ≠ address_of e) →
    Heap.borrow s'.2 address = Heap.borrow s.2 address;
  lo_home : ∀ id' e', live s'.1 !! r = Some (id', e') →
    ∃ id e, live s.1 !! r = Some (id, e) ∧ address_of e' = address_of e;
}.

#[export] Instance local_preorder r : PreOrder (local r).
Proof.
  split; [intros s; split; [done|by eauto]|]. intros x y z [H1 H2] [H3 H4]. split.
  - intros address Ha. rewrite H3; [by apply H1|]. intros id' e' He'.
    destruct (H2 _ _ He') as (id & e & He & ->). by eapply Ha.
  - intros id' e' He'. destruct (H4 _ _ He') as (id & e & He & ->). by apply (H2 id).
Qed.

(** The entry keeps its ledger, and the heap does not change. *)
Lemma local_table r self self' heap :
  (∀ id' e', live self' !! r = Some (id', e') →
     ∃ id e, live self !! r = Some (id, e) ∧ address_of e' = address_of e) →
  local r (self, heap) (self', heap).
Proof. by split. Qed.

Lemma local_same r self self' heap :
  resources self' = resources self → local r (self, heap) (self', heap).
Proof. intros Hr. apply local_table. unfold live. rewrite Hr. by eauto. Qed.

Lemma local_update r self id e e' heap heap' :
  live self !! r = Some (id, e) →
  kept (ConnectionEntry.slot e, heap) (ConnectionEntry.slot e', heap') →
  local r (self, heap) (update_entry self r e', heap').
Proof.
  intros Hl Hk. split; cbn [fst snd].
  - intros address Ha. apply (kept_confined _ _ Hk). by eapply Ha.
  - intros id1 e1. rewrite (update_same _ _ _ _ _ Hl). intros [= <- <-]. exists id, e.
    split; [done|]. exact (kept_home _ _ Hk).
Qed.

Lemma local_enqueue r self heap : local r (self, heap) (enqueue self r, heap).
Proof.
  destruct (enqueue_cases self r) as [[-> _]|(id & e & Hl & _ & ->)]; [done|].
  transitivity (update_entry self r (ConnectionEntry.set_ready_queued e true), heap);
    [|by apply local_same]. eapply local_update; [exact Hl|done].
Qed.

Lemma local_settled r self heap settled : local r (self, heap) (settled_entry self r settled, heap).
Proof.
  unfold settled_entry. case_match; [done|]. rewrite get_live.
  change (live (retain_ready self r)) with (live self).
  destruct (live self !! r) as [[id e]|] eqn:Hl; [|by apply local_same].
  transitivity (retain_ready self r, heap); [by apply local_same|].
  eapply local_update; [exact Hl|done].
Qed.

(** No transport has to be trusted for this. *)
Lemma no_contract : TransportContract TP false rb_ZERO (λ _ : T, False).
Proof. by split. Qed.

Lemma no_registered : RegisteredContract RT (λ _ : T, False).
Proof. by split. Qed.

Lemma fence_home source why e heap : address_of (fence_entry source why e) = address_of e.
Proof. exact (kept_home _ _ (wk_kept _ _ _ (fence_works (λ _, False) source why e heap))). Qed.

Lemma local_latch r self heap source :
  local r (self, heap) (latch_selector_failure self source, heap).
Proof.
  destruct (latch_cases self source) as [[-> _]|[_ Hf]]; [done|]. apply local_table.
  intros id' e'. rewrite (fe_live _ _ _ Hf), lookup_fmap.
  destruct (live self !! r) as [[id e]|]; [|done]. intros [= <- <-]. exists id, e.
  split; [done|]. by apply fence_home.
Qed.

Lemma local_readiness r self heap error :
  local r (self, heap) (latch_readiness_error self error, heap).
Proof. destruct error; simpl; try done. apply local_latch. Qed.

(** ** The calls *)

Lemma local_settle r s s' x : settle_connection r s = (s', x) → local r s s'.
Proof.
  destruct s as [self heap]. unfold settle_connection. rewrite get_live.
  destruct (live self !! r) as [[id e]|] eqn:Hl; [|intros; by simplify_eq].
  destruct (settle_entry _ _ _ _) as [[[p e1] heap1] r1] eqn:Hs.
  pose proof (settle_entry_works (λ _, False) no_contract no_registered _ _ _ _ _ _ _ _ Hs) as Hw.
  assert (local r (self, heap) (update_entry (set_poller self p) r e1, heap1)) as H1.
  { transitivity (set_poller self p, heap); [by apply local_same|].
    eapply (local_update r (set_poller self p)); [exact Hl|apply Hw]. }
  destruct r1; intros; simplify_eq; (etrans; [exact H1|]);
    [apply local_settled|apply local_readiness].
Qed.

Lemma local_enqueue_settle {A E : Type} r (result : result A E) failed s s' x :
  enqueue_and_settle r result failed s = (s', x) → local r s s'.
Proof.
  destruct s as [self heap]. unfold enqueue_and_settle.
  destruct (settle_connection _ _) as [[self1 heap1] settled] eqn:Hs. intros. simplify_eq.
  etrans; [apply local_enqueue|]. by eapply local_settle.
Qed.

(** A method of the slot of an entry. *)
Lemma local_slot {A E : Type} r self heap id e (f : STE (ConnectionSlot.owner D C) E A) e1 heap1 x :
  framed f → live self !! r = Some (id, e) → on_slot f e heap = (e1, heap1, x) →
  local r (self, heap) (update_entry self r e1, heap1).
Proof.
  intros Hf Hl (_ & _ & _ & Hs)%on_slot_entry. eapply local_update; [exact Hl|].
  pose proof (Hf (ConnectionEntry.slot e, heap)) as Hk. by rewrite Hs in Hk.
Qed.

Lemma local_controlled {A : Type} connection (f : STE _ EngineError.t A) s s' x :
  framed f → controlled connection f s = (s', x) → local (ConnectionToken.resource connection) s s'.
Proof.
  intros Hf. destruct s as [self heap]. unfold controlled, entry_mut.
  destruct (entry self connection) as [e|] eqn:He; [|intros; by simplify_eq]. apply entry_live in He.
  destruct (on_slot f e heap) as [[e1 heap1] r1] eqn:Ho. intros Hr.
  etrans; [by eapply local_slot|by eapply local_enqueue_settle].
Qed.

Lemma local_commit connection permit frame s s' x :
  commit connection permit frame s = (s', x) → local (ConnectionToken.resource connection) s s'.
Proof.
  destruct s as [self heap]. unfold commit, entry_mut.
  destruct (entry self connection) as [e|] eqn:He; [|apply local_enqueue_settle].
  apply entry_live in He. destruct (on_slot _ e heap) as [[e1 heap1] r1] eqn:Ho. intros Hr.
  etrans; [eapply local_slot; [apply framed_commit|exact He|exact Ho]|].
  by eapply local_enqueue_settle.
Qed.

Lemma local_reserve connection now options s s' x :
  reserve connection now options s = (s', x) → local (ConnectionToken.resource connection) s s'.
Proof.
  destruct s as [self heap]. unfold reserve, entry_mut.
  destruct (entry self connection) as [e|] eqn:He; [|intros; by simplify_eq].
  apply entry_live in He. destruct (on_slot _ e heap) as [[e1 heap1] r1] eqn:Ho. intros. simplify_eq.
  eapply local_slot; [apply framed_reserve|exact He|exact Ho].
Qed.

Lemma local_drain_outcomes connection self heap :
  local (ConnectionToken.resource connection) (self, heap) ((drain_outcomes self connection).1, heap).
Proof.
  unfold drain_outcomes, entry_mut. destruct (entry self connection) as [e|] eqn:He; [|done].
  apply entry_live in He. pose proof (held_drain_outcomes (ConnectionEntry.slot e)) as Hk.
  destruct (ConnectionSlot.drain_outcomes _) as [slot l].
  eapply local_update; [exact He|by apply kept_held].
Qed.

Lemma local_drain_events connection self heap :
  local (ConnectionToken.resource connection) (self, heap) ((drain_events self connection).1, heap).
Proof.
  unfold drain_events, entry_mut. destruct (entry self connection) as [e|] eqn:He; [|done].
  apply entry_live in He. pose proof (held_drain_events (ConnectionEntry.slot e)) as Hk.
  destruct (ConnectionSlot.drain_events _) as [slot l].
  eapply local_update; [exact He|by apply kept_held].
Qed.

Lemma local_removed r self self' heap :
  removed r self self' → local r (self, heap) (self', heap).
Proof.
  intros [_ _ _ Hl _]. apply local_table. intros id e. by rewrite Hl, lookup_delete_eq.
Qed.

Lemma local_retire connection self heap :
  local (ConnectionToken.resource connection) (self, heap) ((retire self heap connection).1, heap).
Proof.
  destruct (retire _ _ _) as [self' r] eqn:Hr. apply retire_spec in Hr. destruct r as [u|err];
    [|by subst]. destruct Hr as (e & _ & _ & _ & _ & _ & _ & Hrm & _). by apply local_removed.
Qed.

Lemma local_recover connection reason s s' x :
  recover_connection connection reason s = (s', x) → local (ConnectionToken.resource connection) s s'.
Proof.
  destruct s as [self heap], s' as [self' heap']. intros Hr.
  destruct (entry self connection) as [e|] eqn:He.
  2:{ unfold recover_connection, entry_mut in Hr. rewrite He in Hr. by simplify_eq. }
  pose proof (recover_connection_spec _ _ _ _ _ _ _ _ He Hr) as Hs. cbv zeta in Hs.
  apply entry_live in He. destruct (release_transport _ _ _) as [[[p e1] cleanup] failed] eqn:Hrel.
  destruct Hs as (e2 & slot2 & report & _ & Hmid & Hro & _ & Hrm & _).
  set (mid := after_release _ _ _ _ _) in *.
  assert (local (ConnectionToken.resource connection) (self, heap) (mid, heap)) as H1.
  { transitivity (update_entry (set_poller self p) (ConnectionToken.resource connection) e1, heap).
    - transitivity (set_poller self p, heap); [by apply local_same|].
      eapply (local_update _ (set_poller self p)); [exact He|].
      apply (release_works (λ _, False) no_registered _ _ _ heap _ _ _ _ Hrel).
    - subst mid. unfold after_release. destruct cleanup; [apply local_latch|done]. }
  etrans; [exact H1|]. pose proof (DriveFrame.recover_owned_kept reason
    (bool_decide (is_Some cleanup) || failed) (ConnectionEntry.slot e2, heap)) as Hk.
  rewrite Hro in Hk. split; cbn [fst snd].
  - intros address Ha. apply (kept_confined _ _ Hk). by eapply Ha.
  - intros id' e'. by rewrite (rm_live _ _ _ Hrm), lookup_delete_eq.
Qed.

End set_isolation.
End SetIsolation.
