(* ===== verification/SetSystem.v ===== *)
(** * Whole runs of a connection set

    A [world] is a set with the heap of its ledgers and, for every connection
    it ever made, an [account] of what its callers hold and were told. [exec]
    runs one call of the public interface, or changes the mailbox the way
    producers do between two calls; [reachable] are the worlds any sequence of
    such calls leads to. A permit may be presented at any connection. *)
From Stdlib Require Import ZArith Lia.
From stdpp Require Import prelude gmap.
From S2P Require Import Prelude External Host Identity Limits Admission Ledger Operation Permit.
From S2P Require Import Write Framing Machine Core Recovery.
From S2P Require Import Config Transport SlotData Slot Drive SlotSpec SlotCalls.
From S2P Require Import SetHost SetData SetOwner SetStanding.

Import Hosted SlotCalls SetStanding.

Module SetSystem.
Section set_system.
Context {Cal : Calandria} {BB : ByteBudgetLib} {Build : BuildConfig} {H : Host} {SH : SetHost}.
Context {SHL : SetHostLaws SH}.
Context {D C : Type} {Dec : FrameDecoder D} {Ret : Retained Frame}.
Context {Cls : InboundClassifier Frame C}.
Context {T : Type} {TP : SlotTransport T} {RT : RegisteredTransport T}.
Context {K : Type} {Con : TransportConnector K T}.

#[local] Notation ledgers := (gmap ResourceToken (account (Dec := Dec))).

Record world : Type := mk_world {
  owner : ConnectionSet.owner D C T;
  accounts : ledgers;
}.

(** One call. A permit is named by the connection it was reserved on and its
    position among those outstanding there; [Produce] is what the mailbox
    holds once the producers have posted. *)
Inductive command : Type :=
  | Connect (config : ConnectionConfig.t) (limits : ConnectionSlotLimits.t) (decoder : D)
      (classifier : C) (connector : K) (ledger : LedgerRef)
  | Reserve (connection : ConnectionToken.t) (now : Moment) (options : OperationOptions.t)
  | DropPermit (from : ResourceToken) (permit : nat)
  | Commit (connection : ConnectionToken.t) (from : ResourceToken) (permit : nat)
      (frame : OutboundFrame.t)
  | OpenAdmission (connection : ConnectionToken.t)
  | Cancel (connection : ConnectionToken.t) (operation : OperationId.t)
  | BeginDrain (connection : ConnectionToken.t) (deadline : Deadline)
  | Finalize (connection : ConnectionToken.t) (reason : CloseReason.t)
  | DrainOutcomes (connection : ConnectionToken.t)
  | DrainEvents (connection : ConnectionToken.t)
  | Retire (connection : ConnectionToken.t)
  | TryRecover (connection : ConnectionToken.t)
  | Abandon (connection : ConnectionToken.t) (reason : OwnerFailure.t)
  | Produce (commands : Mailbox ConnectionCommand.t)
  | PollIo (maximum : Span)
  | Turn (now : Moment).

Definition moved (w : world) (s : ConnectionSet.owner D C T) : world := mk_world s (accounts w).

Definition renoted (a : account (Dec := Dec)) n : account :=
  mk_account (holder a) (ledger a) (bounds a) n.

(** Something is noted in the account of one connection. *)
Definition note (resource : ResourceToken) (f : notes → notes) (l : ledgers) : ledgers :=
  alter (λ a, renoted a (f (noted a))) resource l.

Definition permit_of (w : world) (from : ResourceToken) (permit : nat) : option OperationPermit.t :=
  a ← accounts w !! from; permits (noted a) !! permit.

(** The operation a commit accepted, whether or not its owner failed then. *)
Definition accepted_of (r : result OperationId.t (ConnectionCommitError.t OutboundFrame.t))
    : option OperationId.t :=
  match r with
  | Ok operation => Some operation
  | Err (ConnectionCommitError.Connection (EngineCommitError.AcceptedOwnerFailure operation _)) =>
      Some operation
  | Err _ => None
  end.

Definition with_accepted_op (n : notes (Dec := Dec)) (op : OperationId.t) : notes :=
  mk_notes (permits n) (accepted n ++ [op]) (delivered n) (observed n) (fired n).

Definition without_permit (i : nat) (n : notes (Dec := Dec)) : notes :=
  with_permits n (delete i (permits n)).

Definition exec (w : world) (c : command) : world :=
  let resource := ConnectionToken.resource in
  match c with
  | Connect config limits decoder classifier connector ledger =>
      match ConnectionSet.connect_with config limits decoder classifier connector ledger
              (owner w) with
      | (s, Ok token) =>
          mk_world s
            (<[resource token := mk_account (ConnectionToken.identity token) ledger limits
                                   (mk_notes [] [] [] [] 0)]> (accounts w))
      | (s, Err _) => moved w s
      end
  | Reserve connection now options =>
      match ConnectionSet.reserve connection now options (owner w) with
      | (s, Ok p) =>
          mk_world s (note (resource connection) (λ n, with_permits n (p :: permits n)) (accounts w))
      | (s, Err _) => moved w s
      end
  | DropPermit from i =>
      match permit_of w from i with
      | None => w
      | Some p =>
          mk_world ((owner w).1, (OperationPermit.drop p (owner w).2).2)
            (note from (without_permit i) (accounts w))
      end
  | Commit connection from i frame =>
      match permit_of w from i with
      | None => w
      | Some p =>
          let '(s, r) := ConnectionSet.commit connection p frame (owner w) in
          match accepted_of r with
          | Some op =>
              mk_world s
                (note (resource connection) (λ n, with_accepted_op n op)
                   (note from (without_permit i) (accounts w)))
          | None => moved w s
          end
      end
  | OpenAdmission connection => moved w (ConnectionSet.open_admission connection (owner w)).1
  | Cancel connection op => moved w (ConnectionSet.cancel connection op (owner w)).1
  | BeginDrain connection d => moved w (ConnectionSet.begin_drain connection d (owner w)).1
  | Finalize connection why => moved w (ConnectionSet.finalize connection why (owner w)).1
  | DrainOutcomes connection =>
      match ConnectionSet.drain_outcomes (owner w).1 connection with
      | (self, Ok l) =>
          mk_world (self, (owner w).2)
            (note (resource connection) (λ n, with_delivered n l) (accounts w))
      | (self, Err _) => moved w (self, (owner w).2)
      end
  | DrainEvents connection =>
      match ConnectionSet.drain_events (owner w).1 connection with
      | (self, Ok l) =>
          mk_world (self, (owner w).2)
            (note (resource connection) (λ n, with_observed n l) (accounts w))
      | (self, Err _) => moved w (self, (owner w).2)
      end
  | Retire connection =>
      moved w ((ConnectionSet.retire (owner w).1 (owner w).2 connection).1, (owner w).2)
  | TryRecover connection => moved w (ConnectionSet.try_recover connection (owner w)).1
  | Abandon connection why => moved w (ConnectionSet.abandon connection why (owner w)).1
  | Produce commands => moved w (ConnectionSet.set_commands (owner w).1 commands, (owner w).2)
  | PollIo maximum => moved w ((ConnectionSet.poll_io (owner w).1 maximum).1, (owner w).2)
  | Turn now => moved w (ConnectionSet.turn now (owner w)).1
  end.

(** What is asked of the caller: consistent bounds and a newly allocated
    ledger for a connection, a frame of [usize] length, and that [Drained] is
    not given as a reason to [finalize]. *)
Definition admissible (w : world) (c : command) : Prop :=
  match c with
  | Connect _ limits _ _ _ address =>
      valid_limits limits ∧
      map_Forall (λ _ a, ledger a ≠ address) (accounts w)
  | Commit _ _ _ frame => Z.of_nat (length (frame_bytes frame)) ≤ USIZE_MAX
  | Finalize _ reason => reason ≠ CloseReason.Drained
  | _ => True
  end.

(** A new set. *)
Definition start (config : ConnectionSetConfig.t) (limits : ConnectionSetLimits.t) (heap : Heap.t)
    : option world :=
  match ConnectionSet.new config limits with
  | Ok self => Some (mk_world (self, heap) ∅)
  | Err _ => None
  end.

Inductive reachable (init : world) : world → Prop :=
  | reachable_init : reachable init init
  | reachable_step w c :
      reachable init w → admissible w c → reachable init (exec w c).

End set_system.
#[global] Arguments world {Cal BB H SH SHL} D C {Dec} T.
#[global] Arguments command {Cal H SH} D C K.
End SetSystem.
