(* ===== verification/SetRuns.v ===== *)
(** * The invariant of a run of a connection set

    [accounted]: every live connection has an account and stands for it, over
    a ledger of its own. A step of one entry that [works] keeps it for that
    entry, and leaves the others alone because it writes only its own ledger;
    a failure of the selector keeps it for all. *)
From Stdlib Require Import ZArith Lia.
From stdpp Require Import prelude gmap.
From S2P Require Import Prelude External Host Identity Limits Admission Ledger Operation Permit.
From S2P Require Import Write Framing Machine Core Recovery Lifecycle CoreView.
From S2P Require Import Config Transport SlotData Slot Drive SlotSpec SlotCalls SlotSystem.
From S2P Require Import SlotFrame SlotStanding SetHost SetData SetOwner SetSpec SetLife.
From S2P Require Import SetTurns SetStanding SetSystem.

Import Hosted SlotCalls Lifecycle SlotFrame SlotStanding ConnectionSet SetSpec SetLife SetTurns.
Import SetStanding SetSystem.

Module SetRuns.
Section set_runs.
Context {Cal : Calandria} {BB : ByteBudgetLib} {Build : BuildConfig} {H : Host} {SH : SetHost}.
Context {Laws : CalandriaLaws Cal} {BLaws : ByteBudgetLaws BB} {HL : HostLaws H}.
Context {SHL : SetHostLaws SH}.
Context {D C : Type} {Dec : FrameDecoder D} {Ret : Retained Frame}.
Context {Cls : InboundClassifier Frame C}.
Context {T : Type} {TP : SlotTransport T} {RT : RegisteredTransport T}.
Context {K : Type} {Con : TransportConnector K T}.
Context (holds : T → Prop) (contract : TransportContract TP false rb_ZERO holds).
Context (registered : RegisteredContract RT holds).
Context (connects : ∀ (k : K) address limits t, connector_connect k address limits = Ok t → holds t).
Implicit Types (self : ConnectionSet.t D C T) (e : ConnectionEntry.t D C T) (heap : Heap.t).
Implicit Types (l : gmap ResourceToken (account (Dec := Dec))) (w : world D C T).

Notation in_order := (in_order holds).
Notation works := (works holds).

Record accounted l self heap : Prop := mk_accounted {
  ac_distinct : ∀ r r' a a', l !! r = Some a → l !! r' = Some a' → ledger a = ledger a' → r = r';
  ac_permits : ∀ r a p, l !! r = Some a → p ∈ permits (noted a) →
    OperationPermit.ledger p = ledger a;
  ac_issued : ∀ r a, l !! r = Some a → r ∈ table_issued (resources self);
  ac_live : ∀ r id e, live self !! r = Some (id, e) →
    ∃ a, l !! r = Some a ∧ holder a = id ∧ in_order a e heap;
}.

Lemma accounted_same l self self' heap :
  resources self' = resources self → accounted l self heap → accounted l self' heap.
Proof. intros Hr []. split; unfold live in *; by rewrite ?Hr. Qed.

(** ** One entry *)

(** Another entry does not notice. *)
Lemma in_order_elsewhere a e heap heap' address :
  ledger a ≠ address → confined address heap heap' → in_order a e heap → in_order a e heap'.
Proof.
  intros Hne Hc [Hv Hh Hs]. split; [done|done|]. eapply stands_heap; [|exact Hs].
  apply Hc. by rewrite Hh.
Qed.

Lemma in_order_permit a e heap p :
  in_order a e heap → p ∈ permits (noted a) → OperationPermit.ledger p = ledger a.
Proof.
  intros [_ Hh Hs] Hp. rewrite <- Hh. eapply whole_home; [by eapply stands_whole|exact Hp].
Qed.

Lemma lookup_note r f l r' :
  note r f l !! r' = if decide (r' = r) then (λ a, renoted a (f (noted a))) <$> l !! r else l !! r'.
Proof.
  unfold note. destruct (decide (r' = r)) as [->|Hne]; [by rewrite lookup_alter_eq|].
  by rewrite lookup_alter_ne.
Qed.

Lemma note_id r l : note r id l = l.
Proof.
  apply map_eq. intros r'. rewrite lookup_note. case_decide; [subst|done].
  by destruct (l !! r) as [[]|].
Qed.

(** The ledgers are those before, whatever is noted. *)
Lemma note_lookup r f l r' a :
  note r f l !! r' = Some a →
  ∃ a0, l !! r' = Some a0 ∧ ledger a = ledger a0 ∧
    (r' ≠ r ∧ a = a0 ∨ r' = r ∧ a = renoted a0 (f (noted a0))).
Proof.
  rewrite lookup_note. case_decide as Hd; [subst|].
  - destruct (l !! r) as [a0|]; [|done]. intros [= <-]. exists a0. auto.
  - intros Hl. exists a. auto.
Qed.

(** The account of a live connection changes with its entry. *)
Lemma accounted_note l f self heap r id e e' heap' :
  live self !! r = Some (id, e) →
  (∀ a, l !! r = Some a → in_order a e heap →
     in_order (renoted a (f (noted a))) e' heap' ∧ confined (ledger a) heap heap') →
  accounted l self heap → accounted (note r f l) (update_entry self r e') heap'.
Proof.
  intros Hl Hstep [Hd Hp Hi Hlive]. destruct (Hlive _ _ _ Hl) as (a & Ha & Hid & Hin).
  destruct (Hstep a Ha Hin) as [Hin' Hc]. split.
  - intros r1 r2 a1 a2 (b1 & H1 & E1 & _)%note_lookup (b2 & H2 & E2 & _)%note_lookup Heq.
    eapply Hd; [exact H1|exact H2|congruence].
  - intros r1 a1 p (b1 & H1 & E1 & Hcase)%note_lookup Hin1. rewrite E1.
    destruct Hcase as [[_ ->]|[-> ->]]; [by eapply Hp|].
    assert (b1 = a) as -> by congruence. exact (in_order_permit _ _ _ _ Hin' Hin1).
  - intros r1 a1 (b1 & H1 & _)%note_lookup. rewrite (update_issued _ _ _ _ _ Hl). by eapply Hi.
  - intros r1 id1 e1. rewrite (update_live _ _ _ _ _ Hl), lookup_note.
    destruct (decide (r1 = r)) as [->|Hne].
    + rewrite lookup_insert_eq, Ha. intros [= <- <-]. exists (renoted a (f (noted a))). done.
    + rewrite lookup_insert_ne by done. intros H1. destruct (Hlive _ _ _ H1) as (a1 & Ha1 & Hid1 & Hin1).
      exists a1. split; [done|]. split; [done|]. eapply in_order_elsewhere; [|exact Hc|exact Hin1].
      intros Heq. by apply Hne, (Hd _ _ _ _ Ha1 Ha).
Qed.

Lemma accounted_works l self heap r id e e' heap' :
  live self !! r = Some (id, e) → works (e, heap) (e', heap') →
  accounted l self heap → accounted l (update_entry self r e') heap'.
Proof.
  intros Hl Hw Ha. rewrite <- (note_id r l). eapply accounted_note; [exact Hl| |exact Ha].
  intros a _ Hin. destruct (works_in_order _ _ _ _ _ _ Hw Hin) as [Hin' Hc].
  split; [|done]. by destruct a.
Qed.

Lemma accounted_enqueue l self heap r :
  accounted l self heap → accounted l (enqueue self r) heap.
Proof.
  intros Ha. destruct (enqueue_cases self r) as [[-> _]|(id & e & Hl & _ & ->)]; [done|].
  eapply (accounted_same _ (update_entry self r (ConnectionEntry.set_ready_queued e true)));
    [done|].
  eapply accounted_works; [exact Hl|by apply works_flags|done].
Qed.

Lemma accounted_settled l self heap r settled :
  accounted l self heap → accounted l (settled_entry self r settled) heap.
Proof.
  intros Ha. unfold settled_entry. case_match; [done|]. rewrite get_live.
  change (live (retain_ready self r)) with (live self).
  destruct (live self !! r) as [[id e]|] eqn:Hl;
    [|eapply accounted_same; [|exact Ha]; done].
  eapply (accounted_works _ (retain_ready self r) heap _ id e); [exact Hl|by apply works_flags|].
  eapply accounted_same; [|exact Ha]; done.
Qed.

(** ** The selector *)

Lemma accounted_latch l self heap source :
  accounted l self heap → accounted l (latch_selector_failure self source) heap.
Proof.
  intros Ha. destruct (latch_cases self source) as [[-> _]|[_ Hf]]; [done|].
  destruct Ha as [Hd Hp Hi Hlive]. split; [done|done| |].
  - rewrite (fe_issued _ _ _ Hf). exact Hi.
  - intros r id e. rewrite (fe_live _ _ _ Hf), lookup_fmap.
    destruct (live self !! r) as [[id0 e0]|] eqn:Hl; [|done]. intros [= <- <-].
    destruct (Hlive _ _ _ Hl) as (a & Ha & Hid & Hin). exists a. split; [done|]. split; [done|].
    by destruct (works_in_order _ _ _ _ _ _ (fence_works holds source OwnerFailure.Readiness e0 heap) Hin).
Qed.

Lemma accounted_readiness l self heap error :
  accounted l self heap → accounted l (latch_readiness_error self error) heap.
Proof. intros Ha. destruct error; simpl; try done. by apply accounted_latch. Qed.

Lemma accounted_poll l self heap maximum :
  accounted l self heap → accounted l (poll_selector self maximum).1 heap.
Proof.
  intros Ha. unfold poll_selector. destruct (ensure_owner_running self); [|done].
  destruct (poller_poll _ _ _) as [[p events] r]. unfold resolve_selector_poll.
  assert (accounted l (set_poll_events (set_poller self p) events) heap) by (eapply accounted_same; [|exact Ha]; done).
  destruct r; [done|]. by apply accounted_latch.
Qed.

(** ** Settlement *)

Lemma accounted_settle l self heap r self' heap' result :
  settle_connection r (self, heap) = (self', heap', result) →
  accounted l self heap → accounted l self' heap'.
Proof.
  unfold settle_connection. rewrite get_live.
  destruct (live self !! r) as [[id e]|] eqn:Hl; [|intros; by simplify_eq].
  destruct (settle_entry _ _ _ _) as [[[p e1] heap1] r1] eqn:Hs. intros Hr Ha.
  assert (accounted l (update_entry (set_poller self p) r e1) heap1) as Hb.
  { eapply (accounted_works _ (set_poller self p)); [exact Hl| |eapply accounted_same; [|exact Ha]; done].
    by eapply settle_entry_works. }
  destruct r1; simplify_eq; [by apply accounted_settled|by apply accounted_readiness].
Qed.

Lemma accounted_enqueue_settle {A E : Type} l self heap r (result : result A E) failed self' heap' x :
  enqueue_and_settle r result failed (self, heap) = (self', heap', x) →
  accounted l self heap → accounted l self' heap'.
Proof.
  unfold enqueue_and_settle. destruct (settle_connection _ _) as [[self1 heap1] settled] eqn:Hs.
  intros Hx Ha. simplify_eq. eapply accounted_settle; [exact Hs|]. by apply accounted_enqueue.
Qed.

(** ** Control of one connection *)

(** A control call of a slot is one of [SlotSystem], or none. *)
Definition control {A : Type} (f : STE (ConnectionSlot.owner D C) EngineError.t A) : Prop :=
  framed f ∧ ∃ c, ∀ s (t : option T) n, SlotSystem.exec (SlotSystem.mk_world s t n) c = SlotSystem.mk_world (f s).1 t n ∧
    SlotSystem.admissible false holds (SlotSystem.mk_world s t n) c.

Lemma control_then {A B : Type} (f : STE (ConnectionSlot.owner D C) EngineError.t A) (b : B) :
  control f → control (f ;;! ste_ret b).
Proof.
  intros [Hf (c & Hc)]. split; [apply framed_bind; [done|]; intros; apply framed_ret|].
  exists c. intros s t n. destruct (Hc s t n) as [-> Ha]. split; [|done]. f_equal.
  unfold ste_bind, ste_ret. by destruct (f s) as [s' [a|e]].
Qed.

Lemma open_control : control (ConnectionSlot.open_admission (D := D) (C := C)).
Proof. split; [apply framed_open_admission|]. by exists SlotSystem.OpenAdmission. Qed.

Lemma cancel_control op : control (ConnectionSlot.cancel (D := D) (C := C) op).
Proof. split; [apply framed_cancel|]. by exists (SlotSystem.Cancel op). Qed.

Lemma drain_control d : control (ConnectionSlot.begin_drain (D := D) (C := C) d).
Proof. split; [apply framed_begin_drain|]. by exists (SlotSystem.BeginDrain d). Qed.

Lemma finalize_control why :
  why ≠ CloseReason.Drained → control (ConnectionSlot.finalize (D := D) (C := C) why).
Proof. intros Hw. split; [apply framed_finalize|]. by exists (SlotSystem.Finalize why). Qed.

Lemma control_works {A : Type} (f : STE (ConnectionSlot.owner D C) EngineError.t A) e heap e' heap' r :
  control f → on_slot f e heap = (e', heap', r) → works (e, heap) (e', heap').
Proof.
  intros [Hf (c & Hc)] Ho. pose proof Ho as Hoe. apply on_slot_entry in Hoe as (_ & Ht & _ & Hr).
  apply (works_exec holds contract _ _ _ _ c).
  - intros n. cbv zeta. destruct (Hc (ConnectionEntry.slot e, heap) (ConnectionEntry.transport e) n) as [-> Ha].
    by rewrite Hr, Ht.
  - pose proof (Hf (ConnectionEntry.slot e, heap)) as Hk. by rewrite Hr in Hk.
Qed.

Lemma accounted_controlled {A : Type} l connection (f : STE _ EngineError.t A) self heap self' heap' r :
  control f → controlled connection f (self, heap) = (self', heap', r) →
  accounted l self heap → accounted l self' heap'.
Proof.
  intros Hf. unfold controlled, entry_mut. destruct (entry self connection) as [e|] eqn:He;
    [|intros; by simplify_eq].
  apply entry_live in He. destruct (on_slot f e heap) as [[e1 heap1] r1] eqn:Ho. intros Hr Ha.
  eapply accounted_enqueue_settle; [exact Hr|].
  eapply accounted_works; [exact He|by eapply control_works|done].
Qed.

(** ** Permits, outcomes and events *)

Ltac run_slot :=
  cbn [SlotSystem.exec SlotSystem.slot SlotSystem.port SlotSystem.log SlotSystem.moved fst snd].

(** A call of the slot whose answer is noted. *)
Lemma in_order_exec a e heap c e' heap' n' :
  let s := SlotSystem.mk_world (ConnectionEntry.slot e, heap) (ConnectionEntry.transport e) (noted a) in
  SlotSystem.exec s c =
    SlotSystem.mk_world (ConnectionEntry.slot e', heap') (ConnectionEntry.transport e') n' →
  SlotSystem.admissible false holds s c →
  kept (ConnectionEntry.slot e, heap) (ConnectionEntry.slot e', heap') →
  in_order a e heap → in_order (renoted a n') e' heap' ∧ confined (ledger a) heap heap'.
Proof.
  cbv zeta. intros Hx Hadm Hk [Hv Hh Hs]. pose proof (kept_home _ _ Hk) as Hhome.
  pose proof (kept_confined _ _ Hk) as Hc. cbn [fst snd] in *. rewrite Hh in *.
  split; [|done]. split; [done|done|].
  pose proof (stands_exec holds contract _ _ Hv
    (SlotSystem.mk_world (ConnectionEntry.slot e, heap) (ConnectionEntry.transport e) (noted a)) c Hs
    Hadm) as Hst.
  by rewrite Hx in Hst.
Qed.

Lemma note_note r f g l : note r f (note r g l) = note r (f ∘ g) l.
Proof.
  apply map_eq. intros r'. rewrite !lookup_note. case_decide; [|done].
  rewrite decide_True by done. by destruct (l !! r).
Qed.

Lemma accounted_reserve l connection now options self heap self' heap' r :
  reserve connection now options (self, heap) = (self', heap', r) →
  accounted l self heap →
  accounted
    (match r with
     | Ok p => note (ConnectionToken.resource connection)
         (λ n, with_permits n (p :: permits n)) l
     | Err _ => l
     end) self' heap'.
Proof.
  unfold reserve, entry_mut. destruct (entry self connection) as [e|] eqn:He;
    [|intros; by simplify_eq].
  apply entry_live in He. destruct (on_slot _ e heap) as [[e1 heap1] r1] eqn:Ho. intros Hr Ha.
  apply on_slot_entry in Ho as (_ & Ht & _ & Hs).
  pose proof (framed_reserve now options (ConnectionEntry.slot e, heap)) as Hk. rewrite Hs in Hk.
  rewrite <- (note_id (ConnectionToken.resource connection) l).
  assert (∀ a, in_order a e heap →
    in_order (renoted a (match r1 with Ok p => with_permits (noted a) (p :: permits (noted a))
                                     | Err _ => noted a end)) e1 heap1 ∧
    confined (ledger a) heap heap1) as Hin.
  { intros a. apply (in_order_exec a e heap (SlotSystem.Reserve now options)); [|done|exact Hk].
    run_slot. rewrite Hs, Ht. by destruct r1. }
  destruct r1 as [p|err]; simplify_eq; rewrite ?note_id;
    [|rewrite <- (note_id (ConnectionToken.resource connection) l)];
    (eapply accounted_note; [exact He| |exact Ha]); intros a _ Ho; by apply Hin.
Qed.

Lemma accounted_drain_outcomes l connection self heap self' r :
  drain_outcomes self connection = (self', r) → accounted l self heap →
  accounted
    (match r with
     | Ok drained => note (ConnectionToken.resource connection) (λ n, with_delivered n drained) l
     | Err _ => l
     end) self' heap.
Proof.
  unfold drain_outcomes, entry_mut. destruct (entry self connection) as [e|] eqn:He;
    [|intros; by simplify_eq].
  apply entry_live in He. pose proof (held_drain_outcomes (ConnectionEntry.slot e)) as Hk.
  destruct (ConnectionSlot.drain_outcomes _) as [slot drained] eqn:Hd. intros Hr Ha. simplify_eq.
  eapply accounted_note; [exact He| |exact Ha]. intros a _.
  apply (in_order_exec a e heap SlotSystem.DrainOutcomes); [|done|by apply kept_held].
  run_slot. by rewrite Hd.
Qed.

Lemma accounted_drain_events l connection self heap self' r :
  drain_events self connection = (self', r) → accounted l self heap →
  accounted
    (match r with
     | Ok drained => note (ConnectionToken.resource connection) (λ n, with_observed n drained) l
     | Err _ => l
     end) self' heap.
Proof.
  unfold drain_events, entry_mut. destruct (entry self connection) as [e|] eqn:He;
    [|intros; by simplify_eq].
  apply entry_live in He. pose proof (held_drain_events (ConnectionEntry.slot e)) as Hk.
  destruct (ConnectionSlot.drain_events _) as [slot drained] eqn:Hd. intros Hr Ha. simplify_eq.
  eapply accounted_note; [exact He| |exact Ha]. intros a _.
  apply (in_order_exec a e heap SlotSystem.DrainEvents); [|done|by apply kept_held].
  run_slot. by rewrite Hd.
Qed.

(** Dropping a permit touches the ledger it came from, whoever is live. *)
Lemma accounted_drop l from i p self heap a :
  l !! from = Some a → permits (noted a) !! i = Some p → accounted l self heap →
  accounted (note from (without_permit i) l) self (OperationPermit.drop p heap).2.
Proof.
  intros Hl Hp [Hd Hper Hi Hlive].
  assert (OperationPermit.ledger p = ledger a) as Hled
    by (eapply Hper; [exact Hl|by eapply list_elem_of_lookup_2]).
  pose proof (confined_drop_permit p heap) as Hc. rewrite Hled in Hc. split.
  - intros r1 r2 a1 a2 (b1 & H1 & E1 & _)%note_lookup (b2 & H2 & E2 & _)%note_lookup Heq.
    eapply Hd; [exact H1|exact H2|congruence].
  - intros r1 a1 q (b1 & H1 & E1 & Hcase)%note_lookup Hin. rewrite E1.
    destruct Hcase as [[_ ->]|[-> ->]]; [by eapply Hper|]. eapply Hper; [exact H1|].
    simpl in Hin. by eapply list_elem_of_delete_inv.
  - intros r1 a1 (b1 & H1 & _)%note_lookup. by eapply Hi.
  - intros r1 id1 e1 H1. destruct (Hlive _ _ _ H1) as (a1 & Ha1 & Hid & Hin). rewrite lookup_note.
    destruct (decide (r1 = from)) as [->|Hne].
    + rewrite Hl. assert (a1 = a) as -> by congruence.
      exists (renoted a (without_permit i (noted a))). split; [done|]. split; [done|].
      refine (proj1 (in_order_exec a e1 heap (SlotSystem.DropPermit i) e1 _ _ _ _ _ Hin)); [|done|].
      * run_slot. by rewrite Hp.
      * split; [done| |done]. destruct Hin as [_ Hh _]. rewrite <- Hh in Hc. by split.
    + exists a1. split; [done|]. split; [done|]. eapply in_order_elsewhere; [|exact Hc|exact Hin].
      intros Heq. by apply Hne, (Hd _ _ _ _ Ha1 Hl).
Qed.

(** ** Commit *)

(** What a commit of a permit of this connection may answer. *)
Lemma commit_answers a e heap i p frame :
  in_order a e heap → permits (noted a) !! i = Some p →
  Z.of_nat (length (frame_bytes frame)) ≤ USIZE_MAX →
  match (ConnectionSlot.commit p frame (ConnectionEntry.slot e, heap)).2 with
  | Err (EngineCommitError.AcceptedOwnerFailure _ _) => False
  | _ => True
  end.
Proof.
  intros [Hv _ [[Hs _]|Hs]] Hp Hlen.
  - destruct (commit_sound _ Hv _ _ _ _ _ frame Hs Hp Hlen) as (s' & r & -> & Hr).
    by destruct r as [|[]].
  - destruct Hs as [[why Hf] _ _ _ _ _ _]. unfold ConnectionSlot.commit. cbn [fst] in Hf.
    by rewrite Hf.
Qed.

(** The entry, its account and the answer after a commit of the slot. *)
Lemma committed_works l r from i p frame self heap id e b e1 heap1 x :
  live self !! r = Some (id, e) → accounted l self heap → l !! from = Some b →
  permits (noted b) !! i = Some p → Z.of_nat (length (frame_bytes frame)) ≤ USIZE_MAX →
  on_slot (ConnectionSlot.commit p frame) e heap = (e1, heap1, x) →
  match x with
  | Ok op => accounted (note r (λ n, with_accepted_op n op) (note from (without_permit i) l))
      (update_entry self r e1) heap1
  | Err (EngineCommitError.AcceptedOwnerFailure _ _) => False
  | Err _ => accounted l (update_entry self r e1) heap1
  end.
Proof.
  intros Hl Ha Hb Hp Hlen Ho. apply on_slot_entry in Ho as (Hq & Ht & Hint & Hs).
  pose proof (framed_commit p frame (ConnectionEntry.slot e, heap)) as Hk. rewrite Hs in Hk.
  destruct (ac_live _ _ _ Ha _ _ _ Hl) as (a & Hla & _ & Hin).
  destruct (decide (from = r)) as [->|Hne].
  - assert (b = a) as -> by congruence.
    pose proof (commit_answers _ _ _ _ _ frame Hin Hp Hlen) as Hans. rewrite Hs in Hans.
    assert (∀ n', SlotSystem.exec
      (SlotSystem.mk_world (ConnectionEntry.slot e, heap) (ConnectionEntry.transport e) (noted a))
      (SlotSystem.Commit i frame) = SlotSystem.mk_world (ConnectionEntry.slot e1, heap1)
        (ConnectionEntry.transport e1) n' →
      in_order (renoted a n') e1 heap1 ∧ confined (ledger a) heap heap1) as Hexec.
    { intros n' Hx. exact (in_order_exec a e heap _ _ _ _ Hx Hlen Hk Hin). }
    cbn [SlotSystem.exec SlotSystem.slot SlotSystem.port SlotSystem.log SlotSystem.moved] in Hexec.
    rewrite Hp, Hs, Ht in Hexec. destruct x as [op|err].
    + rewrite note_note. eapply accounted_note; [exact Hl| |exact Ha]. intros a' Ha' _.
      assert (a' = a) as -> by congruence. by apply Hexec.
    + assert (accounted l (update_entry self r e1) heap1) as Hsame.
      { rewrite <- (note_id r l). eapply accounted_note; [exact Hl| |exact Ha]. intros a' Ha' _.
        assert (a' = a) as -> by congruence. by apply Hexec. }
      by destruct err.
  - destruct Hin as [Hv Hh Hst].
    assert (OperationPermit.ledger p ≠ home (ConnectionEntry.slot e)) as Hforeign.
    { rewrite Hh, (ac_permits _ _ _ Ha _ _ _ Hb (list_elem_of_lookup_2 _ _ _ Hp)). intros Heq.
      by apply Hne, (ac_distinct _ _ _ Ha _ _ _ _ Hb Hla). }
    rewrite (foreign_refused _ _ _ _ _ _ _ _ frame Hst Hforeign) in Hs. injection Hs as Hs1 <- Hs2.
    subst x. assert (accounted l (update_entry self r e1) heap) as Hsame.
    { eapply accounted_works; [exact Hl|by apply works_flags|exact Ha]. }
    by case_match.
Qed.

Lemma accounted_commit l connection from i p frame self heap self' heap' r b :
  l !! from = Some b → permits (noted b) !! i = Some p →
  Z.of_nat (length (frame_bytes frame)) ≤ USIZE_MAX →
  commit connection p frame (self, heap) = (self', heap', r) → accounted l self heap →
  accounted
    (match accepted_of r with
     | Some op => note (ConnectionToken.resource connection) (λ n, with_accepted_op n op)
         (note from (without_permit i) l)
     | None => l
     end) self' heap'.
Proof.
  intros Hb Hp Hlen. unfold commit, entry_mut.
  destruct (entry self connection) as [e|err] eqn:He.
  - apply entry_live in He. destruct (on_slot _ e heap) as [[e1 heap1] x] eqn:Ho. intros Hr Ha.
    pose proof (committed_works _ _ _ _ _ frame _ _ _ _ _ _ _ _ He Ha Hb Hp Hlen Ho) as Hc.
    destruct x as [op|err].
    + assert (accepted_of r = Some op) as ->.
      { unfold enqueue_and_settle in Hr. destruct (settle_connection _ _) as [[? ?] []];
          by simplify_eq. }
      by eapply accounted_enqueue_settle.
    + assert (accepted_of r = None) as ->.
      { unfold enqueue_and_settle in Hr. destruct (settle_connection _ _) as [[? ?] ?].
        destruct err; by simplify_eq. }
      destruct err; try done; by eapply accounted_enqueue_settle.
  - intros Hr Ha. assert (accepted_of r = None) as ->.
    { unfold enqueue_and_settle in Hr. destruct (settle_connection _ _) as [[? ?] ?].
      by simplify_eq. }
    by eapply accounted_enqueue_settle.
Qed.

(** ** Connections that come and go *)

(** One connection leaves; the heap changes in its ledger only. *)
Lemma accounted_removed l self heap r self' heap' id e :
  removed r self self' → live self !! r = Some (id, e) →
  confined (home (ConnectionEntry.slot e)) heap heap' →
  accounted l self heap → accounted l self' heap'.
Proof.
  intros [_ Hi _ Hl _] He Hc [Hd Hp His Hlive]. split; [done|done|by rewrite Hi|].
  destruct (Hlive _ _ _ He) as (a & Ha & _ & [_ Hh _]). rewrite Hh in Hc.
  intros r1 id1 e1. rewrite Hl. intros [Hne H1]%lookup_delete_Some.
  destruct (Hlive _ _ _ H1) as (a1 & Ha1 & Hid & Hin). exists a1. split; [done|]. split; [done|].
  eapply in_order_elsewhere; [|exact Hc|exact Hin]. intros Heq. by apply Hne, (Hd _ _ _ _ Ha Ha1).
Qed.

Lemma accounted_retire l connection self heap self' r :
  retire self heap connection = (self', r) → accounted l self heap → accounted l self' heap.
Proof.
  intros Hr Ha. apply retire_spec in Hr. destruct r as [u|err]; [|by subst].
  destruct Hr as (e & He & _ & _ & _ & _ & _ & Hrm & _). apply entry_live in He.
  by eapply accounted_removed.
Qed.

Lemma accounted_release l connection self heap e :
  entry self connection = Ok e → accounted l self heap →
  let '(p, e1, cleanup, _) :=
    release_transport (poller self) (ConnectionToken.resource connection) e in
  accounted l (after_release self (ConnectionToken.resource connection) p e1 cleanup) heap.
Proof.
  intros He%entry_live Ha.
  destruct (release_transport _ _ _) as [[[p e1] cleanup] failed] eqn:Hrel.
  assert (accounted l (update_entry (set_poller self p) (ConnectionToken.resource connection) e1) heap)
    as Hb.
  { eapply (accounted_works _ (set_poller self p)); [exact He|by eapply release_works|].
    eapply accounted_same; [|exact Ha]. done. }
  unfold after_release. destruct cleanup; [by apply accounted_latch|done].
Qed.

(** Recovery returns everything the account of the connection is owed. *)
Lemma accounted_recover l connection reason self heap self' heap' r :
  recover_connection connection reason (self, heap) = (self', heap', r) →
  accounted l self heap →
  accounted l self' heap' ∧
  ∀ report, r = Ok report → ∃ a, l !! ConnectionToken.resource connection = Some a ∧
    holder a = ConnectionToken.identity connection ∧
    accepted (noted a) ≡ₚ
      (EngineOutcome.operation <$> delivered (noted a) ++ RecoveryReport.outcomes report) ++
      (RecoveredOperation.operation <$> RecoveryReport.operations report) ∧
    NoDup (accepted (noted a)) ∧
    RecoveryReport.epoch report = ConnectionToken.epoch connection ∧
    RecoveryReport.unmatched_writes report = [].
Proof.
  intros Hr Ha. destruct (entry self connection) as [e|] eqn:He.
  2:{ unfold recover_connection, entry_mut in Hr. rewrite He in Hr. by simplify_eq. }
  pose proof (recover_connection_spec _ _ _ _ _ _ _ _ He Hr) as Hs. cbv zeta in Hs.
  pose proof (accounted_release _ _ _ _ _ He Ha) as Hrel.
  destruct (release_transport _ _ _) as [[[p e1] cleanup] failed].
  destruct Hs as (e2 & slot2 & report & _ & Hmid & Hro & -> & Hrm & _).
  pose proof (DriveFrame.recover_owned_kept reason (bool_decide (is_Some cleanup) || failed)
    (ConnectionEntry.slot e2, heap)) as Hk.
  destruct (ac_live _ _ _ Hrel _ _ _ Hmid) as (a & Hl & Hid & [_ Hh Hst]).
  pose proof (whole_recover _ _ _ _ reason (bool_decide (is_Some cleanup) || failed)
    (stands_whole _ _ _ _ _ _ Hst)) as Hrec.
  rewrite Hro in Hk, Hrec. split.
  - eapply accounted_removed; [exact Hrm|exact Hmid|exact (kept_confined _ _ Hk)|exact Hrel].
  - intros report' [= <-]. destruct Hrec as (H1 & H2 & H3 & H4 & _). exists a.
    split; [exact Hl|]. split; [done|]. split; [exact H1|]. split; [exact H2|].
    split; [|exact H4]. rewrite H3, Hid. done.
Qed.

(** A slot at a new address stands. *)
Lemma new_stands config bounds decoder classifier address heap heap' (slot : ConnectionSlot.t D C) :
  valid_limits bounds →
  ConnectionSlot.new config bounds decoder classifier address heap = (heap', Ok slot) →
  home slot = address ∧
  stands holds bounds (ConnectionIdentity.epoch (ConnectionSlotConfig.identity config))
    (mk_notes [] [] [] [] 0) (slot, heap') (None : option T).
Proof.
  intros Hv Hn. split.
  - revert Hn. unfold ConnectionSlot.new. destruct (FrameDriver.new _ _); [|done].
    unfold ConnectionCore.new. by intros [= <- <-].
  - destruct (SlotRuns.start_good bounds Hv _ false rb_ZERO holds config decoder classifier address
      heap (None : option T) (SlotSystem.mk_world (slot, heap') None (mk_notes [] [] [] [] 0))
      eq_refl I) as [Hg|[_ [_ Hg]]].
    + unfold SlotSystem.start. by rewrite Hn.
    + left. by apply running_hinv in Hg.
    + by right.
Qed.

Lemma new_confined config bounds decoder classifier address heap :
  confined address heap
    (ConnectionSlot.new (D := D) (C := C) config bounds decoder classifier address heap).1.
Proof.
  unfold ConnectionSlot.new. destruct (FrameDriver.new _ _); [|done]. unfold ConnectionCore.new. simpl.
  intros r Hr. by apply Heap.borrow_store_ne.
Qed.

(** Nothing that is accounted for is at a new address. *)
Lemma accounted_fresh l self heap heap' address :
  map_Forall (λ _ a, ledger a ≠ address) l → confined address heap heap' →
  accounted l self heap → accounted l self heap'.
Proof.
  intros Hf Hc [Hd Hp Hi Hlive]. split; [done..|]. intros r id e He.
  destruct (Hlive _ _ _ He) as (a & Ha & Hid & Hin). exists a. split; [done|]. split; [done|].
  eapply in_order_elsewhere; [exact (Hf _ _ Ha)|exact Hc|exact Hin].
Qed.

Lemma accounted_lost l self heap self' error :
  lost_selector error self self' → accounted l self heap → accounted l self' heap.
Proof.
  intros (source & _ & _ & _ & _ & Hlive' & _ & _ & _ & Hi') [Hd Hp Hi Hlive].
  split; [done|done|by eauto|]. intros r id e. rewrite Hlive', lookup_fmap.
  destruct (live self !! r) as [[id0 e0]|] eqn:Hl; [|done]. intros [= <- <-].
  destruct (Hlive _ _ _ Hl) as (a & Ha & Hid & Hin). exists a. split; [done|]. split; [done|].
  by destruct (works_in_order _ _ _ _ _ _ (fence_works holds source OwnerFailure.Readiness e0 heap) Hin).
Qed.

Lemma accounted_added l self heap connection e self' a :
  added connection e self self' → map_Forall (λ _ b, ledger b ≠ ledger a) l →
  holder a = ConnectionToken.identity connection → in_order a e heap →
  accounted l self heap →
  accounted (<[ConnectionToken.resource connection := a]> l) self' heap.
Proof.
  intros [] Hfresh Hid Hin [Hd Hp Hi Hlive]. set (r := ConnectionToken.resource connection) in *.
  assert (l !! r = None) as Hnone.
  { apply eq_None_not_Some. intros [b Hb]. by apply ad_fresh0, (Hi _ _ Hb). }
  split.
  - intros r1 r2 a1 a2 [[<- <-]|[Hne1 H1]]%lookup_insert_Some [[<- <-]|[Hne2 H2]]%lookup_insert_Some Heq;
      [done| | |by eapply Hd].
    + by destruct (Hfresh _ _ H2).
    + by destruct (Hfresh _ _ H1).
  - intros r1 a1 p [[<- <-]|[Hne1 H1]]%lookup_insert_Some Hin1; [by eapply in_order_permit|].
    by eapply Hp.
  - intros r1 a1 [[<- <-]|[Hne1 H1]]%lookup_insert_Some; rewrite ad_issued0; [by constructor|].
    constructor. by eapply Hi.
  - intros r1 id1 e1. rewrite ad_live0. intros [[<- [= <- <-]]|[Hne H1]]%lookup_insert_Some.
    + exists a. rewrite lookup_insert_eq. done.
    + rewrite lookup_insert_ne by done. by eapply Hlive.
Qed.

Lemma accounted_connect l config bounds decoder classifier (connector : K) address self heap self'
    heap' r :
  registered_ok self → valid_limits bounds → map_Forall (λ _ a, ledger a ≠ address) l →
  connect_with config bounds decoder classifier connector address (self, heap) = (self', heap', r) →
  accounted l self heap →
  accounted
    (match r with
     | Ok token => <[ConnectionToken.resource token :=
         mk_account (ConnectionToken.identity token) address bounds (mk_notes [] [] [] [] 0)]> l
     | Err _ => l
     end) self' heap'.
Proof.
  intros Hg Hv Hfresh Hr Ha. apply connect_with_spec in Hr; [|done].
  pose proof (new_confined (ConnectionConfig.slot config) bounds decoder classifier address heap) as Hc.
  destruct r as [connection|error].
  - destruct Hr as (e' & limit & slot & t & Had & _ & Hnew & [Hsame (p & i & Ht)] & Hconn & _ & Hid & _).
    rewrite Hnew in Hc. destruct (new_stands _ _ _ _ _ _ _ _ Hv Hnew) as [Hhome Hst].
    pose proof (accounted_fresh _ _ _ _ _ Hfresh Hc Ha) as Hb.
    eapply accounted_added; [exact Had|done|done| |exact Hb].
    split; [done| |]; cbn [ConnectionEntry.slot holder noted SetStanding.bounds ledger] in *.
    + unfold home. by rewrite (sh_core _ _ Hsame).
    + eapply stands_port; [by eapply stands_same; [|exact Hsame]; rewrite Hid; exact Hst|].
      intros _ y. rewrite Ht. intros [= <-]. by apply (rc_register _ _ registered), (connects _ _ _ _ Hconn).
  - destruct Hr as [Hr Hheap].
    assert (accounted l self heap') as Hb.
    { destruct Hheap as [->| ->]; [done|]. by eapply accounted_fresh. }
    destruct Hr as [Hr|Hlost]; [|by eapply accounted_lost].
    destruct Hb as [Hd Hp His Hlive]. split; [done|done| |by rewrite (re_live _ _ Hr)].
    intros token a Ht. eapply restored_issued; [exact Hr|by eapply His].
Qed.

(** ** Turns *)

Definition accounted_at l (s : ConnectionSet.owner D C T) : Prop := accounted l s.1 s.2.

Lemma accounted_command l command (s : ConnectionSet.owner D C T) :
  accounted_at l s → accounted_at l (apply_command command s).
Proof.
  destruct s as [self heap]. unfold accounted_at, apply_command, entry_mut. cbn [fst snd]. intros Ha.
  destruct (entry self _) as [e|err] eqn:He; [|eapply accounted_same; [|exact Ha]; done].
  apply entry_live in He.
  set (x := match command with ConnectionCommand.OpenAdmission _ => _ | _ => _ end).
  assert (works (e, heap) (x.1.1, x.1.2)) as Hw.
  { subst x. destruct command; match goal with |- context [on_slot ?f e heap] =>
      destruct (on_slot f e heap) as [[e1 heap1] r] eqn:Ho end;
      (eapply control_works; [|exact Ho]); apply control_then.
    - apply open_control.
    - apply cancel_control.
    - apply drain_control.
    - by apply finalize_control. }
  destruct x as [[e1 heap1] r]. cbn [fst snd] in *. apply accounted_enqueue.
  eapply accounted_works; [exact He| |exact Ha]. destruct r; [done|].
  etrans; [exact Hw|]. etrans; [|apply works_latch]. by apply works_flags.
Qed.

Lemma accounted_commands l (s : ConnectionSet.owner D C T) :
  accounted_at l s → accounted_at l (drive_commands s).1.
Proof.
  destruct s as [self heap]. unfold drive_commands. intros Ha.
  destruct (mailbox_drain_into _ _ _) as [[mailbox buffer] report].
  set (self1 := set_command_more_pending _ _).
  assert (accounted_at l (self1, heap)) as H1 by (eapply accounted_same; [|exact Ha]; done).
  clearbody self1. clear Ha.
  assert (accounted_at l (foldl (λ s command, apply_command command s) (self1, heap) buffer)) as H2.
  { revert H1. generalize (self1, heap) as s. induction buffer as [|c buffer IH]; intros s Hs; [done|].
    simpl. apply IH. by apply accounted_command. }
  destruct (foldl _ _ _) as [self2 heap2]. eapply accounted_same; [|exact H2]. done.
Qed.

Lemma accounted_event l self heap event :
  accounted l self heap → accounted l (ingest_event self event) heap.
Proof.
  intros Ha. unfold ingest_event. destruct (poll_event_resource event) as [[token readiness]|]; [|done].
  rewrite get_live.
  destruct (live self !! token) as [[id e]|] eqn:Hl; [|eapply accounted_same; [|exact Ha]; done].
  destruct (ConnectionEntry.transport e) as [t|] eqn:Ht; [|eapply accounted_same; [|exact Ha]; done].
  pose proof (readiness_works holds registered e heap t readiness Ht) as Hw. cbv zeta in Hw.
  destruct (observe_transport_readiness _ _ _) as [slot t']. cbn [fst snd] in Hw.
  set (e1 := ConnectionEntry.set_slot _ _) in *. case_match.
  - eapply accounted_works; [exact Hl|exact Hw|exact Ha].
  - eapply (accounted_same _ (update_entry self token (ConnectionEntry.set_ready_queued e1 true)));
      [done|].
    eapply accounted_works; [exact Hl| |exact Ha]. etrans; [exact Hw|]. by apply works_flags.
Qed.

Lemma accounted_ingest l self heap :
  accounted l self heap → accounted l (ingest_readiness self).1 heap.
Proof.
  intros Ha. unfold ingest_readiness. destruct (poll_events_drain _) as [events drained]. cbn [fst].
  assert (accounted l (set_poll_events self events) heap) as H1
    by (eapply accounted_same; [|exact Ha]; done).
  revert H1. generalize (set_poll_events self events) as self1.
  induction drained as [|event drained IH]; intros self1 H1; [done|]. simpl. apply IH.
  by apply accounted_event.
Qed.

Lemma accounted_batches l self heap :
  accounted l self heap → accounted l (ingest_poll_batches self).1 heap.
Proof.
  intros Ha. unfold ingest_poll_batches. pose proof (accounted_ingest _ _ _ Ha) as H1.
  destruct (ingest_readiness self) as [self1 work]. cbn [fst] in H1.
  destruct (poll_saturated self1); [|done]. pose proof (accounted_poll _ _ _ span_ZERO H1) as H2.
  destruct (poll_selector _ _) as [self2 [report|err]]; cbn [fst] in H2; [|done].
  assert (accounted l (observe_poll self2 report) heap) as H3
    by (eapply accounted_same; [|exact H2]; done).
  pose proof (accounted_ingest _ _ _ H3) as H4. by destruct (ingest_readiness _).
Qed.

Lemma accounted_candidates l self heap now :
  accounted l self heap → accounted l (enqueue_candidates self now) heap.
Proof.
  intros Ha.
  assert (∀ ts self1, accounted l self1 heap →
    accounted l (foldl (enqueue_candidate now) self1 ts) heap) as Hfold.
  { induction ts as [|resource ts IH]; intros self1 H1; [done|]. simpl. apply IH.
    unfold enqueue_candidate. repeat case_match; try done. by apply accounted_enqueue. }
  apply Hfold. eapply accounted_same; [|exact Ha]. done.
Qed.

Lemma accounted_round l now work (s s' : ConnectionSet.owner D C T) x :
  ready_round now work s = (s', x) → accounted_at l s → accounted_at l s'.
Proof.
  destruct s as [self heap]. unfold ready_round, accounted_at. cbn [fst snd].
  destruct (ready self) as [|resource rest]; [intros; by simplify_eq|].
  rewrite get_live. change (live (set_ready self rest)) with (live self).
  destruct (live self !! resource) as [[id e]|] eqn:Hl;
    [|intros Hr Ha; simplify_eq; eapply accounted_same; [|exact Ha]; done].
  destruct (drive_entry _ _ _ _ _) as [[[p e1] heap1] r] eqn:Hd. intros Hr Ha.
  assert (accounted l (update_entry (set_poller (set_ready self rest) p) resource e1) heap1) as H1.
  { eapply (accounted_works _ (set_poller (set_ready self rest) p)); [exact Hl| |].
    - by eapply drive_entry_works.
    - eapply accounted_same; [|exact Ha]; done. }
  destruct r as [[progress [|]]|error]; simplify_eq; cbn [fst snd];
    [by apply accounted_enqueue|done|by apply accounted_readiness].
Qed.

Lemma accounted_rounds l rounds now work (s s' : ConnectionSet.owner D C T) x :
  ready_rounds rounds now work s = (s', x) → accounted_at l s → accounted_at l s'.
Proof.
  revert work s. induction rounds as [|rounds IH]; intros work s; cbn [ready_rounds];
    [intros; by simplify_eq|].
  destruct (ready_round now work s) as [s1 [[w|e]|]] eqn:Hr; intros Hx Ha;
    pose proof (accounted_round _ _ _ _ _ _ Hr Ha); simplify_eq; [by eapply IH|done|done].
Qed.

Lemma accounted_turn l now (s s' : ConnectionSet.owner D C T) r :
  turn now s = (s', r) → accounted_at l s → accounted_at l s'.
Proof.
  destruct s as [self heap]. unfold turn, turn_component.
  destruct (ensure_owner_running self); [|intros; by simplify_eq]. intros Hr Ha.
  pose proof (accounted_commands _ _ Ha) as H1.
  destruct (drive_commands (self, heap)) as [[self1 heap1] work]. cbn [fst] in H1.
  pose proof (accounted_batches _ _ _ H1) as H2. cbn [fst snd] in H2.
  destruct (ingest_poll_batches self1) as [self2 [ingested|err]]; cbn [fst] in H2;
    [|by simplify_eq].
  pose proof (accounted_candidates _ _ _ now H2) as H3. unfold drive_ready in Hr.
  destruct (ready_rounds _ _ _ _) as [[self4 heap4] x] eqn:Hx.
  apply (accounted_rounds l) in Hx; [|exact H3]. by destruct x; simplify_eq.
Qed.

(** ** The invariant of a run *)

(** The connections fit the table, and the table the limits. *)
Record roomy self : Prop := mk_roomy {
  ro_size : Z.of_nat (size (live self)) ≤ table_capacity (resources self);
  ro_limit : table_capacity (resources self) =
    nonzero_get (ConnectionSetLimits.max_connections (limits self));
}.

Lemma roomy_step self self' :
  limits self' = limits self → table_capacity (resources self') = table_capacity (resources self) →
  Z.of_nat (size (live self')) ≤ table_capacity (resources self) → roomy self → roomy self'.
Proof. intros Hl Hc Hs []. by split; rewrite ?Hl, ?Hc. Qed.

Lemma roomy_calm self self' : calm self self' → roomy self → roomy self'.
Proof.
  intros Hc Hr. eapply roomy_step; [apply Hc|apply Hc| |exact Hr].
  rewrite (calm_size _ _ Hc). apply Hr.
Qed.

Record sane w : Prop := mk_sane {
  sn_accounted : accounted (accounts w) (owner w).1 (owner w).2;
  sn_queue : queue_ok (owner w).1;
  sn_registered : registered_ok (owner w).1;
  sn_roomy : roomy (owner w).1;
}.

Lemma calm_sane w l s :
  sane w → calm (owner w).1 s.1 → accounted l s.1 s.2 → sane (SetSystem.mk_world s l).
Proof.
  intros [_ Hq Hg Hr] Hs Ha. split; [exact Ha|by apply Hs|by apply Hs|by eapply roomy_calm].
Qed.

Lemma stepped_sane w r l s :
  sane w → stepped r (owner w).1 s.1 → accounted l s.1 s.2 → sane (SetSystem.mk_world s l).
Proof. intros Hw Hs Ha. eapply calm_sane; [exact Hw|by eapply stepped_calm|exact Ha]. Qed.

(** A call that changes neither the table nor the queue. *)
Lemma same_sane w l self' heap' :
  sane w → let self := (owner w).1 in
  limits self' = limits self → resources self' = resources self → ready self' = ready self →
  poller self' = poller self → owner_failure self' = owner_failure self →
  accounted l self' heap' → sane (SetSystem.mk_world (self', heap') l).
Proof.
  cbv zeta. intros Hs Hl Hr Hq Hp Hf Ha. eapply calm_sane; [exact Hs| |exact Ha].
  apply same_grows; try done. simpl. by rewrite Hp.
Qed.

Lemma connect_sane w config bounds decoder classifier connector address :
  sane w → SetSystem.admissible w (Connect config bounds decoder classifier connector address) →
  sane (exec w (Connect config bounds decoder classifier connector address)).
Proof.
  intros [Ha Hq Hg Hro] [Hv Hf]. cbn [exec].
  destruct (connect_with _ _ _ _ _ _ _) as [[self' heap'] r] eqn:Hr.
  destruct w as [[self heap] l]. cbn [owner accounts fst snd] in *.
  pose proof (accounted_connect _ _ _ _ _ _ _ _ _ _ _ _ Hg Hv Hf Hr Ha) as Hacc.
  apply connect_with_spec in Hr; [|done]. destruct r as [connection|error].
  - destruct Hr as (e' & limit & slot & t & Had & _ & _ & _ & _ & _ & _ & _ & Hroom).
    split; [exact Hacc|by eapply added_queue|by eapply added_registered|].
    pose proof (added_limits _ _ _ _ Had) as Hlimits. pose proof Had as [].
    eapply roomy_step; [exact Hlimits|done| |exact Hro].
    cbn [owner fst]. rewrite ad_live0, map_size_insert_None by by apply fresh_dead. lia.
  - destruct Hr as [[Hr|Hr] _]; (split; [exact Hacc| | |]).
    + by eapply restored_queue.
    + by eapply restored_registered.
    + pose proof (restored_limits _ _ Hr) as Hl. destruct Hr as [_ Hc _ _ Hlive _ _].
      eapply roomy_step; [exact Hl|exact Hc| |exact Hro].
      cbn [owner moved fst]. rewrite Hlive. apply Hro.
    + by eapply lost_queue.
    + by eapply lost_registered.
    + destruct Hr as (source & _ & _ & _ & _ & Hlive & Hl & Hc & _).
      eapply roomy_step; [done|done| |exact Hro].
      cbn [owner moved fst]. rewrite Hlive, map_size_fmap. apply Hro.
Qed.

(** A connection that leaves makes room. *)
Lemma removed_roomy r self self' : removed r self self' → roomy self → roomy self'.
Proof.
  intros [Hl _ Hc Hlive _] Hr. eapply roomy_step; [done|done| |exact Hr]. rewrite Hlive.
  destruct Hr as [Hr _]. pose proof (subseteq_size (dom (delete r (live self))) (dom (live self))
    ltac:(rewrite dom_delete_L; set_solver)) as Hle.
  rewrite !size_dom in Hle. lia.
Qed.

(** Releasing a capability changes no connection's place in the table. *)
Lemma after_release_roomy self r id e0 p e cleanup :
  live self !! r = Some (id, e0) → roomy self → roomy (after_release self r p e cleanup).
Proof.
  intros Hl Hr. unfold after_release. set (mid := update_entry (set_poller self p) r e).
  assert (live (set_poller self p) !! r = Some (id, e0)) as Hl' by done.
  assert (roomy mid) as Hm.
  { apply (roomy_step self); [done|exact (update_capacity _ _ _ _ e Hl')| |exact Hr].
    unfold mid. rewrite (update_live _ _ _ _ e Hl'), map_size_insert_Some by (by eexists).
    apply Hr. }
  destruct cleanup; [|done]. eapply roomy_calm; [apply latch_calm|exact Hm].
Qed.

Lemma retire_sane w connection : sane w → sane (exec w (Retire connection)).
Proof.
  intros [Ha Hq Hg Hro]. cbn [exec]. destruct (retire _ _ _) as [self' r] eqn:Hr.
  pose proof (accounted_retire _ _ _ _ _ _ Hr Ha) as Hacc. apply retire_spec in Hr.
  destruct r as [u|err]; cbn [fst]; [|by subst; split].
  destruct Hr as (e & He%entry_live & _ & Ht & _ & _ & _ & Hrm & Hp & Hf).
  split; [exact Hacc|by eapply removed_queue| |by eapply removed_roomy]. cbn [owner moved fst].
  eapply removed_registered; [exact Hrm|by rewrite Hp| |exact Hg]. rewrite Hf, Hp. intros Hn.
  split; [done|]. intros Hin. destruct (rg_only _ Hg Hn _ Hin) as (id1 & e1 & H1 & [t H2]). congruence.
Qed.

Lemma recovered_sane w connection reason s r :
  sane w → recover_connection connection reason (owner w) = (s, r) → sane (moved w s).
Proof.
  intros [Ha Hq Hg Hro] Hr. destruct w as [[self heap] l], s as [self' heap'].
  split; cbn [owner accounts moved fst snd] in *.
  - by eapply accounted_recover.
  - by eapply recover_queue.
  - by eapply recover_registered.
  - destruct (entry self connection) as [e|] eqn:He.
    + pose proof (recover_connection_spec _ _ _ _ _ _ _ _ He Hr) as Hs. cbv zeta in Hs.
      destruct (release_transport _ _ _) as [[[p e1] cleanup] failed] eqn:Hrel.
      destruct Hs as (e2 & slot2 & report & _ & _ & _ & _ & Hrm & _).
      eapply removed_roomy; [exact Hrm|]. apply entry_live in He.
      by eapply after_release_roomy.
    + unfold recover_connection, entry_mut in Hr. rewrite He in Hr. by simplify_eq.
Qed.

Lemma controlled_sane {A : Type} w connection (f : STE _ EngineError.t A) :
  control f → sane w → sane (moved w (controlled connection f (owner w)).1).
Proof.
  intros Hf Hs. destruct w as [[self heap] l]. cbn [owner].
  destruct (controlled _ _ _) as [[self' heap'] r] eqn:Hr. cbn [fst].
  eapply stepped_sane; [exact Hs|by eapply controlled_stepped|].
  eapply accounted_controlled; [exact Hf|exact Hr|apply Hs].
Qed.

(** Every admissible call of a set keeps the invariant. *)
Lemma sane_exec w c : sane w → SetSystem.admissible w c → sane (exec w c).
Proof.
  intros Hs. destruct c as [config bounds decoder classifier connector address|connection now options
    |from i|connection from i frame|connection|connection op|connection d|connection why|connection
    |connection|connection|connection|connection why|commands|maximum|now]; intros Hadm.
  - by apply connect_sane.
  - cbn [exec]. destruct w as [[self heap] l]. cbn [owner accounts].
    destruct (reserve _ _ _ _) as [[self' heap'] r] eqn:Hr.
    pose proof (accounted_reserve _ _ _ _ _ _ _ _ _ Hr (sn_accounted _ Hs)) as Ha.
    apply reserve_spares in Hr. apply stepped_spares in Hr.
    destruct r; by eapply stepped_sane.
  - cbn [exec]. unfold permit_of. destruct (accounts w !! from) as [a|] eqn:Hl; simpl; [|done].
    destruct (permits (noted a) !! i) as [p|] eqn:Hp; [|done].
    destruct Hs as [Ha Hq Hg Hro]. split; [by eapply accounted_drop|done|done|done].
  - cbn [exec]. unfold permit_of. destruct (accounts w !! from) as [a|] eqn:Hl; simpl; [|done].
    destruct (permits (noted a) !! i) as [p|] eqn:Hp; [|done].
    destruct w as [[self heap] l]. cbn [owner accounts] in *.
    destruct (commit _ _ _ _) as [[self' heap'] r] eqn:Hr.
    pose proof (accounted_commit _ _ _ _ _ _ _ _ _ _ _ _ Hl Hp Hadm Hr (sn_accounted _ Hs)) as Ha.
    apply commit_stepped in Hr. destruct (accepted_of r); by eapply stepped_sane.
  - apply controlled_sane; [apply open_control|done].
  - apply controlled_sane; [apply cancel_control|done].
  - apply controlled_sane; [apply drain_control|done].
  - apply controlled_sane; [by apply finalize_control|done].
  - cbn [exec]. destruct w as [[self heap] l]. cbn [owner accounts fst snd].
    destruct (drain_outcomes _ _) as [self' r] eqn:Hr.
    pose proof (accounted_drain_outcomes _ _ _ _ _ _ Hr (sn_accounted _ Hs)) as Ha.
    pose proof (drain_outcomes_spares self connection) as Hsp. rewrite Hr in Hsp.
    apply stepped_spares in Hsp. destruct r; by eapply stepped_sane.
  - cbn [exec]. destruct w as [[self heap] l]. cbn [owner accounts fst snd].
    destruct (drain_events _ _) as [self' r] eqn:Hr.
    pose proof (accounted_drain_events _ _ _ _ _ _ Hr (sn_accounted _ Hs)) as Ha.
    pose proof (drain_events_spares self connection) as Hsp. rewrite Hr in Hsp.
    apply stepped_spares in Hsp. destruct r; by eapply stepped_sane.
  - by apply retire_sane.
  - cbn [exec]. destruct w as [[self heap] l]. unfold try_recover. cbn [owner].
    destruct (entry self connection) as [e|]; [|exact Hs].
    destruct (EngineState.failure _) as [reason|]; [|exact Hs].
    destruct (recover_connection _ _ _) as [s r] eqn:Hr. by eapply recovered_sane.
  - cbn [exec]. destruct w as [[self heap] l]. unfold abandon. cbn [owner].
    destruct (entry self connection) as [e|]; [|exact Hs].
    destruct (recover_connection _ _ _) as [s r] eqn:Hr. by eapply recovered_sane.
  - cbn [exec]. apply (same_sane w); try done. eapply accounted_same; [|apply Hs]. done.
  - cbn [exec]. pose proof (accounted_poll _ _ _ maximum (sn_accounted _ Hs)) as Ha.
    unfold poll_io. destruct (poll_selector _ _) as [self' r] eqn:Hp. cbn [fst] in Ha.
    apply poll_selector_spec in Hp. destruct r as [report|err]; cbn [fst].
    + eapply calm_sane; [exact Hs| |].
      * etrans; [apply Hp|]. by apply same_grows.
      * eapply accounted_same; [|exact Ha]. done.
    + by eapply calm_sane.
  - cbn [exec]. destruct w as [[self heap] l]. cbn [owner].
    destruct (turn now (self, heap)) as [[self' heap'] r] eqn:Hr.
    pose proof (accounted_turn _ _ _ _ _ Hr (sn_accounted _ Hs)) as Ha.
    apply turn_spec in Hr as [Hc _]. by eapply calm_sane.
Qed.

Lemma sane_reachable w0 w : sane w0 → SetSystem.reachable w0 w → sane w.
Proof. intros H0. induction 1; [done|by apply sane_exec]. Qed.

(** A new set has no connection, and nothing is registered. *)
Lemma start_sane config set_limits heap w :
  0 ≤ nonzero_get (ConnectionSetLimits.max_connections set_limits) →
  SetSystem.start config set_limits heap = Some w → sane w.
Proof.
  intros Hmax. unfold SetSystem.start, ConnectionSet.new.
  destruct (poller_new _) as [p|e] eqn:Hp; [|done]. intros [= <-]. apply poller_new_tokens in Hp.
  set (self := ConnectionSet.mk _ _ _ _ _ _ _ _ _ _ _ _ _ _).
  assert (live self = ∅) as Hnone by apply table_new_map.
  split; cbn [owner accounts fst snd]; split; try done; rewrite ?Hnone.
  - intros r id e. by rewrite lookup_empty.
  - constructor.
  - intros token. rewrite lookup_empty. split; [by intros ?%not_elem_of_nil|].
    by intros (? & ? & ? & _).
  - intros token id e. by rewrite lookup_empty.
  - intros _ token. cbn [poller self]. rewrite Hp. set_solver.
  - rewrite map_size_empty. cbn [resources self].
    by rewrite (proj2 (table_new_map _ _)).
  - apply (proj2 (table_new_map _ _)).
Qed.

End set_runs.
End SetRuns.
