(* ===== verification/SetForward.v ===== *)
(** * What no call of a connection set undoes

    [forward]: a token keeps naming the connection it was given to until that
    connection goes, and nothing afterwards; the failure of the selector is
    final; the limits are fixed. Every call is such a step, so every run is. *)
From Stdlib Require Import ZArith Lia.
From stdpp Require Import prelude gmap.
From S2P Require Import Prelude External Host Identity Limits Admission Ledger Operation Permit.
From S2P Require Import Write Framing Machine Core Recovery Config Transport SlotData Slot Drive.
From S2P Require Import SlotSpec SlotCalls SetHost SetData SetOwner SetSpec SetLife SetTurns.
From S2P Require Import SetStanding SetSystem SetRuns.

Import ConnectionSet SetSpec SetLife SetTurns SetStanding SetSystem SetRuns.

Module SetForward.
Section set_forward.
Context {Cal : Calandria} {BB : ByteBudgetLib} {Build : BuildConfig} {H : Host} {SH : SetHost}.
Context {Laws : CalandriaLaws Cal} {BLaws : ByteBudgetLaws BB} {HL : HostLaws H}.
Context {SHL : SetHostLaws SH}.
Context {D C : Type} {Dec : FrameDecoder D} {Ret : Retained Frame}.
Context {Cls : InboundClassifier Frame C}.
Context {T : Type} {TP : SlotTransport T} {RT : RegisteredTransport T}.
Context {K : Type} {Con : TransportConnector K T}.
Context (holds : T → Prop) (contract : TransportContract TP false rb_ZERO holds).
Context (registered : RegisteredContract RT holds).
Context (connects : ∀ (k : K) address limits t, connector_connect k address limits = Ok t → holds t).
Implicit Types (self : ConnectionSet.t D C T) (e : ConnectionEntry.t D C T).
Implicit Types (w : world D C T) (token resource : ResourceToken).

Record forward self self' : Prop := mk_forward {
  fw_limits : limits self' = limits self;
  fw_issued : ∀ token, token ∈ table_issued (resources self) →
    token ∈ table_issued (resources self');
  fw_identity : ∀ token, token ∈ table_issued (resources self) →
    fst <$> live self' !! token = fst <$> live self !! token ∨ live self' !! token = None;
  fw_failure : ∀ reason, owner_failure self = Some reason → owner_failure self' = Some reason;
}.

#[export] Instance forward_preorder : PreOrder forward.
Proof.
  split; [intros self; split; auto|]. intros x y z [] []. split; try congruence; auto.
  intros token Hin. destruct (fw_identity1 token (fw_issued0 _ Hin)) as [Heq|]; [|by right].
  destruct (fw_identity0 token Hin) as [Heq0|Hnone]; [left; congruence|right].
  rewrite Hnone in Heq. by destruct (live z !! token).
Qed.

(** A step that neither adds nor removes a connection. *)
Record steady self self' : Prop := mk_steady {
  st_calm : calm self self';
  st_failure : ∀ reason, owner_failure self = Some reason → owner_failure self' = Some reason;
}.

#[export] Instance steady_preorder : PreOrder steady.
Proof. split; [by intros self; split|]. intros x y z [] []. split; [by etrans|auto]. Qed.

Lemma steady_forward self self' : steady self self' → forward self self'.
Proof.
  intros [[Hl Hi _ Hid _ _] Hf]. split; [done|by rewrite Hi| |done]. intros token _. by left.
Qed.

Lemma latch_steady self source : steady self (latch_selector_failure self source).
Proof.
  split; [apply latch_calm|]. intros reason Hf. by rewrite (latch_again _ _ _ Hf).
Qed.

Lemma spares_steady r self self' : spares r self self' → steady self self'.
Proof. intros Hs. split; [by eapply spares_calm|]. by destruct Hs as [_ _ _ -> _ _ _ _ _]. Qed.

Lemma stepped_steady r self self' : stepped r self self' → steady self self'.
Proof.
  intros (mid & Hs & [->|(source & ->)]); [by eapply spares_steady|].
  etrans; [by eapply spares_steady|apply latch_steady].
Qed.

Lemma grows_steady self self' : grows self self' → steady self self'.
Proof. intros [Hc Hf _]. split; [done|]. by rewrite Hf. Qed.

Lemma turn_steady now self heap self' heap' r :
  turn now (self, heap) = (self', heap', r) → steady self self'.
Proof.
  intros Hr. pose proof (turn_spec _ _ _ _ _ _ Hr) as [Hc _]. split; [done|].
  intros reason Hf. unfold turn, turn_component, ensure_owner_running in Hr. rewrite Hf in Hr.
  by simplify_eq.
Qed.

Lemma poll_steady self maximum : steady self (poll_io self maximum).1.
Proof.
  unfold poll_io. destruct (poll_selector _ _) as [self1 r] eqn:Hp.
  pose proof (poll_selector_spec _ _ _ _ Hp) as Hs. destruct r as [report|err].
  - etrans; [by apply grows_steady|]. by apply grows_steady, same_grows.
  - split; [done|]. intros reason Hf. unfold poll_selector, ensure_owner_running in Hp.
    rewrite Hf in Hp. by simplify_eq.
Qed.

Lemma removed_forward r self self' :
  removed r self self' → owner_failure self' = owner_failure self → forward self self'.
Proof.
  intros [Hl Hi _ Hlive _] Hf. split; [done|by rewrite Hi| |by rewrite Hf]. intros token _.
  rewrite Hlive. destruct (decide (token = r)) as [->|Hne].
  - right. apply lookup_delete_eq.
  - left. by rewrite lookup_delete_ne.
Qed.

Lemma after_release_forward self r id e0 p e cleanup :
  live self !! r = Some (id, e0) → forward self (after_release self r p e cleanup).
Proof.
  intros Hl. unfold after_release.
  assert (live (set_poller self p) !! r = Some (id, e0)) as Hl' by done.
  assert (forward self (update_entry (set_poller self p) r e)) as Hm.
  { split; [done|by rewrite (update_issued _ _ _ _ _ Hl')| |done]. intros token _. left.
    rewrite (update_live _ _ _ _ _ Hl'). destruct (decide (token = r)) as [->|Hne].
    - by rewrite lookup_insert_eq, Hl.
    - by rewrite lookup_insert_ne. }
  destruct cleanup; [|done]. etrans; [exact Hm|apply steady_forward, latch_steady].
Qed.

Lemma recover_forward connection reason self heap self' heap' r :
  recover_connection connection reason (self, heap) = (self', heap', r) → forward self self'.
Proof.
  intros Hr. destruct (entry self connection) as [e|] eqn:He.
  - pose proof (recover_connection_spec _ _ _ _ _ _ _ _ He Hr) as Hs. cbv zeta in Hs.
    destruct (release_transport _ _ _) as [[[p e1] cleanup] failed].
    destruct Hs as (e2 & slot2 & report & _ & _ & _ & _ & Hrm & Hf & _). apply entry_live in He.
    etrans; [by eapply after_release_forward|by eapply removed_forward].
  - unfold recover_connection, entry_mut in Hr. rewrite He in Hr. by simplify_eq.
Qed.

Lemma connect_forward config bounds decoder classifier (connector : K) address self heap self' heap' r :
  registered_ok self →
  connect_with config bounds decoder classifier connector address (self, heap) = (self', heap', r) →
  forward self self'.
Proof.
  intros Hg Hr. apply connect_with_spec in Hr; [|done]. destruct r as [connection|error].
  - destruct Hr as (e' & limit & slot & t & Had & _). pose proof (added_limits _ _ _ _ Had) as Hl.
    destruct Had. split; [exact Hl| | |congruence].
    + intros token Hin. rewrite ad_issued0. by constructor.
    + intros token Hin. left. rewrite ad_live0, lookup_insert_ne; [done|]. congruence.
  - destruct Hr as [[Hr|(source & _ & Hn & _ & _ & Hl & Hlim & _ & _ & Hi)] _].
    + split; [by apply restored_limits| | |by rewrite (re_failure _ _ Hr)].
      * intros token. by apply restored_issued.
      * intros token _. left. by rewrite (re_live _ _ Hr).
    + split; [done|done| |congruence]. intros token _. left. rewrite Hl, lookup_fmap.
      by destruct (live self !! token).
Qed.

(** The calls that may add or remove a connection. *)
Definition structural (c : command D C K) : bool :=
  match c with
  | Connect _ _ _ _ _ _ | Retire _ | TryRecover _ | Abandon _ _ => true
  | _ => false
  end.

Lemma exec_steady w c : structural c = false → steady (owner w).1 (owner (exec w c)).1.
Proof.
  destruct w as [[self heap] l]. cbn [owner fst].
  destruct c as [? ? ? ? ? ?|connection now options|from i|connection from i frame|connection
    |connection op|connection d|connection why|connection|connection|?|?|? ?|commands|maximum|now];
    intros Hc; try discriminate Hc; clear Hc; cbn [exec owner fst snd].
  - destruct (reserve _ _ _ _) as [[self' heap'] r] eqn:Hr.
    apply reserve_spares, spares_steady in Hr. by destruct r.
  - by destruct (permit_of _ _ _).
  - destruct (permit_of _ _ _); [|done]. destruct (commit _ _ _ _) as [[self' heap'] r] eqn:Hr.
    apply commit_stepped, stepped_steady in Hr. by destruct (accepted_of r).
  - destruct (open_admission _ _) as [[self' heap'] r] eqn:Hr. by eapply stepped_steady, controlled_stepped.
  - destruct (cancel _ _ _) as [[self' heap'] r] eqn:Hr. by eapply stepped_steady, controlled_stepped.
  - destruct (begin_drain _ _ _) as [[self' heap'] r] eqn:Hr. by eapply stepped_steady, controlled_stepped.
  - destruct (finalize _ _ _) as [[self' heap'] r] eqn:Hr. by eapply stepped_steady, controlled_stepped.
  - pose proof (spares_steady _ _ _ (drain_outcomes_spares self connection)) as Hs.
    destruct (drain_outcomes _ _) as [self' [x|err]]; exact Hs.
  - pose proof (spares_steady _ _ _ (drain_events_spares self connection)) as Hs.
    destruct (drain_events _ _) as [self' [x|err]]; exact Hs.
  - split; [|done]. by apply same_grows.
  - apply poll_steady.
  - destruct (turn _ _) as [[self' heap'] r] eqn:Hr. by eapply turn_steady.
Qed.

(** Every call. *)
Lemma exec_forward w c :
  registered_ok (owner w).1 → forward (owner w).1 (owner (exec w c)).1.
Proof.
  intros Hg. destruct (structural c) eqn:Hc; [|by apply steady_forward, exec_steady].
  destruct w as [[self heap] l]. cbn [owner fst] in Hg |- *.
  destruct c as [config bounds decoder classifier connector address|?|?|? ? ?|?|?|?|?|?|?|connection
    |connection|connection why|?|?|?]; try discriminate Hc; clear Hc; cbn [exec owner fst snd].
  - destruct (connect_with _ _ _ _ _ _ _) as [[self' heap'] r] eqn:Hr.
    apply connect_forward in Hr; [|done]. by destruct r.
  - destruct (retire _ _ _) as [self' r] eqn:Hr. apply retire_spec in Hr.
    destruct r; cbn; [|by subst]. destruct Hr as (e & _ & _ & _ & _ & _ & _ & Hrm & _ & Hf).
    by eapply removed_forward.
  - unfold try_recover. destruct (entry self connection) as [e|]; [|done].
    destruct (EngineState.failure _); [|done].
    destruct (recover_connection _ _ _) as [[self' heap'] r] eqn:Hr. by eapply recover_forward.
  - unfold abandon. destruct (entry self connection) as [e|]; [|done].
    destruct (recover_connection _ _ _) as [[self' heap'] r] eqn:Hr. by eapply recover_forward.
Qed.

Lemma run_forward w w' :
  sane holds w → reachable w w' → forward (owner w).1 (owner w').1.
Proof.
  intros Hs. induction 1 as [|w' c Hr IH Ha]; [done|]. etrans; [exact IH|]. apply exec_forward.
  eapply sn_registered, sane_reachable; [done..|exact Hr].
Qed.

End set_forward.
End SetForward.
