(* ===== verification/SetWork.v ===== *)
(** * The work of one turn is bounded

    A turn of a set does at most its command bound, two batches of selector
    events and, for each round of the ready loop, the quantum of one slot with
    its settlement and its interest. [SetSpin] is about failed connections whose
    deadlines have passed: they keep the set awake. *)
From Stdlib Require Import ZArith Lia.
From stdpp Require Import prelude gmap.
From S2P Require Import Prelude External Identity Limits Admission Ledger Operation Permit.
From S2P Require Import Write Framing Machine Core Recovery Host Config Transport SlotData.
From S2P Require Import Slot Drive SlotSpec SlotCalls SlotStanding SetHost SlotTheorems.
From S2P Require Import SetData SetOwner SetSpec SetTurns SetStanding SetSystem SetRuns.

Import Hosted SlotCalls SlotStanding ConnectionSet SetSpec SetStanding SetRuns.

Module SetWork.
Section set_work.
Context {Cal : Calandria} {BB : ByteBudgetLib} {Build : BuildConfig} {H : Host} {SH : SetHost}.
Context {Laws : CalandriaLaws Cal} {BLaws : ByteBudgetLaws BB} {HL : HostLaws H}.
Context {SHL : SetHostLaws SH}.
Context {D C : Type} {Dec : FrameDecoder D} {Ret : Retained Frame}.
Context {Cls : InboundClassifier Frame C}.
Context {T : Type} {TP : SlotTransport T} {Typing : TransportTyping TP} {RT : RegisteredTransport T}.
Context (holds : T → Prop) (contract : TransportContract TP false rb_ZERO holds).
Context (registered : RegisteredContract RT holds).
Implicit Types (self : ConnectionSet.t D C T) (e : ConnectionEntry.t D C T) (heap : Heap.t).

(** Sums that saturate. *)
Lemma saturating_bounds a b m n :
  0 ≤ a ≤ m → 0 ≤ b ≤ n → 0 ≤ usize_saturating_add a b ≤ m + n.
Proof. unfold usize_saturating_add, USIZE_MAX. lia. Qed.

Lemma settle_entry_work p resource e heap p' e' heap' w :
  settle_entry p resource e heap = (p', e', heap', Ok w) → 0 ≤ w ≤ 1.
Proof.
  unfold settle_entry. repeat (case_match; simplify_eq); intros; simplify_eq; lia.
Qed.

Lemma sync_interest_work p resource e p' e' w :
  sync_interest p resource e = (p', e', Ok w) → 0 ≤ w ≤ 1.
Proof. unfold sync_interest. repeat (case_match; simplify_eq); intros; simplify_eq; lia. Qed.

(** A quantum, one settlement and one change of interest. *)
Lemma drive_entry_work now p resource e heap p' e' heap' w again b :
  1 ≤ Drive.io_budget (ConnectionEntry.slot e) ≤ b → b ≤ USIZE_MAX →
  drive_entry now p resource e heap = (p', e', heap', Ok (w, again)) → 0 ≤ w ≤ b + 2.
Proof.
  intros Hb Hmax. unfold drive_entry.
  destruct (Drive.drive_quantum _ _) as [[[slot heap1] t] driven] eqn:Hq.
  set (y := match driven with Ok _ => _ | Err _ => _ end).
  assert (0 ≤ SlotProgress.work y.2 ≤ b) as Hy.
  { subst y. destruct driven as [progress|error]; simpl; [|lia].
    pose proof (QuantumTheorems.quantum_bounded now
      (ConnectionEntry.slot e, heap, ConnectionEntry.transport e) (slot, heap1, t) progress) as Hw.
    cbn [fst] in Hw. destruct Hw as [Hw _]; [lia|exact Hq|lia]. }
  destruct y as [slot1 progress]. cbn [snd] in Hy.
  destruct (settle_entry _ _ _ _) as [[[p1 e2] heap2] [settled|error]] eqn:Hs; [|intros; by simplify_eq].
  apply settle_entry_work in Hs.
  destruct (sync_interest _ _ _) as [[p2 e3] [interest|error]] eqn:Hi; [|intros; by simplify_eq].
  apply sync_interest_work in Hi. intros [= _ _ _ <- _].
  pose proof (saturating_bounds _ _ _ _ Hy Hs) as H1.
  pose proof (saturating_bounds _ _ _ _ H1 Hi). lia.
Qed.

(** The quanta of the slots of a set are bounded by [b]. *)
Definition quanta (l : gmap ResourceToken (account (Dec := Dec))) (b : Z) : Prop :=
  b ≤ USIZE_MAX ∧
  ∀ r a, l !! r = Some a → nonzero_get (ConnectionSlotLimits.io_operations (bounds a)) ≤ b.

Lemma round_work l b now work (s s' : ConnectionSet.owner D C T) w :
  accounted_at holds l s → quanta l b → ready_round now work s = (s', Some (Ok w)) →
  0 ≤ work → 0 ≤ b → 0 ≤ w ≤ work + (b + 2).
Proof.
  destruct s as [self heap]. intros Ha [Hmax Hb] Hr Hw Hpos. revert Hr. unfold ready_round.
  destruct (ready self) as [|resource rest]; [done|]. rewrite get_live.
  change (live (set_ready self rest)) with (live self).
  destruct (live self !! resource) as [[id e]|] eqn:Hl; [|intros; simplify_eq; lia].
  destruct (drive_entry _ _ _ _ _) as [[[p e1] heap1] [[progress again]|error]] eqn:Hd; [|done].
  intros [= _ <-].
  destruct (ac_live _ _ _ _ Ha _ _ _ Hl) as (a & Hla & _ & [Hv _ Hst]).
  pose proof (wh_limits _ _ _ _ (stands_whole _ _ _ _ _ _ Hst)) as Hlim. cbn [fst] in Hlim.
  eapply drive_entry_work with (b := b) in Hd; [|unfold Drive.io_budget; rewrite Hlim|done].
  - pose proof (saturating_bounds work progress work (b + 2)). lia.
  - split; [apply (vl_io _ Hv)|by eapply Hb].
Qed.

Lemma rounds_work l b rounds now work (s s' : ConnectionSet.owner D C T) w :
  accounted_at holds l s → quanta l b → 0 ≤ b → 0 ≤ work →
  ready_rounds rounds now work s = (s', Ok w) →
  0 ≤ w ≤ work + Z.of_nat rounds * (b + 2).
Proof.
  intros Ha Hq Hb. revert work s Ha. induction rounds as [|rounds IH]; intros work s Ha Hw;
    cbn [ready_rounds]; [intros; simplify_eq; lia|].
  destruct (ready_round now work s) as [s1 [[w1|e]|]] eqn:Hr; [|done|intros; simplify_eq; lia].
  pose proof (round_work _ _ _ _ _ _ _ Ha Hq Hr Hw Hb) as H1.
  apply (accounted_round holds contract registered l) in Hr; [|done].
  intros Hx. apply IH in Hx; [|done|lia]. lia.
Qed.

(** ** Commands and events *)

Lemma enqueue_events self r : poll_events (enqueue self r) = poll_events self.
Proof. destruct (enqueue_cases self r) as [[-> _]|(id & e & _ & _ & ->)]; done. Qed.

Lemma apply_command_events command (s : ConnectionSet.owner D C T) :
  poll_events (apply_command command s).1 = poll_events s.1.
Proof.
  destruct s as [self heap]. unfold apply_command. destruct (entry_mut _ _); [|done].
  destruct (match command with ConnectionCommand.OpenAdmission _ => _ | _ => _ end) as [[e1 heap1] r].
  cbn [fst]. by rewrite enqueue_events.
Qed.

Lemma drive_commands_work (s s' : ConnectionSet.owner D C T) w :
  drive_commands s = (s', w) →
  0 ≤ w ≤ Z.max 0 (nonzero_get (ConnectionSetLimits.commands_per_turn (limits s.1))) ∧
  poll_events s'.1 = poll_events s.1.
Proof.
  destruct s as [self heap]. unfold drive_commands.
  pose proof (mailbox_drain_spec (commands self) (command_buffer self)
    (ConnectionSetLimits.commands_per_turn (limits self))) as Hspec.
  destruct (mailbox_drain_into _ _ _) as [[mailbox buffer] report].
  destruct Hspec as (l & _ & _ & Hn & Hle & _).
  assert (∀ l (s : ConnectionSet.owner D C T),
    poll_events (foldl (λ s command, apply_command command s) s l).1 = poll_events s.1) as Hev.
  { induction l0 as [|c l0 IH]; intros s; [done|]. simpl. by rewrite IH, apply_command_events. }
  set (self1 := set_command_more_pending _ _). specialize (Hev buffer (self1, heap)).
  destruct (foldl _ _ _) as [self2 heap2]. intros [= <- <-]. cbn [fst] in *.
  split; [rewrite Hn; lia|exact Hev].
Qed.

Lemma ingest_event_events self event : poll_events (ingest_event self event) = poll_events self.
Proof. unfold ingest_event. by repeat (case_match; simplify_eq/=). Qed.

Lemma ingest_work self self' w :
  ingest_readiness self = (self', w) →
  0 ≤ w ≤ poll_events_bound (poll_events self) ∧
  poll_events_bound (poll_events self') = poll_events_bound (poll_events self).
Proof.
  unfold ingest_readiness. destruct (poll_events_drain_spec (poll_events self)) as (Hd & _ & Hb).
  pose proof (poll_events_room (poll_events self)) as Hroom.
  destruct (poll_events_drain _) as [events drained]. cbn [fst snd] in *. subst drained.
  intros [= <- <-]. split; [unfold USIZE_MAX; lia|]. rewrite <- Hb.
  assert (∀ l self, poll_events (foldl ingest_event self l) = poll_events self) as Hev.
  { induction l as [|event l IH]; intros self0; [done|]. simpl. by rewrite IH, ingest_event_events. }
  by rewrite Hev.
Qed.

Lemma batches_work self self' w :
  ingest_poll_batches self = (self', Ok w) → 0 ≤ w ≤ 2 * poll_events_bound (poll_events self).
Proof.
  unfold ingest_poll_batches. destruct (ingest_readiness self) as [self1 w1] eqn:H1.
  apply ingest_work in H1 as [Hw1 Hb1]. destruct (poll_saturated self1); [|intros; simplify_eq; lia].
  unfold poll_selector. destruct (ensure_owner_running self1); [|done].
  pose proof (poller_poll_bound (poller self1) span_ZERO (poll_events self1)) as Hp.
  destruct (poller_poll _ _ _) as [[p events] [report|]]; cbn [resolve_selector_poll]; [|done].
  destruct (ingest_readiness _) as [self3 more] eqn:H3. apply ingest_work in H3 as [Hw3 _].
  cbn in Hw3, Hp. rewrite Hp, Hb1 in Hw3. intros [= _ <-].
  pose proof (saturating_bounds _ _ _ _ Hw1 Hw3). lia.
Qed.

Lemma turn_work_bound l b now (s s' : ConnectionSet.owner D C T) t :
  accounted_at holds l s → quanta l b → 0 ≤ b → turn now s = (s', Ok t) →
  0 ≤ turn_work t ≤
    Z.max 0 (nonzero_get (ConnectionSetLimits.commands_per_turn (limits s.1))) +
    2 * poll_events_bound (poll_events s.1) + Z.of_nat (ready_budget s.1) * (b + 2).
Proof.
  destruct s as [self heap]. intros Ha Hq Hb. unfold turn, turn_component.
  destruct (ensure_owner_running self); [|done].
  pose proof (accounted_commands holds contract l _ Ha) as A1.
  pose proof (SetTurns.drive_commands_grows (self, heap)) as G1.
  destruct (drive_commands (self, heap)) as [[self1 heap1] work] eqn:H1.
  apply drive_commands_work in H1 as [W1 E1]. cbn [fst] in *.
  pose proof (accounted_batches holds registered l _ _ A1) as A2. cbn [fst snd] in A2.
  destruct (ingest_poll_batches self1) as [self2 [ingested|err]] eqn:H2; [|done].
  pose proof (SetTurns.batches_spec _ _ _ H2) as G2.
  apply batches_work in H2. cbn [fst] in A2. rewrite E1 in H2.
  pose proof (accounted_candidates holds l _ _ now A2) as A3.
  pose proof (SetTurns.candidates_grow now self2) as G3.
  unfold drive_ready. destruct (ready_rounds _ _ _ _) as [[self4 heap4] [driven|err]] eqn:H4; [|done].
  apply (rounds_work l b) in H4; [|exact A3|done|done|lia].
  intros [= _ <-]. rewrite turn_work_new.
  assert (ready_budget (enqueue_candidates self2 now) = ready_budget self) as Hbud.
  { unfold ready_budget. by rewrite (SetTurns.ca_limits _ _ (SetTurns.gr_calm _ _ G3)),
      (SetTurns.ca_limits _ _ (SetTurns.gr_calm _ _ G2)),
      (SetTurns.ca_limits _ _ (SetTurns.gr_calm _ _ G1)). }
  rewrite Hbud in H4.
  pose proof (saturating_bounds _ _ _ _ W1 H2) as S1.
  assert (0 ≤ driven ≤ Z.of_nat (ready_budget self) * (b + 2)) as S2 by lia.
  pose proof (saturating_bounds _ _ _ _ S1 S2) as S3. unfold to_u64.
  destruct (Z.leb_spec (usize_saturating_add (usize_saturating_add work ingested) driven) U64_MAX);
    unfold U64_MAX in *; lia.
Qed.

End set_work.
End SetWork.

(** ** Failed connections whose deadlines pass

    A failed connection keeps its timers until it is recovered. Once one of
    them elapsed, every turn queues the connection again ([overdue] is kept by
    all that precedes the ready loop), although its quantum is refused. *)

Import Hosted ConnectionSet SetSpec SetTurns.

Module SetSpin.
Section set_spin.
Context {Cal : Calandria} {BB : ByteBudgetLib} {Build : BuildConfig} {H : Host} {SH : SetHost}.
Context {SHL : SetHostLaws SH}.
Context {D C : Type} {Dec : FrameDecoder D} {Ret : Retained Frame}.
Context {Cls : InboundClassifier Frame C}.
Context {T : Type} {TP : SlotTransport T} {RT : RegisteredTransport T}.
Implicit Types (self : ConnectionSet.t D C T) (e : ConnectionEntry.t D C T).
Implicit Types (token resource : ResourceToken) (heap : Heap.t).

(** The slot of the connection failed, and a deadline of it has passed. *)
Definition overdue_slot now (slot : ConnectionSlot.t D C) : Prop :=
  is_Some (EngineState.failure (ConnectionSlot.state slot)) ∧
  ∃ d, ConnectionSlot.next_deadline slot = Some d ∧ is_elapsed_at d now = true.

Definition overdue now e : Prop := overdue_slot now (ConnectionEntry.slot e).

(** Those stay where they are. *)
Definition stays now self self' : Prop :=
  ∀ token id e, live self !! token = Some (id, e) → overdue now e →
    ∃ e', live self' !! token = Some (id, e') ∧ overdue now e'.

#[export] Instance stays_preorder now : PreOrder (stays now).
Proof.
  split; [intros self token id e; by eauto|]. intros x y z H1 H2 token id e Hl Ho.
  destruct (H1 _ _ _ Hl Ho) as (e1 & Hl1 & Ho1). eauto.
Qed.

Lemma same_stays now self self' : resources self' = resources self → stays now self self'.
Proof. intros Hr token id e. unfold live. rewrite Hr. by eauto. Qed.

Lemma stays_same now self mid self' :
  stays now self mid → resources self' = resources mid → stays now self self'.
Proof. intros Hs Hr. etrans; [exact Hs|]. by apply same_stays. Qed.

Lemma entry_stays now self resource id e e' :
  live self !! resource = Some (id, e) → (overdue now e → overdue now e') →
  stays now self (update_entry self resource e').
Proof.
  intros Hl Hi token id0 e0 H0 Ho. destruct (decide (token = resource)) as [->|Hne].
  - assert (e0 = e) as -> by congruence. assert (id0 = id) as -> by congruence.
    exists e'. split; [by eapply update_same|auto].
  - exists e0. by rewrite (update_other _ _ _ _ _ _ Hl Hne).
Qed.

Lemma enqueue_stays now self resource : stays now self (enqueue self resource).
Proof.
  destruct (enqueue_cases self resource) as [[-> _]|(id & e & Hl & _ & ->)]; [done|].
  etrans; [by eapply (entry_stays now self resource id e (ConnectionEntry.set_ready_queued e true))|].
  by apply same_stays.
Qed.

Lemma capture_overdue now (slot : ConnectionSlot.t D C) (t : T) :
  overdue_slot now slot → overdue_slot now (Drive.capture_transport_pressure slot t).1.
Proof.
  unfold Drive.capture_transport_pressure. cbn. by repeat (case_match; simplify_eq/=).
Qed.

Lemma latch_overdue now (slot : ConnectionSlot.t D C) error :
  overdue_slot now slot → overdue_slot now (ConnectionSlot.latch_failure slot error).
Proof.
  intros Ho. unfold ConnectionSlot.latch_failure. destruct Ho as [[why Hf] Hd].
  rewrite Hf. split; [by eexists|done].
Qed.

(** A failed slot refuses a command and is left as it was. *)
Lemma refused_overdue {A : Type} now e heap (f : STE _ EngineError.t A) e1 heap1 r :
  (∀ s why, EngineState.failure (ConnectionSlot.state s.1) = Some why →
     f s = (s, Err (EngineError.OwnerFailed why))) →
  on_slot (f ;;! ste_ret tt) e heap = (e1, heap1, r) → overdue now e → overdue now e1.
Proof.
  intros Hf (_ & _ & _ & Hs)%on_slot_entry Ho. pose proof Ho as [[why Hw] _].
  unfold ste_bind in Hs. rewrite (Hf (ConnectionEntry.slot e, heap) why Hw) in Hs. injection Hs as Hs _ _.
  unfold overdue. by rewrite <- Hs.
Qed.

Lemma apply_command_stays now command (s : owner D C T) :
  stays now s.1 (apply_command command s).1.
Proof.
  destruct s as [self heap]. unfold apply_command, entry_mut.
  destruct (entry self _) as [e|err] eqn:He; [|by apply same_stays]. apply entry_live in He.
  set (x := match command with ConnectionCommand.OpenAdmission _ => _ | _ => _ end).
  assert (overdue now e → overdue now x.1.1) as Hx.
  { subst x. destruct command; match goal with |- context [on_slot ?f e heap] =>
      destruct (on_slot f e heap) as [[e1 heap1] r] eqn:Ho end; cbn [fst];
      eapply refused_overdue; try exact Ho; intros s why Hw;
      apply (QuantumTheorems.failed_slot_refuses (TP := TP) s why Hw). }
  destruct x as [[e1 heap1] r]. cbn [fst] in *. etrans; [|apply enqueue_stays].
  eapply entry_stays; [exact He|]. intros Ho. destruct r; [auto|]. by apply latch_overdue, Hx.
Qed.

Lemma drive_commands_stays now (s : owner D C T) : stays now s.1 (drive_commands s).1.1.
Proof.
  destruct s as [self heap]. unfold drive_commands.
  destruct (mailbox_drain_into _ _ _) as [[mailbox buffer] report].
  set (self1 := set_command_more_pending _ _).
  assert (∀ l (s : owner D C T),
    stays now s.1 (foldl (λ s command, apply_command command s) s l).1) as Hg.
  { induction l as [|command l IH]; intros s; [done|]. simpl. etrans; [|apply IH].
    apply apply_command_stays. }
  specialize (Hg buffer (self1, heap)). destruct (foldl _ _ _) as [self2 heap2].
  transitivity self1; [by apply same_stays|]. etrans; [exact Hg|]. by apply same_stays.
Qed.

Lemma ingest_event_stays now self event : stays now self (ingest_event self event).
Proof.
  unfold ingest_event. destruct (poll_event_resource event) as [[token readiness]|]; [|done].
  rewrite get_live. destruct (live self !! token) as [[id e]|] eqn:Hl; [|by apply same_stays].
  destruct (ConnectionEntry.transport e) as [t|]; [|by apply same_stays].
  unfold observe_transport_readiness.
  set (t' := rt_observe_readiness t readiness).
  pose proof (capture_overdue now (ConnectionEntry.slot e) t') as Hc.
  destruct (Drive.capture_transport_pressure _ t') as [slot r]. cbn [fst] in Hc.
  assert (∀ slot1 flag, (overdue_slot now slot → overdue_slot now slot1) →
    stays now self (update_entry self token
      (ConnectionEntry.mk slot1 (Some t') (ConnectionEntry.interest e) flag))) as Hs.
  { intros slot1 flag Hi. eapply entry_stays; [exact Hl|]. intros Ho. by apply Hi, Hc. }
  destruct r as [u|error]; cbn; case_match; refine (stays_same _ _ _ _ (Hs _ _ _) eq_refl);
    try apply latch_overdue; done.
Qed.

Lemma ingest_stays now self : stays now self (ingest_readiness self).1.
Proof.
  unfold ingest_readiness. destruct (poll_events_drain _) as [events drained]. cbn [fst].
  transitivity (set_poll_events self events); [by apply same_stays|].
  generalize (set_poll_events self events) as self1.
  induction drained as [|event drained IH]; intros self1; [done|]. simpl. etrans; [|apply IH].
  apply ingest_event_stays.
Qed.

Lemma batches_stays now self self' w : ingest_poll_batches self = (self', Ok w) → stays now self self'.
Proof.
  unfold ingest_poll_batches. pose proof (ingest_stays now self) as Hg.
  destruct (ingest_readiness self) as [self1 work]. cbn [fst] in Hg.
  destruct (poll_saturated self1); [|by intros [= <- _]]. unfold poll_selector.
  destruct (ensure_owner_running self1); [|done].
  destruct (poller_poll _ _ _) as [[p events] [report|]]; cbn [resolve_selector_poll]; [|done].
  pose proof (ingest_stays now (observe_poll (set_poll_events (set_poller self1 p) events) report)) as Hg2.
  destruct (ingest_readiness _) as [self3 more]. intros [= <- _]. etrans; [exact Hg|].
  etrans; [|exact Hg2]. by apply same_stays.
Qed.

(** The scan queues every one of them. *)
Lemma candidates_overdue now self token id e :
  queue_ok self → live self !! token = Some (id, e) → overdue now e →
  token ∈ ready (enqueue_candidates self now).
Proof.
  intros Hq Hl Ho. pose proof (candidates_grow now self) as [Hc _ _].
  apply (ca_queue _ _ Hc) in Hq as [_ Hq]. apply Hq. pose proof (ca_identity _ _ Hc token) as Hid.
  rewrite Hl in Hid. destruct (live (enqueue_candidates self now) !! token) as [[id1 e1]|] eqn:Hl1;
    [|done]. exists id1, e1. split; [done|]. apply not_false_is_true. intros Hflag.
  unfold enqueue_candidates in Hl1.
  destruct (scan_quiet _ _ _ _ _ _ Hl1 Hflag) as [Hl2 Hin].
  change (live (set_scan self (tokens self))) with (live self) in Hl2.
  assert (e1 = e) as -> by congruence. assert (should_enqueue now e = false) as Hs.
  { apply Hin. change (scan _) with (tokens self). apply tokens_live. by eexists. }
  destruct Ho as [_ (d & Hd & He)]. unfold should_enqueue in Hs. rewrite Hd, He in Hs. discriminate.
Qed.

(** With more of them than a turn drives, the queue does not empty. *)
Lemma overdue_queue now self heap self' heap' t l :
  queue_ok self → NoDup l → (ready_budget self < length l)%nat →
  (∀ token, token ∈ l → ∃ id e, live self !! token = Some (id, e) ∧ overdue now e) →
  turn now (self, heap) = (self', heap', Ok t) → ready self' ≠ [].
Proof.
  intros Hq Hn Hlen Hall. unfold turn, turn_component. destruct (ensure_owner_running self); [|done].
  pose proof (drive_commands_grows (self, heap)) as G1.
  pose proof (drive_commands_stays now (self, heap)) as S1.
  destruct (drive_commands (self, heap)) as [[self1 heap1] work]. cbn [fst] in G1, S1.
  destruct (ingest_poll_batches self1) as [self2 [ingested|err]] eqn:Hb; [|done].
  pose proof (batches_spec _ _ _ Hb) as G2. pose proof (batches_stays now _ _ _ Hb) as S2.
  pose proof (gr_calm _ _ (transitivity G1 G2)) as Hc. apply (ca_queue _ _ Hc) in Hq.
  assert (l ⊆+ ready (enqueue_candidates self2 now)) as Hsub%submseteq_length.
  { apply NoDup_submseteq; [done|]. intros token Hin. destruct (Hall _ Hin) as (id & e & Hl & Ho).
    destruct (transitivity S1 S2 _ _ _ Hl Ho) as (e2 & Hl2 & Ho2). by eapply candidates_overdue. }
  assert (ready_budget (enqueue_candidates self2 now) = ready_budget self) as Hbud.
  { unfold ready_budget. by rewrite (ca_limits _ _ (gr_calm _ _ (candidates_grow now self2))),
      (ca_limits _ _ Hc). }
  unfold drive_ready. destruct (ready_rounds _ _ _ _) as [[self4 heap4] [driven|err]] eqn:Hr; [|done].
  apply ready_rounds_spec in Hr as (_ & served & back & _ & Heq & Hle & _). cbn [fst] in *.
  intros [= <- _ _] Hnil. rewrite Hnil, app_nil_r in Heq. apply (f_equal length) in Heq.
  rewrite length_app in Heq. lia.
Qed.

End set_spin.
End SetSpin.
