(* ===== verification/SetTheorems.v ===== *)
(** * What a connection set guarantees

    Theorems about every run of a set from its construction, over any
    selector and any transports that keep their contracts: each connection
    gives every accepted operation one outcome and recovers what is owed, a
    call reaches no peer, the ready queue and the registrations are exact, a
    turn is fair, bounded and forgets no work, a failed selector fences every
    connection, and a connection that is gone stays gone. *)
From Stdlib Require Import ZArith Lia.
From stdpp Require Import prelude gmap.
From S2P Require Import Prelude External Host Identity Limits Admission Ledger Operation Permit.
From S2P Require Import Write Framing Machine Core Recovery Lifecycle ReferenceFacts CoreView.
From S2P Require Import Config Transport SlotData Slot Drive SlotSpec SlotCalls SlotSystem.
From S2P Require Import SlotFrame SlotStanding SetHost SetData SetOwner SetSpec SetLife SetTurns.
From S2P Require Import SetStanding SetIsolation SetSystem SetRuns SetForward SetWork SlotTheorems.

Import Hosted SlotCalls SlotFrame SlotStanding ConnectionSet SetSpec SetLife SetTurns.
Import SetStanding SetIsolation SetSystem SetRuns SetForward.

Module SetTheorems.
Section set_theorems.
Context {Cal : Calandria} {BB : ByteBudgetLib} {Build : BuildConfig} {H : Host} {SH : SetHost}.
Context {Laws : CalandriaLaws Cal} {BLaws : ByteBudgetLaws BB} {HL : HostLaws H}.
Context {SHL : SetHostLaws SH}.
Context {D C : Type} {Dec : FrameDecoder D} {Ret : Retained Frame}.
Context {Cls : InboundClassifier Frame C}.
Context {T : Type} {TP : SlotTransport T} {RT : RegisteredTransport T}.
Context {K : Type} {Con : TransportConnector K T}.
Context (holds : T → Prop) (contract : TransportContract TP false rb_ZERO holds).
Context (registered : RegisteredContract RT holds).
Context (connects : ∀ (k : K) address limits t, connector_connect k address limits = Ok t → holds t).
Context (config : ConnectionSetConfig.t) (set_limits : ConnectionSetLimits.t) (heap : Heap.t).
Context (Hmax : 0 ≤ nonzero_get (ConnectionSetLimits.max_connections set_limits)).
Context (w0 : world D C T) (Hstart : start config set_limits heap = Some w0).
Implicit Types (w : world D C T) (self : ConnectionSet.t D C T) (e : ConnectionEntry.t D C T).
Implicit Types (token resource : ResourceToken) (connection : ConnectionToken.t).

Local Notation reachable := (SetSystem.reachable (K := K)).
Local Notation failed e := (EngineState.failure (ConnectionSlot.state (ConnectionEntry.slot e))).

Lemma run_sane w : reachable w0 w → sane holds w.
Proof.
  apply (sane_reachable holds contract registered connects).
  by eapply start_sane.
Qed.

(** ** Conservation *)

(** C6: every accepted operation of every connection gets exactly one outcome:
    the operations a live connection accepted, all different, are those with
    an outcome drained, those with an outcome pending and those its core still
    owes one, whatever was done to the other connections of the set. *)
Theorem set_exactly_once w token id e :
  reachable w0 w → live (owner w).1 !! token = Some (id, e) →
  let slot := ConnectionEntry.slot e in
  ∃ a, accounts w !! token = Some a ∧ holder a = id ∧ NoDup (accepted (noted a)) ∧
    accepted (noted a) ≡ₚ
      (EngineOutcome.operation <$>
         delivered (noted a) ++ batch_items (ConnectionSlot.outcomes slot)) ++
      Told.live (view (slot, (owner w).2)).
Proof.
  intros Hr%run_sane Hl. cbv zeta.
  destruct (ac_live _ _ _ _ (sn_accounted _ _ Hr) _ _ _ Hl) as (a & Ha & Hid & [_ _ Hst]).
  destruct (stands_whole _ _ _ _ _ _ Hst) as [(entries & _ & _ & [Hn _]) [Honce _ _ _ _] _ _ _].
  apply NoDup_app in Hn as (Hn & _). exists a. done.
Qed.

(** C7: recovery of a connection always succeeds, takes it out of the set and
    returns the outcomes that are pending and the operations that owe one:
    with the outcomes drained before, every operation it accepted is accounted
    for exactly once. [try_recover] does so once the connection failed, and
    leaves a running one alone. *)
Theorem set_recovers_all w connection e reason :
  reachable w0 w → entry (owner w).1 connection = Ok e →
  let resource := ConnectionToken.resource connection in
  ∃ s report a, abandon connection reason (owner w) = (s, Ok report) ∧
    try_recover connection (owner w) =
      (if failed e is None then (owner w, Err ConnectionRecoveryError.OwnerRunning)
       else (s, Ok report)) ∧
    accounts w !! resource = Some a ∧ holder a = ConnectionToken.identity connection ∧
    accepted (noted a) ≡ₚ
      (EngineOutcome.operation <$> delivered (noted a) ++ RecoveryReport.outcomes report) ++
      (RecoveredOperation.operation <$> RecoveryReport.operations report) ∧
    NoDup (accepted (noted a)) ∧
    RecoveryReport.epoch report = ConnectionToken.epoch connection ∧
    RecoveryReport.unmatched_writes report = [] ∧
    live s.1 !! resource = None ∧ resource ∉ ready s.1.
Proof.
  intros Hr%run_sane He. cbv zeta. destruct w as [[self h] l]. cbn [owner accounts fst] in *.
  unfold abandon, try_recover. rewrite He. set (asked := default reason _).
  destruct (recover_connection connection asked (self, h)) as [[self' h'] r] eqn:Hrec.
  pose proof (accounted_recover holds registered _ _ _ _ _ _ _ _ Hrec (sn_accounted _ _ Hr))
    as [_ Hback].
  pose proof (recover_connection_spec _ _ _ _ _ _ _ _ He Hrec) as Hs. cbv zeta in Hs.
  destruct (release_transport _ _ _) as [[[p e1] cleanup] pressure].
  destruct Hs as (e2 & slot2 & report & _ & _ & _ & -> & [_ _ _ Hlive Hready] & _).
  destruct (Hback report eq_refl) as (a & Ha & Hid & H1 & H2 & H3 & H4).
  exists (self', h'), report, a. split; [done|]. split.
  { subst asked. destruct (failed e) as [why|]; [exact Hrec|done]. }
  split; [done|]. split; [done|]. split; [done|]. split; [done|]. split; [done|]. split; [done|].
  cbn [fst]. rewrite Hlive, lookup_delete_eq, Hready, list_elem_of_filter. split; [done|]. by intros [].
Qed.

(** ** Isolation *)

(** The connection a call names. *)
Definition names (c : command D C K) : option ResourceToken :=
  ConnectionToken.resource <$>
  match c with
  | Reserve connection _ _ | Commit connection _ _ _ | OpenAdmission connection
  | Cancel connection _ | BeginDrain connection _ | Finalize connection _
  | DrainOutcomes connection | DrainEvents connection | Retire connection
  | TryRecover connection | Abandon connection _ => Some connection
  | Connect _ _ _ _ _ _ | DropPermit _ _ | Produce _ | PollIo _ | Turn _ => None
  end.

Lemma named_isolated w c r :
  names c = Some r →
  isolated r (owner w).1 (owner (exec w c)).1 ∧ local r (owner w) (owner (exec w c)).
Proof.
  destruct w as [[self h] l].
  destruct c as [? ? ? ? ? ?|connection now options|? ?|connection from i frame|connection
    |connection op|connection d|connection why|connection|connection|connection|connection
    |connection why|?|?|?]; intros [= <-]; cbn [exec owner moved fst snd].
  - destruct (reserve _ _ _ _) as [s r] eqn:Hr. pose proof (local_reserve _ _ _ _ _ _ Hr) as Hl.
    destruct s as [self' h']. apply reserve_spares, spares_isolated in Hr. by destruct r.
  - destruct (permit_of _ _ _); [|split; [apply isolated_refl|done]].
    destruct (commit _ _ _ _) as [s r] eqn:Hr. pose proof (local_commit _ _ _ _ _ _ Hr) as Hl.
    destruct s as [self' h']. apply commit_stepped, stepped_isolated in Hr.
    by destruct (accepted_of r).
  - destruct (open_admission _ _) as [s r] eqn:Hr.
    pose proof (local_controlled _ _ _ _ _ framed_open_admission Hr) as Hl.
    destruct s as [self' h']. split; [by eapply stepped_isolated, controlled_stepped|done].
  - destruct (cancel _ _ _) as [s r] eqn:Hr.
    pose proof (local_controlled _ _ _ _ _ (framed_cancel _) Hr) as Hl.
    destruct s as [self' h']. split; [by eapply stepped_isolated, controlled_stepped|done].
  - destruct (begin_drain _ _ _) as [s r] eqn:Hr.
    pose proof (local_controlled _ _ _ _ _ (framed_begin_drain _) Hr) as Hl.
    destruct s as [self' h']. split; [by eapply stepped_isolated, controlled_stepped|done].
  - destruct (finalize _ _ _) as [s r] eqn:Hr.
    pose proof (local_controlled _ _ _ _ _ (framed_finalize _) Hr) as Hl.
    destruct s as [self' h']. split; [by eapply stepped_isolated, controlled_stepped|done].
  - pose proof (spares_isolated _ _ _ (drain_outcomes_spares self connection)) as Hs.
    pose proof (local_drain_outcomes connection self h) as Hl.
    destruct (drain_outcomes _ _) as [self' [x|err]]; done.
  - pose proof (spares_isolated _ _ _ (drain_events_spares self connection)) as Hs.
    pose proof (local_drain_events connection self h) as Hl.
    destruct (drain_events _ _) as [self' [x|err]]; done.
  - pose proof (local_retire connection self h) as Hl.
    destruct (retire _ _ _) as [self' r] eqn:Hr. apply retire_spec in Hr. split; [|exact Hl].
    destruct r; cbn [fst]; [|subst; apply isolated_refl].
    destruct Hr as (e & _ & _ & _ & _ & _ & _ & Hrm & _ & Hf).
    eapply isolated_removed; [apply isolated_refl|done|done].
  - unfold try_recover. destruct (entry self connection); [|split; [apply isolated_refl|done]].
    destruct (EngineState.failure _); [|split; [apply isolated_refl|done]].
    destruct (recover_connection _ _ _) as [s r] eqn:Hr. pose proof (local_recover _ _ _ _ _ Hr).
    destruct s as [self' h']. split; [by eapply recover_isolated|done].
  - unfold abandon. destruct (entry self connection); [|split; [apply isolated_refl|done]].
    destruct (recover_connection _ _ _) as [s r] eqn:Hr. pose proof (local_recover _ _ _ _ _ Hr).
    destruct s as [self' h']. split; [by eapply recover_isolated|done].
Qed.

(** Two connections have two ledgers. *)
Lemma ledgers_apart w r r' id id' e e' :
  sane holds w → live (owner w).1 !! r = Some (id, e) → live (owner w).1 !! r' = Some (id', e') →
  r ≠ r' → address_of e ≠ address_of e'.
Proof.
  intros [[Hd _ _ Hlive] _ _ _] H1 H2 Hne Heq.
  destruct (Hlive _ _ _ H1) as (a & Ha & _ & [_ Hh _]).
  destruct (Hlive _ _ _ H2) as (a' & Ha' & _ & [_ Hh' _]).
  apply Hne, (Hd _ _ _ _ Ha Ha'). unfold address_of in Heq. congruence.
Qed.

(** C8: a call that names one connection leaves every other one as it was, its
    ledger included; only when the call cost the selector are they fenced. *)
Theorem set_isolates w c r r' id e :
  reachable w0 w → names c = Some r → r' ≠ r → live (owner w).1 !! r' = Some (id, e) →
  let w' := exec w c in
  (live (owner w').1 !! r' = Some (id, e) ∨
   owner_failure (owner w).1 = None ∧
     owner_failure (owner w').1 = Some OwnerFailure.Readiness ∧
     ∃ source, live (owner w').1 !! r' =
       Some (id, fence_entry source OwnerFailure.Readiness e)) ∧
  Heap.borrow (owner w').2 (address_of e) = Heap.borrow (owner w).2 (address_of e).
Proof.
  intros Hr%run_sane Hc Hne Hl. cbv zeta. destruct (named_isolated w c r Hc) as [Hi [Hheap _]].
  split.
  - destruct Hi as [[_ Hk]|(Hf & Hf' & source & Hk)]; [left; by rewrite Hk|right].
    split; [done|]. split; [done|]. exists source. by rewrite Hk, Hl.
  - apply Hheap. intros id1 e1 H1. by eapply ledgers_apart.
Qed.

(** ** Exactness *)

Lemma run_limits w : reachable w0 w → limits (owner w).1 = set_limits.
Proof.
  intros Hr. assert (sane holds w0) as H0 by (apply run_sane; constructor).
  rewrite (fw_limits _ _ (run_forward holds contract registered connects w0 w H0 Hr)).
  revert Hstart. unfold start, ConnectionSet.new. destruct (poller_new _); [|done].
  by intros [= <-].
Qed.

(** C9: the ready queue holds, once each, exactly the connections whose flag
    says so, and never more than the set may have; every live transport is
    registered with the selector, and while the selector works nothing else
    is. *)
Theorem set_queue_exact w :
  reachable w0 w →
  let self := (owner w).1 in
  NoDup (ready self) ∧
  (∀ token, token ∈ ready self ↔
     ∃ id e, live self !! token = Some (id, e) ∧ ConnectionEntry.ready_queued e = true) ∧
  Z.of_nat (length (ready self)) ≤ Z.of_nat (size (live self)) ≤
    nonzero_get (ConnectionSetLimits.max_connections set_limits) ∧
  (∀ token id e, live self !! token = Some (id, e) → is_Some (ConnectionEntry.transport e) →
     token ∈ poller_tokens (poller self)) ∧
  (owner_failure self = None → ∀ token, token ∈ poller_tokens (poller self) →
     ∃ id e, live self !! token = Some (id, e) ∧ is_Some (ConnectionEntry.transport e)).
Proof.
  intros Hr. cbv zeta. pose proof (run_limits _ Hr) as Hlim. apply run_sane in Hr as [_ [Hn Hq] [] [Hs Hm]].
  rewrite Hlim in Hm. split; [done|]. split; [done|]. split; [|done]. split; [|lia].
  rewrite <- size_dom, <- (size_list_to_set (C := gset ResourceToken) _ Hn).
  apply inj_le, subseteq_size. intros token. rewrite elem_of_list_to_set, Hq, elem_of_dom.
  intros (id & e & Hl & _). by eexists.
Qed.

(** C22: a construction either adds one connection, at the end of the ready
    queue, under a token never given out and with a transport within its
    limit, or leaves the set as it was but for at most one spent token: its
    connections, queue, registrations, mailbox, events and counters - or costs
    the selector, which fences every connection there is. Whatever it does, no
    ledger but that of the new connection changes. *)
Theorem set_connect_atomic w connection_config bounds decoder classifier (connector : K) address :
  reachable w0 w →
  let self := (owner w).1 in
  let '(s, r) :=
    connect_with connection_config bounds decoder classifier connector address (owner w) in
  Lifecycle.confined address (owner w).2 s.2 ∧
  match r with
  | Ok connection => ∃ e limit, added connection e self s.1 ∧ within_limit limit e ∧
      rb_gtb limit (ConnectionSlotLimits.transport_retained_bytes bounds) = false ∧
      ConnectionToken.identity connection = ConnectionConfig.identity connection_config ∧
      accounts w !! ConnectionToken.resource connection = None ∧
      Z.of_nat (size (live s.1)) ≤ nonzero_get (ConnectionSetLimits.max_connections set_limits)
  | Err error => restored self s.1 ∨ lost_selector error self s.1
  end.
Proof.
  intros Hr. cbv zeta. pose proof (run_limits _ Hr) as Hlim. apply run_sane in Hr as [Ha _ Hg [_ Hm]].
  destruct w as [[self h] l]. cbn [owner accounts fst snd] in *.
  destruct (connect_with _ _ _ _ _ _ _) as [[self' h'] r] eqn:Hc.
  apply connect_with_spec in Hc; [|done]. cbn [fst snd].
  pose proof (SetRuns.new_confined (D := D) (C := C) (ConnectionConfig.slot connection_config) bounds
    decoder classifier address h) as Hnew.
  destruct r as [connection|error].
  2: { destruct Hc as [Hc [->| ->]]; split; try exact Hc; [by intros ? _|exact Hnew]. }
  destruct Hc as (e & limit & slot & t & Had & Hw & Hs & _ & _ & Hfit & Hid & _ & Hroom).
  rewrite Hs in Hnew. split; [exact Hnew|].
  exists e, limit. split; [done|]. split; [done|]. split; [done|]. split; [done|].
  pose proof (ad_fresh _ _ _ _ Had) as Hfresh. split.
  - apply eq_None_not_Some. intros [a Hl]. by apply Hfresh, (ac_issued _ _ _ _ Ha _ _ Hl).
  - cbn [fst]. rewrite (ad_live _ _ _ _ Had), map_size_insert_None by by apply fresh_dead.
    rewrite Hlim in Hm. lia.
Qed.

(** ** Generations *)

(** The calls that name a connection that is not there. *)
Lemma stale_entry self connection :
  live self !! ConnectionToken.resource connection = None →
  entry self connection = Err ConnectionAccessError.StaleConnection.
Proof. intros Hl. unfold entry. by rewrite get_live, Hl. Qed.

(** C23: once a connection is gone its token names nothing ever again: on every
    later run each call that presents it is refused as stale and changes
    neither the set nor any ledger, a commit gives the permit and the frame
    back, and a queued command is only counted. *)
Theorem set_stale_forever w w' connection :
  reachable w0 w → reachable w w' →
  ConnectionToken.resource connection ∈ table_issued (resources (owner w).1) →
  live (owner w).1 !! ConnectionToken.resource connection = None →
  let s := owner w' in
  entry s.1 connection = Err ConnectionAccessError.StaleConnection ∧
  (∀ now options,
     reserve connection now options s = (s, Err ConnectionReserveError.StaleConnection)) ∧
  (∀ p frame, commit connection p frame s =
     (s, Err (ConnectionCommitError.StaleConnection p frame))) ∧
  (∀ (A : Type) (f : STE _ EngineError.t A),
     controlled connection f s = (s, Err ConnectionAccessError.StaleConnection)) ∧
  drain_outcomes s.1 connection = (s.1, Err ConnectionAccessError.StaleConnection) ∧
  drain_events s.1 connection = (s.1, Err ConnectionAccessError.StaleConnection) ∧
  retire s.1 s.2 connection = (s.1, Err ConnectionRetireError.StaleConnection) ∧
  try_recover connection s = (s, Err ConnectionRecoveryError.StaleConnection) ∧
  (∀ reason, abandon connection reason s = (s, Err ConnectionRecoveryError.StaleConnection)) ∧
  (∀ command, ConnectionCommand.connection command = connection →
     apply_command command s =
       (set_stale_commands s.1 (u64_saturating_add (stale_commands s.1) 1), s.2)).
Proof.
  intros Hr%run_sane Hr' Hin Hgone.
  destruct (run_forward holds contract registered connects w w' Hr Hr') as [_ _ Hid _].
  assert (live (owner w').1 !! ConnectionToken.resource connection = None) as Hl.
  { destruct (Hid _ Hin) as [Heq|]; [|done]. rewrite Hgone in Heq. exact (proj1 (fmap_None _ _) Heq). }
  pose proof (stale_entry _ _ Hl) as He. destruct (owner w') as [self h]. cbn [fst snd] in *.
  unfold reserve, commit, controlled, drain_outcomes, drain_events, retire, try_recover, abandon,
    entry_mut. rewrite He. repeat split; try done.
  - intros p frame. unfold enqueue_and_settle, enqueue, settle_connection.
    by rewrite !get_live, !Hl.
  - intros command <-. unfold apply_command, entry_mut. by rewrite He.
Qed.

(** A permit presented at another connection of the set is refused and
    given back, and the ledger it belongs to is not touched. *)
Theorem set_permit_foreign w connection e from i p frame :
  reachable w0 w → entry (owner w).1 connection = Ok e →
  permit_of w from i = Some p → from ≠ ConnectionToken.resource connection →
  let '(s, r) := commit connection p frame (owner w) in
  r = Err (ConnectionCommitError.Connection
    match failed e with
    | Some why => EngineCommitError.OwnerFailed why p frame
    | None => EngineCommitError.Rejected
        (FrameCommitError.new (FrameCommitFailure.Policy CommitErrorKind.ForeignPermit) p frame)
    end) ∧
  Heap.borrow s.2 (OperationPermit.ledger p) = Heap.borrow (owner w).2 (OperationPermit.ledger p).
Proof.
  intros Hr%run_sane He Hp Hne. destruct w as [[self h] l]. cbn [owner fst snd accounts] in *.
  destruct Hr as [[Hd Hperm _ Hlive] _ _ _]. cbn [owner accounts fst snd] in *.
  pose proof He as Hl%entry_live. destruct (Hlive _ _ _ Hl) as (a & Ha & _ & [_ Hh Hst]).
  assert (OperationPermit.ledger p ≠ home (ConnectionEntry.slot e)) as Hf.
  { unfold permit_of in Hp. cbn [accounts] in Hp. destruct (l !! from) as [b|] eqn:Hb; [|done].
    simpl in Hp. apply list_elem_of_lookup_2 in Hp. rewrite (Hperm _ _ _ Hb Hp), Hh.
    intros Heq. by apply Hne, (Hd _ _ _ _ Hb Ha). }
  destruct (commit connection p frame (self, h)) as [s r] eqn:Hc.
  pose proof (local_commit _ _ _ _ _ _ Hc) as [Hheap _]. split.
  - revert Hc. unfold commit, entry_mut. rewrite He. unfold on_slot.
    rewrite (foreign_refused _ _ _ _ _ _ _ _ frame Hst Hf).
    unfold enqueue_and_settle. destruct (settle_connection _ _) as [[self1 h1] x].
    by intros [= _ <-].
  - apply Hheap. cbn [fst]. intros id1 e1 H1. by simplify_eq.
Qed.

(** ** Failure of the selector *)

Lemma fenced_failed source e :
  failed (fence_entry source OwnerFailure.Readiness e) ≠ None.
Proof.
  unfold fence_entry. cbn [ConnectionEntry.slot ConnectionEntry.set_slot ConnectionEntry.set_ready_queued].
  set (slot := match mio_io source with Some _ => _ | None => _ end).
  unfold ConnectionSlot.latch_owner_failure. 
  by destruct (EngineState.failure (ConnectionSlot.state slot)) eqn:Hf; [rewrite Hf|].
Qed.

(** C21: when the selector fails, every connection of the set latches the
    failure, the queue is emptied and the mailbox closed; from then on no turn,
    wait, producer or construction is served, whatever is called, and what is
    refused changes nothing. *)
Theorem set_fences_all w maximum p events source :
  reachable w0 w → owner_failure (owner w).1 = None →
  poller_poll (poller (owner w).1) maximum (poll_events (owner w).1) = (p, events, Err source) →
  let '(self, r) := poll_io (owner w).1 maximum in
  r = Err (EngineError.Mio source) ∧
  live self = fence source <$> live (owner w).1 ∧
  (∀ token id e, live self !! token = Some (id, e) → failed e ≠ None) ∧
  ready self = [] ∧ commands self = mailbox_close (commands (owner w).1) ∧
  ∀ w', reachable (exec w (PollIo maximum)) w' →
    let refused := EngineError.OwnerFailed OwnerFailure.Readiness in
    (∀ now, turn now (owner w') = (owner w', Err refused)) ∧
    (∀ span, poll_io (owner w').1 span = ((owner w').1, Err refused)) ∧
    (∀ connection, port (owner w').1 connection = Err (ConnectionAccessError.Owner refused)) ∧
    (∀ connection_config bounds decoder classifier (connector : K) address,
       connect_with connection_config bounds decoder classifier connector address (owner w') =
         (owner w', Err (ConnectError.OwnerFailed OwnerFailure.Readiness))).
Proof.
  intros Hr Hn Hp. assert (poll_io (owner w).1 maximum =
    (latch_selector_failure (set_poll_events (set_poller (owner w).1 p) events) source,
     Err (EngineError.Mio source))) as Hpoll.
  { unfold poll_io, poll_selector, ensure_owner_running. by rewrite Hn, Hp. }
  rewrite Hpoll.
  assert (fences source (set_poll_events (set_poller (owner w).1 p) events)
    (latch_selector_failure (set_poll_events (set_poller (owner w).1 p) events) source))
    as [Hf Hq Hc Hl _ _ _ _] by by apply latch_fences.
  split; [done|]. split; [exact Hl|]. split; [|split; [exact Hq|split; [exact Hc|]]].
  - intros token id e. rewrite Hl, lookup_fmap. destruct (live _ !! token) as [[id0 e0]|]; [|done].
    intros [= _ <-]. apply fenced_failed.
  - intros w' Hr'. cbv zeta.
    assert (sane holds (exec w (PollIo maximum))) as Hs
      by (apply run_sane; eapply (reachable_step w0 w (PollIo maximum)); [exact Hr|done]).
    pose proof (fw_failure _ _ (run_forward holds contract registered connects _ _ Hs Hr')
      OwnerFailure.Readiness) as Hfail.
    cbn [exec owner moved fst] in Hfail. rewrite Hpoll in Hfail. specialize (Hfail Hf).
    destruct (owner w') as [self h]. cbn [fst] in *.
    unfold turn, turn_component, poll_io, poll_selector, port, connect_with, ensure_owner_running.
    by rewrite Hfail.
Qed.

(** ** Turns *)

(** Some turns, all of which succeed. *)
Fixpoint turns (nows : list Moment) (s : ConnectionSet.owner D C T)
    : option (ConnectionSet.owner D C T) :=
  match nows with
  | [] => Some s
  | now :: nows =>
      match turn now s with
      | (s, Ok _) => turns nows s
      | (_, Err _) => None
      end
  end.

(** The turn at [now] drove the connection [token]. *)
Definition drove now (s s' : ConnectionSet.owner D C T) token : Prop :=
  ∃ mid l, grows s.1 mid.1 ∧ served now mid l s' ∧ token ∈ l.

(** A successful turn drives a queued connection, or moves it up. *)
Lemma turn_advances now self h s' t position token :
  turn now (self, h) = (s', Ok t) → ready self !! position = Some token →
  drove now (self, h) s' token ∨
  (ready_budget self ≤ position)%nat ∧ ready s'.1 !! (position - ready_budget self)%nat = Some token.
Proof.
  destruct s' as [self' h']. intros Hr Hq. apply turn_spec in Hr as [_ Hr].
  destruct Hr as (mid & h1 & l & back & Hg & Hserved & Heq & Hlen & Hend & Hback & _).
  destruct (gr_ready _ _ Hg) as [more Hmid].
  assert ((l ++ ready self') !! position = Some token) as Hat.
  { rewrite <- Heq, Hmid, <- app_assoc. by apply lookup_app_l_Some. }
  destruct (decide (position < length l)%nat) as [Hin|Hout].
  - left. exists (mid, h1), l. split; [done|]. split; [done|].
    rewrite lookup_app_l in Hat by done. by eapply list_elem_of_lookup_2.
  - right. rewrite lookup_app_r in Hat by lia. destruct Hend as [Hl|Hnil].
    + cbn [fst]. rewrite <- Hl. split; [lia|done].
    + by rewrite Hnil in Hat.
Qed.

(** C10: bounded waiting: a queued connection is driven in turn. At position
    [p] of the ready queue it is driven within the next [p / budget + 1]
    successful turns, whatever the other connections do. *)
Theorem set_turn_fair nows self h s' position token :
  turns nows (self, h) = Some s' → ready self !! position = Some token →
  (position < length nows * ready_budget self)%nat →
  ∃ before now after s1 s2 t, nows = before ++ now :: after ∧
    turns before (self, h) = Some s1 ∧ turn now s1 = (s2, Ok t) ∧ drove now s1 s2 token.
Proof.
  revert position self h.
  induction nows as [|now nows IH]; intros position self h; cbn [turns length]; [intros; lia|].
  destruct (turn now (self, h)) as [[self1 h1] [t|]] eqn:Hturn; [|done]. intros Hts Hq Hp.
  destruct (turn_advances _ _ _ _ _ _ _ Hturn Hq) as [Hd|[Hle Hq1]].
  { exists [], now, nows, (self, h), (self1, h1), t. done. }
  assert (ready_budget self1 = ready_budget self) as Hb.
  { apply turn_spec in Hturn as [Hc _]. unfold ready_budget. by rewrite (ca_limits _ _ Hc). }
  destruct (IH (position - ready_budget self)%nat self1 h1 Hts Hq1 ltac:(rewrite Hb; lia))
    as (before & now' & after & s1 & s2 & t' & -> & Hbefore & Ht & Hd).
  exists (now :: before), now', after, s1, s2, t'. split; [done|]. split; [|done].
  cbn [turns]. by rewrite Hturn.
Qed.

(** The least deadline is there, and is least. *)
Lemma deadline_min_least (l : list Deadline) d :
  d ∈ l → ∃ m, ConnectionSlot.deadline_min l = Some m ∧ deadline_leb m d = true.
Proof.
  set (least := λ a b : Deadline, if deadline_leb a b then a else b).
  assert (∀ l a d, d = a ∨ d ∈ l → deadline_leb (foldl least a l) d = true) as Hfold.
  { clear l d. induction l as [|b l IH]; intros a d; simpl.
    - intros [->|?%not_elem_of_nil]; [apply deadline_leb_refl|done].
    - rewrite elem_of_cons. intros Hd.
      assert (d = a ∨ d = b ∨ d ∈ l) as [->|[->|Hl]] by tauto; [| |by apply IH; right].
      all: eapply deadline_leb_trans; [apply IH; by left|].
      all: unfold least; destruct (deadline_leb a b) eqn:Hab;
        [first [apply deadline_leb_refl|done]|].
      + by destruct (deadline_leb_total a b) as [?|?]; [congruence|].
      + apply deadline_leb_refl. }
  destruct l as [|a l]; [by intros ?%not_elem_of_nil|]. intros Hd. eexists. split; [done|].
  apply Hfold. by apply elem_of_cons in Hd.
Qed.

Lemma earliest_least self token id e d :
  live self !! token = Some (id, e) → running_deadline e = Some d →
  ∃ m, earliest_deadline self = Some m ∧ deadline_leb m d = true.
Proof.
  intros Hl Hd. apply deadline_min_least. apply list_elem_of_omap.
  exists (token, (id, e)). split; [|done]. rewrite table_iter_map. by apply elem_of_map_to_list.
Qed.

(** C11: a turn forgets no work: when its answer is not to run again at once,
    the queue and the mailbox are empty and the selector was not saturated; no
    running connection has input, output, a shutdown or a release to do; every
    connection whose next deadline has passed was given a quantum in this very
    turn, by the ready loop that follows the scan; and the answer wakes the
    owner no later than the next deadline of any running connection. *)
Theorem set_turn_forgets_nothing w now s t :
  reachable w0 w → turn now (owner w) = (s, Ok t) → turn_next t ≠ next_now →
  ready s.1 = [] ∧ mailbox_items (commands s.1) = [] ∧ poll_saturated s.1 = false ∧
  ∃ driven, served now (scanned now (owner w)) driven s ∧
    ∀ token id e, live s.1 !! token = Some (id, e) →
      idle now e ∧ (overdue now e = true → token ∈ driven) ∧
      ∀ d, running_deadline e = Some d →
        ∃ d', turn_next t = next_wake_or d' ∧ deadline_leb d' d = true.
Proof.
  intros Hr Hturn Hnext. assert (sane holds (exec w (Turn now))) as Hs
    by (apply run_sane; eapply (reachable_step w0 w (Turn now)); [exact Hr|done]).
  apply sn_queue in Hs as [_ Hq]. cbn [exec owner moved] in Hq. rewrite Hturn in Hq.
  destruct (owner w) as [self h], s as [self' h']. cbn [fst] in *.
  apply turn_spec in Hturn as [_ Hturn].
  destruct Hturn as
    (mid & h1 & l & back & _ & Hserved & _ & _ & _ & _ & _ & _ & [Hquiet Hscan] & Hn & Hmail).
  rewrite Hn in Hnext |- *. unfold next_turn in Hnext |- *.
  destruct (command_more_pending self'); cbn [orb] in *; [done|].
  destruct (poll_saturated self'); cbn [orb] in *; [done|].
  case_bool_decide as Hempty; cbn [negb] in *; [|done].
  split; [done|]. split; [by apply Hmail|]. split; [done|].
  exists l. rewrite Hscan. split; [exact Hserved|]. intros token id e Hl.
  destruct (Hquiet token id e Hl) as [Hi Ho].
  { apply not_true_is_false. intros Hflag.
    assert (token ∈ ready self') as Hin by (apply Hq; by exists id, e).
    rewrite Hempty in Hin. by apply not_elem_of_nil in Hin. }
  split; [exact Hi|]. split; [exact Ho|].
  - intros d Hd. destruct (earliest_least _ _ _ _ _ Hl Hd) as (m & -> & Hm). by exists m.
Qed.

(** The work of one turn is bounded by its configured limits: the commands
    of a turn, two batches of events, and for each round of the ready loop the
    greatest quantum of a connection, a settlement and a change of interest. *)
Theorem set_turn_bounded `{Typing : !TransportTyping TP} w now s t b :
  reachable w0 w → SetWork.quanta (accounts w) b → 0 ≤ b → turn now (owner w) = (s, Ok t) →
  0 ≤ turn_work t ≤
    Z.max 0 (nonzero_get (ConnectionSetLimits.commands_per_turn set_limits)) +
    2 * poll_events_bound (poll_events (owner w).1) +
    Z.max 0 (nonzero_get (ConnectionSetLimits.ready_connections_per_turn set_limits)) * (b + 2).
Proof.
  intros Hr Hq Hb Ht. pose proof (run_limits _ Hr) as Hl. apply run_sane in Hr as [Ha _ _ _].
  pose proof (SetWork.turn_work_bound holds contract registered _ _ _ _ _ _ Ha Hq Hb Ht) as Hw.
  unfold ready_budget in Hw. rewrite Hl in Hw.
  assert (∀ z, Z.max 0 z = Z.of_nat (Z.to_nat z)) as Hz by lia. by rewrite <- Hz in Hw.
Qed.

(** C24: failed connections keep a set awake: while more of them than one turn
    drives have a deadline that has passed, every turn answers to run again at
    once, although what it drives is refused and their deadlines are not waited
    for. *)
Theorem set_failed_spin w now s t l :
  reachable w0 w → turn now (owner w) = (s, Ok t) → NoDup l →
  (ready_budget (owner w).1 < length l)%nat →
  (∀ token, token ∈ l →
     ∃ id e, live (owner w).1 !! token = Some (id, e) ∧ SetSpin.overdue now e) →
  turn_next t = next_now ∧
  ∀ token, token ∈ l → ∃ id e, live (owner w).1 !! token = Some (id, e) ∧
    running_deadline e = None ∧
    ∀ h, Drive.drive_quantum now (ConnectionEntry.slot e, h, ConnectionEntry.transport e) =
      (ConnectionEntry.slot e, h, ConnectionEntry.transport e,
       Err (EngineError.OwnerFailed (default OwnerFailure.Core (failed e)))).
Proof.
  intros Hr%run_sane Ht Hn Hlen Hall. split.
  - destruct (owner w) as [self h] eqn:Hw, s as [self' h']. cbn [fst] in *.
    assert (ready self' ≠ []) as Hne.
    { eapply SetSpin.overdue_queue; [|exact Hn|exact Hlen|exact Hall|exact Ht].
      apply sn_queue in Hr. by rewrite Hw in Hr. }
    apply turn_spec in Ht as [_ (mid & h1 & l1 & back & _ & _ & _ & _ & _ & _ & _ & _ & _ & -> & _)].
    unfold next_turn. rewrite bool_decide_eq_false_2 by done. by rewrite orb_true_r.
  - intros token Hin. destruct (Hall _ Hin) as (id & e & Hl & Ho). exists id, e. split; [done|].
    destruct Ho as [[why Hf] _]. unfold running_deadline. rewrite Hf. split; [done|]. intros h.
    apply (QuantumTheorems.failed_slot_refuses (ConnectionEntry.slot e, h) why Hf).
Qed.

End set_theorems.
End SetTheorems.
