(* ===== verification/Standalone.v ===== *)
(** * The standalone connection

    [standalone.rs], [standalone/connect.rs], the standalone half of
    [recovery.rs] and of [waiter.rs] of [bornera]: a set of capacity one and
    the token of its only connection. A method on [&mut self] is a function of
    the connection and of the heap; one that consumes [self] answers what is
    left of it too. *)
From Stdlib Require Import ZArith Lia.
From stdpp Require Import prelude.
From S2P Require Import Prelude External Host Identity Limits Admission Ledger Operation Permit.
From S2P Require Import Write Framing Machine Core Recovery Config Transport SlotData Slot Drive.
From S2P Require Import SetHost SetData SetOwner.

Module StandaloneConnection.
Section standalone_connection.
Context {Cal : Calandria} {BB : ByteBudgetLib} {Build : BuildConfig} {H : Host} {SH : SetHost}.
Context {D C : Type} {Dec : FrameDecoder D} {Ret : Retained Frame}.
Context {Cls : InboundClassifier Frame C}.
Context {T : Type} {TP : SlotTransport T} {RT : RegisteredTransport T}.

(** Dedicated capacity-one owner implemented by the same connection set. *)
Record t : Type := mk {
  set : ConnectionSet.t D C T;
  connection : ConnectionToken.t;
}.

Definition owner : Type := t * Heap.t.

(** [self.set.f(self.connection, ..)]. *)
Definition on_set {E A : Type}
    (f : ConnectionToken.t → STE (ConnectionSet.owner D C T) E A) : STE owner E A :=
  λ '(self, heap),
  let '(set, heap, r) := f (connection self) (set self, heap) in
  (mk set (connection self), heap, r).

(** [.map_err(f)]. *)
Definition map_err {E E' A : Type} (f : E → E') (r : result A E) : result A E' :=
  match r with Ok a => Ok a | Err e => Err (f e) end.

Definition standalone_error (error : ConnectionAccessError.t) : EngineError.t :=
  match error with
  | ConnectionAccessError.StaleConnection =>
      EngineError.Invariant EngineInvariant.ResourceToken
  | ConnectionAccessError.Owner source => source
  end.

Definition mapped {E E' A : Type} (g : E → E') (f : STE owner E A) : STE owner E' A :=
  λ s, let '(s, r) := f s in (s, map_err g r).

(** ** Construction ([standalone/connect.rs]) *)

Definition connect_with {K : Type} {Con : TransportConnector K T}
    (config : StandaloneConnectionConfig.t) (limits : ConnectionSlotLimits.t) (decoder : D)
    (classifier : C) (connector : K) (ledger : LedgerRef) (heap : Heap.t)
    : Heap.t * result t (ConnectError.t Error) :=
  let set_limits := ConnectionSetLimits.standalone limits in
  match ConnectionSet.new (StandaloneConnectionConfig.set config) set_limits with
  | Err e => (heap, Err (ConnectError.Mio e))
  | Ok set =>
      match ConnectionSet.connect_with (StandaloneConnectionConfig.connection config) limits
              decoder classifier connector ledger (set, heap) with
      | (_, heap, Err e) => (heap, Err e)
      | (set, heap, Ok connection) => (heap, Ok (mk set connection))
      end
  end.

(** ** Delegation ([standalone.rs]) *)

Definition token (self : t) : ConnectionToken.t := connection self.

Definition port (self : t) : ConnectionPort.t := ConnectionPort.new (connection self).

Definition wake_handle (self : t) : WakeHandle := ConnectionSet.wake_handle (set self).

Definition pulse_handle (self : t) : PulseHandle := ConnectionSet.pulse_handle (set self).

Definition reserve (now : Moment) (options : OperationOptions.t)
    : STE owner ReserveError.t OperationPermit.t :=
  mapped
    (λ e, match e with
          | ConnectionReserveError.Rejected error => error
          | ConnectionReserveError.StaleConnection => ReserveError.OwnerPoisoned
          end)
    (on_set (λ connection, ConnectionSet.reserve connection now options)).

Definition commit (permit : OperationPermit.t) (frame : OutboundFrame.t)
    : STE owner (EngineCommitError.t OutboundFrame.t) OperationId.t :=
  mapped
    (λ e, match e with
          | ConnectionCommitError.Connection error => error
          | ConnectionCommitError.StaleConnection permit frame =>
              EngineCommitError.OwnerFailed OwnerFailure.OwnerInvariant permit frame
          end)
    (on_set (λ connection, ConnectionSet.commit connection permit frame)).

Definition open_admission : STE owner EngineError.t InputDisposition.t :=
  mapped standalone_error (on_set ConnectionSet.open_admission).

Definition cancel (operation : OperationId.t) : STE owner EngineError.t CancelOutcome.t :=
  mapped standalone_error (on_set (λ connection, ConnectionSet.cancel connection operation)).

Definition begin_drain (deadline : Deadline) : STE owner EngineError.t InputDisposition.t :=
  mapped standalone_error (on_set (λ connection, ConnectionSet.begin_drain connection deadline)).

Definition finalize (reason : CloseReason.t) : STE owner EngineError.t InputDisposition.t :=
  mapped standalone_error (on_set (λ connection, ConnectionSet.finalize connection reason)).

Definition drain_outcomes (self : t) : t * result (list (EngineOutcome.t Frame)) EngineError.t :=
  let '(set, r) := ConnectionSet.drain_outcomes (set self) (connection self) in
  (mk set (connection self), map_err standalone_error r).

Definition drain_events (self : t) : t * result (list ConnectionEvent.t) EngineError.t :=
  let '(set, r) := ConnectionSet.drain_events (set self) (connection self) in
  (mk set (connection self), map_err standalone_error r).

Definition snapshot (self : t) (heap : Heap.t) : result ConnectionSlotSnapshot.t EngineError.t :=
  map_err standalone_error (ConnectionSet.connection_snapshot (set self) heap (connection self)).

Definition set_snapshot (self : t) : ConnectionSetSnapshot.t := ConnectionSet.snapshot (set self).

Definition is_transport_open (self : t) : result bool EngineError.t :=
  map_err standalone_error (ConnectionSet.is_transport_open (set self) (connection self)).

(** ** Progress *)

Definition ensure_running (self : t) (heap : Heap.t) : result unit EngineError.t :=
  match snapshot self heap with
  | Err e => Err e
  | Ok snapshot =>
      match ConnectionSlotSnapshot.owner_failure snapshot with
      | None => Ok tt
      | Some reason => Err (EngineError.OwnerFailed reason)
      end
  end.

Definition turn_component (now : Moment) : STE owner EngineError.t Turn := λ '(self, heap),
  match ensure_running self heap with
  | Err e => (self, heap, Err e)
  | Ok _ =>
      match on_set (λ _, ConnectionSet.turn_component now) (self, heap) with
      | (s, Err e) => (s, Err e)
      | (self, heap, Ok turn) =>
          (self, heap,
           match snapshot self heap with
           | Err e => Err e
           | Ok snapshot =>
               match ConnectionSlotSnapshot.owner_failure snapshot with
               | Some reason => Err (EngineError.OwnerFailed reason)
               | None =>
                   Ok (if bool_decide (ConnectionSlotSnapshot.transport snapshot
                                       = TransportState.Closed)
                       then turn_new (turn_work turn) next_stop else turn)
               end
           end)
      end
  end.

(** [impl Duty]. *)
Definition turn (now : Moment) : STE owner EngineError.t Turn := turn_component now.

Definition poll_io (self : t) (heap : Heap.t) (maximum : Span)
    : t * result WaitOutcome EngineError.t :=
  match ensure_running self heap with
  | Err e => (self, Err e)
  | Ok _ =>
      let '(set, r) := ConnectionSet.poll_io (set self) maximum in
      (mk set (connection self), r)
  end.

(** [ConnectionWaiter] ([waiter.rs]). *)
Definition wait (self : t) (heap : Heap.t) (maximum : Span)
    : t * result WaitOutcome EngineError.t :=
  poll_io self heap maximum.

(** ** Recovery ([recovery.rs]) *)

Definition empty_diverged (epoch : ConnectionEpoch.t) (reason : OwnerFailure.t)
    : RecoveryReport.t OutboundFrame.t Frame :=
  RecoveryReport.mk epoch reason [] [] [] [] None None None None true.

Definition recover_owned (reason : OwnerFailure.t) (s : owner)
    : owner * RecoveryReport.t OutboundFrame.t Frame :=
  let '(self, heap) := s in
  let resource := ConnectionToken.resource (connection self) in
  let epoch := ConnectionToken.epoch (connection self) in
  match table_get (ConnectionSet.resources (set self)) resource with
  | None => (self, heap, empty_diverged epoch reason)
  | Some (_, entry) =>
      let '(poller, entry, cleanup_error, pressure_failed) :=
        ConnectionSet.release_transport (ConnectionSet.poller (set self)) resource entry in
      let cleanup_failed := bool_decide (is_Some cleanup_error) in
      let set' :=
        ConnectionSet.update_entry (ConnectionSet.set_poller (set self) poller) resource entry in
      let set' := ConnectionSet.retain_ready set' resource in
      match table_remove (ConnectionSet.resources set') resource with
      | (resources, None) =>
          (mk (ConnectionSet.set_resources set' resources) (connection self), heap,
           empty_diverged epoch reason)
      | (resources, Some (_, entry)) =>
          let '(_, heap, report) :=
            ConnectionSlot.recover_owned reason (cleanup_failed || pressure_failed)
              (ConnectionEntry.slot entry, heap) in
          (mk (ConnectionSet.set_resources set' resources) (connection self), heap, report)
      end
  end.

(** Rejected recovery that still owns the healthy connection. *)
Record RecoveryWhileRunning : Type := mk_running { running_connection : t }.

Definition into_connection (self : RecoveryWhileRunning) : t := running_connection self.

Definition latched_failure (self : t) : option OwnerFailure.t :=
  match ConnectionSet.entry (set self) (connection self) with
  | Ok entry => EngineState.failure (ConnectionSlot.state (ConnectionEntry.slot entry))
  | Err _ =>
      Some (default OwnerFailure.OwnerInvariant (ConnectionSet.owner_failure (set self)))
  end.

Definition try_recover
    : STE owner RecoveryWhileRunning (RecoveryReport.t OutboundFrame.t Frame) := λ '(self, heap),
  match latched_failure self with
  | None => (self, heap, Err (mk_running self))
  | Some reason => let '(s, report) := recover_owned reason (self, heap) in (s, Ok report)
  end.

Definition abandon (requested : OwnerFailure.t) (s : owner)
    : owner * RecoveryReport.t OutboundFrame.t Frame :=
  let reason :=
    match ConnectionSet.entry (set s.1) (connection s.1) with
    | Ok entry =>
        default requested (EngineState.failure (ConnectionSlot.state (ConnectionEntry.slot entry)))
    | Err _ => requested
    end in
  recover_owned reason s.

End standalone_connection.
#[global] Arguments t {Cal BB H SH} D C {Dec} T.
#[global] Arguments owner {Cal BB H SH} D C {Dec} T.
End StandaloneConnection.
