(* ===== verification/StandaloneTheorems.v ===== *)
(** * Whole runs of a standalone connection

    A standalone connection is a run of the set with one construction in it
    and no removal: [embed] reads a standalone world as a world of the set, and
    every call of the one is a call of the other ([exec_embed]). The theorems
    of [StandaloneTheorems] follow from those of the set. *)
From Stdlib Require Import ZArith Lia.
From stdpp Require Import prelude gmap.
From S2P Require Import Prelude External Identity Limits Admission Ledger Operation Permit.
From S2P Require Import Write Framing Machine Core Recovery Host Config Transport SlotData.
From S2P Require Import Slot Drive SlotSpec SlotCalls SlotSystem SlotFrame SlotStanding.
From S2P Require Import SetHost SetData SetOwner SetSpec SetLife SetTurns SetStanding.
From S2P Require Import SetSystem SetRuns SetForward Standalone.

Import Hosted SlotCalls SetStanding StandaloneConnection.

Module StandaloneSystem.
Section standalone_system.
Context {Cal : Calandria} {BB : ByteBudgetLib} {Build : BuildConfig} {H : Host} {SH : SetHost}.
Context {SHL : SetHostLaws SH}.
Context {D C : Type} {Dec : FrameDecoder D} {Ret : Retained Frame}.
Context {Cls : InboundClassifier Frame C}.
Context {T : Type} {TP : SlotTransport T} {RT : RegisteredTransport T}.
Context {K : Type} {Con : TransportConnector K T}.

Record world : Type := mk_world {
  owner : StandaloneConnection.owner D C T;
  account : SetStanding.account (Dec := Dec);
}.

(** The calls of [SetSystem], without the connection they name. *)
Inductive command : Type :=
  | Reserve (now : Moment) (options : OperationOptions.t)
  | DropPermit (permit : nat)
  | Commit (permit : nat) (frame : OutboundFrame.t)
  | OpenAdmission
  | Cancel (operation : OperationId.t)
  | BeginDrain (deadline : Deadline)
  | Finalize (reason : CloseReason.t)
  | DrainOutcomes
  | DrainEvents
  | Produce (commands : Mailbox ConnectionCommand.t)
  | PollIo (maximum : Span)
  | Turn (now : Moment).

Definition moved (w : world) (s : StandaloneConnection.owner D C T) : world := mk_world s (account w).

Definition noted_in (w : world) (s : StandaloneConnection.owner D C T) (f : notes → notes) : world :=
  mk_world s (SetSystem.renoted (account w) (f (noted (account w)))).

Definition accepted_of (r : result OperationId.t (EngineCommitError.t OutboundFrame.t))
    : option OperationId.t :=
  match r with
  | Ok operation | Err (EngineCommitError.AcceptedOwnerFailure operation _) => Some operation
  | Err _ => None
  end.

Definition exec (w : world) (c : command) : world :=
  match c with
  | Reserve now options =>
      match reserve now options (owner w) with
      | (s, Ok p) => noted_in w s (λ n, with_permits n (p :: permits n))
      | (s, Err _) => moved w s
      end
  | DropPermit i =>
      match permits (noted (account w)) !! i with
      | None => w
      | Some p =>
          noted_in w ((owner w).1, (OperationPermit.drop p (owner w).2).2)
            (SetSystem.without_permit i)
      end
  | Commit i frame =>
      match permits (noted (account w)) !! i with
      | None => w
      | Some p =>
          let '(s, r) := commit p frame (owner w) in
          match accepted_of r with
          | Some op =>
              noted_in w s (λ n, SetSystem.with_accepted_op (SetSystem.without_permit i n) op)
          | None => moved w s
          end
      end
  | OpenAdmission => moved w (open_admission (owner w)).1
  | Cancel op => moved w (cancel op (owner w)).1
  | BeginDrain d => moved w (begin_drain d (owner w)).1
  | Finalize why => moved w (finalize why (owner w)).1
  | DrainOutcomes =>
      match drain_outcomes (owner w).1 with
      | (self, Ok l) => noted_in w (self, (owner w).2) (λ n, with_delivered n l)
      | (self, Err _) => moved w (self, (owner w).2)
      end
  | DrainEvents =>
      match drain_events (owner w).1 with
      | (self, Ok l) => noted_in w (self, (owner w).2) (λ n, with_observed n l)
      | (self, Err _) => moved w (self, (owner w).2)
      end
  | Produce commands =>
      let self := (owner w).1 in
      moved w (mk (ConnectionSet.set_commands (set self) commands) (connection self), (owner w).2)
  | PollIo maximum => moved w ((poll_io (owner w).1 (owner w).2 maximum).1, (owner w).2)
  | Turn now => moved w (turn now (owner w)).1
  end.

Definition admissible (c : command) : Prop :=
  match c with
  | Commit _ frame => Z.of_nat (length (frame_bytes frame)) ≤ USIZE_MAX
  | Finalize reason => reason ≠ CloseReason.Drained
  | _ => True
  end.

Definition start config limits decoder classifier (connector : K) ledger heap : option world :=
  match connect_with config limits decoder classifier connector ledger heap with
  | (_, Err _) => None
  | (heap, Ok self) =>
      Some (mk_world (self, heap)
        (mk_account (ConnectionToken.identity (connection self)) ledger limits
           (mk_notes [] [] [] [] 0)))
  end.

Inductive reachable (init : world) : world → Prop :=
  | reachable_init : reachable init init
  | reachable_step w c : reachable init w → admissible c → reachable init (exec w c).

(** ** The world of the set underneath *)

Definition resource (w : world) : ResourceToken := ConnectionToken.resource (connection (owner w).1).

Definition embed (w : world) : SetSystem.world D C T :=
  SetSystem.mk_world (set (owner w).1, (owner w).2) {[resource w := account w]}.

Definition as_set (connection : ConnectionToken.t) (c : command) : SetSystem.command D C K :=
  let from := ConnectionToken.resource connection in
  match c with
  | Reserve now options => SetSystem.Reserve connection now options
  | DropPermit i => SetSystem.DropPermit from i
  | Commit i frame => SetSystem.Commit connection from i frame
  | OpenAdmission => SetSystem.OpenAdmission connection
  | Cancel op => SetSystem.Cancel connection op
  | BeginDrain d => SetSystem.BeginDrain connection d
  | Finalize why => SetSystem.Finalize connection why
  | DrainOutcomes => SetSystem.DrainOutcomes connection
  | DrainEvents => SetSystem.DrainEvents connection
  | Produce commands => SetSystem.Produce commands
  | PollIo maximum => SetSystem.PollIo maximum
  | Turn now => SetSystem.Turn now
  end.

(** Why the connection of [w] failed, if it did: what its slot has latched, as
    the entry of the set says. *)
Definition entry_of (s : ConnectionSet.t D C T) (w : world) : option (ConnectionEntry.t D C T) :=
  snd <$> SetSpec.live s !! resource w.

Definition failure_in (s : ConnectionSet.t D C T) (w : world) : option OwnerFailure.t :=
  entry_of s w ≫= λ e, EngineState.failure (ConnectionSlot.state (ConnectionEntry.slot e)).

Definition failure_of (w : world) : option OwnerFailure.t := failure_in (set (owner w).1) w.

(** A failed connection is not waited for and not driven. *)
Definition suppressed (w : world) (c : command) : bool :=
  match c with
  | PollIo _ | Turn _ => bool_decide (failure_of w ≠ None)
  | _ => false
  end.

(** ** What a call answers *)

Inductive answer : Type :=
  | Done
  | Reserved (r : result OperationPermit.t ReserveError.t)
  | Committed (r : result OperationId.t (EngineCommitError.t OutboundFrame.t))
  | Disposed (r : result InputDisposition.t EngineError.t)
  | Cancelled (r : result CancelOutcome.t EngineError.t)
  | Outcomes (r : result (list (EngineOutcome.t Frame)) EngineError.t)
  | Events (r : result (list ConnectionEvent.t) EngineError.t)
  | Waited (r : result WaitOutcome EngineError.t)
  | Turned (r : result SetHost.Turn EngineError.t).

Definition answered (w : world) (c : command) : answer :=
  match c with
  | Reserve now options => Reserved (reserve now options (owner w)).2
  | DropPermit _ | Produce _ => Done
  | Commit i frame =>
      match permits (noted (account w)) !! i with
      | None => Done
      | Some p => Committed (commit p frame (owner w)).2
      end
  | OpenAdmission => Disposed (open_admission (owner w)).2
  | Cancel op => Cancelled (cancel op (owner w)).2
  | BeginDrain d => Disposed (begin_drain d (owner w)).2
  | Finalize why => Disposed (finalize why (owner w)).2
  | DrainOutcomes => Outcomes (drain_outcomes (owner w).1).2
  | DrainEvents => Events (drain_events (owner w).1).2
  | PollIo maximum => Waited (poll_io (owner w).1 (owner w).2 maximum).2
  | Turn now => Turned (turn now (owner w)).2
  end.

(** What the set answers the same call of its token, told as the standalone
    connection tells it: its errors are those of the connection, never that the
    token is stale; a failed connection answers its failure to a wait and a
    turn, a turn that fails it answers that failure, and one that leaves its
    transport closed answers to stop. *)
Definition tells (w : world) (c : command) (a : answer) : Prop :=
  let self := set (owner w).1 in
  let token := connection (owner w).1 in
  let s := (self, (owner w).2) in
  match c, a with
  | Reserve now options, Reserved r =>
      (ConnectionSet.reserve token now options s).2 = map_err ConnectionReserveError.Rejected r
  | Commit i frame, Committed r =>
      ∃ p, permits (noted (account w)) !! i = Some p ∧
        (ConnectionSet.commit token p frame s).2 = map_err ConnectionCommitError.Connection r
  | Commit i frame, Done => permits (noted (account w)) !! i = None
  | DropPermit _, Done | Produce _, Done => True
  | OpenAdmission, Disposed r =>
      (ConnectionSet.open_admission token s).2 = map_err ConnectionAccessError.Owner r
  | Cancel op, Cancelled r =>
      (ConnectionSet.cancel token op s).2 = map_err ConnectionAccessError.Owner r
  | BeginDrain d, Disposed r =>
      (ConnectionSet.begin_drain token d s).2 = map_err ConnectionAccessError.Owner r
  | Finalize why, Disposed r =>
      (ConnectionSet.finalize token why s).2 = map_err ConnectionAccessError.Owner r
  | DrainOutcomes, Outcomes r =>
      (ConnectionSet.drain_outcomes self token).2 = map_err ConnectionAccessError.Owner r
  | DrainEvents, Events r =>
      (ConnectionSet.drain_events self token).2 = map_err ConnectionAccessError.Owner r
  | PollIo maximum, Waited r =>
      r = match failure_of w with
          | Some why => Err (EngineError.OwnerFailed why)
          | None => (ConnectionSet.poll_io self maximum).2
          end
  | Turn now, Turned r =>
      r = match failure_of w with
          | Some why => Err (EngineError.OwnerFailed why)
          | None =>
              match ConnectionSet.turn now s with
              | (_, Err e) => Err e
              | (self', _, Ok t) =>
                  match failure_in self' w with
                  | Some why => Err (EngineError.OwnerFailed why)
                  | None =>
                      if bool_decide (ConnectionSlot.transport_state ∘ ConnectionEntry.slot
                                        <$> entry_of self' w = Some TransportState.Closed)
                      then Ok (turn_new (turn_work t) next_stop) else Ok t
                  end
              end
          end
  | _, _ => False
  end.

(** The set holds the connection under its token. *)
Definition held (w : world) : Prop :=
  ∃ e, ConnectionSet.entry (set (owner w).1) (connection (owner w).1) = Ok e.

Lemma held_entry s w e :
  ConnectionSet.entry s (connection (owner w).1) = Ok e → entry_of s w = Some e.
Proof. intros Hl%SetSpec.entry_live. unfold entry_of, resource. by rewrite Hl. Qed.

Lemma ensure_running_failure w : held w →
  ensure_running (owner w).1 (owner w).2 =
    match failure_of w with
    | None => Ok tt
    | Some why => Err (EngineError.OwnerFailed why)
    end.
Proof.
  intros [e He]. unfold failure_of, failure_in. rewrite (held_entry _ _ _ He).
  unfold ensure_running, snapshot, ConnectionSet.connection_snapshot. by rewrite He.
Qed.

Lemma note_single r f (a : SetStanding.account (Dec := Dec)) :
  SetSystem.note r f {[r := a]} = {[r := SetSystem.renoted a (f (noted a))]}.
Proof. unfold SetSystem.note. by rewrite alter_singleton_eq. Qed.

Lemma permit_single w i :
  SetSystem.permit_of (embed w) (resource w) i = permits (noted (account w)) !! i.
Proof. unfold SetSystem.permit_of. cbn [embed SetSystem.accounts]. by rewrite lookup_singleton_eq. Qed.

Lemma exec_embed w c : held w →
  embed (exec w c) =
    (if suppressed w c then embed w
     else SetSystem.exec (embed w) (as_set (connection (owner w).1) c)).
Proof.
  intros Hheld%ensure_running_failure.
  destruct c as [now options|i|i frame| |op|d|why| | |commands|maximum|now];
    cbn [suppressed as_set exec SetSystem.exec].
  - unfold reserve, mapped, on_set. destruct w as [[self heap] a].
    cbn [embed SetSystem.owner owner fst snd SetSystem.accounts resource account].
    destruct (ConnectionSet.reserve _ _ _ _) as [[set' heap'] [p|e]]; [|done].
    by rewrite note_single.
  - fold (resource w). rewrite permit_single. destruct (permits _ !! i); [|done].
    destruct w as [[self heap] a]. cbn [embed SetSystem.owner owner fst snd SetSystem.accounts account].
    by rewrite note_single.
  - fold (resource w). rewrite permit_single. destruct (permits _ !! i) as [p|]; [|done].
    unfold commit, mapped, on_set. destruct w as [[self heap] a].
    cbn [embed SetSystem.owner owner fst snd SetSystem.accounts account].
    destruct (ConnectionSet.commit _ _ _ _) as [[set' heap'] r].
    destruct r as [op|[p' f'|[| |]]]; cbn [map_err accepted_of SetSystem.accepted_of]; try done;
      by rewrite !note_single.
  - unfold open_admission, mapped, on_set. destruct w as [[self heap] a]. cbn [embed owner SetSystem.owner fst snd].
    by destruct (ConnectionSet.open_admission _ _) as [[set' heap'] r].
  - unfold cancel, mapped, on_set. destruct w as [[self heap] a]. cbn [embed owner SetSystem.owner fst snd].
    by destruct (ConnectionSet.cancel _ _ _) as [[set' heap'] r].
  - unfold begin_drain, mapped, on_set. destruct w as [[self heap] a]. cbn [embed owner SetSystem.owner fst snd].
    by destruct (ConnectionSet.begin_drain _ _ _) as [[set' heap'] r].
  - unfold finalize, mapped, on_set. destruct w as [[self heap] a]. cbn [embed owner SetSystem.owner fst snd].
    by destruct (ConnectionSet.finalize _ _ _) as [[set' heap'] r].
  - unfold drain_outcomes. destruct w as [[self heap] a].
    cbn [embed SetSystem.owner owner fst snd SetSystem.accounts account].
    destruct (ConnectionSet.drain_outcomes _ _) as [set' [l|e]]; [|done]. by rewrite note_single.
  - unfold drain_events. destruct w as [[self heap] a].
    cbn [embed SetSystem.owner owner fst snd SetSystem.accounts account].
    destruct (ConnectionSet.drain_events _ _) as [set' [l|e]]; [|done]. by rewrite note_single.
  - done.
  - unfold poll_io. destruct (failure_of w) as [why|];
      destruct w as [[self heap] a]; cbn [owner fst snd] in *; rewrite Hheld; [by destruct self|].
    cbn [embed owner SetSystem.owner fst snd].
    by destruct (ConnectionSet.poll_io _ _) as [set' r].
  - unfold turn, turn_component, on_set. destruct (failure_of w) as [why|];
      destruct w as [[self heap] a]; cbn [owner fst snd] in *; rewrite Hheld; [by destruct self|].
    cbn [embed owner SetSystem.owner fst snd]. unfold ConnectionSet.turn.
    by destruct (ConnectionSet.turn_component _ _) as [[set' heap'] [t|e]].
Qed.

Lemma admissible_embed w c :
  admissible c → SetSystem.admissible (embed w) (as_set (connection (owner w).1) c).
Proof. by destruct c. Qed.

Lemma connection_exec w c : connection (owner (exec w c)).1 = connection (owner w).1.
Proof.
  destruct w as [[self heap] a]. destruct c; cbn [exec owner fst snd].
  - unfold reserve, mapped, on_set. by destruct (ConnectionSet.reserve _ _ _ _) as [[? ?] []].
  - by case_match.
  - case_match; [|done]. unfold commit, mapped, on_set.
    destruct (ConnectionSet.commit _ _ _ _) as [[? ?] r]. by destruct (accepted_of _).
  - unfold open_admission, mapped, on_set. by destruct (ConnectionSet.open_admission _ _) as [[? ?] r].
  - unfold cancel, mapped, on_set. by destruct (ConnectionSet.cancel _ _ _) as [[? ?] r].
  - unfold begin_drain, mapped, on_set. by destruct (ConnectionSet.begin_drain _ _ _) as [[? ?] r].
  - unfold finalize, mapped, on_set. by destruct (ConnectionSet.finalize _ _ _) as [[? ?] r].
  - unfold drain_outcomes. by destruct (ConnectionSet.drain_outcomes _ _) as [? []].
  - unfold drain_events. by destruct (ConnectionSet.drain_events _ _) as [? []].
  - done.
  - unfold poll_io. destruct (ensure_running _ _); [|done]. by destruct (ConnectionSet.poll_io _ _).
  - unfold turn, turn_component, on_set. destruct (ensure_running _ _); [|done].
    by destruct (ConnectionSet.turn_component _ _) as [[? ?] []].
Qed.

Lemma controlled_owner {A} w (f : STE (ConnectionSlot.owner D C) EngineError.t A) : held w →
  ∃ r, (ConnectionSet.controlled (connection (owner w).1) f (set (owner w).1, (owner w).2)).2 =
    map_err ConnectionAccessError.Owner r.
Proof.
  intros [e He]. unfold ConnectionSet.controlled, ConnectionSet.entry_mut. rewrite He.
  destruct (ConnectionSet.on_slot _ _ _) as [[e' h'] r].
  unfold ConnectionSet.enqueue_and_settle.
  destruct (ConnectionSet.settle_connection _ _) as [[s' h''] settled].
  destruct r as [a|err]; [destruct settled as [n|err]|];
    [by exists (Ok a)|by exists (Err err)|by exists (Err err)].
Qed.

(** The standalone half of a control call undoes the wrapping. *)
Lemma unwrapped {A} w (f : ConnectionToken.t → STE (ConnectionSet.owner D C T) ConnectionAccessError.t A) :
  (∃ r, (f (connection (owner w).1) (set (owner w).1, (owner w).2)).2 =
     map_err ConnectionAccessError.Owner r) →
  (f (connection (owner w).1) (set (owner w).1, (owner w).2)).2 =
    map_err ConnectionAccessError.Owner (mapped standalone_error (on_set f) (owner w)).2.
Proof.
  intros [r Hr]. unfold mapped, on_set. destruct w as [[self heap] a]. cbn [owner fst snd] in *.
  destruct (f _ _) as [[s' h'] r']. cbn [snd] in *. subst r'. by destruct r.
Qed.

Lemma answered_tells w c : held w → held (exec w c) → tells w c (answered w c).
Proof.
  intros Hheld Hheld'. pose proof (ensure_running_failure w Hheld) as Hrun.
  destruct c as [now options|i|i frame| |op|d|why| | |commands|maximum|now]; cbn [tells answered].
  - destruct Hheld as [e He]. unfold reserve, mapped, on_set. destruct w as [[self heap] a].
    cbn [owner fst snd] in *. unfold ConnectionSet.reserve, ConnectionSet.entry_mut. rewrite He.
    destruct (ConnectionSet.on_slot _ _ _) as [[e' h'] [p|err]]; done.
  - done.
  - destruct (permits _ !! i) as [p|] eqn:Hp; [|done]. exists p. split; [done|].
    destruct Hheld as [e He]. unfold commit, mapped, on_set. destruct w as [[self heap] a].
    cbn [owner fst snd] in *. unfold ConnectionSet.commit, ConnectionSet.entry_mut. rewrite He.
    destruct (ConnectionSet.on_slot _ _ _) as [[e' h'] r].
    unfold ConnectionSet.enqueue_and_settle.
    destruct (ConnectionSet.settle_connection _ _) as [[s' h''] settled].
    by destruct r as [op|err]; [destruct settled|].
  - apply unwrapped. by apply controlled_owner.
  - apply (unwrapped w (λ token, ConnectionSet.cancel token op)). by apply controlled_owner.
  - apply (unwrapped w (λ token, ConnectionSet.begin_drain token d)). by apply controlled_owner.
  - apply (unwrapped w (λ token, ConnectionSet.finalize token why)). by apply controlled_owner.
  - destruct Hheld as [e He]. unfold drain_outcomes, ConnectionSet.drain_outcomes.
    unfold ConnectionSet.entry_mut. rewrite He. by destruct (ConnectionSlot.drain_outcomes _).
  - destruct Hheld as [e He]. unfold drain_events, ConnectionSet.drain_events.
    unfold ConnectionSet.entry_mut. rewrite He. by destruct (ConnectionSlot.drain_events _).
  - done.
  - unfold poll_io. rewrite Hrun. destruct (failure_of w); [done|].
    by destruct (ConnectionSet.poll_io _ _).
  - revert Hheld'. cbn [exec]. unfold turn, turn_component, on_set.
    destruct w as [[self heap] a]. cbn [owner fst snd moved] in *. rewrite Hrun.
    destruct (failure_of _); [done|]. unfold ConnectionSet.turn.
    destruct (ConnectionSet.turn_component _ _) as [[s' h'] [t|err]]; [|done].
    intros [e He]. change (ConnectionSet.entry s' (connection self) = Ok e) in He.
    set (w := mk_world (self, heap) a).
    assert (entry_of s' w = Some e) as Hs' by exact (held_entry s' w e He).
    unfold failure_in. rewrite Hs'.
    unfold snapshot, ConnectionSet.connection_snapshot. cbn [set connection]. rewrite He. cbn.
    destruct (EngineState.failure _); [done|].
    rewrite (bool_decide_ext (Some _ = _) _ (inj_iff Some _ _)). by case_bool_decide.
Qed.

End standalone_system.
#[global] Arguments world {Cal BB H SH} D C {Dec} T.
End StandaloneSystem.

(** ** What a standalone connection guarantees

    On every run of a standalone connection its set holds that connection and
    no other, the set is in a state that runs of sets reach, a turn stops
    exactly when the transport is closed, and recovery returns what is owed. *)

Import Hosted SlotCalls SlotStanding SetSpec SetLife SetTurns SetStanding SetRuns SetForward.
Import StandaloneConnection StandaloneSystem.

Module StandaloneTheorems.
Section standalone_theorems.
Context {Cal : Calandria} {BB : ByteBudgetLib} {Build : BuildConfig} {H : Host} {SH : SetHost}.
Context {Laws : CalandriaLaws Cal} {BLaws : ByteBudgetLaws BB} {HL : HostLaws H}.
Context {SHL : SetHostLaws SH}.
Context {D C : Type} {Dec : FrameDecoder D} {Ret : Retained Frame}.
Context {Cls : InboundClassifier Frame C}.
Context {T : Type} {TP : SlotTransport T} {RT : RegisteredTransport T}.
Context {K : Type} {Con : TransportConnector K T}.
Context (holds : T → Prop) (contract : TransportContract TP false rb_ZERO holds).
Context (registered : RegisteredContract RT holds).
Context (connects : ∀ (k : K) address limits t, connector_connect k address limits = Ok t → holds t).
Context (config : StandaloneConnectionConfig.t) (lim : ConnectionSlotLimits.t).
Context (Hlim : valid_limits lim) (decoder : D) (classifier : C) (connector : K).
Context (ledger : LedgerRef) (heap : Heap.t).
Context (w0 : StandaloneSystem.world D C T).
Context (Hstart : StandaloneSystem.start config lim decoder classifier connector ledger heap = Some w0).
Implicit Types (w : StandaloneSystem.world D C T) (c : StandaloneSystem.command).

Local Notation token := (connection (owner w0).1).
Local Notation failed e := (EngineState.failure (ConnectionSlot.state (ConnectionEntry.slot e))).
Local Notation begins s0 :=
  (SetSystem.start (StandaloneConnectionConfig.set config) (ConnectionSetLimits.standalone lim)
     heap = Some s0).

Lemma start_embed : ∃ s0,
  begins s0 ∧ sane holds s0 ∧ SetSystem.reachable (K := K) s0 (embed w0) ∧
  ∀ r, fst <$> live (set (owner w0).1) !! r =
    if decide (r = ConnectionToken.resource token) then Some (ConnectionToken.identity token)
    else None.
Proof.
  revert Hstart. unfold StandaloneSystem.start, connect_with.
  destruct (ConnectionSet.new _ _) as [set0|e] eqn:Hnew; [|done].
  set (s0 := SetSystem.mk_world (set0, heap) ∅ : SetSystem.world D C T).
  assert (begins s0) as Hs0 by (unfold SetSystem.start; by rewrite Hnew).
  assert (sane holds s0) as Hsane.
  { eapply (start_sane holds contract registered connects); [|exact Hs0]. done. }
  destruct (ConnectionSet.connect_with _ _ _ _ _ _ _) as [[set1 heap1] [tok|e]] eqn:Hc; [|done].
  intros [= <-]. exists s0. split; [done|]. split; [done|]. split.
  - set (c := SetSystem.Connect (StandaloneConnectionConfig.connection config) lim decoder
      classifier connector ledger).
    assert (embed (mk_world (mk set1 tok, heap1)
      (mk_account (ConnectionToken.identity tok) ledger lim (mk_notes [] [] [] [] 0)))
      = SetSystem.exec s0 c) as ->.
    { unfold c. cbn [SetSystem.exec SetSystem.owner s0]. rewrite Hc. done. }
    apply SetSystem.reachable_step; [constructor|]. split; [exact Hlim|]. apply map_Forall_empty.
  - intros r. apply connect_with_spec in Hc; [|apply (sn_registered _ _ Hsane)].
    destruct Hc as (e & limit & slot & t & Had & _). cbn [owner set fst connection].
    rewrite (ad_live _ _ _ _ Had). case_decide as Hr; [subst; by rewrite lookup_insert_eq|].
    rewrite lookup_insert_ne by done.
    assert (live set0 = ∅) as ->; [|done]. revert Hnew. unfold ConnectionSet.new.
    destruct (poller_new _); [|done]. intros [= <-]. apply table_new_map.
Qed.

(** What the runs keep. *)
Lemma run_embed w : reachable w0 w →
  connection (owner w).1 = token ∧ (∃ s0, begins s0 ∧ sane holds s0 ∧
    SetSystem.reachable (K := K) s0 (embed w)) ∧
  ∀ r, fst <$> live (set (owner w).1) !! r =
    if decide (r = ConnectionToken.resource token) then Some (ConnectionToken.identity token)
    else None.
Proof.
  induction 1 as [|w c Hr (Htok & (s0 & Hb & Hs & Hre) & Hid) Ha].
  { destruct start_embed as (s0 & ? & ? & ? & ?). split; [done|]. split; [by exists s0|done]. }
  rewrite connection_exec. split; [done|].
  assert (held w) as Hheld.
  { specialize (Hid (ConnectionToken.resource token)). rewrite decide_True in Hid by done.
    apply fmap_Some in Hid as ([id e] & Hl & Heq). exists e. apply entry_live.
    by rewrite Htok, Hl, Heq. }
  assert (live (set (owner (exec w c)).1) = live (SetSystem.owner (embed (exec w c))).1) as Heq by done.
  rewrite Heq. rewrite (exec_embed (K := K) _ _ Hheld).
  destruct (suppressed w c).
  - split; [by exists s0|]. exact Hid.
  - split.
    + exists s0. split; [done|]. split; [done|]. apply SetSystem.reachable_step; [done|].
      by apply admissible_embed.
    + intros r. assert (steady (SetSystem.owner (embed w)).1
        (SetSystem.owner (SetSystem.exec (embed w) (as_set (K := K) (connection (owner w).1) c))).1)
        as [Hc _] by (apply exec_steady; by destruct c).
      rewrite (ca_identity _ _ Hc). apply Hid.
Qed.

Lemma run_entry w : reachable w0 w →
  ∃ e, ConnectionSet.entry (set (owner w).1) (connection (owner w).1) = Ok e.
Proof.
  intros (Htok & _ & Hid)%run_embed. specialize (Hid (ConnectionToken.resource token)).
  rewrite decide_True in Hid by done. apply fmap_Some in Hid as ([id e] & Hl & Heq).
  exists e. apply entry_live. rewrite Htok, Hl, Heq. done.
Qed.

(** C25: a standalone connection refines the set: every state of its runs is a
    state of a run of a set of capacity one, where the call is the same call of
    its token, or nothing when it is a wait or a turn and the slot of that
    connection has latched a failure. It answers what the set answers, the
    errors of the connection unwrapped and none of them a stale token, but for
    the failure a wait or a turn of a failed connection answers, the one a turn
    answers when it fails it, and the stop it answers when it leaves the
    transport closed. *)
Theorem standalone_refines w c :
  reachable w0 w → admissible c →
  (∃ s0, begins s0 ∧ SetSystem.reachable (K := K) s0 (embed w)) ∧
  SetSystem.admissible (embed w) (as_set (K := K) (connection (owner w).1) c) ∧
  embed (exec w c) =
    (if suppressed w c then embed w
     else SetSystem.exec (embed w) (as_set (K := K) (connection (owner w).1) c)) ∧
  tells w c (answered w c).
Proof.
  intros Hr Ha. pose proof (run_entry w Hr) as Hheld.
  pose proof (run_entry _ (StandaloneSystem.reachable_step w0 w c Hr Ha)) as Hheld'.
  apply run_embed in Hr as (_ & (s0 & Hb & _ & Hre) & _).
  split; [by exists s0|]. split; [by apply admissible_embed|]. split; [by apply exec_embed|].
  by apply answered_tells.
Qed.

(** The set of a standalone connection always holds that connection and no
    other, under the token it was made with: no call can find it stale. *)
Theorem standalone_sole w :
  reachable w0 w →
  connection (owner w).1 = token ∧
  ∃ e, live (set (owner w).1) =
      {[ConnectionToken.resource token := (ConnectionToken.identity token, e)]} ∧
    ConnectionSet.entry (set (owner w).1) token = Ok e ∧
    snapshot (owner w).1 (owner w).2 = Ok (ConnectionSlot.snapshot (ConnectionEntry.slot e) (owner w).2).
Proof.
  intros Hr. destruct (run_entry w Hr) as [e He]. apply run_embed in Hr as (Htok & _ & Hid).
  split; [done|]. exists e. rewrite <- Htok at 3. split; [|split; [done|]].
  - apply map_eq. intros r. specialize (Hid r). apply entry_live in He. rewrite Htok in He.
    case_decide as Hd; [subst; by rewrite He, lookup_singleton_eq|].
    rewrite lookup_singleton_ne by done. by apply fmap_None in Hid.
  - unfold snapshot, ConnectionSet.connection_snapshot. by rewrite He.
Qed.

(** A turn of a standalone connection is the turn of its set, for a
    connection that runs before and after; it answers to stop exactly when the
    transport is closed. *)
Theorem standalone_turn_stops w now s t :
  reachable w0 w → turn now (owner w) = (s, Ok t) →
  ∃ e t', ConnectionSet.entry (set s.1) token = Ok e ∧ failed e = None ∧
    ConnectionSet.turn now (set (owner w).1, (owner w).2) = ((set s.1, s.2), Ok t') ∧
    turn_work t = turn_work t' ∧
    turn_next t = (if bool_decide (ConnectionSlot.transport_state (ConnectionEntry.slot e)
                                   = TransportState.Closed)
                   then next_stop else turn_next t').
Proof.
  intros Hr Ht.
  assert (reachable w0 (exec w (Turn now))) as Hr' by by apply StandaloneSystem.reachable_step.
  destruct (run_entry _ Hr') as [e He]. apply run_embed in Hr' as (Htok & _ & _).
  cbn [exec owner moved] in He, Htok. rewrite Ht in He, Htok. cbn [fst] in *. rewrite Htok in He.
  destruct (owner w) as [self h], s as [self' h']. cbn [fst snd] in *.
  revert Ht. unfold turn, turn_component, on_set. destruct (ensure_running self h); [|done].
  unfold ConnectionSet.turn.
  destruct (ConnectionSet.turn_component _ _) as [[set1 h1] [t'|err]]; [|done].
  intros [= <- <- Hres]. cbn [set connection] in *. exists e, t'. split; [done|].
  unfold snapshot, ConnectionSet.connection_snapshot in Hres. cbn [set connection] in Hres.
  rewrite Htok, He in Hres. cbn [map_err ConnectionSlot.snapshot ConnectionSlotSnapshot.owner_failure
    ConnectionSlotSnapshot.transport] in Hres.
  destruct (failed e); [done|]. injection Hres as <-. split; [done|]. split; [done|].
  case_bool_decide; by rewrite ?turn_work_new, ?turn_next_new.
Qed.

(** Recovery of a standalone connection returns the outcomes that are
    pending and the operations that owe one: with those drained before, every
    operation it accepted is accounted for exactly once. [try_recover] does so
    once it failed, and gives a running one back as it was. *)
Theorem standalone_recovers_all w requested :
  reachable w0 w →
  let a := noted (account w) in
  let '(s, report) := abandon requested (owner w) in
  accepted a ≡ₚ
    (EngineOutcome.operation <$> delivered a ++ RecoveryReport.outcomes report) ++
    (RecoveredOperation.operation <$> RecoveryReport.operations report) ∧
  NoDup (accepted a) ∧
  RecoveryReport.epoch report = ConnectionToken.epoch token ∧
  RecoveryReport.unmatched_writes report = [] ∧
  live (set s.1) = ∅ ∧ ConnectionSet.owner_failure (set s.1) = ConnectionSet.owner_failure (set (owner w).1) ∧
  try_recover (owner w) =
    match latched_failure (owner w).1 with
    | None => (owner w, Err (mk_running (owner w).1))
    | Some _ => (s, Ok report)
    end.
Proof.
  intros Hr. destruct (run_entry w Hr) as [e He].
  pose proof (run_embed w Hr) as (Htok & (s0 & _ & Hs0 & Hre) & Hid). cbv zeta.
  pose proof (sane_reachable holds contract registered connects _ _ Hs0 Hre) as [Hacc _ _ _].
  destruct w as [[self h] a]. cbn [owner account fst snd embed SetSystem.owner SetSystem.accounts] in *.
  pose proof He as Hl%entry_live.
  destruct (ac_live _ _ _ _ Hacc _ _ _ Hl) as (a' & Ha & Hholder & Hin).
  unfold resource in Ha. cbn [owner fst] in Ha. rewrite lookup_singleton_eq in Ha. injection Ha as <-.
  unfold abandon, try_recover, latched_failure. cbn [fst]. rewrite He.
  set (reason := default requested _). unfold recover_owned. rewrite get_live, Hl.
  destruct (ConnectionSet.release_transport _ _ _) as [[[p e1] cleanup] pressure] eqn:Hrel.
  set (mid := ConnectionSet.retain_ready _ _).
  assert (live mid = <[ConnectionToken.resource (connection self) :=
    (ConnectionToken.identity (connection self), e1)]> (live (set self))) as Hmid
    by exact (update_live (ConnectionSet.set_poller (set self) p) _ _ _ _ Hl).
  destruct (table_remove_map (ConnectionSet.resources mid) (ConnectionToken.resource (connection self)))
    as (H3 & H4 & _). change (table_map (ConnectionSet.resources mid)) with (live mid) in *.
  rewrite Hmid in H3, H4. rewrite lookup_insert_eq in H3. rewrite delete_insert_eq in H4.
  destruct (table_remove _ _) as [table kv]. cbn [fst snd] in *. subst kv.
  pose proof (release_works holds registered _ _ _ h _ _ _ _ Hrel) as Hw.
  destruct (works_in_order _ _ _ _ _ _ Hw Hin) as [[_ _ Hst] _].
  pose proof (whole_recover _ _ _ _ reason (bool_decide (is_Some cleanup) || pressure)
    (stands_whole _ _ _ _ _ _ Hst)) as Hrec.
  destruct (ConnectionSlot.recover_owned _ _ _) as [[slot2 h2] report] eqn:Hro.
  destruct Hrec as (H1 & H2 & H5 & H6 & _).
  split; [exact H1|]. split; [exact H2|]. split; [rewrite H5, Hholder, Htok; done|].
  split; [exact H6|]. split; [|split; [done|]].
  - change (table_map table = ∅). rewrite H4. apply map_eq. intros r. specialize (Hid r).
    rewrite lookup_empty. destruct (decide (r = ConnectionToken.resource token)) as [->|Hne].
    + rewrite <- Htok. apply lookup_delete_eq.
    + rewrite lookup_delete_ne by congruence. by apply fmap_None in Hid.
  - subst reason. destruct (failed e) as [why|]; [|done].
    change (default requested (Some why)) with why in Hro. by rewrite Hro.
Qed.

End standalone_theorems.
End StandaloneTheorems.
