(* ===== verification/Tcp.v ===== *)
(** * Native TCP

    [transport/tcp.rs] and [transport/tcp_port.rs] of [bornera], with the
    connectors of [set_connect.rs] and [standalone/connect.rs] that use it: a
    nonblocking stream that is connected, has its socket policy applied, and is
    then read and written when the selector says it is ready. The stream and
    the flags of a readiness are parameters; the stream's [Source] is handed to
    [mio] as it is. *)
From Stdlib Require Import ZArith Lia.
From stdpp Require Import prelude.
From S2P Require Import Prelude External Host Identity Limits Admission Ledger Operation Permit Write.
From S2P Require Import Framing Core SlotData Config Slot.
From S2P Require Import Transport SetHost SetData SetOwner Standalone.

(** ** The operating system *)

Class Sockets {Cal : Calandria} {H : Host} {SH : SetHost} : Type := {
  (** [calandria::Readiness]: a set of flags. *)
  readiness_EMPTY : Readiness;
  readiness_READABLE : Readiness;
  readiness_WRITABLE : Readiness;
  readiness_READ_CLOSED : Readiness;
  readiness_WRITE_CLOSED : Readiness;
  readiness_ERROR : Readiness;
  readiness_union : Readiness → Readiness → Readiness;
  readiness_remove : Readiness → Readiness → Readiness;
  readiness_intersects : Readiness → Readiness → bool;
  (** The other values of [calandria::Interest]. *)
  interest_READABLE : Interest;
  interest_WRITABLE : Interest;
  (** [mio::net::TcpStream], and the options [socket2] sets on it. *)
  TcpStream : Type;
  stream_connect : SocketAddr → result TcpStream IoError.t;
  stream_read : TcpStream → list Byte.byte → TcpStream * list Byte.byte * result Z IoError.t;
  stream_write : TcpStream → list Byte.byte → TcpStream * result Z IoError.t;
  stream_flush : TcpStream → TcpStream * result unit IoError.t;
  stream_take_error : TcpStream → TcpStream * result (option IoError.t) IoError.t;
  stream_peer_addr : TcpStream → TcpStream * result SocketAddr IoError.t;
  stream_set_nodelay : TcpStream → bool → TcpStream * result unit IoError.t;
  stream_set_keepalive : TcpStream → Span → TcpStream * result unit IoError.t;
}.

(** The contracts of [Read] and [Write], and what removing flags means. *)
Class SocketLaws {Cal : Calandria} {H : Host} {SH : SetHost} (SK : Sockets) : Prop := {
  stream_read_count : ∀ s b n, (stream_read s b).2 = Ok n → 0 ≤ n ≤ Z.of_nat (length b);
  stream_write_count : ∀ s b n, (stream_write s b).2 = Ok n → 0 ≤ n ≤ Z.of_nat (length b);
  intersects_removed : ∀ r flags, readiness_intersects (readiness_remove r flags) flags = false;
  removed_intersects : ∀ r flags flags',
    readiness_intersects (readiness_remove r flags) flags' = true →
    readiness_intersects r flags' = true;
}.

Section flags.
Context {Cal : Calandria} {H : Host} {SH : SetHost} {SK : Sockets}.

(** The flags on which a direction can make progress. *)
Definition read_flags : Readiness :=
  readiness_union (readiness_union readiness_READABLE readiness_READ_CLOSED) readiness_ERROR.
Definition write_flags : Readiness :=
  readiness_union (readiness_union readiness_WRITABLE readiness_WRITE_CLOSED) readiness_ERROR.
Definition connect_flags : Readiness :=
  readiness_union
    (readiness_union (readiness_union readiness_WRITABLE readiness_ERROR) readiness_READ_CLOSED)
    readiness_WRITE_CLOSED.

End flags.

(** ** The transport ([tcp.rs]) *)

Module TcpTransport.
Section tcp_transport.
Context {Cal : Calandria} {H : Host} {SH : SetHost} {SK : Sockets}.

Inductive TransportPhase : Type :=
  | Connecting
  | NoDelay
  | Keepalive
  | Open.

#[global] Instance phase_eq_dec : EqDecision TransportPhase.
Proof. solve_decision. Defined.

(** Native nonblocking TCP transport registered by a [ConnectionSet]. *)
Record t : Type := mk { stream : TcpStream; phase : TransportPhase; readiness : Readiness }.

Definition set_stream (self : t) (v : TcpStream) : t := mk v (phase self) (readiness self).
Definition set_phase (self : t) (v : TransportPhase) : t := mk (stream self) v (readiness self).
Definition set_readiness (self : t) (v : Readiness) : t := mk (stream self) (phase self) v.

(** A method on [&mut self] that may fail. *)
Definition Step : Type := t * result TransportProgress.t TransportError.t.

Definition fail (self : t) (phase : TransportFailurePhase.t) (source : IoError.t) : Step :=
  (self, Err (TransportError.from_io phase source)).
Definition operation (self : t) : Step := (self, Ok TransportProgress.operation).

Definition connect (address : SocketAddr) : result t IoError.t :=
  match stream_connect address with
  | Err source => Err source
  | Ok stream => Ok (mk stream Connecting readiness_EMPTY)
  end.

Definition observe (self : t) (ready : Readiness) : t :=
  set_readiness self (readiness_union (readiness self) ready).

Definition clear_connect (self : t) : t :=
  set_readiness self (readiness_remove (readiness self) connect_flags).

Definition complete_connect (self : t) : Step :=
  let '(stream, error) := stream_take_error (stream self) in
  let self := set_stream self stream in
  match error with
  | Err source | Ok (Some source) => fail self TransportFailurePhase.Connect source
  | Ok None =>
      let '(stream, peer) := stream_peer_addr stream in
      let self := set_stream self stream in
      match peer with
      | Ok _ =>
          let self := set_phase self NoDelay in
          operation (set_readiness self (readiness_remove (readiness self) readiness_ERROR))
      | Err source =>
          if bool_decide (IoError.kind source = ErrorKind.NotConnected)
          then operation (clear_connect self)
          else fail self TransportFailurePhase.Connect source
      end
  end.

Definition apply_no_delay (self : t) (policy : TcpSocketPolicy.t) : Step :=
  let '(stream, r) :=
    stream_set_nodelay (stream self)
      (bool_decide (TcpSocketPolicy.no_delay policy = TcpNoDelay.Enabled)) in
  let self := set_stream self stream in
  match r with
  | Err source => fail self TransportFailurePhase.SocketPolicy source
  | Ok _ =>
      operation
        (set_phase self
           (match TcpSocketPolicy.keepalive_policy policy with
            | Some _ => Keepalive
            | None => Open
            end))
  end.

Definition apply_keepalive (self : t) (policy : TcpSocketPolicy.t) : Step :=
  match TcpSocketPolicy.keepalive_policy policy with
  | None => operation (set_phase self Open)
  | Some keepalive =>
      let '(stream, r) := stream_set_keepalive (stream self) (TcpKeepalivePolicy.idle keepalive) in
      let self := set_stream self stream in
      match r with
      | Err source => fail self TransportFailurePhase.SocketPolicy source
      | Ok _ => operation (set_phase self Open)
      end
  end.

Definition can_establish (self : t) : bool :=
  match phase self with
  | Connecting => readiness_intersects (readiness self) connect_flags
  | NoDelay | Keepalive => true
  | Open => false
  end.

Definition is_open (self : t) : bool := bool_decide (phase self = Open).

Definition can_read (self : t) : bool :=
  is_open self && readiness_intersects (readiness self) read_flags.

Definition can_write (self : t) : bool :=
  is_open self && readiness_intersects (readiness self) write_flags.

Definition clear_read (self : t) : t :=
  set_readiness self (readiness_remove (readiness self) read_flags).

Definition clear_write (self : t) : t :=
  set_readiness self (readiness_remove (readiness self) write_flags).

Definition desired_interest (self : t) (has_writes : bool) : Interest :=
  if bool_decide (phase self = Connecting) || has_writes then interest_READ_WRITE
  else interest_READABLE.

(** *** The traits ([tcp_port.rs]) *)

Definition read (self : t) (buffer : list Byte.byte) : t * list Byte.byte * result Z IoError.t :=
  let '(stream, buffer, r) := stream_read (stream self) buffer in (set_stream self stream, buffer, r).

Definition write (self : t) (buffer : list Byte.byte) : t * result Z IoError.t :=
  let '(stream, r) := stream_write (stream self) buffer in (set_stream self stream, r).

Definition flush (self : t) : t * result unit IoError.t :=
  let '(stream, r) := stream_flush (stream self) in (set_stream self stream, r).

Definition drive_establishment (self : t) (policy : TcpSocketPolicy.t) (budget : TransportBudget.t)
    : Step :=
  match phase self with
  | Connecting => complete_connect self
  | NoDelay => apply_no_delay self policy
  | Keepalive => apply_keepalive self policy
  | Open => (self, Ok TransportProgress.IDLE)
  end.

#[global] Instance slot_transport : SlotTransport t := {
  tr_read := read;
  tr_write := write;
  tr_drive_establishment := drive_establishment;
  tr_drive_transport self _ := (self, Ok TransportProgress.IDLE);
  tr_begin_shutdown self _ := operation self;
  tr_can_establish := can_establish;
  tr_has_transport_work _ := false;
  tr_is_shutdown_complete _ := true;
  tr_is_open := is_open;
  tr_can_read := can_read;
  tr_can_write := can_write;
  tr_desired_interest := desired_interest;
  tr_pressure _ := TransportPressure.ZERO;
  tr_pressure_limit _ := TransportLimits.new rb_ZERO;
  tr_clear_read := clear_read;
  tr_clear_write := clear_write;
}.

(** The registration calls of [Source] are those of the stream. *)
Definition registered_transport (source : Source t) : RegisteredTransport t := {|
  rt_source := source;
  rt_observe_readiness := observe;
|}.

End tcp_transport.
End TcpTransport.

(** ** Connectors ([set_connect.rs], [standalone/connect.rs]) *)

Module TcpConnector.
Section tcp_connector.
Context {Cal : Calandria} {H : Host} {SH : SetHost} {SK : Sockets}.

Inductive t : Type := mk.

#[global] Instance connector : TransportConnector t TcpTransport.t := {
  connector_connect _ address _ := TcpTransport.connect address;
}.

End tcp_connector.
End TcpConnector.

Module TcpConnections.
Section tcp_connections.
Context {Cal : Calandria} {BB : ByteBudgetLib} {Build : BuildConfig} {H : Host} {SH : SetHost}.
Context {SK : Sockets} {RT : RegisteredTransport TcpTransport.t}.
Context {D C : Type} {Dec : FrameDecoder D} {Ret : Retained Frame}.
Context {Cls : InboundClassifier Frame C}.

(** [ConnectionSet::connect]. *)
Definition connect (config : ConnectionConfig.t) (limits : ConnectionSlotLimits.t) (decoder : D)
    (classifier : C) (ledger : LedgerRef)
    : STE (ConnectionSet.owner D C TcpTransport.t) (ConnectError.t Error) ConnectionToken.t :=
  ConnectionSet.connect_with (T := TcpTransport.t) config limits decoder classifier TcpConnector.mk
    ledger.

(** [StandaloneConnection::connect]. *)
Definition standalone_connect (config : StandaloneConnectionConfig.t)
    (limits : ConnectionSlotLimits.t) (decoder : D) (classifier : C) (ledger : LedgerRef)
    (heap : Heap.t)
    : Heap.t * result (StandaloneConnection.t D C TcpTransport.t) (ConnectError.t Error) :=
  let set_limits := ConnectionSetLimits.standalone limits in
  match ConnectionSet.new (T := TcpTransport.t) (StandaloneConnectionConfig.set config) set_limits with
  | Err e => (heap, Err (ConnectError.Mio e))
  | Ok set =>
      match connect (StandaloneConnectionConfig.connection config) limits decoder classifier ledger
              (set, heap) with
      | (_, heap, Err e) => (heap, Err e)
      | (set, heap, Ok connection) => (heap, Ok (StandaloneConnection.mk set connection))
      end
  end.

End tcp_connections.
End TcpConnections.

(** ** The contract *)

Module TcpSpec.
Section tcp_spec.
Context {Cal : Calandria} {H : Host} {SH : SetHost} {SK : Sockets}.
Context {Laws : CalandriaLaws Cal} {SLaws : SocketLaws SK}.
Import TcpTransport.

(** A report of one operation, and of no bytes, fits any budget. *)
Lemma operation_fits budget :
  TransportBudget.valid budget →
  TransportProgress.fits TransportProgress.operation budget = true ∧
  TransportProgress.is_idle TransportProgress.operation = false.
Proof.
  intros (Ho & Hr & Hw). split; [|done]. unfold TransportProgress.fits. simpl.
  rewrite !andb_true_iff, !Z.leb_le. lia.
Qed.

(** Unless the stream is open, establishing it is one operation, or fails. *)
Lemma establishment_progress self policy budget r :
  phase self ≠ Open → (drive_establishment self policy budget).2 = Ok r →
  r = TransportProgress.operation.
Proof.
  intros Hp. unfold drive_establishment, complete_connect, apply_no_delay, apply_keepalive.
  destruct (phase self); [..|done]; repeat (case_match; simplify_eq/=; try done); congruence.
Qed.

#[global] Instance tcp_typing : TransportTyping slot_transport.
Proof.
  assert (TransportProgress.made TransportProgress.operation) as Hop by (right; simpl; lia).
  split; cbn.
  - intros t p b r. destruct (decide (phase t = Open)) as [Hp|Hp].
    + unfold drive_establishment. rewrite Hp. intros [= <-]. by left.
    + intros Hr. by rewrite (establishment_progress _ _ _ _ Hp Hr).
  - intros t b r [= <-]. by left.
  - by intros t b r [= <-].
Qed.

Lemma tcp_contract : TransportContract slot_transport true rb_ZERO (λ _, True).
Proof.
  split; cbn; try done.
  - intros t b n _. unfold write. destruct (stream_write (stream t) b) as [s r] eqn:Hw. simpl.
    intros ->. apply (stream_write_count (stream t)). by rewrite Hw.
  - intros _ t b n _. unfold read.
    destruct (stream_read (stream t) b) as [[s b'] r] eqn:Hr. simpl. intros ->.
    apply (stream_read_count (stream t)). by rewrite Hr.
  - intros _ t p b r _ Hb Hc Hr. unfold can_establish in Hc.
    rewrite (establishment_progress t p b r) by (by try intros Heq; rewrite ?Heq in Hc).
    by apply operation_fits.
  - intros _ t b r _ Hb [= <-]. by apply operation_fits.
Qed.

(** How far a stream is from being open. *)
Definition stage (p : TransportPhase) : nat :=
  match p with Connecting => 3 | NoDelay => 2 | Keepalive => 1 | Open => 0 end.

(** An operation of establishment brings the stream closer, or leaves nothing
    to do until the selector reports again. *)
Lemma establishment_advances self policy budget self' r :
  can_establish self = true → drive_establishment self policy budget = (self', Ok r) →
  (stage (phase self') < stage (phase self))%nat ∨ can_establish self' = false.
Proof.
  unfold can_establish at 1, drive_establishment. destruct (phase self) eqn:Hp; [..|done]; intros Hc.
  - unfold complete_connect. destruct (stream_take_error _) as [s [[?|]|?]]; try done.
    destruct (stream_peer_addr s) as [s' [a|e]]; [intros [= <- <-]; simpl; lia|].
    case_bool_decide; [|done]. intros [= <- <-]. right. unfold can_establish. simpl. rewrite Hp.
    apply intersects_removed.
  - unfold apply_no_delay. destruct (stream_set_nodelay _ _) as [s [?|?]]; [|done].
    intros [= <- <-]. left. by destruct (TcpSocketPolicy.keepalive_policy policy); simpl; lia.
  - unfold apply_keepalive. destruct (TcpSocketPolicy.keepalive_policy policy) as [k|].
    + destruct (stream_set_keepalive _ _) as [s [?|?]]; [|done]. intros [= <- <-]. simpl. lia.
    + intros [= <- <-]. simpl. lia.
Qed.

(** Establishment driven as long as there is something to do, at most [n]
    times. *)
Fixpoint establishing (n : nat) (policy : TcpSocketPolicy.t) (budget : TransportBudget.t) (self : t)
    : t * result unit TransportError.t :=
  match n with
  | O => (self, Ok tt)
  | S n =>
      if can_establish self then
        match drive_establishment self policy budget with
        | (self, Err error) => (self, Err error)
        | (self, Ok _) => establishing n policy budget self
        end
      else (self, Ok tt)
  end.

Lemma establishing_idle n policy budget self :
  can_establish self = false → establishing n policy budget self = (self, Ok tt).
Proof. intros Hc. destruct n; simpl; by rewrite ?Hc. Qed.

(** Establishment fails in one of its own two phases. *)
Definition establishment_failure (e : TransportError.t) : Prop :=
  TransportDiagnostic.phase (TransportError.diagnostic e) = TransportFailurePhase.Connect ∨
  TransportDiagnostic.phase (TransportError.diagnostic e) = TransportFailurePhase.SocketPolicy.

Lemma establishment_phase self policy budget e :
  (drive_establishment self policy budget).2 = Err e → establishment_failure e.
Proof.
  unfold establishment_failure, drive_establishment, complete_connect, apply_no_delay,
    apply_keepalive, fail.
  repeat (case_match; simplify_eq/=; try done); intros; simplify_eq/=; auto.
Qed.

(** As many operations as there are stages left are enough. *)
Lemma establishing_ends n policy budget self :
  (stage (phase self) ≤ n)%nat →
  let '(self', r) := establishing n policy budget self in
  match r with
  | Ok _ => can_establish self' = false
  | Err e => establishment_failure e
  end.
Proof.
  revert self. induction n as [|n IH]; intros self Hn; simpl.
  - unfold can_establish. destruct (phase self); simpl in Hn; [lia..|done].
  - destruct (can_establish self) eqn:Hc; [|exact Hc].
    pose proof (establishment_phase self policy budget) as Hphase.
    destruct (drive_establishment self policy budget) as [self' [p|e]] eqn:Hd; [|by apply Hphase].
    destruct (establishment_advances _ _ _ _ _ Hc Hd) as [Hs|Hs].
    + apply IH. lia.
    + by rewrite (establishing_idle _ _ _ _ Hs).
Qed.

(** What follows a transport until the selector reports readiness: every call
    of the slot, and the registration, which is that of the stream. *)
Inductive unreported (self : t) : t → Prop :=
  | unreported_start : unreported self self
  | unreported_read t b : unreported self t → unreported self (tr_read t b).1.1
  | unreported_write t b : unreported self t → unreported self (tr_write t b).1
  | unreported_establishment t policy budget :
      unreported self t → unreported self (tr_drive_establishment t policy budget).1
  | unreported_transport t budget : unreported self t → unreported self (tr_drive_transport t budget).1
  | unreported_shutdown t budget : unreported self t → unreported self (tr_begin_shutdown t budget).1
  | unreported_clear_read t : unreported self t → unreported self (tr_clear_read t)
  | unreported_clear_write t : unreported self t → unreported self (tr_clear_write t)
  | unreported_stream t s : unreported self t → unreported self (set_stream t s).

Lemma removed_lacks r flags flags' :
  readiness_intersects r flags' = false →
  readiness_intersects (readiness_remove r flags) flags' = false.
Proof.
  intros Hr. apply not_true_is_false. intros Hi%removed_intersects. by rewrite Hr in Hi.
Qed.

(** Establishment reports nothing. *)
Lemma establishment_readiness self policy budget flags :
  readiness_intersects (readiness self) flags = false →
  readiness_intersects (readiness (drive_establishment self policy budget).1) flags = false.
Proof.
  intros Hl. unfold drive_establishment, complete_connect, apply_no_delay, apply_keepalive, operation, fail.
  destruct (phase self); [| | |done]; repeat case_match; simplify_eq/=; try done;
    by apply removed_lacks.
Qed.

Lemma unreported_lacks self t flags :
  unreported self t → readiness_intersects (readiness self) flags = false →
  readiness_intersects (readiness t) flags = false.
Proof.
  intros Hu Hl. induction Hu as [|t b _ IH|t b _ IH|t policy budget _ IH|t b _ IH|t b _ IH|t _ IH|t _ IH|t s _ IH];
    try done.
  - cbn [tr_read slot_transport]. unfold read. by destruct (stream_read _ _) as [[? ?] ?].
  - cbn [tr_write slot_transport]. unfold write. by destruct (stream_write _ _) as [? ?].
  - by apply establishment_readiness.
  - by apply removed_lacks.
  - by apply removed_lacks.
Qed.

(** A direction whose readiness was cleared has to be reported again. *)
Lemma cleared self t :
  (unreported (clear_read self) t → can_read t = false) ∧
  (unreported (clear_write self) t → can_write t = false).
Proof.
  unfold can_read, can_write. split; intros Hu;
    (rewrite (unreported_lacks _ _ _ Hu); [apply andb_false_r|apply intersects_removed]).
Qed.

End tcp_spec.
End TcpSpec.
