(* ===== verification/Tls.v ===== *)
(** * The parts of a rustls connection

    [config.rs], [server_config.rs], [client_config.rs], [diagnostic.rs],
    [limited.rs] and the check of [transport.rs] of [bornera-rustls]: memory
    limits, configurations, errors and their diagnostics, and the wrappers that
    hold one call of [rustls] to a byte budget. The [rustls] library itself is a
    parameter; [RustlsLaws] is the documented behaviour the code relies on. *)
From Stdlib Require Import ZArith Lia.
From stdpp Require Import prelude.
From S2P Require Import Prelude External Host Config Transport.

(** ** [std::io::Read] and [std::io::Write]

    A reader fills a prefix of the buffer it is given and leaves the rest; a
    method on [&mut self] gives the state it leaves. *)

Definition reader (R : Type) : Type := R → list Byte.byte → R * list Byte.byte * result Z IoError.t.
Definition writer (W : Type) : Type := W → list Byte.byte → W * result Z IoError.t.

(** A reader, or a writer, whose calls together pass at most [credit] bytes. *)
Definition reads_within {R : Type} (read : reader R) (credit : R → Z) : Prop :=
  (∀ r, 0 ≤ credit r) ∧
  ∀ r b, let '(r', _, n) := read r b in
    match n with Ok n => 0 ≤ n ∧ n + credit r' ≤ credit r | Err _ => credit r' ≤ credit r end.

Definition writes_within {W : Type} (write : writer W) (credit : W → Z) : Prop :=
  (∀ w, 0 ≤ credit w) ∧
  ∀ w b, let '(w', n) := write w b in
    match n with Ok n => 0 ≤ n ∧ n + credit w' ≤ credit w | Err _ => credit w' ≤ credit w end.

Module StdIo.

(** [impl Read for &[u8]]. *)
Definition slice_read : reader (list Byte.byte) := λ source buffer,
  let n := Nat.min (length buffer) (length source) in
  (drop n source, take n source ++ drop n buffer, Ok (Z.of_nat n)).

(** [impl Write for &mut [u8]]: what was written, and the rest of the slice. *)
Definition slice_write : writer (list Byte.byte * list Byte.byte) := λ '(written, room) bytes,
  let n := Nat.min (length bytes) (length room) in
  ((written ++ take n bytes, drop n room), Ok (Z.of_nat n)).

(** [std::io::empty]. *)
Definition empty_read : reader unit := λ source buffer, (source, buffer, Ok 0).

Lemma slice_reads_within : reads_within slice_read (λ source, Z.of_nat (length source)).
Proof. split; [lia|]. intros source b. simpl. rewrite length_drop. lia. Qed.

Lemma slice_writes_within : writes_within slice_write (λ s, Z.of_nat (length s.2)).
Proof. split; [lia|]. intros [done room] b. simpl. rewrite length_drop. lia. Qed.

Lemma empty_reads_within : reads_within empty_read (λ _, 0).
Proof. split; [done|]. intros [] b. simpl. lia. Qed.

End StdIo.

(** ** [limited.rs] *)

Module LimitedReader.

Record t (R : Type) : Type := new { inner : R; remaining : Z }.
Arguments new {R}.
Arguments inner {R}.
Arguments remaining {R}.

Definition read {R : Type} (inner_read : reader R) : reader (t R) := λ self buffer,
  if remaining self =? 0 then (self, buffer, Err (IoError.new ErrorKind.WouldBlock None))
  else
    let length := Z.to_nat (Z.min (Z.of_nat (length buffer)) (remaining self)) in
    let '(inner, head, r) := inner_read (inner self) (take length buffer) in
    match r with
    | Err error => (new inner (remaining self), head ++ drop length buffer, Err error)
    | Ok read =>
        (new inner (u64_saturating_sub (remaining self) read), head ++ drop length buffer, Ok read)
    end.

End LimitedReader.

Module LimitedWriter.

Record t (W : Type) : Type := new { inner : W; remaining : Z }.
Arguments new {W}.
Arguments inner {W}.
Arguments remaining {W}.

Definition write {W : Type} (inner_write : writer W) : writer (t W) := λ self buffer,
  if remaining self =? 0 then (self, Err (IoError.new ErrorKind.WouldBlock None))
  else
    let length := Z.to_nat (Z.min (Z.of_nat (length buffer)) (remaining self)) in
    let '(inner, r) := inner_write (inner self) (take length buffer) in
    match r with
    | Err error => (new inner (remaining self), Err error)
    | Ok written => (new inner (u64_saturating_sub (remaining self) written), Ok written)
    end.

Definition flush {W : Type} (inner_flush : W → W * result unit IoError.t) (self : t W)
    : t W * result unit IoError.t :=
  let '(inner, r) := inner_flush (inner self) in (new inner (remaining self), r).

End LimitedWriter.

(** ** [rustls] *)

(** One connection: [process_new_packets] and its [IoState], the TLS side, and
    the plaintext side through [reader()] and [writer()]. *)
Class RustlsConnection {Cal : Calandria} (RustlsError IoState C : Type) : Type := {
  tls_process_new_packets : C → C * result IoState RustlsError;
  tls_set_buffer_limit : C → option Z → C;
  tls_read : ∀ {R : Type}, reader R → C → R → C * R * result Z IoError.t;
  tls_write : ∀ {W : Type}, writer W → C → W → C * W * result Z IoError.t;
  tls_reader_read : reader C;
  tls_writer_write : writer C;
  tls_wants_read : C → bool;
  tls_wants_write : C → bool;
  tls_is_handshaking : C → bool;
  tls_send_close_notify : C → C;
  tls_alpn_protocol : C → option (list Byte.byte);
}.

Class Rustls {Cal : Calandria} : Type := {
  (** Shared configurations and verified names, never inspected. *)
  ClientConfig : Type;
  ServerConfig : Type;
  ServerName : Type;
  server_name_try_from : list Byte.byte → option ServerName;
  (** [rustls::Error]: the variants [protocol_error] tells apart. *)
  RustlsError : Type;
  err_not_valid_for_name : RustlsError → bool;
  err_unsupported_name_type : RustlsError → bool;
  err_invalid_certificate : RustlsError → bool;
  err_invalid_crl : RustlsError → bool;
  err_no_certificates : RustlsError → bool;
  (** [rustls::IoState]. *)
  IoState : Type;
  io_tls_bytes_to_write : IoState → Z;
  io_plaintext_bytes_to_read : IoState → Z;
  io_peer_has_closed : IoState → bool;
  ClientConnection : Type;
  client_connection :: RustlsConnection RustlsError IoState ClientConnection;
  client_new : ClientConfig → ServerName → result ClientConnection RustlsError;
  ServerConnection : Type;
  server_connection :: RustlsConnection RustlsError IoState ServerConnection;
  server_new : ServerConfig → result ServerConnection RustlsError;
  server_server_name : ServerConnection → option (list Byte.byte);
}.

(** A connection reads and writes TLS by its reader and writer alone, reports
    what it passed, and its plaintext side keeps the contracts of [Read] and
    [Write]. *)
Class RustlsConnectionLaws {Cal : Calandria} {RustlsError IoState C : Type}
    (Conn : RustlsConnection RustlsError IoState C) : Prop := {
  tls_read_within : ∀ {R : Type} (read : reader R) (credit : R → Z) c r c' r' n,
    reads_within read credit → tls_read read c r = (c', r', Ok n) →
    0 ≤ n ∧ n + credit r' ≤ credit r;
  tls_write_within : ∀ {W : Type} (write : writer W) (credit : W → Z) c w c' w' n,
    writes_within write credit → tls_write write c w = (c', w', Ok n) →
    0 ≤ n ∧ n + credit w' ≤ credit w;
  tls_reader_count : ∀ c b n, (tls_reader_read c b).2 = Ok n → 0 ≤ n ≤ Z.of_nat (length b);
  tls_writer_count : ∀ c b n, (tls_writer_write c b).2 = Ok n → 0 ≤ n ≤ Z.of_nat (length b);
}.

(** What a connection has buffered is a count. *)
Class RustlsLaws {Cal : Calandria} (RL : Rustls) : Prop := {
  io_counts : ∀ state, 0 ≤ io_tls_bytes_to_write state ∧ 0 ≤ io_plaintext_bytes_to_read state;
  client_laws :: RustlsConnectionLaws client_connection;
  server_laws :: RustlsConnectionLaws server_connection;
}.

(** ** [diagnostic.rs] *)

Module RustlsDiagnostic.

(** Stable rustls-specific code retained in a Bornera transport diagnostic. *)
Inductive t : Type :=
  | Protocol
  | Certificate
  | ServerName
  | Truncated
  | Capacity
  | CallerState.

Definition code (self : t) : Z :=
  match self with
  | Protocol => 1
  | Certificate => 2
  | ServerName => 3
  | Truncated => 4
  | Capacity => 5
  | CallerState => 6
  end.

Definition from_code (code : Z) : option t :=
  if code =? 1 then Some Protocol
  else if code =? 2 then Some Certificate
  else if code =? 3 then Some ServerName
  else if code =? 4 then Some Truncated
  else if code =? 5 then Some Capacity
  else if code =? 6 then Some CallerState
  else None.

(** The codes are stable: each diagnostic has its own, and no other code is
    one. *)
Lemma code_roundtrip (code' : Z) (d : t) : from_code code' = Some d ↔ code' = code d.
Proof.
  split; [|by intros ->; destruct d].
  unfold from_code. repeat (case_match; [intros [= <-]; simpl; lia|]). done.
Qed.

End RustlsDiagnostic.

Section errors.
Context {Cal : Calandria} {RL : Rustls}.

Definition protocol_error (phase : TransportFailurePhase.t) (error : RustlsError)
    : TransportError.t :=
  let '(failure, code) :=
    if err_not_valid_for_name error || err_unsupported_name_type error
    then (TransportFailureKind.ServerName, RustlsDiagnostic.ServerName)
    else if err_invalid_certificate error || err_invalid_crl error || err_no_certificates error
    then (TransportFailureKind.Certificate, RustlsDiagnostic.Certificate)
    else (TransportFailureKind.Protocol, RustlsDiagnostic.Protocol) in
  TransportError.new
    (TransportDiagnostic.new phase failure ErrorKind.InvalidData (Some (RustlsDiagnostic.code code))).

Definition truncated_error (phase : TransportFailurePhase.t) : TransportError.t :=
  TransportError.new
    (TransportDiagnostic.new phase TransportFailureKind.Truncated ErrorKind.UnexpectedEof
       (Some (RustlsDiagnostic.code RustlsDiagnostic.Truncated))).

Definition caller_state_error (phase : TransportFailurePhase.t) (kind : ErrorKind.t)
    : TransportError.t :=
  TransportError.new
    (TransportDiagnostic.new phase TransportFailureKind.Contract kind
       (Some (RustlsDiagnostic.code RustlsDiagnostic.CallerState))).

End errors.

(** ** [config.rs] *)

Module RustlsTransportLimitsError.
Section rustls_transport_limits_error.
Context {Cal : Calandria}.

(** Invalid rustls transport-memory accounting configuration. *)
Inductive t : Type :=
  | AddressSpace
  | MissingInboundCharge
  | MissingProtocolCharge
  | EgressCharge (minimum supplied : RetainedBytes)
  | PlaintextCharge (minimum supplied : RetainedBytes).

End rustls_transport_limits_error.
End RustlsTransportLimitsError.

Module RustlsTransportLimits.
Section rustls_transport_limits.
Context {Cal : Calandria}.

(** Stable per-connection charges for rustls-owned variable memory. *)
Record t : Type := mk {
  application_write_buffer_bytes : NonZeroUsize;
  max_tls_egress_bytes : NonZeroUsize;
  max_plaintext_bytes : NonZeroUsize;
  pressure : TransportPressure.t;
}.

(** [u64::try_from] of a [usize], as retained bytes. *)
Definition retained_of (v : NonZeroUsize) : option RetainedBytes :=
  if nonzero_get v <=? U64_MAX then Some (rb_new (nonzero_get v)) else None.

Definition new (application_write_buffer_bytes max_tls_egress_bytes max_plaintext_bytes : NonZeroUsize)
    (pressure : TransportPressure.t) : result t RustlsTransportLimitsError.t :=
  if rb_eqb (TransportPressure.inbound pressure) rb_ZERO
  then Err RustlsTransportLimitsError.MissingInboundCharge
  else if rb_eqb (TransportPressure.protocol pressure) rb_ZERO
  then Err RustlsTransportLimitsError.MissingProtocolCharge
  else
  match retained_of application_write_buffer_bytes, retained_of max_plaintext_bytes with
  | None, _ | _, None => Err RustlsTransportLimitsError.AddressSpace
  | Some application_write, Some readable_plaintext =>
  match rb_checked_add application_write readable_plaintext with
  | None => Err RustlsTransportLimitsError.AddressSpace
  | Some minimum_plaintext =>
  if rb_gtb minimum_plaintext (TransportPressure.plaintext pressure)
  then Err (RustlsTransportLimitsError.PlaintextCharge minimum_plaintext
              (TransportPressure.plaintext pressure))
  else
  match retained_of max_tls_egress_bytes with
  | None => Err RustlsTransportLimitsError.AddressSpace
  | Some max_tls_egress =>
  if rb_gtb max_tls_egress (TransportPressure.outbound pressure)
  then Err (RustlsTransportLimitsError.EgressCharge max_tls_egress
              (TransportPressure.outbound pressure))
  else Ok (mk application_write_buffer_bytes max_tls_egress_bytes max_plaintext_bytes pressure)
  end end end.

Definition transport_limits (self : t) : TransportLimits.t :=
  TransportLimits.new (TransportPressure.total (pressure self)).

Context {RL : Rustls}.

(** [validate_state] of [transport.rs]. *)
Definition validate_state (self : t) (state : IoState) (phase : TransportFailurePhase.t)
    : result unit TransportDiagnostic.t :=
  if (nonzero_get (max_tls_egress_bytes self) <? io_tls_bytes_to_write state)
     || (nonzero_get (max_plaintext_bytes self) <? io_plaintext_bytes_to_read state)
  then
    Err (TransportDiagnostic.new phase TransportFailureKind.Capacity ErrorKind.OutOfMemory
           (Some (RustlsDiagnostic.code RustlsDiagnostic.Capacity)))
  else Ok tt.

End rustls_transport_limits.
End RustlsTransportLimits.

Module RustlsConfigError.

(** Invalid logical TLS configuration established before socket acquisition. *)
Inductive t : Type := InvalidServerName.

End RustlsConfigError.

Module RustlsTransportConfig.
Section rustls_transport_config.
Context {Cal : Calandria} {RL : Rustls}.

(** Immutable configuration for one logical TLS server identity. *)
Record t : Type := new {
  client_config : ClientConfig;
  server_name : ServerName;
  limits : RustlsTransportLimits.t;
}.

Definition for_server_name (client : ClientConfig) (server_name : list Byte.byte)
    (limits : RustlsTransportLimits.t) : result t RustlsConfigError.t :=
  match server_name_try_from server_name with
  | None => Err RustlsConfigError.InvalidServerName
  | Some server_name => Ok (new client server_name limits)
  end.

End rustls_transport_config.
End RustlsTransportConfig.

Module RustlsServerConfig.
Section rustls_server_config.
Context {Cal : Calandria} {RL : Rustls}.

(** Shared rustls identity and exact per-session retained-memory policy. *)
Record t : Type := new { server_config : ServerConfig; limits : RustlsTransportLimits.t }.

End rustls_server_config.
End RustlsServerConfig.

Module RustlsConnectError.
Section rustls_connect_error.
Context {Cal : Calandria} {RL : Rustls}.

(** Failure before one rustls transport becomes registered or observable. *)
Inductive t : Type :=
  | Capacity (required supplied : RetainedBytes)
  | Transport (diagnostic : TransportDiagnostic.t)
  | Tls (error : RustlsError)
  | Io (source : IoError.t).

End rustls_connect_error.
End RustlsConnectError.

Module RustlsClientSessionError.
Section rustls_client_session_error.
Context {Cal : Calandria} {RL : Rustls}.

(** Failure before one socket-free rustls client session becomes observable. *)
Inductive t : Type :=
  | Capacity (required supplied : RetainedBytes)
  | Transport (diagnostic : TransportDiagnostic.t)
  | Tls (error : RustlsError).

End rustls_client_session_error.
End RustlsClientSessionError.

Module RustlsServerSessionError.
Section rustls_server_session_error.
Context {Cal : Calandria} {RL : Rustls}.

(** Failure before one socket-free rustls server session becomes observable. *)
Inductive t : Type :=
  | Capacity (required supplied : RetainedBytes)
  | Transport (diagnostic : TransportDiagnostic.t)
  | Tls (error : RustlsError).

End rustls_server_session_error.
End RustlsServerSessionError.

(** ** What the parts guarantee *)

Module TlsSpec.
Section tls_spec.
Context {Cal : Calandria} {Laws : CalandriaLaws Cal}.

(** A limited reader passes at most what remains, whatever it wraps. *)
Lemma limited_reads_within {R : Type} (inner_read : reader R) :
  (∀ r b n, (inner_read r b).2 = Ok n → 0 ≤ n ≤ Z.of_nat (length b)) →
  reads_within (LimitedReader.read inner_read) (λ r, Z.max 0 (LimitedReader.remaining r)).
Proof.
  intros Hinner. split; [lia|]. intros [r remaining] b. unfold LimitedReader.read.
  cbn [LimitedReader.remaining LimitedReader.inner].
  destruct (Z.eqb_spec remaining 0); [simpl; lia|].
  set (length := Z.to_nat _).
  pose proof (Hinner r (take length b)) as Hn.
  destruct (inner_read r (take length b)) as [[r' head] [k|e]]; simpl; [|lia].
  specialize (Hn k eq_refl). rewrite length_take in Hn. unfold u64_saturating_sub. lia.
Qed.

Lemma limited_writes_within {W : Type} (inner_write : writer W) :
  (∀ w b n, (inner_write w b).2 = Ok n → 0 ≤ n ≤ Z.of_nat (length b)) →
  writes_within (LimitedWriter.write inner_write) (λ w, Z.max 0 (LimitedWriter.remaining w)).
Proof.
  intros Hinner. split; [lia|]. intros [w remaining] b. unfold LimitedWriter.write.
  cbn [LimitedWriter.remaining LimitedWriter.inner].
  destruct (Z.eqb_spec remaining 0); [simpl; lia|].
  set (length := Z.to_nat _).
  pose proof (Hinner w (take length b)) as Hn.
  destruct (inner_write w (take length b)) as [w' [k|e]]; simpl; [|lia].
  specialize (Hn k eq_refl). rewrite length_take in Hn. unfold u64_saturating_sub. lia.
Qed.

Import RustlsTransportLimits.

(** Limits are accepted exactly if every charge is there and covers the logical
    bounds; and are then what was asked for. *)
Lemma limits_new_spec w e p pressure :
  0 ≤ nonzero_get w ≤ U64_MAX → 0 ≤ nonzero_get e ≤ U64_MAX → 0 ≤ nonzero_get p ≤ U64_MAX →
  new w e p pressure = Ok (mk w e p pressure) ∧
    0 < rb_get (TransportPressure.inbound pressure) ∧
    0 < rb_get (TransportPressure.protocol pressure) ∧
    nonzero_get w + nonzero_get p ≤ rb_get (TransportPressure.plaintext pressure) ∧
    nonzero_get e ≤ rb_get (TransportPressure.outbound pressure) ∨
  (∃ error, new w e p pressure = Err error) ∧
    (rb_get (TransportPressure.inbound pressure) = 0 ∨
     rb_get (TransportPressure.protocol pressure) = 0 ∨
     rb_get (TransportPressure.plaintext pressure) < nonzero_get w + nonzero_get p ∨
     rb_get (TransportPressure.outbound pressure) < nonzero_get e).
Proof.
  intros Hw He Hp. unfold new, retained_of. rewrite !rb_eqb_spec, rb_get_ZERO.
  rewrite !(proj2 (Z.leb_le _ U64_MAX)) by lia.
  pose proof (rb_get_nonneg (TransportPressure.inbound pressure)).
  pose proof (rb_get_nonneg (TransportPressure.protocol pressure)).
  pose proof (rb_get_range (TransportPressure.plaintext pressure)) as [_ Hmax].
  destruct (Z.eqb_spec (rb_get (TransportPressure.inbound pressure)) 0); [right; eauto|].
  destruct (Z.eqb_spec (rb_get (TransportPressure.protocol pressure)) 0); [right; eauto|].
  rewrite rb_checked_add_spec, !rb_get_new by (unfold in_u64; lia).
  destruct (Z.leb_spec (nonzero_get w + nonzero_get p) U64_MAX); [|right; split; [eauto|lia]].
  rewrite rb_gtb_spec, rb_get_new by (unfold in_u64; lia).
  destruct (Z.ltb_spec (rb_get (TransportPressure.plaintext pressure))
    (nonzero_get w + nonzero_get p)); [right; split; [eauto|lia]|].
  rewrite rb_gtb_spec, rb_get_new by (unfold in_u64; lia).
  destruct (Z.ltb_spec (rb_get (TransportPressure.outbound pressure)) (nonzero_get e));
    [right; split; [eauto|lia]|left; split; [done|lia]].
Qed.

End tls_spec.
End TlsSpec.
