(* ===== verification/TlsTransport.v ===== *)
(** * TLS over native TCP

    [transport.rs], [establish.rs], [tls_io.rs], [application.rs], [port.rs] and
    [connector.rs] of [bornera-rustls]: one nonblocking stream with a bounded
    rustls client connection on it, as a transport of a slot. *)
From Stdlib Require Import ZArith Lia.
From stdpp Require Import prelude.
From S2P Require Import Prelude External Host Config Transport SetHost Tcp Tls.

Module RustlsTransport.
Section rustls_transport.
Context {Cal : Calandria} {H : Host} {SH : SetHost} {SK : Sockets} {RL : Rustls}.

Inductive TransportPhase : Type :=
  | Connecting
  | NoDelay
  | Keepalive
  | Handshaking
  | Open.

Inductive TlsPreference : Type :=
  | Read
  | Write.

Inductive EofState : Type :=
  | Live
  | Clean
  | Truncated.

Inductive ShutdownState : Type :=
  | NotStarted
  | Started.

#[global] Instance phase_eq_dec : EqDecision TransportPhase.
Proof. solve_decision. Defined.
#[global] Instance eof_eq_dec : EqDecision EofState.
Proof. solve_decision. Defined.
#[global] Instance shutdown_eq_dec : EqDecision ShutdownState.
Proof. solve_decision. Defined.

(** One registered TCP source with a bounded rustls client connection. *)
Record t : Type := mk {
  stream : TcpStream;
  tls : ClientConnection;
  phase : TransportPhase;
  readiness : Readiness;
  preference : TlsPreference;
  plaintext_bytes : Z;
  eof : EofState;
  shutdown : ShutdownState;
  limits : RustlsTransportLimits.t;
  pending_error : option TransportDiagnostic.t;
}.

(** Field assignments through [&mut self]. *)
Definition set_stream (self : t) (v : TcpStream) : t :=
  mk v (tls self) (phase self) (readiness self) (preference self) (plaintext_bytes self)
    (eof self) (shutdown self) (limits self) (pending_error self).
Definition set_tls (self : t) (v : ClientConnection) : t :=
  mk (stream self) v (phase self) (readiness self) (preference self) (plaintext_bytes self)
    (eof self) (shutdown self) (limits self) (pending_error self).
Definition set_phase (self : t) (v : TransportPhase) : t :=
  mk (stream self) (tls self) v (readiness self) (preference self) (plaintext_bytes self)
    (eof self) (shutdown self) (limits self) (pending_error self).
Definition set_readiness (self : t) (v : Readiness) : t :=
  mk (stream self) (tls self) (phase self) v (preference self) (plaintext_bytes self)
    (eof self) (shutdown self) (limits self) (pending_error self).
Definition set_preference (self : t) (v : TlsPreference) : t :=
  mk (stream self) (tls self) (phase self) (readiness self) v (plaintext_bytes self)
    (eof self) (shutdown self) (limits self) (pending_error self).
Definition set_plaintext_bytes (self : t) (v : Z) : t :=
  mk (stream self) (tls self) (phase self) (readiness self) (preference self) v
    (eof self) (shutdown self) (limits self) (pending_error self).
Definition set_eof (self : t) (v : EofState) : t :=
  mk (stream self) (tls self) (phase self) (readiness self) (preference self)
    (plaintext_bytes self) v (shutdown self) (limits self) (pending_error self).
Definition set_shutdown (self : t) (v : ShutdownState) : t :=
  mk (stream self) (tls self) (phase self) (readiness self) (preference self)
    (plaintext_bytes self) (eof self) v (limits self) (pending_error self).
Definition set_pending_error (self : t) (v : option TransportDiagnostic.t) : t :=
  mk (stream self) (tls self) (phase self) (readiness self) (preference self)
    (plaintext_bytes self) (eof self) (shutdown self) (limits self) v.

(** A method on [&mut self] that may fail. *)
Notation M := (STE t TransportError.t).

Definition fail {A : Type} (error : TransportError.t) : M A := λ self, (self, Err error).
Definition update (f : t → t) : M unit := λ self, (f self, Ok tt).

(** *** Construction ([transport.rs]) *)

Definition connect (address : SocketAddr) (config : RustlsTransportConfig.t)
    (supplied : TransportLimits.t) : result t RustlsConnectError.t :=
  let limits := RustlsTransportConfig.limits config in
  let required := TransportLimits.retained_bytes (RustlsTransportLimits.transport_limits limits) in
  if rb_gtb required (TransportLimits.retained_bytes supplied)
  then Err (RustlsConnectError.Capacity required (TransportLimits.retained_bytes supplied))
  else
  match client_new (RustlsTransportConfig.client_config config)
          (RustlsTransportConfig.server_name config) with
  | Err error => Err (RustlsConnectError.Tls error)
  | Ok tls =>
  let tls := tls_set_buffer_limit tls
    (Some (nonzero_get (RustlsTransportLimits.application_write_buffer_bytes limits))) in
  match tls_process_new_packets tls with
  | (_, Err error) => Err (RustlsConnectError.Tls error)
  | (tls, Ok state) =>
  match RustlsTransportLimits.validate_state limits state TransportFailurePhase.Establishment with
  | Err diagnostic => Err (RustlsConnectError.Transport diagnostic)
  | Ok _ =>
  match stream_connect address with
  | Err source => Err (RustlsConnectError.Io source)
  | Ok stream =>
      Ok (mk stream tls Connecting readiness_EMPTY Write (io_plaintext_bytes_to_read state) Live
            NotStarted limits None)
  end end end end.

Definition observe (self : t) (ready : Readiness) : t :=
  set_readiness self (readiness_union (readiness self) ready).

Definition refresh_state (phase : TransportFailurePhase.t) : M unit := λ self,
  let '(tls, r) := tls_process_new_packets (tls self) in
  let self := set_tls self tls in
  match r with
  | Err error => (self, Err (protocol_error phase error))
  | Ok state =>
      match RustlsTransportLimits.validate_state (limits self) state phase with
      | Err diagnostic => (self, Err (TransportError.new diagnostic))
      | Ok _ =>
          let self := set_plaintext_bytes self (io_plaintext_bytes_to_read state) in
          (if io_peer_has_closed state then set_eof self Clean else self, Ok tt)
      end
  end.

Definition record_pending_error (self : t) (diagnostic : TransportDiagnostic.t) : t :=
  match pending_error self with
  | Some _ => self
  | None => set_pending_error self (Some diagnostic)
  end.

Definition take_pending_error (self : t) : t * option TransportError.t :=
  (set_pending_error self None, TransportError.new <$> pending_error self).

(** *** Establishment ([establish.rs]) *)

Definition clear_connect (self : t) : t :=
  set_readiness self (readiness_remove (readiness self) connect_flags).

Definition operation : M TransportProgress.t := ste_ret TransportProgress.operation.

Definition complete_connect : M TransportProgress.t := λ self,
  let '(stream, error) := stream_take_error (stream self) in
  let self := set_stream self stream in
  match error with
  | Err source | Ok (Some source) =>
      fail (TransportError.from_io TransportFailurePhase.Connect source) self
  | Ok None =>
      let '(stream, peer) := stream_peer_addr stream in
      let self := set_stream self stream in
      match peer with
      | Ok _ =>
          let self := set_phase self NoDelay in
          operation (set_readiness self (readiness_remove (readiness self) readiness_ERROR))
      | Err source =>
          if bool_decide (IoError.kind source = ErrorKind.NotConnected)
          then operation (clear_connect self)
          else fail (TransportError.from_io TransportFailurePhase.Connect source) self
      end
  end.

Definition apply_no_delay (policy : TcpSocketPolicy.t) : M TransportProgress.t := λ self,
  let '(stream, r) :=
    stream_set_nodelay (stream self)
      (bool_decide (TcpSocketPolicy.no_delay policy = TcpNoDelay.Enabled)) in
  let self := set_stream self stream in
  match r with
  | Err source => fail (TransportError.from_io TransportFailurePhase.SocketPolicy source) self
  | Ok _ =>
      operation
        (set_phase self
           (match TcpSocketPolicy.keepalive_policy policy with
            | Some _ => Keepalive
            | None => Handshaking
            end))
  end.

Definition apply_keepalive (policy : TcpSocketPolicy.t) : M TransportProgress.t := λ self,
  match TcpSocketPolicy.keepalive_policy policy with
  | None => operation (set_phase self Handshaking)
  | Some keepalive =>
      let '(stream, r) := stream_set_keepalive (stream self) (TcpKeepalivePolicy.idle keepalive) in
      let self := set_stream self stream in
      match r with
      | Err source => fail (TransportError.from_io TransportFailurePhase.SocketPolicy source) self
      | Ok _ => operation (set_phase self Handshaking)
      end
  end.

Definition can_connect (self : t) : bool := readiness_intersects (readiness self) connect_flags.

(** *** One TLS operation ([tls_io.rs]) *)

Definition clear_raw_read (self : t) : t :=
  set_readiness self (readiness_remove (readiness self) read_flags).

Definition clear_raw_write (self : t) : t :=
  set_readiness self (readiness_remove (readiness self) write_flags).

Definition can_tls_read (self : t) : bool :=
  bool_decide (eof self = Live)
  && tls_wants_read (tls self)
  && readiness_intersects (readiness self) read_flags.

Definition can_tls_write (self : t) : bool :=
  tls_wants_write (tls self)
  && readiness_intersects (readiness self) write_flags.

(** Truncated, with nothing left to deliver before. *)
Definition is_truncated (self : t) : bool :=
  bool_decide (eof self = Truncated) && (plaintext_bytes self =? 0).

Definition can_tls_progress (self : t) : bool :=
  is_truncated self
  || bool_decide (is_Some (pending_error self))
  || can_tls_read self
  || can_tls_write self.

Definition drive_tls_write (budget : TransportBudget.t) (phase : TransportFailurePhase.t)
    : M TransportProgress.t := λ self,
  let limited := LimitedWriter.new (stream self) (nonzero_get (TransportBudget.write_bytes budget)) in
  let '(tls, limited, r) := tls_write (LimitedWriter.write stream_write) (tls self) limited in
  let self := set_tls (set_stream self (LimitedWriter.inner limited)) tls in
  match r with
  | Ok written =>
      if written =? 0
      then fail (TransportError.from_io phase (IoError.new ErrorKind.WriteZero None)) self
      else
        (update (λ self, set_preference self Read) ;;!
         refresh_state phase ;;!
         ste_ret (TransportProgress.new (mk_nonzero 1) 0 written)) self
  | Err source =>
      if bool_decide (IoError.kind source = ErrorKind.WouldBlock)
      then operation (clear_raw_write self)
      else fail (TransportError.from_io phase source) self
  end.

Definition drive_tls_read (budget : TransportBudget.t) (phase : TransportFailurePhase.t)
    : M TransportProgress.t := λ self,
  let limited := LimitedReader.new (stream self) (nonzero_get (TransportBudget.read_bytes budget)) in
  let '(tls, limited, r) := tls_read (LimitedReader.read stream_read) (tls self) limited in
  let self := set_tls (set_stream self (LimitedReader.inner limited)) tls in
  match r with
  | Ok read =>
      if read =? 0 then
        let self := clear_raw_read self in
        let self := set_eof self (match eof self with Clean => Clean | _ => Truncated end) in
        if is_truncated self then fail (truncated_error phase) self else operation self
      else
        (refresh_state phase ;;!
         update (λ self, set_preference self Write) ;;!
         ste_ret (TransportProgress.new (mk_nonzero 1) read 0)) self
  | Err source =>
      if bool_decide (IoError.kind source = ErrorKind.WouldBlock)
      then operation (clear_raw_read self)
      else fail (TransportError.from_io phase source) self
  end.

Definition drive_tls_once (budget : TransportBudget.t) (read_phase write_phase : TransportFailurePhase.t)
    : M TransportProgress.t := λ self,
  match take_pending_error self with
  | (self, Some error) => fail error self
  | (self, None) =>
      if is_truncated self then fail (truncated_error read_phase) self
      else
        match preference self, can_tls_read self, can_tls_write self with
        | Read, true, _ | _, true, false => drive_tls_read budget read_phase self
        | Write, _, true | _, false, true => drive_tls_write budget write_phase self
        | _, _, _ => (self, Ok TransportProgress.IDLE)
        end
  end.

(** *** Application plaintext ([application.rs]) *)

Definition can_read_plaintext (self : t) : bool :=
  negb (plaintext_bytes self =? 0) || bool_decide (eof self = Clean).

Definition can_raw_write (self : t) : bool := readiness_intersects (readiness self) write_flags.

Definition can_accept_plaintext (self : t) : bool :=
  negb (tls_wants_write (tls self)) && can_raw_write self.

Definition read (self : t) (buffer : list Byte.byte) : t * list Byte.byte * result Z IoError.t :=
  let '(tls, buffer, r) := tls_reader_read (tls self) buffer in
  let self := set_tls self tls in
  match r with
  | Err error => (self, buffer, Err error)
  | Ok read =>
      (set_plaintext_bytes self (u64_saturating_sub (plaintext_bytes self) read), buffer, Ok read)
  end.

Definition would_block : IoError.t := IoError.new ErrorKind.WouldBlock None.

Definition write (self : t) (buffer : list Byte.byte) : t * result Z IoError.t :=
  match buffer with
  | [] => (self, Ok 0)
  | _ =>
      if negb (can_accept_plaintext self) then (self, Err would_block)
      else
        let '(tls, r) := tls_writer_write (tls self) buffer in
        let self := set_tls self tls in
        match r with
        | Err error => (self, Err error)
        | Ok written =>
            if written =? 0 then (self, Err would_block)
            else
              match refresh_state TransportFailurePhase.Write self with
              | (self, Err error) =>
                  (record_pending_error self (TransportError.diagnostic error), Ok written)
              | (self, Ok _) => (self, Ok written)
              end
        end
  end.

Definition flush (self : t) : result unit IoError.t :=
  if tls_wants_write (tls self) then Err would_block else Ok tt.

(** *** The transport ([port.rs]) *)

Definition is_open (self : t) : bool := bool_decide (phase self = Open).

Definition drive_establishment (policy : TcpSocketPolicy.t) (budget : TransportBudget.t)
    : M TransportProgress.t :=
  let! progress := λ self,
    match phase self with
    | Connecting => complete_connect self
    | NoDelay => apply_no_delay policy self
    | Keepalive => apply_keepalive policy self
    | Handshaking =>
        drive_tls_once budget TransportFailurePhase.Establishment
          TransportFailurePhase.Establishment self
    | Open => (self, Ok TransportProgress.IDLE)
    end in
  λ self,
    (if bool_decide (phase self = Handshaking)
        && negb (tls_is_handshaking (tls self))
        && negb (tls_wants_write (tls self))
     then set_phase self Open else self, Ok progress).

Definition drive_transport (budget : TransportBudget.t) : M TransportProgress.t := λ self,
  match shutdown self with
  | Started => drive_tls_write budget TransportFailurePhase.Shutdown self
  | NotStarted =>
      drive_tls_once budget TransportFailurePhase.TransportRead TransportFailurePhase.TransportWrite
        self
  end.

Definition begin_shutdown : M TransportProgress.t :=
  update (λ self, set_tls self (tls_send_close_notify (tls self))) ;;!
  update (λ self, set_shutdown self Started) ;;!
  refresh_state TransportFailurePhase.Shutdown ;;!
  operation.

Definition can_establish (self : t) : bool :=
  match phase self with
  | Connecting => can_connect self
  | NoDelay | Keepalive => true
  | Handshaking => can_tls_progress self
  | Open => false
  end.

Definition has_transport_work (self : t) : bool :=
  match shutdown self with
  | Started => can_tls_write self
  | NotStarted => can_tls_progress self
  end.

Definition is_shutdown_complete (self : t) : bool :=
  bool_decide (shutdown self = Started) && negb (tls_wants_write (tls self)).

Definition can_read (self : t) : bool := is_open self && can_read_plaintext self.

Definition can_write (self : t) : bool :=
  is_open self && bool_decide (shutdown self = NotStarted) && can_accept_plaintext self.

Definition desired_interest (self : t) (has_writes : bool) : Interest :=
  match phase self with
  | Connecting | NoDelay | Keepalive => interest_READ_WRITE
  | Handshaking | Open =>
      let read :=
        bool_decide (shutdown self = NotStarted)
        && bool_decide (eof self = Live)
        && tls_wants_read (tls self) in
      let write :=
        tls_wants_write (tls self)
        || (bool_decide (phase self = Open) && bool_decide (shutdown self = NotStarted)
            && has_writes) in
      match read, write with
      | true, true => interest_READ_WRITE
      | false, true => interest_WRITABLE
      | _, _ => interest_READABLE
      end
  end.

#[global] Instance slot_transport : SlotTransport t := {
  tr_read := read;
  tr_write := write;
  tr_drive_establishment self policy budget := drive_establishment policy budget self;
  tr_drive_transport self budget := drive_transport budget self;
  tr_begin_shutdown self _ := begin_shutdown self;
  tr_can_establish := can_establish;
  tr_has_transport_work := has_transport_work;
  tr_is_shutdown_complete := is_shutdown_complete;
  tr_is_open := is_open;
  tr_can_read := can_read;
  tr_can_write := can_write;
  tr_desired_interest := desired_interest;
  tr_pressure self := RustlsTransportLimits.pressure (limits self);
  tr_pressure_limit self := RustlsTransportLimits.transport_limits (limits self);
  tr_clear_read := clear_raw_read;
  tr_clear_write := clear_raw_write;
}.

(** The registration calls of [Source] are those of the stream. *)
Definition registered_transport (source : Source t) : RegisteredTransport t := {|
  rt_source := source;
  rt_observe_readiness := observe;
|}.

End rustls_transport.
End RustlsTransport.

(** ** [connector.rs] *)

Module RustlsConnector.
Section rustls_connector.
Context {Cal : Calandria} {H : Host} {SH : SetHost} {SK : Sockets} {RL : Rustls}.

(** Cloneable per-attempt connector retaining TLS identity and bounded
    configuration. *)
Record t : Type := new { config : RustlsTransportConfig.t }.

Definition connect_io_error (error : RustlsConnectError.t) : IoError.t :=
  match error with
  | RustlsConnectError.Io source => source
  | RustlsConnectError.Transport diagnostic => IoError.new (TransportDiagnostic.kind diagnostic) None
  | RustlsConnectError.Capacity _ _ | RustlsConnectError.Tls _ =>
      IoError.new ErrorKind.InvalidInput None
  end.

#[global] Instance connector : TransportConnector t RustlsTransport.t := {
  connector_connect self address limits :=
    match RustlsTransport.connect address (config self) limits with
    | Ok transport => Ok transport
    | Err error => Err (connect_io_error error)
    end;
}.

End rustls_connector.
End RustlsConnector.
