(* ===== verification/TlsSession.v ===== *)
(** * TLS sessions without a socket

    [client_session.rs], [client_io.rs], [client_status.rs] and the server's
    files of the same shape in [bornera-rustls]: a bounded rustls connection
    whose owner hands it ciphertext and takes ciphertext from it. The client's
    files and the server's are the same code over the two connection types of
    rustls, so that it is written once, over any [RustlsConnection]; what
    differs is in [RustlsClientSession] and [RustlsServerSession]. *)
From Stdlib Require Import ZArith Lia.
From stdpp Require Import prelude.
From S2P Require Import Prelude External Host Config Transport Tls.

(** ** Status ([client_status.rs], [server_status.rs]) *)

Module RustlsPeerClosure.

(** Authenticated peer-input termination observed by a TLS session. *)
Inductive t : Type :=
  | Open
  | Clean
  | Truncated.

#[global] Instance eq_dec : EqDecision t.
Proof. solve_decision. Defined.

End RustlsPeerClosure.

Module RustlsStatus.

Definition STATUS_HANDSHAKING : Z := Z.shiftl 1 0.
Definition STATUS_OPEN : Z := Z.shiftl 1 1.
Definition STATUS_WANTS_READ : Z := Z.shiftl 1 2.
Definition STATUS_WANTS_WRITE : Z := Z.shiftl 1 3.
Definition STATUS_CLOSE_NOTIFY_SENT : Z := Z.shiftl 1 4.

(** Exact bounded state needed by an external socket and lifecycle owner. *)
Record t : Type := mk {
  flags : Z;
  readable_plaintext_bytes : Z;
  tls_egress_bytes : Z;
  peer_closure : RustlsPeerClosure.t;
  failure : option TransportDiagnostic.t;
}.

Definition is_handshaking (self : t) : bool := negb (Z.land (flags self) STATUS_HANDSHAKING =? 0).
Definition is_handshake_complete (self : t) : bool := negb (is_handshaking self).
Definition is_open (self : t) : bool := negb (Z.land (flags self) STATUS_OPEN =? 0).
Definition wants_read (self : t) : bool := negb (Z.land (flags self) STATUS_WANTS_READ =? 0).
Definition wants_write (self : t) : bool := negb (Z.land (flags self) STATUS_WANTS_WRITE =? 0).
Definition close_notify_sent (self : t) : bool :=
  negb (Z.land (flags self) STATUS_CLOSE_NOTIFY_SENT =? 0).

End RustlsStatus.

(** ** Sessions *)

Module RustlsSession.
Section rustls_session.
Context {Cal : Calandria} {RL : Rustls} {C : Type} {Conn : RustlsConnection RustlsError IoState C}.

(** One bounded rustls connection without a socket, clock, task, or runtime. *)
Record t : Type := mk {
  tls : C;
  limits : RustlsTransportLimits.t;
  plaintext_bytes : Z;
  tls_egress_bytes : Z;
  peer_closure : RustlsPeerClosure.t;
  opened : bool;
  close_notify_sent : bool;
  failure : option TransportDiagnostic.t;
}.

(** Field assignments through [&mut self]. *)
Definition set_tls (self : t) (v : C) : t :=
  mk v (limits self) (plaintext_bytes self) (tls_egress_bytes self) (peer_closure self)
    (opened self) (close_notify_sent self) (failure self).
Definition set_plaintext_bytes (self : t) (v : Z) : t :=
  mk (tls self) (limits self) v (tls_egress_bytes self) (peer_closure self)
    (opened self) (close_notify_sent self) (failure self).
Definition set_tls_egress_bytes (self : t) (v : Z) : t :=
  mk (tls self) (limits self) (plaintext_bytes self) v (peer_closure self)
    (opened self) (close_notify_sent self) (failure self).
Definition set_peer_closure (self : t) (v : RustlsPeerClosure.t) : t :=
  mk (tls self) (limits self) (plaintext_bytes self) (tls_egress_bytes self) v
    (opened self) (close_notify_sent self) (failure self).
Definition set_opened (self : t) (v : bool) : t :=
  mk (tls self) (limits self) (plaintext_bytes self) (tls_egress_bytes self) (peer_closure self)
    v (close_notify_sent self) (failure self).
Definition set_close_notify_sent (self : t) (v : bool) : t :=
  mk (tls self) (limits self) (plaintext_bytes self) (tls_egress_bytes self) (peer_closure self)
    (opened self) v (failure self).
Definition set_failure (self : t) (v : option TransportDiagnostic.t) : t :=
  mk (tls self) (limits self) (plaintext_bytes self) (tls_egress_bytes self) (peer_closure self)
    (opened self) (close_notify_sent self) v.

(** *** [client_session.rs], [server_session.rs] *)

(** The construction both kinds of session share: everything after the capacity
    check and the connection itself. *)
Definition start (limits : RustlsTransportLimits.t) (tls : C)
    : result t (TransportDiagnostic.t + RustlsError) :=
  let tls := tls_set_buffer_limit tls
    (Some (nonzero_get (RustlsTransportLimits.application_write_buffer_bytes limits))) in
  match tls_process_new_packets tls with
  | (_, Err error) => Err (inr error)
  | (tls, Ok state) =>
      match RustlsTransportLimits.validate_state limits state TransportFailurePhase.Establishment with
      | Err diagnostic => Err (inl diagnostic)
      | Ok _ =>
          Ok (mk tls limits (io_plaintext_bytes_to_read state) (io_tls_bytes_to_write state)
                RustlsPeerClosure.Open false false None)
      end
  end.

Definition flag (b : bool) (bit : Z) : Z := (if b then 1 else 0) * bit.

Definition status (self : t) : RustlsStatus.t :=
  let failed := bool_decide (is_Some (failure self)) in
  let wants_read :=
    tls_wants_read (tls self) && bool_decide (peer_closure self = RustlsPeerClosure.Open)
    && negb failed in
  let flags :=
    Z.lor (Z.lor (Z.lor (Z.lor
      (flag (tls_is_handshaking (tls self)) RustlsStatus.STATUS_HANDSHAKING)
      (flag (opened self && negb (close_notify_sent self) && negb failed) RustlsStatus.STATUS_OPEN))
      (flag wants_read RustlsStatus.STATUS_WANTS_READ))
      (flag (tls_wants_write (tls self)) RustlsStatus.STATUS_WANTS_WRITE))
      (flag (close_notify_sent self) RustlsStatus.STATUS_CLOSE_NOTIFY_SENT) in
  RustlsStatus.mk flags (plaintext_bytes self) (tls_egress_bytes self) (peer_closure self)
    (failure self).

Definition pressure (self : t) : TransportPressure.t := RustlsTransportLimits.pressure (limits self).

Definition alpn_protocol (self : t) : option (list Byte.byte) := tls_alpn_protocol (tls self).

(** A method on [&mut self] that may fail. *)
Definition Step (A : Type) : Type := t * result A TransportError.t.

Definition refresh (phase : TransportFailurePhase.t) (self : t) : Step unit :=
  let '(tls, r) := tls_process_new_packets (tls self) in
  let self := set_tls self tls in
  match r with
  | Err error => (self, Err (protocol_error phase error))
  | Ok state =>
      match RustlsTransportLimits.validate_state (limits self) state phase with
      | Err diagnostic => (self, Err (TransportError.new diagnostic))
      | Ok _ =>
          let self := set_plaintext_bytes self (io_plaintext_bytes_to_read state) in
          let self := set_tls_egress_bytes self (io_tls_bytes_to_write state) in
          let self :=
            if io_peer_has_closed state then set_peer_closure self RustlsPeerClosure.Clean
            else self in
          (if negb (tls_is_handshaking tls) && negb (tls_wants_write tls)
           then set_opened self true else self, Ok tt)
      end
  end.

Definition ensure_progressing (self : t) : result unit TransportError.t :=
  match failure self with
  | Some diagnostic => Err (TransportError.new diagnostic)
  | None => Ok tt
  end.

(** [get_or_insert]: the first failure stays. *)
Definition record_failure (self : t) (diagnostic : TransportDiagnostic.t) : t :=
  match failure self with
  | Some _ => self
  | None => set_failure self (Some diagnostic)
  end.

Definition latch (self : t) (diagnostic : TransportDiagnostic.t) : t * TransportError.t :=
  (record_failure self diagnostic, TransportError.new diagnostic).

(** [Err(self.latch(diagnostic))]. *)
Definition latched {A : Type} (self : t) (diagnostic : TransportDiagnostic.t) : Step A :=
  let '(self, error) := latch self diagnostic in (self, Err error).

Definition read_phase (self : t) : TransportFailurePhase.t :=
  if tls_is_handshaking (tls self) then TransportFailurePhase.Establishment
  else TransportFailurePhase.TransportRead.

Definition write_phase (self : t) : TransportFailurePhase.t :=
  if tls_is_handshaking (tls self) then TransportFailurePhase.Establishment
  else if close_notify_sent self then TransportFailurePhase.Shutdown
  else TransportFailurePhase.TransportWrite.

(** [usize::try_from(bytes).unwrap_or(usize::MAX)]. *)
Definition ingress_limit (self : t) : Z :=
  let bytes := rb_get (TransportPressure.inbound (pressure self)) in
  if bytes <=? USIZE_MAX then bytes else USIZE_MAX.

(** *** [client_io.rs], [server_io.rs] *)

Definition ingest_tls (self : t) (ciphertext : list Byte.byte) : Step Z :=
  match ciphertext with
  | [] => (self, Ok 0)
  | _ =>
  match ensure_progressing self with
  | Err error => (self, Err error)
  | Ok _ =>
  if negb (bool_decide (peer_closure self = RustlsPeerClosure.Open))
  then (self, Err (caller_state_error (read_phase self) ErrorKind.InvalidInput))
  else
    let length := Z.to_nat (Z.min (Z.of_nat (length ciphertext)) (ingress_limit self)) in
    let phase := read_phase self in
    let '(tls, _, r) := tls_read StdIo.slice_read (tls self) (take length ciphertext) in
    let self := set_tls self tls in
    match r with
    | Err error => (self, Err (TransportError.from_io phase error))
    | Ok read =>
        match refresh phase self with
        | (self, Err error) => latched self (TransportError.diagnostic error)
        | (self, Ok _) => (self, Ok read)
        end
    end
  end end.

(** The buffer the call leaves comes with the result. *)
Definition read_plaintext (self : t) (output : list Byte.byte)
    : t * list Byte.byte * result Z TransportError.t :=
  match output with
  | [] => (self, output, Ok 0)
  | _ =>
  match ensure_progressing self with
  | Err error => (self, output, Err error)
  | Ok _ =>
  if bool_decide (peer_closure self = RustlsPeerClosure.Truncated) && (plaintext_bytes self =? 0)
  then
    let '(self, r) := latched self (TransportError.diagnostic (truncated_error (read_phase self))) in
    (self, output, r)
  else
    let '(tls, output, r) := tls_reader_read (tls self) output in
    let self := set_tls self tls in
    match r with
    | Ok read =>
        (set_plaintext_bytes self (u64_saturating_sub (plaintext_bytes self) read), output, Ok read)
    | Err error =>
        match IoError.kind error with
        | ErrorKind.UnexpectedEof =>
            let self := set_peer_closure self RustlsPeerClosure.Truncated in
            let '(self, r) :=
              latched self (TransportError.diagnostic (truncated_error (read_phase self))) in
            (self, output, r)
        | ErrorKind.WouldBlock =>
            (self, output, Err (caller_state_error TransportFailurePhase.Read ErrorKind.WouldBlock))
        | _ =>
            let '(self, r) :=
              latched self
                (TransportError.diagnostic (TransportError.from_io TransportFailurePhase.Read error)) in
            (self, output, r)
        end
    end
  end end.

Definition write_plaintext (self : t) (plaintext : list Byte.byte) : Step Z :=
  match plaintext with
  | [] => (self, Ok 0)
  | _ =>
  match ensure_progressing self with
  | Err error => (self, Err error)
  | Ok _ =>
  if negb (opened self) || close_notify_sent self
  then (self, Err (caller_state_error TransportFailurePhase.Write ErrorKind.InvalidInput))
  else
    let '(tls, r) := tls_writer_write (tls self) plaintext in
    let self := set_tls self tls in
    match r with
    | Err error => (self, Err (TransportError.from_io TransportFailurePhase.Write error))
    | Ok written =>
        match refresh TransportFailurePhase.Write self with
        | (self, Err error) => (record_failure self (TransportError.diagnostic error), Ok written)
        | (self, Ok _) => (self, Ok written)
        end
    end
  end end.

(** The buffer the call leaves comes with the result. *)
Definition drain_tls (self : t) (output : list Byte.byte)
    : t * list Byte.byte * result Z TransportError.t :=
  match output with
  | [] => (self, output, Ok 0)
  | _ =>
  if negb (tls_wants_write (tls self)) then (self, output, Ok 0)
  else
    let phase := write_phase self in
    let '(tls, (head, rest), r) := tls_write StdIo.slice_write (tls self) ([], output) in
    let self := set_tls self tls in
    match r with
    | Err error => (self, head ++ rest, Err (TransportError.from_io phase error))
    | Ok written =>
        match failure self with
        | None =>
            match refresh phase self with
            | (self, Err error) =>
                (record_failure self (TransportError.diagnostic error), head ++ rest, Ok written)
            | (self, Ok _) => (self, head ++ rest, Ok written)
            end
        | Some _ =>
            (set_tls_egress_bytes self (u64_saturating_sub (tls_egress_bytes self) written),
             head ++ rest, Ok written)
        end
    end
  end.

(** The end of [finish_input], once the peer's input is known to have ended. *)
Definition finish_truncated (self : t) : Step unit :=
  if plaintext_bytes self =? 0
  then latched self (TransportError.diagnostic (truncated_error (read_phase self)))
  else (self, Ok tt).

Definition finish_input (self : t) : Step unit :=
  match ensure_progressing self with
  | Err error => (self, Err error)
  | Ok _ =>
  match peer_closure self with
  | RustlsPeerClosure.Clean => (self, Ok tt)
  | RustlsPeerClosure.Truncated => finish_truncated self
  | RustlsPeerClosure.Open =>
      let phase := read_phase self in
      let '(tls, _, r) := tls_read StdIo.empty_read (tls self) tt in
      let self := set_tls self tls in
      match r with
      | Err error => (self, Err (TransportError.from_io phase error))
      | Ok _ =>
          match refresh phase self with
          | (self, Err error) => latched self (TransportError.diagnostic error)
          | (self, Ok _) =>
              finish_truncated
                (if bool_decide (peer_closure self = RustlsPeerClosure.Clean) then self
                 else set_peer_closure self RustlsPeerClosure.Truncated)
          end
      end
  end end.

Definition send_close_notify (self : t) : Step unit :=
  match ensure_progressing self with
  | Err error => (self, Err error)
  | Ok _ =>
  if close_notify_sent self then (self, Ok tt)
  else if negb (opened self)
  then (self, Err (caller_state_error TransportFailurePhase.Shutdown ErrorKind.InvalidInput))
  else
    let self := set_tls self (tls_send_close_notify (tls self)) in
    let self := set_close_notify_sent self true in
    match refresh TransportFailurePhase.Shutdown self with
    | (self, Err error) => latched self (TransportError.diagnostic error)
    | (self, Ok _) => (self, Ok tt)
    end
  end.

End rustls_session.
Arguments t {Cal} C.
End RustlsSession.

(** ** The client and the server *)

Module RustlsClientSession.
Section rustls_client_session.
Context {Cal : Calandria} {RL : Rustls}.

Definition t : Type := RustlsSession.t ClientConnection.

Definition new (config : RustlsTransportConfig.t) (supplied : TransportLimits.t)
    : result t RustlsClientSessionError.t :=
  let limits := RustlsTransportConfig.limits config in
  let required := TransportLimits.retained_bytes (RustlsTransportLimits.transport_limits limits) in
  if rb_gtb required (TransportLimits.retained_bytes supplied)
  then Err (RustlsClientSessionError.Capacity required (TransportLimits.retained_bytes supplied))
  else
  match client_new (RustlsTransportConfig.client_config config)
          (RustlsTransportConfig.server_name config) with
  | Err error => Err (RustlsClientSessionError.Tls error)
  | Ok tls =>
      match RustlsSession.start limits tls with
      | Ok self => Ok self
      | Err (inl diagnostic) => Err (RustlsClientSessionError.Transport diagnostic)
      | Err (inr error) => Err (RustlsClientSessionError.Tls error)
      end
  end.

End rustls_client_session.
End RustlsClientSession.

Module RustlsServerStatus.

Definition t : Type := RustlsStatus.t.
Definition is_handshaking : t → bool := RustlsStatus.is_handshaking.
Definition is_open : t → bool := RustlsStatus.is_open.
Definition wants_read : t → bool := RustlsStatus.wants_read.
Definition wants_write : t → bool := RustlsStatus.wants_write.
Definition close_notify_sent : t → bool := RustlsStatus.close_notify_sent.

End RustlsServerStatus.

Module RustlsServerSession.
Section rustls_server_session.
Context {Cal : Calandria} {RL : Rustls}.

Definition t : Type := RustlsSession.t ServerConnection.

Definition new (config : RustlsServerConfig.t) (supplied : TransportLimits.t)
    : result t RustlsServerSessionError.t :=
  let limits := RustlsServerConfig.limits config in
  let required := TransportLimits.retained_bytes (RustlsTransportLimits.transport_limits limits) in
  if rb_gtb required (TransportLimits.retained_bytes supplied)
  then Err (RustlsServerSessionError.Capacity required (TransportLimits.retained_bytes supplied))
  else
  match server_new (RustlsServerConfig.server_config config) with
  | Err error => Err (RustlsServerSessionError.Tls error)
  | Ok tls =>
      match RustlsSession.start limits tls with
      | Ok self => Ok self
      | Err (inl diagnostic) => Err (RustlsServerSessionError.Transport diagnostic)
      | Err (inr error) => Err (RustlsServerSessionError.Tls error)
      end
  end.

Definition server_name (self : t) : option (list Byte.byte) :=
  server_server_name (RustlsSession.tls self).

(** The methods of the server's files, at the server's connection. *)
Definition status : t → RustlsServerStatus.t := RustlsSession.status.
Definition refresh : TransportFailurePhase.t → t → RustlsSession.Step unit := RustlsSession.refresh.
Definition ensure_progressing : t → result unit TransportError.t := RustlsSession.ensure_progressing.
Definition latch : t → TransportDiagnostic.t → t * TransportError.t := RustlsSession.latch.
Definition read_phase : t → TransportFailurePhase.t := RustlsSession.read_phase.
Definition write_phase : t → TransportFailurePhase.t := RustlsSession.write_phase.
Definition ingress_limit : t → Z := RustlsSession.ingress_limit.
Definition ingest_tls : t → list Byte.byte → RustlsSession.Step Z := RustlsSession.ingest_tls.
Definition read_plaintext : t → list Byte.byte → t * list Byte.byte * result Z TransportError.t :=
  RustlsSession.read_plaintext.
Definition write_plaintext : t → list Byte.byte → RustlsSession.Step Z :=
  RustlsSession.write_plaintext.
Definition drain_tls : t → list Byte.byte → t * list Byte.byte * result Z TransportError.t :=
  RustlsSession.drain_tls.
Definition finish_input : t → RustlsSession.Step unit := RustlsSession.finish_input.
Definition send_close_notify : t → RustlsSession.Step unit := RustlsSession.send_close_notify.

End rustls_server_session.
End RustlsServerSession.
