(* ===== verification/TlsTheorems.v ===== *)
(** * What TCP and TLS transports guarantee

    The native and the TLS transport satisfy the contract every theorem about
    slots asks of a transport; TLS connections keep within their limits until
    they fail, end the peer's input only as authenticated, and fail once. *)
From Stdlib Require Import ZArith Lia.
From stdpp Require Import prelude.
From S2P Require Import Prelude External Host Config Transport SetHost SetStanding.
From S2P Require Import Tcp Tls TlsTransport TlsSession.

(** ** What a connection was told of its peer, and what it holds *)

Module Authenticity.
Section authenticity.
Context {Cal : Calandria} {RL : Rustls} {C : Type} {Conn : RustlsConnection RustlsError IoState C}.

(** A property of connections that holds of every one whose peer closed with an
    authenticated [close_notify], and is never lost: the least such property is
    that the peer has closed. *)
Record learned (closed : C → Prop) : Prop := mk_learned {
  ln_told : ∀ c c' state, tls_process_new_packets c = (c', Ok state) →
    io_peer_has_closed state = true → closed c';
  ln_process : ∀ c, closed c → closed (tls_process_new_packets c).1;
  ln_read : ∀ R (read : reader R) c r, closed c → closed (tls_read read c r).1.1;
  ln_write : ∀ W (write : writer W) c w, closed c → closed (tls_write write c w).1.1;
  ln_reader : ∀ c b, closed c → closed (tls_reader_read c b).1.1;
  ln_writer : ∀ c b, closed c → closed (tls_writer_write c b).1;
  ln_notify : ∀ c, closed c → closed (tls_send_close_notify c);
}.

(** A property of the bytes a connection holds that is measured against the
    limits: what a connection reports of itself after it processed packets
    decides it, and it is kept by moving ciphertext in or out, by taking
    plaintext, and by a write that accepts nothing. A write that accepts
    something, and a [close_notify], may break it. *)
Record measured (lims : RustlsTransportLimits.t) (contained : C → Prop) : Prop := mk_measured {
  me_process : ∀ c c' state, tls_process_new_packets c = (c', Ok state) →
    io_tls_bytes_to_write state ≤
      nonzero_get (RustlsTransportLimits.max_tls_egress_bytes lims) →
    io_plaintext_bytes_to_read state ≤
      nonzero_get (RustlsTransportLimits.max_plaintext_bytes lims) → contained c';
  me_read : ∀ R (read : reader R) c r, contained c → contained (tls_read read c r).1.1;
  me_write : ∀ W (write : writer W) c w, contained c → contained (tls_write write c w).1.1;
  me_reader : ∀ c b, contained c → contained (tls_reader_read c b).1.1;
  me_writer : ∀ c b, contained c → (∀ n, (tls_writer_write c b).2 = Ok n → n = 0) →
    contained (tls_writer_write c b).1;
}.

Context {RLaws : RustlsLaws RL}.

(** A state that was validated is within the limits. *)
Lemma validate_spec limits state phase :
  RustlsTransportLimits.validate_state limits state phase = Ok tt →
  0 ≤ io_tls_bytes_to_write state ≤
    nonzero_get (RustlsTransportLimits.max_tls_egress_bytes limits) ∧
  0 ≤ io_plaintext_bytes_to_read state ≤
    nonzero_get (RustlsTransportLimits.max_plaintext_bytes limits).
Proof.
  unfold RustlsTransportLimits.validate_state. pose proof (io_counts state) as [? ?].
  destruct (Z.ltb_spec (nonzero_get (RustlsTransportLimits.max_tls_egress_bytes limits))
    (io_tls_bytes_to_write state)); [done|].
  destruct (Z.ltb_spec (nonzero_get (RustlsTransportLimits.max_plaintext_bytes limits))
    (io_plaintext_bytes_to_read state)); [done|]. lia.
Qed.

End authenticity.
End Authenticity.

(** ** The TLS transport *)

Module TlsTransportSpec.
Section tls_transport_spec.
Context {Cal : Calandria} {H : Host} {SH : SetHost} {SK : Sockets} {RL : Rustls}.
Context {Laws : CalandriaLaws Cal} {SLaws : SocketLaws SK} {RLaws : RustlsLaws RL}.
Context (lims : RustlsTransportLimits.t).
Context (closed : ClientConnection → Prop) (Hclosed : Authenticity.learned closed).
Import RustlsTransport Authenticity.

(** Between two calls: the limits are those of the construction, the plaintext
    is within them, and the input ended cleanly only if the peer said so. *)
Record holds (self : t) : Prop := mk_holds {
  ho_limits : limits self = lims;
  ho_plaintext : 0 ≤ plaintext_bytes self ≤
    nonzero_get (RustlsTransportLimits.max_plaintext_bytes lims);
  ho_clean : eof self = Clean → closed (tls self);
}.

Definition preserves {A : Type} (f : STE t TransportError.t A) : Prop :=
  ∀ self, holds self → holds (f self).1.

Lemma preserves_bind {A B : Type} (f : STE t TransportError.t A) (k : A → STE t _ B) :
  preserves f → (∀ a, preserves (k a)) → preserves (ste_bind f k).
Proof.
  intros Hf Hk self Hs. specialize (Hf self Hs). unfold ste_bind.
  destruct (f self) as [self' [a|e]]; [by apply Hk|done].
Qed.

Lemma preserves_ret {A : Type} (a : A) : preserves (ste_ret a).
Proof. by intros self. Qed.

(** Calls of the connection that tell nothing new. *)
Lemma holds_tls self c : holds self → (closed (tls self) → closed c) → holds (set_tls self c).
Proof. intros [Hl Hp Hc] Hi. split; try done. simpl. auto. Qed.

Lemma holds_fields self self' :
  holds self → limits self' = limits self → plaintext_bytes self' = plaintext_bytes self →
  eof self' = eof self → tls self' = tls self → holds self'.
Proof. intros [Hl Hp Hc] H1 H2 H3 H4. split; rewrite ?H1, ?H2, ?H3, ?H4; done. Qed.

Lemma refresh_holds phase : preserves (refresh_state phase).
Proof.
  intros self Hs. unfold refresh_state.
  destruct (tls_process_new_packets (tls self)) as [c r] eqn:Hp.
  assert (holds (set_tls self c)) as Hs1.
  { apply holds_tls; [done|]. intros Hc. apply (ln_process _ Hclosed) in Hc. by rewrite Hp in Hc. }
  destruct r as [state|e]; [|done]. cbn [limits set_tls].
  destruct (RustlsTransportLimits.validate_state _ _ _) as [[]|d] eqn:Hv; [|done].
  apply validate_spec in Hv as [_ Hv]. rewrite (ho_limits _ Hs) in Hv. destruct Hs1 as [Hl _ Hc].
  destruct (io_peer_has_closed state) eqn:Hclose; split; try done.
  intros _. by apply (ln_told _ Hclosed _ _ _ Hp).
Qed.

Lemma write_holds budget phase : preserves (drive_tls_write budget phase).
Proof.
  intros self Hs. unfold drive_tls_write.
  pose proof (ln_write _ Hclosed _ (LimitedWriter.write stream_write) (tls self)
    (LimitedWriter.new (stream self) (nonzero_get (TransportBudget.write_bytes budget)))) as Hw.
  destruct (tls_write _ _ _) as [[c limited] r]. cbn [fst] in Hw.
  set (self1 := set_tls (set_stream self (LimitedWriter.inner limited)) c).
  assert (holds self1) as Hs1 by (apply (holds_tls (set_stream self _)); [by destruct Hs|done]).
  clearbody self1. destruct r as [n|e]; [destruct (n =? 0); [exact Hs1|]|case_bool_decide; [by apply (holds_fields self1)|exact Hs1]].
  revert self1 Hs1. apply (preserves_bind (update _)); [by intros s []|intros _].
  apply preserves_bind; [apply refresh_holds|intros _]. apply preserves_ret.
Qed.

Lemma read_holds budget phase : preserves (drive_tls_read budget phase).
Proof.
  intros self Hs. unfold drive_tls_read.
  pose proof (ln_read _ Hclosed _ (LimitedReader.read stream_read) (tls self)
    (LimitedReader.new (stream self) (nonzero_get (TransportBudget.read_bytes budget)))) as Hw.
  destruct (tls_read _ _ _) as [[c limited] r]. cbn [fst] in Hw.
  set (self1 := set_tls (set_stream self (LimitedReader.inner limited)) c).
  assert (holds self1) as Hs1 by (apply (holds_tls (set_stream self _)); [by destruct Hs|done]).
  clearbody self1. destruct r as [n|e]; [destruct (n =? 0)|case_bool_decide; [by apply (holds_fields self1)|exact Hs1]].
  - set (self2 := set_eof _ _). assert (holds self2) as Hs2.
    { subst self2. destruct Hs1 as [Hl Hp Hc]. split; try done. simpl. by destruct (eof self1). }
    by destruct (is_truncated self2).
  - revert self1 Hs1. apply preserves_bind; [apply refresh_holds|intros _].
    apply (preserves_bind (update _)); [by intros s []|intros _]. apply preserves_ret.
Qed.

Lemma once_holds budget read_phase write_phase :
  preserves (drive_tls_once budget read_phase write_phase).
Proof.
  intros self Hs. unfold drive_tls_once, take_pending_error.
  assert (holds (set_pending_error self None)) as Hs1 by (by destruct Hs).
  destruct (pending_error self); [exact Hs1|]. cbn [fmap option_fmap option_map].
  set (self1 := set_pending_error self None) in *. clearbody self1.
  destruct (is_truncated self1); [done|].
  destruct (preference self1), (can_tls_read self1), (can_tls_write self1);
    solve [exact Hs1|by apply read_holds|by apply write_holds].
Qed.

Lemma connect_holds : preserves complete_connect.
Proof.
  intros self Hs. unfold complete_connect.
  destruct (stream_take_error _) as [s [[?|]|?]]; try by destruct Hs.
  destruct (stream_peer_addr s) as [s' [a|e]]; [by destruct Hs|].
  case_bool_decide; by destruct Hs.
Qed.

Lemma establishment_holds policy budget : preserves (drive_establishment policy budget).
Proof.
  apply preserves_bind.
  - intros self Hs. destruct (phase self).
    + by apply connect_holds.
    + unfold apply_no_delay. destruct (stream_set_nodelay _ _) as [s [?|?]]; by destruct Hs.
    + unfold apply_keepalive. destruct (TcpSocketPolicy.keepalive_policy policy); [|by destruct Hs].
      destruct (stream_set_keepalive _ _) as [s [?|?]]; by destruct Hs.
    + by apply once_holds.
    + done.
  - intros progress self Hs. simpl. case_match; [by destruct Hs|done].
Qed.

Lemma shutdown_holds : preserves begin_shutdown.
Proof.
  apply (preserves_bind (update _)); [|intros _].
  { intros self Hs. apply holds_tls; [done|apply (ln_notify _ Hclosed)]. }
  apply (preserves_bind (update _)); [by intros self []|intros _].
  apply preserves_bind; [apply refresh_holds|intros _]. apply preserves_ret.
Qed.

Lemma plaintext_read_holds self b : holds self → holds (read self b).1.1.
Proof.
  intros Hs. unfold read. pose proof (ln_reader _ Hclosed (tls self) b) as Hr.
  pose proof (tls_reader_count (tls self) b) as Hn.
  destruct (tls_reader_read (tls self) b) as [[c b'] r]. cbn [fst snd] in *.
  pose proof (holds_tls self c Hs Hr) as Hs1. destruct r as [n|e]; [|done].
  specialize (Hn n eq_refl). destruct Hs1 as [Hl Hp Hc]. split; try done.
  simpl in *. unfold u64_saturating_sub. lia.
Qed.

Lemma plaintext_write_holds self b : holds self → holds (write self b).1.
Proof.
  intros Hs. unfold write. destruct b as [|x b]; [done|].
  destruct (negb _); [done|]. pose proof (ln_writer _ Hclosed (tls self) (x :: b)) as Hw.
  destruct (tls_writer_write _ _) as [c [n|e]]; cbn [fst] in Hw;
    pose proof (holds_tls self c Hs Hw) as Hs1; [|done].
  destruct (n =? 0); [done|].
  pose proof (refresh_holds TransportFailurePhase.Write _ Hs1) as Hs2.
  destruct (refresh_state _ _) as [self2 [u|e]]; [done|]. cbn [fst] in *.
  unfold record_pending_error. destruct (pending_error self2); [done|by destruct Hs2].
Qed.

(** *** Progress *)

(** One operation that passed no more bytes than its budget. *)
Definition passed (budget : TransportBudget.t) (r : TransportProgress.t) : Prop :=
  TransportProgress.operations r = 1 ∧
  0 ≤ TransportProgress.read_bytes r ≤ nonzero_get (TransportBudget.read_bytes budget) ∧
  0 ≤ TransportProgress.written_bytes r ≤ nonzero_get (TransportBudget.write_bytes budget).

Lemma passed_fits budget r :
  TransportBudget.valid budget → passed budget r →
  TransportProgress.fits r budget = true ∧ TransportProgress.is_idle r = false.
Proof.
  intros (Ho & _ & _) (H1 & H2 & H3). unfold TransportProgress.fits, TransportProgress.is_idle.
  rewrite H1, !andb_true_iff, !Z.leb_le. split; [lia|done].
Qed.

Lemma passed_operation budget : TransportBudget.valid budget → passed budget TransportProgress.operation.
Proof. intros (? & ? & ?). split; [done|]. simpl. lia. Qed.

Lemma write_passed budget phase self self' r :
  TransportBudget.valid budget → drive_tls_write budget phase self = (self', Ok r) → passed budget r.
Proof.
  intros Hb. unfold drive_tls_write. pose proof Hb as (_ & Hr & Hwb).
  destruct (tls_write _ _ _) as [[c limited] [n|e]] eqn:Hw.
  - destruct (n =? 0); [done|]. intros Hrun.
    apply ste_bind_ok_inv in Hrun as (s1 & [] & _ & Hrun).
    apply ste_bind_ok_inv in Hrun as (s2 & [] & _ & [= _ <-]).
    apply (tls_write_within _ _ _ _ _ _ _
      (TlsSpec.limited_writes_within stream_write stream_write_count)) in Hw.
    split; [done|]. simpl in *. lia.
  - case_bool_decide; [|done]. intros [= _ <-]. by apply passed_operation.
Qed.

Lemma read_passed budget phase self self' r :
  TransportBudget.valid budget → drive_tls_read budget phase self = (self', Ok r) → passed budget r.
Proof.
  intros Hb. unfold drive_tls_read. pose proof Hb as (_ & Hr & Hwb).
  destruct (tls_read _ _ _) as [[c limited] [n|e]] eqn:Hw.
  - destruct (n =? 0).
    + destruct (is_truncated _); [done|]. intros [= _ <-]. by apply passed_operation.
    + intros Hrun. apply ste_bind_ok_inv in Hrun as (s1 & [] & _ & Hrun).
      apply ste_bind_ok_inv in Hrun as (s2 & [] & _ & [= _ <-]).
      apply (tls_read_within _ _ _ _ _ _ _
        (TlsSpec.limited_reads_within stream_read stream_read_count)) in Hw.
      split; [done|]. simpl in *. lia.
  - case_bool_decide; [|done]. intros [= _ <-]. by apply passed_operation.
Qed.

(** A TLS operation that has something to do does it, or fails. *)
Lemma once_passed budget read_phase write_phase self self' r :
  TransportBudget.valid budget → can_tls_progress self = true →
  drive_tls_once budget read_phase write_phase self = (self', Ok r) → passed budget r.
Proof.
  intros Hb Hc. unfold drive_tls_once, take_pending_error.
  destruct (pending_error self) as [d|] eqn:Hpend; [done|]. simpl.
  unfold can_tls_progress in Hc. rewrite Hpend, bool_decide_false in Hc by (by intros [? ?]).
  change (is_truncated (set_pending_error self None)) with (is_truncated self).
  change (can_tls_read (set_pending_error self None)) with (can_tls_read self).
  change (can_tls_write (set_pending_error self None)) with (can_tls_write self).
  destruct (is_truncated self); [done|]. simpl in Hc.
  destruct (preference self), (can_tls_read self), (can_tls_write self); try done;
    solve [by apply read_passed|by apply write_passed].
Qed.

Lemma establishment_passed policy budget self self' r :
  TransportBudget.valid budget → can_establish self = true →
  drive_establishment policy budget self = (self', Ok r) → passed budget r.
Proof.
  intros Hb Hc Hrun. unfold drive_establishment in Hrun.
  apply ste_bind_ok_inv in Hrun as (s1 & p & Hrun & [= _ <-]).
  unfold can_establish in Hc. destruct (phase self).
  - unfold complete_connect in Hrun. destruct (stream_take_error _) as [s [[?|]|?]]; try done.
    destruct (stream_peer_addr s) as [s' [a|e]]; [injection Hrun as _ <-; by apply passed_operation|].
    case_bool_decide; [|done]. injection Hrun as _ <-. by apply passed_operation.
  - unfold apply_no_delay in Hrun. destruct (stream_set_nodelay _ _) as [s [?|?]]; [|done].
    injection Hrun as _ <-. by apply passed_operation.
  - unfold apply_keepalive in Hrun. destruct (TcpSocketPolicy.keepalive_policy policy).
    + destruct (stream_set_keepalive _ _) as [s [?|?]]; [|done]. injection Hrun as _ <-.
      by apply passed_operation.
    + injection Hrun as _ <-. by apply passed_operation.
  - by eapply once_passed.
  - done.
Qed.

Lemma tls_contract :
  TransportContract slot_transport true
    (TransportPressure.total (RustlsTransportLimits.pressure lims)) holds.
Proof.
  split; cbn [tr_read tr_write tr_drive_establishment tr_drive_transport tr_begin_shutdown
    tr_clear_read tr_clear_write tr_can_establish tr_has_transport_work tr_pressure_limit
    tr_pressure slot_transport].
  - intros t b. apply plaintext_read_holds.
  - intros t b. apply plaintext_write_holds.
  - intros t p b. apply establishment_holds.
  - intros t b Ht. unfold drive_transport. destruct (shutdown t); [by apply once_holds|].
    by apply write_holds.
  - intros t b. apply shutdown_holds.
  - intros t Ht. by apply (holds_fields t).
  - intros t Ht. by apply (holds_fields t).
  - intros t b n _. unfold write. destruct b as [|x b]; [intros [= <-]; simpl; lia|].
    destruct (negb _); [done|]. pose proof (tls_writer_count (tls t) (x :: b)) as Hn.
    destruct (tls_writer_write _ _) as [c [m|e]]; [|done]. destruct (m =? 0); [done|].
    destruct (refresh_state _ _) as [t' [u|e]]; intros [= <-]; by apply Hn.
  - intros _ t b n _. unfold read. pose proof (tls_reader_count (tls t) b) as Hn.
    destruct (tls_reader_read _ _) as [[c b'] [m|e]]; [|done]. intros [= <-]. by apply Hn.
  - intros _ t p b r _ Hb Hc Hr. apply passed_fits; [done|].
    destruct (drive_establishment p b t) as [t' r'] eqn:Hrun. simpl in Hr. subst r'.
    by eapply establishment_passed.
  - intros _ t b r _ Hb Hw Hr. apply passed_fits; [done|]. unfold drive_transport in Hr.
    unfold has_transport_work in Hw. destruct (shutdown t).
    + destruct (drive_tls_once _ _ _ t) as [t' r'] eqn:Hrun. simpl in Hr. subst r'.
      by eapply once_passed.
    + destruct (drive_tls_write _ _ t) as [t' r'] eqn:Hrun. simpl in Hr. subst r'.
      by eapply write_passed.
  - intros _ t b r _ Hb Hr. apply passed_fits; [done|].
    destruct (begin_shutdown t) as [t' r'] eqn:Hrun. simpl in Hr. subst r'.
    unfold begin_shutdown in Hrun. do 3 apply ste_bind_ok_inv in Hrun as (? & [] & _ & Hrun).
    injection Hrun as _ <-. by apply passed_operation.
  - intros _ t Ht. by rewrite (ho_limits _ Ht).
  - intros _ t Ht. by rewrite (ho_limits _ Ht).
Qed.

(** A connected transport is accounted for, and starts within its limits. *)
Lemma connect_starts address config supplied self :
  connect address config supplied = Ok self → RustlsTransportConfig.limits config = lims →
  rb_get (TransportPressure.total (RustlsTransportLimits.pressure lims)) ≤
    rb_get (TransportLimits.retained_bytes supplied) ∧
  holds self ∧ is_open self = false.
Proof.
  unfold connect. intros Hrun Hlims. rewrite Hlims, rb_gtb_spec in Hrun.
  destruct (Z.ltb_spec (rb_get (TransportLimits.retained_bytes supplied))
    (rb_get (TransportLimits.retained_bytes (RustlsTransportLimits.transport_limits lims)))) as [?|Hle]; [done|]. split; [exact Hle|].
  destruct (client_new _ _) as [c|?]; [|done].
  destruct (tls_process_new_packets _) as [c' [state|?]]; [|done].
  destruct (RustlsTransportLimits.validate_state _ _ _) as [[]|?] eqn:Hv; [|done].
  destruct (stream_connect address); [|done]. injection Hrun as <-.
  apply validate_spec in Hv as [_ Hv]. split; [|done]. split; [done|exact Hv|done].
Qed.

(** Registration is that of the stream ([source.rs]): it touches nothing else. *)
Record delegates (source : Source t) : Prop := mk_delegates {
  de_register : ∀ p self token i, ∃ s,
    (poller_register source p self token i).1.2 = set_stream self s;
  de_reregister : ∀ p self token i, ∃ s,
    (poller_reregister source p self token i).1.2 = set_stream self s;
  de_deregister : ∀ p self token, ∃ s,
    (poller_deregister source p self token).1.2 = set_stream self s;
}.

Lemma tls_registered source :
  delegates source → RegisteredContract (registered_transport source) holds.
Proof.
  assert (∀ self s, holds self → holds (set_stream self s)) as Hset
    by (intros self s Hs; by apply (holds_fields self)).
  intros [Hreg Hrereg Hdereg]. split; cbn [rt_source rt_observe_readiness registered_transport].
  - intros self r Hs. by apply (holds_fields self).
  - intros p self token i Hs. destruct (Hreg p self token i) as [s ->]. by apply Hset.
  - intros p self token i Hs. destruct (Hrereg p self token i) as [s ->]. by apply Hset.
  - intros p self token Hs. destruct (Hdereg p self token) as [s ->]. by apply Hset.
Qed.

End tls_transport_spec.

(** *** What it holds *)

Section tls_contents.
Context {Cal : Calandria} {H : Host} {SH : SetHost} {SK : Sockets} {RL : Rustls}.
Context {Laws : CalandriaLaws Cal} {SLaws : SocketLaws SK} {RLaws : RustlsLaws RL}.
Import RustlsTransport Authenticity.

(** What follows a transport as long as no call of it reports that it failed:
    any reads, writes, observations and registrations, and the steps of its
    establishment, progress and shutdown that succeed. *)
Inductive served (self : t) : t → Prop :=
  | served_start : served self self
  | served_read t b : served self t → served self (read t b).1.1
  | served_write t b : served self t → served self (write t b).1
  | served_establishment t policy budget t' r : served self t →
      drive_establishment policy budget t = (t', Ok r) → served self t'
  | served_transport t budget t' r : served self t →
      drive_transport budget t = (t', Ok r) → served self t'
  | served_shutdown t t' r : served self t → begin_shutdown t = (t', Ok r) → served self t'
  | served_clear_read t : served self t → served self (clear_raw_read t)
  | served_clear_write t : served self t → served self (clear_raw_write t)
  | served_observe t ready : served self t → served self (observe t ready)
  | served_stream t s : served self t → served self (set_stream t s).

Context (lims : RustlsTransportLimits.t) (contained : ClientConnection → Prop).
Context (Hm : measured lims contained).

(** The bytes held are within the limits, or a failure is pending that says
    they are not. *)
Definition within (self : t) : Prop :=
  limits self = lims ∧ (pending_error self = None → contained (tls self)).

(** A call that succeeds leaves it so. *)
Definition leaves_within {A : Type} (f : STE t TransportError.t A) : Prop :=
  ∀ self self' a, within self → f self = (self', Ok a) → within self'.

Lemma within_fields self self' :
  within self → limits self' = limits self → pending_error self' = pending_error self →
  tls self' = tls self → within self'.
Proof. intros [Hl Hc] H1 H2 H3. split; [by rewrite H1|]. by rewrite H2, H3. Qed.

Lemma transport_within_tls self c :
  within self → (contained (tls self) → contained c) → within (set_tls self c).
Proof. intros [Hl Hc] Hi. split; [done|]. simpl. auto. Qed.

(** A refresh that succeeds decides it, whatever the state before. *)
Lemma refresh_decides phase self self' u : limits self = lims →
  refresh_state phase self = (self', Ok u) → within self'.
Proof.
  intros Hl. unfold refresh_state.
  destruct (tls_process_new_packets (tls self)) as [c [state|e]] eqn:Hp; [|done].
  cbn [limits set_tls]. rewrite Hl.
  destruct (RustlsTransportLimits.validate_state _ _ _) as [[]|d] eqn:Hv; [|done].
  apply validate_spec in Hv as [[_ He] [_ Hb]].
  pose proof (me_process _ _ Hm _ _ _ Hp He Hb). intros [= <- _]. by destruct (io_peer_has_closed state).
Qed.

Lemma refresh_limits phase self : limits (refresh_state phase self).1 = limits self.
Proof.
  unfold refresh_state. destruct (tls_process_new_packets _) as [c [state|e]]; [|done].
  destruct (RustlsTransportLimits.validate_state _ _ _) as [[]|d]; [|done].
  by destruct (io_peer_has_closed state).
Qed.

Lemma transport_read_within self b : within self → within (read self b).1.1.
Proof.
  intros Hs. unfold read. pose proof (me_reader _ _ Hm (tls self) b) as Hr.
  destruct (tls_reader_read _ _) as [[c b'] r]. pose proof (transport_within_tls _ _ Hs Hr) as Hs1.
  destruct r; [by apply (within_fields (set_tls self c))|done].
Qed.

Lemma transport_write_within self b : within self → within (write self b).1.
Proof.
  intros Hs. unfold write. destruct b as [|x b]; [done|]. destruct (negb _); [done|].
  pose proof (me_writer _ _ Hm (tls self) (x :: b)) as Hr.
  destruct (tls_writer_write _ _) as [c [n|e]]; cbn [fst snd] in Hr.
  - destruct (Z.eqb_spec n 0) as [->|Hn].
    + apply transport_within_tls; [done|]. intros Hc. apply Hr; [done|]. by intros k [= <-].
    + pose proof (refresh_limits TransportFailurePhase.Write (set_tls self c)) as Hl.
      destruct (refresh_state _ _) as [s [u|e]] eqn:Hrun.
      * eapply refresh_decides; [|exact Hrun]. apply Hs.
      * unfold record_pending_error. simpl in *. split; [|by destruct (pending_error s) eqn:Hp; simpl; rewrite ?Hp].
        destruct (pending_error s); simpl; rewrite Hl; apply Hs.
  - apply transport_within_tls; [done|]. intros Hc. by apply Hr.
Qed.

Lemma tls_write_leaves budget phase : leaves_within (drive_tls_write budget phase).
Proof.
  intros self self' r Hs. unfold drive_tls_write.
  pose proof (me_write _ _ Hm _ (LimitedWriter.write stream_write) (tls self)
    (LimitedWriter.new (stream self) (nonzero_get (TransportBudget.write_bytes budget)))) as Hw.
  destruct (tls_write _ _ _) as [[c limited] [n|e]]; pose proof (transport_within_tls _ _ Hs Hw) as Hs1.
  - destruct (n =? 0); [done|]. intros Hrun.
    apply ste_bind_ok_inv in Hrun as (s1 & [] & [= <-] & Hrun).
    apply ste_bind_ok_inv in Hrun as (s2 & [] & Hrun & [= <- _]).
    eapply refresh_decides; [|exact Hrun]. apply Hs.
  - case_bool_decide; [|done]. intros [= <- _]. by apply (within_fields (set_tls self c)).
Qed.

Lemma tls_read_leaves budget phase : leaves_within (drive_tls_read budget phase).
Proof.
  intros self self' r Hs. unfold drive_tls_read.
  pose proof (me_read _ _ Hm _ (LimitedReader.read stream_read) (tls self)
    (LimitedReader.new (stream self) (nonzero_get (TransportBudget.read_bytes budget)))) as Hw.
  destruct (tls_read _ _ _) as [[c limited] [n|e]]; pose proof (transport_within_tls _ _ Hs Hw) as Hs1.
  - destruct (n =? 0).
    + destruct (is_truncated _); [done|]. intros [= <- _]. by apply (within_fields (set_tls self c)).
    + intros Hrun. apply ste_bind_ok_inv in Hrun as (s1 & [] & Hrun & Hrest).
      apply ste_bind_ok_inv in Hrest as (s2 & [] & [= <-] & [= <- _]).
      apply (within_fields s1); try done. eapply refresh_decides; [|exact Hrun]. apply Hs.
  - case_bool_decide; [|done]. intros [= <- _]. by apply (within_fields (set_tls self c)).
Qed.

Lemma once_leaves budget read_phase write_phase :
  leaves_within (drive_tls_once budget read_phase write_phase).
Proof.
  intros self self' r Hs. unfold drive_tls_once, take_pending_error.
  destruct (pending_error self) as [d|] eqn:Hp; [done|]. cbn [fmap option_fmap option_map].
  assert (within (set_pending_error self None)) as Hs1 by by apply (within_fields self).
  set (self1 := set_pending_error self None) in *. clearbody self1.
  destruct (is_truncated self1); [done|].
  destruct (preference self1), (can_tls_read self1), (can_tls_write self1);
    solve [by apply tls_read_leaves|by apply tls_write_leaves|by intros [= <- _]].
Qed.

Lemma establishment_leaves policy budget : leaves_within (drive_establishment policy budget).
Proof.
  intros self self' r Hs Hrun. unfold drive_establishment in Hrun.
  apply ste_bind_ok_inv in Hrun as (s1 & p & Hrun & [= <- _]).
  assert (within s1) as Hs1.
  { unfold complete_connect, apply_no_delay, apply_keepalive in Hrun. destruct (phase self).
    4: by apply (once_leaves _ _ _ _ _ _ Hs Hrun).
    4: by injection Hrun as <- _.
    all: repeat case_match; simplify_eq/=; try done; injection Hrun as <- _;
      by apply (within_fields self). }
  destruct (_ && _); [by apply (within_fields s1)|done].
Qed.

Lemma shutdown_leaves : leaves_within begin_shutdown.
Proof.
  intros self self' r Hs Hrun. unfold begin_shutdown in Hrun.
  apply ste_bind_ok_inv in Hrun as (s1 & [] & [= <-] & Hrun).
  apply ste_bind_ok_inv in Hrun as (s2 & [] & [= <-] & Hrun).
  apply ste_bind_ok_inv in Hrun as (s3 & [] & Hrun & [= <- _]).
  eapply refresh_decides; [|exact Hrun]. apply Hs.
Qed.

Lemma served_within self t : served self t → within self → within t.
Proof.
  intros Hserved Hs. induction Hserved as [|t b _ IH|t b _ IH|t p b t' r _ IH Hrun|t b t' r _ IH Hrun
    |t t' r _ IH Hrun|t _ IH|t _ IH|t ready _ IH|t s _ IH]; try by apply (within_fields t).
  - done.
  - by apply transport_read_within.
  - by apply transport_write_within.
  - by eapply establishment_leaves.
  - unfold drive_transport in Hrun. destruct (shutdown t); [by eapply once_leaves|by eapply tls_write_leaves].
  - by eapply shutdown_leaves.
Qed.

Lemma connect_within address config supplied self :
  connect address config supplied = Ok self → RustlsTransportConfig.limits config = lims → within self.
Proof.
  unfold connect. intros Hrun Hlims. rewrite Hlims in Hrun. destruct (rb_gtb _ _); [done|].
  destruct (client_new _ _) as [c|?]; [|done].
  destruct (tls_process_new_packets _) as [c' [state|?]] eqn:Hp; [|done].
  destruct (RustlsTransportLimits.validate_state _ _ _) as [[]|?] eqn:Hv; [|done].
  destruct (stream_connect address); [|done]. injection Hrun as <-.
  apply validate_spec in Hv as [[_ He] [_ Hb]]. split; [done|]. intros _. by eapply me_process.
Qed.

End tls_contents.

(** *** What a report can say *)

Section tls_typing.
Context {Cal : Calandria} {H : Host} {SH : SetHost} {SK : Sockets} {RL : Rustls}.
Context {Laws : CalandriaLaws Cal} {SLaws : SocketLaws SK} {RLaws : RustlsLaws RL}.
Import RustlsTransport.

Lemma operation_made : TransportProgress.made TransportProgress.operation.
Proof. right. simpl. lia. Qed.

Lemma write_made budget phase self r :
  (drive_tls_write budget phase self).2 = Ok r → TransportProgress.made r.
Proof.
  destruct (drive_tls_write _ _ _) as [self' r'] eqn:Hrun. simpl. intros ->.
  unfold drive_tls_write in Hrun. destruct (tls_write _ _ _) as [[c limited] [n|e]] eqn:Hw.
  - destruct (n =? 0); [done|].
    apply ste_bind_ok_inv in Hrun as (s1 & [] & _ & Hrun).
    apply ste_bind_ok_inv in Hrun as (s2 & [] & _ & [= _ <-]).
    apply (tls_write_within _ _ _ _ _ _ _
      (TlsSpec.limited_writes_within stream_write stream_write_count)) in Hw.
    right. simpl. lia.
  - case_bool_decide; [|done]. injection Hrun as _ <-. apply operation_made.
Qed.

Lemma read_made budget phase self r :
  (drive_tls_read budget phase self).2 = Ok r → TransportProgress.made r.
Proof.
  destruct (drive_tls_read _ _ _) as [self' r'] eqn:Hrun. simpl. intros ->.
  unfold drive_tls_read in Hrun. destruct (tls_read _ _ _) as [[c limited] [n|e]] eqn:Hw.
  - destruct (n =? 0).
    + destruct (is_truncated _); [done|]. injection Hrun as _ <-. apply operation_made.
    + apply ste_bind_ok_inv in Hrun as (s1 & [] & _ & Hrun).
      apply ste_bind_ok_inv in Hrun as (s2 & [] & _ & [= _ <-]).
      apply (tls_read_within _ _ _ _ _ _ _
        (TlsSpec.limited_reads_within stream_read stream_read_count)) in Hw.
      right. simpl. lia.
  - case_bool_decide; [|done]. injection Hrun as _ <-. apply operation_made.
Qed.

Lemma once_made budget read_phase write_phase self r :
  (drive_tls_once budget read_phase write_phase self).2 = Ok r → TransportProgress.made r.
Proof.
  unfold drive_tls_once, take_pending_error. destruct (pending_error self); [done|].
  cbn [fmap option_fmap option_map].
  set (self1 := set_pending_error self None). clearbody self1.
  destruct (is_truncated self1); [done|].
  destruct (preference self1), (can_tls_read self1), (can_tls_write self1);
    solve [by apply read_made|by apply write_made|intros [= <-]; by left].
Qed.

Lemma establishment_step_made policy budget self self' r :
  drive_establishment policy budget self = (self', Ok r) → TransportProgress.made r.
Proof.
  intros Hrun. unfold drive_establishment in Hrun.
  apply ste_bind_ok_inv in Hrun as (s1 & p & Hrun & [= _ <-]).
  unfold complete_connect, apply_no_delay, apply_keepalive in Hrun. destruct (phase self).
  4: { apply (once_made budget TransportFailurePhase.Establishment
         TransportFailurePhase.Establishment self). by rewrite Hrun. }
  4: { injection Hrun as _ <-. by left. }
  all: repeat case_match; simplify_eq/=; try done; injection Hrun as _ <-; apply operation_made.
Qed.

#[global] Instance tls_typing : TransportTyping slot_transport.
Proof.
  split; cbn [tr_drive_establishment tr_drive_transport tr_begin_shutdown slot_transport].
  - intros t p b r. destruct (drive_establishment p b t) as [t' r'] eqn:Hrun. simpl. intros ->.
    by eapply establishment_step_made.
  - intros t b r. unfold drive_transport.
    destruct (shutdown t); [by apply once_made|by apply write_made].
  - intros t b r. destruct (begin_shutdown t) as [t' r'] eqn:Hrun. simpl. intros ->.
    unfold begin_shutdown in Hrun. do 3 apply ste_bind_ok_inv in Hrun as (? & [] & _ & Hrun).
    injection Hrun as _ <-. apply operation_made.
Qed.

End tls_typing.
End TlsTransportSpec.

(** ** Sessions *)

Module SessionSpec.
Section session_spec.
Context {Cal : Calandria} {RL : Rustls} {C : Type} {Conn : RustlsConnection RustlsError IoState C}.
Import RustlsSession Authenticity.

(** One call of a session's owner. *)
Inductive call : Type :=
  | IngestTls (ciphertext : list Byte.byte)
  | ReadPlaintext (output : list Byte.byte)
  | WritePlaintext (plaintext : list Byte.byte)
  | DrainTls (output : list Byte.byte)
  | FinishInput
  | SendCloseNotify.

Definition counted (r : t C * result unit TransportError.t) : t C * result Z TransportError.t :=
  (r.1, match r.2 with Ok _ => Ok 0 | Err error => Err error end).

(** The session a call leaves, and the count it returns. *)
Definition perform (self : t C) (c : call) : t C * result Z TransportError.t :=
  match c with
  | IngestTls ciphertext => ingest_tls self ciphertext
  | ReadPlaintext output => let '(self, _, r) := read_plaintext self output in (self, r)
  | WritePlaintext plaintext => write_plaintext self plaintext
  | DrainTls output => let '(self, _, r) := drain_tls self output in (self, r)
  | FinishInput => counted (finish_input self)
  | SendCloseNotify => counted (send_close_notify self)
  end.

Definition perform_all (self : t C) (calls : list call) : t C :=
  foldl (λ self c, (perform self c).1) self calls.

(** What a call can count at most. *)
Definition room (self : t C) (c : call) : Z :=
  match c with
  | IngestTls ciphertext => Z.min (Z.of_nat (length ciphertext)) (ingress_limit self)
  | ReadPlaintext buffer | WritePlaintext buffer | DrainTls buffer => Z.of_nat (length buffer)
  | FinishInput | SendCloseNotify => 0
  end.

(** *** Limits *)

Context {Laws : CalandriaLaws Cal} {RLaws : RustlsLaws RL} {CLaws : RustlsConnectionLaws Conn}.
Context (lims : RustlsTransportLimits.t) (closed : C → Prop) (Hclosed : learned closed).

(** Between two calls: what is buffered either way is within its limit, and the
    input ended cleanly only if the peer said so. *)
Record bounded (self : t C) : Prop := mk_bounded {
  bo_limits : limits self = lims;
  bo_plaintext : 0 ≤ plaintext_bytes self ≤
    nonzero_get (RustlsTransportLimits.max_plaintext_bytes lims);
  bo_egress : 0 ≤ tls_egress_bytes self ≤
    nonzero_get (RustlsTransportLimits.max_tls_egress_bytes lims);
  bo_clean : peer_closure self = RustlsPeerClosure.Clean → closed (tls self);
}.

Lemma bounded_tls self c :
  bounded self → (closed (tls self) → closed c) → bounded (set_tls self c).
Proof. intros [Hl Hp He Hc] Hi. split; try done. simpl. auto. Qed.

(** Calls that leave the counts, or lower them. *)
Lemma bounded_less self self' :
  bounded self → limits self' = limits self → tls self' = tls self →
  0 ≤ plaintext_bytes self' ≤ plaintext_bytes self →
  0 ≤ tls_egress_bytes self' ≤ tls_egress_bytes self →
  (peer_closure self' = peer_closure self ∨ peer_closure self' ≠ RustlsPeerClosure.Clean) →
  bounded self'.
Proof.
  intros [Hl Hp He Hc] H1 H2 H3 H4 H5. split; rewrite ?H1, ?H2; try done; try lia.
  intros Hclean. destruct H5 as [H5|H5]; [|done]. apply Hc. by rewrite <- H5.
Qed.

Lemma bounded_same self self' :
  bounded self → limits self' = limits self → tls self' = tls self →
  plaintext_bytes self' = plaintext_bytes self → tls_egress_bytes self' = tls_egress_bytes self →
  (peer_closure self' = peer_closure self ∨ peer_closure self' ≠ RustlsPeerClosure.Clean) →
  bounded self'.
Proof.
  intros Hs H1 H2 H3 H4 H5. apply (bounded_less self); try done; destruct Hs; lia.
Qed.

Lemma record_bounded self d : bounded self → bounded (record_failure self d).
Proof.
  intros Hs. unfold record_failure. destruct (failure self); [done|].
  apply (bounded_same self); try done. by left.
Qed.

Lemma latched_bounded {A : Type} self d : bounded self → bounded (latched (A := A) self d).1.
Proof. apply record_bounded. Qed.

Lemma refresh_bounded phase self : bounded self → bounded (refresh phase self).1.
Proof.
  intros Hs. unfold refresh. destruct (tls_process_new_packets (tls self)) as [c r] eqn:Hp.
  assert (bounded (set_tls self c)) as Hs1.
  { apply bounded_tls; [done|]. intros Hc. apply (ln_process _ Hclosed) in Hc. by rewrite Hp in Hc. }
  destruct r as [state|e]; [|done]. cbn [limits set_tls].
  destruct (RustlsTransportLimits.validate_state _ _ _) as [[]|d] eqn:Hv; [|done].
  apply validate_spec in Hv as [He Hpl]. rewrite (bo_limits _ Hs) in He, Hpl.
  destruct Hs1 as [Hl _ _ Hc]. simpl in Hl.
  destruct (io_peer_has_closed state) eqn:Hclose, (_ && _); split; try done;
    intros _; by apply (ln_told _ Hclosed _ _ _ Hp).
Qed.

(** A count that was taken comes off what is buffered. *)
Lemma taken_bounded a n : 0 ≤ a → 0 ≤ n → 0 ≤ u64_saturating_sub a n ≤ a.
Proof. unfold u64_saturating_sub. lia. Qed.

Lemma ingest_bounded self b : bounded self → bounded (ingest_tls self b).1.
Proof.
  intros Hs. unfold ingest_tls. destruct b as [|x b]; [done|].
  destruct (ensure_progressing self); [|done]. destruct (negb _); [done|].
  set (source := take _ _).
  pose proof (ln_read _ Hclosed _ StdIo.slice_read (tls self) source) as Hr.
  destruct (tls_read _ _ _) as [[c s] r]. cbn [fst] in Hr.
  pose proof (bounded_tls _ _ Hs Hr) as Hs1. destruct r as [n|e]; [|done].
  pose proof (refresh_bounded (read_phase self) _ Hs1) as Hs2.
  destruct (refresh _ _) as [self2 [u|e]]; [done|]. by apply latched_bounded.
Qed.

Lemma write_bounded self b : bounded self → bounded (write_plaintext self b).1.
Proof.
  intros Hs. unfold write_plaintext. destruct b as [|x b]; [done|].
  destruct (ensure_progressing self); [|done]. destruct (_ || _); [done|].
  pose proof (ln_writer _ Hclosed (tls self) (x :: b)) as Hr.
  destruct (tls_writer_write _ _) as [c r]. cbn [fst] in Hr.
  pose proof (bounded_tls _ _ Hs Hr) as Hs1. destruct r as [n|e]; [|done].
  pose proof (refresh_bounded TransportFailurePhase.Write _ Hs1) as Hs2.
  destruct (refresh _ _) as [self2 [u|e]]; [done|]. by apply record_bounded.
Qed.

Lemma read_bounded self b : bounded self → bounded (read_plaintext self b).1.1.
Proof.
  intros Hs. unfold read_plaintext. destruct b as [|x b]; [done|].
  destruct (ensure_progressing self); [|done].
  destruct (_ && _); [by apply (record_bounded self)|].
  pose proof (ln_reader _ Hclosed (tls self) (x :: b)) as Hr.
  pose proof (tls_reader_count (tls self) (x :: b)) as Hn.
  destruct (tls_reader_read _ _) as [[c b'] r]. cbn [fst snd] in Hr, Hn.
  pose proof (bounded_tls _ _ Hs Hr) as Hs1. destruct r as [n|e].
  - specialize (Hn n eq_refl). apply (bounded_less (set_tls self c)); try done; simpl.
    + apply taken_bounded; [apply Hs|lia].
    + destruct Hs; lia.
    + by left.
  - destruct (IoError.kind e); try exact Hs1; try by apply (record_bounded (set_tls self c)).
    apply record_bounded. apply (bounded_same (set_tls self c)); try done. by right.
Qed.

Lemma drain_bounded self b : bounded self → bounded (drain_tls self b).1.1.
Proof.
  intros Hs. unfold drain_tls. destruct b as [|x b]; [done|].
  destruct (negb _); [done|].
  pose proof (ln_write _ Hclosed _ StdIo.slice_write (tls self) ([], x :: b)) as Hr.
  destruct (tls_write _ _ _) as [[c [head rest]] r] eqn:Hw. cbn [fst] in Hr.
  pose proof (bounded_tls _ _ Hs Hr) as Hs1. destruct r as [n|e]; [|done].
  apply (tls_write_within _ _ _ _ _ _ _ StdIo.slice_writes_within) in Hw as [Hn _].
  destruct (failure _).
  - apply (bounded_less (set_tls self c)); try done; simpl.
    + destruct Hs; lia.
    + apply taken_bounded; [apply Hs|done].
    + by left.
  - pose proof (refresh_bounded (write_phase self) _ Hs1) as Hs2.
    destruct (refresh _ _) as [self2 [u|e]]; [done|]. by apply record_bounded.
Qed.

Lemma finish_truncated_bounded self : bounded self → bounded (finish_truncated self).1.
Proof.
  intros Hs. unfold finish_truncated. destruct (_ =? _); [by apply latched_bounded|done].
Qed.

Lemma finish_bounded self : bounded self → bounded (finish_input self).1.
Proof.
  intros Hs. unfold finish_input. destruct (ensure_progressing self); [|done].
  destruct (peer_closure self); [|done|by apply finish_truncated_bounded].
  pose proof (ln_read _ Hclosed _ StdIo.empty_read (tls self) tt) as Hr.
  destruct (tls_read _ _ _) as [[c u] r]. cbn [fst] in Hr.
  pose proof (bounded_tls _ _ Hs Hr) as Hs1. destruct r as [n|e]; [|done].
  pose proof (refresh_bounded (read_phase self) _ Hs1) as Hs2.
  destruct (refresh _ _) as [self2 [v|e]]; [|by apply latched_bounded].
  apply finish_truncated_bounded. case_bool_decide; [done|].
  apply (bounded_same self2); try done. by right.
Qed.

Lemma close_bounded self : bounded self → bounded (send_close_notify self).1.
Proof.
  intros Hs. unfold send_close_notify. destruct (ensure_progressing self); [|done].
  destruct (close_notify_sent self); [done|]. destruct (negb _); [done|].
  set (self1 := set_close_notify_sent _ _). assert (bounded self1) as Hs1.
  { subst self1. apply (bounded_same (set_tls self (tls_send_close_notify (tls self)))); try done.
    - apply bounded_tls; [done|apply (ln_notify _ Hclosed)].
    - by left. }
  pose proof (refresh_bounded TransportFailurePhase.Shutdown _ Hs1) as Hs2.
  destruct (refresh _ _) as [self2 [v|e]]; [done|]. by apply latched_bounded.
Qed.

Lemma perform_bounded self c : bounded self → bounded (perform self c).1.
Proof.
  intros Hs. destruct c; cbn [perform counted fst].
  - by apply ingest_bounded.
  - pose proof (read_bounded self output Hs) as Hr. by destruct (read_plaintext _ _) as [[? ?] ?].
  - by apply write_bounded.
  - pose proof (drain_bounded self output Hs) as Hr. by destruct (drain_tls _ _) as [[? ?] ?].
  - by apply finish_bounded.
  - by apply close_bounded.
Qed.

Lemma perform_all_bounded calls self : bounded self → bounded (perform_all self calls).
Proof.
  revert self. induction calls as [|c calls IH]; intros self Hs; [done|].
  by apply IH, perform_bounded.
Qed.

Lemma start_bounded tls self : start lims tls = Ok self → bounded self.
Proof.
  unfold start. destruct (tls_process_new_packets _) as [c [state|?]]; [|done].
  destruct (RustlsTransportLimits.validate_state _ _ _) as [[]|?] eqn:Hv; [|done].
  intros [= <-]. apply validate_spec in Hv as [He Hp]. split; [done|exact Hp|exact He|done].
Qed.

(** *** Counts *)

Lemma ingress_limit_nonneg (self : t C) : 0 ≤ ingress_limit self.
Proof.
  unfold ingress_limit. pose proof (rb_get_nonneg (TransportPressure.inbound (pressure self))).
  case_match; [done|]. unfold USIZE_MAX. lia.
Qed.

Lemma perform_count self c n : (perform self c).2 = Ok n → 0 ≤ n ≤ room self c.
Proof.
  assert (∀ r, (counted r).2 = Ok n → 0 ≤ n ≤ 0) as Hcounted.
  { intros [s [u|e]]; [|done]. intros [= <-]. lia. }
  destruct c as [b|b|b|b| |]; cbn [perform room]; [| | | |apply Hcounted..].
  - pose proof (ingress_limit_nonneg self) as Hi. unfold ingest_tls.
    destruct b as [|x b]; [intros [= <-]; simpl; lia|].
    destruct (ensure_progressing self); [|done]. destruct (negb _); [done|].
    destruct (tls_read _ _ _) as [[c s] [k|e]] eqn:Hr; [|done].
    apply (tls_read_within _ _ _ _ _ _ _ StdIo.slice_reads_within) in Hr as [Hk Hle].
    rewrite length_take in Hle.
    destruct (refresh _ _) as [self2 [u|e]]; [|done]. intros [= <-]. lia.
  - unfold read_plaintext. destruct b as [|x b]; [intros [= <-]; simpl; lia|].
    destruct (ensure_progressing self); [|done]. destruct (_ && _); [done|].
    pose proof (tls_reader_count (tls self) (x :: b)) as Hn.
    destruct (tls_reader_read _ _) as [[c b'] [k|e]]; [intros [= <-]; by apply Hn|].
    by destruct (IoError.kind e).
  - unfold write_plaintext. destruct b as [|x b]; [intros [= <-]; simpl; lia|].
    destruct (ensure_progressing self); [|done]. destruct (_ || _); [done|].
    pose proof (tls_writer_count (tls self) (x :: b)) as Hn.
    destruct (tls_writer_write _ _) as [c [k|e]]; [|done].
    destruct (refresh _ _) as [self2 [u|e]]; intros [= <-]; by apply Hn.
  - unfold drain_tls. destruct b as [|x b]; [intros [= <-]; simpl; lia|].
    destruct (negb _); [intros [= <-]; simpl; lia|].
    destruct (tls_write _ _ _) as [[c [head rest]] [k|e]] eqn:Hw; [|done].
    apply (tls_write_within _ _ _ _ _ _ _ StdIo.slice_writes_within) in Hw. simpl in Hw.
    destruct (failure _); [|destruct (refresh _ _) as [self2 [u|e]]]; intros [= <-]; simpl; lia.
Qed.

End session_spec.

(** *** Failures *)

Section session_failures.
Context {Cal : Calandria} {RL : Rustls} {C : Type} {Conn : RustlsConnection RustlsError IoState C}.
Import RustlsSession.

(** The calls that need a session in good standing; a drain does not. *)
Definition progresses (c : call) : bool :=
  match c with
  | IngestTls b | ReadPlaintext b | WritePlaintext b => negb (bool_decide (b = []))
  | DrainTls _ => false
  | FinishInput | SendCloseNotify => true
  end.

(** The calls that have moved bytes already when the failure is found. *)
Definition counts_first (c : call) : bool :=
  match c with WritePlaintext _ | DrainTls _ => true | _ => false end.

Lemma refresh_failure phase (self : t C) : failure (refresh phase self).1 = failure self.
Proof.
  unfold refresh. destruct (tls_process_new_packets _) as [c [state|e]]; [|done].
  destruct (RustlsTransportLimits.validate_state _ _ _) as [[]|d]; [|done].
  by destruct (io_peer_has_closed state), (_ && _).
Qed.

Lemma failed_refuses (self : t C) c d :
  failure self = Some d → progresses c = true →
  perform self c = (self, Err (TransportError.new d)).
Proof.
  intros Hf. destruct c as [[|x b]|[|x b]|[|x b]|b| |]; try done; intros _;
    unfold perform, counted, ingest_tls, read_plaintext, write_plaintext, finish_input,
      send_close_notify, ensure_progressing; by rewrite Hf.
Qed.

Lemma drain_keeps (self : t C) b d : failure self = Some d → failure (drain_tls self b).1.1 = Some d.
Proof.
  intros Hf. unfold drain_tls. destruct b as [|x b]; [done|]. destruct (negb _); [done|].
  destruct (tls_write _ _ _) as [[c [head rest]] [k|e]]; [|done].
  cbn [failure set_tls]. by rewrite Hf.
Qed.

Lemma failed_stays (self : t C) c d : failure self = Some d → failure (perform self c).1 = Some d.
Proof.
  intros Hf. destruct (progresses c) eqn:Hp; [by rewrite (failed_refuses _ _ _ Hf Hp)|].
  destruct c as [[|x b]|[|x b]|[|x b]|b| |]; try done; try exact Hf.
  pose proof (drain_keeps self b d Hf) as Hd. cbn [perform].
  by destruct (drain_tls self b) as [[? ?] ?].
Qed.

Lemma failed_stays_all calls (self : t C) d :
  failure self = Some d → failure (perform_all self calls) = Some d.
Proof.
  revert self. induction calls as [|c calls IH]; intros self Hf; [done|].
  by apply IH, failed_stays.
Qed.

(** A failure that is found is what the call returns, unless the call has moved
    bytes already, which it returns the count of. *)
Definition told (c : call) (d : TransportDiagnostic.t) (r : result Z TransportError.t) : Prop :=
  r = Err (TransportError.new d) ∨ counts_first c = true ∧ is_ok r = true.

Lemma latched_told {A : Type} (self : t C) d d' :
  failure self = None → failure (latched (A := A) self d).1 = Some d' →
  (latched (A := A) self d).2 = Err (TransportError.new d').
Proof. unfold latched, latch, record_failure. intros ->. by intros [= <-]. Qed.

(** What refreshing and latching leaves: no failure, or the one returned. *)
Lemma refreshed_told {A : Type} phase (self : t C) (k : t C → Step A) d :
  failure self = None →
  (∀ s, failure s = None → failure (k s).1 = Some d → (k s).2 = Err (TransportError.new d)) →
  let r := match refresh phase self with
           | (self, Err error) => latched self (TransportError.diagnostic error)
           | (self, Ok _) => k self
           end in
  failure r.1 = Some d → r.2 = Err (TransportError.new d).
Proof.
  intros Hf Hk. pose proof (refresh_failure phase self) as Hr.
  destruct (refresh phase self) as [self' [u|e]]; cbn [fst] in Hr; rewrite Hf in Hr.
  - by apply Hk.
  - by apply latched_told.
Qed.

Lemma finish_truncated_told (self : t C) d :
  failure self = None → failure (finish_truncated self).1 = Some d →
  (finish_truncated self).2 = Err (TransportError.new d).
Proof.
  intros Hf. unfold finish_truncated. destruct (_ =? _); [by apply latched_told|].
  simpl. by rewrite Hf.
Qed.

Lemma ingest_told (self : t C) b d :
  failure self = None → failure (ingest_tls self b).1 = Some d →
  (ingest_tls self b).2 = Err (TransportError.new d).
Proof.
  intros Hf. unfold ingest_tls, ensure_progressing. rewrite Hf.
  destruct b as [|x b]; [simpl; congruence|]. destruct (negb _); [simpl; congruence|].
  destruct (tls_read _ _ _) as [[c s] [n|e]]; [|simpl; congruence].
  apply refreshed_told; [done|]. intros s' Hs'. simpl. congruence.
Qed.

Lemma read_told (self : t C) b d :
  failure self = None → failure (read_plaintext self b).1.1 = Some d →
  (read_plaintext self b).2 = Err (TransportError.new d).
Proof.
  intros Hf. unfold read_plaintext, ensure_progressing, latched, latch, record_failure. rewrite Hf.
  destruct b as [|x b]; [simpl; congruence|]. destruct (_ && _); [simpl; by intros [= <-]|].
  destruct (tls_reader_read _ _) as [[c b'] [n|e]]; [simpl; congruence|].
  destruct (IoError.kind e); simpl; rewrite ?Hf; simpl; try done; by intros [= <-].
Qed.

Lemma finish_told (self : t C) d :
  failure self = None → failure (finish_input self).1 = Some d →
  (finish_input self).2 = Err (TransportError.new d).
Proof.
  intros Hf. unfold finish_input, ensure_progressing. rewrite Hf.
  destruct (peer_closure self); [|simpl; congruence|by apply finish_truncated_told].
  destruct (tls_read _ _ _) as [[c u] [n|e]]; [|simpl; congruence].
  apply refreshed_told; [done|]. intros s Hs. apply finish_truncated_told.
  by case_bool_decide.
Qed.

Lemma close_told (self : t C) d :
  failure self = None → failure (send_close_notify self).1 = Some d →
  (send_close_notify self).2 = Err (TransportError.new d).
Proof.
  intros Hf. unfold send_close_notify, ensure_progressing. rewrite Hf.
  destruct (close_notify_sent self); [simpl; congruence|].
  destruct (negb _); [simpl; congruence|].
  apply refreshed_told; [done|]. intros s Hs. simpl. congruence.
Qed.

Lemma write_told (self : t C) b d :
  failure self = None → failure (write_plaintext self b).1 = Some d →
  is_ok (write_plaintext self b).2 = true.
Proof.
  intros Hf. unfold write_plaintext, ensure_progressing. rewrite Hf.
  destruct b as [|x b]; [done|]. destruct (_ || _); [simpl; congruence|].
  destruct (tls_writer_write _ _) as [c [n|e]]; [|simpl; congruence].
  by destruct (refresh _ _) as [self2 [u|e]].
Qed.

Lemma drain_told (self : t C) b d :
  failure self = None → failure (drain_tls self b).1.1 = Some d →
  is_ok (drain_tls self b).2 = true.
Proof.
  intros Hf. unfold drain_tls. destruct b as [|x b]; [done|]. destruct (negb _); [done|].
  destruct (tls_write _ _ _) as [[c [head rest]] [n|e]]; [|simpl; congruence].
  destruct (failure _); [done|]. by destruct (refresh _ _) as [self2 [u|e]].
Qed.

Lemma perform_told (self : t C) c d :
  failure self = None → failure (perform self c).1 = Some d → told c d (perform self c).2.
Proof.
  intros Hf. destruct c as [b|b|b|b| |]; cbn [perform counted fst snd].
  - left. by apply ingest_told.
  - pose proof (read_told self b d Hf) as Hr.
    destruct (read_plaintext _ _) as [[? ?] ?]. left. by apply Hr.
  - right. split; [done|]. by eapply write_told.
  - pose proof (drain_told self b d Hf) as Hr.
    destruct (drain_tls _ _) as [[? ?] ?]. right. split; [done|]. by apply Hr.
  - intros Hd. left. by rewrite (finish_told _ _ Hf Hd).
  - intros Hd. left. by rewrite (close_told _ _ Hf Hd).
Qed.

(** *** What it holds *)

Section session_contents.
Context {RLaws : RustlsLaws RL} {CLaws : RustlsConnectionLaws Conn}.
Context (lims : RustlsTransportLimits.t) (contained : C → Prop).
Context (Hm : Authenticity.measured lims contained).
Import Authenticity.

(** A session that has not failed holds no more than its limits. *)
Definition within (self : t C) : Prop :=
  limits self = lims ∧ (failure self = None → contained (tls self)).

Lemma failed_within (self : t C) d : limits self = lims → failure self = Some d → within self.
Proof. intros Hl Hd. split; [done|congruence]. Qed.

Lemma record_within (self : t C) d : limits self = lims → within (record_failure self d).
Proof.
  intros Hl. unfold record_failure.
  destruct (failure self) eqn:Hf; [by eapply failed_within|by apply (failed_within _ d)].
Qed.

(** Moving ciphertext, or taking plaintext, adds nothing. *)
Lemma within_tls (self : t C) c :
  within self → (contained (tls self) → contained c) → within (set_tls self c).
Proof. intros [Hl Hc] Hi. split; [done|]. simpl. auto. Qed.

Lemma refresh_within phase (self : t C) : limits self = lims →
  limits (refresh phase self).1 = lims ∧
  (is_ok (refresh phase self).2 = true → contained (tls (refresh phase self).1)).
Proof.
  intros Hl. unfold refresh. destruct (tls_process_new_packets (tls self)) as [c [state|e]] eqn:Hp;
    [|done]. cbn [limits set_tls]. rewrite Hl.
  destruct (RustlsTransportLimits.validate_state _ _ _) as [[]|d] eqn:Hv; [|done].
  apply Authenticity.validate_spec in Hv as [[_ He] [_ Hb]].
  pose proof (me_process _ _ Hm _ _ _ Hp He Hb).
  by destruct (io_peer_has_closed state), (_ && _).
Qed.

(** A refresh decides it anew. *)
Lemma refreshed phase (self s : t C) u :
  limits self = lims → refresh phase self = (s, u) →
  limits s = lims ∧ (is_ok u = true → within s).
Proof.
  intros Hl Hr. destruct (refresh_within phase self Hl) as [Hl' Hc]. rewrite Hr in Hl', Hc.
  split; [done|]. intros Hu. split; [done|]. intros _. by apply Hc.
Qed.

Lemma ingest_within (self : t C) b : within self → within (ingest_tls self b).1.
Proof.
  intros Hs. unfold ingest_tls. destruct b as [|x b]; [done|].
  destruct (ensure_progressing self); [|done]. destruct (negb _); [done|].
  pose proof (me_read _ _ Hm _ StdIo.slice_read (tls self)
    (take (Z.to_nat (Z.min (Z.of_nat (length (x :: b))) (ingress_limit self))) (x :: b))) as Hr.
  destruct (tls_read _ _ _) as [[c s] r]. pose proof (within_tls _ _ Hs Hr) as Hs1.
  destruct r as [n|e]; [|done]. destruct (refresh _ _) as [s2 u] eqn:Hrun.
  apply refreshed in Hrun as [Hl2 Hs2]; [|by destruct Hs1].
  destruct u; [by apply Hs2|by apply record_within].
Qed.

Lemma read_within (self : t C) b : within self → within (read_plaintext self b).1.1.
Proof.
  intros Hs. unfold read_plaintext. destruct b as [|x b]; [done|].
  destruct (ensure_progressing self); [|done].
  destruct (_ && _); [apply (record_within self), Hs|].
  pose proof (me_reader _ _ Hm (tls self) (x :: b)) as Hr.
  destruct (tls_reader_read _ _) as [[c b'] r]. pose proof (within_tls _ _ Hs Hr) as Hs1.
  destruct r as [n|e]; [done|].
  destruct (IoError.kind e); try done; try (apply (record_within (set_tls self c)), Hs1).
  apply (record_within (set_peer_closure _ _)), Hs1.
Qed.

Lemma write_within (self : t C) b : within self → within (write_plaintext self b).1.
Proof.
  intros Hs. unfold write_plaintext. destruct b as [|x b]; [done|].
  destruct (ensure_progressing self); [|done]. destruct (_ || _); [done|].
  pose proof (me_writer _ _ Hm (tls self) (x :: b)) as Hr.
  destruct (tls_writer_write _ _) as [c [n|e]].
  - destruct (refresh _ _) as [s2 u] eqn:Hrun. apply refreshed in Hrun as [Hl2 Hs2]; [|by destruct Hs].
    destruct u; [by apply Hs2|by apply record_within].
  - apply within_tls; [done|]. intros Hc. by apply Hr.
Qed.

Lemma drain_within (self : t C) b : within self → within (drain_tls self b).1.1.
Proof.
  intros Hs. unfold drain_tls. destruct b as [|x b]; [done|]. destruct (negb _); [done|].
  pose proof (me_write _ _ Hm _ StdIo.slice_write (tls self) ([], x :: b)) as Hr.
  destruct (tls_write _ _ _) as [[c [head rest]] r]. pose proof (within_tls _ _ Hs Hr) as Hs1.
  destruct r as [n|e]; [|done].
  destruct (failure (set_tls self c)) eqn:Hf; [by destruct Hs1|].
  destruct (refresh _ _) as [s2 u] eqn:Hrun. apply refreshed in Hrun as [Hl2 Hs2]; [|by destruct Hs1].
  destruct u; [by apply Hs2|by apply record_within].
Qed.

Lemma finish_truncated_within (self : t C) : within self → within (finish_truncated self).1.
Proof.
  intros Hs. unfold finish_truncated. destruct (_ =? _); [|done]. apply (record_within self), Hs.
Qed.

Lemma finish_within (self : t C) : within self → within (finish_input self).1.
Proof.
  intros Hs. unfold finish_input. destruct (ensure_progressing self); [|done].
  destruct (peer_closure self); [|done|by apply finish_truncated_within].
  pose proof (me_read _ _ Hm _ StdIo.empty_read (tls self) tt) as Hr.
  destruct (tls_read _ _ _) as [[c s] r]. pose proof (within_tls _ _ Hs Hr) as Hs1.
  destruct r as [n|e]; [|done]. destruct (refresh _ _) as [s2 u] eqn:Hrun.
  apply refreshed in Hrun as [Hl2 Hs2]; [|by destruct Hs1].
  destruct u; [|by apply record_within]. apply finish_truncated_within.
  specialize (Hs2 eq_refl). case_bool_decide; [done|by destruct Hs2].
Qed.

Lemma close_within (self : t C) : within self → within (send_close_notify self).1.
Proof.
  intros Hs. unfold send_close_notify. destruct (ensure_progressing self); [|done].
  destruct (close_notify_sent self); [done|]. destruct (negb _); [done|].
  destruct (refresh _ _) as [s2 u] eqn:Hrun. apply refreshed in Hrun as [Hl2 Hs2]; [|by destruct Hs].
  destruct u; [by apply Hs2|by apply record_within].
Qed.

Lemma perform_within (self : t C) c : within self → within (perform self c).1.
Proof.
  intros Hs. destruct c as [b|b|b|b| |]; cbn [perform counted fst].
  - by apply ingest_within.
  - pose proof (read_within self b Hs) as Hr. by destruct (read_plaintext _ _) as [[? ?] ?].
  - by apply write_within.
  - pose proof (drain_within self b Hs) as Hr. by destruct (drain_tls _ _) as [[? ?] ?].
  - by apply finish_within.
  - by apply close_within.
Qed.

Lemma perform_all_within calls (self : t C) : within self → within (perform_all self calls).
Proof.
  revert self. induction calls as [|c calls IH]; intros self Hs; [done|].
  by apply IH, perform_within.
Qed.

Lemma start_within tls self : start lims tls = Ok self → within self.
Proof.
  unfold start. destruct (tls_process_new_packets _) as [c [state|?]] eqn:Hp; [|done].
  destruct (RustlsTransportLimits.validate_state _ _ _) as [[]|?] eqn:Hv; [|done].
  intros [= <-]. apply Authenticity.validate_spec in Hv as [[_ He] [_ Hb]].
  split; [done|]. intros _. by eapply me_process.
Qed.

End session_contents.

(** *** Status *)

(** A status reports each of the five conditions by its own bit. *)
Lemma status_reports (self : t C) :
  let s := status self in
  RustlsStatus.is_handshaking s = tls_is_handshaking (tls self) ∧
  RustlsStatus.is_open s =
    opened self && negb (close_notify_sent self) && negb (bool_decide (is_Some (failure self))) ∧
  RustlsStatus.wants_read s =
    tls_wants_read (tls self) && bool_decide (peer_closure self = RustlsPeerClosure.Open)
    && negb (bool_decide (is_Some (failure self))) ∧
  RustlsStatus.wants_write s = tls_wants_write (tls self) ∧
  RustlsStatus.close_notify_sent s = close_notify_sent self ∧
  0 ≤ RustlsStatus.flags s < 2 ^ 5.
Proof.
  unfold status, RustlsStatus.is_handshaking, RustlsStatus.is_open, RustlsStatus.wants_read,
    RustlsStatus.wants_write, RustlsStatus.close_notify_sent. cbn [RustlsStatus.flags].
  generalize (tls_wants_read (tls self) && bool_decide (peer_closure self = RustlsPeerClosure.Open)
    && negb (bool_decide (is_Some (failure self)))) as rd.
  destruct (close_notify_sent self), (opened self), (bool_decide (is_Some (failure self))),
    (tls_is_handshaking (tls self)), (tls_wants_write (tls self)); intros []; vm_compute; by split_and!.
Qed.

End session_failures.
End SessionSpec.

(** ** The transports and the sessions *)

Module Transports.
Section transports.
Context {Cal : Calandria} {H : Host} {SH : SetHost} {SK : Sockets} {RL : Rustls}.
Context {Laws : CalandriaLaws Cal} {SLaws : SocketLaws SK} {RLaws : RustlsLaws RL}.

(** C33: The native transport is a transport a slot and a set can trust, in every
    state and retaining no memory. Establishing it ends: driven while it asks to
    be, three operations are enough until it is open or has to wait for the
    selector, unless it fails to connect or to apply its socket policy. A
    direction that was cleared, as a slot does when it blocks, is not offered
    again, whatever is called on the transport, before the selector reports
    readiness. *)
Theorem tcp_transport_contract :
  TransportContract TcpTransport.slot_transport true rb_ZERO (λ _, True) ∧
  (∀ source, RegisteredContract (TcpTransport.registered_transport source) (λ _, True)) ∧
  (∀ self policy budget,
    let '(self', r) := TcpSpec.establishing 3 policy budget self in
    match r with
    | Ok _ => TcpTransport.can_establish self' = false
    | Err e => TcpSpec.establishment_failure e
    end) ∧
  (∀ self t,
    (TcpSpec.unreported (TcpTransport.clear_read self) t → TcpTransport.can_read t = false) ∧
    (TcpSpec.unreported (TcpTransport.clear_write self) t → TcpTransport.can_write t = false)).
Proof.
  split; [apply TcpSpec.tcp_contract|]. split; [by split|]. split; [|apply TcpSpec.cleared].
  intros self policy budget. apply TcpSpec.establishing_ends.
  destruct (TcpTransport.phase self); simpl; lia.
Qed.

(** C32: A TLS transport that connects fits the memory it was supplied, and is a
    transport a slot and a set can trust: whatever calls follow, and however it
    is registered, it satisfies the transport contract under the total of its
    configured pressure. Throughout, the plaintext it counts stays within its
    limit, and it reports a clean end of input only on a connection whose peer
    closed with an authenticated [close_notify]: any property of connections
    that such a notice establishes, and nothing undoes, holds. What the
    connection itself holds is within the limits, however that is measured, as
    long as no call reported a failure and none is pending (a write that has
    accepted its bytes leaves the failure it finds pending). *)
Theorem tls_transport_contract config address supplied self :
  connector_connect (RustlsConnector.new config) address supplied = Ok self →
  let lims := RustlsTransportConfig.limits config in
  let bound := TransportPressure.total (RustlsTransportLimits.pressure lims) in
  rb_get bound ≤ rb_get (TransportLimits.retained_bytes supplied) ∧
  RustlsTransport.is_open self = false ∧
  (∀ contained, Authenticity.measured lims contained →
    ∀ t, TlsTransportSpec.served self t → RustlsTransport.pending_error t = None →
      contained (RustlsTransport.tls t)) ∧
  ∀ closed, Authenticity.learned closed →
    ∃ holds, TransportContract RustlsTransport.slot_transport true bound holds ∧
      (∀ source, TlsTransportSpec.delegates source →
        RegisteredContract (RustlsTransport.registered_transport source) holds) ∧
      holds self ∧
      ∀ t, holds t →
        0 ≤ RustlsTransport.plaintext_bytes t ≤
          nonzero_get (RustlsTransportLimits.max_plaintext_bytes lims) ∧
        (RustlsTransport.eof t = RustlsTransport.Clean → closed (RustlsTransport.tls t)).
Proof.
  intros Hcon lims bound.
  cbn [connector_connect RustlsConnector.connector RustlsConnector.config] in Hcon.
  destruct (RustlsTransport.connect _ _ _) as [s|e] eqn:Hrun; [|done]. injection Hcon as <-.
  destruct (TlsTransportSpec.connect_starts lims (λ _, True) _ _ _ _ Hrun eq_refl)
    as (Hle & _ & Hopen).
  split; [exact Hle|]. split; [exact Hopen|]. split.
  { intros contained Hm t Hserved.
    eapply (TlsTransportSpec.served_within lims contained Hm _ _ Hserved).
    by eapply TlsTransportSpec.connect_within. }
  intros closed Hclosed.
  exists (TlsTransportSpec.holds lims closed). split; [by apply TlsTransportSpec.tls_contract|].
  split; [intros source; by apply TlsTransportSpec.tls_registered|].
  split; [by eapply TlsTransportSpec.connect_starts|].
  intros t [_ Hp Hc]. split; [exact Hp|exact Hc].
Qed.

(** What the sessions promise of their memory, over either kind of connection:
    along any calls the counts are within the limits, no call counts more than
    it was given room for, and a clean end of input is authenticated; and the
    connection itself holds no more than the limits, however that is measured,
    as long as the session has not failed. *)
Definition kept {C : Type} {Conn : RustlsConnection RustlsError IoState C}
    (lims : RustlsTransportLimits.t) (self : RustlsSession.t C) : Prop :=
  ∀ closed contained, Authenticity.learned closed → Authenticity.measured lims contained →
  ∀ calls,
    let self' := SessionSpec.perform_all self calls in
    SessionSpec.bounded lims closed self' ∧
    (RustlsSession.failure self' = None → contained (RustlsSession.tls self')) ∧
    ∀ c n, (SessionSpec.perform self' c).2 = Ok n → 0 ≤ n ≤ SessionSpec.room self' c.

Lemma started_kept {C : Type} {Conn : RustlsConnection RustlsError IoState C}
    {CLaws : RustlsConnectionLaws Conn} lims tls self :
  RustlsSession.start lims tls = Ok self → kept lims self.
Proof.
  intros Hs closed contained Hclosed Hm calls self'. split; [|split].
  - apply SessionSpec.perform_all_bounded; [done|]. by eapply SessionSpec.start_bounded.
  - apply (SessionSpec.perform_all_within lims contained Hm). by eapply SessionSpec.start_within.
  - intros c n. apply SessionSpec.perform_count.
Qed.

(** C34: A TLS session keeps its limits. A client or a server session is only
    constructed within the memory supplied; whatever its owner then calls, the
    plaintext and the ciphertext it counts, and reports, stay within the
    configured bounds, no call consumes or produces more bytes than its buffer,
    an ingest no more than the inbound charge, and the peer's input ends cleanly
    only by an authenticated [close_notify]. What its connection holds, however
    that is measured, is within the bounds too as long as the session has not
    failed: the call that takes it beyond them latches the failure. *)
Theorem session_keeps_limits :
  (∀ config supplied self, RustlsClientSession.new config supplied = Ok self →
    let lims := RustlsTransportConfig.limits config in
    rb_get (TransportPressure.total (RustlsTransportLimits.pressure lims)) ≤
      rb_get (TransportLimits.retained_bytes supplied) ∧
    kept lims self) ∧
  (∀ config supplied self, RustlsServerSession.new config supplied = Ok self →
    let lims := RustlsServerConfig.limits config in
    rb_get (TransportPressure.total (RustlsTransportLimits.pressure lims)) ≤
      rb_get (TransportLimits.retained_bytes supplied) ∧
    kept lims self).
Proof.
  split; intros config supplied self Hrun lims;
    [unfold RustlsClientSession.new in Hrun|unfold RustlsServerSession.new in Hrun];
    rewrite rb_gtb_spec in Hrun;
    (match type of Hrun with context [?a <? ?b] => destruct (Z.ltb_spec a b) as [|Hle] end; [done|]);
    (split; [exact Hle|]).
  - destruct (client_new _ _); [|done].
    destruct (RustlsSession.start _ _) as [s|[?|?]] eqn:Hstart; [|done..].
    injection Hrun as <-. by eapply started_kept.
  - destruct (server_new _); [|done].
    destruct (RustlsSession.start _ _) as [s|[?|?]] eqn:Hstart; [|done..].
    injection Hrun as <-. by eapply started_kept.
Qed.

(** C35: A TLS session fails once, and says so. The call that finds the failure
    returns it, unless it has accepted or produced bytes already, whose count it
    then returns; from then on, whatever is called, the failure is the first
    one, every call that would make progress returns it and changes nothing, and
    the status shows it and asks for no more input. *)
Theorem session_fails_once {C : Type} {Conn : RustlsConnection RustlsError IoState C}
    (self : RustlsSession.t C) c d calls :
  RustlsSession.failure self = None →
  RustlsSession.failure (SessionSpec.perform self c).1 = Some d →
  SessionSpec.told c d (SessionSpec.perform self c).2 ∧
  let self' := SessionSpec.perform_all (SessionSpec.perform self c).1 calls in
  RustlsStatus.failure (RustlsSession.status self') = Some d ∧
  RustlsStatus.is_open (RustlsSession.status self') = false ∧
  RustlsStatus.wants_read (RustlsSession.status self') = false ∧
  ∀ c', SessionSpec.progresses c' = true →
    SessionSpec.perform self' c' = (self', Err (TransportError.new d)).
Proof.
  intros Hn Hf. split; [by apply SessionSpec.perform_told|]. intros self'.
  assert (RustlsSession.failure self' = Some d) as Hd by by apply SessionSpec.failed_stays_all.
  destruct (SessionSpec.status_reports self') as (_ & -> & -> & _). rewrite Hd.
  rewrite bool_decide_true by eauto. rewrite !andb_false_r.
  split; [exact Hd|]. split; [done|]. split; [done|].
  intros c' Hc. by apply SessionSpec.failed_refuses.
Qed.

End transports.
End Transports.
