(* ===== verification/SetSample.v ===== *)
(** * A concrete set

    [set_lists] implements what hosts a set by lists and finite maps, and
    satisfies [SetHostLaws]: tokens are numbers, and the selector serves a few
    polls before it fails. Two connections over the pipes of [HostSample] run a
    script on it. [Wires] adds sockets and TLS connections kept in memory: they
    satisfy [SocketLaws] and [RustlsLaws]. *)
From Stdlib Require Import ZArith Lia.
From Stdlib Require Strings.Byte.
From stdpp Require Import prelude gmap.
From S2P Require Import Prelude External Host Identity Limits Admission Ledger Operation Permit.
From S2P Require Import Write Framing Machine Core Recovery Sample.
From S2P Require Import Config Transport SlotData Slot Drive SlotSpec SlotCalls DriveSpec.
From S2P Require Import QuantumSpec SlotSystem HostSample.
From S2P Require Import SetHost SetData SetOwner SetSpec SetStanding SetSystem SetRuns Standalone StandaloneTheorems.
From S2P Require Import Tcp Tls TlsTransport TlsSession TlsTheorems.

Module SetLists.

Import HostLists.

Record table (K V : Type) : Type := mk_table {
  room : Z;
  issued : list Z;
  entries : gmap Z (K * V);
}.
#[global] Arguments mk_table {K V}.
#[global] Arguments room {K V}.
#[global] Arguments issued {K V}.
#[global] Arguments entries {K V}.

(** A token above those given out. *)
Definition next_token (l : list Z) : Z := foldr (λ x m, Z.max (x + 1) m) 0 l.

Lemma next_token_fresh l : next_token l ∉ l ∧ Forall (λ x, x < next_token l) l.
Proof.
  assert (Forall (λ x, x < next_token l) l) as Hf.
  { induction l as [|x l IH]; simpl; constructor; [lia|]. eapply Forall_impl; [exact IH|]. simpl. lia. }
  split; [|done]. intros Hin. rewrite Forall_forall in Hf. specialize (Hf _ Hin). lia.
Qed.

(** Entries are kept under the tokens given out. *)
Definition lookup_table {K V : Type} (t : table K V) (token : Z) : option (K * V) :=
  if bool_decide (token ∈ issued t) then entries t !! token else None.

Definition live_entries {K V : Type} (t : table K V) : gmap Z (K * V) :=
  filter (λ kv, kv.1 ∈ issued t) (entries t).

Definition admit_entry {K V : Type} (t : table K V) (k : K) (v : V) : table K V * option Z :=
  if Z.of_nat (size (live_entries t)) <? room t
  then
    let token := next_token (issued t) in
    (mk_table (room t) (token :: issued t) (<[token := (k, v)]> (live_entries t)), Some token)
  else (t, None).

Definition write_entry {K V : Type} (t : table K V) (token : Z) (v : V) : table K V :=
  match lookup_table t token with
  | Some (k, _) => mk_table (room t) (issued t) (<[token := (k, v)]> (entries t))
  | None => t
  end.

Definition remove_entry {K V : Type} (t : table K V) (token : Z) : table K V * option (K * V) :=
  (mk_table (room t) (issued t) (delete token (entries t)), lookup_table t token).

(** Messages, and whether the mailbox is closed. *)
Definition mailbox (M : Type) : Type := bool * list M.

Definition send {M : Type} (m : mailbox M) (x : M) : mailbox M * result unit M :=
  if m.1 then (m, Err x) else ((m.1, m.2 ++ [x]), Ok tt).

Definition drain_mailbox {M : Type} (m : mailbox M) (buffer : list M) (n : NonZeroUsize)
    : mailbox M * list M * (Z * bool) :=
  let k := Z.to_nat (nonzero_get n) in
  ((m.1, drop k m.2), buffer ++ take k m.2,
   (Z.of_nat (length (take k m.2)), negb (bool_decide (drop k m.2 = [])))).

(** What is registered, and the polls left. *)
Record selector : Type := mk_selector { tokens : gset Z; polls : nat }.

Inductive next : Type := Now | Wake | WakeOr (deadline : Z) | Stop.

Definition poll (p : selector) (e : Z * list (option (Z * Z)))
    : selector * (Z * list (option (Z * Z))) * result (Z * Z * bool) unit :=
  match polls p with
  | O => (p, e, Err tt)
  | S n => (mk_selector (tokens p) n, e, Ok (0, 0, false))
  end.

#[export] Instance set_lists : SetHost := {
  ResourceToken := Z;
  ResourceTable := table;
  ResourceTableSnapshot := Z;
  table_new K V _ n := mk_table (nonzero_get n) [] ∅;
  table_admit K V := admit_entry;
  table_get K V := lookup_table;
  table_set K V := write_entry;
  table_remove K V := remove_entry;
  table_iter K V t := map_to_list (live_entries t);
  table_snapshot K V t := Z.of_nat (size (live_entries t));
  WakeHandle := unit;
  LaneLimits := unit;
  lane_limits_new _ _ := tt;
  MailboxLimits := unit;
  mailbox_limits_new _ _ := tt;
  Mailbox := mailbox;
  MailboxSnapshot := nat;
  TrySendError M := M;
  mailbox_new M _ _ := (false, []);
  mailbox_try_send M _ := send;
  mailbox_try_send_control M _ := send;
  DrainReport := Z * bool;
  drain_drained := fst;
  drain_more_pending := snd;
  mailbox_drain_into M := drain_mailbox;
  mailbox_close M m := (true, m.2);
  mailbox_snapshot M m := length m.2;
  Source T := unit;
  Readiness := Z;
  interest_eqb := Bool.eqb;
  interest_READ_WRITE := true;
  span_ZERO := 0;
  MioPoller := selector;
  MioPollerLimits := Z;
  MioPollerSnapshot := unit;
  PulseHandle := unit;
  poller_limits_new e _ := nonzero_get e;
  poller_new _ := Ok (mk_selector ∅ 2);
  poller_wake_handle _ := tt;
  poller_pulse_handle _ := tt;
  poller_snapshot _ := tt;
  PollEvents := Z * list (option (Z * Z));
  PollEvent := option (Z * Z);
  poller_event_batch _ := (4, []);
  poll_events_drain e := ((e.1, []), take (Z.to_nat e.1) e.2);
  poll_event_resource e := e;
  PollReport := Z * Z * bool;
  report_observed r := r.1.1;
  report_stale r := r.1.2;
  report_saturated := snd;
  poller_poll p _ e := poll p e;
  poller_register T _ p t token _ := (mk_selector ({[token]} ∪ tokens p) (polls p), t, Ok tt);
  poller_reregister T _ p t _ _ := (p, t, Ok tt);
  poller_deregister T _ p t token := (mk_selector (tokens p ∖ {[token]}) (polls p), t, Ok tt);
  mio_io _ := None;
  Next := next;
  next_now := Now;
  next_wake := Wake;
  next_wake_or := WakeOr;
  next_stop := Stop;
  Turn := Z * next;
  turn_new := pair;
  turn_work := fst;
  turn_next := snd;
  WaitOutcome := bool;
  wait_idle := false;
  wait_notified := true;
}.

Lemma lookup_live {K V : Type} (t : table K V) token :
  lookup_table t token = live_entries t !! token.
Proof.
  unfold lookup_table, live_entries. case_bool_decide as Hin.
  - destruct (entries t !! token) as [kv|] eqn:Hl; symmetry.
    + by apply map_lookup_filter_Some.
    + apply map_lookup_filter_None. by left.
  - symmetry. apply map_lookup_filter_None. right. by intros kv _.
Qed.

Lemma live_write {K V : Type} (t : table K V) token k (v v' : V) :
  live_entries t !! token = Some (k, v) →
  live_entries (write_entry t token v') = <[token := (k, v')]> (live_entries t).
Proof.
  intros Hl. pose proof Hl as Hl'. rewrite <- lookup_live in Hl'. unfold write_entry. rewrite Hl'.
  apply map_lookup_filter_Some in Hl as [_ Hin]. unfold live_entries. cbn [entries issued].
  by rewrite map_filter_insert_True.
Qed.

#[export] Instance set_lists_laws : SetHostLaws set_lists.
Proof.
  unshelve refine {|
    resource_token_countable := _ : Countable Z;
    table_map K V t := live_entries (t : table K V);
    table_capacity K V t := room (t : table K V);
    table_issued K V t := issued (t : table K V);
    mailbox_items M m := snd (m : mailbox M);
    poll_events_items e := take (Z.to_nat (fst (e : Z * list (option (Z * Z)))))
      (snd (e : Z * list (option (Z * Z))));
    poll_events_bound e := Z.max 0 (fst (e : Z * list (option (Z * Z))));
    poller_tokens p := tokens (p : selector) |}; try done; simpl.
  all: match goal with
    | |- ∀ (K V : Type) (t : table K V) token, lookup_table _ _ = _ => intros; apply lookup_live
    | |- _ => idtac end.
  - intros K V t token k v v' Hl. rewrite (live_write _ _ _ _ _ Hl).
    pose proof Hl as Hl'. rewrite <- lookup_live in Hl'. unfold write_entry. by rewrite Hl'.
  - intros K V t t' k v token. unfold admit_entry. case_match eqn:Hroom; [|done].
    intros [= <- <-]. destruct (next_token_fresh (issued t)) as [Hf Hall]. split; [done|].
    split; [done|]. split; [|split; [done|by apply Z.ltb_lt]].
    unfold live_entries at 1. cbn [entries issued].
    rewrite map_filter_insert_True by by constructor. f_equal.
    apply map_filter_id. intros i x [_ Hi]%map_lookup_filter_Some. by right.
  - intros K V t t' k v. unfold admit_entry. case_match eqn:Hroom; [done|].
    intros [= <-]. by apply Z.ltb_ge in Hroom.
  - intros K V t token. unfold remove_entry. cbn [fst snd]. split; [apply lookup_live|].
    split; [|done]. unfold live_entries. cbn [entries issued]. apply map_filter_delete.
  - intros K V t token kv [_ Hi]%map_lookup_filter_Some. exact Hi.
  - intros M m buffer n. unfold drain_mailbox. eexists. split; [done|]. cbn [snd fst].
    rewrite take_drop. split; [done|]. split; [done|]. rewrite length_take. split; [lia|].
    intros Hd%negb_false_iff. by apply bool_decide_eq_true in Hd.
  - intros e. rewrite length_take. lia.
  - intros e. by rewrite take_nil.
  - intros p s e. unfold poll. by destruct (polls p).
  - intros l p [= <-]. done.
  - intros p s e. unfold poll. by destruct (polls p).
  - apply Bool.eqb_true_iff.
  - intros d. apply Z.leb_refl.
  - intros d d'. rewrite !Z.leb_le. lia.
  - intros a b c. rewrite !Z.leb_le. lia.
  - by intros d d' [= ->].
Defined.

End SetLists.

Module SetSample.

Import HostLists SlotSample SetLists.

#[export] Instance pipe_registered : RegisteredTransport pipe := {
  rt_source := tt : Source pipe;
  rt_observe_readiness p _ := p;
}.

(** A connector is the pipe it connects. *)
#[export] Instance pipe_connector : TransportConnector pipe pipe := {
  connector_connect p _ _ := Ok p;
}.

Lemma pipes_contract : TransportContract pipe_transport false rb_ZERO (trustworthy false).
Proof. destruct (pipe_contract false). by split. Qed.

Lemma pipes_registered : RegisteredContract pipe_registered (trustworthy false).
Proof. by split. Qed.

Lemma pipes_connect (p : pipe) (address : SocketAddr) (limits : TransportLimits.t) (t : pipe) :
  connector_connect p address limits = Ok t → trustworthy false t.
Proof. by intros _ ?. Qed.

Definition set_world : Type := SetSystem.world (list Byte.byte) unit pipe.
Definition set_command : Type := SetSystem.command (list Byte.byte) unit pipe.

(** Room for two connections, one of which is driven per turn. *)
Definition set_limits : ConnectionSetLimits.t :=
  ConnectionSetLimits.new (mk_nonzero 2) (mk_nonzero 4) (mk_nonzero 4) (mk_nonzero 2) (mk_nonzero 1).

Definition set_config : ConnectionSetConfig.t := ConnectionSetConfig.new tt.

Definition set_created : { w : set_world | SetSystem.start set_config set_limits Sample.heap = Some w }.
Proof. eexists. reflexivity. Defined.

Definition set_initial : set_world := proj1_sig set_created.

Lemma set_start : SetSystem.start set_config set_limits Sample.heap = Some set_initial.
Proof. exact (proj2_sig set_created). Qed.

Lemma set_room : 0 ≤ nonzero_get (ConnectionSetLimits.max_connections set_limits).
Proof. done. Qed.

Definition identity (n : Z) : ConnectionIdentity.t :=
  ConnectionIdentity.new (EndpointId.new 0) (LaneId.new 0) (ConnectionId.new n) Sample.epoch.

(** The first connection and the second, as they are made in this order. *)
Definition first : ConnectionToken.t := ConnectionToken.new 0 (identity 0).
Definition second : ConnectionToken.t := ConnectionToken.new 1 (identity 1).

Definition connect (n : Z) (ledger : LedgerRef) (p : pipe) : set_command :=
  SetSystem.Connect (ConnectionConfig.new (identity n) tt (20 : Deadline) tt) limits [] tt p ledger.

(** The second pipe claims to have read more than it was asked for. *)
Definition pair_script : list set_command :=
  [ connect 0 1%positive (fresh_pipe false);
    connect 1 2%positive (mk_pipe false true [Byte.x05] []);
    SetSystem.Turn (1 : Moment);
    SetSystem.OpenAdmission first;
    SetSystem.Reserve first (1 : Moment) Sample.regular;
    SetSystem.Commit first 0 0 hello;
    SetSystem.Reserve first (1 : Moment) Sample.notify;
    SetSystem.Commit first 0 0 hello;
    SetSystem.Turn (1 : Moment);
    SetSystem.Turn (2 : Moment);
    SetSystem.Turn (2 : Moment);
    SetSystem.DrainOutcomes first ].

Fixpoint run_set (w : set_world) (cs : list set_command) : set_world :=
  match cs with [] => w | c :: cs => run_set (SetSystem.exec w c) cs end.

(** The same bounds with one unit of work per quantum. *)
Definition slow_limits : ConnectionSlotLimits.t :=
  ConnectionSlotLimits.mk Sample.limits (DecoderLimits.new (u64_of 8) (u64_of 8))
    (IoLimits.new (mk_nonzero 1) (mk_nonzero 4)) (TransportLimits.new (u64_of 32))
    (PublicationLimits.new (mk_nonzero 4)) (u64_of 16) (mk_nonzero 2).

Lemma slow_bounds :
  ConnectionSlotLimits.new Sample.limits (DecoderLimits.new (u64_of 8) (u64_of 8))
    (IoLimits.new (mk_nonzero 1) (mk_nonzero 4)) (TransportLimits.new (u64_of 32))
    (PublicationLimits.new (mk_nonzero 4)) = Ok slow_limits.
Proof. unfold slow_limits, ConnectionSlotLimits.new. simpl. do 3 f_equal. Qed.

Lemma slow_limits_valid : Hosted.valid_limits slow_limits.
Proof.
  eapply Hosted.slot_limits_new_valid; [apply Sample.limits_are_valid| | | |exact slow_bounds];
    simpl; lia.
Qed.

(** Every connection is made with one of these. *)
Definition bounded (c : set_command) : Prop :=
  match c with
  | SetSystem.Connect _ b _ _ _ _ => b = limits ∨ b = slow_limits
  | _ => True
  end.

(** The rest of what a call needs, decided. *)
Definition set_admissible_b (w : set_world) (c : set_command) : bool :=
  match c with
  | SetSystem.Connect _ _ _ _ _ address =>
      forallb (λ a, negb (Pos.eqb (SetStanding.ledger a.2) address))
        (map_to_list (SetSystem.accounts w))
  | SetSystem.Commit _ _ _ frame => Z.of_nat (length (frame_bytes frame)) <=? USIZE_MAX
  | SetSystem.Finalize _ reason => negb (bool_decide (reason = CloseReason.Drained))
  | _ => true
  end.

Lemma set_admissible_b_sound w c :
  bounded c → set_admissible_b w c = true → SetSystem.admissible w c.
Proof.
  destruct c; simpl; try done.
  - intros Hb. rewrite forallb_forall. intros Hall.
    split; [destruct Hb as [->| ->]; [apply limits_valid|apply slow_limits_valid]|].
    intros r a Ha%elem_of_map_to_list%list_elem_of_In. specialize (Hall _ Ha). simpl in Hall.
    by apply negb_true_iff, Pos.eqb_neq in Hall.
  - intros _. apply Z.leb_le.
  - intros _. rewrite negb_true_iff. apply bool_decide_eq_false.
Qed.

Fixpoint set_admissible_all (w : set_world) (cs : list set_command) : bool :=
  match cs with
  | [] => true
  | c :: cs => set_admissible_b w c && set_admissible_all (SetSystem.exec w c) cs
  end.

Lemma set_run_reachable w0 w cs :
  SetSystem.reachable (K := pipe) w0 w → Forall bounded cs → set_admissible_all w cs = true →
  SetSystem.reachable (K := pipe) w0 (run_set w cs).
Proof.
  intros Hr Hb. revert w Hr. induction Hb as [|c cs Hc Hb IH]; intros w Hr Ha; simpl in *; [done|].
  apply andb_true_iff in Ha as [Ha Hall]. apply IH; [|done].
  apply SetSystem.reachable_step; [done|]. by apply set_admissible_b_sound.
Qed.

(** Both connections after the script. *)
Definition pair_run : set_world := run_set set_initial pair_script.

Lemma pair_reachable : SetSystem.reachable (K := pipe) set_initial pair_run.
Proof.
  apply set_run_reachable; [constructor|repeat constructor|]. vm_compute. reflexivity.
Qed.

End SetSample.

Module Wires.

Import HostLists SetLists.

(** What the peer sends, and what was sent to it. *)
Record wire : Type := mk_wire { incoming : list Byte.byte; sent : list Byte.byte }.

(** The peer of every stream: it ends the handshake, says one byte, and closes. *)
Definition script : list Byte.byte := [Byte.x16; Byte.x41; Byte.x15].

#[export] Instance wires : Sockets := {
  readiness_EMPTY := 0;
  readiness_READABLE := 1;
  readiness_WRITABLE := 2;
  readiness_READ_CLOSED := 4;
  readiness_WRITE_CLOSED := 8;
  readiness_ERROR := 16;
  readiness_union := Z.lor;
  readiness_remove := Z.ldiff;
  readiness_intersects a b := negb (Z.land a b =? 0);
  interest_READABLE := false;
  interest_WRITABLE := true;
  TcpStream := wire;
  stream_connect _ := Ok (mk_wire script []);
  stream_read s b :=
    match incoming s, b with
    | [], _ :: _ => (s, b, Err (IoError.new ErrorKind.WouldBlock None))
    | _, _ =>
        let n := Nat.min (length b) (length (incoming s)) in
        (mk_wire (drop n (incoming s)) (sent s), take n (incoming s) ++ drop n b, Ok (Z.of_nat n))
    end;
  stream_write s b := (mk_wire (incoming s) (sent s ++ b), Ok (Z.of_nat (length b)));
  stream_flush s := (s, Ok tt);
  stream_take_error s := (s, Ok None);
  stream_peer_addr s := (s, Ok tt);
  stream_set_nodelay s _ := (s, Ok tt);
  stream_set_keepalive s _ := (s, Ok tt);
}.

#[export] Instance wires_laws : SocketLaws wires.
Proof.
  split; simpl.
  - intros s b n. destruct (incoming s), b; simpl; intros [= <-]; simpl; lia.
  - intros s b n [= <-]. lia.
  - intros r flags. by rewrite Z.land_ldiff.
  - intros r flags flags'. rewrite !negb_true_iff, !Z.eqb_neq. intros Hi Hr. apply Hi.
    apply Z.bits_inj'. intros i Hn. rewrite Z.land_spec, Z.ldiff_spec, Z.bits_0.
    apply (f_equal (λ z, Z.testbit z i)) in Hr. rewrite Z.land_spec, Z.bits_0 in Hr.
    by destruct (Z.testbit r i), (Z.testbit flags' i), (Z.testbit flags i).
Qed.

(** A connection that sends every byte as it is, but for three that stand for
    the end of the handshake, an authenticated close and a protocol error. *)
Record conn : Type := mk_conn {
  outgoing : list Byte.byte;
  raw : list Byte.byte;
  plain : list Byte.byte;
  shaking : bool;
  ended : bool;
}.

Fixpoint digest (bytes : list Byte.byte) (c : conn) : conn * bool :=
  match bytes with
  | [] => (c, true)
  | x :: bytes =>
      if Byte.eqb x Byte.xff
      then (mk_conn (outgoing c) bytes (plain c) (shaking c) (ended c), false)
      else
        digest bytes
          (if Byte.eqb x Byte.x16 then mk_conn (outgoing c) [] (plain c) false (ended c)
           else if Byte.eqb x Byte.x15 then mk_conn (outgoing c) [] (plain c) (shaking c) true
           else mk_conn (outgoing c) [] (plain c ++ [x]) (shaking c) (ended c))
  end.

Definition process (c : conn) : conn * result (nat * nat * bool) unit :=
  let '(c, ok) := digest (raw c) (mk_conn (outgoing c) [] (plain c) (shaking c) (ended c)) in
  (c, if ok then Ok (length (outgoing c), length (plain c), ended c) else Err tt).

#[export] Instance conn_rustls : RustlsConnection unit (nat * nat * bool) conn := {
  tls_process_new_packets := process;
  tls_set_buffer_limit c _ := c;
  tls_read R read c r :=
    let '(r, b, n) := read r (replicate 16 Byte.x00) in
    match n with
    | Ok n =>
        (mk_conn (outgoing c) (raw c ++ take (Z.to_nat n) b) (plain c) (shaking c) (ended c), r, Ok n)
    | Err e => (c, r, Err e)
    end;
  tls_write W write c w :=
    let '(w, n) := write w (outgoing c) in
    match n with
    | Ok n =>
        (mk_conn (drop (Z.to_nat n) (outgoing c)) (raw c) (plain c) (shaking c) (ended c), w, Ok n)
    | Err e => (c, w, Err e)
    end;
  tls_reader_read c b :=
    match plain c, ended c with
    | [], false => (c, b, Err (IoError.new ErrorKind.WouldBlock None))
    | _, _ =>
        let n := Nat.min (length b) (length (plain c)) in
        (mk_conn (outgoing c) (raw c) (drop n (plain c)) (shaking c) (ended c),
         take n (plain c) ++ drop n b, Ok (Z.of_nat n))
    end;
  tls_writer_write c b :=
    (mk_conn (outgoing c ++ b) (raw c) (plain c) (shaking c) (ended c), Ok (Z.of_nat (length b)));
  tls_wants_read c := negb (ended c);
  tls_wants_write c := negb (bool_decide (outgoing c = []));
  tls_is_handshaking := shaking;
  tls_send_close_notify c :=
    mk_conn (outgoing c ++ [Byte.x15]) (raw c) (plain c) (shaking c) (ended c);
  tls_alpn_protocol _ := None;
}.

Definition hello : conn := mk_conn [Byte.x16] [] [] true false.

#[export] Instance wire_rustls : Rustls := {
  ClientConfig := unit;
  ServerConfig := unit;
  ServerName := unit;
  server_name_try_from _ := Some tt;
  RustlsError := unit;
  err_not_valid_for_name _ := false;
  err_unsupported_name_type _ := false;
  err_invalid_certificate _ := false;
  err_invalid_crl _ := false;
  err_no_certificates _ := false;
  IoState := nat * nat * bool;
  io_tls_bytes_to_write s := Z.of_nat s.1.1;
  io_plaintext_bytes_to_read s := Z.of_nat s.1.2;
  io_peer_has_closed s := s.2;
  ClientConnection := conn;
  client_new _ _ := Ok hello;
  ServerConnection := conn;
  server_new _ := Ok hello;
  server_server_name _ := None;
}.

#[export] Instance conn_laws : RustlsConnectionLaws conn_rustls.
Proof.
  split; simpl.
  - intros R read credit c r c' r' n [_ Hr]. specialize (Hr r (replicate 16 Byte.x00)).
    destruct (read r _) as [[r1 b] [k|e]]; [|done]. by intros [= <- <- <-].
  - intros W write credit c w c' w' n [_ Hw]. specialize (Hw w (outgoing c)).
    destruct (write w _) as [w1 [k|e]]; [|done]. by intros [= <- <- <-].
  - intros c b n. destruct (plain c), (ended c); simpl; try done; intros [= <-]; simpl; lia.
  - intros c b n [= <-]. lia.
Qed.

#[export] Instance wire_laws : RustlsLaws wire_rustls.
Proof. split; [simpl; lia|exact conn_laws..]. Qed.

Lemma digest_ended bytes c : ended c = true → ended (digest bytes c).1 = true.
Proof.
  revert c. induction bytes as [|x bytes IH]; intros c Hc; simpl; [done|].
  repeat case_match; try done; by apply IH.
Qed.

(** The connection remembers the close it was told of. *)
Lemma conn_learned : Authenticity.learned (RL := wire_rustls) (λ c : conn, ended c = true).
Proof.
  split; simpl.
  - intros c c' state. unfold process. destruct (digest _ _) as [c1 []]; [|done].
    by intros [= <- <-].
  - intros c Hc. unfold process. pose proof (digest_ended (raw c)
      (mk_conn (outgoing c) [] (plain c) (shaking c) (ended c)) Hc) as Hd.
    by destruct (digest _ _) as [c1 []].
  - intros R read c r Hc. by destruct (read r _) as [[r1 b] [k|e]].
  - intros W write c w Hc. by destruct (write w _) as [w1 [k|e]].
  - intros c b Hc. by destruct (plain c), (ended c).
  - done.
  - done.
Qed.

(** The bytes such a connection holds either way. *)
Definition holds_within (lims : RustlsTransportLimits.t) (c : conn) : Prop :=
  Z.of_nat (length (outgoing c)) ≤ nonzero_get (RustlsTransportLimits.max_tls_egress_bytes lims) ∧
  Z.of_nat (length (plain c)) ≤ nonzero_get (RustlsTransportLimits.max_plaintext_bytes lims).

Lemma conn_measured lims :
  Authenticity.measured (RL := wire_rustls) lims (holds_within lims : conn → Prop).
Proof.
  unfold holds_within. split; simpl.
  - intros c c' state. unfold process. destruct (digest _ _) as [c1 []]; [|done].
    by intros [= <- <-].
  - intros R read c r Hc. by destruct (read r _) as [[r1 b] [k|e]].
  - intros W write c w [Ho Hp]. destruct (write w _) as [w1 [k|e]]; [|done].
    split; [|done]. cbn [fst snd outgoing]. rewrite length_drop. lia.
  - intros c b [Ho Hp]. destruct (plain c) as [|x p] eqn:Hpl, (ended c);
      cbn [fst snd outgoing plain] in *; rewrite ?Hpl, ?length_drop; simpl in *; lia.
  - intros c b [Ho Hp] Hn. specialize (Hn _ eq_refl). rewrite length_app. lia.
Qed.

End Wires.
