(* ===== verification/SetWitnesses.v ===== *)
(** * The set theorems at work

    Each theorem about sets and standalone connections applied to a concrete
    run: the script of [SetSample], where the second of two connections fails,
    or a part of it. The theorems about TCP and TLS are applied to the sockets
    and connections of [Wires]. *)
From Stdlib Require Import ZArith Lia.
From Stdlib Require Strings.Byte.
From stdpp Require Import prelude gmap.
From S2P Require Import Prelude External Host Identity Limits Admission Ledger Operation Permit.
From S2P Require Import Write Framing Machine Core Recovery ReferenceFacts Sample.
From S2P Require Import Config Transport SlotData Slot Drive SlotSpec SlotCalls DriveSpec.
From S2P Require Import QuantumSpec SlotSystem HostSample.
From S2P Require Import SetHost SetData SetOwner SetSpec SetLife SetTurns SetStanding SetIsolation.
From S2P Require Import SetSystem SetRuns SetForward SetWork SetTheorems.
From S2P Require Import Standalone StandaloneTheorems SetSample.
From S2P Require Import Tcp Tls TlsTransport TlsSession TlsTheorems.

Module SetWitnesses.

Import Hosted SlotCalls ConnectionSet SetSpec SetLife SetTurns SetStanding SetIsolation SetSystem.
Import SetRuns SetWork SetTheorems HostLists SlotSample SetLists SetSample.

(** A theorem about the runs of the set over pipes. *)
Local Notation here thm :=
  (thm (trustworthy false) pipes_contract pipes_registered pipes_connect set_config set_limits
     Sample.heap set_room set_initial set_start) (only parsing).

(** The script up to where the operations of the first connection are
    committed, and the second connection still runs. *)
Definition committed : set_world := run_set set_initial (take 8 pair_script).

Lemma committed_reachable : reachable (K := pipe) set_initial committed.
Proof.
  apply set_run_reachable; [constructor|by repeat (constructor; try done)|]. vm_compute. reflexivity.
Qed.

(** A number as a token. *)
Definition tok (n : Z) : @ResourceToken _ _ set_lists := n.

(** What an evaluated test says is there. *)
Lemma ok_inv {A E : Type} (r : result A E) : is_ok r = true → ∃ a, r = Ok a.
Proof. destruct r as [a|]; [by exists a|done]. Qed.

Lemma live_inv w token :
  bool_decide (is_Some (live (owner w).1 !! tok token)) = true →
  ∃ id e, live (D := list Byte.byte) (C := unit) (T := pipe) (owner w).1 !! tok token = Some (id, e).
Proof. intros [[id e] He]%bool_decide_eq_true. by exists id, e. Qed.

Lemma pair_first : ∃ id e, live (owner pair_run).1 !! tok 0 = Some (id, e).
Proof. apply live_inv. vm_compute. reflexivity. Qed.

Lemma pair_second : ∃ e, entry (owner pair_run).1 second = Ok e.
Proof. apply ok_inv. vm_compute. reflexivity. Qed.

Lemma committed_second : ∃ id e, live (owner committed).1 !! tok 1 = Some (id, e).
Proof. apply live_inv. vm_compute. reflexivity. Qed.

Definition failure_of (w : set_world) (c : ConnectionToken.t) : option OwnerFailure.t :=
  match entry (owner w).1 c with
  | Ok e => EngineState.failure (ConnectionSlot.state (ConnectionEntry.slot e))
  | Err _ => None
  end.

Lemma set_exactly_once_witness :
  match accounts pair_run !! tok 0 with
  | Some a => EngineOutcome.operation <$> delivered (noted a) = [OperationId.new 1]
  | None => False
  end ∧
  ∃ a, accounts pair_run !! tok 0 = Some a ∧ NoDup (accepted (noted a)).
Proof.
  split; [vm_compute; reflexivity|].
  destruct pair_first as (id & e & He).
  destruct (here set_exactly_once pair_run (tok 0) id e pair_reachable He) as (a & Ha & _ & Hn & _).
  exists a. exact (conj Ha Hn).
Defined.

(** The second connection failed; recovery gives it back. *)
Lemma set_recovers_all_witness :
  failure_of pair_run second = Some OwnerFailure.OwnerInvariant ∧
  ∃ s report, abandon second OwnerFailure.Core (owner pair_run) = (s, Ok report) ∧
    RecoveryReport.unmatched_writes report = [] ∧ live s.1 !! tok 1 = None.
Proof.
  split; [vm_compute; reflexivity|].
  destruct pair_second as [e He].
  destruct (here set_recovers_all pair_run second e OwnerFailure.Core pair_reachable He)
    as (s & report & a & H1 & _ & _ & _ & _ & _ & _ & H2 & H3 & _).
  exists s, report. exact (conj H1 (conj H2 H3)).
Defined.

(** Closing the first connection by force does not touch the second. *)
Lemma set_isolates_witness :
  names (Finalize first CloseReason.Requested : set_command) = Some (tok 0) ∧
  ∃ id e, live (owner committed).1 !! tok 1 = Some (id, e) ∧
    Heap.borrow (owner (exec committed (Finalize first CloseReason.Requested : set_command))).2
      (address_of e) = Heap.borrow (owner committed).2 (address_of e).
Proof.
  split; [reflexivity|].
  destruct committed_second as (id & e & He).
  exists id, e. split; [exact He|].
  exact (proj2 (here set_isolates committed (Finalize first CloseReason.Requested) (tok 0) (tok 1) id e
    committed_reachable eq_refl ltac:(discriminate) He)).
Defined.

Lemma set_queue_exact_witness :
  ready (owner committed).1 = [1; 0] ∧ NoDup (ready (owner committed).1).
Proof.
  split; [vm_compute; reflexivity|].
  exact (proj1 (here set_queue_exact committed committed_reachable)).
Defined.

(** A third connection does not fit. *)
Definition third : ConnectionSet.owner (list Byte.byte) unit pipe *
    result ConnectionToken.t (ConnectError.t unit) :=
  connect_with (ConnectionConfig.new (identity 2) tt (20 : Deadline) tt) limits
    ([] : list Byte.byte) tt (fresh_pipe false) 3%positive (owner committed).

Lemma third_refused : match third with (_, Err ConnectError.ResourceAdmission) => true | _ => false end = true.
Proof. vm_compute. reflexivity. Qed.

Lemma set_connect_atomic_witness :
  match third with
  | (s, Err ConnectError.ResourceAdmission) =>
      live s.1 = live (owner committed).1 ∧ commands s.1 = commands (owner committed).1
  | _ => False
  end.
Proof.
  pose proof third_refused as Hr.
  pose proof (here set_connect_atomic committed
    (ConnectionConfig.new (identity 2) tt (20 : Deadline) tt)
    limits ([] : list Byte.byte) tt (fresh_pipe false) 3%positive committed_reachable) as Hc.
  cbv zeta in Hc. fold third in Hc.
  destruct third as [s [token|[]]]; try discriminate Hr.
  destruct Hc as [_ [Hc|(source & He & _)]]; [|discriminate He].
  split; [exact (re_live _ _ Hc)|].
  exact (f_equal (λ x, x.1.2.1.1.1) (re_aside _ _ Hc)).
Defined.

(** After the recovery of the second connection. *)
Definition recovered : set_world :=
  run_set set_initial (pair_script ++ [Abandon second OwnerFailure.Core]).

Lemma recovered_reachable : reachable (K := pipe) set_initial recovered.
Proof.
  apply set_run_reachable; [constructor|by repeat (constructor; try done)|]. vm_compute. reflexivity.
Qed.

Lemma second_issued : tok 1 ∈ table_issued (resources (owner recovered).1).
Proof. eapply bool_decide_unpack. vm_compute. exact I. Qed.

Lemma second_gone : live (owner recovered).1 !! tok 1 = None.
Proof. apply eq_None_not_Some, (bool_decide_eq_false (is_Some _)). vm_compute. reflexivity. Qed.

Lemma set_stale_forever_witness :
  try_recover second (owner recovered) = (owner recovered, Err ConnectionRecoveryError.StaleConnection).
Proof.
  exact (proj1 (proj2 (proj2 (proj2 (proj2 (proj2 (proj2 (proj2
    (here set_stale_forever recovered recovered second recovered_reachable (reachable_init _)
       second_issued second_gone))))))))).
Defined.

(** The first connection holds a permit. *)
Definition holding : set_world := run_set set_initial (take 5 pair_script).

Lemma holding_reachable : reachable (K := pipe) set_initial holding.
Proof.
  apply set_run_reachable; [constructor|by repeat (constructor; try done)|]. vm_compute. reflexivity.
Qed.

Lemma holding_second : ∃ e, entry (owner holding).1 second = Ok e.
Proof. apply ok_inv. vm_compute. reflexivity. Qed.

Lemma holding_permit : ∃ p, permit_of holding (tok 0) 0 = Some p.
Proof. apply (bool_decide_unpack (is_Some _)). vm_compute. exact I. Qed.

(** It is refused by the second. *)
Lemma set_permit_foreign_witness :
  ∃ p, permit_of holding (tok 0) 0 = Some p ∧
    Heap.borrow (commit second p hello (owner holding)).1.2 (OperationPermit.ledger p) =
    Heap.borrow (owner holding).2 (OperationPermit.ledger p).
Proof.
  destruct holding_second as [e He]. destruct holding_permit as [p Hp]. exists p.
  split; [exact Hp|].
  pose proof (here set_permit_foreign holding second e (tok 0) 0%nat p hello holding_reachable He Hp
    ltac:(discriminate)) as Hc.
  destruct (commit second p hello (owner holding)) as [s r]. exact (proj2 Hc).
Defined.

(** The selector fails at its third poll. *)
Definition polled : set_world :=
  run_set set_initial (pair_script ++ [PollIo (0 : Span); PollIo (0 : Span)]).

Lemma polled_reachable : reachable (K := pipe) set_initial polled.
Proof.
  apply set_run_reachable; [constructor|by repeat (constructor; try done)|]. vm_compute. reflexivity.
Qed.

Lemma polled_fails : ∃ p events,
  owner_failure (owner polled).1 = None ∧
  poller_poll (poller (owner polled).1) (0 : Span) (poll_events (owner polled).1) = (p, events, Err tt).
Proof.
  assert (owner_failure (owner polled).1 = None) as Hf by (vm_compute; reflexivity).
  assert (is_ok (poller_poll (poller (owner polled).1) (0 : Span) (poll_events (owner polled).1)).2 = false)
    as Hp by (vm_compute; reflexivity).
  destruct (poller_poll _ _ _) as [[p events] [report|[]]]; [discriminate Hp|]. exists p, events. exact (conj Hf eq_refl).
Qed.

Lemma set_fences_all_witness :
  (poll_io (owner polled).1 (0 : Span)).2 = Err (EngineError.Mio (tt : MioError)) ∧
  ready (poll_io (owner polled).1 (0 : Span)).1 = [].
Proof.
  destruct polled_fails as (p & events & Hf & Hp).
  pose proof (here set_fences_all polled (0 : Span) p events (tt : MioError) polled_reachable Hf Hp) as Hs.
  destruct (poll_io _ _) as [self r]. destruct Hs as (H1 & _ & _ & H2 & _).
  exact (conj H1 H2).
Defined.

(** The first connection waits behind the second, for one turn. *)
Definition pair_owner : Type := ConnectionSet.owner (list Byte.byte) unit pipe.

Definition times : list Moment := [1 : Moment; 2 : Moment].

Lemma committed_turns : ∃ s, turns times (owner committed) = Some s.
Proof.
  destruct (turns _ _) as [s|] eqn:Ht; [exists s; exact eq_refl|].
  assert (match turns times (owner committed) with Some _ => true | None => false end
    = true) as Hs by (vm_compute; reflexivity). rewrite Ht in Hs. discriminate.
Qed.

Lemma committed_waiting : ready (owner committed).1 !! 1%nat = Some (tok 0).
Proof. vm_compute. reflexivity. Qed.

Lemma set_turn_fair_witness :
  ready_budget (owner committed).1 = 1%nat ∧
  ∃ before now after (s1 s2 : pair_owner) t,
    times = before ++ now :: after ∧ turn now s1 = (s2, Ok t) ∧
    drove (D := list Byte.byte) (C := unit) (T := pipe) now s1 s2 (tok 0).
Proof.
  split; [vm_compute; reflexivity|]. destruct committed_turns as [s Hs].
  pose proof committed_waiting as Hw. destruct (owner committed) as [self h] eqn:Hc.
  destruct (set_turn_fair times self h s 1 (tok 0) Hs Hw) as
    (before & now & after & s1 & s2 & t & H1 & _ & H2 & H3).
  - assert (ready_budget self = 1%nat) as -> by (change self with (self, h).1; rewrite <- Hc; vm_compute; reflexivity).
    simpl. lia.
  - exists before, now, after, s1, s2, t. exact (conj H1 (conj H2 H3)).
Defined.

Definition next_of (r : result SetHost.Turn EngineError.t) : option next :=
  match r with Ok t => Some (turn_next t) | Err _ => None end.

(** Once both connections were driven, the set sleeps until the deadline of the
    operation that is left. *)
Lemma pair_sleeps : next_of (turn (2 : Moment) (owner pair_run)).2 = Some (WakeOr 10).
Proof. vm_compute. reflexivity. Qed.

Lemma set_turn_forgets_nothing_witness :
  match turn (2 : Moment) (owner pair_run) with
  | (s, Ok t) => turn_next t = WakeOr 10 ∧ ready s.1 = []
  | (_, Err _) => False
  end.
Proof.
  pose proof pair_sleeps as Hn. destruct (turn _ _) as [s [t|]] eqn:Ht; [|discriminate Hn].
  injection Hn as Hn. split; [exact Hn|].
  exact (proj1 (here set_turn_forgets_nothing pair_run (2 : Moment) s t pair_reachable Ht
    (λ Heq, ltac:(pose proof (eq_trans (eq_sym Hn) Heq) as Hx; discriminate Hx)))).
Defined.

Lemma pair_quanta : quanta (accounts pair_run) 3.
Proof.
  split; [done|].
  assert (map_Forall (λ _ a, nonzero_get (ConnectionSlotLimits.io_operations (SetStanding.bounds a)) ≤ 3)
    (accounts pair_run)) as Hall.
  { eapply bool_decide_unpack. vm_compute. exact I. }
  intros r a Ha. exact (Hall r a Ha).
Qed.

Lemma set_turn_bounded_witness :
  match turn (2 : Moment) (owner pair_run) with
  | (_, Ok t) => 0 ≤ turn_work t ≤ 2 + 2 * 4 + 1 * (3 + 2)
  | (_, Err _) => False
  end.
Proof.
  pose proof pair_sleeps as Hn. destruct (turn _ _) as [s [t|]] eqn:Ht; [|discriminate Hn].
  exact (here set_turn_bounded (Typing := pipe_typing) pair_run (2 : Moment) s t 3 pair_reachable
    pair_quanta ltac:(lia) Ht).
Defined.

(** Two connections that fail with an operation in flight. *)
Definition slowly (n : Z) (address : LedgerRef) : set_command :=
  SetSystem.Connect (ConnectionConfig.new (identity n) tt (20 : Deadline) tt) slow_limits [] tt
    (mk_pipe false true [Byte.x05] []) address.

Definition stuck_script : list set_command :=
  [ slowly 0 1%positive; slowly 1 2%positive; Turn (1 : Moment); Turn (1 : Moment);
    OpenAdmission first; OpenAdmission second;
    Reserve first (1 : Moment) Sample.regular; Commit first 0 0 hello;
    Reserve second (1 : Moment) Sample.regular; Commit second 1 0 hello;
    Turn (2 : Moment); Turn (2 : Moment); Turn (2 : Moment); Turn (2 : Moment) ].

Definition stuck : set_world := run_set set_initial stuck_script.

Lemma stuck_reachable : reachable (K := pipe) set_initial stuck.
Proof.
  apply set_run_reachable; [constructor| |vm_compute; reflexivity].
  repeat (constructor; try done); by right.
Qed.

Definition overdue_b (now : Moment) (w : set_world) (token : Z) : bool :=
  match live (owner w).1 !! tok token with
  | Some (_, e) =>
      bool_decide (is_Some (EngineState.failure (ConnectionSlot.state (ConnectionEntry.slot e)))) &&
      match ConnectionSlot.next_deadline (ConnectionEntry.slot e) with
      | Some d => is_elapsed_at d now
      | None => false
      end
  | None => false
  end.

Lemma overdue_b_sound now w token :
  overdue_b now w token = true →
  ∃ id e, live (owner w).1 !! tok token = Some (id, e) ∧ SetSpin.overdue now e.
Proof.
  unfold overdue_b. destruct (live (owner w).1 !! tok token) as [[id e]|]; [|done].
  intros [Hf%bool_decide_eq_true Hd]%andb_true_iff. exists id, e. split; [done|]. split; [done|].
  destruct (ConnectionSlot.next_deadline _) as [d|]; [|done]. by exists d.
Qed.

Definition much_later : Moment := 30.

Lemma stuck_overdue token : token ∈ [tok 0; tok 1] →
  ∃ id e, live (owner stuck).1 !! token = Some (id, e) ∧ SetSpin.overdue much_later e.
Proof.
  rewrite !elem_of_cons. intros [->|[->|?%not_elem_of_nil]]; [| |done];
    apply overdue_b_sound; vm_compute; reflexivity.
Qed.

Lemma stuck_awake : next_of (turn much_later (owner stuck)).2 = Some Now.
Proof. vm_compute. reflexivity. Qed.

Lemma set_failed_spin_witness :
  match turn much_later (owner stuck) with
  | (_, Ok t) => turn_next t = next_now
  | (_, Err _) => False
  end.
Proof.
  pose proof stuck_awake as Hn. destruct (turn _ _) as [s [t|]] eqn:Ht; [|discriminate Hn].
  assert (ready_budget (owner stuck).1 = 1%nat) as Hb by (vm_compute; reflexivity).
  refine (proj1 (here set_failed_spin stuck much_later s t [tok 0; tok 1] stuck_reachable Ht _ _
    stuck_overdue)).
  - apply (NoDup_ListNoDup [tok 0; tok 1]). repeat constructor; simpl; intuition discriminate.
  - rewrite Hb. simpl. lia.
Defined.

(** ** A standalone connection *)

Definition alone_config : StandaloneConnectionConfig.t :=
  StandaloneConnectionConfig.new set_config
    (ConnectionConfig.new (identity 0) tt (20 : Deadline) tt).

Definition alone_world : Type := StandaloneSystem.world (list Byte.byte) unit pipe.

Definition alone_start (heap : Heap.t) : option alone_world :=
  StandaloneSystem.start alone_config limits [] tt (fresh_pipe false) 1%positive heap.

Definition alone_created : { w : alone_world | alone_start Sample.heap = Some w }.
Proof. eexists. reflexivity. Defined.

Definition alone_initial : alone_world := proj1_sig alone_created.

Lemma alone_starts : alone_start Sample.heap = Some alone_initial.
Proof. exact (proj2_sig alone_created). Qed.

(** An operation is committed and written, and the connection closed by force. *)
Definition alone_script : list StandaloneSystem.command :=
  [ StandaloneSystem.Turn (1 : Moment);
    StandaloneSystem.OpenAdmission;
    StandaloneSystem.Reserve (1 : Moment) Sample.regular;
    StandaloneSystem.Commit 0 hello;
    StandaloneSystem.Turn (2 : Moment);
    StandaloneSystem.Finalize CloseReason.Requested ].

Fixpoint run_alone (w : alone_world) (cs : list StandaloneSystem.command) : alone_world :=
  match cs with [] => w | c :: cs => run_alone (StandaloneSystem.exec w c) cs end.

Lemma run_alone_reachable w cs :
  StandaloneSystem.reachable alone_initial w → Forall StandaloneSystem.admissible cs →
  StandaloneSystem.reachable alone_initial (run_alone w cs).
Proof.
  intros Hr Hc. revert w Hr. induction Hc as [|c cs Hc Hcs IH]; intros w Hr; simpl; [done|].
  by apply IH, StandaloneSystem.reachable_step.
Qed.

Lemma alone_admissible : Forall StandaloneSystem.admissible alone_script.
Proof. repeat constructor; try discriminate. Qed.

Definition alone (n : nat) : alone_world := run_alone alone_initial (take n alone_script).

Lemma alone_reachable n : StandaloneSystem.reachable alone_initial (alone n).
Proof.
  apply run_alone_reachable; [constructor|]. apply Forall_take, alone_admissible.
Qed.

(** A theorem about the runs of the standalone connection. *)
Local Notation by_itself thm :=
  (thm (trustworthy false) pipes_contract pipes_registered pipes_connect alone_config limits
     limits_valid ([] : list Byte.byte) tt (fresh_pipe false) 1%positive Sample.heap alone_initial
     alone_starts) (only parsing).

Definition written_at : Moment := 2.

Lemma standalone_refines_witness :
  StandaloneSystem.suppressed (alone 4) (StandaloneSystem.Turn written_at) = false ∧
  is_ok (StandaloneConnection.turn written_at (StandaloneSystem.owner (alone 4))).2 = true ∧
  SetSystem.admissible (StandaloneSystem.embed (alone 4))
    (StandaloneSystem.as_set (K := pipe) (StandaloneConnection.connection (StandaloneSystem.owner (alone 4)).1)
       (StandaloneSystem.Turn written_at)) ∧
  StandaloneSystem.tells (alone 4) (StandaloneSystem.Turn written_at)
    (StandaloneSystem.answered (alone 4) (StandaloneSystem.Turn written_at)).
Proof.
  split; [vm_compute; reflexivity|]. split; [vm_compute; reflexivity|].
  destruct (by_itself StandaloneTheorems.standalone_refines (alone 4)
    (StandaloneSystem.Turn written_at) (alone_reachable 4) I) as (_ & Hadmissible & _ & Htells).
  split; [exact Hadmissible|exact Htells].
Defined.

Definition later : Moment := 3.

(** The turn after the forced close stops. *)
Lemma alone_stops :
  next_of (StandaloneConnection.turn later (StandaloneSystem.owner (alone 6))).2 = Some Stop.
Proof. vm_compute. reflexivity. Qed.

Lemma standalone_turn_stops_witness :
  match StandaloneConnection.turn later (StandaloneSystem.owner (alone 6)) with
  | (_, Ok t) => turn_next t = Stop ∧ ∃ t', turn_work t = turn_work (t' : SetHost.Turn)
  | (_, Err _) => False
  end.
Proof.
  pose proof alone_stops as Hn.
  destruct (StandaloneConnection.turn _ _) as [s [t|]] eqn:Ht; [|discriminate Hn].
  injection Hn as Hn. split; [exact Hn|].
  destruct (by_itself StandaloneTheorems.standalone_turn_stops (alone 6) later s t
    (alone_reachable 6) Ht) as (e & t' & _ & _ & _ & Hw & _).
  exists t'. exact Hw.
Defined.

(** One operation was accepted and owes its outcome. *)
Lemma standalone_recovers_all_witness :
  length (RecoveryReport.operations
    (StandaloneConnection.abandon OwnerFailure.Core (StandaloneSystem.owner (alone 5))).2) = 1%nat ∧
  RecoveryReport.unmatched_writes
    (StandaloneConnection.abandon OwnerFailure.Core (StandaloneSystem.owner (alone 5))).2 = [].
Proof.
  split; [vm_compute; reflexivity|].
  pose proof (by_itself StandaloneTheorems.standalone_recovers_all (alone 5) OwnerFailure.Core
    (alone_reachable 5)) as Hr.
  cbv zeta in Hr. destruct (StandaloneConnection.abandon _ _) as [s report].
  exact (proj1 (proj2 (proj2 (proj2 Hr)))).
Defined.

End SetWitnesses.

Module TransportWitnesses.

Import HostLists SetLists Wires TlsSession.
Import TlsTheorems.Transports.

Definition budget : TransportBudget.t :=
  TransportBudget.new (mk_nonzero 1) (mk_nonzero 4) (mk_nonzero 4).

Definition policy : TcpSocketPolicy.t := TcpSocketPolicy.DEFAULT.

(** *** TCP *)

(** A stream that was reported writable is opened. *)
Definition reported : TcpTransport.t :=
  TcpTransport.observe (TcpTransport.mk (mk_wire script []) TcpTransport.Connecting 0) 3.

(** What had blocked for reading is written to, and read again. *)
Definition opened : TcpTransport.t := (TcpSpec.establishing 3 policy budget reported).1.

Definition written_since (self : TcpTransport.t) : TcpTransport.t :=
  (tr_read (tr_write (TcpTransport.clear_read self) [Byte.x41]).1 [Byte.x00]).1.1.

Lemma tcp_transport_contract_witness :
  TcpTransport.is_open (TcpSpec.establishing 3 policy budget reported).1 = true ∧
  (let '(self', r) := TcpSpec.establishing 3 policy budget reported in
   match r with
   | Ok _ => TcpTransport.can_establish self' = false
   | Err e => TcpSpec.establishment_failure e
   end) ∧
  TcpTransport.can_read opened = true ∧
  TcpTransport.can_read (written_since opened) = false.
Proof.
  split; [vm_compute; reflexivity|].
  split; [exact (proj1 (proj2 (proj2 tcp_transport_contract)) reported policy budget)|].
  split; [vm_compute; reflexivity|].
  apply (proj2 (proj2 (proj2 tcp_transport_contract)) opened (written_since opened)).
  unfold written_since. apply TcpSpec.unreported_read, TcpSpec.unreported_write.
  apply TcpSpec.unreported_start.
Defined.

(** *** TLS *)

Definition tls_limits : RustlsTransportLimits.t :=
  RustlsTransportLimits.mk (mk_nonzero 16) (mk_nonzero 16) (mk_nonzero 8)
    (TransportPressure.mk (u64_of 8) (u64_of 16) (u64_of 32) (u64_of 4) (u64_of 60)).

Definition tls_config : RustlsTransportConfig.t := RustlsTransportConfig.new tt tt tls_limits.

Definition supplied : TransportLimits.t := TransportLimits.new (u64_of 64).

Definition tls_connected :
  { self | connector_connect (RustlsConnector.new tls_config) tt supplied = Ok self }.
Proof. eexists. reflexivity. Defined.

Definition source : Source RustlsTransport.t := tt.

Lemma source_delegates : TlsTransportSpec.delegates source.
Proof.
  split; intros p self; intros; exists (RustlsTransport.stream self); by destruct self.
Qed.

Fixpoint established (n : nat) (self : RustlsTransport.t) : RustlsTransport.t :=
  match n with
  | O => self
  | S n => established n (RustlsTransport.drive_establishment policy budget self).1
  end.

Lemma established_holds bound (holds : RustlsTransport.t → Prop) n self :
  TransportContract RustlsTransport.slot_transport true bound holds →
  holds self → holds (established n self).
Proof.
  intros Hc. revert self. induction n as [|n IH]; intros self Hs; [done|].
  by apply IH, (ct_establish _ _ _ _ Hc self policy budget).
Qed.

(** Reported ready both ways, the stream connects, has its policy applied, sends
    what opens the handshake, and reads what the peer sent. *)
Definition tls_driven : RustlsTransport.t :=
  established 4 (RustlsTransport.observe (proj1_sig tls_connected) 3).

Lemma established_served self n t :
  TlsTransportSpec.served self t →
  (∀ k, (k < n)%nat →
    is_ok (RustlsTransport.drive_establishment policy budget (established k t)).2 = true) →
  TlsTransportSpec.served self (established n t).
Proof.
  revert t. induction n as [|n IH]; intros t Ht Hok; [done|]. apply IH.
  - pose proof (Hok 0%nat ltac:(lia)) as H0. cbn [established] in H0.
    destruct (RustlsTransport.drive_establishment policy budget t) as [t' [r|e]] eqn:Hrun; [|done].
    by apply (TlsTransportSpec.served_establishment self t policy budget t' r).
  - intros k Hk. apply (Hok (S k)). lia.
Qed.

Lemma tls_served : TlsTransportSpec.served (proj1_sig tls_connected) tls_driven.
Proof.
  apply established_served.
  - apply TlsTransportSpec.served_observe, TlsTransportSpec.served_start.
  - intros [|[|[|[|k]]]] Hk; [vm_compute; reflexivity..|lia].
Qed.

Lemma tls_transport_contract_witness :
  RustlsTransport.is_open tls_driven = true ∧ RustlsTransport.plaintext_bytes tls_driven = 1 ∧
  RustlsTransport.eof tls_driven = RustlsTransport.Clean ∧
  ended (RustlsTransport.tls tls_driven) = true ∧
  holds_within tls_limits (RustlsTransport.tls tls_driven).
Proof.
  assert (RustlsTransport.eof tls_driven = RustlsTransport.Clean) as Hclean
    by (vm_compute; reflexivity).
  split; [vm_compute; reflexivity|]. split; [vm_compute; reflexivity|]. split; [exact Hclean|].
  destruct (tls_transport_contract _ _ _ _ (proj2_sig tls_connected))
    as (_ & _ & Hwithin & Hholds).
  split; [|apply (Hwithin _ (conn_measured _) _ tls_served); vm_compute; reflexivity].
  destruct (Hholds _ conn_learned) as (holds & Hcontract & Hregistered & Hself & Hkeeps).
  apply Hkeeps; [|exact Hclean]. unfold tls_driven.
  eapply established_holds; [exact Hcontract|].
  exact (rc_readiness _ _ (Hregistered source source_delegates) _ 3 Hself).
Defined.

(** *** Sessions *)

Definition session_created :
  { self | RustlsClientSession.new tls_config supplied = Ok self }.
Proof. eexists. reflexivity. Defined.

Local Notation session := (proj1_sig session_created) (only parsing).

(** The client sends what opens the handshake, and is told of its end, of two
    bytes and of the close. *)
Definition session_calls : list SessionSpec.call :=
  [ SessionSpec.DrainTls (replicate 4 Byte.x00);
    SessionSpec.IngestTls [Byte.x16; Byte.x41; Byte.x42; Byte.x15];
    SessionSpec.ReadPlaintext [Byte.x00] ].

Local Notation session_later := (SessionSpec.perform_all session session_calls) (only parsing).

Lemma session_keeps_limits_witness :
  RustlsSession.peer_closure session_later = RustlsPeerClosure.Clean ∧
  RustlsSession.plaintext_bytes session_later = 1 ∧
  ended (RustlsSession.tls session_later) = true ∧
  0 ≤ RustlsSession.plaintext_bytes session_later ≤ 8 ∧
  holds_within tls_limits (RustlsSession.tls session_later).
Proof.
  assert (RustlsSession.peer_closure session_later = RustlsPeerClosure.Clean) as Hclean
    by (vm_compute; reflexivity).
  destruct (proj2 (proj1 session_keeps_limits _ _ _ (proj2_sig session_created))
    _ _ conn_learned (conn_measured _) session_calls) as [[Hl Hp He Hc] [Hwithin _]].
  split; [exact Hclean|]. split; [vm_compute; reflexivity|]. split; [exact (Hc Hclean)|].
  split; [exact Hp|]. apply Hwithin. vm_compute. reflexivity.
Defined.

(** A protocol error after the handshake. *)
Definition faulty : SessionSpec.call := SessionSpec.IngestTls [Byte.xff].

Definition protocol_diagnostic : TransportDiagnostic.t :=
  TransportDiagnostic.new TransportFailurePhase.Establishment TransportFailureKind.Protocol
    ErrorKind.InvalidData (Some 1).

Lemma session_fails_once_witness :
  RustlsSession.failure (SessionSpec.perform session faulty).1 = Some protocol_diagnostic ∧
  let self' := SessionSpec.perform_all (SessionSpec.perform session faulty).1 session_calls in
  RustlsStatus.is_open (RustlsSession.status self') = false ∧
  SessionSpec.perform self' SessionSpec.FinishInput =
    (self', Err (TransportError.new protocol_diagnostic)).
Proof.
  assert (RustlsSession.failure (SessionSpec.perform session faulty).1 = Some protocol_diagnostic)
    as Hf by (vm_compute; reflexivity).
  split; [exact Hf|].
  destruct (session_fails_once session faulty protocol_diagnostic session_calls eq_refl Hf)
    as (_ & _ & Hopen & _ & Hrefuses).
  split; [exact Hopen|by apply Hrefuses].
Defined.

End TransportWitnesses.
