(* ===== verification/SimTrace.v ===== *)
(** * Bounded simulation traces

    [frame.rs], [trace.rs], [slot_trace.rs] and [slot_trace_error.rs] of
    [bornera-sim]: immutable frames, the actions of a policy trace and of a slot
    trace, and traces admitted under a bound on their count and their bytes. *)
From Stdlib Require Import ZArith Lia.
From stdpp Require Import prelude.
From S2P Require Import Prelude External Host Identity Limits Admission Operation Write Machine.
From S2P Require Import SlotData.

(** ** Frames ([frame.rs]) *)

Module SimFrameError.

(** A simulated frame could not fit fixed-width retained-byte accounting. *)
Inductive t : Type := TooLarge.

End SimFrameError.

Module SimFrame.
Section sim_frame.
Context {Cal : Calandria}.

(** Immutable bytes with mechanically exact retained-memory accounting. *)
Record t : Type := mk { bytes : list Byte.byte; retained : RetainedBytes }.

Definition copy_from_slice (bytes : list Byte.byte) : result t SimFrameError.t :=
  match rb_try_from_usize (Z.of_nat (length bytes)) with
  | None => Err SimFrameError.TooLarge
  | Some retained => Ok (mk bytes retained)
  end.

Definition as_bytes (self : t) : list Byte.byte := bytes self.

#[global] Instance write_frame : WriteFrame t := {
  frame_bytes self := bytes self;
  frame_retained_bytes self := retained self;
}.

#[global] Instance retained_frame : Retained t := λ self, retained self.

End sim_frame.
End SimFrame.

(** ** Policy traces ([trace.rs]) *)

Module OperationIndex.

(** Trace-local identity assigned to each successfully submitted operation. *)
Record t : Type := new { get : Z }.

#[global] Instance eq_dec : EqDecision t.
Proof. solve_decision. Defined.

End OperationIndex.

Module EpochTarget.

(** Whether an action targets the live epoch or a deterministic stale epoch. *)
Inductive t : Type :=
  | Current
  | Stale.

End EpochTarget.

Module TraceAction.
Section trace_action.
Context {Cal : Calandria}.

(** One replayable external action with no hidden time or I/O acquisition. *)
Inductive t : Type :=
  | Submit (now : Moment) (options : OperationOptions.t) (frame : SimFrame.t)
  | AdvanceWrite (bytes : Z)
  | Reply (operation : OperationIndex.t) (frame : SimFrame.t) (epoch : EpochTarget.t)
  | Cancel (operation : OperationIndex.t) (epoch : EpochTarget.t)
  | Deadline (operation : OperationIndex.t) (now : Moment) (epoch : EpochTarget.t)
  | OpenAdmission (epoch : EpochTarget.t)
  | BeginDrain (epoch : EpochTarget.t)
  | Close (epoch : EpochTarget.t) (reason : CloseReason.t)
  | EpochClosed (epoch : EpochTarget.t)
  | Recover.

Definition retained_bytes (self : t) : RetainedBytes :=
  match self with
  | Submit _ _ frame | Reply _ frame _ => SimFrame.retained frame
  | AdvanceWrite _ | Cancel _ _ | Deadline _ _ _ | OpenAdmission _ | BeginDrain _
  | Close _ _ | EpochClosed _ | Recover => rb_ZERO
  end.

End trace_action.
End TraceAction.

Module TraceAdmissionFailure.

(** Why bounded trace admission rejected an action. *)
Inductive t : Type :=
  | ActionCapacity
  | ByteCapacity.

End TraceAdmissionFailure.

Module TraceAdmissionError.
Section trace_admission_error.
Context {Cal : Calandria}.

(** Rejected trace action preserving exact ownership. *)
Record t : Type := new { into_action : TraceAction.t; failure : TraceAdmissionFailure.t }.

End trace_admission_error.
End TraceAdmissionError.

Module TraceLimits.
Section trace_limits.
Context {Cal : Calandria}.

(** Hard count and retained-byte limits for one replay trace. *)
Record t : Type := new { actions : NonZeroUsize; retained_bytes : RetainedBytes }.

End trace_limits.
End TraceLimits.

Module Trace.
Section trace.
Context {Cal : Calandria}.

(** Owned deterministic action sequence admitted under fixed bounds. *)
Record t : Type := mk {
  limits : TraceLimits.t;
  actions : list TraceAction.t;
  retained_bytes : RetainedBytes;
}.

Definition new (limits : TraceLimits.t) : t := mk limits [] rb_ZERO.

Definition try_push (self : t) (action : TraceAction.t) : t * result unit TraceAdmissionError.t :=
  if nonzero_get (TraceLimits.actions (limits self)) <=? Z.of_nat (length (actions self))
  then (self, Err (TraceAdmissionError.new action TraceAdmissionFailure.ActionCapacity))
  else
    let incoming := TraceAction.retained_bytes action in
    match rb_checked_add (retained_bytes self) incoming with
    | None => (self, Err (TraceAdmissionError.new action TraceAdmissionFailure.ByteCapacity))
    | Some retained =>
        if rb_gtb retained (TraceLimits.retained_bytes (limits self))
        then (self, Err (TraceAdmissionError.new action TraceAdmissionFailure.ByteCapacity))
        else (mk (limits self) (actions self ++ [action]) retained, Ok tt)
    end.

(** The count of a trace is exact, and within its bounds. *)
Definition within (self : t) : Prop :=
  Z.of_nat (length (actions self)) ≤ Z.max 0 (nonzero_get (TraceLimits.actions (limits self))) ∧
  rb_get (retained_bytes self) =
    zsum (λ a, rb_get (TraceAction.retained_bytes a)) (actions self) ∧
  rb_get (retained_bytes self) ≤ rb_get (TraceLimits.retained_bytes (limits self)).

(** Whether an action still fits. *)
Definition fits (self : t) (action : TraceAction.t) : bool :=
  (Z.of_nat (length (actions self)) <? nonzero_get (TraceLimits.actions (limits self)))
  && (zsum (λ a, rb_get (TraceAction.retained_bytes a)) (actions self ++ [action])
      <=? rb_get (TraceLimits.retained_bytes (limits self))).

Section laws.
Context {Laws : CalandriaLaws Cal}.

Lemma trace_new_within limits : within (new limits).
Proof.
  split; [simpl; lia|]. simpl. rewrite rb_get_ZERO. split; [done|apply rb_get_nonneg].
Qed.

Lemma trace_push_spec self action :
  within self →
  within (try_push self action).1 ∧ limits (try_push self action).1 = limits self ∧
  if fits self action
  then (try_push self action).2 = Ok tt ∧
    actions (try_push self action).1 = actions self ++ [action]
  else (try_push self action).1 = self ∧
    ∃ failure, (try_push self action).2 = Err (TraceAdmissionError.new action failure).
Proof.
  intros (Hn & Hs & Hb). unfold try_push, fits. rewrite zsum_app.
  change (zsum _ [action]) with (rb_get (TraceAction.retained_bytes action) + 0).
  rewrite <- Hs. set (a := TraceAction.retained_bytes action).
  destruct (Z.leb_spec (nonzero_get (TraceLimits.actions (limits self)))
    (Z.of_nat (length (actions self)))) as [Hfull|Hroom].
  { rewrite (proj2 (Z.ltb_ge _ _) Hfull). simpl. repeat split; eauto. }
  rewrite (proj2 (Z.ltb_lt _ _) Hroom). simpl.
  destruct (rb_checked_add (retained_bytes self) a) as [sum|] eqn:Hadd.
  - pose proof Hadd as Hsum%rb_checked_add_Some. rewrite rb_gtb_spec, Hsum.
    destruct (Z.ltb_spec (rb_get (TraceLimits.retained_bytes (limits self)))
      (rb_get (retained_bytes self) + rb_get a)) as [Hlt|Hle].
    + rewrite (proj2 (Z.leb_gt _ _)) by lia. simpl. repeat split; eauto.
    + rewrite (proj2 (Z.leb_le _ _)) by lia. simpl. split; [|done]. unfold within. simpl.
      rewrite zsum_app, <- Hs, Hsum, length_app. simpl. fold a. lia.
  - rewrite rb_checked_add_spec in Hadd. destruct (Z.leb_spec (rb_get (retained_bytes self) + rb_get a) U64_MAX) as [|Hmax]; [done|].
    pose proof (rb_get_range (TraceLimits.retained_bytes (limits self))) as [_ Hr].
    rewrite (proj2 (Z.leb_gt _ _)) by lia. simpl. repeat split; eauto.
Qed.

End laws.
End trace.
End Trace.

(** ** Slot traces ([slot_trace.rs], [slot_trace_error.rs]) *)

Module SlotAction.
Section slot_action.
Context {Cal : Calandria}.

(** One transport, control, or protocol stimulus for the production slot. *)
Inductive t : Type :=
  | ConnectReady
  | OpenAdmission
  | Submit (options : OperationOptions.t) (frame : SimFrame.t)
  | WriteReady (bytes : Z)
  | Reply (operation : OperationIndex.t) (payload : SimFrame.t)
  | Cancel (operation : OperationIndex.t)
  | BeginDrain (deadline : Deadline)
  | Close (reason : CloseReason.t)
  | PeerClosed
  | SettleTransport
  | Drive
  | Recover (reason : OwnerFailure.t).

Definition retained_bytes (self : t) : RetainedBytes :=
  match self with
  | Submit _ frame => Host.retained_bytes frame
  | Reply _ payload => Host.retained_bytes payload
  | ConnectReady | OpenAdmission | WriteReady _ | Cancel _ | BeginDrain _ | Close _
  | PeerClosed | SettleTransport | Drive | Recover _ => rb_ZERO
  end.

End slot_action.
End SlotAction.

Module SlotTraceAdmissionFailure.

(** Why one production-slot trace action was rejected. *)
Inductive t : Type :=
  | ActionCapacity
  | ByteCapacity.

End SlotTraceAdmissionFailure.

Module SlotTraceAdmissionError.
Section slot_trace_admission_error.
Context {Cal : Calandria}.

(** Rejected trace stimulus preserving exact action ownership. *)
Record t : Type := new {
  at_ : Moment;
  action : SlotAction.t;
  failure : SlotTraceAdmissionFailure.t;
}.

Definition into_parts (self : t) : Moment * SlotAction.t := (at_ self, action self).

End slot_trace_admission_error.
End SlotTraceAdmissionError.

Module SlotTraceLimits.
Section slot_trace_limits.
Context {Cal : Calandria}.

(** Hard count and retained-byte limits for one production-slot trace. *)
Record t : Type := new { actions : NonZeroUsize; retained_bytes : RetainedBytes }.

End slot_trace_limits.
End SlotTraceLimits.

Module TimedSlotAction.
Section timed_slot_action.
Context {Cal : Calandria}.

(** One trace stimulus paired with its absolute virtual moment. *)
Record t : Type := mk { at_ : Moment; action : SlotAction.t }.

Definition into_action (self : t) : SlotAction.t := action self.

End timed_slot_action.
End TimedSlotAction.

Module SlotTrace.
Section slot_trace.
Context {Cal : Calandria}.

(** One bounded trace replayed through Calandria virtual time. *)
Record t : Type := mk {
  limits : SlotTraceLimits.t;
  actions : list TimedSlotAction.t;
  retained_bytes : RetainedBytes;
}.

Definition new (limits : SlotTraceLimits.t) : t := mk limits [] rb_ZERO.

Definition try_push (self : t) (at_ : Moment) (action : SlotAction.t)
    : t * result unit SlotTraceAdmissionError.t :=
  if nonzero_get (SlotTraceLimits.actions (limits self)) <=? Z.of_nat (length (actions self))
  then (self, Err (SlotTraceAdmissionError.new at_ action SlotTraceAdmissionFailure.ActionCapacity))
  else
    let incoming := SlotAction.retained_bytes action in
    match rb_checked_add (retained_bytes self) incoming with
    | None =>
        (self,
         Err (SlotTraceAdmissionError.new at_ action SlotTraceAdmissionFailure.ByteCapacity))
    | Some next =>
        if rb_gtb next (SlotTraceLimits.retained_bytes (limits self))
        then (self,
              Err (SlotTraceAdmissionError.new at_ action SlotTraceAdmissionFailure.ByteCapacity))
        else (mk (limits self) (actions self ++ [TimedSlotAction.mk at_ action]) next, Ok tt)
    end.

(** The bytes of a sequence of stimuli. *)
Definition bytes_of (l : list TimedSlotAction.t) : Z :=
  zsum (λ a, rb_get (SlotAction.retained_bytes (TimedSlotAction.action a))) l.

(** The count of a trace is exact, and within its bounds. *)
Definition within (self : t) : Prop :=
  Z.of_nat (length (actions self)) ≤
    Z.max 0 (nonzero_get (SlotTraceLimits.actions (limits self))) ∧
  rb_get (retained_bytes self) = bytes_of (actions self) ∧
  rb_get (retained_bytes self) ≤ rb_get (SlotTraceLimits.retained_bytes (limits self)).

Section laws.
Context {Laws : CalandriaLaws Cal}.

Lemma slot_trace_new_within limits : within (new limits).
Proof.
  split; [simpl; lia|]. simpl. rewrite rb_get_ZERO. split; [done|apply rb_get_nonneg].
Qed.

Lemma slot_trace_push_within self at_ action :
  within self → within (try_push self at_ action).1.
Proof.
  intros (Hn & Hs & Hb). unfold try_push.
  destruct (Z.leb_spec (nonzero_get (SlotTraceLimits.actions (limits self)))
    (Z.of_nat (length (actions self)))) as [|Hroom]; [done|].
  destruct (rb_checked_add _ _) as [sum|] eqn:Hadd; [|done].
  apply rb_checked_add_Some in Hadd. rewrite rb_gtb_spec, Hadd.
  destruct (Z.ltb_spec (rb_get (SlotTraceLimits.retained_bytes (limits self)))
    (rb_get (retained_bytes self) + rb_get (SlotAction.retained_bytes action))); [done|].
  unfold within, bytes_of in *. simpl. rewrite zsum_app, <- Hs, Hadd, length_app. simpl. lia.
Qed.

End laws.
End slot_trace.
End SlotTrace.
