(* ===== verification/SimHost.v ===== *)
(** * What hosts a simulation

    The parts of the standard library, [calandria] and [calandria-sim] the
    crate [bornera-sim] builds on: preallocated byte buffers, the order of
    moments, selector interests, and the timeline of virtual time. The
    third-party parts are parameters; [SimHostLaws] is the behaviour the code
    relies on, and [SimSample] implements them by lists. *)
From Stdlib Require Import ZArith Lia.
From stdpp Require Import prelude.
From S2P Require Import Prelude External Host.

(** ** Byte buffers of the standard library *)

(** The allocator: the capacity of an empty [Vec<u8>] or [VecDeque<u8>] after
    [try_reserve_exact] and after the growth a longer [extend] causes. *)
Class Allocator : Type := {
  reserve_exact : Z → option Z;
  reserve_more : Z → Z → Z;
}.

(** A successful reservation has room for what was asked, within [usize]. *)
Class AllocatorLaws (Alloc : Allocator) : Prop := {
  reserve_exact_room : ∀ n c, in_usize n → reserve_exact n = Some c → n ≤ c ≤ USIZE_MAX;
}.

Module Buffer.
Section buffer.
Context {Alloc : Allocator}.

(** The bytes of a [Vec<u8>] or [VecDeque<u8>] and the room it allocated. *)
Record t : Type := mk { bytes : list Byte.byte; capacity : Z }.

(** [new] and [try_reserve_exact]. *)
Definition try_reserved (additional : Z) : option t := mk [] <$> reserve_exact additional.

Definition len (self : t) : Z := Z.of_nat (length (bytes self)).

(** [extend] and [extend_from_slice]. *)
Definition extend (self : t) (more : list Byte.byte) : t :=
  let room := len self + Z.of_nat (length more) in
  mk (bytes self ++ more)
    (if room <=? capacity self then capacity self else reserve_more (capacity self) room).

Definition clear (self : t) : t := mk [] (capacity self).

(** [VecDeque::pop_front]. *)
Definition pop_front (self : t) : t * option Byte.byte :=
  match bytes self with
  | [] => (self, None)
  | byte :: rest => (mk rest (capacity self), Some byte)
  end.

End buffer.
End Buffer.

(** ** [calandria] and [calandria-sim] *)

Class SimHost {Cal : Calandria} {H : Host} : Type := {
  (** [Moment]'s order and [Deadline::moment]. *)
  moment_dec :: EqDecision Moment;
  moment_leb : Moment → Moment → bool;
  deadline_moment : Deadline → Moment;
  interest_READABLE : Interest;
  interest_WRITABLE : Interest;
  interest_BOTH : Interest;
  (** [Timeline]: bounded events under virtual moments. *)
  TimelineId : Type;
  TimelineLimits : Type;
  timeline_limits_new : NonZeroUsize → RetainedBytes → TimelineLimits;
  Timeline : Type → Type;
  EventToken : Type;
  event_token_dec :: EqDecision EventToken;
  token_at : EventToken → Moment;
  ScheduleFailure : Type;
  timeline_new : ∀ {E : Type}, TimelineId → TimelineLimits → Timeline E;
  timeline_now : ∀ {E : Type}, Timeline E → Moment;
  timeline_schedule_at : ∀ {E : Type} `{!Retained E}, Timeline E → Moment → E →
    Timeline E * result EventToken ScheduleFailure;
  timeline_cancel : ∀ {E : Type}, Timeline E → EventToken → Timeline E;
  timeline_pop_next : ∀ {E : Type}, Timeline E → Timeline E * option (EventToken * E);
}.

Arguments timeline_schedule_at {_ _ _ E _}.

(** [Ord::max]. *)
Definition moment_max `{SimHost} (a b : Moment) : Moment := if moment_leb a b then b else a.

(** The documented behaviour the code relies on. A timeline is the list of its
    events, delivered in the order of their moments. *)
Class SimHostLaws {Cal : Calandria} {H : Host} {HL : HostLaws H} (SH : SimHost) : Type := {
  moment_leb_total : ∀ a b : Moment, moment_leb a b = true ∨ moment_leb b a = true;
  moment_leb_trans : ∀ a b c : Moment,
    moment_leb a b = true → moment_leb b c = true → moment_leb a c = true;
  elapsed_moment : ∀ d m, is_elapsed_at d m = moment_leb (deadline_moment d) m;
  timeline_events : ∀ {E : Type}, Timeline E → list (EventToken * E);
  timeline_bound : ∀ {E : Type}, Timeline E → Z * Z;
  timeline_new_events : ∀ {E : Type} (id : TimelineId) (n : NonZeroUsize) (b : RetainedBytes),
    timeline_events (timeline_new (E := E) id (timeline_limits_new n b)) = [] ∧
    timeline_bound (timeline_new (E := E) id (timeline_limits_new n b)) =
      (nonzero_get n, rb_get b);
  (** An event that is not in the past is scheduled, under a token of its own,
      if there is room for it. *)
  timeline_schedule_room : ∀ {E : Type} `{!Retained E} (t : Timeline E) m (e : E),
    Z.of_nat (length (timeline_events t)) < (timeline_bound t).1 →
    zsum (λ x, rb_get (retained_bytes x.2)) (timeline_events t) + rb_get (retained_bytes e) ≤
      (timeline_bound t).2 →
    moment_leb (timeline_now t) m = true →
    ∃ t' token, timeline_schedule_at t m e = (t', Ok token) ∧ token_at token = m ∧
      token ∉ (timeline_events t).*1 ∧
      timeline_events t' ≡ₚ (token, e) :: timeline_events t ∧
      timeline_bound t' = timeline_bound t ∧ timeline_now t' = timeline_now t;
  timeline_cancel_events : ∀ {E : Type} (t : Timeline E) token,
    timeline_events (timeline_cancel t token) =
      filter (λ e, e.1 ≠ token) (timeline_events t) ∧
    timeline_bound (timeline_cancel t token) = timeline_bound t ∧
    timeline_now (timeline_cancel t token) = timeline_now t;
  (** The event that is delivered is the earliest, and moves time to it. *)
  timeline_pop_some : ∀ {E : Type} (t t' : Timeline E) token (e : E),
    timeline_pop_next t = (t', Some (token, e)) →
    timeline_events t ≡ₚ (token, e) :: timeline_events t' ∧
    timeline_bound t' = timeline_bound t ∧ timeline_now t' = token_at token ∧
    Forall (λ x, moment_leb (token_at token) (token_at x.1) = true) (timeline_events t');
  timeline_pop_none : ∀ {E : Type} (t t' : Timeline E),
    timeline_pop_next t = (t', None) → timeline_events t = [];
}.
