(* ===== verification/SimWire.v ===== *)
(** * The simulated wire protocol

    [wire.rs] of [bornera-sim]: replies of an eight-byte header (match key and
    payload length, both big-endian) and a payload, their encoder, the
    incremental decoder and the classifier of the simulated slot. *)
From Stdlib Require Import ZArith Lia.
From Stdlib Require Strings.Byte.
From stdpp Require Import prelude.
From S2P Require Import Prelude External Identity Operation Write Framing Host SlotData.
From S2P Require Import SimTrace.

(** ** Big-endian words *)

Module BigEndian.

Definition byte_of (v : Z) : Byte.byte := default Byte.x00 (Byte.of_N (Z.to_N (v mod 256))).

Definition byte_val (b : Byte.byte) : Z := Z.of_N (Byte.to_N b).

(** [u32::to_be_bytes]. *)
Definition to_be_bytes (v : Z) : list Byte.byte :=
  [byte_of (Z.shiftr v 24); byte_of (Z.shiftr v 16); byte_of (Z.shiftr v 8); byte_of v].

(** [u32::from_be_bytes]. *)
Definition from_be_bytes (b : list Byte.byte) : Z :=
  foldl (λ v b, v * 256 + byte_val b) 0 b.

Lemma byte_range b : 0 ≤ byte_val b < 256.
Proof. unfold byte_val. pose proof (Byte.to_N_bounded b). lia. Qed.

Lemma byte_of_val v : byte_val (byte_of v) = v mod 256.
Proof.
  unfold byte_val, byte_of. pose proof (Z.mod_pos_bound v 256 eq_refl) as Hv.
  destruct (Byte.of_N (Z.to_N (v mod 256))) as [b|] eqn:Hb; cbn [from_option id].
  - apply Byte.to_of_N in Hb. rewrite Hb. lia.
  - apply Byte.of_N_None_iff in Hb. lia.
Qed.

Lemma be_bytes_range b : length b = 4%nat → in_u32 (from_be_bytes b).
Proof.
  destruct b as [|b0 [|b1 [|b2 [|b3 [|]]]]]; try done. intros _. unfold from_be_bytes. simpl.
  pose proof (byte_range b0). pose proof (byte_range b1). pose proof (byte_range b2).
  pose proof (byte_range b3). unfold in_u32, U32_MAX. lia.
Qed.

Lemma from_to_be_bytes v : in_u32 v → from_be_bytes (to_be_bytes v) = v.
Proof.
  unfold in_u32, U32_MAX, from_be_bytes, to_be_bytes. intros Hv. cbn [foldl].
  rewrite !byte_of_val, !Z.shiftr_div_pow2 by lia.
  change (2 ^ 24) with (256 * (256 * 256)). change (2 ^ 16) with (256 * 256).
  change (2 ^ 8) with 256. rewrite <- !Z.div_div by lia.
  pose proof (Z.div_mod v 256 ltac:(lia)). pose proof (Z.div_mod (v / 256) 256 ltac:(lia)).
  pose proof (Z.div_mod (v / 256 / 256) 256 ltac:(lia)).
  assert (v / 256 / 256 / 256 < 256) by (do 3 (apply Z.div_lt_upper_bound; [lia|]); lia).
  assert (0 ≤ v / 256 / 256 / 256) by (do 3 (apply Z.div_pos; [|lia]); lia).
  rewrite (Z.mod_small (v / 256 / 256 / 256)) by lia. lia.
Qed.

End BigEndian.

(** ** Replies and errors *)

Module SimWireError.

(** Failure in the bounded simulated wire protocol. *)
Inductive t : Type :=
  | PayloadTooLarge
  | UndrainedFrame
  | MultipleFrames
  | StateDiverged.

End SimWireError.

(** [RetainedBytes::try_from(length).unwrap_or(RetainedBytes::new(u64::MAX))]. *)
Definition retained_length {Cal : Calandria} (length : Z) : RetainedBytes :=
  default (rb_new U64_MAX) (rb_try_from_usize length).

Module SimReply.
Section sim_reply.
Context {Cal : Calandria}.

(** One decoded simulated reply with protocol correlation identity. *)
Record t : Type := mk { key : MatchKey.t; payload : list Byte.byte }.

Definition match_key (self : t) : MatchKey.t := key self.

#[global] Instance retained : Retained t :=
  λ self, retained_length (Z.of_nat (length (payload self))).

End sim_reply.
End SimReply.

(** ** The decoder *)

Module SimDecoder.
Section sim_decoder.
Context {Cal : Calandria}.

Definition HEADER_BYTES : Z := 8.

Record t : Type := mk {
  maximum_payload : RetainedBytes;
  header : list Byte.byte;
  header_used : Z;
  key : option MatchKey.t;
  payload : option (list Byte.byte);
  payload_used : Z;
  ready : option SimReply.t;
}.

Definition new (maximum_payload : RetainedBytes) : t :=
  mk maximum_payload (replicate 8 Byte.x00) 0 None None 0 None.

(** [destination[start..end].copy_from_slice(source)], the range having the
    length of the source. *)
Definition copy_at (destination : list Byte.byte) (start : Z) (source : list Byte.byte)
    : list Byte.byte :=
  take (Z.to_nat start) destination ++ source
    ++ drop (Z.to_nat start + length source) destination.

(** How many bytes of the input fill a buffer of [size] bytes, [used] of which
    are filled. *)
Definition accepted (size used : Z) (input : list Byte.byte) : nat :=
  Z.to_nat (Z.min (Z.max 0 (size - used)) (Z.of_nat (length input))).

(** A call gives the decoder it leaves, what is left of the input, and its
    result. *)
Definition accept_header (self : t) (input : list Byte.byte)
    : t * list Byte.byte * result unit SimWireError.t :=
  let accepted := accepted HEADER_BYTES (header_used self) input in
  let stored := copy_at (header self) (header_used self) (take accepted input) in
  let used := usize_saturating_add (header_used self) (Z.of_nat accepted) in
  let input := drop accepted input in
  let self :=
    mk (maximum_payload self) stored used (key self) (payload self) (payload_used self)
      (ready self) in
  if negb (used =? HEADER_BYTES) then (self, input, Ok tt)
  else
    let match_key := MatchKey.new (BigEndian.from_be_bytes (take 4 stored)) in
    let length := BigEndian.from_be_bytes (take 4 (drop 4 stored)) in
    match rb_try_from_usize length with
    | None => (self, input, Err SimWireError.PayloadTooLarge)
    | Some retained =>
        if rb_gtb retained (maximum_payload self)
        then (self, input, Err SimWireError.PayloadTooLarge)
        else if length =? 0
        then (mk (maximum_payload self) stored 0 (key self) (payload self)
                (payload_used self) (Some (SimReply.mk match_key [])), input, Ok tt)
        else (mk (maximum_payload self) stored used (Some match_key)
                (Some (replicate (Z.to_nat length) Byte.x00)) (payload_used self) (ready self),
              input, Ok tt)
    end.

Definition accept_payload (self : t) (input : list Byte.byte)
    : t * list Byte.byte * result unit SimWireError.t :=
  match payload self with
  | None => (self, input, Ok tt)
  | Some payload =>
      let size := Z.of_nat (length payload) in
      let accepted := accepted size (payload_used self) input in
      let stored := copy_at payload (payload_used self) (take accepted input) in
      let used := usize_saturating_add (payload_used self) (Z.of_nat accepted) in
      let input := drop accepted input in
      let with_parts key payload :=
        mk (maximum_payload self) (header self) (header_used self) key payload used (ready self) in
      if negb (used =? size) then (with_parts (key self) (Some stored), input, Ok tt)
      else match key self with
      | None => (with_parts None (Some stored), input, Err SimWireError.StateDiverged)
      | Some key =>
          (mk (maximum_payload self) (header self) 0 None None 0 (Some (SimReply.mk key stored)),
           input, Ok tt)
      end
  end.

(** The [while !bytes.is_empty()] loop of [feed]. *)
Fixpoint feed_loop (fuel : nat) (self : t) (bytes : list Byte.byte)
    : t * result unit SimWireError.t :=
  match fuel, bytes with
  | _, [] | O, _ => (self, Ok tt)
  | S fuel, _ =>
      match (if bool_decide (is_Some (payload self))
             then accept_payload self bytes else accept_header self bytes) with
      | (self, _, Err error) => (self, Err error)
      | (self, bytes, Ok _) =>
          if bool_decide (is_Some (ready self)) && negb (bool_decide (bytes = []))
          then (self, Err SimWireError.MultipleFrames)
          else feed_loop fuel self bytes
      end
  end.

Definition feed (self : t) (bytes : list Byte.byte) : t * result unit SimWireError.t :=
  if bool_decide (is_Some (ready self)) then (self, Err SimWireError.UndrainedFrame)
  else feed_loop (2 * length bytes) self bytes.

(** [self.ready.take()]. *)
Definition next_frame (self : t) : t * result (option SimReply.t) SimWireError.t :=
  (mk (maximum_payload self) (header self) (header_used self) (key self) (payload self)
     (payload_used self) None, Ok (ready self)).

Definition retained_bytes (self : t) : RetainedBytes :=
  match payload self with
  | Some payload => retained_length (Z.of_nat (length payload))
  | None =>
      match ready self with
      | Some reply => Host.retained_bytes reply
      | None => rb_ZERO
      end
  end.

#[global] Instance frame_decoder : FrameDecoder t := {
  Frame := SimReply.t;
  Error := SimWireError.t;
  decoder_feed := feed;
  decoder_next_frame := next_frame;
  decoder_retained_bytes := retained_bytes;
}.

End sim_decoder.
End SimDecoder.

Module SimClassifier.
Section sim_classifier.
Context {Cal : Calandria}.

Inductive t : Type := mk.

#[global] Instance classifier : InboundClassifier SimReply.t t := {
  ClassifierError := SimWireError.t;
  reply_key self frame := (self, Ok (SimReply.key frame));
}.

End sim_classifier.
End SimClassifier.

(** ** The encoder *)

(** [u32::try_from]. *)
Definition u32_try_from (v : Z) : option Z := if v <=? U32_MAX then Some v else None.

Definition encode_reply {Cal : Calandria} (key : MatchKey.t) (payload : SimFrame.t)
    : result (list Byte.byte) SimWireError.t :=
  match u32_try_from (Z.of_nat (length (SimFrame.as_bytes payload))) with
  | None => Err SimWireError.PayloadTooLarge
  | Some length =>
      Ok (BigEndian.to_be_bytes (MatchKey.get key) ++ BigEndian.to_be_bytes length
            ++ SimFrame.as_bytes payload)
  end.

(** ** The decoder of the simulated wire protocol, exactly

    [parsed] says what a decoder makes of the bytes of one frame, however they
    were cut into chunks: [holding] is a decoder that waits for the rest of a
    frame, [complete] one that has a reply to give. [feed_parsed] is the
    refinement of [SimDecoder::feed] to it. *)

Module WireSpec.
Section wire_spec.
Context {Cal : Calandria} {Laws : CalandriaLaws Cal}.
Import SimDecoder.

(** What the header of the bytes of a frame says. *)
Definition key_of (frame : list Byte.byte) : MatchKey.t :=
  MatchKey.new (BigEndian.from_be_bytes (take 4 frame)).

Definition length_of (frame : list Byte.byte) : Z :=
  BigEndian.from_be_bytes (take 4 (drop 4 frame)).

(** The decoder was fed [frame] since the last complete reply, and it is not
    all of one. *)
Record holding (self : t) (frame : list Byte.byte) : Prop := mk_holding {
  hd_header : length (header self) = 8%nat;
  hd_ready : ready self = None;
  hd_cases :
    (length frame < 8)%nat ∧ header_used self = Z.of_nat (length frame) ∧
      take (length frame) (header self) = frame ∧ payload self = None ∧ payload_used self = 0 ∨
    (8 ≤ length frame)%nat ∧ header_used self = 8 ∧ key self = Some (key_of frame) ∧
      length_of frame ≤ rb_get (maximum_payload self) ∧
      ∃ p, payload self = Some p ∧ Z.of_nat (length p) = length_of frame ∧
        (length frame - 8 < length p)%nat ∧
        payload_used self = Z.of_nat (length frame - 8) ∧
        take (length frame - 8) p = drop 8 frame;
}.

(** The decoder has one reply to give and nothing of another. *)
Record complete (self : t) (reply : SimReply.t) : Prop := mk_complete {
  cp_header : length (header self) = 8%nat;
  cp_ready : ready self = Some reply;
  cp_used : header_used self = 0;
  cp_payload : payload self = None;
  cp_payload_used : payload_used self = 0;
}.

(** The decoder and the answer of [feed] once [frame] was fed. *)
Definition parsed (maximum : RetainedBytes) (frame : list Byte.byte)
    (r : t * result unit SimWireError.t) : Prop :=
  maximum_payload r.1 = maximum ∧
  if Z.of_nat (length frame) <? 8 then r.2 = Ok tt ∧ holding r.1 frame
  else if rb_get maximum <? length_of frame then r.2 = Err SimWireError.PayloadTooLarge
  else if Z.of_nat (length frame) <? 8 + length_of frame then r.2 = Ok tt ∧ holding r.1 frame
  else if Z.of_nat (length frame) =? 8 + length_of frame
  then r.2 = Ok tt ∧ complete r.1 (SimReply.mk (key_of frame) (drop 8 frame))
  else r.2 = Err SimWireError.MultipleFrames.

Lemma new_holding maximum : holding (new maximum) [].
Proof. split; [done|done|]. left. simpl. repeat split; lia. Qed.

Lemma next_complete self reply :
  complete self reply →
  (next_frame self).2 = Ok (Some reply) ∧ holding (next_frame self).1 [] ∧
  maximum_payload (next_frame self).1 = maximum_payload self.
Proof.
  intros [Hh Hr Hu Hp Hpu]. unfold next_frame. simpl. rewrite Hr. split; [done|]. split; [|done].
  split; simpl; [done|done|]. left. rewrite Hu. repeat split; [lia|done..].
Qed.

Lemma next_holding self frame :
  holding self frame →
  (next_frame self).2 = Ok None ∧ holding (next_frame self).1 frame ∧
  maximum_payload (next_frame self).1 = maximum_payload self.
Proof.
  intros [Hh Hr Hc]. unfold next_frame. simpl. rewrite Hr. split; [done|]. split; [|done].
  by split.
Qed.

Lemma length_of_range frame : (8 ≤ length frame)%nat → in_u32 (length_of frame).
Proof.
  intros Hf. apply BigEndian.be_bytes_range. rewrite length_take, length_drop. lia.
Qed.

Lemma key_of_app (a b : list Byte.byte) : (8 ≤ length a)%nat → key_of (a ++ b) = key_of a.
Proof. intros Ha. unfold key_of. by rewrite take_app_le by lia. Qed.

Lemma length_of_app (a b : list Byte.byte) :
  (8 ≤ length a)%nat → length_of (a ++ b) = length_of a.
Proof.
  intros Ha. unfold length_of. rewrite drop_app_le by lia. rewrite take_app_le; [done|].
  rewrite length_drop. lia.
Qed.

Lemma usize_saturating_add_small a b :
  0 ≤ a → 0 ≤ b → a + b ≤ USIZE_MAX → usize_saturating_add a b = a + b.
Proof. unfold usize_saturating_add. lia. Qed.

(** Filling a buffer from where it is filled. *)
Lemma copy_at_take destination start source :
  (start + length source ≤ length destination)%nat →
  length (copy_at destination (Z.of_nat start) source) = length destination ∧
  take (start + length source) (copy_at destination (Z.of_nat start) source) =
    take start destination ++ source.
Proof.
  intros Hle. unfold copy_at. rewrite Nat2Z.id. split.
  - rewrite !length_app, length_take, length_drop. lia.
  - rewrite app_assoc, take_app_le by (rewrite length_app, length_take; lia).
    apply take_ge. rewrite length_app, length_take. lia.
Qed.

(** ** One round of the loop *)

Lemma accept_header_holding self frame bytes :
  holding self frame → (length frame < 8)%nat →
  let n := Nat.min (8 - length frame) (length bytes) in
  let '(self', rest, r) := accept_header self bytes in
  rest = drop n bytes ∧ payload self = None ∧
  if (length frame + length bytes <? 8)%nat then r = Ok tt ∧ holding self' (frame ++ bytes) ∧
    maximum_payload self' = maximum_payload self
  else
    let head := frame ++ take n bytes in
    length head = 8%nat ∧ maximum_payload self' = maximum_payload self ∧
    if rb_get (maximum_payload self) <? length_of head then r = Err SimWireError.PayloadTooLarge
    else r = Ok tt ∧
      if length_of head =? 0 then complete self' (SimReply.mk (key_of head) [])
      else holding self' head.
Proof.
  intros [Hh Hr Hc] Hlt n. destruct Hc as [(_ & Hu & Ht & Hp & Hpu)|(? & _)]; [|lia].
  unfold accept_header, accepted, HEADER_BYTES. rewrite Hu.
  replace (Z.to_nat (Z.min (Z.max 0 (8 - Z.of_nat (length frame))) (Z.of_nat (length bytes))))
    with n by lia.
  assert (length (take n bytes) = n) as Hn by (rewrite length_take; lia).
  destruct (copy_at_take (header self) (length frame) (take n bytes)) as [Hlen Hstored];
    [rewrite Hn, Hh; lia|]. rewrite Hn, Ht in Hstored.
  set (stored := copy_at _ _ _) in *. rewrite usize_saturating_add_small by (unfold USIZE_MAX; lia).
  destruct (Nat.ltb_spec (length frame + length bytes) 8) as [Hshort|Hfull].
  { rewrite (proj2 (Z.eqb_neq _ _)) by lia. cbn [negb]. split; [done|]. split; [done|].
    split; [done|]. split; [|done]. rewrite (take_ge bytes) in Hstored by lia.
    assert (length (frame ++ bytes) = (length frame + n)%nat) as Hl by (rewrite length_app; lia).
    split; simpl; [lia|done|]. left. rewrite Hl. repeat split; [lia|lia|done..]. }
  replace (Z.of_nat (length frame) + Z.of_nat n) with 8 by lia. rewrite Z.eqb_refl. cbn [negb].
  assert (length (frame ++ take n bytes) = 8%nat) as Hl by (rewrite length_app; lia).
  assert (stored = frame ++ take n bytes) as ->.
  { rewrite <- Hstored. symmetry. apply take_ge. rewrite Hlen, Hh. lia. }
  cbv zeta. set (head := frame ++ take n bytes) in *.
  change (BigEndian.from_be_bytes (take 4 (drop 4 head))) with (length_of head).
  change (MatchKey.new (BigEndian.from_be_bytes (take 4 head))) with (key_of head).
  pose proof (length_of_range head ltac:(lia)) as Hrange. unfold in_u32, U32_MAX in Hrange.
  assert (rb_get (rb_new (length_of head)) = length_of head) as Hget
    by (apply rb_get_new; unfold in_u64, U64_MAX; lia).
  rewrite rb_try_from_usize_spec by (unfold in_usize, USIZE_MAX; lia).
  rewrite (proj2 (Z.leb_le _ U64_MAX)) by (unfold U64_MAX; lia).
  rewrite rb_gtb_spec, Hget. cbn [maximum_payload ready payload payload_used key].
  destruct (Z.ltb_spec (rb_get (maximum_payload self)) (length_of head)) as [|Hmax];
    [by repeat split|].
  destruct (Z.eqb_spec (length_of head) 0) as [Hz|Hnz]; (split; [done|]); (split; [done|]);
    (split; [done|]); (split; [done|]); (split; [done|]).
  - by split.
  - split; [done|done|]. right. rewrite Hl. split; [lia|]. split; [done|]. split; [done|].
    split; [done|]. eexists. split; [done|]. rewrite length_replicate. split; [lia|].
    split; [lia|]. split; [done|]. rewrite drop_ge by lia. by rewrite take_0.
Qed.

Lemma accept_payload_holding self frame bytes :
  holding self frame → (8 ≤ length frame)%nat →
  let n := Nat.min (Z.to_nat (8 + length_of frame) - length frame) (length bytes) in
  let '(self', rest, r) := accept_payload self bytes in
  rest = drop n bytes ∧ r = Ok tt ∧ is_Some (payload self) ∧
  maximum_payload self' = maximum_payload self ∧
  if Z.of_nat (length frame + n) =? 8 + length_of frame
  then complete self' (SimReply.mk (key_of frame) (drop 8 (frame ++ take n bytes)))
  else rest = [] ∧ holding self' (frame ++ bytes).
Proof.
  intros [Hh Hr Hc] Hge n.
  destruct Hc as [[? _]|(_ & Hu & Hk & Hmax & p & Hp & Hlen & Hlt & Hpu & Ht)]; [lia|].
  unfold accept_payload, accepted. rewrite Hp, Hpu, Hk.
  replace (Z.to_nat (Z.min _ (Z.of_nat (length bytes)))) with n by lia.
  assert (length (take n bytes) = n) as Hn by (rewrite length_take; lia).
  destruct (copy_at_take p (length frame - 8) (take n bytes)) as [Hsize Hstored];
    [rewrite Hn; lia|]. rewrite Hn, Ht in Hstored. set (stored := copy_at _ _ _) in *.
  pose proof (length_of_range frame Hge) as Hrange. unfold in_u32, U32_MAX in Hrange.
  rewrite usize_saturating_add_small by (unfold USIZE_MAX; lia).
  assert (drop 8 (frame ++ take n bytes) = drop 8 frame ++ take n bytes) as Hdrop
    by by rewrite drop_app_le by lia.
  destruct (Z.eqb_spec (Z.of_nat (length frame + n)) (8 + length_of frame)) as [Hend|Hmore].
  - rewrite (proj2 (Z.eqb_eq _ _)) by lia. cbn [negb]. split; [done|]. split; [done|].
    split; [done|]. split; [done|]. split; cbn [header ready header_used payload payload_used];
      try done. do 2 f_equal. rewrite Hdrop, <- Hstored. symmetry. apply take_ge. lia.
  - rewrite (proj2 (Z.eqb_neq _ _)) by lia. cbn [negb].
    assert (n = length bytes) as Hall by lia. rewrite (take_ge bytes) in Hstored by lia.
    assert (length (frame ++ bytes) = (length frame + n)%nat) as Hl by (rewrite length_app; lia).
    split; [done|]. split; [done|]. split; [done|]. split; [done|].
    split; [by rewrite drop_ge by lia|].
    split; cbn [header ready header_used payload payload_used key maximum_payload]; [done|done|].
    right. rewrite Hl, key_of_app, length_of_app by done. split; [lia|]. split; [done|].
    split; [done|]. split; [done|]. eexists. split; [done|]. rewrite Hsize. split; [done|].
    split; [lia|]. split; [lia|].
    replace (length frame + n - 8)%nat with (length frame - 8 + n)%nat by lia.
    rewrite Hstored. by rewrite drop_app_le by lia.
Qed.

(** ** The whole of [feed] *)

Lemma feed_loop_nil fuel self : feed_loop fuel self [] = (self, Ok tt).
Proof. by destruct fuel. Qed.

(** One round. *)
Lemma feed_loop_cons fuel self bytes : bytes ≠ [] →
  feed_loop (S fuel) self bytes =
  match (if bool_decide (is_Some (payload self))
         then accept_payload self bytes else accept_header self bytes) with
  | (self, _, Err error) => (self, Err error)
  | (self, bytes, Ok _) =>
      if bool_decide (is_Some (ready self)) && negb (bool_decide (bytes = []))
      then (self, Err SimWireError.MultipleFrames)
      else feed_loop fuel self bytes
  end.
Proof. by destruct bytes. Qed.

(** A round that leaves a complete reply ends the loop. *)
Lemma feed_loop_complete fuel self reply rest :
  complete self reply →
  (if bool_decide (is_Some (ready self)) && negb (bool_decide (rest = []))
   then (self, Err SimWireError.MultipleFrames) else feed_loop fuel self rest) =
  (self, if (length rest =? 0)%nat then Ok tt else Err SimWireError.MultipleFrames).
Proof.
  intros [_ -> _ _ _]. rewrite bool_decide_true by done.
  destruct rest as [|b rest]; simpl; [by rewrite feed_loop_nil|done].
Qed.

Lemma parsed_complete maximum self frame (rest : list Byte.byte) :
  (8 ≤ length frame)%nat → maximum_payload self = maximum →
  length_of frame ≤ rb_get maximum → Z.of_nat (length frame) = 8 + length_of frame →
  complete self (SimReply.mk (key_of frame) (drop 8 frame)) →
  parsed maximum (frame ++ rest)
    (self, if (length rest =? 0)%nat then Ok tt else Err SimWireError.MultipleFrames).
Proof.
  intros Hge Hm Hmax Hlen Hc. split; [done|]. cbn [fst snd]. rewrite length_of_app by done.
  rewrite length_app. rewrite (proj2 (Z.ltb_ge _ 8)) by lia.
  rewrite (proj2 (Z.ltb_ge (rb_get maximum) _)) by lia. rewrite (proj2 (Z.ltb_ge _ _)) by lia.
  destruct rest as [|b rest]; cbn [length Nat.eqb].
  - rewrite (proj2 (Z.eqb_eq _ _)) by lia. by rewrite app_nil_r.
  - by rewrite (proj2 (Z.eqb_neq _ _)) by lia.
Qed.

Lemma parsed_holding maximum self frame :
  (8 ≤ length frame)%nat → maximum_payload self = maximum → holding self frame →
  parsed maximum frame (self, Ok tt).
Proof.
  intros Hge Hm Hh. split; [done|]. cbn [fst snd]. rewrite (proj2 (Z.ltb_ge _ 8)) by lia.
  pose proof Hh as [_ _ [[? _]|(_ & _ & _ & Hmax & p & _ & Hlen & Hlt & _)]]; [lia|].
  rewrite Hm in Hmax. rewrite (proj2 (Z.ltb_ge (rb_get maximum) _)) by lia.
  by rewrite (proj2 (Z.ltb_lt _ _)) by lia.
Qed.

(** The rounds from a header on. *)
Lemma feed_payload fuel self frame bytes :
  holding self frame → (8 ≤ length frame)%nat →
  parsed (maximum_payload self) (frame ++ bytes) (feed_loop (S fuel) self bytes).
Proof.
  intros Hh Hge. destruct bytes as [|b bytes].
  { rewrite feed_loop_nil, app_nil_r. by apply parsed_holding. }
  pose proof (accept_payload_holding _ _ (b :: bytes) Hh Hge) as Ha.
  rewrite feed_loop_cons by done.
  set (n := Nat.min _ _) in Ha. destruct (accept_payload self (b :: bytes)) as [[self' rest] r].
  destruct Ha as (-> & -> & Hp & Hm & Ha). rewrite bool_decide_true by done.
  pose proof Hh as [_ _ [[? _]|(_ & _ & _ & Hmax & _)]]; [lia|].
  destruct (Z.eqb_spec (Z.of_nat (length frame + n)) (8 + length_of frame)) as [Hend|Hmore].
  - rewrite (feed_loop_complete _ _ _ _ Ha), <- Hm.
    replace (frame ++ b :: bytes) with ((frame ++ take n (b :: bytes)) ++ drop n (b :: bytes))
      by by rewrite <- app_assoc, take_drop.
    assert (length (take n (b :: bytes)) = n) as Hn by (rewrite length_take; lia).
    apply parsed_complete; rewrite ?length_app, ?length_of_app, ?key_of_app, ?Hm by done;
      [lia|done|done|lia|done].
  - destruct Ha as [-> Ha]. rewrite bool_decide_false
      by (destruct Ha as [_ -> _]; intros []%is_Some_None).
    cbn [andb]. rewrite feed_loop_nil, <- Hm. apply parsed_holding; [|done|done].
    rewrite length_app. lia.
Qed.

Lemma feed_header fuel self frame bytes :
  holding self frame → (length frame < 8)%nat →
  parsed (maximum_payload self) (frame ++ bytes) (feed_loop (S (S fuel)) self bytes).
Proof.
  intros Hh Hlt. destruct bytes as [|b bytes].
  { rewrite feed_loop_nil, app_nil_r. split; [done|]. cbn [fst snd].
    by rewrite (proj2 (Z.ltb_lt _ 8)) by lia. }
  pose proof (accept_header_holding _ _ (b :: bytes) Hh Hlt) as Ha. cbv zeta in Ha.
  rewrite feed_loop_cons by done.
  set (n := Nat.min _ _) in Ha. destruct (accept_header self (b :: bytes)) as [[self' rest] r].
  destruct Ha as (-> & Hp & Ha). rewrite Hp, bool_decide_false by (intros []%is_Some_None).
  destruct (Nat.ltb_spec (length frame + length (b :: bytes)) 8) as [Hshort|Hfull].
  { destruct Ha as (-> & Ha & Hm). rewrite bool_decide_false by (destruct Ha as [_ -> _]; intros []%is_Some_None).
    cbn [andb]. rewrite drop_ge by lia. rewrite feed_loop_nil. split; [done|]. cbn [fst snd].
    by rewrite length_app, (proj2 (Z.ltb_lt _ 8)) by lia. }
  destruct Ha as (Hl & Hm & Ha). rewrite <- Hm in *.
  replace (frame ++ b :: bytes) with ((frame ++ take n (b :: bytes)) ++ drop n (b :: bytes))
    by by rewrite <- app_assoc, take_drop.
  set (head := frame ++ take n (b :: bytes)) in *. set (rest := drop n (b :: bytes)).
  destruct (Z.ltb_spec (rb_get (maximum_payload self')) (length_of head)) as [Hbig|Hmax].
  { rewrite Ha. split; [done|]. cbn [fst snd]. rewrite length_of_app by lia.
    rewrite length_app, (proj2 (Z.ltb_ge _ 8)) by lia.
    by rewrite (proj2 (Z.ltb_lt (rb_get _) _)) by lia. }
  destruct Ha as [-> Ha]. destruct (Z.eqb_spec (length_of head) 0) as [Hz|Hnz].
  - rewrite (feed_loop_complete _ _ _ _ Ha).
    apply parsed_complete; [lia|done|done|lia|]. by rewrite drop_ge by lia.
  - rewrite bool_decide_false by (destruct Ha as [_ -> _]; intros []%is_Some_None). cbn [andb].
    apply feed_payload; [done|lia].
Qed.

(** [feed] refines [parsed]. *)
Lemma feed_parsed self frame bytes :
  holding self frame → parsed (maximum_payload self) (frame ++ bytes) (feed self bytes).
Proof.
  intros Hh. pose proof Hh as [_ Hr _]. unfold feed. rewrite Hr, bool_decide_false by
    (intros []%is_Some_None). destruct bytes as [|b bytes].
  - rewrite feed_loop_nil, app_nil_r. destruct (decide (length frame < 8)%nat).
    + split; [done|]. cbn [fst snd]. by rewrite (proj2 (Z.ltb_lt _ 8)) by lia.
    + apply parsed_holding; [lia|done|done].
  - replace (2 * length (b :: bytes))%nat with (S (S (2 * length bytes))) by (cbn [length]; lia).
    destruct (decide (length frame < 8)%nat); [by apply feed_header|].
    apply feed_payload; [done|lia].
Qed.

(** ** What is encoded *)

Lemma encode_reply_frame key payload frame :
  in_u32 (MatchKey.get key) → encode_reply key payload = Ok frame →
  key_of frame = key ∧ length_of frame = Z.of_nat (length (SimFrame.bytes payload)) ∧
  drop 8 frame = SimFrame.bytes payload ∧
  Z.of_nat (length frame) = 8 + Z.of_nat (length (SimFrame.bytes payload)).
Proof.
  unfold encode_reply, u32_try_from, SimFrame.as_bytes. intros Hk.
  destruct (Z.leb_spec (Z.of_nat (length (SimFrame.bytes payload))) U32_MAX) as [Hle|]; [|done].
  set (n := Z.of_nat _) in *. assert (0 ≤ n) by lia.
  pose proof (BigEndian.from_to_be_bytes (MatchKey.get key) Hk) as Ha.
  pose proof (BigEndian.from_to_be_bytes n ltac:(unfold in_u32; lia)) as Hb.
  assert (length (BigEndian.to_be_bytes (MatchKey.get key)) = 4%nat) as La by done.
  assert (length (BigEndian.to_be_bytes n) = 4%nat) as Lb by done. revert Ha Hb La Lb.
  generalize (BigEndian.to_be_bytes (MatchKey.get key)) as a, (BigEndian.to_be_bytes n) as b.
  intros a b Ha Hb La Lb [= <-]. unfold key_of, length_of.
  rewrite (drop_app_length' a) by done. rewrite !take_app_length' by done.
  rewrite (app_assoc a b), drop_app_length' by (rewrite length_app; lia).
  rewrite Ha, Hb, !length_app. destruct key. unfold n.
  split; [done|]. split; [done|]. split; [done|]. lia.
Qed.

(** ** A stream of replies *)

(** What a driver makes of chunks: each is fed, and then asked for a reply. *)
Fixpoint pump (self : t) (chunks : list (list Byte.byte))
    : t * result (list SimReply.t) SimWireError.t :=
  match chunks with
  | [] => (self, Ok [])
  | chunk :: chunks =>
      match feed self chunk with
      | (self, Err error) => (self, Err error)
      | (self, Ok _) =>
          match next_frame self with
          | (self, Err error) => (self, Err error)
          | (self, Ok reply) =>
              let '(self, r) := pump self chunks in
              (self, match r with Ok replies => Ok (option_list reply ++ replies) | Err e => Err e end)
          end
      end
  end.

Lemma pump_app self a b :
  pump self (a ++ b) =
    let '(self, r) := pump self a in
    match r with
    | Err error => (self, Err error)
    | Ok replies =>
        let '(self, r) := pump self b in
        (self, match r with Ok more => Ok (replies ++ more) | Err error => Err error end)
    end.
Proof.
  revert self. induction a as [|chunk a IH]; intros self; cbn [pump app].
  { destruct (pump self b) as [? [?|?]]; done. }
  destruct (feed self chunk) as [s1 [[]|e]]; [|done].
  destruct (next_frame s1) as [s2 [reply|e]]; [|done]. rewrite IH.
  destruct (pump s2 a) as [s3 [l|e]]; [|done].
  destruct (pump s3 b) as [s4 [l'|e]]; [|done]. cbn. by rewrite app_assoc.
Qed.

(** Empty chunks between two frames. *)
Lemma pump_nothing self (chunks : list (list Byte.byte)) :
  holding self [] → concat chunks = [] →
  ∃ self', pump self chunks = (self', Ok []) ∧ holding self' [] ∧
    maximum_payload self' = maximum_payload self.
Proof.
  revert self. induction chunks as [|chunk chunks IH]; intros self Hh Hnil; [by exists self|].
  cbn [concat] in Hnil. apply app_eq_nil in Hnil as [-> Hnil]. cbn [pump].
  pose proof (feed_parsed self [] [] Hh) as [Hm [Hr Hh1]].
  destruct (feed self []) as [s1 r]. cbn [fst snd app] in *. subst r.
  pose proof (next_holding _ _ Hh1) as (Hn & Hh2 & Hm2).
  destruct (next_frame s1) as [s2 rn]. cbn [fst snd] in *. subst rn.
  destruct (IH s2 Hh2 Hnil) as (self' & -> & Hh' & Hm').
  exists self'. split; [done|]. split; [done|]. by rewrite Hm', Hm2.
Qed.

(** The rest of one frame, in any chunks. *)
Lemma pump_frame self frame before (chunks : list (list Byte.byte)) :
  holding self before → before ++ concat chunks = frame →
  (8 ≤ length frame)%nat → Z.of_nat (length frame) = 8 + length_of frame →
  length_of frame ≤ rb_get (maximum_payload self) → (length before < length frame)%nat →
  ∃ self', pump self chunks = (self', Ok [SimReply.mk (key_of frame) (drop 8 frame)]) ∧
    holding self' [] ∧ maximum_payload self' = maximum_payload self.
Proof.
  intros Hh <- Hge Hlen Hmax. revert self before Hh Hge Hlen Hmax.
  induction chunks as [|chunk chunks IH]; intros self before Hh Hge Hlen Hmax Hlt;
    cbn [concat] in *; [rewrite app_nil_r in Hlt; lia|].
  rewrite app_assoc in *. set (head := before ++ chunk) in *.
  pose proof (feed_parsed self before chunk Hh) as [Hm Hp]. fold head in Hp. cbn [pump].
  destruct (feed self chunk) as [s1 r]. cbn [fst snd] in *.
  assert (length (head ++ concat chunks) = length head + length (concat chunks))%nat as Hl
    by apply length_app.
  destruct (decide (length head < length (head ++ concat chunks))%nat) as [Hshort|Hfull].
  - assert (r = Ok tt ∧ holding s1 head) as [-> Hh1].
    { destruct (Z.ltb_spec (Z.of_nat (length head)) 8); [done|].
      assert (length_of head = length_of (head ++ concat chunks)) as He
        by (rewrite length_of_app; [done|lia]).
      rewrite He, (proj2 (Z.ltb_ge (rb_get _) _)) in Hp by lia.
      by rewrite (proj2 (Z.ltb_lt _ _)) in Hp by lia. }
    pose proof (next_holding _ _ Hh1) as (Hn & Hh2 & Hm2).
    destruct (next_frame s1) as [s2 rn]. cbn [fst snd] in *. subst rn.
    destruct (IH s2 head Hh2 Hge Hlen) as (self' & -> & Hh' & Hm'); [by rewrite Hm2, Hm|done|].
    exists self'. split; [done|]. split; [done|]. by rewrite Hm', Hm2.
  - assert (concat chunks = []) as Hnil by (apply length_zero_iff_nil; lia).
    rewrite Hnil, app_nil_r in *. rewrite (proj2 (Z.ltb_ge _ 8)) in Hp by lia.
    rewrite (proj2 (Z.ltb_ge (rb_get _) _)) in Hp by lia.
    rewrite (proj2 (Z.ltb_ge _ _)), (proj2 (Z.eqb_eq _ _)) in Hp by lia. destruct Hp as [-> Hc].
    pose proof (next_complete _ _ Hc) as (Hn & Hh2 & Hm2).
    destruct (next_frame s1) as [s2 rn]. cbn [fst snd] in *. subst rn.
    destruct (pump_nothing s2 chunks Hh2 Hnil) as (self' & -> & Hh' & Hm').
    exists self'. split; [done|]. split; [done|]. by rewrite Hm', Hm2.
Qed.

End wire_spec.
End WireSpec.
