(* ===== verification/SimTransport.v ===== *)
(** * The simulated transport

    [slot_transport.rs] and [slot_transport_state.rs] of [bornera-sim]: an
    in-memory transport with preallocated buffers, driven by the stimuli of a
    trace. It is an instance of [SlotTransport]; [sim_contract] shows that it
    keeps the whole documented contract of the trait. *)
From Stdlib Require Import ZArith Lia.
From Stdlib Require Strings.Byte.
From stdpp Require Import prelude.
From S2P Require Import Prelude External Host Config Transport SimHost.

Module Phase.

Inductive t : Type :=
  | Connecting
  | Open
  | Closed.

#[global] Instance eq_dec : EqDecision t.
Proof. solve_decision. Defined.

End Phase.

Module SimShutdownState.

(** [ShutdownState] of [slot_transport_state.rs]. *)
Inductive t : Type :=
  | NotStarted
  | Flushing
  | Complete.

#[global] Instance eq_dec : EqDecision t.
Proof. solve_decision. Defined.

End SimShutdownState.

Module SimTransport.
Section sim_transport.
Context {Cal : Calandria} {H : Host} {Alloc : Allocator} {Sim : SimHost}.

Definition retained_capacity (capacity : Z) : RetainedBytes :=
  default (rb_new U64_MAX) (rb_try_from_usize capacity).

Definition transport_pressure (inbound outbound : Buffer.t) : TransportPressure.t :=
  let inbound := retained_capacity (Buffer.capacity inbound) in
  let outbound := retained_capacity (Buffer.capacity outbound) in
  match TransportPressure.new inbound outbound rb_ZERO rb_ZERO with
  | Ok pressure => pressure
  | Err _ => TransportPressure.MAX
  end.

Record t : Type := mk {
  phase : Phase.t;
  connect_ready : bool;
  inbound : Buffer.t;
  peer_closed : bool;
  write_credit : Z;
  outbound : Buffer.t;
  limits : TransportLimits.t;
  applied_policy : option TcpSocketPolicy.t;
  shutdown : SimShutdownState.t;
}.

(** Field updates. *)
Definition set_connection (self : t) (phase : Phase.t) (ready : bool)
    (policy : option TcpSocketPolicy.t) : t :=
  mk phase ready (inbound self) (peer_closed self) (write_credit self) (outbound self)
    (limits self) policy (shutdown self).
Definition set_inbound (self : t) (b : Buffer.t) : t :=
  mk (phase self) (connect_ready self) b (peer_closed self) (write_credit self) (outbound self)
    (limits self) (applied_policy self) (shutdown self).
Definition set_peer_closed (self : t) (b : bool) : t :=
  mk (phase self) (connect_ready self) (inbound self) b (write_credit self) (outbound self)
    (limits self) (applied_policy self) (shutdown self).
Definition set_write_credit (self : t) (n : Z) : t :=
  mk (phase self) (connect_ready self) (inbound self) (peer_closed self) n (outbound self)
    (limits self) (applied_policy self) (shutdown self).
Definition set_outbound (self : t) (b : Buffer.t) : t :=
  mk (phase self) (connect_ready self) (inbound self) (peer_closed self) (write_credit self) b
    (limits self) (applied_policy self) (shutdown self).
Definition set_shutdown (self : t) (s : SimShutdownState.t) : t :=
  mk (phase self) (connect_ready self) (inbound self) (peer_closed self) (write_credit self)
    (outbound self) (limits self) (applied_policy self) s.

(** [usize::try_from] of a [u64]. *)
Definition usize_try_from (v : Z) : option Z := if v <=? USIZE_MAX then Some v else None.

Definition new (limits : TransportLimits.t) : result t unit :=
  match usize_try_from (rb_get (TransportLimits.retained_bytes limits)) with
  | None => Err tt
  | Some total =>
  let inbound_limit := total / 2 in
  let outbound_limit := Z.max 0 (total - inbound_limit) in
  match Buffer.try_reserved inbound_limit with
  | None => Err tt
  | Some inbound =>
  match Buffer.try_reserved outbound_limit with
  | None => Err tt
  | Some outbound =>
      let pressure := transport_pressure inbound outbound in
      if rb_gtb (TransportPressure.total pressure) (TransportLimits.retained_bytes limits)
      then Err tt
      else Ok (mk Phase.Connecting false inbound false 0 outbound
                 (TransportLimits.new (TransportPressure.total pressure)) None
                 SimShutdownState.NotStarted)
  end end end.

(** ** Stimuli *)

Definition observe_connect_ready (self : t) : t :=
  set_connection self (phase self) true (applied_policy self).

Definition inject_read (self : t) (bytes : list Byte.byte) : t * result unit unit :=
  if Z.max 0 (Buffer.capacity (inbound self) - Buffer.len (inbound self))
     <? Z.of_nat (length bytes)
  then (self, Err tt)
  else (set_inbound self (Buffer.extend (inbound self) bytes), Ok tt).

Definition observe_peer_closed (self : t) : t := set_peer_closed self true.

Definition allow_write (self : t) (bytes : Z) : t := set_write_credit self bytes.

Definition close (self : t) : t :=
  let self := set_connection self Phase.Closed false (applied_policy self) in
  let self := set_inbound self (Buffer.clear (inbound self)) in
  let self := set_write_credit self 0 in
  set_shutdown self SimShutdownState.Complete.

(** ** Input and output *)

Definition not_connected : IoError.t := IoError.new ErrorKind.NotConnected None.
Definition would_block : IoError.t := IoError.new ErrorKind.WouldBlock None.
Definition other_error : IoError.t := IoError.new ErrorKind.Other None.

(** The loop over the first [count] bytes of the buffer. *)
Fixpoint read_loop (count : nat) (inbound : Buffer.t) (buffer : list Byte.byte)
    : Buffer.t * list Byte.byte * result unit IoError.t :=
  match count, buffer with
  | S count, _ :: rest =>
      match Buffer.pop_front inbound with
      | (inbound, None) => (inbound, buffer, Err other_error)
      | (inbound, Some byte) =>
          let '(inbound, rest, r) := read_loop count inbound rest in
          (inbound, byte :: rest, r)
      end
  | _, _ => (inbound, buffer, Ok tt)
  end.

Definition read (self : t) (buffer : list Byte.byte)
    : t * list Byte.byte * result Z IoError.t :=
  if negb (bool_decide (phase self = Phase.Open)) then (self, buffer, Err not_connected)
  else
    let count := Z.min (Z.of_nat (length buffer)) (Buffer.len (inbound self)) in
    match read_loop (Z.to_nat count) (inbound self) buffer with
    | (inbound, buffer, Err e) => (set_inbound self inbound, buffer, Err e)
    | (inbound, buffer, Ok _) =>
        let self := set_inbound self inbound in
        (self, buffer,
         if negb (count =? 0) then Ok count
         else if peer_closed self then Ok 0
         else Err would_block)
    end.

Definition write (self : t) (buffer : list Byte.byte) : t * result Z IoError.t :=
  if negb (bool_decide (phase self = Phase.Open)) then (self, Err not_connected)
  else
    let available := Z.max 0 (Buffer.capacity (outbound self) - Buffer.len (outbound self)) in
    let written :=
      Z.min (Z.min (Z.of_nat (length buffer)) (write_credit self)) available in
    if written =? 0 then
      (self,
       Err (if (available =? 0) && negb (bool_decide (buffer = []))
            then other_error else would_block))
    else
      let self :=
        set_outbound self (Buffer.extend (outbound self) (take (Z.to_nat written) buffer)) in
      (set_write_credit self (Z.max 0 (write_credit self - written)), Ok written).

(** ** Progress *)

Definition drive_establishment (self : t) (policy : TcpSocketPolicy.t)
    (budget : TransportBudget.t) : t * result TransportProgress.t TransportError.t :=
  match phase self with
  | Phase.Open => (self, Ok TransportProgress.IDLE)
  | Phase.Closed =>
      (self, Err (TransportError.from_io TransportFailurePhase.Connect not_connected))
  | Phase.Connecting =>
      if connect_ready self
      then (set_connection self Phase.Open false (Some policy), Ok TransportProgress.operation)
      else (self, Ok TransportProgress.operation)
  end.

Definition drive_transport (self : t) (budget : TransportBudget.t)
    : t * result TransportProgress.t TransportError.t :=
  if negb (bool_decide (shutdown self = SimShutdownState.Flushing))
  then (self, Ok TransportProgress.IDLE)
  else (set_shutdown self SimShutdownState.Complete,
        Ok (TransportProgress.new (mk_nonzero 1) 0 1)).

Definition begin_shutdown (self : t) (budget : TransportBudget.t)
    : t * result TransportProgress.t TransportError.t :=
  (set_shutdown self SimShutdownState.Flushing, Ok TransportProgress.operation).

Definition can_establish (self : t) : bool :=
  bool_decide (phase self = Phase.Connecting) && connect_ready self.

Definition has_transport_work (self : t) : bool :=
  bool_decide (shutdown self = SimShutdownState.Flushing).

Definition is_shutdown_complete (self : t) : bool :=
  bool_decide (shutdown self = SimShutdownState.Complete).

Definition is_open (self : t) : bool := bool_decide (phase self = Phase.Open).

Definition can_read (self : t) : bool :=
  bool_decide (phase self = Phase.Open)
  && bool_decide (shutdown self = SimShutdownState.NotStarted)
  && (negb (bool_decide (Buffer.bytes (inbound self) = [])) || peer_closed self).

Definition can_write (self : t) : bool :=
  bool_decide (phase self = Phase.Open)
  && bool_decide (shutdown self = SimShutdownState.NotStarted)
  && negb (write_credit self =? 0).

Definition desired_interest (self : t) (has_writes : bool) : Interest :=
  if bool_decide (shutdown self = SimShutdownState.Flushing) then interest_WRITABLE
  else if bool_decide (phase self = Phase.Connecting) || has_writes then interest_BOTH
  else interest_READABLE.

Definition pressure (self : t) : TransportPressure.t :=
  transport_pressure (inbound self) (outbound self).

Definition pressure_limit (self : t) : TransportLimits.t := limits self.

Definition clear_read (self : t) : t := self.

Definition clear_write (self : t) : t := set_write_credit self 0.

#[global] Instance slot_transport : SlotTransport t := {
  tr_read := read;
  tr_write := write;
  tr_drive_establishment := drive_establishment;
  tr_drive_transport := drive_transport;
  tr_begin_shutdown := begin_shutdown;
  tr_can_establish := can_establish;
  tr_has_transport_work := has_transport_work;
  tr_is_shutdown_complete := is_shutdown_complete;
  tr_is_open := is_open;
  tr_can_read := can_read;
  tr_can_write := can_write;
  tr_desired_interest := desired_interest;
  tr_pressure := pressure;
  tr_pressure_limit := pressure_limit;
  tr_clear_read := clear_read;
  tr_clear_write := clear_write;
}.

End sim_transport.
End SimTransport.

(** ** The simulated transport keeps its contract

    Whatever is called on a [SimTransport], its buffers never outgrow what was
    reserved for them, so that the limit it reports stays exact ([keeps]); its
    reads and writes move exactly the bytes they report; and it satisfies every
    clause of [TransportContract], those of a trusted transport included. *)

Module SimTransportSpec.
Section sim_transport_spec.
Context {Cal : Calandria} {H : Host} {Alloc : Allocator} {Sim : SimHost}.
Context {Laws : CalandriaLaws Cal} {ALaws : AllocatorLaws Alloc}.
Import SimTransport.

(** A transport whose buffers are within what it reserved, which is what its
    limit says. *)
Record keeps (bound : RetainedBytes) (self : t) : Prop := mk_keeps {
  kp_inbound : Buffer.len (inbound self) ≤ Buffer.capacity (inbound self);
  kp_outbound : Buffer.len (outbound self) ≤ Buffer.capacity (outbound self);
  kp_credit : 0 ≤ write_credit self;
  kp_limit : TransportLimits.retained_bytes (limits self) = bound;
  kp_pressure : TransportPressure.total (pressure self) = bound;
}.

Lemma len_nonneg (b : Buffer.t) : 0 ≤ Buffer.len b.
Proof. unfold Buffer.len. lia. Qed.

(** An extension that fits does not reallocate. *)
Lemma extend_fits (b : Buffer.t) more :
  Buffer.len b + Z.of_nat (length more) ≤ Buffer.capacity b →
  Buffer.extend b more = Buffer.mk (Buffer.bytes b ++ more) (Buffer.capacity b).
Proof. intros Hle. unfold Buffer.extend. by rewrite (proj2 (Z.leb_le _ _) Hle). Qed.

Lemma extend_len (b : Buffer.t) more :
  Buffer.len (Buffer.extend b more) = Buffer.len b + Z.of_nat (length more).
Proof. unfold Buffer.extend, Buffer.len. cbn [Buffer.bytes]. rewrite length_app. lia. Qed.

(** The loop of [read] moves the front of the queue to the buffer. *)
Lemma read_loop_spec count (b : Buffer.t) buffer :
  (count ≤ length buffer)%nat → (count ≤ length (Buffer.bytes b))%nat →
  read_loop count b buffer =
    (Buffer.mk (drop count (Buffer.bytes b)) (Buffer.capacity b),
     take count (Buffer.bytes b) ++ drop count buffer, Ok tt).
Proof.
  revert b buffer. induction count as [|count IH]; intros [bytes cap] buffer; cbn [Buffer.bytes].
  - intros _ _. destruct buffer; by rewrite take_0, !drop_0.
  - destruct buffer as [|x buffer]; [simpl; lia|]. destruct bytes as [|y bytes]; [simpl; lia|].
    intros Hb Hc. cbn [read_loop Buffer.pop_front Buffer.bytes Buffer.capacity].
    rewrite IH by (cbn [Buffer.bytes]; simpl in *; lia). done.
Qed.

(** What a read does: it moves the front of the inbound queue, reports end of
    file once the queue is empty and the peer closed, and would block
    otherwise. *)
Lemma read_spec bound self buffer :
  keeps bound self →
  let n := Nat.min (length buffer) (length (Buffer.bytes (inbound self))) in
  let '(self', buffer', r) := read self buffer in
  keeps bound self' ∧
  if bool_decide (phase self = Phase.Open) then
    Buffer.bytes (inbound self') = drop n (Buffer.bytes (inbound self)) ∧
    buffer' = take n (Buffer.bytes (inbound self)) ++ drop n buffer ∧
    r = if (n =? 0)%nat then if peer_closed self then Ok 0 else Err would_block
        else Ok (Z.of_nat n)
  else self' = self ∧ buffer' = buffer ∧ r = Err not_connected.
Proof.
  intros [Hi Ho Hc Hl Hp] n. unfold read. case_bool_decide as Hopen; cbn [negb]; [|by split].
  replace (Z.min (Z.of_nat (length buffer)) (Buffer.len (inbound self))) with (Z.of_nat n)
    by (unfold Buffer.len; lia).
  rewrite Nat2Z.id, read_loop_spec by lia. cbv zeta. split.
  - split; cbn [inbound outbound set_inbound write_credit limits Buffer.capacity]; try done.
    unfold Buffer.len in *. cbn [Buffer.bytes]. rewrite length_drop. lia.
  - split; [done|]. split; [done|]. destruct (Nat.eqb_spec n 0) as [->|Hn]; [done|].
    by rewrite (proj2 (Z.eqb_neq _ _)) by lia.
Qed.

(** What a write does: it appends the front of the caller's bytes, as many as
    the caller gave, the allowance and the room permit, and uses up that much
    of the allowance. *)
Lemma write_spec bound self buffer :
  keeps bound self →
  let room := Buffer.capacity (outbound self) - Buffer.len (outbound self) in
  let n := Z.min (Z.min (Z.of_nat (length buffer)) (write_credit self)) room in
  let '(self', r) := write self buffer in
  keeps bound self' ∧
  if bool_decide (phase self = Phase.Open) && negb (n =? 0) then
    r = Ok n ∧ 0 < n ≤ Z.of_nat (length buffer) ∧
    Buffer.bytes (outbound self') =
      Buffer.bytes (outbound self) ++ take (Z.to_nat n) buffer ∧
    write_credit self' = write_credit self - n
  else self' = self ∧ is_ok r = false.
Proof.
  intros Hk room n. pose proof Hk as [Hi Ho Hc Hl Hp]. unfold write.
  case_bool_decide as Hopen; cbn [negb andb]; [|by split].
  rewrite Z.max_r by lia. fold room. fold n.
  destruct (Z.eqb_spec n 0) as [Hz|Hn]; cbn [negb]; [by split|].
  assert (length (take (Z.to_nat n) buffer) = Z.to_nat n) as Htake
    by (rewrite length_take; lia).
  rewrite extend_fits by (rewrite Htake; lia).
  split; [|repeat split; simpl; lia].
  split; cbn [inbound outbound set_outbound set_write_credit write_credit limits Buffer.capacity];
    try done; [|lia]. unfold Buffer.len in *. cbn [Buffer.bytes]. rewrite length_app, Htake. lia.
Qed.

Lemma keeps_fields bound self self' :
  keeps bound self → inbound self' = inbound self → outbound self' = outbound self →
  limits self' = limits self → 0 ≤ write_credit self' → keeps bound self'.
Proof.
  intros [Hi Ho Hc Hl Hp] Hin Hout Hlim Hcr. unfold pressure in Hp.
  split; unfold pressure; rewrite ?Hin, ?Hout, ?Hlim; done.
Qed.

(** ** The contract *)

Lemma fits_one r w budget :
  TransportBudget.valid budget → r = 0 → 0 ≤ w ≤ 1 →
  let progress := TransportProgress.new (mk_nonzero 1) r w in
  TransportProgress.fits progress budget = true ∧ TransportProgress.is_idle progress = false.
Proof.
  intros (Ho & Hr & Hw) -> Hle. split; [|done]. unfold TransportProgress.fits. simpl.
  rewrite !andb_true_iff, !Z.leb_le. lia.
Qed.

Lemma sim_contract bound : TransportContract slot_transport true bound (keeps bound).
Proof.
  split; cbn [tr_read tr_write tr_drive_establishment tr_drive_transport tr_begin_shutdown
    tr_clear_read tr_clear_write tr_can_establish tr_has_transport_work tr_pressure_limit
    tr_pressure slot_transport].
  - intros t b Hk. pose proof (read_spec _ _ b Hk) as Hr.
    destruct (read t b) as [[t' b'] r]. apply Hr.
  - intros t b Hk. pose proof (write_spec _ _ b Hk) as Hw. destruct (write t b). apply Hw.
  - intros t p b Hk. unfold drive_establishment. destruct (phase t); [|done|done].
    destruct (connect_ready t); [|done]. apply (keeps_fields _ t); try done. apply Hk.
  - intros t b Hk. unfold drive_transport. case_bool_decide; [|done].
    apply (keeps_fields _ t); try done. apply Hk.
  - intros t b Hk. apply (keeps_fields _ t); try done. apply Hk.
  - done.
  - intros t Hk. by apply (keeps_fields _ t).
  - intros t b n Hk Hr. pose proof (write_spec _ _ b Hk) as Hw. destruct (write t b) as [t' r].
    simpl in Hr. subst r. destruct Hw as [_ Hw]. destruct (_ && _); [|by destruct Hw].
    destruct Hw as ([= ->] & Hn & _). lia.
  - intros _ t b n Hk Hr. pose proof (read_spec _ _ b Hk) as Hs.
    destruct (read t b) as [[t' b'] r]. simpl in Hr. subst r. destruct Hs as [_ Hs].
    case_bool_decide; [|by destruct Hs as (_ & _ & ?)]. destruct Hs as (_ & _ & Hs).
    destruct (Nat.eqb_spec (Nat.min (length b) (length (Buffer.bytes (inbound t)))) 0) as [|Hne].
    + destruct (peer_closed t); [injection Hs as ->; lia|done].
    + injection Hs as ->. lia.
  - intros _ t p b r _ Hb He. unfold drive_establishment, can_establish in *.
    apply andb_true_iff in He as [He%bool_decide_eq_true Hready]. rewrite He, Hready.
    intros [= <-]. by apply fits_one.
  - intros _ t b r _ Hb Hw. unfold drive_transport, has_transport_work in *. rewrite Hw.
    intros [= <-]. by apply fits_one.
  - intros _ t b r _ Hb [= <-]. by apply fits_one.
  - intros _ t Hk. apply Hk.
  - intros _ t Hk. rewrite (kp_pressure _ _ Hk). done.
Qed.

(** ** Construction and stimuli *)

Lemma new_keeps limits self :
  new limits = Ok self →
  keeps (TransportLimits.retained_bytes (SimTransport.limits self)) self ∧
  rb_get (TransportLimits.retained_bytes (SimTransport.limits self)) ≤
    rb_get (TransportLimits.retained_bytes limits) ∧
  phase self = Phase.Connecting ∧ connect_ready self = false ∧
  Buffer.bytes (inbound self) = [] ∧ Buffer.bytes (outbound self) = [].
Proof.
  unfold new, usize_try_from. pose proof (rb_get_range (TransportLimits.retained_bytes limits)) as Hr.
  unfold in_u64, U64_MAX in Hr. set (total := rb_get (TransportLimits.retained_bytes limits)) in *.
  destruct (Z.leb_spec total USIZE_MAX); [|done].
  pose proof (Z.div_pos total 2 ltac:(lia) ltac:(lia)).
  pose proof (Z.div_le_upper_bound total 2 total ltac:(lia) ltac:(lia)).
  destruct (Buffer.try_reserved (total / 2)) as [i|] eqn:Hi; [|done].
  destruct (Buffer.try_reserved (Z.max 0 (total - total / 2))) as [o|] eqn:Ho; [|done].
  unfold Buffer.try_reserved in Hi, Ho.
  destruct (reserve_exact (total / 2)) as [ci|] eqn:Hci; [|done]. injection Hi as <-.
  destruct (reserve_exact (Z.max 0 (total - total / 2))) as [co|] eqn:Hco; [|done].
  injection Ho as <-.
  apply reserve_exact_room in Hci; [|unfold in_usize, USIZE_MAX; lia].
  apply reserve_exact_room in Hco; [|unfold in_usize, USIZE_MAX; lia].
  rewrite rb_gtb_spec. fold total. set (p := transport_pressure _ _).
  destruct (Z.ltb_spec total (rb_get (TransportPressure.total p))); [done|].
  intros [= <-]. cbn [SimTransport.limits TransportLimits.retained_bytes]. split; [|done].
  split; unfold Buffer.len; cbn [Buffer.bytes Buffer.capacity inbound outbound write_credit length]; first [done|lia].
Qed.

Lemma connect_ready_keeps bound self : keeps bound self → keeps bound (observe_connect_ready self).
Proof. intros Hk. apply (keeps_fields _ self); try done. apply Hk. Qed.

Lemma peer_closed_keeps bound self : keeps bound self → keeps bound (observe_peer_closed self).
Proof. intros Hk. apply (keeps_fields _ self); try done. apply Hk. Qed.

Lemma allow_write_keeps bound self n : 0 ≤ n → keeps bound self → keeps bound (allow_write self n).
Proof. intros Hn Hk. by apply (keeps_fields _ self). Qed.

(** Bytes are injected whole, or not at all. *)
Lemma inject_read_spec bound self bytes :
  keeps bound self →
  keeps bound (inject_read self bytes).1 ∧
  if Buffer.len (inbound self) + Z.of_nat (length bytes) <=? Buffer.capacity (inbound self)
  then (inject_read self bytes).2 = Ok tt ∧
    Buffer.bytes (inbound (inject_read self bytes).1) = Buffer.bytes (inbound self) ++ bytes
  else inject_read self bytes = (self, Err tt).
Proof.
  intros Hk. pose proof Hk as [Hi Ho Hc Hl Hp]. unfold inject_read. rewrite Z.max_r by lia.
  destruct (Z.ltb_spec (Buffer.capacity (inbound self) - Buffer.len (inbound self))
    (Z.of_nat (length bytes))); [by rewrite (proj2 (Z.leb_gt _ _)) by lia|].
  rewrite (proj2 (Z.leb_le _ _)) by lia. cbn [fst snd]. rewrite extend_fits by lia.
  split; [|done]. split; cbn [inbound outbound set_inbound write_credit limits Buffer.capacity];
    try done. unfold Buffer.len in *. cbn [Buffer.bytes]. rewrite length_app. lia.
Qed.

Lemma close_keeps bound self : keeps bound self → keeps bound (close self).
Proof.
  intros [Hi Ho Hc Hl Hp]. split; unfold close; simpl; try done.
  unfold Buffer.len in *. simpl. lia.
Qed.

End sim_transport_spec.
End SimTransportSpec.
