(* ===== verification/SimReplay.v ===== *)
(** * Replay of policy traces

    [config.rs], [report.rs] and [replay.rs] of [bornera-sim]: a trace replayed
    on a fresh core, one observation per action. The heap that holds the core's
    ledger is threaded, and the address of the ledger is a parameter. *)
From Stdlib Require Import ZArith Lia.
From stdpp Require Import prelude.
From S2P Require Import Prelude External Identity Limits Admission Ledger Operation Permit.
From S2P Require Import Write Machine Core CoreAdmission Recovery Reference ReferenceFacts CoreView.
From S2P Require Import CallTheorems Host SlotData SimTrace.

Module SimulationConfig.
Section simulation_config.
Context {Cal : Calandria}.

(** Immutable construction facts for every replay of one trace. *)
Record t : Type := new {
  endpoint : EndpointId.t;
  lane : LaneId.t;
  connection : ConnectionId.t;
  epoch : ConnectionEpoch.t;
  limits : ConnectionLimits.t;
}.

End simulation_config.
End SimulationConfig.

(** ** Observations ([report.rs]) *)

Module StepResult.
Section step_result.
Context {Cal : Calandria} {BB : ByteBudgetLib}.

(** Result of applying one trace action. *)
Inductive t : Type :=
  | Submitted (index : OperationIndex.t) (operation : OperationId.t) (match_key : MatchKey.t)
      (transition : ConnectionTransition.t unit)
  | ReserveRejected (error : ReserveError.t)
  | CommitRejected (failure : FrameCommitFailure.t)
  | UnitTransition (transition : ConnectionTransition.t unit)
  | ReplyTransition (transition : ConnectionTransition.t SimFrame.t)
  | WriteTransition (operation : OperationId.t) (bytes : Z)
      (transition : ConnectionTransition.t unit)
  | NoPendingWrite
  | UnknownOperation (index : OperationIndex.t)
  | CoreFailed (error : ConnectionCoreError.t)
  | Recovered (recovery : ConnectionRecovery.t SimFrame.t).

Definition unit_result (r : result (ConnectionTransition.t unit) ConnectionCoreError.t) : t :=
  match r with Ok transition => UnitTransition transition | Err error => CoreFailed error end.

Definition reply_result
    (r : result (ConnectionTransition.t SimFrame.t) ConnectionCoreError.t) : t :=
  match r with Ok transition => ReplyTransition transition | Err error => CoreFailed error end.

End step_result.
End StepResult.

Module StepObservation.
Section step_observation.
Context {Cal : Calandria} {BB : ByteBudgetLib}.

(** One action result paired with the complete post-action owner snapshot. *)
Record t : Type := mk {
  action : Z;
  result : StepResult.t;
  snapshot : ConnectionSnapshot.t;
}.

End step_observation.
End StepObservation.

Module ReplayReport.
Section replay_report.
Context {Cal : Calandria} {BB : ByteBudgetLib}.

(** Complete replay result suitable for byte-for-byte equality comparison. *)
Record t : Type := new {
  observations : list StepObservation.t;
  final_snapshot : ConnectionSnapshot.t;
}.

End replay_report.
End ReplayReport.

(** ** The interpreter ([replay.rs]) *)

Module Simulator.
Section simulator.
Context {Cal : Calandria} {BB : ByteBudgetLib} {Build : BuildConfig}.

(** Stateless deterministic trace replay factory. *)
Record t : Type := new { config : SimulationConfig.t }.

Record Accepted : Type := mk_accepted { operation : OperationId.t; key : MatchKey.t }.

(** The core, the heap, and what was accepted so far. *)
Definition state : Type := ConnectionCore.t SimFrame.t * Heap.t * list Accepted.

Definition accepted_operation (accepted : list Accepted) (index : OperationIndex.t)
    : option Accepted :=
  accepted !! Z.to_nat (OperationIndex.get index).

Definition select_epoch (epoch : ConnectionEpoch.t) (target : EpochTarget.t)
    : ConnectionEpoch.t :=
  match target with
  | EpochTarget.Current => epoch
  | EpochTarget.Stale => ConnectionEpoch.new (u64_wrap (ConnectionEpoch.get epoch + 1))
  end.

Definition submit (now : Moment) (options : OperationOptions.t) (frame : SimFrame.t)
    (s : state) : state * StepResult.t :=
  let '(core, heap, accepted) := s in
  match ConnectionCore.reserve now options (core, heap) with
  | (core, heap, Err error) => (core, heap, accepted, StepResult.ReserveRejected error)
  | (core, heap, Ok permit) =>
      let key := OperationPermit.match_key permit in
      match ConnectionCore.commit permit frame (core, heap) with
      | (core, heap, Ok (operation, transition)) =>
          let index := OperationIndex.new (Z.of_nat (length accepted)) in
          (core, heap, accepted ++ [mk_accepted operation key],
           StepResult.Submitted index operation key transition)
      | (core, heap, Err error) =>
          let failure := FrameCommitError.failure error in
          let '(permit, _) := FrameCommitError.into_parts error in
          let '(_, heap) := OperationPermit.drop permit heap in
          (core, heap, accepted, StepResult.CommitRejected failure)
      end
  end.

Definition advance_write (bytes : Z) (s : state) : state * StepResult.t :=
  let '(core, heap, accepted) := s in
  match ConnectionCore.front_write (mk_nonzero USIZE_MAX) (core, heap) with
  | (core, heap, Ok None) => (core, heap, accepted, StepResult.NoPendingWrite)
  | (core, heap, Err error) => (core, heap, accepted, StepResult.CoreFailed error)
  | (core, heap, Ok (Some front)) =>
      match ConnectionCore.advance_write (ConnectionCore.epoch core) (WriteSlice.effect front)
              bytes (core, heap) with
      | (core, heap, Ok transition) =>
          (core, heap, accepted,
           StepResult.WriteTransition (WriteSlice.operation front) bytes transition)
      | (core, heap, Err error) => (core, heap, accepted, StepResult.CoreFailed error)
      end
  end.

(** A command of the core, and its answer as a result. *)
Definition command (input : ConnectionInput.t) (s : state) : state * StepResult.t :=
  let '(core, heap, accepted) := s in
  let '(core, heap, r) := ConnectionCore.apply input (core, heap) in
  (core, heap, accepted, StepResult.unit_result r).

Definition with_operation (index : OperationIndex.t) (target : EpochTarget.t)
    (input : ConnectionEpoch.t → OperationId.t → ConnectionInput.t) (s : state)
    : state * StepResult.t :=
  match accepted_operation s.2 index with
  | None => (s, StepResult.UnknownOperation index)
  | Some accepted =>
      command (input (select_epoch (ConnectionCore.epoch s.1.1) target) (operation accepted)) s
  end.

Definition reply (index : OperationIndex.t) (frame : SimFrame.t) (target : EpochTarget.t)
    (s : state) : state * StepResult.t :=
  match accepted_operation s.2 index with
  | None => (s, StepResult.UnknownOperation index)
  | Some found =>
      let '(core, heap, accepted) := s in
      let '(core, heap, r) :=
        ConnectionCore.apply_reply
          (InboundReply.new (select_epoch (ConnectionCore.epoch core) target) (key found) frame)
          (core, heap) in
      (core, heap, accepted, StepResult.reply_result r)
  end.

Definition recover (s : state) : state * StepResult.t :=
  let '(core, heap, accepted) := s in
  let '(core, heap, recovery) := CoreRecovery.recover (core, heap) in
  (core, heap, accepted, StepResult.Recovered recovery).

Definition apply (action : TraceAction.t) (s : state) : state * StepResult.t :=
  let select := select_epoch (ConnectionCore.epoch s.1.1) in
  match action with
  | TraceAction.Submit now options frame => submit now options frame s
  | TraceAction.AdvanceWrite bytes => advance_write bytes s
  | TraceAction.Reply operation frame epoch => reply operation frame epoch s
  | TraceAction.Cancel operation epoch =>
      with_operation operation epoch ConnectionInput.Cancel s
  | TraceAction.Deadline operation now epoch =>
      with_operation operation epoch
        (λ epoch operation, ConnectionInput.DeadlineElapsed epoch operation now) s
  | TraceAction.OpenAdmission epoch => command (ConnectionInput.OpenAdmission (select epoch)) s
  | TraceAction.BeginDrain epoch => command (ConnectionInput.BeginDrain (select epoch)) s
  | TraceAction.Close epoch reason =>
      command (ConnectionInput.CloseRequested (select epoch) reason) s
  | TraceAction.EpochClosed epoch => command (ConnectionInput.EpochClosed (select epoch)) s
  | TraceAction.Recover => recover s
  end.

(** The loop over the actions, from the position of the first. *)
Fixpoint replay_loop (position : Z) (actions : list TraceAction.t) (s : state)
    : state * list StepObservation.t :=
  match actions with
  | [] => (s, [])
  | action :: actions =>
      let '(s, r) := apply action s in
      let snapshot := ConnectionCore.snapshot s.1.1 s.1.2 in
      let '(s, observations) := replay_loop (position + 1) actions s in
      (s, StepObservation.mk position r snapshot :: observations)
  end.

(** The core every replay starts from. *)
Definition fresh (self : t) (ledger : LedgerRef) (heap : Heap.t) : state :=
  let config := config self in
  let '(core, heap) :=
    ConnectionCore.new (SimulationConfig.endpoint config) (SimulationConfig.lane config)
      (SimulationConfig.connection config) (SimulationConfig.epoch config)
      (SimulationConfig.limits config) ledger heap in
  (core, heap, []).

Definition replay (self : t) (trace : Trace.t) (ledger : LedgerRef) (heap : Heap.t)
    : ReplayReport.t :=
  let '(core, heap, _, observations) :=
    replay_loop 0 (Trace.actions trace) (fresh self ledger heap) in
  ReplayReport.new observations (ConnectionCore.snapshot core heap).

End simulator.
End Simulator.

(** ** Replays account for every operation

    The invariant of a replay on a fresh core. Up to the first report of more
    bytes than remain the core is held ([healthy]); such a report fails it
    closed ([stuck]): from then on every action but recovery is refused and
    changes nothing. Either way the operations that were submitted are those
    whose outcome was published and those that recovery will give back. *)

Import Told Simulator.

Module ReplaySpec.
Section replay_spec.
Context {Cal : Calandria} {BB : ByteBudgetLib} {Build : BuildConfig}.
Context {Laws : CalandriaLaws Cal} {BLaws : ByteBudgetLaws BB}.
Context (limits : ConnectionLimits.t).
Implicit Types (s : state) (v : Reference.state) (r : StepResult.t).

(** ** What an input does to the operations that owe an outcome *)

Lemma close_live {R : Type} epoch v why failure :
  live v ≡ₚ
    (published (R := R) (Reference.close epoch why failure v).2).*1.*2 ++
    live (Reference.close (R := R) epoch why failure v).1.
Proof.
  destruct (releases_say (λ _ : R, True) epoch failure (Reference.items v)) as (_ & _ & _ & L & _).
  cbv zeta in L. unfold Reference.close. cbn [fst snd].
  change (published (ConnectionEffect.CloseEpoch epoch why :: ?es)) with (published es).
  rewrite L. change (live v ≡ₚ live v ++ []). by rewrite app_nil_r.
Qed.

Lemma step_live epoch v input :
  coherent v →
  let ref := Reference.step epoch input v in
  live v ≡ₚ (published (ConnectionTransition.effects ref.2)).*1.*2 ++ live ref.1.
Proof.
  intros Hc. destruct input as [e|e op|e op now|e|e|e why|e]; unfold Reference.step;
    (case_bool_decide; [|done]).
  - by destruct (Reference.phase v), (Reference.gate v).
  - exact (td_live _ _ _ _ _ (told_cancel epoch v op Hc)).
  - unfold Reference.deadline_elapsed.
    destruct (Reference.find op (Reference.items v)) as [i|] eqn:Hf; [|done].
    apply find_Some in Hf as (l1 & l2 & Hi & <-).
    destruct (is_elapsed_at _ _); [|done]. destruct (Reference.delivery i); simpl negb; cbv iota.
    + simpl. eapply (td_live none), (told_finish none epoch v l1 i l2);
        [exact Hi|apply Hc|by eapply coherent_live|done].
    + apply close_live.
  - destruct (Reference.phase v); [apply close_live|done|done].
  - assert (∀ v', Reference.gate v' = AdmissionGate.Draining → Reference.phase v' = ConnectionPhase.Live →
      live v' ≡ₚ (published (R := unit) (Reference.drained epoch v').2).*1.*2 ++
        live (Reference.drained (R := unit) epoch v').1) as Hd.
    { intros v' Hg Hp. exact (td_live none epoch _ _ _ (told_drained none epoch v' (λ _, Hp))). }
    destruct (Reference.phase v) eqn:Hp; [|done|done].
    destruct (Reference.gate v); try done; by apply (Hd (Reference.with_gate v _)).
  - destruct (Reference.phase v); [apply close_live|done|done].
  - by destruct (Reference.phase v).
Qed.

Lemma core_coherent past ps (c : ConnectionCore.state SimFrame.t) :
  CoreView.held limits past ps c → coherent (CoreView.view_of c).
Proof.
  intros Hh. split.
  - pose proof (CoreView.held_ids _ _ _ _ Hh) as Hn. by apply NoDup_app in Hn as [Hn _].
  - intros Hp. by destruct (CoreView.held_life _ _ _ _ Hh) as [(? & _)|(_ & ? & _ & ?)].
Qed.

(** ** What a result says *)

Definition submitted_of r : list OperationId.t :=
  match r with StepResult.Submitted _ op _ _ => [op] | _ => [] end.

Definition published_of r : list OperationId.t :=
  match r with
  | StepResult.Submitted _ _ _ tr | StepResult.UnitTransition tr
  | StepResult.WriteTransition _ _ tr => (published (ConnectionTransition.effects tr)).*1.*2
  | StepResult.ReplyTransition tr => (published (ConnectionTransition.effects tr)).*1.*2
  | _ => []
  end.

Definition failed r : bool := match r with StepResult.CoreFailed _ => true | _ => false end.

(** The failure of a report of more bytes than remain. *)
Definition overreported (action : TraceAction.t) r : Prop :=
  ∃ written remaining, action = TraceAction.AdvanceWrite written ∧ remaining < written ∧
    r = StepResult.CoreFailed (ConnectionCoreError.Invariant
          (ConnectionCoreInvariant.WriteProgressContract written remaining)).

(** What a caller can build: byte counts and slices are of [usize] length. *)
Definition sane (action : TraceAction.t) : Prop :=
  match action with
  | TraceAction.Submit _ _ frame => Z.of_nat (length (SimFrame.bytes frame)) ≤ USIZE_MAX
  | TraceAction.AdvanceWrite bytes => 0 ≤ bytes
  | TraceAction.Recover => False
  | _ => True
  end.

(** ** The invariant *)

Definition core_of s : ConnectionCore.state SimFrame.t := s.1.
Definition accepted s : list OperationId.t := operation <$> s.2.

Definition healthy (settled : list OperationId.t) s : Prop :=
  CoreView.held limits (accepted s) [] (core_of s) ∧
  accepted s ≡ₚ settled ++ live (CoreView.view_of (core_of s)).

Record stuck (settled : list OperationId.t) s : Prop := mk_stuck {
  sk_poisoned : ConnectionCore.poisoned (core_of s).1 ≠ None;
  sk_ledger : ReservationLedger.poisoned
    (ConnectionCore.ledger_of (core_of s).1 (core_of s).2) = false;
  sk_nodup : NoDup (accepted s);
  sk_recover : accepted s ≡ₚ settled ++
    (RecoveredOperation.operation <$>
       ConnectionRecovery.operations (CoreRecovery.recover (core_of s)).2);
}.

Lemma healthy_nodup settled s : healthy settled s → NoDup (accepted s).
Proof.
  intros [(entries & _ & _ & [Hn _]) _]. by rewrite app_nil_r in Hn.
Qed.

(** ** One action *)

(** What an action that succeeds leaves. *)
Definition advanced (settled : list OperationId.t) s s' r : Prop :=
  healthy (settled ++ published_of r) s' ∧ failed r = false ∧
  accepted s' = accepted s ++ submitted_of r.

Lemma advanced_still settled s s' r :
  healthy settled s' → s'.2 = s.2 → failed r = false → published_of r = [] →
  submitted_of r = [] → advanced settled s s' r.
Proof.
  intros Hh Ha Hf Hp Hs. split; [by rewrite Hp, app_nil_r|]. split; [done|].
  unfold accepted. by rewrite Hs, Ha, app_nil_r.
Qed.

Lemma command_advanced settled input s :
  healthy settled s →
  let '(s', r) := command input s in advanced settled s s' r.
Proof.
  destruct s as [[core heap] l]. intros [Hh Ha]. unfold command. cbn [core_of fst snd] in *.
  destruct (CoreView.core_apply _ _ _ _ input Hh) as ([core' heap'] & -> & Hh' & Hv & Hk).
  split; [|split; [done|by rewrite app_nil_r]]. split; [exact Hh'|].
  unfold core_of. cbn [fst]. rewrite Hv, <- app_assoc. cbn [published_of StepResult.unit_result].
  rewrite <- (step_live _ _ input) by by eapply core_coherent. exact Ha.
Qed.

Lemma reply_advanced settled index frame target s :
  healthy settled s →
  let '(s', r) := reply index frame target s in advanced settled s s' r.
Proof.
  intros Hs. unfold reply. destruct (accepted_operation s.2 index) as [found|];
    [|by apply advanced_still].
  destruct s as [[core heap] l]. destruct Hs as [Hh Ha]. cbn [core_of fst snd] in *.
  set (input := InboundReply.new _ _ _).
  destruct (CoreView.core_reply _ _ _ _ input Hh) as ([core' heap'] & -> & Hh' & Hv & Hk).
  split; [|split; [done|by rewrite app_nil_r]]. split; [exact Hh'|].
  unfold core_of. cbn [fst]. rewrite Hv, <- app_assoc. cbn [published_of StepResult.reply_result].
  rewrite <- (td_live _ _ _ _ _ (told_reply _ _ input (core_coherent _ _ _ Hh))). exact Ha.
Qed.

Lemma submit_advanced settled now options frame s :
  healthy settled s → Z.of_nat (length (SimFrame.bytes frame)) ≤ USIZE_MAX →
  let '(s', r) := submit now options frame s in advanced settled s s' r.
Proof.
  destruct s as [[core heap] l]. intros [Hh Ha] Hlen. unfold submit. cbn [core_of fst snd] in *.
  destruct (CoreView.core_reserve _ _ _ _ now options Hh)
    as ([core1 heap1] & r & -> & Hv1 & _ & _ & Hr).
  destruct r as [permit|error].
  2: { apply advanced_still; [|done..]. split; [exact Hr|]. unfold core_of. cbn [fst].
       by rewrite Hv1. }
  destruct (CoreView.core_commit _ _ _ _ _ frame Hr Hlen) as ([core2 heap2] & r & Hcommit & _ & Hc).
  rewrite Hcommit.
  destruct r as [[op tr]|error].
  - destruct Hc as (-> & He & Hh2 & _ & Hv2). split; [|split; [done|]].
    + unfold healthy, accepted, core_of, published_of. cbn [fst snd]. rewrite He.
      rewrite fmap_app. split; [exact Hh2|]. unfold accepted in Ha. cbn [snd] in Ha.
      rewrite Ha, Hv2, Hv1. cbn [fmap list_fmap operation].
      change (published [_]) with (@nil (ConnectionEpoch.t * OperationId.t * OperationOutcome.t unit)).
      rewrite app_nil_r, <- app_assoc. f_equiv. unfold live. cbn [Reference.items Reference.with_items].
      by rewrite filter_app, fmap_app.
    + unfold accepted. cbn [snd]. by rewrite fmap_app.
  - pose proof (CoreAdmission.commit_gives_back _ _ _ _ _ Hcommit) as Hp. destruct Hc as [[= -> ->] _].
    unfold FrameCommitError.into_parts. rewrite Hp.
    pose proof (CoreView.core_drop _ _ _ _ _ Hr) as Hd. cbn [fst snd] in Hd.
    destruct (OperationPermit.drop permit heap1) as [permit' heap3]. cbn [snd] in Hd.
    apply advanced_still; [|done..]. split; [exact Hd|]. unfold core_of. cbn [fst].
    change (CoreView.view_of (core1, heap3)) with (CoreView.view_of (core1, heap1)).
    by rewrite Hv1.
Qed.

(** A report is applied, or exceeds what remains and fails the core closed. *)
Lemma advance_write_cases settled bytes s :
  healthy settled s → 0 ≤ bytes →
  let '(s', r) := advance_write bytes s in
  advanced settled s s' r ∨
  stuck settled s' ∧ overreported (TraceAction.AdvanceWrite bytes) r ∧ s'.2 = s.2.
Proof.
  intros Hs Hb. pose proof Hs as [Hh Ha]. destruct s as [[core heap] l]. cbn [core_of fst] in Hh.
  destruct (CoreView.core_front _ _ _ _ (mk_nonzero USIZE_MAX) Hh ltac:(done)) as (front & Hf & Hslice).
  unfold advance_write. rewrite Hf. destruct front as [slice|]; [|left; by apply advanced_still].
  destruct Hslice as (f & rest & Hq & _ & -> & _ & Hleft & _). cbn [fst] in Hq.
  set (more := FrameMeasure.wire_bytes _ - _) in Hleft.
  change (ConnectionCore.epoch core) with (CoreView.epoch_of (core, heap)).
  destruct (Z.le_gt_cases bytes more) as [Hle|Hgt].
  - destruct (CoreView.core_advance _ _ _ _ f rest bytes Hh Hq ltac:(done))
      as ([core' heap'] & -> & Hh' & Hv & _). left.
    split; [|split; [done|by rewrite app_nil_r]]. split; [exact Hh'|].
    unfold core_of. cbn [fst]. rewrite Hv, <- app_assoc. cbn [published_of].
    rewrite <- (td_live _ _ _ _ _ (told_progress _ _ _ _ _ (core_coherent _ _ _ Hh))). exact Ha.
  - destruct (CoreView.core_overreport _ _ _ _ f rest bytes Hh Hq ltac:(fold more; lia))
      as ([core' heap'] & -> & Hpo & Hl & Hrec). right.
    split; [|split; [|done]].
    + cbn [fst snd] in Hpo, Hl, Hrec. split; unfold core_of; cbn [fst snd];
        [by rewrite Hpo|exact Hl|exact (healthy_nodup _ _ Hs)|by rewrite Hrec].
    + exists bytes, more. split; [done|]. split; [lia|done].
Qed.

Lemma apply_healthy settled action s :
  healthy settled s → sane action →
  let '(s', r) := apply action s in
  advanced settled s s' r ∨ stuck settled s' ∧ overreported action r ∧ s'.2 = s.2.
Proof.
  intros Hs Hsane.
  assert (∀ input, let '(s', r) := command input s in
    advanced settled s s' r ∨ stuck settled s' ∧ overreported action r ∧ s'.2 = s.2) as Hcmd.
  { intros input. pose proof (command_advanced _ input _ Hs). destruct (command input s). by left. }
  assert (∀ index target input, let '(s', r) := with_operation index target input s in
    advanced settled s s' r ∨ stuck settled s' ∧ overreported action r ∧ s'.2 = s.2) as Hop.
  { intros index target input. unfold with_operation.
    destruct (accepted_operation s.2 index); [apply Hcmd|left; by apply advanced_still]. }
  destruct action as [now options frame|bytes|index frame target|index target|index now target
    |target|target|target why|target|]; cbn [apply]; 
    [| | |apply Hop|apply Hop|apply Hcmd|apply Hcmd|apply Hcmd|apply Hcmd|done].
  - pose proof (submit_advanced _ now options frame _ Hs Hsane).
    destruct (submit _ _ _ _). by left.
  - by apply advance_write_cases.
  - pose proof (reply_advanced _ index frame target _ Hs). destruct (reply _ _ _ _). by left.
Qed.

(** A core that failed closed refuses everything and stays as it is. *)
Lemma apply_stuck settled action s :
  stuck settled s → sane action →
  let '(s', r) := apply action s in s' = s ∧ published_of r = [] ∧ submitted_of r = [].
Proof.
  intros [Hpo Hl _ _] Hsane. destruct s as [[core heap] l]. cbn [core_of fst snd] in *.
  destruct (ConnectionCore.poisoned core) as [source|] eqn:Hsource; [|done].
  destruct (Calls.poisoned_refuses SimFrame.write_frame (R := SimFrame.t) core heap source
    Hsource Hl) as (Happly & Hreply & Hadvance & Hfront & Hreserve & _).
  assert (∀ input, let '(s', r) := command input (core, heap, l) in
    s' = (core, heap, l) ∧ published_of r = [] ∧ submitted_of r = []) as Hcmd.
  { intros input. unfold command. by rewrite Happly. }
  assert (∀ index target input, let '(s', r) := with_operation index target input (core, heap, l) in
    s' = (core, heap, l) ∧ published_of r = [] ∧ submitted_of r = []) as Hop.
  { intros index target input. unfold with_operation.
    destruct (accepted_operation _ _); [apply Hcmd|done]. }
  destruct action as [now options frame|bytes|index frame target|index target|index now target
    |target|target|target why|target|]; cbn [apply]; 
    [| | |apply Hop|apply Hop|apply Hcmd|apply Hcmd|apply Hcmd|apply Hcmd|done].
  - unfold submit. by rewrite Hreserve.
  - unfold advance_write. by rewrite Hfront.
  - unfold reply. destruct (accepted_operation _ _); [|done]. by rewrite Hreply.
Qed.

(** ** The loop *)

Lemma replay_loop_app position before action s :
  replay_loop position (before ++ [action]) s =
    let '(s1, l) := replay_loop position before s in
    let '(s2, r) := apply action s1 in
    (s2, l ++ [StepObservation.mk (position + Z.of_nat (length before)) r
                 (ConnectionCore.snapshot s2.1.1 s2.1.2)]).
Proof.
  revert position s. induction before as [|a before IH]; intros position s.
  - cbn [replay_loop app length]. destruct (apply action s). by rewrite Z.add_0_r.
  - cbn [replay_loop app]. destruct (apply a s) as [s1 r1]. rewrite IH.
    destruct (replay_loop (position + 1) before s1) as [s2 l]. destruct (apply action s2).
    cbn [length app]. rewrite Nat2Z.inj_succ.
    by replace (position + Z.succ (Z.of_nat (length before)))
      with (position + 1 + Z.of_nat (length before)) by lia.
Qed.

Definition results (l : list StepObservation.t) : list StepResult.t := StepObservation.result <$> l.

(** What a prefix of a replay leaves, and the first failure it met. *)
Definition accounts (before : list TraceAction.t) s (l : list StepResult.t) : Prop :=
  length l = length before ∧
  accepted s = l ≫= submitted_of ∧
  (healthy (l ≫= published_of) s ∧ Forall (λ r, failed r = false) l ∨
   stuck (l ≫= published_of) s ∧
     ∃ l1 r l2 action, l = l1 ++ r :: l2 ∧ Forall (λ r, failed r = false) l1 ∧
       before !! length l1 = Some action ∧ overreported action r).

Lemma replay_accounts before s :
  healthy [] s → s.2 = [] → Forall sane before →
  let '(s', l) := replay_loop 0 before s in accounts before s' (results l).
Proof.
  intros Hs Hnil. induction before as [|action before IH] using rev_ind; intros Hall.
  { split; [done|]. split; [unfold accepted; by rewrite Hnil|]. by left. }
  apply Forall_app in Hall as [Hall [Hsane _]%Forall_cons].
  specialize (IH Hall). rewrite replay_loop_app.
  destruct (replay_loop 0 before s) as [s1 l] eqn:Hl1. destruct IH as (Hlen & Hacc & Hcases).
  destruct (apply action s1) as [s2 r] eqn:Hr. unfold accounts, results in *.
  rewrite fmap_app. cbn [fmap list_fmap StepObservation.result].
  set (rs := StepObservation.result <$> l) in *. rewrite !length_app, !bind_app, Hlen. cbn [mbind list_bind].
  rewrite !app_nil_r. split; [done|]. destruct Hcases as [[Hh Hok]|[Hst Hfirst]].
  - pose proof (apply_healthy _ action _ Hh Hsane) as Ha. rewrite Hr in Ha.
    destruct Ha as [(Hh' & Hf & Hacc')|(Hst & Hover & Heq)].
    + split; [by rewrite Hacc', Hacc|]. left. split; [exact Hh'|]. by apply Forall_app_2; [|constructor].
    + destruct Hover as (written & remaining & -> & Hlt & ->). cbn [submitted_of published_of].
      rewrite !app_nil_r. split; [unfold accepted in *; by rewrite Heq|]. right. split; [exact Hst|].
      eexists rs, _, [], _. split; [done|]. split; [done|]. rewrite Hlen.
      split; [by rewrite list_lookup_middle|]. by exists written, remaining.
  - pose proof (apply_stuck _ action _ Hst Hsane) as Ha. rewrite Hr in Ha.
    destruct Ha as (-> & -> & ->). rewrite !app_nil_r. split; [done|]. right. split; [done|].
    destruct Hfirst as (l1 & r1 & l2 & a & -> & Hok & Hat & Hover).
    exists l1, r1, (l2 ++ [r]), a. split; [by rewrite <- app_assoc|]. split; [done|].
    split; [|done]. by apply lookup_app_l_Some.
Qed.

Lemma fresh_healthy self ledger heap :
  ConnectionLimits.valid limits → SimulationConfig.limits (config self) = limits →
  healthy [] (fresh self ledger heap) ∧ (fresh self ledger heap).2 = [].
Proof.
  intros Hv Hl. unfold fresh. rewrite Hl.
  destruct (CoreView.core_new (F := SimFrame.t) (SimulationConfig.endpoint (config self))
    (SimulationConfig.lane (config self)) (SimulationConfig.connection (config self))
    (SimulationConfig.epoch (config self)) limits ledger heap Hv) as (Hh & _ & Hview).
  destruct (ConnectionCore.new _ _ _ _ _ _ _) as [core h]. split; [|done]. split; [exact Hh|].
  unfold core_of. cbn [fst]. by rewrite Hview.
Qed.

(** Recovery ends the account. *)
Lemma recover_accounts settled s :
  healthy settled s ∨ stuck settled s →
  let '(s', r) := recover s in
  ∃ recovery, r = StepResult.Recovered recovery ∧ NoDup (accepted s) ∧
    accepted s ≡ₚ settled ++
      (RecoveredOperation.operation <$> ConnectionRecovery.operations recovery).
Proof.
  destruct s as [[core heap] l]. unfold recover. intros [Hs|Hs].
  - pose proof Hs as [Hh Ha]. cbn [core_of fst] in *.
    pose proof (CoreView.core_recover _ _ _ _ Hh) as Hr.
    destruct (CoreRecovery.recover (core, heap)) as [[core' heap'] recovery].
    exists recovery. split; [done|]. split; [by eapply healthy_nodup|].
    destruct Hr as (-> & _). exact Ha.
  - pose proof (sk_recover _ _ Hs) as Hr. cbn [core_of fst] in Hr.
    destruct (CoreRecovery.recover (core, heap)) as [[core' heap'] recovery].
    exists recovery. split; [done|]. split; [apply Hs|exact Hr].
Qed.

End replay_spec.
End ReplaySpec.
