(* ===== verification/SimSlotReplay.v ===== *)
(** * Replay of slot traces in virtual time

    [slot_config.rs], [slot_report.rs], [slot_apply.rs] and [slot_replay.rs] of
    [bornera-sim]: a production slot over the simulated transport, driven by the
    stimuli of a trace and by its own deadlines on a timeline. The heap that
    holds the ledger of the slot's core is threaded, and the address of the
    ledger is a parameter. *)
From Stdlib Require Import ZArith Lia.
From stdpp Require Import prelude.
From S2P Require Import Prelude External Host Identity Limits Admission Ledger Operation Permit.
From S2P Require Import Write Framing Machine Core Recovery Config Transport SlotData Slot Drive.
From S2P Require Import SimTrace SimHost SimWire SimTransport.

Module SlotSimulationConfig.
Section slot_simulation_config.
Context {Cal : Calandria} {H : Host} {Sim : SimHost}.

(** Immutable construction facts shared by every production-slot replay. *)
Record t : Type := new {
  slot : ConnectionSlotConfig.t;
  limits : ConnectionSlotLimits.t;
  timeline : TimelineId;
}.

End slot_simulation_config.
End SlotSimulationConfig.

(** ** Observations ([slot_report.rs]) *)

Module SlotActionFailure.
Section slot_action_failure.
Context {Cal : Calandria}.

(** Stable classification of an action failure without retaining backend errors. *)
Inductive t : Type :=
  | UnknownOperation (operation : OperationIndex.t)
  | Reserve (error : ReserveError.t)
  | Commit (failure : FrameCommitFailure.t)
  | Owner (reason : OwnerFailure.t)
  | ReplyEncoding
  | FrameEncoding
  | SimulatedInputCapacity
  | SlotRecovered.

End slot_action_failure.
End SlotActionFailure.

Module SlotActionResult.
Section slot_action_result.
Context {Cal : Calandria}.

(** Result of one externally supplied production-slot action. *)
Inductive t : Type :=
  | ConnectReady
  | Admission (disposition : InputDisposition.t)
  | Submitted (index : OperationIndex.t) (operation : OperationId.t) (match_key : MatchKey.t)
  | SubmittedOwnerFailed (index : OperationIndex.t) (operation : OperationId.t)
      (match_key : MatchKey.t) (reason : OwnerFailure.t)
  | WriteReady (bytes : Z)
  | ReplyInjected (operation : OperationIndex.t)
  | Cancelled (outcome : CancelOutcome.t)
  | Drain (disposition : InputDisposition.t)
  | Close (disposition : InputDisposition.t)
  | PeerClosed
  | TransportSettled (settled : bool)
  | Driven
  | Rejected (failure : SlotActionFailure.t)
  | Recovered.

End slot_action_result.
End SlotActionResult.

Module SlotObservationKind.
Section slot_observation_kind.
Context {Cal : Calandria}.

(** Whether an observation came from a trace action or a scheduled slot deadline. *)
Inductive t : Type :=
  | Action (index : Z) (result : SlotActionResult.t)
  | Deadline.

End slot_observation_kind.
End SlotObservationKind.

Module SlotStepObservation.
Section slot_step_observation.
Context {Cal : Calandria} {H : Host}.

(** Complete post-step production orchestration observation. *)
Record t : Type := mk {
  at_ : Moment;
  kind : SlotObservationKind.t;
  progress : option SlotProgress.t;
  drive_failure : option SlotActionFailure.t;
  snapshot : option ConnectionSlotSnapshot.t;
  recovery : option (RecoveryReport.t OutboundFrame.t SimReply.t);
  outcomes : list (EngineOutcome.t SimReply.t);
  events : list ConnectionEvent.t;
}.

End slot_step_observation.
End SlotStepObservation.

Module SlotReplayReport.
Section slot_replay_report.
Context {Cal : Calandria} {H : Host}.

(** Complete exact replay report for one production slot. *)
Record t : Type := new {
  observations : list SlotStepObservation.t;
  final_snapshot : option ConnectionSlotSnapshot.t;
  outbound : list Byte.byte;
  applied_policy : option TcpSocketPolicy.t;
}.

End slot_replay_report.
End SlotReplayReport.

Module SlotReplayError.
Section slot_replay_error.
Context {Cal : Calandria} {H : Host} {Sim : SimHost}.

(** Why a production-slot trace could not be constructed or scheduled. *)
Inductive t : Type :=
  | TimelineCapacityOverflow
  | Schedule (failure : ScheduleFailure)
  | SlotConstruction
  | TransportConstruction.

End slot_replay_error.
End SlotReplayError.

Module ReplayEvent.
Section replay_event.
Context {Cal : Calandria}.

Inductive t : Type :=
  | Action (index : Z) (action : SlotAction.t)
  | Deadline.

#[global] Instance retained : Retained t := λ self,
  match self with
  | Action _ action => SlotAction.retained_bytes action
  | Deadline => rb_ZERO
  end.

End replay_event.
End ReplayEvent.

(** ** The owner of one replay *)

Module ReplayOwner.
Section replay_owner.
Context {Cal : Calandria} {BB : ByteBudgetLib} {Build : BuildConfig} {H : Host}.
Context {Alloc : Allocator} {Sim : SimHost}.

Definition SimSlot : Type := ConnectionSlot.t SimDecoder.t SimClassifier.t.

Record Accepted : Type := mk_accepted { operation : OperationId.t; key : MatchKey.t }.

Record t : Type := mk {
  slot : option SimSlot;
  transport : SimTransport.t;
  accepted : list Accepted;
  observations : list SlotStepObservation.t;
  recovery : option (RecoveryReport.t OutboundFrame.t SimReply.t);
  deadline : option EventToken;
  horizon : option Moment;
}.

(** Field updates. *)
Definition set_slot (self : t) (v : option SimSlot) : t :=
  mk v (transport self) (accepted self) (observations self) (recovery self) (deadline self)
    (horizon self).
Definition set_transport (self : t) (v : SimTransport.t) : t :=
  mk (slot self) v (accepted self) (observations self) (recovery self) (deadline self)
    (horizon self).
Definition set_accepted (self : t) (v : list Accepted) : t :=
  mk (slot self) (transport self) v (observations self) (recovery self) (deadline self)
    (horizon self).
Definition set_observations (self : t) (v : list SlotStepObservation.t) : t :=
  mk (slot self) (transport self) (accepted self) v (recovery self) (deadline self)
    (horizon self).
Definition set_recovery (self : t)
    (v : option (RecoveryReport.t OutboundFrame.t SimReply.t)) : t :=
  mk (slot self) (transport self) (accepted self) (observations self) v (deadline self)
    (horizon self).
Definition set_deadline (self : t) (v : option EventToken) : t :=
  mk (slot self) (transport self) (accepted self) (observations self) (recovery self) v
    (horizon self).

(** The owner with the heap of its slot's ledger. *)
Definition state : Type := t * Heap.t.

Definition new (slot : SimSlot) (transport_limits : TransportLimits.t)
    (horizon : option Moment) : result t SlotReplayError.t :=
  match SimTransport.new transport_limits with
  | Err _ => Err SlotReplayError.TransportConstruction
  | Ok transport => Ok (mk (Some slot) transport [] [] None None horizon)
  end.

(** *** Actions ([slot_apply.rs]) *)

Definition rejected_owner (error : EngineError.t) : SlotActionResult.t :=
  SlotActionResult.Rejected (SlotActionFailure.Owner (EngineError.owner_failure error)).

(** An error that owns a permit is dropped at the end of its match arm, and
    the permit with it. *)
Definition submit (accepted : list Accepted) (permit : OperationPermit.t)
    (frame : SimFrame.t) (s : ConnectionSlot.owner SimDecoder.t SimClassifier.t)
    : ConnectionSlot.owner SimDecoder.t SimClassifier.t * list Accepted * SlotActionResult.t :=
  let operation := OperationPermit.operation permit in
  let key := OperationPermit.match_key permit in
  let index := OperationIndex.new (Z.of_nat (length accepted)) in
  match OutboundFrame.copy_from_slice (SimFrame.as_bytes frame) with
  | Err _ =>
      let '(_, heap) := OperationPermit.drop permit s.2 in
      (s.1, heap, accepted, SlotActionResult.Rejected SlotActionFailure.FrameEncoding)
  | Ok outbound =>
      match ConnectionSlot.commit permit outbound s with
      | (slot, heap, Ok committed) =>
          (slot, heap, accepted ++ [mk_accepted operation key],
           SlotActionResult.Submitted index committed key)
      | (slot, heap, Err (EngineCommitError.Rejected error)) =>
          let '(_, heap) := OperationPermit.drop (FrameCommitError.permit error) heap in
          (slot, heap, accepted,
           SlotActionResult.Rejected (SlotActionFailure.Commit (FrameCommitError.failure error)))
      | (slot, heap, Err (EngineCommitError.AcceptedOwnerFailure committed source)) =>
          (slot, heap, accepted ++ [mk_accepted committed key],
           SlotActionResult.SubmittedOwnerFailed index committed key
             (EngineError.owner_failure source))
      | (slot, heap, Err (EngineCommitError.OwnerFailed reason permit _)) =>
          let '(_, heap) := OperationPermit.drop permit heap in
          (slot, heap, accepted, SlotActionResult.Rejected (SlotActionFailure.Owner reason))
      end
  end.

(** A control call of the slot, and its answer as a result. *)
Definition control {A : Type} (f : STE (ConnectionSlot.owner SimDecoder.t SimClassifier.t)
      EngineError.t A) (ok : A → SlotActionResult.t) (slot : SimSlot) (s : state)
    : state * SlotActionResult.t :=
  let '(self, heap) := s in
  let '(slot, heap, r) := f (slot, heap) in
  (set_slot self (Some slot), heap,
   match r with Ok a => ok a | Err error => rejected_owner error end).

Definition lookup (self : t) (operation : OperationIndex.t) : option Accepted :=
  accepted self !! Z.to_nat (OperationIndex.get operation).

Definition unknown (operation : OperationIndex.t) : SlotActionResult.t :=
  SlotActionResult.Rejected (SlotActionFailure.UnknownOperation operation).

Definition apply_submit (now : Moment) (options : OperationOptions.t) (frame : SimFrame.t)
    (slot : SimSlot) (s : state) : state * SlotActionResult.t :=
  let '(self, heap) := s in
  match ConnectionSlot.reserve now options (slot, heap) with
  | (slot, heap, Err error) =>
      (set_slot self (Some slot), heap,
       SlotActionResult.Rejected (SlotActionFailure.Reserve error))
  | (slot, heap, Ok permit) =>
      let '(slot, heap, accepted, result) := submit (accepted self) permit frame (slot, heap) in
      (set_accepted (set_slot self (Some slot)) accepted, heap, result)
  end.

Definition apply_reply (operation : OperationIndex.t) (payload : SimFrame.t) (self : t)
    : t * SlotActionResult.t :=
  match lookup self operation with
  | None => (self, unknown operation)
  | Some accepted =>
      match encode_reply (key accepted) payload with
      | Err _ => (self, SlotActionResult.Rejected SlotActionFailure.ReplyEncoding)
      | Ok encoded =>
          let '(transport, injected) := SimTransport.inject_read (transport self) encoded in
          (set_transport self transport,
           if is_ok injected then SlotActionResult.ReplyInjected operation
           else SlotActionResult.Rejected SlotActionFailure.SimulatedInputCapacity)
      end
  end.

Definition apply_settle (slot : SimSlot) (s : state) : state * SlotActionResult.t :=
  let '(self, heap) := s in
  let should_settle :=
    bool_decide (is_Some (ConnectionSlotSnapshot.owner_failure (ConnectionSlot.snapshot slot heap)))
    || ConnectionSlot.transport_release_ready slot in
  if should_settle then
    let self := set_transport self (SimTransport.close (transport self)) in
    let '(slot, heap, settled) := ConnectionSlot.settle_transport_closed (slot, heap) in
    (set_slot self (Some slot), heap, SlotActionResult.TransportSettled settled)
  else (self, heap, SlotActionResult.TransportSettled false).

Definition apply_recover (reason : OwnerFailure.t) (slot : SimSlot) (s : state)
    : state * SlotActionResult.t :=
  let '(self, heap) := s in
  let self := set_slot self None in
  let self := set_transport self (SimTransport.close (transport self)) in
  let '(_, heap, report) := ConnectionSlot.recover reason (slot, heap) in
  (set_recovery self (Some report), heap, SlotActionResult.Recovered).

Definition apply_action (now : Moment) (action : SlotAction.t) (s : state)
    : state * SlotActionResult.t :=
  let '(self, heap) := s in
  match slot self with
  | None => (self, heap, SlotActionResult.Rejected SlotActionFailure.SlotRecovered)
  | Some slot =>
      let stimulate f result := (set_transport self (f (transport self)), heap, result) in
      match action with
      | SlotAction.ConnectReady =>
          stimulate SimTransport.observe_connect_ready SlotActionResult.ConnectReady
      | SlotAction.OpenAdmission =>
          control ConnectionSlot.open_admission SlotActionResult.Admission slot s
      | SlotAction.Submit options frame => apply_submit now options frame slot s
      | SlotAction.WriteReady bytes =>
          stimulate (λ t, SimTransport.allow_write t bytes) (SlotActionResult.WriteReady bytes)
      | SlotAction.Reply operation payload =>
          let '(self, result) := apply_reply operation payload self in (self, heap, result)
      | SlotAction.Cancel index =>
          match lookup self index with
          | None => (self, heap, unknown index)
          | Some accepted =>
              control (ConnectionSlot.cancel (operation accepted))
                SlotActionResult.Cancelled slot s
          end
      | SlotAction.BeginDrain deadline =>
          control (ConnectionSlot.begin_drain deadline) SlotActionResult.Drain slot s
      | SlotAction.Close reason =>
          control (ConnectionSlot.finalize reason) SlotActionResult.Close slot s
      | SlotAction.PeerClosed =>
          stimulate SimTransport.observe_peer_closed SlotActionResult.PeerClosed
      | SlotAction.SettleTransport => apply_settle slot s
      | SlotAction.Drive => (self, heap, SlotActionResult.Driven)
      | SlotAction.Recover reason => apply_recover reason slot s
      end
  end.

(** *** Events ([slot_replay.rs]) *)

Definition drive (now : Moment) (s : state)
    : state * option SlotProgress.t * option SlotActionFailure.t :=
  let '(self, heap) := s in
  match slot self with
  | None => (self, heap, None, None)
  | Some slot =>
      let '(slot, heap, driven, r) :=
        Drive.drive_quantum now (slot, heap, Some (transport self)) in
      let self := set_transport (set_slot self (Some slot)) (default (transport self) driven) in
      match r with
      | Ok progress => (self, heap, Some progress, None)
      | Err error =>
          (self, heap, None, Some (SlotActionFailure.Owner (EngineError.owner_failure error)))
      end
  end.

Definition observe (s : state)
    : t * option ConnectionSlotSnapshot.t * list (EngineOutcome.t SimReply.t)
        * list ConnectionEvent.t :=
  let '(self, heap) := s in
  match slot self with
  | None => (self, None, [], [])
  | Some slot =>
      let snapshot := ConnectionSlot.snapshot slot heap in
      let '(slot, outcomes) := ConnectionSlot.drain_outcomes slot in
      let '(slot, events) := ConnectionSlot.drain_events slot in
      (set_slot self (Some slot), Some snapshot, outcomes, events)
  end.

(** What the event itself does. *)
Definition deliver (token : EventToken) (event : ReplayEvent.t) (s : state)
    : state * SlotObservationKind.t :=
  let '(self, heap) := s in
  match event with
  | ReplayEvent.Action index action =>
      let '(s, result) := apply_action (token_at token) action s in
      (s, SlotObservationKind.Action index result)
  | ReplayEvent.Deadline =>
      (if bool_decide (deadline self = Some token) then set_deadline self None else self, heap,
       SlotObservationKind.Deadline)
  end.

Definition apply_event (token : EventToken) (event : ReplayEvent.t) (s : state) : state :=
  let '(s, kind) := deliver token event s in
  let '(self, heap, progress, drive_failure) := drive (token_at token) s in
  let '(self, snapshot, outcomes, events) := observe (self, heap) in
  let recovery := recovery self in
  let self := set_recovery self None in
  (set_observations self
     (observations self ++
      [SlotStepObservation.mk (token_at token) kind progress drive_failure snapshot recovery
         outcomes events]), heap).

(** The moment at which the slot wants to be driven, up to the horizon. *)
Definition desired (s : state) : option Moment :=
  let '(self, heap) := s in
  match slot self with
  | None => None
  | Some slot =>
      match ConnectionSlotSnapshot.owner_failure (ConnectionSlot.snapshot slot heap) with
      | Some _ => None
      | None =>
          match ConnectionSlot.next_deadline slot with
          | None => None
          | Some next =>
              let at_ := deadline_moment next in
              match horizon self with
              | Some horizon => if moment_leb at_ horizon then Some at_ else None
              | None => None
              end
          end
      end
  end.

Definition sync_deadline (timeline : Timeline ReplayEvent.t) (s : state)
    : Timeline ReplayEvent.t * state * result unit SlotReplayError.t :=
  let '(self, heap) := s in
  let desired := desired s in
  if bool_decide (token_at <$> deadline self = desired) then (timeline, (self, heap), Ok tt)
  else
    let timeline :=
      match deadline self with
      | Some token => timeline_cancel timeline token
      | None => timeline
      end in
    let self := set_deadline self None in
    match desired with
    | None => (timeline, (self, heap), Ok tt)
    | Some at_ =>
        match timeline_schedule_at timeline (moment_max at_ (timeline_now timeline))
                ReplayEvent.Deadline with
        | (timeline, Err failure) =>
            (timeline, (self, heap), Err (SlotReplayError.Schedule failure))
        | (timeline, Ok token) => (timeline, (set_deadline self (Some token), heap), Ok tt)
        end
    end.

Definition report (s : state) : SlotReplayReport.t :=
  let '(self, heap) := s in
  SlotReplayReport.new (observations self)
    ((λ slot, ConnectionSlot.snapshot slot heap) <$> slot self)
    (Buffer.bytes (SimTransport.outbound (transport self)))
    (SimTransport.applied_policy (transport self)).

End replay_owner.
End ReplayOwner.

(** ** The interpreter *)

Module SlotSimulator.
Section slot_simulator.
Context {Cal : Calandria} {BB : ByteBudgetLib} {Build : BuildConfig} {H : Host}.
Context {Alloc : Allocator} {Sim : SimHost}.

(** Stateless replay factory for production decoder, classifier, deadline, and
    publication logic. *)
Record t : Type := new { config : SlotSimulationConfig.t }.

(** The loop that schedules the actions, from the position of the first. *)
Fixpoint schedule_actions (index : Z) (actions : list TimedSlotAction.t)
    (timeline : Timeline ReplayEvent.t)
    : Timeline ReplayEvent.t * result unit SlotReplayError.t :=
  match actions with
  | [] => (timeline, Ok tt)
  | timed :: actions =>
      match timeline_schedule_at timeline (TimedSlotAction.at_ timed)
              (ReplayEvent.Action index (TimedSlotAction.into_action timed)) with
      | (timeline, Err failure) => (timeline, Err (SlotReplayError.Schedule failure))
      | (timeline, Ok _) => schedule_actions (index + 1) actions timeline
      end
  end.

(** [Iterator::max]: the last of the greatest moments. *)
Definition latest (l : list Moment) : option Moment :=
  match l with
  | [] => None
  | m :: l => Some (foldl (λ a b, if moment_leb a b then b else a) m l)
  end.

(** The loop over the deliveries; none when the fuel runs out. *)
Fixpoint replay_loop (fuel : nat) (timeline : Timeline ReplayEvent.t) (s : ReplayOwner.state)
    : option (result ReplayOwner.state SlotReplayError.t) :=
  match timeline_pop_next timeline with
  | (_, None) => Some (Ok s)
  | (timeline, Some (token, event)) =>
      match fuel with
      | O => None
      | S fuel =>
          match ReplayOwner.sync_deadline timeline (ReplayOwner.apply_event token event s) with
          | (_, _, Err e) => Some (Err e)
          | (timeline, s, Ok _) => replay_loop fuel timeline s
          end
      end
  end.

Definition replay_owner (self : t) (trace : SlotTrace.t) (ledger : LedgerRef) (heap : Heap.t)
    : Heap.t * result ReplayOwner.t SlotReplayError.t :=
  let limits := SlotSimulationConfig.limits (config self) in
  let horizon := latest (TimedSlotAction.at_ <$> SlotTrace.actions trace) in
  let decoder := SimDecoder.new (ConnectionSlotLimits.reply_retained_bytes limits) in
  match ConnectionSlot.new (SlotSimulationConfig.slot (config self)) limits decoder
          SimClassifier.mk ledger heap with
  | (heap, Err _) => (heap, Err SlotReplayError.SlotConstruction)
  | (heap, Ok slot) =>
      (heap, ReplayOwner.new slot (ConnectionSlotLimits.transport_limits limits) horizon)
  end.

Definition replay (fuel : nat) (self : t) (trace : SlotTrace.t) (ledger : LedgerRef)
    (heap : Heap.t) : option (result SlotReplayReport.t SlotReplayError.t) :=
  let count := Z.of_nat (length (SlotTrace.actions trace)) in
  match usize_checked_add count 1 ≫= nonzero_new with
  | None => Some (Err SlotReplayError.TimelineCapacityOverflow)
  | Some capacity =>
  let limits :=
    timeline_limits_new capacity (SlotTraceLimits.retained_bytes (SlotTrace.limits trace)) in
  let timeline := timeline_new (SlotSimulationConfig.timeline (config self)) limits in
  match schedule_actions 0 (SlotTrace.actions trace) timeline with
  | (_, Err e) => Some (Err e)
  | (timeline, Ok _) =>
  match usize_checked_mul count 2 ≫= λ capacity, usize_checked_add capacity 1 with
  | None => Some (Err SlotReplayError.TimelineCapacityOverflow)
  | Some _ =>
  match replay_owner self trace ledger heap with
  | (_, Err e) => Some (Err e)
  | (heap, Ok owner) =>
  match ReplayOwner.sync_deadline timeline (owner, heap) with
  | (_, _, Err e) => Some (Err e)
  | (timeline, s, Ok _) =>
      match replay_loop fuel timeline s with
      | None => None
      | Some (Err e) => Some (Err e)
      | Some (Ok s) => Some (Ok (ReplayOwner.report s))
      end
  end end end end end.

End slot_simulator.
End SlotSimulator.
