(* ===== verification/SimSlotRuns.v ===== *)
(** * A slot replay is a run of its slot

    Every action of a trace, every deadline, and every drive of a replay is a
    sequence of calls of the public interface of the slot, in the sense of
    [SlotSystem], over a transport that keeps its contract. What is known of
    every run of a slot is known of a replay: no call of it fails, it loses and
    repeats no outcome, and its deadlines are spent. *)
From Stdlib Require Import ZArith Lia.
From stdpp Require Import prelude sorting.
From S2P Require Import Prelude External Host Identity Limits Admission Ledger Operation Permit.
From S2P Require Import Write Framing Machine Core Recovery Reference ReferenceFacts CoreView.
From S2P Require Import Config Transport SlotData Slot Drive SlotSpec SlotCalls DriveSpec.
From S2P Require Import QuantumSpec SlotSystem SlotFrame SlotStanding.
From S2P Require Import SimTrace SimHost SimWire SimTransport SimSlotReplay.

Import Hosted SlotCalls ConnectionSlot SlotSystem SlotRuns SimTransportSpec.

Module SimSlotRuns.
Section sim_slot_runs.
Context {Cal : Calandria} {BB : ByteBudgetLib} {Build : BuildConfig} {H : Host}.
Context {Laws : CalandriaLaws Cal} {BLaws : ByteBudgetLaws BB} {HL : HostLaws H}.
Context {DL : DeadlineLaws H} {Alloc : Allocator} {ALaws : AllocatorLaws Alloc} {Sim : SimHost}.
Context (lim : ConnectionSlotLimits.t) (Hlim : valid_limits lim) (ep : ConnectionEpoch.t).
Context (bound : RetainedBytes).
Context (Hbound : rb_get bound ≤ rb_get (ConnectionSlotLimits.transport_retained_bytes lim)).

Definition world : Type := SlotSystem.world SimDecoder.t SimClassifier.t SimTransport.t.
Definition slot_hinv := QuantumSpec.hinv (D := SimDecoder.t) (C := SimClassifier.t) lim ep true bound (keeps bound).

Context (w0 : world) (H0 : slot_hinv (log (refired 0 w0)) (slot w0, port w0)).
Implicit Types (w : world) (s : ReplayOwner.state) (k : nat).

Notation running := (waking true (keeps bound) w0).
Notation results := SlotActionResult.t.

Lemma replay_hinv k w : running k w → slot_hinv (log (refired k w)) (slot w, port w).
Proof. by apply (waking_good lim Hlim ep true bound (keeps bound) (sim_contract bound) (λ _, Hbound)). Qed.

Lemma running_sound k w : running k w → sound lim ep (log (refired k w)) (slot w).
Proof. intros Hw%replay_hinv. exact (QuantumSpec.hinv_sound _ _ _ _ _ _ _ Hw). Qed.

Lemma running_port k w t :
  running k w → port w = Some t →
  keeps bound t ∧ (is_connecting (slot w).1 = true → tr_is_open t = false).
Proof.
  intros Hw%replay_hinv Hp. unfold slot_hinv, QuantumSpec.hinv in Hw. cbn [snd fst] in Hw.
  rewrite Hp in Hw. destruct Hw as [_ Ht _ Hu]. split; [exact Ht|exact (Hu eq_refl)].
Qed.

(** The owner of a replay between two actions, as a world of its slot. *)
Record hosts s w : Prop := mk_hosts {
  hs_slot : ReplayOwner.slot s.1 = Some (slot w).1;
  hs_heap : s.2 = (slot w).2;
  hs_port : port w = Some (ReplayOwner.transport s.1);
  hs_permits : permits (log w) = [];
  hs_accepted : accepted (log w) = ReplayOwner.operation <$> ReplayOwner.accepted s.1;
}.

(** What an action leaves alone. *)
Record apart s s' : Prop := mk_apart {
  ap_observations : ReplayOwner.observations s'.1 = ReplayOwner.observations s.1;
  ap_deadline : ReplayOwner.deadline s'.1 = ReplayOwner.deadline s.1;
  ap_horizon : ReplayOwner.horizon s'.1 = ReplayOwner.horizon s.1;
}.

(** *** Actions *)

(** The operation an action submitted. *)
Definition submitted (r : results) : list OperationId.t :=
  match r with
  | SlotActionResult.Submitted _ operation _
  | SlotActionResult.SubmittedOwnerFailed _ operation _ _ => [operation]
  | _ => []
  end.

(** The results of an action on a slot that was not recovered: those of its
    kind, and never a failure of the slot. *)
Definition answers (action : SlotAction.t) (r : results) : Prop :=
  match action, r with
  | SlotAction.ConnectReady, SlotActionResult.ConnectReady
  | SlotAction.OpenAdmission, SlotActionResult.Admission _
  | SlotAction.Submit _ _, SlotActionResult.Submitted _ _ _
  | SlotAction.Submit _ _, SlotActionResult.Rejected (SlotActionFailure.Reserve _)
  | SlotAction.Submit _ _, SlotActionResult.Rejected (SlotActionFailure.Commit _)
  | SlotAction.Submit _ _, SlotActionResult.Rejected SlotActionFailure.FrameEncoding
  | SlotAction.Cancel _, SlotActionResult.Cancelled _
  | SlotAction.BeginDrain _, SlotActionResult.Drain _
  | SlotAction.Close _, SlotActionResult.Close _
  | SlotAction.PeerClosed, SlotActionResult.PeerClosed
  | SlotAction.SettleTransport, SlotActionResult.TransportSettled _
  | SlotAction.Drive, SlotActionResult.Driven
  | SlotAction.Recover _, SlotActionResult.Recovered
  | SlotAction.Reply _ _, SlotActionResult.Rejected SlotActionFailure.ReplyEncoding
  | SlotAction.Reply _ _, SlotActionResult.Rejected SlotActionFailure.SimulatedInputCapacity => True
  | SlotAction.WriteReady bytes, SlotActionResult.WriteReady bytes' => bytes' = bytes
  | SlotAction.Reply index _, SlotActionResult.ReplyInjected index'
  | SlotAction.Reply index _, SlotActionResult.Rejected (SlotActionFailure.UnknownOperation index')
  | SlotAction.Cancel index, SlotActionResult.Rejected (SlotActionFailure.UnknownOperation index') =>
      index' = index
  | _, _ => False
  end.

(** Frames are byte slices, a credit is a count, and [Drained] is not a reason
    to close. *)
Definition sane (action : SlotAction.t) : Prop :=
  match action with
  | SlotAction.Submit _ frame => Z.of_nat (length (SimFrame.bytes frame)) ≤ USIZE_MAX
  | SlotAction.WriteReady bytes => 0 ≤ bytes
  | SlotAction.Close reason => reason ≠ CloseReason.Drained
  | _ => True
  end.

(** The slot goes on, having accepted the operations [ops]. *)
Definition continues k w s s' (ops : list OperationId.t) : Prop :=
  apart s s' ∧ ReplayOwner.recovery s'.1 = ReplayOwner.recovery s.1 ∧
  ∃ w', running k w' ∧ hosts s' w' ∧ delivered (log w') = delivered (log w) ∧
    accepted (log w') = accepted (log w) ++ ops.

Lemma continues_refl k w s : running k w → hosts s w → continues k w s s [].
Proof. intros Hw Hs. split; [done|]. split; [done|]. exists w. by rewrite app_nil_r. Qed.

(** A call of the slot that cannot fail. *)
Lemma control_runs {A : Type} (f : M A) ok c k w s action :
  running k w → hosts s w → overdue w c = 0%nat → admissible true (keeps bound) w c →
  exec w c = moved w (f (slot w)).1 → safe lim ep (log (refired k w)) f →
  (∀ a, answers action (ok a) ∧ submitted (ok a) = []) →
  let '(s', r) := ReplayOwner.control f ok (slot w).1 s in
  continues k w s s' (submitted r) ∧ answers action r.
Proof.
  intros Hw [Hsl Hh Hp Hpe Hac] Ho Ha He Hsafe Hok. destruct s as [self heap]. cbn [fst snd] in *.
  destruct (Hsafe _ (running_sound _ _ Hw)) as ([slot' heap'] & a & Hr & _). unfold ReplayOwner.control.
  rewrite Hh, <- surjective_pairing, Hr. destruct (Hok a) as [Han ->]. split; [|done].
  split; [done|]. split; [done|]. exists (exec w c). split; [by apply waking_call|].
  rewrite He, Hr. cbn [fst moved log]. by rewrite app_nil_r.
Qed.

(** What is done to the transport between two calls. *)
Lemma stimulus_runs f k w s :
  running k w → hosts s w → (∀ t, keeps bound t → keeps bound (f t)) →
  (∀ t, tr_is_open t = false → tr_is_open (f t) = false) →
  continues k w s (ReplayOwner.set_transport s.1 (f (ReplayOwner.transport s.1)), s.2) [].
Proof.
  intros Hw [Hsl Hh Hp Hpe Hac] Hk Ho. destruct (running_port _ _ _ Hw Hp) as [Ht Hu].
  split; [done|]. split; [done|].
  exists (exec w (Readiness (Some (f (ReplayOwner.transport s.1))))). split.
  - apply waking_call; [done| |done]. split; [by apply Hk|]. intros _ Hc. by apply Ho, Hu.
  - split; [done|]. by rewrite app_nil_r.
Qed.

(** A submission reserves a permit, and spends or drops it. *)
Lemma submit_runs now options frame k w s :
  running k w → hosts s w → Z.of_nat (length (SimFrame.bytes frame)) ≤ USIZE_MAX →
  let '(s', r) := ReplayOwner.apply_submit now options frame (slot w).1 s in
  continues k w s s' (submitted r) ∧ answers (SlotAction.Submit options frame) r.
Proof.
  intros Hw [Hsl Hh Hp Hpe Hac] Hlen. destruct s as [self heap]. cbn [fst snd] in *. subst heap.
  unfold ReplayOwner.apply_submit. rewrite <- surjective_pairing.
  destruct (reserve_sound lim Hlim ep _ _ now options (running_sound _ _ Hw))
    as (s1 & r & Hr & _). rewrite Hr.
  pose proof (waking_call _ _ _ _ _ (Reserve now options) Hw I eq_refl) as Hw1.
  cbn [exec] in Hw1. rewrite Hr in Hw1. destruct r as [p|e].
  2: { destruct s1 as [slot1 heap1]. split; [|done]. split; [done|]. split; [done|].
       eexists. split; [exact Hw1|]. split; [by split|]. by rewrite app_nil_r. }
  rewrite Hpe in Hw1. set (w1 := mk_world _ _ _) in Hw1.
  pose proof (waking_call _ _ _ _ _ (DropPermit 0) Hw1 I eq_refl) as Hdrop. cbn [exec] in Hdrop.
  change (permits (log w1) !! 0%nat) with (Some p) in Hdrop. cbn iota in Hdrop.
  unfold ReplayOwner.submit, OutboundFrame.copy_from_slice.
  destruct s1 as [slot1 heap1]. cbn [fst snd].
  assert (continues k w (self, (slot w).2)
    (ReplayOwner.set_accepted (ReplayOwner.set_slot self (Some slot1)) (ReplayOwner.accepted self),
     (OperationPermit.drop p heap1).2) []) as Hdropped.
  { split; [done|]. split; [done|]. eexists. split; [exact Hdrop|]. split; [by split|].
    by rewrite app_nil_r. }
  destruct (rb_try_from_usize _) as [retained|].
  2: { destruct (OperationPermit.drop p heap1) as [p' heap2]. by split. }
  set (outbound := OutboundFrame.mk _ _).
  assert (Z.of_nat (length (frame_bytes outbound)) ≤ USIZE_MAX) as Hlen'
    by (cbn [frame_bytes OutboundFrame.write_frame outbound OutboundFrame.bytes];
        by rewrite bytes_deref_copy).
  destruct (commit_sound lim Hlim ep _ _ 0 p outbound (running_sound _ _ Hw1) eq_refl Hlen')
    as (s2 & r & Hc & Hr2). cbn [slot w1] in Hc. rewrite Hc.
  pose proof (waking_call _ _ _ _ _ (Commit 0 outbound) Hw1 Hlen' eq_refl) as Hw2.
  cbn [exec] in Hw2. change (permits (log w1) !! 0%nat) with (Some p) in Hw2. cbn [slot w1] in Hw2.
  rewrite Hc in Hw2. destruct s2 as [slot2 heap2].
  destruct r as [op|[e|op e|why p' f']]; try done.
  - destruct Hr2 as [-> _]. split; [|done]. split; [done|]. split; [done|]. eexists.
    split; [exact Hw2|]. split; [|done]. split; try done.
    cbn [ReplayOwner.accepted ReplayOwner.set_accepted fst]. rewrite fmap_app, <- Hac. done.
  - destruct Hr2 as [[= -> ->] He]. rewrite He.
    destruct (OperationPermit.drop p heap1) as [p' heap3]. by split.
Qed.

Lemma reply_runs index payload k w s :
  running k w → hosts s w →
  let '(self', r) := ReplayOwner.apply_reply index payload s.1 in
  continues k w s (self', s.2) (submitted r) ∧ answers (SlotAction.Reply index payload) r.
Proof.
  intros Hw Hs. assert (continues k w s (s.1, s.2) []) as Hsame
    by (destruct s; by apply continues_refl).
  unfold ReplayOwner.apply_reply. destruct (ReplayOwner.lookup s.1 index) as [a|]; [|by split].
  destruct (encode_reply _ _) as [encoded|]; [|by split].
  assert (continues k w s (ReplayOwner.set_transport s.1
    (SimTransport.inject_read (ReplayOwner.transport s.1) encoded).1, s.2) []) as Hr.
  { apply (stimulus_runs (λ t, (SimTransport.inject_read t encoded).1) k w s Hw Hs); intros t.
    - intros Ht. by apply inject_read_spec.
    - unfold SimTransport.inject_read. by destruct (_ <? _). }
  destruct (SimTransport.inject_read (ReplayOwner.transport s.1) encoded) as [t [[]|[]]]; by split.
Qed.

(** Settling a transport that was closed first. *)
Lemma settle_runs k w s :
  running k w → hosts s w →
  let '(s', r) := ReplayOwner.apply_settle (slot w).1 s in
  continues k w s s' (submitted r) ∧ answers SlotAction.SettleTransport r.
Proof.
  intros Hw Hs. unfold ReplayOwner.apply_settle. pose proof Hs as [Hsl Hh Hp Hpe Hac].
  destruct s as [self heap]. cbn [fst snd] in *. subst heap.
  destruct (_ || _); [|split; [by apply continues_refl|done]].
  destruct (stimulus_runs SimTransport.close k w (self, (slot w).2) Hw Hs) as (_ & _ & w1 & Hw1 & Hs1 & Hd1 & Ha1);
    [by apply close_keeps|done|].
  pose proof Hs1 as [Hsl1 Hh1 Hp1 Hpe1 Hac1]. cbn [fst snd] in *.
  assert (slot w1 = slot w) as Hsame.
  { cbn [ReplayOwner.set_transport ReplayOwner.slot] in Hsl1. destruct (slot w1), (slot w); cbn [fst snd] in *. congruence. }
  pose proof (waking_call _ _ _ _ _ SettleClosed Hw1 I eq_refl) as Hw2. cbn [exec] in Hw2.
  rewrite Hsame in Hw2. rewrite <- surjective_pairing.
  destruct (settle_transport_closed (slot w)) as [[slot2 heap2] settled]. split; [|done].
  split; [done|]. split; [done|]. eexists. split; [exact Hw2|]. split; [by split|].
  by split.
Qed.

(** The operations a recovery gives back, with an outcome or without. *)
Definition returned (report : RecoveryReport.t OutboundFrame.t SimReply.t) : list OperationId.t :=
  (EngineOutcome.operation <$> RecoveryReport.outcomes report) ++
  (RecoveredOperation.operation <$> RecoveryReport.operations report).

(** The slot is gone, and its recovery accounts for every operation it
    accepted. *)
Definition ends w s s' : Prop :=
  apart s s' ∧ ReplayOwner.slot s'.1 = None ∧
  ∃ report, ReplayOwner.recovery s'.1 = Some report ∧ NoDup (accepted (log w)) ∧
    accepted (log w) ≡ₚ (EngineOutcome.operation <$> delivered (log w)) ++ returned report.

Lemma recover_runs why k w s :
  running k w → hosts s w →
  let '(s', r) := ReplayOwner.apply_recover why (slot w).1 s in
  ends w s s' ∧ r = SlotActionResult.Recovered.
Proof.
  intros Hw [Hsl Hh Hp Hpe Hac]. unfold ReplayOwner.apply_recover.
  destruct s as [self heap]. cbn [fst snd] in *. subst heap. rewrite <- surjective_pairing.
  pose proof (SlotStanding.whole_recover lim ep _ (slot w) why false
    (SlotStanding.sound_whole _ _ _ _ (running_sound _ _ Hw))) as Hr.
  unfold recover. destruct (recover_owned why false (slot w)) as [[slot' heap'] report].
  destruct Hr as (Hacc & Hnd & _). split; [|done]. split; [done|]. split; [done|].
  exists report. split; [done|]. split; [exact Hnd|]. unfold returned.
  cbn [accepted delivered log refired] in Hacc. by rewrite fmap_app, <- app_assoc in Hacc.
Qed.

Definition is_recovered (r : results) : bool :=
  match r with SlotActionResult.Recovered => true | _ => false end.

(** Only a recovery is answered as one. *)
Lemma answers_recovered action r :
  answers action r →
  is_recovered r = match action with SlotAction.Recover _ => true | _ => false end.
Proof. destruct action, r; simpl; by intros. Qed.

(** What an action does to a replay whose slot runs. *)
Lemma action_runs now action k w s :
  running k w → hosts s w → sane action →
  let '(s', r) := ReplayOwner.apply_action now action s in
  match action with
  | SlotAction.Recover _ => ends w s s'
  | _ => continues k w s s' (submitted r)
  end ∧ answers action r.
Proof.
  intros Hw Hs Ha. unfold ReplayOwner.apply_action.
  pose proof (hs_slot _ _ Hs) as Hsl. destruct s as [self heap]. cbn [fst] in Hsl. rewrite Hsl.
  destruct action as [| |options frame|bytes|index payload|index|deadline|why| | | |why].
  - split; [|done]. apply (stimulus_runs _ _ _ _ Hw Hs); [apply connect_ready_keeps|done].
  - apply (control_runs _ _ OpenAdmission); try done. by apply open_admission_safe.
  - by apply submit_runs.
  - split; [|done]. apply (stimulus_runs (λ t, SimTransport.allow_write t bytes) _ _ _ Hw Hs);
      [|done]. intros t. by apply allow_write_keeps.
  - pose proof (reply_runs index payload _ _ _ Hw Hs) as Hr. cbn [fst snd] in Hr.
    by destruct (ReplayOwner.apply_reply index payload self).
  - destruct (ReplayOwner.lookup self index) as [a|]; [|split; [by apply continues_refl|done]].
    apply (control_runs _ _ (Cancel (ReplayOwner.operation a))); try done. by apply cancel_safe.
  - apply (control_runs _ _ (BeginDrain deadline)); try done. by apply begin_drain_safe.
  - apply (control_runs _ _ (Finalize why)); try done. by apply finalize_safe.
  - split; [|done]. apply (stimulus_runs _ _ _ _ Hw Hs); [apply peer_closed_keeps|done].
  - by apply settle_runs.
  - split; [by apply continues_refl|done].
  - pose proof (recover_runs why _ _ _ Hw Hs) as Hr.
    destruct (ReplayOwner.apply_recover _ _ _) as [s' r]. by destruct Hr as [? ->].
Qed.

(** *** Events *)

(** A drive succeeds, and counts when a deadline of the slot had elapsed. *)
Lemma drive_runs now k w s :
  running k w → hosts s w →
  let '(s', _, failure) := ReplayOwner.drive now s in
  failure = None ∧ apart s s' ∧ ReplayOwner.recovery s'.1 = ReplayOwner.recovery s.1 ∧
  ∃ w', running (overdue w (DriveQuantum now) + k) w' ∧ hosts s' w' ∧ log w' = log w.
Proof.
  intros Hw [Hsl Hh Hp Hpe Hac]. unfold ReplayOwner.drive. destruct s as [self heap].
  cbn [fst snd] in *. subst heap. rewrite Hsl, <- surjective_pairing, <- Hp.
  destruct (QuantumSpec.quantum_spec lim Hlim ep true bound (keeps bound) (sim_contract bound) (λ _, Hbound) _ now _
    (replay_hinv _ _ Hw)) as (h & r & Hr & Hb).
  destruct (proj2 (DriveFrame.quantum_keeps now (slot w, port w))) as [t Ht]; [by rewrite Hp|].
  pose proof (waking_step _ _ _ _ _ (DriveQuantum now) Hw I) as Hw'. cbn [exec] in Hw'.
  rewrite Hr in Ht, Hw'.
  match goal with |- context [Drive.drive_quantum now ?x] =>
    change (Drive.drive_quantum now x = (h, r)) in Hr end.
  rewrite Hr. destruct h as [[slot' heap'] driven]. cbn [fst snd] in Ht. subst driven.
  destruct r as [p|e]; [|by destruct Hb].
  split; [done|]. split; [done|]. split; [done|]. eexists. split; [exact Hw'|]. by split.
Qed.

Lemma observe_runs k w s :
  running k w → hosts s w →
  let '(self', _, outcomes, _) := ReplayOwner.observe s in
  apart s (self', s.2) ∧ ReplayOwner.recovery self' = ReplayOwner.recovery s.1 ∧
  ∃ w', running k w' ∧ hosts (self', s.2) w' ∧
    delivered (log w') = delivered (log w) ++ outcomes ∧ accepted (log w') = accepted (log w).
Proof.
  intros Hw [Hsl Hh Hp Hpe Hac]. unfold ReplayOwner.observe. destruct s as [self heap].
  cbn [fst snd] in *. subst heap. rewrite Hsl.
  pose proof (waking_call _ _ _ _ _ DrainOutcomes Hw I eq_refl) as Hw1. cbn [exec] in Hw1.
  destruct (drain_outcomes (slot w).1) as [slot1 outcomes].
  pose proof (waking_call _ _ _ _ _ DrainEvents Hw1 I eq_refl) as Hw2. cbn [exec] in Hw2.
  cbn [slot fst] in Hw2. destruct (drain_events slot1) as [slot2 events].
  split; [done|]. split; [done|]. eexists. split; [exact Hw2|]. by split.
Qed.

(** What an observation says of operations. *)
Definition submitted_by (o : SlotStepObservation.t) : list OperationId.t :=
  match SlotStepObservation.kind o with
  | SlotObservationKind.Action _ r => submitted r
  | SlotObservationKind.Deadline => []
  end.
Definition published_by (o : SlotStepObservation.t) : list OperationId.t :=
  EngineOutcome.operation <$> SlotStepObservation.outcomes o.
Definition returned_by (o : SlotStepObservation.t) : list OperationId.t :=
  match SlotStepObservation.recovery o with Some report => returned report | None => [] end.

(** The action an observation is of. *)
Definition index_of (o : SlotStepObservation.t) : list Z :=
  match SlotStepObservation.kind o with
  | SlotObservationKind.Action i _ => [i]
  | SlotObservationKind.Deadline => []
  end.

(** The recovery of the slot, and what comes after it. *)
Definition lost (o : SlotStepObservation.t) : bool :=
  match SlotStepObservation.kind o with
  | SlotObservationKind.Action _ SlotActionResult.Recovered
  | SlotObservationKind.Action _ (SlotActionResult.Rejected SlotActionFailure.SlotRecovered) => true
  | _ => false
  end.

(** An event is observed as what it is. *)
Definition observes (token : EventToken) (event : ReplayEvent.t) (o : SlotStepObservation.t) : Prop :=
  SlotStepObservation.at_ o = token_at token ∧ SlotStepObservation.drive_failure o = None ∧
  match event, SlotStepObservation.kind o with
  | ReplayEvent.Action i action, SlotObservationKind.Action j r =>
      j = i ∧ (answers action r ∨
        r = SlotActionResult.Rejected SlotActionFailure.SlotRecovered)
  | ReplayEvent.Deadline, SlotObservationKind.Deadline => True
  | _, _ => False
  end.

(** The deadline that stays scheduled after an event. *)
Definition undelivered (token : EventToken) (event : ReplayEvent.t) (self : ReplayOwner.t)
    : option EventToken :=
  match event with
  | ReplayEvent.Deadline =>
      if bool_decide (ReplayOwner.deadline self = Some token) then None else ReplayOwner.deadline self
  | ReplayEvent.Action _ _ => ReplayOwner.deadline self
  end.

(** One more observation, and nothing pending from it. *)
Record observed_as token event s s' (o : SlotStepObservation.t) : Prop := mk_observed {
  ob_event : observes token event o;
  ob_list : ReplayOwner.observations s'.1 = ReplayOwner.observations s.1 ++ [o];
  ob_recovery : ReplayOwner.recovery s'.1 = None;
  ob_deadline : ReplayOwner.deadline s'.1 = undelivered token event s.1;
  ob_horizon : ReplayOwner.horizon s'.1 = ReplayOwner.horizon s.1;
}.

(** Once the slot was recovered, every action is rejected. *)
Lemma event_gone token event s :
  ReplayOwner.slot s.1 = None → ReplayOwner.recovery s.1 = None →
  let s' := ReplayOwner.apply_event token event s in
  ∃ o, observed_as token event s s' o ∧ ReplayOwner.slot s'.1 = None ∧
    submitted_by o = [] ∧ published_by o = [] ∧ returned_by o = [].
Proof.
  destruct s as [self heap]. cbn [fst]. intros Hsl Hr. unfold ReplayOwner.apply_event, ReplayOwner.deliver.
  destruct event as [i action|].
  - unfold ReplayOwner.apply_action. rewrite Hsl. unfold ReplayOwner.drive. rewrite Hsl.
    unfold ReplayOwner.observe. rewrite Hsl. eexists. split; [by repeat (split; auto)|].
    unfold returned_by. cbn. by rewrite Hr.
  - assert (undelivered token ReplayEvent.Deadline self =
      ReplayOwner.deadline (if bool_decide (ReplayOwner.deadline self = Some token)
        then ReplayOwner.set_deadline self None else self)) as Hd
      by (unfold undelivered; by case_bool_decide).
    set (self' := if bool_decide _ then _ else _) in *.
    assert (ReplayOwner.slot self' = None ∧ ReplayOwner.recovery self' = None ∧
      ReplayOwner.observations self' = ReplayOwner.observations self ∧
      ReplayOwner.horizon self' = ReplayOwner.horizon self) as (Hs' & Hr' & Ho' & Hh')
      by (subst self'; by case_bool_decide).
    unfold ReplayOwner.drive. rewrite Hs'. unfold ReplayOwner.observe. rewrite Hs'.
    eexists. split; [split; [|cbn; by rewrite Ho'|done|exact (eq_sym Hd)|done]|].
    { by repeat (split; auto). }
    unfold returned_by. cbn. by rewrite Hr'.
Qed.

Definition weight (event : ReplayEvent.t) : nat :=
  match event with ReplayEvent.Action _ _ => 0 | ReplayEvent.Deadline => 1 end.

Definition given w : list OperationId.t := EngineOutcome.operation <$> delivered (log w).

(** The slot after an event: it goes on, or its recovery accounts for all it
    accepted. *)
Definition follows k w event s' (o : SlotStepObservation.t) : Prop :=
  (lost o = false ∧ returned_by o = [] ∧
   ∃ k' w', running k' w' ∧ hosts s' w' ∧ (k + weight event ≤ k')%nat ∧
     given w' = given w ++ published_by o ∧
     accepted (log w') = accepted (log w) ++ submitted_by o) ∨
  (ReplayOwner.slot s'.1 = None ∧ weight event = 0%nat ∧ submitted_by o = [] ∧
   published_by o = [] ∧ NoDup (accepted (log w)) ∧
   accepted (log w) ≡ₚ given w ++ returned_by o).

(** The rest of an event, after what the event itself does. *)
Definition conclude (token : EventToken) (kind : SlotObservationKind.t) s : ReplayOwner.state :=
  let '(self, heap, progress, drive_failure) := ReplayOwner.drive (token_at token) s in
  let '(self, snapshot, outcomes, events) := ReplayOwner.observe (self, heap) in
  let recovery := ReplayOwner.recovery self in
  let self := ReplayOwner.set_recovery self None in
  (ReplayOwner.set_observations self
     (ReplayOwner.observations self ++
      [SlotStepObservation.mk (token_at token) kind progress drive_failure snapshot recovery
         outcomes events]), heap).

Lemma event_concludes token event s :
  ReplayOwner.apply_event token event s =
    let '(s1, kind) := ReplayOwner.deliver token event s in conclude token kind s1.
Proof. done. Qed.

Lemma conclude_runs token kind k w s :
  running k w → hosts s w → ReplayOwner.recovery s.1 = None →
  let s' := conclude token kind s in
  ∃ o, SlotStepObservation.at_ o = token_at token ∧ SlotStepObservation.drive_failure o = None ∧
    SlotStepObservation.kind o = kind ∧ SlotStepObservation.recovery o = None ∧
    ReplayOwner.observations s'.1 = ReplayOwner.observations s.1 ++ [o] ∧
    ReplayOwner.recovery s'.1 = None ∧ ReplayOwner.deadline s'.1 = ReplayOwner.deadline s.1 ∧
    ReplayOwner.horizon s'.1 = ReplayOwner.horizon s.1 ∧
    ∃ w', running (overdue w (DriveQuantum (token_at token)) + k) w' ∧ hosts s' w' ∧
      given w' = given w ++ published_by o ∧ accepted (log w') = accepted (log w).
Proof.
  intros Hw Hs Hr. unfold conclude.
  pose proof (drive_runs (token_at token) _ _ _ Hw Hs) as Hd.
  destruct (ReplayOwner.drive _ s) as [[[self1 heap1] progress] failure].
  destruct Hd as (-> & [Ho1 Hd1 Hh1] & Hr1 & w1 & Hw1 & Hs1 & Hl1). cbn [fst] in *.
  pose proof (observe_runs _ _ _ Hw1 Hs1) as Ho.
  destruct (ReplayOwner.observe _) as [[[self2 snapshot] outcomes] events].
  destruct Ho as ([Ho2 Hd2 Hh2] & Hr2 & w2 & Hw2 & [] & Hl2 & Ha2). cbn [fst snd] in *.
  rewrite Hr2, Hr1, Hr.
  exists (SlotStepObservation.mk (token_at token) kind progress None snapshot None outcomes events).
  split; [done|]. split; [done|]. split; [done|]. split; [done|].
  split; [cbn; by rewrite Ho2, Ho1|]. split; [done|]. split; [cbn; congruence|].
  split; [cbn; congruence|]. exists w2. split; [exact Hw2|]. split; [by split|].
  unfold given, published_by. rewrite Hl2, Ha2, Hl1, fmap_app. done.
Qed.

(** What an event does to a replay whose slot runs. *)
Lemma event_runs token event k w s :
  running k w → hosts s w → ReplayOwner.recovery s.1 = None →
  match event with
  | ReplayEvent.Action _ action => sane action
  | ReplayEvent.Deadline => overdue w (DriveQuantum (token_at token)) = 1%nat
  end →
  let s' := ReplayOwner.apply_event token event s in
  ∃ o, observed_as token event s s' o ∧ follows k w event s' o.
Proof.
  intros Hw Hs Hr He. cbv zeta. rewrite event_concludes. unfold ReplayOwner.deliver.
  destruct s as [self heap], event as [i action|].
  - pose proof (action_runs (token_at token) action _ _ _ Hw Hs He) as Ha.
    destruct (ReplayOwner.apply_action _ action _) as [s1 r]. destruct Ha as [Ha Han].
    assert (continues k w (self, heap) s1 (submitted r) → is_recovered r = false →
      let s' := conclude token (SlotObservationKind.Action i r) s1 in
      ∃ o, observed_as token (ReplayEvent.Action i action) (self, heap) s' o ∧
        follows k w (ReplayEvent.Action i action) s' o) as Hgo.
    { intros ([Ho1 Hd1 Hh1] & Hr1 & w1 & Hw1 & Hs1 & Hl1 & Ha1) Hnr. cbv zeta.
      destruct (conclude_runs token (SlotObservationKind.Action i r) _ _ _ Hw1 Hs1)
        as (o & Hat & Hf & Hk & Hrec & Hobs & Hrec' & Hdl & Hhz & w2 & Hw2 & Hs2 & Hg2 & Ha2);
        [by rewrite Hr1|].
      exists o. split.
      - split; [|congruence|done|exact (eq_trans Hdl Hd1)|congruence]. split; [done|]. split; [done|]. rewrite Hk. by split; [|left].
      - left. split; [|split].
        + unfold lost. rewrite Hk. destruct action, r as [| | | | | | | | | | | |[]|]; done.
        + unfold returned_by. by rewrite Hrec.
        + eexists _, w2. split; [exact Hw2|]. split; [done|]. split; [simpl; lia|].
          unfold submitted_by. rewrite Hk, Ha2, Ha1, Hg2. unfold given. by rewrite Hl1. }
    pose proof (answers_recovered _ _ Han) as Hrec.
    destruct action; try (apply Hgo; [exact Ha|exact Hrec]).
    destruct r; try done. destruct Ha as ([Ho1 Hd1 Hh1] & Hsl & report & Hrep & Hnd & Hacc).
    destruct s1 as [self1 heap1]. cbn [fst] in *. unfold conclude, ReplayOwner.drive.
    rewrite Hsl. unfold ReplayOwner.observe. rewrite Hsl. eexists. split.
    + split; [|cbn; by rewrite Ho1|done|done|done]. by repeat (split; auto).
    + right. split; [done|]. split; [done|]. split; [done|]. split; [done|]. split; [done|].
      unfold returned_by. cbn. by rewrite Hrep.
  - set (self1 := if bool_decide _ then _ else self).
    assert (hosts (self1, heap) w) as Hs1 by (subst self1; destruct Hs; by case_bool_decide).
    assert (ReplayOwner.observations self1 = ReplayOwner.observations self ∧
      ReplayOwner.recovery self1 = None ∧ ReplayOwner.horizon self1 = ReplayOwner.horizon self ∧
      ReplayOwner.deadline self1 = undelivered token ReplayEvent.Deadline self)
      as (Ho1 & Hr1 & Hh1 & Hd1) by (unfold undelivered; subst self1; by case_bool_decide).
    clearbody self1.
    destruct (conclude_runs token SlotObservationKind.Deadline _ _ _ Hw Hs1 Hr1)
      as (o & Hat & Hf & Hk & Hrec & Hobs & Hrec' & Hdl & Hhz & w2 & Hw2 & Hs2 & Hg2 & Ha2).
    exists o. split.
    + split; cbn [fst] in *; try congruence. split; [done|]. split; [done|]. by rewrite Hk.
    + left. unfold lost, returned_by, submitted_by. rewrite Hk, Hrec. split; [done|]. split; [done|].
      eexists _, w2. split; [exact Hw2|]. split; [done|]. rewrite He, app_nil_r. split; [simpl; lia|].
      by split.
Qed.

(** *** The observations of a replay *)

Section observations.
Context (acts : list TimedSlotAction.t).

(** The event is an action of the trace at its moment, or a deadline of the
    slot that has elapsed. *)
Definition expected s (token : EventToken) (event : ReplayEvent.t) : Prop :=
  match event with
  | ReplayEvent.Action i action =>
      ∃ a, acts !! Z.to_nat i = Some a ∧ token_at token = TimedSlotAction.at_ a ∧
        action = TimedSlotAction.action a ∧ sane action
  | ReplayEvent.Deadline =>
      ∃ self d, ReplayOwner.slot s.1 = Some self ∧ next_deadline self = Some d ∧
        is_elapsed_at d (token_at token) = true
  end.

(** An action is observed at its moment, answered by a result of its kind or
    rejected because the slot was recovered, and no drive fails. *)
Definition answered (o : SlotStepObservation.t) : Prop :=
  SlotStepObservation.drive_failure o = None ∧
  match SlotStepObservation.kind o with
  | SlotObservationKind.Action i r =>
      ∃ a, acts !! Z.to_nat i = Some a ∧ SlotStepObservation.at_ o = TimedSlotAction.at_ a ∧
        (answers (TimedSlotAction.action a) r ∨
          r = SlotActionResult.Rejected SlotActionFailure.SlotRecovered)
  | SlotObservationKind.Deadline => True
  end.

(** The observations account for what the slot accepted, and every one of them
    that is of no action spent a deadline. *)
Record faithful s : Prop := mk_faithful {
  fa_recovery : ReplayOwner.recovery s.1 = None;
  fa_answered : Forall answered (ReplayOwner.observations s.1);
  fa_phase : let obs := ReplayOwner.observations s.1 in
    (∃ k w, running k w ∧ hosts s w ∧ obs ≫= submitted_by = accepted (log w) ∧
      obs ≫= published_by = given w ∧ obs ≫= returned_by = [] ∧
      Forall (λ o, lost o = false) obs ∧ (length obs ≤ length (obs ≫= index_of) + k)%nat) ∨
    (ReplayOwner.slot s.1 = None ∧ NoDup (obs ≫= submitted_by) ∧
      obs ≫= submitted_by ≡ₚ (obs ≫= published_by) ++ (obs ≫= returned_by) ∧
      (length obs ≤ length (obs ≫= index_of) + (3 + length (obs ≫= submitted_by)))%nat);
}.

Lemma bind_snoc {A B : Type} (f : A → list B) l a : (l ++ [a]) ≫= f = (l ≫= f) ++ f a.
Proof. rewrite bind_app. simpl. by rewrite app_nil_r. Qed.

Lemma running_count k w : running k w → (k ≤ 3 + length (accepted (log w)))%nat.
Proof.
  intros Hw%running_sound. pose proof (ho_fired _ _ _ _ _ _ (so_hosted _ _ _ _ Hw)) as Hf.
  cbn [fired accepted log refired] in Hf. lia.
Qed.

(** There are at most three observations more than twice the actions. *)
Lemma faithful_count s :
  faithful s → let obs := ReplayOwner.observations s.1 in
  (length obs ≤ 2 * length (obs ≫= index_of) + 3)%nat.
Proof.
  intros [_ _ Hp]. cbv zeta in *. set (obs := ReplayOwner.observations s.1) in *.
  assert (length (obs ≫= submitted_by) ≤ length (obs ≫= index_of))%nat as Hle.
  { clearbody obs. clear. induction obs as [|o obs IH]; [done|].
    cbn [mbind list_bind]. rewrite !length_app. unfold submitted_by at 1, index_of at 1.
    destruct (SlotStepObservation.kind o) as [i r|]; [|simpl; lia]. destruct r; simpl; lia. }
  destruct Hp as [(k & w & Hw & _ & Ha & _ & _ & _ & Hl)|(_ & _ & _ & Hl)]; [|lia].
  apply running_count in Hw. rewrite <- Ha in Hw. lia.
Qed.

Lemma observes_answered s token event o : expected s token event → observes token event o → answered o.
Proof.
  intros He (Hat & Hf & Hk). split; [done|].
  destruct event as [i action|], (SlotStepObservation.kind o) as [j r|]; try done.
  destruct Hk as [-> Hr]. destruct He as (a & Ha & Hat' & -> & _). exists a.
  split; [done|]. split; [congruence|done].
Qed.

Lemma index_weight token event o :
  observes token event o → (length (index_of o) + weight event = 1)%nat.
Proof. intros (_ & _ & Hk). unfold index_of. by destruct event, (SlotStepObservation.kind o). Qed.

Lemma faithful_event token event s :
  faithful s → expected s token event →
  let s' := ReplayOwner.apply_event token event s in
  faithful s' ∧ ∃ o, observed_as token event s s' o.
Proof.
  intros [Hr Ha Hp] He. cbv zeta in *. set (obs := ReplayOwner.observations s.1) in *.
  destruct Hp as [(k & w & Hw & Hs & Hsub & Hpub & Hret & Hlost & Hlen)|(Hsl & Hnd & Hacc & Hlen)].
  - destruct (event_runs token event _ _ _ Hw Hs Hr) as (o & Ho & Hf).
    { destruct event as [i action|]; [by destruct He as (a & _ & _ & _ & ?)|].
      destruct He as (self & d & Hself & Hd & Hel). unfold overdue.
      rewrite (hs_slot _ _ Hs) in Hself. injection Hself as <-.
      by rewrite (hs_port _ _ Hs), Hd, Hel. }
    set (s' := ReplayOwner.apply_event token event s) in *. split; [|by exists o].
    pose proof (index_weight _ _ _ (ob_event _ _ _ _ _ Ho)) as Hiw.
    split; [apply Ho| |].
    + rewrite (ob_list _ _ _ _ _ Ho). apply Forall_app_2; [done|].
      constructor; [|done]. eapply observes_answered; [exact He|apply Ho].
    + cbv zeta. rewrite (ob_list _ _ _ _ _ Ho), !bind_snoc. fold obs.
      rewrite !length_app, Hsub, Hpub, Hret. destruct Hf as [(Hl & Hrt & k' & w' & Hw' & Hs' & Hk & Hg & Hac)|
        (Hsl & Hwt & Hsb & Hpb & Hnd & Hperm)].
      * left. exists k', w'. rewrite Hac, Hg, Hrt, app_nil_r. split; [done|]. split; [done|].
        split; [done|]. split; [done|]. split; [done|]. split; [by apply Forall_app_2; [|constructor]|].
        simpl. lia.
      * right. rewrite Hsb, Hpb, !app_nil_r. split; [done|]. split; [done|]. split; [done|].
        apply running_count in Hw. simpl. lia.
  - destruct event as [i action|]; [|destruct He as (self & d & Hself & _); congruence].
    destruct (event_gone token (ReplayEvent.Action i action) s Hsl Hr)
      as (o & Ho & Hsl' & Hsb & Hpb & Hrt).
    set (s' := ReplayOwner.apply_event token _ s) in *. split; [|by exists o].
    pose proof (index_weight _ _ _ (ob_event _ _ _ _ _ Ho)) as Hiw. simpl in Hiw.
    split; [apply Ho| |].
    + rewrite (ob_list _ _ _ _ _ Ho). apply Forall_app_2; [done|].
      constructor; [|done]. eapply observes_answered; [exact He|apply Ho].
    + right. rewrite (ob_list _ _ _ _ _ Ho), !bind_snoc, Hsb, Hpb, Hrt, !app_nil_r, !length_app.
      fold obs. split; [done|]. split; [done|]. split; [done|]. simpl. lia.
Qed.

End observations.

End sim_slot_runs.
End SimSlotRuns.

(** ** The timeline of a replay

    A timeline holds the actions that are still to come, each at its moment,
    and at most one deadline of the slot, which has elapsed when it comes
    up. *)

Module SimTimeline.
Section sim_timeline.
Context {Cal : Calandria} {BB : ByteBudgetLib} {Build : BuildConfig} {H : Host}.
Context {Laws : CalandriaLaws Cal} {BLaws : ByteBudgetLaws BB} {HL : HostLaws H}.
Context {DL : DeadlineLaws H} {Alloc : Allocator} {ALaws : AllocatorLaws Alloc} {Sim : SimHost}.
Context {SHL : SimHostLaws Sim}.
Context (acts : list TimedSlotAction.t) (maximum : RetainedBytes).
Implicit Types (s : ReplayOwner.state) (l : list (EventToken * ReplayEvent.t)).
Import SimSlotRuns.

Definition before (a b : Moment) : Prop := moment_leb a b = true.

(** An action of the trace at its moment. *)
Definition planned (e : EventToken * ReplayEvent.t) : Prop :=
  match e.2 with
  | ReplayEvent.Action i action =>
      ∃ a, acts !! Z.to_nat i = Some a ∧ token_at e.1 = TimedSlotAction.at_ a ∧
        action = TimedSlotAction.action a ∧ sane action
  | ReplayEvent.Deadline => False
  end.

Definition index_of_event (e : EventToken * ReplayEvent.t) : list Z :=
  match e.2 with ReplayEvent.Action i _ => [i] | ReplayEvent.Deadline => [] end.

(** The deadline that is scheduled. *)
Definition pending (deadline : option EventToken) : list (EventToken * ReplayEvent.t) :=
  match deadline with Some token => [(token, ReplayEvent.Deadline)] | None => [] end.

(** A timeline with the actions [l] to come, and that deadline. *)
Record scheduled (timeline : Timeline ReplayEvent.t) l (deadline : option EventToken) : Prop :=
  mk_scheduled {
  sc_events : timeline_events timeline ≡ₚ l ++ pending deadline;
  sc_tokens : NoDup (timeline_events timeline).*1;
  sc_bound : timeline_bound timeline = (Z.of_nat (length acts) + 1, rb_get maximum);
  sc_planned : Forall planned l;
  sc_count : (length l ≤ length acts)%nat;
  sc_bytes : zsum (λ e, rb_get (retained_bytes e.2)) l ≤ rb_get maximum;
  sc_now : Forall (λ e, before (timeline_now timeline) (token_at e.1)) (timeline_events timeline);
}.

(** The deadline that is scheduled is one of the slot, and will have elapsed. *)
Definition armed s : Prop :=
  ∀ token, ReplayOwner.deadline s.1 = Some token →
  ∃ self d, ReplayOwner.slot s.1 = Some self ∧ next_deadline self = Some d ∧
    is_elapsed_at d (token_at token) = true.

Lemma before_max_l a b : before a (moment_max a b).
Proof.
  unfold moment_max, before. destruct (moment_leb a b) eqn:Hab; [done|].
  by destruct (moment_leb_total a a).
Qed.

Lemma before_max_r a b : before b (moment_max a b).
Proof.
  unfold moment_max, before. destruct (moment_leb a b) eqn:Hab; [by destruct (moment_leb_total b b)|].
  destruct (moment_leb_total a b); congruence.
Qed.

Lemma keep_other_tokens l token :
  token ∉ l.*1 → filter (λ e, e.1 ≠ token) l = l.
Proof.
  induction l as [|e l IH]; [done|]. cbn [fmap list_fmap]. rewrite not_elem_of_cons.
  intros [Hne Hl]. rewrite filter_cons_True by naive_solver. by rewrite IH.
Qed.

(** Cancelling the deadline leaves the actions. *)
Lemma scheduled_cancel timeline l token :
  scheduled timeline l (Some token) → scheduled (timeline_cancel timeline token) l None.
Proof.
  intros [He Ht Hb Hp Hc Hz Hn].
  destruct (timeline_cancel_events timeline token) as (Hev & Hbd & Hnow).
  assert (timeline_events (timeline_cancel timeline token) ≡ₚ l) as Hl.
  { rewrite Hev, He. simpl. rewrite filter_app, filter_cons_False, filter_nil, app_nil_r by naive_solver.
    rewrite He, fmap_app in Ht. apply NoDup_app in Ht as (_ & Hd & _).
    rewrite keep_other_tokens; [done|]. intros Hin. apply (Hd token Hin). simpl. constructor. }
  split; try done; simpl; rewrite ?app_nil_r, ?Hbd; try done.
  - rewrite Hl. rewrite He, fmap_app in Ht. by apply NoDup_app in Ht as (? & _).
  - rewrite Hnow, Hl. rewrite He in Hn. by apply Forall_app in Hn as [? _].
Qed.

(** There is room for the deadline. *)
Lemma scheduled_deadline timeline l m :
  scheduled timeline l None → before (timeline_now timeline) m →
  ∃ timeline' token, timeline_schedule_at timeline m ReplayEvent.Deadline = (timeline', Ok token) ∧
    token_at token = m ∧ scheduled timeline' l (Some token) ∧
    timeline_now timeline' = timeline_now timeline.
Proof.
  intros [He Ht Hb Hp Hc Hz Hn] Hm. simpl in He. rewrite app_nil_r in He.
  destruct (timeline_schedule_room timeline m ReplayEvent.Deadline)
    as (timeline' & token & Hs & Hat & Hfresh & Hev & Hbd & Hnow); [| |done|].
  - rewrite Hb, He. simpl. lia.
  - rewrite Hb, He. cbn [retained_bytes ReplayEvent.retained snd]. rewrite rb_get_ZERO. simpl. lia.
  - exists timeline', token. split; [done|]. split; [done|]. split; [|done].
    split; rewrite ?Hbd; try done.
    + rewrite Hev, He. simpl. by rewrite Permutation_app_comm.
    + rewrite Hev. simpl. by apply NoDup_cons.
    + rewrite Hnow, Hev. constructor; [by rewrite <- Hat in Hm|done].
Qed.

(** *** Keeping the deadline scheduled *)

Lemma desired_due s m :
  ReplayOwner.desired s = Some m →
  ∃ self d, ReplayOwner.slot s.1 = Some self ∧ next_deadline self = Some d ∧ m = deadline_moment d.
Proof.
  destruct s as [self heap]. unfold ReplayOwner.desired. cbn [fst].
  destruct (ReplayOwner.slot self) as [slot|]; [|done].
  destruct (ConnectionSlotSnapshot.owner_failure _); [done|].
  destruct (next_deadline slot) as [d|] eqn:Hd; [|done].
  destruct (ReplayOwner.horizon self); [|done]. destruct (moment_leb _ _); [|done].
  intros [= <-]. by exists slot, d.
Qed.

Lemma due_elapsed d m : before (deadline_moment d) m → is_elapsed_at d m = true.
Proof. by rewrite elapsed_moment. Qed.

(** The deadline is cancelled, scheduled anew or left, and always fits. *)
Lemma sync_spec timeline l s :
  scheduled timeline l (ReplayOwner.deadline s.1) →
  ∃ timeline' deadline, let s' := (ReplayOwner.set_deadline s.1 deadline, s.2) in
    ReplayOwner.sync_deadline timeline s = (timeline', s', Ok tt) ∧
    scheduled timeline' l deadline ∧ armed s' ∧ timeline_now timeline' = timeline_now timeline.
Proof.
  intros Hsc. destruct s as [self heap]. cbn [fst] in Hsc. unfold ReplayOwner.sync_deadline.
  case_bool_decide as Hd.
  { exists timeline, (ReplayOwner.deadline self). cbv zeta. cbn [fst snd].
    split; [by destruct self|]. split; [done|]. split; [|done].
    intros token Htok. cbn in Htok. rewrite Htok in Hd. symmetry in Hd.
    destruct (desired_due _ _ Hd) as (slot & d & Hs & Hn & Hm). exists slot, d.
    split; [done|]. split; [done|]. apply due_elapsed. rewrite <- Hm. unfold before.
    by destruct (moment_leb_total (token_at token) (token_at token)). }
  set (timeline1 := match ReplayOwner.deadline self with Some token => _ | None => _ end).
  assert (scheduled timeline1 l None ∧ timeline_now timeline1 = timeline_now timeline) as [Hs1 Hn1].
  { subst timeline1. destruct (ReplayOwner.deadline self) as [token|]; [|done].
    split; [by apply scheduled_cancel|apply timeline_cancel_events]. }
  clearbody timeline1. destruct (ReplayOwner.desired (self, heap)) as [m|] eqn:Hdes.
  - destruct (scheduled_deadline timeline1 l (moment_max m (timeline_now timeline1)) Hs1
      (before_max_r _ _)) as (timeline2 & token & -> & Hat & Hs2 & Hn2).
    exists timeline2, (Some token). cbv zeta. split; [done|]. split; [done|]. split.
    + intros token' [= <-]. destruct (desired_due _ _ Hdes) as (slot & d & Hs & Hn & ->).
      exists slot, d. split; [done|]. split; [done|]. apply due_elapsed. rewrite Hat. apply before_max_l.
    + congruence.
  - exists timeline1, None. by split.
Qed.

(** *** Delivering what is next *)

(** What is delivered is an action of the trace, or the deadline. *)
Lemma scheduled_pop timeline l deadline timeline' token event :
  scheduled timeline l deadline →
  timeline_pop_next timeline = (timeline', Some (token, event)) →
  before (timeline_now timeline) (token_at token) ∧ timeline_now timeline' = token_at token ∧
  ((planned (token, event) ∧ ∃ l', l ≡ₚ (token, event) :: l' ∧ scheduled timeline' l' deadline) ∨
   (event = ReplayEvent.Deadline ∧ deadline = Some token ∧ scheduled timeline' l None)).
Proof.
  intros [He Ht Hb Hp Hc Hz Hn] Hpop.
  destruct (timeline_pop_some _ _ _ _ Hpop) as (Hev & Hbd & Hnow & Hleast).
  assert ((token, event) ∈ timeline_events timeline) as Hin by (rewrite Hev; constructor).
  split; [rewrite Forall_forall in Hn; exact (Hn _ Hin)|]. split; [done|].
  assert (NoDup (timeline_events timeline').*1) as Ht'
    by (rewrite Hev in Ht; cbn in Ht; by apply NoDup_cons in Ht as [_ ?]).
  assert (Forall (λ e, before (timeline_now timeline') (token_at e.1)) (timeline_events timeline'))
    as Hn' by (by rewrite Hnow).
  rewrite He in Hin. apply elem_of_app in Hin as [Hin|Hin].
  - left. split; [rewrite Forall_forall in Hp; exact (Hp _ Hin)|].
    apply elem_of_Permutation in Hin as [l' Hl']. exists l'. split; [done|].
    rewrite Hl' in Hp, Hz. apply Forall_cons in Hp as [_ Hp]. cbn [zsum] in Hz.
    pose proof (Permutation_length Hl') as Hlen. simpl in Hlen.
    pose proof (rb_get_nonneg (retained_bytes event)) as Hpos. cbn [snd] in Hz.
    split; rewrite ?Hbd; try done; [|lia|lia].
    rewrite Hev, Hl' in He. by apply Permutation_cons_inv in He.
  - right. destruct deadline as [token'|]; [|by apply elem_of_nil in Hin].
    apply list_elem_of_singleton in Hin. injection Hin as -> ->. split; [done|]. split; [done|].
    split; rewrite ?Hbd; try done. simpl. rewrite app_nil_r.
    rewrite Hev in He. simpl in He. rewrite (Permutation_app_comm l) in He.
    by apply Permutation_cons_inv in He.
Qed.

(** *** Scheduling the actions *)

Definition timely (timeline : Timeline ReplayEvent.t) (a : TimedSlotAction.t) : Prop :=
  before (timeline_now timeline) (TimedSlotAction.at_ a).

Lemma schedule_spec rest : ∀ done timeline l,
  acts = done ++ rest → scheduled timeline l None → length l = length done →
  l ≫= index_of_event ≡ₚ seqZ 0 (Z.of_nat (length done)) →
  Forall (timely timeline) rest → Forall (λ a, sane (TimedSlotAction.action a)) rest →
  zsum (λ e, rb_get (retained_bytes e.2)) l + SlotTrace.bytes_of rest ≤ rb_get maximum →
  ∃ timeline' l',
    SlotSimulator.schedule_actions (Z.of_nat (length done)) rest timeline = (timeline', Ok tt) ∧
    scheduled timeline' l' None ∧ l' ≫= index_of_event ≡ₚ seqZ 0 (Z.of_nat (length acts)).
Proof.
  induction rest as [|a rest IH]; intros don timeline l Hacts Hsc Hlen Hix Htime Hsane Hz.
  { exists timeline, l. rewrite Hacts, app_nil_r. done. }
  apply Forall_cons in Htime as [Hat Htime], Hsane as [Hsa Hsane].
  assert (length don < length acts)%nat as Hlt by (rewrite Hacts, length_app; simpl; lia).
  unfold SlotTrace.bytes_of in Hz. cbn [zsum] in Hz.
  set (event := ReplayEvent.Action (Z.of_nat (length don)) (TimedSlotAction.into_action a)).
  assert (0 ≤ SlotTrace.bytes_of rest) as Hpos
    by (apply zsum_nonneg; intros; apply rb_get_nonneg).
  unfold SlotTrace.bytes_of in Hpos.
  pose proof Hsc as [He Ht Hb Hp Hc Hzz Hn]. simpl in He. rewrite app_nil_r in He.
  assert (rb_get (retained_bytes event) =
    rb_get (SlotAction.retained_bytes (TimedSlotAction.action a))) as Hret by done.
  destruct (timeline_schedule_room timeline (TimedSlotAction.at_ a) event)
    as (timeline' & token & Hs & Htok & Hfresh & Hev & Hbd & Hnow);
    [rewrite Hb, He; simpl; lia|rewrite Hb, He, Hret; simpl; lia|done|].
  cbn [SlotSimulator.schedule_actions]. fold event. rewrite Hs.
  destruct (IH (don ++ [a]) timeline' ((token, event) :: l)) as (timeline2 & l2 & Hr & Hs2 & Hix2).
  - by rewrite <- app_assoc.
  - split; rewrite ?Hbd; try done.
    + rewrite Hev, He. simpl. by rewrite app_nil_r.
    + rewrite Hev. by apply NoDup_cons.
    + constructor; [|done]. exists a. split; [|done].
      rewrite Nat2Z.id, Hacts. apply list_lookup_middle. done.
    + simpl. lia.
    + cbn [zsum snd]. rewrite Hret. lia.
    + rewrite Hnow, Hev. constructor; [by cbn [fst]; rewrite Htok|done].
  - rewrite length_app. simpl. lia.
  - rewrite length_app, Nat.add_comm. simpl length. rewrite Nat.add_1_l, seqZ_S.
    cbn [mbind list_bind index_of_event snd event]. rewrite Hix. simpl.
    by rewrite Permutation_app_comm.
  - eapply Forall_impl; [exact Htime|]. intros x. unfold timely. by rewrite Hnow.
  - done.
  - cbn [zsum snd]. rewrite Hret. unfold SlotTrace.bytes_of. lia.
  - exists timeline2, l2. split; [|done]. rewrite <- Hr. f_equal. rewrite length_app. simpl. lia.
Qed.

End sim_timeline.

(** *** The loop *)

Section sim_loop.
Context {Cal : Calandria} {BB : ByteBudgetLib} {Build : BuildConfig} {H : Host}.
Context {Laws : CalandriaLaws Cal} {BLaws : ByteBudgetLaws BB} {HL : HostLaws H}.
Context {DL : DeadlineLaws H} {Alloc : Allocator} {ALaws : AllocatorLaws Alloc} {Sim : SimHost}.
Context {SHL : SimHostLaws Sim}.
Context (lim : ConnectionSlotLimits.t) (Hlim : valid_limits lim) (ep : ConnectionEpoch.t).
Context (bound : RetainedBytes).
Context (Hbound : rb_get bound ≤ rb_get (ConnectionSlotLimits.transport_retained_bytes lim)).
Context (w0 : SimSlotRuns.world).
Context (H0 : SimSlotRuns.slot_hinv lim ep bound (log (refired 0 w0)) (slot w0, port w0)).
Context (acts : list TimedSlotAction.t) (maximum : RetainedBytes).
Implicit Types (s : ReplayOwner.state) (l : list (EventToken * ReplayEvent.t)).
Import SimSlotRuns.

Definition ordered (obs : list SlotStepObservation.t) : Prop :=
  StronglySorted before (SlotStepObservation.at_ <$> obs).

(** Between two deliveries: every action of the trace was observed or is still
    to come, and what was observed is in the past. *)
Record looping timeline l s : Prop := mk_looping {
  lp_faithful : faithful bound w0 acts s;
  lp_scheduled : scheduled acts maximum timeline l (ReplayOwner.deadline s.1);
  lp_armed : armed s;
  lp_indices : (ReplayOwner.observations s.1 ≫= index_of) ++ (l ≫= index_of_event) ≡ₚ
    seqZ 0 (Z.of_nat (length acts));
  lp_past : Forall (λ o, before (SlotStepObservation.at_ o) (timeline_now timeline))
    (ReplayOwner.observations s.1);
  lp_ordered : ordered (ReplayOwner.observations s.1);
}.

Lemma faithful_deadline s deadline :
  faithful bound w0 acts s → faithful bound w0 acts (ReplayOwner.set_deadline s.1 deadline, s.2).
Proof.
  intros [Hr Ha [(k & w & Hw & [] & Hrest)|Hgone]]; split; try done; [left|by right].
  by exists k, w.
Qed.

Lemma before_trans a b c : before a b → before b c → before a c.
Proof. apply moment_leb_trans. Qed.

Lemma ordered_snoc obs o now :
  ordered obs → Forall (λ x, before (SlotStepObservation.at_ x) now) obs →
  before now (SlotStepObservation.at_ o) → ordered (obs ++ [o]).
Proof.
  intros Ho Hp Hn. unfold ordered. rewrite fmap_app. apply StronglySorted_app_2; [|done|].
  - intros x y Hx Hy. apply list_elem_of_fmap in Hx as (x' & -> & Hx).
    apply list_elem_of_singleton in Hy as ->. rewrite Forall_forall in Hp.
    exact (before_trans _ _ _ (Hp _ Hx) Hn).
  - simpl. repeat constructor.
Qed.

(** One delivery, and the deadline scheduled after it. *)
Lemma loop_step timeline l s timeline' token event :
  looping timeline l s → timeline_pop_next timeline = (timeline', Some (token, event)) →
  ∃ timeline2 l2 s2,
    ReplayOwner.sync_deadline timeline' (ReplayOwner.apply_event token event s) =
      (timeline2, s2, Ok tt) ∧
    looping timeline2 l2 s2 ∧
    length (ReplayOwner.observations s2.1) = S (length (ReplayOwner.observations s.1)).
Proof.
  intros [Hf Hsc Har Hix Hpast Hord] Hpop.
  destruct (scheduled_pop _ _ _ _ _ _ _ _ Hsc Hpop) as (Hle & Hnow & Hcases).
  assert (expected acts s token event) as He.
  { destruct Hcases as [[Hp _]|(-> & Hd & _)]; [by destruct event|exact (Har _ Hd)]. }
  destruct (faithful_event lim Hlim ep bound Hbound w0 H0 acts token event s Hf He) as (Hf' & o & Ho).
  set (s1 := ReplayOwner.apply_event token event s) in *.
  destruct (ob_event _ _ _ _ _ Ho) as (Hat & _ & Hk).
  assert (∃ l', scheduled acts maximum timeline' l' (ReplayOwner.deadline s1.1) ∧
    (l ≫= index_of_event) ≡ₚ index_of o ++ (l' ≫= index_of_event)) as (l' & Hsc' & Hl').
  { rewrite (ob_deadline _ _ _ _ _ Ho). unfold index_of.
    destruct Hcases as [[Hp (l' & Hl & Hs')]|(-> & Hd & Hs')].
    - exists l'. destruct event as [i action|]; [|done]. split; [done|].
      destruct (SlotStepObservation.kind o) as [j r|]; [|done]. destruct Hk as [-> _].
      by rewrite Hl.
    - exists l. unfold undelivered. rewrite bool_decide_true by done. split; [done|].
      by destruct (SlotStepObservation.kind o). }
  destruct (sync_spec acts maximum timeline' l' s1 Hsc') as (timeline2 & d & Hsync & Hsc2 & Har2 & Hn2).
  exists timeline2, l', (ReplayOwner.set_deadline s1.1 d, s1.2). split; [done|].
  cbn [fst ReplayOwner.observations ReplayOwner.set_deadline].
  rewrite (ob_list _ _ _ _ _ Ho). split; [|rewrite length_app; simpl; lia].
  split; cbn [fst ReplayOwner.observations ReplayOwner.set_deadline];
    rewrite ?(ob_list _ _ _ _ _ Ho), ?Hn2, ?Hnow; try done.
  - by apply faithful_deadline.
  - rewrite bind_snoc, <- app_assoc, <- Hl'. exact Hix.
  - apply Forall_app_2.
    + eapply Forall_impl; [exact Hpast|]. intros x Hx. exact (before_trans _ _ _ Hx Hle).
    + constructor; [|done]. rewrite Hat. unfold before. by destruct (moment_leb_total (token_at token) (token_at token)).
  - eapply ordered_snoc; [done|exact Hpast|by rewrite Hat].
Qed.

Lemma looping_count timeline l s :
  looping timeline l s →
  (length (ReplayOwner.observations s.1) ≤ 2 * length acts + 3)%nat.
Proof.
  intros [Hf _ _ Hix _ _]. pose proof (faithful_count lim Hlim ep bound Hbound w0 H0 acts s Hf) as Hc.
  cbv zeta in Hc. apply Permutation_length in Hix. rewrite length_app, length_seqZ in Hix. lia.
Qed.

(** The loop ends, with every action observed. *)
Lemma loop_spec fuel : ∀ timeline l s,
  looping timeline l s →
  (2 * length acts + 3 ≤ fuel + length (ReplayOwner.observations s.1))%nat →
  ∃ s', SlotSimulator.replay_loop fuel timeline s = Some (Ok s') ∧ faithful bound w0 acts s' ∧
    ReplayOwner.observations s'.1 ≫= index_of ≡ₚ seqZ 0 (Z.of_nat (length acts)) ∧
    ordered (ReplayOwner.observations s'.1).
Proof.
  induction fuel as [|fuel IH]; intros timeline l s Hl Hfuel;
    cbn [SlotSimulator.replay_loop];
    destruct (timeline_pop_next timeline) as [timeline' [[token event]|]] eqn:Hpop.
  2, 4: destruct Hl as [Hf Hsc _ Hix _ Ho]; exists s; do 2 (split; [done|]); split; [|done];
    pose proof (sc_events _ _ _ _ _ Hsc) as He; rewrite (timeline_pop_none _ _ Hpop) in He;
    apply Permutation_nil in He; apply app_eq_nil in He as [-> _]; by rewrite app_nil_r in Hix.
  all: destruct (loop_step _ _ _ _ _ _ Hl Hpop) as (timeline2 & l2 & s2 & Hr & Hl2 & Hlen).
  - apply looping_count in Hl2. lia.
  - rewrite Hr. apply (IH _ _ _ Hl2). lia.
Qed.

End sim_loop.
End SimTimeline.
