(* ===== verification/SimTheorems.v ===== *)
(** * What the simulation guarantees

    Theorems about [bornera-sim]: the wire protocol of its slot is a code, its
    transport is an honest transport, its traces stay within their limits, and
    a replay accounts for every operation it submitted. *)
From Stdlib Require Import ZArith Lia.
From stdpp Require Import prelude sorting.
From S2P Require Import Prelude External Host Identity Limits Admission Ledger Operation Permit.
From S2P Require Import Write Framing Machine Core Recovery Reference ReferenceFacts CoreView.
From S2P Require Import Config Transport SlotData SimTrace SimHost SimWire.
From S2P Require Import Slot SlotSpec SlotCalls SlotSystem SlotStanding SimTransport SimReplay SimSlotReplay.
From S2P Require Import SimSlotRuns.

Module SimTheorems.
Section sim_theorems.
Context {Cal : Calandria} {Laws : CalandriaLaws Cal}.

(** ** The wire *)

Import WireSpec.

(** A message on the wire, cut into chunks. *)
Definition sent (maximum : RetainedBytes) (message : MatchKey.t * SimFrame.t)
    (chunks : list (list Byte.byte)) : Prop :=
  in_u32 (MatchKey.get message.1) ∧
  Z.of_nat (length (SimFrame.bytes message.2)) ≤ rb_get maximum ∧
  encode_reply message.1 message.2 = Ok (concat chunks).

Definition received (message : MatchKey.t * SimFrame.t) : SimReply.t :=
  SimReply.mk message.1 (SimFrame.bytes message.2).

Lemma pump_sent maximum self messages (chunks : list (list (list Byte.byte))) :
  holding self [] → SimDecoder.maximum_payload self = maximum →
  Forall2 (sent maximum) messages chunks →
  ∃ self', pump self (concat chunks) = (self', Ok (received <$> messages)) ∧ holding self' [].
Proof.
  intros Hh Hm Hall. revert self Hh Hm.
  induction Hall as [|[key payload] cs messages chunks (Hk & Hlen & He) _ IH]; intros self Hh Hm.
  { by exists self. }
  cbn [fst snd] in *. apply encode_reply_frame in He as (Hkey & Hl & Hd & Htotal); [|done].
  destruct (pump_frame self (concat cs) [] cs Hh eq_refl) as (s1 & Hp & Hh1 & Hm1);
    [lia|lia|rewrite Hl, Hm; lia|simpl; lia|].
  destruct (IH s1 Hh1) as (s2 & Hp2 & Hh2); [by rewrite Hm1|].
  exists s2. split; [|done]. cbn [concat]. rewrite pump_app, Hp, Hp2, Hkey, Hd. done.
Qed.

(** C29: the wire protocol of the simulation round-trips: replies encoded one
    after the other, each cut into any chunks whatever, come out of a new
    decoder that is fed the chunks as exactly the replies that went in, in
    order and each as soon as its last byte is there; and the decoder is left
    retaining nothing. The payloads are those within the maximum the decoder
    was made with. *)
Theorem sim_wire_roundtrip maximum messages (chunks : list (list (list Byte.byte))) :
  Forall2 (sent maximum) messages chunks →
  ∃ self, pump (SimDecoder.new maximum) (concat chunks) = (self, Ok (received <$> messages)) ∧
    SimDecoder.retained_bytes self = rb_ZERO ∧ SimDecoder.header_used self = 0.
Proof.
  intros Hall. destruct (pump_sent maximum (SimDecoder.new maximum) messages chunks)
    as (self & Hp & [_ Hr Hc]); [apply new_holding|done|done|].
  exists self. split; [exact Hp|]. destruct Hc as [(_ & Hu & _ & Hpay & _)|[? _]]; [|simpl in *; lia].
  unfold SimDecoder.retained_bytes. by rewrite Hpay, Hr, Hu.
Qed.

(** ** Traces *)

(** C31: a trace stays within its limits: whatever is offered, an action is
    admitted, at the end, exactly if its count and its bytes still fit, and is
    given back with the trace unchanged otherwise; so that the count kept is
    exact and never above the limits. *)
Theorem sim_trace_bounded limits (offered : list TraceAction.t) action :
  let trace := foldl (λ trace action, (Trace.try_push trace action).1) (Trace.new limits) offered in
  Trace.within trace ∧ Trace.limits trace = limits ∧
  if Trace.fits trace action
  then (Trace.try_push trace action).2 = Ok tt ∧
    Trace.actions (Trace.try_push trace action).1 = Trace.actions trace ++ [action]
  else (Trace.try_push trace action).1 = trace ∧
    ∃ failure, (Trace.try_push trace action).2 = Err (TraceAdmissionError.new action failure).
Proof.
  intros trace. assert (Trace.within trace ∧ Trace.limits trace = limits) as [Hw Hl].
  { subst trace. induction offered as [|a offered IH] using rev_ind.
    - split; [apply Trace.trace_new_within|done].
    - rewrite foldl_snoc. destruct IH as [IHw IHl].
      destruct (Trace.trace_push_spec _ a IHw) as (Hw & Hl & _). split; [done|congruence]. }
  split; [done|]. split; [done|]. apply (Trace.trace_push_spec trace action Hw).
Qed.

(** ** The transport *)

Context {H : Host} {Alloc : Allocator} {ALaws : AllocatorLaws Alloc} {Sim : SimHost}.

Import SimTransport SimTransportSpec.

(** What a replay does to the transport between two drives. *)
Inductive stimulus : Type :=
  | ConnectReady
  | PeerClosed
  | AllowWrite (bytes : Z)
  | InjectRead (bytes : list Byte.byte)
  | Close.

Definition stimulate (self : SimTransport.t) (s : stimulus) : SimTransport.t :=
  match s with
  | ConnectReady => observe_connect_ready self
  | PeerClosed => observe_peer_closed self
  | AllowWrite bytes => allow_write self bytes
  | InjectRead bytes => (inject_read self bytes).1
  | Close => close self
  end.

(** What a transport that is not open cannot become by a call: nothing but
    establishment opens it, exactly when the transport said it could be
    established. *)
Definition stays_shut (t : SimTransport.t) : Prop :=
  (∀ s, tr_is_open (stimulate t s) = false) ∧
  (∀ b, tr_is_open (tr_read t b).1.1 = false) ∧
  (∀ b, tr_is_open (tr_write t b).1 = false) ∧
  (∀ b, tr_is_open (tr_drive_transport t b).1 = false) ∧
  (∀ b, tr_is_open (tr_begin_shutdown t b).1 = false) ∧
  tr_is_open (tr_clear_read t) = false ∧
  tr_is_open (tr_clear_write t) = false ∧
  (∀ policy b, tr_is_open (tr_drive_establishment t policy b).1 = tr_can_establish t).

Lemma never_opens t : tr_is_open t = false → stays_shut t.
Proof.
  unfold stays_shut. cbn [tr_is_open tr_read tr_write tr_drive_transport tr_begin_shutdown
    tr_clear_read tr_clear_write tr_drive_establishment tr_can_establish slot_transport].
  unfold is_open. intros Hshut. pose proof Hshut as Hphase%bool_decide_eq_false.
  assert (∀ s, bool_decide (phase (stimulate t s) = Phase.Open) = false) as Hs.
  { intros [| |n|bytes|]; cbn [stimulate]; try done. unfold inject_read. by destruct (_ <? _). }
  split; [exact Hs|]. unfold read, write, drive_transport, drive_establishment, can_establish.
  rewrite Hshut. cbn [negb fst snd]. repeat split; intros; try done.
  - by destruct (bool_decide (shutdown t = SimShutdownState.Flushing)).
  - destruct (phase t) eqn:Ht; [|done|cbn [fst]; by rewrite Ht].
    destruct (connect_ready t); [done|]. cbn [fst]. by rewrite Ht.
Qed.

(** C30: the simulated transport is a transport the slot can trust: whatever it
    was told, it satisfies [TransportContract] as a trusted transport, under a
    bound that is what its limits allow and that no stimulus moves; it starts
    shut, and of all its methods and stimuli none opens it but establishment,
    which does exactly when the transport said that it could be established. *)
Theorem sim_transport_contract limits self :
  SimTransport.new limits = Ok self →
  ∃ bound (holds : SimTransport.t → Prop),
    TransportContract slot_transport true bound holds ∧
    rb_get bound ≤ rb_get (TransportLimits.retained_bytes limits) ∧
    holds self ∧ tr_is_open self = false ∧
    (∀ t s, holds t → match s with AllowWrite n => 0 ≤ n | _ => True end →
      holds (stimulate t s)) ∧
    (∀ t, tr_is_open t = false → stays_shut t).
Proof.
  intros Hnew. apply new_keeps in Hnew as (Hk & Hle & Hp & _).
  set (bound := TransportLimits.retained_bytes (SimTransport.limits self)) in *.
  exists bound, (keeps bound). split; [apply sim_contract|]. split; [done|]. split; [done|].
  split; [cbn [tr_is_open slot_transport]; unfold is_open; by rewrite Hp|].
  split; [|apply never_opens]. intros t s Ht Hs. destruct s as [| |n|bytes|]; cbn [stimulate].
  - by apply connect_ready_keeps.
  - by apply peer_closed_keeps.
  - by apply allow_write_keeps.
  - by apply (inject_read_spec bound t bytes Ht).
  - by apply close_keeps.
Qed.

End sim_theorems.

(** ** Replay of policy traces *)

Section policy_replay.
Context {Cal : Calandria} {BB : ByteBudgetLib} {Build : BuildConfig}.
Context {Laws : CalandriaLaws Cal} {BLaws : ByteBudgetLaws BB}.
Import Simulator ReplaySpec.

(** C28: a replay accounts for every operation: whatever was traced before,
    short of another recovery, a final recovery gives back exactly the
    operations that were submitted and whose outcome no step published, each
    once; and the first step that fails, if any does, is a report of more bytes
    than remained of the front frame. *)
Theorem sim_replay_accounts self trace before ledger heap :
  ConnectionLimits.valid (SimulationConfig.limits (config self)) →
  Trace.actions trace = before ++ [TraceAction.Recover] → Forall sane before →
  ∃ steps recovery,
    results (ReplayReport.observations (replay self trace ledger heap)) =
      steps ++ [StepResult.Recovered recovery] ∧
    length steps = length before ∧
    NoDup (steps ≫= submitted_of) ∧
    steps ≫= submitted_of ≡ₚ
      (steps ≫= published_of) ++
      (RecoveredOperation.operation <$> ConnectionRecovery.operations recovery) ∧
    (Forall (λ r, failed r = false) steps ∨
     ∃ l1 r l2 action, steps = l1 ++ r :: l2 ∧ Forall (λ r, failed r = false) l1 ∧
       before !! length l1 = Some action ∧ overreported action r).
Proof.
  intros Hv Htrace Hsane. set (limits := SimulationConfig.limits (config self)) in *.
  destruct (fresh_healthy limits self ledger heap Hv eq_refl) as [Hh Hnil].
  pose proof (replay_accounts limits before _ Hh Hnil Hsane) as Ha.
  unfold replay. rewrite Htrace, replay_loop_app.
  destruct (replay_loop 0 before (fresh self ledger heap)) as [s l].
  destruct Ha as (Hlen & Hacc & Hcases).
  assert (healthy limits (results l ≫= published_of) s ∨
    stuck (results l ≫= published_of) s) as Hs by (destruct Hcases as [[? _]|[? _]]; auto).
  pose proof (recover_accounts limits _ s Hs) as Hr. cbn [apply].
  destruct (recover s) as [[[core' heap'] a'] r]. destruct Hr as (recovery & -> & Hn & Hp).
  exists (results l), recovery. cbn [ReplayReport.observations].
  unfold results at 1. rewrite fmap_app. split; [done|]. split; [done|].
  rewrite Hacc in Hn, Hp. split; [done|]. split; [done|].
  destruct Hcases as [[_ ?]|[_ ?]]; auto.
Qed.

End policy_replay.

(** ** Replay of slot traces *)

Section slot_replay.
Context {Cal : Calandria} {BB : ByteBudgetLib} {Build : BuildConfig} {H : Host}.
Context {Laws : CalandriaLaws Cal} {BLaws : ByteBudgetLaws BB} {HL : HostLaws H}.
Context {DL : DeadlineLaws H} {Alloc : Allocator} {ALaws : AllocatorLaws Alloc} {Sim : SimHost}.
Context {SHL : SimHostLaws Sim}.
Import Hosted SlotSystem SlotRuns.
Import SlotSimulator SimSlotRuns SimTimeline SimTransportSpec.

(** A trace that can be replayed: it was admitted, its stimuli make sense, none
    is before the start of time, and it is short enough to be counted. *)
Record replayable (self : SlotSimulator.t) (trace : SlotTrace.t) : Prop := mk_replayable {
  rp_limits : Hosted.valid_limits (SlotSimulationConfig.limits (config self));
  rp_within : SlotTrace.within trace;
  rp_count : 2 * Z.of_nat (length (SlotTrace.actions trace)) + 1 ≤ USIZE_MAX;
  rp_sane : Forall (λ a, sane (TimedSlotAction.action a)) (SlotTrace.actions trace);
  rp_timely : ∀ capacity, Forall (timely
    (timeline_new (SlotSimulationConfig.timeline (config self)) (timeline_limits_new capacity
      (SlotTraceLimits.retained_bytes (SlotTrace.limits trace))))) (SlotTrace.actions trace);
}.

(** The whole of a replay, but for the construction of its slot. *)
Lemma replay_whole fuel self trace ledger heap :
  replayable self trace → (2 * length (SlotTrace.actions trace) + 3 ≤ fuel)%nat →
  replay fuel self trace ledger heap = Some (Err SlotReplayError.SlotConstruction) ∨
  replay fuel self trace ledger heap = Some (Err SlotReplayError.TransportConstruction) ∨
  ∃ bound w0 s,
    SimSlotRuns.slot_hinv (SlotSimulationConfig.limits (config self))
      (ConnectionIdentity.epoch (ConnectionSlotConfig.identity (SlotSimulationConfig.slot (config self))))
      bound (SlotSystem.log (SlotRuns.refired 0 w0)) (SlotSystem.slot w0, SlotSystem.port w0) ∧
    rb_get bound ≤ rb_get (ConnectionSlotLimits.transport_retained_bytes
      (SlotSimulationConfig.limits (config self))) ∧
    replay fuel self trace ledger heap = Some (Ok (ReplayOwner.report s)) ∧
    faithful bound w0 (SlotTrace.actions trace) s ∧
    ReplayOwner.observations s.1 ≫= index_of ≡ₚ
      seqZ 0 (Z.of_nat (length (SlotTrace.actions trace))) ∧
    ordered (ReplayOwner.observations s.1).
Proof.
  intros [Hlim Hwithin Hcount Hsane Htime] Hfuel. unfold replay.
  set (acts := SlotTrace.actions trace) in *.
  rewrite usize_checked_add_le by lia. cbn [mbind option_bind]. unfold nonzero_new.
  rewrite (proj2 (Z.eqb_neq _ 0)) by lia.
  set (limits := SlotSimulationConfig.limits (config self)) in *.
  set (maximum := SlotTraceLimits.retained_bytes (SlotTrace.limits trace)) in *.
  set (capacity := mk_nonzero (Z.of_nat (length acts) + 1)).
  destruct (timeline_new_events (E := ReplayEvent.t) (SlotSimulationConfig.timeline (config self))
    capacity maximum) as [Hnil Hbd].
  set (timeline := timeline_new _ _) in *.
  destruct (schedule_spec acts maximum acts [] timeline [])
    as (timeline1 & l1 & Hs1 & Hsc1 & Hix1); try done.
  { split; rewrite ?Hnil, ?Hbd; simpl; try done; [constructor|lia|apply rb_get_nonneg]. }
  { by apply Htime. }
  { destruct Hwithin as (_ & Hz & Hle). simpl. fold acts in Hz. rewrite <- Hz. exact Hle. }
  change (Z.of_nat (length [])) with 0 in Hs1. rewrite Hs1.
  unfold usize_checked_mul. rewrite (proj2 (Z.leb_le _ _)) by lia. cbn [mbind option_bind].
  rewrite usize_checked_add_le by lia. unfold replay_owner. fold limits.
  destruct (ConnectionSlot.new _ _ _ _ _ _) as [heap1 [slot|]] eqn:Hnew; [|by left].
  unfold ReplayOwner.new.
  destruct (SimTransport.new _) as [transport|] eqn:Htr; [|by right; left]. right; right.
  apply new_keeps in Htr as (Hk & Hle & Hph & _).
  set (bound := TransportLimits.retained_bytes (SimTransport.limits transport)) in *.
  set (w0 := SlotSystem.mk_world (T := SimTransport.t) (slot, heap1) (Some transport)
    (Hosted.mk_notes [] [] [] [] 0)).
  assert (SlotRuns.good limits (ConnectionIdentity.epoch (ConnectionSlotConfig.identity
    (SlotSimulationConfig.slot (config self)))) true bound (keeps bound) w0) as [H0|[? _]]; [|idtac|done].
  { eapply (SlotRuns.start_good limits Hlim _ true bound (keeps bound) _ _ _ _ _ (Some transport));
      [reflexivity| |unfold SlotSystem.start; rewrite Hnew; reflexivity].
    split; [done|]. intros _. cbn [tr_is_open SimTransport.slot_transport].
    unfold SimTransport.is_open. by rewrite Hph. }
  set (s := (ReplayOwner.mk (Some slot) transport [] [] None None
    (latest (TimedSlotAction.at_ <$> acts)), heap1)).
  destruct (sync_spec acts maximum timeline1 l1 s Hsc1) as (timeline2 & d & Hsync & Hsc2 & Har & _).
  match goal with |- context [ReplayOwner.sync_deadline timeline1 ?x] => change x with s end.
  rewrite Hsync. destruct (loop_spec limits Hlim _ bound Hle w0 H0 acts maximum fuel timeline2 l1
    (ReplayOwner.set_deadline s.1 d, s.2)) as (s' & Hloop & Hf & Hix & Ho).
  { split; try done; [|constructor]. split; [done|constructor|]. left. exists 0%nat, w0.
    split; [constructor|]. by repeat (split; auto). }
  { simpl. lia. }
  exists bound, w0, s'. rewrite Hloop. by repeat (split; auto).
Qed.

(** C27: the replay of a slot trace ends: fuel for twice the actions and three
    deadlines more is enough, for a trace that never closes the slot for the
    reason [Drained] (such a close can fail the slot). Unless the
    slot or its transport cannot be constructed it returns a report, in which
    every action of the trace is observed exactly once, at its own moment, in
    the order of time, answered by a result of its kind or rejected because the
    slot was recovered; and no drive fails. *)
Theorem sim_slot_replay_ends fuel self trace ledger heap :
  replayable self trace → (2 * length (SlotTrace.actions trace) + 3 ≤ fuel)%nat →
  ∃ r, replay fuel self trace ledger heap = Some r ∧
    match r with
    | Err e => e = SlotReplayError.SlotConstruction ∨ e = SlotReplayError.TransportConstruction
    | Ok report =>
        let obs := SlotReplayReport.observations report in
        obs ≫= index_of ≡ₚ seqZ 0 (Z.of_nat (length (SlotTrace.actions trace))) ∧
        (length obs ≤ 2 * length (SlotTrace.actions trace) + 3)%nat ∧
        StronglySorted (λ a b, moment_leb a b = true) (SlotStepObservation.at_ <$> obs) ∧
        Forall (answered (SlotTrace.actions trace)) obs
    end.
Proof.
  intros Hr Hfuel. pose proof (rp_limits _ _ Hr) as Hlim.
  destruct (replay_whole fuel self trace ledger heap Hr Hfuel)
    as [H1|[H1|(bound & w0 & s & H0 & Hb & H1 & Hf & Hix & Ho)]].
  1, 2: eexists; split; [exact H1|]; first [by left|by right].
  eexists. split; [exact H1|]. destruct s as [owner heap']. cbv zeta.
  cbn [ReplayOwner.report SlotReplayReport.observations fst] in *.
  pose proof (faithful_count _ Hlim _ _ Hb _ H0 _ _ Hf) as Hc. cbv zeta in Hc. cbn [fst] in Hc.
  rewrite Hix, length_seqZ, Nat2Z.id in Hc. split; [exact Hix|]. split; [exact Hc|].
  split; [exact Ho|]. exact (fa_answered _ _ _ _ Hf).
Qed.

(** What a recovery in the trace leaves in the report. *)
Lemma faithful_recovered bound w0 acts s :
  faithful bound w0 acts s →
  ReplayOwner.observations s.1 ≫= index_of ≡ₚ seqZ 0 (Z.of_nat (length acts)) →
  Exists (λ a, ∃ why, TimedSlotAction.action a = SlotAction.Recover why) acts →
  ¬ Forall (λ o, lost o = false) (ReplayOwner.observations s.1).
Proof.
  intros [_ Ha _] Hix (a & Hin & why & Hact)%Exists_exists Hnone.
  apply list_elem_of_lookup in Hin as [i Hi]. pose proof (lookup_lt_Some _ _ _ Hi) as Hlt.
  assert (Z.of_nat i ∈ ReplayOwner.observations s.1 ≫= index_of) as Hin
    by (rewrite Hix; apply elem_of_seqZ; lia).
  apply list_elem_of_bind in Hin as (o & Hio & Ho). rewrite Forall_forall in Ha, Hnone.
  specialize (Ha _ Ho) as [_ Ha]. specialize (Hnone _ Ho). unfold index_of in Hio. unfold lost in Hnone.
  destruct (SlotStepObservation.kind o) as [j r|]; [|by apply elem_of_nil in Hio].
  apply list_elem_of_singleton in Hio as <-. rewrite Nat2Z.id in Ha.
  destruct Ha as (a' & Ha' & _ & Hr). assert (a' = a) as -> by congruence. rewrite Hact in Hr.
  destruct Hr as [Hr| ->]; [|done]. by destruct r.
Qed.

(** C26: a replay of a slot trace that never closes the slot for the reason
    [Drained] accounts for every operation: those it submitted, all different,
    are those an observation publishes the outcome of, those the one recovery
    gives back, and those still owed at the end; and when the trace has the slot
    recovered none is owed. *)
Theorem sim_slot_replay_accounts fuel self trace ledger heap report :
  replayable self trace → (2 * length (SlotTrace.actions trace) + 3 ≤ fuel)%nat →
  replay fuel self trace ledger heap = Some (Ok report) →
  let obs := SlotReplayReport.observations report in
  NoDup (obs ≫= submitted_by) ∧
  ∃ owed, obs ≫= submitted_by ≡ₚ (obs ≫= published_by) ++ (obs ≫= returned_by) ++ owed ∧
    (Exists (λ a, ∃ why, TimedSlotAction.action a = SlotAction.Recover why)
       (SlotTrace.actions trace) → owed = []).
Proof.
  intros Hr Hfuel Hrep. pose proof (rp_limits _ _ Hr) as Hlim.
  destruct (replay_whole fuel self trace ledger heap Hr Hfuel)
    as [H1|[H1|(bound & w0 & s & H0 & Hb & H1 & Hf & Hix & Ho)]]; [congruence..|].
  assert (report = ReplayOwner.report s) as -> by congruence. clear H1 Hrep.
  pose proof (faithful_recovered _ _ _ _ Hf Hix) as Hrec. destruct Hf as [_ _ Hp]. cbv zeta in Hp.
  assert (SlotReplayReport.observations (ReplayOwner.report s) = ReplayOwner.observations s.1) as ->
    by by destruct s.
  destruct Hp as [(k & w & Hw & _ & Hsub & Hpub & Hret & Hlost & _)|(_ & Hnd & Hacc & _)].
  - pose proof (SlotStanding.sound_whole _ _ _ _ (running_sound _ Hlim _ _ Hb _ H0 _ _ Hw))
      as [(entries & _ & _ & [Hn _]) [Honce _ _ _ _] _ _ _].
    cbn [accepted delivered log refired] in *. rewrite Hsub, Hpub, Hret.
    apply NoDup_app in Hn as (Hn & _). split; [exact Hn|].
    exists ((EngineOutcome.operation <$> batch_items (ConnectionSlot.outcomes (slot w).1)) ++
      Told.live (SlotCalls.view (slot w))).
    split; [|intros Hex; by destruct (Hrec Hex)].
    rewrite Honce, fmap_app, <- app_assoc. done.
  - split; [done|]. exists []. rewrite app_nil_r. by split.
Qed.

End slot_replay.
End SimTheorems.
