(* ===== verification/SimWitnesses.v ===== *)
(** * A concrete simulation

    [sim_lists] implements the third-party parts of [SimHost] by lists, over
    the host of [HostSample]; the replays of [bornera-sim] are evaluated here
    on small traces, and the theorems about them applied. *)
From Stdlib Require Import ZArith Lia.
From Stdlib Require Strings.Byte.
From stdpp Require Import prelude.
From S2P Require Import Prelude External Identity Limits Admission Ledger Operation Permit.
From S2P Require Import Write Framing Machine Core Recovery Reference CoreView Sample Host.
From S2P Require Import Config Transport SlotData Slot HostSample SimTrace SimHost SimWire.
From S2P Require Import SimTransport SimReplay SimSlotReplay SimSlotRuns SimTheorems.

Module SimLists.

#[export] Existing Instance calandria_u64.
#[export] Existing Instance calandria_u64_laws.
#[export] Existing Instance HostLists.host_lists.
#[export] Existing Instance HostLists.host_lists_laws.
#[export] Existing Instance HostLists.host_lists_deadlines.

(** An allocator that gives exactly what is asked for, and doubles. *)
#[export] Instance exact_allocator : Allocator := {
  reserve_exact n := Some n;
  reserve_more capacity room := Z.max room (2 * capacity);
}.

#[export] Instance exact_allocator_laws : AllocatorLaws exact_allocator.
Proof. split. intros n c [_ Hn] [= <-]. lia. Qed.

(** A timeline is its bounds, its time, and its events under their tokens. *)
Definition timeline (E : Type) : Type := (Z * Z) * Z * list ((Z * Z) * E).

(** A number no event has. *)
Definition fresh {E : Type} (t : timeline E) : Z := foldr (λ e m, Z.max (e.1.1 + 1) m) 0 t.2.

Definition schedule {E : Type} `{!Retained E} (t : timeline E) (m : Z) (e : E)
    : timeline E * result (Z * Z) unit :=
  if (Z.of_nat (length t.2) <? t.1.1.1)
     && (zsum (λ x, u64_val (retained_bytes x.2)) t.2 + u64_val (retained_bytes e) <=? t.1.1.2)
     && (t.1.2 <=? m)
  then ((t.1, t.2 ++ [((fresh t, m), e)]), Ok (fresh t, m))
  else (t, Err tt).

(** The earliest event, the first of them, and the others. *)
Fixpoint earliest {E : Type} (l : list ((Z * Z) * E)) : option (((Z * Z) * E) * list ((Z * Z) * E)) :=
  match l with
  | [] => None
  | e :: l =>
      match earliest l with
      | None => Some (e, l)
      | Some (e', l') => if e.1.2 <=? e'.1.2 then Some (e, l) else Some (e', e :: l')
      end
  end.

Definition pop {E : Type} (t : timeline E) : timeline E * option ((Z * Z) * E) :=
  match earliest t.2 with
  | None => (t, None)
  | Some (e, l) => ((t.1.1, e.1.2, l), Some e)
  end.

#[export] Instance sim_lists : SimHost := {
  moment_dec := Z.eq_dec;
  moment_leb := Z.leb;
  deadline_moment d := d;
  interest_READABLE := false;
  interest_WRITABLE := true;
  interest_BOTH := true;
  TimelineId := unit;
  TimelineLimits := Z * Z;
  timeline_limits_new n b := (nonzero_get n, u64_val b);
  Timeline := timeline;
  EventToken := Z * Z;
  event_token_dec := prod_eq_dec;
  token_at := snd;
  ScheduleFailure := unit;
  timeline_new E _ limits := (limits, 0, []);
  timeline_now E t := t.1.2;
  timeline_schedule_at E _ t m e := schedule t m e;
  timeline_cancel E t token := (t.1, filter (λ e, e.1 ≠ token) t.2);
  timeline_pop_next E t := pop t;
}.

Lemma token_above {E : Type} (l : list ((Z * Z) * E)) e m :
  e ∈ l → e.1.1 < foldr (λ e m, Z.max (e.1.1 + 1) m) m l.
Proof. induction 1; simpl; lia. Qed.

Lemma earliest_spec {E : Type} (l : list ((Z * Z) * E)) :
  match earliest l with
  | None => l = []
  | Some (e, l') => l ≡ₚ e :: l' ∧ Forall (λ x, (e.1.2 <=? x.1.2) = true) l'
  end.
Proof.
  induction l as [|e l IH]; [done|]. simpl. destruct (earliest l) as [[e' l']|].
  - destruct IH as [Hp Hall]. destruct (Z.leb_spec e.1.2 e'.1.2).
    + split; [done|]. rewrite Hp. constructor; [by apply Z.leb_le|].
      eapply Forall_impl; [exact Hall|]. intros x Hx%Z.leb_le. apply Z.leb_le. lia.
    + split; [rewrite Hp; constructor|]. constructor; [apply Z.leb_le; lia|done].
  - by subst l.
Qed.

#[export] Instance sim_lists_laws : SimHostLaws sim_lists.
Proof.
  unshelve refine {|
    timeline_events E t := snd (t : timeline E);
    timeline_bound E t := (fst (t : timeline E)).1 |}; simpl.
  - intros a b. rewrite !Z.leb_le. lia.
  - intros a b c. rewrite !Z.leb_le. lia.
  - done.
  - done.
  - intros E R [[[n b] now] l] m e Hn Hb Hm. unfold schedule. simpl in *.
    rewrite (proj2 (Z.ltb_lt _ _) Hn), (proj2 (Z.leb_le _ _) Hb), Hm. eexists _, _.
    split; [reflexivity|]. split; [done|]. split; [|split; [|done]].
    + intros (x & Hx & Hin)%list_elem_of_fmap. apply (token_above l x 0) in Hin.
      unfold fresh in Hx. simpl in *. rewrite <- Hx in Hin. simpl in Hin. lia.
    + by rewrite Permutation_app_comm.
  - done.
  - intros E t t' token e. unfold pop. pose proof (earliest_spec t.2) as Hs.
    destruct (earliest t.2) as [[x l]|]; [|done]. intros [= <- ->]. destruct Hs as [Hp Hall].
    by split_and!.
  - intros E t t'. unfold pop. pose proof (earliest_spec t.2) as Hs.
    by destruct (earliest t.2) as [[x l]|].
Defined.

End SimLists.

(** ** The simulation theorems at work

    Each theorem about the simulation applied to a concrete trace over the
    host of [SimSample]. *)

Module SimWitnesses.

Import SimLists SimTheorems ReplaySpec.
Existing Instance bytebudget_u64.
Existing Instance bytebudget_u64_laws.
Existing Instance Sample.build.

(** ** The wire *)

Definition frame (bytes : list Byte.byte) : SimFrame.t :=
  SimFrame.mk bytes (u64_of (Z.of_nat (length bytes))).

(** A maximum of eight bytes. *)
Definition eight : RetainedBytes := u64_of 8.

(** A reply of two bytes in three chunks, and an empty one in one chunk. *)
Definition messages : list (MatchKey.t * SimFrame.t) :=
  [(MatchKey.new 258, frame [Byte.x68; Byte.x69]); (MatchKey.new 7, frame [])].

Definition chunks : list (list (list Byte.byte)) :=
  [ [[Byte.x00; Byte.x00; Byte.x01]; []; [Byte.x02; Byte.x00; Byte.x00; Byte.x00; Byte.x02; Byte.x68];
     [Byte.x69]];
    [[Byte.x00; Byte.x00; Byte.x00; Byte.x07; Byte.x00; Byte.x00; Byte.x00; Byte.x00]] ].

Lemma chunks_sent : Forall2 (sent eight) messages chunks.
Proof.
  repeat constructor; try (vm_compute; reflexivity); try (vm_compute; discriminate).
Qed.

Lemma messages_received :
  received <$> messages =
    [SimReply.mk (MatchKey.new 258) [Byte.x68; Byte.x69]; SimReply.mk (MatchKey.new 7) []].
Proof. reflexivity. Qed.

Lemma sim_wire_roundtrip_witness :
  ∃ self, WireSpec.pump (SimDecoder.new eight) (concat chunks) =
    (self, Ok [SimReply.mk (MatchKey.new 258) [Byte.x68; Byte.x69]; SimReply.mk (MatchKey.new 7) []]).
Proof.
  destruct (sim_wire_roundtrip eight messages chunks chunks_sent) as (self & Hp & _).
  exists self. rewrite <- messages_received. exact Hp.
Defined.

(** ** The transport *)

Definition transport_limits : TransportLimits.t := TransportLimits.new (u64_of 32).

Lemma transport_new : ∃ self, SimTransport.new transport_limits = Ok self.
Proof.
  assert (is_ok (SimTransport.new transport_limits) = true) as Hok by (vm_compute; reflexivity).
  destruct (SimTransport.new transport_limits) as [self|]; [by exists self|done].
Qed.

Lemma sim_transport_contract_witness :
  ∃ self bound (holds : SimTransport.t → Prop),
    SimTransport.new transport_limits = Ok self ∧
    TransportContract SimTransport.slot_transport true bound holds ∧ holds self.
Proof.
  destruct transport_new as [self Hnew]. exists self.
  destruct (sim_transport_contract transport_limits self Hnew) as (bound & holds & Hc & _ & Hh & _).
  exists bound, holds. exact (conj Hnew (conj Hc Hh)).
Defined.

(** ** A policy trace *)

Definition config : SimulationConfig.t :=
  SimulationConfig.new (EndpointId.new 0) (LaneId.new 0) (ConnectionId.new 0) Sample.epoch
    Sample.limits.

(** Two operations are submitted, and a third for which there is no room; the
    first frame is written and answered; then more bytes are reported than the
    second frame has, and the core fails closed. *)
Definition before : list TraceAction.t :=
  [ TraceAction.OpenAdmission EpochTarget.Current;
    TraceAction.Submit (1 : Moment) Sample.regular (frame [Byte.x68; Byte.x69]);
    TraceAction.Submit (1 : Moment) Sample.regular (frame [Byte.x6a]);
    TraceAction.Submit (1 : Moment) Sample.regular (frame [Byte.x6b]);
    TraceAction.AdvanceWrite 2;
    TraceAction.Reply (OperationIndex.new 0) (frame [Byte.x01]) EpochTarget.Stale;
    TraceAction.Reply (OperationIndex.new 0) (frame [Byte.x01]) EpochTarget.Current;
    TraceAction.AdvanceWrite 5;
    TraceAction.Cancel (OperationIndex.new 1) EpochTarget.Current ].

(** Ten bytes. *)
Definition ten : RetainedBytes := u64_of 10.

Definition trace : Trace.t :=
  foldl (λ t a, (Trace.try_push t a).1) (Trace.new (TraceLimits.new (mk_nonzero 10) ten))
    (before ++ [TraceAction.Recover]).

Lemma trace_actions : Trace.actions trace = before ++ [TraceAction.Recover].
Proof. reflexivity. Qed.

Lemma before_sane : Forall sane before.
Proof. repeat constructor; vm_compute; discriminate. Qed.

Definition report : ReplayReport.t :=
  Simulator.replay (Simulator.new config) trace Sample.ledger Sample.heap.

Lemma report_results :
  (results (ReplayReport.observations report) ≫= submitted_of) =
    [OperationId.new 0; OperationId.new 1] ∧
  (results (ReplayReport.observations report) ≫= published_of) = [OperationId.new 0] ∧
  existsb failed (results (ReplayReport.observations report)) = true.
Proof. vm_compute. repeat split; reflexivity. Qed.

Lemma sim_replay_accounts_witness :
  (results (ReplayReport.observations report) ≫= published_of) = [OperationId.new 0] ∧
  ∃ steps recovery,
    results (ReplayReport.observations report) = steps ++ [StepResult.Recovered recovery] ∧
    steps ≫= submitted_of ≡ₚ
      (steps ≫= published_of) ++
      (RecoveredOperation.operation <$> ConnectionRecovery.operations recovery).
Proof.
  split; [exact (proj1 (proj2 report_results))|].
  destruct (sim_replay_accounts (Simulator.new config) trace before Sample.ledger Sample.heap
    Sample.limits_are_valid trace_actions before_sane) as (steps & recovery & Hr & _ & _ & Hp & _).
  exists steps, recovery. exact (conj Hr Hp).
Defined.

(** The trace is full: a further action is given back. *)
Lemma trace_full : Trace.fits trace TraceAction.Recover = false.
Proof. vm_compute. reflexivity. Qed.

Lemma sim_trace_bounded_witness :
  Trace.within trace ∧ (Trace.try_push trace TraceAction.Recover).1 = trace.
Proof.
  destruct (sim_trace_bounded (TraceLimits.new (mk_nonzero 10) ten) (before ++ [TraceAction.Recover])
    TraceAction.Recover) as (Hw & _ & Hfits).
  split; [exact Hw|]. change (if Trace.fits trace TraceAction.Recover then
    (Trace.try_push trace TraceAction.Recover).2 = Ok tt ∧
    Trace.actions (Trace.try_push trace TraceAction.Recover).1 =
      Trace.actions trace ++ [TraceAction.Recover]
    else (Trace.try_push trace TraceAction.Recover).1 = trace ∧
      ∃ failure, (Trace.try_push trace TraceAction.Recover).2 =
        Err (TraceAdmissionError.new TraceAction.Recover failure)) in Hfits.
  rewrite trace_full in Hfits. exact (proj1 Hfits).
Defined.

(** ** A slot trace *)

Import SlotSimulator SimSlotRuns SimTimeline.

Definition slot_config : SlotSimulationConfig.t :=
  SlotSimulationConfig.new SlotSample.config SlotSample.limits tt.

Definition lasting : OperationOptions.t :=
  OperationOptions.write_retained_bytes (OperationOptions.until (30 : Deadline)) (u64_of 8).

(** Two operations are submitted once the connection is there; the frame of the
    first is written and answered, the deadline of the second elapses, and the
    slot is recovered with a third in flight. *)
Definition slot_actions : list (Z * SlotAction.t) :=
  [ (0, SlotAction.ConnectReady);
    (1, SlotAction.OpenAdmission);
    (1, SlotAction.Submit Sample.regular (frame [Byte.x68; Byte.x69]));
    (1, SlotAction.Submit Sample.regular (frame [Byte.x6a]));
    (2, SlotAction.WriteReady 2);
    (3, SlotAction.Reply (OperationIndex.new 0) (frame [Byte.x01]));
    (4, SlotAction.Drive);
    (5, SlotAction.Drive);
    (12, SlotAction.Submit lasting (frame [Byte.x6b]));
    (14, SlotAction.Recover OwnerFailure.OwnerInvariant);
    (15, SlotAction.Drive) ].

Definition slot_trace : SlotTrace.t :=
  foldl (λ t a, (SlotTrace.try_push t (a.1 : Moment) a.2).1)
    (SlotTrace.new (SlotTraceLimits.new (mk_nonzero 11) ten)) slot_actions.

Local Notation slot_replayed :=
  (SlotSimulator.replay 25 (SlotSimulator.new slot_config) slot_trace Sample.ledger Sample.heap).

(** Something of the report, and nothing if there is none. *)
Definition reported {A : Type} (f : list SlotStepObservation.t → list A) : list A :=
  match slot_replayed with
  | Some (Ok report) => f (SlotReplayReport.observations report)
  | _ => []
  end.

Lemma slot_trace_within : SlotTrace.within slot_trace.
Proof.
  unfold slot_trace. generalize (SlotTrace.slot_trace_new_within (SlotTraceLimits.new (mk_nonzero 11) ten)).
  generalize (SlotTrace.new (SlotTraceLimits.new (mk_nonzero 11) ten)).
  induction slot_actions as [|a l IH]; intros t Ht; [exact Ht|].
  apply IH, SlotTrace.slot_trace_push_within, Ht.
Qed.

Lemma slot_trace_actions :
  SlotTrace.actions slot_trace = (λ a, TimedSlotAction.mk (a.1 : Moment) a.2) <$> slot_actions.
Proof. reflexivity. Qed.

Lemma slot_trace_replayable : replayable (SlotSimulator.new slot_config) slot_trace.
Proof.
  split; [exact SlotSample.limits_valid|exact slot_trace_within|..]; rewrite slot_trace_actions.
  - vm_compute. discriminate.
  - repeat constructor; try discriminate; vm_compute; discriminate.
  - intros capacity. repeat constructor.
Qed.

Lemma slot_trace_length : (2 * length (SlotTrace.actions slot_trace) + 3 ≤ 25)%nat.
Proof. rewrite slot_trace_actions. vm_compute. repeat constructor. Qed.

(** Between the actions one deadline elapses, at 10. *)
Lemma sim_slot_replay_ends_witness :
  reported (λ obs, SlotStepObservation.at_ <$> obs) = [0; 1; 1; 1; 2; 3; 4; 5; 10; 12; 14; 15] ∧
  ∃ r, slot_replayed = Some r.
Proof.
  split; [vm_compute; reflexivity|].
  destruct (sim_slot_replay_ends 25 (SlotSimulator.new slot_config) slot_trace Sample.ledger
    Sample.heap slot_trace_replayable slot_trace_length) as (r & Hr & _).
  exists r. exact Hr.
Defined.

Lemma slot_replayed_report : ∃ report, slot_replayed = Some (Ok report).
Proof.
  assert (match slot_replayed with Some (Ok _) => true | _ => false end = true) as Hok
    by (vm_compute; reflexivity).
  destruct slot_replayed as [[report|]|]; [by exists report|done..].
Qed.

(** Of three operations one is answered, one is too late and one recovered. *)
Lemma sim_slot_replay_accounts_witness :
  (reported (λ obs, obs ≫= submitted_by), reported (λ obs, obs ≫= published_by),
     reported (λ obs, obs ≫= returned_by)) =
    ([OperationId.new 0; OperationId.new 1; OperationId.new 2],
     [OperationId.new 0; OperationId.new 1], [OperationId.new 2]) ∧
  ∃ report, slot_replayed = Some (Ok report) ∧
    NoDup (SlotReplayReport.observations report ≫= submitted_by).
Proof.
  split; [vm_compute; reflexivity|]. destruct slot_replayed_report as [report Hr].
  exists report. split; [exact Hr|].
  exact (proj1 (sim_slot_replay_accounts 25 (SlotSimulator.new slot_config) slot_trace
    Sample.ledger Sample.heap report slot_trace_replayable slot_trace_length Hr)).
Defined.

End SimWitnesses.
